(* ===== verification/_CoqProject ===== *)
-Q . S2P
Prelude.v
Str.v
Scan.v
NxtList.v
HttpFields.v
HttpHeader.v
HttpTarget.v
HttpRequest.v
HttpMessage.v
Chunk.v
ChunkBody.v
Utf8.v
Uri.v
Base64.v
Parse.v
Sprintf.v
VarEscape.v
Murmur.v
Lvlhsh.v
ConfValue.v
ConfHash.v
ConfParse.v
ConfLex.v
ConfGrammar.v
ConfRoundtrip.v
ConfOps.v
Atomic.v
Nncq.v
SlotQueue.v
PortQueue.v
PortFifo.v
AppQueue.v
AppClaim.v
Heap.v
Rbtree.v
RbInsert.v
RbDelete.v
RbWalk.v
RbSpec.v
Timer.v
TimerCommit.v
TimerOps.v
TimerSpec.v
NxtArray.v
RoutePattern.v
RouteGlob.v
Args.v
Inet.v
Qsort.v
RouteAddr.v
RouteAddrSpec.v
Var.v
VarSpec.v
Tstr.v
TstrSpec.v
HttpReq.v
HttpVars.v
HttpVarsSpec.v
HttpTemplate.v
Route.v
RouteSpec.v
