(* ===== verification/Prelude.v ===== *)
(** * FreeUnit: a verification library for the core logic of the server

    FreeUnit is an application server in C.  A router process accepts HTTP
    connections, parses requests, finds their route and passes them over
    shared memory and ports to application processes; a controller process
    keeps the configuration, which its clients read and change as JSON through
    a control API.  The library models the parts of both processes whose
    behaviour is decided by their own code: the parsers and encoders of what
    comes from the network, the hash tables and lists they are built on, and
    the configuration from its text to its edits.  Names of definitions are
    the names of the C functions (files are those of src/src/); a helper that
    models a loop or a branch of a function names it in its comment.

    ** Conventions

    - A byte is an integer [Z] in 0..255, a pointer into a buffer is an offset
      [nat] and a buffer is the list of its bytes.  The model is that of a
      64-bit little-endian machine: [u8], [u32], [u64] and [s64] write out the
      wrap-around wherever the source computes at that width.
    - A function returns an [outcome]: [Ret], [Fault] for an access outside the
      memory it was given, [OutOfFuel] when the bound of a loop is too small.
      The safety theorems exclude [Fault]; they are total, so they exclude
      [OutOfFuel] as well.
    - Code that allocates is a computation in [Alloc]; the oracle [alloc] says
      which request finds memory, and the theorems hold for every oracle.
    - Fuel is the length of the text that is left (each iteration consumes a
      byte), the depth of a value (each call descends a level), or a constant
      where the number of rounds is one; every theorem below proves that the
      fuel which the definitions pass is enough.

    - Code on linked structures is a computation in [ST] on the heap of its
      cells (Heap.v), where a read through a wild pointer is a [Fault]; its
      theorems are total-correctness triples [wp].  Loops over such structures
      have the number of cells as their fuel.

    ** The files

    Foundations: this file (outcomes, allocation, machine integers, tactics,
    the hint database [nxt], lemmas on lists and windows of buffers), Scan.v
    (the loops that are unrolled 4, 8, 10 or 16 times compute the
    byte-at-a-time scan), NxtList.v (nxt_list.c: lists in parts), Lvlhsh.v
    (nxt_lvlhsh.c: the level hash, with the counts in its pointers, its holes
    and its conversions, is a finite map for every sequence of operations, and
    an iteration visits every value once).

    Strings and numbers: Str.v (nxt_string.c: comparison, search, versions),
    Utf8.v (nxt_utf8.c: decoder, encoder, checks and sanitizer are those of
    well-formed UTF-8), Uri.v (percent encoding in nxt_string.c with its users
    in nxt_http_return.c and nxt_h1proto.c: the count pass announces what the
    write pass writes, decoding is right in place, encoding is undone by
    decoding), Base64.v (nxt_base64_decode against RFC 4648), Parse.v
    (nxt_parse.c: values, limits and errors of the decimal parsers).

    HTTP requests (nxt_http_parse.c): HttpFields.v (the resumable header
    parser: safe on every input, and parsing in pieces is parsing the whole),
    HttpHeader.v (every header of the grammar is accepted with its fields and
    hashes), HttpTarget.v (the state machine that normalizes targets refines a
    reference on segments; normalized paths have no dot segments and no NUL),
    HttpRequest.v (the request line with its labels: safe on every input),
    HttpMessage.v (every request of the grammar is parsed, with the reference
    normalization of its target on the fast path and on the slow one).

    Chunked bodies (nxt_http_chunk_parse.c): Chunk.v (the parser on chains of
    buffers, its slices, buffer references and completions, against a machine
    that takes one byte at a time), ChunkBody.v (any cutting of a body of the
    grammar gives its data; sizes beyond 64 bits are refused; references are
    balanced on every path).

    Configuration (nxt_conf.c): ConfValue.v (values and their printing, which
    fits the memory computed for it), ConfHash.v (the class [Table] of what
    the parser needs of a hash, and the level hash as its instance),
    ConfParse.v (the JSON parser with its limits and all its errors),
    ConfLex.v (spaces, comments, strings and numbers), ConfGrammar.v (the
    grammar, soundness, completeness and error positions of the parser, with
    values compared up to the order of members), ConfRoundtrip.v (what is
    printed is parsed back), ConfOps.v (paths, the compilation of a request
    into operations and the copy that applies them, against a reference that
    edits the tree).

    Queues in shared memory: Atomic.v (programs of single accesses to shared
    memory, a machine that interleaves threads, histories and specifications,
    a program logic of rely and guarantee with its soundness, and confinement
    against hostile memory), Nncq.v (nxt_nncq.h, nxt_app_nncq.h: the two
    lock-free rings as instances of the class [Ring], and their operations for
    any host of the class [RingHost]), SlotQueue.v (the slots, free list and
    message ring that both queues share, for any specification of the class
    [SlotSpec]), PortQueue.v (nxt_port_queue.h: the queue of a port is
    linearizable, confined, and its test for taken items is right), PortFifo.v
    (messages keep their order), AppQueue.v (nxt_app_queue.h: the queue of
    requests of an application is linearizable and confined), AppClaim.v (a
    request is claimed by one worker or cancelled by the router, never both).

    The event loop: Heap.v (code on heaps of cells, and a small logic of total
    correctness for it), Rbtree.v (nxt_rbtree.c: all operations, trees laid out
    in a heap around their sentinel, rotations), RbInsert.v, RbDelete.v and
    RbWalk.v (insertion with its fixup, deletion with its fixup, and searches,
    walks and destruction), RbSpec.v (the tree is a sorted list, balanced and of
    logarithmic height), Timer.v (nxt_timer.c: timers with their batched
    changes and 32-bit times), TimerCommit.v (the invariant of tree, changes
    and schedule, and the commit), TimerOps.v (what each operation does to the
    schedule), TimerSpec.v (the contract of timers: it is implemented, and a
    timer that is set calls its handler in time).

    Routing: NxtArray.v (nxt_array.c: growing arrays, which overrun their memory
    beyond 65535 elements), RoutePattern.v and RouteGlob.v (patterns with
    asterisks in nxt_http_route.c: their compilation into slices, and that the
    match of slices is the match of the pattern), Args.v (arguments, cookies and
    the hashes of their names in nxt_http_request.c, the iteration over both
    stores of fields), Inet.v (nxt_sockaddr.c: the texts of addresses), Qsort.v
    (the contract of a sort, and what a list of patterns with the negated ones
    in front decides), RouteAddr.v and RouteAddrSpec.v (nxt_http_route_addr.c
    and its use: a pattern is a set of addresses and ports, given by intervals
    of numbers), Route.v and RouteSpec.v (nxt_http_route.c: creation of routes
    from the configuration and the choice of a step, against a reference that
    reads the configuration and the request directly; it is built on the
    theorems about headers, arguments, cookies, patterns, addresses and the
    templates of conditions).

    Templates: Sprintf.v (nxt_sprintf.c: the text of a format, cut off at the end
    of the buffer), VarEscape.v (nxt_var.c: escaping of values, eight bytes at a
    time), Murmur.v (nxt_murmur_hash.c), Var.v and VarSpec.v (nxt_var.c: the
    lexer, references, the cache of values and the interpreter, for any host of
    variables of the class [VarHost]; a template expands to its text with the
    values in their places), Tstr.v and TstrSpec.v (nxt_tstr.c: template strings
    with their flags), HttpReq.v, HttpVars.v and HttpVarsSpec.v (the request, and
    nxt_http_variables.c: all variables and their values, as an instance of
    [VarHostSpec]), HttpTemplate.v (templates of requests).

    A thread of the machine makes a list of calls; a schedule picks the thread
    that takes the next access.  The counters of the rings are 32 bits wide, so
    a thread that is suspended between two accesses while the counters go
    around could mistake an old value for a new one; the machine stops a run in
    which a thread sleeps inside a call for 2^28 successful updates, and the
    theorems are about the runs that are left.  Accesses are sequentially
    consistent: reordering that the relaxed loads and stores would permit on a
    weak machine is outside the model.

    Times of timers are related to unbounded integers; the code compares them
    modulo 2^32, so the contract asks that no timer is more than 2^30 ms away
    from the clock when the engine polls.  Disabled timers stay in the tree
    until something expires, which is why this is a condition on callers.

    ** Parameters

    [alloc] stands for the memory pools, [strtod] for the function of the C
    library.  Soundness of the JSON parser holds for every [strtod]; that
    errors are exactly the texts outside the grammar assumes that it reads a
    number to its end, which the C standard says, and an example instantiates
    it with exact decimal arithmetic.

    The class [Regex] is what routing needs of the regular expression library,
    [Qsort] that of the function of the C library.  The class [Double] has the
    operations on floating point numbers that formatted output uses, and the
    texts of errors are a list.  The creation of an action is an argument of the
    creation of routes.  The clocks, the random numbers and the response that
    variables print are given with the request.

    ** Not modelled

    The event engines, connections, sockets and files are system calls with
    their bookkeeping; processes, isolation, certificates, TLS, compression
    and the language modules call the operating system and libraries that are
    not in the sources.  The router, the controller and the application
    library are driven by them; of their code the parts above are modelled.
    Validation of the configuration is a table of members with callbacks
    that depend on the modules that were built.  Memory pools appear as the
    oracle.  The build has no njs, so templates in JavaScript are refused; that a
    thread keeps the text of a date for a second is left out.  The results of floating point arithmetic are exact rationals. *)

From Stdlib Require Export ZArith Lia.
From stdpp Require Export base list numbers option tactics.
From Stdlib Require String Ascii.
Export String.StringSyntax.
Export stdpp.list_basics.list stdpp.list_relations.list stdpp.list_monad.list stdpp.list_misc.list.

#[global] Open Scope Z_scope.

(** ** Outcomes of C code

    A C function is a total function into [outcome]: [Ret a] when it returns,
    [Fault] when it would read or write outside the memory it was given (or
    form a negative length from two pointers), [OutOfFuel] when the iteration
    bound of a loop is too small.  A safety theorem excludes [Fault]; a
    termination theorem excludes [OutOfFuel]. *)

Inductive outcome (A : Type) : Type :=
| Ret (a : A)
| Fault
| OutOfFuel.

Arguments Ret {A} a.
Arguments Fault {A}.
Arguments OutOfFuel {A}.

#[global] Instance outcome_eq_dec {A} `{EqDecision A} : EqDecision (outcome A).
Proof. solve_decision. Defined.

Definition obind {A B : Type} (m : outcome A) (k : A -> outcome B) : outcome B :=
  match m with
  | Ret a => k a
  | Fault => Fault
  | OutOfFuel => OutOfFuel
  end.

Definition of_option {A : Type} (o : option A) : outcome A :=
  match o with Some a => Ret a | None => Fault end.

Declare Scope nxt_scope.
Delimit Scope nxt_scope with nxt.

Notation "'let*' x ':=' m 'in' k" := (obind m (fun x => k))
  (at level 10, x pattern, m at level 100, k at level 200,
   format "'let*'  x  ':='  m  'in' '//' k") : nxt_scope.

#[global] Open Scope nxt_scope.

(** ** Allocation

    Code that takes memory is a computation in [Alloc]: it threads the number
    of the next request, and the oracle [alloc] tells which requests find
    memory.  A theorem about all oracles covers every pattern of failures. *)

Definition Alloc (A : Type) : Type := nat -> outcome (A * nat).

Definition aret {A} (a : A) : Alloc A := fun k => Ret (a, k).

Definition abind {A B} (m : Alloc A) (f : A -> Alloc B) : Alloc B :=
  fun k => let* (a, k') := m k in f a k'.

(** Code that takes no memory. *)
Definition alift {A} (m : outcome A) : Alloc A := fun k => let* a := m in Ret (a, k).

(** One request. *)
Definition request (alloc : nat -> bool) : Alloc bool := fun k => Ret (alloc k, S k).

Notation "'let!' x ':=' m 'in' k" := (abind m (fun x => k))
  (at level 10, x pattern, m at level 100, k at level 200,
   format "'let!'  x  ':='  m  'in' '//' k") : nxt_scope.

(** A computation that returns [None] for an error ends what follows it. *)
Definition astep {A B} (m : Alloc (option A)) (f : A -> Alloc (option B)) : Alloc (option B) :=
  let! r := m in match r with None => aret None | Some a => f a end.

Notation "'let?' x ':=' m 'in' k" := (astep m (fun x => k))
  (at level 10, x pattern, m at level 100, k at level 200,
   format "'let?'  x  ':='  m  'in' '//' k") : nxt_scope.

Section Gives.
Context (alloc : nat -> bool).

(** A computation that gives something for which [R] holds, or runs out of
    memory. *)
Definition gives {A} (m : Alloc (option A)) (R : A -> Prop) : Prop :=
  forall k, exists r k', m k = Ret (r, k') /\ match r with Some a => R a | None => exists j, alloc j = false end.

Lemma gives_bind {A B} (m : Alloc (option A)) (f : A -> Alloc (option B)) R R' :
  gives m R -> (forall a, R a -> gives (f a) R') ->
  gives (let! r := m in match r with None => aret None | Some a => f a end) R'.
Proof.
  intros Hm Hf k. unfold abind. destruct (Hm k) as (r & k1 & -> & Hr). cbn. destruct r as [a|]; [by apply Hf|].
  by exists None, k1.
Qed.

Lemma gives_step {A B} (m : Alloc (option A)) (f : A -> Alloc (option B)) R R' :
  gives m R -> (forall a, R a -> gives (f a) R') -> gives (astep m f) R'.
Proof. apply gives_bind. Qed.

Lemma gives_ret {A} (a : A) (R : A -> Prop) : R a -> gives (aret (Some a)) R.
Proof. intros Ha k. by exists (Some a), k. Qed.

Lemma gives_conseq {A} (m : Alloc (option A)) (R R' : A -> Prop) : gives m R -> (forall a, R a -> R' a) -> gives m R'.
Proof. intros Hm HR k. destruct (Hm k) as (r & k' & Hk & Hr). exists r, k'. split; [done|]. destruct r; auto. Qed.

Lemma gives_lift {A B} (m : outcome A) (a : A) (f : A -> Alloc (option B)) R :
  m = Ret a -> gives (f a) R -> gives (let! x := alift m in f x) R.
Proof. intros -> Hf k. unfold abind, alift. cbn. apply Hf. Qed.

Lemma gives_request {B} (m : Alloc (option B)) R :
  gives m R -> gives (let! ok := request alloc in if negb ok then aret None else m) R.
Proof.
  intros Hm k. unfold abind, request. cbn. destruct (alloc k) eqn:Ek; cbn; [apply Hm|].
  eexists None, _. split; [done|]. by exists k.
Qed.

Lemma gives_map {A B} (m : Alloc (option A)) (f : A -> B) R R' :
  gives m R -> (forall a, R a -> R' (f a)) -> gives (let! r := m in aret (f <$> r)) R'.
Proof.
  intros Hm Hf k. unfold abind. destruct (Hm k) as (r & k1 & -> & Hr). cbn. exists (f <$> r), k1. split; [done|].
  destruct r; cbn; auto.
Qed.

End Gives.

(** ** Machine integers *)

Definition u8 (z : Z) : Z := z mod 2 ^ 8.
Definition u16 (z : Z) : Z := z mod 2 ^ 16.
Definition u32 (z : Z) : Z := z mod 2 ^ 32.
Definition u64 (z : Z) : Z := z mod 2 ^ 64.
Definition s32 (z : Z) : Z := (z + 2 ^ 31) mod 2 ^ 32 - 2 ^ 31.
Definition s64 (z : Z) : Z := (z + 2 ^ 63) mod 2 ^ 64 - 2 ^ 63.

Abbreviation INT32_MAX := 2147483647 (only parsing).
Abbreviation INT64_MAX := 9223372036854775807 (only parsing).
Abbreviation SIZE_MAX := 18446744073709551615 (only parsing).

(** A [u_char]. *)
Definition byte (b : Z) : Prop := 0 <= b < 256.

(** ** Character constants *)

Abbreviation NUL := 0 (only parsing).
Abbreviation TAB := 9 (only parsing).
Abbreviation LF := 10 (only parsing).
Abbreviation CR := 13 (only parsing).
Abbreviation SP := 32 (only parsing).
Abbreviation DQUOTE := 34 (only parsing).
Abbreviation HASH := 35 (only parsing).
Abbreviation PERCENT := 37 (only parsing).
Abbreviation STAR := 42 (only parsing).
Abbreviation PLUS := 43 (only parsing).
Abbreviation COMMA := 44 (only parsing).
Abbreviation MINUS := 45 (only parsing).
Abbreviation DOT := 46 (only parsing).
Abbreviation SLASH := 47 (only parsing).
Abbreviation CH_0 := 48 (only parsing).
Abbreviation CH_9 := 57 (only parsing).
Abbreviation COLON := 58 (only parsing).
Abbreviation SEMICOLON := 59 (only parsing).
Abbreviation QMARK := 63 (only parsing).
Abbreviation CH_A := 65 (only parsing).
Abbreviation CH_F := 70 (only parsing).
Abbreviation CH_Z := 90 (only parsing).
Abbreviation LBRACKET := 91 (only parsing).
Abbreviation BACKSLASH := 92 (only parsing).
Abbreviation RBRACKET := 93 (only parsing).
Abbreviation UNDERSCORE := 95 (only parsing).
Abbreviation CH_a := 97 (only parsing).
Abbreviation CH_f := 102 (only parsing).
Abbreviation CH_z := 122 (only parsing).
Abbreviation LBRACE := 123 (only parsing).
Abbreviation RBRACE := 125 (only parsing).
Abbreviation DEL := 127 (only parsing).

(** A string literal of the source as bytes. *)
Fixpoint bytes_of_string (s : String.string) : list Z :=
  match s with
  | String.EmptyString => []
  | String.String a s' => Z.of_N (Ascii.N_of_ascii a) :: bytes_of_string s'
  end.

#[global] Arguments bytes_of_string s%_string_scope.

(** ** Tactics *)

(** Turn boolean comparisons in hypotheses and goal into propositions. *)
Ltac zbool :=
  repeat match goal with
  | H : _ && _ = true |- _ => apply andb_true_iff in H; destruct H
  | H : _ || _ = false |- _ => apply orb_false_iff in H; destruct H
  | H : _ && _ = false |- _ => apply andb_false_iff in H
  | H : _ || _ = true |- _ => apply orb_true_iff in H
  | H : negb _ = true |- _ => apply negb_true_iff in H
  | H : negb _ = false |- _ => apply negb_false_iff in H
  | H : (_ =? _)%Z = true |- _ => apply Z.eqb_eq in H
  | H : (_ =? _)%Z = false |- _ => apply Z.eqb_neq in H
  | H : (_ <? _)%Z = true |- _ => apply Z.ltb_lt in H
  | H : (_ <? _)%Z = false |- _ => apply Z.ltb_ge in H
  | H : (_ <=? _)%Z = true |- _ => apply Z.leb_le in H
  | H : (_ <=? _)%Z = false |- _ => apply Z.leb_gt in H
  | H : (_ =? _)%nat = true |- _ => apply Nat.eqb_eq in H
  | H : (_ =? _)%nat = false |- _ => apply Nat.eqb_neq in H
  | H : (_ <? _)%nat = true |- _ => apply Nat.ltb_lt in H
  | H : (_ <? _)%nat = false |- _ => apply Nat.ltb_ge in H
  | H : (_ <=? _)%nat = true |- _ => apply Nat.leb_le in H
  | H : (_ <=? _)%nat = false |- _ => apply Nat.leb_gt in H
  end.

(** Case analysis on the first [match] or [if] of the goal or of [H]. *)
Ltac case_on :=
  match goal with
  | |- context [ match ?e with _ => _ end ] =>
      lazymatch e with
      | context [ match _ with _ => _ end ] => fail
      | _ => let E := fresh "E" in destruct e eqn:E
      end
  end.

Ltac case_in H :=
  match type of H with
  | context [ match ?e with _ => _ end ] =>
      lazymatch e with
      | context [ match _ with _ => _ end ] => fail
      | _ => let E := fresh "E" in destruct e eqn:E
      end
  end.

(** Case analysis on every [if] of the goal, from the inside. *)
Ltac split_ifs :=
  repeat (match goal with |- context [if ?c then _ else _] => destruct c end; simpl).

(** [lia] with division and modulo by constants. *)
Ltac dlia := Z.div_mod_to_equations; lia.

Create HintDb nxt discriminated.

#[global] Arguments Nat.eqb : simpl never.
#[global] Arguments Nat.leb : simpl never.
#[global] Arguments Nat.ltb : simpl never.

(** ** Lists *)

(** A property of all 256 byte values, by computation. *)
Lemma byte_forallb (f : Z -> bool) :
  forallb f (map Z.of_nat (List.seq 0 256)) = true ->
  forall b, byte b -> f b = true.
Proof.
  intros H b Hb. rewrite forallb_forall in H. apply H.
  apply in_map_iff. exists (Z.to_nat b). unfold byte in Hb.
  split; [lia|]. apply in_seq. lia.
Qed.

(** A decidable property of bytes, by checking the 256 cases. *)
Lemma byte_decide (P : Z -> Prop) {HP : forall c, Decision (P c)} :
  forallb (fun c => bool_decide (P c)) (map Z.of_nat (List.seq 0 256)) = true ->
  forall c, byte c -> P c.
Proof. intros H c Hc. exact (bool_decide_eq_true_1 _ (byte_forallb _ H c Hc)). Qed.

Lemma drop_cons_inv {A} (l : list A) p x r :
  drop p l = x :: r -> l !! p = Some x /\ drop (S p) l = r.
Proof.
  intros H. split.
  - rewrite <- (Nat.add_0_r p), <- lookup_drop, H. reflexivity.
  - rewrite <- Nat.add_1_r, <- drop_drop, H. reflexivity.
Qed.

Lemma drop_lookup_cons {A} (l : list A) p x :
  l !! p = Some x -> drop p l = x :: drop (S p) l.
Proof. apply drop_S. Qed.

Lemma drop_nil_ge {A} (l : list A) p : drop p l = [] -> (length l <= p)%nat.
Proof. intros H. apply (f_equal length) in H. rewrite length_drop in H. simpl in H. lia. Qed.

(** ** Text between two pointers *)

Definition window (b : list Z) (p end_ : nat) : list Z := drop p (take end_ b).

Lemma window_lookup b p end_ i :
  (p + i < end_)%nat -> window b p end_ !! i = b !! (p + i)%nat.
Proof. intros Hi. unfold window. rewrite lookup_drop. by apply lookup_take_lt. Qed.

Lemma window_length b p end_ :
  (end_ <= length b)%nat -> length (window b p end_) = (end_ - p)%nat.
Proof. intros H. unfold window. rewrite length_drop, length_take. lia. Qed.

Lemma window_drop b p end_ n : window b (p + n) end_ = drop n (window b p end_).
Proof. unfold window. by rewrite drop_drop. Qed.

Lemma window_end b end_ : window b end_ end_ = [].
Proof. apply drop_ge. rewrite length_take. lia. Qed.

(** A write before or behind a text does not change it. *)
Lemma window_insert b p end_ i x :
  (i < p \/ end_ <= i)%nat -> window (<[i := x]> b) p end_ = window b p end_.
Proof.
  intros Hi. unfold window. destruct Hi as [Hi|Hi].
  - apply list_eq. intros k. rewrite !lookup_drop.
    destruct (decide (p + k < end_)%nat).
    + rewrite !lookup_take_lt by done. rewrite list_lookup_insert_ne by lia. done.
    + rewrite !lookup_take_ge by lia. done.
  - rewrite take_insert_ge by done. done.
Qed.

Lemma window_cons b p end_ x :
  (p < end_)%nat -> b !! p = Some x -> window b p end_ = x :: window b (S p) end_.
Proof.
  intros Hp Hx. unfold window. apply drop_S. rewrite lookup_take_lt by done. done.
Qed.

Lemma window_split m a b c : (a <= b <= c)%nat -> (c <= length m)%nat -> window m a c = window m a b ++ window m b c.
Proof.
  intros Hab Hc. unfold window. rewrite <- (take_drop b (take c m)) at 1. rewrite take_take, drop_app.
  replace (b `min` c)%nat with b by lia. rewrite length_take, drop_drop.
  replace (a - b `min` length m)%nat with 0%nat by lia. by rewrite Nat.add_0_r.
Qed.

Lemma window_snoc m a b c : (a < b <= length m)%nat -> m !! (b - 1)%nat = Some c -> window m a b = window m a (b - 1) ++ [c].
Proof.
  intros Hab Hc. rewrite (window_split _ a (b - 1)) by lia. f_equal. rewrite (window_cons _ _ _ c) by (done || lia).
  f_equal. replace (S (b - 1)) with b by lia. apply window_end.
Qed.

Lemma window_to_end m a b : (length m <= b)%nat -> window m a b = drop a m.
Proof. intros Hb. unfold window. by rewrite take_ge. Qed.

Lemma map_window f v a b : map f (window v a b) = window (map f v) a b.
Proof. unfold window. by rewrite fmap_drop, fmap_take. Qed.

Lemma window_app m t a b : (b <= length m)%nat -> window (m ++ t) a b = window m a b.
Proof. intros Hb. unfold window. by rewrite take_app_le. Qed.

(** ** Bits *)

(** Putting [k] bits [c] behind [u]. *)
Lemma lor_shiftl u c k : 0 <= k -> 0 <= c < 2 ^ k -> Z.lor (Z.shiftl u k) c = u * 2 ^ k + c.
Proof.
  intros Hk Hc. rewrite <- Z.shiftl_mul_pow2 by done. symmetry. apply Z.add_nocarry_lor.
  apply Z.bits_inj'. intros n Hn. rewrite Z.land_spec, Z.bits_0, Z.shiftl_spec by done.
  destruct (Z.lt_ge_cases n k) as [Hlt|Hge].
  - by rewrite Z.testbit_neg_r by lia.
  - rewrite (proj1 (Z.bounded_iff_bits_nonneg' k c Hk (proj1 Hc)) Hc n Hge).
    apply andb_false_r.
Qed.

(** The low [k] bits. *)
Lemma land_low u m k : 0 <= k -> m = Z.ones k -> Z.land u m = u mod 2 ^ k.
Proof. intros Hk ->. by apply Z.land_ones. Qed.

Lemma bytes_of_string_byte s : Forall byte (bytes_of_string s).
Proof.
  induction s as [|a s IH]; cbn; constructor; [|done].
  pose proof (Ascii.N_ascii_bounded a). unfold byte. lia.
Qed.

#[global] Arguments bytes_of_string_byte s%_string_scope.

(** [a | b] reaches a power of two when one of them does. *)
Lemma lor_pow2_le k a b :
  0 <= k -> 0 <= a -> 0 <= b ->
  (2 ^ k <=? Z.lor a b) = (2 ^ k <=? a) || (2 ^ k <=? b).
Proof.
  intros Hk Ha Hb.
  destruct (Z.eq_dec a 0) as [->|Ha0].
  { rewrite Z.lor_0_l, (proj2 (Z.leb_gt (2 ^ k) 0)) by lia. done. }
  destruct (Z.eq_dec b 0) as [->|Hb0].
  { rewrite Z.lor_0_r, (proj2 (Z.leb_gt (2 ^ k) 0)) by lia. by rewrite orb_false_r. }
  assert (Hl : 0 < Z.lor a b).
  { destruct (Z.lor_nonneg a b) as [_ Hn]. specialize (Hn (conj Ha Hb)).
    destruct (Z.eq_dec (Z.lor a b) 0) as [E|]; [|lia]. apply Z.lor_eq_0_iff in E. lia. }
  apply Bool.eq_iff_eq_true. rewrite orb_true_iff, !Z.leb_le, !Z.log2_le_pow2, Z.log2_lor by lia.
  lia.
Qed.

(** *** Texts with separators *)

(** The texts between the separators [sep]. *)
Fixpoint split_on (sep : Z) (s : list Z) : list (list Z) :=
  match s with
  | [] => [[]]
  | c :: s =>
      if c =? sep then [] :: split_on sep s
      else match split_on sep s with [] => [[c]] | x :: xs => (c :: x) :: xs end
  end.

Lemma split_on_cons sep s : exists x xs, split_on sep s = x :: xs.
Proof. induction s as [|c s (x & xs & IH)]; cbn; [by eexists _, _|]. rewrite IH. destruct (c =? sep); by eexists _, _. Qed.

Lemma split_on_not_nil sep s : split_on sep s <> [].
Proof. by destruct (split_on_cons sep s) as (x & xs & ->). Qed.

Lemma split_on_app sep a b : split_on sep (a ++ sep :: b) = split_on sep a ++ split_on sep b.
Proof.
  induction a as [|c a IH]; cbn; [by rewrite Z.eqb_refl|]. rewrite IH. destruct (c =? sep); [done|].
  by destruct (split_on_cons sep a) as (x & xs & ->).
Qed.

Lemma split_on_one sep s : sep ∉ s -> split_on sep s = [s].
Proof.
  induction s as [|c s IH]; intros Hs; [done|]. apply not_elem_of_cons in Hs as [Hc Hs]. cbn.
  rewrite (proj2 (Z.eqb_neq c sep)) by done. by rewrite IH.
Qed.

Lemma split_on_length sep s : (length (split_on sep s) <= S (length s))%nat.
Proof.
  induction s as [|c s IH]; cbn; [lia|]. destruct (c =? sep); cbn; [lia|].
  destruct (split_on sep s); cbn in *; lia.
Qed.

(** [memchr()]: the offset of [c] in the text [s]. *)
Fixpoint memchr (s : list Z) (c : Z) : option nat :=
  match s with
  | [] => None
  | x :: s => if x =? c then Some O else S <$> memchr s c
  end.

Lemma memchr_ok s c :
  match memchr s c with
  | Some n => s !! n = Some c /\ forall x, x ∈ take n s -> x <> c
  | None => forall x, x ∈ s -> x <> c
  end.
Proof.
  induction s as [|x s IH]; cbn; [by intros x Hx%elem_of_nil|]. destruct (Z.eqb_spec x c) as [->|Hne]; cbn.
  { split; [done|]. by intros y Hy%elem_of_nil. }
  destruct (memchr s c) as [n|]; cbn.
  - destruct IH as [Hn Ht]. split; [done|]. intros y [->|Hy]%elem_of_cons; auto.
  - intros y [->|Hy]%elem_of_cons; auto.
Qed.
