(* ===== verification/Str.v ===== *)
(** * Strings (nxt_string.c)

    Comparison and search without regard to case, search from either end,
    bounded copies and the comparison of versions.  A text given by two
    pointers or by a length is a list; a C string is a list that holds its
    final NUL, and reading behind the list is a fault. *)

From S2P Require Import Prelude.

(** ** The code *)

(** [nxt_lowcase()] *)
Definition nxt_lowcase (c : Z) : Z :=
  if (CH_A <=? c) && (c <=? CH_Z) then Z.lor c 0x20 else c.

(** [nxt_isdigit()] *)
Definition nxt_isdigit (c : Z) : bool := u8 (c - CH_0) <=? 9.

Fixpoint nxt_strcasecmp (s1 s2 : list Z) : outcome Z :=
  match s1, s2 with
  | c1 :: s1', c2 :: s2' =>
    let c1 := nxt_lowcase c1 in
    let c2 := nxt_lowcase c2 in
    let n := c1 - c2 in
    if negb (n =? 0) then Ret n
    else if c1 =? 0 then Ret 0
    else nxt_strcasecmp s1' s2'
  | _, _ => Fault
  end.

(** The difference of two bytes whose case is folded only when they differ. *)
Definition casediff (c1 c2 : Z) : Z :=
  if c1 =? c2 then 0 else nxt_lowcase c1 - nxt_lowcase c2.

Fixpoint nxt_strncasecmp (s1 s2 : list Z) (length : nat) {struct length} : outcome Z :=
  match length with
  | O => Ret 0
  | S length' =>
    match s1, s2 with
    | c1 :: s1', c2 :: s2' =>
      let n := casediff c1 c2 in
      if negb (n =? 0) then Ret n
      else
        let c1 := if c1 =? c2 then c1 else nxt_lowcase c1 in
        if c1 =? 0 then Ret 0 else nxt_strncasecmp s1' s2' length'
    | _, _ => Fault
    end
  end.

Fixpoint nxt_memcasecmp (s1 s2 : list Z) (length : nat) {struct length} : outcome Z :=
  match length with
  | O => Ret 0
  | S length' =>
    match s1, s2 with
    | c1 :: s1', c2 :: s2' =>
      let n := casediff c1 c2 in
      if negb (n =? 0) then Ret n else nxt_memcasecmp s1' s2' length'
    | _, _ => Fault
    end
  end.

(** [memcmp(s1, s2, length) == 0] *)
Fixpoint memequal (s1 s2 : list Z) (length : nat) {struct length} : outcome bool :=
  match length with
  | O => Ret true
  | S length' =>
    match s1, s2 with
    | c1 :: s1', c2 :: s2' => if c1 =? c2 then memequal s1' s2' length' else Ret false
    | _, _ => Fault
    end
  end.

(** The loops of [nxt_memstrn] and [nxt_memcasestrn]: [s] is the text up to
    [end], [p] its offset and [c2], [s2] the substring. *)
Fixpoint memstrn_loop (s : list Z) (p : nat) (c2 : Z) (s2 : list Z) : outcome (option nat) :=
  match s with
  | [] => Ret None
  | c1 :: s' =>
    if c1 =? c2 then
      if (length s' <? length s2)%nat then Ret None
      else
        let* e := memequal s' s2 (length s2) in
        if e then Ret (Some p) else memstrn_loop s' (S p) c2 s2
    else memstrn_loop s' (S p) c2 s2
  end.

Definition nxt_memstrn (s ss : list Z) : outcome (option nat) :=
  match ss with
  | c2 :: s2 => memstrn_loop s 0 c2 s2
  | [] => Fault
  end.

Fixpoint memcasestrn_loop (s : list Z) (p : nat) (c2 : Z) (s2 : list Z) : outcome (option nat) :=
  match s with
  | [] => Ret None
  | c1 :: s' =>
    if nxt_lowcase c1 =? c2 then
      if (length s' <? length s2)%nat then Ret None
      else
        let* n := nxt_memcasecmp s' s2 (length s2) in
        if n =? 0 then Ret (Some p) else memcasestrn_loop s' (S p) c2 s2
    else memcasestrn_loop s' (S p) c2 s2
  end.

Definition nxt_memcasestrn (s ss : list Z) : outcome (option nat) :=
  match ss with
  | c2 :: s2 => memcasestrn_loop s 0 (nxt_lowcase c2) s2
  | [] => Fault
  end.

(** The loop of [nxt_rmemstrn] from offset [s1] down. *)
Fixpoint rmemstrn_loop (s : list Z) (s1 : nat) (c2 : Z) (s2 : list Z) : outcome (option nat) :=
  match s1 with
  | O => Ret None
  | S s1' =>
    let* c1 := of_option (s !! s1) in
    if c1 =? c2 then
      let* e := memequal (drop (S s1) s) s2 (length s2) in
      if e then Ret (Some s1) else rmemstrn_loop s s1' c2 s2
    else rmemstrn_loop s s1' c2 s2
  end.

Definition nxt_rmemstrn (s ss : list Z) : outcome (option nat) :=
  match ss with
  | [] => Ret None
  | c2 :: s2 =>
    if (length s <? length ss)%nat then Ret None
    else rmemstrn_loop s (length s - length ss) c2 s2
  end.

(** The loop of [nxt_str_strip]: [p] is the length that is left. *)
Fixpoint strip_loop (s : list Z) (p : nat) : outcome nat :=
  match p with
  | O => Ret O
  | S p' =>
    let* c := of_option (s !! p') in
    if negb (c =? CR) && negb (c =? LF) && negb (c =? SP) && negb (c =? TAB) then Ret p
    else strip_loop s p'
  end.

Definition nxt_str_strip (s : list Z) : outcome nat := strip_loop s (length s).

(** The loop of [nxt_cpystrn]: the bytes written, and the offset returned. *)
Fixpoint cpystrn_loop (src : list Z) (length : nat) {struct length} : outcome (list Z * nat) :=
  match length with
  | O => Ret ([NUL], O)
  | S length' =>
    match src with
    | [] => Fault
    | c :: src' =>
      if c =? NUL then Ret ([c], O)
      else let* (out, d) := cpystrn_loop src' length' in Ret (c :: out, S d)
    end
  end.

Definition nxt_cpystrn (src : list Z) (length : nat) : outcome (list Z * nat) :=
  match length with
  | O => Ret ([], O)
  | S length' => cpystrn_loop src length'
  end.

(** *** Versions *)

Inductive vers_state := st_str | st_num | st_zero | st_frac.

(** The state after a common byte. *)
Definition vers_next (state : vers_state) (c1 : Z) : vers_state :=
  if negb (nxt_isdigit c1) then st_str
  else match state with
       | st_str => if c1 =? CH_0 then st_zero else st_num
       | st_zero => if negb (c1 =? CH_0) then st_frac else st_zero
       | _ => state
       end.

(** The loop over the digits of [st_num], after which the longer number wins. *)
Fixpoint num_loop (c1 c2 : Z) (s1 s2 : list Z) (diff : Z) : outcome Z :=
  if nxt_isdigit c1 && nxt_isdigit c2 then
    match s1, s2 with
    | d1 :: s1', d2 :: s2' => num_loop d1 d2 s1' s2' diff
    | _, _ => Fault
    end
  else if nxt_isdigit c1 then Ret 1
  else if nxt_isdigit c2 then Ret (-1)
  else Ret diff.

(** The [switch] at the first difference. *)
Definition vers_diff (state : vers_state) (c1 c2 : Z) (s1 s2 : list Z) : outcome Z :=
  let diff := c1 - c2 in
  match state with
  | st_str =>
    if (8 <? u8 (c1 - 49)) || (8 <? u8 (c2 - 49)) then Ret diff
    else
      match s1, s2 with
      | d1 :: s1', d2 :: s2' => num_loop d1 d2 s1' s2' diff
      | _, _ => Fault
      end
  | st_num => num_loop c1 c2 s1 s2 diff
  | st_zero =>
    if (c1 =? CH_0) || (c2 =? NUL) then Ret (-1)
    else if (c2 =? CH_0) || (c1 =? NUL) then Ret 1
    else Ret diff
  | st_frac => Ret diff
  end.

Fixpoint vers_loop (state : vers_state) (s1 s2 : list Z) : outcome Z :=
  match s1, s2 with
  | c1 :: s1', c2 :: s2' =>
    if negb (c1 - c2 =? 0) then vers_diff state c1 c2 s1' s2'
    else if c1 =? NUL then Ret 0
    else vers_loop (vers_next state c1) s1' s2'
  | _, _ => Fault
  end.

Definition nxt_strverscmp (s1 s2 : list Z) : outcome Z := vers_loop st_str s1 s2.

(** ** The reference *)

(** [ss] stands at offset [i] of [s], up to the folding [f] of the bytes. *)
Definition occurs (f : Z -> Z) (s ss : list Z) (i : nat) : Prop :=
  map f (take (length ss) (drop i s)) = map f ss.

(** The result of a search is the first, or the last, of the offsets at which
    [P] holds. *)
Definition is_first (P : nat -> Prop) (r : option nat) : Prop :=
  match r with
  | Some i => P i /\ forall j, (j < i)%nat -> ~ P j
  | None => forall j, ~ P j
  end.

Definition is_last (P : nat -> Prop) (r : option nat) : Prop :=
  match r with
  | Some i => P i /\ forall j, (i < j)%nat -> ~ P j
  | None => forall j, ~ P j
  end.

(** The numerical value of a string of digits. *)
Definition digits_value (ds : list Z) : Z := fold_left (fun v d => v * 10 + (d - CH_0)) ds 0.

(** A C string: no NUL but the last byte. *)
Definition cstring (s : list Z) : Prop :=
  exists t, s = t ++ [NUL] /\ Forall (fun c => byte c /\ c <> NUL) t.

(** ** Comparison *)

Lemma casediff_eq c1 c2 : casediff c1 c2 = nxt_lowcase c1 - nxt_lowcase c2.
Proof. unfold casediff. destruct (c1 =? c2) eqn:E; zbool; subst; lia. Qed.

Lemma memcasecmp_ok n : forall s1 s2,
  (n <= length s1)%nat -> (n <= length s2)%nat ->
  exists d, nxt_memcasecmp s1 s2 n = Ret d
    /\ (d = 0 <-> map nxt_lowcase (take n s1) = map nxt_lowcase (take n s2)).
Proof.
  induction n as [|n IH]; intros s1 s2 H1 H2; [exists 0; by rewrite !take_0|].
  destruct s1 as [|c1 s1]; [cbn in H1; lia|]. destruct s2 as [|c2 s2]; [cbn in H2; lia|].
  cbn [length] in *. cbn [nxt_memcasecmp take map]. rewrite casediff_eq.
  destruct (nxt_lowcase c1 - nxt_lowcase c2 =? 0) eqn:E; zbool; cbn [negb].
  - destruct (IH s1 s2) as (d & -> & Hd); [lia|lia|]. exists d. split; [done|].
    rewrite Hd. split; [intros ->; f_equal; lia|]. by injection 1.
  - eexists. split; [done|]. split; [done|]. injection 1. lia.
Qed.

Lemma memequal_ok n : forall s1 s2,
  (n <= length s1)%nat -> (n <= length s2)%nat ->
  memequal s1 s2 n = Ret (bool_decide (take n s1 = take n s2)).
Proof.
  induction n as [|n IH]; intros s1 s2 H1 H2; [done|].
  destruct s1 as [|c1 s1]; [cbn in H1; lia|]. destruct s2 as [|c2 s2]; [cbn in H2; lia|].
  cbn [length] in *. cbn [memequal take]. destruct (c1 =? c2) eqn:E; zbool.
  - rewrite IH by lia. subst. f_equal. apply bool_decide_ext. split; [by intros ->|by injection 1].
  - rewrite bool_decide_eq_false_2; [done|]. injection 1. lia.
Qed.

(** ** Search *)

Lemma occurs_length f s ss i : occurs f s ss i -> ss <> [] -> (i + length ss <= length s)%nat.
Proof.
  intros H Hne. apply (f_equal length) in H. rewrite !length_map, length_take, length_drop in H.
  destruct ss; [done|]. cbn [length] in *. lia.
Qed.

Lemma occurs_S f c s ss i : occurs f (c :: s) ss (S i) <-> occurs f s ss i.
Proof. done. Qed.

(** The first offset of [c :: s] when it is not 0. *)
Lemma is_first_S f c s ss p r :
  ~ occurs f (c :: s) ss 0 ->
  is_first (fun i => exists k, i = (S p + k)%nat /\ occurs f s ss k) r ->
  is_first (fun i => exists k, i = (p + k)%nat /\ occurs f (c :: s) ss k) r.
Proof.
  intros H0. destruct r as [i|]; cbn.
  - intros [(k & -> & Hk) Hmin]. split; [exists (S k); split; [lia|done]|].
    intros j Hj ([|k'] & -> & Hk'); [done|]. apply (Hmin (p + S k')%nat); [lia|].
    exists k'. split; [lia|done].
  - intros Hn j ([|k'] & -> & Hk'); [done|]. apply (Hn (p + S k')%nat). exists k'. split; [lia|done].
Qed.

Lemma is_first_here f s ss p :
  occurs f s ss 0 -> is_first (fun i => exists k, i = (p + k)%nat /\ occurs f s ss k) (Some p).
Proof. intros H. split; [exists 0%nat; split; [lia|done]|]. intros j Hj (k & -> & _). lia. Qed.

Lemma is_first_short f s ss p :
  ss <> [] -> (length s < length ss)%nat ->
  is_first (fun i => exists k, i = (p + k)%nat /\ occurs f s ss k) None.
Proof. intros Hne Hs j (k & -> & Hk). apply occurs_length in Hk; [lia|done]. Qed.

Lemma occurs_here f c1 s c2 s2 :
  occurs f (c1 :: s) (c2 :: s2) 0 <-> f c1 = f c2 /\ map f (take (length s2) s) = map f s2.
Proof. unfold occurs. cbn. split; [by injection 1|by intros [-> ->]]. Qed.

Lemma memstrn_loop_ok s : forall p c2 s2,
  exists r, memstrn_loop s p c2 s2 = Ret r
    /\ is_first (fun i => exists k, i = (p + k)%nat /\ occurs id s (c2 :: s2) k) r.
Proof.
  induction s as [|c1 s IH]; intros p c2 s2; cbn [memstrn_loop].
  { exists None. split; [done|]. apply is_first_short; [done|cbn; lia]. }
  assert (Hrec : ~ occurs id (c1 :: s) (c2 :: s2) 0 ->
    exists r, memstrn_loop s (S p) c2 s2 = Ret r
      /\ is_first (fun i => exists k, i = (p + k)%nat /\ occurs id (c1 :: s) (c2 :: s2) k) r).
  { intros H0. destruct (IH (S p) c2 s2) as (r & -> & Hr). exists r. split; [done|].
    by apply is_first_S. }
  rewrite occurs_here, !List.map_id in Hrec. cbn [id] in Hrec.
  destruct (c1 =? c2) eqn:E; zbool; [|apply Hrec; naive_solver].
  destruct (length s <? length s2)%nat eqn:El; zbool.
  { exists None. split; [done|]. apply is_first_short; [done|cbn; lia]. }
  rewrite memequal_ok, (take_ge s2) by lia. cbn [obind]. case_bool_decide as Hd; [|naive_solver].
  exists (Some p). split; [done|]. apply is_first_here, occurs_here. by rewrite Hd, E.
Qed.

Lemma memcasestrn_loop_ok s : forall p c2 s2,
  exists r, memcasestrn_loop s p (nxt_lowcase c2) s2 = Ret r
    /\ is_first (fun i => exists k, i = (p + k)%nat /\ occurs nxt_lowcase s (c2 :: s2) k) r.
Proof.
  induction s as [|c1 s IH]; intros p c2 s2; cbn [memcasestrn_loop].
  { exists None. split; [done|]. apply is_first_short; [done|cbn; lia]. }
  assert (Hrec : ~ occurs nxt_lowcase (c1 :: s) (c2 :: s2) 0 ->
    exists r, memcasestrn_loop s (S p) (nxt_lowcase c2) s2 = Ret r
      /\ is_first (fun i => exists k, i = (p + k)%nat /\ occurs nxt_lowcase (c1 :: s) (c2 :: s2) k) r).
  { intros H0. destruct (IH (S p) c2 s2) as (r & -> & Hr). exists r. split; [done|].
    by apply is_first_S. }
  rewrite occurs_here in Hrec.
  destruct (nxt_lowcase c1 =? nxt_lowcase c2) eqn:E; zbool; [|apply Hrec; naive_solver].
  destruct (length s <? length s2)%nat eqn:El; zbool.
  { exists None. split; [done|]. apply is_first_short; [done|cbn; lia]. }
  destruct (memcasecmp_ok (length s2) s s2) as (d & -> & Hd); [lia|lia|].
  rewrite (take_ge s2) in Hd by lia. cbn [obind]. destruct (d =? 0) eqn:Ed; zbool.
  - exists (Some p). split; [done|]. apply is_first_here, occurs_here. by rewrite E, (proj1 Hd Ed).
  - apply Hrec. intros [_ H]. by apply Ed, Hd.
Qed.

Lemma is_first_0 f s ss r :
  is_first (fun i => exists k, i = (0 + k)%nat /\ occurs f s ss k) r -> is_first (occurs f s ss) r.
Proof.
  destruct r as [i|]; cbn.
  - intros [(k & -> & Hk) Hmin]. split; [done|]. intros j Hj Ho. apply (Hmin j Hj). by exists j.
  - intros Hn j Ho. apply (Hn j). by exists j.
Qed.

(** The search from the end passes over offset 0. *)
Lemma rmemstrn_loop_ok s c2 s2 n :
  (n + S (length s2) <= length s)%nat ->
  (forall j, (n < j)%nat -> ~ occurs id s (c2 :: s2) j) ->
  exists r, rmemstrn_loop s n c2 s2 = Ret r
    /\ is_last (fun i => (0 < i)%nat /\ occurs id s (c2 :: s2) i) r.
Proof.
  induction n as [|n IH]; intros Hn Hlast; cbn [rmemstrn_loop].
  { exists None. split; [done|]. intros j [Hj Ho]. by apply (Hlast j). }
  destruct (lookup_lt_is_Some_2 s (S n)) as [c1 Hc1]; [lia|]. rewrite Hc1. cbn [of_option obind].
  assert (Ho : occurs id s (c2 :: s2) (S n) <-> c1 = c2 /\ take (length s2) (drop (S (S n)) s) = s2).
  { unfold occurs. rewrite (drop_S _ _ _ Hc1). cbn. rewrite !List.map_id. unfold id.
    split; [by injection 1|by intros [-> ->]]. }
  assert (Hrec : ~ occurs id s (c2 :: s2) (S n) ->
    exists r, rmemstrn_loop s n c2 s2 = Ret r
      /\ is_last (fun i => (0 < i)%nat /\ occurs id s (c2 :: s2) i) r).
  { intros Hno. apply IH; [lia|]. intros j Hj. destruct (decide (j = S n)) as [->|]; [done|].
    apply Hlast. lia. }
  destruct (c1 =? c2) eqn:E; zbool; [|apply Hrec; naive_solver].
  rewrite memequal_ok, (take_ge s2) by (rewrite ?length_drop; lia). cbn [obind].
  case_bool_decide as Hd; [|apply Hrec; naive_solver].
  exists (Some (S n)). split; [done|]. split; [split; [lia|by apply Ho]|].
  intros j Hj [_ Hoj]. by apply (Hlast j).
Qed.

(** ** Versions *)

Lemma isdigit_ok c : byte c -> nxt_isdigit c = (CH_0 <=? c) && (c <=? CH_9).
Proof. revert c. apply (byte_decide (fun c => _ = _)). vm_compute. reflexivity. Qed.

(** A run of digits, and what follows it. *)
Definition digit_run (ds : list Z) : Prop := Forall (fun d => CH_0 <= d <= CH_9) ds.
Definition stops (r : list Z) : Prop := exists c r', r = c :: r' /\ byte c /\ nxt_isdigit c = false.

Lemma digit_run_isdigit d : CH_0 <= d <= CH_9 -> nxt_isdigit d = true.
Proof. intros H. rewrite isdigit_ok by (unfold byte; lia). apply andb_true_iff. lia. Qed.

(** Which of two runs is longer, and the difference given when none is. *)
Definition longer (n1 n2 : list Z) (diff : Z) : Z :=
  if (length n1 <? length n2)%nat then -1
  else if (length n2 <? length n1)%nat then 1 else diff.

Lemma num_loop_run n1 : forall n2 r1 r2 c1 c2 s1 s2 diff,
  digit_run n1 -> digit_run n2 -> stops r1 -> stops r2 ->
  c1 :: s1 = n1 ++ r1 -> c2 :: s2 = n2 ++ r2 ->
  num_loop c1 c2 s1 s2 diff = Ret (longer n1 n2 diff).
Proof.
  induction n1 as [|d1 n1 IH]; intros n2 r1 r2 c1 c2 s1 s2 diff H1 H2 Hr1 Hr2 E1 E2.
  - destruct Hr1 as (x & r1' & -> & Hx & Hdx). injection E1 as -> ->.
    destruct n2 as [|d2 n2]; simpl in E2.
    + destruct Hr2 as (y & r2' & -> & Hy & Hdy). injection E2 as -> ->.
      destruct r1'; cbn [num_loop]; by rewrite Hdx, Hdy.
    + injection E2 as -> ->. inversion_clear H2 as [|? ? Hd _]. apply digit_run_isdigit in Hd.
      destruct r1'; cbn [num_loop]; rewrite Hdx, Hd; done.
  - injection E1 as -> ->. inversion_clear H1 as [|? ? Hd1 H1']. apply digit_run_isdigit in Hd1.
    destruct n2 as [|d2 n2]; simpl in E2.
    + destruct Hr2 as (y & r2' & -> & Hy & Hdy). injection E2 as -> ->.
      destruct n1; [destruct Hr1 as (? & ? & -> & _)|]; cbn [app num_loop]; rewrite Hd1, Hdy; done.
    + injection E2 as -> ->. inversion_clear H2 as [|? ? Hd2 H2']. apply digit_run_isdigit in Hd2.
      destruct (n1 ++ r1) as [|x1 t1] eqn:Et1;
        [destruct Hr1 as (? & ? & -> & _); by destruct n1|].
      destruct (n2 ++ r2) as [|x2 t2] eqn:Et2;
        [destruct Hr2 as (? & ? & -> & _); by destruct n2|].
      cbn [num_loop]. rewrite Hd1, Hd2. cbn [andb].
      rewrite (IH n2 r1 r2) by (done || by rewrite ?Et1, ?Et2). done.
Qed.

(** Two runs compared digit by digit from the left. *)
Fixpoint first_diff (n1 n2 : list Z) : Z :=
  match n1, n2 with
  | d1 :: n1', d2 :: n2' => if d1 - d2 =? 0 then first_diff n1' n2' else d1 - d2
  | _, _ => 0
  end.

Lemma isdigit_not_nul c : nxt_isdigit c = true -> byte c -> c <> NUL.
Proof. intros H Hc ->. done. Qed.

Lemma digit_byte d : CH_0 <= d <= CH_9 -> byte d.
Proof. unfold byte. lia. Qed.

(** Within a number the longer one is greater, and numbers of the same length
    are ordered by their first difference. *)
Lemma vers_loop_num n1 : forall n2 r1 r2,
  digit_run n1 -> digit_run n2 -> stops r1 -> stops r2 ->
  length n1 <> length n2 \/ first_diff n1 n2 <> 0 ->
  vers_loop st_num (n1 ++ r1) (n2 ++ r2) = Ret (longer n1 n2 (first_diff n1 n2)).
Proof.
  induction n1 as [|d1 n1 IH]; intros [|d2 n2] r1 r2 H1 H2 Hr1 Hr2 Hne; [naive_solver|..].
  - destruct Hr1 as (x & r1' & -> & Hx & Hdx). inversion_clear H2 as [|? ? Hd2 H2'].
    pose proof (digit_run_isdigit _ Hd2). cbn [app vers_loop].
    rewrite (proj2 (Z.eqb_neq _ _)) by (intros E; assert (x = d2) by lia; congruence).
    cbn [negb vers_diff]. rewrite (num_loop_run [] (d2 :: n2) (x :: r1') r2); try done;
      [by constructor|by exists x, r1'].
  - destruct Hr2 as (x & r2' & -> & Hx & Hdx). inversion_clear H1 as [|? ? Hd1 H1'].
    pose proof (digit_run_isdigit _ Hd1). cbn [app vers_loop].
    rewrite (proj2 (Z.eqb_neq _ _)) by (intros E; assert (x = d1) by lia; congruence).
    cbn [negb vers_diff]. rewrite (num_loop_run (d1 :: n1) [] r1 (x :: r2')); try done;
      [by constructor|by exists x, r2'].
  - inversion_clear H1 as [|? ? Hd1 H1']. inversion_clear H2 as [|? ? Hd2 H2'].
    cbn [app vers_loop first_diff]. destruct (d1 - d2 =? 0) eqn:E; zbool; cbn [negb].
    + rewrite (proj2 (Z.eqb_neq _ _)) by lia. unfold vers_next.
      rewrite digit_run_isdigit by done. cbn [negb]. rewrite IH; try done.
      cbn [length first_diff] in Hne. destruct Hne as [Hne|Hne]; [left; lia|right].
      by rewrite (proj2 (Z.eqb_eq _ _)) in Hne by lia.
    + cbn [vers_diff]. apply (num_loop_run (d1 :: n1) (d2 :: n2) r1 r2); try done; by constructor.
Qed.

(** The same for numbers that follow a common text. *)
Lemma vers_loop_str d1 n1 d2 n2 r1 r2 :
  digit_run (d1 :: n1) -> digit_run (d2 :: n2) -> d1 <> CH_0 -> d2 <> CH_0 ->
  stops r1 -> stops r2 ->
  length n1 <> length n2 \/ first_diff (d1 :: n1) (d2 :: n2) <> 0 ->
  vers_loop st_str ((d1 :: n1) ++ r1) ((d2 :: n2) ++ r2)
  = Ret (longer (d1 :: n1) (d2 :: n2) (first_diff (d1 :: n1) (d2 :: n2))).
Proof.
  intros H1 H2 Hz1 Hz2 Hr1 Hr2 Hne. inversion_clear H1 as [|? ? Hd1 H1'].
  inversion_clear H2 as [|? ? Hd2 H2']. cbn [app vers_loop first_diff] in *.
  destruct (d1 - d2 =? 0) eqn:E; zbool; cbn [negb].
  - rewrite (proj2 (Z.eqb_neq _ _)) by lia. unfold vers_next.
    rewrite digit_run_isdigit, (proj2 (Z.eqb_neq d1 CH_0)) by done. cbn [negb].
    rewrite vers_loop_num by done. done.
  - cbn [vers_diff]. unfold u8. rewrite !Z.mod_small, !(proj2 (Z.ltb_ge _ _)) by lia. cbn [orb].
    destruct (n1 ++ r1) as [|x1 t1] eqn:Et1; [destruct Hr1 as (? & ? & -> & _); by destruct n1|].
    destruct (n2 ++ r2) as [|x2 t2] eqn:Et2; [destruct Hr2 as (? & ? & -> & _); by destruct n2|].
    rewrite (num_loop_run n1 n2 r1 r2) by done. unfold longer. cbn [length].
    done.
Qed.

Lemma vers_loop_app pre : forall st s1 s2,
  Forall (fun c => c <> NUL) pre ->
  vers_loop st (pre ++ s1) (pre ++ s2) = vers_loop (fold_left vers_next pre st) s1 s2.
Proof.
  induction pre as [|c pre IH]; intros st s1 s2 Hp; [done|]. inversion_clear Hp.
  cbn [app vers_loop fold_left]. rewrite (proj2 (Z.eqb_eq _ _)) by lia. cbn [negb].
  rewrite (proj2 (Z.eqb_neq _ _)) by done. by apply IH.
Qed.

(** ** Values of runs *)

Lemma digits_value_snoc ds v :
  fold_left (fun v d => v * 10 + (d - CH_0)) ds v
  = v * 10 ^ Z.of_nat (length ds) + digits_value ds.
Proof.
  unfold digits_value. revert v. induction ds as [|d ds IH]; intros v; cbn [fold_left length].
  - cbn. lia.
  - rewrite (IH (v * 10 + (d - CH_0))), (IH (0 * 10 + (d - CH_0))), Nat2Z.inj_succ.
    rewrite Z.pow_succ_r by lia. lia.
Qed.

Lemma digits_value_cons d ds :
  digits_value (d :: ds) = (d - CH_0) * 10 ^ Z.of_nat (length ds) + digits_value ds.
Proof. unfold digits_value at 1. cbn [fold_left]. rewrite digits_value_snoc. lia. Qed.

Lemma digits_value_bound ds : digit_run ds -> 0 <= digits_value ds < 10 ^ Z.of_nat (length ds).
Proof.
  induction 1 as [|d ds Hd Hds IH]; [done|]. rewrite digits_value_cons. cbn [length].
  rewrite Nat2Z.inj_succ, Z.pow_succ_r by lia. nia.
Qed.

Lemma first_diff_value n1 : forall n2,
  digit_run n1 -> digit_run n2 -> length n1 = length n2 ->
  digits_value n1 < digits_value n2 -> first_diff n1 n2 < 0.
Proof.
  induction n1 as [|d1 n1 IH]; intros [|d2 n2] H1 H2 Hl Hv; try done.
  inversion_clear H1 as [|? ? Hd1 H1']. inversion_clear H2 as [|? ? Hd2 H2'].
  injection Hl as Hl. rewrite !digits_value_cons, Hl in Hv. cbn [first_diff].
  pose proof (digits_value_bound n1 H1') as Hb1. pose proof (digits_value_bound n2 H2') as Hb2.
  rewrite Hl in Hb1. destruct (d1 - d2 =? 0) eqn:E; zbool; [apply IH; try done|]; nia.
Qed.

Lemma shorter_value d1 n1 n2 :
  digit_run (d1 :: n1) -> digit_run n2 -> d1 <> CH_0 ->
  digits_value (d1 :: n1) < digits_value n2 -> (length (d1 :: n1) <= length n2)%nat.
Proof.
  intros H1 H2 Hz Hv. inversion_clear H1 as [|? ? Hd1 H1'].
  apply Nat.nlt_ge. intros Hl. cbn [length] in Hl. rewrite digits_value_cons in Hv.
  pose proof (digits_value_bound n1 H1') as Hb1. pose proof (digits_value_bound n2 H2) as Hb2.
  assert (10 ^ Z.of_nat (length n2) <= 10 ^ Z.of_nat (length n1)) by (apply Z.pow_le_mono_r; lia).
  nia.
Qed.

(** ** Order *)

Lemma num_loop_anti s1 : forall c1 c2 s2 diff n,
  num_loop c1 c2 s1 s2 diff = Ret n -> num_loop c2 c1 s2 s1 (- diff) = Ret (- n).
Proof.
  induction s1 as [|d1 s1 IH]; intros c1 c2 s2 diff n H; destruct s2 as [|d2 s2];
    cbn [num_loop] in *; rewrite (andb_comm (nxt_isdigit c2));
    destruct (nxt_isdigit c1) eqn:E1; destruct (nxt_isdigit c2) eqn:E2; cbn [andb] in *;
    try done; try (by injection H as <-). by apply IH.
Qed.

Lemma vers_diff_anti st c1 c2 s1 s2 n :
  c1 <> c2 -> vers_diff st c1 c2 s1 s2 = Ret n -> vers_diff st c2 c1 s2 s1 = Ret (- n).
Proof.
  intros Hne H. unfold vers_diff in *. replace (c2 - c1) with (- (c1 - c2)) by lia.
  destruct st.
  - rewrite orb_comm. destruct ((8 <? u8 (c1 - 49)) || (8 <? u8 (c2 - 49))); [by injection H as <-|].
    destruct s1 as [|d1 s1]; [done|]. destruct s2 as [|d2 s2]; [done|]. by apply num_loop_anti.
  - by apply num_loop_anti.
  - destruct (c1 =? CH_0) eqn:E1; destruct (c2 =? CH_0) eqn:E2; destruct (c1 =? NUL) eqn:E3;
      destruct (c2 =? NUL) eqn:E4; cbn [orb] in *; injection H as <-; zbool; try lia; f_equal; lia.
  - by injection H as <-.
Qed.

Lemma vers_loop_anti s1 : forall st s2 n,
  vers_loop st s1 s2 = Ret n -> vers_loop st s2 s1 = Ret (- n).
Proof.
  induction s1 as [|c1 s1 IH]; intros st s2 n H; [done|]. destruct s2 as [|c2 s2]; [done|].
  cbn [vers_loop] in *. destruct (c1 - c2 =? 0) eqn:E; cbn [negb] in H; zbool.
  - assert (c2 = c1) as -> by lia. rewrite Z.sub_diag, Z.eqb_refl in *. cbn [negb] in *.
    destruct (c1 =? NUL); [by injection H as <-|]. by apply IH.
  - rewrite (proj2 (Z.eqb_neq (c2 - c1) 0)) by lia. cbn [negb] in *.
    apply vers_diff_anti; [lia|done].
Qed.

(** A C string seen from its first byte. *)
Lemma cstring_cons s :
  cstring s -> exists c s', s = c :: s' /\ byte c /\ (c = NUL /\ s' = [] \/ c <> NUL /\ cstring s').
Proof.
  intros (t & -> & Ht). destruct t as [|c t].
  - exists NUL, []. split_and!; [done|unfold byte; lia|by left].
  - inversion_clear Ht as [|? ? [Hb Hn] Ht']. exists c, (t ++ [NUL]).
    split_and!; [done|done|]. right. split; [done|]. by exists t.
Qed.

Lemma num_loop_total s1 : forall c1 c2 s2 diff,
  byte c1 -> byte c2 -> (c1 <> NUL -> cstring s1) -> (c2 <> NUL -> cstring s2) -> diff <> 0 ->
  exists n, num_loop c1 c2 s1 s2 diff = Ret n /\ n <> 0.
Proof.
  induction s1 as [|d1 s1 IH]; intros c1 c2 s2 diff Hb1 Hb2 H1 H2 Hd;
    destruct (nxt_isdigit c1) eqn:E1; destruct (nxt_isdigit c2) eqn:E2.
  all: try (destruct s2; cbn [num_loop]; rewrite E1, E2; by eexists).
  - specialize (H1 (isdigit_not_nul _ E1 Hb1)). destruct H1 as (t & Ht & _). by destruct t.
  - specialize (H1 (isdigit_not_nul _ E1 Hb1)). specialize (H2 (isdigit_not_nul _ E2 Hb2)).
    apply cstring_cons in H1 as (? & ? & E & Hb & H1). injection E as <- <-.
    apply cstring_cons in H2 as (d2 & s2' & -> & Hb' & H2).
    cbn [num_loop]. rewrite E1, E2. cbn [andb]. apply IH; naive_solver.
Qed.

Lemma vers_diff_total st c1 c2 s1 s2 :
  byte c1 -> byte c2 -> (c1 <> NUL -> cstring s1) -> (c2 <> NUL -> cstring s2) -> c1 <> c2 ->
  exists n, vers_diff st c1 c2 s1 s2 = Ret n /\ n <> 0.
Proof.
  intros Hb1 Hb2 H1 H2 Hne. unfold vers_diff. destruct st.
  - destruct ((8 <? u8 (c1 - 49)) || (8 <? u8 (c2 - 49))) eqn:E; [eexists; split; [done|lia]|].
    assert (Hn1 : c1 <> NUL) by (by intros ->). assert (Hn2 : c2 <> NUL).
    { intros ->. by rewrite orb_true_r in E. }
    destruct (cstring_cons _ (H1 Hn1)) as (d1 & s1' & -> & Hd1 & H1').
    destruct (cstring_cons _ (H2 Hn2)) as (d2 & s2' & -> & Hd2 & H2').
    apply num_loop_total; naive_solver lia.
  - apply num_loop_total; try done. lia.
  - repeat case_match; eexists; (split; [done|lia]).
  - eexists; split; [done|lia].
Qed.

Lemma vers_loop_total s1 : forall st s2, cstring s1 -> cstring s2 ->
  exists n, vers_loop st s1 s2 = Ret n /\ (n = 0 <-> s1 = s2).
Proof.
  induction s1 as [|c1 s1 IH]; intros st s2 H1 H2; [destruct H1 as (t & Ht & _); by destruct t|].
  apply cstring_cons in H1 as (? & ? & E & Hb1 & H1). injection E as <- <-.
  apply cstring_cons in H2 as (c2 & s2' & -> & Hb2 & H2). cbn [vers_loop].
  destruct (c1 - c2 =? 0) eqn:E; cbn [negb]; zbool.
  - assert (c2 = c1) as -> by lia. destruct (c1 =? NUL) eqn:E0; zbool.
    + exists 0. split; [done|]. naive_solver.
    + destruct H1 as [[? _]|[_ H1]]; [done|]. destruct H2 as [[? _]|[_ H2]]; [done|].
      destruct (IH (vers_next st c1) s2' H1 H2) as (n & -> & Hn). exists n. split; [done|].
      rewrite Hn. split; [by intros ->|by injection 1].
  - destruct (vers_diff_total st c1 c2 s1 s2') as (n & -> & Hn); [naive_solver lia..|].
    exists n. split; [done|]. split; [done|]. injection 1. lia.
Qed.

(** A text that does not end in a digit leaves the automaton outside numbers. *)
Lemma vers_next_stop pre :
  Forall (fun c => byte c /\ c <> NUL) pre ->
  (forall c, last pre = Some c -> nxt_isdigit c = false) ->
  fold_left vers_next pre st_str = st_str.
Proof.
  destruct pre as [|c pre _] using rev_ind; [done|]. intros _ H. specialize (H c).
  rewrite last_snoc in H. rewrite fold_left_app. cbn [fold_left]. unfold vers_next at 1.
  by rewrite H.
Qed.

(** ** Comparison of C strings *)

Lemma lowcase_nul c : byte c -> nxt_lowcase c = NUL <-> c = NUL.
Proof. revert c. apply (byte_decide (fun c => _ <-> _)). vm_compute. reflexivity. Qed.

Lemma strcasecmp_ok s1 : forall s2, cstring s1 -> cstring s2 ->
  exists d, nxt_strcasecmp s1 s2 = Ret d /\ (d = 0 <-> map nxt_lowcase s1 = map nxt_lowcase s2).
Proof.
  induction s1 as [|c1 s1 IH]; intros s2 H1 H2; [destruct H1 as (t & Ht & _); by destruct t|].
  apply cstring_cons in H1 as (? & ? & E & Hb1 & H1). injection E as <- <-.
  apply cstring_cons in H2 as (c2 & s2' & -> & Hb2 & H2). cbn [nxt_strcasecmp map].
  pose proof (lowcase_nul c1 Hb1). pose proof (lowcase_nul c2 Hb2).
  destruct (nxt_lowcase c1 - nxt_lowcase c2 =? 0) eqn:E; cbn [negb]; zbool.
  - destruct (nxt_lowcase c1 =? 0) eqn:E0; zbool.
    + exists 0. split; [done|]. assert (c1 = 0) by tauto. assert (c2 = 0) by (rewrite <- H0; lia).
      destruct H1 as [[_ ->]|[? _]]; [|done]. destruct H2 as [[_ ->]|[? _]]; [|done]. by subst.
    + destruct H1 as [[? _]|[_ H1]]; [tauto|].
      destruct H2 as [[? _]|[_ H2]]; [exfalso; apply E0; rewrite (proj2 H0) in E; lia|].
      destruct (IH s2' H1 H2) as (d & -> & Hd). exists d. split; [done|]. rewrite Hd.
      split; [intros ->; f_equal; lia|by injection 1].
  - eexists. split; [done|]. split; [done|]. injection 1. lia.
Qed.

Lemma strncasecmp_ok n : forall s1 s2, cstring s1 -> cstring s2 ->
  exists d, nxt_strncasecmp s1 s2 n = Ret d
    /\ (d = 0 <-> map nxt_lowcase (take n s1) = map nxt_lowcase (take n s2)).
Proof.
  induction n as [|n IH]; intros s1 s2 H1 H2; [exists 0; by rewrite !take_0|].
  apply cstring_cons in H1 as (c1 & s1' & -> & Hb1 & H1).
  apply cstring_cons in H2 as (c2 & s2' & -> & Hb2 & H2).
  cbn [nxt_strncasecmp take map]. rewrite casediff_eq.
  pose proof (lowcase_nul c1 Hb1). pose proof (lowcase_nul c2 Hb2).
  destruct (nxt_lowcase c1 - nxt_lowcase c2 =? 0) eqn:E; cbn [negb]; zbool.
  - destruct ((if c1 =? c2 then c1 else nxt_lowcase c1) =? 0) eqn:E0; zbool.
    + assert (c1 = 0) by (destruct (c1 =? c2); tauto). assert (c2 = 0) by (rewrite <- H0; tauto || lia).
      destruct H1 as [[_ ->]|[? _]]; [|done]. destruct H2 as [[_ ->]|[? _]]; [|done]. subst.
      by exists 0.
    + assert (c1 <> 0) by (destruct (c1 =? c2); tauto).
      destruct H1 as [[? _]|[_ H1]]; [done|].
      destruct H2 as [[? _]|[_ H2]]; [exfalso; rewrite (proj2 H0) in E; lia|].
      destruct (IH s1' s2' H1 H2) as (d & -> & Hd). exists d. split; [done|]. rewrite Hd.
      split; [intros ->; f_equal; lia|by injection 1].
  - eexists. split; [done|]. split; [done|]. injection 1. lia.
Qed.

(** ** Copies and blanks *)

Definition blank (c : Z) : Prop := c = CR \/ c = LF \/ c = SP \/ c = TAB.

Lemma strip_loop_ok s n :
  (n <= length s)%nat -> Forall blank (drop n s) ->
  exists k, strip_loop s n = Ret k /\ (k <= n)%nat /\ Forall blank (drop k s)
    /\ (forall c, last (take k s) = Some c -> ~ blank c).
Proof.
  induction n as [|n IH]; intros Hn Hb; cbn [strip_loop].
  { exists 0%nat. split_and!; try done. }
  destruct (lookup_lt_is_Some_2 s n) as [c Hc]; [lia|]. rewrite Hc. cbn [of_option obind].
  destruct (negb (c =? CR) && negb (c =? LF) && negb (c =? SP) && negb (c =? TAB)) eqn:E.
  - exists (S n). split_and!; [done|done|done|]. intros c' Hl.
    rewrite (take_S_r _ _ _ Hc), last_snoc in Hl. injection Hl as <-.
    zbool. unfold blank. naive_solver.
  - destruct IH as (k & -> & Hk & Hbk & Hlast); [lia| |exists k; split_and!; [done|lia|done|done]].
    rewrite (drop_S _ _ _ Hc). constructor; [|done]. unfold blank.
    rewrite !andb_false_iff, !negb_false_iff, !Z.eqb_eq in E. tauto.
Qed.

Lemma cpystrn_loop_ok n : forall t,
  Forall (fun c => byte c /\ c <> NUL) t ->
  cpystrn_loop (t ++ [NUL]) n = Ret (take n t ++ [NUL], length (take n t)).
Proof.
  induction n as [|n IH]; intros t Ht; [done|]. destruct t as [|c t]; [done|].
  inversion_clear Ht as [|? ? [_ Hc] Ht']. cbn [app cpystrn_loop].
  rewrite (proj2 (Z.eqb_neq _ _)) by done. rewrite IH by done. done.
Qed.

(** ** Properties *)

(** The searches find the first place of a substring, exactly or without
    regard to case, and [NULL] only when there is none; they stay inside the
    text. *)
Theorem nxt_memstrn_correct (s ss : list Z) (Hss : ss <> []) :
  (exists r, nxt_memstrn s ss = Ret r /\ is_first (occurs id s ss) r)
  /\ (exists r, nxt_memcasestrn s ss = Ret r /\ is_first (occurs nxt_lowcase s ss) r).
Proof.
  destruct ss as [|c2 s2]; [done|]. unfold nxt_memstrn, nxt_memcasestrn. split.
  - destruct (memstrn_loop_ok s 0 c2 s2) as (r & -> & Hr). exists r. by split; [|apply is_first_0].
  - destruct (memcasestrn_loop_ok s 0 c2 s2) as (r & -> & Hr). exists r. by split; [|apply is_first_0].
Qed.

(** The search from the end finds the last place of a substring, but never
    looks at the start of the text: a substring that stands there only is not
    found. *)
Theorem nxt_rmemstrn_correct (s ss : list Z) :
  exists r, nxt_rmemstrn s ss = Ret r
  /\ is_last (fun i => ss <> [] /\ (0 < i)%nat /\ occurs id s ss i) r.
Proof.
  unfold nxt_rmemstrn. destruct ss as [|c2 s2].
  { exists None. split; [done|]. intros j [H _]. done. }
  destruct (length s <? length (c2 :: s2))%nat eqn:E; zbool.
  { exists None. split; [done|]. intros j (H & _ & Ho). apply occurs_length in Ho; [lia|done]. }
  destruct (rmemstrn_loop_ok s c2 s2 (length s - length (c2 :: s2))) as (r & -> & Hr).
  - cbn [length] in *. lia.
  - intros j Hj Ho. apply occurs_length in Ho; [cbn [length] in *; lia|done].
  - exists r. split; [done|]. destruct r as [i|]; cbn in *; naive_solver.
Qed.

(** Two strings compare equal without regard to case exactly when their
    lower case forms are equal, over the whole strings or over a length. *)
Theorem nxt_strcasecmp_correct (s1 s2 : list Z) (n : nat) (H1 : cstring s1) (H2 : cstring s2) :
  (exists d, nxt_strcasecmp s1 s2 = Ret d /\ (d = 0 <-> map nxt_lowcase s1 = map nxt_lowcase s2))
  /\ (exists d, nxt_strncasecmp s1 s2 n = Ret d
      /\ (d = 0 <-> map nxt_lowcase (take n s1) = map nxt_lowcase (take n s2)))
  /\ ((n <= length s1)%nat -> (n <= length s2)%nat ->
      exists d, nxt_memcasecmp s1 s2 n = Ret d
      /\ (d = 0 <-> map nxt_lowcase (take n s1) = map nxt_lowcase (take n s2))).
Proof.
  split_and!; [by apply strcasecmp_ok|by apply strncasecmp_ok|].
  intros. by apply memcasecmp_ok.
Qed.

(** The comparison of versions reads no further than the two strings, is
    zero exactly for equal strings and changes its sign when they are
    exchanged; behind a common text that does not end in a digit, numbers
    without leading zeros are compared by their value. *)
Theorem nxt_strverscmp_correct :
  (forall s1 s2, cstring s1 -> cstring s2 ->
     exists n, nxt_strverscmp s1 s2 = Ret n /\ (n = 0 <-> s1 = s2)
       /\ nxt_strverscmp s2 s1 = Ret (- n))
  /\ (forall pre d1 n1 d2 n2 r1 r2,
        Forall (fun c => byte c /\ c <> NUL) pre ->
        (forall c, last pre = Some c -> nxt_isdigit c = false) ->
        digit_run (d1 :: n1) -> digit_run (d2 :: n2) -> d1 <> CH_0 -> d2 <> CH_0 ->
        stops r1 -> stops r2 -> digits_value (d1 :: n1) < digits_value (d2 :: n2) ->
        exists n, nxt_strverscmp (pre ++ (d1 :: n1) ++ r1) (pre ++ (d2 :: n2) ++ r2) = Ret n
          /\ n < 0).
Proof.
  split.
  - intros s1 s2 H1 H2. destruct (vers_loop_total s1 st_str s2 H1 H2) as (n & Hn & H0).
    exists n. split_and!; [done|done|]. by apply vers_loop_anti.
  - intros pre d1 n1 d2 n2 r1 r2 Hpre Hlast H1 H2 Hz1 Hz2 Hr1 Hr2 Hv.
    unfold nxt_strverscmp. rewrite vers_loop_app by (eapply Forall_impl; [exact Hpre|]; naive_solver).
    rewrite vers_next_stop by done.
    pose proof (shorter_value d1 n1 (d2 :: n2) H1 H2 Hz1 Hv) as Hl.
    assert (Hfd : length n1 = length n2 -> first_diff (d1 :: n1) (d2 :: n2) < 0).
    { intros E. apply first_diff_value; [done|done|cbn; lia|done]. }
    rewrite vers_loop_str; try done.
    2:{ destruct (Nat.eq_dec (length n1) (length n2)) as [E|E]; [right; specialize (Hfd E); lia|by left]. }
    eexists. split; [done|]. unfold longer. cbn [length] in *.
    destruct (S (length n1) <? S (length n2))%nat eqn:E1; zbool; [lia|].
    rewrite (proj2 (Nat.ltb_ge _ _)) by lia. apply Hfd. lia.
Qed.

(** A bounded copy writes a C string of at most the given length, the
    longest prefix of the source that fits, and returns the place of its NUL. *)
Theorem nxt_cpystrn_correct (t : list Z) (n : nat) (Ht : Forall (fun c => byte c /\ c <> NUL) t) :
  nxt_cpystrn (t ++ [NUL]) n
  = Ret (if decide (n = 0%nat) then ([], 0%nat)
         else (take (n - 1) t ++ [NUL], Nat.min (n - 1) (length t))).
Proof.
  destruct n as [|n]; [done|]. cbn [nxt_cpystrn]. rewrite cpystrn_loop_ok by done.
  rewrite decide_False by done. replace (S n - 1)%nat with n by lia. by rewrite length_take.
Qed.

(** Stripping removes exactly the trailing blanks. *)
Theorem nxt_str_strip_correct (s : list Z) :
  exists k, nxt_str_strip s = Ret k /\ (k <= length s)%nat /\ Forall blank (drop k s)
  /\ (forall c, last (take k s) = Some c -> ~ blank c).
Proof. apply strip_loop_ok; [done|]. by rewrite drop_ge. Qed.

(** ** Witnesses *)

Lemma nxt_memstrn_correct_witness :
  exists r, nxt_memcasestrn (bytes_of_string "Keep-Alive, Upgrade") (bytes_of_string "upgrade") = Ret r
  /\ is_first (occurs nxt_lowcase (bytes_of_string "Keep-Alive, Upgrade") (bytes_of_string "upgrade")) r.
Proof.
  apply (nxt_memstrn_correct (bytes_of_string "Keep-Alive, Upgrade") (bytes_of_string "upgrade")). done.
Defined.

Lemma nonnul_bytes s :
  forallb (fun c => negb (c =? NUL)) (bytes_of_string s) = true ->
  Forall (fun c => byte c /\ c <> NUL) (bytes_of_string s).
Proof.
  intros H. apply Forall_forall. intros c Hc. split.
  - by eapply Forall_forall in Hc; [|apply bytes_of_string_byte].
  - rewrite forallb_forall in H. apply list_elem_of_In, H in Hc. zbool. done.
Qed.

Lemma cstring_of_bytes s :
  forallb (fun c => negb (c =? NUL)) (bytes_of_string s) = true -> cstring (bytes_of_string s ++ [NUL]).
Proof. intros H. exists (bytes_of_string s). split; [done|by apply nonnul_bytes]. Qed.

Lemma nxt_strcasecmp_correct_witness :
  exists d, nxt_strcasecmp (bytes_of_string "Host" ++ [NUL]) (bytes_of_string "hOST" ++ [NUL]) = Ret d
  /\ (d = 0 <-> map nxt_lowcase (bytes_of_string "Host" ++ [NUL])
               = map nxt_lowcase (bytes_of_string "hOST" ++ [NUL])).
Proof.
  apply (nxt_strcasecmp_correct (bytes_of_string "Host" ++ [NUL]) (bytes_of_string "hOST" ++ [NUL]) 0);
    apply cstring_of_bytes; reflexivity.
Defined.

Lemma nxt_strverscmp_correct_witness :
  exists n, nxt_strverscmp (bytes_of_string "3." ++ [57] ++ [NUL]) (bytes_of_string "3." ++ [49; 48] ++ [NUL])
    = Ret n /\ n < 0.
Proof.
  apply (proj2 nxt_strverscmp_correct (bytes_of_string "3.") 57 [] 49 [48] [NUL] [NUL]); try done.
  - by apply nonnul_bytes.
  - intros c H. by injection H as <-.
  - repeat constructor; lia.
  - repeat constructor; lia.
  - by exists NUL, []; split_and!; [|unfold byte; lia|].
  - by exists NUL, []; split_and!; [|unfold byte; lia|].
Defined.

Lemma nxt_cpystrn_correct_witness :
  nxt_cpystrn (bytes_of_string "error" ++ [NUL]) 4 = Ret (bytes_of_string "err" ++ [NUL], 3%nat).
Proof.
  rewrite (nxt_cpystrn_correct (bytes_of_string "error") 4); [done|].
  by apply nonnul_bytes.
Defined.
