(* ===== verification/Scan.v ===== *)
(** * Unrolled scanning loops

    The parsers of the server look for the first byte of a buffer that stops a
    scan with loops unrolled 4, 8, 10 or 16 times ("while (end - p >= 8) ..."),
    followed by a loop that handles the last bytes one at a time.  This file
    gives the unrolled loops as they are written, with their reads not checked
    against the end inside a block, and proves that they compute the same
    function as one byte-at-a-time scan. *)

From S2P Require Import Prelude.

Section Scan.
Context {St R : Type}.

(** What the test of one byte does: go on with a new local state, or stop. *)
Variable step : Z -> St -> St + R.

(** The byte-at-a-time loop over the bytes [l] that start at offset [p]. *)
Fixpoint scan (l : list Z) (p : nat) (s : St) : nat * list Z * (St + R) :=
  match l with
  | [] => (p, [], inl s)
  | ch :: l' =>
      match step ch s with
      | inl s' => scan l' (S p) s'
      | inr r => (p, l, inr r)
      end
  end.

(** One unrolled block: [k] tests in a row, none of them checked against the
    end of the buffer. *)
Fixpoint scan_block (k : nat) (l : list Z) (p : nat) (s : St)
  : outcome (nat * list Z * (St + R)) :=
  match k with
  | O => Ret (p, l, inl s)
  | S k' =>
      match l with
      | [] => Fault
      | ch :: l' =>
          match step ch s with
          | inl s' => scan_block k' l' (S p) s'
          | inr r => Ret (p, l, inr r)
          end
      end
  end.

(** [while (end - p >= k) { block; p += k; }] *)
Fixpoint scan_blocks (fuel : nat) (k : nat) (l : list Z) (p : nat) (s : St)
  : outcome (nat * list Z * (St + R)) :=
  match fuel with
  | O => OutOfFuel
  | S fuel' =>
      if (k <=? length l)%nat then
        let* (p', l', x) := scan_block k l p s in
        match x with
        | inl s' => scan_blocks fuel' k l' p' s'
        | inr r => Ret (p', l', inr r)
        end
      else Ret (p, l, inl s)
  end.

(** The unrolled loop followed by the byte-at-a-time loop. *)
Definition scan_unrolled (k : nat) (l : list Z) (p : nat) (s : St)
  : outcome (nat * list Z * (St + R)) :=
  let* (p', l', x) := scan_blocks (S (length l)) k l p s in
  match x with
  | inl s' => Ret (scan l' p' s')
  | inr r => Ret (p', l', inr r)
  end.

(** Where the scan goes on after a partial run. *)
Definition scan_resume (r : nat * list Z * (St + R)) : nat * list Z * (St + R) :=
  match r with
  | (p, l, inl s) => scan l p s
  | (p, l, inr x) => (p, l, inr x)
  end.

Lemma scan_block_spec k l p s :
  (k <= length l)%nat ->
  exists p' l' x,
    scan_block k l p s = Ret (p', l', x) /\
    scan l p s = scan_resume (p', l', x) /\
    (forall s', x = inl s' -> length l = length l' + k)%nat.
Proof.
  revert l p s. induction k as [|k IH]; intros l p s Hk.
  - exists p, l, (inl s). simpl. split_and!; auto with lia.
  - destruct l as [|ch l]; [simpl in Hk; lia|]. simpl. destruct (step ch s) as [s'|r].
    + destruct (IH l (S p) s') as (p' & l' & x & E1 & E2 & E3); [simpl in Hk; lia|].
      exists p', l', x. split_and!; auto. intros s'' ->. specialize (E3 _ eq_refl). lia.
    + exists p, (ch :: l), (inr r). split_and!; auto. intros s'' [=].
Qed.

Lemma scan_blocks_spec k :
  (0 < k)%nat ->
  forall fuel l p s, (length l < fuel)%nat ->
  exists p' l' x,
    scan_blocks fuel k l p s = Ret (p', l', x) /\
    scan l p s = scan_resume (p', l', x) /\
    (forall s', x = inl s' -> length l' < k)%nat.
Proof.
  intros Hk. induction fuel as [|fuel IH]; intros l p s Hf; [lia|].
  simpl. destruct (Nat.leb_spec k (length l)).
  - destruct (scan_block_spec k l p s) as (p1 & l1 & x1 & E1 & E2 & E3); [lia|].
    rewrite E1. simpl. destruct x1 as [s1|r1].
    + specialize (E3 _ eq_refl).
      destruct (IH l1 p1 s1) as (p' & l' & x & F1 & F2 & F3); [lia|].
      exists p', l', x. rewrite E2. auto.
    + exists p1, l1, (inr r1). split_and!; auto. intros s' [=].
  - exists p, l, (inl s). split_and!; auto.
Qed.

(** The unrolled loop never reads past the end and is the simple loop. *)
Lemma scan_unrolled_eq k l p s :
  (0 < k)%nat -> scan_unrolled k l p s = Ret (scan l p s).
Proof.
  intros Hk. unfold scan_unrolled.
  destruct (scan_blocks_spec k Hk (S (length l)) l p s) as (p' & l' & x & E1 & E2 & _); [lia|].
  rewrite E1, E2. simpl. by destruct x.
Qed.

Lemma scan_app l1 l2 p s :
  scan (l1 ++ l2) p s =
  match scan l1 p s with
  | (p', _, inl s') => scan l2 p' s'
  | (p', l', inr r) => (p', l' ++ l2, inr r)
  end.
Proof.
  revert p s. induction l1 as [|ch l1 IH]; intros p s; simpl; [done|].
  destruct (step ch s); [apply IH|done].
Qed.

(** A scan of a suffix of a buffer stays inside that buffer. *)
Lemma scan_drop buf p s p' l' x :
  scan (drop p buf) p s = (p', l', x) ->
  l' = drop p' buf /\ (p <= p')%nat /\
  match x with
  | inl _ => p' = Nat.max p (length buf)
  | inr _ => (p' < length buf)%nat
  end.
Proof.
  remember (drop p buf) as l eqn:El. revert p s El.
  induction l as [|ch l IH]; intros p s El H; simpl in H.
  - injection H as <- <- <-. symmetry in El. pose proof (drop_nil_ge _ _ El).
    split_and!; [by rewrite El|lia|lia].
  - symmetry in El. destruct (drop_cons_inv _ _ _ _ El) as [Hp Hd].
    destruct (step ch s) as [s'|r].
    + destruct (IH (S p) s' (eq_sym Hd) H) as (-> & ? & Hx). split_and!; [done|lia|].
      apply lookup_lt_Some in Hp. destruct x; lia.
    + injection H as <- <- <-. split_and!; [done|lia|]. by apply lookup_lt_Some in Hp.
Qed.

(** The byte a scan stops at is one its test stops at. *)
Lemma scan_stop l p s p' l' r :
  scan l p s = (p', l', inr r) ->
  exists ch l'' s', l' = ch :: l'' /\ step ch s' = inr r.
Proof.
  revert p s. induction l as [|ch l IH]; intros p s H; simpl in H; [done|].
  destruct (step ch s) eqn:E; [by apply (IH (S p) s0)|].
  injection H as <- <- <-. eauto.
Qed.

End Scan.

#[global] Arguments scan_blocks {St R} step fuel k l p s : simpl never.
#[global] Arguments scan_unrolled {St R} step k l p s : simpl never.
