(* ===== verification/NxtList.v ===== *)
(** * Lists in parts: [src/nxt_list.c] and [src/nxt_list.h]

    A [nxt_list_t] is a chain of parts of [nalloc] elements each; the first
    part is allocated with the list and a new one when the last is full.  The
    chain is a list of lists, its last element being [list->last].  The memory
    pool is an allocation counter, [alloc n] says whether the [n]-th allocation
    succeeds.  [nxt_list_add()] returns the place the caller then fills: here
    it takes the element that is stored there. *)

From S2P Require Import Prelude.

Record nxt_list (A : Type) : Type := mk_nxt_list {
  nalloc : nat;
  parts : list (list A)
}.
Arguments mk_nxt_list {A} _ _.
Arguments nalloc {A} _.
Arguments parts {A} _.

Section List.
Context {A : Type}.
Variable alloc : nat -> bool.

(** The list, if it could be allocated, and the memory pool. *)
Definition nxt_list_create (mp n : nat) : option (nxt_list A) * nat :=
  (if alloc mp then Some (mk_nxt_list n [[]]) else None, S mp).

(** [list->last] *)
Fixpoint last_part (ps : list (list A)) : list A :=
  match ps with
  | [] => []
  | [p] => p
  | _ :: ps' => last_part ps'
  end.

(** Storing into [list->last]. *)
Fixpoint add_last (x : A) (ps : list (list A)) : list (list A) :=
  match ps with
  | [] => []
  | [p] => [p ++ [x]]
  | p :: ps' => p :: add_last x ps'
  end.

Definition nxt_list_add (mp : nat) (x : A) (l : nxt_list A) : bool * nxt_list A * nat :=
  if (length (last_part (parts l)) =? nalloc l)%nat then
    if alloc mp then
      (true, mk_nxt_list (nalloc l) (add_last x (parts l ++ [[]])), S mp)
    else (false, l, S mp)
  else (true, mk_nxt_list (nalloc l) (add_last x (parts l)), mp).

Fixpoint elt_loop (ps : list (list A)) (n : nat) : option A :=
  match ps with
  | [] => None
  | p :: ps' =>
      if (n <? length p)%nat then p !! n else elt_loop ps' (n - length p)
  end.

Definition nxt_list_elt (l : option (nxt_list A)) (n : nat) : option A :=
  match l with
  | Some l => elt_loop (parts l) n
  | None => None
  end.

Definition nxt_list_nelts (l : option (nxt_list A)) : nat :=
  match l with
  | Some l => fold_left (fun n p => n + length p)%nat (parts l) 0%nat
  | None => 0%nat
  end.

(** [nxt_list_each() ... nxt_list_loop] with a body that does not break. *)
Definition nxt_list_each {S : Type} (body : A -> S -> S) (l : option (nxt_list A)) (s : S) : S :=
  match l with
  | Some l => fold_left (fun s p => fold_left (fun s x => body x s) p s) (parts l) s
  | None => s
  end.

(** ** The sequence a list stands for *)

Definition elements (l : option (nxt_list A)) : list A :=
  match l with
  | Some l => concat (parts l)
  | None => []
  end.

(** Every part but the last is full, and the last has a free place or is full. *)
Definition list_wf (l : nxt_list A) : Prop :=
  (0 < nalloc l)%nat /\
  exists init lst, parts l = init ++ [lst] /\
    Forall (fun p => length p = nalloc l) init /\ (length lst <= nalloc l)%nat.

Lemma last_part_app init lst : last_part (init ++ [lst]) = lst.
Proof.
  induction init as [|p init IH]; [done|]. simpl. rewrite <- IH at 2.
  by destruct (init ++ [lst]) eqn:E; [destruct init|].
Qed.

Lemma add_last_app x init lst : add_last x (init ++ [lst]) = init ++ [lst ++ [x]].
Proof.
  induction init as [|p init IH]; [done|]. simpl. rewrite <- IH.
  by destruct (init ++ [lst]) eqn:E; [destruct init|].
Qed.

Lemma nxt_list_create_wf mp n l mp' :
  (0 < n)%nat -> nxt_list_create mp n = (Some l, mp') ->
  list_wf l /\ elements (Some l) = [] /\ nalloc l = n.
Proof.
  unfold nxt_list_create. intros Hn H. destruct (alloc mp); [|done].
  injection H as <- <-. split_and!; [|done..].
  split; [done|]. exists [], []. split_and!; [done|constructor|simpl; lia].
Qed.

(** Adding fails only when a new part is needed and cannot be allocated. *)
Lemma nxt_list_add_spec mp x l :
  list_wf l ->
  match nxt_list_add mp x l with
  | (true, l', mp') =>
      list_wf l' /\ elements (Some l') = elements (Some l) ++ [x] /\ nalloc l' = nalloc l
  | (false, l', mp') => l' = l /\ alloc mp = false
  end.
Proof.
  intros (Hn & init & lst & E & Hinit & Hlst). unfold nxt_list_add.
  rewrite E, last_part_app. destruct (Nat.eqb_spec (length lst) (nalloc l)).
  - destruct (alloc mp) eqn:Ha; [|done]. rewrite add_last_app. split_and!; [| |done].
    + split; [done|]. exists (init ++ [lst]), [x]. split_and!; [done|by apply Forall_app_2; [|constructor]|simpl; lia].
    + simpl. by rewrite E, concat_app.
  - rewrite add_last_app. split_and!; [| |done].
    + split; [done|]. exists init, (lst ++ [x]). split_and!; [done..|]. rewrite length_app. simpl. lia.
    + simpl. rewrite E, !concat_app. simpl. by rewrite !app_nil_r, app_assoc.
Qed.

Lemma nxt_list_add_ok mp x l :
  (forall n, alloc n = true) -> list_wf l ->
  exists l' mp', nxt_list_add mp x l = (true, l', mp') /\ list_wf l' /\
    elements (Some l') = elements (Some l) ++ [x].
Proof.
  intros Ha Hwf. pose proof (nxt_list_add_spec mp x l Hwf) as H.
  destruct (nxt_list_add mp x l) as [[[] l'] mp']; [naive_solver|].
  destruct H as [_ H]. by rewrite Ha in H.
Qed.

Lemma nxt_list_elt_spec l n : nxt_list_elt l n = elements l !! n.
Proof.
  destruct l as [l|]; simpl; [|by rewrite lookup_nil].
  revert n. induction (parts l) as [|p ps IH]; intros n; simpl; [by rewrite lookup_nil|].
  destruct (Nat.ltb_spec n (length p)); [by rewrite lookup_app_l|].
  by rewrite lookup_app_r, IH.
Qed.

Lemma nxt_list_nelts_spec l : nxt_list_nelts l = length (elements l).
Proof.
  destruct l as [l|]; simpl; [|done]. rewrite <- (Nat.add_0_l (length _)).
  generalize 0%nat. induction (parts l) as [|p ps IH]; intros n; simpl; [lia|].
  rewrite IH, length_app. lia.
Qed.

Lemma nxt_list_each_spec {S} (body : A -> S -> S) l s :
  nxt_list_each body l s = fold_left (fun s x => body x s) (elements l) s.
Proof.
  destruct l as [l|]; simpl; [|done].
  revert s. induction (parts l) as [|p ps IH]; intros s; simpl; [done|].
  by rewrite IH, fold_left_app.
Qed.

End List.
