(* ===== verification/HttpFields.v ===== *)
(** * HTTP header fields: the incremental parser of [src/nxt_http_parse.c]

    [nxt_http_parse_fields()] and the handlers it drives:
    [nxt_http_parse_field_name()], [nxt_http_parse_field_value()],
    [nxt_http_lookup_field_end()] and [nxt_http_parse_field_end()].

    A buffer is the list of bytes from the start of the read buffer to
    [b->free]; a pointer into it is an offset.  A handler returns its code, the
    new [b->pos] and the new state; an access outside the buffer is [Fault]. *)

From S2P Require Import Prelude Str Scan NxtList.

(** ** Data *)

Inductive nxt_rc : Type :=
| NXT_OK
| NXT_ERROR
| NXT_AGAIN
| NXT_DONE
| NXT_HTTP_PARSE_INVALID
| NXT_HTTP_PARSE_UNSUPPORTED_VERSION
| NXT_HTTP_PARSE_TOO_LARGE_FIELD.

#[global] Instance nxt_rc_eq_dec : EqDecision nxt_rc.
Proof. solve_decision. Defined.

Record nxt_str := mk_str { str_start : nat; str_length : nat }.

Record nxt_http_field := mk_field {
  fld_hash : Z;
  fld_skip : bool;
  fld_hopbyhop : bool;
  fld_name_length : Z;
  fld_value_length : Z;
  fld_name : nat;
  fld_value : nat
}.

(** The values [rp->handler] takes. *)
Inductive field_handler : Type :=
| H_field_name
| H_field_value
| H_field_end.

(** The part of [nxt_http_request_parse_t] the field handlers use.
    [num_inline_fields] is the length of [inline_fields]; [mem_pool] counts the
    allocations made so far. *)
Record fields_parse := mk_fp {
  handler : option field_handler;
  inline_fields : list nxt_http_field;
  fields : option (nxt_list nxt_http_field);
  mem_pool : nat;
  field_name : nxt_str;
  field_value : nxt_str;
  field_hash : Z;
  skip_field : bool;
  discard_unsafe_fields : bool;
  discard_fields : bool
}.

Definition NXT_HTTP_MAX_FIELD_NAME : nat := 255.
Definition NXT_HTTP_MAX_FIELD_VALUE : Z := INT32_MAX.
Definition NXT_HTTP_FIELD_HASH_INIT : Z := 159406.

Definition nxt_http_field_hash_char (h c : Z) : Z :=
  u32 (u32 (Z.shiftl h 4) + h + c).

Definition nxt_http_field_hash_end (h : Z) : Z := Z.lxor (Z.shiftr h 16) h.

(** The table [normal] of [nxt_http_parse_field_name()]: 0 ends a name, 1 is
    an "unsafe" character that is hashed as it is, any other value is the
    (lower case) character to hash. *)
Definition normal (ch : Z) : Z :=
  if (ch =? 33) || ((35 <=? ch) && (ch <=? 39)) || (ch =? 42) || (ch =? 43)
     || (ch =? DOT) || (ch =? 94) || (ch =? UNDERSCORE) || (ch =? 96)
     || (ch =? 124) || (ch =? 126) then 1
  else if ch =? MINUS then MINUS
  else if (CH_0 <=? ch) && (ch <=? CH_9) then ch
  else if (CH_A <=? ch) && (ch <=? CH_Z) then ch + 32
  else if (CH_a <=? ch) && (ch <=? CH_z) then ch
  else 0.

(** The hash under which [nxt_http_fields_hash()] files a handler for the field
    [name]. *)
Definition nxt_http_fields_hash_key (name : list Z) : Z :=
  Z.land
    (nxt_http_field_hash_end
       (fold_left (fun key c => nxt_http_field_hash_char key (nxt_lowcase c)) name
          NXT_HTTP_FIELD_HASH_INIT))
    65535.

(** The state [nxt_http_parse_request_init()] leaves in the fields the header
    parser uses. *)
Definition fields_init (discard_unsafe : bool) : fields_parse :=
  mk_fp None [] None 0 (mk_str 0 0) (mk_str 0 0) NXT_HTTP_FIELD_HASH_INIT false
    discard_unsafe false.

(** ** State updates *)

Definition set_handler (h : field_handler) (st : fields_parse) : fields_parse :=
  mk_fp (Some h) (inline_fields st) (fields st) (mem_pool st) (field_name st)
    (field_value st) (field_hash st) (skip_field st)
    (discard_unsafe_fields st) (discard_fields st).

Definition set_name (hash : Z) (name : nxt_str) (st : fields_parse) : fields_parse :=
  mk_fp (handler st) (inline_fields st) (fields st) (mem_pool st) name
    (field_value st) hash (skip_field st)
    (discard_unsafe_fields st) (discard_fields st).

Definition set_value (value : nxt_str) (st : fields_parse) : fields_parse :=
  mk_fp (handler st) (inline_fields st) (fields st) (mem_pool st) (field_name st)
    value (field_hash st) (skip_field st)
    (discard_unsafe_fields st) (discard_fields st).

Definition set_skip (skip : bool) (st : fields_parse) : fields_parse :=
  mk_fp (handler st) (inline_fields st) (fields st) (mem_pool st) (field_name st)
    (field_value st) (field_hash st) skip
    (discard_unsafe_fields st) (discard_fields st).

Definition set_fields (inl : list nxt_http_field) (l : option (nxt_list nxt_http_field))
    (mp : nat) (st : fields_parse) : fields_parse :=
  mk_fp (handler st) inl l mp (field_name st)
    (field_value st) (field_hash st) (skip_field st)
    (discard_unsafe_fields st) (discard_fields st).

(** ** Handlers *)

Section Handlers.

(** Whether the [n]-th allocation from the memory pool succeeds. *)
Variable alloc : nat -> bool.

Notation result := (outcome (nxt_rc * nat * fields_parse)).

Definition new_field (st : fields_parse) : nxt_http_field :=
  mk_field (u16 (nxt_http_field_hash_end (field_hash st))) false false
    (u8 (Z.of_nat (str_length (field_name st))))
    (u32 (Z.of_nat (str_length (field_value st))))
    (str_start (field_name st)) (str_start (field_value st)).

(** The place for a new field: one of the 16 inline ones, or an element added
    to the list, which is created when the first element needs it; [false] is
    an allocation failure. *)
Definition store_field (st : fields_parse) : bool * fields_parse :=
  let mp := mem_pool st in
  if (length (inline_fields st) <? 16)%nat then
    (true, set_fields (inline_fields st ++ [new_field st]) (fields st) mp st)
  else
    let '(created, mp1) :=
      match fields st with
      | None => nxt_list_create alloc mp 16
      | Some l => (Some l, mp)
      end in
    match created with
    | None => (false, set_fields (inline_fields st) None mp1 st)
    | Some l =>
        let '(added, l', mp2) := nxt_list_add alloc mp1 (new_field st) l in
        (added, set_fields (inline_fields st) (Some l') mp2 st)
    end.

(** The state for the next field line. *)
Definition next_field (st : fields_parse) : fields_parse :=
  set_handler H_field_name
    (set_value (mk_str (str_start (field_value st)) 0)
       (set_name NXT_HTTP_FIELD_HASH_INIT
          (mk_str (str_start (field_name st)) 0) st)).

(** A complete line: a field to store, skip or discard, or the empty line that
    ends the header. *)
Definition end_of_line (st : fields_parse) : nxt_rc * fields_parse :=
  if negb (str_length (field_name st) =? 0)%nat then
    if skip_field st then (NXT_OK, next_field (set_skip false st))
    else if negb (discard_fields st) then
      let '(is_stored, st') := store_field st in
      if is_stored then (NXT_OK, next_field st') else (NXT_ERROR, st')
    else (NXT_OK, next_field st)
  else (NXT_DONE, st).

Definition nxt_http_parse_field_end (buf : list Z) (pos : nat) (st : fields_parse)
  : result :=
  let* ch := of_option (buf !! pos) in
  let p := if ch =? CR then S pos else pos in
  if (ch =? CR) && (p =? length buf)%nat then
    Ret (NXT_AGAIN, pos, set_handler H_field_end st)
  else
    let* ch' := of_option (buf !! p) in
    if ch' =? LF then
      let '(rc, st') := end_of_line st in Ret (rc, S p, st')
    else Ret (NXT_HTTP_PARSE_INVALID, pos, st).

(** The test of [nxt_field_end_test_char()]. *)
Definition field_end_test (ch : Z) (s : unit) : unit + unit :=
  if ch <? 32 then inr tt else inl tt.

(** The first byte below 0x20, or the end: blocks of 16 bytes, blocks of 4,
    and a switch for the at most 3 bytes left. *)
Definition nxt_http_lookup_field_end (l : list Z) (p : nat) : outcome (nat * list Z) :=
  let* (p1, l1, x1) := scan_blocks field_end_test (S (length l)) 16 l p tt in
  match x1 with
  | inr _ => Ret (p1, l1)
  | inl _ =>
      let* (p2, l2, x2) := scan_blocks field_end_test (S (length l1)) 4 l1 p1 tt in
      match x2 with
      | inr _ => Ret (p2, l2)
      | inl _ =>
          if (length l2 <=? 3)%nat then
            let '(p3, l3, _) := scan field_end_test l2 p2 tt in Ret (p3, l3)
          else Fault
      end
  end.

(** [while (p[-1] == ' ' || p[-1] == '\t') p--;] *)
Fixpoint trim_back (buf : list Z) (p : nat) : outcome nat :=
  match p with
  | O => Fault
  | S p' =>
      let* ch := of_option (buf !! p') in
      if (ch =? SP) || (ch =? TAB) then trim_back buf p' else Ret p
  end.

(** The difference of two pointers, stored in a [size_t]. *)
Definition ptr_diff (p q : nat) : outcome nat :=
  if (q <=? p)%nat then Ret (p - q)%nat else Fault.

Inductive value_end : Type :=
| Value_more            (* the end of the buffer was reached *)
| Value_at (p : nat)    (* CR or LF at [p] *)
| Value_bad.            (* another control character *)

(** The loop that looks for the end of a field value. *)
Fixpoint value_loop (fuel : nat) (buf : list Z) (p : nat) : outcome value_end :=
  match fuel with
  | O => OutOfFuel
  | S fuel' =>
      let* (p', _) := nxt_http_lookup_field_end (drop p buf) p in
      if (p' =? length buf)%nat then Ret Value_more
      else
        let* ch := of_option (buf !! p') in
        if (ch =? CR) || (ch =? LF) then Ret (Value_at p')
        else if negb (ch =? TAB) then Ret Value_bad
        else value_loop fuel' buf (S p')
  end.

(** [memchr(start, 0x7F, n) != NULL] *)
Definition has_del (buf : list Z) (start n : nat) : bool :=
  existsb (fun ch => ch =? DEL) (take n (drop start buf)).

Definition skip_ws (ch : Z) (s : unit) : unit + unit :=
  if negb (ch =? SP) && negb (ch =? TAB) then inr tt else inl tt.

(** What follows the search for the end of the value that starts at [start]. *)
Definition field_value_found (buf : list Z) (pos start : nat) (st : fields_parse)
    (e : value_end) : result :=
  match e with
  | Value_more =>
      let* len := ptr_diff (length buf) start in
      if Z.of_nat len >? NXT_HTTP_MAX_FIELD_VALUE then
        Ret (NXT_HTTP_PARSE_TOO_LARGE_FIELD, start, st)
      else
        Ret (NXT_AGAIN, start,
             set_handler H_field_value
               (set_value (mk_str (str_start (field_value st)) len) st))
  | Value_bad => Ret (NXT_HTTP_PARSE_INVALID, pos, st)
  | Value_at p =>
      let* n := ptr_diff p start in
      if has_del buf start n then Ret (NXT_HTTP_PARSE_INVALID, pos, st)
      else
        let* p' := (if negb (p =? start)%nat then trim_back buf p else Ret p) in
        let* len := ptr_diff p' start in
        if Z.of_nat len >? NXT_HTTP_MAX_FIELD_VALUE then
          Ret (NXT_HTTP_PARSE_TOO_LARGE_FIELD, p, st)
        else
          nxt_http_parse_field_end buf p (set_value (mk_str start len) st)
  end.

Definition nxt_http_parse_field_value (buf : list Z) (pos : nat) (st : fields_parse)
  : result :=
  match scan skip_ws (drop pos buf) pos tt with
  | (p, _, inl _) => Ret (NXT_AGAIN, p, set_handler H_field_value st)
  | (start, _, inr _) =>
      let* e := value_loop (S (length buf)) buf (start + str_length (field_value st)) in
      field_value_found buf pos start st e
  end.

(** The test of [nxt_field_name_test_char()]; the local state is the hash and
    [rp->skip_field]. *)
Definition field_name_test (discard_unsafe : bool) (ch : Z) (s : Z * bool)
  : (Z * bool) + (Z * bool) :=
  let '(hash, skip) := s in
  let c := normal ch in
  if c <=? 1 then
    if c =? 0 then inr (hash, skip)
    else inl (nxt_http_field_hash_char hash ch, discard_unsafe)
  else inl (nxt_http_field_hash_char hash c, skip).

(** What follows the scan of a name that starts at [pos], up to [p]. *)
Definition field_name_scanned (buf : list Z) (pos : nat) (st : fields_parse)
    (r : nat * list Z * ((Z * bool) + (Z * bool))) : result :=
  let '(p, _, x) := r in
  let* len := ptr_diff p pos in
  match x with
  | inl (hash, skip) =>
      if (NXT_HTTP_MAX_FIELD_NAME <? len)%nat then
        Ret (NXT_HTTP_PARSE_TOO_LARGE_FIELD, pos, set_skip skip st)
      else
        Ret (NXT_AGAIN, pos,
             set_handler H_field_name
               (set_name hash (mk_str (str_start (field_name st)) len)
                  (set_skip skip st)))
  | inr (hash, skip) =>
      let* ch := of_option (buf !! p) in
      if ch =? COLON then
        if (p =? pos)%nat then Ret (NXT_HTTP_PARSE_INVALID, pos, set_skip skip st)
        else if (NXT_HTTP_MAX_FIELD_NAME <? len)%nat then
          Ret (NXT_HTTP_PARSE_TOO_LARGE_FIELD, pos, set_skip skip st)
        else
          nxt_http_parse_field_value buf (S p)
            (set_name hash (mk_str pos len) (set_skip skip st))
      else if negb (p =? pos)%nat then
        Ret (NXT_HTTP_PARSE_INVALID, pos, set_skip skip st)
      else
        nxt_http_parse_field_end buf pos (set_skip skip st)
  end.

Definition nxt_http_parse_field_name (buf : list Z) (pos : nat) (st : fields_parse)
  : result :=
  let p := (pos + str_length (field_name st))%nat in
  let* r :=
    scan_unrolled (field_name_test (discard_unsafe_fields st)) 8 (drop p buf) p
      (field_hash st, skip_field st) in
  field_name_scanned buf pos st r.

(** [rp->handler(rp, &b->pos, b->free)] *)
Definition call_handler (h : field_handler) : list Z -> nat -> fields_parse -> result :=
  match h with
  | H_field_name => nxt_http_parse_field_name
  | H_field_value => nxt_http_parse_field_value
  | H_field_end => nxt_http_parse_field_end
  end.

(** [do { rc = rp->handler(...); } while (rc == NXT_OK);] *)
Fixpoint run_handlers (fuel : nat) (buf : list Z) (pos : nat) (st : fields_parse)
  : result :=
  match fuel with
  | O => OutOfFuel
  | S fuel' =>
      match handler st with
      | None => Fault
      | Some h =>
          let* (rc, pos', st') := call_handler h buf pos st in
          match rc with
          | NXT_OK => run_handlers fuel' buf pos' st'
          | _ => Ret (rc, pos', st')
          end
      end
  end.

Definition nxt_http_parse_fields (buf : list Z) (pos : nat) (st : fields_parse)
  : result :=
  let st' :=
    match handler st with
    | None => set_handler H_field_name st
    | Some _ => st
    end in
  run_handlers (S (length buf)) buf pos st'.

End Handlers.

(** ** The tables of the source *)

Lemma normal_table :
  map normal (map Z.of_nat (List.seq 0 256)) =
  replicate 32 0
  ++ [0; 1; 0; 1; 1; 1; 1; 1; 0; 0; 1; 1; 0] ++ [45] ++ [1; 0]
  ++ bytes_of_string "0123456789" ++ [0; 0; 0; 0; 0; 0]
  ++ [0] ++ bytes_of_string "abcdefghijklmnopqrstuvwxyz" ++ [0; 0; 0; 1; 1]
  ++ [1] ++ bytes_of_string "abcdefghijklmnopqrstuvwxyz" ++ [0; 1; 0; 1; 0]
  ++ replicate 128 0.
Proof. vm_compute. reflexivity. Qed.

(** ** The scanning loops *)

Lemma nxt_http_lookup_field_end_eq l p :
  nxt_http_lookup_field_end l p =
  Ret (let '(p', l', _) := scan field_end_test l p tt in (p', l')).
Proof.
  unfold nxt_http_lookup_field_end.
  destruct (scan_blocks_spec field_end_test 16 ltac:(lia) (S (length l)) l p tt)
    as (p1 & l1 & x1 & E1 & E2 & _); [lia|].
  rewrite E1, E2. simpl. destruct x1 as [[]|[]]; simpl; [|done].
  destruct (scan_blocks_spec field_end_test 4 ltac:(lia) (S (length l1)) l1 p1 tt)
    as (p2 & l2 & x2 & F1 & F2 & F3); [lia|].
  rewrite F1, F2. simpl. destruct x2 as [[]|[]]; simpl; [|done].
  specialize (F3 _ eq_refl). destruct (Nat.leb_spec (length l2) 3); [|lia].
  by destruct (scan field_end_test l2 p2 tt) as [[]].
Qed.

(** The bytes that end the search for the end of a value. *)
Definition value_test (ch : Z) (s : unit) : unit + Z :=
  if (ch <? 32) && negb (ch =? TAB) then inr ch else inl tt.

Definition value_end_of (r : nat * list Z * (unit + Z)) : value_end :=
  match r with
  | (_, _, inl _) => Value_more
  | (p, _, inr ch) => if (ch =? CR) || (ch =? LF) then Value_at p else Value_bad
  end.

Lemma value_scan_field_end l p :
  scan value_test l p tt =
  match scan field_end_test l p tt with
  | (p', l', inl _) => (p', l', inl tt)
  | (p', ch :: l', inr _) =>
      if ch =? TAB then scan value_test l' (S p') tt else (p', ch :: l', inr ch)
  | (p', [], inr _) => (p', [], inl tt)
  end.
Proof.
  revert p. induction l as [|ch l IH]; intros p; simpl; [done|].
  unfold field_end_test at 1, value_test at 1.
  destruct (Z.ltb_spec ch 32); simpl; [|apply IH].
  by destruct (ch =? TAB).
Qed.

Lemma value_loop_eq fuel buf p :
  (p <= length buf)%nat -> (length buf - p < fuel)%nat ->
  value_loop fuel buf p = Ret (value_end_of (scan value_test (drop p buf) p tt)).
Proof.
  revert p. induction fuel as [|fuel IH]; intros p Hp Hf; [lia|]. simpl.
  rewrite nxt_http_lookup_field_end_eq, value_scan_field_end.
  destruct (scan field_end_test (drop p buf) p tt) as [[p' l'] x] eqn:E. simpl.
  pose proof E as E'. apply scan_drop in E as (-> & Hle & Hx).
  destruct x as [[]|[]].
  - rewrite Hx, Nat.max_r by lia. rewrite Nat.eqb_refl. by destruct (drop (length buf) buf).
  - destruct (Nat.eqb_spec p' (length buf)); [lia|].
    destruct (lookup_lt_is_Some_2 buf p' Hx) as [ch Hch].
    rewrite (drop_lookup_cons _ _ _ Hch), Hch. simpl.
    apply scan_stop in E' as (c & l'' & [] & Ec & Hs).
    rewrite (drop_lookup_cons _ _ _ Hch) in Ec. injection Ec as <- <-.
    destruct (Z.eqb_spec ch TAB) as [->|]; simpl.
    + apply IH; lia.
    + by case_match.
Qed.

#[local] Arguments value_loop : simpl never.

(** ** Safety and termination *)

(** When handler [h] may run at [pos]. *)
Definition wf_at (h : field_handler) (buf : list Z) (pos : nat) (st : fields_parse)
  : Prop :=
  match h with
  | H_field_name =>
      (pos + str_length (field_name st) <= length buf)%nat /\
      str_length (field_value st) = 0%nat
  | H_field_value =>
      (pos <= length buf)%nat /\
      (str_length (field_value st) = 0%nat \/
       ((pos + str_length (field_value st) <= length buf)%nat /\
        exists ch, buf !! pos = Some ch /\ ch <> SP /\ ch <> TAB))
  | H_field_end => (pos < length buf)%nat
  end.

Definition fields_wf (buf : list Z) (pos : nat) (st : fields_parse) : Prop :=
  match handler st with
  | None => wf_at H_field_name buf pos st
  | Some h => wf_at h buf pos st
  end.

(** A handler returns, inside the buffer; after [NXT_OK] it has consumed input
    and the next field line starts; after [NXT_AGAIN] it can be resumed. *)
Definition handler_post (buf : list Z) (pos : nat)
    (r : outcome (nxt_rc * nat * fields_parse)) : Prop :=
  exists rc pos' st',
    r = Ret (rc, pos', st') /\
    (pos <= pos' <= length buf)%nat /\
    (rc = NXT_OK ->
       (pos < pos')%nat /\ handler st' = Some H_field_name /\
       wf_at H_field_name buf pos' st') /\
    (rc = NXT_AGAIN ->
       exists h, handler st' = Some h /\ wf_at h buf pos' st').

Lemma handler_post_le buf pos pos1 r :
  (pos <= pos1)%nat -> handler_post buf pos1 r -> handler_post buf pos r.
Proof.
  intros Hle (rc & pos' & st' & -> & ? & Hok & ?). exists rc, pos', st'.
  split_and!; [done|lia|lia| |done]. intros Hrc. destruct (Hok Hrc) as (? & ? & ?).
  split_and!; [lia|done..].
Qed.

(** The common end of the error branches. *)
Lemma handler_post_error buf pos rc pos' st' :
  (pos <= pos' <= length buf)%nat -> rc <> NXT_OK -> rc <> NXT_AGAIN ->
  handler_post buf pos (Ret (rc, pos', st')).
Proof. intros. by exists rc, pos', st'. Qed.

Lemma handler_post_again buf pos pos' st' h :
  (pos <= pos' <= length buf)%nat -> handler st' = Some h -> wf_at h buf pos' st' ->
  handler_post buf pos (Ret (NXT_AGAIN, pos', st')).
Proof. intros. exists NXT_AGAIN, pos', st'. split_and!; [done|lia|lia|done|eauto]. Qed.

(** Trimming from the end of a value whose first byte is not a blank stops
    inside the value. *)
Lemma trim_back_spec buf start p ch :
  buf !! start = Some ch -> ch <> SP -> ch <> TAB ->
  (start < p <= length buf)%nat ->
  exists p', trim_back buf p = Ret p' /\ (start < p' <= p)%nat.
Proof.
  intros Hch Hs Ht. induction p as [|p IH]; intros Hp; [lia|]. simpl.
  destruct (lookup_lt_is_Some_2 buf p ltac:(lia)) as [c Hc]. rewrite Hc. simpl.
  destruct (decide (p = start)) as [->|].
  - assert (c = ch) as -> by congruence.
    destruct (Z.eqb_spec ch SP), (Z.eqb_spec ch TAB); try done. simpl. eauto with lia.
  - destruct ((c =? SP) || (c =? TAB)); [|eauto with lia].
    destruct IH as (p' & -> & ?); [lia|]. eauto with lia.
Qed.

Lemma ptr_diff_le p q : (q <= p)%nat -> ptr_diff p q = Ret (p - q)%nat.
Proof. intros H. unfold ptr_diff. destruct (Nat.leb_spec q p); [done|lia]. Qed.

Lemma skip_ws_spec buf pos :
  (pos <= length buf)%nat ->
  match scan skip_ws (drop pos buf) pos tt with
  | (p, _, inl _) => p = length buf
  | (p, _, inr _) =>
      (pos <= p < length buf)%nat /\
      exists ch, buf !! p = Some ch /\ ch <> SP /\ ch <> TAB
  end.
Proof.
  intros Hpos. destruct (scan skip_ws (drop pos buf) pos tt) as [[p l] x] eqn:E.
  pose proof E as E'. apply scan_drop in E as (-> & ? & Hx). destruct x as [[]|[]]; [lia|].
  split; [lia|]. apply scan_stop in E' as (ch & l' & [] & Ed & Hs).
  apply drop_cons_inv in Ed as [Hch _]. exists ch. split; [done|].
  unfold skip_ws in Hs. destruct (Z.eqb_spec ch SP), (Z.eqb_spec ch TAB); done.
Qed.

Lemma value_scan_spec buf p :
  (p <= length buf)%nat ->
  match value_end_of (scan value_test (drop p buf) p tt) with
  | Value_at p' =>
      (p <= p' < length buf)%nat /\ (buf !! p' = Some CR \/ buf !! p' = Some LF)
  | _ => True
  end.
Proof.
  intros Hp. destruct (scan value_test (drop p buf) p tt) as [[p' l] x] eqn:E. simpl.
  pose proof E as E'. apply scan_drop in E as (-> & ? & Hx).
  destruct x as [[]|ch]; [done|].
  destruct ((ch =? CR) || (ch =? LF)) eqn:Ec; [|done].
  apply scan_stop in E' as (c & l' & [] & Ed & Hs).
  apply drop_cons_inv in Ed as [Hch _]. unfold value_test in Hs.
  destruct ((c <? 32) && negb (c =? TAB)); [|done]. injection Hs as <-.
  split; [lia|]. zbool. destruct Ec; zbool; subst; auto.
Qed.

(** Where a value starts: the first byte that is not a blank. *)
Definition value_start (buf : list Z) (start : nat) : Prop :=
  exists ch, buf !! start = Some ch /\ ch <> SP /\ ch <> TAB.

Definition value_end_wf (buf : list Z) (start : nat) (e : value_end) : Prop :=
  match e with
  | Value_at p => (start <= p < length buf)%nat
  | _ => True
  end.

(** Trimming after the search stays between the start and the line end. *)
Lemma trimmed_spec buf start p :
  value_start buf start -> (start <= p < length buf)%nat ->
  exists p', (if negb (p =? start)%nat then trim_back buf p else Ret p) = Ret p' /\
             (start <= p' <= p)%nat.
Proof.
  intros (ch & Hch & ? & ?) Hp. destruct (Nat.eqb_spec p start); simpl; [eauto with lia|].
  destruct (trim_back_spec buf start p ch) as (p' & ? & ?); eauto with lia.
Qed.

(** In a state that resumes a value, [pos] is at the start of that value. *)
Lemma value_wf_start buf pos st p l x :
  wf_at H_field_value buf pos st ->
  scan skip_ws (drop pos buf) pos tt = (p, l, x) ->
  match x with
  | inl _ => str_length (field_value st) = 0%nat /\ p = length buf
  | inr _ =>
      (pos <= p)%nat /\ value_start buf p /\
      (p + str_length (field_value st) <= length buf)%nat
  end.
Proof.
  simpl. intros [Hpos Hv] E. pose proof (skip_ws_spec buf pos Hpos) as Hws.
  rewrite E in Hws. destruct Hv as [->|[Hv (ch & Hch & ? & ?)]].
  - destruct x as [[]|[]]; [done|]. destruct Hws as [? ?]. split_and!; [lia|done|lia].
  - rewrite (drop_lookup_cons _ _ _ Hch) in E. unfold skip_ws in E. simpl in E.
    destruct (Z.eqb_spec ch SP), (Z.eqb_spec ch TAB); try done. simpl in E.
    injection E as <- <- <-. split_and!; [lia| |lia]. by exists ch.
Qed.

Lemma value_end_of_wf buf start n :
  (start + n <= length buf)%nat ->
  value_end_wf buf start
    (value_end_of (scan value_test (drop (start + n) buf) (start + n) tt)).
Proof.
  intros H. pose proof (value_scan_spec buf (start + n) H).
  destruct (value_end_of _); simpl; naive_solver lia.
Qed.

Section Safety.
Variable alloc : nat -> bool.

Lemma end_of_line_cases st :
  match end_of_line alloc st with
  | (NXT_OK, st') => exists st1, st' = next_field st1
  | (NXT_DONE, _) | (NXT_ERROR, _) => True
  | _ => False
  end.
Proof.
  unfold end_of_line. destruct (negb _); [|done].
  destruct (skip_field st); [eauto|]. destruct (negb _); [|eauto].
  destruct (store_field alloc st) as [[] st']; eauto.
Qed.

Lemma field_end_post buf pos st :
  wf_at H_field_end buf pos st ->
  handler_post buf pos (nxt_http_parse_field_end alloc buf pos st).
Proof.
  simpl. intros Hpos. unfold nxt_http_parse_field_end.
  destruct (lookup_lt_is_Some_2 buf pos Hpos) as [ch Hch]. rewrite Hch. simpl.
  set (p := if ch =? CR then S pos else pos).
  destruct ((ch =? CR) && (p =? length buf)%nat) eqn:E.
  { by apply (handler_post_again _ _ _ _ H_field_end); [lia|..]. }
  assert (Hp : (pos <= p < length buf)%nat).
  { subst p. destruct (ch =? CR); cbn [andb] in E; zbool; lia. }
  destruct (lookup_lt_is_Some_2 buf p ltac:(lia)) as [ch' Hch']. rewrite Hch'. simpl.
  destruct (ch' =? LF); [|apply handler_post_error; [lia|done..]].
  pose proof (end_of_line_cases st) as Hc. destruct (end_of_line alloc st) as [rc st'].
  exists rc, (S p), st'. split_and!; [done|lia|lia|..]; intros ->; [|done].
  destruct Hc as [st1 ->]. split; [lia|]. split; [done|simpl; lia].
Qed.

Lemma field_value_found_post buf pos start st e :
  (pos <= start)%nat -> value_start buf start -> value_end_wf buf start e ->
  handler_post buf pos (field_value_found alloc buf pos start st e).
Proof.
  intros Hpos Hvs He. pose proof Hvs as (ch & Hch & _).
  apply lookup_lt_Some in Hch. destruct e as [|p|]; simpl in *.
  - rewrite ptr_diff_le by lia. simpl. destruct (_ >? _).
    { apply handler_post_error; [lia|done..]. }
    apply (handler_post_again _ _ _ _ H_field_value); [lia|done|]. simpl.
    split; [lia|]. right. split; [lia|done].
  - rewrite ptr_diff_le by lia. simpl.
    destruct (has_del _ _ _); [apply handler_post_error; [lia|done..]|].
    destruct (trimmed_spec buf start p Hvs He) as (p' & -> & ?). simpl.
    rewrite ptr_diff_le by lia. simpl. destruct (_ >? _).
    { apply handler_post_error; [lia|done..]. }
    apply (handler_post_le _ _ p); [lia|]. apply field_end_post. simpl. lia.
  - apply handler_post_error; [lia|done..].
Qed.

Lemma field_value_post buf pos st :
  wf_at H_field_value buf pos st ->
  handler_post buf pos (nxt_http_parse_field_value alloc buf pos st).
Proof.
  intros Hwf. unfold nxt_http_parse_field_value. pose proof Hwf as [Hpos _].
  destruct (scan skip_ws (drop pos buf) pos tt) as [[start l] x] eqn:Ews.
  pose proof (value_wf_start _ _ _ _ _ _ Hwf Ews) as Hs. destruct x as [[]|[]].
  - destruct Hs as [? ->]. apply (handler_post_again _ _ _ _ H_field_value); [lia|done|].
    simpl. auto with lia.
  - destruct Hs as (? & ? & Hb). rewrite value_loop_eq by lia. simpl.
    apply field_value_found_post; auto using value_end_of_wf.
Qed.

Lemma field_name_post buf pos st :
  wf_at H_field_name buf pos st ->
  handler_post buf pos (nxt_http_parse_field_name alloc buf pos st).
Proof.
  simpl. intros [Hpos Hv]. unfold nxt_http_parse_field_name.
  rewrite scan_unrolled_eq by lia. simpl.
  destruct (scan _ _ _ _) as [[p l] x] eqn:E. pose proof E as E'.
  apply scan_drop in E as (-> & Hle & Hx). simpl. rewrite ptr_diff_le by lia. simpl.
  destruct x as [[hash skip]|[hash skip]].
  - case_match; [apply handler_post_error; [lia|done..]|].
    apply (handler_post_again _ _ _ _ H_field_name); [lia|done|]. simpl. lia.
  - destruct (lookup_lt_is_Some_2 buf p ltac:(lia)) as [ch Hch]. rewrite Hch. simpl.
    destruct (Z.eqb_spec ch COLON) as [->|].
    + destruct (p =? pos)%nat; [apply handler_post_error; [lia|done..]|].
      case_match; [apply handler_post_error; [lia|done..]|].
      apply (handler_post_le _ _ (S p)); [lia|]. apply field_value_post. simpl. auto with lia.
    + destruct (Nat.eqb_spec p pos); simpl; [|apply handler_post_error; [lia|done..]].
      apply field_end_post. simpl. lia.
Qed.

Lemma call_handler_post h buf pos st :
  wf_at h buf pos st -> handler_post buf pos (call_handler alloc h buf pos st).
Proof.
  destruct h; simpl; [apply field_name_post|apply field_value_post|apply field_end_post].
Qed.

(** The driver terminates: every [NXT_OK] consumes at least one byte. *)
Lemma run_handlers_post fuel buf pos st h :
  handler st = Some h -> wf_at h buf pos st -> (pos <= length buf)%nat ->
  (length buf - pos < fuel)%nat ->
  exists rc pos' st',
    run_handlers alloc fuel buf pos st = Ret (rc, pos', st') /\
    (pos <= pos' <= length buf)%nat /\ rc <> NXT_OK /\
    (rc = NXT_AGAIN -> exists h', handler st' = Some h' /\ wf_at h' buf pos' st').
Proof.
  revert pos st h. induction fuel as [|fuel IH]; intros pos st h Hh Hwf Hpos Hf; [lia|].
  simpl. rewrite Hh.
  destruct (call_handler_post h buf pos st Hwf) as (rc & pos' & st' & -> & ? & Hok & Hag).
  simpl. destruct (decide (rc = NXT_OK)) as [->|Hne].
  - destruct (Hok eq_refl) as (? & Hh' & Hwf').
    destruct (IH pos' st' _ Hh' Hwf') as (rc & p2 & st2 & -> & ? & ? & ?); [lia..|].
    exists rc, p2, st2. split_and!; auto with lia.
  - exists rc, pos', st'. destruct rc; try done; split_and!; auto with lia.
Qed.

End Safety.

(** ** Resuming after a partial read *)

(** What the caller keeps of a parse: the fields it stored. *)
Definition stored (st : fields_parse)
  : list nxt_http_field * option (nxt_list nxt_http_field) * nat :=
  (inline_fields st, fields st, mem_pool st).

(** Two runs the caller cannot tell apart: the same code and stored fields, the
    same position when the parse is complete, and the same position and state
    when it goes on. *)
Definition same_parse (r1 r2 : outcome (nxt_rc * nat * fields_parse)) : Prop :=
  match r1, r2 with
  | Ret (rc1, p1, s1), Ret (rc2, p2, s2) =>
      rc1 = rc2 /\ stored s1 = stored s2 /\
      (rc1 = NXT_DONE -> p1 = p2) /\
      (rc1 = NXT_OK \/ rc1 = NXT_AGAIN -> p1 = p2 /\ s1 = s2)
  | _, _ => False
  end.

Lemma same_parse_trans r1 r2 r3 :
  same_parse r1 r2 -> same_parse r2 r3 -> same_parse r1 r3.
Proof.
  destruct r1 as [[[]]| |], r2 as [[[]]| |], r3 as [[[]]| |]; simpl; try tauto.
  intros (-> & -> & Ha & Hb) (-> & -> & Hc & Hd). naive_solver.
Qed.

Lemma same_parse_refl x : same_parse (Ret x) (Ret x).
Proof. destruct x as [[rc p] st]. by split_and!. Qed.

Lemma same_parse_error rc p1 p2 s1 s2 :
  rc <> NXT_OK -> rc <> NXT_AGAIN -> rc <> NXT_DONE -> stored s1 = stored s2 ->
  same_parse (Ret (rc, p1, s1)) (Ret (rc, p2, s2)).
Proof. intros. split_and!; [done..|]. by intros []. Qed.

(** The state without what the next handler call overwrites. *)
Definition frame (st : fields_parse) : fields_parse :=
  set_handler H_field_name (set_value (mk_str (str_start (field_value st)) 0) st).

Section Resume.
Variable alloc : nat -> bool.
Variable more : list Z.

Lemma end_of_line_same st1 st2 :
  set_handler H_field_name st1 = set_handler H_field_name st2 ->
  match end_of_line alloc st1, end_of_line alloc st2 with
  | (rc1, s1), (rc2, s2) =>
      rc1 = rc2 /\ stored s1 = stored s2 /\ (rc1 = NXT_OK -> s1 = s2)
  end.
Proof.
  intros Heq. destruct st1 as [h1], st2 as [h2]. injection Heq as -> -> -> -> -> -> -> -> ->.
  unfold end_of_line, store_field, new_field. simpl. repeat (case_match; simplify_eq/=); done.
Qed.

Lemma end_of_line_rc st : (end_of_line alloc st).1 <> NXT_AGAIN.
Proof.
  pose proof (end_of_line_cases alloc st). by destruct (end_of_line alloc st) as [[] ?].
Qed.

Lemma field_end_same buf pos st1 st2 :
  wf_at H_field_end buf pos st1 ->
  set_handler H_field_name st1 = set_handler H_field_name st2 ->
  same_parse (nxt_http_parse_field_end alloc buf pos st1)
             (nxt_http_parse_field_end alloc buf pos st2).
Proof.
  intros Hwf Heq. destruct (field_end_post alloc buf pos st1 Hwf) as (rc & p & s & E & _).
  revert E. unfold nxt_http_parse_field_end.
  destruct (buf !! pos) as [ch|]; [|done]. simpl.
  pose proof (f_equal stored Heq : stored st1 = stored st2) as Hstored.
  pose proof (f_equal (set_handler H_field_end) Heq
    : set_handler H_field_end st1 = set_handler H_field_end st2) as Hh.
  case_match; [intros _; simpl; rewrite Hh; naive_solver|].
  destruct (buf !! _) as [ch'|]; [|done]. simpl.
  pose proof (end_of_line_same st1 st2 Heq) as Hs. pose proof (end_of_line_rc st1) as Hrc.
  destruct (end_of_line alloc st1) as [rc1 s1], (end_of_line alloc st2) as [rc2 s2].
  simpl in Hrc. destruct Hs as (-> & Hst & Hok). intros _.
  destruct (ch' =? LF); simpl; split_and!; try done; intros; intuition congruence.
Qed.

(** [field_end] does not look past the line end it finds. *)
Lemma field_end_app buf pos st rc pos' st' :
  nxt_http_parse_field_end alloc buf pos st = Ret (rc, pos', st') -> rc <> NXT_AGAIN ->
  nxt_http_parse_field_end alloc (buf ++ more) pos st = Ret (rc, pos', st').
Proof.
  unfold nxt_http_parse_field_end. destruct (buf !! pos) as [ch|] eqn:E; [|done].
  pose proof (lookup_lt_Some _ _ _ E). rewrite lookup_app_l, E by lia. simpl.
  set (p := if ch =? CR then S pos else pos). rewrite length_app.
  destruct ((ch =? CR) && (p =? length buf)%nat) eqn:Ec; [naive_solver|].
  destruct (buf !! p) as [ch'|] eqn:E'; [|done].
  pose proof (lookup_lt_Some _ _ _ E'). rewrite lookup_app_l, E' by lia.
  replace ((ch =? CR) && (p =? length buf + length more)%nat) with false; [done|].
  symmetry. destruct (ch =? CR); [|done]. cbn [andb]. apply Nat.eqb_neq. lia.
Qed.

Lemma field_end_again buf pos st pos' st' :
  nxt_http_parse_field_end alloc buf pos st = Ret (NXT_AGAIN, pos', st') ->
  pos' = pos /\ st' = set_handler H_field_end st.
Proof.
  unfold nxt_http_parse_field_end. destruct (buf !! pos) as [ch|]; [|done]. simpl.
  case_match; [naive_solver|]. destruct (buf !! _) as [ch'|]; [|done]. simpl.
  pose proof (end_of_line_rc st). destruct (end_of_line alloc st), (ch' =? LF); naive_solver.
Qed.

(** The search for the end of a value, when the buffer grows. *)
Lemma value_scan_app buf p :
  (p <= length buf)%nat ->
  value_end_of (scan value_test (drop p (buf ++ more)) p tt) =
  match value_end_of (scan value_test (drop p buf) p tt) with
  | Value_more => value_end_of (scan value_test more (length buf) tt)
  | e => e
  end.
Proof.
  intros Hp. rewrite drop_app_le, scan_app by lia.
  destruct (scan value_test (drop p buf) p tt) as [[p' l] [[]|ch]] eqn:E; simpl.
  - apply scan_drop in E as (_ & _ & ->). by rewrite Nat.max_r by lia.
  - by case_match.
Qed.

Lemma has_del_app buf start n :
  (start + n <= length buf)%nat -> has_del (buf ++ more) start n = has_del buf start n.
Proof.
  intros H. unfold has_del. rewrite drop_app_le, take_app_le; [done|..];
    rewrite ?length_drop; lia.
Qed.

Lemma trim_back_app buf p p' :
  trim_back buf p = Ret p' -> trim_back (buf ++ more) p = Ret p'.
Proof.
  induction p as [|p IH]; simpl; [done|].
  destruct (buf !! p) as [ch|] eqn:E; [|done].
  rewrite lookup_app_l, E by by apply lookup_lt_Some in E. simpl. by case_match.
Qed.

End Resume.

Section Resume_values.
Variable alloc : nat -> bool.
Variable more : list Z.

Lemma frame_stored st1 st2 : frame st1 = frame st2 -> stored st1 = stored st2.
Proof. intros H. exact (f_equal stored H). Qed.

Lemma frame_set_value h v st1 st2 :
  frame st1 = frame st2 ->
  set_handler h (set_value v st1) = set_handler h (set_value v st2).
Proof. intros H. exact (f_equal (fun s => set_handler h (set_value v s)) H). Qed.

Lemma frame_value_start st1 st2 :
  frame st1 = frame st2 -> str_start (field_value st1) = str_start (field_value st2).
Proof. intros H. exact (f_equal (fun s => str_start (field_value s)) H). Qed.

Lemma field_value_found_same buf pos1 pos2 start st1 st2 e :
  value_start buf start -> value_end_wf buf start e -> frame st1 = frame st2 ->
  same_parse (field_value_found alloc buf pos1 start st1 e)
             (field_value_found alloc buf pos2 start st2 e).
Proof.
  intros Hvs He Hf. pose proof (frame_stored _ _ Hf) as Hst. pose proof Hvs as (ch & Hch & _).
  apply lookup_lt_Some in Hch. destruct e as [|p|]; simpl in *.
  - rewrite ptr_diff_le by lia. cbn [obind]. destruct (_ >? _); [by apply same_parse_error|].
    rewrite (frame_value_start _ _ Hf), (frame_set_value _ _ _ _ Hf). apply same_parse_refl.
  - rewrite ptr_diff_le by lia. cbn [obind].
    destruct (has_del _ _ _); [by apply same_parse_error|].
    destruct (trimmed_spec buf start p Hvs He) as (p' & -> & ?). cbn [obind].
    rewrite ptr_diff_le by lia. cbn [obind].
    destruct (_ >? _); [by apply same_parse_error|].
    apply field_end_same; [simpl; lia|]. by apply frame_set_value.
  - by apply same_parse_error.
Qed.

(** A value whose end was found is not affected by later bytes. *)
Lemma field_value_found_app buf pos start st p :
  value_start buf start -> (start <= p < length buf)%nat ->
  let r := field_value_found alloc buf pos start st (Value_at p) in
  let r' := field_value_found alloc (buf ++ more) pos start st (Value_at p) in
  (forall pos' st', r = Ret (NXT_OK, pos', st') -> r' = Ret (NXT_OK, pos', st')) /\
  (forall pos' st', r = Ret (NXT_AGAIN, pos', st') ->
     pos' = p /\ handler st' = Some H_field_end /\
     same_parse r' (nxt_http_parse_field_end alloc (buf ++ more) pos' st')).
Proof.
  intros Hvs Hp. simpl. rewrite ptr_diff_le by lia. simpl.
  rewrite has_del_app by lia. destruct (has_del _ _ _); [done|].
  destruct (trimmed_spec buf start p Hvs Hp) as (p' & Et & ?).
  assert ((if negb (p =? start)%nat then trim_back (buf ++ more) p else Ret p) = Ret p') as ->.
  { revert Et. destruct (negb _); [apply trim_back_app|done]. }
  rewrite Et. simpl. rewrite ptr_diff_le by lia. simpl. destruct (_ >? _); [done|]. split.
  - intros pos' st' E. by apply (field_end_app alloc more _ _ _ _ _ _ E).
  - intros pos' st' E. apply field_end_again in E as [-> ->]. split_and!; [done..|].
    apply field_end_same; [simpl; rewrite length_app; lia|done].
Qed.

Lemma value_start_app buf start : value_start buf start -> value_start (buf ++ more) start.
Proof.
  intros (ch & Hch & ? & ?). exists ch. split; [|done].
  by rewrite lookup_app_l by by apply lookup_lt_Some in Hch.
Qed.

Lemma wf_at_app h buf pos st : wf_at h buf pos st -> wf_at h (buf ++ more) pos st.
Proof.
  destruct h; simpl; rewrite length_app; [lia| |lia].
  intros [? [?|[? Hs]]]; (split; [lia|]); [by left|]. right. split; [lia|].
  by apply value_start_app.
Qed.

(** The blanks before a value, when the buffer grows. *)
Lemma skip_ws_app buf pos :
  (pos <= length buf)%nat ->
  scan skip_ws (drop pos (buf ++ more)) pos tt =
  match scan skip_ws (drop pos buf) pos tt with
  | (_, _, inl _) => scan skip_ws more (length buf) tt
  | (p, l, inr x) => (p, l ++ more, inr x)
  end.
Proof.
  intros H. rewrite drop_app_le, scan_app by lia.
  destruct (scan skip_ws (drop pos buf) pos tt) as [[p l] [[]|]] eqn:E; [|done].
  apply scan_drop in E as (_ & _ & ->). by rewrite Nat.max_r by lia.
Qed.

Lemma field_value_ok buf pos st pos' st' :
  wf_at H_field_value buf pos st ->
  nxt_http_parse_field_value alloc buf pos st = Ret (NXT_OK, pos', st') ->
  nxt_http_parse_field_value alloc (buf ++ more) pos st = Ret (NXT_OK, pos', st').
Proof.
  intros Hwf. pose proof Hwf as [Hpos _]. unfold nxt_http_parse_field_value.
  rewrite skip_ws_app by done.
  destruct (scan skip_ws (drop pos buf) pos tt) as [[start l] x] eqn:Ews.
  pose proof (value_wf_start _ _ _ _ _ _ Hwf Ews) as Hs. destruct x as [[]|[]]; [done|].
  destruct Hs as (? & Hvs & Hb). rewrite !value_loop_eq by (rewrite ?length_app; lia).
  rewrite value_scan_app by done. simpl.
  pose proof (value_end_of_wf _ _ _ Hb) as He. destruct (value_end_of _) as [|p|].
  - simpl. rewrite ptr_diff_le by lia. simpl. by destruct (_ >? _).
  - by apply field_value_found_app.
  - done.
Qed.

Lemma field_value_again buf pos st pos' st' :
  wf_at H_field_value buf pos st ->
  nxt_http_parse_field_value alloc buf pos st = Ret (NXT_AGAIN, pos', st') ->
  exists h, handler st' = Some h /\
    same_parse (nxt_http_parse_field_value alloc (buf ++ more) pos st)
               (call_handler alloc h (buf ++ more) pos' st').
Proof.
  intros Hwf. pose proof Hwf as [Hpos _].
  pose proof (wf_at_app _ _ _ _ Hwf) as Hwf'. unfold nxt_http_parse_field_value.
  rewrite skip_ws_app by done.
  destruct (scan skip_ws (drop pos buf) pos tt) as [[start l] x] eqn:Ews.
  pose proof (value_wf_start _ _ _ _ _ _ Hwf Ews) as Hs. destruct x as [[]|[]].
  - (* only blanks so far *)
    destruct Hs as [Hv ->]. intros [= <- <-]. exists H_field_value. split; [done|]. simpl.
    unfold nxt_http_parse_field_value. rewrite drop_app_length.
    destruct (scan skip_ws more (length buf) tt) as [[start' l'] x] eqn:E; simpl.
    pose proof (skip_ws_app buf pos Hpos) as Ea. rewrite Ews, E in Ea.
    pose proof (value_wf_start _ _ _ _ _ _ Hwf' Ea) as Hs'. destruct x as [[]|[]].
    + apply same_parse_refl.
    + destruct Hs' as (? & ? & Hb). rewrite value_loop_eq by lia. simpl.
      apply field_value_found_same; auto using value_end_of_wf.
  - destruct Hs as (? & Hvs & Hb).
    rewrite !value_loop_eq by (rewrite ?length_app; lia).
    rewrite value_scan_app by done. simpl.
    pose proof (value_end_of_wf _ _ _ Hb) as He.
    destruct (value_end_of (scan value_test (drop _ buf) _ _)) as [|p|]; [| |done].
    + (* inside the value *)
      pose proof Hvs as (ch & Hch & Hsp & Htab). pose proof (lookup_lt_Some _ _ _ Hch).
      simpl. rewrite ptr_diff_le by lia. simpl. destruct (_ >? _); [done|].
      intros [= <- <-]. exists H_field_value. split; [done|]. simpl.
      unfold nxt_http_parse_field_value.
      assert (Es : scan skip_ws (drop start (buf ++ more)) start tt =
                   (start, drop start (buf ++ more), inr tt)).
      { rewrite (drop_lookup_cons _ _ ch) by (by rewrite lookup_app_l by lia).
        simpl. unfold skip_ws.
        by destruct (Z.eqb_spec ch SP), (Z.eqb_spec ch TAB). }
      rewrite Es. simpl. rewrite value_loop_eq by (rewrite length_app; lia). simpl.
      replace (start + (length buf - start))%nat with (length buf) by lia.
      rewrite drop_app_length. apply field_value_found_same; [|..|done].
      * by apply value_start_app.
      * pose proof (value_scan_spec (buf ++ more) (length buf)
          ltac:(rewrite length_app; lia)) as Hv.
        rewrite drop_app_length in Hv. destruct (value_end_of _); simpl; naive_solver lia.
    + (* at the end of the line *)
      intros E. destruct (field_value_found_app buf pos start st p Hvs He) as [_ Hag].
      destruct (Hag _ _ E) as (-> & Hh & Hsame). eauto.
Qed.

End Resume_values.

Section Resume_names.
Variable alloc : nat -> bool.
Variable more : list Z.

(** The scan of a name, one byte at a time. *)
Definition name_scan (buf : list Z) (pos : nat) (st : fields_parse) :=
  let p := (pos + str_length (field_name st))%nat in
  scan (field_name_test (discard_unsafe_fields st)) (drop p buf) p
    (field_hash st, skip_field st).

Lemma field_name_eq buf pos st :
  nxt_http_parse_field_name alloc buf pos st = field_name_scanned alloc buf pos st (name_scan buf pos st).
Proof.
  unfold nxt_http_parse_field_name, name_scan. by rewrite scan_unrolled_eq by lia.
Qed.

Lemma name_scan_bounds buf pos st p l x :
  wf_at H_field_name buf pos st -> name_scan buf pos st = (p, l, x) ->
  (pos + str_length (field_name st) <= p)%nat /\ l = drop p buf /\
  match x with inl _ => p = length buf | inr _ => (p < length buf)%nat end.
Proof.
  intros [Hpos _] E. apply scan_drop in E as (-> & ? & Hx). split_and!; [lia|done|].
  destruct x; lia.
Qed.

Lemma name_scan_app buf pos st :
  wf_at H_field_name buf pos st ->
  name_scan (buf ++ more) pos st =
  match name_scan buf pos st with
  | (_, _, inl s) =>
      scan (field_name_test (discard_unsafe_fields st)) more (length buf) s
  | (p, l, inr r) => (p, l ++ more, inr r)
  end.
Proof.
  intros Hwf. destruct (name_scan buf pos st) as [[p l] x] eqn:E.
  pose proof (name_scan_bounds _ _ _ _ _ _ Hwf E) as (_ & _ & Hx). destruct Hwf as [Hpos _].
  unfold name_scan in *. rewrite drop_app_le, scan_app, E by lia. destruct x; congruence.
Qed.

Lemma field_name_ok buf pos st pos' st' :
  wf_at H_field_name buf pos st ->
  nxt_http_parse_field_name alloc buf pos st = Ret (NXT_OK, pos', st') ->
  nxt_http_parse_field_name alloc (buf ++ more) pos st = Ret (NXT_OK, pos', st').
Proof.
  intros Hwf. rewrite !field_name_eq, name_scan_app by done.
  destruct (name_scan buf pos st) as [[p l] x] eqn:E.
  destruct (name_scan_bounds _ _ _ _ _ _ Hwf E) as (? & -> & Hx). simpl.
  rewrite ptr_diff_le by lia. destruct x as [[hash skip]|[hash skip]]; simpl.
  { by destruct (_ <? _)%nat. }
  rewrite ptr_diff_le by lia. simpl.
  destruct (lookup_lt_is_Some_2 buf p Hx) as [ch Hch].
  rewrite (lookup_app_l buf more) by lia. rewrite Hch. simpl. destruct (ch =? COLON).
  - destruct (p =? pos)%nat; [done|]. destruct (_ <? _)%nat; [done|].
    apply field_value_ok. simpl. destruct Hwf. auto with lia.
  - destruct (negb _); [done|]. intros Eo. by apply (field_end_app alloc more _ _ _ _ _ _ Eo).
Qed.

Lemma field_value_same_handler buf pos st1 st2 :
  wf_at H_field_value buf pos st1 ->
  str_length (field_value st1) = str_length (field_value st2) ->
  frame st1 = frame st2 ->
  same_parse (nxt_http_parse_field_value alloc buf pos st1)
             (nxt_http_parse_field_value alloc buf pos st2).
Proof.
  intros Hwf Hlen Hf. unfold nxt_http_parse_field_value.
  assert (field_value st1 = field_value st2) as Hfv.
  { pose proof (frame_value_start _ _ Hf).
    destruct (field_value st1), (field_value st2). simpl in *. congruence. }
  destruct (scan skip_ws (drop pos buf) pos tt) as [[start l] x] eqn:Ews.
  pose proof (value_wf_start _ _ _ _ _ _ Hwf Ews) as Hs. destruct x as [[]|[]].
  - pose proof (frame_set_value H_field_value (field_value st1) _ _ Hf) as E.
    rewrite Hfv in E at 2.
    assert (set_handler H_field_value st1 = set_handler H_field_value st2) as ->
      by (destruct st1, st2; exact E).
    apply same_parse_refl.
  - destruct Hs as (? & ? & Hb). rewrite <- Hfv, value_loop_eq by lia. simpl.
    apply field_value_found_same; auto using value_end_of_wf.
Qed.

Lemma field_name_again buf pos st pos' st' :
  wf_at H_field_name buf pos st ->
  nxt_http_parse_field_name alloc buf pos st = Ret (NXT_AGAIN, pos', st') ->
  exists h, handler st' = Some h /\
    same_parse (nxt_http_parse_field_name alloc (buf ++ more) pos st)
               (call_handler alloc h (buf ++ more) pos' st').
Proof.
  intros Hwf. rewrite !field_name_eq, name_scan_app by done.
  destruct (name_scan buf pos st) as [[p l] x] eqn:E.
  destruct (name_scan_bounds _ _ _ _ _ _ Hwf E) as (Hp & -> & Hx).
  unfold field_name_scanned at 1. rewrite ptr_diff_le by lia.
  destruct x as [[hash skip]|[hash skip]]; cbn [obind].
  - (* inside the name *)
    destruct (_ <? _)%nat; [done|]. intros [= <- <-]. exists H_field_name.
    split; [done|]. cbn [call_handler]. rewrite field_name_eq. unfold name_scan. simpl.
    replace (pos + (p - pos))%nat with (length buf) by lia. rewrite drop_app_length.
    destruct (scan _ more (length buf) (hash, skip)) as [[q m] y] eqn:E2.
    assert (length buf <= q /\ (forall s, y = inr s -> q < length buf + length more))%nat as [Hq Hq'].
    { rewrite <- (drop_app_length buf more) in E2.
      apply scan_drop in E2 as (_ & ? & Hy). split; [lia|]. intros s ->.
      rewrite length_app in Hy. lia. }
    simpl. rewrite ptr_diff_le by lia. destruct y as [[h2 s2]|[h2 s2]]; simpl.
    + destruct (_ <? _)%nat; [by apply same_parse_error|apply same_parse_refl].
    + specialize (Hq' _ eq_refl).
      destruct (lookup_lt_is_Some_2 (buf ++ more) q) as [ch ->]; [rewrite length_app; lia|].
      simpl. destruct (ch =? COLON).
      * destruct (q =? pos)%nat; [by apply same_parse_error|].
        destruct (_ <? _)%nat; [by apply same_parse_error|].
        destruct Hwf as [Hwf1 Hwf2].
        apply field_value_same_handler; [|done..]. simpl. rewrite length_app. auto with lia.
      * destruct (Nat.eqb_spec q pos) as [->|]; [|by apply same_parse_error].
        apply field_end_same; [simpl; rewrite length_app; lia|].
        unfold name_scan in E. rewrite drop_ge in E by (destruct Hwf; lia).
        injection E as _ _ <- <-.
        assert (mk_str (str_start (field_name st)) (p - pos) = field_name st) as Hn.
        { destruct (field_name st) as [a b]. simpl in *. f_equal. lia. }
        rewrite Hn. by destruct st.
  - (* after the name *)
    destruct (lookup_lt_is_Some_2 buf p Hx) as [ch Hch]. simpl.
    rewrite ptr_diff_le, (lookup_app_l buf more) by lia. rewrite Hch. simpl.
    destruct (ch =? COLON).
    + destruct (p =? pos)%nat; [done|]. destruct (_ <? _)%nat; [done|].
      apply field_value_again. destruct Hwf. simpl. auto with lia.
    + destruct (Nat.eqb_spec p pos) as [->|]; [|done]. simpl. intros Ea.
      apply field_end_again in Ea as [-> ->]. exists H_field_end. split; [done|].
      apply field_end_same; [simpl; rewrite length_app; lia|done].
Qed.

Lemma call_handler_ok h buf pos st pos' st' :
  wf_at h buf pos st ->
  call_handler alloc h buf pos st = Ret (NXT_OK, pos', st') ->
  call_handler alloc h (buf ++ more) pos st = Ret (NXT_OK, pos', st').
Proof.
  destruct h; simpl; [apply field_name_ok|apply field_value_ok|].
  intros _ E. by apply (field_end_app alloc more _ _ _ _ _ _ E).
Qed.

Lemma call_handler_again h buf pos st pos' st' :
  wf_at h buf pos st ->
  call_handler alloc h buf pos st = Ret (NXT_AGAIN, pos', st') ->
  exists h', handler st' = Some h' /\
    same_parse (call_handler alloc h (buf ++ more) pos st)
               (call_handler alloc h' (buf ++ more) pos' st').
Proof.
  destruct h; simpl; [apply field_name_again|apply field_value_again|].
  intros ? E. apply field_end_again in E as [-> ->]. exists H_field_end. split; [done|].
  apply field_end_same; [simpl; rewrite length_app; lia|done].
Qed.

Lemma run_handlers_fuel fuel fuel' buf pos st r :
  run_handlers alloc fuel buf pos st = Ret r -> (fuel <= fuel')%nat ->
  run_handlers alloc fuel' buf pos st = Ret r.
Proof.
  revert fuel' pos st. induction fuel as [|fuel IH]; intros fuel' pos st H Hf; [done|].
  destruct fuel' as [|fuel']; [lia|]. simpl in *. destruct (handler st); [|done].
  destruct (call_handler _ _ _ _ _) as [[[[] p1] s1]| |]; simpl in *; try done.
  apply IH; [done|lia].
Qed.

(** One driver step from two states a handler cannot tell apart. *)
Lemma run_handlers_same fuel buf pos1 pos2 st1 st2 h1 h2 r :
  handler st1 = Some h1 -> handler st2 = Some h2 ->
  same_parse (call_handler alloc h1 buf pos1 st1) (call_handler alloc h2 buf pos2 st2) ->
  run_handlers alloc fuel buf pos1 st1 = Ret r ->
  same_parse (Ret r) (run_handlers alloc fuel buf pos2 st2).
Proof.
  destruct fuel as [|fuel]; [done|]. intros E1 E2. cbn [run_handlers]. rewrite E1, E2.
  destruct (call_handler alloc h1 buf pos1 st1) as [[[rc p1] s1]| |],
    (call_handler alloc h2 buf pos2 st2) as [[[rc2 p2] s2]| |]; try done.
  intros (<- & Hs & Hd & Hok) H. cbn [obind] in *.
  destruct (decide (rc = NXT_OK)) as [->|Hne].
  - destruct (Hok (or_introl eq_refl)) as [-> ->]. rewrite H. apply same_parse_refl.
  - destruct rc; try done; injection H as <-; done.
Qed.

Lemma run_handlers_resume fuel buf pos st h pos' st' r :
  handler st = Some h -> wf_at h buf pos st ->
  run_handlers alloc fuel buf pos st = Ret (NXT_AGAIN, pos', st') ->
  run_handlers alloc fuel (buf ++ more) pos st = Ret r ->
  same_parse (Ret r) (run_handlers alloc fuel (buf ++ more) pos' st').
Proof.
  revert pos st h. induction fuel as [|fuel IH]; intros pos st h Hh Hwf H1 H2; [done|].
  pose proof H1 as H1'. pose proof H2 as H2'. cbn [run_handlers] in H1, H2.
  rewrite Hh in H1, H2.
  destruct (call_handler_post alloc h buf pos st Hwf) as (rc & p1 & s1 & Ec & _ & Hok & _).
  rewrite Ec in H1. cbn [obind] in H1. destruct (decide (rc = NXT_OK)) as [->|Hne].
  - destruct (Hok eq_refl) as (_ & Hh1 & Hwf1).
    rewrite (call_handler_ok _ _ _ _ _ _ Hwf Ec) in H2. cbn [obind] in H2.
    pose proof (IH _ _ _ Hh1 Hwf1 H1 H2) as Hs.
    destruct (run_handlers alloc fuel (buf ++ more) pos' st') as [r'| |] eqn:E'; try by destruct r as [[]].
    by rewrite (run_handlers_fuel _ (S fuel) _ _ _ _ E') by lia.
  - assert (rc = NXT_AGAIN /\ p1 = pos' /\ s1 = st') as (-> & -> & ->)
      by (destruct rc; naive_solver).
    destruct (call_handler_again h buf pos st _ _ Hwf Ec) as (h' & Hh' & Hs).
    by apply (run_handlers_same (S fuel) _ pos pos' st st' h h').
Qed.

End Resume_names.

(** ** Properties *)

(** The state [nxt_http_parse_fields()] starts its driver in. *)
Lemma fields_start_wf buf pos st :
  fields_wf buf pos st ->
  let st1 := match handler st with None => set_handler H_field_name st | _ => st end in
  exists h, handler st1 = Some h /\ wf_at h buf pos st1 /\ (pos <= length buf)%nat.
Proof.
  unfold fields_wf. destruct (handler st) as [h|] eqn:E; intros Hwf.
  - exists h. split_and!; [done..|]. destruct h; simpl in Hwf; lia.
  - exists H_field_name. split_and!; [done..|]. simpl in Hwf. lia.
Qed.

(** [nxt_http_parse_fields()] always returns, whatever the bytes it is
    given and whatever allocations fail: it never reads outside the buffer,
    its loop ends, the position stays inside the buffer, and when it asks for
    more data ([NXT_AGAIN]) it leaves a state from which it can be called
    again with any longer buffer. *)
Theorem nxt_http_parse_fields_safe alloc buf pos st :
  fields_wf buf pos st ->
  exists rc pos' st',
    nxt_http_parse_fields alloc buf pos st = Ret (rc, pos', st') /\
    (pos <= pos' <= length buf)%nat /\ rc <> NXT_OK /\
    (rc = NXT_AGAIN -> forall more, fields_wf (buf ++ more) pos' st').
Proof.
  intros Hwf. destruct (fields_start_wf buf pos st Hwf) as (h & Hh & Hwf1 & Hpos).
  unfold nxt_http_parse_fields. set (st1 := match handler st with None => _ | _ => _ end) in *.
  destruct (run_handlers_post alloc (S (length buf)) buf pos st1 h Hh Hwf1 Hpos)
    as (rc & p & s & -> & ? & ? & Hag); [lia|].
  exists rc, p, s. split_and!; [done|lia|lia|done|]. intros Hrc more.
  destruct (Hag Hrc) as (h' & Hh' & Hwf'). unfold fields_wf. rewrite Hh'.
  by apply wf_at_app.
Qed.

(** C5. Reading the header in pieces changes nothing: when a call runs out of
    data and the buffer then grows by any bytes, calling the parser again where
    it stopped gives the caller exactly what parsing the whole buffer from the
    start would have given: the same code, the same stored fields, the same
    position, and the same state if still more data is needed. *)
Theorem nxt_http_parse_fields_resume alloc buf more pos st pos' st' :
  fields_wf buf pos st ->
  nxt_http_parse_fields alloc buf pos st = Ret (NXT_AGAIN, pos', st') ->
  same_parse (nxt_http_parse_fields alloc (buf ++ more) pos st)
             (nxt_http_parse_fields alloc (buf ++ more) pos' st').
Proof.
  intros Hwf E. destruct (fields_start_wf buf pos st Hwf) as (h & Hh & Hwf1 & Hpos).
  unfold nxt_http_parse_fields in *.
  set (st1 := match handler st with None => _ | _ => _ end) in *.
  destruct (run_handlers_post alloc (S (length buf)) buf pos st1 h Hh Hwf1 Hpos)
    as (rc & p & s & E' & _ & _ & Hag); [lia|].
  rewrite E in E'. injection E' as <- <- <-.
  destruct (Hag eq_refl) as (h' & Hh' & _). rewrite Hh'.
  destruct (run_handlers_post alloc (S (length (buf ++ more))) (buf ++ more) pos st1 h Hh
    (wf_at_app more _ _ _ _ Hwf1)) as (rc2 & p2 & s2 & E2 & _); [rewrite length_app; lia..|].
  rewrite E2. apply (run_handlers_resume alloc more _ buf pos st1 h); [done..| |done].
  apply (run_handlers_fuel _ _ _ _ _ _ _ E). rewrite length_app. lia.
Qed.

(** ** Witnesses *)

Lemma nxt_http_parse_fields_safe_witness :
  exists rc pos' st',
    nxt_http_parse_fields (fun _ => false) ((bytes_of_string "Host: a b" ++ [CR; LF; LF])) 0
      (fields_init true) = Ret (rc, pos', st') /\
    (0 <= pos' <= 12)%nat /\ rc <> NXT_OK /\
    (rc = NXT_AGAIN -> forall more,
       fields_wf ((bytes_of_string "Host: a b" ++ [CR; LF; LF]) ++ more) pos' st').
Proof.
  apply (nxt_http_parse_fields_safe (fun _ => false) ((bytes_of_string "Host: a b" ++ [CR; LF; LF])) 0
    (fields_init true)).
  vm_compute. lia.
Defined.

Lemma nxt_http_parse_fields_resume_witness :
  same_parse
    (nxt_http_parse_fields (fun _ => true)
       (bytes_of_string "Ho" ++ bytes_of_string "st: a" ++ [LF; LF]) 0 (fields_init false))
    (nxt_http_parse_fields (fun _ => true)
       (bytes_of_string "Ho" ++ bytes_of_string "st: a" ++ [LF; LF]) 0
       (set_handler H_field_name
          (set_name 46070213 (mk_str 0 2) (fields_init false)))).
Proof.
  apply (nxt_http_parse_fields_resume (fun _ => true) (bytes_of_string "Ho")
    (bytes_of_string "st: a" ++ [LF; LF]) 0 (fields_init false) 0).
  - vm_compute. lia.
  - vm_compute. reflexivity.
Defined.
