(* ===== verification/HttpHeader.v ===== *)
(** * The header grammar and the header parser

    The inputs the header parser of [HttpFields] must accept: field lines with
    a token, blanks and a value, ended by LF or CRLF.  The theorem shows that
    [nxt_http_parse_fields()] reads every such header completely and stores
    exactly its fields, and that the hash it computes while it scans a name is
    the one under which [nxt_http_fields_hash()] registers handlers. *)

From S2P Require Import Prelude Str Scan NxtList HttpFields.

(** ** Parsing a well-formed header *)

(** A field line of a message: the name, optional blanks, the value, optional
    blanks and the line end. *)
Record field_line : Type := mk_line {
  line_name : list Z;
  line_pre : list Z;
  line_value : list Z;
  line_post : list Z;
  line_eol : list Z
}.

Definition line_bytes (f : field_line) : list Z :=
  line_name f ++ COLON :: line_pre f ++ line_value f ++ line_post f ++ line_eol f.

Definition header_bytes (fs : list field_line) (eol : list Z) : list Z :=
  concat (map line_bytes fs) ++ eol.

Definition blank (c : Z) : Prop := c = SP \/ c = TAB.
Definition is_eol (l : list Z) : Prop := l = [CR; LF] \/ l = [LF].

(** A field name: a token of at most 255 characters. *)
Definition valid_name (name : list Z) : Prop :=
  name <> [] /\ (length name <= NXT_HTTP_MAX_FIELD_NAME)%nat /\
  Forall (fun c => normal c <> 0) name.

(** A field value: visible characters and blanks, not at the ends. *)
Definition valid_value (value : list Z) : Prop :=
  Forall (fun c => (32 <= c \/ c = TAB) /\ c <> DEL) value /\
  Z.of_nat (length value) <= NXT_HTTP_MAX_FIELD_VALUE /\
  (forall c, value !! 0%nat = Some c -> ~ blank c) /\
  (forall c, value !! pred (length value) = Some c -> ~ blank c).

Definition valid_line (f : field_line) : Prop :=
  valid_name (line_name f) /\ valid_value (line_value f) /\
  Forall blank (line_pre f) /\ Forall blank (line_post f) /\ is_eol (line_eol f).

(** A name with a character the configuration can ask to refuse. *)
Definition unsafe_name (name : list Z) : bool :=
  existsb (fun c => normal c =? 1) name.

(** Which fields of the header the parser keeps. *)
Definition kept (st : fields_parse) (f : field_line) : bool :=
  negb (discard_unsafe_fields st && unsafe_name (line_name f))
  && negb (discard_fields st).

(** All the fields stored so far, in order. *)
Definition all_fields (st : fields_parse) : list nxt_http_field :=
  inline_fields st ++ elements (fields st).

(** The field record [fld] stands for the line [f] of [buf]. *)
Definition field_is (buf : list Z) (f : field_line) (fld : nxt_http_field) : Prop :=
  take (Z.to_nat (fld_name_length fld)) (drop (fld_name fld) buf) = line_name f /\
  take (Z.to_nat (fld_value_length fld)) (drop (fld_value fld) buf) = line_value f /\
  fld_name_length fld = Z.of_nat (length (line_name f)) /\
  fld_value_length fld = Z.of_nat (length (line_value f)) /\
  fld_hash fld = nxt_http_fields_hash_key (line_name f) /\
  fld_skip fld = false /\ fld_hopbyhop fld = false.

(** A state between two field lines. *)
Definition line_start (st : fields_parse) : Prop :=
  str_length (field_name st) = 0%nat /\ str_length (field_value st) = 0%nat /\
  field_hash st = NXT_HTTP_FIELD_HASH_INIT /\ skip_field st = false /\
  (length (inline_fields st) <= 16)%nat /\
  (forall l, fields st = Some l -> length (inline_fields st) = 16%nat /\ list_wf l).

Definition name_hash (name : list Z) (h : Z) : Z :=
  fold_left (fun key c => nxt_http_field_hash_char key (nxt_lowcase c)) name h.

Lemma normal_lowcase c :
  normal c <> 0 -> (if normal c <=? 1 then c else normal c) = nxt_lowcase c.
Proof.
  intros H.
  assert (Hb : byte c).
  { unfold normal in H. unfold byte. repeat case_match; zbool; lia. }
  revert H. pose proof (byte_forallb (fun c =>
    (normal c =? 0) || ((if normal c <=? 1 then c else normal c) =? nxt_lowcase c))
    ltac:(vm_compute; reflexivity) c Hb) as Hf. cbv beta in Hf.
  zbool. intros H. destruct Hf; zbool; lia.
Qed.

Lemma scan_name du name rest p h sk :
  Forall (fun c => normal c <> 0) name ->
  scan (field_name_test du) (name ++ COLON :: rest) p (h, sk) =
  ((p + length name)%nat, COLON :: rest,
   inr (name_hash name h, if unsafe_name name then du else sk)).
Proof.
  intros Hn. revert p h sk. induction Hn as [|c name Hc Hn IH]; intros p h sk; simpl.
  - by rewrite Nat.add_0_r.
  - unfold field_name_test at 1. rewrite <- Nat.add_succ_comm, <- (normal_lowcase c Hc).
    destruct (Z.leb_spec (normal c) 1); destruct (Z.eqb_spec (normal c) 0); try done.
    + rewrite IH. destruct (Z.eqb_spec (normal c) 1) as [E|].
      * simpl. by destruct (unsafe_name name).
      * exfalso. unfold normal in *. repeat case_match; zbool; lia.
    + rewrite IH. by destruct (Z.eqb_spec (normal c) 1) as [E|]; [lia|].
Qed.

Lemma scan_value value eol rest p :
  Forall (fun c => 32 <= c \/ c = TAB) value -> is_eol eol ->
  value_end_of (scan value_test (value ++ eol ++ rest) p tt) =
  Value_at (p + length value).
Proof.
  intros Hv He. revert p. induction Hv as [|c value Hc Hv IH]; intros p; simpl.
  - rewrite Nat.add_0_r. by destruct He as [->| ->].
  - rewrite <- Nat.add_succ_comm, <- IH. unfold value_test at 1.
    destruct (Z.ltb_spec c 32), (Z.eqb_spec c TAB); try done; lia.
Qed.

Lemma scan_blanks pre c rest p :
  Forall blank pre -> ~ blank c ->
  scan skip_ws (pre ++ c :: rest) p tt = ((p + length pre)%nat, c :: rest, inr tt).
Proof.
  unfold blank. intros Hpre Hc. revert p.
  induction Hpre as [|b pre Hb _ IH]; intros p; simpl; unfold skip_ws at 1.
  - rewrite Nat.add_0_r. destruct (Z.eqb_spec c SP), (Z.eqb_spec c TAB); simpl; tauto.
  - rewrite <- Nat.add_succ_comm, <- IH.
    destruct (Z.eqb_spec b SP), (Z.eqb_spec b TAB); simpl; tauto.
Qed.

(** Trimming removes exactly the blanks after a byte that is not one. *)
Lemma trim_back_blanks buf p post rest c :
  Forall blank post -> drop p buf = post ++ rest ->
  buf !! pred p = Some c -> (0 < p)%nat -> ~ blank c ->
  trim_back buf (p + length post) = Ret p.
Proof.
  unfold blank. intros Hpost Hd Hc Hp Hnb. revert rest Hd.
  induction post as [|b post IH] using rev_ind; intros rest Hd.
  - destruct p as [|p]; [lia|]. simpl in *. rewrite Nat.add_0_r, Hc. simpl.
    destruct (Z.eqb_spec c SP), (Z.eqb_spec c TAB); simpl; tauto.
  - apply Forall_app in Hpost as [Hpost Hb]. rewrite Forall_singleton in Hb.
    rewrite length_app, Nat.add_assoc, Nat.add_1_r. simpl.
    rewrite <- lookup_drop, Hd, <- (app_assoc post), lookup_app_r, Nat.sub_diag by lia.
    simpl in *. rewrite (IH Hpost ([b] ++ rest)) by (by rewrite Hd, <- app_assoc).
    destruct (Z.eqb_spec b SP), (Z.eqb_spec b TAB); simpl; tauto.
Qed.

Lemma drop_app_take {A} (buf l1 l2 : list A) p :
  drop p buf = l1 ++ l2 -> drop (p + length l1) buf = l2.
Proof. intros H. by rewrite <- drop_drop, H, drop_app_length. Qed.

Lemma drop_app_lt {A} (buf l1 l2 : list A) p :
  drop p buf = l1 ++ l2 -> l1 <> [] -> (p + length l1 <= length buf)%nat.
Proof.
  intros H Hn. apply (f_equal length) in H. rewrite length_drop, length_app in H.
  destruct l1; [done|]. simpl in *. lia.
Qed.

Lemma lookup_drop_0' {A} (l : list A) p : drop p l !! 0%nat = l !! p.
Proof. by rewrite lookup_drop, Nat.add_0_r. Qed.

Section Header.
Variable alloc : nat -> bool.

Lemma field_end_eol buf p st eol rest :
  is_eol eol -> drop p buf = eol ++ rest ->
  nxt_http_parse_field_end alloc buf p st =
  let '(rc, st') := end_of_line alloc st in Ret (rc, (p + length eol)%nat, st').
Proof.
  intros He Hd. pose proof (drop_app_lt _ _ _ _ Hd) as Hl. unfold nxt_http_parse_field_end.
  pose proof (lookup_drop buf p 0) as E0. pose proof (lookup_drop buf p 1) as E1.
  rewrite Hd in E0, E1. rewrite Nat.add_0_r in E0. rewrite Nat.add_1_r in E1.
  destruct He as [->| ->]; simpl in *; rewrite <- E0; simpl.
  - destruct (Nat.eqb_spec (S p) (length buf)); [specialize (Hl ltac:(done)); lia|].
    rewrite <- E1. simpl. destruct (end_of_line alloc st). by rewrite Nat.add_comm.
  - rewrite <- E0. simpl. destruct (end_of_line alloc st). by rewrite Nat.add_comm.
Qed.

Lemma eol_not_blank eol : is_eol eol -> exists c l, eol = c :: l /\ ~ blank c.
Proof. unfold blank. intros [->| ->]; eexists _, _; (split; [done|lia]). Qed.

Lemma blank_value c : blank c -> (32 <= c \/ c = TAB) /\ c <> DEL.
Proof. unfold blank. lia. Qed.

Lemma has_del_valid buf start v rest :
  Forall (fun c => (32 <= c \/ c = TAB) /\ c <> DEL) v ->
  drop start buf = v ++ rest -> has_del buf start (length v) = false.
Proof.
  intros Hv Hd. unfold has_del. rewrite Hd, take_app_length.
  apply not_true_is_false. rewrite existsb_exists. intros (c & Hin & Hc%Z.eqb_eq).
  rewrite Forall_forall in Hv. by destruct (Hv c (proj2 (list_elem_of_In v c) Hin)).
Qed.

(** The trimming step of a value followed by blanks. *)
Lemma trim_line buf start value post rest :
  Forall blank post -> (value = [] -> post = []) ->
  (forall c, value !! pred (length value) = Some c -> ~ blank c) ->
  drop start buf = (value ++ post) ++ rest ->
  (if negb (start + length (value ++ post) =? start)%nat
   then trim_back buf (start + length (value ++ post))
   else Ret (start + length (value ++ post))%nat) = Ret (start + length value)%nat.
Proof.
  intros Hpost Hemp Hlst Hd. destruct (decide (value = [])) as [->|Hne].
  - rewrite (Hemp eq_refl). simpl. by rewrite Nat.add_0_r, Nat.eqb_refl.
  - assert (0 < length value)%nat by (destruct value; [done|simpl; lia]).
    rewrite length_app. destruct (Nat.eqb_spec (start + (length value + length post)) start); [lia|].
    destruct (lookup_lt_is_Some_2 value (pred (length value)) ltac:(lia)) as [b Hl].
    rewrite Nat.add_assoc. simpl.
    apply (trim_back_blanks _ _ _ rest b); [done| | |lia|by apply Hlst].
    + apply drop_app_take. by rewrite Hd, <- app_assoc.
    + replace (pred (start + length value)) with (start + pred (length value))%nat by lia.
      rewrite <- lookup_drop, Hd, <- app_assoc, lookup_app_l by lia. done.
Qed.

(** The value part of a line, when it is empty only without trailing blanks. *)
Lemma field_value_line' buf pos st pre value post eol rest :
  valid_value value -> Forall blank pre -> Forall blank post -> is_eol eol ->
  (value = [] -> post = []) -> str_length (field_value st) = 0%nat ->
  drop pos buf = pre ++ value ++ post ++ eol ++ rest ->
  nxt_http_parse_field_value alloc buf pos st =
  (let start := (pos + length pre)%nat in
   let '(rc, st') :=
     end_of_line alloc (set_value (mk_str start (length value)) st) in
   Ret (rc, (start + length (value ++ post) + length eol)%nat, st')).
Proof.
  intros (Hv & Hlen & Hfst & Hlst) Hpre Hpost He Hemp Hst Hd.
  pose proof (drop_app_take _ _ _ _ Hd) as Hd1.
  assert (exists c l, value ++ post ++ eol ++ rest = c :: l /\ ~ blank c) as (c & l & Ec & Hc).
  { destruct value as [|c v].
    - rewrite (Hemp eq_refl). destruct (eol_not_blank eol He) as (c & l & -> & ?). simpl. eauto.
    - simpl. eauto. }
  unfold nxt_http_parse_field_value.
  rewrite Hd, Ec, scan_blanks, Hst, Nat.add_0_r by done. cbn zeta.
  set (start := (pos + length pre)%nat) in *.
  assert (Hb : (start <= length buf)%nat).
  { apply (f_equal length) in Hd1. rewrite Ec, length_drop in Hd1. simpl in Hd1. lia. }
  assert (Hvp : Forall (fun c => (32 <= c \/ c = TAB) /\ c <> DEL) (value ++ post)).
  { apply Forall_app_2; [done|]. apply (list.Forall_impl _ _ _ Hpost), blank_value. }
  rewrite app_assoc in Hd1.
  rewrite value_loop_eq, Hd1, scan_value by
    (done || lia || by apply (list.Forall_impl _ _ _ Hvp); intros ? []).
  unfold field_value_found. simpl. rewrite ptr_diff_le by lia. simpl.
  rewrite Nat.add_comm, Nat.add_sub, (Nat.add_comm _ start).
  rewrite (has_del_valid _ _ _ _ Hvp Hd1).
  rewrite (trim_line _ _ _ _ _ Hpost Hemp Hlst Hd1). simpl. rewrite ptr_diff_le by lia. simpl.
  rewrite Nat.add_comm, Nat.add_sub.
  destruct (Z.gtb_spec (Z.of_nat (length value)) NXT_HTTP_MAX_FIELD_VALUE); [lia|].
  apply (field_end_eol _ _ _ _ rest He). by apply drop_app_take.
Qed.

(** The value part of any line: without a value, the blanks after it count as
    blanks before it. *)
Lemma field_value_line buf pos st pre value post eol rest :
  valid_value value -> Forall blank pre -> Forall blank post -> is_eol eol ->
  str_length (field_value st) = 0%nat ->
  drop pos buf = pre ++ value ++ post ++ eol ++ rest ->
  exists v,
    take (length value) (drop v buf) = value /\
    nxt_http_parse_field_value alloc buf pos st =
    (let '(rc, st') := end_of_line alloc (set_value (mk_str v (length value)) st) in
     Ret (rc, (pos + length (pre ++ value ++ post ++ eol))%nat, st')).
Proof.
  intros Hv Hpre Hpost He Hst Hd. destruct (decide (value = [])) as [->|Hne].
  - exists (pos + length (pre ++ post))%nat. split; [done|].
    rewrite (field_value_line' buf pos st (pre ++ post) [] [] eol rest);
      try done; [|by apply Forall_app_2|by rewrite <- app_assoc].
    cbn zeta. destruct (end_of_line _ _). simpl. by rewrite !length_app, Nat.add_0_r, !Nat.add_assoc.
  - exists (pos + length pre)%nat. split.
    { by rewrite (drop_app_take _ _ _ _ Hd), take_app_length. }
    rewrite (field_value_line' buf pos st pre value post eol rest); try done.
    cbn zeta. destruct (end_of_line _ _). by rewrite !length_app, !Nat.add_assoc.
Qed.

(** The name part of a line hands over to the value part. *)
Lemma field_name_line buf pos st name rest :
  valid_name name -> line_start st -> drop pos buf = name ++ COLON :: rest ->
  nxt_http_parse_field_name alloc buf pos st =
  nxt_http_parse_field_value alloc buf (S (pos + length name))
    (set_name (name_hash name NXT_HTTP_FIELD_HASH_INIT) (mk_str pos (length name))
       (set_skip (discard_unsafe_fields st && unsafe_name name) st)).
Proof.
  intros (Hne & Hlen & Hn) (En & _ & Eh & Es & _) Hd. unfold nxt_http_parse_field_name.
  rewrite En, Nat.add_0_r, scan_unrolled_eq, Hd, scan_name, Eh, Es by (done || lia). simpl.
  rewrite ptr_diff_le by lia. simpl. rewrite Nat.add_comm, Nat.add_sub, (Nat.add_comm _ pos).
  rewrite <- lookup_drop_0', (drop_app_take _ _ _ _ Hd).
  assert (0 < length name)%nat by (destruct name; [done|simpl; lia]). simpl.
  destruct (Nat.eqb_spec (pos + length name) pos); [lia|].
  destruct (Nat.ltb_spec NXT_HTTP_MAX_FIELD_NAME (length name)); [lia|].
  by destruct (unsafe_name name), (discard_unsafe_fields st).
Qed.

Lemma end_of_line_store st :
  (forall n, alloc n = true) -> str_length (field_name st) <> 0%nat ->
  (length (inline_fields st) <= 16)%nat ->
  (forall l, fields st = Some l -> length (inline_fields st) = 16%nat /\ list_wf l) ->
  exists st',
    end_of_line alloc st = (NXT_OK, st') /\ handler st' = Some H_field_name /\
    line_start st' /\ discard_unsafe_fields st' = discard_unsafe_fields st /\
    discard_fields st' = discard_fields st /\
    all_fields st' =
      all_fields st ++
      (if negb (skip_field st) && negb (discard_fields st) then [new_field st] else []).
Proof.
  intros Ha Hn Hin Hl. unfold end_of_line. 
  rewrite (proj2 (Nat.eqb_neq _ _) Hn).
  destruct st as [h inl l mp n v hash sk du d]. unfold all_fields, line_start in *. simpl in *.
  destruct sk; simpl.
  { eexists. split_and!; try done. simpl. by rewrite app_nil_r. }
  destruct d; simpl.
  { eexists. split_and!; try done. simpl. by rewrite app_nil_r. }
  unfold store_field. simpl. destruct (Nat.ltb_spec (length inl) 16).
  { destruct l as [l|]; [specialize (Hl l eq_refl); lia|].
    eexists. split_and!; try done; simpl; [rewrite length_app; simpl; lia|].
    by rewrite !app_nil_r. }
  unfold nxt_list_create. rewrite Ha.
  set (l1 := default (mk_nxt_list 16 [[]]) l).
  assert (Hl1 : list_wf l1 /\ elements (Some l1) = elements l).
  { subst l1. destruct l as [l|]; simpl; [by destruct (Hl l eq_refl)|].
    by destruct (nxt_list_create_wf alloc 0 16 (mk_nxt_list 16 [[]]) 1
      (A := nxt_http_field) ltac:(lia) ltac:(unfold nxt_list_create; by rewrite Ha)). }
  destruct Hl1 as [Hwf1 Hel]. set (fld := new_field _).
  assert (exists mp1, (match l with None => (Some (mk_nxt_list 16 [[]]), S mp)
    | Some l0 => (Some l0, mp) end) = (Some l1, mp1)) as [mp1 ->] by (destruct l; eauto).
  destruct (nxt_list_add_ok alloc mp1 fld l1 Ha Hwf1) as (l' & mp2 & -> & Hwf' & Hel').
  eexists. split_and!; try done.
  - intros l2 [= <-]. simpl. split; [lia|done].
  - simpl in *. by rewrite Hel', Hel, app_assoc.
Qed.

Lemma new_field_is buf st f v pos name :
  valid_line f -> name = line_name f -> take (length name) (drop pos buf) = name ->
  take (length (line_value f)) (drop v buf) = line_value f ->
  field_name st = mk_str pos (length name) ->
  field_value st = mk_str v (length (line_value f)) ->
  field_hash st = name_hash name NXT_HTTP_FIELD_HASH_INIT ->
  field_is buf f (new_field st).
Proof.
  intros ((_ & Hlen & _) & (_ & Hvlen & _) & _) -> Hname Hv En Ev Eh.
  unfold field_is, new_field. simpl. rewrite En, Ev, Eh. simpl. unfold u8, u32.
  unfold NXT_HTTP_MAX_FIELD_NAME, NXT_HTTP_MAX_FIELD_VALUE in *.
  rewrite !Z.mod_small, !Nat2Z.id by lia. split_and!; try done.
  unfold u16, nxt_http_fields_hash_key. by rewrite <- (Z.land_ones _ 16).
Qed.

(** One line of a header. *)
Lemma header_line_step buf pos st f rest :
  (forall n, alloc n = true) -> valid_line f -> line_start st ->
  drop pos buf = line_bytes f ++ rest ->
  exists st' flds,
    nxt_http_parse_field_name alloc buf pos st =
      Ret (NXT_OK, (pos + length (line_bytes f))%nat, st') /\
    handler st' = Some H_field_name /\ line_start st' /\
    discard_unsafe_fields st' = discard_unsafe_fields st /\
    discard_fields st' = discard_fields st /\
    all_fields st' = all_fields st ++ flds /\
    Forall2 (field_is buf) (if kept st f then [f] else []) flds.
Proof.
  intros Ha Hf Hst Hd. pose proof Hf as (Hname & Hval & Hpre & Hpost & Heol).
  unfold line_bytes in Hd. rewrite <- app_assoc in Hd. simpl in Hd.
  rewrite (field_name_line _ _ _ _ _ Hname Hst Hd).
  pose proof (drop_app_take buf (line_name f ++ [COLON]) _ pos
    ltac:(rewrite <- app_assoc; exact Hd)) as Hd1.
  rewrite length_app, Nat.add_assoc, Nat.add_1_r, <- !app_assoc in Hd1.
  set (st1 := set_name _ _ _).
  destruct (field_value_line buf _ st1 _ _ _ _ rest Hval Hpre Hpost Heol (proj1 (proj2 Hst)) Hd1)
    as (v & Hv & ->).
  set (st2 := set_value _ _).
  assert (length (line_name f) <> 0%nat) by (destruct Hname; by destruct (line_name f)).
  destruct Hst as (_ & _ & _ & _ & Hin & Hl).
  destruct (end_of_line_store st2 Ha ltac:(done) Hin Hl) as (st' & -> & Hh & Hls & Hdu & Hdf & Hall).
  eexists st', _. split_and!; [|done..| |].
  - do 3 f_equal. unfold line_bytes. rewrite !length_app. simpl. rewrite !length_app. lia.
  - exact Hall.
  - unfold kept. change (discard_fields st2) with (discard_fields st).
    change (skip_field st2) with (discard_unsafe_fields st && unsafe_name (line_name f)).
    destruct (_ && negb _); constructor; [|done].
    apply (new_field_is _ _ _ v pos (line_name f)); try done.
    by rewrite Hd, take_app_length.
Qed.

(** The empty line that ends a header. *)
Lemma header_end_step buf pos st eol rest :
  is_eol eol -> line_start st -> drop pos buf = eol ++ rest ->
  nxt_http_parse_field_name alloc buf pos st =
  Ret (NXT_DONE, (pos + length eol)%nat, set_skip (skip_field st) st).
Proof.
  intros He (En & _ & Eh & Es & _) Hd. unfold nxt_http_parse_field_name.
  rewrite En, Nat.add_0_r, scan_unrolled_eq, Hd by lia.
  assert (Hc : scan (field_name_test (discard_unsafe_fields st)) (eol ++ rest) pos
    (field_hash st, skip_field st) = (pos, eol ++ rest, inr (field_hash st, skip_field st)))
    by (by destruct He as [->| ->]).
  rewrite Hc. simpl. rewrite ptr_diff_le by lia. simpl.
  rewrite <- lookup_drop_0', Hd, Nat.eqb_refl.
  assert (exists c l, eol ++ rest = c :: l /\ c <> COLON) as (c & l & Ec & Hcc)
    by (destruct He as [->| ->]; simpl; eauto).
  rewrite Ec. simpl. destruct (Z.eqb_spec c COLON); [done|].
  rewrite (field_end_eol _ _ _ _ _ He Hd). unfold end_of_line. simpl. by rewrite En.
Qed.

Lemma header_lines_run fuel buf pos st fs eol rest :
  (forall n, alloc n = true) -> Forall valid_line fs -> is_eol eol ->
  handler st = Some H_field_name -> line_start st ->
  (length fs < fuel)%nat ->
  drop pos buf = header_bytes fs eol ++ rest ->
  exists st' flds,
    run_handlers alloc fuel buf pos st =
      Ret (NXT_DONE, (pos + length (header_bytes fs eol))%nat, st') /\
    all_fields st' = all_fields st ++ flds /\
    Forall2 (field_is buf) (List.filter (kept st) fs) flds.
Proof.
  intros Ha Hfs He Hh Hst. revert pos st fuel Hh Hst.
  induction Hfs as [|f fs Hf Hfs IH]; intros pos st [|fuel] Hh Hst Hfu Hd; simpl in Hfu; try lia;
    cbn [run_handlers]; rewrite Hh; unfold call_handler.
  - unfold header_bytes in *. simpl in *. rewrite (header_end_step _ _ _ _ _ He Hst Hd).
    exists (set_skip (skip_field st) st), []. split_and!; [done| |constructor].
    by rewrite app_nil_r.
  - unfold header_bytes in Hd. simpl in Hd. rewrite <- !app_assoc in Hd.
    destruct (header_line_step _ _ _ _ _ Ha Hf Hst Hd)
      as (st' & fl & -> & Hh' & Hst' & Hdu & Hdf & Hall & Hfl). cbn [obind].
    destruct (IH (pos + length (line_bytes f))%nat st' fuel Hh' Hst' ltac:(lia))
      as (st2 & fl2 & -> & Hall2 & Hfl2).
    { rewrite (drop_app_take _ _ _ _ Hd). unfold header_bytes. by rewrite <- app_assoc. }
    exists st2, (fl ++ fl2). split_and!.
    + do 3 f_equal. unfold header_bytes. simpl. rewrite !length_app. lia.
    + by rewrite Hall2, Hall, app_assoc.
    + assert (List.filter (kept st) (f :: fs) =
        (if kept st f then [f] else []) ++ List.filter (kept st') fs) as ->.
      { rewrite (filter_ext (kept st') (kept st)) by (intros; unfold kept; by rewrite Hdu, Hdf).
        simpl. by destruct (kept st f). }
      by apply Forall2_app.
Qed.

End Header.

Lemma header_bytes_length fs eol : (length fs <= length (header_bytes fs eol))%nat.
Proof.
  unfold header_bytes. rewrite length_app.
  induction fs as [|f fs IH]; simpl; [lia|]. unfold line_bytes at 1.
  rewrite !length_app. simpl. lia.
Qed.

(** C6. On any header that follows the message grammar (tokens of at most 255
    bytes as names, blanks around values, LF or CRLF line ends) the parser
    reads all of it, stops right after the empty line, and stores exactly the
    kept fields in order: each record points at the name and at the trimmed
    value in the buffer and carries the hash under which
    [nxt_http_fields_hash()] files handlers for that name. *)
Theorem nxt_http_parse_fields_header alloc before fs eol rest st :
  (forall n, alloc n = true) -> Forall valid_line fs -> is_eol eol ->
  line_start st -> handler st = None ->
  let buf := before ++ header_bytes fs eol ++ rest in
  exists st' flds,
    nxt_http_parse_fields alloc buf (length before) st =
      Ret (NXT_DONE, length (before ++ header_bytes fs eol), st') /\
    all_fields st' = all_fields st ++ flds /\
    Forall2 (field_is buf) (List.filter (kept st) fs) flds.
Proof.
  intros Ha Hfs He Hst Hh buf. unfold nxt_http_parse_fields. rewrite Hh, length_app.
  pose proof (header_bytes_length fs eol).
  apply (header_lines_run alloc (S (length buf)) buf (length before)
    (set_handler H_field_name st) fs eol rest); try done.
  - unfold buf. rewrite !length_app. lia.
  - unfold buf. by rewrite drop_app_length.
Qed.

Definition sample_line : field_line :=
  mk_line (bytes_of_string "Host") [SP] (bytes_of_string "a b") [TAB; SP] [CR; LF].

Lemma nxt_http_parse_fields_header_witness :
  exists st' flds,
    nxt_http_parse_fields (fun _ => true) ([] ++ header_bytes [sample_line] [LF] ++ [1; 2]) 0
      (fields_init false) = Ret (NXT_DONE, 14%nat, st') /\
    all_fields st' = all_fields (fields_init false) ++ flds /\
    Forall2 (field_is ([] ++ header_bytes [sample_line] [LF] ++ [1; 2]))
      [sample_line] flds.
Proof.
  apply (nxt_http_parse_fields_header (fun _ => true) [] [sample_line] [LF] [1; 2]
    (fields_init false)); try done.
  - repeat constructor; try done; vm_compute;
      try lia; try (left; reflexivity); try (right; reflexivity);
      try (intros c [= <-]); lia.
  - by right.
  - by vm_compute; repeat split; try lia.
Defined.
