(* ===== verification/HttpTarget.v ===== *)
(** * Normalizing a request target: [nxt_http_parse_complex_target()]

    The state machine of [src/nxt_http_parse.c] that percent-decodes a target,
    merges slashes, resolves "." and ".." segments and splits off the query.

    The output pointer [u] runs through the block [rp->path.start] of
    [target_end - target_start + 1] bytes; the model keeps the bytes written so
    far in reverse order, so that [u[-1]] is the head and [u--] the tail.  A
    write past the block, or a decrement below its start, is [Fault].

    The reference semantics decodes the target into tokens, splits them at the
    separators and folds the segments over a stack. *)

From S2P Require Import Prelude.

(** ** The character class *)

Definition nxt_http_normal : list Z :=
  [ 254; 219; 255; 255; 214; 55; 255; 127; 255; 255; 255; 255; 255; 255; 255; 255;
    255; 255; 255; 255; 255; 255; 255; 255; 255; 255; 255; 255; 255; 255; 255; 255 ].

Definition nxt_http_is_normal (c : Z) : bool :=
  negb (Z.land (nth (Z.to_nat (c / 8)) nxt_http_normal 0) (Z.shiftl 1 (Z.land c 7)) =? 0).

(** ** The state machine *)

Inductive plain_state : Type :=
| sw_normal
| sw_slash
| sw_dot
| sw_dot_dot.

(** [sw_quoted] and [sw_quoted_second] never become [saved_state]. *)
Inductive target_state : Type :=
| Plain (s : plain_state)
| sw_quoted
| sw_quoted_second.

Record target_parse : Type := mk_tp {
  state : target_state;
  saved_state : plain_state;
  high : Z;
  out : list Z;            (* the bytes in [path.start, u), last first *)
  quoted_target : bool
}.

Inductive target_step : Type :=
| Continue (st : target_parse)
| Goto_args (st : target_parse)    (* '?': the query starts after it *)
| Goto_done (st : target_parse)    (* '#' *)
| Reject.

Definition set_state (s : target_state) (st : target_parse) : target_parse :=
  mk_tp s (saved_state st) (high st) (out st) (quoted_target st).

Definition set_out (o : list Z) (st : target_parse) : target_parse :=
  mk_tp (state st) (saved_state st) (high st) o (quoted_target st).

Section Machine.
Variable cap : nat.               (* the size of the block [u] points into *)
Variable encoded_slashes : bool.

(** [*u++ = ch] *)
Definition put (ch : Z) (st : target_parse) : outcome target_parse :=
  if (length (out st) <? cap)%nat then Ret (set_out (ch :: out st) st) else Fault.

(** [u--] *)
Definition unput (st : target_parse) : outcome target_parse :=
  match out st with
  | [] => Fault
  | _ :: o => Ret (set_out o st)
  end.

(** [u -= 5] and the loop back to the previous slash; [None] is [u] running
    below [path.start]. *)
Fixpoint back_to_slash (o : list Z) : option (list Z) :=
  match o with
  | [] => None
  | ch :: o' => if ch =? SLASH then Some o else back_to_slash o'
  end.

Definition pop_segment (st : target_parse) : option target_parse :=
  option_map (fun o => set_out o st) (back_to_slash (drop 4 (out st))).

Definition quote (s : plain_state) (st : target_parse) : target_parse :=
  mk_tp sw_quoted s (high st) (out st) (quoted_target st).

(** [state = s; *u++ = ch; continue;] *)
Definition put_continue (s : plain_state) (ch : Z) (st : target_parse)
  : outcome target_step :=
  let* st' := put ch (set_state (Plain s) st) in Ret (Continue st').

(** The cases of the switch for the states other than the quoted ones. *)
Definition plain_step (s : plain_state) (ch : Z) (st : target_parse)
  : outcome target_step :=
  match s with
  | sw_normal =>
      if nxt_http_is_normal ch then put_continue sw_normal ch st
      else if ch =? SLASH then put_continue sw_slash ch st
      else if ch =? PERCENT then Ret (Continue (quote s st))
      else if ch =? QMARK then Ret (Goto_args st)
      else if ch =? HASH then Ret (Goto_done st)
      else put_continue sw_normal ch st
  | sw_slash =>
      if nxt_http_is_normal ch then put_continue sw_normal ch st
      else if ch =? SLASH then Ret (Continue (set_state (Plain sw_slash) st))
      else if ch =? DOT then put_continue sw_dot ch st
      else if ch =? PERCENT then Ret (Continue (quote s st))
      else if ch =? QMARK then Ret (Goto_args st)
      else if ch =? HASH then Ret (Goto_done st)
      else put_continue sw_normal ch st
  | sw_dot =>
      if nxt_http_is_normal ch then put_continue sw_normal ch st
      else if ch =? SLASH then
        let* st' := unput (set_state (Plain sw_slash) st) in Ret (Continue st')
      else if ch =? DOT then put_continue sw_dot_dot ch st
      else if ch =? PERCENT then Ret (Continue (quote s st))
      else if ch =? QMARK then let* st' := unput st in Ret (Goto_args st')
      else if ch =? HASH then let* st' := unput st in Ret (Goto_done st')
      else put_continue sw_normal ch st
  | sw_dot_dot =>
      if nxt_http_is_normal ch then put_continue sw_normal ch st
      else if (ch =? SLASH) || (ch =? QMARK) || (ch =? HASH) then
        match pop_segment st with
        | None => Ret Reject
        | Some st' =>
            if ch =? QMARK then Ret (Goto_args st')
            else if ch =? HASH then Ret (Goto_done st')
            else Ret (Continue (set_state (Plain sw_slash) st'))
        end
      else if ch =? PERCENT then Ret (Continue (quote s st))
      else put_continue sw_normal ch st
  end.

(** [state = saved_state; goto again;] *)
Definition goto_again (ch : Z) (st : target_parse) : outcome target_step :=
  plain_step (saved_state st) ch (set_state (Plain (saved_state st)) st).

Definition is_digit (ch : Z) : bool := (CH_0 <=? ch) && (ch <=? CH_9).
Definition is_hex_letter (c : Z) : bool := (CH_a <=? c) && (c <=? CH_f).

Definition quoted_step (ch : Z) (st : target_parse) : outcome target_step :=
  let st := mk_tp (state st) (saved_state st) (high st) (out st) true in
  let set_high h :=
    Ret (Continue (mk_tp sw_quoted_second (saved_state st) (u8 h) (out st) true)) in
  let c := u8 (Z.lor ch 32) in
  if is_digit ch then set_high (ch - CH_0)
  else if is_hex_letter c then set_high (c - CH_a + 10)
  else Ret Reject.

Definition quoted_second_step (raw : Z) (st : target_parse) : outcome target_step :=
  let c := u8 (Z.lor raw 32) in
  if is_digit raw then
    let ch := u8 (Z.shiftl (high st) 4 + raw - CH_0) in
    if ch =? PERCENT then
      let* st1 := put PERCENT (set_state (Plain sw_normal) st) in
      if encoded_slashes then
        let* st2 := put 50 st1 in
        let* st3 := put 53 st2 in Ret (Continue st3)
      else Ret (Continue st1)
    else if ch =? HASH then put_continue sw_normal HASH st
    else if ch =? NUL then Ret Reject
    else goto_again ch st
  else if is_hex_letter c then
    let ch := u8 (Z.shiftl (high st) 4 + c - CH_a + 10) in
    if ch =? QMARK then put_continue sw_normal ch st
    else if (ch =? SLASH) && encoded_slashes then
      let* st1 := put PERCENT (set_state (Plain sw_normal) st) in
      let* st2 := put 50 st1 in
      let* st3 := put raw st2 in Ret (Continue st3)
    else goto_again ch st
  else Ret Reject.

Definition step (ch : Z) (st : target_parse) : outcome target_step :=
  match state st with
  | Plain s => plain_step s ch st
  | sw_quoted => quoted_step ch st
  | sw_quoted_second => quoted_second_step ch st
  end.

Inductive target_exit : Type :=
| Exit_args (p : nat) (args : bool) (st : target_parse)
| Exit_done (st : target_parse)
| Exit_invalid.

(** After the loop: "/." and "/.." are completed as by a slash. *)
Definition target_end (p : nat) (st : target_parse) : outcome target_exit :=
  match state st with
  | sw_quoted | sw_quoted_second => Ret Exit_invalid
  | Plain sw_normal | Plain sw_slash => Ret (Exit_args p false st)
  | Plain s =>
      let* r := plain_step s SLASH st in
      match r with
      | Continue st' =>
          match state st' with
          | Plain sw_normal | Plain sw_slash => Ret (Exit_args p false st')
          | _ => OutOfFuel
          end
      | Goto_args st' => Ret (Exit_args p true st')
      | Goto_done st' => Ret (Exit_done st')
      | Reject => Ret Exit_invalid
      end
  end.

(** [while (p < rp->target_end)]; [p] is the offset of the bytes [l] left. *)
Fixpoint target_loop (l : list Z) (p : nat) (st : target_parse) : outcome target_exit :=
  match l with
  | [] => target_end p st
  | ch :: l' =>
      let* r := step ch st in
      match r with
      | Continue st' => target_loop l' (S p) st'
      | Goto_args st' => Ret (Exit_args (S p) true st')
      | Goto_done st' => Ret (Exit_done st')
      | Reject => Ret Exit_invalid
      end
  end.

End Machine.

(** The loop after the label [args]: the query ends at a '#'. *)
Fixpoint find_hash (l : list Z) (p : nat) : nat :=
  match l with
  | [] => p
  | ch :: l' => if ch =? HASH then p else find_hash l' (S p)
  end.

(** What a call stores: the path, the query ([args.start] as an offset from
    [target_start], [args.length]) if it sets it, and [quoted_target]. *)
Inductive target_result : Type :=
| Target_ok (path : list Z) (args : option (nat * nat)) (quoted : bool)
| Target_invalid
| Target_error.

Definition target_init (quoted : bool) : target_parse :=
  mk_tp (Plain sw_normal) sw_normal 0 [] quoted.

Definition nxt_http_parse_complex_target (alloc_ok encoded_slashes quoted : bool)
    (target : list Z) : outcome target_result :=
  if negb alloc_ok then Ret Target_error
  else
    let* e := target_loop (length target + 1) encoded_slashes target 0 (target_init quoted) in
    match e with
    | Exit_invalid => Ret Target_invalid
    | Exit_done st => Ret (Target_ok (rev (out st)) None (quoted_target st))
    | Exit_args p args st =>
        let p' := find_hash (drop p target) p in
        Ret (Target_ok (rev (out st))
               (if args then Some (p, (p' - p)%nat) else None) (quoted_target st))
    end.

(** ** The reference semantics *)

(** A decoded target: separators and other characters. *)
Inductive token : Type :=
| Sep
| Chr (c : Z).

(** How a decoded character is read: a slash separates, in a path the rest
    stands for itself. *)
Definition token_of (c : Z) : token := if c =? SLASH then Sep else Chr c.

Definition hex_value (c : Z) : option Z :=
  if is_digit c then Some (c - CH_0)
  else if is_hex_letter (Z.lor c 32) then Some (Z.lor c 32 - CH_a + 10)
  else None.

(** The tokens of "%xy", where [h] is the value of x. *)
Definition escape_second (encoded_slashes : bool) (h y : Z) : option (list token) :=
  match hex_value y with
  | Some l =>
      let c := 16 * h + l in
      if c =? NUL then None
      else if (c =? PERCENT) && encoded_slashes then
        Some [Chr PERCENT; Chr 50; Chr 53]
      else if (c =? SLASH) && encoded_slashes then
        Some [Chr PERCENT; Chr 50; Chr y]
      else Some [token_of c]
  | None => None
  end.

Definition escape_tokens (encoded_slashes : bool) (x y : Z) : option (list token) :=
  match hex_value x with
  | Some h => escape_second encoded_slashes h y
  | None => None
  end.

(** The tokens up to an unescaped '?' or '#'. *)
Fixpoint decode (encoded_slashes : bool) (l : list Z) : option (list token) :=
  match l with
  | [] => Some []
  | c :: l1 =>
      if (c =? QMARK) || (c =? HASH) then Some []
      else if c =? PERCENT then
        match l1 with
        | x :: y :: l2 =>
            match escape_tokens encoded_slashes x y, decode encoded_slashes l2 with
            | Some t, Some ts => Some (t ++ ts)
            | _, _ => None
            end
        | _ => None
        end
      else
        match decode encoded_slashes l1 with
        | Some ts => Some (token_of c :: ts)
        | None => None
        end
  end.

(** The query: what follows the first unescaped '?' (unless a '#' comes
    before it) up to the first '#'. *)
Fixpoint query (l : list Z) (p : nat) : option (nat * nat) :=
  match l with
  | [] => None
  | c :: l1 =>
      if c =? HASH then None
      else if c =? QMARK then Some (S p, (find_hash l1 (S p) - S p)%nat)
      else query l1 (S p)
  end.

(** Leaving a segment: empty and "." segments vanish, ".." removes the last
    segment of the path, which must exist.  A path is the list of its
    directories, the last one first. *)
Definition push_segment (seg : list Z) (dirs : list (list Z)) : option (list (list Z)) :=
  if decide (seg = []) then Some dirs
  else if decide (seg = [DOT]) then Some dirs
  else if decide (seg = [DOT; DOT]) then
    match dirs with
    | [] => None
    | _ :: dirs' => Some dirs'
    end
  else Some (seg :: dirs).

(** The directories and the last segment of the path the tokens describe;
    [seg] is the segment read so far. *)
Fixpoint resolve (ts : list token) (seg : list Z) (dirs : list (list Z))
  : option (list (list Z) * list Z) :=
  match ts with
  | [] =>
      if decide (seg = [DOT] \/ seg = [DOT; DOT]) then
        option_map (fun dirs => (dirs, [])) (push_segment seg dirs)
      else Some (dirs, seg)
  | Chr c :: ts' => resolve ts' (seg ++ [c]) dirs
  | Sep :: ts' =>
      match push_segment seg dirs with
      | Some dirs' => resolve ts' [] dirs'
      | None => None
      end
  end.

(** "/d1/d2/.../last" *)
Fixpoint dirs_bytes (dirs : list (list Z)) : list Z :=
  match dirs with
  | [] => [SLASH]
  | d :: dirs' => dirs_bytes dirs' ++ d ++ [SLASH]
  end.

Definition path_bytes (r : list (list Z) * list Z) : list Z := dirs_bytes r.1 ++ r.2.

(** The path of a target that starts with a slash. *)
Definition normalized_path (encoded_slashes : bool) (target : list Z) : option (list Z) :=
  match decode encoded_slashes (tail target) with
  | Some ts => option_map path_bytes (resolve ts [] [])
  | None => None
  end.

(** Whether an escape occurs in the path part. *)
Fixpoint escaped (l : list Z) : bool :=
  match l with
  | [] => false
  | c :: l1 =>
      if (c =? QMARK) || (c =? HASH) then false
      else (c =? PERCENT) || escaped l1
  end.

(** The result a call must give on a target that starts with a slash. *)
Definition target_spec (encoded_slashes quoted : bool) (target : list Z) : target_result :=
  match normalized_path encoded_slashes target with
  | Some path => Target_ok path (query target 0) (quoted || escaped target)
  | None => Target_invalid
  end.

(** ** The simulation *)

(** The state that a segment read so far is in. *)
Definition class (seg : list Z) : plain_state :=
  if decide (seg = []) then sw_slash
  else if decide (seg = [DOT]) then sw_dot
  else if decide (seg = [DOT; DOT]) then sw_dot_dot
  else sw_normal.

Definition push_token (t : token) (seg : list Z) (dirs : list (list Z))
  : option (list (list Z) * list Z) :=
  match t with
  | Chr c => Some (dirs, seg ++ [c])
  | Sep => option_map (fun dirs => (dirs, [])) (push_segment seg dirs)
  end.

(** Directories are not empty and no segment holds a slash. *)
Definition segs_wf (seg : list Z) (dirs : list (list Z)) : Prop :=
  SLASH ∉ seg /\ Forall (fun d => d <> [] /\ SLASH ∉ d) dirs.

(** The state that corresponds to a path read so far. *)
Definition at_path (seg : list Z) (dirs : list (list Z)) (st : target_parse) : target_parse :=
  mk_tp (Plain (class seg)) (saved_state st) (high st)
    (rev (dirs_bytes dirs ++ seg)) (quoted_target st).

Lemma is_normal_spec c :
  byte c -> nxt_http_is_normal c = true ->
  c <> SLASH /\ c <> DOT /\ c <> PERCENT /\ c <> QMARK /\ c <> HASH.
Proof.
  intros Hc. pose proof (byte_forallb (fun c => implb (nxt_http_is_normal c)
    (negb (c =? SLASH) && negb (c =? DOT) && negb (c =? PERCENT) && negb (c =? QMARK)
     && negb (c =? HASH))) ltac:(vm_compute; reflexivity) c Hc) as Hf. cbv beta in Hf.
  intros Hn. rewrite Hn in Hf. simpl in Hf. zbool. lia.
Qed.

Lemma class_cases seg :
  (seg = [] /\ class seg = sw_slash) \/ (seg = [DOT] /\ class seg = sw_dot) \/
  (seg = [DOT; DOT] /\ class seg = sw_dot_dot) \/
  (seg <> [] /\ seg <> [DOT] /\ seg <> [DOT; DOT] /\ class seg = sw_normal).
Proof. unfold class. repeat case_decide; naive_solver. Qed.

Lemma class_app seg c : c <> DOT -> class (seg ++ [c]) = sw_normal.
Proof.
  intros Hc. unfold class.
  rewrite !decide_False; [done|..]; intros E; destruct seg as [|? [|? [|]]]; simplify_eq/=.
Qed.

Lemma class_normal_app seg l : class seg = sw_normal -> class (seg ++ l) = sw_normal.
Proof.
  intros H. destruct (class_cases seg) as [[-> E]|[[-> E]|[[-> E]|(H1 & H2 & H3 & _)]]];
    try (rewrite E in H; discriminate).
  unfold class. rewrite !decide_False; [done|..]; intros E';
    destruct seg as [|? [|? [|]]]; simplify_eq/=; destruct l; simplify_eq/=.
Qed.

Lemma dirs_bytes_last dirs : exists o, rev (dirs_bytes dirs) = SLASH :: o.
Proof.
  destruct dirs as [|d dirs]; simpl; [by exists []|].
  rewrite !rev_app_distr. simpl. eauto.
Qed.

Lemma back_to_slash_app l o : SLASH ∉ l -> back_to_slash (l ++ SLASH :: o) = Some (SLASH :: o).
Proof.
  induction l as [|c l IH]; intros H; simpl; [done|].
  apply not_elem_of_cons in H as [H1 H2].
  destruct (Z.eqb_spec c SLASH); [by subst|by apply IH].
Qed.

(** Removing the last directory. *)
Lemma pop_spec dirs :
  Forall (fun d => d <> [] /\ SLASH ∉ d) dirs ->
  back_to_slash (drop 4 (rev (dirs_bytes dirs ++ [DOT; DOT]))) =
  match dirs with
  | [] => None
  | _ :: dirs' => Some (rev (dirs_bytes dirs'))
  end.
Proof.
  intros Hd. rewrite rev_app_distr. destruct dirs as [|d dirs]; [done|].
  apply Forall_cons in Hd as [[Hne Hs] _]. simpl. rewrite !rev_app_distr. simpl.
  destruct (dirs_bytes_last dirs) as [o ->].
  destruct d as [|a d] using rev_ind; [done|]. rewrite rev_app_distr. simpl.
  rewrite drop_0. apply back_to_slash_app. intros Hin. apply Hs, elem_of_app. left.
  rewrite list_elem_of_In in *. by apply in_rev.
Qed.

Section Simulation.
Variable cap : nat.
Variable enc : bool.

Lemma put_continue_at seg dirs s ch st :
  out st = rev (dirs_bytes dirs ++ seg) -> (length (out st) < cap)%nat ->
  put_continue cap s ch st =
  Ret (Continue (mk_tp (Plain s) (saved_state st) (high st)
    (rev (dirs_bytes dirs ++ seg ++ [ch])) (quoted_target st))).
Proof.
  intros Ho Hc. unfold put_continue, put. simpl.
  destruct (Nat.ltb_spec (length (out st)) cap); [|lia].
  by rewrite Ho, app_assoc, (rev_app_distr _ [ch]).
Qed.

(** A separator or a character other than the special ones, in any state. *)
Lemma plain_step_token seg dirs c st :
  byte c -> c <> PERCENT -> c <> QMARK -> c <> HASH -> segs_wf seg dirs ->
  out st = rev (dirs_bytes dirs ++ seg) -> (length (out st) < cap)%nat ->
  plain_step cap (class seg) c st =
  Ret match push_token (token_of c) seg dirs with
      | Some (dirs', seg') => Continue (at_path seg' dirs' st)
      | None => Reject
      end.
Proof.
  intros Hb Hp Hq Hh [Hs Hd] Ho Hc.
  assert (Hput : forall s, put_continue cap s c st = Ret (Continue (mk_tp (Plain s)
    (saved_state st) (high st) (rev (dirs_bytes dirs ++ seg ++ [c])) (quoted_target st))))
    by (intros; by apply put_continue_at).
  rewrite <- (Z.eqb_neq c) in Hp, Hq, Hh. unfold plain_step, token_of, at_path.
  rewrite !Hput, Hp, Hq, Hh. destruct (Z.eqb_spec c SLASH) as [->|Hsl]; simpl.
  - destruct (class_cases seg) as [[-> ->]|[[-> ->]|[[-> ->]|(H1 & H2 & H3 & ->)]]]; simpl.
    + unfold set_state. by rewrite Ho.
    + unfold push_segment, unput. simpl. rewrite Ho, rev_app_distr. simpl.
      by rewrite app_nil_r.
    + unfold push_segment, pop_segment. rewrite Ho, pop_spec by done.
      destruct dirs; simpl; [done|]. by rewrite app_nil_r.
    + unfold push_segment. rewrite !decide_False by done. simpl. by rewrite app_nil_r.
  - destruct (nxt_http_is_normal c) eqn:Hn.
    { apply is_normal_spec in Hn as (_ & Hdot & _); [|done].
      rewrite class_app by done. by destruct (class seg). }
    destruct (Z.eqb_spec c DOT) as [->|Hdot].
    + destruct (class_cases seg) as [[-> ->]|[[-> ->]|[[-> ->]|(H1 & H2 & H3 & E)]]]; simpl; try done.
      rewrite (class_normal_app seg) by done. by rewrite E.
    + rewrite class_app by done. by destruct (class seg).
Qed.

(** The end of the path, at a '?', a '#' or the end of the target. *)
Lemma resolve_end_out seg dirs :
  segs_wf seg dirs ->
  match resolve [] seg dirs with
  | Some r =>
      rev (path_bytes r) =
      match class seg with
      | sw_normal | sw_slash => rev (dirs_bytes dirs ++ seg)
      | sw_dot => tail (rev (dirs_bytes dirs ++ seg))
      | sw_dot_dot => default [] (back_to_slash (drop 4 (rev (dirs_bytes dirs ++ seg))))
      end /\ (class seg = sw_dot_dot -> dirs <> [])
  | None => class seg = sw_dot_dot /\ dirs = []
  end.
Proof.
  intros [Hs Hd]. unfold resolve, path_bytes.
  destruct (class_cases seg) as [[-> ->]|[[-> ->]|[[-> ->]|(H1 & H2 & H3 & ->)]]]; simpl.
  - done.
  - rewrite app_nil_r, rev_app_distr. done.
  - rewrite pop_spec by done. destruct dirs; simpl; [done|]. by rewrite app_nil_r.
  - rewrite decide_False by tauto. done.
Qed.

Lemma plain_step_stop seg dirs c st :
  c = QMARK \/ c = HASH -> segs_wf seg dirs ->
  out st = rev (dirs_bytes dirs ++ seg) ->
  plain_step cap (class seg) c st =
  Ret match resolve [] seg dirs with
      | Some r =>
          let st' := set_out (rev (path_bytes r)) st in
          if c =? QMARK then Goto_args st' else Goto_done st'
      | None => Reject
      end.
Proof.
  intros Hc Hwf Ho. pose proof (resolve_end_out seg dirs Hwf) as Hr.
  assert (Hn : nxt_http_is_normal c = false) by (by destruct Hc as [->| ->]).
  assert (Hst : set_out (out st) st = st) by (by destruct st).
  assert (c <> SLASH /\ c <> DOT /\ c <> PERCENT) as (H1 & H2 & H3) by lia.
  rewrite <- (Z.eqb_neq c) in H1, H2, H3.
  unfold plain_step, unput, pop_segment. rewrite Hn, H1, H2, H3, Ho.
  destruct (resolve [] seg dirs) as [r|].
  - destruct Hr as [-> Hd]. destruct (class seg) eqn:Ecl.
    + rewrite <- Ho, Hst. by destruct Hc as [->| ->].
    + rewrite <- Ho, Hst. by destruct Hc as [->| ->].
    + destruct (class_cases seg) as [[-> E]|[[-> E]|[[-> E]|(_ & _ & _ & E)]]]; try congruence.
      rewrite rev_app_distr. simpl. by destruct Hc as [->| ->].
    + destruct (class_cases seg) as [[-> E]|[[-> E]|[[-> E]|(_ & _ & _ & E)]]]; try congruence.
      rewrite pop_spec by apply Hwf. destruct dirs; [by destruct Hd|]. by destruct Hc as [->| ->].
  - destruct Hr as [Ecl ->]. rewrite Ecl.
    destruct (class_cases seg) as [[-> E]|[[-> E]|[[-> E]|(_ & _ & _ & E)]]]; try congruence.
    by destruct Hc as [->| ->].
Qed.

(** How the loop is left: the path, the query and [quoted_target]. *)
Definition exit_is (path : list Z) (q : option (nat * nat)) (quoted : bool)
    (e : target_exit) : Prop :=
  exists st, out st = rev path /\ quoted_target st = quoted /\
    match q with
    | Some (a, _) => e = Exit_args a true st
    | None => e = Exit_done st \/ exists p, e = Exit_args p false st
    end.

Lemma target_end_spec seg dirs p st :
  segs_wf seg dirs -> state st = Plain (class seg) ->
  out st = rev (dirs_bytes dirs ++ seg) -> 
  exists e, target_end cap p st = Ret e /\
    match resolve [] seg dirs with
    | Some r => exit_is (path_bytes r) None (quoted_target st) e
    | None => e = Exit_invalid
    end.
Proof.
  intros Hwf Hs Ho. pose proof (resolve_end_out seg dirs Hwf) as Hr.
  unfold target_end. rewrite Hs.
  destruct (class_cases seg) as [[-> E]|[[-> E]|[[-> E]|(H1 & H2 & H3 & E)]]]; rewrite E in *.
  - eexists. split; [done|]. destruct (resolve _ _ _); [|by destruct Hr].
    exists st. split_and!; [by rewrite Ho; destruct Hr|done|eauto].
  - simpl in Hr. destruct Hr as [Hr _].
    simpl. unfold unput. simpl. rewrite Ho, rev_app_distr. simpl.
    eexists. split; [done|]. exists (set_out (rev (dirs_bytes dirs)) (set_state (Plain sw_slash) st)).
    split_and!; [|done|right; by exists p]. unfold path_bytes. simpl. by rewrite app_nil_r.
  - simpl. unfold pop_segment. rewrite Ho, pop_spec by apply Hwf.
    destruct dirs as [|d dirs]; simpl in *; [eauto|].
    eexists. split; [done|].
    exists (set_state (Plain sw_slash) (set_out (rev (dirs_bytes dirs)) st)).
    split_and!; [|done|right; by exists p]. unfold path_bytes. simpl. by rewrite app_nil_r.
  - eexists. split; [done|]. destruct (resolve _ _ _); [|by destruct Hr].
    exists st. split_and!; [by rewrite Ho; destruct Hr as [->]|done|right; by exists p].
Qed.

(** *** Escapes *)

Lemma hex_value_bound x h : hex_value x = Some h -> 0 <= h < 16.
Proof.
  unfold hex_value, is_digit, is_hex_letter. intros H. repeat case_match; zbool; simplify_eq; lia.
Qed.

Lemma lor_byte x : byte x -> u8 (Z.lor x 32) = Z.lor x 32.
Proof.
  intros Hx. pose proof (byte_forallb (fun x => u8 (Z.lor x 32) =? Z.lor x 32)
    ltac:(vm_compute; reflexivity) x Hx) as H. cbv beta in H. by zbool.
Qed.

Lemma quoted_step_spec x st :
  byte x ->
  quoted_step x st =
  Ret match hex_value x with
      | Some h => Continue (mk_tp sw_quoted_second (saved_state st) h (out st) true)
      | None => Reject
      end.
Proof.
  intros Hx. unfold quoted_step, hex_value. rewrite lor_byte by done. simpl.
  unfold is_digit, is_hex_letter, u8.
  repeat case_match; zbool; try done; rewrite Z.mod_small by lia; done.
Qed.

Fixpoint push_tokens (ts : list token) (seg : list Z) (dirs : list (list Z))
  : option (list (list Z) * list Z) :=
  match ts with
  | [] => Some (dirs, seg)
  | t :: ts' =>
      match push_token t seg dirs with
      | Some (dirs', seg') => push_tokens ts' seg' dirs'
      | None => None
      end
  end.

Lemma resolve_app ts1 ts2 seg dirs :
  resolve (ts1 ++ ts2) seg dirs =
  match push_tokens ts1 seg dirs with
  | Some (dirs', seg') => resolve ts2 seg' dirs'
  | None => None
  end.
Proof.
  revert seg dirs. induction ts1 as [|[|c] ts1 IH]; intros seg dirs; simpl; [done| |apply IH].
  destruct (push_segment seg dirs); simpl; [apply IH|done].
Qed.

Lemma push_segment_wf seg dirs dirs' :
  segs_wf seg dirs -> push_segment seg dirs = Some dirs' -> segs_wf [] dirs'.
Proof.
  unfold segs_wf, push_segment. intros [Hs Hd] H. split; [apply not_elem_of_nil|].
  repeat case_decide; simplify_eq; try done.
  - destruct dirs; simplify_eq. by apply Forall_cons in Hd as [_ ?].
  - by constructor.
Qed.

Lemma push_token_wf t seg dirs dirs' seg' :
  segs_wf seg dirs -> t <> Chr SLASH -> push_token t seg dirs = Some (dirs', seg') ->
  segs_wf seg' dirs'.
Proof.
  intros Hwf Ht H. destruct t as [|c]; simpl in H.
  - destruct (push_segment seg dirs) eqn:E; simplify_eq/=. by apply (push_segment_wf seg dirs).
  - simplify_eq. destruct Hwf as [Hs Hd]. split; [|done].
    rewrite not_elem_of_app, list_elem_of_singleton. naive_solver.
Qed.

Lemma push_tokens_wf ts seg dirs dirs' seg' :
  segs_wf seg dirs -> Forall (fun t => t <> Chr SLASH) ts ->
  push_tokens ts seg dirs = Some (dirs', seg') -> segs_wf seg' dirs'.
Proof.
  revert seg dirs. induction ts as [|t ts IH]; intros seg dirs Hwf Ht H; simpl in H.
  - by simplify_eq.
  - apply Forall_cons in Ht as [Ht1 Ht2].
    destruct (push_token t seg dirs) as [[d s]|] eqn:E; [|done].
    apply (IH s d); [|done..]. by apply (push_token_wf t seg dirs).
Qed.

Lemma token_of_slash c : token_of c <> Chr SLASH.
Proof. unfold token_of. case_match; zbool; congruence. Qed.

Lemma escape_second_slash h y ts :
  escape_second enc h y = Some ts -> Forall (fun t => t <> Chr SLASH) ts.
Proof.
  unfold escape_second. destruct (hex_value y) as [l|] eqn:Hy; [|done]. intros H.
  repeat case_match; simplify_eq; repeat constructor; try done; [|apply token_of_slash].
  intros [= ->]. by vm_compute in Hy.
Qed.

Lemma put_three s a b c st :
  (length (out st) + 2 < cap)%nat ->
  (let* st1 := put cap a (set_state (Plain s) st) in
   let* st2 := put cap b st1 in
   let* st3 := put cap c st2 in Ret (Continue st3)) =
  Ret (Continue (mk_tp (Plain s) (saved_state st) (high st) (c :: b :: a :: out st)
    (quoted_target st))).
Proof.
  intros H. unfold put. simpl.
  destruct (Nat.ltb_spec (length (out st)) cap); [|lia]. simpl.
  destruct (Nat.ltb_spec (S (length (out st))) cap); [|lia]. simpl.
  by destruct (Nat.ltb_spec (S (S (length (out st)))) cap); [|lia].
Qed.

(** The second digit of an escape, when the state was [class seg] before. *)
Lemma quoted_second_spec seg dirs y st :
  byte y -> 0 <= high st < 16 -> saved_state st = class seg -> segs_wf seg dirs ->
  out st = rev (dirs_bytes dirs ++ seg) -> (length (out st) + 2 < cap)%nat ->
  quoted_second_step cap enc y st =
  Ret match escape_second enc (high st) y with
      | Some ts =>
          match push_tokens ts seg dirs with
          | Some (dirs', seg') => Continue (at_path seg' dirs' st)
          | None => Reject
          end
      | None => Reject
      end.
Proof.
  intros Hy Hh Hs Hwf Ho Hc.
  assert (Hput : forall c, put_continue cap sw_normal c st = Ret (Continue (mk_tp (Plain sw_normal)
    (saved_state st) (high st) (rev (dirs_bytes dirs ++ seg ++ [c])) (quoted_target st))))
    by (intros; apply put_continue_at; [done|lia]).
  assert (Hput3 : forall a b, mk_tp (Plain sw_normal) (saved_state st) (high st)
      (b :: a :: PERCENT :: out st) (quoted_target st) = at_path (seg ++ [PERCENT; a; b]) dirs st).
  { intros a b. unfold at_path. change [PERCENT; a; b] with ([PERCENT] ++ [a; b]).
    rewrite app_assoc, (class_normal_app (seg ++ _)), Ho by (by apply class_app).
    f_equal. by rewrite !app_assoc, !rev_app_distr. }
  assert (Hagain : forall c, byte c -> c <> PERCENT -> c <> QMARK -> c <> HASH ->
    goto_again cap c st = Ret match push_token (token_of c) seg dirs with
      | Some (dirs', seg') => Continue (at_path seg' dirs' st) | None => Reject end).
  { intros c Hb ???. unfold goto_again. rewrite Hs.
    rewrite (plain_step_token seg dirs); [done..|simpl; lia]. }
  unfold quoted_second_step, escape_second, hex_value. rewrite lor_byte by done.
  rewrite Z.shiftl_mul_pow2 by lia. change (2 ^ 4) with 16.
  destruct (is_digit y) eqn:Ed; [|destruct (is_hex_letter (Z.lor y 32)) eqn:El]; [..|done];
    unfold is_digit, is_hex_letter in *; zbool.
  - replace (u8 _) with (16 * high st + (y - CH_0)) by (unfold u8; rewrite Z.mod_small; lia).
    set (c := 16 * high st + (y - CH_0)). assert (c <> QMARK /\ c <> SLASH) as [Hq Hsl] by lia.
    rewrite (proj2 (Z.eqb_neq c SLASH) Hsl). simpl.
    destruct (Z.eqb_spec c PERCENT) as [->|Hp]; simpl.
    { destruct enc; [rewrite put_three, Hput3 by done; simpl; by rewrite <- !app_assoc|].
      etrans; [apply (Hput PERCENT)|]. unfold at_path. simpl. by rewrite class_app. }
    destruct (Z.eqb_spec c HASH) as [->|Hha]; simpl.
    { rewrite Hput. unfold at_path. by rewrite class_app. }
    destruct (Z.eqb_spec c NUL); [done|]. rewrite Hagain by (unfold byte; lia).
    simpl. by destruct (push_token _ _ _) as [[]|].
  - replace (u8 _) with (16 * high st + (Z.lor y 32 - CH_a + 10))
      by (unfold u8; rewrite Z.mod_small; lia).
    set (c := 16 * high st + (Z.lor y 32 - CH_a + 10)).
    assert (c <> PERCENT /\ c <> HASH /\ c <> NUL) as (Hp & Hha & Hn) by lia.
    rewrite (proj2 (Z.eqb_neq c PERCENT) Hp), (proj2 (Z.eqb_neq c NUL) Hn). simpl.
    destruct (Z.eqb_spec c QMARK) as [->|Hq]; simpl.
    { rewrite Hput. unfold at_path. by rewrite class_app. }
    destruct ((c =? SLASH) && enc) eqn:Es; [rewrite put_three, Hput3 by done; simpl; by rewrite <- !app_assoc|].
    rewrite Hagain by (unfold byte; lia). simpl. by destruct (push_token _ _ _) as [[]|].
Qed.

Lemma push_tokens_length ts seg dirs dirs' seg' :
  push_tokens ts seg dirs = Some (dirs', seg') ->
  (length (dirs_bytes dirs' ++ seg') <= length (dirs_bytes dirs ++ seg) + length ts)%nat.
Proof.
  revert seg dirs. induction ts as [|t ts IH]; intros seg dirs H; simpl in H.
  { simplify_eq. simpl. lia. }
  destruct (push_token t seg dirs) as [[d s]|] eqn:E; [|done].
  apply IH in H. simpl. rewrite Nat.add_succ_r, <- Nat.add_succ_l.
  etrans; [exact H|]. apply Nat.add_le_mono_r. clear IH H. rewrite !length_app.
  destruct t as [|c]; simpl in E; [|simplify_eq; rewrite length_app; simpl; lia].
  destruct (push_segment seg dirs) as [d'|] eqn:Ep; simplify_eq/=.
  unfold push_segment in Ep. repeat case_decide; simplify_eq; simpl; try lia.
  - destruct dirs; simplify_eq/=. rewrite !length_app. lia.
  - rewrite !length_app. simpl. lia.
Qed.

Lemma escape_second_length h y ts : escape_second enc h y = Some ts -> (length ts <= 3)%nat.
Proof. unfold escape_second. intros H. repeat case_match; simplify_eq; simpl; lia. Qed.

Lemma hex_value_stop x h : hex_value x = Some h -> (x =? QMARK) || (x =? HASH) = false.
Proof.
  intros H. destruct (Z.eqb_spec x QMARK); [by subst|].
  by destruct (Z.eqb_spec x HASH); [subst|].
Qed.

Lemma query_skip x h l p : hex_value x = Some h -> query (x :: l) p = query l (S p).
Proof. intros H%hex_value_stop. simpl. apply orb_false_iff in H as [-> ->]. done. Qed.

(** An escape, from the '%' to its second digit. *)
Lemma target_loop_escape l p st seg dirs :
  Forall byte l -> segs_wf seg dirs ->
  state st = Plain (class seg) -> out st = rev (dirs_bytes dirs ++ seg) ->
  (length (out st) + S (length l) < cap)%nat ->
  target_loop cap enc (PERCENT :: l) p st =
  match l with
  | x :: y :: l2 =>
      match escape_tokens enc x y with
      | Some ts =>
          match push_tokens ts seg dirs with
          | Some (dirs', seg') =>
              target_loop cap enc l2 (S (S (S p)))
                (at_path seg' dirs'
                   (mk_tp sw_quoted_second (class seg) (default 0 (hex_value x)) (out st) true))
          | None => Ret Exit_invalid
          end
      | None => Ret Exit_invalid
      end
  | _ => Ret Exit_invalid
  end.
Proof.
  intros Hb Hwf Hs Ho Hc. cbn [target_loop]. unfold step at 1. rewrite Hs.
  assert (plain_step cap (class seg) PERCENT st = Ret (Continue (quote (class seg) st))) as ->
    by (by destruct (class seg)).
  cbn [obind]. destruct l as [|x l]; [done|]. cbn [target_loop]. unfold step at 1. cbn [state quote].
  apply Forall_cons in Hb as [Hx Hb]. rewrite quoted_step_spec by done. cbn [obind].
  unfold escape_tokens. destruct (hex_value x) as [h|] eqn:Ex; [|by destruct l].
  destruct l as [|y l]; [done|]. apply Forall_cons in Hb as [Hy Hb].
  cbn [target_loop]. unfold step at 1. cbn [state].
  rewrite (quoted_second_spec seg dirs); try done.
  - cbn [high default obind]. destruct (escape_second enc h y) as [ts|]; [|done].
    by destruct (push_tokens ts seg dirs) as [[]|].
  - by apply hex_value_bound in Ex.
  - simpl in *. lia.
Qed.

(** What the loop must do with the bytes [l] left. *)
Definition loop_spec (l : list Z) (p : nat) (st : target_parse) (seg : list Z)
    (dirs : list (list Z)) (quoted : bool) : Prop :=
  exists e, target_loop cap enc l p st = Ret e /\
    match decode enc l with
    | Some ts =>
        match resolve ts seg dirs with
        | Some r => exit_is (path_bytes r) (query l p) (quoted || escaped l) e
        | None => e = Exit_invalid
        end
    | None => e = Exit_invalid
    end.

Definition loop_pre (l : list Z) (st : target_parse) (seg : list Z)
    (dirs : list (list Z)) : Prop :=
  Forall byte l /\ segs_wf seg dirs /\ state st = Plain (class seg) /\
  out st = rev (dirs_bytes dirs ++ seg) /\ (length (out st) + length l < cap)%nat.

(** The precondition after the tokens of the bytes consumed. *)
Lemma loop_pre_push ts pre l st st2 seg dirs seg' dirs' :
  loop_pre (pre ++ l) st seg dirs -> (length ts <= length pre)%nat ->
  Forall (fun t => t <> Chr SLASH) ts -> push_tokens ts seg dirs = Some (dirs', seg') ->
  loop_pre l (at_path seg' dirs' st2) seg' dirs'.
Proof.
  intros (Hb & Hwf & Hs & Ho & Hc) Hl Hts Hp. apply Forall_app in Hb as [_ Hb].
  split_and!; [done|by apply (push_tokens_wf ts seg dirs)|done..|].
  apply push_tokens_length in Hp. rewrite Ho, length_rev, length_app in Hc.
  simpl. rewrite length_rev. rewrite !length_app in *. lia.
Qed.

Lemma target_loop_spec n l p st seg dirs :
  (length l <= n)%nat -> loop_pre l st seg dirs ->
  loop_spec l p st seg dirs (quoted_target st).
Proof.
  revert l p st seg dirs. induction n as [|n IH]; intros l p st seg dirs Hn Hpre;
    pose proof Hpre as (Hb & Hwf & Hs & Ho & Hc); destruct l as [|c l]; simpl in Hn; try lia.
  1, 2: unfold loop_spec; cbn [decode target_loop query escaped]; rewrite orb_false_r;
    by apply target_end_spec.
  destruct (Z.eqb_spec c PERCENT) as [->|Hp]; [|destruct ((c =? QMARK) || (c =? HASH)) eqn:Estop].
  - unfold loop_spec. rewrite (target_loop_escape l p st seg dirs) by
      (by apply Forall_cons in Hb as [_ ?] || done).
    cbn -[query escape_tokens]. rewrite orb_true_r.
    destruct l as [|x [|y l]]; [by eexists..|].
    unfold escape_tokens. destruct (hex_value x) as [h|] eqn:Ex; [|by eexists].
    destruct (escape_second enc h y) as [ts|] eqn:Ey; [|by eexists].
    destruct (push_tokens ts seg dirs) as [[dirs' seg']|] eqn:Et.
    + destruct (IH l (S (S (S p))) (at_path seg' dirs' (mk_tp sw_quoted_second (class seg) h
        (out st) true)) seg' dirs') as (e & He & Hr); [simpl in *; lia|..].
      { apply (loop_pre_push ts [PERCENT; x; y] l st _ seg dirs); [done| | |done].
        - by apply escape_second_length in Ey.
        - by apply escape_second_slash in Ey. }
      exists e. split; [done|]. destruct (decode enc l) as [ts'|]; [|done].
      rewrite resolve_app, Et.
      change (query (PERCENT :: x :: y :: l) p) with (query (x :: y :: l) (S p)).
      unfold escape_second in Ey. destruct (hex_value y) as [hy|] eqn:Ehy; [|done].
      by rewrite (query_skip x h), (query_skip y hy).
    + eexists. split; [done|]. destruct (decode enc l) as [ts'|]; [|done].
      by rewrite resolve_app, Et.
  - unfold loop_spec. cbn [target_loop decode query escaped]. unfold step. rewrite Hs.
    rewrite (plain_step_stop seg dirs) by (zbool; lia || done).
    rewrite Estop, orb_false_r.
    destruct (resolve [] seg dirs) as [r|]; cbn [obind]; [|eauto].
    destruct (Z.eqb_spec c QMARK) as [->|]; cbn [orb] in Estop.
    + eexists. split; [done|]. by exists (set_out (rev (path_bytes r)) st).
    + rewrite Estop. eexists. split; [done|].
      exists (set_out (rev (path_bytes r)) st). split_and!; [done..|]. by left.
  - apply Forall_cons in Hb as [Hbc Hb]. unfold loop_spec. cbn [target_loop].
    unfold step. rewrite Hs. apply orb_false_iff in Estop as [Eq Eh].
    rewrite (plain_step_token seg dirs); try done; zbool; try (simpl in Hc; lia).
    cbn [decode query escaped]. rewrite (proj2 (Z.eqb_neq c QMARK)), (proj2 (Z.eqb_neq c HASH)),
      (proj2 (Z.eqb_neq c PERCENT)) by done. cbn [orb].
    assert (Et' : push_tokens [token_of c] seg dirs = push_token (token_of c) seg dirs)
      by (simpl; by destruct (push_token _ _ _) as [[]|]).
    destruct (push_token (token_of c) seg dirs) as [[dirs' seg']|] eqn:Et; cbn [obind].
    + destruct (IH l (S p) (at_path seg' dirs' st) seg' dirs') as (e & He & Hr); [lia|..].
      { apply (loop_pre_push [token_of c] [c] l st _ seg dirs); [done..| |done].
        repeat constructor. apply token_of_slash. }
      exists e. split; [done|]. destruct (decode enc l) as [ts|]; [|done].
      change (token_of c :: ts) with ([token_of c] ++ ts). by rewrite resolve_app, Et'.
    + eexists. split; [done|]. destruct (decode enc l) as [ts|]; [|done].
      change (token_of c :: ts) with ([token_of c] ++ ts). by rewrite resolve_app, Et'.
Qed.

End Simulation.

(** ** Properties *)

Lemma query_spec target p a n :
  query (drop p target) p = Some (a, n) -> n = (find_hash (drop a target) a - a)%nat.
Proof.
  revert p. assert (forall l p, drop p target = l -> query l p = Some (a, n) ->
    n = (find_hash (drop a target) a - a)%nat) as H; [|eauto].
  induction l as [|c l IH]; intros p Hd Hq; simpl in Hq; [done|].
  apply drop_cons_inv in Hd as [_ Hd].
  destruct (c =? HASH); [done|]. destruct (c =? QMARK); [|by apply (IH (S p))].
  injection Hq as <- <-. by rewrite Hd.
Qed.

Lemma complex_target_eq encoded_slashes quoted target :
  Forall byte target -> target !! 0%nat = Some SLASH ->
  nxt_http_parse_complex_target true encoded_slashes quoted target =
  Ret (target_spec encoded_slashes quoted target).
Proof.
  intros Hb H0. destruct target as [|c t]; simplify_eq/=.
  unfold nxt_http_parse_complex_target, target_spec, normalized_path. simpl.
  unfold put. simpl. rewrite Nat.add_1_r. unfold set_out, set_state, target_init. simpl.
  apply Forall_cons in Hb as [_ Hb].
  destruct (target_loop_spec (S (S (length t))) encoded_slashes (length t) t 1
    (mk_tp (Plain sw_slash) sw_normal 0 [SLASH] quoted) [] []) as (e & -> & He); [lia|..].
  { split_and!; [done| |done..|simpl; lia]. split; [apply not_elem_of_nil|constructor]. }
  simpl. destruct (decode encoded_slashes t) as [ts|]; [|by subst].
  destruct (resolve ts [] []) as [r|]; [|by subst]. simpl.
  destruct He as (st & Ho & Hqt & Hq). simpl in Hqt. rewrite <- Hqt.
  destruct (query t 1) as [[a n]|] eqn:Eq.
  - subst e. rewrite Ho, rev_involutive.
    by rewrite (query_spec (SLASH :: t) 1 a n Eq).
  - destruct Hq as [->|[p ->]]; by rewrite Ho, rev_involutive.
Qed.

(** C2. For a target that starts with a slash the state machine computes the
    reference normalization: it percent-decodes once, treats an encoded slash
    or dot like a plain one, removes empty and "." segments, resolves ".."
    (rejecting a target that climbs above the root), stops the path at the
    first unescaped '?' or '#', and returns the query up to the first '#';
    with [encoded_slashes], "%2F" and "%25" are kept as they are. *)
Theorem nxt_http_parse_complex_target_correct encoded_slashes quoted target :
  Forall byte target -> target !! 0%nat = Some SLASH ->
  nxt_http_parse_complex_target true encoded_slashes quoted target =
  Ret (target_spec encoded_slashes quoted target).
Proof. apply complex_target_eq. Qed.

(** The segments of a path. *)
Abbreviation split_slash := (split_on SLASH).

(** A segment that stands for itself. *)
Definition proper (seg : list Z) : Prop := seg <> [] /\ seg <> [DOT] /\ seg <> [DOT; DOT].

Definition result_wf (dirs : list (list Z)) (seg : list Z) : Prop :=
  Forall (fun d => proper d /\ SLASH ∉ d) dirs /\ SLASH ∉ seg.

Lemma split_dirs dirs l :
  Forall (fun d => proper d /\ SLASH ∉ d) dirs ->
  split_slash (dirs_bytes dirs ++ l) = [] :: rev dirs ++ split_slash l.
Proof.
  revert l. induction dirs as [|d dirs IH]; intros l Hd; simpl; [done|].
  apply Forall_cons in Hd as [[_ Hs] Hd].
  rewrite <- !app_assoc, IH by done. simpl. by rewrite split_on_app, split_on_one.
Qed.

Lemma push_segment_proper seg dirs dirs' :
  result_wf dirs seg -> push_segment seg dirs = Some dirs' -> result_wf dirs' [].
Proof.
  unfold push_segment. intros [Hd Hs] H. split; [|apply not_elem_of_nil].
  repeat case_decide; simplify_eq; try done.
  - destruct dirs; simplify_eq. by apply Forall_cons in Hd as [_ ?].
  - constructor; [|done]. unfold proper. naive_solver.
Qed.

Lemma resolve_proper ts seg dirs dirs' last :
  Forall (fun t => t <> Chr SLASH) ts -> result_wf dirs seg ->
  resolve ts seg dirs = Some (dirs', last) ->
  result_wf dirs' last /\ last <> [DOT] /\ last <> [DOT; DOT].
Proof.
  revert seg dirs. induction ts as [|t ts IH]; intros seg dirs Ht Hwf H; simpl in H.
  - case_decide as E.
    + destruct (push_segment seg dirs) eqn:Ep; simplify_eq/=.
      by apply push_segment_proper in Ep.
    + simplify_eq. naive_solver.
  - apply Forall_cons in Ht as [Ht1 Ht]. destruct t as [|c].
    + destruct (push_segment seg dirs) eqn:Ep; [|done].
      apply (IH [] l); [done| |done]. by apply (push_segment_proper seg dirs).
    + apply (IH (seg ++ [c]) dirs); [done| |done]. destruct Hwf. split; [done|].
      rewrite not_elem_of_app, list_elem_of_singleton. naive_solver.
Qed.

(** What holds of the tokens of plain characters and of escapes holds of the
    whole decoded target. *)
Lemma decode_tokens enc (P : Z -> Prop) (Q : token -> Prop) l ts :
  (forall c, P c -> Q (token_of c)) ->
  (forall x y ts, escape_tokens enc x y = Some ts -> P x -> P y -> Forall Q ts) ->
  Forall P l -> decode enc l = Some ts -> Forall Q ts.
Proof.
  intros Hplain He. remember (length l) as n eqn:Hn.
  assert (Hle : (length l <= n)%nat) by lia. clear Hn.
  revert l ts Hle. induction n as [|n IH]; intros [|c l] ts Hle HP H; simpl in *; simplify_eq;
    try constructor; try lia.
  apply Forall_cons in HP as [Hc HP]. case_match; [by simplify_eq|]. case_match.
  - destruct l as [|x [|y l]]; try done. destruct (escape_tokens enc x y) eqn:E; [|done].
    destruct (decode enc l) eqn:Ed; [|done]. simplify_eq. simpl in *.
    apply Forall_cons in HP as [Hx HP]. apply Forall_cons in HP as [Hy HP].
    apply Forall_app_2; [by apply (He x y)|]. apply (IH l); [lia|done..].
  - destruct (decode enc l) eqn:Ed; [|done]. simplify_eq. constructor; [by apply Hplain|].
    apply (IH l); [lia|done..].
Qed.

Lemma escape_tokens_cases enc x y ts :
  escape_tokens enc x y = Some ts ->
  (exists c, c <> NUL /\ ts = [token_of c]) \/ ts = [Chr PERCENT; Chr 50; Chr 53] \/
  (ts = [Chr PERCENT; Chr 50; Chr y] /\ y <> SLASH /\ y <> NUL).
Proof.
  unfold escape_tokens, escape_second. destruct (hex_value x); [|done].
  destruct (hex_value y) eqn:Ey; [|done].
  assert (y <> SLASH /\ y <> NUL) by (split; intros ->; by vm_compute in Ey).
  intros H'. repeat case_match; zbool; simplify_eq; naive_solver.
Qed.

Lemma decode_no_slash enc l ts :
  decode enc l = Some ts -> Forall (fun t => t <> Chr SLASH) ts.
Proof.
  apply (decode_tokens enc (fun _ => True)); [by intros; apply token_of_slash| |by apply Forall_true].
  intros x y ts' H _ _. destruct (escape_tokens_cases _ _ _ _ H) as [(c & _ & ->)|[->|(-> & ? & ?)]];
    repeat constructor; try apply token_of_slash; congruence.
Qed.

Lemma decode_no_nul enc l ts :
  NUL ∉ l -> decode enc l = Some ts -> Forall (fun t => t <> Chr NUL) ts.
Proof.
  intros Hl. apply (decode_tokens enc (fun c => c <> NUL)).
  - intros c Hc. unfold token_of. case_match; congruence.
  - intros x y ts' H Hx Hy.
    destruct (escape_tokens_cases _ _ _ _ H) as [(c & Hc & ->)|[->|(-> & ? & ?)]];
      repeat constructor; try congruence. unfold token_of. case_match; congruence.
  - rewrite Forall_forall. intros c Hc ->. done.
Qed.

Lemma resolve_bytes (P : Z -> Prop) ts seg dirs dirs' last :
  Forall (fun t => forall c, t = Chr c -> P c) ts -> Forall P seg -> Forall (Forall P) dirs ->
  resolve ts seg dirs = Some (dirs', last) -> Forall (Forall P) dirs' /\ Forall P last.
Proof.
  assert (Hpush : forall seg dirs dirs', Forall P seg -> Forall (Forall P) dirs ->
    push_segment seg dirs = Some dirs' -> Forall (Forall P) dirs').
  { intros s d d' Hs Hd H. unfold push_segment in H. repeat case_decide; simplify_eq; try done.
    - destruct d; simplify_eq. by apply Forall_cons in Hd as [_ ?].
    - by constructor. }
  revert seg dirs. induction ts as [|t ts IH]; intros seg dirs Ht Hs Hd H; simpl in H.
  - case_decide; [|by simplify_eq]. destruct (push_segment seg dirs) eqn:E; simplify_eq/=.
    split; [|constructor]. by apply (Hpush seg dirs).
  - apply Forall_cons in Ht as [Ht1 Ht]. destruct t as [|c].
    + destruct (push_segment seg dirs) eqn:E; [|done].
      apply (IH [] l); [done|constructor| |done]. by apply (Hpush seg dirs).
    + apply (IH (seg ++ [c]) dirs); try done. apply Forall_app_2; [done|].
      constructor; [by apply Ht1|constructor].
Qed.

Lemma dirs_bytes_forall (P : Z -> Prop) dirs :
  P SLASH -> Forall (Forall P) dirs -> Forall P (dirs_bytes dirs).
Proof.
  intros Hs Hd. induction Hd as [|d dirs Hd _ IH]; simpl; [by repeat constructor|].
  repeat apply Forall_app_2; try done. by repeat constructor.
Qed.

(** C3. A path that the normalization returns cannot name anything outside
    the root and needs no further normalization: it starts with a slash, none
    of its segments is "." or "..", only the last one can be empty, and it has
    no NUL byte if the target has none, even if the target escapes one. *)
Theorem nxt_http_parse_complex_target_safe_path encoded_slashes quoted target path args q :
  Forall byte target -> target !! 0%nat = Some SLASH -> NUL ∉ target ->
  nxt_http_parse_complex_target true encoded_slashes quoted target =
    Ret (Target_ok path args q) ->
  NUL ∉ path /\
  exists segs last,
    split_slash path = [] :: segs ++ [last] /\
    Forall proper segs /\ last <> [DOT] /\ last <> [DOT; DOT].
Proof.
  intros Hb H0 Hnul H. rewrite complex_target_eq in H by done. unfold target_spec in H.
  destruct (normalized_path encoded_slashes target) as [path'|] eqn:E; simplify_eq.
  unfold normalized_path in E. destruct target as [|c t]; simplify_eq/=.
  destruct (decode encoded_slashes t) as [ts|] eqn:Ed; [|done].
  destruct (resolve ts [] []) as [[dirs last]|] eqn:Er; simplify_eq/=.
  apply not_elem_of_cons in Hnul as [_ Hnul].
  pose proof (decode_no_nul _ _ _ Hnul Ed) as Hn.
  pose proof (decode_no_slash _ _ _ Ed) as Hs. unfold path_bytes. simpl. split.
  - assert (Hl : Forall (fun c => c <> NUL) (dirs_bytes dirs ++ last)).
    { destruct (resolve_bytes (fun c => c <> NUL) ts [] [] dirs last); [|by constructor..|done|].
      - apply (Forall_impl _ _ _ Hn). intros t' Ht c ->. by intros ->.
      - apply Forall_app_2; [|done]. by apply dirs_bytes_forall. }
    rewrite Forall_forall in Hl. intros Hin. by destruct (Hl _ Hin).
  - destruct (resolve_proper ts [] [] dirs last Hs) as ((Hd & Hl) & H1 & H2); [|done|].
    { split; [constructor|apply not_elem_of_nil]. }
    exists (rev dirs), last. rewrite split_dirs, split_on_one by done. split_and!; [done| |done..].
    apply Forall_rev. apply (Forall_impl _ _ _ Hd). tauto.
Qed.

(** ** Memory safety on any target *)

Definition pending (s : target_state) : nat :=
  match s with
  | Plain _ => 0
  | sw_quoted => 1
  | sw_quoted_second => 2
  end.

(** The state whose dots are in the output. *)
Definition dot_state (st : target_parse) : plain_state :=
  match state st with
  | Plain s => s
  | _ => saved_state st
  end.

(** After [used] bytes of the target. *)
Definition mem_inv (used : nat) (st : target_parse) : Prop :=
  (length (out st) + pending (state st) <= used)%nat /\
  (dot_state st = sw_dot -> out st <> []).

Definition step_ok (n : nat) (r : target_step) : Prop :=
  match r with
  | Continue st => mem_inv n st
  | Goto_args st | Goto_done st => (length (out st) <= n)%nat
  | Reject => True
  end.

Lemma back_to_slash_length o o' :
  back_to_slash o = Some o' -> (length o' <= length o)%nat.
Proof.
  induction o as [|c o IH]; simpl; [done|]. case_match; [intros; by simplify_eq|].
  intros H'. apply IH in H'. lia.
Qed.

Section Memory.
Variable cap : nat.
Variable enc : bool.

Lemma put_continue_ok n s ch st :
  (length (out st) < n <= cap)%nat ->
  exists r, put_continue cap s ch st = Ret r /\ step_ok n r.
Proof.
  intros H. unfold put_continue, put. simpl.
  destruct (Nat.ltb_spec (length (out st)) cap); [|lia]. simpl.
  eexists. split; [done|]. split; simpl; [lia|done].
Qed.

Lemma plain_step_ok n s ch st :
  (length (out st) < n <= cap)%nat -> (s = sw_dot -> out st <> []) ->
  exists r, plain_step cap s ch st = Ret r /\ step_ok n r.
Proof.
  intros Hn Hd. pose proof (fun s => put_continue_ok n s ch st Hn) as Hput.
  assert (Hquote : step_ok n (Continue (quote s st))) by (split; simpl; [lia|done]).
  unfold plain_step. destruct s.
  - repeat case_match; try apply Hput; eexists; (split; [done|]); simpl; try done; lia.
  - repeat case_match; try apply Hput; eexists; (split; [done|]); simpl; try done; try lia.
    split; simpl; [lia|done].
  - destruct (out st) as [|c o] eqn:Eo; [by destruct (Hd eq_refl)|]. simpl in Hn.
    unfold unput. simpl. rewrite Eo. simpl.
    repeat case_match; try apply Hput; eexists; (split; [done|]); simpl; try done; try lia.
    split; simpl; [lia|done].
  - unfold pop_segment. destruct (back_to_slash (drop 4 (out st))) as [o|] eqn:Eb; simpl.
    + apply back_to_slash_length in Eb. rewrite length_drop in Eb.
      repeat case_match; try apply Hput; eexists; (split; [done|]); simpl; try done; try lia.
      split; simpl; [lia|done].
    + repeat case_match; try apply Hput; eexists; (split; [done|]); simpl; try done.
Qed.

Lemma step_ok_mono n m r : (n <= m)%nat -> step_ok n r -> step_ok m r.
Proof. unfold step_ok, mem_inv. destruct r; naive_solver lia. Qed.

Lemma step_safe used ch st :
  mem_inv used st -> (used < cap)%nat ->
  exists r, step cap enc ch st = Ret r /\ step_ok (S used) r.
Proof.
  intros [Hl Hd] Hc. unfold step, dot_state in *. destruct (state st) as [s| |]; simpl in Hl.
  - apply plain_step_ok; [lia|done].
  - unfold quoted_step. simpl. repeat case_match; eexists; (split; [done|]); simpl; try done;
      split; simpl; try lia; done.
  - unfold quoted_second_step, goto_again.
    assert (Hput : forall s c, exists r, put_continue cap s c st = Ret r /\ step_ok (S used) r)
      by (intros; apply put_continue_ok; lia).
    assert (Hagain : forall c, exists r, plain_step cap (saved_state st) c
      (set_state (Plain (saved_state st)) st) = Ret r /\ step_ok (S used) r)
      by (intros; apply plain_step_ok; simpl; [lia|done]).
    assert (H3 : forall c, step_ok (S used) (Continue (mk_tp (Plain sw_normal) (saved_state st)
      (high st) (c :: 50 :: PERCENT :: out st) (quoted_target st)))) by (split; simpl; [lia|done]).
    repeat case_match; try apply Hput; try apply Hagain; try (eexists; by split).
    + rewrite put_three by lia. eauto.
    + rewrite put_three by lia. eauto.
Qed.

Lemma target_loop_safe l p used st :
  mem_inv used st -> (used + length l < cap)%nat ->
  exists e, target_loop cap enc l p st = Ret e /\
    match e with
    | Exit_args p' _ st' =>
        (length (out st') <= used + length l /\ p' <= p + length l)%nat
    | Exit_done st' => (length (out st') <= used + length l)%nat
    | Exit_invalid => True
    end.
Proof.
  revert p used st. induction l as [|c l IH]; intros p used st Hinv Hc; simpl.
  - unfold target_end. pose proof Hinv as [Hl Hd]. unfold dot_state in Hd.
    destruct (state st) as [[]| |]; try (eexists; split; [done|]; simpl; lia).
    + destruct (out st) as [|x o] eqn:Eo; [by destruct (Hd eq_refl)|].
      simpl. unfold unput. simpl. rewrite Eo. simpl. eexists. split; [done|]. simpl in *. lia.
    + simpl. unfold pop_segment. destruct (back_to_slash (drop 4 (out st))) as [o|] eqn:Eb; simpl.
      * apply back_to_slash_length in Eb. rewrite length_drop in Eb.
        eexists. split; [done|]. simpl in *. lia.
      * by eexists.
  - simpl in Hc. destruct (step_safe used c st Hinv) as (r & -> & Hr); [lia|]. simpl.
    destruct r as [st'|st'|st'|]; simpl in Hr; try (eexists; split; [done|]; simpl; lia).
    destruct (IH (S p) (S used) st' Hr) as (e & -> & He); [lia|].
    eexists. split; [done|]. destruct e; try done; lia.
Qed.

End Memory.

Lemma find_hash_bounds l p : (p <= find_hash l p <= p + length l)%nat.
Proof.
  revert p. induction l as [|c l IH]; intros p; simpl; [lia|].
  case_match; [lia|]. specialize (IH (S p)). lia.
Qed.

Lemma complex_target_safe alloc_ok encoded_slashes quoted target :
  exists r,
    nxt_http_parse_complex_target alloc_ok encoded_slashes quoted target = Ret r /\
    match r with
    | Target_ok path args _ =>
        (length path <= length target)%nat /\
        match args with
        | Some (start, len) => (start + len <= length target)%nat
        | None => True
        end
    | _ => True
    end.
Proof.
  unfold nxt_http_parse_complex_target. destruct alloc_ok; simpl; [|by eexists].
  destruct (target_loop_safe (length target + 1) encoded_slashes target 0 0 (target_init quoted))
    as (e & -> & He); [by split|lia|]. simpl.
  destruct e as [p [] st|st|]; eexists; (split; [done|]); simpl; rewrite ?length_rev;
    (lia || split_and!; try lia); try done.
  pose proof (find_hash_bounds (drop p target) p) as Hf. rewrite length_drop in Hf. lia.
Qed.

(** On any target at all, also one a rewrite produced that does not start
    with a slash, the state machine ends without touching memory outside its
    two buffers: it returns, the path fits in a block as long as the target
    and the query lies inside the target. *)
Theorem nxt_http_parse_complex_target_memory alloc_ok encoded_slashes quoted target :
  exists r,
    nxt_http_parse_complex_target alloc_ok encoded_slashes quoted target = Ret r /\
    match r with
    | Target_ok path args _ =>
        (length path <= length target)%nat /\
        match args with
        | Some (start, len) => (start + len <= length target)%nat
        | None => True
        end
    | _ => True
    end.
Proof. apply complex_target_safe. Qed.

(** ** Witnesses *)

Lemma nxt_http_parse_complex_target_correct_witness :
  nxt_http_parse_complex_target true false false (bytes_of_string "/a/.%2e//b%20c/.?x=1#y") =
  Ret (target_spec false false (bytes_of_string "/a/.%2e//b%20c/.?x=1#y")).
Proof.
  apply (nxt_http_parse_complex_target_correct false false
    (bytes_of_string "/a/.%2e//b%20c/.?x=1#y")); [|done].
  repeat constructor; done.
Defined.

Lemma nxt_http_parse_complex_target_safe_path_witness :
  NUL ∉ bytes_of_string "/b c/" /\
  exists segs last,
    split_slash (bytes_of_string "/b c/") = [] :: segs ++ [last] /\
    Forall proper segs /\ last <> [DOT] /\ last <> [DOT; DOT].
Proof.
  apply (nxt_http_parse_complex_target_safe_path false false
    (bytes_of_string "/a/.%2e//b%20c/.?x=1#y") _ (Some (17%nat, 3%nat)) true); [|done| |].
  - repeat constructor; done.
  - rewrite list_elem_of_In. vm_compute. lia.
  - vm_compute. reflexivity.
Defined.
