(* ===== verification/HttpRequest.v ===== *)
(** * The request line: [nxt_http_parse_request()] and its line handler

    [nxt_http_parse_target()], [nxt_http_parse_request_line()],
    [nxt_http_parse_unusual_target()] and the driver of [src/nxt_http_parse.c].
    The labels [continue_target], [rest_of_target] and [space_after_target] of
    the line handler are the three modes of [line_target]; it goes on with the
    header parser of [HttpFields] on the same buffer. *)

From S2P Require Import Prelude Scan NxtList HttpFields HttpTarget.

(** ** Data *)

Inductive target_trap : Type :=
| NXT_HTTP_TARGET_SPACE
| NXT_HTTP_TARGET_HASH
| NXT_HTTP_TARGET_AGAIN
| NXT_HTTP_TARGET_BAD
| NXT_HTTP_TARGET_SLASH
| NXT_HTTP_TARGET_DOT
| NXT_HTTP_TARGET_ARGS_MARK
| NXT_HTTP_TARGET_QUOTE_MARK.

(** The table [nxt_http_target_chars]; [None] is 0. *)
Definition nxt_http_target_chars (ch : Z) : option target_trap :=
  if (ch =? NUL) || (ch =? LF) || (ch =? CR) then Some NXT_HTTP_TARGET_BAD
  else if ch =? SP then Some NXT_HTTP_TARGET_SPACE
  else if ch =? HASH then Some NXT_HTTP_TARGET_HASH
  else if ch =? PERCENT then Some NXT_HTTP_TARGET_QUOTE_MARK
  else if ch =? DOT then Some NXT_HTTP_TARGET_DOT
  else if ch =? SLASH then Some NXT_HTTP_TARGET_SLASH
  else if ch =? QMARK then Some NXT_HTTP_TARGET_ARGS_MARK
  else None.

(** [rp->path] points into the read buffer or to a block of the pool. *)
Inductive path_ref : Type :=
| In_buffer (s : nxt_str)
| In_pool (bytes : list Z).

(** [nxt_http_request_parse_t]: [rp_line] tells that [rp->handler] is
    [&nxt_http_parse_request_line]; otherwise [rp->handler] is the [handler] of
    [rp_fields], which holds the members the header parser uses. *)
Record request_parse : Type := mk_rp {
  rp_line : bool;
  rp_method : nxt_str;
  rp_target_start : nat;
  rp_target_end : nat;
  rp_request_line_end : nat;
  rp_path : path_ref;
  rp_args : nxt_str;
  rp_version : list Z;
  rp_complex_target : bool;
  rp_quoted_target : bool;
  rp_encoded_slashes : bool;
  rp_fields : fields_parse
}.

(** The result of a handler: its code, [*pos] and the state. *)
Notation request_result := (outcome (nxt_rc * nat * request_parse)).

(** ** State updates *)

Definition set_line (line : bool) (rp : request_parse) : request_parse :=
  mk_rp line (rp_method rp) (rp_target_start rp) (rp_target_end rp) (rp_request_line_end rp)
    (rp_path rp) (rp_args rp) (rp_version rp) (rp_complex_target rp) (rp_quoted_target rp)
    (rp_encoded_slashes rp) (rp_fields rp).

Definition set_method (m : nxt_str) (rp : request_parse) : request_parse :=
  mk_rp (rp_line rp) m (rp_target_start rp) (rp_target_end rp) (rp_request_line_end rp)
    (rp_path rp) (rp_args rp) (rp_version rp) (rp_complex_target rp) (rp_quoted_target rp)
    (rp_encoded_slashes rp) (rp_fields rp).

Definition set_target_start (p : nat) (rp : request_parse) : request_parse :=
  mk_rp (rp_line rp) (rp_method rp) p (rp_target_end rp) (rp_request_line_end rp)
    (rp_path rp) (rp_args rp) (rp_version rp) (rp_complex_target rp) (rp_quoted_target rp)
    (rp_encoded_slashes rp) (rp_fields rp).

Definition set_target_end (p : nat) (rp : request_parse) : request_parse :=
  mk_rp (rp_line rp) (rp_method rp) (rp_target_start rp) p (rp_request_line_end rp)
    (rp_path rp) (rp_args rp) (rp_version rp) (rp_complex_target rp) (rp_quoted_target rp)
    (rp_encoded_slashes rp) (rp_fields rp).

Definition set_version (v : list Z) (rp : request_parse) : request_parse :=
  mk_rp (rp_line rp) (rp_method rp) (rp_target_start rp) (rp_target_end rp)
    (rp_request_line_end rp) (rp_path rp) (rp_args rp) v (rp_complex_target rp)
    (rp_quoted_target rp) (rp_encoded_slashes rp) (rp_fields rp).

Definition set_line_end (p : nat) (rp : request_parse) : request_parse :=
  mk_rp (rp_line rp) (rp_method rp) (rp_target_start rp) (rp_target_end rp) p
    (rp_path rp) (rp_args rp) (rp_version rp) (rp_complex_target rp) (rp_quoted_target rp)
    (rp_encoded_slashes rp) (rp_fields rp).

Definition set_path (path : path_ref) (args : option nxt_str) (rp : request_parse)
  : request_parse :=
  mk_rp (rp_line rp) (rp_method rp) (rp_target_start rp) (rp_target_end rp)
    (rp_request_line_end rp) path (default (rp_args rp) args) (rp_version rp)
    (rp_complex_target rp) (rp_quoted_target rp) (rp_encoded_slashes rp) (rp_fields rp).

Definition set_flags (cplx quoted : bool) (rp : request_parse) : request_parse :=
  mk_rp (rp_line rp) (rp_method rp) (rp_target_start rp) (rp_target_end rp)
    (rp_request_line_end rp) (rp_path rp) (rp_args rp) (rp_version rp) cplx quoted
    (rp_encoded_slashes rp) (rp_fields rp).

Definition set_complex (rp : request_parse) : request_parse :=
  set_flags true (rp_quoted_target rp) rp.

Definition set_quoted (rp : request_parse) : request_parse :=
  set_flags (rp_complex_target rp) true rp.

Definition set_rp_fields (line : bool) (fs : fields_parse) (rp : request_parse)
  : request_parse :=
  mk_rp line (rp_method rp) (rp_target_start rp) (rp_target_end rp) (rp_request_line_end rp)
    (rp_path rp) (rp_args rp) (rp_version rp) (rp_complex_target rp) (rp_quoted_target rp)
    (rp_encoded_slashes rp) fs.

(** ** [nxt_http_parse_target()] *)

Definition target_test (ch : Z) (s : unit) : unit + target_trap :=
  match nxt_http_target_chars ch with
  | Some t => inr t
  | None => inl tt
  end.

(** The trap and the new [*pos], which stays at [p] without a trap. *)
Definition nxt_http_parse_target (buf : list Z) (p : nat) : outcome (nat * target_trap) :=
  if (p <=? length buf)%nat then
    let* (p', _, x) := scan_unrolled target_test 10 (drop p buf) p tt in
    match x with
    | inr t => Ret (p', t)
    | inl _ => Ret (p, NXT_HTTP_TARGET_AGAIN)
    end
  else Fault.

(** ** The method *)

Definition method_test (ch : Z) (s : unit) : unit + unit :=
  if (ch <? CH_A) || (CH_Z <? ch) then inr tt else inl tt.

Inductive method_exit : Type :=
| Method_again (m : nxt_str)
| Method_invalid (m : nxt_str)
| Method_found (p : nat) (m : nxt_str).

(** The loop over the method; [start] is [rp->method.start]. *)
Fixpoint method_loop (fuel : nat) (buf : list Z) (p start : nat) : outcome method_exit :=
  match fuel with
  | O => OutOfFuel
  | S fuel' =>
      let* (p, _, x) := scan_unrolled method_test 8 (drop p buf) p tt in
      let* len := ptr_diff p start in
      match x with
      | inl _ => Ret (Method_again (mk_str start len))
      | inr _ =>
          let* ch := of_option (buf !! p) in
          if ch =? SP then Ret (Method_found p (mk_str start len))
          else if (ch =? UNDERSCORE) || (ch =? MINUS) then method_loop fuel' buf (S p) start
          else if (start =? p)%nat && ((ch =? CR) || (ch =? LF)) then
            method_loop fuel' buf (S p) (S start)
          else Ret (Method_invalid (mk_str start len))
      end
  end.

(** [nxt_http_parse_unusual_target()]: surplus spaces before the target. *)
Definition spaces_test (ch : Z) (s : unit) : unit + Z :=
  if ch =? SP then inl tt else inr ch.

Definition nxt_http_parse_unusual_target (buf : list Z) (p : nat) : outcome (nxt_rc * nat) :=
  let* ch := of_option (buf !! p) in
  if ch =? SP then
    match scan spaces_test (drop (S p) buf) (S p) tt with
    | (_, _, inl _) => Ret (NXT_AGAIN, p)
    | (p', _, inr ch') =>
        if ch' =? SLASH then Ret (NXT_OK, p') else Ret (NXT_HTTP_PARSE_INVALID, p)
    end
  else Ret (NXT_HTTP_PARSE_INVALID, p).

(** ** The target *)

Inductive line_mode : Type :=
| Continue_target
| Rest_of_target
| Space_after_target.

(** Where the labels lead to: a return code, or the version at [p + 1] of a
    line whose end follows it. *)
Inductive line_exit : Type :=
| Line_return (rc : nxt_rc)
| Line_version (p : nat).

(** The local variables of the handler while it looks for the target's end. *)
Record line_state : Type := mk_ls {
  ls_after_slash : nat;
  ls_args : option nat;
  ls_rest : bool
}.

Definition HTTP_slash : list Z := bytes_of_string "HTTP/".

(** [memcmp(p, s, n) == 0] *)
Definition memeq (l s : list Z) (n : nat) : bool :=
  if decide (take n l = take n s) then true else false.

(** The switch on [end - p] that tells whether the bytes [l] up to the end can
    still become a version: [true] is its [default]. *)
Definition version_prefix (l : list Z) : bool :=
  let digit i := match l !! i with Some c => (CH_0 <=? c) && (c <=? CH_9) | None => false end in
  let point i := match l !! i with Some c => c =? DOT | None => false end in
  if (length l =? 8)%nat then digit 7%nat && point 6%nat && digit 5%nat
  else if (length l =? 7)%nat then point 6%nat && digit 5%nat
  else if (length l =? 6)%nat then digit 5%nat
  else true.

(** The mode the handler goes back to from a space. *)
Definition back_mode (ls : line_state) : line_mode :=
  if ls_rest ls then Rest_of_target else Continue_target.

Fixpoint line_target (fuel : nat) (buf : list Z) (mode : line_mode) (p : nat)
    (ls : line_state) (rp : request_parse) : outcome (line_exit * line_state * request_parse) :=
  match fuel with
  | O => OutOfFuel
  | S fuel' =>
      match mode with
      | Continue_target =>
          let* (p, trap) := nxt_http_parse_target buf (S p) in
          match trap with
          | NXT_HTTP_TARGET_SLASH =>
              if (ls_after_slash ls =? p)%nat then
                line_target fuel' buf Rest_of_target p ls (set_complex rp)
              else
                line_target fuel' buf Continue_target p
                  (mk_ls (S p) (ls_args ls) (ls_rest ls)) rp
          | NXT_HTTP_TARGET_DOT =>
              if (ls_after_slash ls =? p)%nat then
                line_target fuel' buf Rest_of_target p ls (set_complex rp)
              else line_target fuel' buf Continue_target p ls rp
          | NXT_HTTP_TARGET_ARGS_MARK =>
              line_target fuel' buf Rest_of_target p
                (mk_ls (ls_after_slash ls) (Some (S p)) (ls_rest ls)) rp
          | NXT_HTTP_TARGET_SPACE =>
              line_target fuel' buf Space_after_target p ls (set_target_end p rp)
          | NXT_HTTP_TARGET_QUOTE_MARK =>
              line_target fuel' buf Rest_of_target p ls (set_quoted rp)
          | NXT_HTTP_TARGET_HASH =>
              line_target fuel' buf Rest_of_target p ls (set_complex rp)
          | NXT_HTTP_TARGET_AGAIN =>
              Ret (Line_return NXT_AGAIN, ls, set_target_end p rp)
          | NXT_HTTP_TARGET_BAD =>
              Ret (Line_return NXT_HTTP_PARSE_INVALID, ls, set_target_end p rp)
          end
      | Rest_of_target =>
          let ls := mk_ls (ls_after_slash ls) (ls_args ls) true in
          let* (p, trap) := nxt_http_parse_target buf (S p) in
          match trap with
          | NXT_HTTP_TARGET_SPACE =>
              line_target fuel' buf Space_after_target p ls (set_target_end p rp)
          | NXT_HTTP_TARGET_HASH =>
              line_target fuel' buf Rest_of_target p ls (set_complex rp)
          | NXT_HTTP_TARGET_AGAIN =>
              Ret (Line_return NXT_AGAIN, ls, set_target_end p rp)
          | NXT_HTTP_TARGET_BAD =>
              Ret (Line_return NXT_HTTP_PARSE_INVALID, ls, set_target_end p rp)
          | _ => line_target fuel' buf Rest_of_target p ls rp
          end
      | Space_after_target =>
          let* avail := ptr_diff (length buf) p in
          if (avail <? 10)%nat then
            match scan spaces_test (drop (S p) buf) (S p) tt with
            | (_, _, inl _) => Ret (Line_return NXT_AGAIN, ls, rp)
            | (p, l, inr _) =>
                if memeq l HTTP_slash (Nat.min (length l) 5) && version_prefix l then
                  Ret (Line_return NXT_AGAIN, ls, rp)
                else line_target fuel' buf (back_mode ls) p ls rp
            end
          else
            let* c9 := of_option (buf !! (p + 9)%nat) in
            if negb (c9 =? CR) && negb (c9 =? LF) then
              let* c1 := of_option (buf !! S p) in
              if c1 =? SP then line_target fuel' buf Space_after_target (S p) ls rp
              else line_target fuel' buf (back_mode ls) p ls rp
            else Ret (Line_version p, ls, rp)
      end
  end.

(** ** The version and the end of the line *)

Definition http11 : list Z := bytes_of_string "HTTP/1.1".
Definition http10 : list Z := bytes_of_string "HTTP/1.0".
Definition HTTP_1_point : list Z := bytes_of_string "HTTP/1.".

Definition is_digit_at (i : nat) (l : list Z) : bool :=
  match l !! i with Some c => is_digit c | None => false end.

Definition version_ok (ver : list Z) : bool :=
  bool_decide (ver = http11) || bool_decide (ver = http10)
  || (memeq ver HTTP_1_point 7 && is_digit_at 7 ver).

Definition version_unsupported (ver : list Z) : bool :=
  memeq ver HTTP_slash 5 && is_digit_at 5 ver
  && bool_decide (ver !! 6%nat = Some DOT) && is_digit_at 7 ver.

Definition slice (buf : list Z) (p q : nat) : list Z := take (q - p) (drop p buf).

Definition clear_handler (fs : fields_parse) : fields_parse :=
  mk_fp None (inline_fields fs) (fields fs) (mem_pool fs) (field_name fs)
    (field_value fs) (field_hash fs) (skip_field fs) (discard_unsafe_fields fs)
    (discard_fields fs).

Definition use_pool (fs : fields_parse) : fields_parse :=
  set_fields (inline_fields fs) (fields fs) (S (mem_pool fs)) fs.

Section Request.
Variable alloc : nat -> bool.

(** The line handler goes on with the name of the first field, which sets
    [rp->handler] unless it fails. *)
Definition first_field (buf : list Z) (pos : nat) (rp : request_parse) : request_result :=
  let* (rc, pos', fs) :=
    nxt_http_parse_field_name alloc buf pos (clear_handler (rp_fields rp)) in
  Ret (rc, pos', set_rp_fields (if handler fs then false else true) fs rp).

(** The path and the query of a target that needs no normalization. *)
Definition simple_target (ls : line_state) (rp : request_parse) : outcome request_parse :=
  let start := rp_target_start rp in
  match ls_args ls with
  | Some args =>
      let* n := ptr_diff args (S start) in
      let* m := ptr_diff (rp_target_end rp) args in
      Ret (set_path (In_buffer (mk_str start n)) (Some (mk_str args m)) rp)
  | None =>
      let* n := ptr_diff (rp_target_end rp) start in
      Ret (set_path (In_buffer (mk_str start n)) None rp)
  end.

(** [nxt_http_parse_complex_target(rp)]; after an error the request is given
    up, [rp->path] is left at the start of the new block, and the only other
    trace, [rp->quoted_target] set on the way, is not kept. *)
Definition complex_target (buf : list Z) (rp : request_parse) : outcome (nxt_rc * request_parse) :=
  let start := rp_target_start rp in
  let fs := rp_fields rp in
  let* _ := ptr_diff (rp_target_end rp) start in
  let* r := nxt_http_parse_complex_target (alloc (mem_pool fs)) (rp_encoded_slashes rp)
              (rp_quoted_target rp) (slice buf start (rp_target_end rp)) in
  let rp := set_rp_fields (rp_line rp) (use_pool fs) rp in
  match r with
  | Target_ok path args quoted =>
      let args := option_map (fun a => mk_str (start + fst a)%nat (snd a)) args in
      Ret (NXT_OK, set_flags (rp_complex_target rp) quoted (set_path (In_pool path) args rp))
  | Target_invalid => Ret (NXT_HTTP_PARSE_INVALID, set_path (In_pool []) None rp)
  | Target_error => Ret (NXT_ERROR, rp)
  end.

(** What follows the end of the line at [p]: [pos] is the start of the header. *)
Definition line_done (buf : list Z) (pos p : nat) (ls : line_state) (rp : request_parse)
  : request_result :=
  let rp := set_line_end p rp in
  if rp_complex_target rp || rp_quoted_target rp then
    let* (rc, rp) := complex_target buf rp in
    match rc with
    | NXT_OK => first_field buf pos rp
    | _ => Ret (rc, pos, rp)
    end
  else
    let* rp := simple_target ls rp in
    first_field buf pos rp.

Definition line_version (buf : list Z) (pos p : nat) (ls : line_state) (rp : request_parse)
  : request_result :=
  let ver := take 8 (drop (S p) buf) in
  if version_ok ver then
    let rp := set_version ver rp in
    let p := (p + 9)%nat in
    let* c := of_option (buf !! p) in
    if c =? CR then
      if (S p =? length buf)%nat then Ret (NXT_AGAIN, pos, rp)
      else
        let* c1 := of_option (buf !! S p) in
        if negb (c1 =? LF) then Ret (NXT_HTTP_PARSE_INVALID, pos, rp)
        else line_done buf (p + 2) p ls rp
    else line_done buf (S p) p ls rp
  else if version_unsupported ver then
    Ret (NXT_HTTP_PARSE_UNSUPPORTED_VERSION, pos, set_version ver rp)
  else Ret (NXT_HTTP_PARSE_INVALID, pos, rp).

(** The bound of the target loop: every round moves [p] or leaves a space. *)
Definition line_fuel (buf : list Z) : nat := 2 * length buf + 2.

Definition nxt_http_parse_request_line (buf : list Z) (pos : nat) (rp : request_parse)
  : request_result :=
  let* m := method_loop (S (length buf)) buf pos pos in
  match m with
  | Method_again m => Ret (NXT_AGAIN, pos, set_method m rp)
  | Method_invalid m => Ret (NXT_HTTP_PARSE_INVALID, pos, set_method m rp)
  | Method_found p m =>
      let rp := set_method m rp in
      let p := S p in
      if (p =? length buf)%nat then Ret (NXT_AGAIN, pos, rp)
      else
        let* ch := of_option (buf !! p) in
        let* (rc, p) := (if negb (ch =? SLASH) then nxt_http_parse_unusual_target buf p
                         else Ret (NXT_OK, p)) in
        match rc with
        | NXT_OK =>
            let rp := set_target_start p rp in
            let* (e, ls, rp) :=
              line_target (line_fuel buf) buf Continue_target p (mk_ls (S p) None false) rp in
            match e with
            | Line_return rc => Ret (rc, pos, rp)
            | Line_version p => line_version buf pos p ls rp
            end
        | _ => Ret (rc, pos, rp)
        end
  end.

(** [if (rp->handler == NULL) rp->handler = &nxt_http_parse_request_line;] *)
Definition request_start (rp : request_parse) : request_parse :=
  if rp_line rp then rp
  else
    match handler (rp_fields rp) with
    | None => set_line true rp
    | Some _ => rp
    end.

(** [rp->handler(rp, &b->pos, b->free)] *)
Definition call_request_handler (buf : list Z) (pos : nat) (rp : request_parse)
  : request_result :=
  if rp_line rp then nxt_http_parse_request_line buf pos rp
  else
    match handler (rp_fields rp) with
    | None => Fault
    | Some h =>
        let* (rc, pos', fs) := call_handler alloc h buf pos (rp_fields rp) in
        Ret (rc, pos', set_rp_fields false fs rp)
    end.

(** [do { rc = rp->handler(...); } while (rc == NXT_OK);] *)
Fixpoint request_loop (fuel : nat) (buf : list Z) (pos : nat) (rp : request_parse)
  : request_result :=
  match fuel with
  | O => OutOfFuel
  | S fuel' =>
      let* (rc, pos', rp') := call_request_handler buf pos rp in
      match rc with
      | NXT_OK => request_loop fuel' buf pos' rp'
      | _ => Ret (rc, pos', rp')
      end
  end.

Definition nxt_http_parse_request (buf : list Z) (pos : nat) (rp : request_parse)
  : request_result :=
  request_loop (S (S (length buf))) buf pos (request_start rp).

End Request.

(** [nxt_http_parse_request_init()] on a zeroed structure. *)
Definition nxt_http_parse_request_init (encoded_slashes discard_unsafe : bool) : request_parse :=
  mk_rp false (mk_str 0 0) 0 0 0 (In_buffer (mk_str 0 0)) (mk_str 0 0) [] false false
    encoded_slashes (fields_init discard_unsafe).

(** ** The scanning loops *)

Lemma nxt_http_target_chars_table :
  map nxt_http_target_chars (map Z.of_nat (List.seq 0 256)) =
  map (fun n => nth n [None; Some NXT_HTTP_TARGET_SPACE; Some NXT_HTTP_TARGET_HASH;
                       Some NXT_HTTP_TARGET_AGAIN; Some NXT_HTTP_TARGET_BAD;
                       Some NXT_HTTP_TARGET_SLASH; Some NXT_HTTP_TARGET_DOT;
                       Some NXT_HTTP_TARGET_ARGS_MARK; Some NXT_HTTP_TARGET_QUOTE_MARK] None)
    ([4; 0; 0; 0; 0; 0; 0; 0; 0; 0; 4; 0; 0; 4; 0; 0;
      0; 0; 0; 0; 0; 0; 0; 0; 0; 0; 0; 0; 0; 0; 0; 0;
      1; 0; 0; 2; 0; 8; 0; 0; 0; 0; 0; 0; 0; 0; 6; 5;
      0; 0; 0; 0; 0; 0; 0; 0; 0; 0; 0; 0; 0; 0; 0; 7] ++ replicate 192 0)%nat.
Proof. vm_compute. reflexivity. Qed.

Lemma nxt_http_parse_target_eq buf p :
  (p <= length buf)%nat ->
  nxt_http_parse_target buf p =
  Ret match scan target_test (drop p buf) p tt with
      | (p', _, inr t) => (p', t)
      | (_, _, inl _) => (p, NXT_HTTP_TARGET_AGAIN)
      end.
Proof.
  intros Hp. unfold nxt_http_parse_target. rewrite (proj2 (Nat.leb_le _ _) Hp).
  rewrite scan_unrolled_eq by lia. simpl. by destruct (scan _ _ _ _) as [[? ?] [|]].
Qed.

(** A trap is at a byte of its kind, at or after the start of the scan. *)
Lemma nxt_http_parse_target_spec buf p :
  (p <= length buf)%nat ->
  exists p' t, nxt_http_parse_target buf p = Ret (p', t) /\
    (t <> NXT_HTTP_TARGET_AGAIN -> (p <= p' < length buf)%nat).
Proof.
  intros Hp. rewrite nxt_http_parse_target_eq by done.
  destruct (scan target_test (drop p buf) p tt) as [[p' l] [[]|t]] eqn:E.
  - by eexists _, _.
  - apply scan_drop in E as (_ & ? & ?). by eexists _, _.
Qed.

(** ** Safety of the line handler *)

(** The pointers the handler keeps while it looks for the end of the target. *)
Definition line_inv (buf : list Z) (mode : line_mode) (p : nat) (ls : line_state)
    (rp : request_parse) : Prop :=
  (rp_target_start rp <= p < length buf)%nat /\
  match mode with
  | Space_after_target =>
      (rp_target_start rp <= rp_target_end rp <= p)%nat /\
      (forall a, ls_args ls = Some a ->
         (S (rp_target_start rp) <= a <= rp_target_end rp)%nat)
  | _ => forall a, ls_args ls = Some a -> (S (rp_target_start rp) <= a <= S p)%nat
  end.

Definition line_measure (buf : list Z) (mode : line_mode) (p : nat) : nat :=
  match mode with
  | Space_after_target => S (2 * (length buf - p))
  | _ => 2 * (length buf - p)
  end.

(** What the line handler leaves alone while it looks for the target. *)
Definition same_line (rp rp' : request_parse) : Prop :=
  rp_target_start rp' = rp_target_start rp /\ rp_method rp' = rp_method rp /\
  rp_fields rp' = rp_fields rp /\ rp_encoded_slashes rp' = rp_encoded_slashes rp /\
  rp_args rp' = rp_args rp /\ rp_line rp' = rp_line rp.

Definition line_post (buf : list Z) (rp : request_parse)
    (r : outcome (line_exit * line_state * request_parse)) : Prop :=
  exists e ls rp', r = Ret (e, ls, rp') /\ same_line rp rp' /\
    match e with
    | Line_return rc => rc = NXT_AGAIN \/ rc = NXT_HTTP_PARSE_INVALID
    | Line_version p =>
        line_inv buf Space_after_target p ls rp' /\ (p + 10 <= length buf)%nat
    end.

Lemma line_post_same buf rp rp1 r : same_line rp rp1 -> line_post buf rp1 r -> line_post buf rp r.
Proof.
  intros Hs (e & ls & rp' & -> & Hs' & He). exists e, ls, rp'.
  split_and!; [done| |done]. unfold same_line in *. intuition congruence.
Qed.

Lemma spaces_scan buf p :
  (p <= length buf)%nat ->
  match scan spaces_test (drop p buf) p tt with
  | (_, _, inl _) => True
  | (p', l, inr ch) => (p <= p' < length buf)%nat /\ buf !! p' = Some ch /\ ch <> SP
  end.
Proof.
  intros Hp. destruct (scan spaces_test (drop p buf) p tt) as [[p' l] [[]|ch]] eqn:E; [done|].
  pose proof E as E'. apply scan_drop in E as (-> & ? & ?).
  apply scan_stop in E' as (c & l & [] & Ed & Ht).
  apply drop_cons_inv in Ed as [Ed _]. unfold spaces_test in Ht.
  destruct (Z.eqb_spec c SP); [done|]. injection Ht as <-. done.
Qed.

Lemma line_target_post fuel buf mode p ls rp :
  line_inv buf mode p ls rp -> (line_measure buf mode p < fuel)%nat ->
  line_post buf rp (line_target fuel buf mode p ls rp).
Proof.
  revert mode p ls rp. induction fuel as [|fuel IH]; intros mode p ls rp Hinv Hf; [lia|].
  assert (Hnext : forall mode' p' ls' rp',
    same_line rp rp' -> line_inv buf mode' p' ls' rp' ->
    (line_measure buf mode' p' < line_measure buf mode p)%nat ->
    line_post buf rp (line_target fuel buf mode' p' ls' rp')).
  { intros. apply (line_post_same _ _ rp'); [done|]. apply IH; [done|lia]. }
  assert (Hret : forall rc ls' rp', same_line rp rp' -> rc = NXT_AGAIN \/ rc = NXT_HTTP_PARSE_INVALID ->
    line_post buf rp (Ret (Line_return rc, ls', rp'))) by (intros; by eexists _, _, _).
  clear IH Hf. destruct Hinv as [Hp Hargs]. cbn [line_target].
  destruct mode.
  - destruct (nxt_http_parse_target_spec buf (S p)) as (p' & t & -> & Ht); [lia|]. cbn [obind].
    destruct t; try (specialize (Ht ltac:(done))); try (by apply Hret; [|auto]);
      try case_match; apply Hnext; try done; simpl; try lia;
      (split; [simpl; lia|]); simpl; intros; try (split; [lia|]); naive_solver lia.
  - destruct (nxt_http_parse_target_spec buf (S p)) as (p' & t & -> & Ht); [lia|]. cbn [obind].
    destruct t; try (specialize (Ht ltac:(done))); try (by apply Hret; [|auto]);
      apply Hnext; try done; simpl; try lia;
      (split; [simpl; lia|]); simpl; intros; try (split; [lia|]); naive_solver lia.
  - destruct Hargs as [Hte Hargs]. rewrite ptr_diff_le by lia. cbn [obind].
    assert (Hback : forall p', (p <= p' < length buf)%nat ->
      line_post buf rp (line_target fuel buf (back_mode ls) p' ls rp)).
    { intros p' Hp'. apply Hnext; [done| |unfold back_mode; case_match; simpl; lia].
      split; [lia|]. unfold back_mode. case_match; naive_solver lia. }
    destruct (Nat.ltb_spec (length buf - p) 10).
    + pose proof (spaces_scan buf (S p) ltac:(lia)) as Hsp.
      destruct (scan spaces_test (drop (S p) buf) (S p) tt) as [[p' l] [[]|ch]];
        [by apply Hret; [|auto]|].
      case_match; [by apply Hret; [|auto]|]. apply Hback. lia.
    + destruct (lookup_lt_is_Some_2 buf (p + 9) ltac:(lia)) as [c9 ->]. cbn [of_option obind].
      case_match.
      * destruct (lookup_lt_is_Some_2 buf (S p) ltac:(lia)) as [c1 ->]. cbn [of_option obind].
        case_match; [|apply Hback; lia].
        apply Hnext; [done| |simpl; lia]. split; [lia|]. split; [lia|done].
      * exists (Line_version p), ls, rp. split; [done|]. split; [done|]. split; [by split|lia].
Qed.

(** *** The handlers on the whole state *)

(** In the line handler no field has been started. *)
Definition request_wf (buf : list Z) (pos : nat) (rp : request_parse) : Prop :=
  let fs := rp_fields rp in
  let line :=
    (pos <= length buf)%nat /\ str_length (field_name fs) = 0%nat /\
    str_length (field_value fs) = 0%nat in
  if rp_line rp then line
  else
    match handler fs with
    | None => line
    | Some h => wf_at h buf pos fs
    end.

(** Like [handler_post], for the handlers of a request. *)
Definition request_post (buf : list Z) (pos : nat) (r : request_result) : Prop :=
  exists rc pos' rp',
    r = Ret (rc, pos', rp') /\ (pos <= pos' <= length buf)%nat /\
    (rc = NXT_OK ->
       (pos < pos')%nat /\ rp_line rp' = false /\
       handler (rp_fields rp') = Some H_field_name /\
       wf_at H_field_name buf pos' (rp_fields rp')) /\
    (rc = NXT_AGAIN -> request_wf buf pos' rp' /\
       (rp_line rp' = true \/ exists h, handler (rp_fields rp') = Some h)).

Lemma request_post_le buf pos pos1 r :
  (pos <= pos1)%nat -> request_post buf pos1 r -> request_post buf pos r.
Proof.
  intros Hle (rc & pos' & rp' & -> & ? & Hok & ?). exists rc, pos', rp'.
  split_and!; [done|lia|lia| |done]. intros Hrc. destruct (Hok Hrc) as (? & ?).
  split; [lia|done].
Qed.

(** Returning without progress: any code but [NXT_OK]. *)
Lemma request_post_return buf pos rc rp :
  (pos <= length buf)%nat -> rc <> NXT_OK ->
  (rc = NXT_AGAIN -> rp_line rp = true /\ request_wf buf pos rp) ->
  request_post buf pos (Ret (rc, pos, rp)).
Proof. intros. exists rc, pos, rp. split_and!; [done|lia|lia|done|naive_solver]. Qed.

Section Safety.
Variable alloc : nat -> bool.

Lemma first_field_post buf pos rp :
  (pos <= length buf)%nat -> str_length (field_name (rp_fields rp)) = 0%nat ->
  str_length (field_value (rp_fields rp)) = 0%nat ->
  request_post buf pos (first_field alloc buf pos rp).
Proof.
  intros Hp Hn Hv. unfold first_field.
  destruct (field_name_post alloc buf pos (clear_handler (rp_fields rp)))
    as (rc & p' & fs & -> & Hb & Hok & Hag); [simpl; lia|]. cbn [obind].
  eexists rc, p', _. split; [done|]. split; [done|]. split.
  - intros Hrc. destruct (Hok Hrc) as (? & Hh & ?). simpl. by rewrite Hh.
  - intros Hrc. destruct (Hag Hrc) as (h & Hh & ?). unfold request_wf. simpl. rewrite Hh.
    split; [done|]. right. eauto.
Qed.

Lemma method_loop_spec fuel buf p start :
  (start <= p <= length buf)%nat -> (length buf - p < fuel)%nat ->
  exists m, method_loop fuel buf p start = Ret m /\
    match m with
    | Method_found p' _ => (p <= p' < length buf)%nat
    | _ => True
    end.
Proof.
  revert p start. induction fuel as [|fuel IH]; intros p start Hp Hf; [lia|].
  cbn [method_loop]. rewrite scan_unrolled_eq by lia. cbn [obind].
  destruct (scan method_test (drop p buf) p tt) as [[p' l] x] eqn:E.
  apply scan_drop in E as (_ & Hle & Hx). rewrite ptr_diff_le by lia. cbn [obind].
  destruct x as [[]|[]]; [by eexists|].
  destruct (lookup_lt_is_Some_2 buf p' Hx) as [ch ->]. cbn [of_option obind].
  assert (Hnext : forall start', (start' <= S p')%nat -> exists m,
    method_loop fuel buf (S p') start' = Ret m /\
    match m with Method_found q _ => (p <= q < length buf)%nat | _ => True end).
  { intros start' Hs. destruct (IH (S p') start') as (m & -> & Hm); [lia..|].
    eexists. split; [done|]. destruct m; try done; lia. }
  case_match; [eexists; split; [done|]; simpl; lia|].
  case_match; [apply Hnext; lia|]. case_match; [|by eexists].
  apply Hnext. zbool. lia.
Qed.

Lemma unusual_target_spec buf p :
  (p < length buf)%nat ->
  exists rc p', nxt_http_parse_unusual_target buf p = Ret (rc, p') /\
    (rc = NXT_OK -> (p < p' < length buf)%nat /\ buf !! p' = Some SLASH) /\
    (rc = NXT_OK \/ rc = NXT_AGAIN \/ rc = NXT_HTTP_PARSE_INVALID).
Proof.
  intros Hp. unfold nxt_http_parse_unusual_target.
  destruct (lookup_lt_is_Some_2 buf p Hp) as [ch ->]. cbn [of_option obind].
  case_match; [|eexists _, _; naive_solver].
  pose proof (spaces_scan buf (S p) ltac:(lia)) as Hs.
  destruct (scan spaces_test (drop (S p) buf) (S p) tt) as [[p' l] [[]|c]];
    [eexists _, _; naive_solver|].
  destruct (Z.eqb_spec c SLASH) as [->|]; eexists _, _; split; try done; naive_solver lia.
Qed.

Lemma complex_target_post buf rp :
  (rp_target_start rp <= rp_target_end rp <= length buf)%nat ->
  exists rc rp', complex_target alloc buf rp = Ret (rc, rp') /\
    (rc = NXT_OK \/ rc = NXT_HTTP_PARSE_INVALID \/ rc = NXT_ERROR) /\
    field_name (rp_fields rp') = field_name (rp_fields rp) /\
    field_value (rp_fields rp') = field_value (rp_fields rp).
Proof.
  intros Hb. unfold complex_target. rewrite ptr_diff_le by lia. cbn [obind].
  destruct (complex_target_safe (alloc (mem_pool (rp_fields rp))) (rp_encoded_slashes rp)
    (rp_quoted_target rp) (slice buf (rp_target_start rp) (rp_target_end rp))) as (r & -> & _).
  cbn [obind]. destruct r; eexists _, _; split_and!; try done; auto.
Qed.

Lemma line_done_post buf pos p ls rp :
  (pos <= length buf)%nat -> str_length (field_name (rp_fields rp)) = 0%nat ->
  str_length (field_value (rp_fields rp)) = 0%nat ->
  (rp_target_start rp <= rp_target_end rp <= length buf)%nat ->
  (forall a, ls_args ls = Some a -> (S (rp_target_start rp) <= a <= rp_target_end rp)%nat) ->
  request_post buf pos (line_done alloc buf pos p ls rp).
Proof.
  intros Hp Hn Hv Ht Ha. unfold line_done. case_match.
  - destruct (complex_target_post buf (set_line_end p rp)) as (rc & rp' & -> & Hrc & En & Ev); [done|].
    cbn [obind]. destruct Hrc as [->|[->| ->]]; [|by apply request_post_return..].
    apply first_field_post; [done|by rewrite En|by rewrite Ev].
  - unfold simple_target. simpl. destruct (ls_args ls) as [a|] eqn:E.
    + specialize (Ha a eq_refl). rewrite !ptr_diff_le by (simpl; lia). by apply first_field_post.
    + rewrite ptr_diff_le by (simpl; lia). by apply first_field_post.
Qed.

Lemma line_version_post buf pos p ls rp :
  (pos <= p)%nat -> line_inv buf Space_after_target p ls rp -> (p + 10 <= length buf)%nat ->
  rp_line rp = true -> str_length (field_name (rp_fields rp)) = 0%nat ->
  str_length (field_value (rp_fields rp)) = 0%nat ->
  request_post buf pos (line_version alloc buf pos p ls rp).
Proof.
  intros Hpos (Hp & Ht & Ha) Hlen Hl Hn Hv. unfold line_version.
  assert (Hdone : forall p1 p2, (pos <= p1 <= length buf)%nat ->
    request_post buf pos (line_done alloc buf p1 p2 ls (set_version (take 8 (drop (S p) buf)) rp))).
  { intros p1 p2 Hp1. apply (request_post_le _ _ p1); [lia|].
    apply line_done_post; simpl; try done; lia. }
  assert (Hret : forall rc rp', rc <> NXT_OK -> rp_line rp' = true ->
    rp_fields rp' = rp_fields rp -> request_post buf pos (Ret (rc, pos, rp'))).
  { intros rc rp' Hrc Hl' Hf. apply request_post_return; [lia|done|]. intros _.
    unfold request_wf. rewrite Hl', Hf. split_and!; [done|lia|done..]. }
  case_match; [|case_match; by apply Hret].
  destruct (lookup_lt_is_Some_2 buf (p + 9) ltac:(lia)) as [c ->]. cbn [of_option obind].
  destruct (c =? CR); [|apply Hdone; lia].
  destruct (Nat.eqb_spec (S (p + 9)) (length buf)); [by apply Hret|].
  destruct (lookup_lt_is_Some_2 buf (S (p + 9)) ltac:(lia)) as [c1 ->]. cbn [of_option obind].
  case_match; [by apply Hret|apply Hdone; lia].
Qed.

Lemma request_line_post buf pos rp :
  rp_line rp = true -> request_wf buf pos rp ->
  request_post buf pos (nxt_http_parse_request_line alloc buf pos rp).
Proof.
  intros Hl Hwf. pose proof Hwf as Hwf'. unfold request_wf in Hwf'. rewrite Hl in Hwf'.
  destruct Hwf' as (Hp & Hn & Hv). unfold nxt_http_parse_request_line.
  assert (Hret : forall rc rp', rc <> NXT_OK -> rp_line rp' = true ->
    rp_fields rp' = rp_fields rp -> request_post buf pos (Ret (rc, pos, rp'))).
  { intros rc rp' Hrc Hl' Hf. apply request_post_return; [lia|done|]. intros _.
    unfold request_wf. rewrite Hl', Hf. done. }
  destruct (method_loop_spec (S (length buf)) buf pos pos) as (m & -> & Hm); [lia..|]. cbn [obind].
  destruct m as [m|m|p m]; [by apply Hret..|].
  destruct (Nat.eqb_spec (S p) (length buf)); [by apply Hret|].
  destruct (lookup_lt_is_Some_2 buf (S p) ltac:(lia)) as [ch ->]. cbn [of_option obind].
  assert (exists rc q, (if negb (ch =? SLASH) then nxt_http_parse_unusual_target buf (S p)
    else Ret (NXT_OK, S p)) = Ret (rc, q) /\ (rc = NXT_OK -> (S p <= q < length buf)%nat))
    as (rc & q & -> & Hq).
  { case_match; [|eexists _, _; split; [done|lia]].
    destruct (unusual_target_spec buf (S p)) as (rc & q & -> & Hq & _); [lia|].
    eexists _, _. split; [done|]. naive_solver lia. }
  cbn [obind]. destruct (decide (rc = NXT_OK)) as [->|Hne]; [|destruct rc; try done; by apply Hret].
  specialize (Hq eq_refl).
  destruct (line_target_post (line_fuel buf) buf Continue_target q (mk_ls (S q) None false)
    (set_target_start q (set_method m rp))) as (e & ls & rp' & E & Hs & He);
    [by split; simpl; [lia|]|unfold line_fuel; simpl; lia|].
  rewrite E. cbn [obind]. destruct Hs as (Hs1 & _ & Hs2 & _ & _ & Hs3).
  simpl in Hs1, Hs2, Hs3. rewrite Hl in Hs3.
  destruct e as [rc|p'].
  - apply Hret; [by destruct He as [->| ->]|done..].
  - destruct He as [Hinv Hlen]. destruct Hinv as [Hi1 Hi2].
    apply line_version_post; rewrite ?Hs2; try done. lia.
Qed.

Lemma call_request_post buf pos rp :
  request_wf buf pos rp ->
  (rp_line rp = true \/ exists h, handler (rp_fields rp) = Some h) ->
  request_post buf pos (call_request_handler alloc buf pos rp).
Proof.
  intros Hwf Hh. unfold call_request_handler.
  destruct (rp_line rp) eqn:Hl; [by apply request_line_post|].
  destruct Hh as [?|[h Hh]]; [done|]. unfold request_wf in Hwf. rewrite Hl, Hh in Hwf.
  rewrite Hh. destruct (call_handler_post alloc h buf pos (rp_fields rp) Hwf)
    as (rc & p & fs & -> & Hb & Hok & Hag). cbn [obind].
  eexists rc, p, _. split; [done|]. split; [done|]. split.
  - intros Hrc. destruct (Hok Hrc) as (? & ? & ?). done.
  - intros Hrc. destruct (Hag Hrc) as (h' & Hh' & Hw). unfold request_wf. simpl. rewrite Hh'. eauto.
Qed.

Lemma request_loop_post fuel buf pos rp :
  request_wf buf pos rp ->
  (rp_line rp = true \/ exists h, handler (rp_fields rp) = Some h) ->
  (length buf - pos < fuel)%nat ->
  exists rc pos' rp',
    request_loop alloc fuel buf pos rp = Ret (rc, pos', rp') /\
    (pos <= pos' <= length buf)%nat /\ rc <> NXT_OK /\
    (rc = NXT_AGAIN -> request_wf buf pos' rp').
Proof.
  revert pos rp. induction fuel as [|fuel IH]; intros pos rp Hwf Hh Hf; [lia|]. cbn [request_loop].
  destruct (call_request_post buf pos rp Hwf Hh) as (rc & p & rp' & -> & Hb & Hok & Hag).
  cbn [obind]. destruct (decide (rc = NXT_OK)) as [->|Hne].
  - destruct (Hok eq_refl) as (? & Hl & Hh' & Hw).
    destruct (IH p rp') as (rc & p2 & rp2 & -> & ? & ? & ?);
      [unfold request_wf; by rewrite Hl, Hh'|eauto|lia|].
    eexists _, _, _. split; [done|]. split; [lia|done].
  - assert (Ha : rc = NXT_AGAIN -> request_wf buf p rp') by (intros H; apply (Hag H)).
    destruct rc; try done; eexists _, _, _; split_and!; (done || lia).
Qed.

End Safety.

Lemma request_wf_app buf more pos rp :
  request_wf buf pos rp -> request_wf (buf ++ more) pos rp.
Proof.
  unfold request_wf. rewrite length_app. repeat case_match; try lia; try apply wf_at_app.
Qed.

(** C10. Parsing a request never leaves the read buffer and always ends, on any
    bytes, for any split of the input and whatever allocations fail; a request
    for more data leaves a state in which the parser can be called again with
    any longer buffer. *)
Theorem nxt_http_parse_request_safe alloc buf pos rp :
  request_wf buf pos rp ->
  exists rc pos' rp',
    nxt_http_parse_request alloc buf pos rp = Ret (rc, pos', rp') /\
    (pos <= pos' <= length buf)%nat /\ rc <> NXT_OK /\
    (rc = NXT_AGAIN -> forall more, request_wf (buf ++ more) pos' rp').
Proof.
  intros Hwf. unfold nxt_http_parse_request. set (rp1 := request_start rp).
  assert (request_wf buf pos rp1 /\ (rp_line rp1 = true \/ exists h, handler (rp_fields rp1) = Some h))
    as [Hwf1 Hh].
  { subst rp1. unfold request_start, request_wf in *.
    destruct (rp_line rp) eqn:Hl; [rewrite Hl; auto|].
    destruct (handler (rp_fields rp)) as [h|] eqn:Hh; [rewrite Hl, Hh; eauto|simpl; auto]. }
  destruct (request_loop_post alloc (S (S (length buf))) buf pos rp1 Hwf1 Hh)
    as (rc & p & rp' & -> & ? & ? & Hag); [lia|].
  eexists _, _, _. split; [done|]. split; [done|]. split; [done|].
  intros Hrc more. by apply request_wf_app, Hag.
Qed.

(** ** Witnesses *)

Lemma nxt_http_parse_request_safe_witness :
  exists rc pos' rp',
    nxt_http_parse_request (fun _ => false) (bytes_of_string "GET / HTTP") 0
      (nxt_http_parse_request_init false false) = Ret (rc, pos', rp') /\
    (0 <= pos' <= 10)%nat /\ rc <> NXT_OK /\
    (rc = NXT_AGAIN -> forall more,
       request_wf (bytes_of_string "GET / HTTP" ++ more) pos' rp').
Proof.
  apply (nxt_http_parse_request_safe (fun _ => false) (bytes_of_string "GET / HTTP") 0
    (nxt_http_parse_request_init false false)).
  vm_compute. lia.
Defined.
