(* ===== verification/HttpMessage.v ===== *)
(** * Whole requests

    The text of a request (a request line and a header) and what
    [nxt_http_parse_request()] makes of it.  The line handler takes a fast path
    for targets without "//", "/.", "%" and "#" and runs the state machine of
    [HttpTarget] for the others; both give the reference normalization. *)

From S2P Require Import Prelude Scan NxtList HttpFields HttpHeader HttpTarget HttpRequest.

(** ** The text of a request line *)

Definition method_char (c : Z) : Prop :=
  CH_A <= c <= CH_Z \/ c = UNDERSCORE \/ c = MINUS.

(** A target: a slash and bytes other than NUL, LF, CR and SP. *)
Definition target_char (c : Z) : Prop :=
  byte c /\ c <> NUL /\ c <> LF /\ c <> CR /\ c <> SP.

Record request_text : Type := mk_rt {
  rt_skip : list Z;        (* empty lines before the request *)
  rt_method : list Z;
  rt_target : list Z;
  rt_minor : Z;
  rt_eol : list Z
}.

Definition version_bytes (minor : Z) : list Z := HTTP_1_point ++ [minor].

Definition line_tail (t : request_text) (rest : list Z) : list Z :=
  version_bytes (rt_minor t) ++ rt_eol t ++ rest.

Definition request_line_bytes (t : request_text) : list Z :=
  rt_skip t ++ rt_method t ++ SP :: rt_target t ++ SP :: version_bytes (rt_minor t) ++ rt_eol t.

Definition valid_request_line (t : request_text) : Prop :=
  Forall (fun c => c = CR \/ c = LF) (rt_skip t) /\
  Forall method_char (rt_method t) /\
  rt_target t !! 0%nat = Some SLASH /\ Forall target_char (rt_target t) /\
  CH_0 <= rt_minor t <= CH_9 /\ is_eol (rt_eol t).

(** The bytes a reference denotes. *)
Definition path_content (buf : list Z) (rp : request_parse) : list Z :=
  match rp_path rp with
  | In_buffer s => take (str_length s) (drop (str_start s) buf)
  | In_pool l => l
  end.

(** ** The method *)

Lemma method_loop_chars buf m fuel p start rest :
  Forall method_char m -> drop p buf = m ++ SP :: rest -> (start <= p)%nat ->
  (length m < fuel)%nat ->
  method_loop fuel buf p start =
  Ret (Method_found (p + length m) (mk_str start (p + length m - start))).
Proof.
  intros Hm. revert fuel p. induction Hm as [|c m Hc Hm IH]; intros fuel p Hd Hs Hf;
    (destruct fuel as [|fuel]; [simpl in Hf; lia|]).
  - cbn [method_loop]. rewrite scan_unrolled_eq by lia. rewrite Hd. simpl.
    rewrite ptr_diff_le by done. simpl.
    apply drop_cons_inv in Hd as [-> _]. simpl. by rewrite Nat.add_0_r.
  - pose proof Hd as Hd'. simpl in Hd'. apply drop_cons_inv in Hd' as [Hl Hd'].
    simpl length in *. rewrite <- Nat.add_succ_comm.
    destruct (decide (CH_A <= c <= CH_Z)) as [Ha|Ha].
    + rewrite <- (IH (S fuel) (S p)) by (done || lia). cbn [method_loop].
      rewrite !scan_unrolled_eq, Hd, Hd' by lia. simpl. unfold method_test at 1.
      destruct (Z.ltb_spec c CH_A); [lia|]. destruct (Z.ltb_spec CH_Z c); [lia|]. done.
    + rewrite <- (IH fuel (S p)) by (done || lia). cbn [method_loop].
      rewrite scan_unrolled_eq, Hd by lia. simpl. unfold method_test at 1.
      assert (Hcc : c = UNDERSCORE \/ c = MINUS) by (destruct Hc; [lia|done]).
      destruct Hcc as [->| ->]; simpl; rewrite ptr_diff_le by done; simpl; rewrite Hl; done.
Qed.

Lemma method_loop_skip buf skip fuel p rest :
  Forall (fun c => c = CR \/ c = LF) skip -> drop p buf = skip ++ rest ->
  (length skip <= fuel)%nat ->
  method_loop fuel buf p p =
  method_loop (fuel - length skip) buf (p + length skip) (p + length skip).
Proof.
  intros Hs. revert fuel p. induction Hs as [|c skip Hc _ IH]; intros fuel p Hd Hf.
  { simpl. by rewrite Nat.add_0_r, Nat.sub_0_r. }
  destruct fuel as [|fuel]; simpl in Hf; [lia|]. simpl length. simpl in Hd.
  rewrite <- Nat.add_succ_comm, Nat.sub_succ.
  pose proof Hd as Hd'. apply drop_cons_inv in Hd' as [Hl Hd'].
  rewrite <- IH by (done || lia). cbn [method_loop]. rewrite scan_unrolled_eq, Hd by lia.
  destruct Hc as [->| ->]; simpl; rewrite ptr_diff_le by done; simpl; rewrite Hl; simpl;
    by rewrite Nat.eqb_refl.
Qed.

(** ** The fast path *)

Definition has_hash (l : list Z) : bool := existsb (fun c => c =? HASH) l.

(** What the line handler finds in the target after its first slash:
    [complex_target], [quoted_target] and where the query starts. *)
Fixpoint target_info (l : list Z) (p after : nat) : bool * bool * option nat :=
  match l with
  | [] => (false, false, None)
  | c :: l' =>
      if c =? SLASH then
        if (after =? p)%nat then (true, false, None) else target_info l' (S p) (S p)
      else if c =? DOT then
        if (after =? p)%nat then (true, false, None) else target_info l' (S p) after
      else if c =? QMARK then (has_hash l', false, Some (S p))
      else if c =? PERCENT then (has_hash l', true, None)
      else if c =? HASH then (true, false, None)
      else target_info l' (S p) after
  end.

(** ** The line handler on a target *)

Lemma scan_target_found l tl p :
  exists p' l' t, scan target_test (l ++ SP :: tl) p tt = (p', l', inr t).
Proof.
  revert p. induction l as [|c l IH]; intros p; simpl.
  - by eexists _, _, _.
  - destruct (target_test c ()) as [[]|t]; [apply IH|by eexists _, _, _].
Qed.

Lemma parse_target_cons buf q c l tl :
  drop q buf = c :: l ++ SP :: tl ->
  nxt_http_parse_target buf q =
  match nxt_http_target_chars c with
  | Some t => Ret (q, t)
  | None => nxt_http_parse_target buf (S q)
  end.
Proof.
  intros Hd. pose proof Hd as Hd'. apply drop_cons_inv in Hd' as [Hl Hd'].
  apply lookup_lt_Some in Hl. rewrite !nxt_http_parse_target_eq by lia.
  rewrite Hd. simpl. unfold target_test at 1. destruct (nxt_http_target_chars c) as [t|]; [done|].
  rewrite Hd'. destruct (scan_target_found l tl (S q)) as (p' & l' & t & ->). done.
Qed.

Lemma parse_target_space buf q tl :
  drop q buf = SP :: tl -> nxt_http_parse_target buf q = Ret (q, NXT_HTTP_TARGET_SPACE).
Proof.
  intros Hd. pose proof Hd as Hl. apply drop_cons_inv in Hl as [Hl _].
  apply lookup_lt_Some in Hl. rewrite nxt_http_parse_target_eq, Hd by lia. done.
Qed.

Lemma target_char_trap c :
  target_char c ->
  nxt_http_target_chars c =
  if c =? HASH then Some NXT_HTTP_TARGET_HASH
  else if c =? PERCENT then Some NXT_HTTP_TARGET_QUOTE_MARK
  else if c =? DOT then Some NXT_HTTP_TARGET_DOT
  else if c =? SLASH then Some NXT_HTTP_TARGET_SLASH
  else if c =? QMARK then Some NXT_HTTP_TARGET_ARGS_MARK
  else None.
Proof.
  intros (_ & ? & ? & ? & ?). unfold nxt_http_target_chars.
  by repeat (rewrite (proj2 (Z.eqb_neq c _)) by done).
Qed.

(** Where the line handler arrives: the space before the version. *)
Definition at_version (q : nat) (cplx quoted : bool) (rp : request_parse) : request_parse :=
  set_target_end q
    (set_flags (rp_complex_target rp || cplx) (rp_quoted_target rp || quoted) rp).

Lemma line_target_version buf q fuel ls rp tl :
  drop q buf = SP :: tl -> (9 <= length tl)%nat ->
  tl !! 8%nat = Some CR \/ tl !! 8%nat = Some LF -> (0 < fuel)%nat ->
  line_target fuel buf Space_after_target q ls rp = Ret (Line_version q, ls, rp).
Proof.
  intros Hd Hl H8 Hf. destruct fuel as [|fuel]; [lia|]. cbn [line_target].
  assert (Hlen : length (drop q buf) = S (length tl)) by (by rewrite Hd).
  rewrite length_drop in Hlen. rewrite ptr_diff_le by lia. cbn [obind].
  destruct (Nat.ltb_spec (length buf - q) 10); [lia|].
  rewrite <- lookup_drop, Hd. simpl. by destruct H8 as [-> | ->].
Qed.

Lemma at_version_id q rp :
  at_version q false false rp = set_target_end q rp.
Proof. unfold at_version. rewrite !orb_false_r. by destruct rp. Qed.

Section Line.
Variables (buf tl : list Z).
Hypothesis Htl : (9 <= length tl)%nat.
Hypothesis Heol : tl !! 8%nat = Some CR \/ tl !! 8%nat = Some LF.

Lemma line_target_rest l fuel p ls rp :
  Forall target_char l -> drop (S p) buf = l ++ SP :: tl -> (S (length l) < fuel)%nat ->
  line_target fuel buf Rest_of_target p ls rp =
  Ret (Line_version (S p + length l), mk_ls (ls_after_slash ls) (ls_args ls) true,
       at_version (S p + length l) (has_hash l) false rp).
Proof.
  intros Hl. revert fuel p ls rp. induction Hl as [|c l Hc Hl IH]; intros fuel p ls rp Hd Hf;
    (destruct fuel as [|fuel]; [simpl in Hf; lia|]); cbn [line_target].
  - rewrite (parse_target_space _ _ _ Hd). cbn [obind].
    rewrite (line_target_version _ _ _ _ _ _ Hd) by (done || simpl in Hf; lia).
    by rewrite at_version_id, Nat.add_0_r.
  - pose proof Hd as Hd'. simpl in Hd'. apply drop_cons_inv in Hd' as [_ Hd']. simpl in Hf.
    rewrite (parse_target_cons _ _ _ _ _ Hd), target_char_trap by done.
    simpl length. rewrite <- Nat.add_succ_comm. simpl has_hash.
    assert (Hgo : forall rp', line_target fuel buf Rest_of_target (S p)
        (mk_ls (ls_after_slash ls) (ls_args ls) true) rp' =
      Ret (Line_version (S (S p) + length l), mk_ls (ls_after_slash ls) (ls_args ls) true,
           at_version (S (S p) + length l) (has_hash l) false rp'))
      by (intros rp'; rewrite IH; [done..|lia]).
    destruct (Z.eqb_spec c HASH) as [->|Hh].
    { cbn [obind]. rewrite Hgo. unfold at_version, set_complex, set_flags. simpl.
      by rewrite orb_true_r. }
    destruct (c =? PERCENT); [by cbn [obind]; rewrite Hgo|].
    destruct (c =? DOT); [by cbn [obind]; rewrite Hgo|].
    destruct (c =? SLASH); [by cbn [obind]; rewrite Hgo|].
    destruct (c =? QMARK); [by cbn [obind]; rewrite Hgo|].
    exact (IH (S fuel) (S p) ls rp Hd' ltac:(lia)).
Qed.

Lemma line_target_info l fuel p ls rp cplx quoted args :
  Forall target_char l -> drop (S p) buf = l ++ SP :: tl -> (S (length l) < fuel)%nat ->
  target_info l (S p) (ls_after_slash ls) = (cplx, quoted, args) -> ls_args ls = None ->
  exists after rest,
    line_target fuel buf Continue_target p ls rp =
    Ret (Line_version (S p + length l), mk_ls after args rest,
         at_version (S p + length l) cplx quoted rp).
Proof.
  intros Hl. revert fuel p ls rp. induction Hl as [|c l Hc Hl IH]; intros fuel p ls rp Hd Hf Hi Ha;
    (destruct fuel as [|fuel]; [simpl in Hf; lia|]); cbn [line_target].
  { rewrite (parse_target_space _ _ _ Hd). cbn [obind]. simpl in Hi. simplify_eq.
    rewrite (line_target_version _ _ _ _ _ _ Hd) by (done || simpl in Hf; lia).
    destruct ls as [after a r]. simpl in Ha. subst a. exists after, r.
    by rewrite at_version_id, Nat.add_0_r. }
  pose proof Hd as Hd'. simpl in Hd'. apply drop_cons_inv in Hd' as [_ Hd']. simpl in Hf.
  rewrite (parse_target_cons _ _ _ _ _ Hd), target_char_trap by done.
  simpl length. rewrite <- Nat.add_succ_comm. simpl in Hi.
  assert (Hrest : forall ls' rp', line_target fuel buf Rest_of_target (S p) ls' rp' =
    Ret (Line_version (S (S p) + length l), mk_ls (ls_after_slash ls') (ls_args ls') true,
         at_version (S (S p) + length l) (has_hash l) false rp'))
    by (intros; apply line_target_rest; [done..|lia]).
  destruct (Z.eqb_spec c HASH) as [->|Hh].
  { cbn [obind]. simpl in Hi. simplify_eq. rewrite Hrest, Ha. eexists _, _.
    unfold at_version, set_complex, set_flags. simpl. by rewrite !orb_true_r. }
  destruct (Z.eqb_spec c PERCENT) as [->|Hp].
  { cbn [obind]. simpl in Hi. simplify_eq. rewrite Hrest, Ha. eexists _, _.
    unfold at_version, set_quoted, set_flags. simpl. by rewrite !orb_true_r. }
  destruct (Z.eqb_spec c DOT) as [->|Hdot].
  { cbn [obind]. simpl in Hi. destruct (Nat.eqb_spec (ls_after_slash ls) (S p)); simplify_eq.
    - rewrite Hrest, Ha. eexists _, _.
      unfold at_version, set_complex, set_flags. simpl. by rewrite !orb_true_r, !orb_false_r.
    - apply (IH fuel (S p)); [done|lia|done..]. }
  destruct (Z.eqb_spec c SLASH) as [->|Hs].
  { cbn [obind]. simpl in Hi. destruct (Nat.eqb_spec (ls_after_slash ls) (S p)); simplify_eq.
    - rewrite Hrest, Ha. eexists _, _.
      unfold at_version, set_complex, set_flags. simpl. by rewrite !orb_true_r, !orb_false_r.
    - apply (IH fuel (S p) (mk_ls (S (S p)) (ls_args ls) (ls_rest ls))); [done|lia|done..]. }
  destruct (Z.eqb_spec c QMARK) as [->|Hq].
  { cbn [obind]. simplify_eq. rewrite Hrest. by eexists _, _. }
  destruct (IH (S fuel) (S p) ls rp) as (a & r & E); [done|lia|done..|].
  exists a, r. rewrite <- E. done.
Qed.

End Line.

Lemma find_hash_none l p : has_hash l = false -> find_hash l p = (p + length l)%nat.
Proof.
  revert p. induction l as [|c l IH]; intros p H; simpl in *; [lia|].
  apply orb_false_iff in H as [-> H]. rewrite IH by done. lia.
Qed.

(** A segment the fast path has read so far. *)
Definition plain_seg (seg : list Z) : Prop := seg !! 0%nat <> Some DOT.

Lemma plain_seg_app seg c : plain_seg seg -> (seg = [] -> c <> DOT) -> plain_seg (seg ++ [c]).
Proof. unfold plain_seg. destruct seg; simpl; [|done]. intros _ H [= ->]. by apply H. Qed.

Lemma plain_seg_push seg dirs :
  plain_seg seg -> seg <> [] -> push_segment seg dirs = Some (seg :: dirs).
Proof.
  unfold plain_seg, push_segment. intros H Hn.
  by rewrite !decide_False; [|intros ->..].
Qed.

(** What the target without a flag says about the reference semantics: the
    path is the text up to the '?', if any, and needs no change. *)
Definition plain_target (enc : bool) (l seg : list Z) (dirs : list (list Z)) (p : nat)
    (args : option nat) : Prop :=
  exists n r,
    (n <= length l)%nat /\
    decode enc l = Some (map token_of (take n l)) /\
    resolve (map token_of (take n l)) seg dirs = Some r /\
    path_bytes r = dirs_bytes dirs ++ seg ++ take n l /\
    escaped l = false /\
    match args with
    | Some a =>
        a = (p + S n)%nat /\ (S n <= length l)%nat /\
        forall q, query l q = Some ((q + S n)%nat, (length l - S n)%nat)
    | None => n = length l /\ forall q, query l q = None
    end.

Lemma plain_target_cons enc c l seg dirs seg' dirs' p args :
  c <> QMARK -> c <> HASH -> c <> PERCENT ->
  push_token (token_of c) seg dirs = Some (dirs', seg') ->
  dirs_bytes dirs' ++ seg' = dirs_bytes dirs ++ seg ++ [c] ->
  plain_target enc l seg' dirs' (S p) args -> plain_target enc (c :: l) seg dirs p args.
Proof.
  intros Hq Hh Hp Ht Hb (n & r & Hn & Hd & Hr & Hpath & He & Ha).
  apply Z.eqb_neq in Hq, Hh, Hp.
  exists (S n), r. simpl. rewrite Hq, Hh, Hp, Hd. simpl. split_and!; [lia|done| | |done|].
  - destruct (token_of c); simpl in Ht; [|by simplify_eq].
    by destruct (push_segment seg dirs); simplify_eq/=.
  - rewrite Hpath, app_assoc, Hb, <- !app_assoc. done.
  - destruct args as [a|].
    + destruct Ha as (-> & ? & Ha). split_and!; [lia|lia|]. intros q. rewrite Ha.
      f_equal. f_equal. lia.
    + destruct Ha as [-> Ha]. by split_and!; [|intros; apply Ha].
Qed.

Lemma target_info_plain enc l p after seg dirs args :
  target_info l p after = (false, false, args) -> (after <= p)%nat ->
  (after = p <-> seg = []) -> plain_seg seg ->
  plain_target enc l seg dirs p args.
Proof.
  revert p after seg dirs. induction l as [|c l IH]; intros p after seg dirs Hi Hle Hseg Hpl;
    simpl in Hi.
  - simplify_eq. exists 0%nat, (dirs, seg). simpl.
    rewrite decide_False by (unfold plain_seg in Hpl; intros [-> | ->]; done).
    by rewrite app_nil_r.
  - destruct (Z.eqb_spec c SLASH) as [->|Hs].
    { destruct (Nat.eqb_spec after p); [done|].
      assert (seg <> []) by (intros ->; by apply n, Hseg).
      apply (plain_target_cons enc SLASH l seg dirs [] (seg :: dirs)); try done.
      - simpl. by rewrite plain_seg_push.
      - simpl. by rewrite app_nil_r.
      - by apply (IH (S p) (S p)). }
    assert (Hgo : c <> QMARK -> c <> HASH -> c <> PERCENT -> (seg = [] -> c <> DOT) ->
      target_info l (S p) after = (false, false, args) -> plain_target enc (c :: l) seg dirs p args).
    { intros Hq Hh Hp Hdot Hi'. apply (plain_target_cons enc c l seg dirs (seg ++ [c]) dirs); try done.
      - unfold token_of. by rewrite (proj2 (Z.eqb_neq _ _) Hs).
      - apply (IH (S p) after); [done|lia| |by apply plain_seg_app].
        split; [lia|]. intros H. by apply app_nil in H as [_ ?]. }
    destruct (Z.eqb_spec c DOT) as [->|Hdot].
    { destruct (Nat.eqb_spec after p) as [|Hne]; [done|]. apply Hgo; try done.
      intros ->. by destruct (Hne (proj2 Hseg eq_refl)). }
    destruct (Z.eqb_spec c QMARK) as [->|Hq].
    { injection Hi as Hhash <-. exists 0%nat, (dirs, seg). simpl.
      rewrite decide_False by (unfold plain_seg in Hpl; intros [-> | ->]; done).
      split_and!; try done; [lia|by rewrite app_nil_r|lia|lia|].
      intros q. rewrite find_hash_none by done. f_equal. f_equal; lia. }
    destruct (Z.eqb_spec c PERCENT) as [->|Hp]; [done|].
    destruct (Z.eqb_spec c HASH) as [->|Hh]; [done|]. by apply Hgo.
Qed.

(** ** The whole line *)

Lemma version_ok_minor d : CH_0 <= d <= CH_9 -> version_ok (version_bytes d) = true.
Proof.
  intros Hd. unfold version_ok. apply orb_true_iff. right. apply andb_true_iff. split; [done|].
  unfold is_digit_at, version_bytes, HTTP_1_point, is_digit. simpl.
  apply andb_true_iff. split; apply Z.leb_le; lia.
Qed.

Lemma target_info_quoted l p after cplx args :
  target_info l p after = (cplx, true, args) -> escaped l = true.
Proof.
  revert p after. induction l as [|c l IH]; intros p after H; simpl in H; [done|]. simpl.
  destruct (Z.eqb_spec c SLASH) as [->|]; [case_match; [done|]; by apply IH in H|].
  destruct (Z.eqb_spec c DOT) as [->|]; [case_match; [done|]; by apply IH in H|].
  destruct (Z.eqb_spec c QMARK) as [->|]; [done|].
  destruct (Z.eqb_spec c PERCENT) as [->|]; [done|].
  destruct (Z.eqb_spec c HASH) as [->|]; [done|]. by apply IH in H.
Qed.

(** The header parser's state: only an allocation may have been counted. *)
Definition same_fields (fs fs' : fields_parse) : Prop := fs' = fs \/ fs' = use_pool fs.

(** The result of the line handler for a target with the given path. *)
Definition line_parsed (buf : list Z) (t : request_text) (pos : nat) (path : list Z)
    (rp rp' : request_parse) : Prop :=
  let mstart := (pos + length (rt_skip t))%nat in
  let tstart := (mstart + S (length (rt_method t)))%nat in
  rp_method rp' = mk_str mstart (length (rt_method t)) /\
  rp_version rp' = version_bytes (rt_minor t) /\
  path_content buf rp' = path /\
  rp_args rp' =
    match query (rt_target t) 0 with
    | Some (a, n) => mk_str (tstart + a) n
    | None => rp_args rp
    end /\
  rp_quoted_target rp' = rp_quoted_target rp || escaped (rt_target t).

Section Lines.
Variable alloc : nat -> bool.
Hypothesis Halloc : forall n, alloc n = true.

(** The end of the line: the path and the query of the target. *)
Lemma line_done_spec buf pos p ls rp0 cplx quoted args tstart target :
  Forall target_char target -> target !! 0%nat = Some SLASH ->
  slice buf tstart (tstart + length target) = target ->
  rp_target_start rp0 = tstart -> ls_args ls = args ->
  target_info (tail target) (S tstart) (S tstart) = (cplx, quoted, args) ->
  let rp := at_version (tstart + length target) cplx quoted rp0 in
  exists rp',
    line_done alloc buf pos p ls rp =
      match normalized_path (rp_encoded_slashes rp0) target with
      | Some _ => first_field alloc buf pos rp'
      | None => Ret (NXT_HTTP_PARSE_INVALID, pos, rp')
      end /\
    rp_method rp' = rp_method rp0 /\ rp_version rp' = rp_version rp0 /\
    same_fields (rp_fields rp0) (rp_fields rp') /\
    (forall path, normalized_path (rp_encoded_slashes rp0) target = Some path ->
       path_content buf rp' = path /\
       rp_args rp' = match query target 0 with
                     | Some (a, n) => mk_str (tstart + a) n
                     | None => rp_args rp0
                     end /\
       rp_quoted_target rp' = rp_quoted_target rp0 || escaped target).
Proof.
  intros Hc H0 Hslice Hts Hargs Hinfo rp. destruct target as [|c l]; simplify_eq/=.
  assert (Hb : Forall byte (SLASH :: l)) by (apply (Forall_impl _ _ _ Hc); intros ? []; done).
  unfold line_done. simpl.
  destruct ((rp_complex_target rp0 || cplx) || (rp_quoted_target rp0 || quoted)) eqn:Eflag.
  - unfold complex_target. simpl. rewrite ptr_diff_le by lia. cbn [obind].
    rewrite Hslice, Halloc, complex_target_eq by done. cbn [obind]. unfold target_spec.
    destruct (normalized_path (rp_encoded_slashes rp0) (SLASH :: l)) as [path|]; cbn [obind].
    + eexists. split; [done|]. simpl. split_and!; [done..|by right|].
      intros ? [= ->]. split_and!; [done| |].
      * by destruct (query l 1) as [[a n]|].
      * destruct quoted; [|by rewrite orb_false_r].
        by rewrite (target_info_quoted _ _ _ _ _ Hinfo), !orb_true_r.
    + eexists. split; [done|]. simpl. split_and!; [done..|by right|done].
  - apply orb_false_iff in Eflag as [E1 E2].
    apply orb_false_iff in E1 as [E1 ->]. apply orb_false_iff in E2 as [E2 ->].
    destruct (target_info_plain (rp_encoded_slashes rp0) l _ _ [] [] _ Hinfo)
      as (n & r & Hn & Hd & Hr & Hpath & He & Ha); [done..|].
    assert (Hnorm : normalized_path (rp_encoded_slashes rp0) (SLASH :: l) = Some (SLASH :: take n l)).
    { unfold normalized_path. simpl. rewrite Hd, Hr. simpl. by rewrite Hpath. }
    rewrite Hnorm. unfold simple_target. simpl.
    assert (Htake : take (S n) (drop (rp_target_start rp0) buf) = SLASH :: take n l).
    { change (SLASH :: take n l) with (take (S n) (SLASH :: l)). rewrite <- Hslice.
      unfold slice. rewrite take_take, Nat.min_l by lia. done. }
    destruct (ls_args ls) as [a|].
    + destruct Ha as (-> & Hlen & Hq). rewrite !ptr_diff_le by lia. cbn [obind].
      eexists. split; [done|]. simpl. split_and!; [done..|by left|].
      intros ? [= <-]. unfold path_content. simpl.
      replace (rp_target_start rp0 + S n - rp_target_start rp0)%nat with (S n) by lia.
      rewrite Htake, Hq, He, E2. split_and!; [done| |done]. f_equal; lia.
    + destruct Ha as [-> Hq]. rewrite !ptr_diff_le by lia. cbn [obind].
      eexists. split; [done|]. simpl. split_and!; [done..|by left|].
      intros ? [= <-]. unfold path_content. simpl.
      replace (rp_target_start rp0 + S (length l) - rp_target_start rp0)%nat
        with (S (length l)) by lia.
      by rewrite Htake, Hq, He, E2.
Qed.

(** A good version and the end of the line. *)
Lemma line_version_spec buf pos p ls rp minor eol rest :
  CH_0 <= minor <= CH_9 -> is_eol eol ->
  drop (S p) buf = version_bytes minor ++ eol ++ rest ->
  line_version alloc buf pos p ls rp =
  line_done alloc buf (p + 9 + length eol) (p + 9) ls (set_version (version_bytes minor) rp).
Proof.
  intros Hm He Hd. unfold line_version. rewrite Hd.
  assert (take 8 (version_bytes minor ++ eol ++ rest) = version_bytes minor) as ->
    by apply (take_app_length (version_bytes minor)).
  rewrite version_ok_minor by done.
  pose proof (drop_app_take _ _ _ _ Hd) as Hd1. simpl length in Hd1.
  replace (S p + 8)%nat with (p + 9)%nat in Hd1 by lia.
  destruct He as [-> | ->]; simpl in Hd1.
  - apply drop_cons_inv in Hd1 as [Hcr Hd1]. apply drop_cons_inv in Hd1 as [Hlf _].
    rewrite Hcr. cbn [of_option obind]. simpl (CR =? CR).
    pose proof (lookup_lt_Some _ _ _ Hlf) as Hlt.
    destruct (Nat.eqb_spec (S (p + 9)) (length buf)); [lia|]. rewrite Hlf. done.
  - apply drop_cons_inv in Hd1 as [Hlf _]. rewrite Hlf. cbn [of_option obind].
    simpl (LF =? CR). f_equal. simpl. lia.
Qed.

Lemma line_tail_facts t rest :
  is_eol (rt_eol t) ->
  (9 <= length (line_tail t rest))%nat /\
  (line_tail t rest !! 8%nat = Some CR \/ line_tail t rest !! 8%nat = Some LF).
Proof.
  intros He. unfold line_tail. rewrite !length_app. simpl length.
  rewrite lookup_app_r by (simpl; lia). destruct He as [-> | ->]; simpl; split; (lia || auto).
Qed.

Lemma request_line_spec before t rest rp :
  valid_request_line t ->
  let buf := before ++ request_line_bytes t ++ rest in
  let pos := length before in
  let hstart := (pos + length (request_line_bytes t))%nat in
  exists rp',
    nxt_http_parse_request_line alloc buf pos rp =
      match normalized_path (rp_encoded_slashes rp) (rt_target t) with
      | Some _ => first_field alloc buf hstart rp'
      | None => Ret (NXT_HTTP_PARSE_INVALID, hstart, rp')
      end /\
    same_fields (rp_fields rp) (rp_fields rp') /\
    (forall path, normalized_path (rp_encoded_slashes rp) (rt_target t) = Some path ->
       line_parsed buf t pos path rp rp').
Proof.
  intros (Hskip & Hmeth & H0 & Htc & Hminor & Heol) buf pos hstart.
  assert (Hd0 : drop pos buf = rt_skip t ++ rt_method t ++ SP :: rt_target t ++ SP :: line_tail t rest).
  { unfold buf, pos. rewrite drop_app_length. unfold request_line_bytes, line_tail.
    by rewrite <- !app_assoc, <- !app_comm_cons, <- !app_assoc, <- !app_comm_cons, <- !app_assoc. }
  pose proof (drop_app_take _ _ _ _ Hd0) as Hd1.
  pose proof (drop_app_take _ _ _ _ Hd1) as Hd2.
  set (mstart := (pos + length (rt_skip t))%nat) in *.
  set (sp := (mstart + length (rt_method t))%nat) in *.
  pose proof (drop_app_take _ [SP] _ _ Hd2) as Hd3. simpl in Hd3. rewrite Nat.add_1_r in Hd3.
  pose proof (drop_app_take _ _ _ _ Hd3) as Hd4.
  pose proof (drop_app_take _ [SP] _ _ Hd4) as Hd5. simpl in Hd5. rewrite Nat.add_1_r in Hd5.
  assert (Hlen : length buf = (S sp + length (rt_target t) + S (length (line_tail t rest)))%nat).
  { apply (f_equal length) in Hd3. rewrite length_drop, length_app in Hd3. cbn [length] in Hd3.
    assert (S sp <= length buf)%nat; [|lia].
    apply (f_equal length) in Hd2. rewrite length_drop in Hd2. cbn [length] in Hd2. lia. }
  unfold nxt_http_parse_request_line.
  rewrite (method_loop_skip _ _ _ _ _ Hskip Hd0) by lia.
  rewrite (method_loop_chars _ _ _ _ _ _ Hmeth Hd1) by lia. cbn [obind]. fold mstart. fold sp.
  replace (sp - mstart)%nat with (length (rt_method t)) by lia.
  destruct (rt_target t) as [|c l] eqn:Et; simplify_eq/=.
  destruct (Nat.eqb_spec (S sp) (length buf)); [lia|].
  pose proof Hd3 as Hd3'. apply drop_cons_inv in Hd3' as [Hsl Hd3'].
  rewrite Hsl. cbn [of_option obind]. simpl (negb _).
  destruct (line_tail_facts t rest Heol) as [Htl H8].
  destruct (target_info l (S (S sp)) (S (S sp))) as [[cplx quoted] args] eqn:Hinfo.
  pose proof Htc as Htc'. apply Forall_cons in Htc' as [_ Hl].
  destruct (line_target_info buf (line_tail t rest) Htl H8 l (line_fuel buf) (S sp)
    (mk_ls (S (S sp)) None false) (set_target_start (S sp) (set_method (mk_str mstart
      (length (rt_method t))) rp)) cplx quoted args Hl Hd3')
    as (after & r & E); [unfold line_fuel; lia|done..|].
  cbn [obind]. rewrite E. cbn [obind].
  replace (S (S sp) + length l)%nat with (S sp + length (SLASH :: l))%nat in * by (simpl; lia).
  rewrite (line_version_spec _ _ _ _ _ (rt_minor t) (rt_eol t) rest Hminor Heol) by
    (fold (line_tail t rest); rewrite <- Hd5; f_equal; simpl; lia).
  replace (S sp + length (SLASH :: l) + 9 + length (rt_eol t))%nat with hstart by
    (unfold hstart, request_line_bytes; rewrite Et; repeat (rewrite length_app; simpl); lia).
  destruct (line_done_spec buf hstart (S sp + length (SLASH :: l) + 9) (mk_ls after args r)
    (set_version (version_bytes (rt_minor t)) (set_target_start (S sp)
      (set_method (mk_str mstart (length (rt_method t))) rp))) cplx quoted args (S sp) (SLASH :: l))
    as (rp' & E' & Hm & Hv & Hf & Hp); try done.
  { unfold slice. rewrite Nat.add_comm, Nat.add_sub. rewrite Hd3.
    by rewrite app_comm_cons, take_app_length. }
  exists rp'. split; [exact E'|]. split; [done|]. intros path Hnorm.
  destruct (Hp path Hnorm) as (Hp1 & Hp2 & Hp3). unfold line_parsed. rewrite Et.
  split_and!; try done. rewrite Hp2. fold mstart.
  replace (mstart + S (length (rt_method t)))%nat with (S sp) by lia. done.
Qed.

End Lines.

(** ** Whole requests *)

(** After the line handler the driver is the driver of the header parser. *)
Lemma request_loop_fields alloc fuel buf pos rp :
  rp_line rp = false ->
  request_loop alloc fuel buf pos rp =
  let* (rc, pos', fs) := run_handlers alloc fuel buf pos (rp_fields rp) in
  Ret (rc, pos', set_rp_fields false fs rp).
Proof.
  revert pos rp. induction fuel as [|fuel IH]; intros pos rp Hl; [done|].
  cbn [request_loop run_handlers]. unfold call_request_handler. rewrite Hl.
  destruct (handler (rp_fields rp)) as [h|]; [|done].
  destruct (call_handler alloc h buf pos (rp_fields rp)) as [[[rc p] fs]| |]; [|done..].
  cbn [obind]. destruct rc; try done. rewrite IH by done. simpl.
  by destruct (run_handlers alloc fuel buf p fs) as [[[? ?] ?]| |].
Qed.

Lemma request_loop_S alloc fuel buf pos rp :
  request_loop alloc (S fuel) buf pos rp =
  let* (rc, pos', rp') := call_request_handler alloc buf pos rp in
  match rc with
  | NXT_OK => request_loop alloc fuel buf pos' rp'
  | _ => Ret (rc, pos', rp')
  end.
Proof. done. Qed.

Lemma same_fields_facts fs fs' :
  same_fields fs fs' -> line_start fs ->
  line_start (clear_handler fs') /\ all_fields (clear_handler fs') = all_fields fs /\
  kept (clear_handler fs') = kept fs.
Proof. by intros [-> | ->]. Qed.

(** The header after the request line. *)
Lemma first_field_header alloc fuel buf pos rp fs0 fs eol rest :
  (forall n, alloc n = true) -> Forall valid_line fs -> is_eol eol ->
  same_fields fs0 (rp_fields rp) -> line_start fs0 ->
  (length fs < fuel)%nat -> drop pos buf = header_bytes fs eol ++ rest ->
  exists line fs' flds,
    (let* (rc, pos', rp') := first_field alloc buf pos rp in
     match rc with
     | NXT_OK => request_loop alloc fuel buf pos' rp'
     | _ => Ret (rc, pos', rp')
     end) = Ret (NXT_DONE, (pos + length (header_bytes fs eol))%nat, set_rp_fields line fs' rp) /\
    all_fields fs' = all_fields fs0 ++ flds /\
    Forall2 (field_is buf) (List.filter (kept fs0) fs) flds.
Proof.
  intros Ha Hfs He Hsame Hst Hf Hd. destruct (same_fields_facts _ _ Hsame Hst) as (Hst' & Hall & Hk).
  unfold first_field. destruct Hfs as [|f fs Hvf Hfs].
  - unfold header_bytes in *. simpl in *.
    rewrite (header_end_step alloc _ _ _ _ _ He Hst' Hd). cbn [obind].
    eexists _, _, []. split; [done|]. by rewrite app_nil_r.
  - unfold header_bytes in Hd. simpl in Hd. rewrite <- !app_assoc in Hd.
    destruct (header_line_step alloc _ _ _ _ _ Ha Hvf Hst' Hd)
      as (st1 & fl & -> & Hh1 & Hst1 & Hdu & Hdf & Hall1 & Hfl). cbn [obind]. rewrite Hh1.
    rewrite request_loop_fields by done. simpl rp_fields. simpl in Hf.
    destruct (header_lines_run alloc fuel buf (pos + length (line_bytes f)) st1 fs eol rest)
      as (st2 & fl2 & -> & Hall2 & Hfl2); try done; [lia|..].
    { rewrite (drop_app_take _ _ _ _ Hd). unfold header_bytes. by rewrite <- app_assoc. }
    cbn [obind]. eexists false, st2, (fl ++ fl2). split; [|split].
    + do 3 f_equal. unfold header_bytes. simpl. rewrite !length_app. lia.
    + by rewrite Hall2, Hall1, Hall, app_assoc.
    + rewrite <- Hk. assert (List.filter (kept (clear_handler (rp_fields rp))) (f :: fs) =
        (if kept (clear_handler (rp_fields rp)) f then [f] else []) ++ List.filter (kept st1) fs) as ->.
      { rewrite (filter_ext (kept st1) (kept (clear_handler (rp_fields rp))))
          by (intros; unfold kept; by rewrite Hdu, Hdf).
        simpl. by destruct (kept _ f). }
      by apply Forall2_app.
Qed.

(** C1. A request that follows the grammar is parsed completely: empty lines
    before it are skipped, the method, the HTTP/1.x version, the fields and
    the position after the header are the ones in the text, and the path and
    the query are the reference normalization of the target whichever of the
    two ways through the target parser the bytes take; a target without a
    normalization is refused. *)
Theorem nxt_http_parse_request_correct alloc before t fs eol rest rp :
  (forall n, alloc n = true) -> valid_request_line t -> Forall valid_line fs -> is_eol eol ->
  rp_line rp = false -> handler (rp_fields rp) = None -> line_start (rp_fields rp) ->
  let text := request_line_bytes t ++ header_bytes fs eol in
  let buf := before ++ text ++ rest in
  exists rp',
    match normalized_path (rp_encoded_slashes rp) (rt_target t) with
    | Some path =>
        nxt_http_parse_request alloc buf (length before) rp =
          Ret (NXT_DONE, length (before ++ text), rp') /\
        line_parsed buf t (length before) path rp rp' /\
        exists flds,
          all_fields (rp_fields rp') = all_fields (rp_fields rp) ++ flds /\
          Forall2 (field_is buf) (List.filter (kept (rp_fields rp)) fs) flds
    | None =>
        nxt_http_parse_request alloc buf (length before) rp =
          Ret (NXT_HTTP_PARSE_INVALID, length (before ++ request_line_bytes t), rp')
    end.
Proof.
  intros Ha Ht Hfs He Hline Hh Hst text buf. unfold nxt_http_parse_request, request_start.
  rewrite Hline, Hh, request_loop_S. unfold call_request_handler. cbn [rp_line set_line].
  destruct (request_line_spec alloc Ha before t (header_bytes fs eol ++ rest) (set_line true rp) Ht)
    as (rp1 & E & Hsame & Hp).
  replace (before ++ request_line_bytes t ++ header_bytes fs eol ++ rest) with buf in *
    by (unfold buf, text; by rewrite <- !app_assoc).
  rewrite E. cbn [rp_encoded_slashes set_line] in *.
  destruct (normalized_path (rp_encoded_slashes rp) (rt_target t)) as [path|] eqn:Hn.
  - pose proof (header_bytes_length fs eol) as Hlen.
    destruct (first_field_header alloc (S (length buf)) buf
      (length before + length (request_line_bytes t)) rp1 (rp_fields rp) fs eol rest)
      as (line & fs' & flds & -> & Hall & Hfl); try done.
    + unfold buf, text. rewrite !length_app. lia.
    + unfold buf, text. rewrite <- length_app, <- app_assoc, app_assoc. by rewrite drop_app_length.
    + exists (set_rp_fields line fs' rp1). split; [|split].
      * do 3 f_equal. unfold text. rewrite !length_app. lia.
      * by apply Hp.
      * by exists flds.
  - cbn [obind]. exists rp1. by rewrite length_app.
Qed.

(** ** Witnesses *)

Definition sample_request : request_text :=
  mk_rt [CR; LF] (bytes_of_string "M-GET") (bytes_of_string "/a/../b%20c?x=1") 49 [CR; LF].

Lemma nxt_http_parse_request_correct_witness :
  exists rp',
    nxt_http_parse_request (fun _ => true)
      ([] ++ (request_line_bytes sample_request ++ header_bytes [sample_line] [LF]) ++ []) 0
      (nxt_http_parse_request_init false false) = Ret (NXT_DONE, 48%nat, rp') /\
    line_parsed ([] ++ (request_line_bytes sample_request ++ header_bytes [sample_line] [LF]) ++ [])
      sample_request 0 (bytes_of_string "/b c") (nxt_http_parse_request_init false false) rp' /\
    exists flds,
      all_fields (rp_fields rp') = [] ++ flds /\
      Forall2 (field_is ([] ++ (request_line_bytes sample_request
        ++ header_bytes [sample_line] [LF]) ++ [])) [sample_line] flds.
Proof.
  apply (nxt_http_parse_request_correct (fun _ => true) [] sample_request [sample_line] [LF] []
    (nxt_http_parse_request_init false false)); try done.
  - unfold valid_request_line. simpl.
    split_and!; repeat apply Forall_cons_2; try apply Forall_nil_2;
      unfold method_char, target_char, byte, is_eol; try done; try lia; auto.
  - repeat constructor; try (by vm_compute); try (by left); try (by right);
      vm_compute; try lia; intros c [= <-]; lia.
  - by right.
  - by repeat constructor; vm_compute.
Defined.
