(* ===== verification/Chunk.v ===== *)
(** * Chunked transfer coding: [src/nxt_http_chunk_parse.c]

    [nxt_http_chunk_parse()] walks a chain of input buffers, checks the framing
    byte by byte and returns the data as slices that point into the buffers.
    Buffers keep their bytes, [mem.pos] and [retain]; a slice names its parent
    by its place in the chain; the work queue is the list of the buffers whose
    completion handlers were scheduled.  Slices are allocated from the memory
    pool: [alloc n] says whether the [n]-th allocation succeeds.

    The reference is a machine that takes one byte at a time and emits the data
    bytes; the parser is proved to compute the same on every chain of buffers
    and every sequence of calls. *)

From S2P Require Import Prelude HttpFields.

(** ** Data *)

Inductive chunk_state : Type :=
| sw_start
| sw_chunk_size
| sw_chunk_ext
| sw_chunk_size_linefeed
| sw_chunk_end_newline
| sw_chunk_end_linefeed
| sw_chunk
| sw_trailer_name
| sw_trailer_value
| sw_trailer_linefeed.

#[global] Instance chunk_state_eq_dec : EqDecision chunk_state.
Proof. solve_decision. Defined.

(** [nxt_http_chunk_parse_t]; [hcp_pool] counts the allocations. *)
Record chunk_parse : Type := mk_hcp {
  hcp_pool : nat;
  chunk_size : Z;
  hcp_state : chunk_state;
  hcp_last : bool;
  hcp_trailer : bool;
  chunk_error : bool;
  hcp_error : bool;
  retain_buffers : bool
}.

Definition NXT_HTTP_TRAILER_MAX_SIZE : Z := 4096.

(** [nxt_size_is_sufficient()] for a 64-bit size. *)
Definition nxt_size_is_sufficient (cs : Z) : bool := cs <? Z.shiftl 1 (8 * 8 - 4).

(** The table [nxt_http_trailer_tchar]. *)
Definition nxt_http_trailer_tchar (ch : Z) : bool :=
  (ch =? 33) || ((35 <=? ch) && (ch <=? 39)) || (ch =? 42) || (ch =? 43) || (ch =? 45)
  || (ch =? 46) || ((CH_0 <=? ch) && (ch <=? CH_9)) || ((CH_A <=? ch) && (ch <=? CH_Z))
  || ((94 <=? ch) && (ch <=? CH_z)) || (ch =? 124) || (ch =? 126).

Record in_buf : Type := mk_ib {
  ib_mem : list Z;       (* the bytes up to [mem.free] *)
  ib_pos : nat;
  ib_retain : nat
}.

Record slice : Type := mk_slice {
  sl_parent : nat;
  sl_pos : nat;
  sl_free : nat
}.

(** ** State updates *)

Definition set_chunk_size (n : Z) (h : chunk_parse) : chunk_parse :=
  mk_hcp (hcp_pool h) n (hcp_state h) (hcp_last h) (hcp_trailer h) (chunk_error h)
    (hcp_error h) (retain_buffers h).

Definition set_hcp_state (s : chunk_state) (h : chunk_parse) : chunk_parse :=
  mk_hcp (hcp_pool h) (chunk_size h) s (hcp_last h) (hcp_trailer h) (chunk_error h)
    (hcp_error h) (retain_buffers h).

Definition set_trailer (h : chunk_parse) : chunk_parse :=
  mk_hcp (hcp_pool h) (chunk_size h) (hcp_state h) (hcp_last h) true (chunk_error h)
    (hcp_error h) (retain_buffers h).

Definition set_last (h : chunk_parse) : chunk_parse :=
  mk_hcp (hcp_pool h) (chunk_size h) (hcp_state h) true (hcp_trailer h) (chunk_error h)
    (hcp_error h) (retain_buffers h).

Definition set_chunk_error (h : chunk_parse) : chunk_parse :=
  mk_hcp (hcp_pool h) (chunk_size h) (hcp_state h) (hcp_last h) (hcp_trailer h) true
    (hcp_error h) (retain_buffers h).

Definition set_error (h : chunk_parse) : chunk_parse :=
  mk_hcp (hcp_pool h) (chunk_size h) (hcp_state h) (hcp_last h) (hcp_trailer h)
    (chunk_error h) true (retain_buffers h).

Definition use_alloc (h : chunk_parse) : chunk_parse :=
  mk_hcp (S (hcp_pool h)) (chunk_size h) (hcp_state h) (hcp_last h) (hcp_trailer h)
    (chunk_error h) (hcp_error h) (retain_buffers h).

(** ** One byte *)

(** Where the switch leads to; the state is the local variable [state]. *)
Inductive byte_exit : Type :=
| B_continue (state : chunk_state) (h : chunk_parse)
| B_chunk_error (h : chunk_parse)
| B_done (h : chunk_parse).

(** [if (++hcp->chunk_size > NXT_HTTP_TRAILER_MAX_SIZE) goto chunk_error;] *)
Definition trailer_count (state : chunk_state) (h : chunk_parse) : byte_exit :=
  let n := u64 (chunk_size h + 1) in
  let h := set_chunk_size n h in
  if n >? NXT_HTTP_TRAILER_MAX_SIZE then B_chunk_error h else B_continue state h.

(** The switch over the states. *)
Definition chunk_byte (state : chunk_state) (ch : Z) (h : chunk_parse) : byte_exit :=
  match state with
  | sw_start =>
      let c := u8 (ch - CH_0) in
      let c' := u8 (Z.lor ch 32 - CH_a) in
      if c <=? 9 then B_continue sw_chunk_size (set_chunk_size c h)
      else if c' <=? 5 then B_continue sw_chunk_size (set_chunk_size (10 + c') h)
      else B_chunk_error h
  | sw_chunk_size =>
      let c := u8 (ch - CH_0) in
      let c' := u8 (Z.lor ch 32 - CH_a) in
      let digit c :=
        if nxt_size_is_sufficient (chunk_size h) then
          B_continue sw_chunk_size (set_chunk_size (u64 (Z.shiftl (chunk_size h) 4 + c)) h)
        else B_chunk_error h in
      if c >? 9 then
        if c' <=? 5 then digit (u8 (c' + 10))
        else if ch =? CR then B_continue sw_chunk_size_linefeed h
        else if ch =? SEMICOLON then B_continue sw_chunk_ext h
        else B_chunk_error h
      else digit c
  | sw_chunk_ext =>
      B_continue (if ch =? CR then sw_chunk_size_linefeed else sw_chunk_ext) h
  | sw_chunk_size_linefeed =>
      if ch =? LF then
        if negb (chunk_size h =? 0) then B_continue sw_chunk h
        else B_continue sw_chunk_end_newline (set_trailer h)
      else B_chunk_error h
  | sw_chunk_end_newline =>
      if ch =? CR then B_continue sw_chunk_end_linefeed h
      else if hcp_trailer h then
        if negb (nxt_http_trailer_tchar ch) then B_chunk_error h
        else trailer_count sw_trailer_name h
      else B_chunk_error h
  | sw_chunk_end_linefeed =>
      if ch =? LF then
        if negb (hcp_trailer h) then B_continue sw_start h else B_done (set_last h)
      else B_chunk_error h
  | sw_chunk => B_continue sw_chunk h
  | sw_trailer_name =>
      if ch =? COLON then trailer_count sw_trailer_value h
      else if negb (nxt_http_trailer_tchar ch) then B_chunk_error h
      else trailer_count sw_trailer_name h
  | sw_trailer_value =>
      if ch =? CR then trailer_count sw_trailer_linefeed h
      else if ((ch <? 32) || (ch =? DEL)) && negb (ch =? TAB) then B_chunk_error h
      else trailer_count sw_trailer_value h
  | sw_trailer_linefeed =>
      if ch =? LF then trailer_count sw_chunk_end_newline h else B_chunk_error h
  end.

(** ** The data of a chunk *)

Inductive chunk_rc : Type :=
| NXT_HTTP_CHUNK_MIDDLE
| NXT_HTTP_CHUNK_END_ON_BORDER
| NXT_HTTP_CHUNK_END
| CHUNK_NXT_ERROR.

(** What a call or a pass over a buffer produces besides the state. *)
Record produced : Type := mk_out {
  out_slices : list slice;
  out_completed : list nat
}.

Definition no_output : produced := mk_out [] [].

Definition add_output (o1 o2 : produced) : produced :=
  mk_out (out_slices o1 ++ out_slices o2) (out_completed o1 ++ out_completed o2).

Definition add_slice (s : slice) (o : produced) : produced :=
  mk_out (out_slices o ++ [s]) (out_completed o).

Section Parse.
Variable alloc : nat -> bool.

Definition nxt_http_chunk_buffer (idx : nat) (h : chunk_parse) (b : in_buf) (o : produced)
  : chunk_rc * chunk_parse * in_buf * produced :=
  let p := ib_pos b in
  let size := Z.of_nat (length (ib_mem b) - p) in
  let ok := alloc (hcp_pool h) in
  let h := use_alloc h in
  if negb ok then (CHUNK_NXT_ERROR, h, b, o)
  else
    let retain := if retain_buffers h then ib_retain b else S (ib_retain b) in
    if chunk_size h <? size then
      let q := (p + Z.to_nat (chunk_size h))%nat in
      (NXT_HTTP_CHUNK_END, h, mk_ib (ib_mem b) q retain, add_slice (mk_slice idx p q) o)
    else
      let h := set_chunk_size (chunk_size h - size) h in
      let o := add_slice (mk_slice idx p (length (ib_mem b))) o in
      if chunk_size h =? 0 then
        (NXT_HTTP_CHUNK_END_ON_BORDER, h, mk_ib (ib_mem b) (length (ib_mem b)) retain, o)
      else (NXT_HTTP_CHUNK_MIDDLE, h, mk_ib (ib_mem b) p retain, o).

(** How the loop over a buffer is left. *)
Inductive buf_exit : Type :=
| L_next (state : chunk_state)       (* [goto next] *)
| L_end (state : chunk_state)        (* the buffer is used up *)
| L_stop.                            (* [goto done], [goto chunk_error] *)

Notation buf_result := (buf_exit * chunk_parse * in_buf * produced)%type.

(** [ch = *b->mem.pos++; switch (state) ...], then the rest of the loop [k]. *)
Definition next_byte (state : chunk_state) (h : chunk_parse) (b : in_buf) (o : produced)
    (k : chunk_state -> chunk_parse -> in_buf -> outcome buf_result) : outcome buf_result :=
  let* ch := of_option (ib_mem b !! ib_pos b) in
  let b := mk_ib (ib_mem b) (S (ib_pos b)) (ib_retain b) in
  match chunk_byte state ch h with
  | B_continue state h => k state h b
  | B_chunk_error h => Ret (L_stop, set_chunk_error h, b, o)
  | B_done h => Ret (L_stop, h, b, o)
  end.

(** [while (b->mem.pos < b->mem.free)] *)
Fixpoint buf_loop (fuel : nat) (idx : nat) (state : chunk_state) (h : chunk_parse)
    (b : in_buf) (o : produced) : outcome buf_result :=
  match fuel with
  | O => OutOfFuel
  | S fuel' =>
      if (ib_pos b <? length (ib_mem b))%nat then
        if decide (state = sw_chunk) then
          let '(rc, h, b, o) := nxt_http_chunk_buffer idx h b o in
          match rc with
          | NXT_HTTP_CHUNK_MIDDLE => Ret (L_next sw_chunk, h, b, o)
          | CHUNK_NXT_ERROR => Ret (L_stop, set_error h, b, o)
          | NXT_HTTP_CHUNK_END_ON_BORDER => Ret (L_next sw_chunk_end_newline, h, b, o)
          | NXT_HTTP_CHUNK_END =>
              next_byte sw_chunk_end_newline h b o
                (fun state h b => buf_loop fuel' idx state h b o)
          end
        else
          next_byte state h b o (fun state h b => buf_loop fuel' idx state h b o)
      else Ret (L_end state, h, b, o)
  end.

(** Whether the buffer's completion handler is scheduled. *)
Definition complete (idx : nat) (h : chunk_parse) (b : in_buf) : produced :=
  mk_out [] (if (ib_retain b =? 0)%nat && negb (retain_buffers h) then [idx] else []).

(** The loop at the label [done]. *)
Fixpoint complete_all (idx : nat) (h : chunk_parse) (bs : list in_buf) : produced :=
  match bs with
  | [] => no_output
  | b :: bs' => add_output (complete idx h b) (complete_all (S idx) h bs')
  end.

(** [for (b = in; b != NULL; b = next)] *)
Fixpoint parse_bufs (idx : nat) (state : chunk_state) (h : chunk_parse) (bs : list in_buf)
  : outcome (chunk_parse * list in_buf * produced) :=
  match bs with
  | [] => Ret (set_hcp_state state h, [], no_output)
  | b :: bs' =>
      let* (e, h, b, o) := buf_loop (S (length (ib_mem b))) idx state h b no_output in
      match e with
      | L_stop => Ret (h, b :: bs', add_output o (complete_all idx h (b :: bs')))
      | L_next state =>
          let* (h', bs', o') := parse_bufs (S idx) state h bs' in
          Ret (h', b :: bs', add_output o o')
      | L_end state =>
          let* (h', bs', o') := parse_bufs (S idx) state h bs' in
          Ret (h', b :: bs', add_output (add_output o (complete idx h b)) o')
      end
  end.

Definition nxt_http_chunk_parse (h : chunk_parse) (bs : list in_buf)
  : outcome (chunk_parse * list in_buf * produced) :=
  parse_bufs 0 (hcp_state h) h bs.

End Parse.

(** ** The reference machine *)

Inductive ref_exit : Type :=
| R_more (h : chunk_parse) (data : list Z)
| R_stop (h : chunk_parse).

(** One byte: in the data of a chunk it is emitted and counted down. *)
Definition ref_step (h : chunk_parse) (ch : Z) : ref_exit :=
  match hcp_state h with
  | sw_chunk =>
      let n := chunk_size h - 1 in
      R_more (set_hcp_state (if n =? 0 then sw_chunk_end_newline else sw_chunk)
                (set_chunk_size n h)) [ch]
  | s =>
      match chunk_byte s ch h with
      | B_continue s' h' => R_more (set_hcp_state s' h') []
      | B_chunk_error h' => R_stop (set_chunk_error h')
      | B_done h' => R_stop h'
      end
  end.

(** The state, the data emitted, and the bytes left if the machine stopped. *)
Fixpoint ref_run (h : chunk_parse) (l : list Z) : chunk_parse * list Z * option (list Z) :=
  match l with
  | [] => (h, [], None)
  | ch :: l' =>
      match ref_step h ch with
      | R_stop h' => (h', [], Some l')
      | R_more h' d =>
          let '(h2, ds, r) := ref_run h' l' in (h2, d ++ ds, r)
      end
  end.

(** ** Invariants *)

(** Sizes fit in 64 bits, a chunk being read has data left, the trailer states
    are those of the terminal region, and the trailer counter respects its
    limit. *)
Definition chunk_wf (state : chunk_state) (h : chunk_parse) : Prop :=
  0 <= chunk_size h < 2 ^ 64 /\
  match state with
  | sw_start | sw_chunk_size | sw_chunk_ext | sw_chunk_size_linefeed => hcp_trailer h = false
  | sw_chunk => hcp_trailer h = false /\ 0 < chunk_size h
  | sw_chunk_end_newline | sw_chunk_end_linefeed =>
      hcp_trailer h = true -> chunk_size h <= NXT_HTTP_TRAILER_MAX_SIZE
  | sw_trailer_name | sw_trailer_value | sw_trailer_linefeed =>
      hcp_trailer h = true /\ chunk_size h <= NXT_HTTP_TRAILER_MAX_SIZE
  end.

Definition no_flags (h : chunk_parse) : Prop :=
  hcp_last h = false /\ chunk_error h = false /\ hcp_error h = false.

Lemma u8_bound z : 0 <= u8 z < 256.
Proof. unfold u8. apply Z.mod_pos_bound. lia. Qed.

Lemma shift_digit_bound n c :
  nxt_size_is_sufficient n = true -> 0 <= n -> 0 <= c < 16 ->
  u64 (Z.shiftl n 4 + c) = 16 * n + c /\ 0 <= 16 * n + c < 2 ^ 64.
Proof.
  unfold nxt_size_is_sufficient, u64. rewrite Z.shiftl_mul_pow2, Z.ltb_lt by lia.
  rewrite Z.shiftl_mul_pow2 by lia. intros.
  assert (0 <= 16 * n + c < 2 ^ 64) by lia. rewrite Z.mod_small; lia.
Qed.

Lemma trailer_count_spec state h :
  0 <= chunk_size h <= NXT_HTTP_TRAILER_MAX_SIZE ->
  trailer_count state h =
  let h' := set_chunk_size (chunk_size h + 1) h in
  if chunk_size h <? NXT_HTTP_TRAILER_MAX_SIZE then B_continue state h'
  else B_chunk_error h'.
Proof.
  intros Hb. unfold trailer_count, u64. unfold NXT_HTTP_TRAILER_MAX_SIZE in *.
  rewrite Z.mod_small by lia. simpl.
  destruct (Z.gtb_spec (chunk_size h + 1) 4096), (Z.ltb_spec (chunk_size h) 4096); try done; lia.
Qed.

(** How one framing byte leaves the machine. *)
Definition byte_post (h : chunk_parse) (r : byte_exit) : Prop :=
  match r with
  | B_continue state' h' => chunk_wf state' h' /\ no_flags h'
  | B_chunk_error h' => no_flags h'
  | B_done h' => h' = set_last h /\ hcp_trailer h = true
  end.

Lemma trailer_count_post state h :
  0 <= chunk_size h <= NXT_HTTP_TRAILER_MAX_SIZE -> hcp_trailer h = true -> no_flags h ->
  state = sw_chunk_end_newline \/ state = sw_trailer_name \/ state = sw_trailer_value \/
  state = sw_trailer_linefeed ->
  byte_post h (trailer_count state h).
Proof.
  intros Hb Ht Hf Hs. rewrite trailer_count_spec by done. cbn zeta.
  unfold NXT_HTTP_TRAILER_MAX_SIZE in *.
  destruct (Z.ltb_spec (chunk_size h) 4096); [|exact Hf]. split; [|exact Hf].
  unfold chunk_wf, NXT_HTTP_TRAILER_MAX_SIZE. simpl. split; [lia|].
  destruct Hs as [->|[->|[->| ->]]]; rewrite ?Ht; (split || intros _); (done || lia).
Qed.

Lemma chunk_digit_post h c :
  0 <= chunk_size h < 2 ^ 64 -> hcp_trailer h = false -> no_flags h -> 0 <= c < 16 ->
  byte_post h
    (if nxt_size_is_sufficient (chunk_size h) then
       B_continue sw_chunk_size (set_chunk_size (u64 (Z.shiftl (chunk_size h) 4 + c)) h)
     else B_chunk_error h).
Proof.
  intros Hs Ht Hf Hc. destruct (nxt_size_is_sufficient (chunk_size h)) eqn:E; [|exact Hf].
  destruct (shift_digit_bound (chunk_size h) c E) as [-> Hb]; [lia..|].
  split; [|exact Hf]. by split.
Qed.

(** Framing bytes keep the invariant. *)
Lemma chunk_byte_post state ch h :
  chunk_wf state h -> no_flags h -> state <> sw_chunk -> byte_post h (chunk_byte state ch h).
Proof.
  intros [Hs Hwf] Hf Hst.
  pose proof (u8_bound (ch - CH_0)). pose proof (u8_bound (Z.lor ch 32 - CH_a)).
  unfold chunk_byte. destruct state; simpl in Hwf; cbn zeta.
  - destruct (Z.leb_spec (u8 (ch - CH_0)) 9).
    { split; [|exact Hf]. split; [simpl; lia|exact Hwf]. }
    destruct (Z.leb_spec (u8 (Z.lor ch 32 - CH_a)) 5); [|exact Hf].
    split; [|exact Hf]. split; [simpl; lia|exact Hwf].
  - destruct (Z.gtb_spec (u8 (ch - CH_0)) 9); [|apply chunk_digit_post; (done || lia)].
    destruct (Z.leb_spec (u8 (Z.lor ch 32 - CH_a)) 5).
    { apply chunk_digit_post; try done. set (c := u8 (Z.lor ch 32 - CH_a)) in *.
      unfold u8. rewrite Z.mod_small; lia. }
    destruct (ch =? CR); [by split; [split|]|].
    destruct (ch =? SEMICOLON); [by split; [split|]|exact Hf].
  - by destruct (ch =? CR); split; [split| |split|].
  - destruct (ch =? LF); [|exact Hf].
    destruct (Z.eqb_spec (chunk_size h) 0) as [E|E]; simpl.
    + split; [|exact Hf]. unfold chunk_wf, NXT_HTTP_TRAILER_MAX_SIZE. simpl. lia.
    + split; [|exact Hf]. split; [done|]. split; [done|lia].
  - destruct (ch =? CR); [by split; [split|]|].
    destruct (hcp_trailer h) eqn:Ht; [|exact Hf]. destruct (negb _); [exact Hf|].
    apply trailer_count_post; auto. specialize (Hwf eq_refl). lia.
  - destruct (ch =? LF); [|exact Hf]. destruct (hcp_trailer h) eqn:Ht; simpl; [done|].
    by split; [split|].
  - done.
  - destruct (ch =? COLON); [|destruct (negb _); [exact Hf|]];
      apply trailer_count_post; (lia || tauto).
  - destruct (ch =? CR); [|destruct (_ && _); [exact Hf|]];
      apply trailer_count_post; (lia || tauto).
  - destruct (ch =? LF); [|exact Hf]. apply trailer_count_post; (lia || tauto).
Qed.

(** ** The reference machine on the state of the parser *)

(** The states in which [hcp->chunk_size] is a leftover of the last chunk. *)
Definition stale (s : chunk_state) (h : chunk_parse) : bool :=
  match s with
  | sw_start => true
  | sw_chunk_end_newline | sw_chunk_end_linefeed => negb (hcp_trailer h)
  | _ => false
  end.

(** The state the reference machine works on: the local variable [state] is in
    its place, the pool and a leftover size do not matter. *)
Definition at_state (h : chunk_parse) (s : chunk_state) : chunk_parse :=
  mk_hcp 0 (if stale s h then 0 else chunk_size h) s (hcp_last h) (hcp_trailer h)
    (chunk_error h) (hcp_error h) (retain_buffers h).

(** The switch looks neither at the pool, nor at [hcp->state], nor at a
    leftover size. *)
Lemma ref_step_at h s ch :
  s <> sw_chunk -> chunk_wf s h ->
  ref_step (at_state h s) ch =
  match chunk_byte s ch h with
  | B_continue s' h' => R_more (at_state h' s') []
  | B_chunk_error h' => R_stop (at_state (set_chunk_error h') s)
  | B_done h' => R_stop (at_state h' s)
  end.
Proof.
  intros Hs [_ Hwf]. unfold ref_step. destruct h as [mp n s0 l t ce e r].
  destruct s; [..|done| | |]; unfold at_state, chunk_byte, trailer_count, set_hcp_state,
    set_chunk_error, set_chunk_size, set_trailer, set_last, stale; simpl in *;
    destruct t; try (by destruct Hwf); simpl;
    split_ifs; done.
Qed.

Lemma ref_run_app h l1 l2 :
  ref_run h (l1 ++ l2) =
  match ref_run h l1 with
  | (h1, d1, None) => let '(h2, d2, r) := ref_run h1 l2 in (h2, d1 ++ d2, r)
  | (h1, d1, Some r) => (h1, d1, Some (r ++ l2))
  end.
Proof.
  revert h. induction l1 as [|ch l1 IH]; intros h; simpl.
  - by destruct (ref_run h l2) as [[? ?] ?].
  - destruct (ref_step h ch) as [h' d|h']; [|done]. rewrite IH.
    destruct (ref_run h' l1) as [[h1 d1] [r|]]; [done|].
    destruct (ref_run h1 l2) as [[h2 d2] r]. by rewrite app_assoc.
Qed.

(** The data of a chunk, or the part of it that is there. *)
Lemma ref_run_data h l :
  l <> [] -> Z.of_nat (length l) <= chunk_size h ->
  ref_run (at_state h sw_chunk) l =
  (at_state (set_chunk_size (chunk_size h - Z.of_nat (length l)) h)
     (if chunk_size h =? Z.of_nat (length l) then sw_chunk_end_newline else sw_chunk),
   l, None).
Proof.
  revert h. induction l as [|ch l IH]; intros h Hne Hlen; [done|]. cbn [length] in *.
  cbn [ref_run]. unfold ref_step. cbn [hcp_state at_state chunk_size stale].
  destruct (Z.eqb_spec (chunk_size h - 1) 0) as [E|E].
  - destruct l; [|cbn [length] in *; lia]. cbn [length ref_run].
    destruct (Z.eqb_spec (chunk_size h) (Z.of_nat 1)); [|lia].
    change (Z.of_nat 1) with 1. rewrite E. unfold at_state, set_hcp_state, set_chunk_size.
    simpl. by destruct (hcp_trailer h).
  - destruct l as [|c l].
    + cbn [length ref_run]. by destruct (Z.eqb_spec (chunk_size h) (Z.of_nat 1)); [lia|].
    + specialize (IH (set_chunk_size (chunk_size h - 1) h) ltac:(done)).
      change (set_hcp_state sw_chunk (set_chunk_size (chunk_size h - 1) (at_state h sw_chunk)))
        with (at_state (set_chunk_size (chunk_size h - 1) h) sw_chunk).
      rewrite IH by (cbn [length chunk_size set_chunk_size] in *; lia).
      cbn [length chunk_size set_chunk_size]. simpl app.
      replace (chunk_size h - Z.of_nat (S (S (length l))))
        with (chunk_size h - 1 - Z.of_nat (S (length l))) by lia.
      destruct (Z.eqb_spec (chunk_size h - 1) (Z.of_nat (S (length l)))),
        (Z.eqb_spec (chunk_size h) (Z.of_nat (S (S (length l))))); (done || lia).
Qed.

(** ** One buffer *)

Definition slice_data (mem : list Z) (s : slice) : list Z :=
  take (sl_free s - sl_pos s) (drop (sl_pos s) mem).

Definition slice_in (idx : nat) (b : in_buf) (s : slice) : Prop :=
  sl_parent s = idx /\ (sl_pos s <= sl_free s <= length (ib_mem b))%nat.

(** The references the slices hold on their parent. *)
Definition retains (h : chunk_parse) (ss : list slice) : nat :=
  if retain_buffers h then 0 else length ss.

(** A pass over a buffer: its slices, the references they hold, and, unless an
    allocation failed, what the reference machine does on the same bytes. *)
Definition buf_post (alloc : nat -> bool) (idx : nat) (state : chunk_state) (h : chunk_parse) (b : in_buf)
    (e : buf_exit) (h' : chunk_parse) (b' : in_buf) (ss : list slice) : Prop :=
  ib_mem b' = ib_mem b /\ (ib_pos b <= ib_pos b' <= length (ib_mem b))%nat /\
  Forall (slice_in idx b) ss /\ ib_retain b' = (ib_retain b + retains h ss)%nat /\
  retain_buffers h' = retain_buffers h /\ hcp_state h' = hcp_state h /\
  (forall s, e = L_next s -> ss <> []) /\
  (hcp_error h' = true -> e = L_stop /\ exists n, alloc n = false) /\
  (hcp_error h' = false ->
   exists ds, ds = concat (map (slice_data (ib_mem b)) ss) /\
   match e with
   | L_next s | L_end s =>
       ref_run (at_state h state) (drop (ib_pos b) (ib_mem b)) = (at_state h' s, ds, None) /\
       chunk_wf s h' /\ no_flags h'
   | L_stop =>
       exists s, ref_run (at_state h state) (drop (ib_pos b) (ib_mem b)) =
                 (at_state h' s, ds, Some (drop (ib_pos b') (ib_mem b)))
   end).

(** The switch touches neither [hcp->state] nor [retain_buffers]. *)
Definition exit_parse (r : byte_exit) : chunk_parse :=
  match r with
  | B_continue _ h | B_chunk_error h | B_done h => h
  end.

Lemma chunk_byte_frame s ch h :
  retain_buffers (exit_parse (chunk_byte s ch h)) = retain_buffers h /\
  hcp_state (exit_parse (chunk_byte s ch h)) = hcp_state h.
Proof. unfold chunk_byte, trailer_count. destruct s; simpl; repeat case_match; done. Qed.

Section Buffer.
Variable alloc : nat -> bool.

Lemma chunk_buffer_spec idx h b o :
  (ib_pos b < length (ib_mem b))%nat -> chunk_wf sw_chunk h -> no_flags h ->
  let n := (length (ib_mem b) - ib_pos b)%nat in
  exists h' b' ss rc,
    nxt_http_chunk_buffer alloc idx h b o =
      (rc, h', b', mk_out (out_slices o ++ ss) (out_completed o)) /\
    match rc with
    | CHUNK_NXT_ERROR =>
        h' = use_alloc h /\ b' = b /\ ss = [] /\ alloc (hcp_pool h) = false
    | NXT_HTTP_CHUNK_END =>
        let q := (ib_pos b + Z.to_nat (chunk_size h))%nat in
        chunk_size h < Z.of_nat n /\ h' = use_alloc h /\ ss = [mk_slice idx (ib_pos b) q] /\
        b' = mk_ib (ib_mem b) q (ib_retain b + retains h ss)
    | _ =>
        Z.of_nat n <= chunk_size h /\
        h' = use_alloc (set_chunk_size (chunk_size h - Z.of_nat n) h) /\
        ss = [mk_slice idx (ib_pos b) (length (ib_mem b))] /\
        ib_mem b' = ib_mem b /\ ib_retain b' = (ib_retain b + retains h ss)%nat /\
        (ib_pos b <= ib_pos b' <= length (ib_mem b))%nat /\
        (rc = NXT_HTTP_CHUNK_END_ON_BORDER <-> chunk_size h = Z.of_nat n)
    end.
Proof.
  intros Hp [Hs [_ Hpos]] Hf n. unfold nxt_http_chunk_buffer, retains, add_slice. cbn zeta.
  fold n. cbn [chunk_size use_alloc retain_buffers].
  destruct (alloc (hcp_pool h)) eqn:Ha; simpl negb; cbv iota.
  - assert (Hr : forall s : slice, (if retain_buffers h then ib_retain b else S (ib_retain b)) =
      (ib_retain b + (if retain_buffers h then 0 else length [s]))%nat)
      by (intros; simpl; case_match; lia).
    destruct (Z.ltb_spec (chunk_size h) (Z.of_nat n)).
    + eexists _, _, _, _. split; [done|]. cbv beta iota zeta. split_and!; [done..|].
      f_equal. exact (Hr (mk_slice 0 0 0)).
    + cbn [chunk_size set_chunk_size].
      destruct (Z.eqb_spec (chunk_size h - Z.of_nat n) 0); eexists _, _, _, _;
        (split; [done|]); cbv beta iota zeta; cbn [ib_mem ib_pos ib_retain]; split_and!;
        try done; try exact (Hr (mk_slice 0 0 0)); try lia; split; (done || lia).
  - eexists _, _, [], _. split; [by rewrite app_nil_r; destruct o|]. done.
Qed.

(** Going on after a framing byte that was read at [ib_pos b]. *)
Lemma buf_post_step idx state state' h h1 b e h' b' ss ch :
  ib_mem b !! ib_pos b = Some ch -> state <> sw_chunk -> chunk_wf state h ->
  chunk_byte state ch h = B_continue state' h1 ->
  buf_post alloc idx state' h1 (mk_ib (ib_mem b) (S (ib_pos b)) (ib_retain b)) e h' b' ss ->
  buf_post alloc idx state h b e h' b' ss.
Proof.
  intros Hch Hst Hwf Hb (Hm & Hp & Hss & Hr & Hrb & Hs & Hn & He & Href). cbn [ib_mem ib_pos ib_retain] in *.
  destruct (chunk_byte_frame state ch h) as [Hfr Hfs]. rewrite Hb in Hfr, Hfs. simpl in Hfr, Hfs.
  split_and!; try done; [lia|lia|by rewrite Hr; unfold retains; rewrite Hfr|congruence|congruence|].
  intros Herr. destruct (Href Herr) as (ds & -> & Hd). eexists. split; [done|].
  rewrite (drop_lookup_cons _ _ _ Hch). cbn [ref_run]. rewrite ref_step_at, Hb by done.
  destruct e; cbn [app].
  - destruct Hd as [-> ?]. done.
  - destruct Hd as [-> ?]. done.
  - destruct Hd as [s0 ->]. by exists s0.
Qed.

End Buffer.

Definition with_slices (o : produced) (ss : list slice) : produced :=
  mk_out (out_slices o ++ ss) (out_completed o).

Lemma with_slices_nil o : with_slices o [] = o.
Proof. unfold with_slices. rewrite app_nil_r. by destruct o. Qed.

Definition buf_ok (alloc : nat -> bool) (idx : nat) (state : chunk_state) (h : chunk_parse) (b : in_buf)
    (o : produced) (r : outcome (buf_exit * chunk_parse * in_buf * produced)) : Prop :=
  exists e h' b' ss,
    r = Ret (e, h', b', with_slices o ss) /\ buf_post alloc idx state h b e h' b' ss.

(** One framing byte, followed by what [k] does. *)
Lemma next_byte_ok alloc idx state h b o k :
  (ib_pos b < length (ib_mem b))%nat -> state <> sw_chunk ->
  chunk_wf state h -> no_flags h ->
  (forall state' h', chunk_wf state' h' -> no_flags h' ->
     let b' := mk_ib (ib_mem b) (S (ib_pos b)) (ib_retain b) in
     buf_ok alloc idx state' h' b' o (k state' h' b')) ->
  buf_ok alloc idx state h b o (next_byte state h b o k).
Proof.
  intros Hp Hst Hwf Hf Hk. unfold next_byte.
  destruct (lookup_lt_is_Some_2 (ib_mem b) (ib_pos b) Hp) as [ch Hch]. rewrite Hch.
  cbn [of_option obind]. pose proof (chunk_byte_post state ch h Hwf Hf Hst) as Hpost.
  destruct (chunk_byte_frame state ch h) as [Hfr Hfs].
  destruct (chunk_byte state ch h) as [s' h'|h'|h'] eqn:E; simpl in Hfr, Hfs.
  - destruct Hpost as [Hwf' Hf']. destruct (Hk s' h' Hwf' Hf') as (e & h2 & b2 & ss & -> & Hb).
    exists e, h2, b2, ss. split; [done|]. by apply (buf_post_step _ _ _ s' _ h' _ _ _ _ _ ch).
  - clear Hf. rename Hpost into Hf. simpl in Hf.
    exists L_stop, (set_chunk_error h'), (mk_ib (ib_mem b) (S (ib_pos b)) (ib_retain b)), [].
    rewrite with_slices_nil. split; [done|]. unfold buf_post, retains. cbn [ib_mem ib_pos ib_retain].
    split_and!; try done; try lia; [by case_match; simpl; lia|
      by intros He; destruct Hf as (_ & _ & Hf); simpl in He; rewrite Hf in He|].
    intros _. eexists. split; [done|]. exists state. rewrite (drop_lookup_cons _ _ _ Hch).
    cbn [ref_run]. by rewrite ref_step_at, E.
  - exists L_stop, h', (mk_ib (ib_mem b) (S (ib_pos b)) (ib_retain b)), []. destruct Hpost as [-> _].
    rewrite with_slices_nil. split; [done|]. unfold buf_post, retains. cbn [ib_mem ib_pos ib_retain].
    split_and!; try done; try lia; [by case_match; simpl; lia|
      by intros He; destruct Hf as (_ & _ & Hf); simpl in He; rewrite Hf in He|].
    intros _. eexists. split; [done|]. exists state. rewrite (drop_lookup_cons _ _ _ Hch).
    cbn [ref_run]. by rewrite ref_step_at, E.
Qed.

Section Loop.
Variable alloc : nat -> bool.

(** A complete chunk in the middle of a buffer, and what follows it. *)
Lemma buf_post_chunk idx h b e h' b' ss :
  (ib_pos b < length (ib_mem b))%nat -> chunk_wf sw_chunk h -> no_flags h ->
  let n := Z.to_nat (chunk_size h) in
  let q := (ib_pos b + n)%nat in
  let s := mk_slice idx (ib_pos b) q in
  chunk_size h < Z.of_nat (length (ib_mem b) - ib_pos b) ->
  buf_post alloc idx sw_chunk_end_newline (use_alloc h)
    (mk_ib (ib_mem b) q (ib_retain b + retains h [s])) e h' b' ss ->
  buf_post alloc idx sw_chunk h b e h' b' (s :: ss).
Proof.
  intros Hp [Hs [Htr Hpos]] Hf n q s Hlt (Hm & Hpp & Hss & Hr & Hrb & Hst & Hn & He & Href).
  cbn [ib_mem ib_pos ib_retain] in *. subst n.
  assert (Hq : (ib_pos b <= q <= length (ib_mem b))%nat) by (unfold q; lia).
  split_and!; try done; try lia.
  - by apply Forall_cons_2.
  - rewrite Hr. unfold retains. cbn [use_alloc retain_buffers].
    destruct (retain_buffers h); simpl; lia.
  - intros Herr. destruct (Href Herr) as (ds & -> & Hd). eexists. split; [done|]. cbn [map concat].
    assert (Hsd : slice_data (ib_mem b) s = take (q - ib_pos b) (drop (ib_pos b) (ib_mem b))) by done.
    assert (Hsplit : drop (ib_pos b) (ib_mem b) = slice_data (ib_mem b) s ++ drop q (ib_mem b)).
    { rewrite Hsd. replace (drop q (ib_mem b)) with (drop (q - ib_pos b) (drop (ib_pos b) (ib_mem b)))
        by (rewrite drop_drop; f_equal; lia). by rewrite take_drop. }
    assert (Hl : length (slice_data (ib_mem b) s) = Z.to_nat (chunk_size h)).
    { rewrite Hsd, length_take, length_drop. unfold q. lia. }
    assert (Hrun : ref_run (at_state h sw_chunk) (slice_data (ib_mem b) s) =
      (at_state (use_alloc h) sw_chunk_end_newline, slice_data (ib_mem b) s, None)).
    { rewrite ref_run_data; [|by intros E; rewrite E in Hl; simpl in Hl; lia|lia].
      rewrite Hl, Z2Nat.id, Z.eqb_refl by lia. unfold at_state. simpl. by rewrite Htr. }
    rewrite Hsplit, ref_run_app, Hrun.
    destruct e; [destruct Hd as [-> ?]; done..|]. destruct Hd as [s0 ->]. by exists s0.
Qed.

(** The part of a chunk that fills the rest of a buffer. *)
Lemma buf_post_part idx h b h' b' s :
  (ib_pos b < length (ib_mem b))%nat -> chunk_wf sw_chunk h -> no_flags h ->
  let n := Z.of_nat (length (ib_mem b) - ib_pos b) in
  let ss := [mk_slice idx (ib_pos b) (length (ib_mem b))] in
  n <= chunk_size h -> h' = use_alloc (set_chunk_size (chunk_size h - n) h) ->
  s = (if chunk_size h =? n then sw_chunk_end_newline else sw_chunk) ->
  ib_mem b' = ib_mem b -> ib_retain b' = (ib_retain b + retains h ss)%nat ->
  (ib_pos b <= ib_pos b' <= length (ib_mem b))%nat ->
  buf_post alloc idx sw_chunk h b (L_next s) h' b' ss.
Proof.
  intros Hp [Hs [Htr Hpos]] Hf n ss Hn -> -> Hm Hr Hb.
  split_and!; try done; try lia; [by apply Forall_singleton; split; simpl; lia|
    by intros He; destruct Hf as (_ & _ & Hf); simpl in He; rewrite Hf in He|].
  intros _. eexists. split; [done|].
  assert (Hd : concat (map (slice_data (ib_mem b)) ss) = drop (ib_pos b) (ib_mem b)).
  { simpl. rewrite app_nil_r. unfold slice_data. simpl. by rewrite <- length_drop, firstn_all. }
  rewrite Hd. pose proof (length_drop (ib_mem b) (ib_pos b)) as Hl. split.
  - rewrite ref_run_data; rewrite ?Hl; fold n; [|by intros E; rewrite E in Hl; simpl in Hl; lia|done].
    done.
  - split; [|exact Hf]. unfold chunk_wf. cbn [chunk_size set_chunk_size use_alloc hcp_trailer].
    split; [lia|]. destruct (Z.eqb_spec (chunk_size h) n); rewrite Htr; [done|]. split; [done|lia].
Qed.

Lemma buf_loop_ok fuel idx state h b o :
  (ib_pos b <= length (ib_mem b))%nat -> (length (ib_mem b) - ib_pos b < fuel)%nat ->
  chunk_wf state h -> no_flags h ->
  buf_ok alloc idx state h b o (buf_loop alloc fuel idx state h b o).
Proof.
  revert state h b o. induction fuel as [|fuel IH]; intros state h b o Hp Hf Hwf Hfl; [lia|].
  cbn [buf_loop]. destruct (Nat.ltb_spec (ib_pos b) (length (ib_mem b))) as [Hlt|Hge].
  2: { exists (L_end state), h, b, []. rewrite with_slices_nil. split; [done|].
       unfold buf_post, retains. split_and!; try done; [by case_match; simpl; lia|
         by intros He; destruct Hfl as (_ & _ & Hfl); rewrite Hfl in He|].
       intros _. eexists. split; [done|]. rewrite drop_ge by lia. done. }
  destruct (decide (state = sw_chunk)) as [->|Hne]; 
    [|apply next_byte_ok; try done; intros; apply IH; simpl; (done || lia)].
  destruct (chunk_buffer_spec alloc idx h b o Hlt Hwf Hfl) as (h1 & b1 & ss & rc & -> & Hrc).
  destruct rc.
  - destruct Hrc as (Hn & Hh1 & -> & Hm & Hr & Hb & Hbd). eexists _, _, _, _. split; [done|].
    apply buf_post_part; try done. destruct (Z.eqb_spec (chunk_size h)
      (Z.of_nat (length (ib_mem b) - ib_pos b))) as [E|]; [|done]. by apply Hbd in E.
  - destruct Hrc as (Hn & Hh1 & -> & Hm & Hr & Hb & Hbd). eexists _, _, _, _. split; [done|].
    apply buf_post_part; try done. by rewrite (proj1 Hbd eq_refl), Z.eqb_refl.
  - destruct Hrc as (Hn & -> & -> & ->). cbn zeta in *. set (q := (_ + Z.to_nat _)%nat) in *.
    set (sl := mk_slice idx (ib_pos b) q) in *.
    pose proof Hwf as [Hs [Htr Hpos]]. set (b2 := mk_ib (ib_mem b) q _).
    destruct (next_byte_ok alloc idx sw_chunk_end_newline (use_alloc h) b2 (with_slices o [sl])
      (fun state h b => buf_loop alloc fuel idx state h b (with_slices o [sl])))
      as (e & h' & b' & ss & E & Hpost); try done.
    + simpl. lia.
    + split; [done|]. simpl. by rewrite Htr.
    + intros. apply IH; simpl; (done || lia).
    + exists e, h', b', (sl :: ss). split.
      * etrans; [exact E|]. unfold with_slices. simpl. by rewrite <- app_assoc.
      * by apply buf_post_chunk.
  - destruct Hrc as (-> & -> & -> & Ha). exists L_stop, (set_error (use_alloc h)), b, [].
    split; [done|]. unfold buf_post, retains. split_and!; try done; [by case_match; simpl; lia|eauto].
Qed.

End Loop.

(** ** A chain of buffers *)

Definition unread (bs : list in_buf) : list Z :=
  concat (map (fun b => drop (ib_pos b) (ib_mem b)) bs).

(** The data the slices stand for; [bs] starts at place [idx] of the chain. *)
Definition chain_data (idx : nat) (bs : list in_buf) (ss : list slice) : list Z :=
  concat (map (fun s => match bs !! (sl_parent s - idx)%nat with
                        | Some b => slice_data (ib_mem b) s
                        | None => []
                        end) ss).

Definition bufs_wf (bs : list in_buf) : Prop :=
  Forall (fun b => (ib_pos b <= length (ib_mem b))%nat) bs.

(** The slices that point into the buffer at place [i]. *)
Definition slices_of (i : nat) (ss : list slice) : list slice :=
  List.filter (fun s => (sl_parent s =? i)%nat) ss.

(** The buffers nobody holds a reference to. *)
Fixpoint unretained (idx : nat) (bs : list in_buf) : list nat :=
  match bs with
  | [] => []
  | b :: bs' => (if (ib_retain b =? 0)%nat then [idx] else []) ++ unretained (S idx) bs'
  end.

(** The buffers of the chain after a call: same bytes, and a reference for
    every slice. *)
Fixpoint bufs_after (idx : nat) (rb : bool) (ss : list slice) (bs bs' : list in_buf) : Prop :=
  match bs, bs' with
  | [], [] => True
  | b :: bs, b' :: bs' =>
      ib_mem b' = ib_mem b /\ (ib_pos b <= ib_pos b' <= length (ib_mem b))%nat /\
      ib_retain b' = (ib_retain b + (if rb then 0 else length (slices_of idx ss)))%nat /\
      bufs_after (S idx) rb ss bs bs'
  | _, _ => False
  end.

Definition slice_ok (idx : nat) (bs : list in_buf) (s : slice) : Prop :=
  exists b, bs !! (sl_parent s - idx)%nat = Some b /\ (idx <= sl_parent s)%nat /\
    (sl_pos s <= sl_free s <= length (ib_mem b))%nat.

(** What the reference machine says about a call. *)
Definition ref_agrees (idx : nat) (state : chunk_state) (h : chunk_parse) (bs : list in_buf)
    (h' : chunk_parse) (bs' : list in_buf) (ss : list slice) : Prop :=
  match ref_run (at_state h state) (unread bs) with
  | (hr, ds, None) =>
      hr = at_state h' (hcp_state h') /\ ds = chain_data idx bs ss /\
      chunk_wf (hcp_state h') h' /\ no_flags h'
  | (hr, ds, Some rest) =>
      ds = chain_data idx bs ss /\ (exists s, hr = at_state h' s) /\ 
      hcp_state h' = hcp_state h /\
      exists i b', bs' !! i = Some b' /\
        rest = drop (ib_pos b') (ib_mem b') ++ unread (drop (S i) bs)
  end.

Lemma chain_data_app idx bs ss1 ss2 :
  chain_data idx bs (ss1 ++ ss2) = chain_data idx bs ss1 ++ chain_data idx bs ss2.
Proof. unfold chain_data. by rewrite map_app, concat_app. Qed.

Lemma chain_data_head idx b bs ss :
  Forall (slice_in idx b) ss ->
  chain_data idx (b :: bs) ss = concat (map (slice_data (ib_mem b)) ss).
Proof.
  intros H. unfold chain_data. induction H as [|s ss [Hs _] _ IH]; [done|].
  simpl. by rewrite IH, Hs, Nat.sub_diag.
Qed.

Lemma chain_data_tail idx b bs ss :
  Forall (slice_ok (S idx) bs) ss -> chain_data idx (b :: bs) ss = chain_data (S idx) bs ss.
Proof.
  intros H. unfold chain_data. induction H as [|s ss (b' & _ & Hle & _) _ IH]; [done|].
  simpl. rewrite IH. by replace (sl_parent s - idx)%nat with (S (sl_parent s - S idx)) by lia.
Qed.

Lemma slices_of_app i ss1 ss2 : slices_of i (ss1 ++ ss2) = slices_of i ss1 ++ slices_of i ss2.
Proof. unfold slices_of. apply List.filter_app. Qed.

Lemma slices_of_all i ss : Forall (fun s => sl_parent s = i) ss -> slices_of i ss = ss.
Proof.
  induction 1 as [|s ss Hs _ IH]; [done|]. unfold slices_of in *. simpl.
  rewrite (proj2 (Nat.eqb_eq _ _) Hs). by rewrite IH.
Qed.

Lemma slices_of_none i ss : Forall (fun s => sl_parent s <> i) ss -> slices_of i ss = [].
Proof.
  induction 1 as [|s ss Hs _ IH]; [done|]. unfold slices_of in *. simpl.
  by rewrite (proj2 (Nat.eqb_neq _ _) Hs).
Qed.

(** Slices of earlier buffers do not count. *)
Lemma bufs_after_more idx rb ss0 ss bs bs' :
  Forall (fun s => sl_parent s < idx)%nat ss0 ->
  bufs_after idx rb ss bs bs' -> bufs_after idx rb (ss0 ++ ss) bs bs'.
Proof.
  intros H0. revert idx bs' H0. induction bs as [|b bs IH]; intros idx [|b' bs'] H0 H; try done.
  simpl in *. destruct H as (Hm & Hp & Hr & H). split_and!; [done|lia|lia| |].
  - rewrite slices_of_app, (slices_of_none idx ss0); [done|].
    apply (Forall_impl _ _ _ H0). lia.
  - apply IH; [|done]. apply (Forall_impl _ _ _ H0). lia.
Qed.

Lemma bufs_after_refl idx rb ss bs :
  bufs_wf bs -> Forall (fun s => sl_parent s < idx)%nat ss -> bufs_after idx rb ss bs bs.
Proof.
  revert idx. induction bs as [|b bs IH]; intros idx Hb Hs; simpl; [done|].
  apply Forall_cons in Hb as [Hb Hbs]. split_and!; [done|lia|lia| |].
  - rewrite (slices_of_none idx ss); [by destruct rb; simpl; lia|]. apply (Forall_impl _ _ _ Hs). lia.
  - apply IH; [done|]. apply (Forall_impl _ _ _ Hs). lia.
Qed.

Lemma slice_in_ok idx b bs ss : Forall (slice_in idx b) ss -> Forall (slice_ok idx (b :: bs)) ss.
Proof.
  intros H. apply (Forall_impl _ _ _ H). intros s [Hs Hr]. exists b.
  rewrite Hs, Nat.sub_diag. split_and!; [done|lia|lia|lia].
Qed.

Lemma slice_ok_cons idx b bs ss :
  Forall (slice_ok (S idx) bs) ss -> Forall (slice_ok idx (b :: bs)) ss.
Proof.
  intros H. apply (Forall_impl _ _ _ H). intros s (b' & Hb & Hle & Hr). exists b'.
  replace (sl_parent s - idx)%nat with (S (sl_parent s - S idx)) by lia. split_and!; [done|lia..].
Qed.

Lemma complete_all_spec idx h bs :
  complete_all idx h bs = mk_out [] (if retain_buffers h then [] else unretained idx bs).
Proof.
  revert idx. induction bs as [|b bs IH]; intros idx; simpl; [by destruct (retain_buffers h)|].
  rewrite IH. unfold complete, add_output. simpl.
  by destruct (retain_buffers h), (ib_retain b =? 0)%nat.
Qed.

Definition chain_post (alloc : nat -> bool) (idx : nat) (state : chunk_state) (h : chunk_parse)
    (bs : list in_buf) (h' : chunk_parse) (bs' : list in_buf) (o : produced) : Prop :=
  bufs_after idx (retain_buffers h) (out_slices o) bs bs' /\
  Forall (slice_ok idx bs) (out_slices o) /\
  out_completed o = (if retain_buffers h then [] else unretained idx bs') /\
  retain_buffers h' = retain_buffers h /\
  (hcp_error h' = true -> exists n, alloc n = false) /\
  (hcp_error h' = false -> ref_agrees idx state h bs h' bs' (out_slices o)).

Lemma slice_in_lt idx b ss : Forall (slice_in idx b) ss -> Forall (fun s => sl_parent s < S idx)%nat ss.
Proof. intros H. apply (Forall_impl _ _ _ H). intros s [-> _]. lia. Qed.

(** The head of the chain, then its slices with those of the rest. *)
Lemma bufs_after_cons idx h b b1 bs bs' ss ss' :
  ib_mem b1 = ib_mem b -> (ib_pos b <= ib_pos b1 <= length (ib_mem b))%nat ->
  ib_retain b1 = (ib_retain b + retains h ss)%nat ->
  Forall (slice_in idx b) ss -> Forall (slice_ok (S idx) bs) ss' ->
  bufs_after (S idx) (retain_buffers h) ss' bs bs' ->
  bufs_after idx (retain_buffers h) (ss ++ ss') (b :: bs) (b1 :: bs').
Proof.
  intros Hm Hp Hr Hss Hss' Ha. simpl. split_and!; [done|lia|lia| |].
  - rewrite Hr, slices_of_app, (slices_of_all idx ss), (slices_of_none idx ss'), app_nil_r; [done|..].
    + apply (Forall_impl _ _ _ Hss'). intros s (? & _ & ? & _). lia.
    + apply (Forall_impl _ _ _ Hss). by intros s [? _].
  - apply bufs_after_more; [|done]. by apply (slice_in_lt _ b).
Qed.

Lemma chain_post_cons alloc idx state h b e h1 b1 ss s bs h' bs' o' :
  buf_post alloc idx state h b e h1 b1 ss -> e = L_next s \/ e = L_end s ->
  chain_post alloc (S idx) s h1 bs h' bs' o' ->
  chain_post alloc idx state h (b :: bs) h' (b1 :: bs')
    (mk_out (ss ++ out_slices o')
       ((if (ib_retain b1 =? 0)%nat && negb (retain_buffers h1) then [idx] else [])
        ++ out_completed o')).
Proof.
  intros (Hm & Hp & Hss & Hr & Hrb & Hst & Hn & He & Href) Hes (Ha & Hok & Hc & Hrb' & He' & Href').
  unfold chain_post. cbn [out_slices out_completed]. rewrite Hrb in *.
  split; [by apply bufs_after_cons|]. split; [|split; [|split; [done|split; [done|]]]].
  - apply Forall_app_2; [by apply slice_in_ok|by apply slice_ok_cons].
  - rewrite Hc. simpl. by destruct (retain_buffers h), (ib_retain b1 =? 0)%nat.
  - intros Herr. specialize (Href' Herr).
    assert (Herr1 : hcp_error h1 = false).
    { destruct (hcp_error h1) eqn:E; [|done]. destruct (He eq_refl) as [-> _]. by destruct Hes. }
    destruct (Href Herr1) as (ds & -> & Hd).
    assert (ref_run (at_state h state) (drop (ib_pos b) (ib_mem b)) =
      (at_state h1 s, concat (map (slice_data (ib_mem b)) ss), None)) as Hrun
      by (by destruct Hes as [-> | ->]; destruct Hd as [Hd _]).
    unfold ref_agrees, unread in *. simpl map. simpl concat. rewrite ref_run_app, Hrun.
    destruct (ref_run (at_state h1 s) _) as [[hr ds] [rest|]];
      rewrite chain_data_app, (chain_data_head idx b bs ss Hss), (chain_data_tail idx b bs _ Hok).
    + destruct Href' as (-> & Hs & Hst' & i & b' & Hb' & Hrest). split_and!; try done; [congruence|].
      by exists (S i), b'.
    + destruct Href' as (-> & -> & ?). done.
Qed.

Lemma parse_bufs_ok alloc idx state h bs :
  bufs_wf bs -> chunk_wf state h -> no_flags h ->
  exists h' bs' o,
    parse_bufs alloc idx state h bs = Ret (h', bs', o) /\
    chain_post alloc idx state h bs h' bs' o.
Proof.
  revert idx state h. induction bs as [|b bs IH]; intros idx state h Hb Hwf Hf; cbn [parse_bufs].
  { eexists _, _, _. split; [done|]. split_and!; try done.
    - by destruct (retain_buffers h).
    - intros He. destruct Hf as (_ & _ & Hf). simpl in He. by rewrite Hf in He. }
  apply Forall_cons in Hb as [Hbp Hbs].
  destruct (buf_loop_ok alloc (S (length (ib_mem b))) idx state h b no_output)
    as (e & h1 & b1 & ss & -> & Hpost); [done|lia|done..|]. cbn [obind].
  assert (Hgo : forall s, e = L_next s \/ e = L_end s ->
    exists h' bs' o', parse_bufs alloc (S idx) s h1 bs = Ret (h', bs', o') /\
      chain_post alloc (S idx) s h1 bs h' bs' o').
  { intros s Hes. destruct Hpost as (_ & _ & _ & _ & _ & _ & _ & He & Href).
    assert (hcp_error h1 = false) as Herr.
    { destruct (hcp_error h1) eqn:E; [|done]. destruct (He eq_refl) as [-> _]. by destruct Hes. }
    destruct (Href Herr) as (ds & _ & Hd). by apply IH; destruct Hes as [-> | ->]; try apply Hd. }
  destruct e as [s|s|].
  - destruct (Hgo s) as (h' & bs' & o' & -> & Hc); [by left|]. cbn [obind].
    eexists _, _, _. split; [done|].
    pose proof (chain_post_cons _ _ _ _ _ _ _ _ _ s _ _ _ _ Hpost ltac:(by left) Hc) as Hcons.
    destruct Hpost as (_ & _ & _ & Hr & Hrb & _ & Hn & _).
    replace (add_output (with_slices no_output ss) o')
      with (mk_out (ss ++ out_slices o') (out_completed o')) by done.
    destruct (retain_buffers h1) eqn:Erb.
    + by rewrite andb_false_r in Hcons.
    + assert (ib_retain b1 <> 0%nat) as Hne.
      { rewrite Hr. unfold retains. rewrite <- Hrb. specialize (Hn s eq_refl).
        destruct ss; [done|]. simpl. lia. }
      by rewrite (proj2 (Nat.eqb_neq _ _) Hne) in Hcons.
  - destruct (Hgo s) as (h' & bs' & o' & -> & Hc); [by right|]. cbn [obind].
    eexists _, _, _. split; [done|].
    pose proof (chain_post_cons _ _ _ _ _ _ _ _ _ s _ _ _ _ Hpost ltac:(by right) Hc) as Hcons.
    unfold add_output, complete, with_slices. cbn [out_slices out_completed no_output app].
    by rewrite app_nil_r.
  - eexists _, _, _. split; [done|]. rewrite complete_all_spec.
    destruct Hpost as (Hm & Hp & Hss & Hr & Hrb & Hst & _ & He & Href).
    unfold add_output, with_slices. unfold chain_post. cbn [out_slices out_completed no_output app].
    rewrite app_nil_r, Hrb. split_and!; try done.
    + rewrite <- (app_nil_r ss). apply bufs_after_cons; try done. by apply bufs_after_refl.
    + by apply slice_in_ok.
    + intros Herr. by destruct (He Herr).
    + intros Herr. destruct (Href Herr) as (ds & -> & s & Hrun).
      unfold ref_agrees, unread. simpl map. simpl concat. rewrite ref_run_app, Hrun.
      rewrite chain_data_head by done. split_and!; [done|by exists s|done|].
      exists 0%nat, b1. simpl. by rewrite Hm, drop_0.
Qed.
