(* ===== verification/ChunkBody.v ===== *)
(** * Chunked bodies: any cutting of the input, and the grammar

    The callers of [nxt_http_chunk_parse()] hand it buffers as they arrive.
    This file runs sequences of calls, states the grammar of a chunked body
    (size lines with extensions, data, a bounded trailer section) and proves
    that the parser decodes exactly that, refuses sizes beyond 64 bits, and
    accounts for every buffer reference. *)

From S2P Require Import Prelude Chunk.

(** ** Calls *)

(** The loop of a caller that hands over buffers as they arrive and stops at the
    end of the body or at an error. *)
Fixpoint parse_calls (alloc : nat -> bool) (h : chunk_parse) (calls : list (list in_buf))
  : outcome (chunk_parse * list Z) :=
  match calls with
  | [] => Ret (h, [])
  | bs :: calls' =>
      let* (h1, _, o) := nxt_http_chunk_parse alloc h bs in
      let d := chain_data 0 bs (out_slices o) in
      if hcp_last h1 || chunk_error h1 || hcp_error h1 then Ret (h1, d)
      else
        let* (h2, d2) := parse_calls alloc h1 calls' in Ret (h2, d ++ d2)
  end.

Definition chunk_init (retain : bool) : chunk_parse :=
  mk_hcp 0 0 sw_start false false false false retain.

Lemma chunk_byte_flags s ch h :
  match chunk_byte s ch h with
  | B_done h' => hcp_last h' = true
  | _ => True
  end.
Proof. unfold chunk_byte, trailer_count. destruct s; simpl; split_ifs; done. Qed.

(** The machine stops only at the end of the body or at an error. *)
Lemma ref_run_stop h l h' d r :
  ref_run h l = (h', d, Some r) -> hcp_last h' || chunk_error h' = true.
Proof.
  revert h d. induction l as [|ch l IH]; intros h d H; simpl in H; [done|].
  destruct (ref_step h ch) as [h1 d1|h1] eqn:E.
  - destruct (ref_run h1 l) as [[h2 d2] r2] eqn:E2. simplify_eq. by apply (IH h1 d2).
  - simplify_eq. unfold ref_step in E. pose proof (chunk_byte_flags (hcp_state h) ch h) as Hl.
    destruct (hcp_state h); try done; destruct (chunk_byte _ ch h); simplify_eq; simpl;
      rewrite ?orb_true_r, ?Hl; done.
Qed.

Lemma parse_calls_ref alloc h calls :
  (forall n, alloc n = true) -> Forall bufs_wf calls -> chunk_wf (hcp_state h) h -> no_flags h ->
  exists h' d s r,
    parse_calls alloc h calls = Ret (h', d) /\ hcp_error h' = false /\
    ref_run (at_state h (hcp_state h)) (concat (map unread calls)) = (at_state h' s, d, r) /\
    (r = None -> s = hcp_state h').
Proof.
  intros Ha Hc. revert h. induction Hc as [|bs calls Hb Hc IH]; intros h Hwf Hf.
  { eexists _, _, _, _. split_and!; [done|by destruct Hf as (_ & _ & ?)|done..]. }
  cbn [parse_calls]. unfold nxt_http_chunk_parse.
  destruct (parse_bufs_ok alloc 0 (hcp_state h) h bs Hb Hwf Hf)
    as (h1 & bs1 & o & -> & (_ & _ & _ & _ & He & Href)). cbn [obind].
  assert (hcp_error h1 = false) as Herr.
  { destruct (hcp_error h1) eqn:E; [|done]. destruct (He eq_refl) as [n Hn]. by rewrite Ha in Hn. }
  specialize (Href Herr). unfold ref_agrees in Href. simpl map. simpl concat.
  rewrite ref_run_app.
  destruct (ref_run (at_state h (hcp_state h)) (unread bs)) as [[hr ds] [rest|]] eqn:E.
  - destruct Href as (-> & (s & ->) & _). apply ref_run_stop in E. simpl in E. rewrite E. simpl.
    by eexists _, _, _, _.
  - destruct Href as (-> & -> & Hwf1 & Hf1). pose proof Hf1 as (-> & -> & ->). simpl.
    destruct (IH h1 Hwf1 Hf1) as (h2 & d2 & s & r & -> & He2 & -> & Hr). cbn [obind].
    by eexists _, _, _, _.
Qed.

(** ** The text of a chunked body *)

Definition hex_digit (c : Z) : option Z :=
  if (CH_0 <=? c) && (c <=? CH_9) then Some (c - CH_0)
  else if (CH_a <=? Z.lor c 32) && (Z.lor c 32 <=? CH_f) then Some (Z.lor c 32 - CH_a + 10)
  else None.

(** The value of a string of hexadecimal digits. *)
Fixpoint hex_number (l : list Z) (acc : Z) : option Z :=
  match l with
  | [] => Some acc
  | c :: l' =>
      match hex_digit c with
      | Some d => hex_number l' (16 * acc + d)
      | None => None
      end
  end.

Record chunk_text : Type := mk_ct {
  ct_size : list Z;
  ct_ext : list Z;         (* the extensions, from the first ';' *)
  ct_data : list Z
}.

Definition valid_ext (ext : list Z) : Prop :=
  ext = [] \/ exists l, ext = SEMICOLON :: l /\ CR ∉ l.

Definition size_line (size ext : list Z) : list Z := size ++ ext ++ [CR; LF].

Definition chunk_bytes (c : chunk_text) : list Z :=
  size_line (ct_size c) (ct_ext c) ++ ct_data c ++ [CR; LF].

(** A chunk with data, whose size line gives its length. *)
Definition valid_chunk (c : chunk_text) : Prop :=
  ct_size c <> [] /\ Forall byte (ct_size c) /\
  hex_number (ct_size c) 0 = Some (Z.of_nat (length (ct_data c))) /\
  ct_data c <> [] /\ Z.of_nat (length (ct_data c)) < 2 ^ 64 /\ valid_ext (ct_ext c).

(** A trailer field line: a token, a colon and a value without controls. *)
Definition trailer_line (f : list Z * list Z) : list Z := f.1 ++ COLON :: f.2 ++ [CR; LF].

Definition valid_trailer (f : list Z * list Z) : Prop :=
  f.1 <> [] /\ Forall (fun c => nxt_http_trailer_tchar c = true) f.1 /\
  Forall (fun c => (32 <= c /\ c <> DEL) \/ c = TAB) f.2.

Definition trailer_bytes (ts : list (list Z * list Z)) : list Z := concat (map trailer_line ts).

Record body_text : Type := mk_body {
  bt_chunks : list chunk_text;
  bt_last : list Z;            (* the size of the last chunk: zeros *)
  bt_last_ext : list Z;
  bt_trailer : list (list Z * list Z)
}.

Definition body_bytes (t : body_text) : list Z :=
  concat (map chunk_bytes (bt_chunks t)) ++ size_line (bt_last t) (bt_last_ext t)
  ++ trailer_bytes (bt_trailer t) ++ [CR; LF].

Definition body_data (t : body_text) : list Z := concat (map ct_data (bt_chunks t)).

Definition valid_body (t : body_text) : Prop :=
  Forall valid_chunk (bt_chunks t) /\
  bt_last t <> [] /\ Forall (fun c => c = CH_0) (bt_last t) /\ valid_ext (bt_last_ext t) /\
  Forall valid_trailer (bt_trailer t) /\
  Z.of_nat (length (trailer_bytes (bt_trailer t))) <= NXT_HTTP_TRAILER_MAX_SIZE.

Section Text.
Variable retain : bool.

(** The states of the machine without flags. *)
Definition st (n : Z) (s : chunk_state) (trailer : bool) : chunk_parse :=
  mk_hcp 0 n s false trailer false false retain.

Lemma ref_run_cons h ch l :
  ref_run h (ch :: l) =
  match ref_step h ch with
  | R_stop h' => (h', [], Some l)
  | R_more h' d => let '(h2, ds, r) := ref_run h' l in (h2, d ++ ds, r)
  end.
Proof. done. Qed.

Lemma hex_digit_u8 c :
  byte c ->
  hex_digit c =
  if u8 (c - CH_0) <=? 9 then Some (u8 (c - CH_0))
  else if u8 (Z.lor c 32 - CH_a) <=? 5 then Some (u8 (u8 (Z.lor c 32 - CH_a) + 10))
  else None.
Proof.
  revert c. apply (byte_decide (fun c => hex_digit c =
    if u8 (c - CH_0) <=? 9 then Some (u8 (c - CH_0))
    else if u8 (Z.lor c 32 - CH_a) <=? 5 then Some (u8 (u8 (Z.lor c 32 - CH_a) + 10))
    else None)). vm_compute. reflexivity.
Qed.

Lemma hex_digit_bound c d : hex_digit c = Some d -> 0 <= d < 16.
Proof. unfold hex_digit. intros H. repeat case_match; zbool; simplify_eq; lia. Qed.

Lemma hex_number_le l acc v : hex_number l acc = Some v -> 0 <= acc -> acc <= v.
Proof.
  revert acc. induction l as [|c l IH]; intros acc H Ha; simpl in H; [simplify_eq; lia|].
  destruct (hex_digit c) as [d|] eqn:E; [|done]. apply hex_digit_bound in E.
  apply IH in H; lia.
Qed.

(** A digit after the first. *)
Lemma ref_step_digit c d acc :
  byte c -> hex_digit c = Some d -> 0 <= acc ->
  ref_step (st acc sw_chunk_size false) c =
  if acc <? 2 ^ 60 then R_more (st (16 * acc + d) sw_chunk_size false) []
  else R_stop (set_chunk_error (st acc sw_chunk_size false)).
Proof.
  intros Hb Hd Ha. pose proof (hex_digit_bound c d Hd). rewrite hex_digit_u8 in Hd by done.
  unfold ref_step, chunk_byte. cbn [hcp_state st chunk_size].
  assert (Hsz : nxt_size_is_sufficient acc = (acc <? 2 ^ 60)) by done.
  assert (Hgo : forall x, x = d -> acc <? 2 ^ 60 = true -> u64 (Z.shiftl acc 4 + x) = 16 * acc + d).
  { intros x -> Hlt. by destruct (shift_digit_bound acc d) as [-> _]; [rewrite Hsz|..]. }
  rewrite Hsz. destruct (Z.leb_spec (u8 (c - CH_0)) 9), (Z.gtb_spec (u8 (c - CH_0)) 9); try lia.
  - destruct (acc <? 2 ^ 60) eqn:E; [|done]. rewrite Hgo by (done || congruence). done.
  - destruct (u8 (Z.lor c 32 - CH_a) <=? 5); [|done].
    destruct (acc <? 2 ^ 60) eqn:E; [|done]. rewrite Hgo by (done || congruence). done.
Qed.

Lemma ref_step_first c d n :
  byte c -> hex_digit c = Some d ->
  ref_step (st n sw_start false) c = R_more (st d sw_chunk_size false) [].
Proof.
  intros Hb Hd. pose proof (hex_digit_bound c d Hd) as Hdb. rewrite hex_digit_u8 in Hd by done.
  pose proof (u8_bound (Z.lor c 32 - CH_a)).
  unfold ref_step, chunk_byte. cbn [hcp_state st].
  destruct (u8 (c - CH_0) <=? 9); [by simplify_eq|].
  destruct (Z.leb_spec (u8 (Z.lor c 32 - CH_a)) 5); [|done]. simplify_eq.
  set (x := u8 (Z.lor c 32 - CH_a)) in *. unfold u8. rewrite Z.mod_small, Z.add_comm by lia. done.
Qed.

Lemma ref_run_digits l acc v :
  Forall byte l -> hex_number l acc = Some v -> 0 <= acc -> v < 2 ^ 64 ->
  ref_run (st acc sw_chunk_size false) l = (st v sw_chunk_size false, [], None).
Proof.
  intros Hl. revert acc. induction Hl as [|c l Hc Hl IH]; intros acc Hn Ha Hv; simpl in Hn.
  { by simplify_eq. }
  destruct (hex_digit c) as [d|] eqn:Ed; [|done]. pose proof (hex_digit_bound c d Ed).
  pose proof (hex_number_le _ _ _ Hn ltac:(lia)). cbn [ref_run].
  rewrite (ref_step_digit c d) by done. destruct (Z.ltb_spec acc (2 ^ 60)); [|lia].
  by rewrite IH by (done || lia).
Qed.

(** A size that does not fit in 64 bits is refused. *)
Lemma ref_run_overflow l rest acc v :
  Forall byte l -> hex_number l acc = Some v -> 0 <= acc < 2 ^ 64 -> 2 ^ 64 <= v ->
  exists n r, ref_run (st acc sw_chunk_size false) (l ++ rest) =
    (set_chunk_error (st n sw_chunk_size false), [], Some r).
Proof.
  intros Hl. revert acc. induction Hl as [|c l Hc Hl IH]; intros acc Hn Ha Hv; simpl in Hn.
  { simplify_eq. lia. }
  destruct (hex_digit c) as [d|] eqn:Ed; [|done]. pose proof (hex_digit_bound c d Ed).
  cbn [ref_run app]. rewrite (ref_step_digit c d) by (done || lia).
  destruct (Z.ltb_spec acc (2 ^ 60)); [|by eexists _, _].
  destruct (IH (16 * acc + d)) as (n & r & ->); [done|lia|done|]. by eexists _, _.
Qed.

Lemma ref_run_ext ext v :
  valid_ext ext ->
  ref_run (st v sw_chunk_size false) (ext ++ [CR]) = (st v sw_chunk_size_linefeed false, [], None).
Proof.
  intros [->|(l & -> & Hl)]; [done|].
  assert (ref_run (st v sw_chunk_ext false) (l ++ [CR]) =
    (st v sw_chunk_size_linefeed false, [], None)) as H.
  2: { rewrite <- app_comm_cons, ref_run_cons.
    change (ref_step (st v sw_chunk_size false) SEMICOLON) with (R_more (st v sw_chunk_ext false) []).
    cbv iota beta. by rewrite H. }
  induction l as [|c l IH]; [done|]. apply not_elem_of_cons in Hl as [Hc Hl].
  rewrite <- app_comm_cons, ref_run_cons.
  assert (ref_step (st v sw_chunk_ext false) c = R_more (st v sw_chunk_ext false) []) as ->.
  { unfold ref_step, chunk_byte. simpl. by destruct (Z.eqb_spec c CR); [congruence|]. }
  by rewrite IH.
Qed.

(** The size line of a chunk. *)
Lemma ref_run_size_line size ext v n :
  size <> [] -> Forall byte size -> hex_number size 0 = Some v -> v < 2 ^ 64 -> valid_ext ext ->
  ref_run (st n sw_start false) (size_line size ext) =
  (if v =? 0 then st 0 sw_chunk_end_newline true else st v sw_chunk false, [], None).
Proof.
  intros Hne Hb Hv Hlt He. destruct size as [|c l]; [done|]. simpl in Hv.
  apply Forall_cons in Hb as [Hc Hl]. unfold size_line.
  destruct (hex_digit c) as [d|] eqn:Ed; [|done]. pose proof (hex_digit_bound c d Ed).
  cbn [app ref_run]. rewrite (ref_step_first c d) by done.
  replace (l ++ ext ++ [CR; LF]) with (l ++ (ext ++ [CR]) ++ [LF]) by (by rewrite <- app_assoc).
  rewrite ref_run_app, (ref_run_digits l d v) by (done || lia).
  rewrite ref_run_app, ref_run_ext by done. cbn [ref_run].
  unfold ref_step, chunk_byte. cbn [hcp_state st chunk_size]. simpl (LF =? LF).
  by destruct (Z.eqb_spec v 0) as [->|].
Qed.

Lemma ref_run_chunk c n :
  valid_chunk c ->
  ref_run (st n sw_start false) (chunk_bytes c) = (st 0 sw_start false, ct_data c, None).
Proof.
  intros (Hne & Hb & Hv & Hd & Hlt & He). unfold chunk_bytes.
  rewrite ref_run_app, (ref_run_size_line _ _ _ _ Hne Hb Hv) by done.
  assert (0 < Z.of_nat (length (ct_data c))) by (destruct (ct_data c); [done|simpl; lia]).
  destruct (Z.eqb_spec (Z.of_nat (length (ct_data c))) 0); [lia|].
  change (st (Z.of_nat (length (ct_data c))) sw_chunk false)
    with (at_state (st (Z.of_nat (length (ct_data c))) sw_chunk false) sw_chunk).
  rewrite ref_run_app, ref_run_data by (done || simpl; lia).
  cbn [chunk_size st]. rewrite Z.eqb_refl, Z.sub_diag. simpl. by rewrite app_nil_r.
Qed.

(** The bytes of a trailer section that are counted. *)
Inductive trailer_step : chunk_state -> Z -> chunk_state -> Prop :=
| Trailer_first c : nxt_http_trailer_tchar c = true ->
    trailer_step sw_chunk_end_newline c sw_trailer_name
| Trailer_name c : nxt_http_trailer_tchar c = true ->
    trailer_step sw_trailer_name c sw_trailer_name
| Trailer_colon : trailer_step sw_trailer_name COLON sw_trailer_value
| Trailer_value c : (32 <= c /\ c <> DEL) \/ c = TAB ->
    trailer_step sw_trailer_value c sw_trailer_value
| Trailer_cr : trailer_step sw_trailer_value CR sw_trailer_linefeed
| Trailer_lf : trailer_step sw_trailer_linefeed LF sw_chunk_end_newline.

Inductive trailer_steps : chunk_state -> list Z -> chunk_state -> Prop :=
| Trailer_nil s : trailer_steps s [] s
| Trailer_cons s1 c s2 l s3 :
    trailer_step s1 c s2 -> trailer_steps s2 l s3 -> trailer_steps s1 (c :: l) s3.

Lemma tchar_not c : nxt_http_trailer_tchar c = true -> c <> CR /\ c <> COLON.
Proof. intros H. split; intros ->; by vm_compute in H. Qed.

Lemma trailer_step_ref s c s' n :
  trailer_step s c s' -> 0 <= n < NXT_HTTP_TRAILER_MAX_SIZE ->
  ref_step (st n s true) c = R_more (st (n + 1) s' true) [].
Proof.
  intros Hs Hn.
  assert (Hc : forall s0 s1, trailer_count s1 (st n s0 true) = B_continue s1 (st (n + 1) s0 true)).
  { intros s0 s1. rewrite trailer_count_spec by (simpl; lia). simpl.
    by rewrite (proj2 (Z.ltb_lt _ _) (proj2 Hn)). }
  unfold ref_step, chunk_byte. destruct Hs as [c Ht|c Ht| |c Hv| |]; cbn [hcp_state st hcp_trailer].
  - destruct (tchar_not c Ht) as [Hcr%Z.eqb_neq _]. by rewrite Hcr, Ht; simpl; rewrite Hc.
  - destruct (tchar_not c Ht) as [_ Hco%Z.eqb_neq]. by rewrite Hco, Ht; simpl; rewrite Hc.
  - by simpl; rewrite Hc.
  - destruct (Z.eqb_spec c CR) as [->|_]; [lia|].
    assert (((c <? 32) || (c =? DEL)) && negb (c =? TAB) = false) as ->; [|by rewrite Hc].
    destruct Hv as [[H1 H2]| ->]; [|done].
    by rewrite (proj2 (Z.ltb_ge _ _) H1), (proj2 (Z.eqb_neq _ _) H2).
  - by simpl; rewrite Hc.
  - by simpl; rewrite Hc.
Qed.

Lemma trailer_steps_ref s l s' n :
  trailer_steps s l s' -> 0 <= n -> n + Z.of_nat (length l) <= NXT_HTTP_TRAILER_MAX_SIZE ->
  ref_run (st n s true) l = (st (n + Z.of_nat (length l)) s' true, [], None).
Proof.
  intros H. revert n. induction H as [s|s1 c s2 l s3 H1 _ IH]; intros n Hn Hl.
  - simpl. by rewrite Z.add_0_r.
  - cbn [length] in Hl. rewrite ref_run_cons, (trailer_step_ref s1 c s2) by (done || lia).
    cbv iota beta. rewrite IH by lia. cbn [length]. do 3 f_equal. lia.
Qed.

Lemma trailer_steps_app s1 l1 s2 l2 s3 :
  trailer_steps s1 l1 s2 -> trailer_steps s2 l2 s3 -> trailer_steps s1 (l1 ++ l2) s3.
Proof. induction 1; intros; simpl; [done|]. econstructor; eauto. Qed.

Lemma trailer_steps_chars (P : Z -> Prop) s l :
  (forall c, P c -> trailer_step s c s) -> Forall P l -> trailer_steps s l s.
Proof. intros HP. induction 1; econstructor; eauto. Qed.

Lemma trailer_bytes_steps ts :
  Forall valid_trailer ts -> trailer_steps sw_chunk_end_newline (trailer_bytes ts) sw_chunk_end_newline.
Proof.
  induction 1 as [|[name value] ts (Hne & Hn & Hv) _ IH]; [constructor|]. simpl in *.
  unfold trailer_bytes. simpl. apply (trailer_steps_app _ _ sw_chunk_end_newline); [|exact IH].
  destruct name as [|c name]; [done|]. apply Forall_cons in Hn as [Hc Hn]. unfold trailer_line. simpl.
  econstructor; [by constructor|].
  apply (trailer_steps_app _ _ sw_trailer_name); [by apply (trailer_steps_chars _ _ _ Trailer_name)|].
  econstructor; [apply Trailer_colon|].
  apply (trailer_steps_app _ _ sw_trailer_value); [by apply (trailer_steps_chars _ _ _ Trailer_value)|].
  econstructor; [apply Trailer_cr|]. econstructor; [apply Trailer_lf|]. constructor.
Qed.

(** The whole body, and whatever follows it. *)
Lemma ref_run_body t rest :
  valid_body t ->
  exists n,
    ref_run (st 0 sw_start false) (body_bytes t ++ rest) =
    (set_last (st n sw_chunk_end_linefeed true), body_data t, Some rest).
Proof.
  intros (Hc & Hl & Hz & He & Ht & Hmax). unfold body_bytes, body_data.
  assert (Hchunks : ref_run (st 0 sw_start false) (concat (map chunk_bytes (bt_chunks t))) =
    (st 0 sw_start false, concat (map ct_data (bt_chunks t)), None)).
  { induction Hc as [|c cs Hc _ IH]; [done|]. simpl.
    by rewrite ref_run_app, ref_run_chunk, IH by done. }
  assert (Hzero : hex_number (bt_last t) 0 = Some 0).
  { clear -Hz. by induction Hz as [|c l -> _ IH]. }
  rewrite <- !app_assoc, ref_run_app, Hchunks.
  rewrite ref_run_app, (ref_run_size_line _ _ 0) by (done || by apply (Forall_impl _ _ _ Hz); intros ? ->).
  change (0 =? 0) with true. cbv iota.
  rewrite ref_run_app, (trailer_steps_ref _ _ sw_chunk_end_newline) by (done || lia || by apply trailer_bytes_steps).
  eexists. simpl. by rewrite app_nil_r.
Qed.

End Text.

(** ** Properties *)

(** C7. However a chunked body is cut into buffers and calls, the parser does
    what the byte-at-a-time machine does on the bytes put together: it emits
    the same data, ends in the same state, and stops exactly where the machine
    stops. *)
Theorem nxt_http_chunk_parse_calls alloc h calls :
  (forall n, alloc n = true) -> Forall bufs_wf calls -> chunk_wf (hcp_state h) h -> no_flags h ->
  exists h' d s r,
    parse_calls alloc h calls = Ret (h', d) /\ hcp_error h' = false /\
    ref_run (at_state h (hcp_state h)) (concat (map unread calls)) = (at_state h' s, d, r) /\
    (r = None -> s = hcp_state h').
Proof. apply parse_calls_ref. Qed.

(** C4. Decoding undoes encoding: from any cutting into buffers and calls of a
    well-formed chunked body (sizes in hexadecimal below 2^64, extensions, a
    trailer section of at most 4096 bytes) followed by other bytes, the parser
    returns exactly the data of the chunks and reports the end of the body. *)
Theorem nxt_http_chunk_parse_body alloc retain t rest calls :
  (forall n, alloc n = true) -> Forall bufs_wf calls -> valid_body t ->
  concat (map unread calls) = body_bytes t ++ rest ->
  exists h',
    parse_calls alloc (chunk_init retain) calls = Ret (h', body_data t) /\
    hcp_last h' = true /\ chunk_error h' = false /\ hcp_error h' = false.
Proof.
  intros Ha Hc Ht Hcat.
  destruct (parse_calls_ref alloc (chunk_init retain) calls) as (h' & d & s & r & -> & He & Hr & _); try done.
  rewrite Hcat in Hr. destruct (ref_run_body retain t rest Ht) as [n E].
  change (at_state (chunk_init retain) (hcp_state (chunk_init retain)))
    with (st retain 0 sw_start false) in Hr.
  rewrite E in Hr. exists h'. pose proof (f_equal (fun x => x.1.2) Hr) as Hd.
  pose proof (f_equal (fun x => hcp_last x.1.1) Hr) as Hl.
  pose proof (f_equal (fun x => chunk_error x.1.1) Hr) as Hce. simpl in *. subst d. by split_and!.
Qed.


(** C8. References are accounted for on every path, allocation failures
    included: a call returns; every slice lies inside its parent; with
    [retain_buffers] clear each buffer gains one reference per slice and the
    completion handlers scheduled are exactly those of the buffers without a
    reference, once each; with [retain_buffers] set neither happens. *)
Theorem nxt_http_chunk_parse_references alloc h bs :
  bufs_wf bs -> chunk_wf (hcp_state h) h -> no_flags h ->
  exists h' bs' o,
    nxt_http_chunk_parse alloc h bs = Ret (h', bs', o) /\
    Forall (slice_ok 0 bs) (out_slices o) /\
    bufs_after 0 (retain_buffers h) (out_slices o) bs bs' /\
    out_completed o = (if retain_buffers h then [] else unretained 0 bs').
Proof.
  intros Hb Hwf Hf. unfold nxt_http_chunk_parse.
  destruct (parse_bufs_ok alloc 0 (hcp_state h) h bs Hb Hwf Hf)
    as (h' & bs' & o & -> & (Ha & Hs & Hc & _)). by exists h', bs', o.
Qed.

(** ** Witnesses *)

Definition sample_body : body_text :=
  mk_body
    [mk_ct (bytes_of_string "5") [] (bytes_of_string "hello");
     mk_ct (bytes_of_string "0B") (bytes_of_string ";x=1") (bytes_of_string "hello world")]
    (bytes_of_string "0") [] [(bytes_of_string "Tag", bytes_of_string " v")].

Definition whole (l : list Z) : in_buf := mk_ib l 0 0.

(** The body cut after three bytes and again after twenty. *)
Definition sample_calls : list (list in_buf) :=
  let l := body_bytes sample_body ++ [1] in
  [[whole (take 3 l)]; [whole (take 17 (drop 3 l)); whole (drop 20 l)]].

Lemma sample_calls_wf : Forall bufs_wf sample_calls.
Proof. repeat constructor; vm_compute; lia. Qed.

Lemma nxt_http_chunk_parse_calls_witness :
  exists h' d s r,
    parse_calls (fun _ => true) (chunk_init false) sample_calls = Ret (h', d) /\
    hcp_error h' = false /\
    ref_run (at_state (chunk_init false) sw_start) (concat (map unread sample_calls)) =
      (at_state h' s, d, r) /\ (r = None -> s = hcp_state h').
Proof.
  apply (nxt_http_chunk_parse_calls (fun _ => true) (chunk_init false) sample_calls).
  - done.
  - exact sample_calls_wf.
  - by vm_compute.
  - done.
Defined.

Lemma nxt_http_chunk_parse_body_witness :
  exists h',
    parse_calls (fun _ => true) (chunk_init false) sample_calls =
      Ret (h', bytes_of_string "hellohello world") /\
    hcp_last h' = true /\ chunk_error h' = false /\ hcp_error h' = false.
Proof.
  apply (nxt_http_chunk_parse_body (fun _ => true) false sample_body [1] sample_calls).
  - done.
  - exact sample_calls_wf.
  - unfold valid_body, valid_chunk, valid_trailer, valid_ext, byte. simpl.
    repeat (apply Forall_cons_2 || apply Forall_nil_2 || split); simpl; try done; try lia; auto.
    right. eexists. split; [done|]. rewrite list_elem_of_In. simpl. lia.
  - vm_compute. reflexivity.
Defined.


Lemma nxt_http_chunk_parse_references_witness :
  exists h' bs' o,
    nxt_http_chunk_parse (fun _ => false) (chunk_init false)
      [whole (bytes_of_string "5" ++ [CR]); whole ([LF] ++ bytes_of_string "hel")] = Ret (h', bs', o) /\
    Forall (slice_ok 0 [whole (bytes_of_string "5" ++ [CR]);
      whole ([LF] ++ bytes_of_string "hel")]) (out_slices o) /\
    bufs_after 0 false (out_slices o) [whole (bytes_of_string "5" ++ [CR]);
      whole ([LF] ++ bytes_of_string "hel")] bs' /\
    out_completed o = unretained 0 bs'.
Proof.
  apply (nxt_http_chunk_parse_references (fun _ => false) (chunk_init false)
    [whole (bytes_of_string "5" ++ [CR]); whole ([LF] ++ bytes_of_string "hel")]).
  - repeat constructor; vm_compute; lia.
  - by vm_compute.
  - done.
Defined.
