(* ===== verification/Utf8.v ===== *)
(** * UTF-8 (nxt_utf8.c)

    The encoder, the decoder with its two functions, the length and validity
    checks and the two passes of [nxt_utf8_sanitize].  The reference is the
    definition of UTF-8: a text is well formed when it is the concatenation of
    the encodings of Unicode scalar values. *)

From S2P Require Import Prelude.

(** ** The code *)

(** [nxt_utf8_encode]: the bytes written at [p], [None] for [NULL]. *)
Definition nxt_utf8_encode (u : Z) : option (list Z) :=
  if u <? 0x80 then Some [u8 (Z.land u 0xFF)]
  else if u <? 0x800 then
    Some [u8 (Z.lor (Z.shiftr u 6) 0xC0);
          u8 (Z.lor (Z.land u 0x3F) 0x80)]
  else if u <? 0x10000 then
    Some [u8 (Z.lor (Z.shiftr u 12) 0xE0);
          u8 (Z.lor (Z.land (Z.shiftr u 6) 0x3F) 0x80);
          u8 (Z.lor (Z.land u 0x3F) 0x80)]
  else if u <? 0x110000 then
    Some [u8 (Z.lor (Z.shiftr u 18) 0xF0);
          u8 (Z.lor (Z.land (Z.shiftr u 12) 0x3F) 0x80);
          u8 (Z.lor (Z.land (Z.shiftr u 6) 0x3F) 0x80);
          u8 (Z.lor (Z.land u 0x3F) 0x80)]
  else None.

Abbreviation INVALID := 0xFFFFFFFF (only parsing).

(** The loop over the continuation bytes of [nxt_utf8_decode2]; [None] is its
    early return. *)
Fixpoint continuation (b : list Z) (p : nat) (n : nat) (u : Z) : outcome (option (Z * nat)) :=
  match n with
  | O => Ret (Some (u, p))
  | S n' =>
    let* c0 := of_option (b !! p) in
    let c := u8 (c0 - 0x80) in
    if 0x3F <? c then Ret None
    else continuation b (S p) n' (u32 (Z.lor (Z.shiftl u 6) c))
  end.

(** The first byte of a longer sequence: the bits of the character, the
    largest character of a shorter sequence, the number of bytes left. *)
Definition leading (u : Z) : option (Z * Z * nat) :=
  if 0xE0 <=? u then
    if 0xF0 <=? u then
      if 0xF4 <? u then None else Some (Z.land u 0x07, 0x00FFFF, 3%nat)
    else Some (Z.land u 0x0F, 0x07FF, 2%nat)
  else if 0xC2 <=? u then Some (Z.land u 0x1F, 0x007F, 1%nat)
  else None.

(** The value returned and the new value of the start pointer. *)
Definition nxt_utf8_decode2 (b : list Z) (start end_ : nat) : outcome (Z * nat) :=
  let* u := of_option (b !! start) in
  match leading u with
  | None => Ret (INVALID, start)
  | Some (u, overlong, n) =>
    let p := S start in
    if (p + n <=? end_)%nat then
      let* r := continuation b p n u in
      match r with
      | None => Ret (INVALID, start)
      | Some (u, p) =>
        if (overlong <? u) && (u <? 0x110000) && negb ((0xD800 <=? u) && (u <=? 0xDFFF))
        then Ret (u, p)
        else Ret (INVALID, start)
      end
    else Ret (INVALID, start)
  end.

Definition nxt_utf8_decode (b : list Z) (start end_ : nat) : outcome (Z * nat) :=
  let* u := of_option (b !! start) in
  if u <? 0x80 then Ret (u, S start) else nxt_utf8_decode2 b start end_.

(** The loops take one iteration per character at most, so the length of the
    text bounds them. *)
Fixpoint length_loop (fuel : nat) (b : list Z) (p end_ : nat) (len : Z) : outcome Z :=
  if (p <? end_)%nat then
    match fuel with
    | O => OutOfFuel
    | S fuel' =>
      let* (u, p') := nxt_utf8_decode b p end_ in
      if u =? INVALID then Ret (-1) else length_loop fuel' b p' end_ (len + 1)
    end
  else Ret len.

Definition nxt_utf8_length (b : list Z) (p len : nat) : outcome Z :=
  length_loop len b p (p + len) 0.

Fixpoint valid_loop (fuel : nat) (b : list Z) (p end_ : nat) : outcome bool :=
  if (p <? end_)%nat then
    match fuel with
    | O => OutOfFuel
    | S fuel' =>
      let* (u, p') := nxt_utf8_decode b p end_ in
      if u =? INVALID then Ret false else valid_loop fuel' b p' end_
    end
  else Ret true.

Definition nxt_utf8_is_valid (b : list Z) (p len : nat) : outcome bool :=
  valid_loop len b p (p + len).

(** The first pass of [nxt_utf8_sanitize]: the length of the output. *)
Fixpoint sanitize_length (fuel : nat) (b : list Z) (p end_ : nat) (len : nat) : outcome nat :=
  if (p <? end_)%nat then
    match fuel with
    | O => OutOfFuel
    | S fuel' =>
      let* c := of_option (b !! p) in
      if c <? 0x80 then sanitize_length fuel' b (S p) end_ (len + 1)
      else
        let* (u, seq) := nxt_utf8_decode b p end_ in
        if u =? INVALID then sanitize_length fuel' b (S p) end_ (len + 3)
        else sanitize_length fuel' b seq end_ (len + (seq - p))
    end
  else Ret len.

(** A write of [cs] at offset [d] of the block [out]. *)
Definition store (out : list Z) (d : nat) (cs : list Z) : outcome (list Z) :=
  if (d + length cs <=? length out)%nat
  then Ret (take d out ++ cs ++ drop (d + length cs) out)
  else Fault.

(** The second pass: [out] is the block and [d] the place of the next byte. *)
Fixpoint sanitize_copy (fuel : nat) (b : list Z) (p end_ : nat) (out : list Z) (d : nat) :
    outcome (list Z) :=
  if (p <? end_)%nat then
    match fuel with
    | O => OutOfFuel
    | S fuel' =>
      let* c := of_option (b !! p) in
      if c <? 0x80 then
        let* out := store out d [c] in
        sanitize_copy fuel' b (S p) end_ out (d + 1)
      else
        let* (u, seq) := nxt_utf8_decode b p end_ in
        if u =? INVALID then
          let* out := store out d [0xEF; 0xBF; 0xBD] in
          sanitize_copy fuel' b (S p) end_ out (d + 3)
        else
          let* out := store out d (take (seq - p) (drop p b)) in
          sanitize_copy fuel' b seq end_ out (d + (seq - p))
    end
  else Ret out.

(** What [dst] is set to: [src] itself, or the new block. *)
Inductive sanitized :=
| Same
| Copied (out : list Z).

(** [mem] is the fresh block that [nxt_mp_nget] returns for a length, with
    whatever it holds, or [None] when there is no memory.  The result [None]
    is [NXT_ERROR]. *)
Definition nxt_utf8_sanitize (mem : nat -> option (list Z)) (src : list Z) :
    outcome (option sanitized) :=
  let end_ := length src in
  let* len := sanitize_length end_ src 0 end_ 0 in
  if (len =? length src)%nat then Ret (Some Same)
  else
    match mem len with
    | None => Ret None
    | Some out =>
      let* out := sanitize_copy end_ src 0 end_ out 0 in
      Ret (Some (Copied out))
    end.

(** ** The reference *)

(** Unicode scalar values. *)
Definition scalar (u : Z) : Prop := 0 <= u < 0xD800 \/ 0xE000 <= u < 0x110000.

(** The encoding form UTF-8, by the ranges of the character. *)
Definition utf8 (u : Z) : list Z :=
  if u <? 0x80 then [u]
  else if u <? 0x800 then [0xC0 + u / 64; 0x80 + u mod 64]
  else if u <? 0x10000 then [0xE0 + u / 4096; 0x80 + u / 64 mod 64; 0x80 + u mod 64]
  else [0xF0 + u / 262144; 0x80 + u / 4096 mod 64; 0x80 + u / 64 mod 64; 0x80 + u mod 64].

(** Well-formed text: the encodings of [us]. *)
Definition text (us : list Z) : list Z := concat (map utf8 us).

(** [w] begins with an encoded character. *)
Definition starts_char (w : list Z) : Prop := exists u w', scalar u /\ w = utf8 u ++ w'.

(** The replacement of every byte that begins no character by U+FFFD. *)
Inductive replaced : list Z -> list Z -> Prop :=
| replaced_nil : replaced [] []
| replaced_char u w d : scalar u -> replaced w d -> replaced (utf8 u ++ w) (utf8 u ++ d)
| replaced_byte c w d :
    ~ starts_char (c :: w) -> replaced w d -> replaced (c :: w) (utf8 0xFFFD ++ d).

(** ** The encoder in arithmetic *)

Lemma mark_byte x m h k :
  m = Z.shiftl h k -> 0 <= k -> 0 <= x < 2 ^ k -> m + 2 ^ k <= 256 -> 0 <= m ->
  u8 (Z.lor x m) = m + x.
Proof.
  intros -> Hk Hx Hm H0. unfold u8.
  rewrite Z.lor_comm, lor_shiftl, <- Z.shiftl_mul_pow2 by done. apply Z.mod_small. lia.
Qed.

Lemma tail_byte x : u8 (Z.lor (Z.land x 0x3F) 0x80) = 0x80 + x mod 64.
Proof.
  rewrite (land_low x 0x3F 6) by done.
  rewrite (mark_byte _ 0x80 2 6); [done..| |lia|lia]. apply Z.mod_pos_bound. lia.
Qed.

Lemma encode_arith u : 0 <= u < 0x110000 -> nxt_utf8_encode u = Some (utf8 u).
Proof.
  intros Hu. unfold utf8, nxt_utf8_encode. rewrite !tail_byte, !Z.shiftr_div_pow2 by done.
  destruct (u <? 0x80) eqn:E1; zbool.
  { rewrite (land_low u 0xFF 8) by done. unfold u8.
    rewrite !Z.mod_small by (try apply Z.mod_pos_bound; lia). done. }
  destruct (u <? 0x800) eqn:E2; zbool.
  { rewrite (mark_byte _ 0xC0 3 6); [done..| |lia|lia].
    change (2 ^ 6) with 64. dlia. }
  destruct (u <? 0x10000) eqn:E3; zbool.
  { rewrite (mark_byte _ 0xE0 7 5); [done..| |lia|lia].
    change (2 ^ 12) with 4096. change (2 ^ 5) with 32. dlia. }
  rewrite (proj2 (Z.ltb_lt u 0x110000)) by lia. 
  rewrite (mark_byte _ 0xF0 15 4); [done..| |lia|lia].
  change (2 ^ 18) with 262144. change (2 ^ 4) with 16. dlia.
Qed.

Lemma utf8_bytes u : scalar u -> Forall byte (utf8 u).
Proof.
  intros Hu. unfold scalar in Hu. unfold utf8.
  repeat case_match; zbool; repeat constructor; unfold byte in *; dlia.
Qed.

Lemma utf8_nonempty u : scalar u -> utf8 u <> [].
Proof. intros Hu. unfold scalar in Hu. unfold utf8. by repeat case_match. Qed.

(** ** The decoder *)

Lemma continuation_window n : forall b w d p u,
  (forall i, (p <= i < p + n)%nat -> b !! (d + i)%nat = w !! i) ->
  continuation b (d + p) n u
  = let* r := continuation w p n u in
    Ret (match r with Some (u', p') => Some (u', (d + p')%nat) | None => None end).
Proof.
  induction n as [|n IH]; intros b w d p u Hw; cbn [continuation]; [done|].
  rewrite (Hw p) by lia. destruct (w !! p) as [c|]; cbn [of_option obind]; [|done].
  case_match; [done|]. rewrite <- Nat.add_succ_r. apply IH. intros i Hi. apply Hw. lia.
Qed.

(** A character found in [w] at its start, as the decoder reports it. *)
Definition decode_window (w : list Z) : outcome (Z * nat) := nxt_utf8_decode w 0 (length w).

Lemma decode_in_window b p end_ :
  (p < end_ <= length b)%nat ->
  nxt_utf8_decode b p end_
  = let* (u, n) := decode_window (window b p end_) in Ret (u, (p + n)%nat).
Proof.
  intros Hp. unfold decode_window, nxt_utf8_decode.
  rewrite window_length, window_lookup by lia. rewrite !Nat.add_0_r.
  destruct (b !! p) as [c|] eqn:Ec; cbn [of_option obind]; [|done].
  destruct (c <? 0x80); cbn [obind]; [by rewrite Nat.add_1_r|].
  unfold nxt_utf8_decode2. rewrite Ec, window_lookup, Nat.add_0_r, Ec by lia.
  cbn [of_option obind]. destruct (leading c) as [[[u o] n]|]; cbn [obind];
    [|by rewrite Nat.add_0_r].
  replace (1 + n <=? end_ - p)%nat with (S p + n <=? end_)%nat
    by (apply Bool.eq_iff_eq_true; rewrite !Nat.leb_le; lia).
  destruct (S p + n <=? end_)%nat eqn:En; cbn [obind]; [|by rewrite Nat.add_0_r]. zbool.
  rewrite <- (Nat.add_1_r p), (continuation_window n b (window b p end_)).
  2:{ intros i Hi. symmetry. apply window_lookup. lia. }
  destruct (continuation _ 1 n u) as [[[u' q]|]| |]; cbn [obind]; try by rewrite ?Nat.add_0_r.
  case_match; cbn [obind]; by rewrite ?Nat.add_0_r.
Qed.

(** The continuation bytes in arithmetic. *)
Lemma continuation_S b p n u c :
  byte c -> b !! p = Some c -> 0 <= u < 2 ^ 26 ->
  continuation b p (S n) u
  = if (0x80 <=? c) && (c <? 0xC0) then continuation b (S p) n (u * 64 + (c - 0x80))
    else Ret None.
Proof.
  intros Hc Hp Hu. cbn [continuation]. rewrite Hp. cbn [of_option obind]. unfold byte in Hc.
  unfold u8. destruct ((0x80 <=? c) && (c <? 0xC0)) eqn:E; zbool.
  - rewrite Z.mod_small by lia. rewrite (proj2 (Z.ltb_ge _ _)) by lia.
    rewrite lor_shiftl by lia. change (2 ^ 6) with 64. unfold u32.
    by rewrite Z.mod_small by lia.
  - rewrite (proj2 (Z.ltb_lt _ _)); [done|]. destruct E; zbool; dlia.
Qed.

Lemma leading_arith c : byte c ->
  leading c = if (0xE0 <=? c) && (c <? 0xF0) then Some (c - 0xE0, 0x7FF, 2%nat)
    else if (0xF0 <=? c) && (c <=? 0xF4) then Some (c - 0xF0, 0xFFFF, 3%nat)
    else if (0xC2 <=? c) && (c <? 0xE0) then Some (c - 0xC0, 0x7F, 1%nat) else None.
Proof. revert c. apply (byte_decide (fun c => _ = _)). vm_compute. reflexivity. Qed.

(** Evaluating the tests whose truth value [lia] finds. *)
Ltac tests :=
  repeat match goal with
  | |- context [?a <=? ?b] =>
      first [rewrite (proj2 (Z.leb_le a b)) by dlia | rewrite (proj2 (Z.leb_gt a b)) by dlia]
  | |- context [?a <? ?b] =>
      first [rewrite (proj2 (Z.ltb_lt a b)) by dlia | rewrite (proj2 (Z.ltb_ge a b)) by dlia]
  end; cbn [andb orb negb].

Lemma decode_window_cons c w :
  decode_window (c :: w)
  = if c <? 0x80 then Ret (c, 1%nat) else nxt_utf8_decode2 (c :: w) 0 (length (c :: w)).
Proof. done. Qed.

Lemma decode_encoded u w : scalar u -> decode_window (utf8 u ++ w) = Ret (u, length (utf8 u)).
Proof.
  intros Hu. unfold scalar in Hu. unfold utf8.
  destruct (u <? 0x80) eqn:E1; [by cbn [app]; rewrite decode_window_cons, E1|]. zbool.
  assert (Hb : forall x, byte (0x80 + x mod 64)) by (intros x; unfold byte; dlia).
  destruct (u <? 0x800) eqn:E2; zbool; [|destruct (u <? 0x10000) eqn:E3; zbool];
    cbn [app]; rewrite decode_window_cons; tests; unfold nxt_utf8_decode2;
    cbn [lookup list_lookup of_option obind];
    rewrite leading_arith by (unfold byte; dlia); tests;
    (rewrite (proj2 (Nat.leb_le _ _)) by (cbn [length]; lia));
    repeat (erewrite continuation_S; [|apply Hb|done|dlia]; tests);
    cbn [continuation obind];
    match goal with |- context [(_ <? ?e) && (?e <? 0x110000)] => replace e with u by dlia end;
    tests; [done| |done].
  destruct (0xD800 <=? u) eqn:E4; cbn [andb negb]; [zbool; tests|]; done.
Qed.

(** A decoder that returns a character has read its encoding. *)
Lemma decode_sound w :
  Forall byte w -> w <> [] ->
  decode_window w = Ret (INVALID, 0%nat)
  \/ exists u w', scalar u /\ w = utf8 u ++ w' /\ decode_window w = Ret (u, length (utf8 u)).
Proof.
  intros Hw Hne. destruct w as [|c w]; [done|]. inversion_clear Hw as [|? ? Hc Hw'].
  rewrite decode_window_cons. destruct (c <? 0x80) eqn:E1; zbool.
  { right. exists c, w. unfold byte in Hc. unfold utf8. tests. unfold scalar.
    split_and!; [lia|done|done]. }
  unfold nxt_utf8_decode2. cbn [lookup list_lookup of_option obind].
  rewrite leading_arith by done. unfold byte in Hc.
  destruct ((0xE0 <=? c) && (c <? 0xF0)) eqn:E2;
    [|destruct ((0xF0 <=? c) && (c <=? 0xF4)) eqn:E3;
      [|destruct ((0xC2 <=? c) && (c <? 0xE0)) eqn:E4; [|by left]]]; clear Hne; zbool.
  1: destruct w as [|c1 [|c2 w]]; try (by left); inversion_clear Hw' as [|? ? H1 Hw];
    inversion_clear Hw as [|? ? H2 _].
  2: destruct w as [|c1 [|c2 [|c3 w]]]; try (by left); inversion_clear Hw' as [|? ? H1 Hw];
    inversion_clear Hw as [|? ? H2 Hw']; inversion_clear Hw' as [|? ? H3 _].
  3: destruct w as [|c1 w]; try (by left); inversion_clear Hw' as [|? ? H1 _].
  all: rewrite (proj2 (Nat.leb_le _ _)) by (cbn [length]; lia);
    repeat (erewrite continuation_S; [| |done|dlia]; [|assumption];
            match goal with |- context [if ?t then continuation _ _ _ _ else _] =>
              let E := fresh "E" in destruct t eqn:E; [|by left] end; zbool);
    cbn [continuation obind];
    match goal with |- context [if ?t then Ret (?v, _) else Ret (INVALID, _)] =>
      let E := fresh "E" in destruct t eqn:E; [|by left]; right; exists v, w; zbool end;
    unfold utf8; tests;
    (split_and!; [unfold scalar; dlia| |done]); cbn [app]; repeat f_equal; dlia.
Qed.

(** The two results of the decoder, for the text between two pointers. *)
Lemma decode_cases b p end_ :
  Forall byte b -> (p < end_ <= length b)%nat ->
  (exists u w', scalar u /\ window b p end_ = utf8 u ++ w'
     /\ window b (p + length (utf8 u)) end_ = w'
     /\ (0 < length (utf8 u) <= end_ - p)%nat
     /\ nxt_utf8_decode b p end_ = Ret (u, (p + length (utf8 u))%nat))
  \/ (~ starts_char (window b p end_) /\ nxt_utf8_decode b p end_ = Ret (INVALID, p)).
Proof.
  intros Hb Hp. rewrite decode_in_window by done.
  pose proof (window_length b p end_ (proj2 Hp)) as Hl.
  destruct (decode_sound (window b p end_)) as [Hd|(u & w' & Hu & Hw & Hd)].
  - by apply Forall_drop, Forall_take.
  - intros Hn. rewrite Hn in Hl. cbn in Hl. lia.
  - right. rewrite Hd. cbn [obind]. rewrite Nat.add_0_r. split; [|done].
    intros (u & w' & Hu & Hw). rewrite Hw, decode_encoded in Hd by done.
    apply (f_equal (fun r => match r with Ret (v, _) => v | _ => 0 end)) in Hd.
    unfold scalar in Hu. lia.
  - left. exists u, w'. rewrite Hd. cbn [obind].
    rewrite window_drop, Hw, drop_app_length. split_and!; try done.
    + destruct (utf8 u) eqn:E; [|cbn; lia]. by apply utf8_nonempty in E.
    + rewrite Hw, length_app in Hl. lia.
Qed.

Lemma scalar_not_invalid u : scalar u -> (u =? INVALID) = false.
Proof. intros Hu. apply Z.eqb_neq. unfold scalar in Hu. lia. Qed.

(** Well-formed text that is not empty begins with a character. *)
Lemma text_starts us w : Forall scalar us -> text us = w -> w <> [] -> starts_char w.
Proof.
  intros Hus <- Hne. destruct us as [|u us]; [done|]. inversion_clear Hus.
  by exists u, (text us).
Qed.

(** The encoding is prefix free. *)
Lemma utf8_prefix u v w w' : scalar u -> scalar v -> utf8 u ++ w = utf8 v ++ w' -> u = v /\ w = w'.
Proof.
  intros Hu Hv H. pose proof (decode_encoded u w Hu) as Hd.
  rewrite H, decode_encoded in Hd by done. by simplify_eq.
Qed.

Lemma text_tail u us w :
  Forall scalar us -> scalar u -> text us = utf8 u ++ w ->
  exists us', us = u :: us' /\ Forall scalar us' /\ w = text us'.
Proof.
  intros Hus Hu H. destruct us as [|v us].
  - apply utf8_nonempty in Hu. by destruct (utf8 u).
  - inversion_clear Hus. apply utf8_prefix in H as [-> <-]; [|done..]. by exists us.
Qed.

Lemma check_loops fuel : forall b p end_ len,
  Forall byte b -> (p <= end_ <= length b)%nat -> (end_ - p <= fuel)%nat ->
  (exists us, Forall scalar us /\ window b p end_ = text us
     /\ valid_loop fuel b p end_ = Ret true
     /\ length_loop fuel b p end_ len = Ret (len + Z.of_nat (length us)))
  \/ ((forall us, Forall scalar us -> window b p end_ <> text us)
     /\ valid_loop fuel b p end_ = Ret false
     /\ length_loop fuel b p end_ len = Ret (-1)).
Proof.
  induction fuel as [|fuel IH]; intros b p end_ len Hb Hp Hf;
    (destruct (Nat.eq_dec p end_) as [->|Hne];
     [left; exists []; rewrite window_end; cbn;
      rewrite Nat.ltb_irrefl, Z.add_0_r; split_and!; [constructor|done..]|]); [lia|].
  cbn [valid_loop length_loop]. rewrite !(proj2 (Nat.ltb_lt _ _)) by lia.
  destruct (decode_cases b p end_ Hb) as [(u & w & Hu & Hw & Hw' & Hl & Hd)|[Hn Hd]]; [lia| |];
    rewrite Hd; cbn [obind].
  - rewrite scalar_not_invalid by done.
    destruct (IH b (p + length (utf8 u))%nat end_ (len + 1)) as [(us & Hus & Ht & -> & ->)|(Hno & -> & ->)];
      [done|lia|lia| |].
    + left. exists (u :: us). split_and!; [by constructor| |done|cbn [length]; f_equal; lia].
      cbn. by rewrite Hw, <- Hw', Ht.
    + right. split_and!; [|done..]. intros us Hus Ht. rewrite Hw in Ht.
      symmetry in Ht. apply text_tail in Ht as (us' & -> & Hus' & ->); [|done..].
      by apply (Hno us').
  - right. split_and!; [|done..]. intros us Hus Ht. apply Hn.
    eapply text_starts; [exact Hus|done|]. intros Hw.
    apply (f_equal length) in Hw. rewrite window_length in Hw by lia. cbn in Hw. lia.
Qed.

Lemma store_at out d cs r k :
  (d + length cs <= length out)%nat -> k = (d + length cs)%nat ->
  exists out', store out d cs = Ret out' /\ length out' = length out
    /\ take k out' ++ r = take d out ++ cs ++ r
    /\ forall j, (k <= j)%nat -> drop j out' = drop j out.
Proof.
  intros H ->. unfold store. rewrite (proj2 (Nat.leb_le _ _)) by done.
  assert (Hd : length (take d out) = d) by (rewrite length_take; lia).
  eexists. split_and!; [done| | |].
  - rewrite !length_app, length_drop. lia.
  - rewrite app_assoc, take_app_length' by (rewrite length_app; lia). by rewrite <- app_assoc.
  - intros j Hj. rewrite app_assoc, drop_app_ge by (rewrite length_app; lia).
    rewrite drop_drop, length_app, Hd. f_equal. lia.
Qed.

(** The bytes of a character, taken from the text. *)
Lemma window_take b p end_ u w :
  (p + length (utf8 u) <= end_)%nat -> window b p end_ = utf8 u ++ w ->
  take (length (utf8 u)) (drop p b) = utf8 u.
Proof.
  intros Hl H. apply (f_equal (take (length (utf8 u)))) in H.
  rewrite take_app_length in H. unfold window in H.
  rewrite take_drop_commute, take_take in H. etransitivity; [|exact H].
  by rewrite take_drop_commute, Nat.min_l by lia.
Qed.

Lemma decode_ascii b p end_ c :
  b !! p = Some c -> c < 0x80 -> nxt_utf8_decode b p end_ = Ret (c, S p).
Proof.
  intros Hc Hlt. unfold nxt_utf8_decode. rewrite Hc. cbn [of_option obind].
  by rewrite (proj2 (Z.ltb_lt _ _)) by done.
Qed.

Lemma sanitize_loops fuel : forall b p end_,
  Forall byte b -> (p <= end_ <= length b)%nat -> (end_ - p <= fuel)%nat ->
  exists d, replaced (window b p end_) d
    /\ (forall len, sanitize_length fuel b p end_ len = Ret (len + length d)%nat)
    /\ (forall out k, (k + length d = length out)%nat ->
         sanitize_copy fuel b p end_ out k = Ret (take k out ++ d)).
Proof.
  induction fuel as [|fuel IH]; intros b p end_ Hb Hp Hf;
    (destruct (Nat.eq_dec p end_) as [->|Hne];
     [exists []; rewrite window_end; cbn [sanitize_length sanitize_copy length];
      rewrite Nat.ltb_irrefl; split_and!; [constructor|intros; f_equal; lia|];
      intros out k Hk; rewrite app_nil_r, take_ge by lia; done|]); [lia|].
  destruct (lookup_lt_is_Some_2 b p) as [c Hc]; [lia|].
  cbn [sanitize_length sanitize_copy]. rewrite !(proj2 (Nat.ltb_lt _ _)), Hc by lia.
  cbn [of_option obind].
  destruct (decode_cases b p end_ Hb) as [(u & w & Hu & Hw & Hw' & Hl & Hd)|[Hn Hd]]; [lia| |].
  - destruct (IH b (p + length (utf8 u))%nat end_) as (d & Hr & Hlen & Hcp); [done|lia|lia|].
    exists (utf8 u ++ d). rewrite Hw. rewrite Hw' in Hr. split; [by constructor|].
    rewrite Hd. cbn [obind]. rewrite scalar_not_invalid by done.
    pose proof (window_take b p end_ u w ltac:(lia) Hw) as Ht.
    replace (p + length (utf8 u) - p)%nat with (length (utf8 u)) by lia. rewrite Ht.
    assert (Hstep : forall out k, (k + length (utf8 u ++ d) = length out)%nat ->
      (let* out' := store out k (utf8 u) in
       sanitize_copy fuel b (p + length (utf8 u)) end_ out' (k + length (utf8 u)))
      = Ret (take k out ++ utf8 u ++ d)).
    { intros out k Hk. rewrite length_app in Hk.
      destruct (store_at out k (utf8 u) d _ ltac:(lia) eq_refl) as (out' & -> & Hl' & Htk & _).
      cbn [obind]. by rewrite Hcp, Htk by lia. }
    destruct (c <? 0x80) eqn:E; zbool.
    + assert (Hu1 : utf8 u = [c]).
      { rewrite (decode_ascii _ _ _ _ Hc E) in Hd. simplify_eq. rewrite <- Ht. replace (length (utf8 u)) with 1%nat by lia. by rewrite (drop_S _ _ _ Hc). }
      rewrite Hu1 in Hstep, Hlen |- *. cbn [length] in Hstep, Hlen.
      rewrite Nat.add_1_r in Hstep, Hlen. split; [|done].
      intros len. rewrite Hlen, length_app. f_equal. cbn [length]. lia.
    + split; [|done]. intros len. rewrite Hlen, length_app. f_equal. lia.
  - destruct (IH b (S p) end_) as (d & Hr & Hlen & Hcp); [done|lia|lia|].
    exists (utf8 0xFFFD ++ d). rewrite Hd. cbn [obind]. rewrite Z.eqb_refl.
    destruct (c <? 0x80) eqn:E; zbool.
    { rewrite (decode_ascii _ _ _ _ Hc E) in Hd. simplify_eq. }
    split_and!.
    + unfold window in Hn, Hr |- *. rewrite (drop_S _ c) in Hn |- * by (rewrite lookup_take_lt by lia; done).
      by constructor.
    + intros len. rewrite Hlen. f_equal. cbn. lia.
    + intros out k Hk. rewrite length_app in Hk. change (length (utf8 0xFFFD)) with 3%nat in Hk.
      destruct (store_at out k (utf8 0xFFFD) d (k + 3) ltac:(cbn; lia) eq_refl)
        as (out' & Hs & Hl' & Htk & _).
      change (utf8 0xFFFD) with [0xEF; 0xBF; 0xBD] in Hs at 1. rewrite Hs. cbn [obind].
      rewrite Hcp, Htk by lia. done.
Qed.

Lemma replaced_length w d : replaced w d -> (length w <= length d <= 3 * length w)%nat.
Proof.
  induction 1; rewrite ?length_app; [done|lia|]. change (length (utf8 0xFFFD)) with 3%nat.
  cbn [length]. lia.
Qed.

Lemma replaced_same w d : replaced w d -> length d = length w -> d = w.
Proof.
  induction 1 as [|u w d Hu Hr IH|c w d Hn Hr IH]; rewrite ?length_app; intros Hl; [done| |].
  - f_equal. apply IH. lia.
  - apply replaced_length in Hr. change (length (utf8 0xFFFD)) with 3%nat in Hl. cbn in Hl. lia.
Qed.

Lemma replaced_text w d : replaced w d -> exists us, Forall scalar us /\ d = text us.
Proof.
  induction 1 as [|u w d Hu Hr (us & Hus & ->)|c w d Hn Hr (us & Hus & ->)].
  - by exists [].
  - exists (u :: us). split; [by constructor|done].
  - exists (0xFFFD :: us). split; [constructor; [unfold scalar; lia|done]|done].
Qed.

Lemma replaced_valid us d : Forall scalar us -> replaced (text us) d -> d = text us.
Proof.
  intros Hus Hr. remember (text us) as w eqn:Hw. revert us Hus Hw.
  induction Hr as [|u w d Hu Hr IH|c w d Hn Hr IH]; intros us Hus Hw; [done| |].
  - symmetry in Hw. apply text_tail in Hw as (us' & -> & Hus' & ->); [|done..].
    by rewrite (IH us').
  - exfalso. apply Hn. by eapply text_starts.
Qed.

(** ** Properties *)

Section Properties.
  Variables (b : list Z) (p end_ : nat).
  Hypothesis Hb : Forall byte b.
  Hypothesis Hend : (end_ <= length b)%nat.

(** C35. The decoder accepts exactly the UTF-8 encodings of Unicode scalar
    values: it returns [u] and moves behind its encoding when the text begins
    with the encoding of [u] (no overlong form, no surrogate, nothing beyond
    U+10FFFF), and otherwise returns 0xFFFFFFFF and does not move. *)
Theorem nxt_utf8_decode_correct (Hp : (p < end_)%nat) :
  exists r, nxt_utf8_decode b p end_ = Ret r
  /\ (forall u w, scalar u -> window b p end_ = utf8 u ++ w ->
        r = (u, (p + length (utf8 u))%nat))
  /\ ((forall u w, scalar u -> window b p end_ <> utf8 u ++ w) -> r = (INVALID, p)).
Proof.
  destruct (decode_cases b p end_ Hb) as [(u & w & Hu & Hw & _ & _ & Hd)|[Hn Hd]]; [lia| |];
    eexists; (split; [exact Hd|]); split.
  - intros v w' Hv Hw'. rewrite Hw in Hw'. by apply utf8_prefix in Hw' as [-> _].
  - intros Hno. by destruct (Hno u w).
  - intros u w Hu Hw. exfalso. apply Hn. by exists u, w.
  - done.
Qed.

(** The validity check and the character count tell well-formed UTF-8
    from anything else, and count its characters. *)
Theorem nxt_utf8_is_valid_correct (Hp : (p <= end_)%nat) :
  (exists us, Forall scalar us /\ window b p end_ = text us
     /\ nxt_utf8_is_valid b p (end_ - p) = Ret true
     /\ nxt_utf8_length b p (end_ - p) = Ret (Z.of_nat (length us)))
  \/ ((forall us, Forall scalar us -> window b p end_ <> text us)
     /\ nxt_utf8_is_valid b p (end_ - p) = Ret false
     /\ nxt_utf8_length b p (end_ - p) = Ret (-1)).
Proof.
  unfold nxt_utf8_is_valid, nxt_utf8_length.
  replace (p + (end_ - p))%nat with end_ by lia. apply check_loops; [done|lia|lia].
Qed.

End Properties.

(** Encoding and decoding are inverse: every scalar value is encoded as
    UTF-8 has it and decoded again from any place of any text; nothing beyond
    U+10FFFF is encoded. *)
Theorem nxt_utf8_roundtrip (u : Z) :
  (scalar u -> exists e, nxt_utf8_encode u = Some e /\ e = utf8 u
     /\ forall pre post, nxt_utf8_decode (pre ++ e ++ post) (length pre) (length (pre ++ e ++ post))
          = Ret (u, (length pre + length e)%nat))
  /\ (0x110000 <= u -> nxt_utf8_encode u = None).
Proof.
  split.
  - intros Hu. exists (utf8 u). split; [apply encode_arith; unfold scalar in Hu; lia|].
    split; [done|]. intros pre post. pose proof (utf8_nonempty u Hu) as Hne.
    rewrite decode_in_window by (rewrite !length_app; destruct (utf8 u); [done|cbn; lia]).
    unfold window. rewrite firstn_all, drop_app_length, decode_encoded by done. done.
  - intros Hu. unfold nxt_utf8_encode. by tests.
Qed.

(** C36. Sanitizing replaces exactly the bytes that begin no character by
    U+FFFD: the result is always well-formed UTF-8, a well-formed text is
    returned as it is without taking memory, the result has at most three
    times the length of the input, and the block allocated after the counting
    pass is filled exactly, never overrun, by the copying pass. *)
Theorem nxt_utf8_sanitize_correct (mem : nat -> option (list Z)) (src : list Z)
  (Hsrc : Forall byte src) (Hmem : forall n out, mem n = Some out -> length out = n) :
  exists dst, replaced src dst
  /\ (exists us, Forall scalar us /\ dst = text us)
  /\ (forall us, Forall scalar us -> src = text us -> dst = src)
  /\ (length dst <= 3 * length src)%nat
  /\ nxt_utf8_sanitize mem src
     = Ret (if decide (dst = src) then Some Same
            else match mem (length dst) with None => None | Some _ => Some (Copied dst) end).
Proof.
  destruct (sanitize_loops (length src) src 0 (length src)) as (d & Hr & Hlen & Hcp);
    [done|lia|lia|].
  replace (window src 0 (length src)) with src in Hr by (unfold window; by rewrite firstn_all).
  exists d. split_and!; [done|by eapply replaced_text| |by apply replaced_length|].
  { intros us Hus ->. by apply replaced_valid. }
  unfold nxt_utf8_sanitize. rewrite Hlen. cbn [obind]. rewrite Nat.add_0_l.
  destruct (length d =? length src)%nat eqn:El; zbool; case_decide as Hd.
  - done.
  - by apply replaced_same in Hr.
  - by subst.
  - destruct (mem (length d)) as [out|] eqn:Em; [|done]. rewrite Hcp; [done|].
    by rewrite (Hmem _ _ Em).
Qed.

(** ** Witnesses *)

(** The text of the witnesses: a two-byte character, an overlong form, an
    ASCII character. *)
Definition sample_bytes : list Z := [0xC3; 0xA9; 0xC0; 0xAF; 0x41].

Lemma sample_bytes_ok : Forall byte sample_bytes.
Proof. repeat constructor; unfold byte; lia. Qed.

Lemma nxt_utf8_decode_correct_witness :
  exists r, nxt_utf8_decode sample_bytes 0 5 = Ret r
  /\ (forall u w, scalar u -> window sample_bytes 0 5 = utf8 u ++ w ->
        r = (u, length (utf8 u)))
  /\ ((forall u w, scalar u -> window sample_bytes 0 5 <> utf8 u ++ w) -> r = (INVALID, 0%nat)).
Proof. apply (nxt_utf8_decode_correct sample_bytes 0 5 sample_bytes_ok); cbn; lia. Defined.

Lemma nxt_utf8_is_valid_correct_witness :
  (exists us, Forall scalar us /\ window sample_bytes 0 5 = text us
     /\ nxt_utf8_is_valid sample_bytes 0 5 = Ret true
     /\ nxt_utf8_length sample_bytes 0 5 = Ret (Z.of_nat (length us)))
  \/ ((forall us, Forall scalar us -> window sample_bytes 0 5 <> text us)
     /\ nxt_utf8_is_valid sample_bytes 0 5 = Ret false
     /\ nxt_utf8_length sample_bytes 0 5 = Ret (-1)).
Proof. apply (nxt_utf8_is_valid_correct sample_bytes 0 5 sample_bytes_ok); cbn; lia. Defined.

Lemma nxt_utf8_roundtrip_witness :
  exists e, nxt_utf8_encode 0x20AC = Some e /\ e = utf8 0x20AC
     /\ forall pre post, nxt_utf8_decode (pre ++ e ++ post) (length pre) (length (pre ++ e ++ post))
          = Ret (0x20AC, (length pre + length e)%nat).
Proof. apply (nxt_utf8_roundtrip 0x20AC). unfold scalar. lia. Defined.

Lemma nxt_utf8_sanitize_correct_witness :
  exists dst, replaced sample_bytes dst
  /\ (exists us, Forall scalar us /\ dst = text us)
  /\ (forall us, Forall scalar us -> sample_bytes = text us -> dst = sample_bytes)
  /\ (length dst <= 3 * length sample_bytes)%nat
  /\ nxt_utf8_sanitize (fun n => Some (replicate n 0)) sample_bytes
     = Ret (if decide (dst = sample_bytes) then Some Same else Some (Copied dst)).
Proof.
  apply (nxt_utf8_sanitize_correct (fun n => Some (replicate n 0)) sample_bytes sample_bytes_ok).
  intros n out H. injection H as <-. apply length_replicate.
Defined.
