(* ===== verification/Uri.v ===== *)
(** * Percent encoding (nxt_string.c) and its users

    [nxt_decode_uri], [nxt_decode_uri_plus], [nxt_encode_uri],
    [nxt_encode_complex_uri] and [nxt_is_complex_uri_encoded], with the
    encoding of redirect locations ([nxt_http_return_encode]) and of the target
    of a proxied request ([nxt_h1p_peer_request_target]).  The decoders work on
    one block of memory, since the router decodes strings in place. *)

From S2P Require Import Prelude.

(** ** The code *)

(** The table [nxt_hex2int]. *)
Definition nxt_hex2int : list Z :=
  replicate 48 16 ++ [0; 1; 2; 3; 4; 5; 6; 7; 8; 9] ++ replicate 7 16
  ++ [10; 11; 12; 13; 14; 15] ++ replicate 26 16
  ++ [10; 11; 12; 13; 14; 15] ++ replicate 153 16.

(** The table [nxt_uri_escape]. *)
Definition nxt_uri_escape : list Z :=
  [0xffffffff; 0xd000002d; 0x50000000; 0xb8000001;
   0xffffffff; 0xffffffff; 0xffffffff; 0xffffffff].

Definition hex2int (c : Z) : outcome Z := of_option (nxt_hex2int !! Z.to_nat c).

(** The test [nxt_uri_escape[c >> 5] & (1U << (c & 0x1f))]. *)
Definition uri_escape (c : Z) : outcome bool :=
  let* w := of_option (nxt_uri_escape !! Z.to_nat (Z.shiftr c 5)) in
  Ret (negb (Z.land w (Z.shiftl 1 (Z.land c 0x1f)) =? 0)).

(** The array [hex]. *)
Definition hex : list Z := bytes_of_string "0123456789ABCDEF".

Definition hex_char (d : Z) : outcome Z := of_option (hex !! Z.to_nat d).

Definition load (mem : list Z) (p : nat) : outcome Z := of_option (mem !! p).

Definition put (mem : list Z) (p : nat) (c : Z) : outcome (list Z) :=
  if (p <? length mem)%nat then Ret (<[p := c]> mem) else Fault.

(** The loop of [nxt_decode_uri] ([plus] false) and of [nxt_decode_uri_plus]:
    the memory and the value of [dst], [None] for [NULL].  It takes one
    iteration per byte at most. *)
Fixpoint decode_loop (plus : bool) (fuel : nat) (mem : list Z) (dst src end_ : nat) :
    outcome (list Z * option nat) :=
  if (src <? end_)%nat then
    match fuel with
    | O => OutOfFuel
    | S fuel' =>
      let* ch := load mem src in
      let src := S src in
      if ch =? PERCENT then
        if (end_ - src <? 2)%nat then Ret (mem, None)
        else
          let* c0 := load mem src in
          let* d0 := hex2int c0 in
          let* c1 := load mem (S src) in
          let* d1 := hex2int c1 in
          if 16 <=? Z.lor d0 d1 then Ret (mem, None)
          else
            let* mem := put mem dst (u8 (Z.shiftl d0 4 + d1)) in
            decode_loop plus fuel' mem (S dst) (S (S src)) end_
      else
        let ch := if plus && (ch =? PLUS) then SP else ch in
        let* mem := put mem dst ch in
        decode_loop plus fuel' mem (S dst) src end_
    end
  else Ret (mem, Some dst).

Definition nxt_decode_uri (mem : list Z) (dst src len : nat) : outcome (list Z * option nat) :=
  decode_loop false len mem dst src (src + len).

Definition nxt_decode_uri_plus (mem : list Z) (dst src len : nat) :
    outcome (list Z * option nat) :=
  decode_loop true len mem dst src (src + len).

(** [nxt_encode_uri] with a null [dst]: the number of characters to escape. *)
Fixpoint nxt_encode_uri_count (src : list Z) (n : nat) : outcome nat :=
  match src with
  | [] => Ret n
  | c :: src' =>
    let* e := uri_escape c in
    nxt_encode_uri_count src' (if e then S n else n)
  end.

(** The three bytes of an escaped character. *)
Definition escape (c : Z) : outcome (list Z) :=
  let* h := hex_char (Z.shiftr c 4) in
  let* l := hex_char (Z.land c 0xf) in
  Ret [PERCENT; h; l].

(** [nxt_encode_uri] with a [dst]: the bytes written there. *)
Fixpoint nxt_encode_uri (src : list Z) : outcome (list Z) :=
  match src with
  | [] => Ret []
  | c :: src' =>
    let* e := uri_escape c in
    let* cs := (if e then escape c else Ret [c]) in
    let* out := nxt_encode_uri src' in
    Ret (cs ++ out)
  end.

(** The string literal [reserved] points to, with its final NUL. *)
Definition reserved_literal : list Z := [QMARK; HASH; NUL; NUL].

(** [reserved[i]] for the pointer [r]. *)
Definition reserved (r i : nat) : outcome Z := of_option (reserved_literal !! (r + i)%nat).

(** What becomes of a character of the escape set: [Some r] moves the pointer
    to [r] and keeps the character, [None] escapes it. *)
Definition reserved_step (r : nat) (ch : Z) : outcome (option nat) :=
  let* r0 := reserved r 0 in
  if ch =? r0 then Ret (Some (r + 1)%nat)
  else
    let* r1 := reserved r 1 in
    if ch =? r1 then Ret (Some (r + 2)%nat) else Ret None.

Fixpoint nxt_encode_complex_uri_count (src : list Z) (r : nat) (n : nat) : outcome nat :=
  match src with
  | [] => Ret n
  | ch :: src' =>
    let* e := uri_escape ch in
    if e then
      let* k := reserved_step r ch in
      match k with
      | Some r' => nxt_encode_complex_uri_count src' r' n
      | None => nxt_encode_complex_uri_count src' r (S n)
      end
    else nxt_encode_complex_uri_count src' r n
  end.

Fixpoint nxt_encode_complex_uri (src : list Z) (r : nat) : outcome (list Z) :=
  match src with
  | [] => Ret []
  | ch :: src' =>
    let* e := uri_escape ch in
    let* (cs, r') :=
      (if e then
         let* k := reserved_step r ch in
         match k with
         | Some r' => Ret ([ch], r')
         | None => let* cs := escape ch in Ret (cs, r)
         end
       else Ret ([ch], r)) in
    let* out := nxt_encode_complex_uri src' r' in
    Ret (cs ++ out)
  end.

(** [nxt_is_complex_uri_encoded] reads the two bytes behind a percent sign
    after checking that they are there. *)
Fixpoint nxt_is_complex_uri_encoded (src : list Z) (r : nat) : outcome bool :=
  match src with
  | [] => Ret true
  | ch :: src' =>
    let* e := uri_escape ch in
    if e then
      if ch =? PERCENT then
        match src' with
        | c0 :: c1 :: src'' =>
          let* d0 := hex2int c0 in
          let* d1 := hex2int c1 in
          if 16 <=? Z.lor d0 d1 then Ret false else nxt_is_complex_uri_encoded src'' r
        | _ => Ret false
        end
      else
        let* k := reserved_step r ch in
        match k with
        | Some r' => nxt_is_complex_uri_encoded src' r'
        | None => Ret false
        end
    else nxt_is_complex_uri_encoded src' r
  end.

(** [nxt_http_return_encode]: [get] is [nxt_mp_nget], true when it finds the
    memory; a write past the length asked for is a fault.  [None] is
    [NXT_ERROR]. *)
Definition nxt_http_return_encode (get : nat -> bool) (location : list Z) :
    outcome (option (list Z)) :=
  let* enc := nxt_is_complex_uri_encoded location 0 in
  if enc then Ret (Some location)
  else
    let* encode := nxt_encode_complex_uri_count location 0 0 in
    let len := (length location + encode * 2)%nat in
    if get len then
      let* out := nxt_encode_complex_uri location 0 in
      if (length out =? len)%nat then Ret (Some out) else Fault
    else Ret None.

(** The members of [nxt_http_request_t] that make the target of a proxied
    request. *)
Record proxied := Proxied {
  uri_changed : bool;
  quoted_target : bool;
  target : list Z;
  path : list Z;
  args : list Z
}.

Definition nxt_h1p_peer_request_target (get : nat -> bool) (r : proxied) :
    outcome (option (list Z)) :=
  if negb (uri_changed r) then Ret (Some (target r))
  else if negb (quoted_target r) && (length (args r) =? 0)%nat then Ret (Some (path r))
  else
    let* encode := (if quoted_target r
                    then nxt_encode_complex_uri_count (path r) 0 0 else Ret 0%nat) in
    let size := (length (path r) + encode * 2 + 1 + length (args r))%nat in
    if get size then
      let* p := (if quoted_target r
                 then nxt_encode_complex_uri (path r) 0 else Ret (path r)) in
      let p := if (0 <? length (args r))%nat then p ++ [QMARK] ++ args r else p in
      if (length p <=? size)%nat then Ret (Some p) else Fault
    else Ret None.

(** ** The reference *)

(** The bytes RFC 3986 does not allow in a path or query, and the delimiters
    of these. *)
Definition escaped (c : Z) : bool :=
  (c <=? SP) || (DEL <=? c)
  || existsb (Z.eqb c) (bytes_of_string "#%<>?\^`{|}") || (c =? DQUOTE).

Definition hex_value (c : Z) : option Z :=
  if (CH_0 <=? c) && (c <=? CH_9) then Some (c - CH_0)
  else if (CH_A <=? c) && (c <=? CH_F) then Some (c - CH_A + 10)
  else if (CH_a <=? c) && (c <=? CH_f) then Some (c - CH_a + 10)
  else None.

Definition hex_digit (d : Z) : Z := if d <? 10 then CH_0 + d else CH_A + (d - 10).

(** Percent decoding, with [+] for a space when [plus] holds. *)
Fixpoint percent_decode (plus : bool) (s : list Z) : option (list Z) :=
  match s with
  | [] => Some []
  | c :: s' =>
    if c =? PERCENT then
      match s' with
      | h :: l :: s'' =>
        match hex_value h, hex_value l with
        | Some a, Some b => cons (a * 16 + b) <$> percent_decode plus s''
        | _, _ => None
        end
      | _ => None
      end
    else cons (if plus && (c =? PLUS) then SP else c) <$> percent_decode plus s'
  end.

Definition percent (c : Z) : list Z := [PERCENT; hex_digit (c / 16); hex_digit (c mod 16)].

(** A target: a path, and after the first question mark a query, and after the
    first hash sign a fragment.  [sep c k] says that [c] is such a separator
    in part [k] (0 path, 1 query, 2 fragment) and gives the next part. *)
Definition sep (k : nat) (c : Z) : option nat :=
  match k with
  | 0%nat => if c =? QMARK then Some 1%nat else if c =? HASH then Some 2%nat else None
  | 1%nat => if c =? HASH then Some 2%nat else None
  | _ => None
  end.

Fixpoint encode_parts (k : nat) (s : list Z) : list Z :=
  match s with
  | [] => []
  | c :: s' =>
    match sep k c with
    | Some k' => c :: encode_parts k' s'
    | None => (if escaped c then percent c else [c]) ++ encode_parts k s'
    end
  end.

(** ** The tables *)

Lemma uri_escape_ok c : byte c -> uri_escape c = Ret (escaped c).
Proof. revert c. apply (byte_decide (fun c => _ = _)). vm_compute. reflexivity. Qed.

Lemma hex2int_ok c : byte c -> hex2int c = Ret (default 16 (hex_value c)).
Proof. revert c. apply (byte_decide (fun c => _ = _)). vm_compute. reflexivity. Qed.

Lemma escape_ok c : byte c -> escape c = Ret (percent c).
Proof. revert c. apply (byte_decide (fun c => _ = _)). vm_compute. reflexivity. Qed.

Lemma percent_hex c : byte c ->
  hex_value (hex_digit (c / 16)) = Some (c / 16)
  /\ hex_value (hex_digit (c mod 16)) = Some (c mod 16)
  /\ byte (hex_digit (c / 16)) /\ byte (hex_digit (c mod 16)).
Proof.
  revert c. apply (byte_decide (fun c => _ /\ _)). vm_compute. reflexivity.
Qed.

Lemma hex_value_range c v : hex_value c = Some v -> 0 <= v < 16.
Proof. unfold hex_value. repeat case_match; intros; simplify_eq; zbool; lia. Qed.

Lemma hex_pair h l :
  (16 <=? Z.lor (default 16 (hex_value h)) (default 16 (hex_value l)))
  = match hex_value h, hex_value l with Some _, Some _ => false | _, _ => true end.
Proof.
  change 16 with (2 ^ 4) at 1.
  destruct (hex_value h) as [a|] eqn:Eh; destruct (hex_value l) as [b|] eqn:El; cbn [default from_option id];
    try apply hex_value_range in Eh; try apply hex_value_range in El;
    rewrite lor_pow2_le by lia; change (2 ^ 4) with 16; try (by rewrite ?orb_true_r).
  rewrite !(proj2 (Z.leb_gt _ _)) by lia. done.
Qed.

(** ** Decoding *)

Lemma take_S_insert (mem : list Z) d c :
  (d < length mem)%nat -> take (S d) (<[d := c]> mem) = take d mem ++ [c].
Proof.
  intros Hd. erewrite take_S_r; [|apply list_lookup_insert_eq; lia].
  by rewrite take_insert_ge by lia.
Qed.

(** The memory after [out] is written at [dst]. *)
Definition written (mem : list Z) (dst : nat) (out : list Z) : list Z :=
  take dst mem ++ out ++ drop (dst + length out) mem.

Lemma written_nil mem dst : written mem dst [] = mem.
Proof. unfold written. cbn. by rewrite Nat.add_0_r, take_drop. Qed.

Lemma written_cons mem dst c out :
  (dst < length mem)%nat ->
  written (<[dst := c]> mem) (S dst) out = written mem dst (c :: out).
Proof.
  intros Hd. unfold written. rewrite take_S_insert, <- app_assoc by done. cbn [app length].
  do 3 f_equal. rewrite drop_insert_lt by lia. f_equal. lia.
Qed.

Lemma load_ok mem p c : mem !! p = Some c -> load mem p = Ret c.
Proof. intros H. unfold load. by rewrite H. Qed.

Lemma put_ok mem p c : (p < length mem)%nat -> put mem p c = Ret (<[p := c]> mem).
Proof. intros H. unfold put. by rewrite (proj2 (Nat.ltb_lt _ _)). Qed.

Lemma hex_byte a b : 0 <= a < 16 -> 0 <= b < 16 -> u8 (Z.shiftl a 4 + b) = a * 16 + b.
Proof.
  intros Ha Hb. unfold u8. rewrite Z.shiftl_mul_pow2 by lia. change (2 ^ 4) with 16.
  apply Z.mod_small. lia.
Qed.

(** The outcome [o] of a decoder that has [r] to write at [dst], in at most [n]
    bytes. *)
Definition decoded (mem : list Z) (dst n : nat) (r : option (list Z))
    (o : outcome (list Z * option nat)) : Prop :=
  exists mem', o = Ret (mem', (fun out => dst + length out)%nat <$> r)
  /\ forall out, r = Some out -> mem' = written mem dst out /\ (length out <= n)%nat.

Lemma decoded_put mem dst c n m r o :
  (dst < length mem)%nat -> (n < m)%nat -> decoded (<[dst := c]> mem) (S dst) n r o ->
  decoded mem dst m (cons c <$> r) o.
Proof.
  intros Hd Hn (mem' & -> & Hm). exists mem'. split.
  - do 2 f_equal. destruct r; [|done]. cbn. f_equal. lia.
  - intros out Hout. destruct r as [out'|]; [|done]. cbn in Hout. simplify_eq.
    destruct (Hm out' eq_refl) as [-> Hle]. rewrite written_cons by lia.
    split; [done|cbn [length]; lia].
Qed.

Lemma decoded_none mem dst n : decoded mem dst n None (Ret (mem, None)).
Proof. by exists mem. Qed.

Lemma decode_loop_ok plus fuel : forall mem dst src end_,
  Forall byte mem -> (src <= end_ <= length mem)%nat -> (end_ - src <= fuel)%nat ->
  (dst <= src \/ end_ <= dst)%nat -> (dst + (end_ - src) <= length mem)%nat ->
  decoded mem dst (end_ - src) (percent_decode plus (window mem src end_))
    (decode_loop plus fuel mem dst src end_).
Proof.
  induction fuel as [|fuel IH]; intros mem dst src end_ Hmem Hsrc Hf Hd Hl;
    (destruct (Nat.eq_dec src end_) as [->|Hne];
     [exists mem; rewrite window_end; cbn; rewrite Nat.ltb_irrefl, Nat.add_0_r;
      split; [done|intros out Hout; simplify_eq; rewrite written_nil; split; [done|cbn;lia]]|]);
    [lia|].
  assert (Hput : forall c src', byte c -> (src < src' <= end_)%nat ->
    decoded mem dst (end_ - src) (cons c <$> percent_decode plus (window mem src' end_))
      (let* mem := put mem dst c in decode_loop plus fuel mem (S dst) src' end_)).
  { intros c src' Hc Hs'. rewrite put_ok by lia. cbn [obind].
    apply (decoded_put _ _ _ (end_ - src')); [lia|lia|].
    rewrite <- (window_insert mem src' end_ dst c) by lia.
    apply IH; rewrite ?length_insert; try lia. by apply Forall_insert. }
  cbn [decode_loop]. rewrite (proj2 (Nat.ltb_lt _ _)) by lia.
  destruct (lookup_lt_is_Some_2 mem src) as [c Hc]; [lia|].
  rewrite (load_ok _ _ _ Hc), (window_cons mem src end_ c) by (done || lia).
  pose proof (Forall_lookup_1 _ _ _ _ Hmem Hc) as Hbc.
  cbn [obind percent_decode]. destruct (c =? PERCENT) eqn:Ep.
  2:{ apply Hput; [|lia]. destruct (plus && (c =? PLUS)); [unfold byte; lia|done]. }
  destruct (end_ - S src <? 2)%nat eqn:E2; zbool.
  { pose proof (window_length mem (S src) end_ ltac:(lia)) as Hwl.
    destruct (window mem (S src) end_) as [|c0 [|c1 w]]; [| |cbn in Hwl; lia]; apply decoded_none. }
  destruct (lookup_lt_is_Some_2 mem (S src)) as [c0 H0]; [lia|].
  destruct (lookup_lt_is_Some_2 mem (S (S src))) as [c1 H1]; [lia|].
  rewrite (window_cons mem (S src) end_ c0), (window_cons mem (S (S src)) end_ c1) by (done || lia).
  rewrite (load_ok _ _ _ H0), (load_ok _ _ _ H1). cbn [obind].
  rewrite !hex2int_ok by (by eapply Forall_lookup_1). cbn [obind]. rewrite hex_pair.
  destruct (hex_value c0) as [a|] eqn:Ea; [|apply decoded_none].
  destruct (hex_value c1) as [b|] eqn:Eb; [|apply decoded_none].
  apply hex_value_range in Ea, Eb. cbn [default from_option id]. rewrite hex_byte by done.
  apply Hput; [unfold byte; lia|lia].
Qed.

(** ** Encoding *)

Definition encode_all (s : list Z) : list Z :=
  concat (map (fun c => if escaped c then percent c else [c]) s).

Lemma encode_uri_ok s : Forall byte s -> nxt_encode_uri s = Ret (encode_all s).
Proof.
  induction 1 as [|c s Hc Hs IH]; [done|]. cbn [nxt_encode_uri].
  rewrite uri_escape_ok, IH by done. cbn [obind]. unfold encode_all. cbn [map concat].
  destruct (escaped c); [rewrite escape_ok by done|]; done.
Qed.

Lemma encode_uri_count_ok s : forall n, Forall byte s ->
  exists k, nxt_encode_uri_count s n = Ret (n + k)%nat
    /\ length (encode_all s) = (length s + k * 2)%nat.
Proof.
  induction s as [|c s IH]; intros n Hs.
  { exists 0%nat. cbn. by rewrite Nat.add_0_r. }
  inversion_clear Hs as [|? ? Hc Hs']. cbn [nxt_encode_uri_count].
  rewrite uri_escape_ok by done. cbn [obind]. unfold encode_all. cbn [map concat].
  fold (encode_all s). rewrite length_app.
  destruct (escaped c).
  - destruct (IH (S n) Hs') as (k & -> & Hl). exists (S k). cbn [percent length].
    split; [f_equal|]; lia.
  - destruct (IH n Hs') as (k & -> & Hl). exists k. cbn [length]. split; [done|lia].
Qed.

Lemma decode_percent c s : byte c ->
  percent_decode false (percent c ++ s) = cons c <$> percent_decode false s.
Proof.
  intros Hc. unfold percent. cbn [app percent_decode]. rewrite Z.eqb_refl.
  destruct (percent_hex c Hc) as (-> & -> & _). by replace (c / 16 * 16 + c mod 16) with c by dlia.
Qed.

Lemma decode_plain c s : c <> PERCENT ->
  percent_decode false (c :: s) = cons c <$> percent_decode false s.
Proof. intros Hc. cbn [percent_decode]. by rewrite (proj2 (Z.eqb_neq _ _)) by done. Qed.

Lemma not_escaped c : byte c -> escaped c = false -> c <> PERCENT /\ SP < c < DEL.
Proof.
  revert c. apply (byte_decide (fun c => _ -> _)). vm_compute. reflexivity.
Qed.

Lemma decode_encode_all s : Forall byte s -> percent_decode false (encode_all s) = Some s.
Proof.
  induction 1 as [|c s Hc Hs IH]; [done|]. unfold encode_all. cbn [map concat]. fold (encode_all s).
  destruct (escaped c) eqn:E; [rewrite decode_percent by done|].
  - by rewrite IH.
  - cbn [app]. rewrite decode_plain, IH; [done|]. by apply not_escaped.
Qed.

(** ** Encoding of targets *)

Definition nul_free (s : list Z) : Prop := Forall (fun c => byte c /\ c <> NUL) s.

Lemma nul_free_byte s : nul_free s -> Forall byte s.
Proof. intros H. eapply Forall_impl; [exact H|]. by intros ? [? _]. Qed.

Lemma reserved_step_ok k ch : (k <= 2)%nat -> ch <> NUL -> reserved_step k ch = Ret (sep k ch).
Proof.
  intros Hk Hch. apply Z.eqb_neq in Hch.
  destruct k as [|[|[|k]]]; [..|lia]; unfold reserved_step, reserved; cbn;
    rewrite ?Hch; split_ifs; done.
Qed.

Lemma sep_cases k c k' : sep k c = Some k' ->
  (k' <= 2)%nat /\ escaped c = true /\ c <> PERCENT /\ SP < c < DEL.
Proof.
  destruct k as [|[|k]]; cbn; repeat case_match; intros; simplify_eq; zbool; subst;
    (split_and!; [lia|done|lia..]).
Qed.

(** One character of the three functions on targets. *)
Lemma encode_complex_ok s : forall k, nul_free s -> (k <= 2)%nat ->
  nxt_encode_complex_uri s k = Ret (encode_parts k s).
Proof.
  induction s as [|c s IH]; intros k Hs Hk; [done|]. inversion_clear Hs as [|? ? [Hc Hc0] Hs'].
  cbn [nxt_encode_complex_uri encode_parts]. rewrite uri_escape_ok by done. cbn [obind].
  destruct (escaped c) eqn:E.
  - rewrite reserved_step_ok by done. cbn [obind]. destruct (sep k c) as [k'|] eqn:Es; cbn [obind].
    + destruct (sep_cases _ _ _ Es) as [Hk' _]. by rewrite IH.
    + rewrite escape_ok by done. cbn [obind]. rewrite IH by done. done.
  - destruct (sep k c) as [k'|] eqn:Es; [apply sep_cases in Es as (_ & Es & _); congruence|].
    cbn [obind]. by rewrite IH.
Qed.

Lemma encode_complex_count_ok s : forall k n, nul_free s -> (k <= 2)%nat ->
  exists m, nxt_encode_complex_uri_count s k n = Ret (n + m)%nat
    /\ length (encode_parts k s) = (length s + m * 2)%nat.
Proof.
  induction s as [|c s IH]; intros k n Hs Hk; [exists 0%nat; cbn; by rewrite Nat.add_0_r|].
  inversion_clear Hs as [|? ? [Hc Hc0] Hs'].
  cbn [nxt_encode_complex_uri_count encode_parts]. rewrite uri_escape_ok by done. cbn [obind].
  destruct (sep k c) as [k'|] eqn:Es.
  - destruct (sep_cases _ _ _ Es) as (Hk' & -> & _). rewrite reserved_step_ok, Es by done.
    cbn [obind]. destruct (IH k' n Hs' Hk') as (m & -> & Hl). exists m. cbn [length].
    split; [done|lia].
  - rewrite length_app. destruct (escaped c).
    + rewrite reserved_step_ok, Es by done. cbn [obind].
      destruct (IH k (S n) Hs' Hk) as (m & -> & Hl). exists (S m). cbn [percent length].
      split; [f_equal|]; lia.
    + destruct (IH k n Hs' Hk) as (m & -> & Hl). exists m. cbn [length]. split; [done|lia].
Qed.

Lemma decode_encode_parts s : forall k, nul_free s -> percent_decode false (encode_parts k s) = Some s.
Proof.
  induction s as [|c s IH]; intros k Hs; [done|]. inversion_clear Hs as [|? ? [Hc Hc0] Hs'].
  cbn [encode_parts]. destruct (sep k c) as [k'|] eqn:Es.
  - destruct (sep_cases _ _ _ Es) as (_ & _ & Hp & _). by rewrite decode_plain, IH.
  - destruct (escaped c) eqn:E; [by rewrite decode_percent, IH|].
    cbn [app]. rewrite decode_plain, IH by (done || by apply not_escaped). done.
Qed.

Lemma hex_digit_not_escaped c : byte c ->
  escaped PERCENT = true /\ hex2int (hex_digit (c / 16)) = Ret (c / 16)
  /\ hex2int (hex_digit (c mod 16)) = Ret (c mod 16) /\ (16 <=? Z.lor (c / 16) (c mod 16)) = false.
Proof.
  revert c. apply (byte_decide (fun c => _ /\ _)). vm_compute. reflexivity.
Qed.

Lemma encode_parts_encoded s : forall k, nul_free s -> (k <= 2)%nat ->
  nxt_is_complex_uri_encoded (encode_parts k s) k = Ret true.
Proof.
  induction s as [|c s IH]; intros k Hs Hk; [done|]. inversion_clear Hs as [|? ? [Hc Hc0] Hs'].
  cbn [encode_parts]. destruct (sep k c) as [k'|] eqn:Es.
  - cbn [nxt_is_complex_uri_encoded]. rewrite uri_escape_ok by done. cbn [obind].
    destruct (sep_cases _ _ _ Es) as (Hk' & -> & Hp & _).
    rewrite (proj2 (Z.eqb_neq _ _)), reserved_step_ok, Es by done. cbn [obind]. by apply IH.
  - destruct (escaped c) eqn:E; cbn [app percent nxt_is_complex_uri_encoded].
    + rewrite uri_escape_ok by (unfold byte; lia).
      destruct (hex_digit_not_escaped c Hc) as (-> & -> & -> & Hl). cbn [obind].
      rewrite Z.eqb_refl, Hl. by apply IH.
    + rewrite uri_escape_ok, E by done. cbn [obind]. by apply IH.
Qed.

Lemma hex_visible c v : hex_value c = Some v -> SP < c < DEL.
Proof. unfold hex_value. repeat case_match; intros; simplify_eq; zbool; lia. Qed.

(** An encoded target has visible ASCII characters only. *)
Lemma encoded_visible n : forall s k, (length s <= n)%nat -> nul_free s -> (k <= 2)%nat ->
  nxt_is_complex_uri_encoded s k = Ret true -> Forall (fun c => SP < c < DEL) s.
Proof.
  induction n as [|n IH]; intros s k Hn Hs Hk H; (destruct s as [|c s]; [constructor|]);
    cbn [length] in Hn; [lia|].
  inversion_clear Hs as [|? ? [Hc Hc0] Hs']. cbn [nxt_is_complex_uri_encoded] in H.
  rewrite uri_escape_ok in H by done. cbn [obind] in H. destruct (escaped c) eqn:E.
  2:{ constructor; [by apply not_escaped|]. by apply (IH s k); [lia|..]. }
  destruct (c =? PERCENT) eqn:Ep; zbool.
  - subst c. destruct s as [|c0 [|c1 s]]; [done..|]. cbn [length] in Hn.
    inversion_clear Hs' as [|? ? [H0 _] Hs]. inversion_clear Hs as [|? ? [H1 _] Hs'].
    rewrite !hex2int_ok in H by done. cbn [obind] in H. rewrite hex_pair in H.
    destruct (hex_value c0) eqn:E0; [|done]. destruct (hex_value c1) eqn:E1; [|done].
    apply hex_visible in E0, E1.
    do 3 (constructor; [lia|]). by apply (IH s k); [lia|..].
  - rewrite reserved_step_ok in H by done. cbn [obind] in H.
    destruct (sep k c) as [k'|] eqn:Es; [|done]. apply sep_cases in Es as (Hk' & _ & _ & Hv).
    constructor; [done|]. by apply (IH s k'); [lia|..].
Qed.

Lemma percent_visible c : byte c ->
  Forall (fun c => SP < c < DEL /\ (escaped c = true -> c = PERCENT)) (percent c).
Proof. revert c. apply (byte_decide (fun c => Forall _ _)). vm_compute. reflexivity. Qed.

Lemma is_encoded_total s k : nul_free s -> (k <= 2)%nat ->
  exists b, nxt_is_complex_uri_encoded s k = Ret b.
Proof.
  remember (length s) as n eqn:Hn. assert (Hle : (length s <= n)%nat) by lia. clear Hn.
  revert s k Hle. induction n as [|n IH]; intros s k Hn Hs Hk;
    (destruct s as [|c s]; [by eexists|]); cbn [length] in Hn; [lia|].
  inversion_clear Hs as [|? ? [Hc Hc0] Hs']. cbn [nxt_is_complex_uri_encoded].
  rewrite uri_escape_ok by done. cbn [obind].
  destruct (escaped c); [|by apply IH; [lia|..]].
  destruct (c =? PERCENT).
  - destruct s as [|c0 [|c1 s]]; [by eexists..|]. cbn [length] in Hn.
    inversion_clear Hs' as [|? ? [H0 _] Hs]. inversion_clear Hs as [|? ? [H1 _] Hs'].
    rewrite !hex2int_ok by done. cbn [obind]. case_match; [by eexists|]. by apply IH; [lia|..].
  - rewrite reserved_step_ok by done. cbn [obind]. destruct (sep k c) as [k'|] eqn:Es; [|by eexists].
    destruct (sep_cases _ _ _ Es) as [Hk' _]. by apply IH; [lia|..].
Qed.

Lemma encode_parts_nul_free s : forall k, nul_free s -> nul_free (encode_parts k s).
Proof.
  induction s as [|c s IH]; intros k Hs; [constructor|].
  inversion_clear Hs as [|? ? [Hc Hc0] Hs']. cbn [encode_parts].
  destruct (sep k c) as [k'|]; [by constructor; [|apply IH]|].
  apply Forall_app_2; [|by apply IH]. destruct (escaped c); [|by apply Forall_singleton].
  eapply Forall_impl; [by apply percent_visible|]. intros y [Hy _]. unfold byte. lia.
Qed.

(** ** Properties *)

(** C37. Decoding, in place or to another block, stores the percent-decoded
    text at [dst], moves [dst] behind it and changes no other byte; it fails
    exactly on a percent sign without two hexadecimal digits.  Neither form
    reads or writes outside the two texts. *)
Theorem nxt_decode_uri_correct (mem : list Z) (dst src len : nat) (Hmem : Forall byte mem)
  (Hsrc : (src + len <= length mem)%nat) (Hdst : (dst + len <= length mem)%nat)
  (Hapart : (dst <= src \/ src + len <= dst)%nat) :
  decoded mem dst len (percent_decode false (window mem src (src + len)))
    (nxt_decode_uri mem dst src len)
  /\ decoded mem dst len (percent_decode true (window mem src (src + len)))
    (nxt_decode_uri_plus mem dst src len).
Proof.
  assert (H : (src + len - src)%nat = len) by lia.
  split; [pose proof (decode_loop_ok false len mem dst src (src + len)) as Hd
         |pose proof (decode_loop_ok true len mem dst src (src + len)) as Hd];
    rewrite H in Hd; by apply Hd; [|lia..].
Qed.

(** What [nxt_encode_uri] writes decodes to the source, has exactly the
    length its counting pass announces, and consists of visible ASCII
    characters none of which needs escaping but the percent signs it adds. *)
Theorem nxt_encode_uri_roundtrip (s : list Z) (Hs : Forall byte s) :
  exists out n, nxt_encode_uri s = Ret out /\ nxt_encode_uri_count s 0 = Ret n
  /\ length out = (length s + n * 2)%nat
  /\ percent_decode false out = Some s
  /\ Forall (fun c => SP < c < DEL /\ (escaped c = true -> c = PERCENT)) out.
Proof.
  destruct (encode_uri_count_ok s 0 Hs) as (n & Hn & Hl).
  exists (encode_all s), n. split_and!; [by apply encode_uri_ok|done|done|by apply decode_encode_all|].
  clear Hn Hl. induction Hs as [|c s Hc Hs IH]; [constructor|].
  unfold encode_all. cbn [map concat]. apply Forall_app_2; [|done].
  destruct (escaped c) eqn:E.
  - apply percent_visible. done.
  - apply Forall_singleton. split; [by apply not_escaped|congruence].
Qed.


(** The target of a proxied request whose URI was changed: the path,
    encoded when it was quoted, then the arguments behind a question mark,
    within the memory asked for; and the received target otherwise. *)
Theorem nxt_h1p_peer_request_target_correct (get : nat -> bool) (r : proxied)
  (Hpath : nul_free (path r)) (Hget : forall n, get n = true) :
  nxt_h1p_peer_request_target get r
  = Ret (Some (if uri_changed r then
                 (if quoted_target r then encode_parts 0 (path r) else path r)
                 ++ (if decide (args r = []) then [] else QMARK :: args r)
               else target r)).
Proof.
  unfold nxt_h1p_peer_request_target. destruct (uri_changed r); cbn [negb]; [|done].
  assert (Hcnt : exists m,
    (if quoted_target r then nxt_encode_complex_uri_count (path r) 0 0 else Ret 0%nat) = Ret m
    /\ length (if quoted_target r then encode_parts 0 (path r) else path r)
       = (length (path r) + m * 2)%nat).
  { destruct (quoted_target r); [|by exists 0%nat; rewrite Nat.add_0_r].
    destruct (encode_complex_count_ok (path r) 0 0 Hpath) as (m & -> & Hl); [lia|]. by exists m. }
  assert (Henc : (if quoted_target r then nxt_encode_complex_uri (path r) 0 else Ret (path r))
    = Ret (if quoted_target r then encode_parts 0 (path r) else path r)).
  { destruct (quoted_target r); [|done]. apply encode_complex_ok; [done|lia]. }
  destruct Hcnt as (m & -> & Hl). rewrite Henc. cbn [obind]. rewrite Hget.
  destruct (args r) as [|a l]; case_decide; try done; cbn [length].
  - rewrite !app_nil_r. change ((0 =? 0)%nat) with true.
    destruct (quoted_target r); cbn [negb andb]; [|done].
    change ((0 <? 0)%nat) with false. cbv iota beta zeta.
    by rewrite (proj2 (Nat.leb_le _ _)) by lia.
  - change ((S (length l) =? 0)%nat) with false. rewrite andb_false_r.
    change ((0 <? S (length l))%nat) with true. cbv iota beta zeta.
    rewrite (proj2 (Nat.leb_le _ _)); [done|]. rewrite length_app, Hl. cbn [length app]. lia.
Qed.

(** The separators kept are looked up behind the literal of the source:
    once a question mark and a NUL are passed the pointer is on its last byte,
    and the next character to escape is compared with the byte after it. *)
Theorem nxt_encode_complex_uri_nul_overread :
  nxt_encode_complex_uri [SLASH; QMARK; NUL; SP] 0 = Fault
  /\ nxt_is_complex_uri_encoded [SLASH; QMARK; NUL; SP] 0 = Fault
  /\ nxt_encode_complex_uri [SLASH; QMARK; NUL] 0 = Ret [SLASH; QMARK; NUL].
Proof. vm_compute. done. Qed.

(** A question mark of a decoded path is sent as the start of a query:
    for the path "/a?b" of a request for "/a%3Fb" the proxied target is that
    of a request for "/a" with arguments "b". *)
Theorem nxt_h1p_peer_request_target_qmark :
  nxt_h1p_peer_request_target (fun _ => true)
    (Proxied true true (bytes_of_string "/x") (bytes_of_string "/a?b") [])
  = nxt_h1p_peer_request_target (fun _ => true)
    (Proxied true false (bytes_of_string "/x") (bytes_of_string "/a") (bytes_of_string "b")).
Proof. vm_compute. done. Qed.

(** ** Witnesses *)

Lemma nxt_decode_uri_correct_witness :
  decoded (bytes_of_string "a%20b") 0 5 (percent_decode false (bytes_of_string "a%20b"))
    (nxt_decode_uri (bytes_of_string "a%20b") 0 0 5).
Proof.
  apply (nxt_decode_uri_correct (bytes_of_string "a%20b") 0 0 5 (bytes_of_string_byte _)); cbn; lia.
Defined.

Lemma nxt_encode_uri_roundtrip_witness :
  exists out n, nxt_encode_uri [SLASH; SP; 200] = Ret out
  /\ nxt_encode_uri_count [SLASH; SP; 200] 0 = Ret n
  /\ length out = (3 + n * 2)%nat
  /\ percent_decode false out = Some [SLASH; SP; 200]
  /\ Forall (fun c => SP < c < DEL /\ (escaped c = true -> c = PERCENT)) out.
Proof.
  apply (nxt_encode_uri_roundtrip [SLASH; SP; 200]). repeat constructor; unfold byte; lia.
Defined.


Lemma nxt_h1p_peer_request_target_correct_witness :
  nxt_h1p_peer_request_target (fun _ => true)
    (Proxied true true [] [SLASH; SP] [CH_a])
  = Ret (Some (bytes_of_string "/%20?a")).
Proof.
  rewrite (nxt_h1p_peer_request_target_correct (fun _ => true) (Proxied true true [] [SLASH; SP] [CH_a]));
    [done| |done]. repeat constructor; unfold byte; lia.
Defined.
