(* ===== verification/Base64.v ===== *)
(** * Base64 (nxt_string.c)

    [nxt_base64_decode] in its two uses: with a null [dst] it checks a string
    and computes the length of the data, with a [dst] it decodes a string that
    was checked before.  The reference is the encoding of RFC 4648 with the
    standard alphabet, with or without padding. *)

From S2P Require Import Prelude.

(** ** The code *)

Abbreviation EQUALS := 61 (only parsing).

(** The table [decode]. *)
Definition decode_table : list Z :=
  replicate 43 77 ++ [62] ++ replicate 3 77 ++ [63]
  ++ map (fun n => Z.of_nat n + 52) (seq 0 10) ++ replicate 7 77
  ++ map Z.of_nat (seq 0 26) ++ replicate 6 77
  ++ map (fun n => Z.of_nat n + 26) (seq 0 26) ++ replicate 133 77.

Definition decode_char (c : Z) : outcome Z := of_option (decode_table !! Z.to_nat c).

(** The loop of the check: the value of [pad] it ends with, [None] for its
    error. *)
Fixpoint check_loop (src : list Z) (pad : Z) : outcome (option Z) :=
  match src with
  | [] => Ret (Some pad)
  | c :: src' =>
    let* v := decode_char c in
    if negb (v =? 77) then check_loop src' pad
    else if pad =? 0 then
      let pad := Z.of_nat (length src) in
      let* last := (if pad =? 1 then Ret true
                    else if pad =? 2 then let* c1 := of_option (head src') in Ret (c1 =? EQUALS)
                    else Ret false) in
      if last && (c =? EQUALS) then Ret (Some pad) else Ret None
    else Ret None
  end.

(** [pad = (4 - (length % 4)) % 4]. *)
Definition initial_pad (src : list Z) : Z := (4 - Z.of_nat (length src) mod 4) mod 4.

(** [nxt_base64_decode] with a null [dst]; -1 is [NXT_ERROR]. *)
Definition nxt_base64_decode_length (src : list Z) : outcome Z :=
  let pad := initial_pad src in
  if 2 <? pad then Ret (-1)
  else
    let* r := check_loop src pad in
    match r with
    | None => Ret (-1)
    | Some pad => Ret ((Z.of_nat (length src) + 3) / 4 * 3 - pad)
    end.

Definition byte1 (v1 v2 : Z) : Z := u8 (Z.lor (Z.shiftl v1 2) (Z.shiftr v2 4)).
Definition byte2 (v2 v3 : Z) : Z := u8 (Z.lor (Z.shiftl v2 4) (Z.shiftr v3 2)).
Definition byte3 (v3 v4 : Z) : Z := u8 (Z.lor (Z.shiftl v3 6) v4).

Definition value_at (src : list Z) (p : nat) : outcome Z :=
  let* c := of_option (src !! p) in decode_char c.

(** The loop over the groups of four characters: the bytes written and the
    last value of [src]. *)
Fixpoint groups (fuel : nat) (src : list Z) (p end_ : nat) : outcome (list Z * nat) :=
  if (p <? end_)%nat then
    match fuel with
    | O => OutOfFuel
    | S fuel' =>
      let* v1 := value_at src p in
      let* v2 := value_at src (p + 1) in
      let* v3 := value_at src (p + 2) in
      let* v4 := value_at src (p + 3) in
      let* (out, p') := groups fuel' src (p + 4) end_ in
      Ret (byte1 v1 v2 :: byte2 v2 v3 :: byte3 v3 v4 :: out, p')
    end
  else Ret ([], p).

Definition b2z (b : bool) : Z := if b then 1 else 0.

(** The padding and the end of the whole groups. *)
Definition final_pad (src : list Z) : outcome (Z * nat) :=
  let pad := initial_pad src in
  let len := length src in
  if pad =? 0 then
    let* e1 := of_option (src !! (len - 1)%nat) in
    let* e2 := of_option (src !! (len - 2)%nat) in
    let pad := b2z (e1 =? EQUALS) + b2z (e2 =? EQUALS) in
    Ret (pad, (len - Z.to_nat (Z.land (pad + 3) 4))%nat)
  else Ret (pad, (len - Z.to_nat (4 - pad))%nat).

(** [nxt_base64_decode] with a [dst]: the bytes written.  The length of the
    source is not zero ([nxt_assert]). *)
Definition nxt_base64_decode (src : list Z) : outcome (list Z) :=
  if (length src =? 0)%nat then Fault
  else
    let* (pad, end_) := final_pad src in
    let* (out, p) := groups (length src) src 0 end_ in
    if 0 <? pad then
      let* v1 := value_at src p in
      let* v2 := value_at src (p + 1) in
      let out := out ++ [byte1 v1 v2] in
      if pad =? 1 then
        let* v3 := value_at src (p + 2) in
        Ret (out ++ [byte2 v2 v3])
      else Ret out
    else Ret out.

(** ** The reference *)

Definition alphabet : list Z :=
  bytes_of_string "ABCDEFGHIJKLMNOPQRSTUVWXYZabcdefghijklmnopqrstuvwxyz0123456789+/".

Definition char_of (v : Z) : Z := nth (Z.to_nat v) alphabet 0.

(** The encoding of data, with its padding when [pad] holds. *)
Fixpoint base64 (pad : bool) (bs : list Z) : list Z :=
  match bs with
  | [] => []
  | [a] => [char_of (a / 4); char_of (a mod 4 * 16)] ++ (if pad then [EQUALS; EQUALS] else [])
  | [a; b] =>
    [char_of (a / 4); char_of (a mod 4 * 16 + b / 16); char_of (b mod 16 * 4)]
    ++ (if pad then [EQUALS] else [])
  | a :: b :: c :: bs' =>
    char_of (a / 4) :: char_of (a mod 4 * 16 + b / 16)
    :: char_of (b mod 16 * 4 + c / 64) :: char_of (c mod 64) :: base64 pad bs'
  end.

Definition value_of (c : Z) : Z := default 77 (decode_table !! Z.to_nat c).

(** Decoding of characters without padding. *)
Fixpoint unbase64 (cs : list Z) : list Z :=
  match cs with
  | c1 :: c2 :: c3 :: c4 :: cs' =>
    byte1 (value_of c1) (value_of c2) :: byte2 (value_of c2) (value_of c3)
    :: byte3 (value_of c3) (value_of c4) :: unbase64 cs'
  | [c1; c2; c3] => [byte1 (value_of c1) (value_of c2); byte2 (value_of c2) (value_of c3)]
  | [c1; c2] => [byte1 (value_of c1) (value_of c2)]
  | _ => []
  end.

(** What the check accepts: characters of the alphabet, then the padding that
    completes the last group, or none at all. *)
Definition accepted (src body pads : list Z) : Prop :=
  src = body ++ pads /\ Forall (fun c => byte c /\ value_of c <> 77) body
  /\ (length body mod 4 <> 1)%nat
  /\ (pads = [] \/ pads = [EQUALS] /\ (length body mod 4 = 3)%nat
      \/ pads = [EQUALS; EQUALS] /\ (length body mod 4 = 2)%nat).

(** ** The check *)

Lemma decode_char_ok c : byte c -> decode_char c = Ret (value_of c).
Proof. revert c. apply (byte_decide (fun c => _ = _)). vm_compute. reflexivity. Qed.

Lemma value_of_range c : byte c -> value_of c <> 77 -> 0 <= value_of c < 64.
Proof. revert c. apply (byte_decide (fun c => _ -> _)). vm_compute. reflexivity. Qed.

Definition valid (cs : list Z) : Prop := Forall (fun c => byte c /\ value_of c <> 77) cs.

(** The characters and the padding the loop of the check finds, and the [pad]
    it then has. *)
Definition parts (pad : Z) (src body pads : list Z) (q : Z) : Prop :=
  src = body ++ pads /\ valid body
  /\ (pads = [] /\ q = pad \/ pad = 0 /\ (pads = [EQUALS] /\ q = 1 \/ pads = [EQUALS; EQUALS] /\ q = 2)).

Lemma parts_cons pad c src body pads q :
  byte c -> value_of c <> 77 -> parts pad src body pads q -> parts pad (c :: src) (c :: body) pads q.
Proof. intros Hc Hv (-> & Hb & Hp). split; [done|]. split; [by constructor|done]. Qed.

Lemma parts_inv pad c src body pads q :
  parts pad (c :: src) body pads q ->
  (exists body', body = c :: body' /\ value_of c <> 77 /\ parts pad src body' pads q)
  \/ (body = [] /\ pads = c :: src /\ c = EQUALS).
Proof.
  intros (Hs & Hb & Hp). destruct body as [|d body]; simpl in Hs.
  - right. naive_solver.
  - left. injection Hs as <- Hs. inversion_clear Hb as [|? ? [_ Hv] Hb']. exists body.
    split_and!; [done|done|]. split_and!; done.
Qed.

Lemma check_loop_ok src : forall pad, Forall byte src ->
  (exists body pads q, parts pad src body pads q /\ check_loop src pad = Ret (Some q))
  \/ ((forall body pads q, ~ parts pad src body pads q) /\ check_loop src pad = Ret None).
Proof.
  induction src as [|c src IH]; intros pad Hs.
  { left. exists [], [], pad. split; [|done]. split_and!; [done|constructor|by left]. }
  inversion_clear Hs as [|? ? Hc Hs']. cbn [check_loop]. rewrite decode_char_ok by done.
  cbn [obind]. destruct (value_of c =? 77) eqn:Ev; zbool; cbn [negb].
  2:{ destruct (IH pad Hs') as [(body & pads & q & Hp & ->)|[Hn ->]].
      - left. exists (c :: body), pads, q. split; [by apply parts_cons|done].
      - right. split; [|done]. intros body pads q Hp.
        apply parts_inv in Hp as [(b' & _ & _ & Hp)|(_ & _ & ->)]; [by eapply Hn|done]. }
  destruct (pad =? 0) eqn:Ep; zbool.
  - subst pad. destruct (decide (c = EQUALS)) as [->|Hne].
    + destruct src as [|c1 [|c2 src]]; cbn.
      * left. exists [], [EQUALS], 1. split; [|done]. split_and!; [done|constructor|naive_solver].
      * destruct (c1 =? EQUALS) eqn:E1; zbool; cbn; [left|right].
        -- subst. exists [], [EQUALS; EQUALS], 2. split; [|done].
           split_and!; [done|constructor|naive_solver].
        -- split; [|done]. intros body pads q Hp.
           destruct (parts_inv _ _ _ _ _ _ Hp) as [(? & _ & ? & _)|(_ & -> & _)]; [done|].
           destruct Hp as (_ & _ & Hp). naive_solver.
      * right. rewrite !(proj2 (Z.eqb_neq _ _)) by lia. cbn. split; [|done].
        intros body pads q Hp. destruct (parts_inv _ _ _ _ _ _ Hp) as [(? & _ & ? & _)|(_ & -> & _)];
          [done|]. destruct Hp as (_ & _ & Hp). naive_solver.
    + right. apply Z.eqb_neq in Hne. rewrite Hne. split.
      * intros body pads q Hp. apply parts_inv in Hp as [(? & _ & ? & _)|(_ & _ & ->)]; done.
      * case_match; cbn [obind andb]; [done|]. case_match eqn:E2; [|done]. zbool.
        cbn [length] in E2. destruct src as [|c1 src]; [cbn in E2; lia|].
        cbn. by rewrite andb_false_r.
  - right. split; [|done]. intros body pads q Hp.
    destruct (parts_inv _ _ _ _ _ _ Hp) as [(? & _ & ? & _)|(_ & -> & _)]; [done|].
    destruct Hp as (_ & _ & Hp). naive_solver.
Qed.

(** ** Decoding *)

Lemma value_at_ok src p c : Forall byte src -> src !! p = Some c -> value_at src p = Ret (value_of c).
Proof.
  intros Hs Hc. unfold value_at. rewrite Hc. cbn [of_option obind].
  apply decode_char_ok. by eapply Forall_lookup_1.
Qed.

(** [value_at] inside the source. *)
Lemma value_at_in src p : Forall byte src -> (p < length src)%nat ->
  exists c, src !! p = Some c /\ value_at src p = Ret (value_of c).
Proof.
  intros Hs Hp. destruct (lookup_lt_is_Some_2 src p Hp) as [c Hc].
  exists c. split; [done|by apply value_at_ok].
Qed.

Lemma groups_ok src k : forall fuel p,
  Forall byte src -> (p + 4 * k <= length src)%nat -> (k <= fuel)%nat ->
  groups fuel src p (p + 4 * k) = Ret (unbase64 (window src p (p + 4 * k)), (p + 4 * k)%nat).
Proof.
  induction k as [|k IH]; intros fuel p Hs Hp Hf.
  { rewrite Nat.add_0_r, window_end. destruct fuel; cbn; by rewrite Nat.ltb_irrefl. }
  destruct fuel as [|fuel]; [lia|]. cbn [groups]. rewrite (proj2 (Nat.ltb_lt _ _)) by lia.
  destruct (value_at_in src p Hs) as (c1 & H1 & ->); [lia|].
  destruct (value_at_in src (p + 1) Hs) as (c2 & H2 & ->); [lia|].
  destruct (value_at_in src (p + 2) Hs) as (c3 & H3 & ->); [lia|].
  destruct (value_at_in src (p + 3) Hs) as (c4 & H4 & ->); [lia|]. cbn [obind].
  replace (p + 4 * S k)%nat with (p + 4 + 4 * k)%nat by lia. rewrite IH by (done || lia). cbn [obind].
  rewrite (window_cons src p _ c1) by (done || lia).
  replace (S p) with (p + 1)%nat by lia. rewrite (window_cons src (p + 1) _ c2) by (done || lia).
  replace (S (p + 1)) with (p + 2)%nat by lia. rewrite (window_cons src (p + 2) _ c3) by (done || lia).
  replace (S (p + 2)) with (p + 3)%nat by lia. rewrite (window_cons src (p + 3) _ c4) by (done || lia).
  replace (S (p + 3)) with (p + 4)%nat by lia. done.
Qed.

Lemma unbase64_app k : forall a b, length a = (4 * k)%nat -> unbase64 (a ++ b) = unbase64 a ++ unbase64 b.
Proof.
  induction k as [|k IH]; intros a b Ha; [destruct a; [done|cbn in Ha; lia]|].
  destruct a as [|c1 [|c2 [|c3 [|c4 a]]]]; cbn [length] in Ha; try lia.
  cbn [app unbase64]. rewrite (IH a b) by lia. done.
Qed.

Lemma unbase64_length k : forall a, length a = (4 * k)%nat -> length (unbase64 a) = (3 * k)%nat.
Proof.
  induction k as [|k IH]; intros a Ha; [destruct a; [done|cbn in Ha; lia]|].
  destruct a as [|c1 [|c2 [|c3 [|c4 a]]]]; cbn [length] in Ha; try lia.
  cbn [unbase64 length]. rewrite (IH a) by lia. lia.
Qed.

Lemma valid_lookup body i :
  valid body -> (i < length body)%nat -> exists c, body !! i = Some c /\ (c =? EQUALS) = false.
Proof.
  intros Hb Hi. destruct (lookup_lt_is_Some_2 body i Hi) as [c Hc]. exists c. split; [done|].
  destruct (Forall_lookup_1 _ _ _ _ Hb Hc) as [_ Hv]. apply Z.eqb_neq. by intros ->.
Qed.

(** The number of whole groups and what is left. *)
Lemma accepted_shape src body pads :
  accepted src body pads ->
  exists k t, length body = (4 * k + t)%nat
    /\ (pads = [] /\ (t = 0 \/ t = 2 \/ t = 3)%nat \/ pads = [EQUALS] /\ t = 3%nat
        \/ pads = [EQUALS; EQUALS] /\ t = 2%nat).
Proof.
  intros (_ & _ & Hm & Hp). exists (length body / 4)%nat, (length body mod 4)%nat.
  pose proof (Nat.mod_upper_bound (length body) 4 ltac:(lia)) as Hu.
  split; [apply Nat.div_mod_eq|]. destruct Hp as [->|[[-> ->]|[-> ->]]]; [left|auto..].
  split; [done|lia].
Qed.

Lemma final_pad_ok src body pads k t :
  accepted src body pads -> src <> [] -> length body = (4 * k + t)%nat -> (t < 4)%nat ->
  final_pad src = Ret ((4 - Z.of_nat t) mod 4, (4 * k)%nat).
Proof.
  intros Ha Hne Hk Ht. destruct (accepted_shape _ _ _ Ha) as (k' & t' & Hk' & Hp).
  assert (k' = k /\ t' = t) as [-> ->] by lia. clear Hk'.
  destruct Ha as (-> & Hb & _). unfold final_pad, initial_pad. rewrite length_app, Hk.
  destruct Hp as [[-> Hp]|[[-> ->]|[-> ->]]]; cbn [length].
  - rewrite Nat.add_0_r, app_nil_r in *.
    replace (Z.of_nat (4 * k + t) mod 4) with (Z.of_nat t) by dlia.
    destruct Hp as [-> | [-> | ->]].
    + change ((4 - Z.of_nat 0) mod 4) with 0. cbv iota beta. rewrite Z.eqb_refl.
      assert (0 < length body)%nat by (by destruct body; [|cbn; lia]).
      destruct (valid_lookup body (4 * k + 0 - 1)) as (e1 & -> & He1); [done|lia|].
      destruct (valid_lookup body (4 * k + 0 - 2)) as (e2 & -> & He2); [done|lia|].
      cbn [of_option obind]. rewrite He1, He2. cbn [b2z].
      change (Z.to_nat (Z.land (0 + 0 + 3) 4)) with 0%nat. do 2 f_equal. lia.
    + change ((4 - Z.of_nat 2) mod 4) with 2. change (2 =? 0) with false. cbv iota beta.
      do 2 f_equal. lia.
    + change ((4 - Z.of_nat 3) mod 4) with 1. change (1 =? 0) with false. cbv iota beta.
      do 2 f_equal. lia.
  - replace (Z.of_nat (4 * k + 3 + 1) mod 4) with 0 by dlia.
    change ((4 - 0) mod 4) with 0. change ((4 - Z.of_nat 3) mod 4) with 1. rewrite Z.eqb_refl.
    rewrite lookup_app_r by lia. replace (4 * k + 3 + 1 - 1 - length body)%nat with 0%nat by lia.
    destruct (valid_lookup body (4 * k + 3 + 1 - 2)) as (e2 & He2 & Hne2); [done|lia|].
    rewrite (lookup_app_l_Some _ _ _ _ He2). cbn [lookup list_lookup of_option obind].
    rewrite Hne2, Z.eqb_refl. cbn [b2z].
    change (Z.to_nat (Z.land (1 + 0 + 3) 4)) with 4%nat. do 2 f_equal. lia.
  - replace (Z.of_nat (4 * k + 2 + 2) mod 4) with 0 by dlia.
    change ((4 - 0) mod 4) with 0. change ((4 - Z.of_nat 2) mod 4) with 2. rewrite Z.eqb_refl.
    rewrite !lookup_app_r by lia. replace (4 * k + 2 + 2 - 1 - length body)%nat with 1%nat by lia.
    replace (4 * k + 2 + 2 - 2 - length body)%nat with 0%nat by lia.
    cbn [lookup list_lookup of_option obind]. rewrite Z.eqb_refl. cbn [b2z].
    change (Z.to_nat (Z.land (1 + 1 + 3) 4)) with 4%nat. do 2 f_equal. lia.
Qed.

(** An accepted source decodes to the data of its characters. *)
Lemma decode_accepted src body pads :
  Forall byte src -> accepted src body pads -> src <> [] ->
  nxt_base64_decode src = Ret (unbase64 body)
  /\ (Z.of_nat (length src) + 3) / 4 * 3
     = Z.of_nat (length (unbase64 body)) + (4 - Z.of_nat (length body mod 4)%nat) mod 4.
Proof.
  intros Hs Ha Hne. destruct (accepted_shape _ _ _ Ha) as (k & t & Hk & Hp).
  assert (Ht : (t = 0 \/ t = 2 \/ t = 3)%nat) by naive_solver.
  assert (Hm : (length body mod 4 = t)%nat).
  { rewrite Hk, Nat.add_comm, Nat.mul_comm, Nat.Div0.mod_add. apply Nat.mod_small. lia. }
  pose proof (final_pad_ok src body pads k t Ha Hne Hk ltac:(lia)) as Hfp.
  destruct Ha as (Hsrc & Hb & _).
  assert (Hlen : (4 * k + t <= length src)%nat) by (rewrite Hsrc, length_app; lia).
  assert (Hw : window src 0 (4 * k) = take (4 * k) body).
  { unfold window. rewrite Hsrc, drop_0, take_app_le by lia. done. }
  pose proof (groups_ok src k (length src) 0 Hs ltac:(lia) ltac:(lia)) as Hg.
  rewrite Nat.add_0_l, Hw in Hg.
  assert (Hv : forall i c, drop (4 * k) body !! i = Some c -> value_at src (4 * k + i) = Ret (value_of c)).
  { intros i c Hi. apply value_at_ok; [done|]. rewrite lookup_drop in Hi.
    rewrite Hsrc. by apply lookup_app_l_Some. }
  assert (Hbody : unbase64 body = unbase64 (take (4 * k) body) ++ unbase64 (drop (4 * k) body)).
  { rewrite <- (take_drop (4 * k) body) at 1. apply (unbase64_app k). rewrite length_take. lia. }
  assert (Hgl : length (unbase64 (take (4 * k) body)) = (3 * k)%nat)
    by (apply unbase64_length; rewrite length_take; lia).
  assert (Hdl : length (drop (4 * k) body) = t) by (rewrite length_drop; lia).
  unfold nxt_base64_decode.
  rewrite (proj2 (Nat.eqb_neq _ _)) by (destruct src; cbn; [done|lia]).
  rewrite Hfp. cbn [obind]. rewrite Hg. cbn [obind].
  rewrite Hm, Hbody, length_app, Hgl. clear Hg Hfp Hw Hbody Hgl.
  split.
  - destruct Ht as [-> | [-> | ->]]; cbn -[Nat.mul unbase64];
      [destruct (drop (4 * k) body); [|done]; by rewrite app_nil_r| |].
    + destruct (drop (4 * k) body) as [|c1 [|c2 [|]]]; try done.
      pose proof (Hv 0%nat _ eq_refl) as H1. pose proof (Hv 1%nat _ eq_refl) as H2.
      rewrite Nat.add_0_r in H1. rewrite H1, H2. done.
    + destruct (drop (4 * k) body) as [|c1 [|c2 [|c3 [|]]]]; try done.
      pose proof (Hv 0%nat _ eq_refl) as H1. pose proof (Hv 1%nat _ eq_refl) as H2.
      pose proof (Hv 2%nat _ eq_refl) as H3.
      rewrite Nat.add_0_r in H1. rewrite H1, H2. cbn [obind]. rewrite H3. cbn [obind].
      by rewrite <- app_assoc.
  - rewrite Hsrc, length_app, Hk.
    destruct Hp as [[-> _]|[[-> ->]|[-> ->]]];
      destruct Ht as [Ht | [Ht | Ht]]; try done; subst;
      destruct (drop (4 * k) body) as [|c1 [|c2 [|c3 [|]]]]; try done; cbn [length unbase64];
      cbn -[Nat.mul Z.div Z.modulo Z.of_nat]; dlia.
Qed.

Lemma parts_accepted src body pads q :
  initial_pad src <= 2 -> parts (initial_pad src) src body pads q ->
  accepted src body pads /\ q = (4 - Z.of_nat (length body mod 4)%nat) mod 4.
Proof.
  intros Hi (Hs & Hb & Hp). unfold initial_pad in *.
  assert (Hl : length src = (length body + length pads)%nat) by (rewrite Hs; apply length_app).
  pose proof (Nat.mod_upper_bound (length body) 4 ltac:(lia)) as Hu.
  rewrite Hl in *. assert (Hn : Z.of_nat (length body mod 4)%nat = Z.of_nat (length body) mod 4)
    by (rewrite Nat2Z.inj_mod; done).
  split; [split_and!; [done|done| |]|];
    destruct Hp as [[-> ->]|[Hp0 [[-> ->]|[-> ->]]]]; cbn [length] in *; try lia; try dlia.
  - by left.
  - right; left. split; [done|]. dlia.
  - right; right. split; [done|]. dlia.
Qed.

Lemma accepted_parts src body pads :
  accepted src body pads -> initial_pad src <= 2 /\ exists q, parts (initial_pad src) src body pads q.
Proof.
  intros Ha. destruct (accepted_shape _ _ _ Ha) as (k & t & Hk & Hp). destruct Ha as (Hs & Hb & _).
  assert (Hl : length src = (length body + length pads)%nat) by (rewrite Hs; apply length_app).
  unfold initial_pad. rewrite Hl, Hk.
  destruct Hp as [[-> Ht]|[[-> ->]|[-> ->]]]; cbn [length].
  - split; [dlia|]. eexists. split_and!; [done|done|by left].
  - split; [dlia|]. exists 1. split_and!; [done|done|right; split; [dlia|by left]].
  - split; [dlia|]. exists 2. split_and!; [done|done|right; split; [dlia|by right]].
Qed.

(** ** Encoding *)

Lemma char_of_ok v : 0 <= v < 64 -> byte (char_of v) /\ value_of (char_of v) = v.
Proof.
  intros Hv. assert (H : byte v -> v < 64 -> byte (char_of v) /\ value_of (char_of v) = v).
  { revert v Hv. intros v _. revert v.
    apply (byte_decide (fun v => v < 64 -> byte (char_of v) /\ value_of (char_of v) = v)).
    vm_compute. reflexivity. }
  apply H; unfold byte; lia.
Qed.

Lemma byte1_ok a b : byte a -> 0 <= b < 16 -> byte1 (a / 4) (a mod 4 * 16 + b) = a.
Proof.
  intros Ha Hb. unfold byte in Ha. unfold byte1, u8. rewrite Z.shiftr_div_pow2 by lia.
  rewrite lor_shiftl by dlia. change (2 ^ 4) with 16. change (2 ^ 2) with 4.
  change (2 ^ 8) with 256. dlia.
Qed.

Lemma byte2_ok a b c : byte b -> 0 <= a < 4 -> 0 <= c < 4 ->
  byte2 (a * 16 + b / 16) (b mod 16 * 4 + c) = b.
Proof.
  intros Hb Ha Hc. unfold byte in Hb. unfold byte2, u8. rewrite Z.shiftr_div_pow2 by lia.
  rewrite lor_shiftl by dlia. change (2 ^ 4) with 16. change (2 ^ 2) with 4.
  change (2 ^ 8) with 256. dlia.
Qed.

Lemma byte3_ok b c : byte c -> 0 <= b < 16 -> byte3 (b * 4 + c / 64) (c mod 64) = c.
Proof.
  intros Hc Hb. unfold byte in Hc. unfold byte3, u8. rewrite lor_shiftl by dlia.
  change (2 ^ 6) with 64. change (2 ^ 8) with 256. dlia.
Qed.

(** Induction over a list by three. *)
Lemma list_ind3 (P : list Z -> Prop) :
  P [] -> (forall a, P [a]) -> (forall a b, P [a; b]) ->
  (forall a b c l, P l -> P (a :: b :: c :: l)) -> forall l, P l.
Proof.
  intros H0 H1 H2 H3. fix IH 1. intros [|a [|b [|c l]]]; [apply H0|apply H1|apply H2|apply H3, IH].
Qed.

Lemma base64_unbase64 bs : Forall byte bs -> unbase64 (base64 false bs) = bs.
Proof.
  induction bs as [|a|a b|a b c bs IH] using list_ind3; intros Hbs; [done| | |];
    cbn [base64 app unbase64]; decompose_Forall_hyps; unfold byte in *;
    rewrite !(fun v H => proj2 (char_of_ok v H)) by dlia.
  - rewrite <- (Z.add_0_r (a mod 4 * 16)), byte1_ok by (done || lia). done.
  - rewrite <- (Z.add_0_r (b mod 16 * 4)), byte1_ok, byte2_ok by (unfold byte; dlia). done.
  - rewrite byte1_ok, byte2_ok, byte3_ok, IH by (done || unfold byte; dlia). done.
Qed.

Lemma base64_accepted pad bs :
  Forall byte bs -> exists pads, accepted (base64 pad bs) (base64 false bs) pads.
Proof.
  assert (Hc : forall v, 0 <= v < 64 -> byte (char_of v) /\ value_of (char_of v) <> 77).
  { intros v Hv. destruct (char_of_ok v Hv) as [Hb ->]. split; [done|lia]. }
  induction bs as [|a|a b|a b c bs IH] using list_ind3; intros Hbs; decompose_Forall_hyps;
    unfold byte in *; cbn [base64].
  - exists []. split_and!; [done|constructor|done|by left].
  - exists (if pad then [EQUALS; EQUALS] else []). split_and!; [by destruct pad| |done|].
    + repeat constructor; apply Hc; dlia.
    + destruct pad; [right; right|left]; done.
  - exists (if pad then [EQUALS] else []). split_and!; [by destruct pad| |done|].
    + repeat constructor; apply Hc; dlia.
    + destruct pad; [right; left|left]; done.
  - destruct IH as (pads & Hs & Hv & Hm & Hp); [done|]. exists pads. rewrite Hs.
    assert (Hl : forall n, (S (S (S (S n))) mod 4 = n mod 4)%nat).
    { intros n. change (S (S (S (S n)))) with (4 + n)%nat. rewrite Nat.add_comm. apply (Nat.Div0.mod_add n 1 4). }
    split_and!; [done| | |]; cbn [length]; try (by rewrite !Hl).
    repeat (constructor; [apply Hc; dlia|]). done.
Qed.

(** ** The two uses *)

Lemma accepted_byte src body pads : accepted src body pads -> Forall byte src.
Proof.
  intros (-> & Hb & _ & Hp). apply Forall_app_2.
  - eapply Forall_impl; [exact Hb|]. by intros ? [? _].
  - destruct Hp as [->|[[-> _]|[-> _]]]; repeat constructor; lia.
Qed.

Lemma accepted_decode src body pads :
  Forall byte src -> accepted src body pads -> src <> [] ->
  nxt_base64_decode_length src = Ret (Z.of_nat (length (unbase64 body)))
  /\ nxt_base64_decode src = Ret (unbase64 body).
Proof.
  intros Hs Ha Hne. destruct (accepted_parts _ _ _ Ha) as (Hi & q & Hp).
  destruct (parts_accepted _ _ _ _ Hi Hp) as [_ Hq].
  destruct (decode_accepted _ _ _ Hs Ha Hne) as [Hd Hl]. split; [|done].
  unfold nxt_base64_decode_length. rewrite (proj2 (Z.ltb_ge _ _)) by lia.
  destruct (check_loop_ok src (initial_pad src) Hs) as [(b' & p' & q' & Hp' & ->)|[Hn _]];
    [|by apply Hn in Hp].
  cbn [obind]. destruct (parts_accepted _ _ _ _ Hi Hp') as [Ha' ->].
  destruct (decode_accepted _ _ _ Hs Ha' Hne) as [Hd' Hl']. rewrite Hd in Hd'.
  injection Hd' as ->. f_equal. lia.
Qed.

Lemma base64_cases src :
  Forall byte src -> src <> [] ->
  (exists body pads, accepted src body pads
     /\ nxt_base64_decode_length src = Ret (Z.of_nat (length (unbase64 body)))
     /\ nxt_base64_decode src = Ret (unbase64 body))
  \/ ((forall body pads, ~ accepted src body pads) /\ nxt_base64_decode_length src = Ret (-1)).
Proof.
  intros Hs Hne. destruct (2 <? initial_pad src) eqn:Hi; zbool.
  { right. split; [intros body pads Ha; apply accepted_parts in Ha; lia|].
    unfold nxt_base64_decode_length. by rewrite (proj2 (Z.ltb_lt _ _)). }
  destruct (check_loop_ok src (initial_pad src) Hs) as [(b & p & q & Hp & _)|[Hn Hc]].
  - left. destruct (parts_accepted _ _ _ _ Hi Hp) as [Ha _]. exists b, p.
    split; [done|by apply (accepted_decode _ _ p)].
  - right. split.
    + intros body pads Ha. apply accepted_parts in Ha as (_ & q & Hp). by apply Hn in Hp.
    + unfold nxt_base64_decode_length. rewrite (proj2 (Z.ltb_ge _ _)) by done. by rewrite Hc.
Qed.

(** ** Properties *)

(** The check accepts exactly the characters of the alphabet with a
    complete or no padding, and announces exactly the number of bytes that
    decoding then writes; decoding an accepted string stays inside it. *)
Theorem nxt_base64_decode_correct (src : list Z) (Hs : Forall byte src) (Hne : src <> []) :
  (exists body pads, accepted src body pads
     /\ nxt_base64_decode_length src = Ret (Z.of_nat (length (unbase64 body)))
     /\ nxt_base64_decode src = Ret (unbase64 body))
  \/ ((forall body pads, ~ accepted src body pads) /\ nxt_base64_decode_length src = Ret (-1)).
Proof. by apply base64_cases. Qed.

(** Whatever data is encoded, with or without padding, is decoded again,
    and its length is known before. *)
Theorem nxt_base64_decode_roundtrip (pad : bool) (bs : list Z) (Hbs : Forall byte bs) (Hne : bs <> []) :
  nxt_base64_decode_length (base64 pad bs) = Ret (Z.of_nat (length bs))
  /\ nxt_base64_decode (base64 pad bs) = Ret bs.
Proof.
  destruct (base64_accepted pad bs Hbs) as (pads & Ha).
  assert (Hs : Forall byte (base64 pad bs)) by (by eapply accepted_byte).
  assert (Hne' : base64 pad bs <> []) by (by destruct bs as [|a [|b [|c bs]]]).
  pose proof (base64_unbase64 bs Hbs) as Hu.
  destruct (accepted_decode _ _ _ Hs Ha Hne') as [-> ->]. by rewrite Hu.
Qed.

(** ** Witnesses *)

Lemma nxt_base64_decode_correct_witness :
  (exists body pads, accepted (bytes_of_string "Zm9vYg==") body pads
     /\ nxt_base64_decode_length (bytes_of_string "Zm9vYg==")
        = Ret (Z.of_nat (length (unbase64 body)))
     /\ nxt_base64_decode (bytes_of_string "Zm9vYg==") = Ret (unbase64 body))
  \/ ((forall body pads, ~ accepted (bytes_of_string "Zm9vYg==") body pads)
      /\ nxt_base64_decode_length (bytes_of_string "Zm9vYg==") = Ret (-1)).
Proof.
  apply (nxt_base64_decode_correct (bytes_of_string "Zm9vYg==") (bytes_of_string_byte _)). done.
Defined.

Lemma nxt_base64_decode_roundtrip_witness :
  nxt_base64_decode_length (base64 true [102; 111; 111; 98]) = Ret 4
  /\ nxt_base64_decode (base64 true [102; 111; 111; 98]) = Ret [102; 111; 111; 98].
Proof.
  apply (nxt_base64_decode_roundtrip true [102; 111; 111; 98]); [|done].
  repeat constructor; unfold byte; lia.
Defined.
