(* ===== verification/Parse.v ===== *)
(** * Decimal numbers (nxt_parse.c)

    The parsers of decimal integers, of sizes with a unit and of numbers with
    a fraction, against the value of a string of digits.  [nxt_int_t],
    [ssize_t] and [nxt_off_t] have 64 bits, so the three integer parsers have
    the same limit; each keeps its own constants. *)

From S2P Require Import Prelude.

(** ** The code *)

Definition NXT_INT_T_MAX : Z := INT64_MAX.
Definition NXT_SIZE_T_MAX : Z := INT64_MAX.
Definition NXT_OFF_T_MAX : Z := INT64_MAX.

(** The test [val >= cutoff && (val > cutoff || c > cutlim)]. *)
Definition overflows (max val c : Z) : bool :=
  let cutoff := max / 10 in
  let cutlim := max mod 10 in
  (cutoff <=? val) && ((cutoff <? val) || (cutlim <? c)).

(** The [do] loop of [nxt_int_parse], [nxt_size_t_parse] and
    [nxt_off_t_parse]: [s] is what is left of the string. *)
Fixpoint parse_loop (max : Z) (s : list Z) (val : Z) : Z :=
  match s with
  | [] => val
  | c0 :: s' =>
    let c := u8 (c0 - CH_0) in
    if 9 <? c then -1
    else if overflows max val c then -2
    else parse_loop max s' (u64 (val * 10 + c))
  end.

Definition nxt_int_parse (s : list Z) : Z :=
  match s with [] => -1 | _ => s64 (parse_loop NXT_INT_T_MAX s 0) end.

Definition nxt_size_t_parse (s : list Z) : Z :=
  match s with [] => -1 | _ => s64 (parse_loop NXT_SIZE_T_MAX s 0) end.

Definition nxt_off_t_parse (s : list Z) : Z :=
  match s with [] => -1 | _ => s64 (parse_loop NXT_OFF_T_MAX s 0) end.

(** The [switch] of [nxt_size_parse]: the limit and the shift of a unit. *)
Definition size_unit (c : Z) : option (Z * Z) :=
  let unit_ := u8 (Z.land c (Z.lnot 0x20)) in
  if unit_ =? 71 then Some (Z.shiftr NXT_SIZE_T_MAX 30, 30)
  else if unit_ =? 77 then Some (Z.shiftr NXT_SIZE_T_MAX 20, 20)
  else if unit_ =? 75 then Some (Z.shiftr NXT_SIZE_T_MAX 10, 10)
  else None.

Definition nxt_size_parse (s : list Z) : Z :=
  match last s with
  | None => -1
  | Some c =>
    match size_unit c with
    | None => nxt_size_t_parse s
    | Some (max, shift) =>
      let val := nxt_size_t_parse (take (length s - 1) s) in
      if 0 <=? val then
        if max <? val then -2 else s64 (Z.shiftl val shift)
      else val
    end
  end.

(** The loop of [nxt_str_int_parse]: the value and the rest of the string,
    [None] on overflow. *)
Fixpoint str_int_loop (s : list Z) (val : Z) : option (Z * list Z) :=
  match s with
  | [] => Some (val, [])
  | c0 :: s' =>
    let c := u8 (c0 - CH_0) in
    if 9 <? c then Some (val, s)
    else if overflows NXT_INT_T_MAX val c then None
    else str_int_loop s' (u64 (val * 10 + c))
  end.

(** The value returned and the string [s] is set to. *)
Definition nxt_str_int_parse (s : list Z) : Z * list Z :=
  match s with
  | [] => (-1, s)
  | _ =>
    match str_int_loop s 0 with
    | Some (val, s') => (s64 val, s')
    | None => (-2, s)
    end
  end.

(** The [double] that [nxt_number_parse] returns, before rounding:
    [integral + frac / power], or the error. *)
Inductive number :=
| Number (integral frac power : Z)
| Failure (code : Z).

(** The ways out of the loop over the digits before the dot. *)
Inductive integral_end :=
| Dot (integral : Z) (rest : list Z)
| Stop (integral : Z) (rest : list Z)
| Overflow.

Fixpoint integral_loop (s : list Z) (integral : Z) : integral_end :=
  match s with
  | [] => Stop integral []
  | c0 :: s' =>
    if c0 =? DOT then Dot integral s
    else
      let c := u8 (c0 - CH_0) in
      if 9 <? c then Stop integral s
      else if overflows NXT_INT_T_MAX integral c then Overflow
      else integral_loop s' (u64 (integral * 10 + c))
  end.

Fixpoint frac_loop (s : list Z) (frac power : Z) : option (Z * Z * list Z) :=
  match s with
  | [] => Some (frac, power, [])
  | c0 :: s' =>
    let c := u8 (c0 - CH_0) in
    if 9 <? c then Some (frac, power, s)
    else if overflows NXT_INT_T_MAX frac c || (NXT_INT_T_MAX / 10 <? power) then None
    else frac_loop s' (u64 (frac * 10 + c)) (u64 (power * 10))
  end.

(** The result and the text behind [*start]. *)
Definition nxt_number_parse (s : list Z) : number * list Z :=
  match integral_loop s 0 with
  | Overflow => (Failure (-2), s)
  | Stop integral rest =>
    if (length rest =? length s)%nat then (Failure (-1), s) else (Number integral 0 1, rest)
  | Dot integral rest =>
    if (length rest =? length s)%nat then (Failure (-1), s)
    else
      match frac_loop (tail rest) 0 1 with
      | None => (Failure (-2), s)
      | Some (frac, power, rest') => (Number integral frac power, rest')
      end
  end.

(** ** The reference *)

Definition digit (c : Z) : bool := (CH_0 <=? c) && (c <=? CH_9).

(** The longest prefix of digits and what follows it. *)
Fixpoint digits (s : list Z) : list Z :=
  match s with
  | c :: s' => if digit c then c :: digits s' else []
  | [] => []
  end.

Fixpoint after_digits (s : list Z) : list Z :=
  match s with
  | c :: s' => if digit c then after_digits s' else s
  | [] => []
  end.

(** The number a string of digits denotes. *)
Definition value_from (v : Z) (s : list Z) : Z := fold_left (fun v c => v * 10 + (c - CH_0)) s v.
Definition value (s : list Z) : Z := value_from 0 s.

(** What a parser with limit [max] returns. *)
Definition decimal (max : Z) (s : list Z) : Z :=
  if max <? value (digits s) then -2
  else if decide (s <> [] /\ after_digits s = []) then value s
  else -1.

(** ** Digits *)

Lemma digit_sub c : byte c ->
  (9 <? u8 (c - CH_0)) = negb (digit c) /\ (digit c = true -> u8 (c - CH_0) = c - CH_0).
Proof.
  revert c. apply (byte_decide (fun c => _ /\ _)). vm_compute. reflexivity.
Qed.

Lemma digit_bounds c : digit c = true -> 0 <= c - CH_0 <= 9.
Proof. unfold digit. intros. zbool. lia. Qed.

Lemma overflows_spec max v c :
  0 <= v <= max -> 0 <= c <= 9 -> overflows max v c = (max <? v * 10 + c).
Proof.
  intros Hv Hc. unfold overflows. apply Bool.eq_iff_eq_true.
  rewrite andb_true_iff, orb_true_iff, Z.leb_le, !Z.ltb_lt. dlia.
Qed.

Lemma value_from_cons v c s : value_from v (c :: s) = value_from (v * 10 + (c - CH_0)) s.
Proof. done. Qed.

Lemma value_from_le s : forall v, 0 <= v -> v <= value_from v (digits s).
Proof.
  induction s as [|c s IH]; intros v Hv; cbn [digits]; [done|].
  destruct (digit c) eqn:E; [|done]. rewrite value_from_cons.
  apply digit_bounds in E. specialize (IH (v * 10 + (c - CH_0))). lia.
Qed.

Lemma digits_app s : s = digits s ++ after_digits s.
Proof.
  induction s as [|c s IH]; cbn [digits after_digits]; [done|].
  destruct (digit c); [|done]. cbn [app]. by f_equal.
Qed.

Lemma after_digits_nil s : after_digits s = [] -> digits s = s.
Proof. intros H. pose proof (digits_app s) as Hs. by rewrite H, app_nil_r in Hs. Qed.

Lemma value_from_app v s t : value_from v (s ++ t) = value_from (value_from v s) t.
Proof. apply fold_left_app. Qed.

Lemma after_digits_length s : (length (digits s) + length (after_digits s) = length s)%nat.
Proof. rewrite (digits_app s) at 3. by rewrite length_app. Qed.

(** One digit of a loop: the test of the byte, the test of overflow and the
    new value, in arithmetic. *)
Lemma digit_step max v c :
  byte c -> digit c = true -> 0 <= v <= max -> max < 2 ^ 63 ->
  overflows max v (u8 (c - CH_0)) = (max <? v * 10 + (c - CH_0))
  /\ (v * 10 + (c - CH_0) <= max ->
      u64 (v * 10 + u8 (c - CH_0)) = v * 10 + (c - CH_0) /\ 0 <= v * 10 + (c - CH_0)).
Proof.
  intros Hc Hd Hv Hm. destruct (digit_sub c Hc) as [_ ->]; [|done].
  apply digit_bounds in Hd. split; [by apply overflows_spec|].
  intros Hle. unfold u64. rewrite Z.mod_small by lia. lia.
Qed.

(** Past the limit a longer string of digits stays past it. *)
Lemma value_past max v s : 0 <= v -> max < v -> (max <? value_from v (digits s)) = true.
Proof. intros H0 Hv. apply Z.ltb_lt. pose proof (value_from_le s v H0). lia. Qed.

(** ** The loops *)

Lemma parse_loop_spec max s : forall v,
  Forall byte s -> max < 2 ^ 63 -> 0 <= v <= max ->
  parse_loop max s v =
    if max <? value_from v (digits s) then -2
    else if decide (after_digits s = []) then value_from v s else -1.
Proof.
  induction s as [|c s IH]; intros v Hs Hm Hv; cbn [parse_loop digits after_digits].
  { cbn. by rewrite (proj2 (Z.ltb_ge _ _)) by lia. }
  inversion_clear Hs as [|? ? Hc Hs']. rewrite (proj1 (digit_sub c Hc)).
  destruct (digit c) eqn:Ed; cbn [negb].
  - rewrite !value_from_cons. destruct (digit_step max v c Hc Ed Hv Hm) as [-> Hn].
    destruct (max <? v * 10 + (c - CH_0)) eqn:E; zbool.
    + apply digit_bounds in Ed. by rewrite value_past by lia.
    + destruct (Hn E) as [-> H0]. by apply IH; [|done|].
  - cbn. by rewrite (proj2 (Z.ltb_ge _ _)) by lia.
Qed.

Lemma str_int_loop_spec s : forall v,
  Forall byte s -> 0 <= v <= NXT_INT_T_MAX ->
  str_int_loop s v =
    if NXT_INT_T_MAX <? value_from v (digits s) then None
    else Some (value_from v (digits s), after_digits s).
Proof.
  induction s as [|c s IH]; intros v Hs Hv; cbn [str_int_loop digits after_digits].
  { cbn. by rewrite (proj2 (Z.ltb_ge _ _)) by lia. }
  inversion_clear Hs as [|? ? Hc Hs']. rewrite (proj1 (digit_sub c Hc)).
  destruct (digit c) eqn:Ed; cbn [negb].
  - rewrite !value_from_cons. destruct (digit_step _ v c Hc Ed Hv eq_refl) as [-> Hn].
    destruct (NXT_INT_T_MAX <? v * 10 + (c - CH_0)) eqn:E; zbool.
    + apply digit_bounds in Ed. by rewrite value_past by lia.
    + destruct (Hn E) as [-> H0]. by apply IH.
  - cbn. by rewrite (proj2 (Z.ltb_ge _ _)) by lia.
Qed.

Lemma integral_loop_spec s : forall v,
  Forall byte s -> 0 <= v <= NXT_INT_T_MAX ->
  integral_loop s v =
    if NXT_INT_T_MAX <? value_from v (digits s) then Overflow
    else match after_digits s with
         | c :: _ => if c =? DOT then Dot (value_from v (digits s)) (after_digits s)
                     else Stop (value_from v (digits s)) (after_digits s)
         | [] => Stop (value_from v (digits s)) []
         end.
Proof.
  induction s as [|c s IH]; intros v Hs Hv; cbn [integral_loop digits after_digits].
  { cbn. by rewrite (proj2 (Z.ltb_ge _ _)) by lia. }
  inversion_clear Hs as [|? ? Hc Hs']. rewrite (proj1 (digit_sub c Hc)).
  destruct (digit c) eqn:Ed; cbn [negb].
  - rewrite (proj2 (Z.eqb_neq c DOT)) by (apply digit_bounds in Ed; lia).
    rewrite !value_from_cons. destruct (digit_step _ v c Hc Ed Hv eq_refl) as [-> Hn].
    destruct (NXT_INT_T_MAX <? v * 10 + (c - CH_0)) eqn:E; zbool.
    + apply digit_bounds in Ed. by rewrite value_past by lia.
    + destruct (Hn E) as [-> H0]. by apply IH.
  - cbn. by rewrite (proj2 (Z.ltb_ge _ _)) by lia.
Qed.

Lemma frac_loop_spec s : forall v k,
  Forall byte s -> 0 <= k <= 18 -> 0 <= v < 10 ^ k ->
  frac_loop s v (10 ^ k) =
    if 18 <? k + Z.of_nat (length (digits s)) then None
    else Some (value_from v (digits s), 10 ^ (k + Z.of_nat (length (digits s))), after_digits s).
Proof.
  induction s as [|c s IH]; intros v k Hs Hk Hv; cbn [frac_loop digits after_digits].
  { cbn. rewrite Z.add_0_r. by rewrite (proj2 (Z.ltb_ge _ _)) by lia. }
  inversion_clear Hs as [|? ? Hc Hs']. rewrite (proj1 (digit_sub c Hc)).
  destruct (digit c) eqn:Ed; cbn [negb].
  2:{ cbn. rewrite Z.add_0_r. by rewrite (proj2 (Z.ltb_ge _ _)) by lia. }
  assert (Hcut : NXT_INT_T_MAX / 10 = 922337203685477580) by done.
  destruct (Z.eq_dec k 18) as [->|Hne].
  { change (NXT_INT_T_MAX / 10 <? 10 ^ 18) with true. rewrite orb_true_r.
    by rewrite (proj2 (Z.ltb_lt _ _)) by (cbn [length]; lia). }
  assert (Hp : 10 ^ k <= 10 ^ 17) by (apply Z.pow_le_mono_r; lia).
  assert (H17 : 10 ^ 17 = 100000000000000000) by done.
  assert (HM : NXT_INT_T_MAX = 9223372036854775807) by done.
  pose proof (digit_bounds c Ed) as Hb.
  destruct (digit_step NXT_INT_T_MAX v c Hc Ed ltac:(lia) eq_refl) as [-> Hn].
  rewrite (proj2 (Z.ltb_ge _ _)), (proj2 (Z.ltb_ge (NXT_INT_T_MAX / 10) _)) by lia.
  cbn [orb]. destruct Hn as [-> H0]; [lia|].
  replace (u64 (10 ^ k * 10)) with (10 ^ (k + 1))
    by (unfold u64; rewrite Z.mod_small, Z.pow_add_r by lia; done).
  rewrite IH; [|done|lia|rewrite Z.pow_add_r by lia; lia].
  cbn [length]. rewrite !Nat2Z.inj_succ. unfold value_from. cbn [fold_left].
  by replace (k + 1 + Z.of_nat (length (digits s)))
    with (k + Z.succ (Z.of_nat (length (digits s)))) by lia.
Qed.

Lemma decimal_range max s :
  0 <= max -> -2 <= decimal max s <= max.
Proof.
  intros Hm. unfold decimal. destruct (max <? value (digits s)) eqn:E; zbool; [lia|].
  case_decide as H; [|lia]. destruct H as [_ H]. rewrite (after_digits_nil s H) in E.
  pose proof (value_from_le s 0 ltac:(lia)) as H0. rewrite (after_digits_nil s H) in H0.
  unfold value in *. lia.
Qed.

Lemma s64_id z : - 2 ^ 63 <= z < 2 ^ 63 -> s64 z = z.
Proof. intros H. unfold s64. rewrite Z.mod_small by lia. lia. Qed.

(** The three integer parsers. *)
Lemma parse_decimal max s :
  Forall byte s -> 0 <= max < 2 ^ 63 ->
  match s with [] => -1 | _ => s64 (parse_loop max s 0) end = decimal max s.
Proof.
  intros Hs Hm. destruct s as [|c s'] eqn:Es.
  { unfold decimal. cbn. by rewrite (proj2 (Z.ltb_ge _ _)) by lia. }
  rewrite <- Es in *. rewrite parse_loop_spec by (done || lia).
  transitivity (s64 (decimal max s)); [|apply s64_id; pose proof (decimal_range max s); lia].
  f_equal. unfold decimal, value. destruct (max <? value_from 0 (digits s)); [done|].
  repeat case_decide; try done; naive_solver.
Qed.

(** The power of two of a unit. *)
Definition unit_shift (c : Z) : option Z :=
  if decide (c = 71 \/ c = 103) then Some 30
  else if decide (c = 77 \/ c = 109) then Some 20
  else if decide (c = 75 \/ c = 107) then Some 10 else None.

Lemma unit_shift_pos c shift : unit_shift c = Some shift -> 0 <= shift.
Proof. unfold unit_shift. repeat case_decide; intros; simplify_eq; done. Qed.

Lemma size_unit_spec c : byte c ->
  size_unit c = match unit_shift c with
                | Some shift => Some (NXT_SIZE_T_MAX / 2 ^ shift, shift) | None => None end.
Proof. revert c. apply (byte_decide (fun c => _ = _)). vm_compute. reflexivity. Qed.

(** The limit of the source, before the shift, is the limit of the product. *)
Lemma unit_limit max v q : 0 < q -> (max / q <? v) = (max <? v * q).
Proof.
  intros Hq. apply Bool.eq_iff_eq_true. rewrite !Z.ltb_lt. split; intros H.
  - apply Z.nle_gt. intros Hle. apply Z.nle_gt in H. apply H. apply Z.div_le_lower_bound; lia.
  - apply Z.div_lt_upper_bound; lia.
Qed.

(** ** Properties *)

(** The three integer parsers return the value of a string of digits up
    to the largest signed 64-bit value, -2 when the digits read denote more,
    and -1 for an empty string and for any other byte. *)
Theorem nxt_int_parse_correct (s : list Z) (Hs : Forall byte s) :
  nxt_int_parse s = decimal INT64_MAX s
  /\ nxt_size_t_parse s = decimal INT64_MAX s
  /\ nxt_off_t_parse s = decimal INT64_MAX s.
Proof. split_and!; apply parse_decimal; done. Qed.

(** A size is its number times the unit of its last letter, K, M or G in
    either case, and a plain number without such a letter; a product beyond
    the largest signed 64-bit value is an overflow and never wraps. *)
Theorem nxt_size_parse_correct (s : list Z) (c : Z) (Hs : Forall byte (s ++ [c])) :
  nxt_size_parse [] = -1
  /\ nxt_size_parse (s ++ [c])
     = match unit_shift c with
       | None => decimal INT64_MAX (s ++ [c])
       | Some shift =>
         let v := decimal INT64_MAX s in
         if v <? 0 then v else if INT64_MAX <? v * 2 ^ shift then -2 else v * 2 ^ shift
       end.
Proof.
  split; [done|]. unfold nxt_size_parse.
  rewrite last_snoc, length_app, Nat.add_sub, take_app_length.
  pose proof Hs as Hsc. apply Forall_app in Hs as [Hs Hc]. rewrite Forall_singleton in Hc.
  rewrite size_unit_spec by done. unfold nxt_size_t_parse.
  destruct (unit_shift c) as [shift|] eqn:Hsh; [|by apply parse_decimal].
  apply unit_shift_pos in Hsh. rewrite parse_decimal by done.
  pose proof (decimal_range NXT_SIZE_T_MAX s ltac:(done)) as Hr.
  change (decimal INT64_MAX s) with (decimal NXT_SIZE_T_MAX s).
  set (v := decimal NXT_SIZE_T_MAX s) in *. cbv zeta.
  rewrite Z.leb_antisym. destruct (v <? 0) eqn:E0; cbn [negb]; [done|]. zbool.
  rewrite unit_limit by lia. change INT64_MAX with NXT_SIZE_T_MAX.
  destruct (NXT_SIZE_T_MAX <? v * 2 ^ shift) eqn:E1; zbool; [done|].
  rewrite Z.shiftl_mul_pow2 by done. apply s64_id. unfold NXT_SIZE_T_MAX in *. lia.
Qed.

(** A number with a fraction denotes exactly the rational its digits do
    (before the rounding to a double): the digits of the fraction over the
    power of ten of their count.  It is an overflow exactly when the integral
    part exceeds a signed 64-bit value or the fraction has more than 18
    digits, and an error exactly when no digit comes first; the start pointer
    moves behind the last digit read, and only on success. *)
Theorem nxt_number_parse_correct (s : list Z) (Hs : Forall byte s) :
  nxt_number_parse s =
    let int := digits s in
    let frac := digits (tail (after_digits s)) in
    if INT64_MAX <? value int then (Failure (-2), s)
    else if decide (int = []) then (Failure (-1), s)
    else if decide (head (after_digits s) = Some DOT) then
      if (18 <? length frac)%nat then (Failure (-2), s)
      else (Number (value int) (value frac) (10 ^ Z.of_nat (length frac)),
            after_digits (tail (after_digits s)))
    else (Number (value int) 0 1, after_digits s).
Proof.
  unfold nxt_number_parse. rewrite integral_loop_spec by done. cbv zeta.
  fold (value (digits s)). change NXT_INT_T_MAX with INT64_MAX.
  destruct (INT64_MAX <? value (digits s)); [done|].
  pose proof (after_digits_length s) as Hl. pose proof (digits_app s) as Ha.
  assert (Hlen : (length (after_digits s) =? length s)%nat
    = bool_decide (digits s = [])).
  { apply Bool.eq_iff_eq_true. rewrite Nat.eqb_eq, bool_decide_eq_true, <- length_zero_iff_nil. lia. }
  destruct (after_digits s) as [|c r] eqn:Er; [|destruct (c =? DOT) eqn:Ec; zbool];
    rewrite Hlen; case_decide as Hd; case_bool_decide; try done; cbn [tail head];
    case_decide as Hdot; try naive_solver.
  rewrite Ha in Hs. apply Forall_app in Hs as [_ Hs]. inversion_clear Hs.
  change 1 with (10 ^ 0) at 1. rewrite frac_loop_spec by (done || lia).
  rewrite Z.add_0_l. destruct (18 <? length (digits r))%nat eqn:E; zbool.
  - by rewrite (proj2 (Z.ltb_lt _ _)) by lia.
  - by rewrite (proj2 (Z.ltb_ge _ _)) by lia.
Qed.

(** A leading integer is read up to the first byte that is no digit, and
    the string moves behind it; on overflow it does not move. *)
Theorem nxt_str_int_parse_correct (s : list Z) (Hs : Forall byte s) :
  nxt_str_int_parse s =
    if decide (s = []) then (-1, s)
    else if INT64_MAX <? value (digits s) then (-2, s)
    else (value (digits s), after_digits s).
Proof.
  destruct s as [|c s'] eqn:Es; [done|]. rewrite <- Es in *. rewrite decide_False by (by subst).
  transitivity (match str_int_loop s 0 with Some (val, r) => (s64 val, r) | None => (-2, s) end);
    [by subst|].
  rewrite str_int_loop_spec by done. fold (value (digits s)).
  change NXT_INT_T_MAX with INT64_MAX. destruct (INT64_MAX <? value (digits s)) eqn:E; [done|].
  zbool. rewrite s64_id; [done|]. pose proof (value_from_le s 0). unfold value in *. lia.
Qed.

(** ** Witnesses *)

Lemma nxt_int_parse_correct_witness :
  nxt_int_parse (bytes_of_string "9223372036854775808") = -2.
Proof.
  rewrite (proj1 (nxt_int_parse_correct (bytes_of_string "9223372036854775808")
    (bytes_of_string_byte _))). vm_compute. reflexivity.
Defined.

Lemma nxt_size_parse_correct_witness : nxt_size_parse (bytes_of_string "10" ++ [109]) = 10485760.
Proof.
  rewrite (proj2 (nxt_size_parse_correct (bytes_of_string "10") 109
    (bytes_of_string_byte "10m"))).
  vm_compute. reflexivity.
Defined.

Lemma nxt_number_parse_correct_witness :
  nxt_number_parse (bytes_of_string "3.25;") = (Number 3 25 100, [SEMICOLON]).
Proof.
  rewrite (nxt_number_parse_correct (bytes_of_string "3.25;") (bytes_of_string_byte _)).
  vm_compute. reflexivity.
Defined.

Lemma nxt_str_int_parse_correct_witness :
  nxt_str_int_parse (bytes_of_string "42ms") = (42, bytes_of_string "ms").
Proof.
  rewrite (nxt_str_int_parse_correct (bytes_of_string "42ms") (bytes_of_string_byte _)).
  vm_compute. reflexivity.
Defined.
