(* ===== verification/Sprintf.v ===== *)
(** * Formatted text: [src/nxt_sprintf.c]

    [nxt_sprintf()] writes between [buf] and [end]: here it returns what it
    wrote, and a write at [end] or behind it is a [Fault].  The arguments have
    the width at which they are passed; reading one at another type is a
    [Fault].  The arithmetic of doubles and [libm] are an interface. *)

From stdpp Require Import list.
From S2P Require Import Prelude Parse.

#[local] Open Scope Z_scope.

(** The operations on doubles that [%f] uses; [modf] returns the fraction and
    the integral part. *)
Class Double := {
  double : Type;
  is_negative : double -> bool;
  fneg : double -> double;
  isnan : double -> bool;
  isinf : double -> bool;
  modf : double -> double * double;
  scaled_fraction : double -> double -> Z -> Z;
  plus_one : double -> double;
  times_ten : double -> double;
  as_uchar : double -> Z;
  last_digit : double -> Z;
  tenth : double -> double;
  nxt_double_is_zero : double -> bool
}.

(** The arguments: integers of 32 and 64 bits as bit patterns, a [nxt_str_t *],
    a pointer to bytes, each [None] for [NULL], and a double. *)
Inductive arg {D : Double} :=
| Arg32 (z : Z)
| Arg64 (z : Z)
| Arg_str (s : option (list Z))
| Arg_ptr (mem : option (list Z))
| Arg_double (f : double).

Record nxt_sprintf_t := Spf {
  hex : option (list Z);
  width : Z;
  frac_width : Z;
  max_width : bool;
  padding : Z
}.

Abbreviation NXT_INT64_T_LEN := 20%nat (only parsing).
Abbreviation NXT_DOUBLE_LEN := 309%nat (only parsing).

Definition hexadecimal : list Z := bytes_of_string "0123456789abcdef".
Definition HEXADECIMAL : list Z := bytes_of_string "0123456789ABCDEF".
Definition null_text : list Z := bytes_of_string "[null]".

Section Sprintf.
Context {D : Double} (sys_errlist : list (list Z)).

(** ** Writing: [size] is the length from the start to [end]. *)

Definition put_char (size : nat) (out : list Z) (c : Z) : outcome (list Z) :=
  if (length out <? size)%nat then Ret (out ++ [c]) else Fault.

(** [nxt_cpymem()] *)
Definition cpymem (size : nat) (out t : list Z) : outcome (list Z) :=
  if (size <? length out + length t)%nat then Fault else Ret (out ++ t).

(** A loop that copies until [end]. *)
Definition copy_to_end (size : nat) (out t : list Z) : list Z := out ++ take (size - length out) t.

(** ** Integers *)

(** The digits, from the last one; [temp] has [fuel] places left. *)
Fixpoint decimal_loop (fuel : nat) (ui64 : Z) (p : list Z) : outcome (list Z) :=
  match fuel with
  | O => Fault
  | S fuel =>
      let p := (ui64 mod 10 + CH_0) :: p in
      let ui64 := ui64 / 10 in
      if ui64 =? 0 then Ret p else decimal_loop fuel ui64 p
  end.

Fixpoint hexadecimal_loop (hex : list Z) (fuel : nat) (ui64 : Z) (p : list Z) : outcome (list Z) :=
  match fuel with
  | O => Fault
  | S fuel =>
      let* c := of_option (hex !! Z.to_nat (Z.land ui64 0xF)) in
      let ui64 := Z.shiftr ui64 4 in
      if ui64 =? 0 then Ret (c :: p) else hexadecimal_loop hex fuel ui64 (c :: p)
  end.

(** Padding and copying, the end of [nxt_integer()] and of [nxt_number()]. *)
Definition padded (spf : nxt_sprintf_t) (size : nat) (out p : list Z) : list Z :=
  let out :=
    if width spf =? 0 then out
    else copy_to_end size out (repeat (padding spf) (Z.to_nat (width spf - Z.of_nat (length p)))) in
  copy_to_end size out p.

Definition nxt_integer (spf : nxt_sprintf_t) (size : nat) (out : list Z) (ui64 : Z) : outcome (list Z) :=
  let* p := match hex spf with
            | None => decimal_loop NXT_INT64_T_LEN ui64 []
            | Some hex => hexadecimal_loop hex NXT_INT64_T_LEN ui64 []
            end in
  Ret (padded spf size out p).

(** ** Doubles *)

Fixpoint number_loop (fuel : nat) (n : double) (p : list Z) : outcome (list Z) :=
  match fuel with
  | O => Fault
  | S fuel =>
      let p := last_digit n :: p in
      let n := tenth n in
      if nxt_double_is_zero n then Ret p else number_loop fuel n p
  end.

Definition nxt_number (spf : nxt_sprintf_t) (size : nat) (out : list Z) (n : double) : outcome (list Z) :=
  let* p := number_loop NXT_DOUBLE_LEN n [] in
  Ret (padded spf size out p).

(** [scale], after [n] rounds *)
Fixpoint scale_loop (n : nat) (scale : Z) : Z :=
  match n with O => scale | S n => scale_loop n (u64 (scale * 10)) end.

(** The digits behind the point, as long as there is room. *)
Fixpoint fraction_loop (room : nat) (f : double) (out : list Z) : list Z :=
  if nxt_double_is_zero f then out
  else
    match room with
    | O => out
    | S room =>
        let '(f, i) := modf (times_ten f) in
        fraction_loop room f (out ++ [u8 (as_uchar i + CH_0)])
    end.

Definition number_text (spf : nxt_sprintf_t) (size : nat) (f : double) (out : list Z) : outcome (list Z) :=
  let '(_, i) := modf f in
  let '(i, frac) :=
    if 0 <? frac_width spf then
      let scale := scale_loop (Z.to_nat (frac_width spf)) 1 in
      let frac := scaled_fraction f i scale in
      if frac =? scale then (plus_one i, 0) else (i, frac)
    else (i, 0) in
  let* out := nxt_number spf size out i in
  if 0 <? frac_width spf then
    if (length out <? size)%nat then
      let* out := put_char size out DOT in
      nxt_integer (Spf None (u32 (frac_width spf)) (frac_width spf) (max_width spf) CH_0) size out frac
    else Ret out
  else if frac_width spf <? 0 then
    let '(f, i) := modf f in
    if negb (nxt_double_is_zero f) && (length out <? size)%nat then
      let* out := put_char size out DOT in
      Ret (fraction_loop (size - length out) f out)
    else Ret out
  else Ret out.

(** ** Errors *)

(** [nxt_runtime_strerror()]; the last message is for the numbers that have
    none. *)
Definition nxt_runtime_strerror (err : Z) (room : nat) : outcome (list Z) :=
  let n := Z.min (u64 err) (Z.of_nat (length sys_errlist) - 1) in
  let* msg := of_option (sys_errlist !! Z.to_nat n) in
  Ret (take room msg).

(** [%E] *)
Definition error_text (size : nat) (err : Z) (spf : nxt_sprintf_t) (out : list Z) : outcome (list Z) :=
  let* out := put_char size out 40 in
  let* out := nxt_integer (Spf None 0 (frac_width spf) (max_width spf) (padding spf)) size out (u64 err) in
  let* out := (if (length out <? size - 1)%nat then
                 let* out := put_char size out COLON in put_char size out SP
               else Ret out) in
  let* msg := nxt_runtime_strerror err (size - length out) in
  let* out := cpymem size out msg in
  if (length out <? size)%nat then put_char size out 41 else Ret out.

(** ** The format *)

Definition spf_digit (c : Z) : bool := (CH_0 <=? c) && (c <=? CH_9).

Fixpoint width_loop (fmt : list Z) (width : Z) : Z * list Z :=
  match fmt with
  | c :: fmt' => if spf_digit c then width_loop fmt' (u32 (width * 10 + (c - CH_0))) else (width, fmt)
  | [] => (width, [])
  end.

(** An [int32_t] that overflows has no value. *)
Fixpoint fraction_width_loop (fmt : list Z) (w : Z) : outcome (Z * list Z) :=
  match fmt with
  | c :: fmt' =>
      if spf_digit c then
        let w := w * 10 + c - CH_0 in
        if INT32_MAX <? w then Fault else fraction_width_loop fmt' w
      else Ret (w, fmt)
  | [] => Ret (w, [])
  end.

(** The loop over the flags. *)
Fixpoint flags_loop (fmt : list Z) (spf : nxt_sprintf_t) (sign : bool) : outcome (nxt_sprintf_t * bool * list Z) :=
  match fmt with
  | c :: fmt' =>
      if c =? 117 then flags_loop fmt' spf false
      else if c =? 109 then flags_loop fmt' (Spf (hex spf) (width spf) (frac_width spf) true (padding spf)) sign
      else if c =? 88 then flags_loop fmt' (Spf (Some HEXADECIMAL) (width spf) (frac_width spf) (max_width spf) (padding spf)) false
      else if c =? 120 then flags_loop fmt' (Spf (Some hexadecimal) (width spf) (frac_width spf) (max_width spf) (padding spf)) false
      else if c =? DOT then
        let* (w, fmt) := fraction_width_loop fmt' 0 in
        Ret (Spf (hex spf) (width spf) w (max_width spf) (padding spf), sign, fmt)
      else Ret (spf, sign, fmt)
  | [] => Ret (spf, sign, fmt)
  end.

Definition va_arg32 (args : list arg) : outcome (Z * list arg) :=
  match args with Arg32 z :: args => Ret (z, args) | _ => Fault end.

Definition va_arg64 (args : list arg) : outcome (Z * list arg) :=
  match args with Arg64 z :: args => Ret (z, args) | _ => Fault end.

(** The state of the loop: the format, the arguments and what is written. *)
Definition spf_state : Type := list Z * list arg * list Z.

(** [copy:] *)
Definition copy_ (size : nat) (fmt : list Z) (args : list arg) (out mem : list Z) (length_ : Z) : outcome spf_state :=
  let n := Z.to_nat (Z.min (Z.of_nat (size - length out)) length_) in
  if (length mem <? n)%nat then Fault
  else let* out := cpymem size out (take n mem) in Ret (fmt, args, out).

(** A loop that copies a string that ends with NUL. *)
Fixpoint cstr_loop (size : nat) (mem out : list Z) : outcome (list Z) :=
  match mem with
  | [] => if (length out <? size)%nat then Fault else Ret out
  | c :: mem =>
      if (c =? NUL) || negb (length out <? size)%nat then Ret out
      else let* out := put_char size out c in cstr_loop size mem out
  end.

(** [number:], with the last character of the directive at the head of
    [fmt]. *)
Definition number_ (size : nat) (spf : nxt_sprintf_t) (sign : bool) (z : Z) (fmt : list Z) (args : list arg) (out : list Z) :
    outcome spf_state :=
  let* (out, ui64) :=
    (if sign then
       if z <? 0 then let* out := put_char size out MINUS in Ret (out, u64 (- z)) else Ret (out, u64 z)
     else Ret (out, z)) in
  let* out := nxt_integer spf size out ui64 in
  Ret (drop 1 fmt, args, out).

Definition with_width (spf : nxt_sprintf_t) (w : Z) : nxt_sprintf_t :=
  Spf (hex spf) w (frac_width spf) (max_width spf) (padding spf).

Definition with_hex (spf : nxt_sprintf_t) (h : list Z) : nxt_sprintf_t :=
  Spf (Some h) (width spf) (frac_width spf) (max_width spf) (padding spf).

Definition int32_arg (sign : bool) (args : list arg) : outcome (Z * list arg) :=
  let* (z, args) := va_arg32 args in Ret (if sign then s32 z else z, args).

Definition int64_arg (sign : bool) (args : list arg) : outcome (Z * list arg) :=
  let* (z, args) := va_arg64 args in Ret (if sign then s64 z else z, args).

(** The conversions, after the flags. *)
Definition conversion (size : nat) (spf : nxt_sprintf_t) (sign : bool) (fmt : list Z) (args : list arg) (out : list Z) :
    outcome spf_state :=
  match fmt with
  | [] => Fault
  | c :: fmt' =>
      if c =? 69 then
        let* (err, args) := va_arg32 args in
        let* out := error_text size (s32 err) spf out in
        Ret (fmt', args, out)
      else if (c =? 79) || (c =? 84) || (c =? 114) then
        let* (z, args) := int64_arg true args in
        number_ size spf true z fmt args out
      else if c =? 77 then
        let* (ms, args) := va_arg32 args in
        if (s32 ms =? -1) && negb (bool_decide (is_Some (hex spf)))
        then number_ size spf true (-1) fmt args out else number_ size spf false ms fmt args out
      else if c =? 78 then
        let* (ns, args) := va_arg64 args in
        if s64 ns =? -1 then number_ size spf true (-1) fmt args out else number_ size spf false ns fmt args out
      else if (c =? 122) || (c =? 108) || (c =? 76) then
        let* (z, args) := int64_arg sign args in
        number_ size spf sign z fmt args out
      else if (c =? 105) || (c =? 65) then
        let* (z, args) := int64_arg sign args in
        number_ size (if max_width spf then with_width spf 20 else spf) sign z fmt args out
      else if (c =? 100) || (c =? 68) then
        let* (z, args) := int32_arg sign args in
        number_ size spf sign z fmt args out
      else if c =? 98 then
        let* (z, args) := va_arg64 args in
        number_ size spf false z fmt args out
      else if c =? 102 then
        match args with
        | Arg_double f :: args =>
            let* (f, out) := (if is_negative f then let* out := put_char size out MINUS in Ret (fneg f, out) else Ret (f, out)) in
            if isnan f then copy_ size fmt' args out (bytes_of_string "[nan]") 5
            else if isinf f then copy_ size fmt' args out (bytes_of_string "[infinity]") 10
            else let* out := number_text spf size f out in Ret (fmt', args, out)
        | _ => Fault
        end
      else if c =? 112 then
        let* (z, args) := va_arg64 args in
        number_ size (with_hex spf HEXADECIMAL) false z fmt args out
      else if c =? 99 then
        let* (d, args) := va_arg32 args in
        let* out := put_char size out (Z.land d 0xFF) in
        Ret (fmt', args, out)
      else if c =? 70 then
        match fmt' with
        | [] => Ret (fmt', args, out)
        | c :: fmt'' =>
            if c =? 68 then let* (z, args) := int32_arg true args in number_ size spf true z fmt' args out
            else if c =? 78 then
              match args with
              | Arg_ptr (Some mem) :: args => let* out := cstr_loop size mem out in Ret (fmt'', args, out)
              | _ => Fault
              end
            else Ret (fmt', args, out)
        end
      else if c =? 80 then
        match fmt' with
        | [] => Ret (fmt', args, out)
        | c :: _ =>
            if c =? 73 then let* (z, args) := int32_arg true args in number_ size spf true z fmt' args out
            else if c =? 84 then let* (z, args) := va_arg64 args in number_ size spf false z fmt' args out
            else if c =? 72 then let* (z, args) := va_arg64 args in number_ size (with_hex spf HEXADECIMAL) false z fmt' args out
            else Ret (fmt', args, out)
        end
      else
        let* out := put_char size out (if c =? 90 then NUL else if c =? 110 then LF else c) in
        Ret (fmt', args, out)
  end.

(** A directive, behind its percent sign. *)
Definition directive (size : nat) (fmt : list Z) (args : list arg) (out : list Z) : outcome spf_state :=
  match fmt with
  | [] => Fault
  | c :: fmt' =>
      if c =? 86 then
        match args with
        | Arg_str (Some s) :: args => copy_ size fmt' args out s (Z.of_nat (length s))
        | Arg_str None :: args => Ret (fmt', args, out)
        | _ => Fault
        end
      else if c =? 115 then
        match args with
        | Arg_ptr (Some mem) :: args => let* out := cstr_loop size mem out in Ret (fmt', args, out)
        | Arg_ptr None :: args => let* out := cpymem size out null_text in Ret (fmt', args, out)
        | _ => Fault
        end
      else if c =? STAR then
        let* (length_, args) := va_arg64 args in
        if bool_decide (head fmt' = Some 115) then
          match args with
          | Arg_ptr (Some mem) :: args => copy_ size (drop 1 fmt') args out mem length_
          | Arg_ptr None :: args => let* out := cpymem size out null_text in Ret (drop 1 fmt', args, out)
          | _ => Fault
          end
        else Ret (fmt', args, out)
      else
        let padding := if c =? CH_0 then CH_0 else SP in
        let '(w, fmt) := width_loop fmt 0 in
        let* (spf, sign, fmt) := flags_loop fmt (Spf None w (-1) false padding) true in
        conversion size spf sign fmt args out
  end.

Fixpoint vsprintf_loop (fuel : nat) (size : nat) (fmt : list Z) (args : list arg) (out : list Z) : outcome (list Z) :=
  match fmt with
  | [] => Ret out
  | c :: fmt =>
      if (size <=? length out)%nat then Ret out
      else
        match fuel with
        | O => OutOfFuel
        | S fuel =>
            if negb (c =? PERCENT) then
              let* out := put_char size out c in
              vsprintf_loop fuel size fmt args out
            else
              let* (fmt, args, out) := directive size fmt args out in
              vsprintf_loop fuel size fmt args out
        end
  end.

(** Every round takes a character of the format. *)
Definition nxt_vsprintf (size : nat) (fmt : list Z) (args : list arg) : outcome (list Z) :=
  vsprintf_loop (length fmt) size fmt args [].

Definition nxt_sprintf (size : nat) (fmt : list Z) (args : list arg) : outcome (list Z) := nxt_vsprintf size fmt args.

End Sprintf.

(** ** What a format means *)

Inductive flag := Flag_u | Flag_m | Flag_x | Flag_X.

Inductive conv :=
| Conv_O | Conv_T | Conv_r | Conv_M | Conv_N | Conv_z | Conv_l | Conv_L | Conv_i | Conv_A | Conv_d | Conv_D
| Conv_b | Conv_p | Conv_FD | Conv_PI | Conv_PT | Conv_PH.

Definition flag_char (f : flag) : Z := match f with Flag_u => 117 | Flag_m => 109 | Flag_x => 120 | Flag_X => 88 end.

Definition conv_text (c : conv) : list Z :=
  match c with
  | Conv_O => [79] | Conv_T => [84] | Conv_r => [114] | Conv_M => [77] | Conv_N => [78] | Conv_z => [122]
  | Conv_l => [108] | Conv_L => [76] | Conv_i => [105] | Conv_A => [65] | Conv_d => [100] | Conv_D => [68]
  | Conv_b => [98] | Conv_p => [112] | Conv_FD => [70; 68] | Conv_PI => [80; 73] | Conv_PT => [80; 84]
  | Conv_PH => [80; 72]
  end.

(** The argument has 32 bits. *)
Definition conv_32 (c : conv) : bool := match c with Conv_M | Conv_d | Conv_D | Conv_FD | Conv_PI => true | _ => false end.

Definition flag_hex (f : flag) : option (list Z) :=
  match f with Flag_x => Some hexadecimal | Flag_X => Some HEXADECIMAL | _ => None end.

(** The last flag counts. *)
Fixpoint flags_hex (fs : list flag) : option (list Z) :=
  match fs with
  | [] => None
  | f :: fs => match flags_hex fs with Some h => Some h | None => flag_hex f end
  end.

Definition conv_hex (c : conv) (fs : list flag) : option (list Z) :=
  match c with Conv_p | Conv_PH => Some HEXADECIMAL | _ => flags_hex fs end.

Definition is_flag_m (f : flag) : bool := match f with Flag_m => true | _ => false end.

Definition flags_signed (fs : list flag) : bool := forallb is_flag_m fs.

(** The number of an argument. *)
Definition conv_value (c : conv) (fs : list flag) (z : Z) : Z :=
  match c with
  | Conv_O | Conv_T | Conv_r => s64 z
  | Conv_M => if (s32 z =? -1) && negb (bool_decide (is_Some (flags_hex fs))) then -1 else z
  | Conv_N => if s64 z =? -1 then -1 else z
  | Conv_z | Conv_l | Conv_L | Conv_i | Conv_A => if flags_signed fs then s64 z else z
  | Conv_d | Conv_D => if flags_signed fs then s32 z else z
  | Conv_b | Conv_p | Conv_PT | Conv_PH => z
  | Conv_FD | Conv_PI => s32 z
  end.

Definition width_of (ds : list Z) : Z := fold_left (fun w c => u32 (w * 10 + (c - CH_0))) ds 0.

Definition conv_width (c : conv) (fs : list flag) (ds : list Z) : Z :=
  match c with
  | Conv_i | Conv_A => if existsb is_flag_m fs then 20 else width_of ds
  | _ => width_of ds
  end.

(** The digits of a number, without zeros in front. *)
Fixpoint numeral (base : Z) (digit_char : Z -> Z) (fuel : nat) (n : Z) : list Z :=
  match fuel with
  | O => []
  | S fuel => (if n / base =? 0 then [] else numeral base digit_char fuel (n / base)) ++ [digit_char (n mod base)]
  end.

Definition decimal_text (n : Z) : list Z := numeral 10 (fun d => d + CH_0) 20 n.

Definition digits_of (hex : option (list Z)) (n : Z) : list Z :=
  match hex with None => decimal_text n | Some h => numeral 16 (fun d => nth (Z.to_nat d) h 0) 20 n end.

(** A part of a format with its argument. *)
Inductive item :=
| Lit (c : Z)
| Percent (c : Z)
| Char (d : Z)
| Str (s : option (list Z))
| Cstr (s rest : list Z)
| Mem (mem : list Z) (n : nat)
| Number (ds : list Z) (fs : list flag) (c : conv) (z : Z).

Definition item_ok (i : item) : Prop :=
  match i with
  | Lit c => c <> PERCENT
  | Percent c => c ∈ [90; 110; PERCENT]
  | Char _ | Str _ => True
  | Cstr s _ => NUL ∉ s
  | Mem mem n => (n <= length mem)%nat
  | Number ds fs c z => forallb spf_digit ds = true /\ 0 <= z < (if conv_32 c then 2 ^ 32 else 2 ^ 64)
  end.

Definition item_format (i : item) : list Z :=
  match i with
  | Lit c => [c]
  | Percent c => [PERCENT; c]
  | Char _ => [PERCENT; 99]
  | Str _ => [PERCENT; 86]
  | Cstr _ _ => [PERCENT; 115]
  | Mem _ _ => [PERCENT; 42; 115]
  | Number ds fs c _ => PERCENT :: ds ++ (flag_char <$> fs) ++ conv_text c
  end.

Definition item_args {D : Double} (i : item) : list arg :=
  match i with
  | Lit _ | Percent _ => []
  | Char d => [Arg32 d]
  | Str s => [Arg_str s]
  | Cstr s rest => [Arg_ptr (Some (s ++ NUL :: rest))]
  | Mem mem n => [Arg64 (Z.of_nat n); Arg_ptr (Some mem)]
  | Number _ _ c z => [if conv_32 c then Arg32 z else Arg64 z]
  end.

Definition item_text (i : item) : list Z :=
  match i with
  | Lit c => [c]
  | Percent c => [if c =? 90 then NUL else if c =? 110 then LF else c]
  | Char d => [Z.land d 0xFF]
  | Str s => default [] s
  | Cstr s _ => s
  | Mem mem n => take n mem
  | Number ds fs c z =>
      let v := conv_value c fs z in
      let p := digits_of (conv_hex c fs) (Z.abs v) in
      let w := conv_width c fs ds in
      (if v <? 0 then [MINUS] else [])
      ++ repeat (if bool_decide (head ds = Some CH_0) then CH_0 else SP) (Z.to_nat (w - Z.of_nat (length p))) ++ p
  end.

(** *** Digits *)

Lemma decimal_loop_ok fuel : forall n p, 0 <= n < 10 ^ Z.of_nat fuel -> (0 < fuel)%nat ->
  decimal_loop fuel n p = Ret (numeral 10 (fun d => d + CH_0) fuel n ++ p).
Proof.
  induction fuel as [|fuel IH]; intros n p Hn Hf; [lia|]. cbn [decimal_loop numeral].
  rewrite Nat2Z.inj_succ, Z.pow_succ_r in Hn by lia. destruct (Z.eqb_spec (n / 10) 0) as [E|E]; [done|].
  assert (H0 : 0 < n / 10 < 10 ^ Z.of_nat fuel) by (split; [dlia|apply Z.div_lt_upper_bound; lia]).
  rewrite IH; [by rewrite <- app_assoc|lia|]. destruct fuel; [cbn in H0; lia|lia].
Qed.

Lemma hex_digits_ok h fuel : length h = 16%nat -> forall n p, 0 <= n < 16 ^ Z.of_nat fuel -> (0 < fuel)%nat ->
  hexadecimal_loop h fuel n p = Ret (numeral 16 (fun d => nth (Z.to_nat d) h 0) fuel n ++ p).
Proof.
  intros Hh. induction fuel as [|fuel IH]; intros n p Hn Hf; [lia|]. cbn [hexadecimal_loop numeral].
  change 0xF with (Z.ones 4). rewrite Z.land_ones, Z.shiftr_div_pow2 by lia. change (2 ^ 4) with 16.
  assert (Hd : 0 <= n mod 16 < 16) by (apply Z.mod_pos_bound; lia).
  destruct (lookup_lt_is_Some_2 h (Z.to_nat (n mod 16))) as [c Hc]; [lia|]. rewrite Hc. cbn [of_option obind].
  rewrite (nth_lookup_Some _ _ _ _ Hc).
  rewrite Nat2Z.inj_succ, Z.pow_succ_r in Hn by lia. destruct (Z.eqb_spec (n / 16) 0) as [E|E]; [done|].
  assert (H0 : 0 < n / 16 < 16 ^ Z.of_nat fuel) by (split; [dlia|apply Z.div_lt_upper_bound; lia]).
  rewrite IH; [by rewrite <- app_assoc|lia|]. destruct fuel; [cbn in H0; lia|lia].
Qed.

(** *** Copying *)

Lemma copy_to_end_app size out a b : copy_to_end size (copy_to_end size out a) b = copy_to_end size out (a ++ b).
Proof.
  unfold copy_to_end. rewrite <- app_assoc, take_app, length_app, length_take. do 3 f_equal. lia.
Qed.

Lemma copy_to_end_nil size out : copy_to_end size out [] = out.
Proof. unfold copy_to_end. by rewrite take_nil, app_nil_r. Qed.

Lemma copy_to_end_length size out t : (length out <= size)%nat -> (length (copy_to_end size out t) <= size)%nat.
Proof. intros Hl. unfold copy_to_end. rewrite length_app, length_take. lia. Qed.

Lemma put_char_ok size out c : (length out < size)%nat -> put_char size out c = Ret (copy_to_end size out [c]).
Proof.
  intros Hl. unfold put_char, copy_to_end. rewrite (proj2 (Nat.ltb_lt _ _)) by done. by rewrite take_ge by (cbn; lia).
Qed.

Lemma copy_to_end_all size out t : (length out + length t <= size)%nat -> copy_to_end size out t = out ++ t.
Proof. intros Hl. unfold copy_to_end. by rewrite take_ge by lia. Qed.

Lemma copy_ok {D : Double} size fmt (args : list arg) out mem n : (n <= length mem)%nat -> (length out <= size)%nat ->
  copy_ size fmt args out mem (Z.of_nat n) = Ret (fmt, args, copy_to_end size out (take n mem)).
Proof.
  intros Hn Hl. unfold copy_, cpymem. rewrite <- Nat2Z.inj_min, Nat2Z.id.
  rewrite (proj2 (Nat.ltb_ge _ _)) by lia. rewrite (proj2 (Nat.ltb_ge _ _)) by (rewrite length_take; lia).
  cbn [obind]. unfold copy_to_end. by rewrite take_take.
Qed.

Lemma cstr_loop_ok size s rest : NUL ∉ s -> forall out, (length out <= size)%nat ->
  cstr_loop size (s ++ NUL :: rest) out = Ret (copy_to_end size out s).
Proof.
  induction s as [|c s IH]; intros Hs out Hl; [by rewrite copy_to_end_nil|].
  apply not_elem_of_cons in Hs as [Hc Hs]. cbn [app cstr_loop]. rewrite (proj2 (Z.eqb_neq c NUL)) by done. cbn [orb].
  destruct (length out <? size)%nat eqn:E; zbool; cbn [negb].
  - rewrite put_char_ok by done. cbn [obind]. rewrite IH; [by rewrite copy_to_end_app|done|by apply copy_to_end_length].
  - unfold copy_to_end. replace (size - length out)%nat with 0%nat by lia. by rewrite app_nil_r.
Qed.

(** *** Integers *)

Definition hex_ok (h : option (list Z)) : Prop := match h with Some h => length h = 16%nat | None => True end.

Lemma flags_hex_ok fs : hex_ok (flags_hex fs).
Proof. induction fs as [|f fs IH]; [done|]. cbn. destruct (flags_hex fs); [done|]. by destruct f. Qed.

Lemma conv_hex_ok c fs : hex_ok (conv_hex c fs).
Proof. destruct c; try apply flags_hex_ok; done. Qed.

Lemma integer_ok {D : Double} spf size out n : 0 <= n < 2 ^ 64 -> hex_ok (hex spf) ->
  nxt_integer spf size out n =
  Ret (copy_to_end size out (repeat (padding spf) (Z.to_nat (width spf - Z.of_nat (length (digits_of (hex spf) n)))) ++ digits_of (hex spf) n)).
Proof.
  intros Hn Hh. assert (Hp : forall p, padded spf size out p =
    copy_to_end size out (repeat (padding spf) (Z.to_nat (width spf - Z.of_nat (length p))) ++ p)).
  { intros p. unfold padded. rewrite <- copy_to_end_app. f_equal. destruct (Z.eqb_spec (width spf) 0) as [->|_]; [|done].
    replace (Z.to_nat (0 - _)) with 0%nat by lia. by rewrite copy_to_end_nil. }
  unfold nxt_integer, digits_of, decimal_text. destruct (hex spf) as [h|].
  - rewrite (hex_digits_ok h) by (exact Hh || lia). rewrite app_nil_r. cbn [obind]. by rewrite Hp.
  - rewrite decimal_loop_ok by lia. rewrite app_nil_r. cbn [obind]. by rewrite Hp.
Qed.

Lemma number_run_ok {D : Double} size spf (sign : bool) z fmt (args : list arg) out : (length out < size)%nat -> hex_ok (hex spf) ->
  (if sign then - 2 ^ 63 <= z < 2 ^ 63 else 0 <= z < 2 ^ 64) ->
  number_ size spf sign z fmt args out =
  let p := digits_of (hex spf) (Z.abs z) in
  Ret (drop 1 fmt, args, copy_to_end size out ((if z <? 0 then [MINUS] else [])
    ++ repeat (padding spf) (Z.to_nat (width spf - Z.of_nat (length p))) ++ p)).
Proof.
  intros Hl Hh Hz. cbn zeta. unfold number_. destruct sign; [destruct (Z.ltb_spec z 0)|].
  - rewrite put_char_ok by done. cbn [obind]. replace (u64 (- z)) with (Z.abs z) by (unfold u64; rewrite Z.mod_small; lia).
    rewrite integer_ok by (done || lia). cbn [obind]. by rewrite copy_to_end_app.
  - cbn [obind]. replace (u64 z) with (Z.abs z) by (unfold u64; rewrite Z.mod_small; lia).
    rewrite integer_ok by (done || lia). done.
  - cbn [obind]. replace (Z.abs z) with z by lia. rewrite integer_ok by (done || lia). cbn [obind].
    by rewrite (proj2 (Z.ltb_ge z 0)) by lia.
Qed.

(** *** Directives *)

Lemma width_loop_ok ds s : forall w, forallb spf_digit ds = true ->
  match s with c :: _ => spf_digit c = false | [] => True end ->
  width_loop (ds ++ s) w = (fold_left (fun w c => u32 (w * 10 + (c - CH_0))) ds w, s).
Proof.
  induction ds as [|c ds IH]; intros w Hd Hs; cbn [app width_loop fold_left].
  - destruct s as [|c s]; [done|]. cbn. by rewrite Hs.
  - cbn in Hd. apply andb_true_iff in Hd as [-> Hd]. by apply IH.
Qed.

Definition conv_char (s : list Z) : Prop :=
  match s with c :: _ => c ∉ [117; 109; 88; 120; DOT] /\ spf_digit c = false | [] => True end.

Lemma flags_loop_ok fs s : conv_char s -> forall spf sign,
  flags_loop ((flag_char <$> fs) ++ s) spf sign =
  Ret (Spf (match flags_hex fs with Some h => Some h | None => hex spf end) (width spf) (frac_width spf)
         (max_width spf || existsb is_flag_m fs) (padding spf), sign && flags_signed fs, s).
Proof.
  intros Hs. induction fs as [|f fs IH]; intros spf sign.
  - cbn [fmap list_fmap app]. rewrite orb_false_r, andb_true_r. destruct spf as [h w fw m pd]. cbn.
    destruct s as [|c s]; [done|]. cbn [flags_loop]. destruct Hs as [Hs _]. rewrite !not_elem_of_cons in Hs. destruct Hs as (H1 & H2 & H3 & H4 & H5 & _).
    by rewrite !(proj2 (Z.eqb_neq c _)) by done.
  - cbn [fmap list_fmap app]. destruct f; cbn [flag_char flags_loop Z.eqb Pos.eqb]; rewrite IH;
      cbn [hex width frac_width max_width padding flags_hex flag_hex existsb is_flag_m flags_signed forallb];
      rewrite ?orb_false_l, ?orb_true_r, ?andb_false_r, ?andb_true_l; destruct (flags_hex fs); done.
Qed.

Section Correct.
Context {D : Double} (sys_errlist : list (list Z)).

Lemma s64_range z : - 2 ^ 63 <= s64 z < 2 ^ 63.
Proof. unfold s64. pose proof (Z.mod_pos_bound (z + 2 ^ 63) (2 ^ 64) ltac:(lia)). lia. Qed.

Lemma s32_range z : - 2 ^ 31 <= s32 z < 2 ^ 31.
Proof. unfold s32. pose proof (Z.mod_pos_bound (z + 2 ^ 31) (2 ^ 32) ltac:(lia)). lia. Qed.

(** The conversion of an integer, behind its flags. *)
Lemma conversion_ok size fs ds pd c z rest (args : list arg) out : (length out < size)%nat ->
  0 <= z < (if conv_32 c then 2 ^ 32 else 2 ^ 64) ->
  let v := conv_value c fs z in
  let p := digits_of (conv_hex c fs) (Z.abs v) in
  conversion sys_errlist size (Spf (flags_hex fs) (width_of ds) (-1) (existsb is_flag_m fs) pd) (flags_signed fs)
    (conv_text c ++ rest) ((if conv_32 c then Arg32 z else Arg64 z) :: args) out =
  Ret (rest, args, copy_to_end size out ((if v <? 0 then [MINUS] else [])
    ++ repeat pd (Z.to_nat (conv_width c fs ds - Z.of_nat (length p))) ++ p)).
Proof.
  intros Hl Hz v p. pose proof (flags_hex_ok fs) as Hh. pose proof (s64_range z). pose proof (s32_range z).
  destruct c; cbn [conv_text app conversion Z.eqb Pos.eqb orb conv_32] in *;
    cbn [int64_arg int32_arg va_arg64 va_arg32 obind]; subst p v; cbn [conv_value conv_hex conv_width].
  all: try (destruct (_ && _) eqn:E1). all: try (destruct (s64 z =? -1) eqn:E2).
  all: try (destruct (existsb is_flag_m fs)).
  all: rewrite number_run_ok; [done|done|done|]. all: try (destruct (flags_signed fs)); lia.
Qed.

Lemma conv_text_char c rest : conv_char (conv_text c ++ rest).
Proof. destruct c; (split; [rewrite !not_elem_of_cons; split_and!; [done..|apply not_elem_of_nil]|done]). Qed.

Lemma flags_conv_no_digit fs c rest :
  match (flag_char <$> fs) ++ conv_text c ++ rest with c :: _ => spf_digit c = false | [] => True end.
Proof. destruct fs as [|f fs]; [|by destruct f]. cbn [fmap list_fmap app]. by destruct c. Qed.

Lemma directive_number size ds fs c z rest (args : list arg) out : (length out < size)%nat -> item_ok (Number ds fs c z) ->
  directive sys_errlist size (ds ++ (flag_char <$> fs) ++ conv_text c ++ rest) (item_args (Number ds fs c z) ++ args) out =
  Ret (rest, args, copy_to_end size out (item_text (Number ds fs c z))).
Proof.
  intros Hl [Hd Hz]. set (fmt := ds ++ _).
  assert (Hc : exists c0 fmt', fmt = c0 :: fmt' /\ c0 <> 86 /\ c0 <> 115 /\ c0 <> STAR /\
    (c0 =? CH_0) = bool_decide (head ds = Some CH_0)).
  { subst fmt. destruct ds as [|c0 ds].
    - destruct fs as [|f fs]; cbn [fmap list_fmap app]; [destruct c; (do 2 eexists; split_and!; [reflexivity|done..])|].
      destruct f; (do 2 eexists; split_and!; [reflexivity|done..]).
    - cbn in Hd. apply andb_true_iff in Hd as [Hd _]. unfold spf_digit in Hd. zbool.
      do 2 eexists. split_and!; [reflexivity|lia..|]. cbn. destruct (Z.eqb_spec c0 CH_0) as [->|Hne]; [done|].
      rewrite bool_decide_false; [done|]. by intros [= ?]. }
  destruct Hc as (c0 & fmt' & E & H1 & H2 & H3 & Hpad). unfold directive. rewrite E.
  rewrite !(proj2 (Z.eqb_neq c0 _)) by done. rewrite <- E. subst fmt.
  rewrite width_loop_ok by (done || apply flags_conv_no_digit).
  rewrite flags_loop_ok by apply conv_text_char. cbn [obind hex width frac_width max_width padding orb andb].
  replace (match flags_hex fs with Some h => Some h | None => None end) with (flags_hex fs) by by destruct (flags_hex fs).
  cbn [item_args app]. fold (width_of ds). rewrite conversion_ok by done. cbn [item_text]. by rewrite Hpad.
Qed.

Lemma directive_text size i rest (args : list arg) out : (length out < size)%nat -> item_ok i ->
  match i with Lit _ | Number _ _ _ _ => False | _ => True end ->
  directive sys_errlist size (drop 1 (item_format i) ++ rest) (item_args i ++ args) out =
  Ret (rest, args, copy_to_end size out (item_text i)).
Proof.
  intros Hl Hi Hk. assert (Hl' : (length out <= size)%nat) by lia.
  destruct i as [c|c|d|s|s rest'|mem n|ds fs c z]; try done; cbn [item_format drop app item_args item_text].
  - cbn in Hi. rewrite !elem_of_cons in Hi. destruct Hi as [->|[->|[->|Hi]]]; [..|by apply elem_of_nil in Hi].
    all: unfold directive; cbn; rewrite put_char_ok by done; done.
  - unfold directive. cbn. by rewrite put_char_ok.
  - unfold directive. cbn [Z.eqb Pos.eqb]. destruct s as [s|]; cbn [default]; [|by rewrite copy_to_end_nil].
    rewrite copy_ok by done. by rewrite take_ge.
  - unfold directive. cbn [Z.eqb Pos.eqb]. by rewrite cstr_loop_ok.
  - unfold directive. cbn [Z.eqb Pos.eqb va_arg64 obind head drop]. rewrite bool_decide_true by done. by rewrite copy_ok.
Qed.

Definition format_of (is_ : list item) : list Z := is_ ≫= item_format.
Definition args_of (is_ : list item) : list arg := is_ ≫= item_args.
Definition text_of_items (is_ : list item) : list Z := is_ ≫= item_text.

Lemma vsprintf_loop_ok size is_ : Forall item_ok is_ -> forall fuel out, (length out <= size)%nat ->
  (length (format_of is_) <= fuel)%nat ->
  vsprintf_loop sys_errlist fuel size (format_of is_) (args_of is_) out = Ret (copy_to_end size out (text_of_items is_)).
Proof.
  induction 1 as [|i is_ Hi His IH]; intros fuel out Hl Hf.
  { cbn. destruct fuel; by rewrite copy_to_end_nil. }
  change (format_of (i :: is_)) with (item_format i ++ format_of is_) in *.
  change (args_of (i :: is_)) with (item_args i ++ args_of is_). change (text_of_items (i :: is_)) with (item_text i ++ text_of_items is_).
  assert (Hc : exists c s, item_format i = c :: s) by (destruct i; by do 2 eexists). destruct Hc as (c & s & Ei).
  destruct (decide (length out = size)) as [Heq|Hne].
  { rewrite Ei. unfold copy_to_end. replace (size - length out)%nat with 0%nat by lia. rewrite app_nil_r.
    destruct fuel; cbn [app vsprintf_loop]; by rewrite (proj2 (Nat.leb_le _ _)) by lia. }
  assert (Hlt : (length out < size)%nat) by lia. rewrite length_app, Ei in Hf. cbn [length] in Hf.
  destruct fuel as [|fuel]; [lia|]. rewrite Ei. cbn [app vsprintf_loop]. rewrite (proj2 (Nat.leb_gt _ _)) by done.
  rewrite <- copy_to_end_app.
  assert (Hnext : forall o, (length o <= size)%nat ->
    vsprintf_loop sys_errlist fuel size (format_of is_) (args_of is_) o = Ret (copy_to_end size o (text_of_items is_))).
  { intros o Ho. apply IH; [done|lia]. }
  destruct i as [x|x|x|x|x y|x y|ds fs cv z].
  1: { cbn in Ei, Hi. injection Ei as <- <-. rewrite (proj2 (Z.eqb_neq x PERCENT)) by done. cbn [negb item_args app].
       rewrite put_char_ok by done. cbn [obind]. apply Hnext. by apply copy_to_end_length. }
  6: { cbn in Ei. injection Ei as <- <-. rewrite Z.eqb_refl. cbn [negb]. rewrite <- !app_assoc, directive_number by done.
       cbn [obind]. apply Hnext. by apply copy_to_end_length. }
  all: match goal with |- context [item_args ?i ++ _] => pose proof (directive_text size i (format_of is_) (args_of is_) out Hlt Hi I) as Hd end.
  all: rewrite Ei in Hd; change (drop 1 (c :: s)) with s in Hd; cbn in Ei; injection Ei as <- <-; rewrite Z.eqb_refl; cbn [negb].
  all: rewrite Hd; cbn [obind]; apply Hnext; by apply copy_to_end_length.
Qed.

Lemma sprintf_ok size is_ : Forall item_ok is_ ->
  nxt_sprintf sys_errlist size (format_of is_) (args_of is_) = Ret (take size (text_of_items is_)).
Proof.
  intros His. unfold nxt_sprintf, nxt_vsprintf. rewrite vsprintf_loop_ok by (done || cbn; lia).
  unfold copy_to_end. cbn [length app]. by rewrite Nat.sub_0_r.
Qed.

End Correct.

(** ** Numbers are read back *)

Lemma value_snoc_digit t d : value (t ++ [d + CH_0]) = value t * 10 + d.
Proof. unfold value, value_from. rewrite fold_left_app. cbn. lia. Qed.

Lemma numeral_decimal fuel : forall n, 0 <= n < 10 ^ Z.of_nat fuel ->
  let t := numeral 10 (fun d => d + CH_0) fuel n in
  forallb digit t = true /\ value t = n /\ (length t <= fuel)%nat /\ ((0 < fuel)%nat -> t <> [])
  /\ (head t = Some CH_0 -> t = [CH_0] \/ t = []).
Proof.
  induction fuel as [|fuel IH]; intros n Hn; [cbn in *; split_and!; [done|unfold value; cbn; lia|lia|lia|done]|].
  cbn zeta. cbn [numeral]. rewrite Nat2Z.inj_succ, Z.pow_succ_r in Hn by lia.
  assert (Hd : 0 <= n mod 10 < 10) by (apply Z.mod_pos_bound; lia).
  assert (Hdig : digit (n mod 10 + CH_0) = true) by (unfold digit; rewrite andb_true_iff, !Z.leb_le; lia).
  destruct (Z.eqb_spec (n / 10) 0) as [E|E].
  - cbn [app length forallb]. rewrite Hdig. split_and!; [done|unfold value; cbn; dlia|lia|done|]. cbn. intros [= ->]. by left.
  - assert (H0 : 0 < n / 10 < 10 ^ Z.of_nat fuel) by (split; [dlia|apply Z.div_lt_upper_bound; lia]).
    destruct (IH (n / 10) ltac:(lia)) as (H1 & H2 & H3 & H4 & H5). set (t := numeral _ _ fuel _) in *.
    rewrite forallb_app, H1, length_app, value_snoc_digit, H2. cbn [forallb length andb]. rewrite Hdig.
    split_and!; [done|dlia|lia|by destruct t|]. destruct t as [|c t]; [cbn in H2; unfold value in H2; cbn in H2; lia|].
    cbn. intros [= ->]. destruct H5 as [H5|H5]; [done| |done]. rewrite H5 in H2. cbn in H2. lia.
Qed.

Lemma decimal_text_ok n : 0 <= n < 2 ^ 64 ->
  forallb digit (decimal_text n) = true /\ value (decimal_text n) = n /\ (1 <= length (decimal_text n) <= 20)%nat
  /\ (head (decimal_text n) = Some CH_0 -> decimal_text n = [CH_0]).
Proof.
  intros Hn. destruct (numeral_decimal 20 n) as (H1 & H2 & H3 & H4 & H5); [lia|]. specialize (H4 ltac:(lia)).
  unfold decimal_text. set (t := numeral _ _ _ _) in *. split_and!; [done|done|destruct t; [done|cbn; lia]|done|].
  intros H. by destruct (H5 H).
Qed.

Lemma all_digits t : forallb digit t = true -> digits t = t /\ after_digits t = [] /\ Forall byte t.
Proof.
  induction t as [|c t IH]; [done|]. cbn. intros [Hc Ht]%andb_true_iff. rewrite Hc. destruct (IH Ht) as (-> & -> & Hb).
  split_and!; [done|done|]. constructor; [|done]. unfold digit in Hc. zbool. unfold byte. lia.
Qed.

Lemma parse_decimal_text n : 0 <= n <= INT64_MAX -> nxt_off_t_parse (decimal_text n) = n.
Proof.
  intros Hn. destruct (decimal_text_ok n) as (H1 & H2 & H3 & _); [lia|]. destruct (all_digits _ H1) as (Hd & Ha & Hb).
  unfold nxt_off_t_parse. rewrite parse_decimal by (done || (unfold NXT_OFF_T_MAX; lia)).
  unfold decimal. rewrite Hd, H2, (proj2 (Z.ltb_ge _ _)) by (unfold NXT_OFF_T_MAX; lia).
  rewrite decide_True; [done|]. split; [|done]. intros E. rewrite E in H3. cbn in H3. lia.
Qed.


(** No doubles. *)
Definition no_floats : Double :=
  {| double := unit; is_negative := fun _ => false; fneg := fun f => f; isnan := fun _ => true; isinf := fun _ => false;
     modf := fun f => (f, f); scaled_fraction := fun _ _ _ => 0; plus_one := fun f => f; times_ten := fun f => f;
     as_uchar := fun _ => 0; last_digit := fun _ => CH_0; tenth := fun f => f; nxt_double_is_zero := fun _ => true |}.


(** [%s] with [NULL] writes without looking at the end: behind the buffer when
    less than six bytes are left. *)
Lemma null_overruns {D : Double} sys_errlist size n : (n < size < n + 6)%nat ->
  nxt_sprintf sys_errlist size (repeat 120 n ++ [PERCENT; 115]) [Arg_ptr None] = Fault.
Proof.
  intros Hn. unfold nxt_sprintf, nxt_vsprintf. rewrite length_app, repeat_length, Nat.add_comm. cbn [length Nat.add].
  assert (H : forall m out fuel, (length out + m = n)%nat -> (m + 2 <= fuel)%nat ->
    vsprintf_loop sys_errlist fuel size (repeat 120 m ++ [PERCENT; 115]) [Arg_ptr None] out = Fault).
  { induction m as [|m IH]; intros out fuel Hm Hf; (destruct fuel as [|fuel]; [lia|]); cbn [repeat app vsprintf_loop];
      rewrite (proj2 (Nat.leb_gt _ _)) by lia.
    - cbn [Z.eqb Pos.eqb negb directive]. unfold cpymem. change (length null_text) with 6%nat. by rewrite (proj2 (Nat.ltb_lt _ _)) by lia.
    - cbn [Z.eqb Pos.eqb negb]. rewrite put_char_ok by lia. cbn [obind]. rewrite copy_to_end_all by (cbn; lia).
      apply IH; [rewrite length_app; cbn; lia|lia]. }
  apply H; [done|lia].
Qed.

(** ** Texts are bytes *)

Definition item_bytes (i : item) : Prop :=
  match i with
  | Lit c => byte c
  | Str s => Forall byte (default [] s)
  | Cstr s _ => Forall byte s
  | Mem mem _ => Forall byte mem
  | _ => True
  end.

Lemma numeral_byte base f fuel : (forall d, byte (f d)) -> forall n, Forall byte (numeral base f fuel n).
Proof.
  intros Hf. induction fuel as [|fuel IH]; intros n; [constructor|]. cbn [numeral]. apply Forall_app. split; [|by apply Forall_singleton].
  by destruct (n / base =? 0).
Qed.

Lemma hex_digits_byte h n : h = hexadecimal \/ h = HEXADECIMAL -> byte (nth n h 0).
Proof.
  intros Hh. assert (Hb : Forall byte h) by (destruct Hh as [-> | ->]; apply bytes_of_string_byte).
  destruct (nth_in_or_default n h 0) as [Hin| ->]; [|by vm_compute]. rewrite Forall_forall in Hb. by apply Hb, list_elem_of_In.
Qed.

Lemma flags_hex_table fs h : flags_hex fs = Some h -> h = hexadecimal \/ h = HEXADECIMAL.
Proof.
  induction fs as [|f fs IH]; [done|]. cbn. destruct (flags_hex fs) as [h'|]; [by intros [= ->]; apply IH|].
  destruct f; cbn; intros E; try done; injection E as <-; auto.
Qed.

Lemma decimal_text_byte n : 0 <= n < 2 ^ 64 -> Forall byte (decimal_text n).
Proof. intros Hn. destruct (decimal_text_ok n Hn) as (H & _). by destruct (all_digits _ H) as (_ & _ & ?). Qed.

Lemma conv_value_range c fs z : 0 <= z < (if conv_32 c then 2 ^ 32 else 2 ^ 64) -> 0 <= Z.abs (conv_value c fs z) < 2 ^ 64.
Proof.
  intros Hz. pose proof (s64_range z). pose proof (s32_range z). destruct c; cbn [conv_32 conv_value] in *;
    repeat case_match; lia.
Qed.

Lemma digits_of_byte c fs z : 0 <= z < (if conv_32 c then 2 ^ 32 else 2 ^ 64) ->
  Forall byte (digits_of (conv_hex c fs) (Z.abs (conv_value c fs z))).
Proof.
  intros Hz. unfold digits_of. destruct (conv_hex c fs) as [h|] eqn:E; [|by apply decimal_text_byte, conv_value_range].
  apply numeral_byte. intros d. apply hex_digits_byte. destruct c; cbn in E; try (by eapply flags_hex_table); injection E as <-; by right.
Qed.

Lemma item_text_byte i : item_ok i -> item_bytes i -> Forall byte (item_text i).
Proof.
  destruct i as [c|c|d|s|s rest|mem n|ds fs c z]; cbn [item_ok item_bytes item_text]; intros Hi Hb; try done.
  - by apply Forall_singleton.
  - rewrite !elem_of_cons in Hi. destruct Hi as [->|[->|[->|Hi]]]; [apply Forall_singleton; unfold byte; cbn; lia..|by apply elem_of_nil in Hi].
  - constructor; [|constructor]. change 0xFF with (Z.ones 8). rewrite Z.land_ones by lia. unfold byte. apply (Z.mod_pos_bound d 256). lia.
  - by apply Forall_take.
  - destruct Hi as [Hd Hz]. rewrite !Forall_app. split_and!.
    + destruct (_ <? 0); [|constructor]. apply Forall_singleton. unfold byte. lia.
    + apply Forall_forall. intros x Hx%list_elem_of_In%repeat_spec. subst x. case_bool_decide; unfold byte; lia.
    + by apply digits_of_byte.
Qed.

Lemma items_byte is_ : Forall item_ok is_ -> Forall item_bytes is_ -> Forall byte (text_of_items is_).
Proof.
  induction 1 as [|i is_ Hi His IH]; intros Hb; [constructor|]. apply Forall_cons in Hb as [Hb1 Hb].
  change (text_of_items (i :: is_)) with (item_text i ++ text_of_items is_). apply Forall_app. split; [by apply item_text_byte|by apply IH].
Qed.
