(* ===== verification/VarEscape.v ===== *)
(** * Escaping of values in templates: [src/nxt_var.c]

    The access log writes the value of a variable with its control characters,
    quotes, backslashes and bytes outside of ASCII as escapes.  The code tests
    eight bytes at a time with arithmetic on a 64-bit word; the file shows that
    the test is exact, that the length announced is the length written, and
    that what is written is harmless and can be read back. *)

From S2P Require Import Prelude Uri.

#[local] Open Scope Z_scope.

(** ** The code *)

Definition nxt_var_escaped (c : Z) : bool := (c <? 32) || (127 <=? c) || (c =? DQUOTE) || (c =? BACKSLASH).

Definition NXT_VAR_ONES : Z := 0x0101010101010101.
Definition NXT_VAR_HIGH : Z := 0x8080808080808080.

(** [nxt_memcpy(&w, p, 8)] *)
Fixpoint le_word (bs : list Z) : Z :=
  match bs with
  | [] => 0
  | b :: bs => b + 256 * le_word bs
  end.

Definition nxt_var_escape_word (bs : list Z) : bool :=
  let w := le_word bs in
  negb (Z.land
    (Z.lor (Z.lor (Z.lor (u64 (w + NXT_VAR_ONES))
                         (u64 (w - u64 (NXT_VAR_ONES * 32))))
                  (u64 (Z.lxor w (u64 (NXT_VAR_ONES * DQUOTE)) - NXT_VAR_ONES)))
           (u64 (Z.lxor w (u64 (NXT_VAR_ONES * BACKSLASH)) - NXT_VAR_ONES)))
    NXT_VAR_HIGH =? 0).

(** The inner loop of [nxt_var_escape_length()]. *)
Fixpoint escape_length_bytes (s : list Z) (size : Z) : Z :=
  match s with
  | [] => size
  | c :: s => escape_length_bytes s (if nxt_var_escaped c then u64 (size + 3) else size)
  end.

(** Its outer loop, on the bytes from [i] on; an iteration takes eight bytes or
    what is left. *)
Fixpoint escaped_length_loop (fuel : nat) (s : list Z) (size : Z) : outcome Z :=
  match s, fuel with
  | [], _ => Ret size
  | _, O => OutOfFuel
  | _, S fuel =>
      if (8 <=? length s)%nat then
        if negb (nxt_var_escape_word (take 8 s)) then escaped_length_loop fuel (drop 8 s) size
        else escaped_length_loop fuel (drop 8 s) (escape_length_bytes (take 8 s) size)
      else Ret (escape_length_bytes s size)
  end.

Definition nxt_var_escape_length (s : list Z) : outcome Z :=
  escaped_length_loop (length s) s (u64 (Z.of_nat (length s))).

(** The inner loop of [nxt_var_escape()], which appends to [dst]. *)
Fixpoint escape_bytes (s dst : list Z) : outcome (list Z) :=
  match s with
  | [] => Ret dst
  | c :: s =>
      if negb (nxt_var_escaped c) then escape_bytes s (dst ++ [c])
      else
        let* h := hex_char (Z.shiftr c 4) in
        let* l := hex_char (Z.land c 0xf) in
        escape_bytes s (dst ++ [BACKSLASH; 120; h; l])
  end.

(** Its outer loop. *)
Fixpoint escape_loop (fuel : nat) (s dst : list Z) : outcome (list Z) :=
  match s, fuel with
  | [], _ => Ret dst
  | _, O => OutOfFuel
  | _, S fuel =>
      if (8 <=? length s)%nat then
        if negb (nxt_var_escape_word (take 8 s)) then escape_loop fuel (drop 8 s) (dst ++ take 8 s)
        else
          let* dst := escape_bytes (take 8 s) dst in
          escape_loop fuel (drop 8 s) dst
      else escape_bytes s dst
  end.

Definition nxt_var_escape (dst s : list Z) : outcome (list Z) := escape_loop (length s) s dst.

(** ** The test of a word *)

(** The word of [n] bytes [c]. *)
Fixpoint spread (n : nat) (c : Z) : Z := match n with O => 0 | S n => c + 256 * spread n c end.

(** The test, for words of any size. *)
Definition word_test (bs : list Z) : Z :=
  let n := length bs in
  let m := 2 ^ (8 * Z.of_nat n) in
  let w := le_word bs in
  Z.land
    (Z.lor (Z.lor (Z.lor ((w + spread n 1) mod m)
                         ((w - spread n 32) mod m))
                  ((Z.lxor w (spread n DQUOTE) - spread n 1) mod m))
           ((Z.lxor w (spread n BACKSLASH) - spread n 1) mod m))
    (spread n 128).

Lemma word_test_ok bs : length bs = 8%nat -> nxt_var_escape_word bs = negb (word_test bs =? 0).
Proof. intros Hl. unfold word_test. rewrite Hl. reflexivity. Qed.

(** Bitwise operations go through a byte at a time. *)
Lemma bits_cat a x n : 0 <= a < 256 -> 0 <= n -> Z.testbit (a + 256 * x) n = if n <? 8 then Z.testbit a n else Z.testbit x (n - 8).
Proof.
  intros Ha Hn. replace (a + 256 * x) with (Z.lor (Z.shiftl x 8) a) by (rewrite lor_shiftl by lia; lia).
  rewrite Z.lor_spec, Z.shiftl_spec by done. destruct (Z.ltb_spec n 8).
  - by rewrite (Z.testbit_neg_r x) by lia.
  - rewrite (proj1 (Z.bounded_iff_bits_nonneg' 8 a ltac:(lia) (proj1 Ha)) ltac:(lia) n) by lia. by rewrite orb_false_r.
Qed.

Lemma byte_lor a b : 0 <= a < 256 -> 0 <= b < 256 -> 0 <= Z.lor a b < 256.
Proof.
  intros Ha Hb. split; [apply Z.lor_nonneg; lia|]. apply Z.lt_nge. intros H.
  pose proof (lor_pow2_le 8 a b ltac:(lia) ltac:(lia) ltac:(lia)) as E. change (2 ^ 8) with 256 in E.
  rewrite (proj2 (Z.leb_le 256 _)), (proj2 (Z.leb_gt 256 a)), (proj2 (Z.leb_gt 256 b)) in E by lia. done.
Qed.

Lemma land_byte a b : 0 <= a < 256 -> 0 <= b -> 0 <= Z.land a b < 256.
Proof.
  intros Ha Hb. split; [apply Z.land_nonneg; lia|].
  apply (Z.bounded_iff_bits_nonneg' 8 _ ltac:(lia)); [apply Z.land_nonneg; lia|].
  intros n Hn. rewrite Z.land_spec, (proj1 (Z.bounded_iff_bits_nonneg' 8 a ltac:(lia) (proj1 Ha)) ltac:(lia) n) by lia. done.
Qed.

Lemma byte_lxor a b : 0 <= a < 256 -> 0 <= b < 256 -> 0 <= Z.lxor a b < 256.
Proof.
  intros Ha Hb. assert (Hn : 0 <= Z.lxor a b) by (apply Z.lxor_nonneg; lia). split; [done|].
  apply (Z.bounded_iff_bits_nonneg' 8 _ ltac:(lia)); [done|]. intros n Hn8. rewrite Z.lxor_spec.
  rewrite (proj1 (Z.bounded_iff_bits_nonneg' 8 a ltac:(lia) (proj1 Ha)) ltac:(lia) n) by lia.
  by rewrite (proj1 (Z.bounded_iff_bits_nonneg' 8 b ltac:(lia) (proj1 Hb)) ltac:(lia) n) by lia.
Qed.

Lemma lor_cat a b x y : 0 <= a < 256 -> 0 <= b < 256 -> Z.lor (a + 256 * x) (b + 256 * y) = Z.lor a b + 256 * Z.lor x y.
Proof.
  intros Ha Hb. apply Z.bits_inj'. intros n Hn. rewrite Z.lor_spec, !bits_cat by (done || by apply byte_lor).
  destruct (n <? 8); by rewrite Z.lor_spec.
Qed.

Lemma land_cat a b x y : 0 <= a < 256 -> 0 <= b < 256 -> Z.land (a + 256 * x) (b + 256 * y) = Z.land a b + 256 * Z.land x y.
Proof.
  intros Ha Hb. apply Z.bits_inj'. intros n Hn. rewrite Z.land_spec, !bits_cat by (done || apply land_byte; lia).
  destruct (n <? 8); by rewrite Z.land_spec.
Qed.

Lemma lxor_cat a b x y : 0 <= a < 256 -> 0 <= b < 256 -> Z.lxor (a + 256 * x) (b + 256 * y) = Z.lxor a b + 256 * Z.lxor x y.
Proof.
  intros Ha Hb. apply Z.bits_inj'. intros n Hn. rewrite Z.lxor_spec, !bits_cat by (done || by apply byte_lxor).
  destruct (n <? 8); by rewrite Z.lxor_spec.
Qed.

(** Taking off the lowest byte, when the byte gives neither carry nor borrow. *)
Lemma mod_cat n a x : 0 <= a < 256 ->
  (a + 256 * x) mod 2 ^ (8 * Z.of_nat (S n)) = a + 256 * (x mod 2 ^ (8 * Z.of_nat n)).
Proof.
  intros Ha. replace (8 * Z.of_nat (S n)) with (8 + 8 * Z.of_nat n) by lia. rewrite Z.pow_add_r by lia.
  change (2 ^ 8) with 256. assert (0 < 2 ^ (8 * Z.of_nat n)) by (apply Z.pow_pos_nonneg; lia).
  rewrite Z.rem_mul_r by lia. rewrite (Z.mul_comm 256 x), Z.mod_add, Z.div_add, (Z.mod_small a), (Z.div_small a), Z.add_0_l by lia. lia.
Qed.

(** The low byte of a word that is taken modulo its size. *)
Lemma mod_low n a x : exists y, (a + 256 * x) mod 2 ^ (8 * Z.of_nat (S n)) = a mod 256 + 256 * y.
Proof.
  pose proof (Z.div_mod a 256 ltac:(lia)). replace (a + 256 * x) with (a mod 256 + 256 * (a / 256 + x)) by lia.
  eexists. apply mod_cat. apply Z.mod_pos_bound. lia.
Qed.

Lemma clean_bounds b : byte b -> nxt_var_escaped b = false ->
  0 <= b + 1 < 256 /\ 0 <= b - 32 < 256 /\ 0 <= Z.lxor b 34 - 1 < 256 /\ 0 <= Z.lxor b 92 - 1 < 256 /\
  Z.land (Z.lor (Z.lor (Z.lor (b + 1) (b - 32)) (Z.lxor b 34 - 1)) (Z.lxor b 92 - 1)) 128 = 0.
Proof.
  intros Hb He. revert He. refine (byte_decide (fun b => nxt_var_escaped b = false -> _) _ b Hb). vm_compute. reflexivity.
Qed.

Lemma word_test_clean b bs :
  byte b -> nxt_var_escaped b = false -> word_test (b :: bs) = 256 * word_test bs.
Proof.
  intros Hb He. destruct (clean_bounds b Hb He) as (H1 & H2 & H3 & H4 & H5). unfold byte in Hb.
  unfold word_test. cbn [length le_word spread]. rewrite !lxor_cat by lia.
  replace (b + 256 * le_word bs + (1 + 256 * spread (length bs) 1)) with (b + 1 + 256 * (le_word bs + spread (length bs) 1)) by lia.
  replace (b + 256 * le_word bs - (32 + 256 * spread (length bs) 32)) with (b - 32 + 256 * (le_word bs - spread (length bs) 32)) by lia.
  replace (Z.lxor b 34 + 256 * Z.lxor (le_word bs) (spread (length bs) 34) - (1 + 256 * spread (length bs) 1))
    with (Z.lxor b 34 - 1 + 256 * (Z.lxor (le_word bs) (spread (length bs) 34) - spread (length bs) 1)) by lia.
  replace (Z.lxor b 92 + 256 * Z.lxor (le_word bs) (spread (length bs) 92) - (1 + 256 * spread (length bs) 1))
    with (Z.lxor b 92 - 1 + 256 * (Z.lxor (le_word bs) (spread (length bs) 92) - spread (length bs) 1)) by lia.
  rewrite !mod_cat by lia. rewrite !lor_cat by (repeat apply byte_lor; lia).
  rewrite land_cat by (repeat apply byte_lor; lia). rewrite H5. lia.
Qed.

Lemma dirty_high b : byte b -> nxt_var_escaped b = true ->
  Z.land (Z.lor (Z.lor (Z.lor ((b + 1) mod 256) ((b - 32) mod 256)) ((Z.lxor b 34 - 1) mod 256)) ((Z.lxor b 92 - 1) mod 256)) 128 <> 0.
Proof.
  intros Hb He. revert He. refine (byte_decide (fun b => nxt_var_escaped b = true -> _) _ b Hb). vm_compute. reflexivity.
Qed.

Lemma word_test_dirty b bs : byte b -> nxt_var_escaped b = true -> word_test (b :: bs) <> 0.
Proof.
  intros Hb He. pose proof (dirty_high b Hb He) as Hh. unfold byte in Hb.
  unfold word_test. cbn [length le_word spread]. rewrite !lxor_cat by lia. set (n := length bs).
  replace (b + 256 * le_word bs + (1 + 256 * spread n 1)) with (b + 1 + 256 * (le_word bs + spread n 1)) by lia.
  replace (b + 256 * le_word bs - (32 + 256 * spread n 32)) with (b - 32 + 256 * (le_word bs - spread n 32)) by lia.
  replace (Z.lxor b 34 + 256 * Z.lxor (le_word bs) (spread n 34) - (1 + 256 * spread n 1))
    with (Z.lxor b 34 - 1 + 256 * (Z.lxor (le_word bs) (spread n 34) - spread n 1)) by lia.
  replace (Z.lxor b 92 + 256 * Z.lxor (le_word bs) (spread n 92) - (1 + 256 * spread n 1))
    with (Z.lxor b 92 - 1 + 256 * (Z.lxor (le_word bs) (spread n 92) - spread n 1)) by lia.
  destruct (mod_low n (b + 1) (le_word bs + spread n 1)) as [y1 ->].
  destruct (mod_low n (b - 32) (le_word bs - spread n 32)) as [y2 ->].
  destruct (mod_low n (Z.lxor b 34 - 1) (Z.lxor (le_word bs) (spread n 34) - spread n 1)) as [y3 ->].
  destruct (mod_low n (Z.lxor b 92 - 1) (Z.lxor (le_word bs) (spread n 92) - spread n 1)) as [y4 ->].
  assert (Hm : forall z, 0 <= z mod 256 < 256) by (intros z; apply Z.mod_pos_bound; lia).
  rewrite !lor_cat, land_cat by (lia || (repeat apply byte_lor; done)).
  intros H. apply Hh.
  assert (Hl := land_byte (Z.lor (Z.lor (Z.lor ((b + 1) mod 256) ((b - 32) mod 256)) ((Z.lxor b 34 - 1) mod 256)) ((Z.lxor b 92 - 1) mod 256)) 128
    ltac:(repeat apply byte_lor; done) ltac:(lia)). lia.
Qed.

(** The test finds a byte to escape exactly when there is one. *)
Lemma escape_word_ok bs :
  length bs = 8%nat -> Forall byte bs -> nxt_var_escape_word bs = existsb nxt_var_escaped bs.
Proof.
  intros Hl Hb. rewrite word_test_ok by done. clear Hl. induction Hb as [|b bs Hb _ IH]; [done|]. cbn [existsb].
  destruct (nxt_var_escaped b) eqn:E.
  - cbn. rewrite (proj2 (Z.eqb_neq _ _)); [done|by apply word_test_dirty].
  - rewrite word_test_clean, <- IH by done. cbn. f_equal. apply Bool.eq_iff_eq_true. rewrite !Z.eqb_eq. lia.
Qed.

(** ** What is written *)

Definition escape_of (c : Z) : list Z :=
  if nxt_var_escaped c then [BACKSLASH; 120; hex_digit (c / 16); hex_digit (c mod 16)] else [c].

Definition escape_text (s : list Z) : list Z := s ≫= escape_of.

Lemma escape_text_app a b : escape_text (a ++ b) = escape_text a ++ escape_text b.
Proof. apply bind_app. Qed.

Lemma escape_text_clean s : existsb nxt_var_escaped s = false -> escape_text s = s.
Proof.
  induction s as [|c s IH]; [done|]. cbn. intros [Hc Hs]%orb_false_iff. unfold escape_of at 1. rewrite Hc.
  cbn. f_equal. by apply IH.
Qed.

Lemma escape_text_length s : (length s <= length (escape_text s) <= 4 * length s)%nat.
Proof.
  induction s as [|c s IH]; [done|]. cbn. rewrite length_app. unfold escape_text in IH. unfold escape_of at 1 3.
  destruct (nxt_var_escaped c); cbn; lia.
Qed.

Lemma hex_chars_ok c : byte c ->
  hex_char (Z.shiftr c 4) = Ret (hex_digit (c / 16)) /\ hex_char (Z.land c 0xf) = Ret (hex_digit (c mod 16)).
Proof. revert c. apply (byte_decide (fun c => _ /\ _)). vm_compute. reflexivity. Qed.

Lemma escape_bytes_ok s : forall dst, Forall byte s -> escape_bytes s dst = Ret (dst ++ escape_text s).
Proof.
  induction s as [|c s IH]; intros dst Hs; [by rewrite app_nil_r|]. apply Forall_cons in Hs as [Hc Hs]. cbn [escape_bytes].
  destruct (hex_chars_ok c Hc) as [-> ->]. cbn [obind]. unfold escape_text. cbn [mbind list_bind]. unfold escape_of at 1.
  destruct (nxt_var_escaped c); cbn [negb]; rewrite IH by done; by rewrite <- app_assoc.
Qed.

Lemma escape_length_bytes_ok s : forall size,
  0 <= size -> size + 3 * Z.of_nat (length s) < 2 ^ 64 ->
  escape_length_bytes s size = size + Z.of_nat (length (escape_text s)) - Z.of_nat (length s).
Proof.
  induction s as [|c s IH]; intros size H0 Hs; cbn [length] in *; [cbn; lia|]. cbn [escape_length_bytes].
  unfold escape_text in *. cbn. rewrite length_app. unfold escape_of at 1. destruct (nxt_var_escaped c); cbn [length].
  - unfold u64. rewrite Z.mod_small, IH by lia. lia.
  - rewrite IH by lia. lia.
Qed.

Lemma escape_loop_ok fuel : forall s dst, (length s <= fuel)%nat -> Forall byte s ->
  escape_loop fuel s dst = Ret (dst ++ escape_text s).
Proof.
  induction fuel as [|fuel IH]; intros s dst Hf Hs; [destruct s; [|cbn in Hf; lia]; by rewrite app_nil_r|].
  destruct s as [|c s]; [by rewrite app_nil_r|]. cbn [escape_loop]. set (t := c :: s) in *.
  destruct (Nat.leb_spec 8 (length t)) as [Hl|Hl]; [|by apply escape_bytes_ok].
  assert (Hd : (length (drop 8 t) <= fuel)%nat) by (rewrite length_drop; lia).
  assert (Ht : Forall byte (take 8 t)) by by apply Forall_take.
  rewrite escape_word_ok by (rewrite ?length_take; lia || done).
  assert (Et : escape_text t = escape_text (take 8 t) ++ escape_text (drop 8 t)) by (by rewrite <- escape_text_app, take_drop).
  rewrite Et.
  destruct (existsb nxt_var_escaped (take 8 t)) eqn:E; cbn [negb].
  - rewrite escape_bytes_ok by done. cbn [obind]. rewrite IH by (done || by apply Forall_drop). by rewrite <- app_assoc.
  - rewrite IH by (done || by apply Forall_drop). by rewrite (escape_text_clean _ E), <- app_assoc.
Qed.

Lemma nxt_var_escape_ok dst s : Forall byte s -> nxt_var_escape dst s = Ret (dst ++ escape_text s).
Proof. intros Hs. by apply escape_loop_ok. Qed.

Lemma var_escape_length_ok fuel : forall s size, (length s <= fuel)%nat -> Forall byte s ->
  0 <= size -> size + 3 * Z.of_nat (length s) < 2 ^ 64 ->
  escaped_length_loop fuel s size = Ret (size + Z.of_nat (length (escape_text s)) - Z.of_nat (length s)).
Proof.
  induction fuel as [|fuel IH]; intros s size Hf Hs H0 Hb; [destruct s; [|cbn in Hf; lia]; cbn; f_equal; lia|].
  destruct s as [|c s]; [cbn; f_equal; lia|]. cbn [escaped_length_loop]. set (t := c :: s) in *.
  destruct (Nat.leb_spec 8 (length t)) as [Hl|Hl]; [|by rewrite escape_length_bytes_ok].
  assert (Hd : (length (drop 8 t) <= fuel)%nat) by (rewrite length_drop; lia).
  assert (Ht : Forall byte (take 8 t)) by by apply Forall_take.
  rewrite escape_word_ok by (rewrite ?length_take; lia || done).
  assert (El : length t = (8 + length (drop 8 t))%nat) by (rewrite length_drop; lia).
  assert (Ee : length (escape_text t) = (length (escape_text (take 8 t)) + length (escape_text (drop 8 t)))%nat).
  { by rewrite <- length_app, <- escape_text_app, take_drop. }
  pose proof (escape_text_length (take 8 t)) as Ht4. rewrite length_take in Ht4.
  destruct (existsb nxt_var_escaped (take 8 t)) eqn:E; cbn [negb].
  - rewrite escape_length_bytes_ok by (rewrite ?length_take; lia). rewrite length_take.
    rewrite IH by (done || (by apply Forall_drop) || lia). f_equal. lia.
  - rewrite (escape_text_clean _ E) in *. rewrite length_take in Ee.
    rewrite IH by (done || (by apply Forall_drop) || lia). f_equal. lia.
Qed.

Lemma nxt_var_escape_length_ok s : Forall byte s -> 4 * Z.of_nat (length s) < 2 ^ 64 ->
  nxt_var_escape_length s = Ret (Z.of_nat (length (escape_text s))).
Proof.
  intros Hs Hl. unfold nxt_var_escape_length, u64. rewrite Z.mod_small by lia.
  rewrite var_escape_length_ok by (done || lia). f_equal. lia.
Qed.

(** ** Reading it back *)

Fixpoint unescape_text (s : list Z) : option (list Z) :=
  match s with
  | [] => Some []
  | c :: s =>
      if c =? BACKSLASH then
        match s with
        | x :: h :: l :: s =>
            if x =? 120 then
              match hex_value h, hex_value l with
              | Some a, Some b => cons (a * 16 + b) <$> unescape_text s
              | _, _ => None
              end
            else None
        | _ => None
        end
      else cons c <$> unescape_text s
  end.

Lemma unescape_escape s : Forall byte s -> unescape_text (escape_text s) = Some s.
Proof.
  induction 1 as [|c s Hc _ IH]; [done|]. cbn. unfold escape_of at 1. destruct (nxt_var_escaped c) eqn:E.
  - cbn [app unescape_text]. cbn -[hex_value hex_digit]. destruct (percent_hex c Hc) as (-> & -> & _).
    unfold escape_text in IH. rewrite IH. cbn. f_equal. f_equal. pose proof (Z.div_mod c 16). lia.
  - cbn. unfold nxt_var_escaped in E. zbool. rewrite (proj2 (Z.eqb_neq _ _)) by done. unfold escape_text in IH. by rewrite IH.
Qed.

(** No control characters, no quotes, nothing outside of ASCII. *)
Definition harmless (c : Z) : Prop := 32 <= c < 127 /\ c <> DQUOTE.

Lemma escape_harmless s : Forall byte s -> Forall harmless (escape_text s).
Proof.
  induction 1 as [|c s Hc _ IH]; [done|]. cbn. apply Forall_app. split; [|done].
  revert c Hc. apply (byte_decide (fun c => Forall harmless (escape_of c))). vm_compute. reflexivity.
Qed.

(** C13. Escaping of values for the access log.  The test of eight bytes at a
    time is exact: it finds a byte to escape when there is one.  The text that
    [nxt_var_escape()] writes is that of escaping byte by byte, has the length
    that [nxt_var_escape_length()] has announced, consists of printable ASCII
    characters without quotes, so that a value cannot end its field or its line,
    and is read back as the value. *)
Theorem nxt_var_escape_correct (s dst : list Z) :
  Forall byte s -> 4 * Z.of_nat (length s) < 2 ^ 64 ->
  exists t, nxt_var_escape dst s = Ret (dst ++ t) /\ nxt_var_escape_length s = Ret (Z.of_nat (length t)) /\
    t = s ≫= escape_of /\ Forall harmless t /\ unescape_text t = Some s /\
    (length s = 8%nat -> nxt_var_escape_word s = existsb nxt_var_escaped s).
Proof.
  intros Hs Hl. exists (escape_text s). split_and!; [by apply nxt_var_escape_ok|by apply nxt_var_escape_length_ok|done| | |].
  - by apply escape_harmless.
  - by apply unescape_escape.
  - intros E. by apply escape_word_ok.
Qed.

Lemma nxt_var_escape_correct_witness :
  exists t, nxt_var_escape [DQUOTE] [47; DQUOTE; 10] = Ret (DQUOTE :: t) /\ unescape_text t = Some [47; DQUOTE; 10].
Proof.
  destruct (nxt_var_escape_correct [47; DQUOTE; 10] [DQUOTE]) as (t & H1 & _ & _ & _ & H2 & _).
  - apply Forall_cons_2; [vm_compute; split; [discriminate|reflexivity]|]. apply Forall_cons_2; [vm_compute; split; [discriminate|reflexivity]|].
    apply Forall_cons_2; [vm_compute; split; [discriminate|reflexivity]|constructor].
  - reflexivity.
  - exists t. split; [exact H1|exact H2].
Defined.
