(* ===== verification/Murmur.v ===== *)
(** * The hash of the variable cache: [src/nxt_murmur_hash.c]

    [nxt_murmur_hash2()] on any bytes and its specialization to the four bytes
    of a number.  The cache of variables takes two variables with the same hash
    for the same variable; that is right because the specialization maps
    different numbers to different hashes. *)

From S2P Require Import Prelude.

#[local] Open Scope Z_scope.

Definition MURMUR_M : Z := 0x5BD1E995.

(** [k = p[0]; k |= p[1] << 8; k |= p[2] << 16; k |= p[3] << 24;] *)
Definition load_le32 (p0 p1 p2 p3 : Z) : Z :=
  Z.lor (Z.lor (Z.lor p0 (Z.shiftl p1 8)) (Z.shiftl p2 16)) (u32 (Z.shiftl p3 24)).

Definition murmur_mix (k : Z) : Z :=
  let k := u32 (k * MURMUR_M) in
  let k := Z.lxor k (Z.shiftr k 24) in
  u32 (k * MURMUR_M).

Definition murmur_end (h : Z) : Z :=
  let h := Z.lxor h (Z.shiftr h 13) in
  let h := u32 (h * MURMUR_M) in
  Z.lxor h (Z.shiftr h 15).

(** The loop over words of four bytes, and the [switch] on what is left. *)
Fixpoint murmur_loop (p : list Z) (h : Z) : Z :=
  match p with
  | p0 :: p1 :: p2 :: p3 :: p =>
      let k := murmur_mix (load_le32 p0 p1 p2 p3) in
      let h := u32 (h * MURMUR_M) in
      murmur_loop p (Z.lxor h k)
  | [p0; p1; p2] =>
      let h := Z.lxor h (Z.shiftl p2 16) in
      let h := Z.lxor h (Z.shiftl p1 8) in
      let h := Z.lxor h p0 in
      u32 (h * MURMUR_M)
  | [p0; p1] =>
      let h := Z.lxor h (Z.shiftl p1 8) in
      let h := Z.lxor h p0 in
      u32 (h * MURMUR_M)
  | [p0] =>
      let h := Z.lxor h p0 in
      u32 (h * MURMUR_M)
  | [] => h
  end.

Definition nxt_murmur_hash2 (data : list Z) : Z :=
  murmur_end (murmur_loop data (Z.lxor 0 (u32 (Z.of_nat (length data))))).

(** For four bytes. *)
Definition nxt_murmur_hash2_uint32 (p0 p1 p2 p3 : Z) : Z :=
  let k := murmur_mix (load_le32 p0 p1 p2 p3) in
  let h := Z.lxor 0 4 in
  let h := u32 (h * MURMUR_M) in
  let h := Z.lxor h k in
  murmur_end h.

(** The hash of a [uint32_t] in memory. *)
Definition hash_of_uint32 (z : Z) : Z :=
  nxt_murmur_hash2_uint32 (z mod 256) (z / 256 mod 256) (z / 65536 mod 256) (z / 16777216 mod 256).

(** ** Different numbers, different hashes *)

Lemma murmur_uint32_is_murmur p0 p1 p2 p3 : nxt_murmur_hash2_uint32 p0 p1 p2 p3 = nxt_murmur_hash2 [p0; p1; p2; p3].
Proof. reflexivity. Qed.

Definition word (z : Z) : Prop := 0 <= z < 2 ^ 32.

Lemma u32_word z : word (u32 z).
Proof. apply Z.mod_pos_bound. lia. Qed.

(** [MURMUR_M] is odd and has an inverse modulo [2 ^ 32]. *)
Lemma mul_inverse z : word z -> u32 (u32 (z * MURMUR_M) * 0xE59B19BD) = z.
Proof.
  unfold word, u32. intros Hz. rewrite Z.mul_mod_idemp_l by lia. rewrite <- Z.mul_assoc.
  change (MURMUR_M * 0xE59B19BD) with (1 + 1381656390 * 2 ^ 32). rewrite Z.mul_add_distr_l, Z.mul_1_r, Z.mul_assoc, Z.mod_add by lia.
  by apply Z.mod_small.
Qed.

Lemma mul_inj a b : word a -> word b -> u32 (a * MURMUR_M) = u32 (b * MURMUR_M) -> a = b.
Proof. intros Ha Hb H. by rewrite <- (mul_inverse a Ha), H, mul_inverse. Qed.

Lemma lxor_word a b : word a -> word b -> word (Z.lxor a b).
Proof.
  unfold word. intros Ha Hb. assert (Hn : 0 <= Z.lxor a b) by (apply Z.lxor_nonneg; lia). split; [done|].
  apply (Z.bounded_iff_bits_nonneg' 32 _ ltac:(lia)); [done|]. intros n Hn32. rewrite Z.lxor_spec.
  rewrite (proj1 (Z.bounded_iff_bits_nonneg' 32 a ltac:(lia) (proj1 Ha)) ltac:(lia) n) by lia.
  by rewrite (proj1 (Z.bounded_iff_bits_nonneg' 32 b ltac:(lia) (proj1 Hb)) ltac:(lia) n) by lia.
Qed.

Lemma shiftr_word a n : 0 <= n -> word a -> word (Z.shiftr a n).
Proof.
  unfold word. intros Hn Ha. rewrite Z.shiftr_div_pow2 by done. assert (0 < 2 ^ n) by (apply Z.pow_pos_nonneg; lia).
  split; [apply Z.div_pos; lia|]. apply Z.div_lt_upper_bound; [done|]. nia.
Qed.

(** [x ^ (x >> n)] *)
Lemma xorshift_inj n a b : 0 < n -> word a -> word b ->
  Z.lxor a (Z.shiftr a n) = Z.lxor b (Z.shiftr b n) -> a = b.
Proof.
  intros Hn Ha Hb H. apply Z.lxor_eq. set (d := Z.lxor a b).
  assert (Hd : d = Z.shiftr d n).
  { unfold d. rewrite Z.shiftr_lxor. apply Z.bits_inj'. intros k _. apply (f_equal (fun z => Z.testbit z k)) in H.
    rewrite !Z.lxor_spec in *. by destruct (Z.testbit a k), (Z.testbit b k), (Z.testbit (Z.shiftr a n) k), (Z.testbit (Z.shiftr b n) k). }
  assert (0 <= d) by (apply Z.lxor_nonneg; unfold word in *; lia).
  rewrite Z.shiftr_div_pow2 in Hd by lia. assert (2 <= 2 ^ n) by (change 2 with (2 ^ 1) at 1; apply Z.pow_le_mono_r; lia).
  destruct (Z.eq_dec d 0) as [|Hne]; [done|]. assert (d / 2 ^ n < d) by (apply Z.div_lt; lia). lia.
Qed.

Lemma xorshift_word n a : 0 <= n -> word a -> word (Z.lxor a (Z.shiftr a n)).
Proof. intros Hn Ha. by apply lxor_word; [|apply shiftr_word]. Qed.

Lemma murmur_mix_inj a b : word a -> word b -> murmur_mix a = murmur_mix b -> a = b.
Proof.
  intros Ha Hb H. unfold murmur_mix in H.
  apply mul_inj in H; [|apply xorshift_word; [lia|apply u32_word]..].
  apply xorshift_inj in H; [|lia|apply u32_word..]. by apply mul_inj in H.
Qed.

Lemma murmur_end_inj a b : word a -> word b -> murmur_end a = murmur_end b -> a = b.
Proof.
  intros Ha Hb H. unfold murmur_end in H.
  apply xorshift_inj in H; [|lia|apply u32_word..].
  apply mul_inj in H; [|apply xorshift_word; [lia|done]..]. by apply xorshift_inj in H; [|lia|..].
Qed.

Lemma load_le32_ok z : word z -> load_le32 (z mod 256) (z / 256 mod 256) (z / 65536 mod 256) (z / 16777216 mod 256) = z.
Proof.
  unfold word, load_le32, u32. intros Hz.
  assert (H0 : 0 <= z mod 256 < 2 ^ 8) by (apply Z.mod_pos_bound; lia).
  assert (H1 : 0 <= z / 256 mod 256 < 2 ^ 8) by (apply Z.mod_pos_bound; lia).
  assert (H2 : 0 <= z / 65536 mod 256 < 2 ^ 8) by (apply Z.mod_pos_bound; lia).
  assert (H3 : 0 <= z / 16777216 mod 256 < 2 ^ 8) by (apply Z.mod_pos_bound; lia).
  rewrite (Z.mod_small (Z.shiftl _ 24)) by (rewrite Z.shiftl_mul_pow2 by lia; lia).
  rewrite (Z.lor_comm (z mod 256)), lor_shiftl by lia.
  rewrite (Z.lor_comm _ (Z.shiftl _ 16)), lor_shiftl by lia. rewrite (Z.lor_comm _ (Z.shiftl _ 24)), lor_shiftl by lia.
  clear - Hz. dlia.
Qed.

(** The cache tells variables apart by their hashes. *)
Lemma hash_of_uint32_inj a b : word a -> word b -> hash_of_uint32 a = hash_of_uint32 b -> a = b.
Proof.
  intros Ha Hb. unfold hash_of_uint32, nxt_murmur_hash2_uint32. rewrite !load_le32_ok by done. intros H.
  apply murmur_end_inj in H; [|apply lxor_word; apply u32_word..].
  apply (f_equal (Z.lxor (u32 (Z.lxor 0 4 * MURMUR_M)))) in H. rewrite <- !Z.lxor_assoc, Z.lxor_nilpotent, !Z.lxor_0_l in H.
  by apply murmur_mix_inj.
Qed.
