(* ===== verification/Lvlhsh.v ===== *)
(** * The level hash (nxt_lvlhsh.c)

    A tree of levels, arrays of slots indexed by successive bits of the key
    hash, with chains of buckets at its leaves.  The model keeps the memory
    layout that the operations depend on: the cells of a bucket written so
    far, the holes that deletions leave, the counts in the low bits of the
    pointers, the order of the buckets of a chain.  The theorems show that
    the operations implement a finite map from keys to values. *)

From stdpp Require Import gmap.
From S2P Require Import Prelude.
#[local] Open Scope Z_scope.

(** ** The code *)

Abbreviation NXT_OK := 0 (only parsing).
Abbreviation NXT_ERROR := (-1) (only parsing).
Abbreviation NXT_DECLINED := (-3) (only parsing).

(** [nxt_lvlhsh_proto_t]: the number of entries of a bucket and the bits of
    each level, ended by 0. *)
Record proto := Proto { bucket_end : nat; shift : list Z }.

(** [NXT_LVLHSH_BUCKET_END(size) / NXT_LVLHSH_ENTRY_SIZE] *)
Definition bucket_entries (bucket_size : nat) : nat := ((bucket_size - 8) / (3 * 4))%nat.

Definition NXT_LVLHSH_DEFAULT : proto := Proto (bucket_entries 128) [4; 4; 4; 4; 4; 4; 4; 0].
Definition NXT_LVLHSH_LARGE_SLAB : proto := Proto (bucket_entries 128) [10; 4; 4; 4; 4; 4; 4; 0].

(** A bucket: its cells that were written, a value ([None] is the null pointer
    of a hole) with its key hash each, and the count in its pointer. *)
Record bucket (V : Type) := Bucket { cells : list (option V * Z); entries : nat }.
Arguments Bucket {V} cells entries.
Arguments cells {V} _.
Arguments entries {V} _.

(** A slot: a null pointer, a chain of buckets or a level with the count of
    its used slots. *)
Inductive slot (V : Type) :=
| Null
| Buckets (chain : list (bucket V))
| Level (lvl : list (slot V)) (count : Z).
Arguments Null {V}.
Arguments Buckets {V} chain.
Arguments Level {V} lvl count.

(** [key & mask] *)
Definition level_index (shift key : Z) : nat := Z.to_nat (Z.land key (Z.shiftl 1 shift - 1)).

Section Operations.
  Context {V : Type} (alloc : nat -> bool) (p : proto).

(** The loop over the entries of a bucket of [nxt_lvlhsh_bucket_find] and
    [nxt_lvlhsh_bucket_delete]: [n] valid entries are left. *)
Fixpoint cells_lookup (kh : Z) (test : V -> bool) (cs : list (option V * Z)) (n j : nat) :
    outcome (option (nat * V)) :=
  match cs with
  | [] => Fault
  | (Some x, k) :: cs' =>
    if (k =? kh) && test x then Ret (Some (j, x))
    else
      match n with
      | O => Fault
      | S O => Ret None
      | S n' => cells_lookup kh test cs' n' (S j)
      end
  | (None, _) :: cs' =>
    match n with O => Ret None | S _ => cells_lookup kh test cs' n (S j) end
  end.

Fixpoint bucket_find (kh : Z) (test : V -> bool) (chain : list (bucket V)) : outcome (option V) :=
  match chain with
  | [] => Fault
  | b :: chain' =>
    let* r := cells_lookup kh test (cells b) (entries b) 0 in
    match r with
    | Some (_, x) => Ret (Some x)
    | None => match chain' with [] => Ret None | _ => bucket_find kh test chain' end
    end
  end.

(** [shifts] is [proto->shift] from [nlvl] on. *)
Fixpoint level_find (kh : Z) (test : V -> bool) (shifts : list Z) (key : Z) (s : slot V) :
    outcome (option V) :=
  match s, shifts with
  | Level lvl _, sh :: rest =>
    let* child := of_option (lvl !! level_index sh key) in
    match child with
    | Null => Ret None
    | Buckets chain => bucket_find kh test chain
    | Level _ _ => level_find kh test rest (Z.shiftr key sh) child
    end
  | _, _ => Fault
  end.

Definition nxt_lvlhsh_find (kh : Z) (test : V -> bool) (s : slot V) : outcome (option V) :=
  match s with
  | Null => Ret None
  | Buckets chain => bucket_find kh test chain
  | Level _ _ => level_find kh test (shift p) kh s
  end.

(** *** Insertion *)

(** The result of the search for a duplicate: its place, or the first vacant
    place. *)
Inductive search :=
| Found (i j : nat) (x : V)
| Vacant (i j : nat)
| Full.

(** The vacant place of the incomplete end of a bucket. *)
Definition vacant_end (vac : option nat) (j : nat) : option nat :=
  match vac with
  | Some _ => vac
  | None => if (j <? bucket_end p)%nat then Some j else None
  end.

Fixpoint cells_search (kh : Z) (test : V -> bool) (cs : list (option V * Z)) (n j : nat)
    (vac : option nat) : outcome ((nat * V) + option nat) :=
  match cs with
  | [] => Fault
  | (Some x, k) :: cs' =>
    if (k =? kh) && test x then Ret (inl (j, x))
    else
      match n with
      | O => Fault
      | S O => Ret (inr (vacant_end vac (S j)))
      | S n' => cells_search kh test cs' n' (S j) vac
      end
  | (None, _) :: cs' =>
    let vac := match vac with Some _ => vac | None => Some j end in
    match n with
    | O => Ret (inr (vacant_end vac (S j)))
    | S _ => cells_search kh test cs' n (S j) vac
    end
  end.

Fixpoint chain_search (kh : Z) (test : V -> bool) (chain : list (bucket V)) (i : nat)
    (vac : search) : outcome search :=
  match chain with
  | [] => Fault
  | b :: chain' =>
    let* r := cells_search kh test (cells b) (entries b) 0 None in
    match r with
    | inl (j, x) => Ret (Found i j x)
    | inr v =>
      let vac := match vac, v with Full, Some j => Vacant i j | _, _ => vac end in
      match chain' with [] => Ret vac | _ => chain_search kh test chain' (S i) vac end
    end
  end.

(** [nxt_lvlhsh_set_entry_value], [nxt_lvlhsh_set_entry_key] *)
Definition set_cell (cs : list (option V * Z)) (j : nat) (x : V) (k : Z) : list (option V * Z) :=
  if (j <? length cs)%nat then <[j := (Some x, k)]> cs else cs ++ [(Some x, k)].

(** The entry stored at a vacant place and counted. *)
Definition add_entry (b : bucket V) (j : nat) (x : V) (k : Z) : bucket V :=
  Bucket (set_cell (cells b) j x k) (S (entries b)).

Definition replace_entry (b : bucket V) (j : nat) (x : V) : bucket V :=
  Bucket (match cells b !! j with
          | Some (_, k) => <[j := (Some x, k)]> (cells b)
          | None => cells b
          end) (entries b).

Definition fresh_bucket (x : V) (kh : Z) : bucket V := Bucket [(Some x, kh)] 1.

(** [nxt_lvlhsh_new_bucket] *)
Definition new_bucket (x : V) (kh : Z) : Alloc (option (bucket V)) :=
  let! ok := request alloc in
  aret (if ok then Some (fresh_bucket x kh) else None).

(** *** Conversion of a full bucket to a level

    [nxt_lvlhsh_bucket_convertion_insert].  The test function cannot be called
    here, so a second conversion, which inserts with it, has no defined
    result; the theorems show that it is not reached. *)
Fixpoint bucket_convertion_insert (rest : list Z) (x : V) (kh : Z) (chain : list (bucket V)) :
    Alloc (option (list (bucket V))) :=
  match chain with
  | [] => alift Fault
  | b :: chain' =>
    if (entries b <? bucket_end p)%nat
    then aret (Some (add_entry b (entries b) x kh :: chain'))
    else
      match chain' with
      | [] =>
        match rest with
        | 0 :: _ =>
          let! nb := new_bucket x kh in
          aret (match nb with Some nb => Some (b :: [nb]) | None => None end)
        | _ => alift Fault
        end
      | _ =>
        let! r := bucket_convertion_insert rest x kh chain' in
        aret (match r with Some c => Some (b :: c) | None => None end)
      end
  end.

Definition level_convertion_insert (sh : Z) (rest : list Z) (x : V) (kh key : Z)
    (lvl : list (slot V)) (count : Z) : Alloc (option (list (slot V) * Z)) :=
  let i := level_index sh key in
  let! child := alift (of_option (lvl !! i)) in
  match child with
  | Null =>
    let! nb := new_bucket x kh in
    aret (match nb with
          | Some nb => Some (<[i := Buckets [nb]]> lvl, count + 1)
          | None => None
          end)
  | Buckets chain =>
    let! r := bucket_convertion_insert rest x kh chain in
    aret (match r with Some c => Some (<[i := Buckets c]> lvl, count) | None => None end)
  | Level _ _ => alift Fault
  end.

(** The loop over the entries of the bucket; [None] frees the new level. *)
Fixpoint convert_loop (sh : Z) (rest : list Z) (total : Z) (cs : list (option V * Z))
    (lvl : list (slot V)) (count : Z) : Alloc (option (list (slot V) * Z)) :=
  match cs with
  | [] => aret (Some (lvl, count))
  | (Some x, k) :: cs' =>
    let! r := level_convertion_insert sh rest x k (Z.shiftr k total) lvl count in
    match r with
    | Some (lvl, count) => convert_loop sh rest total cs' lvl count
    | None => aret None
    end
  | (None, _) :: _ => alift Fault
  end.

Definition convert_bucket_to_level (nlvl : nat) (sh : Z) (rest : list Z) (b : bucket V) :
    Alloc (option (slot V)) :=
  let! ok := request alloc in
  if ok then
    let total := foldr Z.add 0 (take nlvl (shift p)) in
    let! r := convert_loop sh rest total (cells b) (replicate (Z.to_nat (Z.shiftl 1 sh)) Null) 0 in
    aret (match r with Some (lvl, count) => Some (Level lvl count) | None => None end)
  else aret None.

(** The arguments of a query: the value to insert, its key hash, the test of
    the key and the flag [replace]. *)
Record query := Query {
  q_value : V;
  key_hash : Z;
  test : V -> bool;
  replace : bool
}.

(** The return code, the value [lhq->value] is set to, and the slot. *)
Definition result : Type := Z * option V * slot V.

(** [nxt_lvlhsh_bucket_insert] in a slot under level [nlvl - 1]: [rest] is
    [proto->shift] from [nlvl] on, and [level_insert] goes on there. *)
Definition bucket_insert (q : query) (level_insert : slot V -> Alloc result) (nlvl : nat)
    (rest : list Z) (chain : list (bucket V)) : Alloc result :=
  let! r := alift (chain_search (key_hash q) (test q) chain 0 Full) in
  match r with
  | Found i j old =>
    if replace q
    then aret (NXT_OK, Some old, Buckets (alter (fun b => replace_entry b j (q_value q)) i chain))
    else aret (NXT_DECLINED, Some old, Buckets chain)
  | Vacant i j =>
    aret (NXT_OK, None, Buckets (alter (fun b => add_entry b j (q_value q) (key_hash q)) i chain))
  | Full =>
    match rest, last chain with
    | sh :: rest', Some b =>
      if sh =? 0 then
        let! nb := new_bucket (q_value q) (key_hash q) in
        aret (match nb with
              | Some nb => (NXT_OK, None, Buckets (chain ++ [nb]))
              | None => (NXT_ERROR, None, Buckets chain)
              end)
      else
        let! lvl := convert_bucket_to_level nlvl sh rest' b in
        match lvl with
        | Some s => level_insert s
        | None => aret (NXT_ERROR, None, Buckets chain)
        end
    | _, _ => alift Fault
    end
  end.

Fixpoint level_insert (q : query) (nlvl : nat) (shifts : list Z) (key : Z) (s : slot V) :
    Alloc result :=
  match s, shifts with
  | Level lvl count, sh :: rest =>
    let i := level_index sh key in
    let! child := alift (of_option (lvl !! i)) in
    match child with
    | Null =>
      let! nb := new_bucket (q_value q) (key_hash q) in
      aret (match nb with
            | Some nb => (NXT_OK, None, Level (<[i := Buckets [nb]]> lvl) (count + 1))
            | None => (NXT_ERROR, None, s)
            end)
    | Buckets chain =>
      let key := Z.shiftr key sh in
      let! (rc, v, child) := bucket_insert q (level_insert q (S nlvl) rest key) (S nlvl) rest chain in
      aret (rc, v, Level (<[i := child]> lvl) count)
    | Level _ _ =>
      let! (rc, v, child) := level_insert q (S nlvl) rest (Z.shiftr key sh) child in
      aret (rc, v, Level (<[i := child]> lvl) count)
    end
  | _, _ => alift Fault
  end.

Definition nxt_lvlhsh_insert (q : query) (s : slot V) : Alloc result :=
  match s with
  | Null =>
    let! nb := new_bucket (q_value q) (key_hash q) in
    aret (match nb with
          | Some nb => (NXT_OK, None, Buckets [nb])
          | None => (NXT_ERROR, None, Null)
          end)
  | Buckets chain =>
    bucket_insert q (level_insert q 0 (shift p) (key_hash q)) 0 (shift p) chain
  | Level _ _ => level_insert q 0 (shift p) (key_hash q) s
  end.

(** *** Deletion *)

(** [nxt_lvlhsh_bucket_delete]: the value found and the chain. *)
Fixpoint bucket_delete (kh : Z) (test : V -> bool) (chain : list (bucket V)) :
    outcome (option V * list (bucket V)) :=
  match chain with
  | [] => Fault
  | b :: chain' =>
    let* r := cells_lookup kh test (cells b) (entries b) 0 in
    match r with
    | Some (j, x) =>
      if (entries b =? 1)%nat then Ret (Some x, chain')
      else Ret (Some x, Bucket (alter (fun c => (None, c.2)) j (cells b)) (entries b - 1) :: chain')
    | None =>
      match chain' with
      | [] => Ret (None, chain)
      | _ => let* (r, c) := bucket_delete kh test chain' in Ret (r, b :: c)
      end
    end
  end.

(** The slot of a chain, whose pointer may have become null. *)
Definition chain_slot (chain : list (bucket V)) : slot V :=
  match chain with [] => Null | _ => Buckets chain end.

Definition is_null (s : slot V) : bool := match s with Null => true | _ => false end.

(** The level after a deletion in slot [i], freed when it was the last one:
    [nxt_lvlhsh_level_entries] keeps the bits of the mask. *)
Definition level_release (sh : Z) (lvl : list (slot V)) (count : Z) (i : nat) (child : slot V) :
    slot V :=
  let lvl := <[i := child]> lvl in
  if is_null child then
    let count := count - 1 in
    if Z.land count (Z.shiftl 1 sh - 1) =? 0 then Null else Level lvl count
  else Level lvl count.

Fixpoint level_delete (kh : Z) (test : V -> bool) (shifts : list Z) (key : Z) (s : slot V) :
    outcome (option V * slot V) :=
  match s, shifts with
  | Level lvl count, sh :: rest =>
    let i := level_index sh key in
    let* child := of_option (lvl !! i) in
    match child with
    | Null => Ret (None, s)
    | Buckets chain =>
      let* (r, c) := bucket_delete kh test chain in
      Ret (r, level_release sh lvl count i (chain_slot c))
    | Level _ _ =>
      let* (r, c) := level_delete kh test rest (Z.shiftr key sh) child in
      Ret (r, level_release sh lvl count i c)
    end
  | _, _ => Fault
  end.

(** The value found ([None] is [NXT_DECLINED]) and the slot. *)
Definition nxt_lvlhsh_delete (kh : Z) (test : V -> bool) (s : slot V) :
    outcome (option V * slot V) :=
  match s with
  | Null => Ret (None, Null)
  | Buckets chain =>
    let* (r, c) := bucket_delete kh test chain in Ret (r, chain_slot c)
  | Level _ _ => level_delete kh test (shift p) kh s
  end.

(** *** Retrieval *)

(** [nxt_lvlhsh_bucket_peek] from the entry [j] on. *)
Fixpoint first_valid (cs : list (option V * Z)) (j : nat) : outcome (nat * V) :=
  match cs with
  | [] => Fault
  | (Some x, _) :: _ => Ret (j, x)
  | (None, _) :: cs' => first_valid cs' (S j)
  end.

(** The value and the chain, from which it is removed when [retrieve] holds. *)
Definition bucket_peek (retrieve : bool) (chain : list (bucket V)) :
    outcome (V * list (bucket V)) :=
  match chain with
  | [] => Fault
  | b :: chain' =>
    let* (j, x) := first_valid (cells b) 0 in
    if retrieve then
      if (entries b =? 1)%nat then Ret (x, chain')
      else Ret (x, Bucket (alter (fun c => (None, c.2)) j (cells b)) (entries b - 1) :: chain')
    else Ret (x, chain)
  end.

(** The first used slot of a level. *)
Fixpoint first_slot (lvl : list (slot V)) (n : nat) : outcome (nat * slot V) :=
  match lvl with
  | [] => Fault
  | Null :: lvl' => first_slot lvl' (S n)
  | s :: _ => Ret (n, s)
  end.

Fixpoint level_peek (retrieve : bool) (shifts : list Z) (s : slot V) : outcome (V * slot V) :=
  match s, shifts with
  | Level lvl count, sh :: rest =>
    let* (n, child) := first_slot lvl 0 in
    let* (x, c) :=
      (match child with
       | Buckets chain =>
         let* (x, c) := bucket_peek retrieve chain in Ret (x, chain_slot c)
       | _ => level_peek retrieve rest child
       end) in
    Ret (x, level_release sh lvl count n c)
  | _, _ => Fault
  end.

(** [nxt_lvlhsh_peek] and [nxt_lvlhsh_retrieve] *)
Definition nxt_lvlhsh_peek (retrieve : bool) (s : slot V) : outcome (option V * slot V) :=
  match s with
  | Null => Ret (None, Null)
  | Buckets chain =>
    let* (x, c) := bucket_peek retrieve chain in Ret (Some x, chain_slot c)
  | Level _ _ =>
    let* (x, s) := level_peek retrieve (shift p) s in Ret (Some x, s)
  end.

(** *** Iteration *)

(** The member [bucket] of the iterator: null, [NXT_LVLHSH_BUCKET_DONE] or a
    bucket with the rest of its chain. *)
Inductive each_bucket :=
| NoBucket
| BucketDone
| BucketAt (b : bucket V) (next : list (bucket V)).

Record each := Each {
  e_bucket : each_bucket;
  e_current : Z;
  e_entry : nat;
  e_entries : nat
}.

Definition nxt_lvlhsh_each_init : each := Each NoBucket 0 0 0.

(** [nxt_lvlhsh_bucket_each] *)
Definition bucket_each (e : each) : outcome (V * each) :=
  match e_bucket e with
  | BucketAt b next =>
    let* (j, x) := first_valid (drop (e_entry e) (cells b)) (e_entry e) in
    match e_entries e with
    | O => Fault
    | S O =>
      match next with
      | [] => Ret (x, Each BucketDone (e_current e) 0 0)
      | b' :: next' => Ret (x, Each (BucketAt b' next') (e_current e) 0 (entries b'))
      end
    | S n => Ret (x, Each (e_bucket e) (e_current e) (S j) n)
    end
  | _ => Fault
  end.

(** The next path from the root after slot [n] of a level: [current] is a
    [uint32_t], [n] is a machine word. *)
Definition next_current (current before mask n : Z) : Z * Z :=
  let n := Z.shiftl (Z.land (n + 1) mask) before in
  (Z.lor (Z.land current (Z.lnot (Z.shiftl mask before))) n mod 2 ^ 32, n).

(** A slot in the loop of [nxt_lvlhsh_level_each], [rec] for the levels below. *)
Definition slot_each (rec : slot V -> each -> outcome (option V * each)) (child : slot V) (e : each) :
    outcome (option V * each) :=
  match child with
  | Null => Ret (None, e)
  | Buckets chain =>
    match e_bucket e with
    | BucketDone => Ret (None, Each NoBucket (e_current e) (e_entry e) (e_entries e))
    | _ =>
      match chain with
      | [] => Fault
      | b :: next =>
        let* (x, e) := bucket_each (Each (BucketAt b next) (e_current e) 0 (entries b)) in
        Ret (Some x, e)
      end
    end
  | Level _ _ => rec child e
  end.

Fixpoint level_loop (rec : slot V -> each -> outcome (option V * each)) (lvl : list (slot V))
    (before sh : Z) (fuel : nat) (e : each) : outcome (option V * each) :=
  match fuel with
  | O => OutOfFuel
  | S fuel' =>
    let mask := Z.shiftl 1 sh - 1 in
    let n := Z.land (Z.shiftr (e_current e) before) mask in
    let* child := of_option (lvl !! Z.to_nat n) in
    let* (r, e) := slot_each rec child e in
    match r with
    | Some x => Ret (Some x, e)
    | None =>
      let (current, n) := next_current (e_current e) before mask n in
      let e := Each (e_bucket e) current (e_entry e) (e_entries e) in
      if n =? 0 then Ret (None, e) else level_loop rec lvl before sh fuel' e
    end
  end.

(** The loop takes one iteration per slot at most. *)
Fixpoint level_each (shifts : list Z) (before : Z) (s : slot V) (e : each) :
    outcome (option V * each) :=
  match s, shifts with
  | Level lvl _, sh :: rest =>
    level_loop (level_each rest (before + sh)) lvl before sh (length lvl) e
  | _, _ => Fault
  end.

Definition nxt_lvlhsh_each (s : slot V) (e : each) : outcome (option V * each) :=
  match e_bucket e with
  | BucketDone =>
    match s with
    | Buckets _ => Ret (None, e)
    | _ => level_each (shift p) 0 s e
    end
  | NoBucket =>
    match s with
    | Null => Ret (None, e)
    | Level _ _ => level_each (shift p) 0 s (Each NoBucket 0 (e_entry e) (e_entries e))
    | Buckets [] => Fault
    | Buckets (b :: next) =>
      let* (x, e) := bucket_each (Each (BucketAt b next) (e_current e) 0 (entries b)) in
      Ret (Some x, e)
    end
  | BucketAt _ _ => let* (x, e) := bucket_each e in Ret (Some x, e)
  end.

(** The loop of the callers: the elements up to the first [NULL]. *)
Fixpoint each_loop (fuel : nat) (s : slot V) (e : each) : outcome (list V) :=
  match fuel with
  | O => OutOfFuel
  | S fuel' =>
    let* (r, e) := nxt_lvlhsh_each s e in
    match r with
    | None => Ret []
    | Some x => let* xs := each_loop fuel' s e in Ret (x :: xs)
    end
  end.

End Operations.

(** ** Contents and invariant *)

(** The entries of a bucket, each a key hash with its value. *)
Fixpoint valid {V} (cs : list (option V * Z)) : list (Z * V) :=
  match cs with
  | [] => []
  | (Some x, k) :: cs' => (k, x) :: valid cs'
  | (None, _) :: cs' => valid cs'
  end.

Fixpoint contents {V} (s : slot V) : list (Z * V) :=
  match s with
  | Null => []
  | Buckets chain => concat (map (fun b => valid (cells b)) chain)
  | Level lvl _ => concat (map contents lvl)
  end.

Abbreviation chain_contents chain := (concat (map (fun b => valid (cells b)) chain)).

Section Invariant.
  Context {V : Type} (p : proto).

(** A bucket counts its entries and is not empty. *)
Definition bucket_ok (b : bucket V) : Prop :=
  entries b = length (valid (cells b)) /\ (0 < entries b)%nat
  /\ (length (cells b) <= bucket_end p)%nat.

(** Buckets are chained under the last level only. *)
Definition chain_ok (shifts : list Z) (chain : list (bucket V)) : Prop :=
  chain <> [] /\ Forall bucket_ok chain /\ (head shifts <> Some 0 -> length chain = 1%nat).

Definition used (lvl : list (slot V)) : nat := length (filter (fun s => is_null s = false) lvl).

(** A level has a slot for every value of its bits, counts the used ones, and
    keeps every entry in the slot of its key hash; [before] bits are used up
    by the levels above. *)
Fixpoint slot_ok (shifts : list Z) (before : Z) (s : slot V) : Prop :=
  match s with
  | Null => True
  | Buckets chain => chain_ok shifts chain
  | Level lvl count =>
    match shifts with
    | [] => False
    | sh :: rest =>
      0 < sh /\ length lvl = Z.to_nat (2 ^ sh) /\ count = Z.of_nat (used lvl) /\ 0 < count
      /\ (forall i c, lvl !! i = Some c ->
            slot_ok rest (before + sh) c
            /\ forall k x, (k, x) ∈ contents c -> level_index sh (Z.shiftr k before) = i)
    end
  end.

(** The bits of the levels end with 0. *)
Fixpoint shifts_ok (shifts : list Z) : Prop :=
  match shifts with
  | [] => False
  | sh :: rest => sh = 0 \/ 0 < sh /\ shifts_ok rest
  end.

End Invariant.

(** ** Buckets *)

Section Buckets.
  Context {V : Type} (p : proto).

Lemma valid_app (cs ds : list (option V * Z)) : valid (cs ++ ds) = valid cs ++ valid ds.
Proof. induction cs as [|[[x|] k] cs IH]; cbn; [done|by rewrite IH|done]. Qed.

Lemma valid_length (cs : list (option V * Z)) : (length (valid cs) <= length cs)%nat.
Proof. induction cs as [|[[x|] k] cs IH]; cbn; lia. Qed.

Lemma valid_lookup_perm (cs : list (option V * Z)) i x k :
  cs !! i = Some (Some x, k) ->
  valid cs ≡ₚ (k, x) :: valid (take i cs ++ drop (S i) cs).
Proof.
  intros H. rewrite <- (take_drop_middle cs i _ H) at 1. rewrite !valid_app. cbn.
  by rewrite Permutation_middle.
Qed.

Lemma cells_lookup_ok kh test (cs : list (option V * Z)) : forall n j,
  n = length (valid cs) -> (0 < n)%nat ->
  (exists i x, cells_lookup kh test cs n j = Ret (Some ((j + i)%nat, x))
     /\ cs !! i = Some (Some x, kh) /\ test x = true)
  \/ (cells_lookup kh test cs n j = Ret None /\ forall x, (kh, x) ∈ valid cs -> test x = false).
Proof.
  induction cs as [|[[y|] k] cs IH]; intros n j Hn H0; cbn in Hn; [lia| |].
  - cbn [cells_lookup]. destruct ((k =? kh) && test y) eqn:E.
    { left. zbool. subst. exists 0%nat, y. rewrite Nat.add_0_r. done. }
    assert (Hy : kh = k -> test y = false).
    { intros ->. rewrite Z.eqb_refl in E. done. }
    destruct n as [|[|n]]; [lia| |].
    + right. split; [done|]. injection Hn as Hn. symmetry in Hn. apply nil_length_inv in Hn.
      cbn. rewrite Hn. intros x Hx. apply list_elem_of_singleton in Hx. naive_solver.
    + destruct (IH (S n) (S j)) as [(i & x & -> & Hi & Hx)|[-> Hx]]; [lia|lia|left|right].
      * exists (S i), x. rewrite Nat.add_succ_r. done.
      * split; [done|]. intros x Hin. cbn in Hin. apply elem_of_cons in Hin as [|]; naive_solver.
  - cbn [cells_lookup]. destruct n as [|n]; [lia|].
    destruct (IH (S n) (S j)) as [(i & x & -> & Hi & Hx)|[-> Hx]]; [lia|lia|left|right].
    + exists (S i), x. rewrite Nat.add_succ_r. done.
    + done.
Qed.

(** A place of a bucket without an entry. *)
Definition vacant (cs : list (option V * Z)) (i : nat) : Prop :=
  (i < bucket_end p)%nat /\ (i = length cs \/ exists k, cs !! i = Some (None, k)).

Lemma valid_nil_lookup (cs : list (option V * Z)) i c :
  valid cs = [] -> cs !! i = Some c -> exists k, c = (None, k).
Proof.
  revert i. induction cs as [|[[x|] k] cs IH]; intros i Hv Hi; [done|done|].
  destruct i as [|i]; [injection Hi as <-; by exists k|]. by apply (IH i).
Qed.

Lemma cells_search_ok kh test (cs : list (option V * Z)) : forall n j vac,
  n = length (valid cs) -> (0 < n)%nat -> (j + length cs <= bucket_end p)%nat ->
  (exists i x, cells_search p kh test cs n j vac = Ret (inl ((j + i)%nat, x))
     /\ cs !! i = Some (Some x, kh) /\ test x = true)
  \/ (exists v, cells_search p kh test cs n j vac = Ret (inr v)
      /\ (forall x, (kh, x) ∈ valid cs -> test x = false)
      /\ match vac with
         | Some _ => v = vac
         | None =>
           match v with
           | Some i => exists i', i = (j + i')%nat /\ (i < bucket_end p)%nat
               /\ (i' = length cs \/ exists k, cs !! i' = Some (None, k))
           | None => length (valid cs) = length cs /\ (j + length cs = bucket_end p)%nat
           end
         end).
Proof.
  induction cs as [|[[y|] k] cs IH]; intros n j vac Hn H0 Hj; cbn in Hn; [lia| |].
  - cbn [cells_search]. destruct ((k =? kh) && test y) eqn:E.
    { left. zbool. subst. exists 0%nat, y. rewrite Nat.add_0_r. done. }
    assert (Hy : kh = k -> test y = false).
    { intros ->. rewrite Z.eqb_refl in E. done. }
    destruct n as [|[|n]]; [lia| |].
    + right. eexists. split; [done|]. injection Hn as Hn. symmetry in Hn. apply nil_length_inv in Hn.
      cbn [valid]. rewrite Hn. split.
      { intros x Hx. apply list_elem_of_singleton in Hx. naive_solver. }
      unfold vacant_end. destruct vac; [done|]. cbn [length] in Hj |- *.
      destruct (S j <? bucket_end p)%nat eqn:El; zbool.
      * exists 1%nat. split; [lia|]. split; [done|]. destruct cs as [|c cs]; [by left|right].
        destruct (valid_nil_lookup (c :: cs) 0 c Hn eq_refl) as [k' ->]. by exists k'.
      * destruct cs; [cbn; split; lia|cbn in Hj; lia].
    + destruct (IH (S n) (S j) vac) as [(i & x & -> & Hi & Hx)|(v & -> & Hx & Hv)];
        [lia|lia|cbn in Hj; lia|left|right].
      * exists (S i), x. rewrite Nat.add_succ_r. done.
      * exists v. split; [done|]. split.
        { intros x Hin. cbn in Hin. apply elem_of_cons in Hin as [|]; naive_solver. }
        destruct vac; [done|]. destruct v as [i|]; cbn [valid length]; [|lia].
        destruct Hv as (i' & -> & Hlt & Hc). exists (S i'). split; [lia|]. split; [done|].
        destruct Hc as [->|Hc]; [by left|by right].
  - cbn [cells_search]. destruct n as [|n]; [lia|].
    set (vac' := match vac with Some _ => vac | None => Some j end).
    destruct (IH (S n) (S j) vac') as [(i & x & -> & Hi & Hx)|(v & -> & Hx & Hv)];
      [lia|lia|cbn in Hj; lia|left|right].
    + exists (S i), x. rewrite Nat.add_succ_r. done.
    + exists v. split; [done|]. split; [done|]. unfold vac' in Hv. destruct vac; [done|]. subst v.
      exists 0%nat. split; [lia|]. split; [cbn in Hj; lia|]. right. by exists k.
Qed.

Lemma set_cell_perm (cs : list (option V * Z)) i x k :
  vacant cs i -> valid (set_cell cs i x k) ≡ₚ (k, x) :: valid cs
    /\ (length (set_cell cs i x k) <= Nat.max (length cs) (S i))%nat.
Proof.
  intros [Hlt Hv]. unfold set_cell. destruct (i <? length cs)%nat eqn:E; zbool.
  - destruct Hv as [->|[k' Hk]]; [lia|]. rewrite length_insert. split; [|lia].
    rewrite insert_take_drop by lia. rewrite <- (take_drop_middle cs i _ Hk) at 3.
    rewrite !valid_app. cbn. by rewrite Permutation_middle.
  - destruct Hv as [->|[k' Hk]]; [|apply lookup_lt_Some in Hk; lia].
    rewrite valid_app, length_app. cbn. split; [|lia]. by rewrite Permutation_app_comm.
Qed.

Lemma add_entry_ok (b : bucket V) i x k :
  bucket_ok p b -> vacant (cells b) i ->
  bucket_ok p (add_entry b i x k) /\ valid (cells (add_entry b i x k)) ≡ₚ (k, x) :: valid (cells b).
Proof.
  intros (He & H0 & Hl) Hv. destruct (set_cell_perm (cells b) i x k Hv) as [Hp Hle].
  destruct Hv as [Hlt _]. split; [|done]. unfold bucket_ok, add_entry. cbn [cells entries].
  split_and!; [|lia|lia]. rewrite Hp. cbn. lia.
Qed.

Lemma alter_insert {A} (f : A -> A) (l : list A) i x :
  l !! i = Some x -> alter f i l = <[i := f x]> l.
Proof.
  intros Hi. rewrite list_insert_alter. apply list_alter_ext; [|done].
  intros y Hy. by simplify_eq.
Qed.

(** Changing one element of a list of lists. *)
Lemma concat_insert_perm {A B} (g : A -> list B) (l : list A) i x y :
  l !! i = Some x ->
  exists R, concat (map g l) ≡ₚ g x ++ R /\ concat (map g (<[i := y]> l)) ≡ₚ g y ++ R.
Proof.
  intros Hi. exists (concat (map g (take i l)) ++ concat (map g (drop (S i) l))).
  rewrite insert_take_drop by (by eapply lookup_lt_Some).
  rewrite <- (take_drop_middle l i x Hi) at 1.
  rewrite !map_app, !concat_app. cbn. split; apply Permutation_app_swap_app.
Qed.

Lemma Forall_alter_ok {A} (P : A -> Prop) (f : A -> A) (l : list A) i x :
  Forall P l -> l !! i = Some x -> P (f x) -> Forall P (alter f i l).
Proof. intros Hl Hi Hf. rewrite (alter_insert _ _ _ _ Hi). by apply Forall_insert. Qed.

Lemma elem_of_chain (kh : Z) (x : V) (chain : list (bucket V)) :
  (kh, x) ∈ chain_contents chain <-> exists b, b ∈ chain /\ (kh, x) ∈ valid (cells b).
Proof.
  rewrite list_elem_of_In, in_concat. setoid_rewrite in_map_iff.
  split.
  - intros (l & (b & <- & Hb) & Hx). exists b. by rewrite !list_elem_of_In.
  - intros (b & Hb & Hx). exists (valid (cells b)). rewrite !list_elem_of_In in *. eauto.
Qed.

(** A full bucket has no hole. *)
Definition full (b : bucket V) : Prop :=
  length (valid (cells b)) = length (cells b) /\ length (cells b) = bucket_end p.

Lemma chain_search_ok kh test (chain : list (bucket V)) : forall i0 vac,
  chain <> [] -> Forall (bucket_ok p) chain ->
  (exists i j x b, chain_search p kh test chain i0 vac = Ret (Found (i0 + i) j x)
     /\ chain !! i = Some b /\ cells b !! j = Some (Some x, kh) /\ test x = true)
  \/ (exists r, chain_search p kh test chain i0 vac = Ret r
      /\ (forall x, (kh, x) ∈ chain_contents chain -> test x = false)
      /\ match vac with
         | Full =>
           match r with
           | Vacant i j => exists i' b, i = (i0 + i')%nat /\ chain !! i' = Some b /\ vacant (cells b) j
           | Full => Forall full chain
           | Found _ _ _ => False
           end
         | _ => r = vac
         end).
Proof.
  induction chain as [|b chain IH]; intros i0 vac Hne Hok; [done|].
  inversion_clear Hok as [|? ? Hb Hok']. pose proof Hb as (He & H0 & Hl).
  cbn [chain_search]. destruct (cells_search_ok kh test (cells b) (entries b) 0 None)
    as [(j & x & -> & Hj & Hx)|(v & -> & Hx & Hv)]; [done|done|cbn; lia| |]; cbn [obind].
  { left. exists 0%nat, j, x, b. rewrite Nat.add_0_r. done. }
  set (vac' := match vac, v with Full, Some j => Vacant i0 j | _, _ => vac end).
  destruct chain as [|b' chain'].
  - right. exists vac'. split; [done|]. split.
    { intros x Hin. cbn in Hin. rewrite app_nil_r in Hin. by apply Hx. }
    unfold vac'. destruct vac; try done. destruct v as [j|].
    + exists 0%nat, b. split; [lia|]. split; [done|]. unfold vacant.
      destruct Hv as (i' & -> & Hlt & Hc). cbn in *. done.
    + cbn. repeat constructor; cbn in Hv; lia.
  - destruct (IH (S i0) vac') as [(i & j & x & b'' & -> & Hi & Hj & Ht)|(r & -> & Hn & Hr)];
      [done|done|left|right].
    + exists (S i), j, x, b''. rewrite Nat.add_succ_r. done.
    + exists r. split; [done|]. split.
      { intros x Hin. cbn [map concat] in Hin. apply elem_of_app in Hin as [|]; auto. }
      unfold vac' in Hr. destruct vac; try done. destruct v as [j|].
      * subst r. exists 0%nat, b. split; [lia|]. split; [done|]. unfold vacant.
        destruct Hv as (i' & -> & Hlt & Hc). cbn in *. done.
      * destruct r as [| |]; [done| |].
        -- destruct Hr as (i' & b'' & -> & Hi & Hv'). exists (S i'), b''. split; [lia|done].
        -- constructor; [|done]. cbn in Hv. split; lia.
Qed.

(** The result of a search among the entries [es]. *)
Definition found (kh : Z) (test : V -> bool) (es : list (Z * V)) (r : option V) : Prop :=
  match r with
  | Some x => (kh, x) ∈ es /\ test x = true
  | None => forall x, (kh, x) ∈ es -> test x = false
  end.

Lemma bucket_find_ok kh test (chain : list (bucket V)) :
  chain <> [] -> Forall (bucket_ok p) chain ->
  exists r, bucket_find kh test chain = Ret r
    /\ found kh test (chain_contents chain) r.
Proof.
  induction chain as [|b chain IH]; intros Hne Hok; [done|].
  inversion_clear Hok as [|? ? Hb Hok']. destruct Hb as (He & H0 & Hl).
  cbn [bucket_find]. destruct (cells_lookup_ok kh test (cells b) (entries b) 0)
    as [(j & x & -> & Hj & Hx)|[-> Hx]]; [done|done| |]; cbn [obind].
  { exists (Some x). split; [done|]. split; [|done]. cbn [map concat]. apply elem_of_app. left.
    rewrite (valid_lookup_perm _ _ _ _ Hj). apply elem_of_cons. by left. }
  destruct chain as [|b' chain'].
  - exists None. split; [done|]. intros x Hin. cbn in Hin. rewrite app_nil_r in Hin. by apply Hx.
  - destruct IH as (r & -> & Hr); [done|done|]. exists r. split; [done|].
    destruct r as [x|].
    + destruct Hr as [Hin Ht]. split; [|done]. cbn [map concat]. apply elem_of_app. by right.
    + intros x Hin. cbn [map concat] in Hin. apply elem_of_app in Hin as [|]; auto.
Qed.

(** Making a hole. *)
Lemma hole_perm (cs : list (option V * Z)) j x k :
  cs !! j = Some (Some x, k) ->
  valid cs ≡ₚ (k, x) :: valid (alter (fun c => (None, c.2)) j cs).
Proof.
  intros Hj. rewrite (alter_insert _ _ _ _ Hj), insert_take_drop by (by eapply lookup_lt_Some).
  rewrite (valid_lookup_perm _ _ _ _ Hj), !valid_app. done.
Qed.

Lemma hole_ok (b : bucket V) j x k :
  bucket_ok p b -> cells b !! j = Some (Some x, k) -> entries b <> 1%nat ->
  bucket_ok p (Bucket (alter (fun c => (None, c.2)) j (cells b)) (entries b - 1)).
Proof.
  intros (He & H0 & Hl) Hj H1. pose proof (hole_perm _ _ _ _ Hj) as Hp.
  apply Permutation_length in Hp. cbn [length] in Hp. unfold bucket_ok. cbn [cells entries].
  rewrite length_alter. lia.
Qed.

Lemma single_valid (b : bucket V) j x k :
  bucket_ok p b -> cells b !! j = Some (Some x, k) -> entries b = 1%nat ->
  valid (cells b) = [(k, x)].
Proof.
  intros (He & H0 & Hl) Hj H1. pose proof (valid_lookup_perm _ _ _ _ Hj) as Hp.
  rewrite H1 in He. destruct (valid (cells b)) as [|e [|]]; try done.
  symmetry in Hp. apply Permutation_singleton_r in Hp. by injection Hp as -> _.
Qed.

Lemma bucket_delete_ok kh test (chain : list (bucket V)) :
  chain <> [] -> Forall (bucket_ok p) chain ->
  exists r chain', bucket_delete kh test chain = Ret (r, chain')
    /\ Forall (bucket_ok p) chain' /\ (length chain' <= length chain)%nat
    /\ match r with
       | Some x => test x = true /\ chain_contents chain ≡ₚ (kh, x) :: chain_contents chain'
       | None => chain' = chain /\ forall x, (kh, x) ∈ chain_contents chain -> test x = false
       end.
Proof.
  induction chain as [|b chain IH]; intros Hne Hok; [done|].
  inversion_clear Hok as [|? ? Hb Hok']. pose proof Hb as (He & H0 & Hl).
  cbn [bucket_delete]. destruct (cells_lookup_ok kh test (cells b) (entries b) 0)
    as [(j & x & -> & Hj & Hx)|[-> Hx]]; [done|done| |]; cbn [obind Nat.add].
  - destruct (entries b =? 1)%nat eqn:E1; zbool.
    + exists (Some x), chain. split_and!; [done|done|cbn; lia|done|].
      cbn [map concat]. by rewrite (single_valid b j x kh Hb Hj E1).
    + eexists (Some x), _. split_and!; [done|constructor; [by eapply hole_ok|done]|done|done|].
      cbn [map concat cells]. by rewrite (hole_perm _ _ _ _ Hj).
  - destruct chain as [|b' chain'].
    + exists None, [b]. split_and!; [done|by constructor|done|done|].
      intros x Hin. cbn in Hin. rewrite app_nil_r in Hin. by apply Hx.
    + destruct IH as (r & c & -> & Hc & Hlen & Hr); [done|done|]. cbn [obind].
      exists r, (b :: c). split_and!; [done|by constructor|cbn in *; lia|].
      destruct r as [x|].
      * destruct Hr as [Ht Hp]. split; [done|]. cbn [map concat] in Hp |- *. rewrite Hp.
        by rewrite Permutation_middle.
      * destruct Hr as [-> Hn]. split; [done|]. intros x Hin. cbn [map concat] in Hin.
        apply elem_of_app in Hin as [|]; auto.
Qed.

Lemma first_valid_ok (cs : list (option V * Z)) : forall j, valid cs <> [] ->
  exists i x k, first_valid cs j = Ret ((j + i)%nat, x) /\ cs !! i = Some (Some x, k)
    /\ exists t, valid cs = (k, x) :: t /\ valid (drop (S i) cs) = t.
Proof.
  induction cs as [|[[y|] k] cs IH]; intros j Hv; [done| |].
  - exists 0%nat, y, k. rewrite Nat.add_0_r. split_and!; [done|done|]. by exists (valid cs).
  - destruct (IH (S j) Hv) as (i & x & k' & Hf & Hi & t & Ht). exists (S i), x, k'.
    rewrite Nat.add_succ_r. split_and!; [done|done|]. by exists t.
Qed.

Lemma bucket_peek_ok retrieve (chain : list (bucket V)) :
  chain <> [] -> Forall (bucket_ok p) chain ->
  exists x k chain', bucket_peek retrieve chain = Ret (x, chain')
    /\ Forall (bucket_ok p) chain' /\ (length chain' <= length chain)%nat
    /\ head (chain_contents chain) = Some (k, x)
    /\ if retrieve then chain_contents chain ≡ₚ (k, x) :: chain_contents chain'
       else chain' = chain.
Proof.
  intros Hne Hok. destruct chain as [|b chain]; [done|]. inversion_clear Hok as [|? ? Hb Hok'].
  pose proof Hb as (He & H0 & Hl). unfold bucket_peek.
  destruct (first_valid_ok (cells b) 0) as (j & x & k & -> & Hj & t & Ht & _).
  { intros Hn. rewrite Hn in He. cbn in He. lia. }
  cbn [obind Nat.add]. cbn [map concat]. rewrite Ht. destruct retrieve.
  - destruct (entries b =? 1)%nat eqn:E1; zbool.
    + exists x, k, chain. split_and!; [done|done|cbn; lia|done|].
      rewrite (single_valid b j x k Hb Hj E1) in Ht. by injection Ht as <-.
    + eexists x, k, _. split_and!; [done|constructor; [by eapply hole_ok|done]|done|done|].
      cbn [map concat cells]. rewrite <- Ht. by rewrite (hole_perm _ _ _ _ Hj).
  - exists x, k, (b :: chain). split_and!; [done|by constructor|done|done|done].
Qed.

End Buckets.

(** ** Levels *)

Section Levels.
  Context {V : Type} (p : proto).

Lemma slot_ok_buckets shifts before (chain : list (bucket V)) :
  slot_ok p shifts before (Buckets chain) <-> chain_ok p shifts chain.
Proof. by destruct shifts. Qed.

Lemma slot_ok_null shifts before : slot_ok (V := V) p shifts before Null.
Proof. by destruct shifts. Qed.

Lemma mask_ones sh : Z.shiftl 1 sh - 1 = Z.ones sh.
Proof. unfold Z.ones. lia. Qed.

Lemma level_index_mod sh key : 0 <= sh -> level_index sh key = Z.to_nat (key mod 2 ^ sh).
Proof.
  intros Hs. unfold level_index. by rewrite mask_ones, Z.land_ones.
Qed.

Lemma elem_of_level (e : Z * V) lvl count :
  e ∈ contents (Level lvl count) <-> exists i c, lvl !! i = Some c /\ e ∈ contents c.
Proof.
  cbn. rewrite list_elem_of_In, in_concat. setoid_rewrite in_map_iff. split.
  - intros (l & (c & <- & Hc) & Hx). apply list_elem_of_In, list_elem_of_lookup in Hc as [i Hi].
    exists i, c. by rewrite list_elem_of_In.
  - intros (i & c & Hi & Hx). exists (contents c). rewrite list_elem_of_In in Hx. split; [|done].
    exists c. split; [done|]. apply list_elem_of_In. by eapply list_elem_of_lookup_2.
Qed.

Definition nz (s : slot V) : Z := if is_null s then 0 else 1.

Lemma used_app (l k : list (slot V)) : used (l ++ k) = (used l + used k)%nat.
Proof. unfold used. by rewrite filter_app, length_app. Qed.

Lemma used_one (s : slot V) : Z.of_nat (used [s]) = nz s.
Proof. unfold used, nz. rewrite filter_cons, filter_nil. destruct (is_null s); done. Qed.

Lemma used_insert (lvl : list (slot V)) i c c' :
  lvl !! i = Some c -> Z.of_nat (used (<[i := c']> lvl)) = Z.of_nat (used lvl) - nz c + nz c'.
Proof.
  intros Hi. rewrite insert_take_drop by (by eapply lookup_lt_Some).
  rewrite <- (take_drop_middle lvl i c Hi) at 3.
  rewrite <- (app_nil_l (drop (S i) lvl)), !app_comm_cons, !used_app.
  rewrite !Nat2Z.inj_add, !used_one. lia.
Qed.

(** A child of a level, by the bits of the key. *)
Lemma level_child sh rest before (lvl : list (slot V)) count key :
  slot_ok p (sh :: rest) before (Level lvl count) ->
  exists c, lvl !! level_index sh key = Some c /\ slot_ok p rest (before + sh) c.
Proof.
  intros (Hsh & Hlen & _ & _ & Hc).
  destruct (lookup_lt_is_Some_2 lvl (level_index sh key)) as [c Hi].
  - rewrite level_index_mod, Hlen by lia. apply Z2Nat.inj_lt; try lia.
    + apply Z.mod_pos_bound. lia.
    + apply Z.mod_pos_bound. lia.
  - exists c. split; [done|]. by apply (Hc _ _ Hi).
Qed.

(** An entry of a level with key hash [kh] is in the child of its bits. *)
Lemma level_here sh rest before (lvl : list (slot V)) count kh c x :
  slot_ok p (sh :: rest) before (Level lvl count) ->
  lvl !! level_index sh (Z.shiftr kh before) = Some c ->
  (kh, x) ∈ contents (Level lvl count) -> (kh, x) ∈ contents c.
Proof.
  intros (_ & _ & _ & _ & Hc) Hi Hin. apply elem_of_level in Hin as (i & c' & Hi' & Hx).
  destruct (Hc _ _ Hi') as [_ Hk]. rewrite (Hk _ _ Hx) in Hi. by simplify_eq.
Qed.

Lemma level_there (lvl : list (slot V)) count e i c :
  lvl !! i = Some c -> e ∈ contents c -> e ∈ contents (Level lvl count).
Proof. intros Hi Hx. apply elem_of_level. eauto. Qed.

(** The level with another child. *)
Lemma level_update sh rest before (lvl : list (slot V)) count count' i c c' :
  slot_ok p (sh :: rest) before (Level lvl count) -> lvl !! i = Some c ->
  slot_ok p rest (before + sh) c' ->
  (forall k x, (k, x) ∈ contents c' -> level_index sh (Z.shiftr k before) = i) ->
  count' = count - nz c + nz c' -> 0 < count' ->
  slot_ok p (sh :: rest) before (Level (<[i := c']> lvl) count').
Proof.
  intros (Hsh & Hlen & Hcount & Hpos & Hc) Hi Hc' Hk Hn Hpos'. cbn.
  rewrite length_insert, (used_insert _ _ _ _ Hi), <- Hcount.
  split_and!; [done|done|done|done|]. intros j d Hj.
  apply list_lookup_insert_Some in Hj as [(-> & -> & _)|[_ Hj]]; [done|by apply Hc].
Qed.

Lemma find_shift key before sh :
  0 <= before -> 0 <= sh -> Z.shiftr (Z.shiftr key before) sh = Z.shiftr key (before + sh).
Proof. intros. by apply Z.shiftr_shiftr. Qed.

Lemma level_find_ok kh test shifts : forall before (lvl : list (slot V)) count,
  0 <= before -> slot_ok p shifts before (Level lvl count) ->
  exists r, level_find kh test shifts (Z.shiftr kh before) (Level lvl count) = Ret r
    /\ found kh test (contents (Level lvl count)) r.
Proof.
  induction shifts as [|sh rest IH]; intros before lvl count Hb Hok; [done|].
  destruct (level_child _ _ _ _ _ (Z.shiftr kh before) Hok) as (c & Hi & Hc).
  pose proof (proj1 Hok) as Hsh. cbn [level_find]. rewrite Hi. cbn [of_option obind].
  assert (Hup : forall r, found kh test (contents c) r -> found kh test (contents (Level lvl count)) r).
  { intros [x|]; [intros [? ?]; split; [by eapply level_there|done]|].
    intros Hn x Hx. apply Hn. by eapply level_here. }
  destruct c as [|chain|lvl' count'].
  - exists None. split; [done|]. apply (Hup None). intros x Hx. by apply elem_of_nil in Hx.
  - apply slot_ok_buckets in Hc as (Hne & Hbs & _). destruct (bucket_find_ok p kh test chain Hne Hbs) as (r & -> & Hr).
    exists r. split; [done|]. by apply Hup.
  - rewrite find_shift by lia. destruct (IH (before + sh) lvl' count') as (r & -> & Hr); [lia|done|].
    exists r. split; [done|]. by apply Hup.
Qed.

Lemma find_ok kh test (s : slot V) :
  slot_ok p (shift p) 0 s ->
  exists r, nxt_lvlhsh_find p kh test s = Ret r
    /\ found kh test (contents s) r.
Proof.
  intros Hok. destruct s as [|chain|lvl count]; cbn [nxt_lvlhsh_find].
  - exists None. split; [done|]. intros x Hx. by apply elem_of_nil in Hx.
  - apply slot_ok_buckets in Hok as (Hne & Hbs & _). by apply (bucket_find_ok p).
  - by apply (level_find_ok kh test (shift p) 0).
Qed.

(** *** Deletion *)

Lemma used_le (lvl : list (slot V)) : (used lvl <= length lvl)%nat.
Proof. apply length_filter. Qed.

Lemma used_0 (lvl : list (slot V)) : used lvl = 0%nat -> concat (map contents lvl) = [].
Proof.
  unfold used. induction lvl as [|s lvl IH]; intros H; [done|]. rewrite filter_cons in H.
  destruct s; [|done..]. by apply IH.
Qed.

Lemma level_release_ok sh rest before (lvl : list (slot V)) count i c c' :
  slot_ok p (sh :: rest) before (Level lvl count) -> lvl !! i = Some c -> is_null c = false ->
  slot_ok p rest (before + sh) c' ->
  (forall k x, (k, x) ∈ contents c' -> (k, x) ∈ contents c) ->
  slot_ok p (sh :: rest) before (level_release sh lvl count i c')
  /\ contents (level_release sh lvl count i c') = concat (map contents (<[i := c']> lvl)).
Proof.
  intros Hok Hi Hnc Hc' Hsub. pose proof Hok as (Hsh & Hlen & Hcount & Hpos & Hch).
  pose proof (used_le lvl) as Hle. pose proof (used_insert lvl i c c' Hi) as Hu.
  unfold nz in Hu. rewrite Hnc in Hu. rewrite Hlen in Hle.
  assert (Hk : forall k x, (k, x) ∈ contents c' -> level_index sh (Z.shiftr k before) = i).
  { intros k x Hx. eapply (Hch i c Hi). by apply Hsub. }
  unfold level_release. destruct (is_null c') eqn:En.
  - rewrite mask_ones, Z.land_ones, Z.mod_small by lia.
    destruct (count - 1 =? 0) eqn:E0; zbool.
    + split; [done|]. symmetry. apply used_0. lia.
    + split; [|done]. eapply level_update; [done|done|done|done| |lia].
      unfold nz. rewrite Hnc, En. lia.
  - split; [|done]. eapply level_update; [done|done|done|done| |done].
    unfold nz. rewrite Hnc, En. lia.
Qed.

(** The outcome of a deletion. *)
Definition deleted (kh : Z) (test : V -> bool) (s : slot V) (r : option V) (s' : slot V) : Prop :=
  match r with
  | Some x => test x = true /\ contents s ≡ₚ (kh, x) :: contents s'
  | None => s' = s /\ forall x, (kh, x) ∈ contents s -> test x = false
  end.

Lemma chain_slot_ok shifts before (chain chain' : list (bucket V)) :
  chain_ok p shifts chain -> Forall (bucket_ok p) chain' -> (length chain' <= length chain)%nat ->
  slot_ok p shifts before (chain_slot chain') /\ contents (chain_slot chain') = chain_contents chain'.
Proof.
  intros (Hne & Hok & H1) Hok' Hlen. destruct chain' as [|b chain']; [by split; [apply slot_ok_null|]|].
  split; [|done]. apply slot_ok_buckets. split_and!; [done|done|]. intros Hs. specialize (H1 Hs).
  cbn [length] in *. lia.
Qed.

Lemma bucket_deleted kh test shifts before (chain : list (bucket V)) :
  chain_ok p shifts chain ->
  exists r c, bucket_delete kh test chain = Ret (r, c)
    /\ slot_ok p shifts before (chain_slot c) /\ deleted kh test (Buckets chain) r (chain_slot c).
Proof.
  intros Hok. pose proof Hok as (Hne & Hbs & _).
  destruct (bucket_delete_ok p kh test chain Hne Hbs) as (r & c & -> & Hc & Hlen & Hr).
  exists r, c. split; [done|].
  destruct (chain_slot_ok shifts before chain c Hok Hc Hlen) as [Hs Hcs]. split; [done|].
  destruct r as [x|]; [cbn; by rewrite Hcs|]. destruct Hr as [-> Hn]. split; [by destruct chain|done].
Qed.

(** A deletion in a child is a deletion in the level. *)
Lemma level_deleted kh test sh rest before (lvl : list (slot V)) count c r c' :
  slot_ok p (sh :: rest) before (Level lvl count) ->
  lvl !! level_index sh (Z.shiftr kh before) = Some c -> is_null c = false ->
  slot_ok p rest (before + sh) c' -> deleted kh test c r c' ->
  let s' := level_release sh lvl count (level_index sh (Z.shiftr kh before)) c' in
  slot_ok p (sh :: rest) before s' /\ deleted kh test (Level lvl count) r s'.
Proof.
  intros Hok Hi Hnc Hc' Hd s'.
  assert (Hsub : forall k x, (k, x) ∈ contents c' -> (k, x) ∈ contents c).
  { intros k x Hx. destruct r as [y|]; [|by destruct Hd as [-> _]].
    destruct Hd as [_ ->]. apply elem_of_cons. by right. }
  destruct (level_release_ok _ _ _ _ _ _ _ _ Hok Hi Hnc Hc' Hsub) as [Hs Hcs].
  split; [done|]. destruct r as [x|].
  - destruct Hd as [Ht Hp]. split; [done|]. unfold s'. rewrite Hcs.
    destruct (concat_insert_perm contents lvl _ c c' Hi) as (R & HR & HR').
    cbn [contents]. by rewrite HR, HR', Hp.
  - destruct Hd as [-> Hn]. split.
    + unfold s', level_release. rewrite Hnc, list_insert_id by done. done.
    + intros x Hx. apply Hn. by eapply level_here.
Qed.

Lemma level_delete_ok kh test shifts : forall before (lvl : list (slot V)) count,
  0 <= before -> slot_ok p shifts before (Level lvl count) ->
  exists r s', level_delete kh test shifts (Z.shiftr kh before) (Level lvl count) = Ret (r, s')
    /\ slot_ok p shifts before s' /\ deleted kh test (Level lvl count) r s'.
Proof.
  induction shifts as [|sh rest IH]; intros before lvl count Hb Hok; [done|].
  destruct (level_child _ _ _ _ _ (Z.shiftr kh before) Hok) as (c & Hi & Hc).
  pose proof (proj1 Hok) as Hsh. cbn [level_delete]. rewrite Hi. cbn [of_option obind].
  destruct c as [|chain|lvl' count'].
  - exists None, (Level lvl count). split; [done|]. split; [done|]. split; [done|].
    intros x Hx. eapply level_here in Hx; [|done..]. by apply elem_of_nil in Hx.
  - apply slot_ok_buckets in Hc.
    destruct (bucket_deleted kh test rest (before + sh) chain Hc) as (r & c' & -> & Hc' & Hd).
    cbn [obind]. exists r. eexists. split; [done|]. by eapply level_deleted.
  - rewrite find_shift by lia.
    destruct (IH (before + sh) lvl' count') as (r & c' & -> & Hc' & Hd); [lia|done|].
    cbn [obind]. exists r. eexists. split; [done|]. by eapply level_deleted.
Qed.

Lemma delete_ok kh test (s : slot V) :
  slot_ok p (shift p) 0 s ->
  exists r s', nxt_lvlhsh_delete p kh test s = Ret (r, s')
    /\ slot_ok p (shift p) 0 s' /\ deleted kh test s r s'.
Proof.
  intros Hok. destruct s as [|chain|lvl count]; cbn [nxt_lvlhsh_delete].
  - exists None, Null. split; [done|]. split; [done|]. split; [done|]. intros x Hx. by apply elem_of_nil in Hx.
  - apply slot_ok_buckets in Hok.
    destruct (bucket_deleted kh test (shift p) 0 chain Hok) as (r & c' & -> & Hc' & Hd).
    cbn [obind]. eauto.
  - by apply (level_delete_ok kh test (shift p) 0).
Qed.

(** *** Retrieval *)

(** The first entry, kept or removed. *)
Definition peeked (retrieve : bool) (s : slot V) (x : V) (s' : slot V) : Prop :=
  exists k, head (contents s) = Some (k, x)
  /\ if retrieve then contents s ≡ₚ (k, x) :: contents s' else s' = s.

(** A slot in use has entries. *)
Lemma slot_ok_nonempty shifts : forall before (s : slot V),
  slot_ok p shifts before s -> is_null s = false -> contents s <> [].
Proof.
  induction shifts as [|sh rest IH]; intros before s Hok Hn.
  - destruct s as [|chain|]; [done| |done]. apply slot_ok_buckets in Hok as (Hne & Hbs & _).
    destruct chain as [|b chain]; [done|]. inversion_clear Hbs as [|? ? (He & H0 & _)].
    cbn. destruct (valid (cells b)); [cbn in He; lia|done].
  - destruct s as [|chain|lvl count]; [done| |].
    + apply slot_ok_buckets in Hok as (Hne & Hbs & _).
      destruct chain as [|b chain]; [done|]. inversion_clear Hbs as [|? ? (He & H0 & _)].
      cbn. destruct (valid (cells b)); [cbn in He; lia|done].
    + destruct Hok as (_ & _ & Hcount & Hpos & Hch).
      assert (Hex : exists i c, lvl !! i = Some c /\ is_null c = false).
      { unfold used in Hcount. destruct (filter _ lvl) as [|c l] eqn:Ef; [cbn in Hcount; lia|].
        assert (Hin : c ∈ filter (fun s => is_null s = false) lvl) by (rewrite Ef; apply elem_of_cons; by left).
        apply list_elem_of_filter in Hin as [Hnc Hin]. apply list_elem_of_lookup in Hin as [i Hi]. eauto. }
      destruct Hex as (i & c & Hi & Hnc). destruct (Hch i c Hi) as [Hc _].
      specialize (IH _ _ Hc Hnc). destruct (contents c) as [|e es] eqn:Ec; [done|].
      assert (Hin : e ∈ contents (Level lvl count)).
      { apply elem_of_level. exists i, c. split; [done|]. rewrite Ec. apply elem_of_cons. by left. }
      intros Hnil. rewrite Hnil in Hin. by apply elem_of_nil in Hin.
Qed.

Lemma first_slot_ok (lvl : list (slot V)) : forall n,
  (0 < used lvl)%nat ->
  exists i c, first_slot lvl n = Ret ((n + i)%nat, c) /\ lvl !! i = Some c /\ is_null c = false
    /\ concat (map contents (take i lvl)) = [].
Proof.
  induction lvl as [|s lvl IH]; intros n Hu; [cbn in Hu; lia|].
  destruct s as [|chain|l c]; cbn [first_slot].
  - unfold used in Hu. rewrite filter_cons in Hu. cbn in Hu.
    destruct (IH (S n) Hu) as (i & c & -> & Hi & Hn & Ht). exists (S i), c.
    rewrite Nat.add_succ_r. done.
  - exists 0%nat, (Buckets chain). rewrite Nat.add_0_r. done.
  - exists 0%nat, (Level l c). rewrite Nat.add_0_r. done.
Qed.

Lemma bucket_peeked retrieve shifts before (chain : list (bucket V)) :
  chain_ok p shifts chain ->
  exists x c, bucket_peek retrieve chain = Ret (x, c)
    /\ slot_ok p shifts before (chain_slot c) /\ peeked retrieve (Buckets chain) x (chain_slot c).
Proof.
  intros Hok. pose proof Hok as (Hne & Hbs & _).
  destruct (bucket_peek_ok p retrieve chain Hne Hbs) as (x & k & c & -> & Hc & Hlen & Hh & Hr).
  exists x, c. split; [done|].
  destruct (chain_slot_ok shifts before chain c Hok Hc Hlen) as [Hs Hcs]. split; [done|].
  exists k. split; [done|]. destruct retrieve; [by rewrite Hcs|]. subst c. by destruct chain.
Qed.

Lemma level_peek_ok retrieve shifts : forall before (lvl : list (slot V)) count,
  0 <= before -> slot_ok p shifts before (Level lvl count) ->
  exists x s', level_peek retrieve shifts (Level lvl count) = Ret (x, s')
    /\ slot_ok p shifts before s' /\ peeked retrieve (Level lvl count) x s'.
Proof.
  induction shifts as [|sh rest IH]; intros before lvl count Hb Hok; [done|].
  pose proof Hok as (Hsh & Hlen & Hcount & Hpos & Hch).
  cbn [level_peek]. destruct (first_slot_ok lvl 0) as (i & c & -> & Hi & Hnc & Ht); [lia|].
  cbn [obind Nat.add]. destruct (Hch i c Hi) as [Hc Hk].
  assert (Hrec : exists x c', (match c with
       | Buckets chain => let* (x, c0) := bucket_peek retrieve chain in Ret (x, chain_slot c0)
       | _ => level_peek retrieve rest c end) = Ret (x, c')
     /\ slot_ok p rest (before + sh) c' /\ peeked retrieve c x c').
  { destruct c as [|chain|lvl' count']; [done| |].
    - apply slot_ok_buckets in Hc.
      destruct (bucket_peeked retrieve rest (before + sh) chain Hc) as (x & c' & -> & Hs & Hp).
      cbn [obind]. eauto.
    - apply IH; [lia|done]. }
  destruct Hrec as (x & c' & -> & Hc' & k & Hh & Hr). cbn [obind].
  assert (Hsub : forall k x, (k, x) ∈ contents c' -> (k, x) ∈ contents c).
  { intros k' y Hy. destruct retrieve; [|by subst c']. rewrite Hr. apply elem_of_cons. by right. }
  destruct (level_release_ok _ _ _ _ _ _ _ _ Hok Hi Hnc Hc' Hsub) as [Hs Hcs].
  eexists x, _. split; [done|]. split; [done|]. exists k. split.
  - cbn [contents]. rewrite <- (take_drop_middle lvl i c Hi), map_app, concat_app, Ht. cbn.
    destruct (contents c) as [|e es]; [done|]. done.
  - destruct retrieve.
    + rewrite Hcs. destruct (concat_insert_perm contents lvl _ c c' Hi) as (R & HR & HR').
      cbn [contents]. by rewrite HR, HR', Hr.
    + subst c'. unfold level_release. rewrite Hnc, list_insert_id by done. done.
Qed.

Lemma peek_ok retrieve (s : slot V) :
  slot_ok p (shift p) 0 s ->
  exists r s', nxt_lvlhsh_peek p retrieve s = Ret (r, s') /\ slot_ok p (shift p) 0 s'
    /\ match r with
       | Some x => peeked retrieve s x s'
       | None => contents s = [] /\ s' = s
       end.
Proof.
  intros Hok. destruct s as [|chain|lvl count]; cbn [nxt_lvlhsh_peek].
  - exists None, Null. done.
  - apply slot_ok_buckets in Hok.
    destruct (bucket_peeked retrieve (shift p) 0 chain Hok) as (x & c' & -> & Hc' & Hd).
    cbn [obind]. exists (Some x). eauto.
  - destruct (level_peek_ok retrieve (shift p) 0 lvl count) as (x & s' & -> & Hs & Hp); [lia|done|].
    cbn [obind]. exists (Some x). eauto.
Qed.

End Levels.

(** ** Insertion *)

Section Insertion.
  Context {V : Type} (alloc : nat -> bool) (p : proto).

(** Some request between two counts found no memory. *)
Definition failed (k k' : nat) : Prop := exists i, (k <= i < k')%nat /\ alloc i = false.

Lemma failed_mono k1 k2 k3 k4 : (k1 <= k2)%nat -> (k3 <= k4)%nat -> failed k2 k3 -> failed k1 k4.
Proof. intros H1 H2 (i & Hi & Ha). exists i. split; [lia|done]. Qed.

Lemma new_bucket_run (x : V) kh k :
  new_bucket alloc x kh k = Ret (if alloc k then Some (fresh_bucket x kh) else None, S k).
Proof. done. Qed.

Lemma fresh_bucket_ok (x : V) kh : (0 < bucket_end p)%nat -> bucket_ok p (fresh_bucket x kh).
Proof. intros H. split_and!; cbn; lia. Qed.

(** A slot of a level under conversion: free, or one bucket without holes. *)
Definition conv_child (c : slot V) : Prop :=
  c = Null \/ exists b, c = Buckets [b] /\ bucket_ok p b /\ entries b = length (cells b).

Definition conv_level (sh before : Z) (lvl : list (slot V)) (count : Z) : Prop :=
  0 < sh /\ length lvl = Z.to_nat (2 ^ sh) /\ count = Z.of_nat (used lvl)
  /\ forall i c, lvl !! i = Some c ->
       conv_child c /\ forall k x, (k, x) ∈ contents c -> level_index sh (Z.shiftr k before) = i.

Lemma conv_update sh before lvl count i c c' :
  conv_level sh before lvl count -> lvl !! i = Some c -> conv_child c' ->
  (forall k x, (k, x) ∈ contents c' -> level_index sh (Z.shiftr k before) = i) ->
  conv_level sh before (<[i := c']> lvl) (count - nz c + nz c').
Proof.
  intros (Hsh & Hlen & Hcount & Hch) Hi Hc' Hk. split_and!; [done|by rewrite length_insert| |].
  - by rewrite (used_insert _ _ _ _ Hi), Hcount.
  - intros j d Hj. apply list_lookup_insert_Some in Hj as [(-> & -> & _)|[_ Hj]]; [done|by apply Hch].
Qed.

Lemma conv_insert_ok sh rest before x kh lvl count k :
  conv_level sh before lvl count ->
  (length (concat (map contents lvl)) < bucket_end p)%nat ->
  exists r, level_convertion_insert alloc p sh rest x kh (Z.shiftr kh before) lvl count k
      = Ret r /\ (k <= r.2)%nat
    /\ match r.1 with
       | Some (lvl', count') => conv_level sh before lvl' count'
           /\ concat (map contents lvl') ≡ₚ (kh, x) :: concat (map contents lvl)
       | None => failed k r.2
       end.
Proof.
  intros Hok Hlt. pose proof Hok as (Hsh & Hlen & Hcount & Hch).
  set (i := level_index sh (Z.shiftr kh before)).
  destruct (lookup_lt_is_Some_2 lvl i) as [c Hi].
  { unfold i. rewrite level_index_mod, Hlen by lia.
    pose proof (Z.mod_pos_bound (Z.shiftr kh before) (2 ^ sh) ltac:(lia)). lia. }
  destruct (Hch i c Hi) as [Hc Hk].
  unfold level_convertion_insert, abind, alift. fold i. rewrite Hi. cbn [of_option obind].
  destruct Hc as [->|(b & -> & Hb & Hdense)].
  - rewrite new_bucket_run. cbn [obind]. destruct (alloc k) eqn:Ea; cbn [aret];
      eexists; (split; [done|]); (split; [cbn; lia|]); cbn [fst snd].
    + replace (count + 1) with (count - nz (V := V) Null + nz (Buckets [fresh_bucket x kh])) by (cbn; lia).
      split.
      * apply (conv_update _ _ _ _ _ Null); [done|done| |].
        { right. exists (fresh_bucket x kh). split; [done|]. split; [apply fresh_bucket_ok; lia|done]. }
        intros k' y Hy. apply list_elem_of_singleton in Hy. by simplify_eq.
      * destruct (concat_insert_perm contents lvl i Null (Buckets [fresh_bucket x kh]) Hi)
          as (R & HR & HR'). rewrite HR'. cbn in HR |- *. by rewrite HR.
    + exists k. split; [lia|done].
  - destruct (concat_insert_perm contents lvl i (Buckets [b])
                (Buckets [add_entry b (entries b) x kh]) Hi) as (R & HR & HR').
    pose proof Hb as (He & H0 & Hl).
    assert (Hlt' : (entries b < bucket_end p)%nat).
    { rewrite HR, length_app in Hlt. cbn in Hlt. rewrite app_nil_r in Hlt. lia. }
    cbn [bucket_convertion_insert]. rewrite (proj2 (Nat.ltb_lt _ _)) by done. cbn [aret obind].
    eexists. split; [done|]. split; [cbn; lia|]. cbn [fst snd].
    destruct (add_entry_ok p b (entries b) x kh Hb) as [Hb' Hp'].
    { split; [done|]. by left. }
    split.
    + replace count with (count - nz (Buckets [b]) + nz (Buckets [add_entry b (entries b) x kh]))
        by (cbn; lia).
      apply (conv_update _ _ _ _ _ (Buckets [b])); [done|done| |].
      * right. eexists. split; [done|]. split; [done|]. cbn. unfold set_cell.
        rewrite (proj2 (Nat.ltb_ge _ _)) by lia. rewrite length_app. cbn. lia.
      * intros k' y Hy. cbn [contents map concat] in Hy. rewrite app_nil_r, Hp' in Hy.
        apply elem_of_cons in Hy as [Hy|Hy]; [by simplify_eq|]. eapply Hk. cbn. by rewrite app_nil_r.
    + rewrite HR', HR. cbn [contents map concat]. rewrite !app_nil_r, Hp'. done.
Qed.

Lemma convert_loop_ok sh rest before cs : forall lvl count k,
  conv_level sh before lvl count -> Forall (fun c => is_Some c.1) cs ->
  (length (concat (map contents lvl)) + length cs <= bucket_end p)%nat ->
  exists r, convert_loop alloc p sh rest before cs lvl count k = Ret r /\ (k <= r.2)%nat
    /\ match r.1 with
       | Some (lvl', count') => conv_level sh before lvl' count'
           /\ concat (map contents lvl') ≡ₚ valid cs ++ concat (map contents lvl)
       | None => failed k r.2
       end.
Proof.
  induction cs as [|[[x|] kh] cs IH]; intros lvl count k Hok Hcs Hl; cbn [convert_loop].
  - exists (Some (lvl, count), k). done.
  - inversion_clear Hcs as [|? ? _ Hcs']. cbn [length] in Hl. unfold abind.
    destruct (conv_insert_ok sh rest before x kh lvl count k Hok) as ([[[l c]|] k1] & -> & Hk1 & Hr);
      [lia| |]; cbn [fst snd obind] in *.
    + destruct Hr as [Hok' Hp]. destruct (IH l c k1) as (r & -> & Hk2 & Hr); [done|done| |].
      { rewrite Hp. cbn [length]. lia. }
      exists r. split; [done|]. split; [lia|]. destruct (r.1) as [[l' c']|].
      * destruct Hr as [Hok'' Hp']. split; [done|]. rewrite Hp', Hp. cbn [valid app].
        by rewrite Permutation_middle.
      * by eapply failed_mono; [| |exact Hr].
    + exists (None, k1). done.
  - inversion_clear Hcs as [|? ? H _]. by destruct H.
Qed.

Lemma used_replicate n : used (V := V) (replicate n Null) = 0%nat.
Proof. induction n; done. Qed.

Lemma contents_replicate n : concat (map contents (replicate n (Null (V := V)))) = [].
Proof. induction n; done. Qed.

Lemma full_valid (b : bucket V) : full p b -> Forall (fun c => is_Some c.1) (cells b).
Proof.
  intros [H _]. revert H. induction (cells b) as [|[[x|] k] cs IH]; intros H; [constructor| |].
  - constructor; [by eexists|]. apply IH. cbn in H. lia.
  - pose proof (valid_length cs). cbn in H. lia.
Qed.

(** A full bucket becomes a level with the same entries. *)
Lemma convert_ok nlvl sh rest before (b : bucket V) k :
  0 < sh -> foldr Z.add 0 (take nlvl (shift p)) = before ->
  (0 < bucket_end p)%nat -> full p b ->
  exists r, convert_bucket_to_level alloc p nlvl sh rest b k = Ret r /\ (k <= r.2)%nat
    /\ match r.1 with
       | Some s => exists lvl count, s = Level lvl count
           /\ slot_ok p (sh :: rest) before s /\ contents s ≡ₚ valid (cells b)
       | None => failed k r.2
       end.
Proof.
  intros Hsh Hbefore Hend Hfull. pose proof Hfull as [Hv Hl].
  unfold convert_bucket_to_level, abind, request. cbn [obind]. rewrite Hbefore.
  destruct (alloc k) eqn:Ea; cbn [aret].
  2:{ exists (None, S k). split; [done|]. split; [cbn; lia|]. exists k. split; [cbn; lia|done]. }
  destruct (convert_loop_ok sh rest before (cells b) (replicate (Z.to_nat (Z.shiftl 1 sh)) Null) 0 (S k))
    as ([[[lvl count]|] k'] & -> & Hk & Hr); cbn [fst snd] in *.
  - split_and!; [done|by rewrite length_replicate, Z.shiftl_1_l|by rewrite used_replicate|].
    intros i c Hi. apply lookup_replicate in Hi as [-> _]. split; [by left|].
    intros ? ? Hx. by apply elem_of_nil in Hx.
  - by apply full_valid.
  - rewrite contents_replicate. cbn. lia.
  - cbn [obind]. eexists. split; [done|]. split; [cbn; lia|]. cbn [fst snd].
    destruct Hr as [(_ & Hlen & Hcount & Hch) Hp]. rewrite contents_replicate, app_nil_r in Hp.
    exists lvl, count. split; [done|]. split; [|done]. cbn. split_and!; [done|done|done| |].
    + destruct (Z.eq_dec count 0) as [E|]; [|lia]. exfalso.
      assert (H0 : used lvl = 0%nat) by lia. apply used_0 in H0. rewrite H0 in Hp.
      apply Permutation_length in Hp. cbn in Hp. lia.
    + intros i c Hi. destruct (Hch i c Hi) as [Hc Hk']. split; [|done].
      destruct Hc as [->|(b' & -> & Hb' & _)]; [apply slot_ok_null|].
      apply slot_ok_buckets. split_and!; [done|by constructor|done].
  - cbn [obind]. exists (None, k'). split; [done|]. split; [cbn; lia|].
    cbn. by apply (failed_mono k (S k) k' k'); [lia|lia|].
Qed.

(** The outcome of an insertion. *)
Definition inserted (q : query (V := V)) (s : slot V) (rc : Z) (v : option V) (s' : slot V)
    (k k' : nat) : Prop :=
  (exists old R, contents s ≡ₚ (key_hash q, old) :: R /\ test q old = true /\ v = Some old
     /\ if replace q then rc = NXT_OK /\ contents s' ≡ₚ (key_hash q, q_value q) :: R
        else rc = NXT_DECLINED /\ s' = s)
  \/ ((forall x, (key_hash q, x) ∈ contents s -> test q x = false) /\ v = None
      /\ (rc = NXT_OK /\ contents s' ≡ₚ (key_hash q, q_value q) :: contents s
          \/ rc = NXT_ERROR /\ contents s' ≡ₚ contents s /\ failed k k')).

(** The post-condition of the insertion functions. *)
Definition insert_post (q : query (V := V)) shifts before s (r : outcome (result (V := V) * nat)) (k : nat) :
    Prop :=
  exists rc v s' k', r = Ret ((rc, v, s'), k') /\ (k <= k')%nat
  /\ slot_ok p shifts before s' /\ is_null s' = is_null s
  /\ inserted q s rc v s' k k'.

Lemma replace_entry_ok (b : bucket V) j x y k :
  bucket_ok p b -> cells b !! j = Some (Some y, k) ->
  bucket_ok p (replace_entry b j x)
  /\ exists R, valid (cells b) ≡ₚ (k, y) :: R /\ valid (cells (replace_entry b j x)) ≡ₚ (k, x) :: R.
Proof.
  intros (He & H0 & Hl) Hj. unfold replace_entry. rewrite Hj.
  assert (Hp : exists R, valid (cells b) ≡ₚ (k, y) :: R
    /\ valid (<[j := (Some x, k)]> (cells b)) ≡ₚ (k, x) :: R).
  { eexists. split; [by apply valid_lookup_perm|].
    rewrite insert_take_drop by (by eapply lookup_lt_Some). rewrite !valid_app. cbn.
    by rewrite Permutation_middle. }
  split; [|done]. destruct Hp as (R & Hp1 & Hp2). apply Permutation_length in Hp1, Hp2.
  split_and!; cbn [cells entries] in *; rewrite ?length_insert; cbn [length] in *; lia.
Qed.

Lemma chain_ok_alter shifts chain (f : bucket V -> bucket V) i b :
  chain_ok p shifts chain -> chain !! i = Some b -> bucket_ok p (f b) ->
  chain_ok p shifts (alter f i chain).
Proof.
  intros (Hne & Hok & H1) Hi Hf. split_and!.
  - intros E. apply (f_equal length) in E. rewrite length_alter in E. by destruct chain.
  - by eapply Forall_alter_ok.
  - by rewrite length_alter.
Qed.

Lemma chain_no_match q (chain : list (bucket V)) :
  (forall x, (key_hash q, x) ∈ chain_contents chain -> test q x = false) ->
  forall rc s' k k',
  (rc = NXT_OK /\ contents s' ≡ₚ (key_hash q, q_value q) :: chain_contents chain
   \/ rc = NXT_ERROR /\ contents s' ≡ₚ chain_contents chain /\ failed k k') ->
  inserted q (Buckets chain) rc None s' k k'.
Proof. intros Hn rc s' k k' H. right. done. Qed.

Lemma bucket_insert_full q lev nlvl shifts before (chain : list (bucket V)) k :
  (0 < bucket_end p)%nat -> shifts_ok shifts -> chain_ok p shifts chain ->
  foldr Z.add 0 (take nlvl (shift p)) = before ->
  (forall lvl count k, slot_ok p shifts before (Level lvl count) ->
     insert_post q shifts before (Level lvl count) (lev (Level lvl count) k) k) ->
  (forall x, (key_hash q, x) ∈ chain_contents chain -> test q x = false) ->
  Forall (full p) chain ->
  insert_post q shifts before (Buckets chain)
    ((match shifts, last chain with
      | sh :: rest', Some b =>
        if sh =? 0 then
          let! nb := new_bucket alloc (q_value q) (key_hash q) in
          aret (match nb with
                | Some nb => (NXT_OK, None, Buckets (chain ++ [nb]))
                | None => (NXT_ERROR, None, Buckets chain)
                end)
        else
          let! lvl := convert_bucket_to_level alloc p nlvl sh rest' b in
          match lvl with
          | Some s => lev s
          | None => aret (NXT_ERROR, None, Buckets chain)
          end
      | _, _ => alift Fault
      end) k) k.
Proof.
  intros Hend Hshifts Hok Hbefore Hlev Hn Hfull. pose proof Hok as (Hne & Hbs & H1).
  destruct shifts as [|sh rest]; [done|].
  destruct (last chain) as [b|] eqn:Elast; [|by apply last_None in Elast].
  destruct (sh =? 0) eqn:E0; zbool.
  - unfold abind. rewrite new_bucket_run. cbn [obind aret]. destruct (alloc k) eqn:Ea.
    + eexists NXT_OK, None, _, (S k). split; [done|]. split; [lia|]. split.
      { apply slot_ok_buckets. split_and!; [by destruct chain| |subst; done].
        apply Forall_app_2; [done|]. constructor; [by apply fresh_bucket_ok|constructor]. }
      split; [done|]. apply chain_no_match; [done|]. left. split; [done|].
      cbn [contents]. rewrite map_app, concat_app. cbn. by rewrite Permutation_app_comm.
    + eexists NXT_ERROR, None, _, (S k). split; [done|]. split; [lia|]. split; [done|].
      split; [done|]. apply chain_no_match; [done|]. right. split_and!; [done|done|].
      exists k. split; [lia|done].
  - assert (Hc1 : chain = [b]).
    { cbn in H1. destruct chain as [|b' [|]]; [done|by injection Elast as ->|].
      cbn in H1. assert (Some sh <> Some 0) by congruence. specialize (H1 H). lia. }
    subst chain. rewrite Forall_singleton in Hfull.
    destruct Hshifts as [?|[Hsh Hshifts]]; [done|].
    unfold abind. destruct (convert_ok nlvl sh rest before b k Hsh Hbefore Hend Hfull)
      as ([[s|] k1] & -> & Hk1 & Hr); cbn [fst snd obind aret] in *.
    + destruct Hr as (lvl & count & -> & Hs & Hp).
      destruct (Hlev lvl count k1 Hs) as (rc & v & s' & k' & -> & Hk' & Hs' & Hnn & Hi).
      exists rc, v, s', k'. split; [done|]. split; [lia|]. split; [done|]. split; [done|].
      cbn [map concat] in Hn. rewrite app_nil_r in Hn.
      destruct Hi as [(old & R & Hold & Ht & _)|(_ & -> & Hi)].
      * exfalso. rewrite Hp in Hold. specialize (Hn old). rewrite Hold in Hn.
        rewrite Hn in Ht; [done|]. apply elem_of_cons. by left.
      * apply chain_no_match; cbn [map concat]; rewrite app_nil_r; [done|].
        rewrite Hp in Hi. destruct Hi as [Hi|(-> & Hi & Hf)]; [by left|right].
        split_and!; [done|done|]. by eapply failed_mono; [| |exact Hf].
    + eexists NXT_ERROR, None, _, k1. split; [done|]. split; [lia|]. split; [done|].
      split; [done|]. apply chain_no_match; [done|]. by right.
Qed.

Lemma bucket_insert_ok q lev nlvl shifts before (chain : list (bucket V)) k :
  (0 < bucket_end p)%nat -> shifts_ok shifts -> chain_ok p shifts chain ->
  foldr Z.add 0 (take nlvl (shift p)) = before ->
  (forall lvl count k, slot_ok p shifts before (Level lvl count) ->
     insert_post q shifts before (Level lvl count) (lev (Level lvl count) k) k) ->
  insert_post q shifts before (Buckets chain) (bucket_insert alloc p q lev nlvl shifts chain k) k.
Proof.
  intros Hend Hshifts Hok Hbefore Hlev. pose proof Hok as (Hne & Hbs & H1).
  unfold bucket_insert. unfold abind at 1. unfold alift at 1.
  destruct (chain_search_ok p (key_hash q) (test q) chain 0 Full Hne Hbs)
    as [(i & j & x & b & -> & Hi & Hj & Ht)|(r & -> & Hn & Hr)]; cbn [obind Nat.add].
  - pose proof (Forall_lookup_1 _ _ _ _ Hbs Hi) as Hb.
    destruct (replace_entry_ok b j (q_value q) x (key_hash q) Hb Hj) as [Hb' (R & HR & HR')].
    destruct (concat_insert_perm (fun b => valid (cells b)) chain i b
                (replace_entry b j (q_value q)) Hi) as (R2 & HC & HC').
    destruct (replace q) eqn:Er; eexists _, _, _, k; (split; [done|]); (split; [lia|]).
    + split; [by apply slot_ok_buckets; eapply chain_ok_alter|]. split; [done|].
      left. exists x, (R ++ R2). rewrite Er. cbn [contents]. rewrite HC, HR.
      split_and!; [done|done|done|done|].
      rewrite (alter_insert _ _ _ _ Hi), HC', HR'. done.
    + split; [by apply slot_ok_buckets|]. split; [done|].
      left. exists x, (R ++ R2). rewrite Er. cbn [contents]. by rewrite HC, HR.
  - destruct r as [| i j|]; [done| |].
    + destruct Hr as (i' & b & -> & Hi & Hv). cbn [Nat.add].
      pose proof (Forall_lookup_1 _ _ _ _ Hbs Hi) as Hb.
      destruct (add_entry_ok p b j (q_value q) (key_hash q) Hb Hv) as [Hb' Hp].
      destruct (concat_insert_perm (fun b => valid (cells b)) chain i' b
                  (add_entry b j (q_value q) (key_hash q)) Hi) as (R2 & HC & HC').
      eexists _, _, _, k. split; [done|]. split; [lia|].
      split; [by apply slot_ok_buckets; eapply chain_ok_alter|]. split; [done|].
      apply chain_no_match; [done|]. left. split; [done|]. cbn [contents].
      rewrite (alter_insert _ _ _ _ Hi), HC', Hp, HC. done.
    + by apply bucket_insert_full.
Qed.

Lemma foldr_fusion_add (l : list Z) a : foldr Z.add a l = foldr Z.add 0 l + a.
Proof. induction l as [|x l IH]; cbn; lia. Qed.

(** An insertion into a child is an insertion into the level. *)
Lemma level_inserted q sh rest before (lvl : list (slot V)) count c rc v c' k k' :
  slot_ok p (sh :: rest) before (Level lvl count) ->
  lvl !! level_index sh (Z.shiftr (key_hash q) before) = Some c ->
  slot_ok p rest (before + sh) c' -> inserted q c rc v c' k k' -> nz c <= nz c' ->
  let s' := Level (<[level_index sh (Z.shiftr (key_hash q) before) := c']> lvl)
              (count - nz c + nz c') in
  slot_ok p (sh :: rest) before s' /\ inserted q (Level lvl count) rc v s' k k'.
Proof.
  intros Hok Hi Hc' Hins Hnz s'. set (i := level_index sh (Z.shiftr (key_hash q) before)) in *.
  pose proof Hok as (_ & _ & _ & Hpos & Hch). destruct (Hch i c Hi) as [_ Hk].
  destruct (concat_insert_perm contents lvl i c c' Hi) as (R & HR & HR'). split.
  - eapply level_update; [done|done|done| |done|lia]. intros kh x Hx.
    destruct Hins as [(old & R' & Hp & _ & _ & Hr)|(_ & _ & [[_ Hp]|(_ & Hp & _)])].
    + destruct (replace q); [destruct Hr as [_ Hp']|destruct Hr as [_ ->]; by eapply Hk].
      rewrite Hp' in Hx. apply elem_of_cons in Hx as [[= -> _]|Hx]; [done|].
      eapply Hk. rewrite Hp. apply elem_of_cons. by right.
    + rewrite Hp in Hx. apply elem_of_cons in Hx as [[= -> _]|Hx]; [done|by eapply Hk].
    + rewrite Hp in Hx. by eapply Hk.
  - destruct Hins as [(old & R' & Hp & Ht & Hv & Hr)|(Hn & Hv & Hr)].
    + left. exists old, (R' ++ R). cbn [contents]. rewrite HR, Hp. split_and!; [done|done|done|].
      destruct (replace q); destruct Hr as [Hrc Hr]; (split; [done|]).
      * cbn [contents s']. by rewrite HR', Hr.
      * unfold s'. rewrite Hr, list_insert_id by done. f_equal. lia.
    + right. split; [|split; [done|]].
      * intros x Hx. apply Hn. by eapply level_here.
      * cbn [contents s']. destruct Hr as [[Hrc Hp]|(Hrc & Hp & Hf)]; rewrite HR', HR, Hp; [by left|].
        by right.
Qed.

(** A free slot receives a new bucket. *)
Lemma new_inserted q k :
  if alloc k then inserted q Null NXT_OK None (Buckets [fresh_bucket (q_value q) (key_hash q)]) k (S k)
  else inserted q Null NXT_ERROR None Null k (S k).
Proof.
  destruct (alloc k) eqn:Ea; right; (split; [intros x Hx; by apply elem_of_nil in Hx|]);
    (split; [done|]); [by left|right].
  split_and!; [done|done|]. exists k. split; [lia|done].
Qed.

Lemma new_slot_ok (q : query (V := V)) shifts before :
  (0 < bucket_end p)%nat -> slot_ok p shifts before (Buckets [fresh_bucket (q_value q) (key_hash q)]).
Proof.
  intros Hend. apply slot_ok_buckets. split_and!; [done| |done].
  constructor; [by apply fresh_bucket_ok|constructor].
Qed.

Lemma level_insert_post q sh rest before (lvl : list (slot V)) count c (m : Alloc result) k :
  slot_ok p (sh :: rest) before (Level lvl count) ->
  lvl !! level_index sh (Z.shiftr (key_hash q) before) = Some c ->
  insert_post q rest (before + sh) c (m k) k ->
  insert_post q (sh :: rest) before (Level lvl count)
    ((let! (rc, v, child) := m in
      aret (rc, v, Level (<[level_index sh (Z.shiftr (key_hash q) before) := child]> lvl) count)) k) k.
Proof.
  intros Hok Hi (rc & v & c' & k' & Hm & Hk & Hc' & Hnull & Hins).
  unfold abind. rewrite Hm. cbn [obind].
  assert (Hz : nz c' = nz c) by (unfold nz; by rewrite Hnull).
  destruct (level_inserted q sh rest before lvl count c rc v c' k k' Hok Hi Hc' Hins) as [Hs Hi']; [lia|].
  replace (count - nz c + nz c') with count in * by lia.
  by eexists rc, v, _, k'.
Qed.

Lemma level_insert_ok q shifts : (0 < bucket_end p)%nat ->
  forall pre before (lvl : list (slot V)) count k,
  shift p = pre ++ shifts -> foldr Z.add 0 pre = before -> 0 <= before -> shifts_ok shifts ->
  slot_ok p shifts before (Level lvl count) ->
  insert_post q shifts before (Level lvl count)
    (level_insert alloc p q (length pre) shifts (Z.shiftr (key_hash q) before) (Level lvl count) k) k.
Proof.
  intros Hend. induction shifts as [|sh rest IH]; intros pre before lvl count k Hpre Hb Hb0 Hss Hok; [done|].
  destruct (level_child p _ _ _ _ _ (Z.shiftr (key_hash q) before) Hok) as (c & Hi & Hc).
  pose proof (proj1 Hok) as Hsh. destruct Hss as [?|[_ Hss]]; [lia|].
  cbn [level_insert]. unfold abind at 1. unfold alift at 1. rewrite Hi. cbn [of_option obind].
  assert (Hpre' : shift p = (pre ++ [sh]) ++ rest) by (by rewrite <- app_assoc).
  assert (Hsum : foldr Z.add 0 (pre ++ [sh]) = before + sh).
  { rewrite foldr_app. cbn. rewrite <- Hb, foldr_fusion_add. lia. }
  assert (IH' : forall lvl count k, slot_ok p rest (before + sh) (Level lvl count) ->
    insert_post q rest (before + sh) (Level lvl count)
      (level_insert alloc p q (S (length pre)) rest (Z.shiftr (Z.shiftr (key_hash q) before) sh)
         (Level lvl count) k) k).
  { intros lvl' count' k' Hok'. rewrite find_shift by lia.
    replace (S (length pre)) with (length (pre ++ [sh])) by (rewrite length_app; cbn; lia).
    apply IH; [done|done|lia|done|done]. }
  destruct c as [|chain|lvl' count'].
  - unfold abind. rewrite new_bucket_run. cbn [obind aret].
    pose proof (new_inserted q k) as Hn. destruct (alloc k) eqn:Ea.
    + destruct (level_inserted q sh rest before lvl count Null NXT_OK None _ k (S k) Hok Hi
        (new_slot_ok q rest (before + sh) Hend) Hn) as [Hs Hi']; [cbn; lia|].
      replace (count - nz (V := V) Null + nz (Buckets [fresh_bucket (q_value q) (key_hash q)]))
        with (count + 1) in * by (cbn; lia).
      eexists _, _, _, _. split; [done|]. split; [lia|]. done.
    + destruct (level_inserted q sh rest before lvl count Null NXT_ERROR None _ k (S k) Hok Hi
        Hc Hn) as [Hs Hi']; [cbn; lia|].
      rewrite list_insert_id, Z.sub_add in * by done.
      eexists _, _, _, _. split; [done|]. split; [lia|]. done.
  - apply (level_insert_post q sh rest before lvl count (Buckets chain)); [done|done|].
    apply slot_ok_buckets in Hc. apply bucket_insert_ok; [done|done|done| |done].
    rewrite Hpre'. replace (S (length pre)) with (length (pre ++ [sh])) by (rewrite length_app; cbn; lia).
    by rewrite take_app_length.
  - apply (level_insert_post q sh rest before lvl count (Level lvl' count')); [done|done|].
    by apply IH'.
Qed.

Lemma insert_ok q (s : slot V) k :
  (0 < bucket_end p)%nat -> shifts_ok (shift p) -> slot_ok p (shift p) 0 s ->
  exists rc v s' k', nxt_lvlhsh_insert alloc p q s k = Ret ((rc, v, s'), k')
    /\ (k <= k')%nat /\ slot_ok p (shift p) 0 s' /\ inserted q s rc v s' k k'.
Proof.
  intros Hend Hss Hok. destruct s as [|chain|lvl count]; cbn [nxt_lvlhsh_insert].
  - unfold abind. rewrite new_bucket_run. cbn [obind aret]. pose proof (new_inserted q k) as Hn.
    destruct (alloc k); eexists _, _, _, _; (split; [done|]); (split; [lia|]); (split; [|done]).
    + by apply new_slot_ok.
    + apply slot_ok_null.
  - apply slot_ok_buckets in Hok.
    destruct (bucket_insert_ok q (level_insert alloc p q 0 (shift p) (key_hash q)) 0 (shift p) 0 chain k)
      as (rc & v & s' & k' & ? & ? & ? & _ & ?); [done|done|done|done| |by eexists rc, v, s', k'].
    intros lvl count k' Hl. by apply (level_insert_ok q (shift p) Hend [] 0 lvl count k').
  - destruct (level_insert_ok q (shift p) Hend [] 0 lvl count k)
      as (rc & v & s' & k' & ? & ? & ? & _ & ?); [done..|by eexists rc, v, s', k'].
Qed.

End Insertion.

(** ** Iteration *)

Section Iteration.
  Context {V : Type} (p : proto).

Abbreviation values l := (map snd l).

(** The paths of a level, whose bits are [before .. before + sh - 1]. *)
Lemma path_slot cur before sh :
  0 <= before -> 0 <= sh ->
  Z.land (Z.shiftr cur before) (Z.shiftl 1 sh - 1) = (cur / 2 ^ before) mod 2 ^ sh.
Proof. intros Hb Hs. by rewrite mask_ones, Z.land_ones, Z.shiftr_div_pow2. Qed.

Lemma path_low cur before sh :
  0 <= before -> 0 <= sh -> 0 <= cur < 2 ^ (before + sh) ->
  Z.land cur (Z.lnot (Z.shiftl (Z.ones sh) before)) = cur mod 2 ^ before.
Proof.
  intros Hb Hs Hc. rewrite <- Z.land_ones by done. apply Z.bits_inj'. intros i Hi.
  rewrite !Z.land_spec, Z.lnot_spec, Z.shiftl_spec, (Z.testbit_ones_nonneg before) by lia.
  destruct (Z.lt_ge_cases i before) as [Hlt|Hge].
  - rewrite (Z.testbit_neg_r (Z.ones sh)), (proj2 (Z.ltb_lt i before)) by lia. done.
  - rewrite (proj2 (Z.ltb_ge i before)) by lia.
    destruct (Z.lt_ge_cases i (before + sh)) as [Hlt'|Hge'].
    + rewrite Z.testbit_ones_nonneg, (proj2 (Z.ltb_lt (i - before) sh)) by lia. done.
    + by rewrite (proj1 (Z.bounded_iff_bits_nonneg' (before + sh) cur ltac:(lia) (proj1 Hc)) Hc i Hge').
Qed.

Lemma next_path cur before sh n :
  0 <= before -> 0 < sh -> before + sh <= 32 -> 0 <= n < 2 ^ sh ->
  let cur' := cur mod 2 ^ before + n * 2 ^ before in
  0 <= cur' < 2 ^ 32 /\ cur' mod 2 ^ before = cur mod 2 ^ before /\ cur' / 2 ^ before = n.
Proof.
  intros Hb Hs Hbits Hn cur'. pose proof (Z.mod_pos_bound cur (2 ^ before) ltac:(lia)) as Hl.
  unfold cur'. rewrite Z.mod_add, Z.mod_mod, Z.div_add, Z.div_small by lia. split; [|lia].
  assert (2 ^ before * 2 ^ sh <= 2 ^ 32)
    by (rewrite <- Z.pow_add_r by lia; apply Z.pow_le_mono_r; lia). nia.
Qed.

Lemma next_current_ok cur before sh n :
  0 <= before -> 0 < sh -> before + sh <= 32 -> 0 <= cur < 2 ^ (before + sh) -> 0 <= n < 2 ^ sh ->
  next_current cur before (Z.shiftl 1 sh - 1) n
  = (cur mod 2 ^ before + ((n + 1) mod 2 ^ sh) * 2 ^ before, ((n + 1) mod 2 ^ sh) * 2 ^ before).
Proof.
  intros Hb Hs Hbits Hc Hn. unfold next_current.
  rewrite mask_ones, path_low, Z.land_ones by lia.
  pose proof (Z.mod_pos_bound (n + 1) (2 ^ sh) ltac:(lia)) as Hm.
  pose proof (Z.mod_pos_bound cur (2 ^ before) ltac:(lia)) as Hl.
  rewrite Z.lor_comm, lor_shiftl, Z.shiftl_mul_pow2 by lia.
  f_equal. rewrite Z.add_comm. apply Z.mod_small.
  by apply (next_path cur before sh).
Qed.

(** What is left of the buckets the iterator is in. *)
Definition bucket_rest (eb : each_bucket (V := V)) (entry : nat) : list V :=
  match eb with
  | BucketAt b next => values (valid (drop entry (cells b)) ++ chain_contents next)
  | _ => []
  end.

Definition bucket_state (e : each (V := V)) : Prop :=
  match e_bucket e with
  | NoBucket => False
  | BucketDone => True
  | BucketAt b next =>
    e_entries e = length (valid (drop (e_entry e) (cells b))) /\ (0 < e_entries e)%nat
    /\ Forall (bucket_ok p) next
  end.

Lemma bucket_each_ok (e : each (V := V)) :
  bucket_state e -> e_bucket e <> BucketDone ->
  exists x e', bucket_each e = Ret (x, e') /\ e_current e' = e_current e /\ bucket_state e'
    /\ bucket_rest (e_bucket e) (e_entry e) = x :: bucket_rest (e_bucket e') (e_entry e').
Proof.
  unfold bucket_state, bucket_each. destruct e as [[| |b next] cur j n]; [done|done|].
  cbn [e_bucket e_current e_entry e_entries]. intros (Hn & Hpos & Hnext) _.
  destruct (first_valid_ok (drop j (cells b)) j) as (i & x & k & -> & Hi & t & Ht & Hd).
  { intros E. rewrite E in Hn. cbn in Hn. lia. }
  rewrite drop_drop in Hd. rewrite Ht in Hn. cbn [length] in Hn. cbn [obind].
  cbn [bucket_rest]. rewrite Ht. destruct n as [|[|n]]; [lia| |].
  - assert (t = []) as -> by (apply nil_length_inv; lia).
    destruct next as [|b' next'].
    + eexists x, _. split; [done|]. done.
    + inversion_clear Hnext as [|? ? (He & H0 & _) Hn'].
      eexists x, _. split; [done|]. split; [done|]. cbn. rewrite drop_0. done.
  - eexists x, _. split; [done|]. split; [done|]. cbn [e_bucket e_entry e_entries bucket_rest].
    rewrite Nat.add_succ_r in Hd. rewrite Hd. split; [|done]. split_and!; [lia|lia|done].
Qed.

(** The path of the iterator ends in the slot of a bucket, and the bits that
    follow are zero. *)
Fixpoint on_bucket (shifts : list Z) (path : Z) (s : slot V) : Prop :=
  match s, shifts with
  | Buckets _, _ => path = 0
  | Level lvl _, sh :: rest =>
    match lvl !! Z.to_nat (path mod 2 ^ sh) with
    | Some c => on_bucket rest (path / 2 ^ sh) c
    | None => False
    end
  | _, _ => False
  end.

(** The values of the slots after the one of the path. *)
Fixpoint after (shifts : list Z) (path : Z) (s : slot V) : list V :=
  match s, shifts with
  | Level lvl _, sh :: rest =>
    let n := Z.to_nat (path mod 2 ^ sh) in
    (match lvl !! n with Some c => after rest (path / 2 ^ sh) c | None => [] end)
    ++ values (concat (map contents (drop (S n) lvl)))
  | _, _ => []
  end.

(** The result of an iteration step in a slot at bit [before]: the next value
    of [l], or none and a path of zeroes. *)
Definition each_post (shifts : list Z) (before : Z) (s : slot V) (cur : Z) (l : list V)
    (r : outcome (option V * each (V := V))) : Prop :=
  exists o e', r = Ret (o, e') /\ 0 <= e_current e' < 2 ^ 32
  /\ e_current e' mod 2 ^ before = cur mod 2 ^ before
  /\ match o with
     | Some x => bucket_state e' /\ on_bucket shifts (e_current e' / 2 ^ before) s
         /\ l = x :: bucket_rest (e_bucket e') (e_entry e')
                  ++ after shifts (e_current e' / 2 ^ before) s
     | None => l = [] /\ e_bucket e' = NoBucket /\ e_current e' / 2 ^ before = 0
     end.

Lemma path_eq x y before sh :
  0 <= before -> 0 <= sh -> x mod 2 ^ (before + sh) = y mod 2 ^ (before + sh) ->
  x mod 2 ^ before = y mod 2 ^ before /\ (x / 2 ^ before) mod 2 ^ sh = (y / 2 ^ before) mod 2 ^ sh.
Proof.
  intros Hb Hs. rewrite Z.pow_add_r, !Z.rem_mul_r by lia.
  pose proof (Z.mod_pos_bound x (2 ^ before) ltac:(lia)).
  pose proof (Z.mod_pos_bound y (2 ^ before) ltac:(lia)). intros E.
  edestruct (Z.div_mod_unique (2 ^ before)) as [Hq Hr]; [left; exact H|left; exact H0| |by split].
  rewrite (Z.add_comm (_ * _)), (Z.add_comm (2 ^ before * ((y / _) mod _))). exact E.
Qed.

Lemma path_div x before sh : 0 <= before -> 0 <= sh -> x / 2 ^ before / 2 ^ sh = x / 2 ^ (before + sh).
Proof. intros Hb Hs. by rewrite Z.pow_add_r, Z.div_div by lia. Qed.

(** One slot of a level: its values, then those of the loop from the next. *)
Lemma loop_step rec sh rest before (lvl : list (slot V)) count fuel (e : each (V := V)) c l :
  0 <= before -> 0 < sh -> before + sh <= 32 -> length lvl = Z.to_nat (2 ^ sh) ->
  let n := (e_current e / 2 ^ before) mod 2 ^ sh in
  lvl !! Z.to_nat n = Some c ->
  each_post rest (before + sh) c (e_current e) l (slot_each rec c e) ->
  (forall e', n + 1 < 2 ^ sh -> e_bucket e' = NoBucket -> 0 <= e_current e' < 2 ^ 32 ->
     e_current e' mod 2 ^ before = e_current e mod 2 ^ before ->
     e_current e' / 2 ^ before = n + 1 ->
     each_post (sh :: rest) before (Level lvl count) (e_current e)
       (values (concat (map contents (drop (S (Z.to_nat n)) lvl))))
       (level_loop rec lvl before sh fuel e')) ->
  each_post (sh :: rest) before (Level lvl count) (e_current e)
    (l ++ values (concat (map contents (drop (S (Z.to_nat n)) lvl))))
    (level_loop rec lvl before sh (S fuel) e).
Proof.
  intros Hb Hs Hbits Hlen n Hi (o & e' & Hr & Hcur & Hmod & Ho) Hnext.
  destruct (path_eq _ _ _ _ Hb (Z.lt_le_incl _ _ Hs) Hmod) as [Hlow Hn].
  cbn [level_loop]. rewrite path_slot by lia. fold n. fold n in Hn. rewrite Hi. cbn [of_option obind].
  rewrite Hr. cbn [obind]. pose proof (Z.mod_pos_bound (e_current e / 2 ^ before) (2 ^ sh) ltac:(lia)) as Hnb.
  fold n in Hnb. destruct o as [x|].
  - destruct Ho as (Hst & Hon & ->). exists (Some x), e'. split_and!; [done|lia|lia|done|done| |].
    + cbn [on_bucket]. by rewrite Hn, Hi, path_div by lia.
    + cbn [after app]. by rewrite Hn, Hi, path_div, <- app_assoc by lia.
  - destruct Ho as (-> & Hnb' & Hz). rewrite <- path_div in Hz by lia.
    assert (Hc' : 0 <= e_current e' < 2 ^ (before + sh)).
    { rewrite path_div in Hz by lia. apply Z.div_small_iff in Hz; lia. }
    rewrite next_current_ok by lia.
    destruct (Z.eq_dec (n + 1) (2 ^ sh)) as [Hw|Hw].
    + rewrite Hw, Z.mod_same, Z.mul_0_l by lia. cbn [Z.eqb].
      rewrite drop_ge by lia. cbn [map concat app].
      destruct (next_path (e_current e') before sh 0) as (Hp1 & Hp2 & Hp3); [lia..|].
      rewrite Z.mul_0_l in Hp1, Hp2, Hp3.
      eexists None, _. split; [done|]. cbn [e_current e_bucket]. split_and!; [lia|lia|lia|done|done|done].
    + rewrite Z.mod_small by lia. rewrite (proj2 (Z.eqb_neq _ 0)) by nia.
      destruct (next_path (e_current e') before sh (n + 1)) as (Hp1 & Hp2 & Hp3); [lia..|].
      apply Hnext; cbn [e_current e_bucket]; [lia|done|lia|lia|lia].
Qed.

Definition start_post rest before (rec : slot V -> each (V := V) -> outcome (option V * each)) : Prop :=
  forall lvl count e, slot_ok p rest before (Level lvl count) -> e_bucket e = NoBucket ->
    0 <= e_current e < 2 ^ 32 -> e_current e / 2 ^ before = 0 ->
    each_post rest before (Level lvl count) (e_current e) (values (contents (Level lvl count)))
      (rec (Level lvl count) e).

(** A slot from its beginning. *)
Lemma slot_each_start rec rest before c (e : each (V := V)) :
  start_post rest before rec -> slot_ok p rest before c -> e_bucket e = NoBucket ->
  0 <= e_current e < 2 ^ 32 -> e_current e / 2 ^ before = 0 ->
  each_post rest before c (e_current e) (values (contents c)) (slot_each rec c e).
Proof.
  intros Hrec Hc He Hcur Hz. destruct c as [|chain|lvl count]; cbn [slot_each].
  - exists None, e. done.
  - rewrite He. apply slot_ok_buckets in Hc as (Hne & Hbs & _).
    destruct chain as [|b next]; [done|]. apply Forall_cons in Hbs as [(Hen & H0 & _) Hbs'].
    destruct (bucket_each_ok (Each (BucketAt b next) (e_current e) 0 (entries b)))
      as (x & e' & -> & Hc' & Hst & Hrest); [cbn; by rewrite drop_0|done|].
    cbn [obind]. cbn [e_current e_bucket e_entry] in *.
    exists (Some x), e'. rewrite Hc', Hz. split_and!; [done|lia|lia|done|done|by destruct rest|].
    cbn [bucket_rest contents map concat] in *. rewrite drop_0 in Hrest. rewrite Hrest.
    destruct rest; by rewrite app_nil_r.
  - by apply Hrec.
Qed.

(** The slots of a level from a given one on. *)
Lemma loop_start rec sh rest before (lvl : list (slot V)) count :
  0 <= before -> before + sh <= 32 -> slot_ok p (sh :: rest) before (Level lvl count) ->
  start_post rest (before + sh) rec ->
  forall fuel (e : each (V := V)), e_bucket e = NoBucket -> 0 <= e_current e < 2 ^ 32 ->
  (length lvl <= fuel + Z.to_nat (e_current e / 2 ^ before))%nat ->
  0 <= e_current e / 2 ^ before < 2 ^ sh ->
  each_post (sh :: rest) before (Level lvl count) (e_current e)
    (values (concat (map contents (drop (Z.to_nat (e_current e / 2 ^ before)) lvl))))
    (level_loop rec lvl before sh fuel e).
Proof.
  intros Hb Hbits Hok Hrec. pose proof Hok as (Hsh & Hlen & _ & _ & Hch).
  induction fuel as [|fuel IH]; intros e He Hcur Hf Hn; [lia|].
  pose proof (Z.mod_small _ _ Hn) as Hsmall.
  destruct (lookup_lt_is_Some_2 lvl (Z.to_nat (e_current e / 2 ^ before))) as [c Hi]; [lia|].
  rewrite (drop_S _ c _ Hi). cbn [map concat]. rewrite map_app. rewrite <- Hsmall in Hi |- *.
  apply loop_step with (c := c); [done|done|done|done|done| |].
  - apply slot_each_start; [done|by apply (Hch _ _ Hi)|done|done|].
    rewrite <- path_div by lia. by apply Z.div_small.
  - intros e' Hlt He' Hcur' Hmod Hdiv. rewrite Hsmall in *.
    specialize (IH e' He' Hcur'). rewrite Hdiv in IH.
    replace (Z.to_nat (e_current e / 2 ^ before + 1)) with (S (Z.to_nat (e_current e / 2 ^ before))) in IH by lia.
    destruct IH as (o & e'' & Hr & Hc'' & Hm & Ho); [lia|lia|].
    exists o, e''. rewrite <- Hmod. done.
Qed.

Lemma level_start shifts : forall before,
  0 <= before -> before + foldr Z.add 0 shifts <= 32 -> Forall (Z.le 0) shifts ->
  start_post shifts before (level_each shifts before).
Proof.
  induction shifts as [|sh rest IH]; intros before Hb Hbits Hpos lvl count e Hok He Hcur Hz; [done|].
  inversion_clear Hpos as [|? ? Hsh Hrest]. cbn [foldr] in Hbits.
  assert (0 <= foldr Z.add 0 rest) by (clear -Hrest; induction Hrest; cbn; lia).
  cbn [level_each contents].
  pose proof (loop_start (level_each rest (before + sh)) sh rest before lvl count Hb ltac:(lia) Hok) as L.
  specialize (L (IH (before + sh) ltac:(lia) ltac:(lia) Hrest) (length lvl) e He Hcur).
  rewrite Hz in L. apply L; lia.
Qed.

(** A level after the bucket of the path. *)
Lemma level_resume shifts : forall before (lvl : list (slot V)) count (e : each (V := V)),
  0 <= before -> before + foldr Z.add 0 shifts <= 32 -> Forall (Z.le 0) shifts ->
  slot_ok p shifts before (Level lvl count) -> e_bucket e = BucketDone ->
  0 <= e_current e < 2 ^ 32 -> on_bucket shifts (e_current e / 2 ^ before) (Level lvl count) ->
  each_post shifts before (Level lvl count) (e_current e)
    (after shifts (e_current e / 2 ^ before) (Level lvl count))
    (level_each shifts before (Level lvl count) e).
Proof.
  induction shifts as [|sh rest IH]; intros before lvl count e Hb Hbits Hpos Hok He Hcur Hon; [done|].
  inversion_clear Hpos as [|? ? Hsh Hrest]. cbn [foldr] in Hbits.
  assert (0 <= foldr Z.add 0 rest) by (clear -Hrest; induction Hrest; cbn; lia).
  pose proof Hok as (Hsh' & Hlen & _ & _ & Hch). cbn [level_each on_bucket after] in *.
  set (n := (e_current e / 2 ^ before) mod 2 ^ sh) in *.
  assert (Hn : 0 <= n < 2 ^ sh) by (apply Z.mod_pos_bound; lia).
  destruct (lvl !! Z.to_nat n) as [c|] eqn:Hi; [|done]. destruct (Hch _ _ Hi) as [Hc _].
  rewrite path_div in * by lia.
  destruct (length lvl) as [|fuel] eqn:El; [lia|].
  apply loop_step with (c := c); [done|done|lia|lia|done| |].
  - destruct c as [|chain|lvl' count']; cbn [slot_each].
    + by destruct rest.
    + rewrite He. eexists None, _. split; [done|]. cbn [e_current e_bucket].
      split_and!; [lia|lia|done|by destruct rest|done|by destruct rest].
    + apply IH; [lia|lia|done|done|done|done|done].
  - intros e' Hlt He' Hcur' Hmod Hdiv. fold n in Hlt, Hdiv |- *.
    pose proof (loop_start (level_each rest (before + sh)) sh rest before lvl count Hb ltac:(lia) Hok
      (level_start rest (before + sh) ltac:(lia) ltac:(lia) Hrest) fuel e' He' Hcur') as L.
    rewrite Hdiv in L. replace (Z.to_nat (n + 1)) with (S (Z.to_nat n)) in L by lia.
    destruct L as (o & e'' & Hr & Hc'' & Hm & Ho); [lia|lia|].
    exists o, e''. rewrite <- Hmod. done.
Qed.

(** The bits of all the levels fit the path of the iterator. *)
Definition bits_ok : Prop := Forall (Z.le 0) (shift p) /\ foldr Z.add 0 (shift p) <= 32.

(** An iterator in the middle of a hash, and the values it has left. *)
Definition each_ok (s : slot V) (e : each (V := V)) : Prop :=
  bucket_state e /\ 0 <= e_current e < 2 ^ 32 /\ on_bucket (shift p) (e_current e) s.

Definition left_of (s : slot V) (e : each (V := V)) : list V :=
  bucket_rest (e_bucket e) (e_entry e) ++ after (shift p) (e_current e) s.

Definition step_post (s : slot V) (l : list V) (r : outcome (option V * each (V := V))) : Prop :=
  exists o e', r = Ret (o, e')
  /\ match o with Some x => each_ok s e' /\ l = x :: left_of s e' | None => l = [] end.

Lemma each_post_step s cur l r : each_post (shift p) 0 s cur l r -> step_post s l r.
Proof.
  intros (o & e' & Hr & Hcur & _ & Ho). exists o, e'. split; [done|]. rewrite Z.div_1_r in Ho.
  destruct o as [x|]; [|by apply Ho]. by destruct Ho as (? & ? & ?).
Qed.

Lemma each_step s (e : each (V := V)) :
  bits_ok -> slot_ok p (shift p) 0 s -> each_ok s e ->
  step_post s (left_of s e) (nxt_lvlhsh_each p s e).
Proof.
  intros [Hpos Hbits] Hok (Hst & Hcur & Hon). unfold nxt_lvlhsh_each, left_of.
  destruct (e_bucket e) as [| |b next] eqn:Eb.
  - unfold bucket_state in Hst. by rewrite Eb in Hst.
  - cbn [bucket_rest app]. destruct s as [|chain|lvl count].
    + by destruct (shift p).
    + exists None, e. split; [done|]. by destruct (shift p).
    + apply each_post_step with (cur := e_current e).
      pose proof (level_resume (shift p) 0 lvl count e ltac:(lia) ltac:(lia) Hpos Hok Eb Hcur) as L.
      rewrite Z.div_1_r in L. by apply L.
  - destruct (bucket_each_ok e Hst) as (x & e' & -> & Hc & Hst' & Hr); [by rewrite Eb|].
    cbn [obind]. exists (Some x), e'. split; [done|]. unfold each_ok, left_of. rewrite Hc.
    split; [done|]. rewrite Eb in Hr. by rewrite Hr.
Qed.

Lemma each_first s :
  bits_ok -> slot_ok p (shift p) 0 s ->
  step_post s (values (contents s)) (nxt_lvlhsh_each p s nxt_lvlhsh_each_init).
Proof.
  intros [Hpos Hbits] Hok. apply each_post_step with (cur := 0).
  replace (nxt_lvlhsh_each p s nxt_lvlhsh_each_init)
    with (slot_each (level_each (shift p) 0) s nxt_lvlhsh_each_init) by (by destruct s).
  apply (slot_each_start _ (shift p) 0 s nxt_lvlhsh_each_init); [|done..].
  by apply level_start.
Qed.

Lemma each_loop_ok s : bits_ok -> slot_ok p (shift p) 0 s -> forall l fuel (e : each (V := V)),
  each_ok s e -> left_of s e = l -> (length l < fuel)%nat -> each_loop p fuel s e = Ret l.
Proof.
  intros Hbits Hok. induction l as [|y l IH]; intros fuel e He Hl Hf.
  all: destruct fuel as [|fuel]; [cbn in Hf; lia|]; cbn [each_loop].
  all: destruct (each_step s e Hbits Hok He) as (o & e' & -> & Ho); rewrite Hl in Ho; cbn [obind].
  - destruct o; [by destruct Ho|done].
  - destruct o as [x|]; [|done]. destruct Ho as [He' [= -> Hl']].
    rewrite (IH fuel e'); [done|done|done|cbn in Hf; lia].
Qed.

Lemma enumerate_ok (s : slot V) fuel :
  bits_ok -> slot_ok p (shift p) 0 s -> (length (contents s) < fuel)%nat ->
  each_loop p fuel s nxt_lvlhsh_each_init = Ret (values (contents s)).
Proof.
  intros Hbits Hok Hf. destruct fuel as [|fuel]; [lia|]. cbn [each_loop].
  destruct (each_first s Hbits Hok) as (o & e' & -> & Ho). cbn [obind].
  destruct o as [x|]; [|by rewrite Ho]. destruct Ho as [He' Hl]. rewrite Hl.
  apply (f_equal length) in Hl. rewrite length_map in Hl. cbn [length] in Hl.
  rewrite (each_loop_ok s Hbits Hok (left_of s e')); [done|done|done|lia].
Qed.

End Iteration.

(** ** Refinement of a finite map

    The values carry their keys, as the [test] functions of the callers rely
    on; the query has the hash of its key. *)

Section Refinement.
  Context {K V : Type} `{Countable K} (key_of : V -> K) (hash : K -> Z).
  Context (alloc : nat -> bool) (p : proto).

(** The [test] function of a query with key [k]. *)
Definition same_key (k : K) (x : V) : bool := bool_decide (key_of x = k).

Definition proto_ok : Prop := (0 < bucket_end p)%nat /\ shifts_ok (shift p).

Definition hashed (x : V) : Z * V := (hash (key_of x), x).

(** The hash holds the values of a finite map. *)
Definition rep (s : slot V) (m : gmap K V) : Prop :=
  slot_ok p (shift p) 0 s /\ contents s ≡ₚ map hashed (map_to_list m).*2
  /\ map_Forall (fun k x => key_of x = k) m.

Lemma rep_elem s m x : rep s m -> forall h, (h, x) ∈ contents s <-> m !! key_of x = Some x /\ h = hash (key_of x).
Proof.
  intros (_ & Hp & Hk) h. rewrite Hp, list_elem_of_fmap. unfold hashed. split.
  - intros (y & [= -> ->] & Hy). apply list_elem_of_fmap in Hy as ([k z] & -> & Hin).
    apply elem_of_map_to_list in Hin. cbn. by rewrite (Hk _ _ Hin).
  - intros [Hm ->]. exists x. split; [done|]. apply list_elem_of_fmap. exists (key_of x, x).
    split; [done|]. by apply elem_of_map_to_list.
Qed.

Lemma rep_found s m k r : rep s m -> found (hash k) (same_key k) (contents s) r -> r = m !! k.
Proof.
  intros Hrep Hf. pose proof Hrep as (_ & _ & Hk). destruct r as [x|].
  - destruct Hf as [Hx Ht]. apply (rep_elem s m x Hrep) in Hx as [Hm _].
    unfold same_key in Ht. apply bool_decide_eq_true in Ht. by subst.
  - destruct (m !! k) as [x|] eqn:Em; [|done]. pose proof (Hk _ _ Em) as Hkx. cbn in Hkx.
    specialize (Hf x). assert (Hin : (hash k, x) ∈ contents s).
    { apply (rep_elem s m x Hrep). by rewrite Hkx. }
    specialize (Hf Hin). unfold same_key in Hf. by rewrite bool_decide_eq_false in Hf.
Qed.

Lemma rep_insert (m : gmap K V) x l :
  m !! key_of x = None -> l ≡ₚ map hashed (map_to_list m).*2 ->
  hashed x :: l ≡ₚ map hashed (map_to_list (<[key_of x := x]> m)).*2.
Proof. intros Hm Hl. by rewrite (map_to_list_insert _ _ _ Hm), Hl. Qed.

(** Taking the value of a key out. *)
Lemma rep_delete (m : gmap K V) x l :
  m !! key_of x = Some x -> hashed x :: l ≡ₚ map hashed (map_to_list m).*2 ->
  l ≡ₚ map hashed (map_to_list (delete (key_of x) m)).*2.
Proof.
  intros Hm Hl. rewrite <- (map_to_list_delete _ _ _ Hm) in Hl. cbn in Hl. by apply Permutation_cons_inv in Hl.
Qed.

Lemma rep_empty : rep Null ∅.
Proof.
  split; [apply slot_ok_null|]. split; [by rewrite map_to_list_empty|]. apply map_Forall_empty.
Qed.

Lemma rep_find s m k :
  rep s m -> nxt_lvlhsh_find p (hash k) (same_key k) s = Ret (m !! k).
Proof.
  intros Hrep. destruct (find_ok p (hash k) (same_key k) s (proj1 Hrep)) as (r & -> & Hf).
  by rewrite (rep_found s m k r Hrep Hf).
Qed.

Lemma rep_deleted s m k :
  rep s m -> exists s', nxt_lvlhsh_delete p (hash k) (same_key k) s = Ret (m !! k, s')
    /\ rep s' (delete k m).
Proof.
  intros Hrep. pose proof Hrep as (Hok & Hp & Hk).
  destruct (delete_ok p (hash k) (same_key k) s Hok) as (r & s' & -> & Hok' & Hd).
  exists s'. destruct r as [x|].
  - destruct Hd as [Ht Hc]. apply bool_decide_eq_true in Ht. subst k.
    assert (Hm : m !! key_of x = Some x).
    { apply (rep_elem s m x Hrep (hash (key_of x))). rewrite Hc. apply elem_of_cons. by left. }
    rewrite Hm. split; [done|]. split; [done|]. split; [|by apply map_Forall_delete].
    apply rep_delete; [done|]. by rewrite <- Hp, Hc.
  - destruct Hd as [-> Hn]. rewrite <- (rep_found s m k None Hrep Hn). split; [done|].
    rewrite delete_id; [done|]. by rewrite <- (rep_found s m k None Hrep Hn).
Qed.

(** What an insertion of a value does to the map. *)
Definition map_insert (m : gmap K V) (x : V) (repl : bool) (rc : Z) (old : option V)
    (m' : gmap K V) (failed : Prop) : Prop :=
  old = m !! key_of x
  /\ match m !! key_of x with
     | Some _ => if repl then rc = NXT_OK /\ m' = <[key_of x := x]> m
                 else rc = NXT_DECLINED /\ m' = m
     | None => rc = NXT_OK /\ m' = <[key_of x := x]> m \/ rc = NXT_ERROR /\ m' = m /\ failed
     end.

Lemma map_Forall_insert_key (m : gmap K V) x :
  map_Forall (fun k x => key_of x = k) m ->
  map_Forall (fun k x => key_of x = k) (<[key_of x := x]> m).
Proof. intros Hk. by apply map_Forall_insert_2. Qed.

(** The [test] function only has to tell values of the same hash apart. *)
Lemma rep_inserted_test s m x test repl n :
  (forall y, m !! key_of y = Some y -> hash (key_of y) = hash (key_of x) -> test y = same_key (key_of x) y) ->
  proto_ok -> rep s m ->
  exists rc old s' m' n',
    nxt_lvlhsh_insert alloc p (Query x (hash (key_of x)) test repl) s n = Ret ((rc, old, s'), n')
    /\ (n <= n')%nat /\ rep s' m' /\ map_insert m x repl rc old m' (failed alloc n n').
Proof.
  intros Htest [Hend Hsh] Hrep. pose proof Hrep as (Hok & Hp & Hk).
  destruct (insert_ok alloc p (Query x (hash (key_of x)) test repl) s n Hend Hsh Hok)
    as (rc & old & s' & n' & -> & Hn & Hok' & Hi).
  exists rc, old, s'. destruct Hi as [(y & R & Hy & Ht & Hold & Hr)|(Hno & Hold & Hr)]; cbn in *.
  - assert (Hin : m !! key_of y = Some y /\ hash (key_of x) = hash (key_of y)).
    { apply (rep_elem s m y Hrep (hash (key_of x))). rewrite Hy. apply elem_of_cons. by left. }
    destruct Hin as [Hm Hh]. rewrite Htest in Ht by done. apply bool_decide_eq_true in Ht.
    unfold map_insert. rewrite <- Ht in Hy. rewrite Hy in Hp. apply rep_delete in Hp; [|done].
    rewrite Ht in Hm, Hp. rewrite Hm.
    destruct repl; destruct Hr as [-> Hr]; [|subst s'; by exists m, n'].
    exists (<[key_of x := x]> m), n'. split_and!; [done|done| |done|done|done]. split; [done|].
    rewrite Hr. split; [|by apply map_Forall_insert_key]. rewrite <- insert_delete_eq.
    apply (rep_insert (delete (key_of x) m) x R); [apply lookup_delete_eq|done].
  - assert (Hm : m !! key_of x = None).
    { rewrite <- (rep_found s m (key_of x) None Hrep); [done|]. intros y Hy. rewrite <- (Hno y Hy). symmetry.
      apply (rep_elem s m y Hrep) in Hy as [Hy Hh]. by apply Htest. }
    unfold map_insert. rewrite Hm. destruct Hr as [[-> Hr]|(-> & Hr & Hf)].
    + exists (<[key_of x := x]> m), n'. split_and!; [done|done| |done|by left]. split; [done|].
      rewrite Hr. split; [by apply rep_insert|by apply map_Forall_insert_key].
    + exists m, n'. split_and!; [done|done| |done|right; done]. split; [done|]. by rewrite Hr.
Qed.

Lemma rep_inserted s m x repl n :
  proto_ok -> rep s m ->
  exists rc old s' m' n',
    nxt_lvlhsh_insert alloc p (Query x (hash (key_of x)) (same_key (key_of x)) repl) s n
      = Ret ((rc, old, s'), n')
    /\ (n <= n')%nat /\ rep s' m' /\ map_insert m x repl rc old m' (failed alloc n n').
Proof. by apply rep_inserted_test. Qed.

Lemma rep_retrieved s m :
  rep s m -> exists r s', nxt_lvlhsh_peek p true s = Ret (r, s')
    /\ match r with
       | Some x => m !! key_of x = Some x /\ rep s' (delete (key_of x) m)
       | None => m = ∅ /\ rep s' m
       end.
Proof.
  intros Hrep. pose proof Hrep as (Hok & Hp & Hk).
  destruct (peek_ok p true s Hok) as (r & s' & -> & Hok' & Hr). exists r, s'. split; [done|].
  destruct r as [x|].
  - destruct Hr as (h & _ & Hc). assert (Hin : (h, x) ∈ contents s) by (rewrite Hc; apply elem_of_cons; by left).
    apply (rep_elem s m x Hrep) in Hin as [Hm ->]. split; [done|]. split; [done|].
    split; [|by apply map_Forall_delete]. apply rep_delete; [done|]. by rewrite <- Hp, Hc.
  - destruct Hr as [Hc ->]. split; [|done]. rewrite Hc in Hp. symmetry in Hp. apply Permutation_nil_r in Hp.
    apply map_to_list_empty_iff. destruct (map_to_list m) as [|[? ?] ?]; [done|done].
Qed.

(** *** Sequences of operations *)

Inductive op :=
| Find (k : K)
| Insert (x : V) (replace : bool)
| Delete (k : K)
| Retrieve.

(** The operations of a caller, with the return code and [lhq->value]. *)
Definition run_op (o : op) (s : slot V) : Alloc (Z * option V * slot V) :=
  match o with
  | Find k =>
    let! r := alift (nxt_lvlhsh_find p (hash k) (same_key k) s) in
    aret (if r then NXT_OK else NXT_DECLINED, r, s)
  | Insert x replace =>
    nxt_lvlhsh_insert alloc p (Query x (hash (key_of x)) (same_key (key_of x)) replace) s
  | Delete k =>
    let! (r, s) := alift (nxt_lvlhsh_delete p (hash k) (same_key k) s) in
    aret (if r then NXT_OK else NXT_DECLINED, r, s)
  | Retrieve =>
    let! (r, s) := alift (nxt_lvlhsh_peek p true s) in
    aret (if r then NXT_OK else NXT_DECLINED, r, s)
  end.

Fixpoint run (os : list op) (s : slot V) : Alloc (list (Z * option V) * slot V) :=
  match os with
  | [] => aret ([], s)
  | o :: os =>
    let! (rc, v, s) := run_op o s in
    let! (rs, s) := run os s in
    aret ((rc, v) :: rs, s)
  end.

(** The same operations on a finite map; [nomem] when memory can run out. *)
Inductive map_step (nomem : Prop) (m : gmap K V) : op -> Z * option V -> gmap K V -> Prop :=
| step_found k x : m !! k = Some x -> map_step nomem m (Find k) (NXT_OK, Some x) m
| step_absent k : m !! k = None -> map_step nomem m (Find k) (NXT_DECLINED, None) m
| step_add x r : m !! key_of x = None ->
    map_step nomem m (Insert x r) (NXT_OK, None) (<[key_of x := x]> m)
| step_nomem x r : m !! key_of x = None -> nomem ->
    map_step nomem m (Insert x r) (NXT_ERROR, None) m
| step_replace x y : m !! key_of x = Some y ->
    map_step nomem m (Insert x true) (NXT_OK, Some y) (<[key_of x := x]> m)
| step_keep x y : m !! key_of x = Some y ->
    map_step nomem m (Insert x false) (NXT_DECLINED, Some y) m
| step_delete k x : m !! k = Some x ->
    map_step nomem m (Delete k) (NXT_OK, Some x) (delete k m)
| step_no_delete k : m !! k = None -> map_step nomem m (Delete k) (NXT_DECLINED, None) m
| step_retrieve x : m !! key_of x = Some x ->
    map_step nomem m Retrieve (NXT_OK, Some x) (delete (key_of x) m)
| step_empty : m = ∅ -> map_step nomem m Retrieve (NXT_DECLINED, None) m.

Inductive map_run (nomem : Prop) : gmap K V -> list op -> list (Z * option V) -> gmap K V -> Prop :=
| run_nil m : map_run nomem m [] [] m
| run_cons m o r m' os rs m'' :
    map_step nomem m o r m' -> map_run nomem m' os rs m'' -> map_run nomem m (o :: os) (r :: rs) m''.

Definition nomem : Prop := exists i, alloc i = false.

Lemma run_op_ok o s m n :
  proto_ok -> rep s m ->
  exists rc v s' m' n', run_op o s n = Ret ((rc, v, s'), n') /\ rep s' m' /\ map_step nomem m o (rc, v) m'.
Proof.
  intros Hp Hrep. destruct o as [k|x r|k|]; cbn [run_op].
  - unfold abind, alift. rewrite (rep_find s m k Hrep). cbn [obind].
    eexists _, _, s, m, n. split; [done|]. split; [done|]. destruct (m !! k) eqn:E; by constructor.
  - destruct (rep_inserted s m x r n Hp Hrep) as (rc & old & s' & m' & n' & -> & _ & Hrep' & -> & Hi).
    eexists rc, _, s', m', n'. split; [done|]. split; [done|].
    destruct (m !! key_of x) as [y|] eqn:E.
    + destruct r; destruct Hi as [-> ->]; by constructor.
    + destruct Hi as [[-> ->]|(-> & -> & i & _ & Hi)]; constructor; [done|done|by exists i].
  - destruct (rep_deleted s m k Hrep) as (s' & Hd & Hrep'). unfold abind, alift. rewrite Hd. cbn [obind].
    eexists _, _, s', (delete k m), n. split; [done|]. split; [done|].
    destruct (m !! k) eqn:E; [by constructor|]. rewrite delete_id by done. by constructor.
  - destruct (rep_retrieved s m Hrep) as (r & s' & Hd & Hr). unfold abind, alift. rewrite Hd. cbn [obind].
    destruct r as [x|]; destruct Hr as [Hm Hrep'].
    + eexists _, _, s', _, n. split; [done|]. split; [done|]. by constructor.
    + eexists _, _, s', m, n. split; [done|]. split; [done|]. by constructor.
Qed.

Lemma run_ok os : forall s m n,
  proto_ok -> rep s m ->
  exists rs s' m' n', run os s n = Ret ((rs, s'), n') /\ rep s' m' /\ map_run nomem m os rs m'.
Proof.
  induction os as [|o os IH]; intros s m n Hp Hrep; cbn [run].
  - exists [], s, m, n. split; [done|]. split; [done|]. constructor.
  - destruct (run_op_ok o s m n Hp Hrep) as (rc & v & s1 & m1 & n1 & Hr & Hrep1 & Hst).
    destruct (IH s1 m1 n1 Hp Hrep1) as (rs & s2 & m2 & n2 & Hr2 & Hrep2 & Hrun).
    unfold abind. rewrite Hr. cbn [obind]. rewrite Hr2. cbn [obind].
    eexists _, s2, m2, n2. split; [done|]. split; [done|]. by econstructor.
Qed.

Lemma rep_each s m fuel :
  bits_ok p -> rep s m -> (size m < fuel)%nat ->
  exists l, each_loop p fuel s nxt_lvlhsh_each_init = Ret l /\ l ≡ₚ (map_to_list m).*2.
Proof.
  intros Hb (Hok & Hp & _) Hf.
  assert (Hc : map snd (contents s) ≡ₚ (map_to_list m).*2).
  { rewrite Hp, map_map. cbn. by rewrite List.map_id. }
  exists (map snd (contents s)). split; [|done]. apply enumerate_ok; [done|done|].
  apply Permutation_length in Hc. rewrite length_map, length_fmap, length_map_to_list in Hc. lia.
Qed.

End Refinement.

(** ** The properties *)

(** C33. The level hash is a finite map: every sequence of searches, insertions
    with and without replacement, deletions and retrievals on an empty hash
    returns, with the codes and values the same operations have on a finite
    map.  An insertion fails only when an allocation failed, and the hash then
    still holds what it held. *)
Theorem nxt_lvlhsh_refines_map {K V : Type} `{Countable K} (key_of : V -> K) (hash : K -> Z)
    (alloc : nat -> bool) (p : proto) (os : list (op (K := K) (V := V))) (n : nat) :
  proto_ok p ->
  exists rs s m n', run key_of hash alloc p os Null n = Ret ((rs, s), n')
    /\ map_run key_of (nomem alloc) ∅ os rs m /\ rep key_of hash p s m.
Proof.
  intros Hp. destruct (run_ok key_of hash alloc p os Null ∅ n Hp (rep_empty key_of hash p))
    as (rs & s & m & n' & Hr & Hrep & Hm). by exists rs, s, m, n'.
Qed.

(** Values that are their own keys, with the hash of their low byte. *)
Definition sample_ops : list (op (K := Z) (V := Z)) :=
  map (fun i => Insert (Z.of_nat i * 256) false) (seq 0 12)
  ++ [Find 512; Delete 512; Find 512; Insert 256 false; Insert 256 true; Retrieve].

Lemma nxt_lvlhsh_refines_map_witness :
  proto_ok NXT_LVLHSH_DEFAULT
  /\ exists rs s m n', run id (fun k => k mod 256) (fun _ => true) NXT_LVLHSH_DEFAULT sample_ops Null 0%nat
       = Ret ((rs, s), n')
    /\ map_run id (nomem (fun _ => true)) ∅ sample_ops rs m
    /\ rep id (fun k => k mod 256) NXT_LVLHSH_DEFAULT s m.
Proof.
  assert (Hp : proto_ok NXT_LVLHSH_DEFAULT) by (split; cbn; lia).
  split; [done|]. by apply (nxt_lvlhsh_refines_map id (fun k => k mod 256)).
Defined.

(** C34. The iteration over a hash ends and visits every value of the map
    exactly once, for any bits of the levels that fit the 32-bit path of the
    iterator. *)
Theorem nxt_lvlhsh_each_map {K V : Type} `{Countable K} (key_of : V -> K) (hash : K -> Z)
    (p : proto) (s : slot V) (m : gmap K V) (fuel : nat) :
  bits_ok p -> rep key_of hash p s m -> (size m < fuel)%nat ->
  exists l, each_loop p fuel s nxt_lvlhsh_each_init = Ret l /\ l ≡ₚ (map_to_list m).*2.
Proof. intros Hb Hr Hf. by apply (rep_each key_of hash). Qed.

Lemma nxt_lvlhsh_each_map_witness :
  rep id (fun k => k) NXT_LVLHSH_DEFAULT (Buckets [fresh_bucket 5 5]) {[ 5 := 5 ]}
  /\ exists l, each_loop NXT_LVLHSH_DEFAULT 2 (Buckets [fresh_bucket 5 5]) nxt_lvlhsh_each_init = Ret l
     /\ l ≡ₚ (map_to_list (M := gmap Z Z) {[ 5 := 5 ]}).*2.
Proof.
  assert (Hr : rep id (fun k => k) NXT_LVLHSH_DEFAULT (Buckets [fresh_bucket 5 5]) {[ 5 := 5 ]}).
  { split; [|split; [by rewrite map_to_list_singleton|by apply map_Forall_singleton]].
    split_and!; [done| |done]. constructor; [split_and!; cbn; lia|constructor]. }
  split; [done|].
  apply (nxt_lvlhsh_each_map id (fun k => k) NXT_LVLHSH_DEFAULT _ {[ 5 := 5 ]} 2 );
    [split; [repeat constructor; lia|cbn; lia]|done|vm_compute; lia].
Defined.
