(* ===== verification/ConfValue.v ===== *)
(** * Configuration values and their printing (nxt_conf.c)

    The values of the configuration, with both representations of strings,
    the printing of a value as JSON and the computation of the memory that
    printing takes.  [pretty] is a null pointer or the state of the pretty
    printer.  The theorem is that a buffer of [nxt_conf_json_length] bytes is
    large enough for [nxt_conf_json_print], although the two are different
    traversals and the length saturates instead of overflowing. *)

From S2P Require Import Prelude.

(** ** The code *)

Abbreviation NXT_CONF_MAX_SHORT_STRING := 14 (only parsing).
Abbreviation NXT_CONF_MAX_NUMBER_LEN := 14 (only parsing).
Abbreviation NXT_CONF_MAX_STRING := INT32_MAX (only parsing).

(** A value of type [NXT_CONF_VALUE_SHORT_STRING] or [NXT_CONF_VALUE_STRING]:
    its bytes are in the value, or behind a pointer. *)
Inductive conf_string :=
| SHORT_STRING (s : list Z)
| STRING (s : list Z).

#[global] Instance conf_string_eq_dec : EqDecision conf_string.
Proof. solve_decision. Defined.

Unset Elimination Schemes.

(** [nxt_conf_value_t]: a number is kept as its text. *)
Inductive conf_value :=
| VALUE_NULL
| VALUE_BOOLEAN (b : bool)
| VALUE_INTEGER (text : list Z)
| VALUE_NUMBER (text : list Z)
| VALUE_STRING (s : conf_string)
| VALUE_ARRAY (elements : list conf_value)
| VALUE_OBJECT (members : list (conf_string * conf_value)).

Set Elimination Schemes.

Definition nxt_conf_get_string (s : conf_string) : list Z :=
  match s with SHORT_STRING s => s | STRING s => s end.

Definition nxt_conf_set_string (s : list Z) : conf_string :=
  if NXT_CONF_MAX_SHORT_STRING <? Z.of_nat (length s) then STRING s else SHORT_STRING s.

(** [nxt_size_add]: [None] when the sum does not fit. *)
Definition nxt_size_add (a b : Z) : option Z := if SIZE_MAX - a <? b then None else Some (a + b).

Definition nxt_conf_json_length_add (len n : Z) : Z :=
  match nxt_size_add len n with None => SIZE_MAX | Some sum => sum end.

(** *** Strings *)

(** The bytes that one byte of a string adds to its length. *)
Definition escape_extra (ch : Z) : Z :=
  if (ch =? BACKSLASH) || (ch =? DQUOTE) then 1
  else if ch <=? 31 then
    if (ch =? LF) || (ch =? CR) || (ch =? TAB) || (ch =? 8) || (ch =? 12) then 1 else 5
  else 0.

Fixpoint escape_length_loop (s : list Z) (len : Z) : Z :=
  match s with
  | [] => len
  | ch :: s' =>
    let extra := escape_extra ch in
    escape_length_loop s' (if extra =? 0 then len else nxt_conf_json_length_add len extra)
  end.

Definition nxt_conf_json_escape_length (s : list Z) : Z :=
  escape_length_loop s (Z.of_nat (length s)).

Definition escape_char (ch : Z) : list Z :=
  if 31 <? ch then
    (if (ch =? BACKSLASH) || (ch =? DQUOTE) then [BACKSLASH] else []) ++ [ch]
  else
    BACKSLASH ::
    (if ch =? LF then [110]
     else if ch =? CR then [114]
     else if ch =? TAB then [116]
     else if ch =? 8 then [98]
     else if ch =? 12 then [102]
     else
       let lo := Z.land ch 15 in
       [117; CH_0; CH_0; CH_0 + Z.shiftr ch 4; if lo <? 10 then CH_0 + lo else CH_A + lo - 10]).

Fixpoint nxt_conf_json_escape (s : list Z) : list Z :=
  match s with
  | [] => []
  | ch :: s' => escape_char ch ++ nxt_conf_json_escape s'
  end.

Definition nxt_conf_json_string_length (s : conf_string) : Z :=
  nxt_conf_json_length_add 2 (nxt_conf_json_escape_length (nxt_conf_get_string s)).

Definition nxt_conf_json_print_string (s : conf_string) : list Z :=
  [DQUOTE] ++ nxt_conf_json_escape (nxt_conf_get_string s) ++ [DQUOTE].

(** *** The length

    The argument is [pretty->level], which the functions restore. *)

Section Length.
  Variable json_length : option Z -> conf_value -> Z.

Fixpoint array_length_loop (level : option Z) (l : list conf_value) (len : Z) : Z :=
  match l with
  | [] => len
  | v :: l' =>
    let len := nxt_conf_json_length_add len (json_length level v) in
    let len := match level with Some n => nxt_conf_json_length_add len (u32 (n + 2)) | None => len end in
    array_length_loop level l' len
  end.

Definition nxt_conf_json_array_length (level : option Z) (l : list conf_value) : Z :=
  let len := array_length_loop (option_map (fun n => u32 (n + 1)) level) l 2 in
  let n := Z.of_nat (length l) in
  let len :=
    match level with
    | Some level => if n =? 0 then len else nxt_conf_json_length_add len (u32 (level + 2))
    | None => len
    end in
  nxt_conf_json_length_add len n.

Fixpoint object_length_loop (level : option Z) (l : list (conf_string * conf_value)) (len : Z) : Z :=
  match l with
  | [] => len
  | (name, v) :: l' =>
    let len := nxt_conf_json_length_add len (nxt_conf_json_string_length name) in
    let len := nxt_conf_json_length_add len (json_length level v) in
    let len := nxt_conf_json_length_add len 2 in
    let len :=
      match level with
      | Some n => nxt_conf_json_length_add len (u32 (n + 1 + 2 + 2))
      | None => len
      end in
    object_length_loop level l' len
  end.

Definition nxt_conf_json_object_length (level : option Z) (l : list (conf_string * conf_value)) : Z :=
  let len := object_length_loop (option_map (fun n => u32 (n + 1)) level) l 2 in
  match level with Some level => nxt_conf_json_length_add len (u32 (level + 2)) | None => len end.

End Length.

Fixpoint nxt_conf_json_length (level : option Z) (v : conf_value) : Z :=
  match v with
  | VALUE_NULL => 4
  | VALUE_BOOLEAN b => if b then 4 else 5
  | VALUE_INTEGER text => Z.of_nat (length text)
  | VALUE_NUMBER text => Z.of_nat (length text)
  | VALUE_STRING s => nxt_conf_json_string_length s
  | VALUE_ARRAY l => nxt_conf_json_array_length nxt_conf_json_length level l
  | VALUE_OBJECT l => nxt_conf_json_object_length nxt_conf_json_length level l
  end.

(** *** Printing *)

(** [nxt_conf_json_pretty_t] *)
Record pretty := Pretty { level : Z; more_space : bool }.

Definition newline : list Z := [CR; LF].

Definition nxt_conf_json_indentation (level : Z) : list Z := replicate (Z.to_nat level) TAB.

Definition level_inc (p : pretty) : pretty := Pretty (u32 (level p + 1)) (more_space p).
Definition level_dec (p : pretty) : pretty := Pretty (u32 (level p - 1)) (more_space p).
Definition set_more_space (b : bool) (p : pretty) : pretty := Pretty (level p) b.

(** A writer: the bytes written and the state of the pretty printer. *)
Definition writer : Type := option pretty -> list Z * option pretty.

Definition put (s : list Z) : writer := fun p => (s, p).

Definition seq_writer (a b : writer) : writer :=
  fun p => let (s, p) := a p in let (t, p) := b p in (s ++ t, p).

(** What is done when [pretty != NULL]. *)
Definition if_pretty (f : pretty -> list Z * pretty) : writer :=
  fun p =>
    match p with
    | Some p => let (s, p) := f p in (s, Some p)
    | None => ([], None)
    end.

Notation "a ;+ b" := (seq_writer a b) (at level 60, right associativity) : nxt_scope.

(** A new line, and the indentation of the level after [f]. *)
Definition newline_indent (f : pretty -> pretty) : writer :=
  if_pretty (fun p => let p := f p in (newline ++ nxt_conf_json_indentation (level p), p)).

(** The end of an array or an object with elements. *)
Definition close_line : writer :=
  if_pretty (fun p =>
    let p := level_dec p in (newline ++ nxt_conf_json_indentation (level p), set_more_space true p)).

Section Print.
  Variable print : conf_value -> writer.

Fixpoint print_elements (l : list conf_value) : writer :=
  match l with
  | [] => put []
  | v :: l' =>
    put [COMMA] ;+ newline_indent id ;+ if_pretty (fun p => ([], set_more_space false p)) ;+
    print v ;+ print_elements l'
  end.

Definition nxt_conf_json_print_array (l : list conf_value) : writer :=
  put [LBRACKET] ;+
  (match l with
   | [] => put []
   | v :: l' => newline_indent level_inc ;+ print v ;+ print_elements l' ;+ close_line
   end) ;+
  put [RBRACKET].

(** A comma and the new lines before the next member. *)
Definition member_separator : writer :=
  put [COMMA] ;+
  if_pretty (fun p =>
    if more_space p then (newline ++ newline, set_more_space false p) else (newline, p)).

Fixpoint print_members (l : list (conf_string * conf_value)) : writer :=
  match l with
  | [] => put []
  | (name, v) :: l' =>
    if_pretty (fun p => (nxt_conf_json_indentation (level p), p)) ;+
    put (nxt_conf_json_print_string name) ;+ put [COLON] ;+ if_pretty (fun p => ([SP], p)) ;+
    print v ;+
    (match l' with [] => put [] | _ => member_separator end) ;+
    print_members l'
  end.

Definition nxt_conf_json_print_object (l : list (conf_string * conf_value)) : writer :=
  put [LBRACE] ;+
  (match l with
   | [] => put []
   | _ => if_pretty (fun p => (newline, level_inc p)) ;+ print_members l ;+ close_line
   end) ;+
  put [RBRACE].

End Print.

Fixpoint nxt_conf_json_print (v : conf_value) : writer :=
  match v with
  | VALUE_NULL => put (bytes_of_string "null")
  | VALUE_BOOLEAN b => put (if b then bytes_of_string "true" else bytes_of_string "false")
  | VALUE_INTEGER text => put text
  | VALUE_NUMBER text => put text
  | VALUE_STRING s => put (nxt_conf_json_print_string s)
  | VALUE_ARRAY l => nxt_conf_json_print_array nxt_conf_json_print l
  | VALUE_OBJECT l => nxt_conf_json_print_object nxt_conf_json_print l
  end.

(** ** Lemmas *)

(** Induction with hypotheses for the elements. *)
Lemma conf_value_ind (P : conf_value -> Prop) :
  P VALUE_NULL -> (forall b, P (VALUE_BOOLEAN b)) -> (forall t, P (VALUE_INTEGER t)) ->
  (forall t, P (VALUE_NUMBER t)) -> (forall s, P (VALUE_STRING s)) ->
  (forall l, Forall P l -> P (VALUE_ARRAY l)) ->
  (forall l, Forall (fun m => P m.2) l -> P (VALUE_OBJECT l)) ->
  forall v, P v.
Proof.
  intros Hn Hb Hi Hf Hs Ha Ho. fix go 1. intros [|b|t|t|s|l|l];
    [apply Hn|apply Hb|apply Hi|apply Hf|apply Hs|clear -Ha go|clear -Ho go].
  - apply Ha. clear Ha. revert l. fix go_list 1. intros [|v l]; constructor; [apply go|apply go_list].
  - apply Ho. clear Ho. revert l. fix go_list 1. intros [|[k v] l]; constructor; [apply go|apply go_list].
Qed.

(** The depth of a value. *)
Fixpoint depth (v : conf_value) : nat :=
  match v with
  | VALUE_ARRAY l => S (list_max (map depth l))
  | VALUE_OBJECT l => S (list_max (map (fun m => depth m.2) l))
  | _ => 0%nat
  end.

(** Sizes that fit the members of the value: a [uint32_t] length, a [size_t]
    count. *)
Definition small_string (s : conf_string) : Prop :=
  Z.of_nat (length (nxt_conf_get_string s)) < 2 ^ 32.

Fixpoint small (v : conf_value) : Prop :=
  match v with
  | VALUE_INTEGER t | VALUE_NUMBER t => Z.of_nat (length t) <= NXT_CONF_MAX_NUMBER_LEN
  | VALUE_STRING s => small_string s
  | VALUE_ARRAY l => Z.of_nat (length l) <= SIZE_MAX /\ foldr (fun v P => small v /\ P) True l
  | VALUE_OBJECT l =>
    foldr (fun m P => (small_string m.1 /\ small m.2) /\ P) True l
  | _ => True
  end.

Lemma foldr_and {A} (P : A -> Prop) l : foldr (fun x Q => P x /\ Q) True l <-> Forall P l.
Proof.
  induction l as [|x l IH]; cbn; [by split|]. by rewrite Forall_cons, IH.
Qed.

Lemma list_max_le (l : list nat) n : (list_max l <= n)%nat <-> Forall (fun x => x <= n)%nat l.
Proof. apply List.list_max_le. Qed.

(** *** Saturating sums *)

Definition sat (x : Z) : Z := Z.min x SIZE_MAX.

Lemma length_add_sat a b : 0 <= a -> 0 <= b -> nxt_conf_json_length_add (sat a) (sat b) = sat (a + b).
Proof.
  intros Ha Hb. unfold nxt_conf_json_length_add, nxt_size_add, sat.
  destruct (SIZE_MAX - Z.min a SIZE_MAX <? Z.min b SIZE_MAX) eqn:E; zbool; lia.
Qed.

Lemma length_add_small a n : 0 <= a -> 0 <= n <= SIZE_MAX ->
  nxt_conf_json_length_add (sat a) n = sat (a + n).
Proof. intros Ha Hn. rewrite <- length_add_sat by lia. unfold sat at 3. by rewrite (Z.min_l n) by lia. Qed.

Lemma sat_small n : n <= SIZE_MAX -> sat n = n.
Proof. apply Z.min_l. Qed.

(** *** Strings *)

Lemma escape_char_length ch : Z.of_nat (length (escape_char ch)) = 1 + escape_extra ch.
Proof.
  unfold escape_char, escape_extra.
  destruct (31 <? ch) eqn:E1; zbool.
  - rewrite (proj2 (Z.leb_gt ch 31)) by lia. destruct ((ch =? BACKSLASH) || (ch =? DQUOTE)); done.
  - rewrite (proj2 (Z.leb_le ch 31)), (proj2 (Z.eqb_neq ch BACKSLASH)), (proj2 (Z.eqb_neq ch DQUOTE)) by lia.
    cbn [orb]. repeat (destruct (ch =? _); [done|]). done.
Qed.

Lemma escape_length_loop_ok s : forall a, 0 <= a ->
  escape_length_loop s (sat a) = sat (a + Z.of_nat (length (nxt_conf_json_escape s)) - Z.of_nat (length s)).
Proof.
  induction s as [|ch s IH]; intros a Ha; cbn [escape_length_loop nxt_conf_json_escape length].
  - f_equal. lia.
  - rewrite length_app. pose proof (escape_char_length ch) as Hc.
    destruct (escape_extra ch =? 0) eqn:E; zbool.
    + rewrite IH by lia. f_equal. lia.
    + assert (0 <= escape_extra ch <= 5) by (unfold escape_extra; repeat case_match; lia).
      rewrite length_add_small, IH by lia. f_equal. lia.
Qed.

Lemma string_length_ok s :
  small_string s ->
  nxt_conf_json_string_length s = sat (Z.of_nat (length (nxt_conf_json_print_string s))).
Proof.
  unfold small_string. intros Hs. unfold nxt_conf_json_string_length, nxt_conf_json_escape_length.
  rewrite <- (sat_small (Z.of_nat (length _))) by lia. rewrite escape_length_loop_ok by lia.
  unfold nxt_conf_json_print_string. rewrite !length_app. cbn [length].
  rewrite <- (sat_small 2) at 1 by lia. rewrite length_add_sat by lia. f_equal. lia.
Qed.

(** *** Writers

    [writes w l l' B]: from level [l] the writer takes the printer to level
    [l'] and writes at most [B] bytes. *)
Definition writes (w : writer) (l l' : option Z) (B : Z) : Prop :=
  forall p, option_map level p = l ->
    Z.of_nat (length (w p).1) <= B /\ option_map level (w p).2 = l'.

Lemma writes_seq a b l l1 l2 A B :
  writes a l l1 A -> writes b l1 l2 B -> writes (a ;+ b) l l2 (A + B).
Proof.
  intros Ha Hb p Hp. unfold seq_writer. destruct (Ha p Hp) as [HA Hl].
  destruct (a p) as [s p1]. destruct (Hb p1 Hl) as [HB Hl2]. destruct (b p1) as [t p2].
  cbn in *. rewrite length_app. split; [lia|done].
Qed.

Lemma writes_put s l : writes (put s) l l (Z.of_nat (length s)).
Proof. intros p Hp. cbn. done. Qed.

Lemma writes_le w l l' A B : writes w l l' A -> A <= B -> writes w l l' B.
Proof. intros H Hle p Hp. destruct (H p Hp). split; [lia|done]. Qed.

(** The bytes of a new line at a level, when [pretty] is not null. *)
Definition extra (l : option Z) (k : Z) : Z := match l with Some n => n + k | None => 0 end.

Definition inner (l : option Z) : option Z := option_map (fun n => n + 1) l.

(** The levels of a printer that do not wrap around. *)
Definition level_ok (l : option Z) (d : nat) : Prop :=
  match l with Some n => 0 <= n /\ n + Z.of_nat d + 5 < 2 ^ 32 | None => True end.

Lemma if_pretty_writes f l l' B :
  (forall n m, l = Some n -> Some (level (f (Pretty n m)).2) = l'
     /\ Z.of_nat (length (f (Pretty n m)).1) <= B) ->
  (l = None -> l' = None /\ 0 <= B) -> writes (if_pretty f) l l' B.
Proof.
  intros Hs Hn p <-. destruct p as [[n m]|]; cbn in *.
  - destruct (Hs n m eq_refl) as [<- HB]. destruct (f (Pretty n m)). done.
  - destruct (Hn eq_refl) as [-> HB]. done.
Qed.

Lemma u32_small n : 0 <= n < 2 ^ 32 -> u32 n = n.
Proof. apply Z.mod_small. Qed.

Lemma newline_indent_writes f l l' :
  (forall p, Some (level p) = l -> Some (level (f p)) = l') -> (l = None -> l' = None) ->
  extra l' 0 >= 0 -> writes (newline_indent f) l l' (extra l' 2).
Proof.
  intros Hf Hn H0. apply if_pretty_writes.
  - intros n m ->. specialize (Hf (Pretty n m) eq_refl). cbn. split; [done|].
    rewrite <- Hf in H0 |- *. unfold nxt_conf_json_indentation. cbn in *.
    rewrite length_replicate. lia.
  - intros ->. rewrite Hn by done. done.
Qed.

Lemma close_line_writes l d : level_ok l (S d) -> writes close_line (inner l) l (extra l 2).
Proof.
  intros Hl. apply if_pretty_writes.
  - intros n m Hn. destruct l as [n'|]; [|done]. injection Hn as <-. cbn in Hl |- *.
    rewrite u32_small by lia. replace (n' + 1 - 1) with n' by lia. split; [done|].
    unfold nxt_conf_json_indentation. rewrite length_replicate. lia.
  - destruct l; [done|]. done.
Qed.

Lemma member_separator_writes l : writes member_separator l l (1 + match l with Some _ => 4 | None => 0 end).
Proof.
  unfold member_separator. apply (writes_seq _ _ _ l _ 1); [apply (writes_put [COMMA])|].
  apply if_pretty_writes; [|by intros ->]. intros n m ->. cbn. by destruct m.
Qed.

(** A value whose printing fits its length. *)
Definition fits (v : conf_value) (l : option Z) : Prop :=
  exists B, 0 <= B /\ nxt_conf_json_length l v = sat B /\ writes (nxt_conf_json_print v) l l B.

Lemma option_inc l d : level_ok l (S d) -> option_map (fun n => u32 (n + 1)) l = inner l.
Proof. destruct l as [n|]; [|done]. cbn. intros H. by rewrite u32_small by lia. Qed.

Lemma add_extra a l k d : 0 <= a -> 0 <= k <= 5 -> level_ok l d ->
  match l with Some n => nxt_conf_json_length_add (sat a) (u32 (n + k)) | None => sat a end
  = sat (a + extra l k).
Proof.
  intros Ha Hk Hl. destruct l as [n|]; cbn in *; [|f_equal; lia].
  by rewrite u32_small, length_add_small by lia.
Qed.

Lemma extra_nonneg l k d : 0 <= k -> level_ok l d -> 0 <= extra l k.
Proof. destruct l; cbn; lia. Qed.

Lemma print_elements_fit l lvl :
  level_ok lvl 0 -> Forall (fun v => fits v lvl) l ->
  exists B, 0 <= B
    /\ (forall a, 0 <= a -> array_length_loop nxt_conf_json_length lvl l (sat a) = sat (a + B))
    /\ writes (print_elements nxt_conf_json_print l) lvl lvl (B + Z.of_nat (length l)).
Proof.
  intros Hlvl. induction l as [|v l IH]; intros Hl.
  - exists 0. split; [done|]. split; [intros a Ha; cbn; f_equal; lia|]. apply (writes_put []).
  - apply Forall_cons in Hl as [(Bv & HBv & Hlen & Hw) Hl]. destruct (IH Hl) as (B & HB & Hloop & Hws).
    pose proof (extra_nonneg lvl 2 0 ltac:(lia) Hlvl) as He.
    exists (Bv + extra lvl 2 + B). split; [lia|]. split.
    + intros a Ha. cbn [array_length_loop]. rewrite Hlen, length_add_sat by lia.
      rewrite (add_extra _ _ _ 0), Hloop by (done || lia). f_equal. lia.
    + cbn [print_elements length]. eapply writes_le.
      * eapply writes_seq; [apply (writes_put [COMMA])|].
        eapply writes_seq; [apply (newline_indent_writes id lvl lvl); [done|done|]|].
        { destruct lvl; cbn in *; lia. }
        eapply (writes_seq _ _ _ lvl _ 0); [apply if_pretty_writes; [by intros n m ->|by intros ->]|].
        eapply writes_seq; [exact Hw|exact Hws].
      * cbn [length]. lia.
Qed.

Lemma print_members_fit l lvl :
  level_ok lvl 0 -> Forall (fun m => small_string m.1 /\ fits m.2 lvl) l ->
  exists B, 0 <= B
    /\ (forall a, 0 <= a -> object_length_loop nxt_conf_json_length lvl l (sat a) = sat (a + B))
    /\ writes (print_members nxt_conf_json_print l) lvl lvl
         (B - match l with [] => 0 | _ => 1 + match lvl with Some _ => 4 | None => 0 end end).
Proof.
  intros Hlvl. induction l as [|[name v] l IH]; intros Hl.
  - exists 0. split; [done|]. split; [intros a Ha; cbn; f_equal; lia|]. apply (writes_put []).
  - apply Forall_cons in Hl as [[Hname (Bv & HBv & Hlen & Hw)] Hl].
    destruct (IH Hl) as (B & HB & Hloop & Hws). cbn [fst snd] in *.
    pose proof (extra_nonneg lvl 5 0 ltac:(lia) Hlvl) as He.
    set (N := Z.of_nat (length (nxt_conf_json_print_string name))).
    exists (N + Bv + 2 + extra lvl 5 + B). split; [lia|]. split.
    + intros a Ha. cbn [object_length_loop]. rewrite string_length_ok, Hlen by done. fold N.
      rewrite !length_add_sat, length_add_small by lia.
      replace (match lvl with Some n => _ | None => _ end)
        with (sat (a + N + Bv + 2 + extra lvl 5)).
      { rewrite Hloop by lia. f_equal. lia. }
      rewrite <- (add_extra _ _ _ 0) by (done || lia). destruct lvl as [n|]; [|done].
      by replace (n + 5) with (n + 1 + 2 + 2) by lia.
    + cbn [print_members]. eapply writes_le.
      * eapply (writes_seq _ _ _ lvl _ (extra lvl 0)).
        { apply if_pretty_writes; [|by intros ->]. intros n m ->. cbn in *. split; [done|].
          unfold nxt_conf_json_indentation. rewrite length_replicate. lia. }
        eapply writes_seq; [apply writes_put|]. fold N.
        eapply writes_seq; [apply (writes_put [COLON])|].
        eapply (writes_seq _ _ _ lvl _ (match lvl with Some _ => 1 | None => 0 end)).
        { apply if_pretty_writes; [by intros n m ->|by intros ->]. }
        eapply writes_seq; [exact Hw|].
        eapply (writes_seq _ _ _ lvl _ (match l with [] => 0 | _ => 1 + match lvl with Some _ => 4 | None => 0 end end)).
        { destruct l; [apply (writes_put [])|apply member_separator_writes]. }
        exact Hws.
      * cbn [length]. destruct l, lvl; cbn in *; lia.
Qed.

Lemma level_ok_le l d d' : (d' <= d)%nat -> level_ok l d -> level_ok l d'.
Proof. destruct l; cbn; lia. Qed.

Lemma level_ok_inner l d : level_ok l (S d) -> level_ok (inner l) d.
Proof. destruct l; cbn; lia. Qed.

Lemma put_fits v s l :
  nxt_conf_json_length l v = sat (Z.of_nat (length s)) ->
  nxt_conf_json_print v = put s -> fits v l.
Proof. intros Hl Hp. eexists. split; [|split; [exact Hl|rewrite Hp; apply writes_put]]. lia. Qed.

Lemma array_fits l lvl :
  level_ok lvl 1 -> Z.of_nat (length l) <= SIZE_MAX ->
  Forall (fun v => fits v (inner lvl)) l -> fits (VALUE_ARRAY l) lvl.
Proof.
  intros Hlvl Hn Hl. pose proof (level_ok_inner _ _ Hlvl) as Hin.
  pose proof (extra_nonneg lvl 2 _ ltac:(lia) Hlvl) as He.
  pose proof (extra_nonneg (inner lvl) 2 _ ltac:(lia) Hin) as He'. unfold fits.
  cbn [nxt_conf_json_length nxt_conf_json_print]. unfold nxt_conf_json_array_length, nxt_conf_json_print_array.
  rewrite (option_inc _ 0 Hlvl). destruct l as [|v l].
  - exists 2. split; [done|]. split; [by destruct lvl|].
    apply (writes_seq _ _ _ lvl _ 1 1); [apply (writes_put [LBRACKET])|].
    apply (writes_seq _ _ _ lvl _ 0 1); [apply (writes_put [])|apply (writes_put [RBRACKET])].
  - apply Forall_cons in Hl as [(Bv & HBv & Hlen & Hw) Hl].
    destruct (print_elements_fit l (inner lvl) Hin Hl) as (B & HB & Hloop & Hws).
    exists (2 + (Bv + extra (inner lvl) 2 + B) + extra lvl 2 + Z.of_nat (length (v :: l))).
    split; [lia|]. split.
    + assert (array_length_loop nxt_conf_json_length (inner lvl) (v :: l) 2
        = sat (2 + Bv + extra (inner lvl) 2 + B)) as ->.
      { cbn [array_length_loop]. change 2 with (sat 2) at 1 3. rewrite Hlen, length_add_sat by lia.
        by rewrite (add_extra _ _ _ 0), Hloop by (done || lia). }
      rewrite (proj2 (Z.eqb_neq _ 0)) by (cbn; lia).
      rewrite (add_extra _ _ _ 1), length_add_small by (done || lia). f_equal. lia.
    + eapply writes_le.
      * eapply writes_seq; [apply (writes_put [LBRACKET])|].
        eapply writes_seq; [|apply (writes_put [RBRACKET])].
        eapply writes_seq.
        { apply (newline_indent_writes level_inc lvl (inner lvl)).
          - intros p <-. cbn in Hlvl |- *. by rewrite u32_small by lia.
          - by intros ->.
          - destruct lvl; cbn in *; lia. }
        eapply writes_seq; [exact Hw|]. eapply writes_seq; [exact Hws|]. by apply (close_line_writes _ 0).
      * cbn [length]. lia.
Qed.

Lemma object_fits l lvl :
  level_ok lvl 1 -> Forall (fun m => small_string m.1 /\ fits m.2 (inner lvl)) l ->
  fits (VALUE_OBJECT l) lvl.
Proof.
  intros Hlvl Hl. pose proof (level_ok_inner _ _ Hlvl) as Hin.
  pose proof (extra_nonneg lvl 2 _ ltac:(lia) Hlvl) as He.
  destruct (print_members_fit l (inner lvl) Hin Hl) as (B & HB & Hloop & Hws). unfold fits.
  cbn [nxt_conf_json_length nxt_conf_json_print]. unfold nxt_conf_json_object_length, nxt_conf_json_print_object.
  rewrite (option_inc _ 0 Hlvl). exists (2 + B + extra lvl 2). split; [lia|]. split.
  - change (object_length_loop nxt_conf_json_length (inner lvl) l 2)
      with (object_length_loop nxt_conf_json_length (inner lvl) l (sat 2)).
    by rewrite Hloop, (add_extra _ _ _ 1) by (done || lia).
  - eapply writes_le.
    + eapply writes_seq; [apply (writes_put [LBRACE])|].
      eapply writes_seq; [|apply (writes_put [RBRACE])].
      apply writes_le with (A := match l with [] => 0 | _ => B + extra lvl 2 - 1 end).
      * destruct l as [|m l]; [apply (writes_put [])|]. eapply writes_le.
        -- eapply (writes_seq _ _ _ (inner lvl) _ (match lvl with Some _ => 2 | None => 0 end)).
           { apply if_pretty_writes; [|by intros ->]. intros n b ->. cbn in Hlvl |- *.
             by rewrite u32_small by lia. }
           eapply writes_seq; [exact Hws|]. by apply (close_line_writes _ 0).
        -- destruct lvl; cbn; lia.
      * instantiate (1 := B + extra lvl 2). destruct l; lia.
    + cbn [length]. lia.
Qed.

Lemma value_fits v : small v -> forall lvl, level_ok lvl (depth v) -> fits v lvl.
Proof.
  induction v as [|b|t|t|s|l IH|l IH] using conf_value_ind; intros Hs lvl Hlvl.
  - by apply (put_fits _ (bytes_of_string "null")).
  - apply (put_fits _ (if b then bytes_of_string "true" else bytes_of_string "false")); [by destruct b|done].
  - apply (put_fits _ t); [cbn in *; by rewrite sat_small by lia|done].
  - apply (put_fits _ t); [cbn in *; by rewrite sat_small by lia|done].
  - apply (put_fits _ (nxt_conf_json_print_string s)); [by apply string_length_ok|done].
  - cbn in Hs. destruct Hs as [Hn Hs]. rewrite (foldr_and small) in Hs.
    cbn [depth] in Hlvl. apply array_fits; [by eapply level_ok_le; [|exact Hlvl]; lia|done|].
    apply Forall_forall. intros v Hv. rewrite Forall_forall in IH, Hs.
    apply (IH v Hv (Hs v Hv)). apply level_ok_inner. eapply level_ok_le; [|exact Hlvl].
    apply le_n_S. pose proof (proj1 (list_max_le (map depth l) _) (le_n _)) as Hm.
    rewrite Forall_forall in Hm. apply Hm. apply list_elem_of_fmap. by exists v.
  - cbn in Hs. rewrite (foldr_and (fun m => small_string m.1 /\ small m.2)) in Hs.
    cbn [depth] in Hlvl. apply object_fits; [by eapply level_ok_le; [|exact Hlvl]; lia|].
    apply Forall_forall. intros m Hm. rewrite Forall_forall in IH, Hs.
    destruct (Hs m Hm) as [Hname Hv]. split; [done|].
    apply (IH m Hm Hv). apply level_ok_inner. eapply level_ok_le; [|exact Hlvl].
    apply le_n_S. pose proof (proj1 (list_max_le (map (fun m => depth m.2) l) _) (le_n _)) as Hx.
    rewrite Forall_forall in Hx. apply Hx. apply list_elem_of_fmap. by exists m.
Qed.

(** ** The property *)

(** Printing fits the memory that was computed for it: when the length of
    a value is not the saturated [SIZE_MAX], for which no allocation succeeds,
    the printed value has at most that many bytes, with and without the
    pretty printer and whatever its state; the level is restored. *)
Theorem nxt_conf_json_print_fits v (p : option pretty) :
  small v -> level_ok (option_map level p) (depth v) ->
  nxt_conf_json_length (option_map level p) v < SIZE_MAX ->
  Z.of_nat (length (nxt_conf_json_print v p).1) <= nxt_conf_json_length (option_map level p) v
  /\ option_map level (nxt_conf_json_print v p).2 = option_map level p.
Proof.
  intros Hs Hl Hlen. destruct (value_fits v Hs _ Hl) as (B & HB & Heq & Hw).
  destruct (Hw p eq_refl) as [Hle Hlvl]. split; [|done]. rewrite Heq in Hlen |- *.
  unfold sat in *. lia.
Qed.

Definition sample_value : conf_value :=
  VALUE_OBJECT
    [(SHORT_STRING (bytes_of_string "a"), VALUE_ARRAY [VALUE_NULL; VALUE_INTEGER [49; 50]]);
     (SHORT_STRING (bytes_of_string "b"), VALUE_OBJECT []);
     (SHORT_STRING (bytes_of_string "c"), VALUE_STRING (SHORT_STRING [1; 34; 10]))].

Lemma nxt_conf_json_print_fits_witness :
  (nxt_conf_json_print sample_value (Some (Pretty 0 false))).1 <> []
  /\ Z.of_nat (length (nxt_conf_json_print sample_value (Some (Pretty 0 false))).1)
     <= nxt_conf_json_length (Some 0) sample_value.
Proof.
  split; [done|].
  apply (nxt_conf_json_print_fits sample_value (Some (Pretty 0 false))).
  - vm_compute. repeat split; discriminate.
  - vm_compute. split; [discriminate|done].
  - vm_compute. done.
Defined.
