(* ===== verification/ConfHash.v ===== *)
(** * The member hash of the JSON parser

    While an object is parsed its members are kept in a level hash, which
    refuses duplicate names and is enumerated at the end.  The class [Table] is
    what the parser relies on; the instance at the end of the file is the
    level hash of Lvlhsh.v with the hash and test functions of nxt_conf.c. *)

From stdpp Require Import gmap.
From S2P Require Import Prelude ConfValue Lvlhsh.
#[local] Open Scope Z_scope.

(** ** The interface *)

(** A table of values by the keys that they carry: an insertion refuses a key
    that is present and fails only without memory, an enumeration gives every
    value once. *)
Class Table (K V : Type) `{Countable K} (key_of : V -> K) := {
  table : Type;
  table_empty : table;
  table_insert : (nat -> bool) -> V -> table -> Alloc (Z * table);
  table_each : nat -> table -> outcome (list V);
  table_rep : table -> gmap K V -> Prop;
  table_empty_rep : table_rep table_empty ∅;
  table_insert_rep : forall alloc x t m n, table_rep t m ->
    exists rc t' n', table_insert alloc x t n = Ret ((rc, t'), n') /\ (n <= n')%nat
    /\ match m !! key_of x with
       | Some _ => rc = NXT_DECLINED
       | None => rc = NXT_OK /\ table_rep t' (<[key_of x := x]> m)
                 \/ rc = NXT_ERROR /\ exists i, (n <= i < n')%nat /\ alloc i = false
       end;
  table_each_rep : forall t m fuel, table_rep t m -> (size m < fuel)%nat ->
    exists l, table_each fuel t = Ret l /\ l ≡ₚ (map_to_list m).*2
}.

(** ** The code *)

Abbreviation NXT_DJB_HASH_INIT := 5381 (only parsing).

Definition nxt_djb_hash_add (hash val : Z) : Z := Z.lxor (u32 (Z.shiftl hash 5 + hash)) val.

Fixpoint djb_loop (s : list Z) (hash : Z) : Z :=
  match s with
  | [] => hash
  | c :: s' => djb_loop s' (nxt_djb_hash_add hash c)
  end.

Definition nxt_djb_hash (s : list Z) : Z := djb_loop s NXT_DJB_HASH_INIT.

(** A pointer to a member of the temporary pool: its place there and its
    name, which does not change while it is in the hash. *)
Record member := Member { m_index : nat; m_name : conf_string }.

Definition m_key (x : member) : list Z := nxt_conf_get_string (m_name x).

Definition nxt_conf_object_hash_proto : proto := NXT_LVLHSH_DEFAULT.

(** [nxt_conf_object_hash_test] for a query with key [key] *)
Definition nxt_conf_object_hash_test (key : list Z) (x : member) : bool := bool_decide (m_key x = key).

Definition nxt_conf_object_hash_add (alloc : nat -> bool) (x : member) (hash : slot member) :
    Alloc (Z * slot member) :=
  let key := nxt_conf_get_string (m_name x) in
  let lhq := Query x (nxt_djb_hash key) (nxt_conf_object_hash_test key) false in
  let! (rc, _, hash) := nxt_lvlhsh_insert alloc nxt_conf_object_hash_proto lhq hash in
  aret (rc, hash).

(** ** The instance *)

Lemma hash_proto_ok : proto_ok nxt_conf_object_hash_proto.
Proof. split; cbn; lia. Qed.

Lemma hash_bits_ok : bits_ok nxt_conf_object_hash_proto.
Proof. split; [repeat constructor; lia|cbn; lia]. Qed.

Lemma hash_add_rep alloc (x : member) t m n :
  rep m_key nxt_djb_hash nxt_conf_object_hash_proto t m ->
  exists rc t' n', nxt_conf_object_hash_add alloc x t n = Ret ((rc, t'), n') /\ (n <= n')%nat
    /\ match m !! m_key x with
       | Some _ => rc = NXT_DECLINED
       | None => rc = NXT_OK /\ rep m_key nxt_djb_hash nxt_conf_object_hash_proto t' (<[m_key x := x]> m)
                 \/ rc = NXT_ERROR /\ exists i, (n <= i < n')%nat /\ alloc i = false
       end.
Proof.
  intros Hrep.
  destruct (rep_inserted m_key nxt_djb_hash alloc nxt_conf_object_hash_proto t m x false n hash_proto_ok Hrep)
    as (rc & old & t' & m' & n' & Hr & Hn & Hrep' & _ & Hi).
  exists rc, t', n'. split; [|split; [done|]].
  - unfold nxt_conf_object_hash_add, abind. change (nxt_conf_object_hash_test _) with (same_key m_key (m_key x)).
    change (nxt_conf_get_string (m_name x)) with (m_key x). by rewrite Hr.
  - destruct (m !! m_key x); [by destruct Hi|].
    destruct Hi as [[-> ->]|(-> & -> & Hf)]; [by left|right]. done.
Qed.

Lemma hash_each_rep (t : slot member) m fuel :
  rep m_key nxt_djb_hash nxt_conf_object_hash_proto t m -> (size m < fuel)%nat ->
  exists l, each_loop nxt_conf_object_hash_proto fuel t nxt_lvlhsh_each_init = Ret l
    /\ l ≡ₚ (map_to_list m).*2.
Proof.
  intros Hrep Hf. by apply (rep_each m_key nxt_djb_hash); [apply hash_bits_ok| |].
Qed.

#[global] Instance conf_object_hash : Table (list Z) member m_key := {
  table := slot member;
  table_empty := Null;
  table_insert := nxt_conf_object_hash_add;
  table_each fuel t := each_loop nxt_conf_object_hash_proto fuel t nxt_lvlhsh_each_init;
  table_rep := rep m_key nxt_djb_hash nxt_conf_object_hash_proto;
  table_empty_rep := rep_empty m_key nxt_djb_hash nxt_conf_object_hash_proto;
  table_insert_rep := hash_add_rep;
  table_each_rep := hash_each_rep
}.
