(* ===== verification/ConfParse.v ===== *)
(** * The JSON parser of the configuration (nxt_conf.c)

    [nxt_conf_json_parse] with its recursive descent: spaces and comments,
    strings with their escapes, numbers, arrays and objects, the limits on
    depth and size, and every error with its position.  The text is the list
    of its bytes, pointers are offsets, [end] is its length.  The static depth
    counter is the argument [d] of the parser of a value, the levels that are
    left.  Members are found and enumerated through the class [Table].
    [strtod] is an argument: its result, as far as the code uses it. *)

From stdpp Require Import gmap.
From Stdlib Require Import QArith Qabs.
From S2P Require Import Prelude NxtList Utf8 ConfValue Lvlhsh ConfHash.
#[local] Open Scope Z_scope.

(** ** The code *)

Abbreviation NXT_CONF_JSON_MAX_DEPTH := 100%nat (only parsing).
Abbreviation NXT_CONF_JSON_MAX_ELEMENTS := 100000 (only parsing).

(** The messages of [nxt_conf_json_parse_error], in the order of the source. *)
Inductive json_error :=
| EmptyPayload
| TrailingCharacter
| TooDeep
| ValueExpected
| ObjectNotClosed
| NameExpected
| TooManyMembers
| DuplicateMember
| MemberWithoutValue
| ColonExpected
| BraceOrCommaExpected
| ArrayNotClosed
| TooManyElements
| BracketOrCommaExpected
| ControlCharacter
| UnexpectedBackslash
| InvalidEscape
| StringNotClosed
| StringTooLong
| IllegalSurrogatePair
| InvalidCharacter
| FractionWithoutDigits
| LeadingZeros
| ExponentWithoutDigits
| NumberTooLong
| NumberOutOfRange.

(** A function that returns [NULL], with [error->pos] and [error->detail] when
    it has set them. *)
Definition failure : Type := option (nat * json_error).

Definition parser (A : Type) : Type := Alloc (failure + A).

Definition pret {A} (a : A) : parser A := aret (inr a).
Definition pfail {A} (e : failure) : parser A := aret (inl e).
Definition pbind {A B} (m : parser A) (k : A -> parser B) : parser B :=
  let! r := m in match r with inl e => pfail e | inr a => k a end.

(** Code that neither allocates nor fails. *)
Definition plift {A} (m : outcome A) : parser A := let! a := alift m in pret a.

Notation "'let?' x ':=' m 'in' k" := (pbind m (fun x => k))
  (at level 10, x pattern, m at level 100, k at level 200,
   format "'let?'  x  ':='  m  'in' '//' k") : nxt_scope.

(** [nxt_conf_json_parse_error(error, pos, detail); return NULL] *)
Definition nxt_conf_json_parse_error {A} (pos : nat) (detail : json_error) : parser A :=
  pfail (Some (pos, detail)).

(** *** Spaces and comments *)

Inductive space_state := sw_normal | sw_after_slash | sw_single_comment | sw_multi_comment | sw_after_asterisk.

Definition is_space (ch : Z) : bool := (ch =? SP) || (ch =? TAB) || (ch =? LF) || (ch =? CR).

Fixpoint space_loop (l : list Z) (p start : nat) (state : space_state) : nat :=
  match l with
  | [] => match state with sw_normal => p | _ => start end
  | ch :: l' =>
    match state with
    | sw_normal =>
      if is_space ch then space_loop l' (S p) start sw_normal
      else if ch =? SLASH then space_loop l' (S p) p sw_after_slash
      else p
    | sw_after_slash =>
      if ch =? SLASH then space_loop l' (S p) start sw_single_comment
      else if ch =? STAR then space_loop l' (S p) start sw_multi_comment
      else start
    | sw_single_comment => space_loop l' (S p) start (if ch =? LF then sw_normal else state)
    | sw_multi_comment => space_loop l' (S p) start (if ch =? STAR then sw_after_asterisk else state)
    | sw_after_asterisk =>
      space_loop l' (S p) start
        (if ch =? SLASH then sw_normal else if ch =? STAR then state else sw_multi_comment)
    end
  end.

Definition nxt_conf_json_skip_space (b : list Z) (start : nat) : nat :=
  space_loop (drop start b) start start sw_normal.

(** *** Strings *)

Inductive string_state := sw_usual | sw_escape | sw_encoded (n : nat).

(** The escapes of one letter. *)
Definition unescape (ch : Z) : option Z :=
  if (ch =? DQUOTE) || (ch =? BACKSLASH) || (ch =? SLASH) then Some ch
  else if ch =? 110 then Some LF
  else if ch =? 114 then Some CR
  else if ch =? 116 then Some TAB
  else if ch =? 98 then Some 8
  else if ch =? 102 then Some 12
  else None.

Definition is_hex (ch : Z) : bool :=
  ((CH_0 <=? ch) && (ch <=? CH_9)) || ((CH_A <=? ch) && (ch <=? CH_F)) || ((CH_a <=? ch) && (ch <=? CH_f)).

(** The first pass: the ending quote mark and the surplus. *)
Fixpoint string_scan (l : list Z) (p : nat) (surplus : nat) (state : string_state) :
    failure + nat * nat :=
  match l with
  | [] => inl (Some (p, StringNotClosed))
  | ch :: l' =>
    match state with
    | sw_usual =>
      if ch =? DQUOTE then inr (p, surplus)
      else if ch =? BACKSLASH then string_scan l' (S p) surplus sw_escape
      else if SP <=? ch then string_scan l' (S p) surplus sw_usual
      else inl (Some (p, ControlCharacter))
    | sw_escape =>
      match unescape ch with
      | Some _ => string_scan l' (S p) (surplus + 1) sw_usual
      | None =>
        if ch =? 117 then string_scan l' (S p) (surplus + 3) (sw_encoded 1)
        else inl (Some ((p - 1)%nat, UnexpectedBackslash))
      end
    | sw_encoded n =>
      if is_hex ch
      then string_scan l' (S p) surplus (if (n =? 4)%nat then sw_usual else sw_encoded (S n))
      else inl (Some (p, InvalidEscape))
    end
  end.

(** Four hexadecimal digits. *)
Fixpoint hex_loop (n : nat) (b : list Z) (p : nat) (utf : Z) : outcome Z :=
  match n with
  | O => Ret utf
  | S n' =>
    let* ch := of_option (b !! p) in
    let digit := if CH_A <=? ch then 10 + (Z.land ch (Z.lnot 32) - CH_A) else ch - CH_0 in
    hex_loop n' b (S p) (u32 (Z.lor (Z.shiftl utf 4) digit))
  end.

(** A character from its one or two UTF-16 units, and the byte after them. *)
Definition utf16 (b : list Z) (p : nat) : outcome (failure + Z * nat) :=
  let* utf := hex_loop 4 b p 0 in
  let p := (p + 4)%nat in
  if (utf <? 0xD800) || (0xDFFF <? utf) then Ret (inr (utf, p))
  else
    let invalid := Ret (inl (Some ((p - 6)%nat, InvalidCharacter))) in
    if 0xDBFF <? utf then invalid
    else
      let* c0 := of_option (b !! p) in
      if negb (c0 =? BACKSLASH) then invalid
      else
        let* c1 := of_option (b !! S p) in
        if negb (c1 =? 117) then invalid
        else
          let utf_high := utf in
          let* utf := hex_loop 4 b (p + 2) 0 in
          let p := (p + 6)%nat in
          if (utf <? 0xDC00) || (0xDFFF <? utf)
          then Ret (inl (Some ((p - 12)%nat, IllegalSurrogatePair)))
          else Ret (inr (Z.shiftl (utf_high - 0xD800) 10 + (utf - 0xDC00) + 0x10000, p)).

(** Writing [bytes] at [s] in the [size] bytes of the value. *)
Definition write (size : nat) (s bytes : list Z) : outcome (list Z) :=
  if (length s + length bytes <=? size)%nat then Ret (s ++ bytes) else Fault.

(** The second pass, up to the quote mark at [last]. *)
Fixpoint string_decode (fuel : nat) (b : list Z) (p last size : nat) (s : list Z) :
    outcome (failure + list Z) :=
  match fuel with
  | O => OutOfFuel
  | S fuel' =>
    let next p s :=
      if (p =? last)%nat then Ret (inr s) else string_decode fuel' b p last size s in
    let* ch := of_option (b !! p) in
    if negb (ch =? BACKSLASH) then let* s := write size s [ch] in next (S p) s
    else
      let* ch := of_option (b !! S p) in
      match unescape ch with
      | Some c => let* s := write size s [c] in next (S (S p)) s
      | None =>
        let* r := utf16 b (S (S p)) in
        match r with
        | inl e => Ret (inl e)
        | inr (utf, p) =>
          let* bytes := of_option (nxt_utf8_encode utf) in
          let* s := write size s bytes in
          next p s
        end
      end
  end.

(** [last - start - surplus] *)
Definition string_size (start last surplus : nat) : outcome nat :=
  if (start + surplus <=? last)%nat then Ret (last - start - surplus)%nat else Fault.

(** *** Numbers *)

(** What the code uses of [strtod]: a range error, the number and the end of
    the text it has read ([None] is a null pointer). *)
Record strtod_result := Strtod { st_erange : bool; st_num : Q; st_end : option nat }.

(** [(u_char) (ch - '0') <= 9] *)
Definition is_digit (ch : Z) : bool := u8 (ch - CH_0) <=? 9.

(** The digits and the first dot: the end, the dot and the last byte read. *)
Fixpoint mantissa_loop (l : list Z) (p : nat) (dot_pos : option nat) (ch : Z) : nat * option nat * Z :=
  match l with
  | [] => (p, dot_pos, ch)
  | ch :: l' =>
    if is_digit ch then mantissa_loop l' (S p) dot_pos ch
    else
      match dot_pos with
      | None => if ch =? DOT then mantissa_loop l' (S p) (Some p) ch else (p, dot_pos, ch)
      | Some _ => (p, dot_pos, ch)
      end
  end.

Fixpoint exponent_loop (l : list Z) (p : nat) : nat :=
  match l with
  | [] => p
  | ch :: l' => if is_digit ch then exponent_loop l' (S p) else p
  end.

(** The exponent from the letter at [p]: its end, or [None] without digits. *)
Definition exponent (b : list Z) (p : nat) : option nat :=
  let s := S p in
  let '(s, p) :=
    match b !! s with
    | Some ch =>
      let s := if (ch =? MINUS) || (ch =? PLUS) then S s else s in (s, exponent_loop (drop s b) s)
    | None => (s, s)
    end in
  if (p =? s)%nat then None else Some p.

(** [fabs(num) > (double) NXT_INT64_T_MAX] *)
Definition too_large (num : Q) : bool := negb (Qle_bool (Qabs num) (inject_Z (2 ^ 63))).

(** [num == trunc(num)] *)
Definition is_integral (num : Q) : bool := Qeq_bool num (inject_Z (Z.quot (Qnum num) (Zpos (Qden num)))).

Section Parse.
  Context {HT : Table (list Z) member m_key}.
  Context (alloc : nat -> bool) (strtod : list Z -> strtod_result).

Definition nxt_conf_json_parse_string (b : list Z) (start : nat) : parser (conf_string * nat) :=
  let start := S start in
  let? (last, surplus) := aret (string_scan (drop start b) start 0 sw_usual) in
  let? size := plift (string_size start last surplus) in
  let long := NXT_CONF_MAX_SHORT_STRING <? Z.of_nat size in
  if long && (NXT_CONF_MAX_STRING <? Z.of_nat size)
  then nxt_conf_json_parse_error start StringTooLong
  else
    let! ok := (if long then request alloc else aret true) in
    if negb ok then pfail None
    else
      let? s :=
        (if (surplus =? 0)%nat then pret (take size (drop start b))
         else alift (string_decode (last - start) b start last size [])) in
      pret (if long then STRING s else SHORT_STRING s, S last).

Definition number_value (start : nat) (text : list Z) : parser conf_value :=
  if NXT_CONF_MAX_NUMBER_LEN <? Z.of_nat (length text)
  then nxt_conf_json_parse_error start NumberTooLong
  else
    let r := strtod text in
    if st_erange r || too_large (st_num r) then nxt_conf_json_parse_error start NumberOutOfRange
    else
      match st_end r with
      | None => pfail None
      | Some e =>
        if negb (e =? length text)%nat then pfail None
        else pret (if is_integral (st_num r) then VALUE_INTEGER text else VALUE_NUMBER text)
      end.

Definition nxt_conf_json_parse_number (b : list Z) (start : nat) : parser (conf_value * nat) :=
  let? first := plift (of_option (b !! start)) in
  let s := if first =? MINUS then S start else start in
  let '(p, dot, ch) := mantissa_loop (drop s b) s None first in
  let dot_pos := default p dot in
  if (if dot then (p - dot_pos <=? 1)%nat else false)
  then nxt_conf_json_parse_error s FractionWithoutDigits
  else if (1 <? dot_pos - s)%nat && (first =? CH_0) then nxt_conf_json_parse_error s LeadingZeros
  else
    let? p :=
      (if (ch =? 101) || (ch =? 69) then
         match exponent b p with
         | None => nxt_conf_json_parse_error start ExponentWithoutDigits
         | Some p => pret p
         end
       else pret p) in
    let? v := number_value start (take (p - start) (drop start b)) in
    pret (v, p).

(** *** Arrays *)

(** The element that [nxt_list_add] has returned receives its value. *)
Definition fill_last (v : conf_value) (l : nxt_list conf_value) : nxt_list conf_value :=
  mk_nxt_list (nalloc l)
    (match last (parts l) with
     | Some part => removelast (parts l) ++ [removelast part ++ [v]]
     | None => parts l
     end).

(** The loop of [nxt_conf_json_parse_array] from the bracket or comma at [p]:
    the elements and the closing bracket. *)
Fixpoint array_loop (fuel : nat) (parse_value : nat -> parser (conf_value * nat)) (b : list Z)
    (p : nat) (count : nat) (list : nxt_list conf_value) :
    parser (nxt_list conf_value * nat * nat) :=
  match fuel with
  | O => plift OutOfFuel
  | S fuel' =>
    let p := nxt_conf_json_skip_space b (S p) in
    if (p =? length b)%nat then nxt_conf_json_parse_error p ArrayNotClosed
    else
      let? ch := plift (of_option (b !! p)) in
      if ch =? RBRACKET then pret (list, count, p)
      else if NXT_CONF_JSON_MAX_ELEMENTS <=? Z.of_nat count
      then nxt_conf_json_parse_error p TooManyElements
      else
        let count := S count in
        let! (ok, list) :=
          (fun mp => let '(ok, list, mp) := nxt_list_add alloc mp VALUE_NULL list in
                     Ret ((ok, list), mp)) in
        if negb ok then pfail None
        else
          let? (v, p) := parse_value p in
          let list := fill_last v list in
          let p := nxt_conf_json_skip_space b p in
          if (p =? length b)%nat then nxt_conf_json_parse_error p ArrayNotClosed
          else
            let? ch := plift (of_option (b !! p)) in
            if ch =? COMMA then array_loop fuel' parse_value b p count list
            else if ch =? RBRACKET then pret (list, count, p)
            else nxt_conf_json_parse_error p BracketOrCommaExpected
  end.

(** The copy of the list into the [count] elements of the array. *)
Definition copy_elements {A} (count : nat) (l : list A) : outcome (list A) :=
  if (length l <=? count)%nat then Ret l else Fault.

Definition nxt_conf_json_parse_array (parse_value : nat -> parser (conf_value * nat)) (b : list Z)
    (start : nat) : parser (conf_value * nat) :=
  let! ok := request alloc in
  if negb ok then pfail None
  else
    let! created := (fun mp => Ret (nxt_list_create (A := conf_value) alloc mp 8)) in
    match created with
    | None => pfail None
    | Some list =>
      let? (list, count, p) := array_loop (S (length b)) parse_value b start 0 list in
      let! ok := request alloc in
      if negb ok then pfail None
      else
        let? elements :=
          plift (copy_elements count (nxt_list_each (fun x acc => acc ++ [x]) (Some list) [])) in
        pret (VALUE_ARRAY elements, S p)
    end.

(** *** Objects *)

(** The loop of [nxt_conf_json_parse_object] from the brace or comma at [p]:
    the hash, the values of the members in the order of the text, and the
    closing brace. *)
Fixpoint object_loop (fuel : nat) (parse_value : nat -> parser (conf_value * nat)) (b : list Z)
    (p : nat) (hash : table) (values : list conf_value) :
    parser (table * list conf_value * nat) :=
  match fuel with
  | O => plift OutOfFuel
  | S fuel' =>
    let p := nxt_conf_json_skip_space b (S p) in
    if (p =? length b)%nat then nxt_conf_json_parse_error p ObjectNotClosed
    else
      let? ch := plift (of_option (b !! p)) in
      if negb (ch =? DQUOTE) then
        if ch =? RBRACE then pret (hash, values, p) else nxt_conf_json_parse_error p NameExpected
      else
        let name := p in
        let count := length values in
        if NXT_CONF_JSON_MAX_ELEMENTS <=? Z.of_nat count
        then nxt_conf_json_parse_error p TooManyMembers
        else
          let! ok := request alloc in
          if negb ok then pfail None
          else
            let? (str, p) := nxt_conf_json_parse_string b p in
            let! (rc, hash) := table_insert alloc (Member count str) hash in
            if negb (rc =? NXT_OK) then
              if rc =? NXT_DECLINED then nxt_conf_json_parse_error name DuplicateMember else pfail None
            else
              let p := nxt_conf_json_skip_space b p in
              if (p =? length b)%nat then nxt_conf_json_parse_error p MemberWithoutValue
              else
                let? ch := plift (of_option (b !! p)) in
                if negb (ch =? COLON) then nxt_conf_json_parse_error p ColonExpected
                else
                  let p := nxt_conf_json_skip_space b (S p) in
                  if (p =? length b)%nat then nxt_conf_json_parse_error p MemberWithoutValue
                  else
                    let? (v, p) := parse_value p in
                    let values := values ++ [v] in
                    let p := nxt_conf_json_skip_space b p in
                    if (p =? length b)%nat then nxt_conf_json_parse_error p ObjectNotClosed
                    else
                      let? ch := plift (of_option (b !! p)) in
                      if ch =? COMMA then object_loop fuel' parse_value b p hash values
                      else if ch =? RBRACE then pret (hash, values, p)
                      else nxt_conf_json_parse_error p BraceOrCommaExpected
  end.

(** [*member++ = *element]: the members as the hash enumerates them. *)
Fixpoint copy_members (values : list conf_value) (l : list member) :
    outcome (list (conf_string * conf_value)) :=
  match l with
  | [] => Ret []
  | x :: l' =>
    let* v := of_option (values !! m_index x) in
    let* ms := copy_members values l' in
    Ret ((m_name x, v) :: ms)
  end.

Definition nxt_conf_json_parse_object (parse_value : nat -> parser (conf_value * nat)) (b : list Z)
    (start : nat) : parser (conf_value * nat) :=
  let! ok := request alloc in
  if negb ok then pfail None
  else
    let? (hash, values, p) := object_loop (S (length b)) parse_value b start table_empty [] in
    let count := length values in
    let! ok := request alloc in
    if negb ok then pfail None
    else
      let? elements := plift (table_each (S count) hash) in
      let? members := plift (copy_members values elements) in
      let? members := plift (copy_elements count members) in
      pret (VALUE_OBJECT members, S p).

(** *** Values *)

(** [memcmp(start, word, len) == 0] with [end - start >= len] *)
Definition has_word (b : list Z) (start : nat) (word : list Z) : bool :=
  bool_decide (take (length word) (drop start b) = word).

(** The bytes that may follow a number. *)
Definition is_delimiter (ch : Z) : bool :=
  is_space ch || (ch =? COMMA) || (ch =? RBRACE) || (ch =? RBRACKET) || (ch =? LBRACE)
  || (ch =? LBRACKET) || (ch =? DQUOTE) || (ch =? SLASH).

Definition parse_word (b : list Z) (start : nat) (word : list Z) (v : conf_value) :
    parser (conf_value * nat) :=
  if has_word b start word then pret (v, (start + length word)%nat)
  else nxt_conf_json_parse_error start ValueExpected.

(** The cases of the switch that are not containers. *)
Definition parse_scalar (b : list Z) (start : nat) (ch : Z) : parser (conf_value * nat) :=
  if ch =? DQUOTE then
    let? (s, p) := nxt_conf_json_parse_string b start in pret (VALUE_STRING s, p)
  else if ch =? 116 then parse_word b start (bytes_of_string "true") (VALUE_BOOLEAN true)
  else if ch =? 102 then parse_word b start (bytes_of_string "false") (VALUE_BOOLEAN false)
  else if ch =? 110 then parse_word b start (bytes_of_string "null") VALUE_NULL
  else
    let error := nxt_conf_json_parse_error start ValueExpected in
    let digit :=
      if ch =? MINUS
      then match b !! S start with Some ch => is_digit ch | None => false end
      else is_digit ch in
    if digit then
      let? (v, p) := nxt_conf_json_parse_number b start in
      if (p =? length b)%nat then pret (v, p)
      else
        let? ch := plift (of_option (b !! p)) in
        if is_delimiter ch then pret (v, p) else error
    else error.

Fixpoint nxt_conf_json_parse_value (d : nat) (b : list Z) (start : nat) {struct d} :
    parser (conf_value * nat) :=
  let? ch := plift (of_option (b !! start)) in
  if ch =? LBRACE then
    match d with
    | O => nxt_conf_json_parse_error start TooDeep
    | S d' => nxt_conf_json_parse_object (nxt_conf_json_parse_value d' b) b start
    end
  else if ch =? LBRACKET then
    match d with
    | O => nxt_conf_json_parse_error start TooDeep
    | S d' => nxt_conf_json_parse_array (nxt_conf_json_parse_value d' b) b start
    end
  else parse_scalar b start ch.

Definition nxt_conf_json_parse (b : list Z) : parser conf_value :=
  let! ok := request alloc in
  if negb ok then pfail None
  else
    let p := nxt_conf_json_skip_space b 0 in
    if (p =? length b)%nat then nxt_conf_json_parse_error 0 EmptyPayload
    else
      let? (v, p) := nxt_conf_json_parse_value NXT_CONF_JSON_MAX_DEPTH b p in
      let p := nxt_conf_json_skip_space b p in
      if negb (p =? length b)%nat then nxt_conf_json_parse_error p TrailingCharacter
      else pret v.

End Parse.
