(* ===== verification/ConfLex.v ===== *)
(** * The lexical grammar of the configuration files

    Spaces and comments, strings and numbers: what the language is, as
    inductive predicates, and that the scanners of ConfParse.v recognize
    it. *)

From stdpp Require Import gmap.
From Stdlib Require Import QArith Qabs.
From S2P Require Import Prelude NxtList Utf8 ConfValue Lvlhsh ConfHash ConfParse.
#[local] Open Scope Z_scope.

(** ** Spaces and comments *)

(** A text in which no comment ends. *)
Definition open_comment (l : list Z) : Prop :=
  forall i, l !! i = Some STAR -> l !! S i <> Some SLASH.

Inductive ws : list Z -> Prop :=
| ws_nil : ws []
| ws_space c t : is_space c = true -> ws t -> ws (c :: t)
| ws_line body t : LF ∉ body -> ws t -> ws ([SLASH; SLASH] ++ body ++ [LF] ++ t)
| ws_block body t : open_comment (body ++ [STAR]) -> ws t -> ws ([SLASH; STAR] ++ body ++ [STAR; SLASH] ++ t).

#[export] Hint Constructors ws : nxt.

(** A text that begins with neither a space nor a slash. *)
Definition no_space (l : list Z) : Prop :=
  match l with [] => True | c :: _ => is_space c = false /\ c <> SLASH end.

Lemma line_loop body t p start : LF ∉ body ->
  space_loop (body ++ [LF] ++ t) p start sw_single_comment
  = space_loop t (p + length body + 1) start sw_normal.
Proof.
  revert p. induction body as [|c body IH]; intros p Hb; cbn [app space_loop length].
  - rewrite Z.eqb_refl. f_equal. lia.
  - apply not_elem_of_cons in Hb as [Hc Hb]. rewrite (proj2 (Z.eqb_neq c LF)) by done.
    rewrite IH by done. f_equal. lia.
Qed.

Lemma line_open l p start : LF ∉ l -> space_loop l p start sw_single_comment = start.
Proof.
  revert p. induction l as [|c l IH]; intros p Hl; [done|]. cbn [space_loop].
  apply not_elem_of_cons in Hl as [Hc Hl]. rewrite (proj2 (Z.eqb_neq c LF)) by done. by apply IH.
Qed.

Lemma open_comment_tail c l : open_comment (c :: l) -> open_comment l.
Proof. intros H i Hi. apply (H (S i)). done. Qed.

(** The state in a comment: [star] tells that the last byte was an asterisk. *)
Definition in_block (star : bool) : space_state := if star then sw_after_asterisk else sw_multi_comment.

Lemma block_step star c l p start :
  space_loop (c :: l) p start (in_block star)
  = if star && (c =? SLASH) then space_loop l (S p) start sw_normal
    else space_loop l (S p) start (in_block (c =? STAR)).
Proof.
  destruct star; cbn [in_block space_loop andb].
  - destruct (c =? SLASH); [done|]. by destruct (c =? STAR).
  - by destruct (c =? STAR).
Qed.

Lemma block_loop body t : forall (star : bool) p start,
  open_comment ((if star then [STAR] else []) ++ body ++ [STAR]) ->
  space_loop (body ++ [STAR; SLASH] ++ t) p start (in_block star)
  = space_loop t (p + length body + 2) start sw_normal.
Proof.
  induction body as [|c body IH]; intros star p start Ho.
  - cbn [app]. rewrite block_step. cbn [Z.eqb andb]. rewrite andb_false_r, block_step. cbn. f_equal. lia.
  - cbn [app]. rewrite block_step.
    assert (Hs : star && (c =? SLASH) = false).
    { destruct star; [|done]. cbn [andb]. apply Z.eqb_neq. intros ->. by apply (Ho 0%nat). }
    rewrite Hs, IH; [cbn [length]; f_equal; lia|].
    assert (Ho' : open_comment (c :: body ++ [STAR])) by (destruct star; [by eapply open_comment_tail|done]).
    destruct (c =? STAR) eqn:E; zbool; [by subst|]. by eapply open_comment_tail.
Qed.

Lemma block_open l : forall (star : bool) p start,
  open_comment ((if star then [STAR] else []) ++ l) -> space_loop l p start (in_block star) = start.
Proof.
  induction l as [|c l IH]; intros star p start Ho; [by destruct star|]. rewrite block_step.
  assert (Hs : star && (c =? SLASH) = false).
  { destruct star; [|done]. cbn [andb]. apply Z.eqb_neq. intros ->. by apply (Ho 0%nat). }
  rewrite Hs, IH; [done|].
  assert (Ho' : open_comment (c :: l)) by (destruct star; [by eapply open_comment_tail|done]).
  destruct (c =? STAR) eqn:E; zbool; [by subst|]. by eapply open_comment_tail.
Qed.

Lemma slash_line l p start :
  space_loop ([SLASH; SLASH] ++ l) p start sw_normal = space_loop l (S (S p)) p sw_single_comment.
Proof. done. Qed.

Lemma slash_block l p start :
  space_loop ([SLASH; STAR] ++ l) p start sw_normal = space_loop l (S (S p)) p (in_block false).
Proof. done. Qed.

Lemma space_complete w r p start : ws w -> no_space r ->
  space_loop (w ++ r) p start sw_normal = (p + length w)%nat.
Proof.
  intros Hw Hr. revert p start. induction Hw as [|c t Hc Hw IH|body t Hb Hw IH|body t Hb Hw IH]; intros p start.
  - cbn [app length]. rewrite Nat.add_0_r. destruct r as [|c r]; [done|]. destruct Hr as [Hs Hn].
    cbn [space_loop]. by rewrite Hs, (proj2 (Z.eqb_neq c SLASH)) by done.
  - cbn [app space_loop length]. rewrite Hc, IH. lia.
  - rewrite <- !app_assoc, slash_line, line_loop, IH by done. rewrite !length_app. cbn [length]. lia.
  - rewrite <- !app_assoc, slash_block, block_loop, IH by done. rewrite !length_app. cbn [length]. lia.
Qed.

Lemma find_lf l : LF ∉ l \/ exists body t, l = body ++ [LF] ++ t /\ LF ∉ body.
Proof.
  destruct (decide (LF ∈ l)) as [Hin|]; [right|by left].
  apply list_elem_of_split_l in Hin as (body & t & -> & Hn). by exists body, t.
Qed.

Lemma find_close l : open_comment l
  \/ exists body t, l = body ++ [STAR; SLASH] ++ t /\ open_comment (body ++ [STAR]).
Proof.
  induction l as [|c l IH]; [left; by intros i Hi|].
  destruct IH as [Ho|(body & t & -> & Ho)].
  - destruct (decide (c = STAR)) as [->|Hc].
    + destruct l as [|c' l]; [left; intros [|i] Hi; done|]. destruct (decide (c' = SLASH)) as [->|Hc'].
      * right. exists [], l. split; [done|]. intros [|i] Hi; done.
      * left. intros [|i] Hi; [cbn; congruence|by apply Ho].
    + left. intros [|i] Hi; [cbn in Hi; congruence|by apply Ho].
  - destruct (decide (c = STAR)) as [->|Hc].
    + destruct body as [|c' body].
      * right. exists [STAR], t. split; [done|]. intros [|i] Hi; [done|by apply Ho].
      * destruct (decide (c' = SLASH)) as [->|Hc'].
        -- right. exists [], (body ++ [STAR; SLASH] ++ t). split; [done|]. intros [|i] Hi; done.
        -- right. exists (STAR :: c' :: body), t. split; [done|].
           intros [|i] Hi; [cbn; congruence|by apply Ho].
    + right. exists (c :: body), t. split; [done|]. intros [|i] Hi; [cbn in Hi; congruence|by apply Ho].
Qed.

(** What is skipped is space. *)
Lemma space_sound n : forall l p start, (length l <= n)%nat ->
  exists w r, l = w ++ r /\ ws w /\ space_loop l p start sw_normal = (p + length w)%nat.
Proof.
  induction n as [|n IH]; intros l p start Hn.
  { destruct l; [|cbn in Hn; lia]. exists [], []. split_and!; [done|constructor|cbn; lia]. }
  assert (Hstop : forall l, space_loop l p start sw_normal = p ->
    exists w r, l = w ++ r /\ ws w /\ space_loop l p start sw_normal = (p + length w)%nat).
  { intros l' Hl'. exists [], l'. split_and!; [done|constructor|cbn; lia]. }
  destruct l as [|c l]; [by apply Hstop|]. destruct (is_space c) eqn:Es.
  { destruct (IH l (S p) start) as (w & r & -> & Hw & Hr); [cbn in Hn; lia|].
    exists (c :: w), r. split; [done|]. split; [by constructor|]. cbn [space_loop length]. rewrite Es, Hr. lia. }
  destruct (c =? SLASH) eqn:Ec; [|by apply Hstop; cbn [space_loop]; rewrite Es, Ec].
  zbool. subst c. destruct l as [|c l]; [by apply Hstop|].
  destruct (decide (c = SLASH)) as [->|Hc1].
  { destruct (find_lf l) as [Hl|(body & t & -> & Hb)].
    - apply Hstop. change (SLASH :: SLASH :: l) with ([SLASH; SLASH] ++ l). rewrite slash_line. by apply line_open.
    - destruct (IH t (S (S p) + length body + 1)%nat p) as (w & r & -> & Hw & Hr);
        [cbn in Hn; rewrite length_app in Hn; cbn in Hn; lia|].
      exists ([SLASH; SLASH] ++ body ++ [LF] ++ w), r. split; [by rewrite <- !app_assoc|]. split; [by constructor|].
      change (SLASH :: SLASH :: ?l) with ([SLASH; SLASH] ++ l).
      rewrite slash_line, line_loop, Hr by done. rewrite !length_app. cbn [length]. lia. }
  destruct (decide (c = STAR)) as [->|Hc2].
  { destruct (find_close l) as [Hl|(body & t & -> & Hb)].
    - apply Hstop. change (SLASH :: STAR :: l) with ([SLASH; STAR] ++ l). rewrite slash_block. by apply block_open.
    - destruct (IH t (S (S p) + length body + 2)%nat p) as (w & r & -> & Hw & Hr);
        [cbn in Hn; rewrite length_app in Hn; cbn in Hn; lia|].
      exists ([SLASH; STAR] ++ body ++ [STAR; SLASH] ++ w), r. split; [by rewrite <- !app_assoc|]. split; [by constructor|].
      change (SLASH :: STAR :: ?l) with ([SLASH; STAR] ++ l).
      rewrite slash_block, block_loop, Hr by done. rewrite !length_app. cbn [length]. lia. }
  apply Hstop. cbn [space_loop]. change (is_space SLASH) with false. rewrite Z.eqb_refl.
  by rewrite (proj2 (Z.eqb_neq c SLASH)), (proj2 (Z.eqb_neq c STAR)) by done.
Qed.

(** The texts of a buffer around a skipped space. *)
Lemma skip_sound b p : (p <= length b)%nat ->
  let p' := nxt_conf_json_skip_space b p in
  (p <= p' <= length b)%nat /\ exists w, ws w /\ drop p b = w ++ drop p' b /\ length w = (p' - p)%nat.
Proof.
  intros Hp p'. destruct (space_sound _ (drop p b) p p (le_n _)) as (w & r & Hl & Hw & Hr).
  assert (Hp' : p' = (p + length w)%nat) by exact Hr.
  assert (Hlen : (length w <= length b - p)%nat).
  { rewrite <- length_drop, Hl, length_app. lia. }
  split; [lia|]. exists w. split; [done|]. split; [|lia].
  rewrite Hp', <- drop_drop, Hl. by rewrite drop_app_length.
Qed.

Lemma skip_complete b p w r : drop p b = w ++ r -> ws w -> no_space r ->
  nxt_conf_json_skip_space b p = (p + length w)%nat /\ drop (p + length w) b = r.
Proof.
  intros Hd Hw Hr. unfold nxt_conf_json_skip_space. rewrite Hd, <- drop_drop, Hd, drop_app_length.
  split; [by apply space_complete|done].
Qed.

(** ** Strings *)

(** The value of a hexadecimal digit. *)
Definition hex_digit (c : Z) : option Z :=
  if (CH_0 <=? c) && (c <=? CH_9) then Some (c - CH_0)
  else if (CH_A <=? c) && (c <=? CH_F) then Some (c - CH_A + 10)
  else if (CH_a <=? c) && (c <=? CH_f) then Some (c - CH_a + 10)
  else None.

(** The value of four digits. *)
Definition hex4 (l : list Z) : option Z :=
  match l with
  | [a; b; c; d] =>
    match hex_digit a, hex_digit b, hex_digit c, hex_digit d with
    | Some a, Some b, Some c, Some d => Some (a * 4096 + b * 256 + c * 16 + d)
    | _, _, _, _ => None
    end
  | _ => None
  end.

(** [jchars t n s]: the text [t] between the quote marks stands for the bytes
    [s]; [n] is the surplus. *)
Inductive jchars : list Z -> nat -> list Z -> Prop :=
| jc_nil : jchars [] 0 []
| jc_char c t n s : SP <= c -> c <> DQUOTE -> c <> BACKSLASH -> jchars t n s -> jchars (c :: t) n (c :: s)
| jc_escape e c t n s : unescape e = Some c -> jchars t n s -> jchars ([BACKSLASH; e] ++ t) (n + 1) (c :: s)
| jc_unit h u t n s : hex4 h = Some u -> (u < 0xD800 \/ 0xDFFF < u) -> jchars t n s ->
    jchars ([BACKSLASH; 117] ++ h ++ t) (n + 3) (utf8 u ++ s)
| jc_pair h h' u u' t n s : hex4 h = Some u -> 0xD800 <= u <= 0xDBFF ->
    hex4 h' = Some u' -> 0xDC00 <= u' <= 0xDFFF -> jchars t n s ->
    jchars ([BACKSLASH; 117] ++ h ++ [BACKSLASH; 117] ++ h' ++ t) (n + 6)
      (utf8 ((u - 0xD800) * 1024 + (u' - 0xDC00) + 0x10000) ++ s).

(** The same without regard to surrogates: what the first pass accepts. *)
Inductive jshape : list Z -> nat -> Prop :=
| js_nil : jshape [] 0
| js_char c t n : SP <= c -> c <> DQUOTE -> c <> BACKSLASH -> jshape t n -> jshape (c :: t) n
| js_escape e c t n : unescape e = Some c -> jshape t n -> jshape ([BACKSLASH; e] ++ t) (n + 1)
| js_unit h u t n : hex4 h = Some u -> jshape t n -> jshape ([BACKSLASH; 117] ++ h ++ t) (n + 3).

Lemma hex_digit_range c v : hex_digit c = Some v -> 0 <= v < 16.
Proof. unfold hex_digit. intros H. repeat case_match; simplify_eq; zbool; lia. Qed.

Lemma is_hex_digit c : is_hex c = bool_decide (is_Some (hex_digit c)).
Proof.
  unfold is_hex, hex_digit.
  destruct ((CH_0 <=? c) && (c <=? CH_9)); [done|].
  destruct ((CH_A <=? c) && (c <=? CH_F)); [done|].
  destruct ((CH_a <=? c) && (c <=? CH_f)); done.
Qed.

Lemma hex_digit_byte c v : hex_digit c = Some v -> byte c.
Proof. unfold hex_digit, byte. intros H. repeat case_match; simplify_eq; zbool; lia. Qed.

(** The digit as the second pass computes it. *)
Lemma hex_digit_code c v : hex_digit c = Some v ->
  (if CH_A <=? c then 10 + (Z.land c (Z.lnot 32) - CH_A) else c - CH_0) = v.
Proof.
  intros H. pose proof (hex_digit_byte c v H) as Hb.
  pose proof (byte_forallb (fun c => match hex_digit c with
    | Some v => (if CH_A <=? c then 10 + (Z.land c (Z.lnot 32) - CH_A) else c - CH_0) =? v
    | None => true end) eq_refl c Hb) as Hc.
  cbv beta in Hc. rewrite H in Hc. by zbool.
Qed.

Lemma hex4_inv h u : hex4 h = Some u ->
  exists a b c d va vb vc vd, h = [a; b; c; d] /\ hex_digit a = Some va /\ hex_digit b = Some vb
    /\ hex_digit c = Some vc /\ hex_digit d = Some vd /\ u = va * 4096 + vb * 256 + vc * 16 + vd.
Proof.
  unfold hex4. intros H. destruct h as [|a [|b [|c [|d [|]]]]]; try done.
  destruct (hex_digit a) as [va|] eqn:Ea, (hex_digit b) as [vb|] eqn:Eb,
    (hex_digit c) as [vc|] eqn:Ec, (hex_digit d) as [vd|] eqn:Ed; try done.
  injection H as <-. by exists a, b, c, d, va, vb, vc, vd.
Qed.

Lemma hex4_range h u : hex4 h = Some u -> 0 <= u <= 0xFFFF.
Proof.
  intros H. apply hex4_inv in H as (a & b & c & d & va & vb & vc & vd & _ & Ha & Hb & Hc & Hd & ->).
  apply hex_digit_range in Ha, Hb, Hc, Hd. lia.
Qed.

Lemma hex4_length h u : hex4 h = Some u -> length h = 4%nat.
Proof. intros H. by apply hex4_inv in H as (a & b & c & d & va & vb & vc & vd & -> & _). Qed.

(** *** The first pass *)

Lemma scan_hex4 h u l p k : hex4 h = Some u ->
  string_scan (h ++ l) p k (sw_encoded 1) = string_scan l (p + 4) k sw_usual.
Proof.
  intros H. apply hex4_inv in H as (a & b & c & d & va & vb & vc & vd & -> & Ha & Hb & Hc & Hd & _).
  assert (Hx : forall x v, hex_digit x = Some v -> is_hex x = true).
  { intros x v Hx. rewrite is_hex_digit. apply bool_decide_eq_true. by exists v. }
  cbn [app string_scan]. rewrite (Hx _ _ Ha), (Hx _ _ Hb), (Hx _ _ Hc), (Hx _ _ Hd).
  cbn [Nat.eqb]. replace (p + 4)%nat with (S (S (S (S p)))) by lia. done.
Qed.

Lemma unescape_117 : unescape 117 = None.
Proof. done. Qed.

Lemma scan_shape t n r p k : jshape t n ->
  string_scan (t ++ DQUOTE :: r) p k sw_usual = inr ((p + length t)%nat, (k + n)%nat).
Proof.
  intros Ht. revert p k. induction Ht as [|c t n Hc Hd Hb Ht IH|e c t n He Ht IH|h u t n Hh Ht IH]; intros p k.
  - cbn. do 2 f_equal; lia.
  - cbn [app string_scan length].
    rewrite (proj2 (Z.eqb_neq c DQUOTE)), (proj2 (Z.eqb_neq c BACKSLASH)), (proj2 (Z.leb_le SP c)), IH by done.
    do 2 f_equal; lia.
  - cbn [app string_scan length Z.eqb]. cbn. rewrite He, IH. cbn. do 2 f_equal; lia.
  - rewrite <- !app_assoc. cbn [app string_scan]. cbn. rewrite (scan_hex4 h u), IH by done.
    rewrite length_app, (hex4_length _ _ Hh). do 2 f_equal; lia.
Qed.

(** The first pass in an encoded character: its digits or an error. *)
Lemma scan_encoded_inv j : forall l p k m, (m + j = 5)%nat -> (0 < j)%nat ->
  (exists h r, l = h ++ r /\ length h = j /\ Forall (fun c => is_Some (hex_digit c)) h)
  \/ (exists pos e, string_scan l p k (sw_encoded m) = inl (Some (pos, e)) /\ (pos <= p + length l)%nat).
Proof.
  induction j as [|j IH]; intros l p k m Hm Hj; [lia|].
  destruct l as [|c l]; [right; cbn; eexists _, _; split; [done|lia]|].
  cbn [string_scan length]. rewrite is_hex_digit. case_bool_decide as Hc.
  2:{ right. eexists _, _. split; [done|lia]. }
  destruct j as [|j].
  { left. exists [c], l. split_and!; [done|done|by constructor]. }
  rewrite (proj2 (Nat.eqb_neq m 4)) by lia.
  destruct (IH l (S p) k (S m)) as [(h & r & -> & Hl & Hh)|(pos & e & Hs & Hp)]; [lia|lia|left|right].
  - exists (c :: h), r. split_and!; [done|cbn; lia|by constructor].
  - exists pos, e. split; [done|lia].
Qed.

Lemma hex4_digits h : length h = 4%nat -> Forall (fun c => is_Some (hex_digit c)) h -> exists u, hex4 h = Some u.
Proof.
  intros Hl Hh. destruct h as [|a [|b [|c [|d [|]]]]]; try done.
  rewrite !Forall_cons in Hh. destruct Hh as ([va Ha] & [vb Hb] & [vc Hc] & [vd Hd] & _).
  unfold hex4. rewrite Ha, Hb, Hc, Hd. by eexists.
Qed.

Lemma scan_inv n : forall l p k, (length l <= n)%nat ->
  (exists t n r, l = t ++ DQUOTE :: r /\ jshape t n)
  \/ (exists pos e, string_scan l p k sw_usual = inl (Some (pos, e)) /\ (pos <= p + length l)%nat).
Proof.
  induction n as [|n IH]; intros l p k Hn.
  { destruct l; [|cbn in Hn; lia]. right. cbn. eexists _, _. split; [done|lia]. }
  destruct l as [|c l]; [right; cbn; eexists _, _; split; [done|lia]|]. cbn in Hn.
  destruct (decide (c = DQUOTE)) as [->|Hq]; [left; exists [], 0%nat, l; split; [done|constructor]|].
  destruct (decide (c = BACKSLASH)) as [->|Hb].
  - destruct l as [|e l]; [right; cbn; eexists _, _; split; [done|lia]|]. cbn in Hn.
    destruct (unescape e) as [x|] eqn:Ee.
    { destruct (IH l (S (S p)) (k + 1)%nat) as [(t & m & r & -> & Ht)|(pos & er & Hs & Hp)]; [lia|left|right].
      - exists ([BACKSLASH; e] ++ t), (m + 1)%nat, r. split; [done|]. by econstructor.
      - exists pos, er. cbn. rewrite Ee, Hs. split; [done|lia]. }
    destruct (decide (e = 117)) as [->|Hu].
    2:{ right. cbn. rewrite Ee, (proj2 (Z.eqb_neq e 117)) by done. eexists _, _. split; [done|lia]. }
    destruct (scan_encoded_inv 4 l (S (S p)) (k + 3)%nat 1) as [(h & r & -> & Hl & Hh)|(pos & er & Hs & Hp)]; [done|lia| |].
    2:{ right. exists pos, er. cbn. rewrite Hs. cbn [length]. split; [done|lia]. }
    destruct (hex4_digits h Hl Hh) as [u Hu].
    destruct (IH r (S (S p) + 4)%nat (k + 3)%nat) as [(t & m & r' & -> & Ht)|(pos & er & Hs & Hp)].
    { rewrite length_app in Hn. lia. }
    + left. exists ([BACKSLASH; 117] ++ h ++ t), (m + 3)%nat, r'. split; [by rewrite <- !app_assoc|]. by econstructor.
    + right. exists pos, er. cbn [string_scan Z.eqb]. cbn. rewrite (scan_hex4 h u), Hs by done.
      rewrite length_app, Hl. split; [done|lia].
  - destruct (SP <=? c) eqn:Ec.
    2:{ right. cbn [string_scan]. rewrite (proj2 (Z.eqb_neq c DQUOTE)), (proj2 (Z.eqb_neq c BACKSLASH)), Ec by done.
        eexists _, _. split; [done|cbn; lia]. }
    destruct (IH l (S p) k) as [(t & m & r & -> & Ht)|(pos & er & Hs & Hp)]; [lia|left|right].
    + exists (c :: t), m, r. split; [done|]. zbool. by constructor.
    + exists pos, er. cbn [string_scan]. rewrite (proj2 (Z.eqb_neq c DQUOTE)), (proj2 (Z.eqb_neq c BACKSLASH)), Ec, Hs by done.
      split; [done|cbn; lia].
Qed.

(** *** The second pass *)

Lemma hex_digit_lor u v : 0 <= u < 2 ^ 28 -> 0 <= v < 16 -> u32 (Z.lor (Z.shiftl u 4) v) = u * 16 + v.
Proof. intros Hu Hv. rewrite lor_shiftl by lia. unfold u32. rewrite Z.mod_small by lia. lia. Qed.

Lemma hex_loop_ok b p h u r : drop p b = h ++ r -> hex4 h = Some u -> hex_loop 4 b p 0 = Ret u.
Proof.
  intros Hd Hh. apply hex4_inv in Hh as (x0 & x1 & x2 & x3 & v0 & v1 & v2 & v3 & -> & H0 & H1 & H2 & H3 & ->).
  cbn [app] in Hd. apply drop_cons_inv in Hd as [L0 Hd]. apply drop_cons_inv in Hd as [L1 Hd].
  apply drop_cons_inv in Hd as [L2 Hd]. apply drop_cons_inv in Hd as [L3 _].
  cbn [hex_loop]. rewrite L0, L1, L2, L3. cbn [of_option obind].
  rewrite (hex_digit_code _ _ H0), (hex_digit_code _ _ H1), (hex_digit_code _ _ H2), (hex_digit_code _ _ H3).
  apply hex_digit_range in H0, H1, H2, H3. rewrite (hex_digit_lor 0 v0) by lia.
  rewrite (hex_digit_lor _ v1) by lia. rewrite (hex_digit_lor _ v2) by lia.
  rewrite (hex_digit_lor _ v3) by lia. f_equal. lia.
Qed.

Lemma jchars_shape t n s : jchars t n s -> jshape t n.
Proof.
  induction 1 as [|c t n s ? ? ? _ IH|e c t n s He _ IH|h u t n s Hh Hu _ IH|h h' u u' t n s Hh Hu Hh' Hu' _ IH].
  - constructor.
  - by constructor.
  - by econstructor.
  - by econstructor.
  - replace (n + 6)%nat with (n + 3 + 3)%nat by lia.
    apply (js_unit h u ([BACKSLASH; 117] ++ h' ++ t)); [done|]. by apply (js_unit h' u').
Qed.

Lemma utf8_length u : (length (utf8 u) <= 4)%nat.
Proof. unfold utf8. repeat case_match; cbn; lia. Qed.

Lemma utf8_length3 u : u < 0x10000 -> (length (utf8 u) <= 3)%nat.
Proof. intros Hu. unfold utf8. repeat case_match; zbool; cbn; lia. Qed.

(** The bytes of a string fit the size without the surplus. *)
Lemma jchars_size t n s : jchars t n s -> (length s + n <= length t)%nat.
Proof.
  induction 1 as [|c t n s ? ? ? _ IH|e c t n s He _ IH|h u t n s Hh Hu _ IH|h h' u u' t n s Hh Hu Hh' Hu' _ IH];
    cbn; rewrite ?length_app; cbn; rewrite ?length_app; rewrite ?(hex4_length _ _ Hh); try lia.
  - pose proof (hex4_range _ _ Hh). pose proof (utf8_length3 u). lia.
  - rewrite (hex4_length _ _ Hh'). pose proof (utf8_length ((u - 0xD800) * 1024 + (u' - 0xDC00) + 0x10000)). lia.
Qed.

Lemma jshape_size t n : jshape t n -> (n <= length t)%nat.
Proof.
  induction 1 as [|c t n ? ? ? _ IH|e c t n He _ IH|h u t n Hh _ IH]; cbn; rewrite ?length_app; cbn; try lia.
  rewrite (hex4_length _ _ Hh). lia.
Qed.

(** One or two units. *)
Lemma utf16_unit b p h u r : drop p b = h ++ r -> hex4 h = Some u -> (u < 0xD800 \/ 0xDFFF < u) ->
  utf16 b p = Ret (inr (u, (p + 4)%nat)).
Proof.
  intros Hd Hh Hu. unfold utf16. rewrite (hex_loop_ok b p h u r) by done. cbn [obind].
  destruct (u <? 0xD800) eqn:E1, (0xDFFF <? u) eqn:E2; zbool; try done. lia.
Qed.

Definition pair_char (u u' : Z) : Z := (u - 0xD800) * 1024 + (u' - 0xDC00) + 0x10000.

Lemma drop_app_inv {A} (l : list A) p a r : drop p l = a ++ r -> drop (p + length a) l = r.
Proof. intros H. by rewrite <- drop_drop, H, drop_app_length. Qed.

Lemma utf16_pair b p h u h' u' r : drop p b = h ++ [BACKSLASH; 117] ++ h' ++ r ->
  hex4 h = Some u -> 0xD800 <= u <= 0xDBFF -> hex4 h' = Some u' ->
  utf16 b p = Ret (if (u' <? 0xDC00) || (0xDFFF <? u') then inl (Some ((p + 10 - 12)%nat, IllegalSurrogatePair))
                   else inr (pair_char u u', (p + 10)%nat)).
Proof.
  intros Hd Hh Hu Hh'. unfold utf16. rewrite (hex_loop_ok b p h u _ Hd Hh). cbn [obind].
  rewrite (proj2 (Z.ltb_ge u 0xD800)), (proj2 (Z.ltb_ge 0xDFFF u)), (proj2 (Z.ltb_ge 0xDBFF u)) by lia.
  apply drop_app_inv in Hd. rewrite (hex4_length _ _ Hh) in Hd. cbn [app] in Hd.
  apply drop_cons_inv in Hd as [L0 Hd]. apply drop_cons_inv in Hd as [L1 Hd].
  rewrite L0, L1. cbn [of_option obind orb]. rewrite !Z.eqb_refl. cbn [negb].
  rewrite (hex_loop_ok b (p + 4 + 2) h' u' r) by (done || (rewrite <- Hd; f_equal; lia)).
  cbn [obind]. replace (p + 4 + 6)%nat with (p + 10)%nat by lia.
  destruct ((u' <? 0xDC00) || (0xDFFF <? u')); [do 3 f_equal; lia|].
  unfold pair_char. rewrite Z.shiftl_mul_pow2 by lia. done.
Qed.

(** A lone surrogate. *)
Lemma utf16_alone b p h u r : drop p b = h ++ r -> hex4 h = Some u -> 0xD800 <= u <= 0xDFFF ->
  r <> [] -> (0xDBFF < u \/ head r <> Some BACKSLASH \/ exists e r', r = [BACKSLASH; e] ++ r' /\ e <> 117) ->
  utf16 b p = Ret (inl (Some ((p + 4 - 6)%nat, InvalidCharacter))).
Proof.
  intros Hd Hh Hu Hr Hc. unfold utf16. rewrite (hex_loop_ok b p h u _ Hd Hh). cbn [obind].
  rewrite (proj2 (Z.ltb_ge u 0xD800)), (proj2 (Z.ltb_ge 0xDFFF u)) by lia. cbn [orb].
  destruct (0xDBFF <? u) eqn:E; [done|]. zbool.
  apply drop_app_inv in Hd. rewrite (hex4_length _ _ Hh) in Hd.
  destruct r as [|c r]; [done|]. apply drop_cons_inv in Hd as [L0 Hd]. rewrite L0. cbn [of_option obind].
  destruct Hc as [Hc|[Hc|(e & r' & [= -> ->] & He)]]; [lia| |].
  - rewrite (proj2 (Z.eqb_neq c BACKSLASH)) by (cbn in Hc; congruence). done.
  - apply drop_cons_inv in Hd as [L1 _]. rewrite L1. cbn [of_option obind].
    rewrite (proj2 (Z.eqb_neq e 117)) by done. done.
Qed.

(** Where the second pass goes after a character. *)
Definition decode_next (fuel : nat) (b : list Z) (last size : nat) (p : nat) (s : list Z) :
    outcome (failure + list Z) :=
  if (p =? last)%nat then Ret (inr s) else string_decode fuel b p last size s.

Lemma write_ok size s bytes : (length s + length bytes <= size)%nat -> write size s bytes = Ret (s ++ bytes).
Proof. intros H. unfold write. by rewrite (proj2 (Nat.leb_le _ _)). Qed.

Lemma decode_char fuel b p last size out c : b !! p = Some c -> c <> BACKSLASH ->
  (length out + 1 <= size)%nat ->
  string_decode (S fuel) b p last size out = decode_next fuel b last size (S p) (out ++ [c]).
Proof.
  intros Hc Hb Hs. cbn [string_decode]. rewrite Hc. cbn [of_option obind].
  rewrite (proj2 (Z.eqb_neq c BACKSLASH)), write_ok by (done || (cbn; lia)). done.
Qed.

Lemma decode_escape fuel b p last size out e c r : drop p b = [BACKSLASH; e] ++ r -> unescape e = Some c ->
  (length out + 1 <= size)%nat ->
  string_decode (S fuel) b p last size out = decode_next fuel b last size (p + 2) (out ++ [c]).
Proof.
  intros Hd He Hs. cbn [app] in Hd. apply drop_cons_inv in Hd as [L0 Hd]. apply drop_cons_inv in Hd as [L1 _].
  cbn [string_decode]. rewrite L0, L1. cbn [of_option obind orb]. rewrite !Z.eqb_refl. cbn [negb]. rewrite He, write_ok by (cbn; lia).
  replace (p + 2)%nat with (S (S p)) by lia. done.
Qed.

(** A character that is encoded. *)
Lemma decode_encoded_char fuel b p last size out r : drop p b = [BACKSLASH; 117] ++ r ->
  string_decode (S fuel) b p last size out
  = let* r := utf16 b (p + 2) in
    match r with
    | inl e => Ret (inl e)
    | inr (utf, p) =>
      let* bytes := of_option (nxt_utf8_encode utf) in
      let* s := write size out bytes in
      decode_next fuel b last size p s
    end.
Proof.
  intros Hd. cbn [app] in Hd. apply drop_cons_inv in Hd as [L0 Hd]. apply drop_cons_inv in Hd as [L1 _].
  cbn [string_decode]. rewrite L0, L1. cbn [of_option obind orb]. rewrite !Z.eqb_refl. cbn [negb].
  replace (p + 2)%nat with (S (S p)) by lia. done.
Qed.

Lemma decode_utf8 fuel b last size out u p : 0 <= u < 0x110000 -> (length out + length (utf8 u) <= size)%nat ->
  (let* bytes := of_option (nxt_utf8_encode u) in
   let* s := write size out bytes in
   decode_next fuel b last size p s) = decode_next fuel b last size p (out ++ utf8 u).
Proof. intros Hu Hs. rewrite encode_arith by done. cbn [of_option obind]. by rewrite write_ok. Qed.

(** The text of the string behind its current character. *)
Lemma decode_rest b p t' a q last : drop p b = (a ++ t') ++ DQUOTE :: q -> last = (p + length (a ++ t'))%nat ->
  drop (p + length a) b = t' ++ DQUOTE :: q /\ last = (p + length a + length t')%nat.
Proof.
  intros Hd Hl. rewrite <- app_assoc in Hd. split; [by apply drop_app_inv|]. rewrite length_app in Hl. lia.
Qed.

Lemma decode_complete t n s : jchars t n s -> forall fuel b p q last size out,
  drop p b = t ++ DQUOTE :: q -> last = (p + length t)%nat -> (length t <= fuel)%nat ->
  (length out + length t <= size + n)%nat ->
  decode_next fuel b last size p out = Ret (inr (out ++ s)).
Proof.
  induction 1 as [|c t n s Hc Hq Hb Ht IH|e c t n s He Ht IH|h u t n s Hh Hu Ht IH|h h' u u' t n s Hh Hu Hh' Hu' Ht IH];
    intros fuel b p q last size out Hd Hl Hf Hs.
  - unfold decode_next. rewrite (proj2 (Nat.eqb_eq p last)) by (cbn in Hl; lia). by rewrite app_nil_r.
  - cbn [length] in *. unfold decode_next. rewrite (proj2 (Nat.eqb_neq p last)) by lia.
    pose proof (jchars_size _ _ _ Ht). destruct fuel as [|fuel]; [lia|].
    cbn [app] in Hd. apply drop_cons_inv in Hd as [Hx Hd]. rewrite (decode_char _ _ _ _ _ _ c) by (done || lia).
    rewrite (IH fuel b (S p) q) by (done || rewrite ?length_app; cbn; lia). by rewrite <- app_assoc.
  - pose proof (jchars_size _ _ _ Ht). destruct (decode_rest _ _ _ _ _ _ Hd Hl) as [Hd' Hl'].
    rewrite <- app_assoc in Hd. rewrite length_app in *. cbn [length] in *. unfold decode_next.
    rewrite (proj2 (Nat.eqb_neq p last)) by lia. destruct fuel as [|fuel]; [lia|].
    rewrite (decode_escape _ _ _ _ _ _ e c _ Hd He) by lia.
    rewrite (IH fuel b _ q) by (done || rewrite ?length_app; cbn; lia). by rewrite <- app_assoc.
  - pose proof (jchars_size _ _ _ Ht). pose proof (hex4_range _ _ Hh). pose proof (hex4_length _ _ Hh) as Lh.
    pose proof (utf8_length3 u ltac:(lia)). rewrite app_assoc in Hd, Hl.
    destruct (decode_rest _ _ _ _ _ _ Hd Hl) as [Hd' Hl'].
    rewrite <- !app_assoc in Hd. rewrite !length_app in *. cbn [length] in *. unfold decode_next.
    rewrite (proj2 (Nat.eqb_neq p last)) by lia. destruct fuel as [|fuel]; [lia|].
    rewrite (decode_encoded_char _ _ _ _ _ _ _ Hd). apply (drop_app_inv _ _ [BACKSLASH; 117]) in Hd.
    rewrite (utf16_unit b (p + 2) h u _ Hd Hh Hu). cbn [obind]. rewrite decode_utf8 by lia.
    replace (p + 2 + 4)%nat with (p + (2 + length h))%nat by lia.
    rewrite (IH fuel b _ q) by (done || rewrite ?length_app; cbn; lia). by rewrite <- app_assoc.
  - pose proof (jchars_size _ _ _ Ht). pose proof (hex4_length _ _ Hh) as Lh. pose proof (hex4_length _ _ Hh') as Lh'.
    pose proof (utf8_length (pair_char u u')).
    assert (Hsplit : [BACKSLASH; 117] ++ h ++ [BACKSLASH; 117] ++ h' ++ t
      = ([BACKSLASH; 117] ++ h ++ [BACKSLASH; 117] ++ h') ++ t) by (by rewrite <- !app_assoc).
    rewrite Hsplit in Hd, Hl, Hf, Hs. destruct (decode_rest _ _ _ _ _ _ Hd Hl) as [Hd' Hl'].
    rewrite <- !app_assoc in Hd. rewrite !length_app in *. cbn [length] in *. unfold decode_next.
    rewrite (proj2 (Nat.eqb_neq p last)) by lia. destruct fuel as [|fuel]; [lia|].
    rewrite (decode_encoded_char _ _ _ _ _ _ _ Hd). apply (drop_app_inv _ _ [BACKSLASH; 117]) in Hd.
    rewrite (utf16_pair b (p + 2) h u h' u' _ Hd Hh Hu Hh').
    rewrite (proj2 (Z.ltb_ge u' 0xDC00)), (proj2 (Z.ltb_ge 0xDFFF u')) by lia. cbn [orb obind].
    rewrite decode_utf8; [|unfold pair_char; lia|lia].
    replace (p + 2 + 10)%nat with (p + (2 + (length h + (2 + length h'))))%nat by lia.
    rewrite (IH fuel b _ q) by (done || rewrite ?length_app; cbn; lia). by rewrite <- app_assoc.
Qed.

(** A character at the front of a shape, with the text [a] of its second unit,
    or a surrogate that is reported. *)
Lemma utf16_shape b p h u t n q :
  drop p b = h ++ t ++ DQUOTE :: q -> hex4 h = Some u -> jshape t n ->
  (exists c a t2 n2, utf16 b p = Ret (inr (c, (p + 4 + length a)%nat)) /\ t = a ++ t2 /\ jshape t2 n2
     /\ 0 <= c < 0x110000 /\ (length (utf8 c) + n <= 3 + length a + n2)%nat
     /\ forall s, jchars t2 n2 s -> jchars ([BACKSLASH; 117] ++ h ++ t) (n + 3) (utf8 c ++ s))
  \/ exists pos e, utf16 b p = Ret (inl (Some (pos, e))) /\ (pos <= p)%nat.
Proof.
  intros Hd Hh Ht. pose proof (hex4_range _ _ Hh) as Hu.
  destruct (decide (u < 0xD800 \/ 0xDFFF < u)) as [Hns|Hsur].
  { left. exists u, [], t, n. rewrite (utf16_unit b p h u _ Hd Hh Hns), Nat.add_0_r.
    pose proof (utf8_length3 u ltac:(lia)). split_and!; [done|done|done|lia|lia|cbn; lia|].
    intros s Hs. by apply (jc_unit h u). }
  assert (Halone : (0xDBFF < u \/ head (t ++ DQUOTE :: q) <> Some BACKSLASH
      \/ exists e r', t ++ DQUOTE :: q = [BACKSLASH; e] ++ r' /\ e <> 117) ->
    exists pos e, utf16 b p = Ret (inl (Some (pos, e))) /\ (pos <= p)%nat).
  { intros Hc. rewrite (utf16_alone b p h u _ Hd Hh) by (done || lia || by destruct t).
    eexists _, _. split; [done|lia]. }
  destruct (decide (0xDBFF < u)) as [Hhi|Hhi]; [right; apply Halone; by left|].
  inversion Ht as [|c t2 n2 Hc Hq Hb Ht2|e c t2 n2 He Ht2|h2 u2 t2 n2 Hh2 Ht2]; subst t n.
  - right. apply Halone. right. by left.
  - right. apply Halone. right. left. cbn. congruence.
  - right. apply Halone. right. right. exists e, (t2 ++ DQUOTE :: q). split; [done|]. by intros ->.
  - pose proof (hex4_length _ _ Hh2) as Lh2. rewrite <- !app_assoc in Hd.
    pose proof (utf16_pair b p h u h2 u2 _ Hd Hh ltac:(lia) Hh2) as Hp.
    destruct ((u2 <? 0xDC00) || (0xDFFF <? u2)) eqn:E; zbool.
    { right. rewrite Hp. eexists _, _. split; [done|lia]. }
    left. exists (pair_char u u2), ([BACKSLASH; 117] ++ h2), t2, n2. rewrite Hp.
    pose proof (utf8_length (pair_char u u2)). cbn [app length]. rewrite Lh2.
    split_and!; [do 3 f_equal; lia|done|done|unfold pair_char; lia|unfold pair_char; lia|lia|].
    intros s Hs. replace (n2 + 3 + 3)%nat with (n2 + 6)%nat by lia.
    apply (jc_pair h h2 u u2); (done || lia).
Qed.

(** A shape is a string, or the second pass reports a surrogate in it. *)
Lemma string_decode_sound m : forall t n fuel b p q last size out, (length t <= m)%nat -> jshape t n ->
  drop p b = t ++ DQUOTE :: q -> last = (p + length t)%nat -> (length t <= fuel)%nat ->
  (length out + length t <= size + n)%nat ->
  (exists s, jchars t n s)
  \/ exists pos e, decode_next fuel b last size p out = Ret (inl (Some (pos, e))) /\ (pos <= last)%nat.
Proof.
  induction m as [|m IH]; intros t n fuel b p q last size out Hm Ht Hd Hl Hf Hs.
  { destruct t; [|cbn in Hm; lia]. left. inversion Ht; subst; try done. exists []. constructor. }
  assert (Hne : t <> [] -> decode_next fuel b last size p out = string_decode fuel b p last size out).
  { intros Hne. unfold decode_next. rewrite (proj2 (Nat.eqb_neq p last)); [done|].
    destruct t; [done|cbn in Hl; lia]. }
  inversion Ht as [|c t' n' Hc Hq Hb Ht'|e c t' n' He Ht'|h u t' n' Hh Ht']; subst t n;
    [left; exists []; constructor|..];
    (destruct fuel as [|fuel]; [cbn in Hf; lia|]); rewrite Hne by done; pose proof (jshape_size _ _ Ht').
  - cbn [app length] in *. pose proof (drop_cons_inv _ _ _ _ Hd) as [Hx Hd'].
    rewrite (decode_char _ _ _ _ _ _ c) by (done || lia).
    destruct (IH t' n' fuel b (S p) q last size (out ++ [c])) as [[s Hs']|Her];
      [lia|done|done|lia|lia|rewrite length_app; cbn; lia|left|by right].
    exists (c :: s). by constructor.
  - destruct (decode_rest _ _ _ _ _ _ Hd Hl) as [Hd' Hl'].
    rewrite <- app_assoc in Hd. rewrite length_app in *. cbn [length] in *.
    rewrite (decode_escape _ _ _ _ _ _ e c _ Hd He) by lia.
    destruct (IH t' n' fuel b (p + 2)%nat q last size (out ++ [c])) as [[s Hs']|Her];
      [lia|done|done|lia|lia|rewrite length_app; cbn; lia|left|by right].
    exists (c :: s). by apply (jc_escape e c).
  - pose proof (hex4_length _ _ Hh) as Lh. rewrite <- !app_assoc in Hd.
    rewrite (decode_encoded_char _ _ _ _ _ _ _ Hd). apply (drop_app_inv _ _ [BACKSLASH; 117]) in Hd.
    rewrite !length_app in *. cbn [length] in *.
    destruct (utf16_shape b (p + 2) h u t' n' q Hd Hh Ht')
      as [(c & a & t2 & n2 & -> & -> & Ht2 & Hc & Hlen & Hj)|(pos & e & -> & Hp)].
    2:{ right. exists pos, e. split; [done|lia]. }
    cbn [obind]. rewrite length_app in *. rewrite decode_utf8; [|done|pose proof (jshape_size _ _ Ht2); lia].
    rewrite <- app_assoc in Hd. apply drop_app_inv, drop_app_inv in Hd. rewrite Lh in Hd.
    destruct (IH t2 n2 fuel b (p + 2 + 4 + length a)%nat q last size (out ++ utf8 c)) as [[s Hs']|Her];
      [lia|done|done|lia|lia|rewrite length_app; lia|left|by right].
    exists (utf8 c ++ s). by apply Hj.
Qed.

(** *** A string of the source *)

Lemma jshape_plain t n : jshape t n -> n = 0%nat -> jchars t 0 t.
Proof.
  induction 1 as [|c t n ? ? ? _ IH|e c t n He _ IH|h u t n Hh _ IH]; intros Hn; try lia.
  - constructor.
  - constructor; [done..|by apply IH].
Qed.

Lemma jchars_plain t n s : jchars t n s -> n = 0%nat -> s = t.
Proof.
  induction 1 as [|c t n s ? ? ? _ IH|e c t n s He _ IH|h u t n s Hh Hu _ IH|h h' u u' t n s Hh Hu Hh' Hu' _ IH];
    intros Hn; try lia; [done|]. by rewrite IH.
Qed.

(** [jstring t cs]: the value of a string with the text [t]; the size without
    the surplus decides on its representation. *)
Definition jstring (t : list Z) (cs : conf_string) : Prop :=
  exists n s, jchars t n s /\ Z.of_nat (length t - n) <= NXT_CONF_MAX_STRING
  /\ cs = if NXT_CONF_MAX_SHORT_STRING <? Z.of_nat (length t - n) then STRING s else SHORT_STRING s.

(** The bytes of a string: a copy, or the second pass. *)
Definition string_bytes (b : list Z) (p len n : nat) : outcome (failure + list Z) :=
  if (n =? 0)%nat then Ret (inr (take (len - n) (drop p b)))
  else string_decode (p + len - p) b p (p + len) (len - n) [].

Lemma string_bytes_next b p len n : (0 < len)%nat -> n <> 0%nat ->
  string_bytes b p len n = decode_next (p + len - p) b (p + len) (len - n) p [].
Proof.
  intros Hl Hn. unfold string_bytes, decode_next.
  by rewrite (proj2 (Nat.eqb_neq n 0)), (proj2 (Nat.eqb_neq p _)) by lia.
Qed.

Lemma string_bytes_complete b p t n s q :
  drop p b = t ++ DQUOTE :: q -> jchars t n s -> string_bytes b p (length t) n = Ret (inr s).
Proof.
  intros Hd Hs. destruct (decide (n = 0%nat)) as [->|Hn].
  - rewrite (jchars_plain _ _ _ Hs eq_refl). unfold string_bytes. cbn [Nat.eqb].
    rewrite Hd, Nat.sub_0_r, Nat.eqb_refl. do 2 f_equal. apply take_app_length.
  - pose proof (jchars_size _ _ _ Hs). rewrite string_bytes_next by lia.
    by rewrite (decode_complete t n s Hs _ b p q) by (done || cbn; lia).
Qed.

Lemma string_bytes_sound b p t n q :
  drop p b = t ++ DQUOTE :: q -> jshape t n ->
  (exists s, jchars t n s)
  \/ exists pos e, string_bytes b p (length t) n = Ret (inl (Some (pos, e))) /\ (pos <= p + length t)%nat.
Proof.
  intros Hd Ht. pose proof (jshape_size _ _ Ht) as Hsz. destruct (decide (n = 0%nat)) as [->|Hn].
  - left. exists t. by eapply jshape_plain.
  - rewrite string_bytes_next by lia.
    apply (string_decode_sound (length t) t n (p + length t - p) b p q); (done || cbn; lia).
Qed.

Lemma parse_string_run alloc b p t n q k :
  drop p b = DQUOTE :: t ++ DQUOTE :: q -> jshape t n ->
  let long := NXT_CONF_MAX_SHORT_STRING <? Z.of_nat (length t - n) in
  nxt_conf_json_parse_string alloc b p k
  = if long && (NXT_CONF_MAX_STRING <? Z.of_nat (length t - n))
    then Ret (inl (Some (S p, StringTooLong)), k)
    else
      if long && negb (alloc k) then Ret (inl None, S k)
      else
        let* r := string_bytes b (S p) (length t) n in
        Ret (match r with
             | inl e => inl e
             | inr s => inr (if long then STRING s else SHORT_STRING s, (p + length t + 2)%nat)
             end, if long then S k else k).
Proof.
  intros Hd Ht long. apply drop_cons_inv in Hd as [_ Hd]. pose proof (jshape_size _ _ Ht) as Hsz.
  unfold nxt_conf_json_parse_string, pbind, abind, plift. rewrite Hd, (scan_shape t n) by done.
  cbn [aret obind]. unfold string_size. cbn [Nat.add]. rewrite (proj2 (Nat.leb_le _ _)) by lia.
  unfold abind, alift, pret, aret. cbn [obind].
  replace (S (p + length t) - S p - n)%nat with (length t - n)%nat by lia. fold long.
  replace (S (S (p + length t))) with (p + length t + 2)%nat by lia.
  unfold string_bytes. rewrite <- Hd. destruct long; cbn [andb negb].
  - destruct (NXT_CONF_MAX_STRING <? Z.of_nat (length t - n)); [done|].
    unfold request. cbn [obind]. destruct (alloc k); [|done]. cbn [negb].
    destruct (n =? 0)%nat; cbn [obind]; [done|]. by destruct (string_decode _ _ _ _ _ _) as [[e|s]| |].
  - cbn [obind negb]. destruct (n =? 0)%nat; cbn [obind]; [done|].
    by destruct (string_decode _ _ _ _ _ _) as [[e|s]| |].
Qed.

Lemma parse_string_complete alloc b p t cs q k :
  (forall i, alloc i = true) -> drop p b = DQUOTE :: t ++ DQUOTE :: q -> jstring t cs ->
  exists k', nxt_conf_json_parse_string alloc b p k = Ret (inr (cs, (p + length t + 2)%nat), k').
Proof.
  intros Ha Hd (n & s & Hs & Hmax & ->). pose proof (jchars_shape _ _ _ Hs) as Ht.
  rewrite (parse_string_run alloc b p t n q k Hd Ht). cbv zeta. rewrite (proj2 (Z.ltb_ge _ _) Hmax), andb_false_r.
  rewrite Ha, andb_false_r. apply drop_cons_inv in Hd as [_ Hd].
  rewrite (string_bytes_complete b (S p) t n s q Hd Hs). cbn [obind]. by eexists.
Qed.

Lemma parse_string_sound alloc b p k :
  b !! p = Some DQUOTE ->
  exists r k', nxt_conf_json_parse_string alloc b p k = Ret (r, k') /\ (k <= k')%nat
    /\ match r with
       | inr (cs, p') => exists t q, drop p b = DQUOTE :: t ++ DQUOTE :: q /\ jstring t cs
           /\ p' = (p + length t + 2)%nat
       | inl (Some (pos, _)) => (pos <= length b)%nat
       | inl None => failed alloc k k'
       end.
Proof.
  intros Hq. pose proof (lookup_lt_Some _ _ _ Hq) as Hlt.
  pose proof (drop_lookup_cons _ _ _ Hq) as Hd.
  destruct (scan_inv (length (drop (S p) b)) (drop (S p) b) (S p) 0 (le_n _))
    as [(t & n & q & Ht & Hsh)|(pos & e & Hs & Hp)].
  2:{ exists (inl (Some (pos, e))), k. split; [|rewrite length_drop in Hp; split; lia].
      unfold nxt_conf_json_parse_string, pbind, abind. rewrite Hs. done. }
  rewrite Ht in Hd. rewrite (parse_string_run alloc b p t n q k Hd Hsh). cbv zeta.
  assert (Hlen : (length t + p + 2 <= length b)%nat).
  { apply (f_equal length) in Ht. rewrite length_drop, length_app in Ht. cbn in Ht. lia. }
  destruct (NXT_CONF_MAX_SHORT_STRING <? Z.of_nat (length t - n)) eqn:Elong; cbn [andb].
  - destruct (NXT_CONF_MAX_STRING <? Z.of_nat (length t - n)) eqn:Emax; zbool.
    { eexists _, k. split; [done|]. split; lia. }
    destruct (alloc k) eqn:Ea; cbn [negb].
    2:{ eexists _, (S k). split; [done|]. split; [lia|]. exists k. split; [lia|done]. }
    destruct (string_bytes_sound b (S p) t n q Ht Hsh) as [[s Hs]|(pos & e & -> & Hp)].
    + rewrite (string_bytes_complete b (S p) t n s q Ht Hs). cbn [obind].
      eexists _, (S k). split; [done|]. split; [lia|]. exists t, q. split_and!; [done| |done].
      exists n, s. rewrite (proj2 (Z.ltb_lt _ _) Elong). done.
    + cbn [obind]. eexists _, (S k). split; [done|]. split; lia.
  - destruct (string_bytes_sound b (S p) t n q Ht Hsh) as [[s Hs]|(pos & e & -> & Hp)].
    + rewrite (string_bytes_complete b (S p) t n s q Ht Hs). cbn [obind].
      eexists _, k. split; [done|]. split; [lia|]. exists t, q. split_and!; [done| |done].
      exists n, s. rewrite Elong. split_and!; [done|zbool; lia|done].
    + cbn [obind]. eexists _, k. split; [done|]. split; lia.
Qed.

(** ** Numbers *)

Definition digits (l : list Z) : Prop := Forall (fun c => is_digit c = true) l.

Definition fraction (f : list Z) : Prop := f = [] \/ exists ds, f = DOT :: ds /\ digits ds /\ ds <> [].

Definition exponent_sign (s : list Z) : Prop := s = [] \/ s = [MINUS] \/ s = [PLUS].

Definition exponent_part (e : list Z) : Prop :=
  e = [] \/ exists c s ds, e = c :: s ++ ds /\ (c = 101 \/ c = 69) /\ exponent_sign s /\ digits ds /\ ds <> [].

(** The text of a number.  Leading zeros are refused only without a minus
    sign. *)
Definition jnumber (t : list Z) : Prop :=
  exists sg i f e, t = sg ++ i ++ f ++ e /\ (sg = [] \/ sg = [MINUS]) /\ digits i /\ i <> []
  /\ (sg = [] -> (1 < length i)%nat -> head i <> Some CH_0) /\ fraction f /\ exponent_part e.

(** The value of a number. *)
Definition jnumber_value (strtod : list Z -> strtod_result) (t : list Z) (v : conf_value) : Prop :=
  Z.of_nat (length t) <= NXT_CONF_MAX_NUMBER_LEN
  /\ st_erange (strtod t) = false /\ too_large (st_num (strtod t)) = false
  /\ st_end (strtod t) = Some (length t)
  /\ v = if is_integral (st_num (strtod t)) then VALUE_INTEGER t else VALUE_NUMBER t.

(** A text that no digit begins. *)
Definition no_digit (l : list Z) : Prop := match l with [] => True | c :: _ => is_digit c = false end.

Lemma span_digits l : exists ds r, l = ds ++ r /\ digits ds /\ no_digit r.
Proof.
  induction l as [|c l (ds & r & -> & Hds & Hr)]; [exists [], []; split_and!; [done|constructor|done]|].
  destruct (is_digit c) eqn:E.
  - exists (c :: ds), r. split_and!; [done|by constructor|done].
  - exists [], (c :: ds ++ r). split_and!; [done|constructor|done].
Qed.

Lemma last_cons (ds : list Z) : forall c ch, List.last (c :: ds) ch = List.last ds c.
Proof.
  induction ds as [|d ds IH]; intros c ch; [done|].
  transitivity (List.last (d :: ds) ch); [done|]. by rewrite !IH.
Qed.

Lemma mantissa_digits ds x p dot ch : digits ds ->
  mantissa_loop (ds ++ x) p dot ch = mantissa_loop x (p + length ds) dot (List.last ds ch).
Proof.
  intros Hds. revert p ch. induction Hds as [|c ds Hc Hds IH]; intros p ch; cbn [app length].
  - f_equal. lia.
  - cbn [mantissa_loop]. rewrite Hc, IH. by rewrite Nat.add_succ_r, last_cons.
Qed.

Lemma last_digit ds ch : digits ds -> ds <> [] -> is_digit (List.last ds ch) = true.
Proof.
  intros Hds Hne. induction Hds as [|c ds Hc Hds IH]; [done|]. destruct ds as [|d ds]; [done|]. by apply IH.
Qed.

(** The byte that ends the digits, or the last one. *)
Definition end_char (x : list Z) (ch : Z) : Z := match x with [] => ch | c :: _ => c end.

Lemma mantissa_stop x p dot ch : no_digit x -> (dot = None -> head x <> Some DOT) ->
  mantissa_loop x p dot ch = (p, dot, end_char x ch).
Proof.
  intros Hx Hd. destruct x as [|c x]; [done|]. cbn in Hx |- *. rewrite Hx. destruct dot; [done|].
  rewrite (proj2 (Z.eqb_neq c DOT)); [done|]. specialize (Hd eq_refl). cbn in Hd. congruence.
Qed.

Lemma digit_dot : is_digit DOT = false.
Proof. done. Qed.

Lemma mantissa_fraction ds x p ch : digits ds -> no_digit x ->
  mantissa_loop (DOT :: ds ++ x) p None ch
  = ((p + 1 + length ds)%nat, Some p, end_char x (List.last ds DOT)).
Proof.
  intros Hds Hx. cbn [mantissa_loop]. rewrite digit_dot, Z.eqb_refl, mantissa_digits by done.
  rewrite mantissa_stop by done. f_equal. f_equal. lia.
Qed.

Lemma exponent_digits ds x p : digits ds -> no_digit x ->
  exponent_loop (ds ++ x) p = (p + length ds)%nat.
Proof.
  intros Hds Hx. revert p. induction Hds as [|c ds Hc Hds IH]; intros p; cbn [app length].
  - rewrite Nat.add_0_r. destruct x as [|c x]; [done|]. cbn in Hx |- *. by rewrite Hx.
  - cbn [exponent_loop]. rewrite Hc, IH. lia.
Qed.

Lemma is_digit_spec c : is_digit c = true -> byte c -> CH_0 <= c <= CH_9.
Proof. unfold is_digit, u8, byte. intros H Hb. zbool. dlia. Qed.

Lemma sign_not_digit c : is_digit c = true -> (c =? MINUS) || (c =? PLUS) = false.
Proof. intros H. destruct (c =? MINUS) eqn:E1, (c =? PLUS) eqn:E2; zbool; subst; done. Qed.

Lemma exponent_complete b p c s ds r :
  drop p b = c :: s ++ ds ++ r -> exponent_sign s -> digits ds -> ds <> [] -> no_digit r ->
  exponent b p = Some (p + 1 + length s + length ds)%nat.
Proof.
  intros Hd Hs Hds Hne Hr. apply drop_cons_inv in Hd as [_ Hd]. unfold exponent.
  destruct ds as [|d ds]; [done|].
  assert (Hdig : is_digit d = true) by (by inversion Hds).
  destruct Hs as [-> |Hs].
  - cbn [app] in Hd. pose proof (drop_cons_inv _ _ _ _ Hd) as [Hx _]. rewrite Hx.
    rewrite (sign_not_digit d) by done. rewrite Hd.
    change (d :: ds ++ r) with ((d :: ds) ++ r). rewrite exponent_digits by done.
    rewrite (proj2 (Nat.eqb_neq _ _)) by (cbn; lia). f_equal. cbn. lia.
  - assert (Hs1 : exists c1, s = [c1] /\ (c1 =? MINUS) || (c1 =? PLUS) = true).
    { destruct Hs as [-> | ->]; eexists; done. }
    destruct Hs1 as (c1 & -> & Hc1). cbn [app] in Hd. apply drop_cons_inv in Hd as [Hx Hd].
    rewrite Hx, Hc1, Hd. change (d :: ds ++ r) with ((d :: ds) ++ r). rewrite exponent_digits by done.
    rewrite (proj2 (Nat.eqb_neq _ _)) by (cbn; lia). f_equal. cbn. lia.
Qed.

Lemma exponent_sound b p c l p' : drop p b = c :: l -> exponent b p = Some p' ->
  exists s ds r, l = s ++ ds ++ r /\ exponent_sign s /\ digits ds /\ ds <> [] /\ no_digit r
    /\ p' = (p + 1 + length s + length ds)%nat.
Proof.
  intros Hd He. apply drop_cons_inv in Hd as [_ Hd]. unfold exponent in He.
  destruct l as [|c1 l].
  { apply drop_nil_ge in Hd. rewrite lookup_ge_None_2, Nat.eqb_refl in He by done. done. }
  pose proof (drop_cons_inv _ _ _ _ Hd) as [Hx Hd']. rewrite Hx in He.
  destruct ((c1 =? MINUS) || (c1 =? PLUS)) eqn:Es.
  - destruct (span_digits l) as (ds & r & -> & Hds & Hr). rewrite Hd', exponent_digits in He by done.
    destruct (_ =? _)%nat eqn:E in He; [done|]. zbool. injection He as <-.
    exists [c1], ds, r. split_and!; [done| |done| |done|cbn; lia].
    + right. destruct Es as [Es|Es]; zbool; subst; [by left|by right].
    + intros ->. cbn in E. lia.
  - destruct (span_digits (c1 :: l)) as (ds & r & Hl & Hds & Hr). rewrite Hd, Hl, exponent_digits in He by done.
    destruct (_ =? _)%nat eqn:E in He; [done|]. zbool. injection He as <-.
    exists [], ds, r. split_and!; [done|by left|done| |done|cbn; lia].
    intros ->. cbn in E. lia.
Qed.

(** The end of a value: the end of the text or a delimiter. *)
Definition follow (l : list Z) : Prop := match l with [] => True | c :: _ => is_delimiter c = true end.

Lemma delimiter_cases c : is_delimiter c = true -> c ∈ [SP; TAB; LF; CR; COMMA; RBRACE; RBRACKET; LBRACE; LBRACKET; DQUOTE; SLASH].
Proof.
  unfold is_delimiter, is_space. intros H.
  repeat (apply orb_true_iff in H; destruct H as [H|H]); apply Z.eqb_eq in H; subst c; by apply (bool_decide_unpack _).
Qed.

Lemma delimiter_stop c : is_delimiter c = true -> is_digit c = false /\ c <> DOT /\ c <> 101 /\ c <> 69.
Proof.
  intros H. apply delimiter_cases in H. revert c H. apply Forall_forall.
  repeat constructor; done.
Qed.

Lemma follow_no_digit r : follow r -> no_digit r /\ head r <> Some DOT /\ forall d, is_digit d = true ->
  (end_char r d =? 101) || (end_char r d =? 69) = false.
Proof.
  intros Hr. destruct r as [|c r]; cbn.
  - split; [done|]. split; [done|]. intros d Hd. destruct (d =? 101) eqn:E1, (d =? 69) eqn:E2; zbool; subst; done.
  - destruct (delimiter_stop c Hr) as (H1 & H2 & H3 & H4). split; [done|]. split; [congruence|].
    intros d _. by rewrite (proj2 (Z.eqb_neq c 101)), (proj2 (Z.eqb_neq c 69)).
Qed.

Lemma exponent_no_digit e : exponent_part e -> e <> [] -> forall r, no_digit (e ++ r) /\ head (e ++ r) <> Some DOT.
Proof.
  intros [->|(c & s & ds & -> & Hc & _)] Hne r; [done|]. cbn. destruct Hc as [-> | ->]; done.
Qed.

(** The first loop over the integer part and the fraction. *)
Lemma mantissa_number i f x s ch : digits i -> i <> [] -> fraction f -> no_digit x -> (f = [] -> head x <> Some DOT) ->
  exists d, is_digit d = true /\ mantissa_loop (i ++ f ++ x) s None ch
    = ((s + length i + length f)%nat, match f with [] => None | _ => Some (s + length i)%nat end, end_char x d).
Proof.
  intros Hi Hne Hf Hx Hdot. rewrite mantissa_digits by done. destruct Hf as [->|(ds & -> & Hds & Hdne)].
  - exists (List.last i ch). split; [by apply last_digit|]. cbn [app length].
    rewrite mantissa_stop by (done || by intros _; apply Hdot). by rewrite Nat.add_0_r.
  - exists (List.last ds DOT). split; [by apply last_digit|]. cbn [app].
    rewrite mantissa_fraction by done. f_equal. f_equal. cbn. lia.
Qed.

Section Number.
  Context (strtod : list Z -> strtod_result).

Lemma number_value_complete start t v k : jnumber_value strtod t v -> number_value strtod start t k = Ret (inr v, k).
Proof.
  intros (Hlen & He & Hl & Hend & ->). unfold number_value.
  rewrite (proj2 (Z.ltb_ge _ _) Hlen), He, Hl, Hend. cbn [orb]. by rewrite Nat.eqb_refl.
Qed.

Lemma number_value_sound start t k :
  exists r, number_value strtod start t k = Ret (r, k)
  /\ match r with
     | inr v => jnumber_value strtod t v
     | inl (Some (pos, _)) => pos = start
     | inl None => st_end (strtod t) <> Some (length t)
     end.
Proof.
  unfold number_value. destruct (NXT_CONF_MAX_NUMBER_LEN <? _) eqn:E1; [by eexists|]. zbool.
  destruct (st_erange (strtod t)) eqn:E2; [by eexists|]. cbn [orb].
  destruct (too_large (st_num (strtod t))) eqn:E3; [by eexists|].
  destruct (st_end (strtod t)) as [e|] eqn:E4; [|by eexists].
  destruct (e =? length t)%nat eqn:E5; zbool; cbn [negb].
  - eexists. split; [done|]. by split_and!; subst.
  - eexists. split; [done|]. congruence.
Qed.

(** The rest of the parser of a number behind the first loop. *)
Definition number_tail (b : list Z) (start p : nat) (ch : Z) : parser (conf_value * nat) :=
  let? p :=
    (if (ch =? 101) || (ch =? 69) then
       match exponent b p with
       | None => nxt_conf_json_parse_error start ExponentWithoutDigits
       | Some p => pret p
       end
     else pret p) in
  let? v := number_value strtod start (take (p - start) (drop start b)) in
  pret (v, p).

Lemma parse_number_run b start sg i f x k :
  drop start b = sg ++ i ++ f ++ x -> (sg = [] \/ sg = [MINUS]) -> digits i -> i <> [] -> fraction f ->
  no_digit x -> (f = [] -> head x <> Some DOT) ->
  exists d, is_digit d = true /\ nxt_conf_json_parse_number strtod b start k
  = if (1 <? length i)%nat && bool_decide (sg = [] /\ head i = Some CH_0)
    then Ret (inl (Some ((start + length sg)%nat, LeadingZeros)), k)
    else number_tail b start (start + length (sg ++ i ++ f)) (end_char x d) k.
Proof.
  intros Hd Hsg Hi Hne Hf Hx Hdot. destruct i as [|d0 i]; [done|].
  assert (H0 : is_digit d0 = true) by (by inversion Hi).
  assert (Hfirst : exists first, b !! start = Some first /\ (if first =? MINUS then S start else start) = (start + length sg)%nat
    /\ drop (start + length sg) b = (d0 :: i) ++ f ++ x
    /\ (first =? CH_0) = bool_decide (sg = [] /\ head (d0 :: i) = Some CH_0)).
  { destruct Hsg as [-> | ->].
    - exists d0. cbn [app] in Hd. pose proof (drop_cons_inv _ _ _ _ Hd) as [Hx0 _].
      pose proof (sign_not_digit d0 H0) as Hsd. apply orb_false_iff in Hsd as [Hsd _].
      rewrite Hsd, Nat.add_0_r. split_and!; [done|done|done|].
      destruct (d0 =? CH_0) eqn:E; zbool; symmetry; [apply bool_decide_eq_true|apply bool_decide_eq_false]; naive_solver.
    - exists MINUS. cbn [app] in Hd. pose proof (drop_cons_inv _ _ _ _ Hd) as [Hx0 Hd'].
      split_and!; [done|cbn; lia|change ((d0 :: i) ++ f ++ x) with (d0 :: i ++ f ++ x); rewrite <- Hd'; f_equal; cbn; lia|].
      symmetry. apply bool_decide_eq_false. naive_solver. }
  destruct Hfirst as (first & Hb & Hs & Hds & H0').
  destruct (mantissa_number (d0 :: i) f x (start + length sg) first) as (d & Hdd & Hm); [done..|].
  exists d. split; [done|]. unfold nxt_conf_json_parse_number, plift, pbind, abind, alift.
  rewrite Hb. cbn [of_option obind pret aret]. rewrite Hs, Hds, Hm, H0'.
  set (L := (start + length sg + length (d0 :: i))%nat).
  assert (Hdot_ok : (if match f with [] => None | _ => Some L end then
      ((L + length f - default (L + length f) match f with [] => None | _ => Some L end) <=? 1)%nat else false) = false).
  { destruct f as [|? f]; [done|]. cbn [default from_option id]. apply Nat.leb_gt.
    destruct Hf as [?|(ds & [= -> ->] & _ & Hn)]; [done|]. cbn. destruct ds; [done|cbn; lia]. }
  rewrite Hdot_ok.
  assert (Hlead : (default (L + length f) match f with [] => None | _ => Some L end - (start + length sg))%nat
    = length (d0 :: i)).
  { destruct f; cbn [default from_option id length]; unfold L; cbn; lia. }
  rewrite Hlead. replace (start + length (sg ++ (d0 :: i) ++ f))%nat with (L + length f)%nat
    by (unfold L; rewrite !length_app; lia).
  destruct ((1 <? length (d0 :: i))%nat && _); done.
Qed.

Lemma tail_complete b start m e r d v k :
  drop start b = (m ++ e) ++ r -> exponent_part e -> follow r -> is_digit d = true ->
  jnumber_value strtod (m ++ e) v ->
  number_tail b start (start + length m) (end_char (e ++ r) d) k
  = Ret (inr (v, (start + length (m ++ e))%nat), k).
Proof.
  intros Hd He Hr Hdd Hv. destruct (follow_no_digit r Hr) as (Hr1 & Hr2 & Hr3).
  assert (Htake : forall p, p = (start + length (m ++ e))%nat -> take (p - start) (drop start b) = m ++ e).
  { intros p ->. rewrite Hd. replace (start + length (m ++ e) - start)%nat with (length (m ++ e)) by lia.
    apply take_app_length. }
  unfold number_tail, pbind, abind. destruct He as [->|(c & s & ds & -> & Hc & Hs & Hds & Hne)].
  - cbn [app]. rewrite Hr3 by done. cbn [pret aret obind].
    rewrite app_nil_r in *. rewrite Htake, (number_value_complete start m v) by done. done.
  - assert (Hce : (c =? 101) || (c =? 69) = true) by (destruct Hc as [-> | ->]; done).
    cbn [app end_char]. rewrite Hce. rewrite <- app_assoc in Hd. apply drop_app_inv in Hd as Hd'.
    rewrite (exponent_complete b (start + length m) c s ds r); [| |done..].
    2:{ rewrite Hd'. cbn [app]. by rewrite <- !app_assoc. }
    assert (Hp : (start + length m + 1 + length s + length ds)%nat = (start + length (m ++ c :: s ++ ds))%nat)
      by (rewrite length_app; cbn; rewrite length_app; lia).
    cbn [pret aret obind]. rewrite Htake by done.
    rewrite (number_value_complete start _ v k Hv). cbn [obind]. by rewrite Hp.
Qed.

Lemma parse_number_complete b p t v r k :
  drop p b = t ++ r -> jnumber t -> jnumber_value strtod t v -> follow r ->
  nxt_conf_json_parse_number strtod b p k = Ret (inr (v, (p + length t)%nat), k).
Proof.
  intros Hd (sg & i & f & e & Et & Hsg & Hi & Hne & Hz & Hf & He) Hv Hr.
  destruct (follow_no_digit r Hr) as (Hr1 & Hr2 & Hr3).
  assert (Hx : no_digit (e ++ r) /\ head (e ++ r) <> Some DOT).
  { destruct (decide (e = [])) as [->|Hen]; [done|]. by apply exponent_no_digit. }
  assert (Hd' : drop p b = sg ++ i ++ f ++ e ++ r) by (by rewrite Hd, Et, <- !app_assoc).
  destruct (parse_number_run b p sg i f (e ++ r) k Hd' Hsg Hi Hne Hf (proj1 Hx) (fun _ => proj2 Hx)) as (d & Hdd & ->).
  assert (Hlead : (1 <? length i)%nat && bool_decide (sg = [] /\ head i = Some CH_0) = false).
  { apply andb_false_iff. destruct (1 <? length i)%nat eqn:E; [right|by left]. zbool.
    apply bool_decide_eq_false. intros [-> Hh]. by apply Hz. }
  rewrite Hlead. assert (Et' : t = (sg ++ i ++ f) ++ e) by (by rewrite Et, <- !app_assoc).
  rewrite Et' in Hd, Hv |- *. by apply tail_complete.
Qed.

(** The result of the parser of a number at [p]. *)
Definition number_post (b : list Z) (p : nat) (r : failure + conf_value * nat) : Prop :=
  match r with
  | inr (v, p') => exists t q, drop p b = t ++ q /\ jnumber t /\ jnumber_value strtod t v
      /\ p' = (p + length t)%nat /\ t <> []
  | inl (Some (pos, _)) => (pos <= length b)%nat
  | inl None => exists t, jnumber t /\ st_end (strtod t) <> Some (length t)
  end.

Lemma tail_sound b start m x d k :
  (start <= length b)%nat -> drop start b = m ++ x -> is_digit d = true -> no_digit x -> m <> [] ->
  (forall e, exponent_part e -> jnumber (m ++ e)) ->
  exists r, number_tail b start (start + length m) (end_char x d) k = Ret (r, k)
    /\ number_post b start r.
Proof.
  intros Hle Hd Hdd Hx Hm Hj. unfold number_tail.
  assert (Hfin : forall e q, x = e ++ q -> exponent_part e ->
    exists r, (let? v := number_value strtod start (take (start + length (m ++ e) - start) (drop start b)) in
               pret (v, (start + length (m ++ e))%nat)) k = Ret (r, k)
    /\ number_post b start r).
  { intros e q -> He. rewrite app_assoc in Hd.
    replace (take _ _) with (m ++ e).
    2:{ rewrite Hd. replace (start + length (m ++ e) - start)%nat with (length (m ++ e)) by lia. by rewrite take_app_length. }
    destruct (number_value_sound start (m ++ e) k) as (r & Hr & Hpost). unfold pbind, abind. rewrite Hr. cbn [obind].
    destruct r as [[[pos er]|]|v].
    - eexists. split; [done|]. cbn. lia.
    - eexists. split; [done|]. exists (m ++ e). split; [by apply Hj|done].
    - eexists. split; [done|]. exists (m ++ e), q. split_and!; [done|by apply Hj|done|done|]. by destruct m. }
  destruct ((end_char x d =? 101) || (end_char x d =? 69)) eqn:Ee.
  2:{ destruct (Hfin [] x eq_refl (or_introl eq_refl)) as (r & Hr & Hpost). rewrite app_nil_r in Hr. exists r.
      split; [exact Hr|done]. }
  destruct x as [|c x]; [pose proof (proj2 (proj2 (follow_no_digit [] I)) d Hdd); cbn in *; congruence|].
  cbn [end_char] in Ee. destruct (exponent b (start + length m)) as [p'|] eqn:Ex; [|eexists; split; [done|cbn; lia]].
  apply drop_app_inv in Hd as Hd'.
  destruct (exponent_sound b _ c x p' Hd' Ex) as (s & ds & q & -> & Hs & Hds & Hne & Hq & ->).
  destruct (Hfin (c :: s ++ ds) q) as (r & Hr & Hpost).
  - cbn. by rewrite <- app_assoc.
  - right. exists c, s, ds. split_and!; [done| |done|done|done]. zbool. destruct Ee; zbool; [by left|by right].
  - exists r. split; [|done]. rewrite <- Hr.
    replace (start + length m + 1 + length s + length ds)%nat with (start + length (m ++ c :: s ++ ds))%nat
      by (rewrite length_app; cbn; rewrite length_app; lia). done.
Qed.

(** What the parser of a number expects: a digit, or a minus sign and a digit. *)
Definition number_start (l : list Z) : Prop :=
  exists sg d l', l = sg ++ d :: l' /\ (sg = [] \/ sg = [MINUS]) /\ is_digit d = true.

Lemma fraction_alone b start sg i x k :
  drop start b = sg ++ i ++ DOT :: x -> (sg = [] \/ sg = [MINUS]) -> digits i -> i <> [] -> no_digit x ->
  nxt_conf_json_parse_number strtod b start k
  = Ret (inl (Some ((start + length sg)%nat, FractionWithoutDigits)), k).
Proof.
  intros Hd Hsg Hi Hne Hx. destruct i as [|d0 i]; [done|].
  assert (H0 : is_digit d0 = true) by (by inversion Hi).
  assert (Hfirst : exists first, b !! start = Some first
    /\ (if first =? MINUS then S start else start) = (start + length sg)%nat).
  { destruct Hsg as [-> | ->]; cbn [app] in Hd; pose proof (drop_cons_inv _ _ _ _ Hd) as [Hx0 _].
    - exists d0. pose proof (sign_not_digit d0 H0) as Hsd. apply orb_false_iff in Hsd as [Hsd _].
      by rewrite Hsd, Nat.add_0_r.
    - exists MINUS. split; [done|cbn; lia]. }
  destruct Hfirst as (first & Hb & Hs). apply drop_app_inv in Hd.
  unfold nxt_conf_json_parse_number, plift, pbind, abind, alift. rewrite Hb. cbn [of_option obind pret aret].
  rewrite Hs, Hd, mantissa_digits by done.
  rewrite (mantissa_fraction [] x) by (done || constructor). cbn [default from_option id length].
  rewrite (proj2 (Nat.leb_le _ _)) by lia. done.
Qed.

Lemma parse_number_sound b p k :
  (p < length b)%nat -> number_start (drop p b) ->
  exists r, nxt_conf_json_parse_number strtod b p k = Ret (r, k)
    /\ number_post b p r.
Proof.
  intros Hp (sg & d0 & l & Hd & Hsg & H0). destruct (span_digits (d0 :: l)) as (i & x & Hl & Hi & Hx).
  assert (Hne : i <> []) by (intros ->; destruct x; [done|]; cbn in *; simplify_eq; congruence).
  rewrite Hl in Hd.
  assert (Hsgl : (p + length sg <= length b)%nat).
  { pose proof (f_equal length Hd) as Hlen. rewrite length_drop, length_app in Hlen. lia. }
  assert (Hrun : forall f x', x = f ++ x' -> fraction f -> no_digit x' -> (f = [] -> head x' <> Some DOT) ->
    exists r, nxt_conf_json_parse_number strtod b p k = Ret (r, k)
    /\ number_post b p r).
  { intros f x' -> Hf Hx' Hdot.
    destruct (parse_number_run b p sg i f x' k Hd Hsg Hi Hne Hf Hx' Hdot) as (d & Hdd & ->).
    destruct (_ && _) eqn:Elead; [eexists; split; [done|cbn; lia]|].
    assert (Hd2 : drop p b = (sg ++ i ++ f) ++ x') by (by rewrite Hd, <- !app_assoc).
    destruct (tail_sound b p (sg ++ i ++ f) x' d k ltac:(lia) Hd2 Hdd Hx') as (r & Hr & Hpost).
    - intros E. apply app_eq_nil in E as [_ E]. by apply app_eq_nil in E as [E _].
    - intros e He. exists sg, i, f, e. split_and!; [by rewrite <- !app_assoc|done|done|done| |done|done].
      intros Hs Hl1 Hh. apply andb_false_iff in Elead as [E|E]; zbool; [lia|].
      apply bool_decide_eq_false in E. naive_solver.
    - by exists r. }
  destruct x as [|c x]; [by apply (Hrun [] []); [|left| |]|].
  destruct (decide (c = DOT)) as [->|Hc].
  2:{ apply (Hrun [] (c :: x)); [done|by left|done|intros _; cbn; congruence]. }
  destruct (span_digits x) as (ds & x' & -> & Hds & Hx').
  destruct (decide (ds = [])) as [->|Hdne].
  { rewrite (fraction_alone b p sg i x' k) by done. eexists. split; [done|cbn; lia]. }
  apply (Hrun (DOT :: ds) x'); [done| |done|done]. right. by exists ds.
Qed.
End Number.
