(* ===== verification/ConfGrammar.v ===== *)
(** * The grammar of the configuration files

    The language that [nxt_conf_json_parse] reads, JSON with comments and
    trailing commas, as an inductive definition, with the value that a text
    denotes; and the two directions of its correctness: every text of the
    language is parsed to its value, and whatever is parsed is a text of the
    language.  The members of an object come in the order in which the hash
    enumerates them, so values are compared up to the order of members and
    the representation of strings. *)

From stdpp Require Import gmap.
From Stdlib Require Import QArith Qabs.
From S2P Require Import Prelude NxtList Utf8 ConfValue Lvlhsh ConfHash ConfParse ConfLex.
#[local] Open Scope Z_scope.

(** ** Equivalence of values *)

Inductive value_equiv : conf_value -> conf_value -> Prop :=
| eqv_null : value_equiv VALUE_NULL VALUE_NULL
| eqv_boolean b : value_equiv (VALUE_BOOLEAN b) (VALUE_BOOLEAN b)
| eqv_integer t : value_equiv (VALUE_INTEGER t) (VALUE_INTEGER t)
| eqv_number t : value_equiv (VALUE_NUMBER t) (VALUE_NUMBER t)
| eqv_string s s' : nxt_conf_get_string s = nxt_conf_get_string s' ->
    value_equiv (VALUE_STRING s) (VALUE_STRING s')
| eqv_array l l' : Forall2 value_equiv l l' -> value_equiv (VALUE_ARRAY l) (VALUE_ARRAY l')
| eqv_object l l' l'' :
    Forall2 (fun m m' => nxt_conf_get_string m.1 = nxt_conf_get_string m'.1 /\ value_equiv m.2 m'.2) l l'' ->
    l'' ≡ₚ l' -> value_equiv (VALUE_OBJECT l) (VALUE_OBJECT l').

#[global] Instance conf_value_equiv : Equiv conf_value := value_equiv.

Definition member_equiv (m m' : conf_string * conf_value) : Prop :=
  nxt_conf_get_string m.1 = nxt_conf_get_string m'.1 /\ value_equiv m.2 m'.2.

Lemma Forall2_perm {A B} (R : A -> B -> Prop) k l l' :
  Forall2 R k l -> k ≡ₚ l' -> exists l2, l ≡ₚ l2 /\ Forall2 R l' l2.
Proof.
  intros HR Hp. revert l HR. induction Hp as [|x k k' Hp IH|x y k|k1 k2 k3 _ IH1 _ IH2]; intros l HR.
  - exists l. done.
  - inversion HR as [|? a ? l0 Ha HR']; subst. destruct (IH l0 HR') as (l2 & Hl2 & HR2).
    exists (a :: l2). split; [by rewrite Hl2|by constructor].
  - inversion HR as [|? a ? l0 Ha HR']; subst. inversion HR' as [|? a' ? l1 Ha' HR'']; subst.
    exists (a' :: a :: l1). split; [apply Permutation_swap|]. by repeat constructor.
  - destruct (IH1 l HR) as (l2 & H2 & HR2). destruct (IH2 l2 HR2) as (l3 & H3 & HR3).
    exists l3. split; [by rewrite H2|done].
Qed.

Lemma Forall2_sym_all {A} (R : A -> A -> Prop) l l' :
  Forall (fun x => forall y, R x y -> R y x) l -> Forall2 R l l' -> Forall2 R l' l.
Proof.
  intros Hs HR. induction HR as [|x y l l' Hxy HR IH]; [constructor|].
  apply Forall_cons in Hs as [Hx Hs]. constructor; [by apply Hx|by apply IH].
Qed.

Lemma Forall2_trans_all {A} (R : A -> A -> Prop) l l' l'' :
  Forall (fun x => forall y z, R x y -> R y z -> R x z) l -> Forall2 R l l' -> Forall2 R l' l'' -> Forall2 R l l''.
Proof.
  intros Hs HR. revert l''. induction HR as [|x y l l' Hxy HR IH]; intros l'' H; inversion H; subst; [constructor|].
  apply Forall_cons in Hs as [Hx Hs]. constructor; [by eapply Hx|by apply IH].
Qed.

Lemma value_equiv_refl (v : conf_value) : value_equiv v v.
Proof.
  induction v as [|b|t|t|s|l IH|l IH] using conf_value_ind; try by constructor.
  - constructor. by induction IH; constructor.
  - apply (eqv_object l l l); [|done]. by induction IH; constructor.
Qed.

Lemma value_equiv_sym (v : conf_value) : forall v', value_equiv v v' -> value_equiv v' v.
Proof.
  induction v as [|b|t|t|s|l IH|l IH] using conf_value_ind; intros v' H; inversion H as [| | | | |? l' HF|? l' l2 HF HP];
    subst; try by constructor.
  - constructor. by apply Forall2_sym_all.
  - apply Forall2_sym_all in HF.
    + destruct (Forall2_perm _ _ _ _ HF HP) as (k & Hk & HF'). by eapply eqv_object; [exact HF'|].
    + eapply Forall_impl; [exact IH|]. intros m Hm m' [H1 H2]. split; [done|by apply Hm].
Qed.

Lemma value_equiv_trans (v : conf_value) : forall v' v'', value_equiv v v' -> value_equiv v' v'' -> value_equiv v v''.
Proof.
  induction v as [|b|t|t|s|l IH|l IH] using conf_value_ind; intros v' v'' H H';
    inversion H as [| | | |? s' Hs|? l' HF|? l' l2 HF HP]; subst;
    inversion H' as [| | | |? s'' Hs'|? l'' HF'|? l'' l3 HF' HP']; subst; try by constructor.
  - constructor. congruence.
  - constructor. by eapply Forall2_trans_all.
  - symmetry in HP. destruct (Forall2_perm _ _ _ _ HF' HP) as (k & Hk & HF2).
    apply (eqv_object l l'' k); [|by rewrite <- Hk].
    eapply Forall2_trans_all; [|exact HF|exact HF2].
    eapply Forall_impl; [exact IH|]. intros m Hm y z [? ?] [? ?]. split; [congruence|by eapply Hm].
Qed.

#[global] Instance conf_value_equivalence : Equivalence (≡@{conf_value}).
Proof.
  split; [exact value_equiv_refl|exact value_equiv_sym|exact value_equiv_trans].
Qed.

#[global] Instance VALUE_ARRAY_proper : Proper (Forall2 (≡) ==> (≡)) VALUE_ARRAY.
Proof. intros l l' H. by constructor. Qed.

#[global] Instance VALUE_OBJECT_proper : Proper ((≡ₚ) ==> (≡)) VALUE_OBJECT.
Proof.
  intros l l' H. apply (eqv_object l l' l); [|done]. clear H.
  induction l as [|m l IH]; constructor; [split; [done|apply value_equiv_refl]|done].
Qed.

(** ** The grammar *)

Section Grammar.
  Context (strtod : list Z -> strtod_result).

(** [jvalue d t v]: the text [t] denotes [v] and nests at most [d] levels. *)
Inductive jvalue : nat -> list Z -> conf_value -> Prop :=
| jv_null d : jvalue d (bytes_of_string "null") VALUE_NULL
| jv_true d : jvalue d (bytes_of_string "true") (VALUE_BOOLEAN true)
| jv_false d : jvalue d (bytes_of_string "false") (VALUE_BOOLEAN false)
| jv_number d t v : jnumber t -> jnumber_value strtod t v -> jvalue d t v
| jv_string d t s : jstring t s -> jvalue d ([DQUOTE] ++ t ++ [DQUOTE]) (VALUE_STRING s)
| jv_array d t l : jelements d t l -> Z.of_nat (length l) <= NXT_CONF_JSON_MAX_ELEMENTS ->
    jvalue (S d) ([LBRACKET] ++ t) (VALUE_ARRAY l)
| jv_object d t l : jmembers d t l -> Z.of_nat (length l) <= NXT_CONF_JSON_MAX_ELEMENTS ->
    NoDup (map (fun m => nxt_conf_get_string m.1) l) ->
    jvalue (S d) ([LBRACE] ++ t) (VALUE_OBJECT l)
(** An array behind its bracket; the last comma may be superfluous. *)
with jelements : nat -> list Z -> list conf_value -> Prop :=
| je_end d w : ws w -> jelements d (w ++ [RBRACKET]) []
| je_last d w t w' v : ws w -> jvalue d t v -> ws w' -> jelements d (w ++ t ++ w' ++ [RBRACKET]) [v]
| je_more d w t w' v t' l : ws w -> jvalue d t v -> ws w' -> jelements d t' l ->
    jelements d (w ++ t ++ w' ++ [COMMA] ++ t') (v :: l)
(** An object behind its brace. *)
with jmembers : nat -> list Z -> list (conf_string * conf_value) -> Prop :=
| jm_end d w : ws w -> jmembers d (w ++ [RBRACE]) []
| jm_last d w n name w1 w2 t w3 v : ws w -> jstring n name -> ws w1 -> ws w2 -> jvalue d t v -> ws w3 ->
    jmembers d (w ++ ([DQUOTE] ++ n ++ [DQUOTE]) ++ w1 ++ [COLON] ++ w2 ++ t ++ w3 ++ [RBRACE]) [(name, v)]
| jm_more d w n name w1 w2 t w3 v t' l : ws w -> jstring n name -> ws w1 -> ws w2 -> jvalue d t v -> ws w3 ->
    jmembers d t' l ->
    jmembers d (w ++ ([DQUOTE] ++ n ++ [DQUOTE]) ++ w1 ++ [COLON] ++ w2 ++ t ++ w3 ++ [COMMA] ++ t') ((name, v) :: l).

(** A configuration file. *)
Definition jdocument (t : list Z) (v : conf_value) : Prop :=
  exists w t' w', t = w ++ t' ++ w' /\ ws w /\ ws w' /\ jvalue NXT_CONF_JSON_MAX_DEPTH t' v.

(** *** First and last bytes *)

Lemma digit_no_space c : is_digit c = true -> is_space c = false /\ c <> SLASH.
Proof.
  unfold is_space. intros H. split; [|by intros ->].
  destruct (c =? SP) eqn:E1, (c =? TAB) eqn:E2, (c =? LF) eqn:E3, (c =? CR) eqn:E4; zbool; subst; done.
Qed.

Lemma jnumber_start t : jnumber t -> number_start t /\ forall r, no_space (t ++ r).
Proof.
  intros (sg & i & f & e & -> & Hsg & Hi & Hne & _). destruct i as [|d i]; [done|].
  assert (Hd : is_digit d = true) by (by inversion Hi). split.
  - exists sg, d, (i ++ f ++ e). done.
  - intros r. destruct Hsg as [-> | ->]; cbn; [by apply digit_no_space|done].
Qed.

Lemma jvalue_start d t v : jvalue d t v -> t <> [] /\ forall r, no_space (t ++ r).
Proof.
  intros H. inversion H as [| | |? ? ? Hn| | |]; subst; try (split; [done|intros r; done]).
  destruct (jnumber_start t Hn) as [(sg & c & l & -> & _) Hs]. split; [|done]. by destruct sg.
Qed.

Lemma ws_follow w c r : ws w -> is_delimiter c = true -> follow (w ++ c :: r).
Proof.
  intros Hw Hc. destruct Hw as [|x t Hx _|body t _ _|body t _ _]; [done| |done|done].
  cbn. unfold is_delimiter. by rewrite Hx.
Qed.

Lemma ws_follow_end w : ws w -> follow w.
Proof.
  intros Hw. destruct Hw as [|x t Hx _|body t _ _|body t _ _]; [done| |done|done].
  cbn. unfold is_delimiter. by rewrite Hx.
Qed.
End Grammar.

(** Concatenations and their lengths. *)
Ltac apps := repeat first [rewrite <- app_assoc | progress cbn [app]].
Ltac lens := repeat first [rewrite length_app | progress cbn [length]]; lia.

(** ** The lists and the hash of the parser *)

Section Containers.
  Context {HT : Table (list Z) member m_key} (alloc : nat -> bool).

Lemma fill_last_add mp v l l' mp' :
  list_wf l -> nxt_list_add alloc mp VALUE_NULL l = (true, l', mp') ->
  nxt_list_add alloc mp v l = (true, fill_last v l', mp').
Proof.
  intros (Hn & init & lst & E & _) Ha. unfold nxt_list_add in *. rewrite E, last_part_app in *.
  assert (Hfill : forall n ps part, fill_last v (mk_nxt_list n (ps ++ [part ++ [VALUE_NULL]]))
    = mk_nxt_list n (ps ++ [part ++ [v]])).
  { intros n ps part. unfold fill_last. cbn [parts nalloc]. rewrite last_snoc, !removelast_last. done. }
  destruct (length lst =? nalloc l)%nat.
  - destruct (alloc mp); [|done]. injection Ha as <- <-. rewrite !add_last_app.
    by rewrite (Hfill (nalloc l) (init ++ [lst]) []).
  - injection Ha as <- <-. rewrite !add_last_app. by rewrite Hfill.
Qed.

Lemma fold_snoc {A} (l acc : list A) : fold_left (fun acc x => acc ++ [x]) l acc = acc ++ l.
Proof.
  revert acc. induction l as [|x l IH]; intros acc; cbn; [by rewrite app_nil_r|]. by rewrite IH, <- app_assoc.
Qed.

Lemma copy_elements_ok {A} n (l : list A) : length l = n -> copy_elements n l = Ret l.
Proof. intros <-. unfold copy_elements. by rewrite Nat.leb_refl. Qed.

(** The hash holds the members with the names [ns], in the order of the text. *)
Definition hash_of (hash : table) (ns : list conf_string) : Prop :=
  exists m, table_rep hash m /\ (map_to_list m).*2 ≡ₚ imap Member ns
  /\ forall key, m !! key = None <-> key ∉ map nxt_conf_get_string ns.

Lemma hash_of_empty : hash_of table_empty [].
Proof.
  exists ∅. split; [apply table_empty_rep|]. split; [by rewrite map_to_list_empty|].
  intros key. rewrite lookup_empty. split; [intros _; apply not_elem_of_nil|done].
Qed.

Lemma hash_of_insert hash ns s k : hash_of hash ns ->
  exists rc hash' k', table_insert alloc (Member (length ns) s) hash k = Ret ((rc, hash'), k') /\ (k <= k')%nat
  /\ ((rc = NXT_DECLINED /\ nxt_conf_get_string s ∈ map nxt_conf_get_string ns)
      \/ (nxt_conf_get_string s ∉ map nxt_conf_get_string ns
          /\ (rc = NXT_OK /\ hash_of hash' (ns ++ [s]) \/ rc = NXT_ERROR /\ failed alloc k k'))).
Proof.
  intros (m & Hrep & Hp & Hk).
  destruct (table_insert_rep alloc (Member (length ns) s) hash m k Hrep) as (rc & hash' & k' & Hr & Hkk & Hi).
  exists rc, hash', k'. split; [done|]. split; [done|].
  change (m_key (Member (length ns) s)) with (nxt_conf_get_string s) in Hi.
  destruct (m !! nxt_conf_get_string s) as [x|] eqn:Em.
  - left. split; [done|]. destruct (decide (nxt_conf_get_string s ∈ map nxt_conf_get_string ns)) as [|Hn]; [done|].
    apply Hk in Hn. congruence.
  - right. split; [by apply Hk|]. destruct Hi as [[-> Hrep']|[-> Hf]]; [left|by right].
    split; [done|]. exists (<[nxt_conf_get_string s := Member (length ns) s]> m). split; [done|]. split.
    + rewrite (map_to_list_insert _ _ _ Em). cbn. rewrite Hp, imap_app. cbn. rewrite Nat.add_0_r.
      by rewrite Permutation_app_comm.
    + intros key. rewrite lookup_insert_None, Hk, map_app, not_elem_of_app. cbn. rewrite list_elem_of_singleton.
      naive_solver.
Qed.

Lemma copy_members_map values l :
  Forall (fun x => is_Some (values !! m_index x)) l ->
  copy_members values l = Ret (map (fun x => (m_name x, default VALUE_NULL (values !! m_index x))) l).
Proof.
  induction 1 as [|x l [v Hv] Hl IH]; cbn [copy_members map]; [done|]. rewrite Hv, IH. done.
Qed.

Lemma imap_zip (ns : list conf_string) (values : list conf_value) : length ns = length values ->
  map (fun x => (m_name x, default VALUE_NULL (values !! m_index x))) (imap Member ns) = zip ns values.
Proof.
  intros Hl. apply list_eq. intros i. rewrite list_lookup_fmap, list_lookup_imap, lookup_zip_with.
  destruct (ns !! i) as [s|] eqn:E; [|done]. cbn.
  destruct (lookup_lt_is_Some_2 values i) as [v Hv]; [apply lookup_lt_Some in E; lia|]. by rewrite Hv.
Qed.

(** The members that are enumerated. *)
Lemma hash_of_members hash ns values : hash_of hash ns -> length ns = length values ->
  exists l ms, table_each (S (length values)) hash = Ret l /\ copy_members values l = Ret ms
    /\ ms ≡ₚ zip ns values.
Proof.
  intros (m & Hrep & Hp & _) Hl. destruct (table_each_rep hash m (S (length values)) Hrep) as (l & He & Hpl).
  { apply Permutation_length in Hp. rewrite length_fmap, length_map_to_list, length_imap in Hp. lia. }
  rewrite Hp in Hpl. exists l. eexists. split; [done|]. split.
  - apply copy_members_map. rewrite Hpl. apply Forall_forall. intros x Hx.
    apply elem_of_lookup_imap in Hx as (i & s & -> & Hi). cbn. apply lookup_lt_is_Some.
    apply lookup_lt_Some in Hi. lia.
  - rewrite Hpl. by rewrite imap_zip.
Qed.

Lemma zip_members (l : list (conf_string * conf_value)) vs : Forall2 (≡) l.*2 vs ->
  Forall2 (fun m m' => nxt_conf_get_string m.1 = nxt_conf_get_string m'.1 /\ value_equiv m.2 m'.2) l (zip l.*1 vs).
Proof.
  revert vs. induction l as [|[n v] l IH]; intros vs H; inversion H; subst; cbn; [constructor|].
  constructor; [done|by apply IH].
Qed.

End Containers.

(** ** Soundness

    A small logic for parsers: [sound b m k Q] says that [m] returns, with a
    result that has [Q], with an error inside the text, or without memory
    (or a [strtod] that does not read a number to its end). *)

Section Soundness.
  Context {HT : Table (list Z) member m_key}.
  Context (alloc : nat -> bool) (strtod : list Z -> strtod_result) (b : list Z).

(** Why a parser returns [NULL] without an error. *)
Definition unexplained (k k' : nat) : Prop :=
  failed alloc k k' \/ exists t, jnumber t /\ st_end (strtod t) <> Some (length t).

Definition sound {A} (m : parser A) (k : nat) (Q : A -> Prop) : Prop :=
  exists r k', m k = Ret (r, k') /\ (k <= k')%nat
  /\ match r with
     | inr a => Q a
     | inl (Some (pos, _)) => (pos <= length b)%nat
     | inl None => unexplained k k'
     end.

Lemma unexplained_mono k1 k2 k3 k4 : (k1 <= k2)%nat -> (k3 <= k4)%nat -> unexplained k2 k3 -> unexplained k1 k4.
Proof. intros H1 H2 [Hf|Hf]; [left; by eapply failed_mono; [| |exact Hf]|by right]. Qed.

Lemma sound_ret {A} (a : A) k (Q : A -> Prop) : Q a -> sound (pret a) k Q.
Proof. intros H. exists (inr a), k. done. Qed.

Lemma sound_error {A} pos e k (Q : A -> Prop) : (pos <= length b)%nat -> sound (nxt_conf_json_parse_error pos e) k Q.
Proof. intros H. exists (inl (Some (pos, e))), k. done. Qed.

Lemma sound_bind {A B} (m : parser A) (f : A -> parser B) k (Q : A -> Prop) R :
  sound m k Q -> (forall a k', (k <= k')%nat -> Q a -> sound (f a) k' R) -> sound (pbind m f) k R.
Proof.
  intros (r & k1 & Hm & Hk & Hr) Hf. unfold sound, pbind, abind. rewrite Hm. cbn [obind].
  destruct r as [[[pos e]|]|a].
  - by exists (inl (Some (pos, e))), k1.
  - by exists (inl None), k1.
  - destruct (Hf a k1 Hk Hr) as (r & k2 & -> & Hk2 & Hr2). exists r, k2. split; [done|]. split; [lia|].
    destruct r as [[[pos e]|]|a2]; [done| |done]. by eapply unexplained_mono; [| |exact Hr2]; lia.
Qed.

Lemma sound_read {B} p (f : Z -> parser B) k R : (p < length b)%nat ->
  (forall ch, b !! p = Some ch -> sound (f ch) k R) ->
  sound (pbind (plift (of_option (b !! p))) f) k R.
Proof.
  intros Hp Hf. destruct (lookup_lt_is_Some_2 b p Hp) as [ch Hch].
  destruct (Hf ch Hch) as (r & k2 & Hr & Hk2 & Hr2). exists r, k2. split; [|done].
  unfold pbind, abind, plift, alift. rewrite Hch. exact Hr.
Qed.

Lemma sound_lift {A B} (m : outcome A) (f : A -> parser B) k R a : m = Ret a ->
  sound (f a) k R -> sound (pbind (plift m) f) k R.
Proof. intros -> H. exact H. Qed.

Lemma sound_request {A} (m : parser A) k R : (forall k', (k <= k')%nat -> sound m k' R) ->
  sound (let! ok := request alloc in if negb ok then pfail None else m) k R.
Proof.
  intros Hm. unfold sound, abind, request. cbn [obind]. destruct (alloc k) eqn:Ea; cbn [negb].
  - destruct (Hm (S k) ltac:(lia)) as (r & k2 & -> & Hk2 & Hr2). exists r, k2. split; [done|]. split; [lia|].
    destruct r as [[[pos e]|]|a2]; [done| |done]. by eapply unexplained_mono; [| |exact Hr2]; lia.
  - exists (inl None), (S k). split; [done|]. split; [lia|]. left. exists k. split; [lia|done].
Qed.

Lemma sound_weaken {A} (m : parser A) k (Q R : A -> Prop) : sound m k Q -> (forall a, Q a -> R a) -> sound m k R.
Proof.
  intros (r & k' & Hm & Hk & Hr) H. exists r, k'. split; [done|]. split; [done|].
  destruct r as [[[pos e]|]|a]; [done|done|by apply H].
Qed.

Lemma string_sound p k : b !! p = Some DQUOTE ->
  sound (nxt_conf_json_parse_string alloc b p) k (fun '(cs, p') =>
    exists t, drop p b = ([DQUOTE] ++ t ++ [DQUOTE]) ++ drop p' b /\ jstring t cs /\ p' = (p + length t + 2)%nat
      /\ (p' <= length b)%nat).
Proof.
  intros Hp. destruct (parse_string_sound alloc b p k Hp) as (r & k' & Hr & Hk & Hpost).
  exists r, k'. split; [done|]. split; [done|]. destruct r as [[[pos e]|]|[cs p']]; [done|by left|].
  destruct Hpost as (t & q & Hd & Hj & ->). exists t.
  replace (DQUOTE :: t ++ DQUOTE :: q) with (([DQUOTE] ++ t ++ [DQUOTE]) ++ q) in Hd by (by rewrite <- !app_assoc).
  assert (Hl : length ([DQUOTE] ++ t ++ [DQUOTE]) = (length t + 2)%nat) by (rewrite !length_app; cbn; lia).
  pose proof (lookup_lt_Some _ _ _ Hp) as Hlt.
  pose proof (f_equal length Hd) as Hlen. rewrite length_drop, length_app, Hl in Hlen.
  pose proof (drop_app_inv _ _ _ _ Hd) as Hq. rewrite Hl, Nat.add_assoc in Hq. rewrite Hq. split_and!; [done..|lia].
Qed.

Lemma number_sound p k : (p < length b)%nat -> number_start (drop p b) ->
  sound (nxt_conf_json_parse_number strtod b p) k (fun '(v, p') =>
    exists t q, drop p b = t ++ q /\ jnumber t /\ jnumber_value strtod t v /\ p' = (p + length t)%nat /\ t <> []).
Proof.
  intros Hp Hs. destruct (parse_number_sound strtod b p k Hp Hs) as (r & Hr & Hpost).
  exists r, k. split; [done|]. split; [done|]. destruct r as [[[pos e]|]|[v p']]; [done|by right|done].
Qed.

(** The text from [p] to [p'] is a value of depth [d], up to equivalence [v]. *)
Definition value_at (d p : nat) (vp : conf_value * nat) : Prop :=
  exists t q v, drop p b = t ++ q /\ vp.2 = (p + length t)%nat /\ jvalue strtod d t v /\ v ≡ vp.1.

(** A parser of values of depth [d]. *)
Definition parses (d : nat) (pv : nat -> parser (conf_value * nat)) : Prop :=
  forall p k, (p < length b)%nat -> sound (pv p) k (value_at d p).

Lemma drop_length_app p t q : drop p b = t ++ q -> (p <= length b)%nat -> (p + length t <= length b)%nat.
Proof. intros Hd Hp. apply (f_equal length) in Hd. rewrite length_drop, length_app in Hd. lia. Qed.

(** Spaces before a byte. *)
Lemma skip_read p : (p <= length b)%nat ->
  let p' := nxt_conf_json_skip_space b p in
  (p <= p' <= length b)%nat /\ exists w, ws w /\ drop p b = w ++ drop p' b /\ p' = (p + length w)%nat.
Proof.
  intros Hp p'. destruct (skip_sound b p Hp) as [Hle (w & Hw & Hd & Hl)]. split; [done|].
  exists w. split_and!; [done|done|]. fold p' in Hl. lia.
Qed.

Lemma sound_add {A} l (m : nxt_list conf_value -> parser A) k R : list_wf l ->
  (forall l' k', (k <= k')%nat ->
     (forall v, list_wf (fill_last v l') /\ elements (Some (fill_last v l')) = elements (Some l) ++ [v]) ->
     sound (m l') k' R) ->
  sound (let! (ok, l) := (fun mp => let '(ok, l, mp) := nxt_list_add alloc mp VALUE_NULL l in Ret ((ok, l), mp)) in
         if negb ok then pfail None else m l) k R.
Proof.
  intros Hwf Hm. unfold sound, abind.
  assert (Hk : (k <= (nxt_list_add alloc k VALUE_NULL l).2 <= S k)%nat).
  { unfold nxt_list_add. repeat case_match; cbn; lia. }
  pose proof (nxt_list_add_spec alloc k VALUE_NULL l Hwf) as Hspec.
  destruct (nxt_list_add alloc k VALUE_NULL l) as [[[] l'] k'] eqn:Ea; cbn [obind negb snd] in *.
  - destruct (Hm l' k') as (r & k2 & -> & Hk2 & Hr2); [lia| |].
    + intros v. pose proof (fill_last_add alloc k v l l' k' Hwf Ea) as Hv.
      pose proof (nxt_list_add_spec alloc k v l Hwf) as Hs. rewrite Hv in Hs. naive_solver.
    + exists r, k2. split; [done|]. split; [lia|].
      destruct r as [[[pos e]|]|a2]; [done| |done]. by eapply unexplained_mono; [| |exact Hr2]; lia.
  - destruct Hspec as [-> Hf]. exists (inl None), k'. split; [done|]. split; [lia|]. left. exists k.
    split; [|done]. unfold nxt_list_add in Ea. repeat case_match; simplify_eq; lia.
Qed.

(** *** Arrays *)

Lemma array_loop_sound d pv : parses d pv ->
  forall fuel p count list k, (p < length b)%nat -> (length b - p <= fuel)%nat -> list_wf list ->
  Z.of_nat count <= NXT_CONF_JSON_MAX_ELEMENTS ->
  sound (array_loop alloc fuel pv b p count list) k (fun '(list', count', p') =>
    exists t q l l', drop (S p) b = t ++ q /\ p' = (p + length t)%nat /\ jelements strtod d t l
      /\ elements (Some list') = elements (Some list) ++ l' /\ Forall2 (≡) l l'
      /\ count' = (count + length l)%nat /\ Z.of_nat count' <= NXT_CONF_JSON_MAX_ELEMENTS).
Proof.
  intros Hpv. induction fuel as [|fuel IH]; intros p count list k Hp Hfuel Hwf Hcount; [lia|].
  cbn [array_loop]. destruct (skip_read (S p)) as [Hle (w & Hw & Hd & Hl)]; [lia|].
  set (p1 := nxt_conf_json_skip_space b (S p)) in *.
  destruct (p1 =? length b)%nat eqn:E1; zbool; [by apply sound_error; lia|].
  apply sound_read; [lia|]. intros ch Hch. pose proof (drop_lookup_cons _ _ _ Hch) as Hd1.
  destruct (ch =? RBRACKET) eqn:Erb; zbool.
  { apply sound_ret. subst ch. exists (w ++ [RBRACKET]), (drop (S p1) b), [], [].
    rewrite Hd, Hd1, <- app_assoc, length_app, app_nil_r. cbn [length].
    split_and!; [done|lia|by constructor|done|done|lia|lia]. }
  destruct (NXT_CONF_JSON_MAX_ELEMENTS <=? Z.of_nat count) eqn:Emax; zbool; [by apply sound_error; lia|].
  apply sound_add; [done|]. intros list' k1 Hk1 Hfill.
  eapply sound_bind; [apply Hpv; lia|]. intros [v' p2] k2 Hk2 (t & q & v & Hdt & Hp2 & Hv & Heq). cbn [fst snd] in *.
  assert (Hle2 : (p2 <= length b)%nat) by (rewrite Hp2; apply (drop_length_app p1 t q); [done|lia]).
  destruct (skip_read p2) as [Hle3 (w' & Hw' & Hd3 & Hl3)]; [done|].
  set (p3 := nxt_conf_json_skip_space b p2) in *.
  destruct (p3 =? length b)%nat eqn:E3; zbool; [by apply sound_error; lia|].
  apply sound_read; [lia|]. intros ch3 Hch3. pose proof (drop_lookup_cons _ _ _ Hch3) as Hd4.
  assert (Htext : drop (S p) b = w ++ t ++ w' ++ ch3 :: drop (S p3) b).
  { rewrite Hd, Hdt. do 2 f_equal. apply drop_app_inv in Hdt. rewrite <- Hdt, <- Hp2. by rewrite Hd3, Hd4. }
  destruct (Hfill v') as [Hwf' Hel]. destruct (ch3 =? COMMA) eqn:Ec; zbool.
  - subst ch3. eapply sound_weaken; [apply (IH p3 (S count) (fill_last v' list') k2); [lia|lia|done|lia]|].
    intros [[list2 count2] p4] (t2 & q2 & l & l' & Hd5 & -> & Hj & Hel2 & HF & -> & Hc2).
    exists (w ++ t ++ w' ++ [COMMA] ++ t2), q2, (v :: l), (v' :: l').
    rewrite Htext, Hd5, Hel2, Hel, <- !app_assoc, !length_app. cbn [length].
    split_and!; [done|lia|by constructor|done|by constructor|lia|lia].
  - destruct (ch3 =? RBRACKET) eqn:Er; zbool; [|by apply sound_error; lia]. subst ch3. apply sound_ret.
    exists (w ++ t ++ w' ++ [RBRACKET]), (drop (S p3) b), [v], [v'].
    rewrite Htext, Hel, <- !app_assoc, !length_app. cbn [length].
    split_and!; [done|lia|by constructor|done|by repeat constructor|lia|lia].
Qed.

Lemma sound_create {A} (m : nxt_list conf_value -> parser A) k R :
  (forall l k', (k <= k')%nat -> list_wf l -> elements (Some l) = [] -> sound (m l) k' R) ->
  sound (let! created := (fun mp => Ret (nxt_list_create (A := conf_value) alloc mp 8)) in
         match created with None => pfail None | Some l => m l end) k R.
Proof.
  intros Hm. unfold sound, abind. pose proof (nxt_list_create_wf (A := conf_value) alloc k 8) as Hc.
  unfold nxt_list_create in *. destruct (alloc k) eqn:Ea; cbn [obind].
  - destruct (Hc (mk_nxt_list 8 [[]]) (S k)) as (Hwf & Hel & _); [lia|done|].
    destruct (Hm (mk_nxt_list 8 [[]]) (S k)) as (r & k2 & -> & Hk2 & Hr2); [lia|done|done|].
    exists r, k2. split; [done|]. split; [lia|].
    destruct r as [[[pos e]|]|a2]; [done| |done]. by eapply unexplained_mono; [| |exact Hr2]; lia.
  - exists (inl None), (S k). split; [done|]. split; [lia|]. left. exists k. split; [lia|done].
Qed.

Lemma array_sound d pv p k : parses d pv -> b !! p = Some LBRACKET ->
  sound (nxt_conf_json_parse_array alloc pv b p) k (value_at (S d) p).
Proof.
  intros Hpv Hch. pose proof (lookup_lt_Some _ _ _ Hch) as Hp. unfold nxt_conf_json_parse_array.
  apply sound_request. intros k1 Hk1. apply sound_create. intros l k2 Hk2 Hwf Hel.
  eapply sound_bind; [apply (array_loop_sound d pv Hpv); [done|lia|done|lia]|].
  intros [[list count] p'] k3 Hk3 (t & q & vs & vs' & Hd & -> & Hj & Hel' & HF & -> & Hmax).
  apply sound_request. intros k4 Hk4. rewrite nxt_list_each_spec, fold_snoc, Hel', Hel. cbn [app].
  eapply sound_lift; [apply copy_elements_ok; by rewrite (Forall2_length _ _ _ HF)|].
  apply sound_ret. exists ([LBRACKET] ++ t), q, (VALUE_ARRAY vs). cbn [fst snd].
  rewrite (drop_lookup_cons _ _ _ Hch), Hd, length_app. cbn [length].
  split_and!; [done|lia|by constructor|by constructor].
Qed.

(** *** Objects *)

Lemma sound_insert {A} hash ns s name (m : table -> parser A) k R : hash_of hash ns -> (name <= length b)%nat ->
  (forall hash' k', (k <= k')%nat -> nxt_conf_get_string s ∉ map nxt_conf_get_string ns ->
     hash_of hash' (ns ++ [s]) -> sound (m hash') k' R) ->
  sound (let! (rc, hash) := table_insert alloc (Member (length ns) s) hash in
         if negb (rc =? NXT_OK) then
           if rc =? NXT_DECLINED then nxt_conf_json_parse_error name DuplicateMember else pfail None
         else m hash) k R.
Proof.
  intros Hh Hn Hm. destruct (hash_of_insert alloc hash ns s k Hh) as (rc & hash' & k' & Hr & Hk & Hc).
  unfold sound, abind. rewrite Hr. cbn [obind]. destruct Hc as [[-> _]|[Hin [[-> Hh']|[-> Hf]]]]; cbn [Z.eqb negb].
  - exists (inl (Some (name, DuplicateMember))), k'. done.
  - destruct (Hm hash' k' Hk Hin Hh') as (r & k2 & Hr2 & Hk2 & Hpost). cbn. exists r, k2. split; [done|]. split; [lia|].
    destruct r as [[[pos e]|]|a2]; [done| |done]. by eapply unexplained_mono; [| |exact Hpost]; lia.
  - exists (inl None), k'. split; [done|]. split; [done|]. by left.
Qed.

(** The colon, the value and the byte behind it. *)
Lemma member_sound {A} d pv p2 (m : conf_value -> nat -> Z -> parser A) k R : parses d pv -> (p2 <= length b)%nat ->
  (forall w1 w2 t w3 v v' p4 ch k', (k <= k')%nat -> ws w1 -> ws w2 -> jvalue strtod d t v -> v ≡ v' -> ws w3 ->
     b !! p4 = Some ch -> p4 = (p2 + length w1 + 1 + length w2 + length t + length w3)%nat ->
     drop p2 b = w1 ++ [COLON] ++ w2 ++ t ++ w3 ++ ch :: drop (S p4) b -> sound (m v' p4 ch) k' R) ->
  sound (let p := nxt_conf_json_skip_space b p2 in
         if (p =? length b)%nat then nxt_conf_json_parse_error p MemberWithoutValue
         else
           let? ch := plift (of_option (b !! p)) in
           if negb (ch =? COLON) then nxt_conf_json_parse_error p ColonExpected
           else
             let p := nxt_conf_json_skip_space b (S p) in
             if (p =? length b)%nat then nxt_conf_json_parse_error p MemberWithoutValue
             else
               let? (v, p) := pv p in
               let p := nxt_conf_json_skip_space b p in
               if (p =? length b)%nat then nxt_conf_json_parse_error p ObjectNotClosed
               else let? ch := plift (of_option (b !! p)) in m v p ch) k R.
Proof.
  intros Hpv Hp Hm. destruct (skip_read p2 Hp) as [Hle (w1 & Hw1 & Hd1 & Hl1)].
  set (p := nxt_conf_json_skip_space b p2) in *. cbv zeta.
  destruct (p =? length b)%nat eqn:E1; zbool; [by apply sound_error; lia|].
  apply sound_read; [lia|]. intros ch Hch. pose proof (drop_lookup_cons _ _ _ Hch) as Hdc.
  destruct (ch =? COLON) eqn:Ec; cbn [negb]; zbool; [|apply sound_error; lia]. subst ch.
  destruct (skip_read (S p)) as [Hle2 (w2 & Hw2 & Hd2 & Hl2)]; [lia|].
  set (p' := nxt_conf_json_skip_space b (S p)) in *.
  destruct (p' =? length b)%nat eqn:E2; zbool; [by apply sound_error; lia|].
  eapply sound_bind; [apply Hpv; lia|]. intros [v' p3] k2 Hk2 (t & q & v & Hdt & Hp3 & Hv & Heq). cbn [fst snd] in *.
  assert (Hle3 : (p3 <= length b)%nat) by (rewrite Hp3; apply (drop_length_app p' t q); [done|lia]).
  destruct (skip_read p3) as [Hle4 (w3 & Hw3 & Hd3 & Hl3)]; [done|].
  set (p4 := nxt_conf_json_skip_space b p3) in *.
  destruct (p4 =? length b)%nat eqn:E3; zbool; [by apply sound_error; lia|].
  apply sound_read; [lia|]. intros ch3 Hch3. pose proof (drop_lookup_cons _ _ _ Hch3) as Hd4.
  apply (Hm w1 w2 t w3 v v' p4 ch3 k2); try done; [lia|].
  rewrite Hd1, Hdc, Hd2, Hdt. cbn [app]. do 4 f_equal. apply drop_app_inv in Hdt.
  rewrite <- Hdt, <- Hp3. by rewrite Hd3, Hd4.
Qed.

Lemma object_loop_sound d pv : parses d pv ->
  forall fuel p hash ns values k, (p < length b)%nat -> (length b - p <= fuel)%nat ->
  hash_of hash ns -> length ns = length values -> NoDup (map nxt_conf_get_string ns) ->
  Z.of_nat (length values) <= NXT_CONF_JSON_MAX_ELEMENTS ->
  sound (object_loop alloc fuel pv b p hash values) k (fun '(hash', values', p') =>
    exists t q l vs, drop (S p) b = t ++ q /\ p' = (p + length t)%nat /\ jmembers strtod d t l
      /\ hash_of hash' (ns ++ l.*1) /\ values' = values ++ vs /\ Forall2 (≡) l.*2 vs
      /\ NoDup (map nxt_conf_get_string (ns ++ l.*1))
      /\ Z.of_nat (length values') <= NXT_CONF_JSON_MAX_ELEMENTS).
Proof.
  intros Hpv. induction fuel as [|fuel IH]; intros p hash ns values k Hp Hfuel Hh Hlen Hnd Hcount; [lia|].
  cbn [object_loop]. destruct (skip_read (S p)) as [Hle (w & Hw & Hd & Hl)]; [lia|].
  set (p1 := nxt_conf_json_skip_space b (S p)) in *.
  destruct (p1 =? length b)%nat eqn:E1; zbool; [by apply sound_error; lia|].
  apply sound_read; [lia|]. intros ch Hch. pose proof (drop_lookup_cons _ _ _ Hch) as Hd1.
  destruct (ch =? DQUOTE) eqn:Eq; cbn [negb].
  2:{ destruct (ch =? RBRACE) eqn:Erb; zbool; [|by apply sound_error; lia].
      apply sound_ret. subst ch. exists (w ++ [RBRACE]), (drop (S p1) b), [], [].
      rewrite Hd, Hd1, <- app_assoc, length_app, !app_nil_r. cbn [length].
      split_and!; [done|lia|by constructor|done|done|done|done|lia]. }
  zbool. subst ch. destruct (NXT_CONF_JSON_MAX_ELEMENTS <=? Z.of_nat (length values)) eqn:Emax; zbool;
    [by apply sound_error; lia|].
  apply sound_request. intros k1 Hk1.
  eapply sound_bind; [by apply string_sound|]. intros [s p2] k2 Hk2 (n & Hdn & Hs & Hp2 & Hle2).
  rewrite <- Hlen. apply (sound_insert hash ns s p1); [done|lia|]. intros hash' k3 Hk3 Hin Hh'.
  refine (member_sound d pv p2 (fun v p ch => if ch =? COMMA then object_loop alloc fuel pv b p hash' (values ++ [v])
    else if ch =? RBRACE then pret (hash', values ++ [v], p) else nxt_conf_json_parse_error p BraceOrCommaExpected)
    k3 _ Hpv Hle2 _).
  intros w1 w2 t w3 v v' p4 ch3 k4 Hk4 Hw1 Hw2 Hv Heq Hw3 Hch3 Hp4 Hdp2.
  pose proof (lookup_lt_Some _ _ _ Hch3) as Hlt4.
  assert (Htext : drop (S p) b = w ++ ([DQUOTE] ++ n ++ [DQUOTE]) ++ w1 ++ [COLON] ++ w2 ++ t ++ w3 ++ ch3 :: drop (S p4) b).
  { by rewrite <- Hdp2, Hd, Hdn. }
  assert (Hnd' : NoDup (map nxt_conf_get_string (ns ++ [s]))).
  { rewrite map_app. apply NoDup_app. split; [done|]. split; [|apply NoDup_singleton].
    intros x Hx Hs1. apply list_elem_of_singleton in Hs1. by subst. }
  assert (Hlen' : length (values ++ [v']) = S (length values)) by (rewrite length_app; cbn; lia).
  destruct (ch3 =? COMMA) eqn:Ec; zbool.
  - subst ch3. eapply sound_weaken; [apply (IH p4 hash' (ns ++ [s]) (values ++ [v']) k4); try done; [lia| |lia]|].
    { rewrite !length_app. cbn. lia. }
    intros [[hash2 values2] p5] (t2 & q2 & l & vs & Hd5 & -> & Hj & Hh2 & -> & HF & Hnd2 & Hc2).
    exists (w ++ ([DQUOTE] ++ n ++ [DQUOTE]) ++ w1 ++ [COLON] ++ w2 ++ t ++ w3 ++ [COMMA] ++ t2), q2, ((s, v) :: l), (v' :: vs).
    rewrite Htext, Hd5. cbn [fmap list_fmap fst snd]. rewrite <- app_assoc in Hh2, Hnd2, Hc2.
    split_and!; [by apps|by lens| |done|by rewrite <- app_assoc|by constructor|done|by rewrite <- app_assoc].
    by apply (jm_more strtod d w n s w1 w2 t w3 v t2 l).
  - destruct (ch3 =? RBRACE) eqn:Er; zbool; [|by apply sound_error; lia]. subst ch3. apply sound_ret.
    exists (w ++ ([DQUOTE] ++ n ++ [DQUOTE]) ++ w1 ++ [COLON] ++ w2 ++ t ++ w3 ++ [RBRACE]), (drop (S p4) b), [(s, v)], [v'].
    rewrite Htext. cbn [fmap list_fmap fst snd].
    split_and!; [by apps|by lens| |done|done|by repeat constructor|done|lia].
    by apply (jm_last strtod d w n s w1 w2 t w3 v).
Qed.

Lemma object_sound d pv p k : parses d pv -> b !! p = Some LBRACE ->
  sound (nxt_conf_json_parse_object alloc pv b p) k (value_at (S d) p).
Proof.
  intros Hpv Hch. pose proof (lookup_lt_Some _ _ _ Hch) as Hp. unfold nxt_conf_json_parse_object.
  apply sound_request. intros k1 Hk1.
  eapply sound_bind.
  { apply (object_loop_sound d pv Hpv _ p table_empty [] []); [done|lia|apply hash_of_empty|done|constructor|done]. }
  intros [[hash values] p'] k3 Hk3 (t & q & l & vs & Hd & -> & Hj & Hh & -> & HF & Hnd & Hmax). cbn [app] in *.
  apply sound_request. intros k4 Hk4. pose proof (Forall2_length _ _ _ HF) as Hlen. rewrite length_fmap in Hlen.
  destruct (hash_of_members hash l.*1 vs Hh) as (l' & ms & He & Hc & Hperm); [by rewrite length_fmap|].
  eapply sound_lift; [exact He|]. eapply sound_lift; [exact Hc|].
  pose proof (zip_members l vs HF) as HF'. pose proof (Forall2_length _ _ _ HF') as Hlen'.
  eapply sound_lift; [apply copy_elements_ok; rewrite Hperm; lia|].
  apply sound_ret. exists ([LBRACE] ++ t), q, (VALUE_OBJECT l). cbn [fst snd].
  rewrite (drop_lookup_cons _ _ _ Hch), Hd.
  split_and!; [done|lens|constructor; [done|lia|]|by eapply eqv_object].
  by rewrite <- (map_map fst nxt_conf_get_string).
Qed.

(** *** Values *)

Lemma word_sound d p word v k : (p < length b)%nat -> jvalue strtod d word v ->
  sound (parse_word b p word v) k (value_at d p).
Proof.
  intros Hp Hv. unfold parse_word, has_word. case_bool_decide as Hw; [|apply sound_error; lia].
  apply sound_ret. exists word, (drop (length word) (drop p b)), v.
  split_and!; [by rewrite <- Hw at 1; rewrite take_drop|done..].
Qed.

Lemma scalar_sound d p ch k : b !! p = Some ch -> sound (parse_scalar alloc strtod b p ch) k (value_at d p).
Proof.
  intros Hch. pose proof (lookup_lt_Some _ _ _ Hch) as Hp. unfold parse_scalar.
  destruct (ch =? DQUOTE) eqn:Eq; zbool.
  { subst ch. eapply sound_bind; [by apply string_sound|]. intros [s p'] k' Hk' (t & Hd & Hj & -> & Hle).
    apply sound_ret. exists ([DQUOTE] ++ t ++ [DQUOTE]), (drop (p + length t + 2) b), (VALUE_STRING s).
    split_and!; [done|cbn [snd]; lens|by constructor|done]. }
  repeat (match goal with |- sound (if ?c then _ else _) _ _ => destruct c; [apply word_sound; [done|constructor]|] end).
  match goal with |- sound (if ?c then _ else _) _ _ => destruct c eqn:Edig; [|apply sound_error; lia] end.
  assert (Hst : number_start (drop p b)).
  { rewrite (drop_lookup_cons _ _ _ Hch). destruct (ch =? MINUS) eqn:Em; zbool.
    - subst ch. destruct (b !! S p) as [c|] eqn:Ec; [|done]. exists [MINUS], c, (drop (S (S p)) b).
      rewrite (drop_lookup_cons _ _ _ Ec). split_and!; [done|by right|done].
    - exists [], ch, (drop (S p) b). split_and!; [done|by left|done]. }
  eapply sound_bind; [by apply number_sound|]. intros [v p'] k' Hk' (t & q & Hd & Hj & Hv & -> & Hne).
  pose proof (drop_length_app p t q Hd ltac:(lia)) as Hle.
  assert (Hval : value_at d p (v, (p + length t)%nat)).
  { exists t, q, v. split_and!; [done|done|by apply jv_number|done]. }
  destruct (p + length t =? length b)%nat eqn:Ee; zbool; [by apply sound_ret|].
  apply sound_read; [lia|]. intros c Hc. destruct (is_delimiter c); [by apply sound_ret|apply sound_error; lia].
Qed.

Lemma value_sound d : parses d (nxt_conf_json_parse_value alloc strtod d b).
Proof.
  induction d as [|d IH]; intros p k Hp; cbn [nxt_conf_json_parse_value];
    apply sound_read; try done; intros ch Hch;
    (destruct (ch =? LBRACE) eqn:E1; zbool; [subst ch|
     destruct (ch =? LBRACKET) eqn:E2; zbool; [subst ch|by apply scalar_sound]]).
  - apply sound_error; lia.
  - apply sound_error; lia.
  - by apply object_sound.
  - by apply array_sound.
Qed.

Lemma document_sound k :
  sound (nxt_conf_json_parse alloc strtod b) k (fun v' => exists v, jdocument strtod b v /\ v ≡ v').
Proof.
  unfold nxt_conf_json_parse. apply sound_request. intros k1 Hk1.
  destruct (skip_read 0) as [Hle (w & Hw & Hd & Hl)]; [lia|]. set (p := nxt_conf_json_skip_space b 0) in *. cbv zeta.
  destruct (p =? length b)%nat eqn:E; zbool; [by apply sound_error; lia|].
  eapply sound_bind; [apply value_sound; lia|]. intros [v' p'] k2 Hk2 (t & q & v & Hdt & Hp' & Hv & Heq).
  cbn [fst snd] in *. pose proof (drop_length_app p t q Hdt ltac:(lia)) as Hle'.
  destruct (skip_read p') as [Hle2 (w' & Hw' & Hd' & Hl')]; [lia|].
  destruct (nxt_conf_json_skip_space b p' =? length b)%nat eqn:E2; cbn [negb]; zbool; [|apply sound_error; lia].
  apply sound_ret. exists v. split; [|done]. exists w, t, w'.
  split_and!; [|done..]. change b with (drop 0 b) at 1. rewrite Hd, Hdt. do 2 f_equal.
  apply drop_app_inv in Hdt. rewrite <- Hdt, <- Hp', Hd', E2, drop_all, app_nil_r. done.
Qed.
End Soundness.

(** ** Completeness

    While no request fails every text of the language is parsed. *)

Section Completeness.
  Context {HT : Table (list Z) member m_key}.
  Context (alloc : nat -> bool) (strtod : list Z -> strtod_result) (b : list Z).
  Context (Hmem : forall i, alloc i = true).

Definition yields {A} (m : parser A) (k : nat) (Q : A -> Prop) : Prop :=
  exists a k', m k = Ret (inr a, k') /\ Q a.

Lemma yields_ret {A} (a : A) k (Q : A -> Prop) : Q a -> yields (pret a) k Q.
Proof. intros H. by exists a, k. Qed.

Lemma yields_bind {A B} (m : parser A) (f : A -> parser B) k (Q : A -> Prop) R :
  yields m k Q -> (forall a k', Q a -> yields (f a) k' R) -> yields (pbind m f) k R.
Proof.
  intros (a & k1 & Hm & Ha) Hf. unfold yields, pbind, abind. rewrite Hm. cbn [obind]. by apply Hf.
Qed.

Lemma yields_run {A B} (m : parser A) (f : A -> parser B) k k' a R :
  m k = Ret (inr a, k') -> yields (f a) k' R -> yields (pbind m f) k R.
Proof. intros Hm Hf. unfold yields, pbind, abind. by rewrite Hm. Qed.

Lemma yields_lift {A B} (m : outcome A) (f : A -> parser B) k R a : m = Ret a ->
  yields (f a) k R -> yields (pbind (plift m) f) k R.
Proof. intros -> H. exact H. Qed.

Lemma yields_read {B} p (f : Z -> parser B) k R ch : b !! p = Some ch ->
  yields (f ch) k R -> yields (pbind (plift (of_option (b !! p))) f) k R.
Proof. intros Hch. apply yields_lift. by rewrite Hch. Qed.

Lemma yields_request {A} (m : parser A) k R : (forall k', yields m k' R) ->
  yields (let! ok := request alloc in if negb ok then pfail None else m) k R.
Proof. intros Hm. unfold yields, abind, request. cbn [obind]. rewrite Hmem. apply Hm. Qed.

Lemma yields_add {A} l (m : nxt_list conf_value -> parser A) k R : list_wf l ->
  (forall l' k',
     (forall v, list_wf (fill_last v l') /\ elements (Some (fill_last v l')) = elements (Some l) ++ [v]) ->
     yields (m l') k' R) ->
  yields (let! (ok, l) := (fun mp => let '(ok, l, mp) := nxt_list_add alloc mp VALUE_NULL l in Ret ((ok, l), mp)) in
         if negb ok then pfail None else m l) k R.
Proof.
  intros Hwf Hm. unfold yields, abind. pose proof (nxt_list_add_spec alloc k VALUE_NULL l Hwf) as Hspec.
  destruct (nxt_list_add alloc k VALUE_NULL l) as [[[] l'] k'] eqn:Ea; cbn [obind negb].
  - apply Hm. intros v. pose proof (fill_last_add alloc k v l l' k' Hwf Ea) as Hv.
    pose proof (nxt_list_add_spec alloc k v l Hwf) as Hs. rewrite Hv in Hs. naive_solver.
  - destruct Hspec as [_ Hf]. by rewrite Hmem in Hf.
Qed.

Lemma yields_create {A} (m : nxt_list conf_value -> parser A) k R :
  (forall l k', list_wf l -> elements (Some l) = [] -> yields (m l) k' R) ->
  yields (let! created := (fun mp => Ret (nxt_list_create (A := conf_value) alloc mp 8)) in
         match created with None => pfail None | Some l => m l end) k R.
Proof.
  intros Hm. unfold yields, abind. pose proof (nxt_list_create_wf (A := conf_value) alloc k 8) as Hc.
  unfold nxt_list_create in *. rewrite Hmem in *. cbn [obind].
  destruct (Hc (mk_nxt_list 8 [[]]) (S k)) as (Hwf & Hel & _); [lia|done|]. by apply Hm.
Qed.

Lemma yields_insert {A} hash ns s name (m : table -> parser A) k R : hash_of hash ns ->
  nxt_conf_get_string s ∉ map nxt_conf_get_string ns ->
  (forall hash' k', hash_of hash' (ns ++ [s]) -> yields (m hash') k' R) ->
  yields (let! (rc, hash) := table_insert alloc (Member (length ns) s) hash in
         if negb (rc =? NXT_OK) then
           if rc =? NXT_DECLINED then nxt_conf_json_parse_error name DuplicateMember else pfail None
         else m hash) k R.
Proof.
  intros Hh Hn Hm. destruct (hash_of_insert alloc hash ns s k Hh) as (rc & hash' & k' & Hr & Hk & Hc).
  unfold yields, abind. rewrite Hr. cbn [obind]. destruct Hc as [[_ Hin]|[_ [[-> Hh']|[-> (i & _ & Hf)]]]].
  - done.
  - by apply Hm.
  - by rewrite Hmem in Hf.
Qed.

(** Spaces before a byte. *)
Lemma skip_to p w c r : drop p b = w ++ c :: r -> ws w -> no_space (c :: r) ->
  nxt_conf_json_skip_space b p = (p + length w)%nat /\ b !! (p + length w)%nat = Some c
  /\ drop (p + length w) b = c :: r /\ (p + length w =? length b)%nat = false.
Proof.
  intros Hd Hw Hc. destruct (skip_complete b p w (c :: r) Hd Hw Hc) as [Hs Hd'].
  destruct (drop_cons_inv _ _ _ _ Hd') as [Hch _]. split_and!; [done|done|done|].
  apply Nat.eqb_neq. apply lookup_lt_Some in Hch. lia.
Qed.

(** A parser of all the values of depth [d]. *)
Definition completes (d : nat) (pv : nat -> parser (conf_value * nat)) : Prop :=
  forall p k t v q, drop p b = t ++ q -> jvalue strtod d t v -> follow q ->
  yields (pv p) k (fun vp => vp.2 = (p + length t)%nat /\ v ≡ vp.1).

(** *** Arrays *)

(** A value with spaces around it, up to the byte [c]. *)
Lemma spaced_value d pv p w t v w' c r : completes d pv -> drop p b = w ++ t ++ w' ++ c :: r ->
  ws w -> jvalue strtod d t v -> ws w' -> is_delimiter c = true -> no_space (c :: r) ->
  let p1 := (p + length w)%nat in let p3 := (p1 + length t + length w')%nat in
  nxt_conf_json_skip_space b p = p1 /\ (p1 =? length b)%nat = false
  /\ (exists ch, b !! p1 = Some ch /\ t !! 0%nat = Some ch)
  /\ (forall k, yields (pv p1) k (fun vp => vp.2 = (p1 + length t)%nat /\ v ≡ vp.1))
  /\ nxt_conf_json_skip_space b (p1 + length t) = p3 /\ (p3 =? length b)%nat = false
  /\ b !! p3 = Some c /\ drop (S p3) b = r.
Proof.
  intros Hpv Hd Hw Hv Hw' Hc Hns. destruct (jvalue_start _ _ _ _ Hv) as [Hne Hs].
  destruct t as [|ch t]; [done|]. destruct (skip_to p w ch (t ++ w' ++ c :: r) Hd Hw (Hs _)) as (H1 & H2 & H3 & H4).
  intros p1 p3. pose proof (drop_app_inv _ _ (ch :: t) _ H3) as Hd2.
  destruct (skip_to _ w' c r Hd2 Hw' Hns) as (H5 & H6 & H7 & H8).
  split; [done|]. split; [done|]. split; [by exists ch|]. split.
  - intros k. apply (Hpv p1 k (ch :: t) v (w' ++ c :: r)); [done|done|by apply ws_follow].
  - split; [done|]. split; [done|]. split; [done|]. by apply drop_cons_inv in H7 as [_ ?].
Qed.

(** No value begins with a closing bracket. *)
Lemma jvalue_first d t v : jvalue strtod d t v -> t !! 0%nat <> Some RBRACKET.
Proof.
  intros H. inversion H as [| | |? ? ? Hn| | |]; subst; try done.
  destruct Hn as (sg & i & f & e & -> & Hsg & Hi & Hne & _). destruct i as [|c i]; [done|].
  apply Forall_cons in Hi as [Hc _]. destruct Hsg as [-> | ->]; [|done]. cbn. by intros [= ->].
Qed.

Lemma array_step d pv fuel p count list k w t v w' c r R : completes d pv ->
  drop (S p) b = w ++ t ++ w' ++ c :: r -> ws w -> jvalue strtod d t v -> ws w' ->
  is_delimiter c = true -> no_space (c :: r) ->
  list_wf list -> Z.of_nat count < NXT_CONF_JSON_MAX_ELEMENTS ->
  let p3 := (S p + length w + length t + length w')%nat in
  (forall list' v' k', list_wf list' -> elements (Some list') = elements (Some list) ++ [v'] -> v ≡ v' ->
     drop (S p3) b = r ->
     yields (if c =? COMMA then array_loop alloc fuel pv b p3 (S count) list'
             else if c =? RBRACKET then pret (list', S count, p3)
             else nxt_conf_json_parse_error p3 BracketOrCommaExpected) k' R) ->
  yields (array_loop alloc (S fuel) pv b p count list) k R.
Proof.
  intros Hpv Hd Hw Hv Hw' Hc Hns Hwf Hmax p3 Hrest. cbn [array_loop].
  destruct (spaced_value d pv _ w t v w' c r Hpv Hd Hw Hv Hw' Hc Hns)
    as (H1 & H2 & (ch & H3 & H3') & H4 & H5 & H6 & H7 & H8).
  rewrite H1, H2. eapply yields_read; [exact H3|]. pose proof (jvalue_first _ _ _ Hv) as Hf. rewrite H3' in Hf.
  rewrite (proj2 (Z.eqb_neq ch RBRACKET)) by congruence. rewrite (proj2 (Z.leb_gt _ _)) by lia.
  apply yields_add; [done|]. intros list' k1 Hfill. eapply yields_bind; [apply H4|].
  intros [v' p2] k2 [Hp2 Heq]. cbn [fst snd] in *. rewrite Hp2, H5, H6. eapply yields_read; [exact H7|].
  destruct (Hfill v') as [Hwf' Hel]. by eapply Hrest.
Qed.

Lemma array_loop_complete d t l : jelements strtod d t l -> forall pv, completes d pv ->
  forall fuel p count list k q, drop (S p) b = t ++ q -> (length t <= fuel)%nat -> list_wf list ->
  Z.of_nat (count + length l) <= NXT_CONF_JSON_MAX_ELEMENTS ->
  yields (array_loop alloc fuel pv b p count list) k (fun '(list', count', p') =>
    p' = (p + length t)%nat /\ count' = (count + length l)%nat
    /\ exists l', elements (Some list') = elements (Some list) ++ l' /\ Forall2 (≡) l l').
Proof.
  intros Hj. induction Hj as [d w Hw|d w t w' v Hw Hv Hw'|d w t w' v t' l Hw Hv Hw' Hj IH];
    intros pv Hpv fuel p count list k q Hd Hfuel Hwf Hmax;
    rewrite !length_app in Hfuel; (destruct fuel as [|fuel]; [cbn in Hfuel; lia|]);
    rewrite <- !app_assoc in Hd; cbn [app length] in Hd, Hmax.
  - cbn [array_loop]. destruct (skip_to _ w _ _ Hd Hw) as (H1 & H2 & H3 & H4); [done|].
    rewrite H1, H4. eapply yields_read; [exact H2|]. rewrite Z.eqb_refl. apply yields_ret.
    split; [lens|]. split; [cbn; lia|]. exists []. by rewrite app_nil_r.
  - eapply (array_step d pv fuel p count list k w t v w'); [done..|lia|]. intros list' v' k' Hwf' Hel Heq Hr.
    rewrite Z.eqb_refl. cbn [Z.eqb]. apply yields_ret.
    split; [lens|]. split; [cbn; lia|]. exists [v']. rewrite Hel. by repeat constructor.
  - eapply (array_step d pv fuel p count list k w t v w'); [done..|lia|]. intros list' v' k' Hwf' Hel Heq Hr.
    rewrite Z.eqb_refl. destruct (IH pv Hpv fuel _ (S count) list' k' q Hr) as ([[list2 c2] p'] & k2 & Hrun & Hp & Hc & l' & Hl & HF);
      [cbn in Hfuel; lia|done|lia|].
    exists (list2, c2, p'), k2. split; [done|]. split; [rewrite Hp; lens|]. split; [cbn; lia|].
    exists (v' :: l'). rewrite Hl, Hel, <- app_assoc. split; [done|by constructor].
Qed.

Lemma array_complete d pv p k t l q : completes d pv -> drop p b = LBRACKET :: t ++ q ->
  jelements strtod d t l -> Z.of_nat (length l) <= NXT_CONF_JSON_MAX_ELEMENTS ->
  yields (nxt_conf_json_parse_array alloc pv b p) k
    (fun vp => vp.2 = (p + S (length t))%nat /\ VALUE_ARRAY l ≡ vp.1).
Proof.
  intros Hpv Hd Hj Hmax. pose proof (drop_cons_inv _ _ _ _ Hd) as [_ Hd'].
  assert (Hlen : (length t <= length b)%nat) by (apply (f_equal length) in Hd'; rewrite length_drop, length_app in Hd'; lia).
  unfold nxt_conf_json_parse_array. apply yields_request. intros k1. apply yields_create. intros l0 k2 Hwf Hel.
  eapply yields_bind; [by eapply (array_loop_complete d t l Hj pv Hpv); [exact Hd'|lia|done|done]|].
  intros [[list c] p'] k3 (-> & -> & l' & Hl & HF). apply yields_request. intros k4.
  rewrite nxt_list_each_spec, fold_snoc, Hl, Hel. cbn [app].
  eapply yields_lift; [apply copy_elements_ok; by rewrite (Forall2_length _ _ _ HF)|].
  apply yields_ret. cbn [fst snd]. split; [lia|by constructor].
Qed.

(** *** Objects *)

Lemma string_yields p k t cs q : drop p b = DQUOTE :: t ++ DQUOTE :: q -> jstring t cs ->
  yields (nxt_conf_json_parse_string alloc b p) k (fun sp => sp = (cs, (p + length t + 2)%nat)).
Proof.
  intros Hd Hj. destruct (parse_string_complete alloc b p t cs q k Hmem Hd Hj) as [k' Hr]. by eexists _, k'.
Qed.

Lemma drop_quoted p n q : drop p b = DQUOTE :: n ++ DQUOTE :: q -> drop (p + length n + 2) b = q.
Proof.
  intros Hd. apply drop_cons_inv in Hd as [_ Hd]. apply drop_app_inv in Hd. apply drop_cons_inv in Hd as [_ Hd].
  rewrite <- Hd. f_equal. lia.
Qed.

Lemma object_step d pv fuel p hash ns values k w n name w1 w2 t w3 v c r R : completes d pv ->
  drop (S p) b = w ++ DQUOTE :: n ++ DQUOTE :: w1 ++ COLON :: w2 ++ t ++ w3 ++ c :: r ->
  ws w -> jstring n name -> ws w1 -> ws w2 -> jvalue strtod d t v -> ws w3 ->
  is_delimiter c = true -> no_space (c :: r) ->
  hash_of hash ns -> length ns = length values -> nxt_conf_get_string name ∉ map nxt_conf_get_string ns ->
  Z.of_nat (length values) < NXT_CONF_JSON_MAX_ELEMENTS ->
  let p3 := (S p + length w + length n + 2 + length w1 + 1 + length w2 + length t + length w3)%nat in
  (forall hash' v' k', hash_of hash' (ns ++ [name]) -> v ≡ v' -> drop (S p3) b = r ->
     yields (if c =? COMMA then object_loop alloc fuel pv b p3 hash' (values ++ [v'])
             else if c =? RBRACE then pret (hash', values ++ [v'], p3)
             else nxt_conf_json_parse_error p3 BraceOrCommaExpected) k' R) ->
  yields (object_loop alloc (S fuel) pv b p hash values) k R.
Proof.
  intros Hpv Hd Hw Hn Hw1 Hw2 Hv Hw3 Hc Hns Hh Hlen Hin Hmax p3 Hrest. cbn [object_loop].
  destruct (skip_to _ w _ _ Hd Hw) as (H1 & H2 & H3 & H4); [done|]. rewrite H1, H4.
  eapply yields_read; [exact H2|]. rewrite Z.eqb_refl. cbn [negb]. rewrite (proj2 (Z.leb_gt _ _)) by lia.
  apply yields_request. intros k1. eapply yields_bind; [by eapply string_yields|]. intros sp k2 ->.
  rewrite <- Hlen. apply (yields_insert hash ns name); [done|done|]. intros hash' k3 Hh'.
  apply drop_quoted in H3. destruct (skip_to _ w1 _ _ H3 Hw1) as (E1 & E2 & E3 & E4); [done|]. rewrite E1, E4.
  eapply yields_read; [exact E2|]. rewrite Z.eqb_refl. cbn [negb]. apply drop_cons_inv in E3 as [_ E3].
  destruct (spaced_value d pv _ w2 t v w3 c r Hpv E3 Hw2 Hv Hw3 Hc Hns) as (F1 & F2 & _ & F4 & F5 & F6 & F7 & F8).
  rewrite F1, F2. eapply yields_bind; [apply F4|]. intros [v' p2] k4 [Hp2 Heq]. cbn [fst snd] in *.
  rewrite Hp2, F5, F6. eapply yields_read; [exact F7|].
  replace (S (S p + length w + length n + 2 + length w1) + length w2 + length t + length w3)%nat with p3 in * by lia.
  by apply Hrest.
Qed.

Lemma NoDup_middle {A B} (g : A -> B) l1 x l2 : NoDup (map g (l1 ++ x :: l2)) -> g x ∉ map g l1.
Proof.
  rewrite map_app, NoDup_app. intros (_ & H & _) Hx. apply (H _ Hx). cbn. left.
Qed.

Lemma object_loop_complete d t l : jmembers strtod d t l -> forall pv, completes d pv ->
  forall fuel p hash ns values k q, drop (S p) b = t ++ q -> (length t <= fuel)%nat -> hash_of hash ns ->
  length ns = length values -> NoDup (map nxt_conf_get_string (ns ++ l.*1)) ->
  Z.of_nat (length values + length l) <= NXT_CONF_JSON_MAX_ELEMENTS ->
  yields (object_loop alloc fuel pv b p hash values) k (fun '(hash', values', p') =>
    p' = (p + length t)%nat /\ hash_of hash' (ns ++ l.*1)
    /\ exists vs, values' = values ++ vs /\ Forall2 (≡) l.*2 vs).
Proof.
  intros Hj. induction Hj as [d w Hw|d w n name w1 w2 t w3 v Hw Hn Hw1 Hw2 Hv Hw3
                             |d w n name w1 w2 t w3 v t' l Hw Hn Hw1 Hw2 Hv Hw3 Hj IH];
    intros pv Hpv fuel p hash ns values k q Hd Hfuel Hh Hlen Hnd Hmax;
    rewrite length_app in Hfuel; (destruct fuel as [|fuel]; [cbn in Hfuel; lia|]);
    cbn [length fmap list_fmap fst snd] in Hmax, Hnd |- *.
  - cbn [object_loop]. rewrite <- app_assoc in Hd. cbn [app] in Hd.
    destruct (skip_to _ w _ _ Hd Hw) as (H1 & H2 & H3 & H4); [done|].
    rewrite H1, H4. eapply yields_read; [exact H2|]. cbn [Z.eqb Pos.eqb negb]. apply yields_ret.
    split; [lens|]. rewrite app_nil_r. split; [done|]. exists []. by rewrite app_nil_r.
  - eapply (object_step d pv fuel p hash ns values k w n name w1 w2 t w3 v RBRACE q); try done;
      [rewrite Hd; by apps|by eapply NoDup_middle|lia|].
    intros hash' v' k' Hh' Heq Hr. rewrite Z.eqb_refl. cbn [Z.eqb Pos.eqb]. apply yields_ret.
    split; [lens|]. split; [done|]. exists [v']. by repeat constructor.
  - eapply (object_step d pv fuel p hash ns values k w n name w1 w2 t w3 v COMMA (t' ++ q)); try done;
      [rewrite Hd; by apps|by eapply NoDup_middle|lia|].
    intros hash' v' k' Hh' Heq Hr. rewrite Z.eqb_refl.
    destruct (IH pv Hpv fuel _ hash' (ns ++ [name]) (values ++ [v']) k' q Hr)
      as ([[hash2 values2] p'] & k2 & Hrun & -> & Hh2 & vs & -> & HF);
      [rewrite !length_app in Hfuel; cbn [length] in Hfuel; lia|done|lens|by rewrite <- app_assoc|rewrite length_app; cbn; lia|].
    rewrite <- app_assoc in Hh2. eexists _, k2. split; [exact Hrun|]. split; [lens|]. split; [done|].
    exists (v' :: vs). rewrite <- app_assoc. split; [done|by constructor].
Qed.

Lemma object_complete d pv p k t l q : completes d pv -> drop p b = LBRACE :: t ++ q ->
  jmembers strtod d t l -> Z.of_nat (length l) <= NXT_CONF_JSON_MAX_ELEMENTS ->
  NoDup (map (fun m => nxt_conf_get_string m.1) l) ->
  yields (nxt_conf_json_parse_object alloc pv b p) k
    (fun vp => vp.2 = (p + S (length t))%nat /\ VALUE_OBJECT l ≡ vp.1).
Proof.
  intros Hpv Hd Hj Hmax Hnd. pose proof (drop_cons_inv _ _ _ _ Hd) as [_ Hd'].
  assert (Hlen : (length t <= length b)%nat) by (apply (f_equal length) in Hd'; rewrite length_drop, length_app in Hd'; lia).
  unfold nxt_conf_json_parse_object. apply yields_request. intros k1.
  rewrite <- (map_map fst nxt_conf_get_string) in Hnd.
  eapply yields_bind; [by eapply (object_loop_complete d t l Hj pv Hpv _ p table_empty [] []);
    [exact Hd'|lia|apply hash_of_empty|done|done|done]|].
  intros [[hash values] p'] k3 (-> & Hh & vs & -> & HF). cbn [app] in *. apply yields_request. intros k4.
  pose proof (Forall2_length _ _ _ HF) as Hl. rewrite length_fmap in Hl.
  destruct (hash_of_members hash l.*1 vs Hh) as (l' & ms & He & Hc & Hperm); [by rewrite length_fmap|].
  eapply yields_lift; [exact He|]. eapply yields_lift; [exact Hc|].
  pose proof (zip_members l vs HF) as HF'. pose proof (Forall2_length _ _ _ HF') as Hl'.
  eapply yields_lift; [apply copy_elements_ok; rewrite Hperm; lia|].
  apply yields_ret. cbn [fst snd]. split; [lia|by eapply eqv_object].
Qed.

(** *** Values *)

Lemma word_complete p k word v q : drop p b = word ++ q ->
  yields (parse_word b p word v) k (fun vp => vp.2 = (p + length word)%nat /\ v ≡ vp.1).
Proof.
  intros Hd. unfold parse_word, has_word. rewrite bool_decide_true by (by rewrite Hd, take_app_length).
  by apply yields_ret.
Qed.

Lemma digit_scalar c : is_digit c = true ->
  (c =? LBRACE) = false /\ (c =? LBRACKET) = false /\ (c =? DQUOTE) = false
  /\ (c =? 116) = false /\ (c =? 102) = false /\ (c =? 110) = false /\ (c =? MINUS) = false.
Proof.
  intros H. split_and!; apply Z.eqb_neq; by intros ->.
Qed.

Lemma number_scalar p k t v q ch : drop p b = t ++ q -> b !! p = Some ch -> jnumber t ->
  jnumber_value strtod t v -> follow q ->
  (ch =? LBRACE) = false /\ (ch =? LBRACKET) = false
  /\ yields (parse_scalar alloc strtod b p ch) k (fun vp => vp.2 = (p + length t)%nat /\ v ≡ vp.1).
Proof.
  intros Hd Hch Hn Hv Hq. pose proof (parse_number_complete strtod b p t v q k Hd Hn Hv Hq) as Hrun.
  destruct (jnumber_start t Hn) as [(sg & c & l & Ht & Hsg & Hc) _].
  assert (Hfirst : (ch =? MINUS) = true /\ b !! S p = Some c \/ is_digit ch = true).
  { rewrite Ht in Hd. destruct Hsg as [-> | ->]; cbn [app] in Hd; apply drop_cons_inv in Hd as [H1 H2].
    - right. congruence.
    - left. apply drop_cons_inv in H2 as [H2 _]. split; [|done]. apply Z.eqb_eq. congruence. }
  pose proof (drop_app_inv _ _ _ _ Hd) as Hend.
  assert (Htail : forall start, yields (let? (v, p) := nxt_conf_json_parse_number strtod b p in
      if (p =? length b)%nat then pret (v, p)
      else let? ch := plift (of_option (b !! p)) in
        if is_delimiter ch then pret (v, p) else nxt_conf_json_parse_error start ValueExpected) k
      (fun vp => vp.2 = (p + length t)%nat /\ v ≡ vp.1)).
  { intros start. eapply yields_run; [exact Hrun|]. cbv beta iota.
    assert (Hle : (p + length t <= length b)%nat).
    { apply lookup_lt_Some in Hch. apply (f_equal length) in Hd. rewrite length_drop, length_app in Hd. lia. }
    destruct (p + length t =? length b)%nat eqn:E; [by apply yields_ret|]. zbool.
    destruct q as [|c' q]; [apply (f_equal length) in Hend; rewrite length_drop in Hend; cbn in Hend; lia|].
    apply drop_cons_inv in Hend as [Hc' _]. eapply yields_read; [exact Hc'|]. cbn in Hq. rewrite Hq.
    by apply yields_ret. }
  unfold parse_scalar. destruct Hfirst as [[Hm Hnext]|Hdig].
  - apply Z.eqb_eq in Hm. subst ch. split; [done|]. split; [done|]. cbn [Z.eqb Pos.eqb]. rewrite Hnext, Hc. apply Htail.
  - destruct (digit_scalar ch Hdig) as (-> & -> & -> & -> & -> & -> & ->). rewrite Hdig. split; [done|]. split; [done|]. apply Htail.
Qed.

Definition is_scalar (v : conf_value) : Prop :=
  match v with VALUE_ARRAY _ | VALUE_OBJECT _ => False | _ => True end.

Lemma scalar_complete d p k t v q ch : drop p b = t ++ q -> b !! p = Some ch -> jvalue strtod d t v -> follow q ->
  is_scalar v -> (ch =? LBRACE) = false /\ (ch =? LBRACKET) = false
  /\ yields (parse_scalar alloc strtod b p ch) k (fun vp => vp.2 = (p + length t)%nat /\ v ≡ vp.1).
Proof.
  intros Hd Hch Hv Hq Hs. pose proof Hd as Hd0.
  destruct Hv as [d|d|d|d t v Hn Hv|d t s Hj| |]; try done; [| | |by eapply number_scalar|];
    apply drop_cons_inv in Hd as [Hc _]; rewrite Hch in Hc; injection Hc as ->; (split; [done|]); (split; [done|]).
  1-3: by eapply word_complete.
  unfold parse_scalar. rewrite Z.eqb_refl. cbn [app] in Hd0. rewrite <- app_assoc in Hd0.
  eapply yields_bind; [by eapply string_yields|]. intros sp k' ->. apply yields_ret. cbn [fst snd]. split; [lens|done].
Qed.

Lemma jvalue_scalar d t v : jvalue strtod d t v ->
  is_scalar v
  \/ (exists d' t' l, d = S d' /\ t = LBRACKET :: t' /\ v = VALUE_ARRAY l /\ jelements strtod d' t' l
      /\ Z.of_nat (length l) <= NXT_CONF_JSON_MAX_ELEMENTS)
  \/ (exists d' t' l, d = S d' /\ t = LBRACE :: t' /\ v = VALUE_OBJECT l /\ jmembers strtod d' t' l
      /\ Z.of_nat (length l) <= NXT_CONF_JSON_MAX_ELEMENTS /\ NoDup (map (fun m => nxt_conf_get_string m.1) l)).
Proof.
  intros [| | |? ? ? _ (_ & _ & _ & _ & ->)| |d' t' l Hj Hmax|d' t' l Hj Hmax Hnd]; try by left.
  - left. by destruct (is_integral _).
  - right. left. by exists d', t', l.
  - right. right. by exists d', t', l.
Qed.

Lemma value_complete d : completes d (nxt_conf_json_parse_value alloc strtod d b).
Proof.
  induction d as [|d IH]; intros p k t v q Hd Hv Hq; destruct (jvalue_start _ _ _ _ Hv) as [Hne _];
    (destruct t as [|ch t]; [done|]); cbn [nxt_conf_json_parse_value];
    pose proof (drop_cons_inv _ _ _ _ Hd) as [Hch _]; (eapply yields_read; [exact Hch|]);
    (destruct (jvalue_scalar _ _ _ Hv) as [Hs|[(d' & t' & l & ? & ? & -> & Hj & Hmax)|(d' & t' & l & ? & ? & -> & Hj & Hmax & Hnd)]];
     [by destruct (scalar_complete _ p k _ _ q ch Hd Hch Hv Hq Hs) as (-> & -> & ?)|simplify_eq..]).
  - rewrite Z.eqb_refl. cbn [Z.eqb Pos.eqb]. by eapply array_complete.
  - rewrite Z.eqb_refl. by eapply object_complete.
Qed.

Lemma document_complete v k : jdocument strtod b v ->
  yields (nxt_conf_json_parse alloc strtod b) k (fun v' => v ≡ v').
Proof.
  intros (w & t & w' & Hb & Hw & Hw' & Hv). unfold nxt_conf_json_parse. apply yields_request. intros k1. cbv zeta.
  destruct (jvalue_start _ _ _ _ Hv) as [Hne Hs]. destruct t as [|c t]; [done|].
  destruct (skip_to 0 w c (t ++ w')) as (H1 & H2 & H3 & H4); [done|done|exact (Hs w')|]. rewrite H1, H4.
  eapply yields_bind; [by eapply (value_complete _ _ _ (c :: t) v w'); [exact H3|done|apply ws_follow_end]|].
  intros [v' p'] k2 [Hp' Heq]. cbn [fst snd] in *. pose proof (drop_app_inv _ _ (c :: t) _ H3) as Hd.
  rewrite <- (app_nil_r w'), <- Hp' in Hd. destruct (skip_complete b p' w' [] Hd Hw') as [-> _]; [done|].
  replace (p' + length w')%nat with (length b) by (rewrite Hp', Hb; lens).
  rewrite Nat.eqb_refl. by apply yields_ret.
Qed.
End Completeness.

(** ** Correctness of the parser *)

(** For every text, every behaviour of the allocator and of [strtod],
    [nxt_conf_json_parse] returns without an access outside the text: a value
    means that the text is in the grammar and denotes that value, an error
    points into the text, and a null pointer without an error means that an
    allocation failed or that [strtod] stopped inside a number. *)
Theorem nxt_conf_json_parse_sound alloc strtod b k :
  exists r k', nxt_conf_json_parse (HT := conf_object_hash) alloc strtod b k = Ret (r, k')
  /\ match r with
     | inr v' => exists v, jdocument strtod b v /\ v ≡ v'
     | inl (Some (pos, _)) => (pos <= length b)%nat
     | inl None => failed alloc k k' \/ exists t, jnumber t /\ st_end (strtod t) <> Some (length t)
     end.
Proof.
  destruct (document_sound (HT := conf_object_hash) alloc strtod b k) as (r & k' & Hr & _ & Hpost).
  by exists r, k'.
Qed.


(** C30. While the allocations succeed and [strtod] reads numbers to their
    end, the parser decides the grammar: it returns the one value that the
    text denotes, or it returns an error inside the text and the text denotes
    nothing. *)
Theorem nxt_conf_json_parse_decides alloc strtod b k :
  (forall i, alloc i = true) -> (forall t, jnumber t -> st_end (strtod t) = Some (length t)) ->
  (exists v' k', nxt_conf_json_parse (HT := conf_object_hash) alloc strtod b k = Ret (inr v', k')
     /\ (exists v, jdocument strtod b v) /\ forall v, jdocument strtod b v -> v ≡ v')
  \/ (exists pos e k', nxt_conf_json_parse (HT := conf_object_hash) alloc strtod b k = Ret (inl (Some (pos, e)), k')
     /\ (pos <= length b)%nat /\ forall v, ~ jdocument strtod b v).
Proof.
  intros Hmem Hst.
  assert (Hc : forall v, jdocument strtod b v -> yields (nxt_conf_json_parse (HT := conf_object_hash) alloc strtod b) k (fun v' => v ≡ v'))
    by (intros v; by apply document_complete).
  destruct (document_sound (HT := conf_object_hash) alloc strtod b k) as ([[[pos e]|]|v'] & k' & Hr & _ & Hpost).
  - right. exists pos, e, k'. split_and!; [done|done|]. intros v Hv. destruct (Hc v Hv) as (a & k2 & Hr2 & _). congruence.
  - destruct Hpost as [(i & _ & Hf)|(t & Ht & Hne)]; [by rewrite Hmem in Hf|by apply Hst in Ht].
  - left. destruct Hpost as (v & Hv & _). exists v', k'. split_and!; [done|by exists v|].
    intros v2 Hv2. destruct (Hc v2 Hv2) as (a & k2 & Hr2 & Ha). rewrite Hr in Hr2. by simplify_eq.
Qed.

(** ** Examples *)

Fixpoint span (l : list Z) : list Z * list Z :=
  match l with
  | c :: l' => if is_digit c then let (a, r) := span l' in (c :: a, r) else ([], l)
  | [] => ([], [])
  end.

Definition decimal (l : list Z) : Z := fold_left (fun n c => n * 10 + (c - CH_0)) l 0.

(** The number that a text denotes, without rounding. *)
Definition exact_strtod (t : list Z) : strtod_result :=
  let '(sign, t1) := match t with c :: r => if c =? MINUS then (-1, r) else (1, t) | [] => (1, t) end in
  let '(i, t2) := span t1 in
  let '(f, t3) := match t2 with c :: r => if c =? DOT then span r else ([], t2) | [] => ([], t2) end in
  let '(esign, t4) :=
    match t3 with
    | _ :: c :: r => if c =? MINUS then (-1, r) else if c =? PLUS then (1, r) else (1, c :: r)
    | _ => (1, [])
    end in
  let e := esign * decimal (span t4).1 - Z.of_nat (length f) in
  Strtod false (inject_Z (sign * decimal (i ++ f)) * Qpower 10 e) (Some (length t)).

(** A document with a comment and a superfluous comma. *)
Definition sample : list Z := bytes_of_string " [true, -10,/**/]".

Lemma sample_document : jdocument exact_strtod sample (VALUE_ARRAY [VALUE_BOOLEAN true; VALUE_INTEGER [45; 49; 48]]).
Proof.
  exists [SP], (bytes_of_string "[true, -10,/**/]"), []. split; [done|]. split; [by repeat constructor|].
  split; [constructor|]. apply (jv_array _ 99 (bytes_of_string "true, -10,/**/]")); [|done].
  apply (je_more _ _ [] (bytes_of_string "true") [] _ (bytes_of_string " -10,/**/]")); [constructor..|].
  apply (je_more _ _ [SP] (bytes_of_string "-10") [] _ (bytes_of_string "/**/]")); [by repeat constructor| |constructor|].
  - apply jv_number; [|by repeat split].
    exists [MINUS], (bytes_of_string "10"), [], []. split_and!; [done|by right|by repeat constructor|done|done|by left|by left].
  - apply (je_end _ _ (bytes_of_string "/**/")). by apply (ws_block [] []); [|constructor].
Qed.


(** [nxt_conf_json_parse_decides] at a text that is not in the grammar. *)
Lemma nxt_conf_json_parse_decides_witness :
  exists pos e k', nxt_conf_json_parse (HT := conf_object_hash) (fun _ => true) exact_strtod (bytes_of_string "[1;2]") 0%nat
    = Ret (inl (Some (pos, e)), k') /\ forall v, ~ jdocument exact_strtod (bytes_of_string "[1;2]") v.
Proof.
  destruct (nxt_conf_json_parse_decides (fun _ => true) exact_strtod (bytes_of_string "[1;2]") 0%nat)
    as [(v' & k' & Hr & _)|(pos & e & k' & Hr & _ & Hv)].
  - done.
  - intros t _. unfold exact_strtod. repeat case_match; done.
  - exfalso. revert Hr. vm_compute. discriminate.
  - by exists pos, e, k'.
Defined.
