(* ===== verification/ConfRoundtrip.v ===== *)
(** * Printing and parsing configuration values

    [nxt_conf_json_print], plain or pretty, produces a text of the grammar
    that denotes the printed value; so parsing it gives the value back. *)

From stdpp Require Import gmap.
From S2P Require Import Prelude Utf8 ConfValue Lvlhsh ConfHash ConfParse ConfLex ConfGrammar.
#[local] Open Scope Z_scope.

(** ** Strings *)

(** Bytes whose escaped text is not too large. *)
Definition printable (s : conf_string) : Prop :=
  Forall (fun c => 0 <= c) (nxt_conf_get_string s)
  /\ 3 * Z.of_nat (length (nxt_conf_get_string s)) <= NXT_CONF_MAX_STRING.

Lemma escape_control c : 0 <= c <= 31 ->
  (exists e, escape_char c = [BACKSLASH; e] /\ unescape e = Some c)
  \/ (exists h, escape_char c = [BACKSLASH; 117] ++ h /\ hex4 h = Some c /\ utf8 c = [c]).
Proof.
  intros Hc.
  assert (H : Forall (fun c => (exists e, escape_char c = [BACKSLASH; e] /\ unescape e = Some c)
    \/ (exists h, escape_char c = [BACKSLASH; 117] ++ h /\ hex4 h = Some c /\ utf8 c = [c])) (seqZ 0 32)).
  { let l := eval vm_compute in (seqZ 0 32) in change (seqZ 0 32) with l.
    repeat (apply Forall_cons; split;
      [first [left; eexists; split; reflexivity|right; eexists; split_and!; reflexivity]|]). done. }
  rewrite Forall_forall in H. apply H, elem_of_seqZ. lia.
Qed.

Lemma escape_chars s : Forall (fun c => 0 <= c) s ->
  exists n, jchars (nxt_conf_json_escape s) n s
  /\ (n <= length (nxt_conf_json_escape s) <= 3 * length s + n)%nat.
Proof.
  induction 1 as [|c s Hc Hs (n & Hj & Hl)]; cbn [nxt_conf_json_escape length]; [exists 0%nat; split; [constructor|done]|].
  destruct (31 <? c) eqn:E; zbool.
  - unfold escape_char. rewrite (proj2 (Z.ltb_lt 31 c)) by lia.
    destruct ((c =? BACKSLASH) || (c =? DQUOTE)) eqn:Eq.
    + exists (n + 1)%nat. split; [|lens]. cbn [app]. apply (jc_escape c c); [|done].
      apply orb_true_iff in Eq as [Eq|Eq]; zbool; by subst.
    + apply orb_false_iff in Eq as [E1 E2]; zbool. exists n. split; [|lens]. by apply jc_char; [lia|..].
  - destruct (escape_control c ltac:(lia)) as [(e & -> & He)|(h & -> & Hh & Hu)].
    + exists (n + 1)%nat. split; [by apply jc_escape|lens].
    + exists (n + 3)%nat. assert (length h = 4%nat) by (by destruct h as [|? [|? [|? [|? [|]]]]]).
      split; [|lens]. rewrite <- app_assoc. change (c :: s) with ([c] ++ s). rewrite <- Hu. by apply jc_unit; [|lia|].
Qed.

Lemma print_string s : printable s ->
  exists t s', nxt_conf_json_print_string s = [DQUOTE] ++ t ++ [DQUOTE] /\ jstring t s'
  /\ nxt_conf_get_string s = nxt_conf_get_string s'.
Proof.
  intros [Hb Hl]. destruct (escape_chars _ Hb) as (n & Hj & Hn). eexists _, _. split; [reflexivity|].
  split; [exists n, (nxt_conf_get_string s); split_and!; [done|lia|reflexivity]|]. by destruct (_ <? _).
Qed.

(** ** Values *)

Section Roundtrip.
  Context (strtod : list Z -> strtod_result).

(** The values that the parser can build. *)
Fixpoint valid (v : conf_value) : Prop :=
  match v with
  | VALUE_INTEGER t | VALUE_NUMBER t => jnumber t /\ jnumber_value strtod t v
  | VALUE_STRING s => printable s
  | VALUE_ARRAY l =>
    Z.of_nat (length l) <= NXT_CONF_JSON_MAX_ELEMENTS /\ foldr (fun v P => valid v /\ P) True l
  | VALUE_OBJECT l =>
    Z.of_nat (length l) <= NXT_CONF_JSON_MAX_ELEMENTS /\ NoDup (map (fun m => nxt_conf_get_string m.1) l)
    /\ foldr (fun m P => (printable m.1 /\ valid m.2) /\ P) True l
  | _ => True
  end.

Lemma ws_app w w' : ws w -> ws w' -> ws (w ++ w').
Proof.
  intros Hw Hw'. induction Hw as [|c t Hc Ht IH|body t Hb Ht IH|body t Hb Ht IH]; [done| | |].
  - by apply (ws_space c (t ++ w')).
  - repeat (rewrite <- app_assoc || cbn [app]). by apply (ws_line body (t ++ w')).
  - repeat (rewrite <- app_assoc || cbn [app]). by apply (ws_block body (t ++ w')).
Qed.

Lemma ws_newline : ws newline.
Proof. by repeat constructor. Qed.

Lemma ws_indentation n : ws (nxt_conf_json_indentation n).
Proof. unfold nxt_conf_json_indentation. induction (Z.to_nat n); cbn; by constructor. Qed.

(** The text that a writer adds. *)
Definition text (w : writer) (p : option pretty) : list Z := (w p).1.

Lemma text_seq a b p : text (a ;+ b) p = text a p ++ text b (a p).2.
Proof. unfold text, seq_writer. destruct (a p) as [s p']. cbn. by destruct (b p'). Qed.

Lemma state_seq a b p : (((a ;+ b) p).2 = (b (a p).2).2)%nat.
Proof. unfold seq_writer. destruct (a p) as [s p']. cbn. by destruct (b p'). Qed.

Lemma if_pretty_ws f p : (forall q, ws (f q).1) -> ws (text (if_pretty f) p).
Proof. intros Hf. destruct p as [p|]; cbn; [|constructor]. specialize (Hf p). unfold text. cbn. by destruct (f p). Qed.

Lemma newline_indent_ws f p : ws (text (newline_indent f) p).
Proof. apply if_pretty_ws. intros q. by apply ws_app; [apply ws_newline|apply ws_indentation]. Qed.

Lemma close_line_ws p : ws (text close_line p).
Proof. apply if_pretty_ws. intros q. by apply ws_app; [apply ws_newline|apply ws_indentation]. Qed.

Ltac texts := rewrite ?text_seq, ?state_seq; cbn [put snd]; change (text (put ?x) _) with x; apps.
Ltac texts_in H := rewrite ?text_seq, ?state_seq in H; cbn [put snd] in H; change (text (put ?x) _) with x in H;
  repeat first [rewrite <- app_assoc in H | progress cbn [app] in H].

(** What is printed for [v] denotes [v] and nests at most [d] levels. *)
Definition prints (d : nat) (v : conf_value) : Prop :=
  forall p, exists v', jvalue strtod d (text (nxt_conf_json_print v) p) v' /\ v ≡ v'.

Lemma print_elements_text d l : Forall (prints d) l ->
  forall v w p, prints d v -> ws w ->
  exists vs, jelements strtod d
    (w ++ text (nxt_conf_json_print v ;+ print_elements nxt_conf_json_print l ;+ close_line ;+ put [RBRACKET]) p) vs
  /\ Forall2 (≡) (v :: l) vs.
Proof.
  induction 1 as [|x l Hx Hl IH]; intros v w p Hv Hw; destruct (Hv p) as (v' & Hj & Heq);
    rewrite text_seq; set (p1 := (nxt_conf_json_print v p).2).
  - exists [v']. split; [|by repeat constructor]. cbn [print_elements]. rewrite !text_seq. cbn [text put fst app].
    apply je_last; [done|done|apply close_line_ws].
  - cbn [print_elements]. rewrite !text_seq, !state_seq. cbn [put snd].
    set (p2 := (newline_indent id p1).2).
    set (w1 := text (newline_indent id) p1). set (w2 := text (if_pretty _) p2). set (p3 := (if_pretty _ p2).2).
    destruct (IH x (w1 ++ w2) p3 Hx) as (vs & Hvs & HF).
    { apply ws_app; [apply newline_indent_ws|apply if_pretty_ws; constructor]. }
    exists (v' :: vs). split; [|by constructor].
    texts. texts_in Hvs.
    exact (je_more strtod d w _ [] v' _ vs Hw Hj ws_nil Hvs).
Qed.

Lemma print_array_ok d l : Forall (prints d) l -> Z.of_nat (length l) <= NXT_CONF_JSON_MAX_ELEMENTS ->
  prints (S d) (VALUE_ARRAY l).
Proof.
  intros Hl Hmax p. destruct l as [|v l].
  - exists (VALUE_ARRAY []). split; [|done]. apply (jv_array strtod d [RBRACKET] []); [|done].
    by apply (je_end strtod d []); constructor.
  - apply Forall_cons in Hl as [Hv Hl]. cbn [nxt_conf_json_print]. unfold nxt_conf_json_print_array.
    destruct (print_elements_text d l Hl v (text (newline_indent level_inc) p) (newline_indent level_inc p).2 Hv)
      as (vs & Hvs & HF); [apply newline_indent_ws|].
    exists (VALUE_ARRAY vs). split; [|by constructor].
    texts. texts_in Hvs.
    apply (jv_array strtod d _ vs); [done|]. by rewrite <- (Forall2_length _ _ _ HF).
Qed.

Lemma separator_ws p : exists w, text member_separator p = [COMMA] ++ w /\ ws w.
Proof.
  unfold member_separator. rewrite text_seq. eexists. split; [reflexivity|]. apply if_pretty_ws. intros q.
  destruct (more_space q); [apply ws_app; apply ws_newline|apply ws_newline].
Qed.

(** The members behind the spaces [w]. *)
Lemma print_members_text d l : Forall (fun m => printable m.1 /\ prints d m.2) l -> l <> [] ->
  forall w p, ws w ->
  exists ms, jmembers strtod d (w ++ text (print_members nxt_conf_json_print l ;+ close_line ;+ put [RBRACE]) p) ms
  /\ Forall2 (fun m m' => nxt_conf_get_string m.1 = nxt_conf_get_string m'.1 /\ value_equiv m.2 m'.2) l ms.
Proof.
  induction 1 as [|[name v] l [Hn Hv] Hl IH]; intros Hne w p Hw; [done|]. clear Hne. cbn [fst snd] in *.
  cbn [print_members]. rewrite ?text_seq, ?state_seq. cbn [put snd].
  set (w0 := text (if_pretty _) p). set (p0 := (if_pretty _ p).2).
  set (w2 := text (if_pretty _) p0). set (p2 := (if_pretty _ p0).2).
  destruct (Hv p2) as (v' & Hj & Heq). set (p3 := (nxt_conf_json_print v p2).2) in *.
  destruct (print_string name Hn) as (t & name' & Ht & Hs & Hname).
  assert (Hw0 : ws (w ++ w0)) by (apply ws_app; [done|apply if_pretty_ws; intros; apply ws_indentation]).
  assert (Hw2 : ws w2) by (apply if_pretty_ws; by repeat constructor).
  change (text (put ?x) _) with x. rewrite Ht. destruct l as [|m l].
  - exists [(name', v')]. split; [|by repeat constructor]. cbn [print_members]. texts.
    pose proof (jm_last strtod d (w ++ w0) t name' [] w2 _ (text close_line p3) v' Hw0 Hs ws_nil Hw2 Hj
      (close_line_ws p3)) as H.
    texts_in H. exact H.
  - destruct (separator_ws p3) as (w4 & Hsep & Hw4). set (p4 := (member_separator p3).2) in *.
    destruct (IH ltac:(done) w4 p4 Hw4) as (ms & Hms & HF).
    exists ((name', v') :: ms). split; [|by constructor].
    pose proof (jm_more strtod d (w ++ w0) t name' [] w2 _ [] v' _ ms Hw0 Hs ws_nil Hw2 Hj ws_nil Hms) as H.
    rewrite Hsep. texts. texts_in H. exact H.
Qed.

Lemma print_object_ok d l : Forall (fun m => printable m.1 /\ prints d m.2) l ->
  Z.of_nat (length l) <= NXT_CONF_JSON_MAX_ELEMENTS -> NoDup (map (fun m => nxt_conf_get_string m.1) l) ->
  prints (S d) (VALUE_OBJECT l).
Proof.
  intros Hl Hmax Hnd p. cbn [nxt_conf_json_print]. unfold nxt_conf_json_print_object. destruct l as [|m l].
  - exists (VALUE_OBJECT []). split; [|done]. apply (jv_object strtod d [RBRACE] []); [|done|done].
    by apply (jm_end strtod d []); constructor.
  - set (open := if_pretty _).
    destruct (print_members_text d (m :: l) Hl ltac:(done) (text open p) (open p).2) as (ms & Hms & HF).
    { apply if_pretty_ws. intros. apply ws_newline. }
    exists (VALUE_OBJECT ms). split; [|by eapply eqv_object].
    rewrite ?text_seq, ?state_seq in Hms |- *. texts. texts_in Hms.
    apply (jv_object strtod d _ ms); [done|by rewrite <- (Forall2_length _ _ _ HF)|].
    assert (Hnames : map (fun m => nxt_conf_get_string m.1) (m :: l) = map (fun m => nxt_conf_get_string m.1) ms).
    { clear -HF. by induction HF as [|x y k k' [Hxy _] _ IH]; cbn; [|rewrite Hxy, IH]. }
    by rewrite <- Hnames.
Qed.

Lemma print_value_ok v : forall d, valid v -> (depth v <= d)%nat -> prints d v.
Proof.
  induction v as [|b|t|t|s|l IH|l IH] using conf_value_ind; intros d Hv Hd.
  - intros p. by eexists; split; [constructor|].
  - intros p. destruct b; by eexists; split; [constructor|].
  - destruct Hv as [Hn Hv]. intros p. exists (VALUE_INTEGER t). split; [by apply jv_number|done].
  - destruct Hv as [Hn Hv]. intros p. exists (VALUE_NUMBER t). split; [by apply jv_number|done].
  - intros p. destruct (print_string s Hv) as (t & s' & Ht & Hj & Hs). exists (VALUE_STRING s').
    cbn [nxt_conf_json_print text put fst]. rewrite Ht. split; [by apply jv_string|by constructor].
  - destruct Hv as [Hmax Hv]. apply foldr_and in Hv. destruct d as [|d]; [cbn in Hd; lia|].
    apply print_array_ok; [|done]. cbn in Hd. apply le_S_n, list_max_le in Hd. rewrite Forall_map in Hd.
    rewrite Forall_forall in *. intros x Hx. by apply IH; [|apply Hv|apply Hd].
  - destruct Hv as (Hmax & Hnd & Hv). apply (foldr_and (fun m => printable m.1 /\ valid m.2)) in Hv.
    destruct d as [|d]; [cbn in Hd; lia|]. cbn in Hd. apply le_S_n, list_max_le in Hd. rewrite Forall_map in Hd.
    apply print_object_ok; [|done|done]. rewrite Forall_forall in *. intros m Hm. split; [by apply Hv|].
    by apply IH; [|apply Hv|apply Hd].
Qed.
End Roundtrip.

(** ** The round trip *)

(** C29. What [nxt_conf_json_print] writes for a value, with or without the
    pretty printer and in every state of it, [nxt_conf_json_parse] reads back
    as that value, up to the order of the members. *)
Theorem nxt_conf_json_roundtrip alloc strtod v p k :
  valid strtod v -> (depth v <= NXT_CONF_JSON_MAX_DEPTH)%nat -> (forall i, alloc i = true) ->
  exists v' k', nxt_conf_json_parse (HT := conf_object_hash) alloc strtod (nxt_conf_json_print v p).1 k
    = Ret (inr v', k') /\ v ≡ v'.
Proof.
  intros Hv Hd Hmem. destruct (print_value_ok strtod v _ Hv Hd p) as (v1 & Hj & Heq).
  destruct (document_complete (HT := conf_object_hash) alloc strtod (nxt_conf_json_print v p).1 Hmem v1 k)
    as (v' & k' & Hr & Heq').
  - exists [], (nxt_conf_json_print v p).1, []. split; [by rewrite app_nil_r|]. split_and!; [constructor..|done].
  - exists v', k'. split; [done|by rewrite Heq].
Qed.

(** A configuration. *)
Definition settings : conf_value :=
  VALUE_OBJECT [(SHORT_STRING (bytes_of_string "listeners"),
                 VALUE_OBJECT [(STRING (bytes_of_string "*:80 and a long name"), VALUE_ARRAY [VALUE_NULL; VALUE_BOOLEAN true])]);
                (SHORT_STRING [9; 34; 1], VALUE_ARRAY [])].

(** [nxt_conf_json_roundtrip] at this configuration, pretty printed. *)
Lemma nxt_conf_json_roundtrip_witness :
  exists v' k', nxt_conf_json_parse (HT := conf_object_hash) (fun _ => true) exact_strtod
      (nxt_conf_json_print settings (Some (Pretty 0 false))).1 0%nat
    = Ret (inr v', k') /\ settings ≡ v'.
Proof.
  apply nxt_conf_json_roundtrip; [|apply (bool_decide_unpack _); vm_compute; constructor|done].
  assert (Hp : forall s, forallb (fun c => 0 <=? c) (nxt_conf_get_string s) = true ->
    Z.of_nat (length (nxt_conf_get_string s)) <= 100 -> printable s).
  { intros s Hb Hl. split; [|lia]. apply Forall_forall. intros c Hc. rewrite forallb_forall in Hb.
    apply Z.leb_le, Hb. by apply list_elem_of_In. }
  cbn. split_and!; try done; try (by apply Hp); apply NoDup_cons; split; try (by apply NoDup_singleton); try constructor;
    rewrite ?list_elem_of_singleton; try done; apply not_elem_of_nil.
Defined.
