(* ===== verification/ConfOps.v ===== *)
(** * Paths and edits of the configuration (nxt_conf.c)

    The control API addresses a part of the configuration by a path.
    [nxt_conf_get_path] reads it; [nxt_conf_op_compile] turns a path and a new
    value into a chain of operations, and [nxt_conf_clone] copies the
    configuration while it applies the chain.  Values are never changed in
    place, so they are trees; the buffer of the path parser is memory.  A read
    of the union of a value through the wrong member is a fault. *)

From S2P Require Import Prelude Uri Parse Lvlhsh ConfValue.

(** ** The code *)

Abbreviation NXT_CONF_MAX_TOKEN_LEN := 256 (only parsing).

Fixpoint member_loop (name : list Z) (l : list (conf_string * conf_value)) (n : nat) : option (nat * conf_value) :=
  match l with
  | [] => None
  | (s, v) :: l' =>
    if bool_decide (nxt_conf_get_string s = name) then Some (n, v) else member_loop name l' (S n)
  end.

(** The value of a member and its index. *)
Definition nxt_conf_get_object_member (value : conf_value) (name : list Z) : option (nat * conf_value) :=
  match value with VALUE_OBJECT l => member_loop name l 0 | _ => None end.

Definition nxt_conf_get_array_element (value : conf_value) (index : Z) : option conf_value :=
  match value with
  | VALUE_ARRAY l => if Z.of_nat (length l) <=? index then None else l !! Z.to_nat index
  | _ => None
  end.

Definition nxt_conf_get_array_element_or_itself (value : conf_value) (index : Z) : option conf_value :=
  match value with
  | VALUE_ARRAY l => if Z.of_nat (length l) <=? index then None else l !! Z.to_nat index
  | _ => if index =? 0 then Some value else None
  end.

(** The name and the value of member [next], and the next index. *)
Definition nxt_conf_next_object_member (value : conf_value) (next : Z) :
    option (list Z * conf_value * Z) :=
  match value with
  | VALUE_OBJECT l =>
    if Z.of_nat (length l) <=? next then None
    else '(name, v) ← l !! Z.to_nat next; Some (nxt_conf_get_string name, v, u32 (next + 1))
  | _ => None
  end.

(** *** Paths *)

(** [nxt_conf_path_parse_t] *)
Record path_parse := PathParse { pp_start : nat; pp_last : bool; pp_buf : list Z }.

(** [while (p < parse->end && *p != '/')] *)
Fixpoint slash_loop (l : list Z) (p : nat) : nat :=
  match l with
  | [] => p
  | c :: l' => if c =? SLASH then p else slash_loop l' (S p)
  end.

(** The memory is the buffer of the parser, then the path. *)
Definition nxt_conf_path_next_token (path : list Z) (parse : path_parse) :
    outcome (Z * path_parse * list Z) :=
  let start := S (pp_start parse) in
  let buf := pp_buf parse in
  let p := slash_loop (drop start path) start in
  let last := (length path <=? p)%nat in
  let len := (p - start)%nat in
  if NXT_CONF_MAX_TOKEN_LEN <? Z.of_nat len then Ret (NXT_ERROR, PathParse p last buf, [])
  else
    let* (mem, end_) := nxt_decode_uri (buf ++ path) 0 (length buf + start) len in
    let parse := PathParse p last (take (length buf) mem) in
    match end_ with
    | None => Ret (NXT_ERROR, parse, [])
    | Some e => Ret (NXT_OK, parse, take e mem)
    end.

Fixpoint get_path_loop (fuel : nat) (path : list Z) (parse : path_parse) (value : conf_value) :
    outcome (option conf_value) :=
  match fuel with
  | O => OutOfFuel
  | S fuel' =>
    let* (ret, parse, token) := nxt_conf_path_next_token path parse in
    if negb (ret =? NXT_OK) then Ret None
    else if (length token =? 0)%nat then Ret (if pp_last parse then Some value else None)
    else
      let next :=
        match value with
        | VALUE_OBJECT _ => snd <$> nxt_conf_get_object_member value token
        | VALUE_ARRAY _ =>
          let index := nxt_int_parse token in
          if (index <? 0) || (INT32_MAX <? index) then None
          else nxt_conf_get_array_element value index
        | _ => None
        end in
      match next with
      | None => Ret None
      | Some value => if pp_last parse then Ret (Some value) else get_path_loop fuel' path parse value
      end
  end.

(** Every token ends behind its first byte. *)
Definition nxt_conf_get_path (buf : list Z) (value : conf_value) (path : list Z) : outcome (option conf_value) :=
  get_path_loop (S (length path)) path (PathParse 0 false buf) value.

(** *** Operations *)

(** [nxt_conf_op_ret_t] but [NXT_CONF_OP_OK] *)
Inductive op_ret := OP_NOT_FOUND | OP_NOT_ALLOWED | OP_ERROR.

(** [nxt_conf_op_t]: the index, the action and what [ctx] points to, which for
    a creation is a value in an array and a member in an object. *)
Inductive conf_op :=
| OP_PASS (index : Z) (ctx : conf_op)
| OP_CREATE_VALUE (index : Z) (ctx : conf_value)
| OP_CREATE_MEMBER (index : Z) (ctx : conf_string * conf_value)
| OP_REPLACE (index : Z) (ctx : conf_value)
| OP_DELETE (index : Z).

Definition op_index (op : conf_op) : Z :=
  match op with
  | OP_PASS i _ | OP_CREATE_VALUE i _ | OP_CREATE_MEMBER i _ | OP_REPLACE i _ | OP_DELETE i => i
  end.

Section Ops.
  Context (alloc : nat -> bool).

Definition nxt_conf_set_string_dup (str : list Z) : Alloc (option conf_string) :=
  if NXT_CONF_MAX_SHORT_STRING <? Z.of_nat (length str) then
    let! ok := request alloc in aret (if ok then Some (STRING str) else None)
  else aret (Some (SHORT_STRING str)).

(** The end of [nxt_conf_op_compile]: [root] is the parent of the last token,
    [node] what the token names, [index] the index in the operation. *)
Definition op_last (root : conf_value) (node : option conf_value) (index : Z) (token : list Z)
    (value : option conf_value) (add : bool) : Alloc (op_ret + conf_op) :=
  match value with
  | None => aret match node with None => inl OP_NOT_FOUND | Some _ => inr (OP_DELETE index) end
  | Some value =>
    if add then
      match node with
      | None => aret (inl OP_NOT_FOUND)
      | Some (VALUE_ARRAY l) =>
        let! ok := request alloc in
        aret (if negb ok then inl OP_ERROR
              else inr (OP_PASS index (OP_CREATE_VALUE (u32 (Z.of_nat (length l))) value)))
      | Some _ => aret (inl OP_NOT_ALLOWED)
      end
    else
      match node with
      | Some _ => aret (inr (OP_REPLACE index value))
      | None =>
        match root with
        | VALUE_ARRAY l =>
          aret (if Z.of_nat (length l) <? index then inl OP_NOT_FOUND else inr (OP_CREATE_VALUE index value))
        | _ =>
          let! ok := request alloc in
          if negb ok then aret (inl OP_ERROR)
          else
            let! name := nxt_conf_set_string_dup token in
            match name with
            | None => aret (inl OP_ERROR)
            | Some name =>
              match root with
              | VALUE_OBJECT l => aret (inr (OP_CREATE_MEMBER (u32 (Z.of_nat (length l))) (name, value)))
              | _ => alift Fault
              end
            end
        end
      end
  end.

(** The loop of [nxt_conf_op_compile]. *)
Fixpoint op_loop (fuel : nat) (path : list Z) (parse : path_parse) (root : conf_value)
    (value : option conf_value) (add : bool) : Alloc (op_ret + conf_op) :=
  match fuel with
  | O => alift OutOfFuel
  | S fuel' =>
    let! ok := request alloc in
    if negb ok then aret (inl OP_ERROR)
    else
      let! (ret, parse, token) := alift (nxt_conf_path_next_token path parse) in
      if negb (ret =? NXT_OK) then aret (inl OP_ERROR)
      else
        let next (index : Z) (node : option conf_value) :=
          if pp_last parse then op_last root node index token value add
          else
            match node with
            | None => aret (inl OP_NOT_FOUND)
            | Some node =>
              let! r := op_loop fuel' path parse node value add in
              aret match r with inl e => inl e | inr op => inr (OP_PASS index op) end
            end in
        match root with
        | VALUE_OBJECT _ =>
          match nxt_conf_get_object_member root token with
          | Some (n, v) => next (u32 (Z.of_nat n)) (Some v)
          | None => next 0 None
          end
        | VALUE_ARRAY _ =>
          let index := nxt_int_parse token in
          if (index <? 0) || (INT32_MAX <? index) then aret (inl OP_NOT_FOUND)
          else next (u32 index) (nxt_conf_get_array_element root index)
        | _ => next 0 None
        end
  end.

Definition nxt_conf_op_compile (buf : list Z) (root : conf_value) (path : list Z)
    (value : option conf_value) (add : bool) : Alloc (op_ret + conf_op) :=
  op_loop (S (length path)) path (PathParse 0 false buf) root value add.

(** *** Copies *)

(** The number of elements of the copy. *)
Definition copy_count (op : option conf_op) (count : nat) : Z :=
  match op with
  | Some (OP_CREATE_VALUE _ _) | Some (OP_CREATE_MEMBER _ _) => u64 (Z.of_nat count + 1)
  | Some (OP_DELETE _) => u64 (Z.of_nat count - 1)
  | _ => Z.of_nat count
  end.

(** [dst->elements[d] = x; d++] in a block of [count] elements. *)
Definition store_next {A} (count : Z) (dst : list A) (x : A) : outcome (list A) :=
  if Z.of_nat (length dst) <? count then Ret (dst ++ [x]) else Fault.

Section CopyLoop.
  Context {A : Type} (copy : option conf_op -> A -> Alloc (option A)).

(** [while (s != index)]: [s] and the copy; [None] is [NXT_ERROR]. *)
Fixpoint copy_while (fuel : nat) (src : list A) (count : Z) (pass_op : option conf_op)
    (index : Z) (s : nat) (dst : list A) : Alloc (option (nat * list A)) :=
  if Z.of_nat s =? index then aret (Some (s, dst))
  else
    match fuel with
    | O => alift OutOfFuel
    | S fuel' =>
      let! x := alift (of_option (src !! s)) in
      let! y := copy pass_op x in
      match y with
      | None => aret None
      | Some y =>
        let! dst := alift (store_next count dst y) in
        copy_while fuel' src count pass_op index (S s) dst
      end
    end.

(** The [switch] of an operation at [s]: [pass_op], [index], [s] and the copy. *)
Context (act : conf_op -> list A -> nat -> list A -> Alloc (option (option conf_op * nat * list A))).

(** The loop of [nxt_conf_copy_array] and [nxt_conf_copy_object]: one round
    for the operation, one for what it passes to and one for the rest. *)
Fixpoint copy_loop (fuel : nat) (src : list A) (count : Z) (op pass_op : option conf_op)
    (index : Z) (s : nat) (dst : list A) : Alloc (option (list A)) :=
  match fuel with
  | O => alift OutOfFuel
  | S fuel' =>
    let index :=
      match pass_op with
      | None => match op with None => Z.of_nat (length src) | Some op => op_index op end
      | Some _ => index
      end in
    let again (op pass_op : option conf_op) (index : Z) (s : nat) (dst : list A) :=
      if Z.of_nat (length dst) =? count then aret (Some dst)
      else copy_loop fuel' src count op pass_op index s dst in
    let! r := copy_while (length src) src count pass_op index s dst in
    match r with
    | None => aret None
    | Some (s, dst) =>
      match pass_op with
      | Some _ => again op None index s dst
      | None =>
        match op with
        | None => again None None index s dst
        | Some op =>
          let! r := act op src s dst in
          match r with
          | None => aret None
          | Some (pass_op, s, dst) =>
            again None pass_op (match pass_op with Some _ => index + 1 | None => index end) s dst
          end
        end
      end
    end
  end.
End CopyLoop.

Section Copy.
  Context (copy_value : option conf_op -> conf_value -> Alloc (option conf_value)).

(** A name is a value that is copied without an operation. *)
Definition copy_name (s : conf_string) : Alloc (option conf_string) :=
  match s with
  | STRING t => let! ok := request alloc in aret (if ok then Some (STRING t) else None)
  | SHORT_STRING t => aret (Some (SHORT_STRING t))
  end.

Definition array_act (count : Z) (op : conf_op) (src : list conf_value) (s : nat) (dst : list conf_value) :
    Alloc (option (option conf_op * nat * list conf_value)) :=
  match op with
  | OP_PASS _ ctx => aret (Some (Some ctx, s, dst))
  | OP_CREATE_VALUE _ v => let! dst := alift (store_next count dst v) in aret (Some (None, s, dst))
  | OP_CREATE_MEMBER _ _ => alift Fault
  | OP_REPLACE _ v => let! dst := alift (store_next count dst v) in aret (Some (None, S s, dst))
  | OP_DELETE _ => aret (Some (None, S s, dst))
  end.

Definition nxt_conf_copy_array (op : option conf_op) (src : list conf_value) : Alloc (option conf_value) :=
  let count := copy_count op (length src) in
  let! ok := request alloc in
  if negb ok then aret None
  else
    let! r := copy_loop copy_value (array_act count) 3 src count op None 0 0 [] in
    aret match r with None => None | Some dst => Some (VALUE_ARRAY dst) end.

Definition copy_member (op : option conf_op) (m : conf_string * conf_value) :
    Alloc (option (conf_string * conf_value)) :=
  let! name := copy_name (fst m) in
  match name with
  | None => aret None
  | Some name =>
    let! v := copy_value op (snd m) in
    aret match v with None => None | Some v => Some (name, v) end
  end.

Definition object_act (count : Z) (op : conf_op) (src : list (conf_string * conf_value)) (s : nat)
    (dst : list (conf_string * conf_value)) :
    Alloc (option (option conf_op * nat * list (conf_string * conf_value))) :=
  match op with
  | OP_PASS _ ctx => aret (Some (Some ctx, s, dst))
  | OP_CREATE_MEMBER _ (name, v) =>
    let! name := copy_name name in
    match name with
    | None => aret None
    | Some name => let! dst := alift (store_next count dst (name, v)) in aret (Some (None, s, dst))
    end
  | OP_CREATE_VALUE _ _ => alift Fault
  | OP_REPLACE _ v =>
    let! m := alift (of_option (src !! s)) in
    let! name := copy_name (fst m) in
    match name with
    | None => aret None
    | Some name => let! dst := alift (store_next count dst (name, v)) in aret (Some (None, S s, dst))
    end
  | OP_DELETE _ => aret (Some (None, S s, dst))
  end.

Definition nxt_conf_copy_object (op : option conf_op) (src : list (conf_string * conf_value)) :
    Alloc (option conf_value) :=
  let count := copy_count op (length src) in
  let! ok := request alloc in
  if negb ok then aret None
  else
    let! r := copy_loop copy_member (object_act count) 3 src count op None 0 0 [] in
    aret match r with None => None | Some dst => Some (VALUE_OBJECT dst) end.
End Copy.

(** The recursion takes one step per level of the value. *)
Fixpoint nxt_conf_copy_value (d : nat) (op : option conf_op) (src : conf_value) : Alloc (option conf_value) :=
  match d with
  | O => alift OutOfFuel
  | S d' =>
    match src with
    | VALUE_ARRAY l => nxt_conf_copy_array (nxt_conf_copy_value d') op l
    | VALUE_OBJECT l => nxt_conf_copy_object (nxt_conf_copy_value d') op l
    | VALUE_STRING s =>
      match op with
      | Some _ => aret None
      | None => let! s := copy_name s in aret (VALUE_STRING <$> s)
      end
    | _ => match op with Some _ => aret None | None => aret (Some src) end
    end
  end.

Definition nxt_conf_clone (op : option conf_op) (value : conf_value) : Alloc (option conf_value) :=
  let! ok := request alloc in
  if negb ok then aret None else nxt_conf_copy_value (S (depth value)) op value.

End Ops.

(** ** Copies *)

(** A computation that returns [a], unless an allocation fails and it returns
    [err]. *)
Definition either {A} (alloc : nat -> bool) (err : A) (m : Alloc A) (k : nat) (a : A) : Prop :=
  exists r k', m k = Ret (r, k') /\ (k <= k')%nat /\ (r = a \/ r = err /\ failed alloc k k').

Section Either.
  Context (alloc : nat -> bool).

Lemma either_ret {A} (err a : A) k : either alloc err (aret a) k a.
Proof. exists a, k. by split_and!; [| |left]. Qed.

Lemma either_bind {A B} (err : B) (m : Alloc (option A)) (f : A -> Alloc B) k a b :
  either alloc None m k (Some a) -> (forall k', (k <= k')%nat -> either alloc err (f a) k' b) ->
  either alloc err (let! r := m in match r with None => aret err | Some x => f x end) k b.
Proof.
  intros (r & k1 & Hm & Hk & [->|[-> Hf]]) H; unfold either, abind; rewrite Hm; cbn [obind].
  - destruct (H k1 Hk) as (r & k2 & -> & Hk2 & Hr). exists r, k2. split; [done|]. split; [lia|].
    destruct Hr as [->|[-> Hf]]; [by left|right]. split; [done|]. by eapply failed_mono; [exact Hk|apply Nat.le_refl|].
  - exists err, k1. split_and!; [done|done|by right].
Qed.

Lemma either_request {A} (err : A) (m : Alloc A) k a :
  (forall k', (k <= k')%nat -> either alloc err m k' a) ->
  either alloc err (let! ok := request alloc in if negb ok then aret err else m) k a.
Proof.
  intros H. unfold either, abind, request. cbn [obind]. destruct (alloc k) eqn:Ea; cbn [negb].
  - destruct (H (S k)) as (r & k2 & -> & Hk2 & Hr); [lia|]. exists r, k2. split; [done|]. split; [lia|].
    destruct Hr as [->|[-> Hf]]; [by left|right]. split; [done|]. eapply failed_mono; [|apply Nat.le_refl|exact Hf]. lia.
  - exists err, (S k). split; [done|]. split; [lia|right]. split; [done|]. exists k. split; [lia|done].
Qed.

Lemma either_lift {A B} (err : B) (m : outcome A) (f : A -> Alloc B) k a b :
  m = Ret a -> either alloc err (f a) k b -> either alloc err (let! x := alift m in f x) k b.
Proof. intros -> H. exact H. Qed.

Lemma either_map {A B} (f : option A -> option B) (m : Alloc (option A)) k a :
  f None = None -> either alloc None m k (Some a) -> either alloc None (let! r := m in aret (f r)) k (f (Some a)).
Proof.
  intros Hf (r & k1 & Hm & Hk & Hr). unfold either, abind. rewrite Hm. cbn [obind].
  exists (f r), k1. split_and!; [done|done|]. destruct Hr as [->|[-> ?]]; [by left|right; by rewrite Hf].
Qed.

Lemma store_next_ok {A} count (dst : list A) x : Z.of_nat (length dst) < count -> store_next count dst x = Ret (dst ++ [x]).
Proof. intros H. unfold store_next. by rewrite (proj2 (Z.ltb_lt _ _) H). Qed.

(** *** The loops *)

Section Loops.
  Context {A : Type} (copy : option conf_op -> A -> Alloc (option A)) (src : list A).
  Context (act : conf_op -> list A -> nat -> list A -> Alloc (option (option conf_op * nat * list A))).
  (** A copy without an operation is the original. *)
  Context (Hcopy : forall x k, x ∈ src -> either alloc None (copy None x) k (Some x)).

Lemma copy_while_slice count n : forall fuel s dst k, (s + n <= length src)%nat -> (n <= fuel)%nat ->
  Z.of_nat (length dst + n) <= count ->
  either alloc None (copy_while copy fuel src count None (Z.of_nat (s + n)) s dst) k
    (Some ((s + n)%nat, dst ++ take n (drop s src))).
Proof.
  induction n as [|n IH]; intros fuel s dst k Hs Hf Hc.
  - rewrite Nat.add_0_r. unfold copy_while. destruct fuel; rewrite Z.eqb_refl, app_nil_r; apply either_ret.
  - destruct fuel as [|fuel]; [lia|]. cbn [copy_while]. rewrite (proj2 (Z.eqb_neq _ _)) by lia.
    destruct (lookup_lt_is_Some_2 src s) as [x Hx]; [lia|].
    eapply either_lift; [by rewrite Hx|].
    eapply either_bind; [apply Hcopy; by eapply list_elem_of_lookup_2|]. intros k' Hk'.
    eapply either_lift; [apply store_next_ok; lia|].
    rewrite (drop_S _ _ _ Hx). cbn [take]. replace (s + S n)%nat with (S s + n)%nat by lia.
    replace (dst ++ x :: take n (drop (S s) src)) with ((dst ++ [x]) ++ take n (drop (S s) src)) by (by rewrite <- app_assoc).
    apply IH; [lia|lia|]. rewrite length_app. cbn. lia.
Qed.

(** The last round. *)
Lemma copy_loop_rest fuel s dst index k : (s <= length src)%nat ->
  let all := dst ++ drop s src in
  either alloc None (copy_loop copy act (S fuel) src (Z.of_nat (length all)) None None index s dst) k (Some all).
Proof.
  intros Hs all. cbn [copy_loop]. subst all.
  eapply either_bind.
  { replace (Z.of_nat (length src)) with (Z.of_nat (s + (length src - s))) by lia.
    apply copy_while_slice; [lia|lia|]. rewrite length_app, length_drop. lia. }
  intros k' Hk'. cbn beta iota zeta. rewrite (take_ge (drop s src)) by (rewrite length_drop; lia).
  rewrite Z.eqb_refl. apply either_ret.
Qed.

(** A round that ends the copy, or leaves the rest to the last one. *)
Lemma copy_again fuel s dst index k : (s <= length src)%nat ->
  let all := dst ++ drop s src in
  either alloc None
    (if Z.of_nat (length dst) =? Z.of_nat (length all) then aret (Some dst)
     else copy_loop copy act (S fuel) src (Z.of_nat (length all)) None None index s dst) k (Some all).
Proof.
  intros Hs all. destruct (_ =? _) eqn:E; [|by apply copy_loop_rest]. zbool. subst all.
  rewrite length_app in E. destruct (drop s src) as [|x l]; [rewrite app_nil_r; apply either_ret|cbn in E; lia].
Qed.

(** An operation that stores [ys] at its index and skips to [s]. *)
Lemma copy_loop_act fuel op s ys k : 0 <= op_index op -> let i := Z.to_nat (op_index op) in
  (i <= s <= length src)%nat ->
  let all := take i src ++ ys ++ drop s src in
  (forall k, either alloc None (act op src i (take i src)) k (Some (None, s, take i src ++ ys))) ->
  either alloc None (copy_loop copy act (S (S fuel)) src (Z.of_nat (length all)) (Some op) None 0 0 []) k (Some all).
Proof.
  intros Hi i Hs all Hact. cbn [copy_loop].
  eapply either_bind.
  { replace (op_index op) with (Z.of_nat (0 + i)) by lia. apply copy_while_slice; [lia|lia|].
    subst all. rewrite !length_app, length_take. cbn. lia. }
  intros k1 Hk1. cbn beta iota zeta. rewrite drop_0. cbn [app].
  eapply either_bind; [apply Hact|]. intros k2 Hk2. cbn beta iota zeta.
  subst all. rewrite (app_assoc (take i src) ys). exact (copy_again fuel s _ (op_index op) k2 (proj2 Hs)).
Qed.

Lemma copy_while_one count fuel o i x y dst k : src !! i = Some x -> (0 < fuel)%nat -> Z.of_nat (length dst) < count ->
  (forall k, either alloc None (copy (Some o) x) k (Some y)) ->
  either alloc None (copy_while copy fuel src count (Some o) (Z.of_nat (S i)) i dst) k (Some (S i, dst ++ [y])).
Proof.
  intros Hx Hf Hc Hy. destruct fuel as [|fuel]; [lia|]. cbn [copy_while].
  rewrite (proj2 (Z.eqb_neq _ _)) by lia. eapply either_lift; [by rewrite Hx|].
  eapply either_bind; [apply Hy|]. intros k3 Hk3. eapply either_lift; [by apply store_next_ok|].
  unfold copy_while. destruct fuel; rewrite Z.eqb_refl; apply either_ret.
Qed.

(** An operation that passes on to the element at its index. *)
Lemma copy_loop_pass fuel index o x y k : 0 <= index -> let i := Z.to_nat index in
  src !! i = Some x ->
  (forall k dst, either alloc None (act (OP_PASS index o) src i dst) k (Some (Some o, i, dst))) ->
  (forall k, either alloc None (copy (Some o) x) k (Some y)) ->
  either alloc None (copy_loop copy act (S (S (S fuel))) src (Z.of_nat (length src)) (Some (OP_PASS index o)) None 0 0 []) k
    (Some (<[i := y]> src)).
Proof.
  intros Hi i Hx Hact Hy. pose proof (lookup_lt_Some _ _ _ Hx) as Hlt.
  assert (Hall : <[i := y]> src = (take i src ++ [y]) ++ drop (S i) src).
  { rewrite <- app_assoc. rewrite insert_take_drop by done. done. }
  assert (Hlen : length src = length ((take i src ++ [y]) ++ drop (S i) src)) by (by rewrite <- Hall, length_insert).
  remember (S (S fuel)) as f2 eqn:Ef. cbn [copy_loop]. eapply either_bind.
  { cbn [op_index]. replace index with (Z.of_nat (0 + i)) by lia. apply copy_while_slice; [lia|lia|cbn; lia]. }
  intros k1 Hk1. cbn beta iota zeta. rewrite drop_0. cbn [app].
  eapply either_bind; [apply Hact|]. intros k2 Hk2. cbn beta iota zeta. cbn [op_index].
  rewrite (proj2 (Z.eqb_neq _ _)) by (rewrite length_take; lia).
  subst f2. remember (S fuel) as f1 eqn:Ef. cbn [copy_loop]. eapply either_bind.
  { replace (index + 1) with (Z.of_nat (S i)) by lia. apply (copy_while_one _ _ _ _ x y); [done|lia|rewrite length_take; lia|done]. }
  intros k3 Hk3. cbn beta iota zeta. rewrite Hall, Hlen. subst f1. by apply copy_again.
Qed.

(** The other operations, with the number of elements of the copy. *)
Lemma copy_loop_create op x k : op_index op = Z.of_nat (length src) -> op_index op < 2 ^ 32 ->
  copy_count (Some op) (length src) = u64 (Z.of_nat (length src) + 1) ->
  (forall k, either alloc None (act op src (length src) src) k (Some (None, length src, src ++ [x]))) ->
  either alloc None (copy_loop copy act 3 src (copy_count (Some op) (length src)) (Some op) None 0 0 []) k (Some (src ++ [x])).
Proof.
  intros Hi Hlt Hc Hact. pose proof (copy_loop_act 1 op (length src) [x] k ltac:(lia)) as H.
  cbv zeta in H. rewrite Hi, Nat2Z.id, drop_all, take_ge, app_nil_r, length_app in H by done. cbn [length] in H.
  unfold u64 in Hc. rewrite Z.mod_small in Hc by lia. rewrite Hc.
  replace (Z.of_nat (length src) + 1) with (Z.of_nat (length src + 1)) by lia. by apply H.
Qed.

Lemma copy_loop_replace op y k : 0 <= op_index op < Z.of_nat (length src) ->
  copy_count (Some op) (length src) = Z.of_nat (length src) ->
  (forall k, let i := Z.to_nat (op_index op) in
     either alloc None (act op src i (take i src)) k (Some (None, S i, take i src ++ [y]))) ->
  either alloc None (copy_loop copy act 3 src (copy_count (Some op) (length src)) (Some op) None 0 0 []) k
    (Some (<[Z.to_nat (op_index op) := y]> src)).
Proof.
  intros Hi Hc Hact. pose proof (copy_loop_act 1 op (S (Z.to_nat (op_index op))) [y] k ltac:(lia)) as H.
  cbv zeta in H. cbn [app] in H. rewrite <- insert_take_drop, length_insert in H by lia. rewrite Hc. apply H; [lia|done].
Qed.

Lemma copy_loop_delete op k : 0 <= op_index op < Z.of_nat (length src) -> Z.of_nat (length src) < 2 ^ 32 ->
  copy_count (Some op) (length src) = u64 (Z.of_nat (length src) - 1) ->
  (forall k, let i := Z.to_nat (op_index op) in
     either alloc None (act op src i (take i src)) k (Some (None, S i, take i src))) ->
  either alloc None (copy_loop copy act 3 src (copy_count (Some op) (length src)) (Some op) None 0 0 []) k
    (Some (delete (Z.to_nat (op_index op)) src)).
Proof.
  intros Hi Hl Hc Hact. pose proof (copy_loop_act 1 op (S (Z.to_nat (op_index op))) [] k ltac:(lia)) as H.
  cbv zeta in H. cbn [app] in H. rewrite <- delete_take_drop in H.
  unfold u64 in Hc. rewrite Z.mod_small in Hc by lia. rewrite Hc.
  replace (Z.of_nat (length src) - 1) with (Z.of_nat (length (delete (Z.to_nat (op_index op)) src)));
    [apply H; [lia|]; intros k'; rewrite app_nil_r; apply Hact|].
  rewrite delete_take_drop, length_app, length_take, length_drop. lia.
Qed.
End Loops.
End Either.

(** *** Applied operations *)

(** What an operation does to a value. *)
Fixpoint apply_op (op : conf_op) (v : conf_value) : conf_value :=
  match op, v with
  | OP_PASS i o, VALUE_ARRAY l => VALUE_ARRAY (alter (apply_op o) (Z.to_nat i) l)
  | OP_PASS i o, VALUE_OBJECT l => VALUE_OBJECT (alter (fun m => (m.1, apply_op o m.2)) (Z.to_nat i) l)
  | OP_CREATE_VALUE _ x, VALUE_ARRAY l => VALUE_ARRAY (l ++ [x])
  | OP_CREATE_MEMBER _ m, VALUE_OBJECT l => VALUE_OBJECT (l ++ [m])
  | OP_REPLACE i x, VALUE_ARRAY l => VALUE_ARRAY (<[Z.to_nat i := x]> l)
  | OP_REPLACE i x, VALUE_OBJECT l => VALUE_OBJECT (alter (fun m => (m.1, x)) (Z.to_nat i) l)
  | OP_DELETE i, VALUE_ARRAY l => VALUE_ARRAY (delete (Z.to_nat i) l)
  | OP_DELETE i, VALUE_OBJECT l => VALUE_OBJECT (delete (Z.to_nat i) l)
  | _, _ => v
  end.

(** The operations for a value: of the right kind and inside it. *)
Fixpoint op_fits (op : conf_op) (v : conf_value) : Prop :=
  0 <= op_index op /\
  match op, v with
  | OP_PASS i o, VALUE_ARRAY l => exists x, l !! Z.to_nat i = Some x /\ op_fits o x
  | OP_PASS i o, VALUE_OBJECT l => exists x, l !! Z.to_nat i = Some x /\ op_fits o x.2
  | OP_CREATE_VALUE i _, VALUE_ARRAY l => i = Z.of_nat (length l) /\ i < 2 ^ 32
  | OP_CREATE_MEMBER i _, VALUE_OBJECT l => i = Z.of_nat (length l) /\ i < 2 ^ 32
  | OP_REPLACE i _, VALUE_ARRAY l => i < Z.of_nat (length l)
  | OP_REPLACE i _, VALUE_OBJECT l => i < Z.of_nat (length l)
  | OP_DELETE i, VALUE_ARRAY l => i < Z.of_nat (length l) < 2 ^ 32
  | OP_DELETE i, VALUE_OBJECT l => i < Z.of_nat (length l) < 2 ^ 32
  | _, _ => False
  end.

Definition apply_opt (op : option conf_op) (v : conf_value) : conf_value :=
  match op with None => v | Some op => apply_op op v end.

Definition opt_fits (op : option conf_op) (v : conf_value) : Prop :=
  match op with None => True | Some op => op_fits op v end.

Section CopyProofs.
  Context (alloc : nat -> bool) (copy : option conf_op -> conf_value -> Alloc (option conf_value)).
  Context (P : conf_value -> Prop).
  Context (Hcopy : forall op v k, P v -> opt_fits op v -> either alloc None (copy op v) k (Some (apply_opt op v))).

Lemma copy_name_ok s k : either alloc None (copy_name alloc s) k (Some s).
Proof.
  destruct s as [s|s]; [apply either_ret|]. cbn. unfold either, abind, request. cbn [obind].
  destruct (alloc k) eqn:Ea; eexists _, _; (split; [done|]); (split; [lia|]); [by left|right].
  split; [done|]. exists k. split; [lia|done].
Qed.

Lemma copy_array_ok op l k : Forall P l -> opt_fits op (VALUE_ARRAY l) ->
  either alloc None (nxt_conf_copy_array alloc copy op l) k (Some (apply_opt op (VALUE_ARRAY l))).
Proof.
  intros HP Hop. rewrite Forall_forall in HP. unfold nxt_conf_copy_array. apply either_request. intros k1 Hk1.
  assert (Hid : forall x k, x ∈ l -> either alloc None (copy None x) k (Some x)).
  { intros x k' Hx. apply (Hcopy None); [by apply HP|done]. }
  cut (exists l', apply_opt op (VALUE_ARRAY l) = VALUE_ARRAY l' /\ either alloc None
      (copy_loop copy (array_act (copy_count op (length l))) 3 l (copy_count op (length l)) op None 0 0 []) k1 (Some l')).
  { intros (l' & -> & Hl').
    by apply (either_map alloc (fun r => match r with None => None | Some dst => Some (VALUE_ARRAY dst) end)). }
  destruct op as [op|]; [|exists l; split; [done|apply (copy_loop_rest alloc copy l _ Hid 2 0 []); lia]].
  destruct op as [i o|i x|i m|i x|i]; destruct Hop as [Hi Hop]; cbn [op_index] in Hi; try done;
    cbn [apply_opt apply_op]; eexists; (split; [reflexivity|]).
  - destruct Hop as (x & Hx & Ho). rewrite (alter_insert _ _ _ _ Hx).
    apply (copy_loop_pass alloc copy l _ Hid 0 i o x); [done|done|intros; apply either_ret|].
    intros k'. apply (Hcopy (Some o)); [|done]. apply HP. by eapply list_elem_of_lookup_2.
  - destruct Hop as [-> Hl]. apply copy_loop_create; [done..|]. intros k'.
    eapply either_lift; [apply store_next_ok; cbn; unfold u64; rewrite Z.mod_small; lia|]. apply either_ret.
  - apply (copy_loop_replace alloc copy l _ Hid (OP_REPLACE i x)); [done|done|]. intros k'.
    eapply either_lift; [apply store_next_ok; rewrite length_take; cbn; lia|]. apply either_ret.
  - apply (copy_loop_delete alloc copy l _ Hid (OP_DELETE i)); [cbn; lia|lia|done|]. intros k'. apply either_ret.
Qed.

Lemma copy_member_ok op m k : P m.2 -> opt_fits op m.2 ->
  either alloc None (copy_member alloc copy op m) k (Some (m.1, apply_opt op m.2)).
Proof.
  intros HP Hop. unfold copy_member. eapply either_bind; [apply copy_name_ok|]. intros k1 Hk1.
  apply (either_map alloc (fun r => match r with None => None | Some v => Some (m.1, v) end)); [done|]. by apply Hcopy.
Qed.

Lemma copy_object_ok op l k : Forall (fun m => P m.2) l -> opt_fits op (VALUE_OBJECT l) ->
  either alloc None (nxt_conf_copy_object alloc copy op l) k (Some (apply_opt op (VALUE_OBJECT l))).
Proof.
  intros HP Hop. rewrite Forall_forall in HP. unfold nxt_conf_copy_object. apply either_request. intros k1 Hk1.
  assert (Hid : forall x k, x ∈ l -> either alloc None (copy_member alloc copy None x) k (Some x)).
  { intros [n x] k' Hx. apply (copy_member_ok None); [by apply (HP (n, x))|done]. }
  cut (exists l', apply_opt op (VALUE_OBJECT l) = VALUE_OBJECT l' /\ either alloc None
      (copy_loop (copy_member alloc copy) (object_act alloc (copy_count op (length l))) 3 l (copy_count op (length l)) op None 0 0 [])
      k1 (Some l')).
  { intros (l' & -> & Hl').
    by apply (either_map alloc (fun r => match r with None => None | Some dst => Some (VALUE_OBJECT dst) end)). }
  destruct op as [op|]; [|exists l; split; [done|apply (copy_loop_rest alloc _ l _ Hid 2 0 []); lia]].
  destruct op as [i o|i x|i [n v]|i x|i]; destruct Hop as [Hi Hop]; cbn [op_index] in Hi; try done;
    cbn [apply_opt apply_op]; eexists; (split; [reflexivity|]).
  - destruct Hop as (x & Hx & Ho). rewrite (alter_insert _ _ _ _ Hx).
    apply (copy_loop_pass alloc _ l _ Hid 0 i o x); [done|done|intros; apply either_ret|].
    intros k'. apply (copy_member_ok (Some o)); [|done]. apply HP. by eapply list_elem_of_lookup_2.
  - destruct Hop as [-> Hl]. apply copy_loop_create; [done..|]. intros k'.
    eapply either_bind; [apply copy_name_ok|]. intros k2 Hk2.
    eapply either_lift; [apply store_next_ok; cbn; unfold u64; rewrite Z.mod_small; lia|]. apply either_ret.
  - destruct (lookup_lt_is_Some_2 l (Z.to_nat i)) as [m Hm]; [lia|]. rewrite (alter_insert _ _ _ _ Hm).
    apply (copy_loop_replace alloc _ l _ Hid (OP_REPLACE i x)); [done|done|]. intros k'. cbn [op_index].
    eapply either_lift; [by rewrite Hm|]. eapply either_bind; [apply copy_name_ok|]. intros k2 Hk2.
    eapply either_lift; [apply store_next_ok; rewrite length_take; cbn; lia|]. apply either_ret.
  - apply (copy_loop_delete alloc _ l _ Hid (OP_DELETE i)); [cbn; lia|lia|done|]. intros k'. apply either_ret.
Qed.
End CopyProofs.

Lemma depth_elements d l : (depth (VALUE_ARRAY l) < S d)%nat -> Forall (fun v => depth v < d)%nat l.
Proof.
  intros H. cbn in H. destruct d as [|d]; [lia|]. apply le_S_n, le_S_n, list_max_le in H. rewrite Forall_map in H.
  eapply Forall_impl; [exact H|]. cbn. lia.
Qed.

Lemma depth_members d l : (depth (VALUE_OBJECT l) < S d)%nat -> Forall (fun m => depth m.2 < d)%nat l.
Proof.
  intros H. cbn in H. destruct d as [|d]; [lia|]. apply le_S_n, le_S_n, list_max_le in H. rewrite Forall_map in H.
  eapply Forall_impl; [exact H|]. cbn. lia.
Qed.

(** No operation fits a scalar. *)
Lemma scalar_fits op v : opt_fits op v ->
  match v with VALUE_ARRAY _ | VALUE_OBJECT _ => True | _ => op = None end.
Proof. destruct op as [op|]; [|by destruct v]. intros H. destruct v; try done; destruct op; by destruct H. Qed.

Lemma copy_value_ok alloc d : forall op v k, (depth v < d)%nat -> opt_fits op v ->
  either alloc None (nxt_conf_copy_value alloc d op v) k (Some (apply_opt op v)).
Proof.
  induction d as [|d IH]; intros op v k Hd Hop; [lia|]. cbn [nxt_conf_copy_value].
  pose proof (scalar_fits op v Hop) as Hs. destruct v as [|b|t|t|s|l|l]; try (subst op; apply either_ret).
  - subst op. refine (either_map alloc (fmap VALUE_STRING) (copy_name alloc s) k s eq_refl _). apply copy_name_ok.
  - apply (copy_array_ok alloc _ (fun v => depth v < d)%nat); [exact IH| |done]. by apply depth_elements.
  - apply (copy_object_ok alloc _ (fun v => depth v < d)%nat); [exact IH| |done]. by apply depth_members.
Qed.

Lemma clone_ok alloc op v k : opt_fits op v -> either alloc None (nxt_conf_clone alloc op v) k (Some (apply_opt op v)).
Proof. intros Hop. apply either_request. intros k1 Hk1. apply copy_value_ok; [lia|done]. Qed.

(** ** Paths *)

(** The texts between the slashes. *)
Abbreviation split_slash := (split_on SLASH).

(** The first byte of a path is its leading slash. *)
Definition segments (path : list Z) : list (list Z) := split_slash (drop 1 path).

(** A segment as a token. *)
Definition token (s : list Z) : option (list Z) :=
  if NXT_CONF_MAX_TOKEN_LEN <? Z.of_nat (length s) then None else percent_decode false s.

Lemma slash_loop_spec l : forall p, exists s r, split_slash l = s :: r /\ slash_loop l p = (p + length s)%nat
  /\ ((r = [] /\ l = s) \/ (exists l', l = s ++ SLASH :: l' /\ r = split_slash l')).
Proof.
  induction l as [|c l IH]; intros p; cbn [split_on slash_loop].
  - exists [], []. split_and!; [done|cbn; lia|by left].
  - destruct (c =? SLASH) eqn:E; zbool.
    + exists [], (split_slash l). subst c. split_and!; [done|cbn; lia|right]. by exists l.
    + destruct (IH (S p)) as (s & r & Hs & Hp & Hr). rewrite Hs. exists (c :: s), r.
      split_and!; [done|cbn; lia|]. destruct Hr as [[-> ->]|(l' & -> & ->)]; [by left|right; by exists l'].
Qed.

Lemma percent_decode_bytes s : forall out, Forall byte s -> percent_decode false s = Some out -> Forall byte out.
Proof.
  induction s as [s IH] using (induction_ltof1 _ (@length Z)). unfold ltof in IH. intros out Hs Ho.
  destruct s as [|c s]; cbn in Ho; [by simplify_eq|]. apply Forall_cons in Hs as [Hc Hs].
  destruct (c =? PERCENT).
  - destruct s as [|h [|l s]]; try done. destruct (hex_value h) as [a|] eqn:Ea; [|done].
    destruct (hex_value l) as [b|] eqn:Eb; [|done]. destruct (percent_decode false s) as [o|] eqn:Eo; [|done].
    injection Ho as <-. apply Forall_cons in Hs as [_ Hs]. apply Forall_cons in Hs as [_ Hs].
    apply hex_value_range in Ea, Eb. constructor; [unfold byte; lia|]. by apply (IH s); [cbn; lia|..].
  - destruct (percent_decode false s) as [o|] eqn:Eo; [|done]. injection Ho as <-. constructor; [done|].
    by apply (IH s); [cbn; lia|..].
Qed.

Section Paths.
  Context (path : list Z) (Hpath : Forall byte path).

(** The parser stands before the segments [segs]. *)
Definition before (parse : path_parse) (segs : list (list Z)) : Prop :=
  split_slash (drop (S (pp_start parse)) path) = segs
  /\ length (pp_buf parse) = Z.to_nat NXT_CONF_MAX_TOKEN_LEN /\ Forall byte (pp_buf parse).

(** The bytes of a segment are decoded into the buffer. *)
Lemma decode_segment buf start s r :
  length buf = Z.to_nat NXT_CONF_MAX_TOKEN_LEN -> Forall byte buf -> drop start path = s ++ r ->
  (length s <= Z.to_nat NXT_CONF_MAX_TOKEN_LEN)%nat ->
  exists mem, nxt_decode_uri (buf ++ path) 0 (length buf + start) (length s)
    = Ret (mem, (@length Z) <$> percent_decode false s)
  /\ forall out, percent_decode false s = Some out ->
       take (length out) mem = out /\ length (take (length buf) mem) = length buf /\ Forall byte (take (length buf) mem).
Proof.
  intros Hb Hbb Hd Hs. destruct s as [|c s].
  { exists (buf ++ path). split; [unfold nxt_decode_uri; cbn; by rewrite Nat.add_0_r, Nat.ltb_irrefl|].
    intros out [= <-]. rewrite take_app_length. done. }
  assert (Hend : (start + length (c :: s) <= length path)%nat).
  { apply (f_equal length) in Hd. rewrite length_drop, length_app in Hd. cbn in *. lia. }
  assert (Hw : window (buf ++ path) (length buf + start) (length buf + start + length (c :: s)) = c :: s).
  { unfold window. rewrite <- Nat.add_assoc, take_app_add, <- drop_drop, drop_app_length, <- take_drop_commute, Hd.
    by rewrite take_app_length. }
  destruct (decode_loop_ok false (length (c :: s)) (buf ++ path) 0 (length buf + start) (length buf + start + length (c :: s)))
    as (mem & Hr & Hm); try (rewrite ?length_app; lia); [by apply Forall_app|].
  rewrite Hw in Hr, Hm. exists mem. split; [exact Hr|]. intros out Ho. destruct (Hm out Ho) as [-> Hl].
  assert (Hout : Forall byte out).
  { apply (percent_decode_bytes (c :: s)); [|done]. apply (Forall_drop byte start) in Hpath.
    rewrite Hd in Hpath. by apply Forall_app in Hpath as [? _]. }
  unfold written. rewrite take_0, app_nil_l, Nat.add_0_l, take_app_length, drop_app_le, app_assoc by lia. split; [done|].
  replace (length buf) with (length (out ++ drop (length out) buf)) by (rewrite length_app, length_drop; lia).
  rewrite take_app_length. split; [done|]. apply Forall_app. split; [done|by apply Forall_drop].
Qed.

Lemma next_token_ok parse s r : before parse (s :: r) ->
  exists parse', nxt_conf_path_next_token path parse
    = Ret (match token s with Some t => (NXT_OK, parse', t) | None => (NXT_ERROR, parse', []) end)
  /\ (forall t, token s = Some t -> pp_last parse' = bool_decide (r = []) /\ (r <> [] -> before parse' r)).
Proof.
  intros (Hs & Hb & Hbb). unfold nxt_conf_path_next_token, token.
  destruct (slash_loop_spec (drop (S (pp_start parse)) path) (S (pp_start parse))) as (s' & r' & Hs' & Hp & Hr).
  rewrite Hs' in Hs. simplify_eq. rewrite Hp.
  replace (S (pp_start parse) + length s - S (pp_start parse))%nat with (length s) by lia.
  destruct (NXT_CONF_MAX_TOKEN_LEN <? Z.of_nat (length s)) eqn:El; zbool; [by eexists|].
  assert (Hd : exists q, drop (S (pp_start parse)) path = s ++ q).
  { destruct Hr as [[_ ->]|(l' & -> & _)]; [exists []; by rewrite app_nil_r|by exists (SLASH :: l')]. }
  destruct Hd as [q Hd]. destruct (decode_segment _ _ _ _ Hb Hbb Hd) as (mem & -> & Hm); [lia|]. cbn [obind].
  destruct (percent_decode false s) as [t|] eqn:Et; cbn [fmap option_fmap option_map]; [|by eexists].
  destruct (Hm t eq_refl) as (Ht & Hl & Hby). eexists. split; [by rewrite Ht|]. intros t' [= <-]. cbn [pp_last].
  destruct Hr as [[-> Hr]|(l' & Hr & ->)].
  - split; [|done]. rewrite bool_decide_true by done. apply Nat.leb_le.
    apply (f_equal length) in Hr. rewrite length_drop in Hr. lia.
  - destruct (split_on_cons SLASH l') as (s2 & r2 & E2).
    assert (Hlen : length (drop (S (pp_start parse)) path) = (length s + S (length l'))%nat) by (rewrite Hr, length_app; done).
    rewrite length_drop in Hlen. split; [rewrite E2, bool_decide_false by done; apply Nat.leb_gt; lia|]. intros _.
    split; [|by cbn [pp_buf]; rewrite Hl]. cbn [pp_start]. f_equal.
    replace (S (S (pp_start parse) + length s)) with (S (pp_start parse) + S (length s))%nat by lia.
    rewrite <- drop_drop, Hr. by rewrite drop_app_ge, Nat.sub_succ_l, Nat.sub_diag by lia.
Qed.
End Paths.

(** The member or element that a token names, with its index. *)
Definition child (v : conf_value) (t : list Z) : option (nat * conf_value) :=
  match v with
  | VALUE_OBJECT l => member_loop t l 0
  | VALUE_ARRAY l =>
    let index := nxt_int_parse t in
    if (index <? 0) || (INT32_MAX <? index) then None else pair (Z.to_nat index) <$> l !! Z.to_nat index
  | _ => None
  end.

(** The part of a value at a path. *)
Fixpoint find_path (segs : list (list Z)) (v : conf_value) : option conf_value :=
  match segs with
  | [] => Some v
  | s :: r =>
    match token s with
    | None => None
    | Some [] => match r with [] => Some v | _ => None end
    | Some t => match child v t with Some (_, x) => find_path r x | None => None end
    end
  end.

Lemma array_element_ok l i : 0 <= i -> nxt_conf_get_array_element (VALUE_ARRAY l) i = l !! Z.to_nat i.
Proof.
  intros Hi. cbn. destruct (Z.of_nat (length l) <=? i) eqn:E; [|done]. zbool.
  symmetry. apply lookup_ge_None_2. lia.
Qed.

Lemma get_path_loop_ok path (Hpath : Forall byte path) segs : forall fuel parse v, before path parse segs -> (length segs <= fuel)%nat ->
  segs <> [] -> get_path_loop fuel path parse v = Ret (find_path segs v).
Proof.
  induction segs as [|s r IH]; intros fuel parse v Hp Hf Hne; [done|]. destruct fuel as [|fuel]; [cbn in Hf; lia|].
  cbn [get_path_loop find_path]. destruct (next_token_ok path Hpath parse s r Hp) as (parse' & -> & Hn).
  destruct (token s) as [t|]; [|done]. destruct (Hn t eq_refl) as [Hlast Hnext]. cbn [obind Z.eqb negb].
  rewrite Hlast. destruct t as [|c t]; [by destruct r|]. cbn [length Nat.eqb].
  assert (Hstep : forall x : option conf_value, match x with None => Ret None
     | Some v => if bool_decide (r = []) then Ret (Some v) else get_path_loop fuel path parse' v end
     = Ret (match x with Some x => find_path r x | None => None end)).
  { intros [x|]; [|done]. destruct r as [|s2 r]; [done|]. rewrite bool_decide_false by done.
    apply IH; [by apply Hnext|cbn in *; lia|done]. }
  rewrite Hstep. f_equal. destruct v as [|b|n|n|s'|l|l]; try done; cbn [child].
  - destruct ((nxt_int_parse (c :: t) <? 0) || (INT32_MAX <? nxt_int_parse (c :: t))) eqn:E; [done|].
    apply orb_false_iff in E as [E1 E2]; zbool. rewrite array_element_ok by done. by destruct (l !! _).
  - cbn. by destruct (member_loop (c :: t) l 0) as [[]|].
Qed.

Lemma get_path_ok buf path v : Forall byte path -> Forall byte buf -> length buf = Z.to_nat NXT_CONF_MAX_TOKEN_LEN ->
  nxt_conf_get_path buf v path = Ret (find_path (segments path) v).
Proof.
  intros Hp Hb Hl. apply get_path_loop_ok; [done|done| |].
  - pose proof (split_on_length SLASH (drop 1 path)) as H. rewrite length_drop in H. unfold segments. lia.
  - destruct (split_on_cons SLASH (drop 1 path)) as (s & r & H). unfold segments. by rewrite H.
Qed.

(** ** Edits *)

(** The requests of the control API: DELETE, PUT and POST. *)
Inductive edit := Delete | Put (v : conf_value) | Append (v : conf_value).

Definition edit_value (e : edit) : option conf_value :=
  match e with Delete => None | Put v | Append v => Some v end.

Definition edit_add (e : edit) : bool := match e with Append _ => true | _ => false end.

(** The result of an edit; [Invalid] is the access to the members of a value
    that is not an object. *)
Inductive edited := Refused (e : op_ret) | Invalid | Edited (v : conf_value).

Definition set_child (v : conf_value) (i : nat) (x : conf_value) : conf_value :=
  match v with
  | VALUE_ARRAY l => VALUE_ARRAY (<[i := x]> l)
  | VALUE_OBJECT l => VALUE_OBJECT (alter (fun m => (m.1, x)) i l)
  | _ => v
  end.

Definition del_child (v : conf_value) (i : nat) : conf_value :=
  match v with
  | VALUE_ARRAY l => VALUE_ARRAY (delete i l)
  | VALUE_OBJECT l => VALUE_OBJECT (delete i l)
  | _ => v
  end.

(** A new member at the end of an object, a new element at the end of an
    array. *)
Definition new_child (v : conf_value) (t : list Z) (x : conf_value) : edited :=
  match v with
  | VALUE_ARRAY l =>
    if nxt_int_parse t =? Z.of_nat (length l) then Edited (VALUE_ARRAY (l ++ [x])) else Refused OP_NOT_FOUND
  | VALUE_OBJECT l => Edited (VALUE_OBJECT (l ++ [(nxt_conf_set_string t, x)]))
  | _ => Invalid
  end.

(** An edit inside a child. *)
Definition in_child (v : conf_value) (i : nat) (r : edited) : edited :=
  match r with
  | Edited y => Edited (set_child v i y)
  | Refused e => Refused e
  | Invalid => Invalid
  end.

(** An array index that no array has. *)
Definition bad_index (v : conf_value) (t : list Z) : bool :=
  match v with VALUE_ARRAY _ => (nxt_int_parse t <? 0) || (INT32_MAX <? nxt_int_parse t) | _ => false end.

Fixpoint edit_path (segs : list (list Z)) (e : edit) (v : conf_value) : edited :=
  match segs with
  | [] => Refused OP_ERROR
  | s :: r =>
    match token s with
    | None => Refused OP_ERROR
    | Some t =>
      if bad_index v t then Refused OP_NOT_FOUND
      else
        match r, child v t with
        | [], Some (i, x) =>
          match e with
          | Delete => Edited (del_child v i)
          | Put y => Edited (set_child v i y)
          | Append y =>
            match x with
            | VALUE_ARRAY l => Edited (set_child v i (VALUE_ARRAY (l ++ [y])))
            | _ => Refused OP_NOT_ALLOWED
            end
          end
        | [], None => match e with Put y => new_child v t y | _ => Refused OP_NOT_FOUND end
        | _, Some (i, x) => in_child v i (edit_path r e x)
        | _, None => Refused OP_NOT_FOUND
        end
    end
  end.

(** Arrays and objects whose indices fit 32 bits. *)
Fixpoint sized (v : conf_value) : Prop :=
  match v with
  | VALUE_ARRAY l => Z.of_nat (length l) < 2 ^ 32 /\ foldr (fun v P => sized v /\ P) True l
  | VALUE_OBJECT l => Z.of_nat (length l) < 2 ^ 32 /\ foldr (fun m P => sized m.2 /\ P) True l
  | _ => True
  end.

Lemma member_loop_spec t l : forall n i x, member_loop t l n = Some (i, x) ->
  (n <= i < n + length l)%nat /\ exists s, l !! (i - n)%nat = Some (s, x) /\ nxt_conf_get_string s = t.
Proof.
  induction l as [|[s v] l IH]; intros n i x H; cbn in H; [done|]. case_bool_decide as E.
  - simplify_eq. split; [cbn; lia|]. exists s. by rewrite Nat.sub_diag.
  - destruct (IH _ _ _ H) as (Hi & s' & Hs & He). split; [cbn; lia|]. exists s'.
    by replace (i - n)%nat with (S (i - S n)) by lia.
Qed.

(** What a child is: an index inside the value and the value there. *)
Lemma child_spec v t i x : sized v -> child v t = Some (i, x) ->
  sized x /\ Z.of_nat i < 2 ^ 32
  /\ match v with
     | VALUE_ARRAY l => l !! i = Some x
     | VALUE_OBJECT l => exists s, l !! i = Some (s, x)
     | _ => False
     end.
Proof.
  intros Hv H. destruct v as [|b|n|n|s|l|l]; try done; destruct Hv as [Hl Hv]; cbn in H.
  - destruct (_ || _) eqn:E; [done|]. apply orb_false_iff in E as [E1 E2]; zbool.
    destruct (l !! _) as [y|] eqn:Ey; [|done]. cbn in H. simplify_eq. apply foldr_and in Hv.
    pose proof (lookup_lt_Some _ _ _ Ey). split_and!; [by eapply Forall_lookup_1|lia|done].
  - apply (foldr_and (fun m => sized m.2)) in Hv. destruct (member_loop_spec _ _ _ _ _ H) as (Hi & s & Hs & _).
    rewrite Nat.sub_0_r in Hs. split_and!; [by apply (Forall_lookup_1 _ _ _ _ Hv Hs)|lia|by exists s].
Qed.

(** The operation that a compilation returns makes the edit. *)
Definition compiles (alloc : nat -> bool) (m : Alloc (op_ret + conf_op)) (k : nat) (root : conf_value) (r : edited) : Prop :=
  match r with
  | Edited v => exists op, either alloc (inl OP_ERROR) m k (inr op) /\ op_fits op root /\ apply_op op root = v
  | Refused e => either alloc (inl OP_ERROR) m k (inl e)
  | Invalid => m k = Fault \/ exists k', m k = Ret (inl OP_ERROR, k') /\ failed alloc k k'
  end.

(** The index that the operation gets. *)
Definition index_of (v : conf_value) (t : list Z) : Z :=
  match v with
  | VALUE_OBJECT l => match member_loop t l 0 with Some (n, _) => u32 (Z.of_nat n) | None => 0 end
  | VALUE_ARRAY _ => u32 (nxt_int_parse t)
  | _ => 0
  end.

Lemma index_child v t i x : sized v -> child v t = Some (i, x) -> index_of v t = Z.of_nat i.
Proof.
  intros Hv H. destruct (child_spec v t i x Hv H) as (_ & Hi & _). destruct v as [|b|n|n|s|l|l]; try done; cbn in H |- *.
  - destruct (_ || _) eqn:E; [done|]. apply orb_false_iff in E as [E1 E2]; zbool.
    destruct (l !! _) as [y|] eqn:Ey; [|done]. cbn in H. simplify_eq. rewrite u32_small; lia.
  - rewrite H. apply u32_small. lia.
Qed.

(** Fits and effects of the operations at a child. *)
Lemma child_fits v t i x op : sized v -> child v t = Some (i, x) -> op_fits op x ->
  op_fits (OP_PASS (Z.of_nat i) op) v /\ apply_op (OP_PASS (Z.of_nat i) op) v = set_child v i (apply_op op x).
Proof.
  intros Hv Hc Hop. destruct (child_spec v t i x Hv Hc) as (_ & Hi & Hx).
  destruct v as [|b|n|n|s|l|l]; try done; cbn; rewrite Nat2Z.id.
  - split; [split; [lia|by exists x]|]. by rewrite (alter_insert _ _ _ _ Hx).
  - destruct Hx as [s Hx]. split; [split; [lia|by exists (s, x)]|]. by rewrite !(alter_insert _ _ _ _ Hx).
Qed.

Lemma child_replace v t i x y : sized v -> child v t = Some (i, x) ->
  op_fits (OP_REPLACE (Z.of_nat i) y) v /\ apply_op (OP_REPLACE (Z.of_nat i) y) v = set_child v i y.
Proof.
  intros Hv Hc. destruct (child_spec v t i x Hv Hc) as (_ & Hi & Hx).
  destruct v as [|b|n|n|s|l|l]; try done; cbn; rewrite Nat2Z.id; [|destruct Hx as [s Hx]];
    apply lookup_lt_Some in Hx; (split; [lia|done]).
Qed.

Lemma child_delete v t i x : sized v -> child v t = Some (i, x) ->
  op_fits (OP_DELETE (Z.of_nat i)) v /\ apply_op (OP_DELETE (Z.of_nat i)) v = del_child v i.
Proof.
  intros Hv Hc. destruct (child_spec v t i x Hv Hc) as (_ & Hi & Hx).
  destruct v as [|b|n|n|s|l|l]; try done; destruct Hv as [Hl _]; cbn; rewrite Nat2Z.id; [|destruct Hx as [s Hx]];
    apply lookup_lt_Some in Hx; (split; [lia|done]).
Qed.

Section Compile.
  Context (alloc : nat -> bool).

Lemma set_string_dup_ok t k : either alloc None (nxt_conf_set_string_dup alloc t) k (Some (nxt_conf_set_string t)).
Proof.
  unfold nxt_conf_set_string_dup, nxt_conf_set_string. destruct (_ <? _); [|apply either_ret].
  unfold either, abind, request. cbn [obind].
  destruct (alloc k) eqn:Ea; eexists _, _; (split; [done|]); (split; [lia|]); [by left|right].
  split; [done|]. exists k. split; [lia|done].
Qed.

(** The last token names the child [x]. *)
Lemma op_last_child v t i x e k : sized v -> child v t = Some (i, x) ->
  compiles alloc (op_last alloc v (Some x) (Z.of_nat i) t (edit_value e) (edit_add e)) k v
    (match e with
     | Delete => Edited (del_child v i)
     | Put y => Edited (set_child v i y)
     | Append y =>
       match x with
       | VALUE_ARRAY l => Edited (set_child v i (VALUE_ARRAY (l ++ [y])))
       | _ => Refused OP_NOT_ALLOWED
       end
     end).
Proof.
  intros Hv Hc. destruct e as [|y|y]; cbn [edit_value edit_add op_last].
  - eexists. split; [apply either_ret|]. by eapply child_delete.
  - eexists. split; [apply either_ret|]. by eapply child_replace.
  - destruct (child_spec v t i x Hv Hc) as (Hx & _ & _). destruct x as [|b|n|n|s|l|l]; try apply either_ret.
    destruct Hx as [Hl _]. eexists. split.
    { unfold either, abind, request. cbn [obind]. destruct (alloc k) eqn:Ea; eexists _, _; (split; [done|]);
        (split; [lia|]); [by left|right]. split; [done|]. exists k. split; [lia|done]. }
    rewrite u32_small by lia. destruct (child_fits v t i (VALUE_ARRAY l) (OP_CREATE_VALUE (Z.of_nat (length l)) y) Hv Hc) as [H1 H2];
      [cbn; lia|]. by rewrite H2.
Qed.

(** [op->index = root->u.object->count] where [root] is not an object. *)
Lemma below_scalar t k :
  let m : Alloc (op_ret + conf_op) :=
    let! ok := request alloc in
    if negb ok then aret (inl OP_ERROR)
    else
      let! name := nxt_conf_set_string_dup alloc t in
      match name with None => aret (inl OP_ERROR) | Some name => alift Fault end in
  m k = Fault \/ exists k', m k = Ret (inl OP_ERROR, k') /\ failed alloc k k'.
Proof.
  unfold abind at 1, request. cbn [obind]. destruct (alloc k) eqn:Ea; cbn [negb].
  - destruct (set_string_dup_ok t (S k)) as (r & k' & Hr & Hk & [->|[-> Hf]]); unfold abind; rewrite Hr; cbn [obind];
      [by left|right]. exists k'. split; [done|]. eapply failed_mono; [|apply Nat.le_refl|exact Hf]. lia.
  - right. exists (S k). split; [done|]. exists k. split; [lia|done].
Qed.

(** The last token names nothing. *)
Lemma op_last_new v t e k : sized v -> bad_index v t = false -> child v t = None ->
  compiles alloc (op_last alloc v None (index_of v t) t (edit_value e) (edit_add e)) k v
    (match e with Put y => new_child v t y | _ => Refused OP_NOT_FOUND end).
Proof.
  intros Hv Hb Hc. destruct e as [|y|y]; cbn [edit_value edit_add op_last]; [apply either_ret| |apply either_ret].
  destruct v as [|b|n|n|s|l|l]; cbn [new_child].
  1-5: by apply below_scalar.
  - destruct Hv as [Hl _]. cbn in Hc, Hb |- *. rewrite Hb in Hc. apply orb_false_iff in Hb as [Hb1 Hb2]; zbool.
    destruct (l !! _) eqn:E in Hc; [done|]. apply lookup_ge_None_1 in E. rewrite u32_small by lia.
    destruct (nxt_int_parse t =? Z.of_nat (length l)) eqn:En; zbool.
    + rewrite En, Z.ltb_irrefl. eexists. split; [apply either_ret|]. cbn. split; [lia|done].
    + rewrite (proj2 (Z.ltb_lt _ _)) by lia. apply either_ret.
  - destruct Hv as [Hl _]. exists (OP_CREATE_MEMBER (Z.of_nat (length l)) (nxt_conf_set_string t, y)). split.
    + apply either_request. intros k1 Hk1. eapply either_bind; [apply set_string_dup_ok|]. intros k2 Hk2.
      rewrite u32_small by lia. apply either_ret.
    + cbn. split; [lia|done].
Qed.

Lemma compiles_pass m k v t i x r : sized v -> child v t = Some (i, x) -> compiles alloc m k x r ->
  compiles alloc (let! r := m in aret match r with inl e => inl e | inr op => inr (OP_PASS (Z.of_nat i) op) end) k v
    (in_child v i r).
Proof.
  intros Hv Hc. destruct r as [e| |y]; cbn.
  - intros (r & k' & Hm & Hk & Hr). unfold either, abind. rewrite Hm. cbn [obind]. eexists _, k'. split; [done|].
    split; [done|]. destruct Hr as [->|[-> Hf]]; [by left|by right].
  - unfold abind. intros [->|(k' & -> & Hf)]; [by left|right]. cbn. by exists k'.
  - intros (op & (r & k' & Hm & Hk & Hr) & Hf & <-). exists (OP_PASS (Z.of_nat i) op). split.
    + unfold either, abind. rewrite Hm. cbn [obind]. eexists _, k'. split; [done|]. split; [done|].
      destruct Hr as [->|[-> Hfail]]; [by left|by right].
    + by eapply child_fits.
Qed.

(** A request in front. *)
Lemma compiles_request m k v r : (forall k', (k <= k')%nat -> compiles alloc m k' v r) ->
  compiles alloc (let! ok := request alloc in if negb ok then aret (inl OP_ERROR) else m) k v r.
Proof.
  destruct r as [e| |y]; cbn; intros H.
  - by apply either_request.
  - unfold abind, request. cbn [obind]. destruct (alloc k) eqn:Ea; cbn [negb].
    + destruct (H (S k)) as [->|(k' & -> & Hf)]; [lia|by left|right]. exists k'. split; [done|].
      eapply failed_mono; [|apply Nat.le_refl|exact Hf]. lia.
    + right. exists (S k). split; [done|]. exists k. split; [lia|done].
  - unfold abind, request. cbn [obind]. destruct (alloc k) eqn:Ea.
    + destruct (H (S k)) as (op & (r & k' & Hm & Hk & Hr) & Hf); [lia|]. exists op. split; [|done].
      unfold either. cbn [negb obind]. rewrite Ea. exists r, k'. split; [done|]. split; [lia|].
      destruct Hr as [->|[-> Hfail]]; [by left|right]. split; [done|]. eapply failed_mono; [|apply Nat.le_refl|exact Hfail]. lia.
    + destruct (H (S k)) as (op & _ & Hf); [lia|]. exists op. split; [|done].
      unfold either. cbn [negb obind]. rewrite Ea. exists (inl OP_ERROR), (S k). split; [done|]. split; [lia|right].
      split; [done|]. exists k. split; [lia|done].
Qed.

Lemma compiles_lift {A} (f : A -> Alloc (op_ret + conf_op)) a k v r :
  compiles alloc (f a) k v r -> compiles alloc (let! x := alift (Ret a) in f x) k v r.
Proof. intros H. destruct r; exact H. Qed.

(** The switch over the type of the root. *)
Definition op_switch (next : Z -> option conf_value -> Alloc (op_ret + conf_op)) (root : conf_value) (t : list Z) :
    Alloc (op_ret + conf_op) :=
  match root with
  | VALUE_OBJECT _ =>
    match nxt_conf_get_object_member root t with
    | Some (n, v) => next (u32 (Z.of_nat n)) (Some v)
    | None => next 0 None
    end
  | VALUE_ARRAY _ =>
    let index := nxt_int_parse t in
    if (index <? 0) || (INT32_MAX <? index) then aret (inl OP_NOT_FOUND)
    else next (u32 index) (nxt_conf_get_array_element root index)
  | _ => next 0 None
  end.

Lemma op_switch_ok next v t :
  op_switch next v t = if bad_index v t then aret (inl OP_NOT_FOUND) else next (index_of v t) (snd <$> child v t).
Proof.
  destruct v as [|b|n|n|s|l|l]; try done; cbn [op_switch bad_index index_of child].
  - destruct (_ || _) eqn:E; [done|]. apply orb_false_iff in E as [E1 E2]; zbool.
    rewrite array_element_ok by done. by destruct (l !! _).
  - cbn. by destruct (member_loop t l 0) as [[]|].
Qed.

Lemma op_loop_ok path (Hpath : Forall byte path) segs : forall fuel parse e v k, before path parse segs ->
  (length segs <= fuel)%nat -> segs <> [] -> sized v ->
  compiles alloc (op_loop alloc fuel path parse v (edit_value e) (edit_add e)) k v (edit_path segs e v).
Proof.
  induction segs as [|s r IH]; intros fuel parse e v k Hp Hf Hne Hv; [done|]. destruct fuel as [|fuel]; [cbn in Hf; lia|].
  cbn [op_loop edit_path]. apply compiles_request. intros k1 Hk1.
  destruct (next_token_ok path Hpath parse s r Hp) as (parse' & Hrun & Hn). rewrite Hrun.
  destruct (token s) as [t|]; [|cbn; apply either_ret]. destruct (Hn t eq_refl) as [Hlast Hnext].
  apply compiles_lift. cbn beta iota. change (negb (NXT_OK =? NXT_OK)) with false. cbn beta iota zeta.
  match goal with |- compiles _ ?m _ _ _ =>
    change m with (op_switch (fun index node =>
      if pp_last parse' then op_last alloc v node index t (edit_value e) (edit_add e)
      else match node with
           | None => aret (inl OP_NOT_FOUND)
           | Some node =>
             let! r := op_loop alloc fuel path parse' node (edit_value e) (edit_add e) in
             aret match r with inl e => inl e | inr op => inr (OP_PASS index op) end
           end) v t) end.
  rewrite op_switch_ok. destruct (bad_index v t) eqn:Eb; [apply either_ret|]. rewrite Hlast.
  destruct (child v t) as [[i x]|] eqn:Ec; cbn [fmap option_fmap option_map snd].
  - rewrite (index_child v t i x Hv Ec). destruct r as [|s2 r]; [by apply (op_last_child v t i x)|].
    rewrite bool_decide_false by done.
    apply (compiles_pass _ _ v t i x); [done|done|].
    apply IH; [by apply Hnext|cbn in *; lia|done|by eapply child_spec].
  - destruct r as [|s2 r]; [by apply op_last_new|]. rewrite bool_decide_false by done. apply either_ret.
Qed.

Lemma op_compile_ok buf path e v k : Forall byte path -> Forall byte buf -> length buf = Z.to_nat NXT_CONF_MAX_TOKEN_LEN ->
  sized v -> compiles alloc (nxt_conf_op_compile alloc buf v path (edit_value e) (edit_add e)) k v (edit_path (segments path) e v).
Proof.
  intros Hp Hb Hl Hv. apply op_loop_ok; [done|done| | |done].
  - pose proof (split_on_length SLASH (drop 1 path)) as H. rewrite length_drop in H. unfold segments. lia.
  - destruct (split_on_cons SLASH (drop 1 path)) as (s & r & H). unfold segments. by rewrite H.
Qed.
End Compile.

(** ** Laws of edits *)

Lemma member_loop_alter t l f : forall n i x, (forall m, nxt_conf_get_string (f m).1 = nxt_conf_get_string m.1) ->
  member_loop t l n = Some ((n + i)%nat, x) ->
  exists m, l !! i = Some m /\ member_loop t (alter f i l) n = Some ((n + i)%nat, (f m).2).
Proof.
  induction l as [|[s v] l IH]; intros n i x Hf H; cbn [member_loop] in H; [done|]. case_bool_decide as E.
  - injection H as Hn <-. assert (i = 0%nat) as -> by lia. exists (s, v). split; [done|]. cbn. specialize (Hf (s, v)).
    destruct (f (s, v)) as [s' v']. cbn in *. rewrite bool_decide_true by congruence. f_equal. f_equal. lia.
  - pose proof (proj1 (member_loop_spec _ _ _ _ _ H)) as Hi. destruct i as [|i]; [lia|].
    replace (n + S i)%nat with (S n + i)%nat in * by lia. destruct (IH (S n) i x Hf H) as (m & Hm & Hl).
    exists m. split; [done|]. cbn. rewrite bool_decide_false by done. exact Hl.
Qed.

Lemma member_loop_app t l s x : forall n, member_loop t l n = None -> nxt_conf_get_string s = t ->
  member_loop t (l ++ [(s, x)]) n = Some ((n + length l)%nat, x).
Proof.
  induction l as [|[s' v] l IH]; intros n H Hs; cbn in *.
  - rewrite bool_decide_true by done. f_equal. f_equal. lia.
  - case_bool_decide; [done|]. rewrite IH by done. f_equal. f_equal. lia.
Qed.

Lemma get_set_string t : nxt_conf_get_string (nxt_conf_set_string t) = t.
Proof. unfold nxt_conf_set_string. by destruct (_ <? _). Qed.

(** The child that was set is found, and so is a new one. *)
Lemma child_set v t i x y : child v t = Some (i, x) -> child (set_child v i y) t = Some (i, y).
Proof.
  destruct v as [|b|n|n|s|l|l]; try done; cbn [child set_child]; intros H.
  - destruct (_ || _); [done|]. destruct (l !! _) as [z|] eqn:E; [|done]. cbn in H. simplify_eq.
    by rewrite list_lookup_insert_eq by (by eapply lookup_lt_Some).
  - destruct (member_loop_alter t l (fun m => (m.1, y)) 0 i x) as (m & _ & Hm); done.
Qed.

Lemma child_new v t x v' : bad_index v t = false -> child v t = None -> new_child v t x = Edited v' ->
  exists i, child v' t = Some (i, x).
Proof.
  destruct v as [|b|n|n|s|l|l]; try done; cbn [child new_child bad_index]; intros Hb Hc H.
  - destruct (nxt_int_parse t =? _) eqn:E; [|done]. apply Z.eqb_eq in E. injection H as <-. cbn [child]. rewrite Hb, E, Nat2Z.id.
    exists (length l). by rewrite list_lookup_middle.
  - injection H as <-. exists (length l). cbn [child]. by rewrite (member_loop_app t l _ x 0 Hc (get_set_string t)).
Qed.

Lemma find_put segs : forall x v v', Forall (fun s => token s <> Some []) segs ->
  edit_path segs (Put x) v = Edited v' -> find_path segs v' = Some x.
Proof.
  induction segs as [|s r IH]; intros x v v' Hne H; [done|]. apply Forall_cons in Hne as [Hs Hr].
  cbn [edit_path find_path] in *. destruct (token s) as [[|c t]|]; [done| |done].
  destruct (bad_index v (c :: t)) eqn:Eb; [done|]. destruct r as [|s2 r].
  - destruct (child v (c :: t)) as [[i y]|] eqn:Ec.
    + injection H as <-. by rewrite (child_set _ _ _ _ _ Ec).
    + destruct (child_new _ _ _ _ Eb Ec H) as [i ->]. done.
  - destruct (child v (c :: t)) as [[i y]|] eqn:Ec; [|done]. unfold in_child in H.
    destruct (edit_path (s2 :: r) (Put x) y) as [| |y'] eqn:Ey; try done. injection H as <-.
    rewrite (child_set _ _ _ _ _ Ec). by apply (IH x y).
Qed.

(** Members have different names, at every level. *)
Fixpoint unique (v : conf_value) : Prop :=
  match v with
  | VALUE_ARRAY l => foldr (fun v P => unique v /\ P) True l
  | VALUE_OBJECT l =>
    NoDup (map (fun m => nxt_conf_get_string m.1) l) /\ foldr (fun m P => unique m.2 /\ P) True l
  | _ => True
  end.

Lemma unique_array l : unique (VALUE_ARRAY l) <-> Forall unique l.
Proof. apply foldr_and. Qed.

Lemma unique_object l : unique (VALUE_OBJECT l) <->
  NoDup (map (fun m => nxt_conf_get_string m.1) l) /\ Forall (fun m => unique m.2) l.
Proof. cbn [unique]. by rewrite (foldr_and (fun m => unique m.2)). Qed.

Lemma member_loop_none t l : forall n, member_loop t l n = None -> t ∉ map (fun m => nxt_conf_get_string m.1) l.
Proof.
  induction l as [|[s v] l IH]; intros n H; cbn in *; [apply not_elem_of_nil|]. case_bool_decide; [done|].
  apply not_elem_of_cons. split; [congruence|by eapply IH].
Qed.

Lemma unique_child v t i x : unique v -> child v t = Some (i, x) -> unique x.
Proof.
  intros Hv H. destruct v as [|b|n|n|s|l|l]; try done; cbn [child] in H.
  - apply unique_array in Hv. destruct (_ || _); [done|]. destruct (l !! _) eqn:E; [|done]. cbn in H. simplify_eq.
    by eapply Forall_lookup_1.
  - apply unique_object in Hv as [_ Hv]. destruct (member_loop_spec _ _ _ _ _ H) as (_ & s & Hs & _).
    by apply (Forall_lookup_1 _ _ _ _ Hv Hs).
Qed.

Lemma unique_set v i x : unique v -> unique x -> unique (set_child v i x).
Proof.
  intros Hv Hx. destruct v as [|b|n|n|s|l|l]; try done; cbn [set_child].
  - apply unique_array in Hv. apply unique_array. by apply Forall_insert.
  - apply unique_object in Hv as [Hn Hv]. apply unique_object. split.
    + replace (map _ (alter _ i l)) with (map (fun m => nxt_conf_get_string m.1) l); [done|]. clear.
      revert i. induction l as [|m l IH]; intros [|i]; cbn; [done..|]. by rewrite <- IH.
    + by apply Forall_alter.
Qed.

Lemma unique_del v i : unique v -> unique (del_child v i).
Proof.
  intros Hv. destruct v as [|b|n|n|s|l|l]; try done; cbn [del_child].
  - apply unique_array in Hv. apply unique_array. by apply Forall_delete.
  - apply unique_object in Hv as [Hn Hv]. apply unique_object. split; [|by apply Forall_delete].
    replace (map _ (delete i l)) with (delete i (map (fun m => nxt_conf_get_string m.1) l)).
    + eapply sublist_NoDup; [exact Hn|apply sublist_delete].
    + rewrite !delete_take_drop, map_app. f_equal; [apply firstn_map|apply skipn_map].
Qed.

Lemma unique_new v t x v' : unique v -> unique x -> child v t = None -> new_child v t x = Edited v' -> unique v'.
Proof.
  intros Hv Hx Hc H. destruct v as [|b|n|n|s|l|l]; try done; cbn in H, Hc.
  - destruct (_ =? _); [|done]. injection H as <-. apply unique_array in Hv. apply unique_array. apply Forall_app. by split; [|constructor].
  - injection H as <-. apply unique_object in Hv as [Hn Hv]. apply unique_object. split; [|apply Forall_app; by split; [|constructor]].
    rewrite map_app. apply NoDup_app. split; [done|]. split; [|apply NoDup_singleton].
    cbn. rewrite get_set_string. intros y Hy Hs. apply list_elem_of_singleton in Hs. subst y. by eapply member_loop_none.
Qed.

Lemma edit_unique segs : forall e v v', unique v -> (forall x, edit_value e = Some x -> unique x) ->
  edit_path segs e v = Edited v' -> unique v'.
Proof.
  induction segs as [|s r IH]; intros e v v' Hv He H; [done|]. cbn [edit_path] in H.
  destruct (token s) as [t|]; [|done]. destruct (bad_index v t); [done|]. destruct r as [|s2 r].
  - destruct (child v t) as [[i x]|] eqn:Ec.
    + pose proof (unique_child _ _ _ _ Hv Ec) as Hx. destruct e as [|y|y].
      * injection H as <-. by apply unique_del.
      * injection H as <-. apply unique_set; [done|by apply He].
      * destruct x as [|b|n|n|s'|l|l]; try done. injection H as <-. apply unique_set; [done|].
        apply unique_array. apply unique_array in Hx. apply Forall_app. split; [done|constructor; [by apply He|done]].
    + destruct e as [|y|y]; try done. eapply unique_new; [exact Hv|by apply He|exact Ec|exact H].
  - destruct (child v t) as [[i x]|] eqn:Ec; [|done]. unfold in_child in H.
    destruct (edit_path (s2 :: r) e x) as [| |y] eqn:Ey; try done. injection H as <-.
    apply unique_set; [done|]. eapply (IH e x); [by eapply unique_child|done|done].
Qed.

(** ** Correctness of the paths *)

(** What the callers provide: a path of bytes and the buffer on the stack. *)
Definition path_ready (buf path : list Z) : Prop :=
  Forall byte path /\ Forall byte buf /\ length buf = Z.to_nat NXT_CONF_MAX_TOKEN_LEN.

(** C27. The requests of the control API.  [nxt_conf_get_path] returns the
    part of the configuration at the path.  For DELETE, PUT and POST
    [nxt_conf_op_compile] refuses as the reference does, or its operations
    make [nxt_conf_clone] return the edited copy, exactly, in the memory that
    was asked for; both return an error only if an allocation fails.  A PUT
    below a value that is neither an array nor an object is not refused: it
    reads the members of an object that is not there. *)
Theorem nxt_conf_paths_correct (alloc : nat -> bool) (buf path : list Z) (e : edit) (root : conf_value) (k : nat)
  (Hready : path_ready buf path) (Hroot : sized root) :
  nxt_conf_get_path buf root path = Ret (find_path (segments path) root)
  /\ match edit_path (segments path) e root with
     | Edited v => exists op,
         either alloc (inl OP_ERROR) (nxt_conf_op_compile alloc buf root path (edit_value e) (edit_add e)) k (inr op)
         /\ forall k', either alloc None (nxt_conf_clone alloc (Some op) root) k' (Some v)
     | Refused r =>
         either alloc (inl OP_ERROR) (nxt_conf_op_compile alloc buf root path (edit_value e) (edit_add e)) k (inl r)
     | Invalid =>
         nxt_conf_op_compile alloc buf root path (edit_value e) (edit_add e) k = Fault
         \/ exists k', nxt_conf_op_compile alloc buf root path (edit_value e) (edit_add e) k = Ret (inl OP_ERROR, k')
                       /\ failed alloc k k'
     end.
Proof.
  destruct Hready as (Hp & Hb & Hl). split; [by apply get_path_ok|].
  pose proof (op_compile_ok alloc buf path e root k Hp Hb Hl Hroot) as H.
  destruct (edit_path (segments path) e root) as [r| |v]; [exact H|exact H|].
  destruct H as (op & Hop & Hf & <-). exists op. split; [done|]. intros k'. by apply (clone_ok alloc (Some op)).
Qed.


(** *** Examples *)

Definition example_root : conf_value :=
  VALUE_OBJECT [(SHORT_STRING (bytes_of_string "listeners"), VALUE_OBJECT []);
                (SHORT_STRING (bytes_of_string "routes"), VALUE_ARRAY [VALUE_NULL])].

Definition example_buf : list Z := replicate 256 0.

(** [nxt_conf_paths_correct] at a POST to an array. *)
Lemma nxt_conf_paths_correct_witness :
  exists op, either (fun _ => true) (inl OP_ERROR)
    (nxt_conf_op_compile (fun _ => true) example_buf example_root (bytes_of_string "/routes") (Some (VALUE_BOOLEAN true)) true) 0%nat (inr op)
  /\ forall k', either (fun _ => true) None (nxt_conf_clone (fun _ => true) (Some op) example_root) k'
    (Some (VALUE_OBJECT [(SHORT_STRING (bytes_of_string "listeners"), VALUE_OBJECT []);
                (SHORT_STRING (bytes_of_string "routes"), VALUE_ARRAY [VALUE_NULL; VALUE_BOOLEAN true])])).
Proof.
  destruct (nxt_conf_paths_correct (fun _ => true) example_buf (bytes_of_string "/routes") (Append (VALUE_BOOLEAN true))
    example_root 0) as [_ H].
  - split_and!; [by repeat constructor|by apply Forall_replicate|done].
  - cbn. repeat split.
  - exact H.
Defined.

