(* ===== verification/Atomic.v ===== *)
(** * Shared memory, interleavings and rely-guarantee reasoning

    The queues of nxt_port_queue.h and nxt_app_queue.h live in memory that
    several processes map and access without locks.  A function that works on
    such memory is a program of atomic actions ([prog]): the accesses of
    nxt_atomic.h and the plain loads and stores of single words, one action
    each.  Threads run sequences of calls; [run] interleaves their actions as
    a schedule says and keeps the history of invocations and returns.  The
    memory is sequentially consistent.

    The second half is the logic used on such programs: a weakest precondition
    [wp] on worlds (ghost state), in which a thread relies on what the others
    preserve, guarantees the same to them, and accompanies its actions with
    steps of an atomic specification.  [run_refines] is its soundness: the
    history of every run is a history of the specification. *)

From stdpp Require Import relations.
From S2P Require Import Prelude.

#[local] Open Scope Z_scope.

(** ** Memory and actions *)

(** The two rings of a queue. *)
Inductive ring := Free_items | Queue.

(** The words of a queue: of a ring, of an item, and of the queue itself. *)
Inductive loc :=
| Head (q : ring)
| Tail (q : ring)
| Entry (q : ring) (j : Z)
| Size (i : Z)
| Data (i k : Z)
| Tracking (i : Z)
| Nitems
| Notified.

#[global] Instance ring_eq_dec : EqDecision ring.
Proof. solve_decision. Defined.

#[global] Instance loc_eq_dec : EqDecision loc.
Proof. solve_decision. Defined.

Definition mem := loc -> Z.

Definition upd (m : mem) (l : loc) (v : Z) : mem :=
  fun l' => if decide (l' = l) then v else m l'.

(** [nxt_atomic_load], a store, [nxt_atomic_cmp_set] and
    [nxt_atomic_fetch_add]. *)
Inductive action :=
| Load (l : loc)
| Store (l : loc) (v : Z)
| Cmp_set (l : loc) (cmp set : Z)
| Fetch_add (l : loc) (add : Z).

(** The value an action yields and the memory after it. *)
Definition perform (a : action) (m : mem) : Z * mem :=
  match a with
  | Load l => (m l, m)
  | Store l v => (0, upd m l v)
  | Cmp_set l cmp set => if m l =? cmp then (1, upd m l set) else (0, m)
  | Fetch_add l add => (m l, upd m l (u32 (m l + add)))
  end.

(** ** Programs *)

Inductive prog (A : Type) : Type :=
| Done (a : A)
| Act (a : action) (k : Z -> prog A).

Arguments Done {A} a.
Arguments Act {A} a k.

Fixpoint pbind {A B} (p : prog A) (f : A -> prog B) : prog B :=
  match p with
  | Done a => f a
  | Act a k => Act a (fun v => pbind (k v) f)
  end.

Notation "'let@' x ':=' p 'in' k" := (pbind p (fun x => k))
  (at level 10, x pattern, p at level 100, k at level 200,
   format "'let@'  x  ':='  p  'in' '//' k") : nxt_scope.

Definition act (a : action) : prog Z := Act a Done.

(** One program running alone. *)
Fixpoint alone {A} (p : prog A) (m : mem) : A * mem :=
  match p with
  | Done a => (a, m)
  | Act a k => let '(v, m') := perform a m in alone (k v) m'
  end.

(** ** Threads and schedules *)

Inductive event (call reply : Type) : Type :=
| Invoke (i : nat) (c : call)
| Return (i : nat) (r : reply).

Arguments Invoke {call reply} i c.
Arguments Return {call reply} i r.

(** A thread has calls to make, the call that runs, and the time of its last
    action. *)
Record thread (call reply : Type) := Thread {
  todo : list call;
  running : option (prog reply);
  last : Z
}.

Arguments Thread {call reply} todo running last.
Arguments todo {call reply} t.
Arguments running {call reply} t.
Arguments last {call reply} t.

(** Time is the number of updates by [Cmp_set] so far. *)
Record config (call reply : Type) := Config {
  memory : mem;
  clock : Z;
  threads : list (thread call reply);
  history : list (event call reply)
}.

Arguments Config {call reply} memory clock threads history.
Arguments memory {call reply} c.
Arguments clock {call reply} c.
Arguments threads {call reply} c.
Arguments history {call reply} c.

(** The updates in an action with result [v]. *)
Definition ticks (a : action) (v : Z) : Z :=
  match a with Cmp_set _ _ _ => v | _ => 0 end.

Section Machine.
Context {call reply : Type} (body : call -> prog reply).

(** A thread that was suspended in a call for [gap] updates cannot go on. *)
Variable gap : Z.

(** One step of thread [i]: it makes its next call, performs one action of the
    call that runs, or returns from it.  [None] when it cannot step. *)
Definition step (i : nat) (c : config call reply) : option (config call reply) :=
  match threads c !! i with
  | None => None
  | Some t =>
      let next t' := <[i := t']> (threads c) in
      match running t, todo t with
      | None, [] => None
      | None, f :: rest =>
          Some (Config (memory c) (clock c) (next (Thread rest (Some (body f)) (clock c)))
                  (history c ++ [Invoke i f]))
      | Some (Done r), rest =>
          Some (Config (memory c) (clock c) (next (Thread rest None (clock c)))
                  (history c ++ [Return i r]))
      | Some (Act a k), rest =>
          if clock c <? last t + gap then
            let '(v, m') := perform a (memory c) in
            let now := clock c + ticks a v in
            Some (Config m' now (next (Thread rest (Some (k v)) now)) (history c))
          else None
      end
  end.

Fixpoint run (schedule : list nat) (c : config call reply) : option (config call reply) :=
  match schedule with
  | [] => Some c
  | i :: rest => match step i c with Some c' => run rest c' | None => None end
  end.

Definition start (m : mem) (clients : list (list call)) : config call reply :=
  Config m 0 (map (fun calls => Thread calls None 0) clients) [].

End Machine.

(** ** Atomic specifications *)

(** A specification of an object: its states, the steps it takes inside the
    call of a thread, and how calls begin and end. *)
Record spec (call reply : Type) := Spec {
  state : Type;
  internal : nat -> state -> state -> Prop;
  invoked : nat -> call -> state -> state -> Prop;
  returned : nat -> reply -> state -> state -> Prop
}.

Arguments state {call reply} s.
Arguments internal {call reply} s.
Arguments invoked {call reply} s.
Arguments returned {call reply} s.

(** [history_of s h s']: the specification goes from [s] to [s'] with the
    invocations and returns [h]. *)
Inductive history_of {call reply} (S : spec call reply)
  : state S -> list (event call reply) -> state S -> Prop :=
| history_nil s : history_of S s [] s
| history_internal s h s' s'' i :
    history_of S s h s' -> internal S i s' s'' -> history_of S s h s''
| history_invoke s h s' s'' i c :
    history_of S s h s' -> invoked S i c s' s'' -> history_of S s (h ++ [Invoke i c]) s''
| history_return s h s' s'' i r :
    history_of S s h s' -> returned S i r s' s'' -> history_of S s (h ++ [Return i r]) s''.

(** ** The logic *)

Section Logic.
Context {W : Type}.

(** The time of a world, the memory it describes, what thread [i] relies on,
    and the steps of the specification that thread [i] may take with an
    action. *)
Context (now : W -> Z) (inv : W -> mem -> Prop) (rely : nat -> W -> W -> Prop)
  (abstract : nat -> W -> W -> Prop) (gap : Z).

Definition guarantee (i : nat) (w w' : W) : Prop :=
  abstract i w w' /\ forall j, j <> i -> rely j w w'.

Fixpoint wp {A} (i : nat) (p : prog A) (Q : A -> W -> Prop) (w : W) : Prop :=
  match p with
  | Done a => Q a w
  | Act a k =>
      forall w' m, rely i w w' -> now w' < now w + gap -> inv w' m ->
        exists w'', inv w'' (snd (perform a m)) /\
          now w'' = now w' + ticks a (fst (perform a m)) /\
          guarantee i w' w'' /\ wp i (k (fst (perform a m))) Q w''
  end.

Lemma wp_mono {A} i (p : prog A) (Q Q' : A -> W -> Prop) w :
  wp i p Q w -> (forall a w', Q a w' -> Q' a w') -> wp i p Q' w.
Proof.
  revert w. induction p as [a|a k IH]; cbn; intros w Hp HQ; [auto|].
  intros w' m Hr Hn Hi. destruct (Hp w' m Hr Hn Hi) as (w'' & ? & ? & ? & Hk).
  exists w''. eauto 6.
Qed.

Lemma wp_bind {A B} i (p : prog A) (f : A -> prog B) (Q : B -> W -> Prop) w :
  wp i p (fun a => wp i (f a) Q) w -> wp i (pbind p f) Q w.
Proof.
  revert w. induction p as [a|a k IH]; cbn; intros w Hp; [done|].
  intros w' m Hr Hn Hi. destruct (Hp w' m Hr Hn Hi) as (w'' & ? & ? & ? & Hk).
  exists w''. eauto 6.
Qed.

End Logic.

(** ** Soundness *)

Section Refinement.
Context {call reply : Type} (body : call -> prog reply) (S : spec call reply).
Context {W : Type} (now : W -> Z) (inv : W -> mem -> Prop) (rely : nat -> W -> W -> Prop).
Context (abs : W -> state S) (idle : nat -> W -> Prop) (post : nat -> reply -> W -> Prop) (gap : Z).

(** The specification may take any number of steps with an action. *)
Definition steps (i : nat) (w w' : W) : Prop := rtc (internal S i) (abs w) (abs w').

Hypothesis rely_refl : forall i w, rely i w w.
Hypothesis rely_trans : forall i w1 w2 w3, rely i w1 w2 -> rely i w2 w3 -> rely i w1 w3.
Hypothesis idle_stable : forall i w w', idle i w -> rely i w w' -> idle i w'.

(** A thread that makes no call can make one, and the program of the call then
    ends in [post]; from there the call returns. *)
Hypothesis can_invoke : forall i c w m,
  inv w m -> idle i w ->
  exists w', inv w' m /\ now w' = now w /\ (forall j, j <> i -> rely j w w') /\
    invoked S i c (abs w) (abs w') /\ wp now inv rely steps gap i (body c) (post i) w'.

Hypothesis can_return : forall i r w0 w m,
  post i r w0 -> rely i w0 w -> inv w m ->
  exists s w', inv w' m /\ now w' = now w /\ (forall j, j <> i -> rely j w w') /\
    rtc (internal S i) (abs w) s /\ returned S i r s (abs w') /\ idle i w'.

Definition thread_ok (w : W) (i : nat) (t : thread call reply) : Prop :=
  match running t with
  | None => idle i w
  | Some p => exists w0, rely i w0 w /\ now w0 = last t /\
      wp now inv rely steps gap i p (post i) w0
  end.

Definition config_ok (s0 : state S) (c : config call reply) : Prop :=
  exists w, inv w (memory c) /\ now w = clock c /\
    history_of S s0 (history c) (abs w) /\
    forall i t, threads c !! i = Some t -> thread_ok w i t.

Lemma thread_ok_rely w w' i t : thread_ok w i t -> rely i w w' -> thread_ok w' i t.
Proof.
  unfold thread_ok. destruct (running t); [|eauto].
  intros (w0 & ? & ? & ?) ?. eauto.
Qed.

Lemma history_steps s h i s' s'' :
  history_of S s h s' -> rtc (internal S i) s' s'' -> history_of S s h s''.
Proof. intros H Hs. induction Hs; [done|]. eauto using history_internal. Qed.

(** The threads after a step of thread [i]. *)
Lemma threads_ok w w' i t' (ts : list (thread call reply)) :
  (forall j t, ts !! j = Some t -> thread_ok w j t) ->
  (forall j, j <> i -> rely j w w') -> thread_ok w' i t' ->
  forall j t, <[i := t']> ts !! j = Some t -> thread_ok w' j t.
Proof.
  intros Hts Hr Ht' j t Hj. destruct (decide (j = i)) as [->|Hne].
  - apply list_lookup_insert_Some in Hj. naive_solver.
  - rewrite list_lookup_insert_ne in Hj by done. eauto using thread_ok_rely.
Qed.

Lemma step_ok s0 i c c' :
  config_ok s0 c -> step body gap i c = Some c' -> config_ok s0 c'.
Proof.
  intros (w & Hi & Hn & Hh & Ht) Hs. unfold step in Hs.
  destruct (threads c !! i) as [t|] eqn:Et; [|done].
  pose proof (Ht i t Et) as Hti. unfold thread_ok in Hti.
  destruct (running t) as [[r|a k]|] eqn:Er.
  - injection Hs as <-. destruct Hti as (w0 & Hr & Hl & Hp). cbn in Hp.
    destruct (can_return i r w0 w _ Hp Hr Hi) as (s & w' & ? & Hn' & Hrj & Hst & Hret & Hid).
    exists w'. cbn. split_and!; [done|lia|eauto using history_return, history_steps|].
    eapply threads_ok; [exact Ht|done|done].
  - destruct (clock c <? last t + gap) eqn:El; [|done]. zbool.
    destruct Hti as (w0 & Hr & Hl & Hp). cbn in Hp.
    destruct (Hp w (memory c) Hr ltac:(lia) Hi) as (w' & Hi' & Hn' & [Habs Hrj] & Hk).
    destruct (perform a (memory c)) as [v m'] eqn:Ep. injection Hs as <-.
    exists w'. cbn in *. split_and!; [done|lia|eauto using history_steps|].
    eapply threads_ok; [exact Ht|done|]. exists w'. cbn. split_and!; [done|lia|done].
  - destruct (todo t) as [|f rest]; [done|]. injection Hs as <-.
    destruct (can_invoke i f w _ Hi Hti) as (w' & ? & Hn' & Hrj & Hinv & Hp).
    exists w'. cbn. split_and!; [done|lia|eauto using history_invoke|].
    eapply threads_ok; [exact Ht|done|]. exists w'. cbn. split_and!; [done|lia|done].
Qed.

Lemma machine_run_ok s0 schedule c c' :
  config_ok s0 c -> run body gap schedule c = Some c' -> config_ok s0 c'.
Proof.
  revert c. induction schedule as [|i rest IH]; cbn; intros c Hc Hr.
  - by injection Hr as <-.
  - destruct (step body gap i c) as [c1|] eqn:E; [|done]. eauto using step_ok.
Qed.

(** Every run from an initial memory is a run of the specification with the
    same history. *)
Lemma run_refines m clients w0 schedule c' :
  inv w0 m -> now w0 = 0 -> (forall i, idle i w0) ->
  run body gap schedule (start m clients) = Some c' ->
  exists w, inv w (memory c') /\ history_of S (abs w0) (history c') (abs w).
Proof.
  intros Hi Hn Hid Hr.
  destruct (machine_run_ok (abs w0) schedule (start m clients) c') as (w & ? & ? & ? & ?); [|done|eauto].
  exists w0. cbn. split_and!; [done..|constructor|].
  intros i t Hj. rewrite list_lookup_fmap in Hj.
  destruct (clients !! i); cbn in Hj; [|done]. injection Hj as <-. apply Hid.
Qed.

End Refinement.

(** ** Memory that others write at will

    A program is confined when all its accesses are to the memory it may
    access and it ends within [n] of them, whatever the values it reads. *)

Section Confined.
Context (inside : loc -> Prop) (typed : loc -> Z -> Prop).

Definition target (a : action) : loc :=
  match a with Load l | Store l _ | Cmp_set l _ _ | Fetch_add l _ => l end.

(** The values an action can yield. *)
Definition yields (a : action) (v : Z) : Prop :=
  match a with
  | Load l | Fetch_add l _ => typed l v
  | Store _ _ => v = 0
  | Cmp_set _ _ _ => v = 0 \/ v = 1
  end.

Fixpoint confined {A} (n : Z) (p : prog A) (Q : A -> Prop) : Prop :=
  match p with
  | Done a => 0 <= n /\ Q a
  | Act a k => inside (target a) /\ forall v, yields a v -> confined (n - 1) (k v) Q
  end.

Lemma confined_mono {A} (p : prog A) n n' (Q Q' : A -> Prop) :
  confined n p Q -> n <= n' -> (forall a, Q a -> Q' a) -> confined n' p Q'.
Proof.
  revert n n'. induction p as [a|a k IH]; cbn; intros n n' H Hn HQ.
  - destruct H. split; [lia|auto].
  - destruct H as [Hin H]. split; [done|]. intros v Hv. eapply IH; [eauto|lia|done].
Qed.

Lemma confined_bind {A B} (p : prog A) (f : A -> prog B) n n' Q :
  confined n p (fun a => confined n' (f a) Q) -> confined (n + n') (pbind p f) Q.
Proof.
  revert n. induction p as [a|a k IH]; cbn; intros n H.
  - destruct H as [Hn H]. eapply confined_mono; [exact H|lia|auto].
  - destruct H as [Hin H]. split; [done|]. intros v Hv.
    replace (n + n' - 1) with (n - 1 + n') by ring. auto.
Qed.

End Confined.

(** ** The calls in a history *)

Section Calls.
Context {call reply : Type} (body : call -> prog reply) (gap : Z).

(** The calls that thread [i] made. *)
Definition calls_of (i : nat) (h : list (event call reply)) : list call :=
  omap (fun e => match e with Invoke j c => if decide (j = i) then Some c else None | Return _ _ => None end) h.

Lemma calls_of_app i h h' : calls_of i (h ++ h') = calls_of i h ++ calls_of i h'.
Proof. apply omap_app. Qed.

Definition calls_ok (clients : list (list call)) (c : config call reply) : Prop :=
  forall i, from_option id [] (clients !! i) =
    calls_of i (history c) ++ from_option todo [] (threads c !! i).

(** Thread [i] makes the calls [new]. *)
Lemma calls_next i j (t t' : thread call reply) (ts : list (thread call reply)) h ext new :
  ts !! i = Some t -> todo t = new ++ todo t' ->
  calls_of j ext = (if decide (j = i) then new else []) ->
  calls_of j h ++ from_option todo [] (ts !! j) =
  calls_of j (h ++ ext) ++ from_option todo [] (<[i := t']> ts !! j).
Proof.
  intros Ht Hd He. rewrite calls_of_app, He, <- app_assoc. f_equal. case_decide as E.
  - subst j. rewrite list_lookup_insert_eq by (by eapply lookup_lt_Some). by rewrite Ht.
  - by rewrite list_lookup_insert_ne.
Qed.

Lemma step_calls clients i c c' :
  calls_ok clients c -> step body gap i c = Some c' -> calls_ok clients c'.
Proof.
  intros Hc Hs j. rewrite (Hc j). unfold step in Hs. clear Hc.
  destruct (threads c !! i) as [t|] eqn:Et; [|done].
  destruct (running t) as [[r|a k]|] eqn:Er.
  - injection Hs as <-. eapply (calls_next i j _ _ _ _ _ []); [done|done|by case_decide].
  - destruct (_ <? _); [|done]. destruct (perform a (memory c)) as [v m']. injection Hs as <-.
    cbn [history threads]. rewrite <- (app_nil_r (history c)) at 2.
    eapply (calls_next i j _ _ _ _ _ []); [done|done|by case_decide].
  - destruct (todo t) as [|f rest] eqn:Ed; [done|]. injection Hs as <-.
    eapply (calls_next i j _ _ _ _ _ [f]); [done|done|].
    cbn. destruct (decide (i = j)), (decide (j = i)); congruence || done.
Qed.

Lemma run_calls m clients schedule c' :
  run body gap schedule (start m clients) = Some c' -> calls_ok clients c'.
Proof.
  assert (H0 : calls_ok clients (start (reply := reply) m clients)).
  { intros i. cbn. rewrite list_lookup_fmap. by destruct (clients !! i). }
  revert H0. generalize (start (reply := reply) m clients) as c.
  induction schedule as [|i rest IH]; cbn; intros c Hc Hr.
  - by injection Hr as <-.
  - destruct (step body gap i c) as [c1|] eqn:E; [|done]. eauto using step_calls.
Qed.

End Calls.
