(* ===== verification/Nncq.v ===== *)
(** * The lock-free rings: nxt_nncq.h and nxt_app_nncq.h

    A ring hands numbers from enqueuers to dequeuers through an array of
    entries and two counters that any number of threads update by
    compare-and-set.  The two headers have the same code with other sizes and
    another count of cycles, the class [Ring]; the laws [RingLaws] are what
    their static assertions state.

    A ring is described by a [cursor]: how far its head and its tail are, how
    many entries were written, and the number in each, at positions that do
    not wrap.  [ring_rep] says how the 32-bit words in memory represent it.
    [wp_enqueue] and [wp_dequeue] are the specifications of the operations for
    any client: each has one point at which it takes effect, where the client's
    world changes, and it gives up only when others made progress meanwhile. *)

From stdpp Require Import relations.
From S2P Require Import Prelude Atomic.

#[local] Open Scope Z_scope.

(** ** Sizes *)

Class Ring := {
  ring_size : Z;
  ring_retries : nat;
  ring_next_cycle : Z -> Z
}.

(** The static assertions: the entries of all cycles fit the range of the
    index evenly, and the cycles count in their type. *)
Class RingLaws (R : Ring) := {
  ring_cycles : Z;
  ring_size_pos : 0 < ring_size;
  ring_cycles_min : 4 <= ring_cycles;
  ring_retries_pos : (0 < ring_retries)%nat;
  ring_range : (ring_size * ring_cycles | 2 ^ 32);
  ring_cycle_type : forall x, 0 <= x < 2 ^ 32 -> u16 (x / ring_size) = (x / ring_size) mod ring_cycles;
  ring_cycle_next : forall c, 0 <= c < ring_cycles -> ring_next_cycle c = (c + 1) mod ring_cycles
}.

(** ** The operations *)

Section Operations.
Context {R : Ring}.

Definition nxt_nncq_head (q : ring) : prog Z := act (Load (Head q)).

Definition nxt_nncq_tail (q : ring) : prog Z := act (Load (Tail q)).

Definition nxt_nncq_tail_cmp_inc (q : ring) (t : Z) : prog unit :=
  let@ _ := act (Cmp_set (Tail q) t (u32 (t + 1))) in
  Done tt.

Definition nxt_nncq_index (i : Z) : Z := i mod ring_size.

Definition nxt_nncq_map (i : Z) : Z := i mod ring_size.

Definition nxt_nncq_cycle (i : Z) : Z := u16 (i / ring_size).

Definition nxt_nncq_new_entry (cycle i : Z) : Z := u32 (cycle * ring_size + i mod ring_size).

Definition nxt_nncq_empty : Z := ring_size.

(** [nxt_memzero] of the entries from [j] on. *)
Fixpoint zero_entries (n : nat) (q : ring) (j : Z) : prog unit :=
  match n with
  | O => Done tt
  | S n => let@ _ := act (Store (Entry q j) 0) in zero_entries n q (j + 1)
  end.

Definition nxt_nncq_init (q : ring) : prog unit :=
  let@ _ := act (Store (Head q) ring_size) in
  let@ _ := zero_entries (Z.to_nat ring_size) q 0 in
  let@ _ := act (Store (Tail q) ring_size) in
  Done tt.

(** The loop of [nxt_nncq_enqueue_pos] with [r] tries left. *)
Fixpoint enqueue_tries (r : nat) (q : ring) (val : Z) : prog (option Z) :=
  match r with
  | O => Done None
  | S r =>
      let@ t := nxt_nncq_tail q in
      let j := nxt_nncq_map t in
      let@ e := act (Load (Entry q j)) in
      let e_cycle := nxt_nncq_cycle e in
      let t_cycle := nxt_nncq_cycle t in
      if e_cycle =? t_cycle then
        let@ _ := nxt_nncq_tail_cmp_inc q t in
        enqueue_tries r q val
      else if negb (ring_next_cycle e_cycle =? t_cycle) then
        enqueue_tries r q val
      else
        let n := nxt_nncq_new_entry t_cycle val in
        let@ ok := act (Cmp_set (Entry q j) e n) in
        if ok =? 1 then
          let@ _ := nxt_nncq_tail_cmp_inc q t in
          Done (Some t)
        else
          enqueue_tries r q val
  end.

(** [Some pos] for NXT_OK with the position in [*pos], [None] for NXT_ERROR. *)
Definition nxt_nncq_enqueue_pos (q : ring) (val : Z) : prog (option Z) :=
  enqueue_tries ring_retries q val.

Definition nxt_nncq_enqueue (q : ring) (val : Z) : prog (option Z) :=
  nxt_nncq_enqueue_pos q val.

(** The loop of [nxt_nncq_dequeue] with [r] tries left. *)
Fixpoint dequeue_tries (r : nat) (q : ring) : prog Z :=
  match r with
  | O => Done nxt_nncq_empty
  | S r =>
      let@ h := nxt_nncq_head q in
      let j := nxt_nncq_map h in
      let@ e := act (Load (Entry q j)) in
      let e_cycle := nxt_nncq_cycle e in
      let h_cycle := nxt_nncq_cycle h in
      if negb (e_cycle =? h_cycle) then
        if ring_next_cycle e_cycle =? h_cycle then
          Done nxt_nncq_empty
        else
          dequeue_tries r q
      else
        let@ ok := act (Cmp_set (Head q) h (u32 (h + 1))) in
        if ok =? 1 then
          Done (nxt_nncq_index e)
        else
          dequeue_tries r q
  end.

Definition nxt_nncq_dequeue (q : ring) : prog Z := dequeue_tries ring_retries q.

End Operations.

(** ** nxt_nncq.h *)

Abbreviation NXT_NNCQ_SIZE := 16384 (only parsing).

(** [nxt_nncq_cycle_t] is 16 bits wide and wraps by itself. *)
Definition nxt_nncq_next_cycle (i : Z) : Z := u16 (i + 1).

Definition nncq : Ring := {|
  ring_size := NXT_NNCQ_SIZE;
  ring_retries := Z.to_nat NXT_NNCQ_SIZE;
  ring_next_cycle := nxt_nncq_next_cycle
|}.

(** ** nxt_app_nncq.h *)

Abbreviation NXT_APP_NNCQ_SIZE := 131072 (only parsing).
Abbreviation NXT_APP_NNCQ_CYCLES := (u32 (-1) / NXT_APP_NNCQ_SIZE + 1) (only parsing).

Definition nxt_app_nncq_next_cycle (i : Z) : Z := u16 ((i + 1) mod NXT_APP_NNCQ_CYCLES).

Definition app_nncq : Ring := {|
  ring_size := NXT_APP_NNCQ_SIZE;
  ring_retries := Z.to_nat NXT_APP_NNCQ_SIZE;
  ring_next_cycle := nxt_app_nncq_next_cycle
|}.

Definition nxt_app_nncq_init : ring -> prog unit := nxt_nncq_init (R := app_nncq).

Definition nxt_app_nncq_enqueue_pos : ring -> Z -> prog (option Z) :=
  nxt_nncq_enqueue_pos (R := app_nncq).

Definition nxt_app_nncq_enqueue : ring -> Z -> prog (option Z) := nxt_app_nncq_enqueue_pos.

Definition nxt_app_nncq_dequeue : ring -> prog Z := nxt_nncq_dequeue (R := app_nncq).

(** ** Cursors *)

(** The positions of the head, of the tail and behind the last entry written,
    and the numbers at the positions. *)
Record cursor := Cursor {
  hpos : Z;
  tpos : Z;
  epos : Z;
  item : Z -> Z
}.

Section Cursors.
Context {R : Ring} {L : RingLaws R}.

(** The entry of position [p] with the number [v]. *)
Definition entry_of (p v : Z) : Z := (p / ring_size) mod ring_cycles * ring_size + v.

Record ring_rep (q : ring) (c : cursor) (m : mem) : Prop := {
  rep_head : m (Head q) = u32 (hpos c);
  rep_tail : m (Tail q) = u32 (tpos c);
  rep_entry : forall p, epos c - ring_size <= p < epos c ->
    m (Entry q (p mod ring_size)) = entry_of p (item c p) /\ 0 <= item c p < ring_size;
  rep_bounds : hpos c <= epos c <= hpos c + ring_size;
  rep_tail_bounds : tpos c <= epos c <= tpos c + 1
}.

(** What the operations do to a cursor. *)
Definition settle (c : cursor) : cursor := Cursor (hpos c) (tpos c + 1) (epos c) (item c).

Definition put (v : Z) (c : cursor) : cursor :=
  Cursor (hpos c) (tpos c) (epos c + 1) (fun p => if p =? epos c then v else item c p).

Definition get (c : cursor) : cursor := Cursor (hpos c + 1) (tpos c) (epos c) (item c).

Record cursor_le (c c' : cursor) : Prop := {
  le_hpos : hpos c <= hpos c';
  le_tpos : tpos c <= tpos c';
  le_epos : epos c <= epos c';
  le_item : forall p, p < epos c -> item c' p = item c p
}.

(** The updates of a ring so far. *)
Definition updates (c : cursor) : Z := hpos c + tpos c + epos c.

End Cursors.

(** ** Lemmas on positions *)

Section Positions.
Context {R : Ring} {L : RingLaws R}.

Lemma ring_total : 0 < ring_size * ring_cycles <= 2 ^ 32.
Proof.
  pose proof ring_size_pos. pose proof ring_cycles_min.
  split; [nia|]. apply Z.divide_pos_le; [done|]. apply ring_range.
Qed.

Lemma map_pos p : nxt_nncq_map (u32 p) = p mod ring_size.
Proof.
  unfold nxt_nncq_map, u32. pose proof ring_size_pos.
  destruct ring_range as [k Hk]. symmetry.
  rewrite (Z.div_mod p (2 ^ 32)) at 1 by done.
  rewrite Hk at 1.
  replace (k * (ring_size * ring_cycles) * (p / 2 ^ 32) + p mod 2 ^ 32)
    with (p mod 2 ^ 32 + (k * ring_cycles * (p / 2 ^ 32)) * ring_size) by ring.
  apply Z_mod_plus_full.
Qed.

Lemma cycle_pos p : nxt_nncq_cycle (u32 p) = (p / ring_size) mod ring_cycles.
Proof.
  unfold nxt_nncq_cycle, u32. pose proof ring_size_pos. pose proof ring_cycles_min.
  rewrite ring_cycle_type by (apply Z.mod_pos_bound; done).
  destruct ring_range as [k Hk]. symmetry.
  rewrite (Z.div_mod p (2 ^ 32)) at 1 by done.
  rewrite Hk at 1.
  replace (k * (ring_size * ring_cycles) * (p / 2 ^ 32) + p mod 2 ^ 32)
    with (p mod 2 ^ 32 + (k * (p / 2 ^ 32) * ring_cycles) * ring_size) by ring.
  rewrite Z.div_add by lia. apply Z_mod_plus_full.
Qed.

Lemma cycle_range p : 0 <= (p / ring_size) mod ring_cycles < ring_cycles.
Proof. apply Z.mod_pos_bound. pose proof ring_cycles_min. lia. Qed.

Lemma entry_of_range p v : 0 <= v < ring_size -> 0 <= entry_of p v < 2 ^ 32.
Proof.
  intros Hv. unfold entry_of. pose proof (cycle_range p). pose proof ring_total. nia.
Qed.

Lemma cycle_entry p v :
  0 <= v < ring_size -> nxt_nncq_cycle (entry_of p v) = (p / ring_size) mod ring_cycles.
Proof.
  intros Hv. unfold nxt_nncq_cycle. rewrite ring_cycle_type by (by apply entry_of_range).
  unfold entry_of. rewrite Z.div_add_l by lia.
  rewrite (Z.div_small v) by done. rewrite Z.add_0_r.
  pose proof ring_cycles_min. apply Zmod_mod.
Qed.

Lemma new_entry_pos p v :
  0 <= v < ring_size ->
  nxt_nncq_new_entry ((p / ring_size) mod ring_cycles) v = entry_of p v.
Proof.
  intros Hv. unfold nxt_nncq_new_entry. rewrite (Z.mod_small v) by done.
  unfold u32. apply Z.mod_small. by apply entry_of_range.
Qed.

Lemma index_entry p v : 0 <= v < ring_size -> nxt_nncq_index (entry_of p v) = v.
Proof.
  intros Hv. unfold nxt_nncq_index, entry_of. rewrite Z.add_comm, Z_mod_plus_full.
  by apply Z.mod_small.
Qed.

(** The position [k] laps after the one a lap before [t]. *)
Definition lap (t k : Z) : Z := t - ring_size + k * ring_size.

Lemma lap_mod t k : lap t k mod ring_size = t mod ring_size.
Proof.
  unfold lap. replace (t - ring_size + k * ring_size) with (t + (k - 1) * ring_size) by ring.
  apply Z_mod_plus_full.
Qed.

Lemma lap_cycle t k : (lap t k / ring_size) mod ring_cycles = (t / ring_size + (k - 1)) mod ring_cycles.
Proof.
  unfold lap. replace (t - ring_size + k * ring_size) with (t + (k - 1) * ring_size) by ring.
  rewrite Z.div_add; [done|]. pose proof ring_size_pos. lia.
Qed.

(** Cycles that are less than a full range apart. *)
Lemma cycle_eq x d n : - n < d < n -> ((x + d) mod n =? x mod n) = (d =? 0).
Proof.
  intros Hd. apply Bool.eq_iff_eq_true. rewrite !Z.eqb_eq. split; [|intros ->; by rewrite Z.add_0_r].
  intros H. pose proof (Z.div_mod (x + d) n ltac:(lia)). pose proof (Z.div_mod x n ltac:(lia)).
  assert (n * ((x + d) / n - x / n) = d) by lia.
  assert ((x + d) / n - x / n = 0) by nia. nia.
Qed.

Lemma lap_cycle_eq t k :
  0 <= k < ring_cycles ->
  ((lap t k / ring_size) mod ring_cycles =? (t / ring_size) mod ring_cycles) = (k =? 1).
Proof.
  intros Hk. rewrite lap_cycle, cycle_eq by (pose proof ring_cycles_min; lia).
  apply Bool.eq_iff_eq_true. rewrite !Z.eqb_eq. lia.
Qed.

Lemma lap_cycle_next t k :
  0 <= k < ring_cycles ->
  (ring_next_cycle ((lap t k / ring_size) mod ring_cycles) =? (t / ring_size) mod ring_cycles)
  = (k =? 0).
Proof.
  intros Hk. rewrite ring_cycle_next by apply cycle_range.
  rewrite lap_cycle, Zplus_mod_idemp_l.
  replace (t / ring_size + (k - 1) + 1) with (t / ring_size + k) by ring.
  apply cycle_eq. lia.
Qed.

(** The entry that [t] falls on holds the last position written there. *)
Lemma entry_at q c m t :
  ring_rep q c m -> t <= epos c ->
  exists k, 0 <= k /\ lap t k < epos c <= lap t k + ring_size /\
    m (Entry q (t mod ring_size)) = entry_of (lap t k) (item c (lap t k)) /\
    0 <= item c (lap t k) < ring_size.
Proof.
  intros [_ _ He _ _] Ht. pose proof ring_size_pos.
  set (d := epos c - 1 - (t - ring_size)). exists (d / ring_size).
  assert (Hz : ring_size <> 0) by lia. pose proof (Z.div_mod d ring_size Hz).
  pose proof (Z.mod_pos_bound d _ ring_size_pos).
  split; [apply Z.div_pos; lia|]. split; [unfold lap; lia|].
  specialize (He (lap t (d / ring_size))). rewrite lap_mod in He. apply He. unfold lap. lia.
Qed.

(** Counters that are less than their range apart. *)
Lemma u32_eq a b : - 2 ^ 32 < a - b < 2 ^ 32 -> (u32 a =? u32 b) = (a =? b).
Proof.
  intros H. unfold u32. replace a with (b + (a - b)) at 1 by ring.
  rewrite cycle_eq by done. apply Bool.eq_iff_eq_true. rewrite !Z.eqb_eq. lia.
Qed.

Lemma u32_succ a : u32 (u32 a + 1) = u32 (a + 1).
Proof. unfold u32. apply Zplus_mod_idemp_l. Qed.

Lemma cursor_le_refl c : cursor_le c c.
Proof. split; done || lia. Qed.

Lemma cursor_le_trans c1 c2 c3 : cursor_le c1 c2 -> cursor_le c2 c3 -> cursor_le c1 c3.
Proof.
  intros [? ? ? H12] [? ? ? H23]. split; try lia. intros p Hp.
  rewrite H23 by lia. by apply H12.
Qed.

Lemma settle_le c : cursor_le c (settle c).
Proof. split; cbn; done || lia. Qed.

Lemma get_le c : cursor_le c (get c).
Proof. split; cbn; done || lia. Qed.

Lemma put_le v c : cursor_le c (put v c).
Proof. split; cbn; try lia. intros p Hp. by rewrite (proj2 (Z.eqb_neq p (epos c))) by lia. Qed.

(** Other words do not matter to a ring. *)
Definition ring_loc (q : ring) (l : loc) : Prop :=
  match l with Head q' | Tail q' | Entry q' _ => q' = q | _ => False end.

Lemma rep_other q c m l v :
  ring_rep q c m -> ~ ring_loc q l -> ring_rep q c (upd m l v).
Proof.
  intros [Hh Ht He Hb Htb] Hl. unfold upd. split; [..|done|done].
  - case_decide as E; [|done]. subst l. by destruct Hl.
  - case_decide as E; [|done]. subst l. by destruct Hl.
  - intros p Hp. case_decide as E; [subst l; by destruct Hl|]. by apply He.
Qed.

Lemma settle_rep q c m :
  ring_rep q c m -> tpos c < epos c ->
  ring_rep q (settle c) (upd m (Tail q) (u32 (tpos c + 1))).
Proof.
  intros [Hh Ht He Hb Htb] Hlt. unfold upd. split; cbn; try (rewrite decide_False by done); try done.
  - by rewrite decide_True.
  - lia.
Qed.

Lemma get_rep q c m :
  ring_rep q c m -> hpos c < epos c ->
  ring_rep q (get c) (upd m (Head q) (u32 (hpos c + 1))).
Proof.
  intros [Hh Ht He Hb Htb] Hlt. unfold upd. split; cbn; try (rewrite decide_False by done); try done.
  - by rewrite decide_True.
  - lia.
Qed.

(** Two positions of one lap on the same entry are the same. *)
Lemma same_entry p p' :
  - ring_size < p - p' < ring_size -> p mod ring_size = p' mod ring_size -> p = p'.
Proof.
  intros Hd Hm. pose proof (cycle_eq p' (p - p') ring_size Hd) as H.
  replace (p' + (p - p')) with p in H by ring. rewrite Hm, Z.eqb_refl in H.
  symmetry in H. apply Z.eqb_eq in H. lia.
Qed.

Lemma put_rep q c m v :
  ring_rep q c m -> tpos c = epos c -> epos c < hpos c + ring_size -> 0 <= v < ring_size ->
  ring_rep q (put v c) (upd m (Entry q (epos c mod ring_size)) (entry_of (epos c) v)).
Proof.
  intros [Hh Ht He Hb Htb] Heq Hlt Hv. unfold upd.
  split; cbn; try (rewrite decide_False by done); try done; try lia.
  intros p Hp. destruct (p =? epos c) eqn:E.
  - apply Z.eqb_eq in E. subst p. by rewrite decide_True.
  - apply Z.eqb_neq in E. rewrite decide_False; [apply He; lia|].
    intros [=Hm]. apply E, same_entry; [lia|done].
Qed.

Lemma lap_bound t k e :
  lap t k < e -> e <= t + ring_size * (ring_cycles - 2) -> k < ring_cycles.
Proof.
  unfold lap. intros H He. pose proof ring_size_pos as Hs.
  apply (proj2 (Z.mul_lt_mono_pos_r ring_size k ring_cycles Hs)). lia.
Qed.

Lemma lap_ge t k j : j <= k -> t - ring_size + j * ring_size <= lap t k.
Proof.
  intros H. unfold lap. pose proof (Z.mul_le_mono_nonneg_r j k ring_size) as Hm.
  pose proof ring_size_pos. lia.
Qed.

(** The entry changes when its position is written again. *)
Lemma entry_lap_eq t k k' v v' :
  - ring_cycles < k - k' < ring_cycles -> 0 <= v < ring_size -> 0 <= v' < ring_size ->
  entry_of (lap t k) v = entry_of (lap t k') v' -> k = k'.
Proof.
  intros Hk Hv Hv' H. apply (f_equal nxt_nncq_cycle) in H. rewrite !cycle_entry, !lap_cycle in H by done.
  replace (t / ring_size + (k - 1)) with (t / ring_size + (k' - 1) + (k - k')) in H by ring.
  apply Z.eqb_eq in H. rewrite cycle_eq in H by done. apply Z.eqb_eq in H. lia.
Qed.

End Positions.

(** ** The operations in a larger world

    A client keeps a ring in its worlds when they describe the ring's words and
    time covers its updates, when the others only move the ring forward, and
    when anybody may advance a tail that lags behind. *)

Section Client.
Context {R : Ring} {L : RingLaws R}.
Context {W : Type} (now : W -> Z) (inv : W -> mem -> Prop) (rely : nat -> W -> W -> Prop)
  (abstract : nat -> W -> W -> Prop) (gap : Z).

Class RingHost (i : nat) (q : ring) (cur : W -> cursor) : Prop := {
  host_gap : 0 < gap /\ 3 * gap <= ring_size * (ring_cycles - 2);
  host_rep : forall w m, inv w m -> ring_rep q (cur w) m;
  host_le : forall w w', rely i w w' -> cursor_le (cur w) (cur w');
  host_time : forall w w', rely i w w' -> updates (cur w') - updates (cur w) <= now w' - now w;
  host_refl : forall w, rely i w w;
  host_trans : forall w1 w2 w3, rely i w1 w2 -> rely i w2 w3 -> rely i w1 w3;
  host_keep : forall w, guarantee rely abstract i w w;
  host_settle : forall w m, inv w m -> tpos (cur w) < epos (cur w) ->
    exists w', inv w' (upd m (Tail q) (u32 (tpos (cur w) + 1))) /\ now w' = now w + 1 /\
      guarantee rely abstract i w w' /\ rely i w w' /\ cur w' = settle (cur w)
}.

Context (i : nat) (q : ring) (cur : W -> cursor) {Hhost : RingHost i q cur}.

Notation wpi := (wp now inv rely abstract gap i).

(** The ring and time between two worlds of a thread. *)
Lemma host_moves w w' :
  rely i w w' ->
  hpos (cur w) <= hpos (cur w') /\ tpos (cur w) <= tpos (cur w') /\ epos (cur w) <= epos (cur w') /\
  (hpos (cur w') - hpos (cur w)) + (tpos (cur w') - tpos (cur w)) + (epos (cur w') - epos (cur w))
  <= now w' - now w.
Proof.
  intros H. pose proof (host_le _ _ H) as []. pose proof (host_time _ _ H) as Ht.
  unfold updates in Ht. lia.
Qed.

Lemma gap_range :
  0 < gap /\ 3 * gap + ring_size < 2 ^ 32 /\ 3 * gap <= ring_size * (ring_cycles - 2) /\
  gap + ring_size <= ring_size * (ring_cycles - 2).
Proof.
  pose proof host_gap. pose proof ring_total. pose proof ring_size_pos. pose proof ring_cycles_min.
  assert (ring_size * 2 <= ring_size * (ring_cycles - 2)) by (apply Z.mul_le_mono_nonneg_l; lia). lia.
Qed.

(** A load needs no change of the world. *)
Lemma wp_load {A} l (k : Z -> prog A) Q w :
  (forall w' m, rely i w w' -> now w' < now w + gap -> inv w' m -> wpi (k (m l)) Q w') ->
  wpi (Act (Load l) k) Q w.
Proof.
  intros H w' m Hr Hn Hi. exists w'. cbn. split_and!; [done|lia|apply host_keep|eauto].
Qed.

(** The tail is advanced past a position that was written. *)
Lemma wp_tail_cmp_inc t w Q :
  t <= tpos (cur w) <= t + 2 * gap + 1 -> t < epos (cur w) ->
  (forall w', rely i w w' -> (exists m, inv w' m) -> t < tpos (cur w') -> Q tt w') ->
  wpi (nxt_nncq_tail_cmp_inc q (u32 t)) Q w.
Proof.
  intros Ht He HQ w1 m1 Hr Hn Hi. pose proof (host_moves _ _ Hr). pose proof gap_range.
  pose proof (host_rep _ _ Hi) as Hrep. pose proof ring_size_pos.
  unfold perform. rewrite (rep_tail _ _ _ Hrep), u32_eq by lia.
  destruct (tpos (cur w1) =? t) eqn:E; cbn.
  - apply Z.eqb_eq in E. assert (Hlag : tpos (cur w1) < epos (cur w1)) by lia.
    destruct (host_settle w1 m1 Hi Hlag) as (w2 & Hi2 & Hn2 & Hg & Hr2 & Hc).
    exists w2. rewrite u32_succ. rewrite E in Hi2. split_and!; [done|done|done|].
    apply HQ; [eapply host_trans; eauto|eauto|]. rewrite Hc. cbn. lia.
  - apply Z.eqb_neq in E. exists w1. split_and!; [done|lia|apply host_keep|]. apply HQ; [done|eauto|lia].
Qed.

Section Enqueue.
Context (v : Z) (Q : option Z -> W -> Prop) (w0 : W).

(** Where the number enters the ring. *)
Hypothesis commit : forall w m, rely i w0 w -> inv w m -> tpos (cur w) = epos (cur w) ->
  exists w', inv w' (upd m (Entry q (epos (cur w) mod ring_size)) (entry_of (epos (cur w)) v)) /\
    now w' = now w + 1 /\ guarantee rely abstract i w w' /\ cur w' = put v (cur w) /\
    forall w'', rely i w' w'' -> Q (Some (u32 (epos (cur w)))) w''.

(** Every try that failed saw the ring move. *)
Hypothesis overtaken : forall w, rely i w0 w -> (exists m, inv w m) ->
  Z.of_nat ring_retries <= 2 * (epos (cur w) - epos (cur w0)) + 1 -> Q None w.

Hypothesis v_range : 0 <= v < ring_size.

Definition moved (w : W) : Z := tpos (cur w) + epos (cur w) - (tpos (cur w0) + epos (cur w0)).

(** The third access of a try: position [t] was not written when its entry was
    read. *)
Lemma wp_enqueue_entry t w e rest :
  rely i w0 w -> tpos (cur w) = t -> epos (cur w) = t ->
  e = entry_of (lap t 0) (item (cur w) (lap t 0)) -> 0 <= item (cur w) (lap t 0) < ring_size ->
  (forall w', rely i w w' -> (exists m, inv w' m) -> t < epos (cur w') -> wpi rest Q w') ->
  wpi (let@ ok := act (Cmp_set (Entry q (t mod ring_size)) e (entry_of t v)) in
       if ok =? 1 then let@ _ := nxt_nncq_tail_cmp_inc q (u32 t) in Done (Some (u32 t))
       else rest) Q w.
Proof.
  intros Hw Ht He -> Hval Hrest w1 m1 Hr Hn Hi.
  pose proof (host_rep _ _ Hi) as Hrep. pose proof (host_moves _ _ Hr). pose proof (rep_tail_bounds _ _ _ Hrep).
  pose proof gap_range. pose proof ring_size_pos.
  destruct (entry_at q (cur w1) m1 t Hrep) as (k & Hk & Hlap & Hent & Hval'); [lia|].
  unfold perform. rewrite Hent.
  assert (Hkc : k < ring_cycles) by (apply (lap_bound t k (epos (cur w1))); lia).
  destruct (_ =? _) eqn:E; [|apply Z.eqb_neq in E]; cbn -[wp nxt_nncq_tail_cmp_inc].
  - apply Z.eqb_eq, entry_lap_eq in E as ->; [|lia|done|done].
    assert (Het : epos (cur w1) = t) by (unfold lap in Hlap; lia).
    destruct (commit w1 m1) as (w2 & Hi2 & Hn2 & Hg & Hc & HQ); [by eapply host_trans|done|lia|].
    rewrite Het in Hi2, HQ. exists w2. split_and!; [done..|].
    apply wp_bind, wp_tail_cmp_inc; rewrite ?Hc; cbn; [lia..|eauto].
  - exists w1. split_and!; [done|lia|apply host_keep|]. apply Hrest; [done|eauto|].
    assert (k <> 0); [intros ->|pose proof (lap_ge t k 1 ltac:(lia)); lia]. apply E. f_equal. apply (le_item _ _ (host_le _ _ Hr)). unfold lap. lia.
Qed.

Lemma wp_enqueue_tries r w m0 :
  inv w0 m0 -> rely i w0 w -> (exists m, inv w m) ->
  Z.of_nat ring_retries <= moved w + Z.of_nat r ->
  wpi (enqueue_tries r q v) Q w.
Proof.
  intros Hi0. revert w. induction r as [|r IH]; intros w Hw [m Hi] Hr; unfold moved in *.
  { cbn. apply overtaken; [done|eauto|].
    pose proof (rep_tail_bounds _ _ _ (host_rep _ _ Hi)).
    pose proof (rep_tail_bounds _ _ _ (host_rep _ _ Hi0)). lia. }
  cbn -[wp nxt_nncq_tail_cmp_inc]. apply wp_load. intros w1 m1 Hr1 Hn1 Hi1.
  pose proof (host_rep _ _ Hi1) as Hrep1. rewrite (rep_tail _ _ _ Hrep1), map_pos, cycle_pos.
  set (t := tpos (cur w1)). apply wp_load. intros w2 m2 Hr2 Hn2 Hi2.
  pose proof (host_rep _ _ Hi2) as Hrep2. pose proof (host_moves _ _ Hr1). pose proof (host_moves _ _ Hr2).
  pose proof (rep_tail_bounds _ _ _ Hrep1) as Ht1. pose proof (rep_tail_bounds _ _ _ Hrep2) as Ht2.
  pose proof gap_range. pose proof ring_size_pos.
  destruct (entry_at q (cur w2) m2 t Hrep2) as (k & Hk & Hlap & Hent & Hval); [lia|].
  rewrite Hent, cycle_entry by done.
  assert (Hkc : 0 <= k < ring_cycles) by (split; [done|apply (lap_bound t k (epos (cur w2))); lia]).
  rewrite lap_cycle_eq, lap_cycle_next by done.
  destruct (k =? 1) eqn:E1; [|destruct (k =? 0) eqn:E0; cbn -[wp nxt_nncq_tail_cmp_inc]].
  - apply Z.eqb_eq in E1. subst k. unfold lap in Hlap. apply wp_bind, wp_tail_cmp_inc; [lia..|].
    intros w3 Hr3 Hi3 Ht3. pose proof (host_moves _ _ Hr3). apply IH; [eauto using host_trans|done|lia].
  - apply Z.eqb_eq in E0. subst k. rewrite new_entry_pos by done.
    unfold lap in Hlap. apply wp_enqueue_entry; [eauto using host_trans|lia|lia|done|done|].
    intros w3 Hr3 Hi3 Ht3. pose proof (host_moves _ _ Hr3). apply IH; [eauto using host_trans|done|lia].
  - apply Z.eqb_neq in E0, E1. apply IH; [eauto using host_trans|eauto|].
    pose proof (lap_ge t k 2 ltac:(lia)). lia.
Qed.

Lemma wp_enqueue m0 : inv w0 m0 -> wpi (nxt_nncq_enqueue_pos q v) Q w0.
Proof.
  intros Hi. eapply wp_enqueue_tries; [done|apply host_refl|eauto|]. unfold moved. lia.
Qed.

End Enqueue.

Section Dequeue.
Context (Q : Z -> W -> Prop) (w0 : W).

(** Where a number leaves the ring, and where the ring is seen empty. *)
Hypothesis commit : forall w m, rely i w0 w -> inv w m -> hpos (cur w) < epos (cur w) ->
  exists w', inv w' (upd m (Head q) (u32 (hpos (cur w) + 1))) /\
    now w' = now w + 1 /\ guarantee rely abstract i w w' /\ Q (item (cur w) (hpos (cur w))) w'.

Hypothesis nothing : forall w m, rely i w0 w -> inv w m -> hpos (cur w) = epos (cur w) ->
  exists w', inv w' m /\ now w' = now w /\ guarantee rely abstract i w w' /\ Q ring_size w'.

Hypothesis overtaken : forall w, rely i w0 w ->
  Z.of_nat ring_retries <= hpos (cur w) - hpos (cur w0) -> Q ring_size w.

Lemma wp_dequeue_head h w v rest :
  rely i w0 w -> h <= hpos (cur w) <= h + gap -> h < epos (cur w) -> v = item (cur w) h ->
  (forall w', rely i w w' -> h < hpos (cur w') -> wpi rest Q w') ->
  wpi (let@ ok := act (Cmp_set (Head q) (u32 h) (u32 (u32 h + 1))) in
       if ok =? 1 then Done v else rest) Q w.
Proof.
  intros Hw Hh He -> Hrest w1 m1 Hr Hn Hi.
  pose proof (host_rep _ _ Hi) as Hrep. pose proof (host_moves _ _ Hr). pose proof gap_range.
  pose proof ring_size_pos.
  unfold perform. rewrite (rep_head _ _ _ Hrep), u32_succ, u32_eq by lia.
  destruct (_ =? _) eqn:E; [apply Z.eqb_eq in E|apply Z.eqb_neq in E]; cbn -[wp].
  - destruct (commit w1 m1) as (w2 & Hi2 & Hn2 & Hg & HQ); [by eapply host_trans|done|lia|].
    rewrite E in Hi2, HQ. exists w2. split_and!; [done..|].
    cbn. rewrite <- (le_item _ _ (host_le _ _ Hr)); done.
  - exists w1. split_and!; [done|lia|apply host_keep|]. apply Hrest; [done|lia].
Qed.

Lemma wp_dequeue_tries r w :
  rely i w0 w -> Z.of_nat ring_retries <= hpos (cur w) - hpos (cur w0) + Z.of_nat r ->
  wpi (dequeue_tries r q) Q w.
Proof.
  revert w. induction r as [|r IH]; intros w Hw Hr.
  { apply overtaken; [done|lia]. }
  cbn -[wp]. apply wp_load. intros w1 m1 Hr1 Hn1 Hi1.
  pose proof (host_rep _ _ Hi1) as Hrep1. rewrite (rep_head _ _ _ Hrep1), map_pos, cycle_pos.
  set (h := hpos (cur w1)). intros w2 m2 Hr2 Hn2 Hi2.
  pose proof (host_rep _ _ Hi2) as Hrep2. pose proof (host_moves _ _ Hr1). pose proof (host_moves _ _ Hr2).
  pose proof (rep_bounds _ _ _ Hrep1) as Hb1. pose proof (rep_bounds _ _ _ Hrep2) as Hb2.
  pose proof gap_range. pose proof ring_size_pos.
  destruct (entry_at q (cur w2) m2 h Hrep2) as (k & Hk & Hlap & Hent & Hval); [lia|].
  cbn -[wp]. rewrite Hent, cycle_entry, index_entry by done.
  assert (Hkc : 0 <= k < ring_cycles) by (split; [done|apply (lap_bound h k (epos (cur w2))); lia]).
  rewrite lap_cycle_eq, lap_cycle_next by done.
  destruct (k =? 1) eqn:E1; [|destruct (k =? 0) eqn:E0]; cbn -[wp].
  - apply Z.eqb_eq in E1. subst k. exists w2. split_and!; [done|lia|apply host_keep|].
    replace (lap h 1) with h in * by (unfold lap; ring).
    apply wp_dequeue_head; [eauto using host_trans|lia|lia|done|].
    intros w3 Hr3 Hh3. pose proof (host_moves _ _ Hr3). apply IH; [eauto using host_trans|lia].
  - apply Z.eqb_eq in E0. subst k. unfold lap in Hlap.
    destruct (nothing w2 m2) as (w3 & ? & ? & ? & ?); [eauto using host_trans|done|lia|].
    exists w3. split_and!; [done|lia|done|done].
  - apply Z.eqb_neq in E0, E1. exists w2. split_and!; [done|lia|apply host_keep|].
    apply IH; [eauto using host_trans|]. pose proof (lap_ge h k 2 ltac:(lia)). lia.
Qed.

Lemma wp_dequeue : wpi (nxt_nncq_dequeue q) Q w0.
Proof. apply wp_dequeue_tries; [apply host_refl|lia]. Qed.

End Dequeue.

End Client.

(** ** The laws of the two sizes *)

#[global] Program Instance nncq_laws : RingLaws nncq := {| ring_cycles := 65536 |}.
Next Obligation. done. Qed.
Next Obligation. done. Qed.
Next Obligation. cbn [ring_retries nncq]. lia. Qed.
Next Obligation. by exists 4. Qed.
Next Obligation. done. Qed.
Next Obligation. done. Qed.

#[global] Program Instance app_nncq_laws : RingLaws app_nncq := {| ring_cycles := 32768 |}.
Next Obligation. done. Qed.
Next Obligation. done. Qed.
Next Obligation. cbn [ring_retries app_nncq]. lia. Qed.
Next Obligation. by exists 1. Qed.
Next Obligation. intros x Hx. cbn. unfold u16. rewrite !Z.mod_small; dlia. Qed.
Next Obligation.
  intros c Hc. cbn. unfold nxt_app_nncq_next_cycle, u16. cbn.
  pose proof (Z.mod_pos_bound (c + 1) 32768 ltac:(lia)). apply Z.mod_small. lia.
Qed.

(** ** Slots

    A queue numbers its slots and keeps the number of each slot in one place:
    in one of its rings or with a thread. *)

Inductive owner :=
| In_free (p : Z)
| In_queue (p : Z)
| Held (i : nat).

Definition assign (place : Z -> owner) (s : Z) (o : owner) : Z -> owner :=
  fun s' => if decide (s' = s) then o else place s'.

(** The numbers in the ring are at their positions. *)
Definition lists (c : cursor) (tag : Z -> owner) (place : Z -> owner) : Prop :=
  forall p, hpos c <= p < epos c -> place (item c p) = tag p.

Lemma lists_get c tag place o :
  (forall p p', tag p = tag p' -> p = p') -> hpos c < epos c -> lists c tag place ->
  lists (get c) tag (assign place (item c (hpos c)) o).
Proof.
  intros Hinj Hlt H p Hp. cbn in *. unfold assign. case_decide as E; [|apply H; lia].
  pose proof (H p ltac:(lia)) as H1. pose proof (H (hpos c) ltac:(lia)) as H2.
  rewrite E, H2 in H1. apply Hinj in H1. lia.
Qed.

Lemma lists_other c tag place s o :
  (forall p, place s <> tag p) -> lists c tag place -> lists c tag (assign place s o).
Proof.
  intros Hs H p Hp. unfold assign. case_decide as E; [|by apply H].
  destruct (Hs p). rewrite <- E. by apply H.
Qed.

Lemma lists_put c tag place s :
  (forall p, place s <> tag p) -> lists c tag place ->
  lists (put s c) tag (assign place s (tag (epos c))).
Proof.
  intros Hs H p Hp. cbn in *. destruct (p =? epos c) eqn:E.
  - apply Z.eqb_eq in E. subst p. unfold assign. by rewrite decide_True.
  - apply Z.eqb_neq in E. apply lists_other; [done|done|lia].
Qed.

Section Capacity.
Context {R : Ring} {L : RingLaws R}.

(** A ring has room for the number of a slot that it does not list. *)
Lemma ring_room q c m tag place s :
  (forall p p', tag p = tag p' -> p = p') -> (forall p, place s <> tag p) ->
  ring_rep q c m -> lists c tag place -> 0 <= s < ring_size ->
  epos c < hpos c + ring_size.
Proof.
  intros Hinj Hs Hrep Hl Hrange. pose proof (rep_bounds _ _ _ Hrep) as Hb.
  pose proof ring_size_pos.
  set (l := map (item c) (seqZ (hpos c) (epos c - hpos c))).
  assert (Hnd : List.NoDup (s :: l)).
  { apply NoDup_ListNoDup. constructor.
    - intros Hin. apply list_elem_of_fmap in Hin as (p & Hp & Hin). apply elem_of_seqZ in Hin.
      apply (Hs p). rewrite Hp. apply Hl. lia.
    - apply NoDup_fmap_2_strong; [|apply NoDup_seqZ].
      intros p p' Hp Hp' Heq. apply elem_of_seqZ in Hp, Hp'. apply Hinj.
      rewrite <- (Hl p), <- (Hl p') by lia. by f_equal. }
  assert (Hincl : incl (s :: l) (seqZ 0 ring_size)).
  { intros x [->|Hin]; apply list_elem_of_In, elem_of_seqZ; [lia|].
    apply list_elem_of_In, list_elem_of_fmap in Hin as (p & -> & Hin). apply elem_of_seqZ in Hin.
    destruct (rep_entry _ _ _ Hrep p); lia. }
  pose proof (NoDup_incl_length Hnd Hincl) as Hlen. cbn in Hlen.
  unfold l in Hlen. rewrite length_fmap, !length_seqZ in Hlen. lia.
Qed.

End Capacity.

(** ** Initialization *)

Section Init.
Context {R : Ring} {L : RingLaws R}.

(** The loop that puts the slots from [i] on into the free ring. *)
Fixpoint free_slots (n : nat) (i : Z) : prog unit :=
  match n with
  | O => Done tt
  | S n => let@ _ := nxt_nncq_enqueue Free_items i in free_slots n (i + 1)
  end.

(** The rings when [n] slots are in the free ring. *)
Record rings_ready (n : Z) (m : mem) : Prop := {
  ready_head q : m (Head q) = ring_size;
  ready_free_tail : m (Tail Free_items) = ring_size + n;
  ready_free_entry j : 0 <= j < n -> m (Entry Free_items j) = ring_size + j;
  ready_free_zero j : n <= j < ring_size -> m (Entry Free_items j) = 0;
  ready_queue_tail : m (Tail Queue) = ring_size;
  ready_queue_entry j : 0 <= j < ring_size -> m (Entry Queue j) = 0
}.

Definition free_cursor : cursor :=
  Cursor ring_size (2 * ring_size) (2 * ring_size) (fun p => p - ring_size).

Definition queue_cursor : cursor := Cursor ring_size ring_size ring_size (fun _ => 0).

Lemma size_range : 0 < ring_size /\ 2 * ring_size < 2 ^ 32.
Proof.
  pose proof ring_total. pose proof ring_cycles_min. pose proof ring_size_pos.
  assert (ring_size * 4 <= ring_size * ring_cycles) by (apply Z.mul_le_mono_nonneg_l; lia). lia.
Qed.

Lemma u32_id x : 0 <= x < 2 ^ 32 -> u32 x = x.
Proof. apply Z.mod_small. Qed.

(** The entries of the first laps. *)
Lemma entry_first j v : 0 <= j < ring_size -> entry_of j v = v.
Proof. intros Hj. unfold entry_of. rewrite Z.div_small by done. rewrite Zmod_0_l. lia. Qed.

Lemma second_lap j :
  0 <= j < ring_size -> (ring_size + j) / ring_size = 1 /\ (ring_size + j) mod ring_size = j.
Proof.
  intros Hj. split.
  - symmetry. apply Z.div_unique with j; lia.
  - symmetry. apply Z.mod_unique with 1; lia.
Qed.

Lemma entry_second j v : 0 <= j < ring_size -> entry_of (ring_size + j) v = ring_size + v.
Proof.
  intros Hj. unfold entry_of. rewrite (proj1 (second_lap j Hj)).
  rewrite (Z.mod_small 1) by (pose proof ring_cycles_min; lia). lia.
Qed.

Lemma ready_free_rep m : rings_ready ring_size m -> ring_rep Free_items free_cursor m.
Proof.
  intros []. pose proof size_range. split; cbn -[u32]; [rewrite ready_head0, u32_id|rewrite ready_free_tail0, u32_id| | |]; try lia.
  intros p Hp. replace p with (ring_size + (p - ring_size)) by lia.
  destruct (second_lap (p - ring_size)) as [_ Hm]; [lia|]. rewrite Hm, entry_second by lia.
  replace (ring_size + (p - ring_size) - ring_size) with (p - ring_size) by lia.
  split; [apply ready_free_entry0|]; lia.
Qed.

Lemma ready_queue_rep m : rings_ready ring_size m -> ring_rep Queue queue_cursor m.
Proof.
  intros []. pose proof size_range. split; cbn -[u32]; [rewrite ready_head0, u32_id|rewrite ready_queue_tail0, u32_id| | |]; try lia.
  intros p Hp. rewrite Z.mod_small, entry_first by lia. split; [apply ready_queue_entry0|]; lia.
Qed.

(** *** Programs that run alone *)

Lemma alone_bind {A B} (p : prog A) (f : A -> prog B) m :
  alone (pbind p f) m = alone (f (fst (alone p m))) (snd (alone p m)).
Proof.
  revert m. induction p as [a|a k IH]; cbn; intros m; [done|].
  destruct (perform a m) as [v m']. apply IH.
Qed.

Lemma upd_same m l v : upd m l v l = v.
Proof. unfold upd. by rewrite decide_True. Qed.

Lemma upd_other m l l' v : l' <> l -> upd m l v l' = m l'.
Proof. intros H. unfold upd. by rewrite decide_False. Qed.

Lemma zero_entries_alone n q j m l :
  snd (alone (zero_entries n q j) m) l =
  match l with
  | Entry q' j' => if decide (q' = q /\ j <= j' < j + Z.of_nat n) then 0 else m l
  | _ => m l
  end.
Proof.
  revert j m. induction n as [|n IH]; intros j m.
  - cbn. destruct l; try done. rewrite decide_False by lia. done.
  - cbn -[Z.of_nat]. rewrite IH. destruct l as [| |q' j'| | | | |]; try (apply upd_other; done).
    destruct (decide (q' = q /\ j + 1 <= j' < j + 1 + Z.of_nat n)) as [H|H].
    + rewrite decide_True by naive_solver lia. done.
    + destruct (decide (Entry q' j' = Entry q j)) as [E|E].
      * injection E as -> ->. rewrite upd_same, decide_True by naive_solver lia. done.
      * rewrite upd_other by done. rewrite decide_False; [done|]. intros [-> ?].
        destruct (decide (j' = j)); naive_solver lia.
Qed.

Lemma nncq_init_alone q m l :
  snd (alone (nxt_nncq_init q) m) l =
  match l with
  | Head q' | Tail q' => if decide (q' = q) then ring_size else m l
  | Entry q' j => if decide (q' = q /\ 0 <= j < ring_size) then 0 else m l
  | _ => m l
  end.
Proof.
  unfold nxt_nncq_init. cbn [pbind act]. cbn [alone perform].
  rewrite alone_bind. cbn. pose proof ring_size_pos.
  destruct l; unfold upd; repeat case_decide; simplify_eq; rewrite ?zero_entries_alone; repeat case_decide; try done; try lia; naive_solver lia.
Qed.
Lemma cycle_first v : 0 <= v < ring_size -> nxt_nncq_cycle v = 0.
Proof.
  intros Hv. rewrite <- (entry_first 0 v), cycle_entry by (pose proof ring_size_pos; lia).
  rewrite Z.div_0_l by (pose proof ring_size_pos; lia). apply Zmod_0_l.
Qed.

Lemma cycle_second j : 0 <= j < ring_size -> nxt_nncq_cycle (ring_size + j) = 1.
Proof.
  intros Hj. rewrite <- (entry_second j j), cycle_entry, (proj1 (second_lap j Hj)) by done.
  apply Z.mod_small. pose proof ring_cycles_min. lia.
Qed.

Lemma next_cycle_first : ring_next_cycle 0 = 1.
Proof.
  pose proof ring_cycles_min. rewrite ring_cycle_next by lia. apply Z.mod_small. lia.
Qed.

Lemma free_slot_alone n m :
  rings_ready n m -> 0 <= n < ring_size ->
  snd (alone (nxt_nncq_enqueue Free_items n) m) =
  upd (upd m (Entry Free_items n) (ring_size + n)) (Tail Free_items) (ring_size + n + 1).
Proof.
  intros [] Hn. unfold nxt_nncq_enqueue, nxt_nncq_enqueue_pos.
  destruct ring_retries as [|r] eqn:Er; [pose proof ring_retries_pos; lia|].
  pose proof size_range. cbn -[nxt_nncq_map nxt_nncq_cycle nxt_nncq_new_entry u32].
  rewrite ready_free_tail0. unfold nxt_nncq_map. rewrite (proj2 (second_lap n Hn)).
  rewrite ready_free_zero0, (cycle_first 0), cycle_second, next_cycle_first by lia.
  cbn -[nxt_nncq_new_entry u32]. rewrite ready_free_zero0 by lia. cbn -[nxt_nncq_new_entry u32].
  unfold upd at 1. rewrite decide_False, ready_free_tail0, Z.eqb_refl by done. cbn -[nxt_nncq_new_entry u32].
  rewrite u32_id by lia. do 2 f_equal. unfold nxt_nncq_new_entry.
  rewrite (Z.mod_small n), u32_id by lia. lia.
Qed.

Lemma free_slot_ready n m :
  rings_ready n m -> 0 <= n < ring_size ->
  rings_ready (n + 1) (snd (alone (nxt_nncq_enqueue Free_items n) m)).
Proof.
  intros Hm Hn. rewrite free_slot_alone by done. destruct Hm.
  split; intros; unfold upd; repeat case_decide; simplify_eq; auto with lia.
  apply ready_free_entry0. assert (j <> n) by congruence. lia.
Qed.

Lemma free_slots_ready k n m :
  rings_ready n m -> 0 <= n -> n + Z.of_nat k = ring_size ->
  rings_ready ring_size (snd (alone (free_slots k n) m)).
Proof.
  revert n m. induction k as [|k IH]; intros n m Hm Hn Hk.
  - cbn. by replace ring_size with n by lia.
  - cbn [free_slots]. rewrite alone_bind. apply IH; [apply free_slot_ready|..]; [done|lia..].
Qed.

(** The two rings are initialized and the slots freed. *)
Lemma init_ready m :
  rings_ready ring_size
    (snd (alone (let@ _ := nxt_nncq_init Free_items in
                 let@ _ := nxt_nncq_init Queue in
                 free_slots (Z.to_nat ring_size) 0) m)).
Proof.
  pose proof ring_size_pos. rewrite !alone_bind. apply free_slots_ready; [|lia..].
  split; [intros []|..]; intros; try lia; rewrite !nncq_init_alone;
    repeat case_decide; done || lia || (exfalso; tauto).
Qed.

End Init.

(** ** A peer that writes anything

    The peer can write every word of the rings at any time.  An operation then
    may return any number, but it stays inside the arrays and ends. *)

Section Confinement.
Context {R : Ring} {L : RingLaws R} (inside : loc -> Prop) (typed : loc -> Z -> Prop).

Hypothesis inside_ring : forall q,
  inside (Head q) /\ inside (Tail q) /\ forall j, 0 <= j < ring_size -> inside (Entry q j).

Lemma index_range i : 0 <= i mod ring_size < ring_size.
Proof. apply Z.mod_pos_bound, ring_size_pos. Qed.

Lemma enqueue_confined q v : forall r,
  confined inside typed (3 * Z.of_nat r + 1) (enqueue_tries r q v) (fun _ => True).
Proof.
  destruct (inside_ring q) as (Hh & Ht & He). induction r as [|r IH]; [cbn; lia|].
  cbn -[Z.of_nat Z.mul]. split; [done|]. intros t _. split; [apply He, index_range|]. intros e _.
  destruct (_ =? _); cbn -[Z.of_nat Z.mul];
    [|destruct (negb _); [eapply confined_mono; [exact IH|lia|done]|cbn -[Z.of_nat Z.mul]]].
  - split; [done|]. intros _ _. eapply confined_mono; [exact IH|lia|done].
  - split; [apply He, index_range|]. intros ok _. destruct (ok =? 1); cbn -[Z.of_nat Z.mul].
    + split; [done|]. intros _ _. split; [lia|done].
    + eapply confined_mono; [exact IH|lia|done].
Qed.

Lemma dequeue_confined q : forall r,
  confined inside typed (3 * Z.of_nat r) (dequeue_tries r q)
    (fun v => v = ring_size \/ 0 <= v < ring_size).
Proof.
  destruct (inside_ring q) as (Hh & Ht & He). induction r as [|r IH]; [split; [lia|by left]|].
  cbn -[Z.of_nat Z.mul]. split; [done|]. intros h _. split; [apply He, index_range|]. intros e _.
  destruct (negb _); [destruct (_ =? _)|]; cbn -[Z.of_nat Z.mul].
  - split; [lia|by left].
  - eapply confined_mono; [exact IH|lia|done].
  - split; [done|]. intros ok _. destruct (ok =? 1); cbn -[Z.of_nat Z.mul].
    + split; [lia|]. right. apply index_range.
    + eapply confined_mono; [exact IH|lia|done].
Qed.

End Confinement.
