(* ===== verification/SlotQueue.v ===== *)
(** * Queues of messages in slots

    What nxt_port_queue.h and nxt_app_queue.h have in common.  Messages are in
    numbered slots; the ring [Free_items] holds the numbers of free slots and
    the ring [Queue] those of the messages that wait.  A sender takes a free
    slot, fills it and queues its number; a receiver takes a number, copies
    the message and frees the slot.

    The class [SlotSpec] is what the proofs need of a specification of such a
    queue.  For any instance, a [world] has the state of the specification,
    the two rings and who owns each slot; [wp_reserve], [wp_fill],
    [wp_publish], [wp_pop], [wp_copy_out] and [wp_release] verify the parts of
    the operations, each with the step of the specification it takes. *)

From stdpp Require Import relations.
From S2P Require Import Prelude Atomic Nncq.

#[local] Open Scope Z_scope.

(** Both queues have items of this size. *)
Abbreviation MSG_SIZE := 31 (only parsing).

(** ** Copying messages *)

(** [nxt_memcpy] of a message into the slot [i], from byte [k] on. *)
Fixpoint copy_in (i k : Z) (p : list Z) : prog unit :=
  match p with
  | [] => Done tt
  | b :: rest => let@ _ := act (Store (Data i k) b) in copy_in i (k + 1) rest
  end.

(** [nxt_memcpy] of [n] bytes from the slot [i], from byte [k] on. *)
Fixpoint copy_out (n : nat) (i k : Z) : prog (list Z) :=
  match n with
  | O => Done []
  | S n =>
      let@ b := act (Load (Data i k)) in
      let@ rest := copy_out n i (k + 1) in
      Done (b :: rest)
  end.

(** The size of an item, capped before the copy. *)
Definition cap_size (size : Z) : Z := if MSG_SIZE <? size then MSG_SIZE else size.

(** ** Specifications *)

(** How often slots were reserved and released, and messages published and
    popped. *)
Record counts := Counts {
  reserved : Z;
  released : Z;
  published : Z;
  popped : Z
}.

(** A specification with states [X]: the status of each thread
    and the slot it names, which words
    the queue has outside its rings and messages and their values, the counts, the message with its
    slot at an index, an invariant, and the steps of a thread. *)
Class SlotSpec (X : Type) := {
  sl_status : Type;
  sl_stat : X -> nat -> sl_status;
  sl_slot : sl_status -> option Z;
  sl_uses : loc -> bool;
  sl_words : X -> loc -> Z;
  sl_counts : X -> counts;
  sl_shows : X -> nat -> Z -> list Z -> Prop;
  sl_good : X -> Prop;
  sl_step : nat -> X -> X -> Prop
}.

Section Slots.
Context {R : Ring} {L : RingLaws R} {X : Type} {SX : SlotSpec X}.

(** The words outside the rings and the messages. *)
Definition extra (l : loc) : Prop :=
  match l with Nitems | Notified | Tracking _ => sl_uses l = true | _ => False end.

(** ** Worlds *)

Record world := World {
  ab : X;
  fr : cursor;
  qr : cursor;
  place : Z -> owner;
  sizes : Z -> Z;
  bytes : Z -> Z -> Z;
  time : Z
}.

(** The slot that the status of thread [i] names. *)
Definition named (w : world) (i : nat) : option Z := sl_slot (sl_stat (ab w) i).

(** The slot [s] holds the message [p]. *)
Definition holds (w : world) (s : Z) (p : list Z) : Prop :=
  sizes w s = Z.of_nat (length p) /\ Z.of_nat (length p) <= MSG_SIZE /\
  forall k b, p !! k = Some b -> bytes w s (Z.of_nat k) = b.

(** The counts of the specification are the positions of the rings. *)
Definition counts_of (f q : cursor) : counts :=
  Counts (hpos f - ring_size) (epos f - ring_size) (epos q - ring_size) (hpos q - ring_size).

Record inv (w : world) (m : mem) : Prop := {
  inv_free : ring_rep Free_items (fr w) m;
  inv_queue : ring_rep Queue (qr w) m;
  inv_words : forall l, extra l -> m l = sl_words (ab w) l;
  inv_sizes : forall s, m (Size s) = sizes w s;
  inv_bytes : forall s k, m (Data s k) = bytes w s k;
  inv_free_list : lists (fr w) In_free (place w);
  inv_queue_list : lists (qr w) In_queue (place w);
  inv_shows : forall p, hpos (qr w) <= p < epos (qr w) -> exists msg,
    sl_shows (ab w) (Z.to_nat (p - ring_size)) (item (qr w) p) msg /\ holds w (item (qr w) p) msg;
  inv_start : ring_size <= hpos (qr w);
  inv_counts : sl_counts (ab w) = counts_of (fr w) (qr w);
  inv_good : sl_good (ab w);
  inv_slots : forall j s, named w j = Some s -> place w s = Held j
}.

(** What the others leave to thread [i]: its status and the slots it holds;
    the rings move forward, and time counts their updates. *)
Record rely (i : nat) (w w' : world) : Prop := {
  rely_free : cursor_le (fr w) (fr w');
  rely_queue : cursor_le (qr w) (qr w');
  rely_time : updates (fr w') - updates (fr w) + (updates (qr w') - updates (qr w))
              <= time w' - time w;
  rely_stat : sl_stat (ab w') i = sl_stat (ab w) i;
  rely_slots : forall s, place w s = Held i ->
    place w' s = Held i /\ sizes w' s = sizes w s /\ forall k, bytes w' s k = bytes w s k
}.

(** The specification moves with an action of thread [i]. *)
Definition abstract (i : nat) (w w' : world) : Prop := rtc (sl_step i) (ab w) (ab w').

Lemma rely_refl i w : rely i w w.
Proof. split; [apply cursor_le_refl..|lia|done|done]. Qed.

Lemma rely_trans i w1 w2 w3 : rely i w1 w2 -> rely i w2 w3 -> rely i w1 w3.
Proof.
  intros [] []. split; [eauto using cursor_le_trans..|lia|congruence|].
  intros s Hs. destruct (rely_slots0 s Hs) as (Hp & Hz & Hb).
  destruct (rely_slots1 s Hp) as (? & ? & Hb'). split_and!; [done|congruence|].
  intros k. by rewrite Hb'.
Qed.

Notation guar := (guarantee rely abstract).

(** ** Changes of the world *)

Definition settle_free (w : world) : world :=
  World (ab w) (settle (fr w)) (qr w) (place w) (sizes w) (bytes w) (time w + 1).

Definition settle_queue (w : world) : world :=
  World (ab w) (fr w) (settle (qr w)) (place w) (sizes w) (bytes w) (time w + 1).

(** An update of a ring: the specification moves to [x], and slot [s] to [o]. *)
Definition change (x : X) (f q : cursor) (s : Z) (o : owner) (w : world) : world :=
  World x f q (assign (place w) s o) (sizes w) (bytes w) (time w + 1).

(** Only the specification moves; [n] updates were not of the rings. *)
Definition respec (x : X) (n : Z) (w : world) : world :=
  World x (fr w) (qr w) (place w) (sizes w) (bytes w) (time w + n).

(** A thread writes to its slot [s]. *)
Definition set_size (s z : Z) (w : world) : world :=
  World (ab w) (fr w) (qr w) (place w) (fun s' => if decide (s' = s) then z else sizes w s')
    (bytes w) (time w).

Definition set_byte (s k b : Z) (w : world) : world :=
  World (ab w) (fr w) (qr w) (place w) (sizes w)
    (fun s' k' => if decide (s' = s /\ k' = k) then b else bytes w s' k') (time w).

(** The specification goes to [x] in a step of thread [i] that leaves the rings
    at [f] and [q]; its status may name the slot [o]. *)
Record moves (i : nat) (w : world) (x : X) (f q : cursor) (o : option Z) : Prop := {
  moves_steps : rtc (sl_step i) (ab w) x;
  moves_stat : forall j, j <> i -> sl_stat x j = sl_stat (ab w) j;
  moves_counts : sl_counts x = counts_of f q;
  moves_shows : forall k s msg, sl_shows (ab w) k s msg -> sl_shows x k s msg;
  moves_good : sl_good x;
  moves_slot : forall s, sl_slot (sl_stat x i) = Some s -> o = Some s
}.

Definition same_words (w : world) (x : X) : Prop :=
  forall l, extra l -> sl_words x l = sl_words (ab w) l.

(** ** The invariant is kept *)

(** Words outside the rings do not change with an update of a ring. *)
Lemma inv_upd_ring w m l v :
  (match l with Head _ | Tail _ | Entry _ _ => True | _ => False end) -> inv w m ->
  (forall l', extra l' -> upd m l v l' = sl_words (ab w) l') /\
  (forall s, upd m l v (Size s) = sizes w s) /\ (forall s k, upd m l v (Data s k) = bytes w s k).
Proof.
  intros Hl []. unfold upd. split_and!; intros; rewrite decide_False; auto; intros E; destruct l; simplify_eq; done.
Qed.

Lemma inv_settle_free w m :
  inv w m -> tpos (fr w) < epos (fr w) ->
  inv (settle_free w) (upd m (Tail Free_items) (u32 (tpos (fr w) + 1))).
Proof.
  intros Hi Hlt. destruct (inv_upd_ring w m (Tail Free_items) (u32 (tpos (fr w) + 1)) I Hi) as (? & ? & ?).
  destruct Hi. split; try done; [by apply settle_rep|by apply rep_other].
Qed.

Lemma inv_settle_queue w m :
  inv w m -> tpos (qr w) < epos (qr w) ->
  inv (settle_queue w) (upd m (Tail Queue) (u32 (tpos (qr w) + 1))).
Proof.
  intros Hi Hlt. destruct (inv_upd_ring w m (Tail Queue) (u32 (tpos (qr w) + 1)) I Hi) as (? & ? & ?).
  destruct Hi. split; try done; [by apply rep_other|by apply settle_rep].
Qed.

Lemma rely_settle_free j w : rely j w (settle_free w).
Proof. split; cbn; [apply settle_le|apply cursor_le_refl|unfold updates; cbn; lia|done|done]. Qed.

Lemma rely_settle_queue j w : rely j w (settle_queue w).
Proof. split; cbn; [apply cursor_le_refl|apply settle_le|unfold updates; cbn; lia|done|done]. Qed.

Lemma guar_keep i w w' :
  ab w' = ab w -> (forall j, j <> i -> rely j w w') -> guar i w w'.
Proof. intros Hab Hr. split; [|done]. unfold abstract. rewrite Hab. apply rtc_refl. Qed.

Section Hosts.
Context (gap : Z) (Hgap : 0 < gap /\ 3 * gap <= ring_size * (ring_cycles - 2)).

Lemma host_free i : RingHost time inv rely abstract gap i Free_items fr.
Proof.
  split; [done|by intros w m []|by intros w w' []| |apply rely_refl|apply rely_trans| |].
  - intros w w' [? [] ? ? ?]. unfold updates in *. lia.
  - intros w. apply guar_keep; auto using rely_refl.
  - intros w m Hi Hlt. exists (settle_free w).
    split_and!; [by apply inv_settle_free|done| |apply rely_settle_free|done].
    apply guar_keep; [done|]. intros. apply rely_settle_free.
Qed.

Lemma host_queue i : RingHost time inv rely abstract gap i Queue qr.
Proof.
  split; [done|by intros w m []|by intros w w' []| |apply rely_refl|apply rely_trans| |].
  - intros w w' [[] ? ? ? ?]. unfold updates in *. lia.
  - intros w. apply guar_keep; auto using rely_refl.
  - intros w m Hi Hlt. exists (settle_queue w).
    split_and!; [by apply inv_settle_queue|done| |apply rely_settle_queue|done].
    apply guar_keep; [done|]. intros. apply rely_settle_queue.
Qed.

End Hosts.

#[local] Instance In_free_inj : Inj (=) (=) In_free.
Proof. by intros p p' [=]. Qed.

#[local] Instance In_queue_inj : Inj (=) (=) In_queue.
Proof. by intros p p' [=]. Qed.

(** The first free slot, and the slot of the first message. *)
Definition next_free (w : world) : Z := item (fr w) (hpos (fr w)).

Definition next_msg (w : world) : Z := item (qr w) (hpos (qr w)).

Lemma next_free_place w m :
  inv w m -> hpos (fr w) < epos (fr w) ->
  place w (next_free w) = In_free (hpos (fr w)) /\ 0 <= next_free w < ring_size.
Proof.
  intros [Hf _ _ _ _ Hl] Hlt. split; [apply Hl; lia|].
  pose proof (rep_bounds _ _ _ Hf). apply (rep_entry _ _ _ Hf). lia.
Qed.

Lemma next_msg_place w m :
  inv w m -> hpos (qr w) < epos (qr w) ->
  place w (next_msg w) = In_queue (hpos (qr w)) /\ 0 <= next_msg w < ring_size.
Proof.
  intros [_ Hq _ _ _ _ Hl] Hlt. split; [apply Hl; lia|].
  pose proof (rep_bounds _ _ _ Hq). apply (rep_entry _ _ _ Hq). lia.
Qed.

(** The words after an update of a ring in which the specification moves. *)
Lemma inv_change_words w m l v x :
  (match l with Head _ | Tail _ | Entry _ _ => True | _ => False end) -> inv w m -> same_words w x ->
  (forall l', extra l' -> upd m l v l' = sl_words x l') /\
  (forall s, upd m l v (Size s) = sizes w s) /\ (forall s k, upd m l v (Data s k) = bytes w s k).
Proof.
  intros Hl Hi Hx. destruct (inv_upd_ring w m l v Hl Hi) as (He & ? & ?).
  split; [|done]. intros l' Hl'. by rewrite He, Hx.
Qed.

(** The slots that the statuses name, when slot [s] moves to [o]. *)
Lemma slots_change i x s o w m :
  inv w m -> (forall j, j <> i -> sl_stat x j = sl_stat (ab w) j) ->
  (forall s', sl_slot (sl_stat x i) = Some s' -> s' = s /\ o = Held i) ->
  (forall j, j <> i -> place w s <> Held j) ->
  forall j s', sl_slot (sl_stat x j) = Some s' -> assign (place w) s o s' = Held j.
Proof.
  intros Hi Hst Hx Hs j s' Hj. unfold assign. destruct (decide (j = i)) as [->|Hne].
  - destruct (Hx s' Hj) as [-> ->]. by rewrite decide_True.
  - rewrite Hst in Hj by done. pose proof (inv_slots _ _ Hi j s' Hj) as Hp.
    rewrite decide_False; [done|]. intros ->. by apply (Hs j).
Qed.

Lemma inv_reserve i x w m :
  inv w m -> hpos (fr w) < epos (fr w) -> moves i w x (get (fr w)) (qr w) (Some (next_free w)) -> same_words w x ->
  inv (change x (get (fr w)) (qr w) (next_free w) (Held i) w)
      (upd m (Head Free_items) (u32 (hpos (fr w) + 1))).
Proof.
  intros Hi Hlt [_ Hst Hc Hs Hg Hsl] Hw.
  destruct (inv_change_words w m (Head Free_items) (u32 (hpos (fr w) + 1)) x I Hi Hw) as (? & ? & ?).
  destruct (next_free_place w m Hi Hlt) as [Hp _]. pose proof Hi as []. split; cbn; try done.
  - by apply get_rep.
  - by apply rep_other.
  - apply lists_get; [apply In_free_inj|done|done].
  - apply lists_other; [|done]. intros p. by rewrite Hp.
  - intros p Hr. destruct (inv_shows0 p Hr) as (msg & ? & ?). eauto.
  - eapply slots_change; [done|done|by intros s' [= ->]%Hsl|]. intros j _. by rewrite Hp.
Qed.

Lemma inv_pop i x w m :
  inv w m -> hpos (qr w) < epos (qr w) -> moves i w x (fr w) (get (qr w)) (Some (next_msg w)) -> same_words w x ->
  inv (change x (fr w) (get (qr w)) (next_msg w) (Held i) w)
      (upd m (Head Queue) (u32 (hpos (qr w) + 1))).
Proof.
  intros Hi Hlt [_ Hst Hc Hs Hg Hsl] Hw.
  destruct (inv_change_words w m (Head Queue) (u32 (hpos (qr w) + 1)) x I Hi Hw) as (? & ? & ?).
  destruct (next_msg_place w m Hi Hlt) as [Hp _]. pose proof Hi as []. split; cbn; try done.
  - by apply rep_other.
  - by apply get_rep.
  - apply lists_other; [|done]. intros p. by rewrite Hp.
  - apply lists_get; [apply In_queue_inj|done|done].
  - intros p Hr. destruct (inv_shows0 p) as (msg & ? & ?); [lia|eauto].
  - lia.
  - eapply slots_change; [done|done|by intros s' [= ->]%Hsl|]. intros j _. by rewrite Hp.
Qed.

Lemma inv_release i s x w m :
  inv w m -> tpos (fr w) = epos (fr w) -> place w s = Held i -> 0 <= s < ring_size ->
  moves i w x (put s (fr w)) (qr w) None -> same_words w x ->
  inv (change x (put s (fr w)) (qr w) s (In_free (epos (fr w))) w)
      (upd m (Entry Free_items (epos (fr w) mod ring_size)) (entry_of (epos (fr w)) s)).
Proof.
  intros Hi Ht Hp Hs [_ Hst Hc Hsh Hg Hsl] Hw.
  destruct (inv_change_words w m (Entry Free_items (epos (fr w) mod ring_size))
              (entry_of (epos (fr w)) s) x I Hi Hw) as (? & ? & ?).
  pose proof Hi as []. split; cbn -[entry_of]; try done.
  - apply put_rep; [done|done| |done].
    eapply ring_room; [apply In_free_inj| |done|done|done]. intros p. by rewrite Hp.
  - by apply rep_other.
  - apply lists_put; [|done]. intros p. by rewrite Hp.
  - apply lists_other; [|done]. intros p. by rewrite Hp.
  - intros p Hr. destruct (inv_shows0 p Hr) as (msg & ? & ?). eauto.
  - eapply slots_change; [done|done|by intros s' ?%Hsl|]. intros j Hj. rewrite Hp. congruence.
Qed.

Lemma inv_publish i s msg x w m :
  inv w m -> tpos (qr w) = epos (qr w) -> place w s = Held i -> 0 <= s < ring_size -> holds w s msg ->
  moves i w x (fr w) (put s (qr w)) None -> same_words w x ->
  sl_shows x (Z.to_nat (epos (qr w) - ring_size)) s msg ->
  inv (change x (fr w) (put s (qr w)) s (In_queue (epos (qr w))) w)
      (upd m (Entry Queue (epos (qr w) mod ring_size)) (entry_of (epos (qr w)) s)).
Proof.
  intros Hi Ht Hp Hs Hm [_ Hst Hc Hsh Hg Hsl] Hw Hnew.
  destruct (inv_change_words w m (Entry Queue (epos (qr w) mod ring_size))
              (entry_of (epos (qr w)) s) x I Hi Hw) as (? & ? & ?).
  pose proof Hi as []. split; cbn -[entry_of]; try done.
  - by apply rep_other.
  - apply put_rep; [done|done| |done].
    eapply ring_room; [apply In_queue_inj| |done|done|done]. intros p. by rewrite Hp.
  - apply lists_other; [|done]. intros p. by rewrite Hp.
  - apply lists_put; [|done]. intros p. by rewrite Hp.
  - intros p Hr. destruct (p =? epos (qr w)) eqn:E.
    + apply Z.eqb_eq in E. subst p. eauto.
    + apply Z.eqb_neq in E. destruct (inv_shows0 p) as (msg' & ? & ?); [lia|eauto].
  - eapply slots_change; [done|done|by intros s' ?%Hsl|]. intros j Hj. rewrite Hp. congruence.
Qed.

(** A slot that a thread holds is not in the queue. *)
Lemma held_not_queued i s w m p :
  inv w m -> place w s = Held i -> hpos (qr w) <= p < epos (qr w) -> item (qr w) p <> s.
Proof. intros Hi Hs Hp <-. rewrite (inv_queue_list _ _ Hi) in Hs by done. done. Qed.

(** A word outside the rings is none of theirs. *)
Lemma rep_outside q c m m' :
  ring_rep q c m -> (forall l, ring_loc q l -> m' l = m l) -> ring_rep q c m'.
Proof.
  intros [Hh Ht He Hb Htb] Hm. split; [..|done|done]; intros; rewrite Hm by done; auto.
Qed.

Lemma inv_set_size i s z w m :
  inv w m -> place w s = Held i -> inv (set_size s z w) (upd m (Size s) z).
Proof.
  intros Hi Hs. pose proof (held_not_queued i s w m) as Hq. pose proof Hi as [].
  split; cbn; try done; try (apply rep_other; [done|by intros []]).
  - intros l Hl. rewrite upd_other by (by intros ->). auto.
  - intros s'. unfold upd. destruct (decide (s' = s)) as [->|Hne]; [by rewrite decide_True|].
    rewrite decide_False by congruence. done.
  - intros p Hp. destruct (inv_shows0 p Hp) as (msg & Hl & Hh). exists msg. split; [done|].
    unfold holds in *. cbn. rewrite decide_False; eauto.
Qed.

Lemma inv_set_byte i s k b w m :
  inv w m -> place w s = Held i -> inv (set_byte s k b w) (upd m (Data s k) b).
Proof.
  intros Hi Hs. pose proof (held_not_queued i s w m) as Hq. pose proof Hi as [].
  split; cbn; try done; try (apply rep_other; [done|by intros []]).
  - intros l Hl. rewrite upd_other by (by intros ->). auto.
  - intros s' k'. unfold upd. destruct (decide (s' = s /\ k' = k)) as [[-> ->]|Hne]; [by rewrite decide_True|].
    rewrite decide_False by naive_solver. done.
  - intros p Hp. destruct (inv_shows0 p Hp) as (msg & Hl & ? & ? & Hb). exists msg. split; [done|].
    split_and!; cbn; [done|done|]. intros k' b' Hk. rewrite decide_False; [eauto|].
    intros [? _]. eapply Hq; eauto.
Qed.

Lemma rely_set_size i j s z w : j <> i -> place w s = Held i -> rely j w (set_size s z w).
Proof.
  intros Hj Hs. split; cbn; [apply cursor_le_refl..|lia|done|].
  intros s' Hs'. rewrite decide_False; [done|]. intros ->. congruence.
Qed.

Lemma rely_set_byte i j s k b w : j <> i -> place w s = Held i -> rely j w (set_byte s k b w).
Proof.
  intros Hj Hs. split; cbn; [apply cursor_le_refl..|lia|done|].
  intros s' Hs'. split_and!; [done|done|]. intros k'. rewrite decide_False; [done|].
  intros [-> _]. congruence.
Qed.

(** The specification moves with a change of the words outside the rings. *)
Lemma inv_respec i x n w m m' :
  inv w m -> moves i w x (fr w) (qr w) (named w i) ->
  (forall l, ~ extra l -> m' l = m l) -> (forall l, extra l -> m' l = sl_words x l) ->
  inv (respec x n w) m'.
Proof.
  intros [] [_ Hst Hc Hs Hg Hsl] Hout Hin. split; cbn; try done.
  - eapply rep_outside; [done|]. intros l Hl. apply Hout. destruct l; cbn in *; tauto.
  - eapply rep_outside; [done|]. intros l Hl. apply Hout. destruct l; cbn in *; tauto.
  - intros s. rewrite Hout by (cbn; tauto). done.
  - intros s k. rewrite Hout by (cbn; tauto). done.
  - intros p Hr. destruct (inv_shows0 p Hr) as (msg & ? & ?). eauto.
  - intros j s. unfold named. cbn. destruct (decide (j = i)) as [->|Hne]; [|rewrite Hst by done; auto].
    intros Hj. auto.
Qed.

Lemma inv_respec_keep i x n w m :
  inv w m -> moves i w x (fr w) (qr w) (named w i) -> same_words w x -> inv (respec x n w) m.
Proof.
  intros Hi Hm Hw. eapply inv_respec; eauto. intros l Hl. rewrite Hw by done. by apply (inv_words _ _ Hi).
Qed.

Lemma guar_respec i x n w f q o : 0 <= n -> moves i w x f q o -> guar i w (respec x n w).
Proof.
  intros Hn []. split; [done|]. intros j Hj.
  split; cbn; [apply cursor_le_refl..|unfold updates; lia|auto|done].
Qed.

Lemma guar_change i x f q s o o' w :
  moves i w x f q o' -> cursor_le (fr w) f -> cursor_le (qr w) q ->
  updates f - updates (fr w) + (updates q - updates (qr w)) <= 1 ->
  (forall j, j <> i -> place w s <> Held j) ->
  guar i w (change x f q s o w).
Proof.
  intros [] Hf Hq Hu Hs. split; [done|]. intros j Hj.
  split; cbn; [done|done|lia|auto|].
  intros s' Hs'. unfold assign. rewrite decide_False; [done|]. intros ->. by apply (Hs j).
Qed.

(** The counts at the invocation are behind those of the world. *)
Definition since (c : counts) (w : world) : Prop :=
  reserved c <= hpos (fr w) - ring_size /\ released c <= epos (fr w) - ring_size /\
  published c <= epos (qr w) - ring_size /\ popped c <= hpos (qr w) - ring_size.

Lemma since_le c w w' :
  since c w -> cursor_le (fr w) (fr w') -> cursor_le (qr w) (qr w') -> since c w'.
Proof. unfold since. intros H [] []. lia. Qed.

Lemma since_rely i c w w' : since c w -> rely i w w' -> since c w'.
Proof. intros H []. eauto using since_le. Qed.

Lemma since_counts w m : inv w m -> since (sl_counts (ab w)) w.
Proof. intros Hi. rewrite (inv_counts _ _ Hi). unfold since. cbn. lia. Qed.

Lemma holds_rely i s p w w' : holds w s p -> place w s = Held i -> rely i w w' -> holds w' s p.
Proof.
  intros (Hz & Hl & Hb) Hs Hr. destruct (rely_slots _ _ _ Hr s Hs) as (_ & Hz' & Hb').
  split_and!; [by rewrite Hz'|done|]. intros k b Hk. rewrite Hb'. eauto.
Qed.

(** Thread [i] is in status [st] of a call from the counts [c], and holds [s]. *)
Definition own (i : nat) (s : Z) (st : sl_status) (c : counts) (w : world) : Prop :=
  sl_stat (ab w) i = st /\ place w s = Held i /\ since c w /\ exists m, inv w m.

Lemma own_rely i s st c w w' m : own i s st c w -> rely i w w' -> inv w' m -> own i s st c w'.
Proof.
  intros (Hst & Hs & Hc & _) Hr Hi. split_and!; [|by apply (rely_slots _ _ _ Hr)|by eapply since_rely|eauto].
  by rewrite (rely_stat _ _ _ Hr).
Qed.

(** ** The parts of the operations *)

Section Parts.
Context (gap : Z) (Hgap : 0 < gap /\ 3 * gap <= ring_size * (ring_cycles - 2)) (i : nat).

Notation wpi := (wp time inv rely abstract gap i).

#[local] Instance host_f : RingHost time inv rely abstract gap i Free_items fr := host_free gap Hgap i.
#[local] Instance host_q : RingHost time inv rely abstract gap i Queue qr := host_queue gap Hgap i.

Lemma own_change s st c x f q w m0 :
  since c w -> cursor_le (fr w) f -> cursor_le (qr w) q -> sl_stat x i = st ->
  inv (change x f q s (Held i) w) m0 -> own i s st c (change x f q s (Held i) w).
Proof.
  intros Hc Hf Hq Hst Hi. split_and!; [done| |by eapply since_le|eauto].
  cbn. unfold assign. by rewrite decide_True.
Qed.

(** An action on a word outside the rings. *)
Lemma wp_word {A} a (k : Z -> prog A) Q w :
  extra (target a) ->
  (forall w' m, rely i w w' -> inv w' m -> exists x,
    moves i w' x (fr w') (qr w') (named w' i) /\
    (forall l, extra l -> snd (perform a m) l = sl_words x l) /\
    (inv (respec x (ticks a (fst (perform a m))) w') (snd (perform a m)) ->
     wpi (k (fst (perform a m))) Q (respec x (ticks a (fst (perform a m))) w'))) ->
  wpi (Act a k) Q w.
Proof.
  intros Ha H w1 m1 Hr Hn Hi. destruct (H w1 m1 Hr Hi) as (x & Hm & Hw & Hk).
  set (w2 := respec x (ticks a (fst (perform a m1))) w1) in *.
  assert (Hi2 : inv w2 (snd (perform a m1))).
  { eapply inv_respec; [done|done| |done]. intros l Hl.
    assert (l <> target a) by (intros ->; done).
    destruct a; cbn in *; try case_match; cbn; by rewrite ?upd_other. }
  exists w2. split_and!; [done|done| |auto].
  eapply guar_respec; [|done]. destruct a; cbn; try case_match; done.
Qed.

(** A load of a word of the rings or of a slot. *)
Lemma wp_read {A} l (k : Z -> prog A) Q w :
  (forall w' m, rely i w w' -> inv w' m -> wpi (k (m l)) Q w') -> wpi (Act (Load l) k) Q w.
Proof. intros H. apply (wp_load _ _ _ _ _ i Queue qr). eauto. Qed.

(** A load at which the specification moves. *)
Lemma wp_look {A} l (k : Z -> prog A) Q w :
  (forall w' m, rely i w w' -> inv w' m -> exists x,
    moves i w' x (fr w') (qr w') (named w' i) /\ same_words w' x /\ wpi (k (m l)) Q (respec x 0 w')) ->
  wpi (Act (Load l) k) Q w.
Proof.
  intros H w1 m1 Hr Hn Hi. destruct (H w1 m1 Hr Hi) as (x & Hm & Hw & Hk).
  exists (respec x 0 w1). split_and!; [by eapply inv_respec_keep|done|by eapply guar_respec|done].
Qed.

(** Reserving a slot. *)
Lemma wp_reserve st c w Q :
  since c w ->
  (forall w' m, rely i w w' -> inv w' m -> hpos (fr w') < epos (fr w') -> exists x,
    moves i w' x (get (fr w')) (qr w') (Some (next_free w')) /\ same_words w' x /\ sl_stat x i = st (next_free w')) ->
  (forall s w', 0 <= s < ring_size -> own i s (st s) c w' -> Q s w') ->
  (forall w' m, rely i w w' -> inv w' m -> hpos (fr w') = epos (fr w') -> exists x,
    moves i w' x (fr w') (qr w') (named w' i) /\ same_words w' x /\ Q ring_size (respec x 0 w')) ->
  (forall w', rely i w w' ->
    Z.of_nat ring_retries <= hpos (fr w') - ring_size - reserved c -> Q ring_size w') ->
  wpi (nxt_nncq_dequeue Free_items) Q w.
Proof.
  intros Hc Hmove HQ Hnone Hover. apply (wp_dequeue time inv rely abstract gap i Free_items fr).
  - intros w1 m1 Hr Hi Hlt. destruct (next_free_place _ _ Hi Hlt) as [Hp Hs].
    destruct (Hmove w1 m1 Hr Hi Hlt) as (x & Hm & Hw & Hst).
    pose proof (inv_reserve i x w1 m1 Hi Hlt Hm Hw) as Hi'.
    exists (change x (get (fr w1)) (qr w1) (next_free w1) (Held i) w1). split_and!; [done|done| |].
    + eapply guar_change; [done|apply get_le|apply cursor_le_refl| |congruence]. unfold updates. cbn. lia.
    + apply HQ; [done|]. eapply own_change; eauto using since_rely, get_le, cursor_le_refl.
  - intros w1 m1 Hr Hi Heq. destruct (Hnone w1 m1 Hr Hi Heq) as (x & Hm & Hw & Hx).
    exists (respec x 0 w1). split_and!; [by eapply inv_respec_keep|cbn; lia|by eapply guar_respec|done].
  - intros w1 Hr H. apply Hover; [done|]. unfold since in Hc. lia.
Qed.

(** Taking the first message. *)
Lemma wp_pop st c w Q :
  since c w ->
  (forall w' m p, rely i w w' -> inv w' m -> hpos (qr w') < epos (qr w') ->
    sl_shows (ab w') (Z.to_nat (hpos (qr w') - ring_size)) (next_msg w') p -> exists x,
    moves i w' x (fr w') (get (qr w')) (Some (next_msg w')) /\ same_words w' x /\ sl_stat x i = st (next_msg w') p) ->
  (forall s p w', 0 <= s < ring_size -> own i s (st s p) c w' -> holds w' s p -> Q s w') ->
  (forall w' m, rely i w w' -> inv w' m -> hpos (qr w') = epos (qr w') -> exists x,
    moves i w' x (fr w') (qr w') (named w' i) /\ same_words w' x /\ Q ring_size (respec x 0 w')) ->
  (forall w', rely i w w' ->
    Z.of_nat ring_retries <= hpos (qr w') - ring_size - popped c -> Q ring_size w') ->
  wpi (nxt_nncq_dequeue Queue) Q w.
Proof.
  intros Hc Hmove HQ Hnone Hover. apply (wp_dequeue time inv rely abstract gap i Queue qr).
  - intros w1 m1 Hr Hi Hlt. destruct (next_msg_place _ _ Hi Hlt) as [Hp Hs].
    destruct (inv_shows _ _ Hi (hpos (qr w1))) as (p & Hsh & Hh); [lia|].
    destruct (Hmove w1 m1 p Hr Hi Hlt Hsh) as (x & Hm & Hw & Hst).
    pose proof (inv_pop i x w1 m1 Hi Hlt Hm Hw) as Hi'.
    exists (change x (fr w1) (get (qr w1)) (next_msg w1) (Held i) w1). split_and!; [done|done| |].
    + eapply guar_change; [done|apply cursor_le_refl|apply get_le| |congruence]. unfold updates. cbn. lia.
    + apply (HQ _ p); [done| |done]. eapply own_change; eauto using since_rely, get_le, cursor_le_refl.
  - intros w1 m1 Hr Hi Heq. destruct (Hnone w1 m1 Hr Hi Heq) as (x & Hm & Hw & Hx).
    exists (respec x 0 w1). split_and!; [by eapply inv_respec_keep|cbn; lia|by eapply guar_respec|done].
  - intros w1 Hr H. apply Hover; [done|]. unfold since in Hc. lia.
Qed.

(** Giving a slot back. *)
Lemma wp_release s st st' c w Q :
  own i s st c w -> 0 <= s < ring_size ->
  (forall w' m, rely i w w' -> inv w' m -> exists x,
    moves i w' x (put s (fr w')) (qr w') None /\ same_words w' x /\ sl_stat x i = st') ->
  (forall pos w', sl_stat (ab w') i = st' -> since c w' -> Q (Some pos) w') ->
  (forall w', rely i w w' ->
    Z.of_nat ring_retries <= 2 * (epos (fr w') - ring_size - released c) + 1 -> Q None w') ->
  wpi (nxt_nncq_enqueue Free_items s) Q w.
Proof.
  intros Ho Hs Hmove Hok Hfail. pose proof Ho as (Hst & Hp & Hc & m0 & Hi0).
  eapply (wp_enqueue time inv rely abstract gap i Free_items fr s Q w); [| |exact Hs|exact Hi0].
  - intros w1 m1 Hr Hi Ht. pose proof (own_rely _ _ _ _ _ _ _ Ho Hr Hi) as (Hst1 & Hp1 & Hc1 & _).
    destruct (Hmove w1 m1 Hr Hi) as (x & Hm & Hw & Hx).
    exists (change x (put s (fr w1)) (qr w1) s (In_free (epos (fr w1))) w1).
    split_and!; [by eapply inv_release|done| |done|].
    + eapply guar_change; [done|apply put_le|apply cursor_le_refl| |congruence]. unfold updates. cbn. lia.
    + intros w2 Hr2. apply Hok; [by rewrite (rely_stat _ _ _ Hr2)|].
      eapply since_rely; [|done]. apply (since_le c w1); [done|apply put_le|apply cursor_le_refl].
  - intros w1 Hr _ H. apply Hfail; [done|]. unfold since in Hc. lia.
Qed.

(** Queueing a slot that holds a message. *)
Lemma wp_publish s p st st' c w Q :
  own i s st c w -> 0 <= s < ring_size -> holds w s p ->
  (forall w' m, rely i w w' -> inv w' m -> exists x,
    moves i w' x (fr w') (put s (qr w')) None /\ same_words w' x /\ sl_stat x i = st' (u32 (epos (qr w'))) /\
    sl_shows x (Z.to_nat (epos (qr w') - ring_size)) s p) ->
  (forall pos w', sl_stat (ab w') i = st' pos -> since c w' -> Q (Some pos) w') ->
  (forall w', rely i w w' -> (exists m, inv w' m) ->
    Z.of_nat ring_retries <= 2 * (epos (qr w') - ring_size - published c) + 1 -> Q None w') ->
  wpi (nxt_nncq_enqueue_pos Queue s) Q w.
Proof.
  intros Ho Hs Hh Hmove Hok Hfail. pose proof Ho as (Hst & Hp & Hc & m0 & Hi0).
  eapply (wp_enqueue time inv rely abstract gap i Queue qr s Q w); [| |exact Hs|exact Hi0].
  - intros w1 m1 Hr Hi Ht. pose proof (own_rely _ _ _ _ _ _ _ Ho Hr Hi) as (Hst1 & Hp1 & Hc1 & _).
    destruct (Hmove w1 m1 Hr Hi) as (x & Hm & Hw & Hx & Hsh).
    exists (change x (fr w1) (put s (qr w1)) s (In_queue (epos (qr w1))) w1).
    split_and!; [eapply inv_publish; eauto using holds_rely|done| |done|].
    + eapply guar_change; [done|apply cursor_le_refl|apply put_le| |congruence]. unfold updates. cbn. lia.
    + intros w2 Hr2. apply Hok; [by rewrite (rely_stat _ _ _ Hr2)|].
      eapply since_rely; [|done]. apply (since_le c w1); [done|apply cursor_le_refl|apply put_le].
  - intros w1 Hr Hi H. apply Hfail; [done|done|]. unfold since in Hc. lia.
Qed.

(** Filling the slot from byte [k] on. *)
Lemma wp_copy_in s p st c rest k w Q :
  own i s st c w -> drop k p = rest -> sizes w s = Z.of_nat (length p) ->
  (forall k' b, (k' < k)%nat -> p !! k' = Some b -> bytes w s (Z.of_nat k') = b) ->
  Z.of_nat (length p) <= MSG_SIZE ->
  (forall w', own i s st c w' -> holds w' s p -> Q tt w') ->
  wpi (copy_in s (Z.of_nat k) rest) Q w.
Proof.
  revert k w. induction rest as [|b rest IH]; intros k w Ho Hd Hz Hb Hlen HQ.
  - apply HQ; [done|]. split_and!; [done|done|]. intros k' b Hk. apply Hb; [|done].
    apply drop_nil_ge in Hd. apply lookup_lt_Some in Hk. lia.
  - apply drop_cons_inv in Hd as [Hk Hd]. intros w1 m1 Hr Hn Hi.
    pose proof (own_rely _ _ _ _ _ _ _ Ho Hr Hi) as (Hst1 & Hp1 & Hc1 & _).
    destruct Ho as (_ & Hp & _). destruct (rely_slots _ _ _ Hr s Hp) as (_ & Hz1 & Hb1).
    exists (set_byte s (Z.of_nat k) b w1). cbn -[wp copy_in pbind].
    split_and!; [by eapply inv_set_byte|lia| |].
    { apply guar_keep; [done|]. intros j Hj. by eapply rely_set_byte. }
    replace (Z.of_nat k + 1) with (Z.of_nat (S k)) by lia. apply IH; [..|done|done].
    + split_and!; [done|done|done|]. eexists. by eapply inv_set_byte.
    + done.
    + by rewrite <- Hz, <- Hz1.
    + intros k' b' Hk' Hl. cbn. case_decide as E; [|rewrite Hb1; apply Hb; [|done]].
      * destruct E as [_ E]. apply Nat2Z.inj in E. subst. congruence.
      * assert (k' <> k) by naive_solver. lia.
Qed.

(** The size and the bytes of a message go into the slot. *)
Lemma wp_fill s p st c w Q :
  own i s st c w -> Z.of_nat (length p) <= MSG_SIZE ->
  (forall w', own i s st c w' -> holds w' s p -> Q tt w') ->
  wpi (let@ _ := act (Store (Size s) (Z.of_nat (length p))) in copy_in s 0 p) Q w.
Proof.
  intros Ho Hlen HQ w1 m1 Hr Hn Hi.
  pose proof (own_rely _ _ _ _ _ _ _ Ho Hr Hi) as (Hst1 & Hp1 & Hc1 & _).
  assert (Hi' : inv (set_size s (Z.of_nat (length p)) w1) (upd m1 (Size s) (Z.of_nat (length p))))
    by (by eapply inv_set_size).
  exists (set_size s (Z.of_nat (length p)) w1). cbn -[wp copy_in]. split_and!; [done|lia| |].
  { apply guar_keep; [done|]. intros j Hj. by eapply rely_set_size. }
  eapply (wp_copy_in s p st c p 0); [|done| |lia|done|done].
  - split_and!; eauto.
  - cbn. by rewrite decide_True.
Qed.

(** Reading the slot from byte [k] on. *)
Lemma wp_copy_out s p k w Q :
  place w s = Held i -> holds w s p -> (k <= length p)%nat -> (exists m, inv w m) ->
  (forall w', rely i w w' -> (exists m, inv w' m) -> Q (drop k p) w') ->
  wpi (copy_out (length p - k) s (Z.of_nat k)) Q w.
Proof.
  remember (length p - k)%nat as n eqn:En. revert k w Q En.
  induction n as [|n IH]; intros k w Q En Hp Hh Hk Hi HQ.
  - cbn. rewrite <- (drop_ge p k) by lia. apply HQ; auto using rely_refl.
  - cbn -[wp]. apply wp_read. intros w1 m1 Hr Hi1.
    pose proof (holds_rely _ _ _ _ _ Hh Hp Hr) as Hh1. destruct (rely_slots _ _ _ Hr s Hp) as (Hp1 & _).
    destruct (lookup_lt_is_Some_2 p k) as [b Hb]; [lia|].
    rewrite (inv_bytes _ _ Hi1), (proj2 (proj2 Hh1) k b Hb).
    apply wp_bind. replace (Z.of_nat k + 1) with (Z.of_nat (S k)) by lia.
    apply IH; [lia|done|done|lia|eauto|].
    intros w2 Hr2 Hi2. cbn. rewrite <- (drop_S p b k Hb). apply HQ; eauto using rely_trans.
Qed.

(** The size and the bytes of the message in the slot. *)
Lemma wp_load_message {A} s p st c w (k : list Z -> prog A) Q :
  own i s st c w -> holds w s p ->
  (forall w', rely i w w' -> own i s st c w' -> wpi (k p) Q w') ->
  wpi (let@ size := act (Load (Size s)) in
       let@ p := copy_out (Z.to_nat (cap_size size)) s 0 in k p) Q w.
Proof.
  intros Ho Hh HQ. cbn -[wp copy_out]. apply wp_read. intros w1 m1 Hr Hi1.
  pose proof (own_rely _ _ _ _ _ _ _ Ho Hr Hi1) as Ho1. destruct Ho as (Hst & Hp & Hc & _).
  pose proof (holds_rely _ _ _ _ _ Hh Hp Hr) as Hh1. pose proof Ho1 as (Hst1 & Hp1 & _).
  rewrite (inv_sizes _ _ Hi1), (proj1 Hh1). unfold cap_size.
  rewrite (proj2 (Z.ltb_ge _ _)), Nat2Z.id by apply Hh1. apply wp_bind.
  rewrite <- (Nat.sub_0_r (length p)). apply (wp_copy_out s p 0); [done|done|lia|eauto|].
  intros w2 Hr2 [m2 Hi2]. rewrite drop_0. apply HQ; eauto using rely_trans, own_rely.
Qed.

End Parts.

(** ** Ends of calls *)

(** Thread [i] can go to the status [st] now and whenever it comes to it. *)
Definition finish (i : nat) (st : sl_status) (w : world) : Prop :=
  forall w' m, rely i w w' -> inv w' m -> exists x,
    moves i w' x (fr w') (qr w') (named w' i) /\ same_words w' x /\ sl_stat x i = st.

Lemma finish_here i st w : sl_stat (ab w) i = st -> finish i st w.
Proof.
  intros Hs w' m Hr Hi. exists (ab w'). split_and!; [|done|by rewrite (rely_stat _ _ _ Hr)].
  split; [apply rtc_refl|done|apply (inv_counts _ _ Hi)|done|apply (inv_good _ _ Hi)|done].
Qed.

(** The invocation and the return of a call change the status of its thread. *)
Lemma restatus i x w m :
  inv w m -> (forall j, j <> i -> sl_stat x j = sl_stat (ab w) j) ->
  sl_counts x = sl_counts (ab w) -> same_words w x -> sl_good x ->
  (forall k s msg, sl_shows (ab w) k s msg -> sl_shows x k s msg) ->
  sl_slot (sl_stat x i) = None ->
  inv (respec x 0 w) m /\ time (respec x 0 w) = time w /\ forall j, j <> i -> rely j w (respec x 0 w).
Proof.
  intros Hi Hst Hc Hw Hg Hs Hsl. split_and!; [|cbn; lia|].
  - pose proof Hi as []. split; cbn; try done.
    + intros l Hl. rewrite Hw by done. auto.
    + intros p Hp. destruct (inv_shows0 p Hp) as (msg & ? & ?). eauto.
    + by rewrite Hc.
    + intros j s. unfold named. cbn. destruct (decide (j = i)) as [->|Hne]; [by rewrite Hsl|].
      rewrite Hst by done. auto.
  - intros j Hj. split; cbn; [apply cursor_le_refl..|lia|auto|done].
Qed.

(** ** The rings at the beginning *)

Definition initial_world (x : X) (m : mem) : world :=
  World x free_cursor queue_cursor (fun s => In_free (s + ring_size))
    (fun s => m (Size s)) (fun s k => m (Data s k)) 0.

Lemma ready_inv x m :
  rings_ready ring_size m -> (forall l, extra l -> m l = sl_words x l) ->
  sl_counts x = Counts 0 ring_size 0 0 -> sl_good x -> (forall j, sl_slot (sl_stat x j) = None) ->
  inv (initial_world x m) m.
Proof.
  intros Hr Hw Hc Hg Hsl. split; cbn -[free_cursor queue_cursor]; try done.
  - by apply ready_free_rep.
  - by apply ready_queue_rep.
  - intros p Hp. cbn in *. f_equal. lia.
  - intros p Hp. cbn in *. lia.
  - intros p Hp. cbn in *. lia.
  - rewrite Hc. unfold counts_of. cbn. f_equal; lia.
  - intros j s. unfold named. cbn. by rewrite Hsl.
Qed.

(** The counts after an update of a ring. *)
Lemma counts_get_free f q :
  counts_of (get f) q =
  Counts (hpos f - ring_size + 1) (epos f - ring_size) (epos q - ring_size) (hpos q - ring_size).
Proof. unfold counts_of. cbn. f_equal. lia. Qed.

Lemma counts_put_free s f q :
  counts_of (put s f) q =
  Counts (hpos f - ring_size) (epos f - ring_size + 1) (epos q - ring_size) (hpos q - ring_size).
Proof. unfold counts_of. cbn. f_equal. lia. Qed.

Lemma counts_put_queue s f q :
  counts_of f (put s q) =
  Counts (hpos f - ring_size) (epos f - ring_size) (epos q - ring_size + 1) (hpos q - ring_size).
Proof. unfold counts_of. cbn. f_equal. lia. Qed.

Lemma counts_get_queue f q :
  counts_of f (get q) =
  Counts (hpos f - ring_size) (epos f - ring_size) (epos q - ring_size) (hpos q - ring_size + 1).
Proof. unfold counts_of. cbn. f_equal. lia. Qed.

End Slots.

Arguments world X : clear implicits.

(** ** A peer that writes anything *)

Section CopyConfined.
Context (inside : loc -> Prop) (typed : loc -> Z -> Prop) (size : Z).

Hypothesis inside_data : forall i k, 0 <= i < size -> 0 <= k < MSG_SIZE -> inside (Data i k).
Hypothesis typed_data : forall i k v, typed (Data i k) v -> byte v.

Lemma copy_in_confined i p k :
  0 <= i < size -> 0 <= k -> k + Z.of_nat (length p) <= MSG_SIZE ->
  confined inside typed (Z.of_nat (length p)) (copy_in i k p) (fun _ => True).
Proof.
  intros Hi. revert k. induction p as [|b p IH]; intros k Hk Hlen; [done|].
  cbn -[Z.of_nat] in *. split; [apply inside_data; lia|]. intros _ _.
  eapply confined_mono; [apply IH; lia|lia|done].
Qed.

Lemma copy_out_confined i n k :
  0 <= i < size -> 0 <= k -> k + Z.of_nat n <= MSG_SIZE ->
  confined inside typed (Z.of_nat n) (copy_out n i k) (fun p => length p = n /\ Forall byte p).
Proof.
  intros Hi. revert k. induction n as [|n IH]; intros k Hk Hlen; [split; [done|by constructor]|].
  cbn -[Z.of_nat] in *. split; [apply inside_data; lia|]. intros b Hb.
  replace (Z.of_nat (S n) - 1) with (Z.of_nat n + 0) by lia. apply confined_bind.
  eapply confined_mono; [apply IH; lia|done|]. intros p [Hl Hp].
  split; [done|]. split; [cbn; lia|constructor; eauto].
Qed.

Lemma cap_size_range z : byte z -> 0 <= cap_size z <= MSG_SIZE.
Proof. unfold byte, cap_size. destruct (Z.ltb_spec MSG_SIZE z); lia. Qed.

End CopyConfined.
