(* ===== verification/PortQueue.v ===== *)
(** * The message queue of a port: nxt_port_queue.h

    A port queue carries small messages between processes in shared memory, in
    slots and rings as SlotQueue.v describes them, with a counter of the items
    by which a sender knows whether to notify the receiver.

    [port_spec] is what the queue promises: messages leave in the order in
    which they entered, each once and as it was sent, and an operation fails
    when there is nothing to take or when it was overtaken too often.
    [nxt_port_queue_refines] proves it of all interleavings of any number of
    threads. *)

From stdpp Require Import relations.
From S2P Require Import Prelude Lvlhsh Atomic Nncq SlotQueue.

#[local] Open Scope Z_scope.
#[local] Existing Instance nncq.

Abbreviation NXT_AGAIN := (-2) (only parsing).
Abbreviation NXT_PORT_QUEUE_SIZE := NXT_NNCQ_SIZE (only parsing).
Abbreviation NXT_PORT_QUEUE_MSG_SIZE := 31 (only parsing).

(** ** The operations *)

Definition nxt_port_queue_init : prog unit :=
  let@ _ := nxt_nncq_init Free_items in
  let@ _ := nxt_nncq_init Queue in
  let@ _ := free_slots (Z.to_nat NXT_PORT_QUEUE_SIZE) 0 in
  let@ _ := act (Store Nitems 0) in
  Done tt.

Inductive port_call :=
| Send (p : list Z)
| Recv.

(** What the operations return: the code, [*notify] and [*pos]; and the
    message, [None] for the size -1. *)
Inductive port_reply :=
| Sent (rc notify : Z) (pos : option Z)
| Received (p : option (list Z)).

Definition nxt_port_queue_send_pos (p : list Z) (size : Z) : prog port_reply :=
  if NXT_PORT_QUEUE_MSG_SIZE <? size then
    Done (Sent NXT_ERROR 0 None)
  else
    let@ i := nxt_nncq_dequeue Free_items in
    if i =? nxt_nncq_empty then
      Done (Sent NXT_AGAIN 0 None)
    else
      let@ _ := act (Store (Size i) size) in
      let@ _ := copy_in i 0 (take (Z.to_nat size) p) in
      let@ pos := nxt_nncq_enqueue_pos Queue i in
      match pos with
      | None =>
          let@ _ := nxt_nncq_enqueue Free_items i in
          Done (Sent NXT_ERROR 0 None)
      | Some pos =>
          let@ n := act (Fetch_add Nitems 1) in
          Done (Sent NXT_OK (if n =? 0 then 1 else 0) (Some pos))
      end.

Definition nxt_port_queue_send (p : list Z) (size : Z) : prog (option (Z * Z)) :=
  let@ r := nxt_port_queue_send_pos p size in
  Done (match r with Sent rc notify _ => Some (rc, notify) | Received _ => None end).

Definition nxt_port_queue_recv : prog port_reply :=
  let@ i := nxt_nncq_dequeue Queue in
  if i =? nxt_nncq_empty then
    Done (Received None)
  else
    let@ size := act (Load (Size i)) in
    let@ p := copy_out (Z.to_nat (cap_size size)) i 0 in
    let@ _ := nxt_nncq_enqueue Free_items i in
    let@ _ := act (Fetch_add Nitems (-1)) in
    Done (Received (Some p)).

(** The head is read first. *)
Definition nxt_port_queue_taken (pos : Z) : prog bool :=
  let@ head := nxt_nncq_head Queue in
  let@ tail := nxt_nncq_tail Queue in
  let waiting := u32 (tail - head) in
  let waiting := if NXT_PORT_QUEUE_SIZE <? waiting then NXT_PORT_QUEUE_SIZE else waiting in
  Done (waiting <=? u32 (pos - head)).

(** The size that a caller passes is the length of its message, which fits a
    [uint8_t]. *)
Definition port_body (c : port_call) : prog port_reply :=
  match c with
  | Send p => nxt_port_queue_send_pos p (Z.of_nat (length p))
  | Recv => nxt_port_queue_recv
  end.

(** ** The specification *)

(** A call that a thread makes, with the counts at its invocation and what it
    did so far. *)
Inductive status :=
| Idle
| Sending (p : list Z) (c : counts)
| Reserved (p : list Z) (c : counts)
| Published (pos : Z)
| Receiving (c : counts)
| Popped (p : list Z) (c : counts)
| Released (p : list Z)
| Returning (r : port_reply).

(** All messages that entered the queue, in their order; those before [popped]
    have left it. *)
Record port_state := PortState {
  log : list (list Z);
  count : counts;
  nitems : Z;
  stat : nat -> status
}.

Definition set_stat (i : nat) (s : status) (f : nat -> status) : nat -> status :=
  fun j => if decide (j = i) then s else f j.

(** The specification moves: thread [i] goes from its status to another, the
    rest of the state changes. *)
Inductive port_move : list (list Z) -> counts -> Z -> status ->
                      list (list Z) -> counts -> Z -> status -> Prop :=
(* nxt_port_queue_send_pos *)
| move_too_long l c n p c0 :
    NXT_PORT_QUEUE_MSG_SIZE < Z.of_nat (length p) ->
    port_move l c n (Sending p c0) l c n (Returning (Sent NXT_ERROR 0 None))
| move_reserve l r rel pub pop n p c0 :
    Z.of_nat (length p) <= NXT_PORT_QUEUE_MSG_SIZE -> r < rel ->
    port_move l (Counts r rel pub pop) n (Sending p c0)
              l (Counts (r + 1) rel pub pop) n (Reserved p c0)
| move_full l c n p c0 :
    reserved c = released c ->
    port_move l c n (Sending p c0) l c n (Returning (Sent NXT_AGAIN 0 None))
| move_send_overtaken l c n p c0 :
    NXT_PORT_QUEUE_SIZE <= reserved c - reserved c0 ->
    port_move l c n (Sending p c0) l c n (Returning (Sent NXT_AGAIN 0 None))
| move_publish l r rel pub pop n p c0 :
    port_move l (Counts r rel pub pop) n (Reserved p c0)
              (l ++ [p]) (Counts r rel (pub + 1) pop) n
              (Published (u32 (NXT_PORT_QUEUE_SIZE + pub)))
| move_give_back l r rel pub pop n p c0 :
    NXT_PORT_QUEUE_SIZE <= 2 * (pub - published c0) + 1 ->
    port_move l (Counts r rel pub pop) n (Reserved p c0)
              l (Counts r (rel + 1) pub pop) n (Returning (Sent NXT_ERROR 0 None))
| move_slot_lost l c n p c0 :
    NXT_PORT_QUEUE_SIZE <= 2 * (published c - published c0) + 1 ->
    NXT_PORT_QUEUE_SIZE <= 2 * (released c - released c0) + 1 ->
    port_move l c n (Reserved p c0) l c n (Returning (Sent NXT_ERROR 0 None))
| move_count l c n pos :
    port_move l c n (Published pos)
              l c (u32 (n + 1)) (Returning (Sent NXT_OK (if n =? 0 then 1 else 0) (Some pos)))
(* nxt_port_queue_recv *)
| move_pop l r rel pub pop n p c0 :
    l !! Z.to_nat pop = Some p ->
    port_move l (Counts r rel pub pop) n (Receiving c0)
              l (Counts r rel pub (pop + 1)) n (Popped p c0)
| move_nothing l c n c0 :
    popped c = published c ->
    port_move l c n (Receiving c0) l c n (Returning (Received None))
| move_pop_overtaken l c n c0 :
    NXT_PORT_QUEUE_SIZE <= popped c - popped c0 ->
    port_move l c n (Receiving c0) l c n (Returning (Received None))
| move_release l r rel pub pop n p c0 :
    port_move l (Counts r rel pub pop) n (Popped p c0)
              l (Counts r (rel + 1) pub pop) n (Released p)
| move_discount l c n p :
    port_move l c n (Released p) l c (u32 (n - 1)) (Returning (Received (Some p)))
| move_discount_lost l c n p c0 :
    NXT_PORT_QUEUE_SIZE <= 2 * (released c - released c0) + 1 ->
    port_move l c n (Popped p c0) l c (u32 (n - 1)) (Returning (Received (Some p))).

Inductive port_internal (i : nat) : port_state -> port_state -> Prop :=
| port_internal_move l c n f l' c' n' s' :
    port_move l c n (f i) l' c' n' s' ->
    port_internal i (PortState l c n f) (PortState l' c' n' (set_stat i s' f)).

Definition called (c : port_call) (now : counts) : status :=
  match c with Send p => Sending p now | Recv => Receiving now end.

Inductive port_invoked (i : nat) (c : port_call) : port_state -> port_state -> Prop :=
| port_invoked_call l k n f :
    f i = Idle ->
    port_invoked i c (PortState l k n f) (PortState l k n (set_stat i (called c k) f)).

Inductive port_returned (i : nat) (r : port_reply) : port_state -> port_state -> Prop :=
| port_returned_reply l k n f :
    f i = Returning r ->
    port_returned i r (PortState l k n f) (PortState l k n (set_stat i Idle f)).

Definition port_spec : spec port_call port_reply :=
  Spec _ _ port_state port_internal port_invoked port_returned.

(** After [nxt_port_queue_init]: every slot is free. *)
Definition port_initial : port_state :=
  PortState [] (Counts 0 NXT_PORT_QUEUE_SIZE 0 0) 0 (fun _ => Idle).

#[global] Instance port_slots : SlotSpec port_state := {|
  sl_status := status;
  sl_stat := stat;
  sl_slot _ := None;
  sl_uses l := match l with Nitems => true | _ => false end;
  sl_words x _ := nitems x;
  sl_counts := count;
  sl_shows x k _ p := log x !! k = Some p;
  sl_good x := Z.of_nat (length (log x)) = published (count x);
  sl_step := port_internal
|}.

(** ** The operations implement the specification *)

Lemma set_stat_other i j s f : j <> i -> set_stat i s f j = f j.
Proof. intros H. unfold set_stat. by rewrite decide_False. Qed.

Lemma set_stat_same i s f : set_stat i s f i = s.
Proof. unfold set_stat. by rewrite decide_True. Qed.

Lemma stat_rely i (w w' : world port_state) : rely i w w' -> stat (ab w') i = stat (ab w) i.
Proof. intros Hr. apply (rely_stat _ _ _ Hr). Qed.

(** The state after a move of thread [i]. *)
Definition moved_to (i : nat) (l : list (list Z)) (c : counts) (n : Z) (st : status)
  (x : port_state) : port_state := PortState l c n (set_stat i st (stat x)).

(** A move of the specification with an update of the rings. *)
Lemma port_moves i (w : world port_state) m st l f q n st' o :
  inv w m -> stat (ab w) i = st ->
  port_move (log (ab w)) (counts_of (fr w) (qr w)) (nitems (ab w)) st l (counts_of f q) n st' ->
  prefix (log (ab w)) l -> Z.of_nat (length l) = epos q - ring_size ->
  moves i w (moved_to i l (counts_of f q) n st' (ab w)) f q o.
Proof.
  intros Hi Hst Hm Hl Hlen. rewrite <- (inv_counts _ _ Hi) in Hm. subst st.
  split; cbn -[ring_size]; [|intros; by apply set_stat_other|done| |done|done].
  - apply rtc_once. cbn. unfold moved_to. destruct (ab w). by constructor.
  - intros k _ msg Hk. by eapply prefix_lookup_Some.
Qed.

(** The log has as many messages as the queue took. *)
Lemma log_length (w : world port_state) m :
  inv w m -> Z.of_nat (length (log (ab w))) = epos (qr w) - ring_size.
Proof.
  intros Hi. pose proof (inv_good _ _ Hi) as H. cbn -[ring_size] in H. rewrite H.
  pose proof (inv_counts _ _ Hi) as Hc. cbn -[ring_size] in Hc. by rewrite Hc.
Qed.

(** A move that leaves the messages and the counter. *)
Lemma port_moves_keep i (w w' : world port_state) m st f q st' o :
  rely i w w' -> inv w' m -> stat (ab w) i = st ->
  port_move (log (ab w')) (counts_of (fr w') (qr w')) (nitems (ab w')) st
            (log (ab w')) (counts_of f q) (nitems (ab w')) st' ->
  epos q = epos (qr w') ->
  exists x, moves i w' x f q o /\ same_words w' x /\ sl_stat x i = st'.
Proof.
  intros Hr Hi Hst Hm Hq.
  exists (moved_to i (log (ab w')) (counts_of f q) (nitems (ab w')) st' (ab w')).
  split_and!; [|by intros [] ?|apply set_stat_same].
  eapply port_moves; [done| |done|done|rewrite Hq; by eapply log_length].
  rewrite <- Hst. apply (stat_rely _ _ _ Hr).
Qed.

Lemma retries_Z : Z.of_nat ring_retries = NXT_PORT_QUEUE_SIZE.
Proof. cbn [ring_retries nncq]. lia. Qed.

Section Operations.
Context (gap : Z) (Hgap : 0 < gap /\ 3 * gap <= ring_size * (ring_cycles - 2)) (i : nat).

Notation wpi := (wp time inv rely abstract gap i).
Notation returns := (fun r => finish i (Returning r)).

(** A status from which one move returns. *)
Lemma finish_move (w : world port_state) st r :
  stat (ab w) i = st ->
  (forall w' m, rely i w w' -> inv w' m ->
    port_move (log (ab w')) (counts_of (fr w') (qr w')) (nitems (ab w')) st
              (log (ab w')) (counts_of (fr w') (qr w')) (nitems (ab w')) (Returning r)) ->
  returns r w.
Proof. intros Hst Hm w' m Hr Hi. eapply port_moves_keep; eauto. Qed.

(** The counter of the items. *)
Lemma wp_nitems st d r (w : world port_state) :
  stat (ab w) i = st ->
  (forall w' m, rely i w w' -> inv w' m ->
    port_move (log (ab w')) (counts_of (fr w') (qr w')) (nitems (ab w')) st
              (log (ab w')) (counts_of (fr w') (qr w')) (u32 (nitems (ab w') + d))
              (Returning (r (nitems (ab w'))))) ->
  wpi (let@ n := act (Fetch_add Nitems d) in Done (r n)) returns w.
Proof.
  intros Hst Hmove. apply wp_word; [done|]. intros w1 m1 Hr Hi.
  assert (Hn : m1 Nitems = nitems (ab w1)) by (by apply (inv_words _ _ Hi)).
  exists (moved_to i (log (ab w1)) (counts_of (fr w1) (qr w1)) (u32 (nitems (ab w1) + d))
            (Returning (r (nitems (ab w1)))) (ab w1)).
  split_and!.
  - eapply (port_moves _ _ _ st); [done|by rewrite (stat_rely _ _ _ Hr)|eauto|done|by eapply log_length].
  - intros [] Hl; cbn in Hl; try done. cbn. by rewrite upd_same, Hn.
  - intros _. cbn. rewrite Hn. apply finish_here, set_stat_same.
Qed.

(** The end of a send, with the slot filled. *)
Lemma wp_send_filled s p c (w : world port_state) :
  own i s (Reserved p c) c w -> 0 <= s < ring_size -> holds w s p ->
  wpi (let@ pos := nxt_nncq_enqueue_pos Queue s in
    match pos with
    | None =>
        let@ _ := nxt_nncq_enqueue Free_items s in
        Done (Sent NXT_ERROR 0 None)
    | Some pos =>
        let@ n := act (Fetch_add Nitems 1) in
        Done (Sent NXT_OK (if n =? 0 then 1 else 0) (Some pos))
    end) returns w.
Proof.
  intros Ho Hs Hh. apply wp_bind. pose proof Ho as (Hst & _ & Hc & _).
  eapply (wp_publish (SX := port_slots) gap Hgap i s p _ Published c); [done|done|done| | |].
  - intros w1 m1 Hr Hi. pose proof (log_length _ _ Hi) as Hlen.
    exists (moved_to i (log (ab w1) ++ [p]) (counts_of (fr w1) (put s (qr w1))) (nitems (ab w1))
              (Published (u32 (epos (qr w1)))) (ab w1)).
    split_and!; [|by intros [] ?|apply set_stat_same|].
    + eapply port_moves; [done|by rewrite (stat_rely _ _ _ Hr)| |by apply prefix_app_r|].
      * rewrite counts_put_queue. unfold counts_of.
        replace (epos (qr w1)) with (NXT_PORT_QUEUE_SIZE + (epos (qr w1) - ring_size)) at 3 by (cbn; lia).
        constructor.
      * rewrite length_app. cbn -[ring_size]. lia.
    + cbn -[ring_size]. apply list_lookup_middle. lia.
  - intros pos w1 Hst1 _. eapply wp_nitems; [exact Hst1|]. constructor.
  - intros w1 Hr [m1 Hi] H. apply wp_bind. rewrite retries_Z in H.
    pose proof (own_rely _ _ _ _ _ _ _ Ho Hr Hi) as Ho1. pose proof Ho1 as (Hst1 & _ & Hc1 & _).
    eapply (wp_release (SX := port_slots) gap Hgap i s _ (Returning (Sent NXT_ERROR 0 None)) c); [done|done| | |].
    + intros w2 m2 Hr2 Hi2. eapply port_moves_keep; [done|done|done| |done].
      rewrite counts_put_free. constructor. destruct (rely_queue _ _ _ Hr2). lia.
    + intros _ w2 Hst2 _. by apply finish_here.
    + intros w2 Hr2 H2. eapply finish_move; [rewrite (stat_rely _ _ _ Hr2); exact Hst1|].
      intros w3 m3 Hr3 Hi3. rewrite retries_Z in H2.
      destruct (rely_queue _ _ _ Hr2), (rely_queue _ _ _ Hr3), (rely_free _ _ _ Hr3).
      constructor; cbn -[ring_size]; lia.
Qed.

Lemma wp_send p c (w : world port_state) :
  stat (ab w) i = Sending p c -> since c w ->
  wpi (nxt_port_queue_send_pos p (Z.of_nat (length p))) returns w.
Proof.
  intros Hst Hc. unfold nxt_port_queue_send_pos.
  destruct (_ <? _) eqn:El; [apply Z.ltb_lt in El|apply Z.ltb_ge in El].
  { eapply finish_move; [done|]. intros w' m' Hr _. by constructor. }
  apply wp_bind, (wp_reserve (SX := port_slots) gap Hgap i (fun _ => Reserved p c) c); [done| | | |].
  - intros w1 m1 Hr Hi Hlt. eapply port_moves_keep; [done|done|done| |done].
    rewrite counts_get_free. constructor; [done|]. lia.
  - intros s w1 Hs Ho. rewrite (proj2 (Z.eqb_neq s nxt_nncq_empty)) by (unfold nxt_nncq_empty; lia).
    rewrite Nat2Z.id, take_ge by lia.
    apply (wp_bind _ _ _ _ _ _ (let@ _ := act (Store (Size s) (Z.of_nat (length p))) in copy_in s 0 p)).
    eapply wp_fill; [done|done|done|]. intros w2 Ho2 Hh2. by apply (wp_send_filled s p c).
  - intros w1 m1 Hr Hi Heq. edestruct (port_moves_keep i w w1) as (x & Hm & Hw & Hx);
      [done|done|exact Hst|apply move_full|done|].
    { cbn -[ring_size]. lia. }
    exists x. split_and!; [done|done|]. by apply finish_here.
  - intros w1 Hr H. rewrite retries_Z in H. eapply finish_move; [rewrite (stat_rely _ _ _ Hr); exact Hst|].
    intros w2 m2 Hr2 _. apply move_send_overtaken. destruct (rely_free _ _ _ Hr2). cbn -[ring_size]. lia.
Qed.

Lemma wp_recv c (w : world port_state) :
  stat (ab w) i = Receiving c -> since c w -> wpi nxt_port_queue_recv returns w.
Proof.
  intros Hst Hc. unfold nxt_port_queue_recv.
  apply wp_bind, (wp_pop (SX := port_slots) gap Hgap i (fun _ p => Popped p c) c); [done| | | |].
  - intros w1 m1 p Hr Hi Hlt Hsh. eapply port_moves_keep; [done|done|done| |done].
    rewrite counts_get_queue. by constructor.
  - intros s p w1 Hs Ho Hh. rewrite (proj2 (Z.eqb_neq s nxt_nncq_empty)) by (unfold nxt_nncq_empty; lia).
    eapply wp_load_message; [done|done|done|]. intros w2 Hr2 Ho2. apply wp_bind.
    pose proof Ho2 as (Hst2 & _).
    eapply (wp_release (SX := port_slots) gap Hgap i s _ (Released p) c); [done|done| | |].
    + intros w3 m3 Hr3 Hi3. eapply port_moves_keep; [done|done|done| |done].
      rewrite counts_put_free. constructor.
    + intros _ w3 Hst3 _. eapply (wp_nitems _ _ (fun _ => Received (Some p))); [exact Hst3|]. constructor.
    + intros w3 Hr3 H3. rewrite retries_Z in H3. eapply (wp_nitems _ _ (fun _ => Received (Some p))).
      { rewrite (stat_rely _ _ _ Hr3). exact Hst2. }
      intros w4 m4 Hr4 Hi4. apply move_discount_lost. destruct (rely_free _ _ _ Hr4). cbn -[ring_size]. lia.
  - intros w1 m1 Hr Hi Heq. edestruct (port_moves_keep i w w1) as (x & Hm & Hw & Hx);
      [done|done|exact Hst|apply move_nothing|done|].
    { cbn -[ring_size]. lia. }
    exists x. split_and!; [done|done|]. by apply finish_here.
  - intros w1 Hr H. rewrite retries_Z in H. eapply finish_move; [rewrite (stat_rely _ _ _ Hr); exact Hst|].
    intros w2 m2 Hr2 _. apply move_pop_overtaken. destruct (rely_queue _ _ _ Hr2). cbn -[ring_size]. lia.
Qed.

End Operations.

(** ** Calls *)

(** The memory of an empty queue with all its slots free. *)
Definition port_ready (m : mem) : Prop := rings_ready ring_size m /\ m Nitems = 0.

(** A thread between two calls. *)
Definition idle (i : nat) (w : world port_state) : Prop := stat (ab w) i = Idle.

(** The end of a call that returns [r]. *)
Definition port_post (i : nat) (r : port_reply) : world port_state -> Prop :=
  finish (SX := port_slots) i (Returning r).

Lemma can_invoke gap i c w m :
  0 < gap /\ 3 * gap <= ring_size * (ring_cycles - 2) -> inv w m -> idle i w ->
  exists w', inv w' m /\ time w' = time w /\ (forall j, j <> i -> rely j w w') /\
    port_invoked i c (ab w) (ab w') /\
    wp time inv rely abstract gap i (port_body c) (port_post i) w'.
Proof.
  intros Hgap Hi Hidle.
  set (x := moved_to i (log (ab w)) (count (ab w)) (nitems (ab w)) (called c (count (ab w))) (ab w)).
  destruct (restatus i x w m) as (Hi' & Ht & Hr); try done.
  { intros j Hj. by apply set_stat_other. }
  { apply (inv_good _ _ Hi). }
  exists (respec x 0 w). split_and!; [done|done|done| |].
  - unfold idle, x, moved_to in *. cbn. destruct (ab w). by constructor.
  - pose proof (since_counts _ _ Hi') as Hs.
    destruct c as [p|]; [eapply wp_send|eapply wp_recv]; eauto; apply set_stat_same.
Qed.

Lemma can_return i r (w0 w : world port_state) m :
  port_post i r w0 -> rely i w0 w -> inv w m ->
  exists s w', inv w' m /\ time w' = time w /\ (forall j, j <> i -> rely j w w') /\
    rtc (port_internal i) (ab w) s /\ port_returned i r s (ab w') /\ idle i w'.
Proof.
  intros Hf Hr Hi. destruct (Hf w m Hr Hi) as (x & [Hsteps Hst Hc Hsh Hg _] & Hw & Hx).
  set (x' := moved_to i (log x) (count x) (nitems x) Idle x).
  destruct (restatus i x' w m) as (Hi' & Ht & Hr'); try done.
  { intros j Hj. cbn. rewrite set_stat_other by done. by apply Hst. }
  { by rewrite (inv_counts _ _ Hi). }
  exists x, (respec x' 0 w). split_and!; [done|done|done|done| |apply set_stat_same].
  cbn. unfold x', moved_to. destruct x. by constructor.
Qed.

(** The soundness of the logic, for the port queue. *)
Lemma port_run_refines m clients schedule c' :
  port_ready m -> run port_body (2 ^ 28) schedule (start m clients) = Some c' ->
  exists s, history_of port_spec port_initial (history c') s.
Proof.
  intros [Hm Hn] Hrun.
  assert (Hgap : 0 < 2 ^ 28 /\ 3 * 2 ^ 28 <= ring_size * (ring_cycles - 2)) by (cbn; lia).
  destruct (run_refines port_body port_spec time inv rely ab idle port_post (2 ^ 28))
    with (m := m) (clients := clients) (w0 := initial_world port_initial m) (schedule := schedule) (c' := c')
    as (w & _ & Hh); eauto using rely_refl, rely_trans, can_invoke, can_return.
  - intros i w w' Hi Hr. unfold idle in *. by rewrite (stat_rely _ _ _ Hr).
  - apply ready_inv; try done. by intros [].
  - done.
Qed.

(** ** The theorems *)

(** [nxt_port_queue_init] makes any memory an empty queue with all its
    slots free. *)
Lemma nxt_port_queue_init_ready m : port_ready (snd (alone nxt_port_queue_init m)).
Proof.
  unfold nxt_port_queue_init. pose proof (init_ready m) as Hr. rewrite !alone_bind in *.
  set (m' := snd (alone (free_slots _ _) _)) in *. clearbody m'.
  cbn [pbind act alone perform fst snd]. split; [|apply upd_same].
  destruct Hr. split; intros; rewrite upd_other by done; auto.
Qed.

(** C20. Linearizability.  Initialization makes any memory an empty queue with
    all its slots free.  Any number of threads send to and receive from a queue
    in any interleaving of their single accesses to memory, no thread being
    suspended in a call for 2^28 updates.  Then the invocations and returns are
    those of a run of the specification. *)
Theorem nxt_port_queue_refines :
  (forall m, port_ready (snd (alone nxt_port_queue_init m))) /\
  (forall m clients schedule c',
     port_ready m -> run port_body (2 ^ 28) schedule (start m clients) = Some c' ->
     exists s, history_of port_spec port_initial (history c') s).
Proof. split; [apply nxt_port_queue_init_ready|apply port_run_refines]. Qed.

(** ** A peer that writes anything *)

(** The words of the queue, and the values of their types. *)
Definition port_inside (l : loc) : Prop :=
  match l with
  | Entry _ j => 0 <= j < NXT_PORT_QUEUE_SIZE
  | Size i => 0 <= i < NXT_PORT_QUEUE_SIZE
  | Data i k => 0 <= i < NXT_PORT_QUEUE_SIZE /\ 0 <= k < NXT_PORT_QUEUE_MSG_SIZE
  | Tracking _ | Notified => False
  | Head _ | Tail _ | Nitems => True
  end.

Definition port_typed (l : loc) (v : Z) : Prop :=
  match l with Size _ | Data _ _ => byte v | _ => 0 <= v < 2 ^ 32 end.

Notation port_confined := (confined port_inside port_typed).

Lemma port_inside_ring q :
  port_inside (Head q) /\ port_inside (Tail q) /\ forall j, 0 <= j < ring_size -> port_inside (Entry q j).
Proof. done. Qed.

Lemma port_enqueue_confined q v :
  port_confined (3 * NXT_PORT_QUEUE_SIZE + 1) (nxt_nncq_enqueue_pos q v) (fun _ => True).
Proof. rewrite <- retries_Z. apply enqueue_confined, port_inside_ring. Qed.

Lemma port_dequeue_confined q :
  port_confined (3 * NXT_PORT_QUEUE_SIZE) (nxt_nncq_dequeue q)
    (fun v => v = nxt_nncq_empty \/ 0 <= v < NXT_PORT_QUEUE_SIZE).
Proof.
  eapply confined_mono; [apply dequeue_confined, port_inside_ring|by rewrite retries_Z|done].
Qed.

(** What a receive may return. *)
Definition received_fits (r : port_reply) : Prop :=
  match r with
  | Received (Some p) => Z.of_nat (length p) <= NXT_PORT_QUEUE_MSG_SIZE /\ Forall byte p
  | r => r = Received None
  end.

Lemma recv_confined :
  port_confined (6 * NXT_PORT_QUEUE_SIZE + 34) nxt_port_queue_recv received_fits.
Proof.
  replace (6 * NXT_PORT_QUEUE_SIZE + 34)
    with (3 * NXT_PORT_QUEUE_SIZE + (1 + (31 + (3 * NXT_PORT_QUEUE_SIZE + 1 + 1)))) by lia.
  unfold nxt_port_queue_recv. apply confined_bind.
  eapply confined_mono; [apply port_dequeue_confined|lia|].
  intros i Hi. destruct (i =? nxt_nncq_empty) eqn:E; [done|apply Z.eqb_neq in E].
  destruct Hi as [|Hi]; [done|]. apply confined_bind. split; [done|]. intros size Hsize.
  cbn in Hsize. split; [lia|].
  pose proof (cap_size_range size Hsize) as Hn.
  apply confined_bind. eapply confined_mono; [eapply (copy_out_confined _ _ NXT_PORT_QUEUE_SIZE); try done; lia|lia|].
  intros p [Hl Hp]. apply confined_bind. eapply confined_mono; [apply port_enqueue_confined|lia|].
  intros _ _. split; [done|]. intros v Hv. split; [lia|]. split; [lia|done].
Qed.

Lemma send_confined p :
  port_confined (9 * NXT_PORT_QUEUE_SIZE + 36) (port_body (Send p))
    (fun r => exists rc notify pos, r = Sent rc notify pos).
Proof.
  unfold port_body, nxt_port_queue_send_pos.
  destruct (_ <? _) eqn:El; [split; [lia|eauto]|apply Z.ltb_ge in El].
  replace (9 * NXT_PORT_QUEUE_SIZE + 36)
    with (3 * NXT_PORT_QUEUE_SIZE + (1 + (31 + (3 * NXT_PORT_QUEUE_SIZE + 1 + (3 * NXT_PORT_QUEUE_SIZE + 1 + 2))))) by lia.
  apply confined_bind. eapply confined_mono; [apply port_dequeue_confined|lia|].
  intros i Hi. destruct (i =? nxt_nncq_empty) eqn:E; [split; [lia|eauto]|apply Z.eqb_neq in E].
  destruct Hi as [|Hi]; [done|]. apply confined_bind. split; [done|]. intros v Hv. split; [lia|].
  rewrite Nat2Z.id, take_ge by lia.
  apply confined_bind. eapply confined_mono; [eapply (copy_in_confined _ _ NXT_PORT_QUEUE_SIZE); try done; lia|lia|].
  intros _ _. apply confined_bind. eapply confined_mono; [apply port_enqueue_confined|lia|].
  intros [pos|] _.
  - split; [done|]. intros n _. split; [lia|eauto].
  - apply confined_bind. eapply confined_mono; [apply port_enqueue_confined|lia|].
    intros _ _. split; [lia|eauto].
Qed.

(** C32. Against a peer that writes anything to the shared memory at any time,
    a receive stays inside the queue and the 31 bytes of the caller, a send
    writes only inside its slot, and they end within six and nine accesses for
    each of the 16384 tries. *)
Theorem nxt_port_queue_confined p :
  port_confined (6 * NXT_PORT_QUEUE_SIZE + 34) nxt_port_queue_recv received_fits /\
  port_confined (9 * NXT_PORT_QUEUE_SIZE + 36) (port_body (Send p))
    (fun r => exists rc notify pos, r = Sent rc notify pos).
Proof. split; [apply recv_confined|apply send_confined]. Qed.

(** ** Whether an item was taken *)

(** A program that only loads, its n-th load from the n-th memory. *)
Fixpoint observe {A} (p : prog A) (ms : list mem) : option A :=
  match p, ms with
  | Done a, [] => Some a
  | Act (Load l) k, m :: ms => observe (k (m l)) ms
  | _, _ => None
  end.

(** [nxt_port_queue_taken] reads the head from one state of the queue and
    the tail from a later one.  For the item of a send that returned, it says
    "taken" when the head had passed the item, unless by almost the range of
    the counters, and never while the item still waits. *)
Theorem nxt_port_queue_taken_correct c1 c2 m1 m2 p :
  ring_rep Queue c1 m1 -> ring_rep Queue c2 m2 -> cursor_le c1 c2 ->
  p < tpos c1 -> tpos c2 - hpos c1 < 2 ^ 32 ->
  exists taken, observe (nxt_port_queue_taken (u32 p)) [m1; m2] = Some taken /\
    (hpos c2 <= p -> taken = false) /\
    (p < hpos c1 <= p + 2 ^ 32 - NXT_PORT_QUEUE_SIZE -> taken = true).
Proof.
  intros H1 H2 [Hh Ht He _] Hp Hlap. eexists. split; [reflexivity|].
  rewrite (rep_head _ _ _ H1), (rep_tail _ _ _ H2).
  pose proof (rep_bounds _ _ _ H1) as Hb. pose proof (rep_tail_bounds _ _ _ H1) as Htb.
  change ring_size with NXT_PORT_QUEUE_SIZE in Hb.
  assert (Hsub : forall a b, u32 (u32 a - u32 b) = u32 (a - b)).
  { intros a b. unfold u32. by rewrite Zminus_mod_idemp_l, Zminus_mod_idemp_r. }
  rewrite !Hsub. split.
  - intros Hw. apply Z.leb_gt. rewrite !u32_id by lia. destruct (Z.ltb_spec 16384 (tpos c2 - hpos c1)); lia.
  - intros Hw. apply Z.leb_le. replace (u32 (p - hpos c1)) with (2 ^ 32 + (p - hpos c1)).
    + destruct (Z.ltb_spec 16384 (u32 (tpos c2 - hpos c1))); lia.
    + unfold u32. apply Z.mod_unique with (-1); lia.
Qed.

(** ** A run *)

(** The memory of an initialized queue. *)
Definition ready_memory : mem := fun l =>
  match l with
  | Head _ | Tail Queue => NXT_PORT_QUEUE_SIZE
  | Tail Free_items => 2 * NXT_PORT_QUEUE_SIZE
  | Entry Free_items j => NXT_PORT_QUEUE_SIZE + j
  | _ => 0
  end.

Lemma ready_memory_ok : port_ready ready_memory.
Proof. split; [|done]. split; cbn; lia || done. Qed.

(** A sender and a receiver take turns of two steps.  The receiver finds the
    queue empty twice, and takes the second message while its sender has not
    returned. *)
Definition turns : list nat :=
  List.concat (replicate 11 [0; 0; 1; 1]%nat) ++ replicate 2 0%nat ++ replicate 12 1%nat ++
  replicate 2 0%nat.

Definition sample_clients : list (list port_call) :=
  [map Send [[7; 8; 9]; [1]]; replicate 4 Recv].

Definition sample_history : list (event port_call port_reply) :=
  [Invoke 0 (Send [7; 8; 9]); Invoke 1 Recv; Return 1 (Received None);
   Invoke 1 Recv; Return 1 (Received None); Invoke 1 Recv;
   Return 0 (Sent NXT_OK 1 (Some 16384)); Invoke 0 (Send [1]);
   Return 1 (Received (Some [7; 8; 9])); Invoke 1 Recv; Return 1 (Received (Some [1]));
   Return 0 (Sent NXT_OK 0 (Some 16385))].

Lemma sample_run :
  exists c', run port_body (2 ^ 28) turns (start ready_memory sample_clients) = Some c' /\
    history c' = sample_history.
Proof.
  destruct (run port_body (2 ^ 28) turns (start ready_memory sample_clients)) as [c'|] eqn:E.
  - exists c'. split; [done|].
    assert (H : option_map history (run port_body (2 ^ 28) turns (start ready_memory sample_clients))
                = Some sample_history) by (vm_compute; reflexivity).
    rewrite E in H. by injection H.
  - assert (H : option_map history (run port_body (2 ^ 28) turns (start ready_memory sample_clients))
                = Some sample_history) by (vm_compute; reflexivity).
    by rewrite E in H.
Qed.

Lemma nxt_port_queue_refines_witness :
  exists s, history_of port_spec port_initial sample_history s.
Proof.
  destruct sample_run as (c' & Hrun & <-).
  exact (proj2 nxt_port_queue_refines ready_memory sample_clients turns c' ready_memory_ok Hrun).
Defined.

(** The queue with slot 0 at position 16384. *)
Definition one_item : cursor := settle (put 0 queue_cursor).

Definition one_item_memory : mem :=
  upd (upd ready_memory (Entry Queue (16384 mod ring_size)) (entry_of 16384 0)) (Tail Queue) (u32 (16384 + 1)).

Lemma one_item_rep : ring_rep Queue one_item one_item_memory.
Proof.
  refine (settle_rep Queue (put 0 queue_cursor)
            (upd ready_memory (Entry Queue (16384 mod ring_size)) (entry_of 16384 0)) _ _); [|done].
  refine (put_rep Queue queue_cursor ready_memory 0 _ _ _ _); [|done..].
  apply ready_queue_rep, ready_memory_ok.
Qed.

Lemma nxt_port_queue_taken_witness :
  exists taken, observe (nxt_port_queue_taken (u32 16384)) [one_item_memory; one_item_memory] = Some taken /\
    taken = false.
Proof.
  destruct (nxt_port_queue_taken_correct one_item one_item one_item_memory one_item_memory 16384
              one_item_rep one_item_rep (cursor_le_refl one_item) ltac:(done) ltac:(done)) as (b & Hb & Hf & _).
  exists b. split; [exact Hb|]. apply Hf. done.
Defined.
