(* ===== verification/PortFifo.v ===== *)
(** * The port queue between two threads

    What the specification of the port queue means to its users: between one
    sender and one receiver, messages arrive in the order in which they were
    sent, each at most once and unchanged, and all of them when no send
    failed. *)

From stdpp Require Import relations.
From S2P Require Import Prelude Lvlhsh Atomic Nncq SlotQueue PortQueue.

#[local] Open Scope Z_scope.

(** ** One sender and one receiver

    What the specification means to two threads of which one sends and one
    receives. *)

Definition received_in (h : list (event port_call port_reply)) : list (list Z) :=
  omap (fun e => match e with Return _ (Received o) => o | _ => None end) h.

Definition offered_in (h : list (event port_call port_reply)) : list (list Z) :=
  omap (fun e => match e with Invoke _ (Send p) => Some p | _ => None end) h.

(** A send that returned an error. *)
Definition failed_send (e : event port_call port_reply) : bool :=
  match e with Return _ (Sent rc _ _) => negb (rc =? NXT_OK) | _ => false end.

Definition failed_in (h : list (event port_call port_reply)) : bool := existsb failed_send h.

(** The message that the receiver has, the one that the sender has, and
    whether the sender failed. *)
Definition in_hand (st : status) : list (list Z) :=
  match st with
  | Popped p _ | Released p | Returning (Received (Some p)) => [p]
  | _ => []
  end.

Definition to_send (st : status) : list (list Z) :=
  match st with Sending p _ | Reserved p _ => [p] | _ => [] end.

Definition failed (st : status) : bool :=
  match st with Returning (Sent rc _ _) => negb (rc =? NXT_OK) | _ => false end.

Definition sends (st : status) : bool :=
  match st with Sending _ _ | Reserved _ _ | Published _ | Returning (Sent _ _ _) => true | _ => false end.

Definition receives (st : status) : bool :=
  match st with
  | Receiving _ | Popped _ _ | Released _ | Returning (Received _) => true
  | _ => false
  end.

Lemma received_in_app h h' : received_in (h ++ h') = received_in h ++ received_in h'.
Proof. apply omap_app. Qed.

Lemma offered_in_app h h' : offered_in (h ++ h') = offered_in h ++ offered_in h'.
Proof. apply omap_app. Qed.

Lemma failed_in_app h h' : failed_in (h ++ h') = failed_in h || failed_in h'.
Proof. apply existsb_app. Qed.

(** The threads in a role when one of them changes its status. *)
Lemma role_set (P : status -> bool) x i st f :
  (forall j, P (f j) = true -> j = x) -> (P st = true -> i = x) ->
  forall j, P (set_stat i st f j) = true -> j = x.
Proof. intros Hf Hst j. unfold set_stat. case_decide; subst; auto. Qed.

Section Two.
Context (t r : nat) (Hne : t <> r).

(** Thread [t] only sends and thread [r] only receives. *)
Definition two (h : list (event port_call port_reply)) : Prop :=
  forall i c, Invoke i c ∈ h -> match c with Send _ => i = t | Recv => i = r end.

Record ordered (h : list (event port_call port_reply)) (s : port_state) : Prop := {
  ordered_sends i : sends (stat s i) = true -> i = t;
  ordered_receives i : receives (stat s i) = true -> i = r;
  ordered_popped : 0 <= popped (count s) <= Z.of_nat (length (log s));
  ordered_received : received_in h ++ in_hand (stat s r) = take (Z.to_nat (popped (count s))) (log s);
  ordered_offered : sublist (log s ++ to_send (stat s t)) (offered_in h);
  ordered_all : failed_in h || failed (stat s t) = false -> log s ++ to_send (stat s t) = offered_in h;
  ordered_prefix : failed_in h = false -> prefix (log s ++ to_send (stat s t)) (offered_in h)
}.

(** A move of the sender or of the receiver. *)
Lemma move_role l c n st l' c' n' st' :
  port_move l c n st l' c' n' st' ->
  sends st' = sends st /\ receives st' = receives st /\ sends st = negb (receives st).
Proof. by destruct 1. Qed.

Lemma sender_move l c n st l' c' n' st' :
  port_move l c n st l' c' n' st' -> sends st = true ->
  popped c' = popped c /\
  ((failed st' = true /\ l' = l /\ to_send st' = []) \/
   (failed st' = failed st /\ l' ++ to_send st' = l ++ to_send st)) /\
  (length l <= length l')%nat /\ (forall k, (k <= length l)%nat -> take k l' = take k l).
Proof.
  destruct 1; intros Hs; try done; cbn; (split; [done|]);
    (split; [rewrite ?app_nil_r; auto|]);
    (split; [rewrite ?length_app; lia|intros k Hk; by rewrite ?take_app_le]).
Qed.

Lemma receiver_move l c n st l' c' n' st' :
  port_move l c n st l' c' n' st' -> receives st = true ->
  0 <= popped c <= Z.of_nat (length l) ->
  l' = l /\ 0 <= popped c' <= Z.of_nat (length l) /\ forall x,
    x ++ in_hand st = take (Z.to_nat (popped c)) l -> x ++ in_hand st' = take (Z.to_nat (popped c')) l.
Proof.
  destruct 1 as [| | | | | | | |l r0 rel pub pop n p c0 Hl| | | | |]; intros Hs Hp; try done.
  cbn in *. pose proof (lookup_lt_Some _ _ _ Hl). split_and!; [done|lia|lia|]. intros x Hx. rewrite app_nil_r in Hx. subst x.
  replace (Z.to_nat (pop + 1)) with (S (Z.to_nat pop)) by lia. symmetry. by apply take_S_r.
Qed.

Lemma ordered_internal i h s s' : ordered h s -> port_internal i s s' -> ordered h s'.
Proof.
  intros Ho Hm. destruct Hm as [l c n f l' c' n' st' Hm].
  destruct Ho as [Hs Hr Hp Hrec Hoff Hall Hpre]. cbn in *.
  destruct (move_role _ _ _ _ _ _ _ _ Hm) as (Hs' & Hr' & Hx).
  assert (Hroles : (forall j, sends (set_stat i st' f j) = true -> j = t) /\
                   (forall j, receives (set_stat i st' f j) = true -> j = r)).
  { split; apply role_set; rewrite ?Hs', ?Hr'; auto. }
  destruct (sends (f i)) eqn:Es.
  - pose proof (Hs i Es) as ->. destruct (sender_move _ _ _ _ _ _ _ _ Hm Es) as (Hpop & Hl & Hlen & Htake).
    split; cbn; try tauto; rewrite ?set_stat_same, ?set_stat_other, ?Hpop by done; [lia| | | |].
    + rewrite Htake by lia. done.
    + destruct Hl as [(_ & -> & ->)|(_ & ->)]; [|done]. rewrite app_nil_r.
      etrans; [|exact Hoff]. apply sublist_inserts_r. reflexivity.
    + destruct Hl as [(-> & _)|(-> & ->)]; [by rewrite orb_true_r|done].
    + intros Hf. destruct Hl as [(_ & -> & ->)|(_ & ->)]; [|auto]. rewrite app_nil_r.
      etrans; [|exact (Hpre Hf)]. by apply prefix_app_r.
  - assert (Er : receives (f i) = true) by (by destruct (receives (f i))). pose proof (Hr i Er) as ->.
    destruct (receiver_move _ _ _ _ _ _ _ _ Hm Er Hp) as (-> & Hp' & Hrec').
    split; cbn; try tauto; rewrite ?set_stat_same, ?set_stat_other by done; auto.
Qed.

Lemma ordered_invoked i c h s s' :
  ordered h s -> port_invoked i c s s' -> two (h ++ [Invoke i c]) -> ordered (h ++ [Invoke i c]) s'.
Proof.
  intros Ho Hm Htwo. destruct Hm as [l k n f Hidle].
  destruct Ho as [Hs Hr Hp Hrec Hoff Hall Hpre]. cbn in *.
  assert (Hc : match c with Send _ => i = t | Recv => i = r end).
  { apply (Htwo i c). set_solver. }
  split; cbn; rewrite ?received_in_app, ?offered_in_app, ?failed_in_app; cbn; rewrite ?orb_false_r, ?app_nil_r.
  - apply role_set; [done|]. by destruct c.
  - apply role_set; [done|]. by destruct c.
  - done.
  - destruct c; subst i; [by rewrite set_stat_other|]. rewrite set_stat_same. cbn. by rewrite Hidle in Hrec.
  - destruct c; subst i; [|by rewrite set_stat_other, ?app_nil_r]. rewrite set_stat_same. cbn.
    rewrite Hidle, app_nil_r in Hoff. by apply sublist_app.
  - destruct c; subst i; [|by rewrite set_stat_other, ?app_nil_r]. rewrite set_stat_same. cbn.
    rewrite Hidle, app_nil_r in Hall. intros Hf. by rewrite Hall.
  - destruct c; subst i; [|by rewrite set_stat_other, ?app_nil_r]. rewrite set_stat_same. cbn.
    rewrite Hidle, app_nil_r in Hall. intros Hf. rewrite Hall; [done|]. by rewrite Hf.
Qed.

Lemma ordered_returned i r0 h s s' :
  ordered h s -> port_returned i r0 s s' -> ordered (h ++ [Return i r0]) s'.
Proof.
  intros Ho Hm. destruct Hm as [l k n f Hret]. destruct Ho as [Hs Hr Hp Hrec Hoff Hall Hpre]. cbn in *.
  assert (Hi : match r0 with Sent _ _ _ => i = t | Received _ => i = r end).
  { destruct r0; [apply Hs|apply Hr]; by rewrite Hret. }
  split; cbn; rewrite ?received_in_app, ?offered_in_app, ?failed_in_app; cbn; rewrite ?orb_false_r, ?app_nil_r.
  - by apply role_set.
  - by apply role_set.
  - done.
  - destruct r0; subst i; [rewrite set_stat_other by done; by rewrite app_nil_r|]. rewrite set_stat_same.
    rewrite Hret in Hrec. cbn in *. rewrite app_nil_r. by destruct p.
  - destruct r0; subst i; [|by rewrite set_stat_other]. rewrite set_stat_same. by rewrite Hret in Hoff.
  - destruct r0; subst i; [|by rewrite set_stat_other, orb_false_r]. rewrite set_stat_same. cbn.
    rewrite Hret in Hall. cbn in Hall. by rewrite orb_false_r.
  - destruct r0; subst i; [|by rewrite set_stat_other, orb_false_r]. rewrite set_stat_same. cbn.
    rewrite Hret in Hpre. cbn in Hpre. intros Hf. apply orb_false_iff in Hf as [Hf _]. auto.
Qed.

Lemma history_ordered h s : history_of port_spec port_initial h s -> two h -> ordered h s.
Proof.
  intros Hh. remember port_initial as s0 eqn:E. induction Hh as [s|s h s' s'' i Hh IH Hm|s h s' s'' i c Hh IH Hm|s h s' s'' i r0 Hh IH Hm];
    intros Htwo; subst.
  - by split.
  - eapply ordered_internal; eauto.
  - eapply ordered_invoked; eauto. apply IH; [done|]. intros j c' Hj. apply Htwo. set_solver.
  - eapply ordered_returned; eauto. apply IH; [done|]. intros j c' Hj. apply Htwo. set_solver.
Qed.

End Two.

Lemma prefix_sublist {A} (l k : list A) : prefix l k -> sublist l k.
Proof. intros [x ->]. by apply sublist_inserts_r. Qed.

Definition payload (c : port_call) : option (list Z) :=
  match c with Send p => Some p | Recv => None end.

Lemma offered_calls t r h : two t r h -> offered_in h = omap payload (calls_of t h).
Proof.
  induction h as [|e h IH]; intros Htwo; [done|].
  assert (IH' : offered_in h = omap payload (calls_of t h)) by (apply IH; intros i c Hi; apply Htwo; set_solver).
  change (e :: h) with ([e] ++ h). rewrite offered_in_app, calls_of_app, omap_app, IH'. f_equal.
  destruct e as [i [p|]|i r0]; cbn; [|by case_decide|done].
  rewrite decide_True; [done|]. apply (Htwo i (Send p)). set_solver.
Qed.

Lemma call_in i c (h : list (event port_call port_reply)) : Invoke i c ∈ h -> c ∈ calls_of i h.
Proof.
  intros H. apply list_elem_of_omap. exists (Invoke i c). split; [done|]. by rewrite decide_True.
Qed.

Lemma payload_sends ms : omap payload (map Send ms) = ms.
Proof. induction ms as [|p ms IH]; [done|]. cbn. by f_equal. Qed.

Lemma two_clients ms n c :
  calls_ok [map Send ms; replicate n Recv] c -> two 0 1 (history c) /\ prefix (offered_in (history c)) ms.
Proof.
  intros Hc. assert (Htwo : two 0 1 (history c)).
  { intros i f Hin. apply call_in in Hin. pose proof (Hc i) as Hi.
    assert (Hf : f ∈ from_option id [] ([map Send ms; replicate n Recv] !! i)) by (rewrite Hi; set_solver).
    destruct i as [|[|i]]; cbn in Hf.
    - apply list_elem_of_fmap in Hf as (p & -> & _). done.
    - apply elem_of_replicate in Hf as [-> _]. done.
    - by apply not_elem_of_nil in Hf. }
  split; [done|]. rewrite (offered_calls 0 1) by done. pose proof (Hc 0%nat) as H0. cbn in H0.
  exists (omap payload (from_option todo [] (threads c !! 0%nat))).
  rewrite <- omap_app, <- H0. symmetry. apply payload_sends.
Qed.


