(* ===== verification/AppQueue.v ===== *)
(** * The request queue of an application: nxt_app_queue.h

    The router queues requests for the worker processes of an application in
    shared memory, in slots and rings as SlotQueue.v describes them.  Each slot
    has a tracking word.  A worker claims a request by setting the word of its
    slot from the tracking value of the request to 0; the router cancels a
    request that waits too long in the same way.  The flag [notified] and the
    position of a request decide whether the router rings for it.

    [app_spec] is what the queue promises.  [nxt_app_queue_refines] proves it
    of all interleavings of any number of threads. *)

From stdpp Require Import relations.
From S2P Require Import Prelude Lvlhsh Atomic Nncq SlotQueue.

#[local] Open Scope Z_scope.
#[local] Existing Instance app_nncq.

Abbreviation NXT_AGAIN := (-2) (only parsing).
Abbreviation NXT_APP_QUEUE_SIZE := NXT_APP_NNCQ_SIZE (only parsing).
Abbreviation NXT_APP_QUEUE_MSG_SIZE := 31 (only parsing).

(** ** The operations *)

Definition nxt_app_queue_init : prog unit :=
  let@ _ := nxt_app_nncq_init Free_items in
  let@ _ := nxt_app_nncq_init Queue in
  let@ _ := free_slots (Z.to_nat NXT_APP_QUEUE_SIZE) 0 in
  let@ _ := act (Store Notified 0) in
  Done tt.

(** The tail is read first. *)
Definition nxt_app_queue_depth : prog Z :=
  let@ tail := nxt_nncq_tail Queue in
  let@ head := nxt_nncq_head Queue in
  Done (u32 (tail - head)).

Definition nxt_app_queue_notify_decision (pos depth_bound : Z) : bool :=
  (pos <? 0) || (u32 pos <? depth_bound).

Inductive app_call :=
| App_send (p : list Z) (tracking depth_bound : Z)
| App_recv (claim : bool)
| App_cancel (cookie tracking : Z)
| App_queued (cookie tracking : Z)
| App_notification_received.

(** What the operations return: the code, [*notify] and [*cookie], [None] where
    they are not written; the message, [*cookie] and [*claimed], [None] for the
    size -1; a boolean; nothing. *)
Inductive app_reply :=
| App_sent (rc : Z) (notify cookie : option Z)
| App_received (r : option (list Z * Z * bool))
| App_bool (b : bool)
| App_unit.

Definition nxt_app_queue_send_bound (p : list Z) (size tracking depth_bound : Z) : prog app_reply :=
  if NXT_APP_QUEUE_MSG_SIZE <? size then
    Done (App_sent NXT_ERROR None None)
  else
    let depth_bound := if depth_bound =? 0 then 1 else depth_bound in
    let@ i := nxt_app_nncq_dequeue Free_items in
    if i =? nxt_nncq_empty then
      Done (App_sent NXT_AGAIN None None)
    else
      let@ _ := act (Store (Size i) size) in
      let@ _ := copy_in i 0 (take (Z.to_nat size) p) in
      let@ _ := act (Store (Tracking i) tracking) in
      let@ t := nxt_app_nncq_enqueue_pos Queue i in
      match t with
      | None =>
          let@ _ := nxt_app_nncq_enqueue Free_items i in
          Done (App_sent NXT_ERROR None (Some i))
      | Some t =>
          if depth_bound =? 1 then
            let@ n := act (Cmp_set Notified 0 1) in
            Done (App_sent NXT_OK (Some n) (Some i))
          else
            let@ head := nxt_nncq_head Queue in
            let n := nxt_app_queue_notify_decision (s32 (t - head)) depth_bound in
            Done (App_sent NXT_OK (Some (if n then 1 else 0)) (Some i))
      end.

Definition nxt_app_queue_send (p : list Z) (size tracking : Z) : prog app_reply :=
  nxt_app_queue_send_bound p size tracking 1.

Definition nxt_app_queue_notification_received : prog app_reply :=
  let@ _ := act (Cmp_set Notified 1 0) in
  Done App_unit.

Definition nxt_app_queue_queued (cookie tracking : Z) : prog app_reply :=
  let@ v := act (Load (Tracking cookie)) in
  Done (App_bool (v =? tracking)).

Definition nxt_app_queue_cancel (cookie tracking : Z) : prog app_reply :=
  let@ ok := act (Cmp_set (Tracking cookie) tracking 0) in
  Done (App_bool (ok =? 1)).

(** [nxt_memcpy] of the first four bytes of a message into a [uint32_t]. *)
Definition tracking_of (p : list Z) : Z :=
  match p with
  | b0 :: b1 :: b2 :: b3 :: _ => b0 + 2 ^ 8 * b1 + 2 ^ 16 * b2 + 2 ^ 24 * b3
  | _ => 0
  end.

(** The attempt of [nxt_app_queue_recv_claim] to claim the message [p]. *)
Definition claim_slot (claim : bool) (i : Z) (p : list Z) : prog bool :=
  if claim && (4 <=? Z.of_nat (length p)) then
    let@ ok := act (Cmp_set (Tracking i) (tracking_of p) 0) in
    Done (ok =? 1)
  else
    Done false.

Definition nxt_app_queue_recv_claim (claim : bool) : prog app_reply :=
  let@ i := nxt_app_nncq_dequeue Queue in
  if i =? nxt_nncq_empty then
    Done (App_received None)
  else
    let@ size := act (Load (Size i)) in
    let@ p := copy_out (Z.to_nat (cap_size size)) i 0 in
    let@ claimed := claim_slot claim i p in
    let@ _ := nxt_app_nncq_enqueue Free_items i in
    let@ depth := nxt_app_queue_depth in
    if depth =? 0 then
      let@ _ := act (Cmp_set Notified 1 0) in
      Done (App_received (Some (p, i, claimed)))
    else
      Done (App_received (Some (p, i, claimed))).

Definition nxt_app_queue_recv : prog app_reply := nxt_app_queue_recv_claim false.

(** The size that a caller passes is the length of its message, which fits a
    [uint8_t].  [App_send p t 1] and [App_recv false] are calls of
    [nxt_app_queue_send] and [nxt_app_queue_recv]. *)
Definition app_body (c : app_call) : prog app_reply :=
  match c with
  | App_send p tracking depth_bound =>
      nxt_app_queue_send_bound p (Z.of_nat (length p)) tracking depth_bound
  | App_recv claim => nxt_app_queue_recv_claim claim
  | App_cancel cookie tracking => nxt_app_queue_cancel cookie tracking
  | App_queued cookie tracking => nxt_app_queue_queued cookie tracking
  | App_notification_received => nxt_app_queue_notification_received
  end.

(** ** The specification *)

(** A call that a thread makes, with the counts at its invocation and what it
    did so far; [s] is the slot of the message [p]. *)
Inductive app_status :=
| A_idle
| A_sending (p : list Z) (tracking bound : Z) (c : counts)
| A_reserved (s : Z) (p : list Z) (tracking bound : Z) (c : counts)
| A_tracked (s : Z) (p : list Z) (bound : Z) (c : counts)
| A_published (s pos bound : Z)
| A_receiving (claim : bool) (c : counts)
| A_popped (s : Z) (p : list Z) (claim : bool) (c : counts)
| A_claimed (s : Z) (p : list Z) (claimed : bool) (c : counts)
| A_released (s : Z) (p : list Z) (claimed : bool)
| A_tail (s : Z) (p : list Z) (claimed : bool) (tail : Z)
| A_drained (s : Z) (p : list Z) (claimed : bool)
| A_cancelling (cookie tracking : Z)
| A_asking (cookie tracking : Z)
| A_notified
| A_returning (r : app_reply).

(** All requests that entered the queue, with their slots, in their order; the
    flag and the tracking words. *)
Record app_state := AppState {
  alog : list (Z * list Z);
  acount : counts;
  notified : Z;
  tracks : Z -> Z;
  astat : nat -> app_status
}.

Definition set_astat (i : nat) (s : app_status) (f : nat -> app_status) : nat -> app_status :=
  fun j => if decide (j = i) then s else f j.

Definition set_track (s v : Z) (f : Z -> Z) : Z -> Z := fun s' => if decide (s' = s) then v else f s'.

(** The bound that a send uses. *)
Definition bound_of (bound : Z) : Z := if bound =? 0 then 1 else bound.

(** The moves that change neither the messages nor the words. *)
Inductive app_quiet (c : counts) : app_status -> app_status -> Prop :=
| quiet_too_long p t b c0 :
    NXT_APP_QUEUE_MSG_SIZE < Z.of_nat (length p) ->
    app_quiet c (A_sending p t b c0) (A_returning (App_sent NXT_ERROR None None))
| quiet_full p t b c0 :
    reserved c = released c ->
    app_quiet c (A_sending p t b c0) (A_returning (App_sent NXT_AGAIN None None))
| quiet_send_overtaken p t b c0 :
    NXT_APP_QUEUE_SIZE <= reserved c - reserved c0 ->
    app_quiet c (A_sending p t b c0) (A_returning (App_sent NXT_AGAIN None None))
| quiet_slot_lost s p b c0 :
    NXT_APP_QUEUE_SIZE <= 2 * (published c - published c0) + 1 ->
    NXT_APP_QUEUE_SIZE <= 2 * (released c - released c0) + 1 ->
    app_quiet c (A_tracked s p b c0) (A_returning (App_sent NXT_ERROR None (Some s)))
| quiet_position s pos b :
    bound_of b <> 1 ->
    app_quiet c (A_published s pos b)
      (A_returning (App_sent NXT_OK
         (Some (if nxt_app_queue_notify_decision (s32 (pos - u32 (NXT_APP_QUEUE_SIZE + popped c))) (bound_of b)
                then 1 else 0)) (Some s)))
| quiet_nothing cl c0 :
    popped c = published c -> app_quiet c (A_receiving cl c0) (A_returning (App_received None))
| quiet_pop_overtaken cl c0 :
    NXT_APP_QUEUE_SIZE <= popped c - popped c0 ->
    app_quiet c (A_receiving cl c0) (A_returning (App_received None))
| quiet_no_claim s p cl c0 :
    cl && (4 <=? Z.of_nat (length p)) = false -> app_quiet c (A_popped s p cl c0) (A_claimed s p false c0)
| quiet_release_lost s p cd c0 :
    NXT_APP_QUEUE_SIZE <= 2 * (released c - released c0) + 1 ->
    app_quiet c (A_claimed s p cd c0) (A_released s p cd)
| quiet_tail s p cd tail :
    published c - 1 <= tail <= published c -> app_quiet c (A_released s p cd) (A_tail s p cd tail)
| quiet_drained s p cd tail :
    u32 tail = u32 (popped c) -> app_quiet c (A_tail s p cd tail) (A_drained s p cd)
| quiet_not_drained s p cd tail :
    u32 tail <> u32 (popped c) ->
    app_quiet c (A_tail s p cd tail) (A_returning (App_received (Some (p, s, cd)))).

(** The moves that change a word: the flag or a tracking word. *)
Inductive app_word : Z -> (Z -> Z) -> app_status -> Z -> (Z -> Z) -> app_status -> Prop :=
| word_track n f s p t b c0 :
    app_word n f (A_reserved s p t b c0) n (set_track s t f) (A_tracked s p b c0)
| word_notify n f s pos b :
    bound_of b = 1 ->
    app_word n f (A_published s pos b)
      (if n =? 0 then 1 else n) f (A_returning (App_sent NXT_OK (Some (if n =? 0 then 1 else 0)) (Some s)))
| word_claim n f s p cl c0 :
    cl && (4 <=? Z.of_nat (length p)) = true ->
    app_word n f (A_popped s p cl c0)
      n (if f s =? tracking_of p then set_track s 0 f else f)
      (A_claimed s p (f s =? tracking_of p) c0)
| word_rearm n f s p cd :
    app_word n f (A_drained s p cd)
      (if n =? 1 then 0 else n) f (A_returning (App_received (Some (p, s, cd))))
| word_cancel n f k t :
    app_word n f (A_cancelling k t)
      n (if f k =? t then set_track k 0 f else f) (A_returning (App_bool (f k =? t)))
| word_queued n f k t :
    app_word n f (A_asking k t) n f (A_returning (App_bool (f k =? t)))
| word_received n f :
    app_word n f A_notified (if n =? 1 then 0 else n) f (A_returning App_unit).

(** The slot that a thread holds. *)
Definition slot_of (st : app_status) : option Z :=
  match st with
  | A_reserved s _ _ _ _ | A_tracked s _ _ _ | A_popped s _ _ _ | A_claimed s _ _ _ => Some s
  | _ => None
  end.

(** A slot is used by a thread that holds it or by a message that waits in it. *)
Definition slot_used (l : list (Z * list Z)) (c : counts) (st : nat -> app_status) (s : Z) : Prop :=
  (exists j, slot_of (st j) = Some s) \/
  (exists k p, (Z.to_nat (popped c) <= k)%nat /\ l !! k = Some (s, p)).

(** The moves that take or give slots and messages. *)
Inductive app_ring (used : Z -> Prop) : list (Z * list Z) -> counts -> app_status ->
                     list (Z * list Z) -> counts -> app_status -> Prop :=
| ring_reserve l r rel pub pop s p t b c0 :
    Z.of_nat (length p) <= NXT_APP_QUEUE_MSG_SIZE -> r < rel -> ~ used s ->
    app_ring used l (Counts r rel pub pop) (A_sending p t b c0)
             l (Counts (r + 1) rel pub pop) (A_reserved s p t b c0)
| ring_publish l r rel pub pop s p b c0 :
    app_ring used l (Counts r rel pub pop) (A_tracked s p b c0)
             (l ++ [(s, p)]) (Counts r rel (pub + 1) pop)
             (A_published s (u32 (NXT_APP_QUEUE_SIZE + pub)) b)
| ring_give_back l r rel pub pop s p b c0 :
    NXT_APP_QUEUE_SIZE <= 2 * (pub - published c0) + 1 ->
    app_ring used l (Counts r rel pub pop) (A_tracked s p b c0)
             l (Counts r (rel + 1) pub pop) (A_returning (App_sent NXT_ERROR None (Some s)))
| ring_pop l r rel pub pop s p cl c0 :
    l !! Z.to_nat pop = Some (s, p) ->
    app_ring used l (Counts r rel pub pop) (A_receiving cl c0)
             l (Counts r rel pub (pop + 1)) (A_popped s p cl c0)
| ring_release l r rel pub pop s p cd c0 :
    app_ring used l (Counts r rel pub pop) (A_claimed s p cd c0)
             l (Counts r (rel + 1) pub pop) (A_released s p cd).

Inductive app_internal (i : nat) : app_state -> app_state -> Prop :=
| internal_quiet l c n f st st' :
    app_quiet c (st i) st' ->
    app_internal i (AppState l c n f st) (AppState l c n f (set_astat i st' st))
| internal_word l c n f st n' f' st' :
    app_word n f (st i) n' f' st' ->
    app_internal i (AppState l c n f st) (AppState l c n' f' (set_astat i st' st))
| internal_ring l c n f st l' c' st' :
    app_ring (slot_used l c st) l c (st i) l' c' st' ->
    app_internal i (AppState l c n f st) (AppState l' c' n f (set_astat i st' st)).

Definition app_called (c : app_call) (now : counts) : app_status :=
  match c with
  | App_send p tracking bound => A_sending p tracking bound now
  | App_recv claim => A_receiving claim now
  | App_cancel cookie tracking => A_cancelling cookie tracking
  | App_queued cookie tracking => A_asking cookie tracking
  | App_notification_received => A_notified
  end.

Inductive app_invoked (i : nat) (c : app_call) : app_state -> app_state -> Prop :=
| app_invoked_call l k n f st :
    st i = A_idle ->
    app_invoked i c (AppState l k n f st) (AppState l k n f (set_astat i (app_called c k) st)).

Inductive app_returned (i : nat) (r : app_reply) : app_state -> app_state -> Prop :=
| app_returned_reply l k n f st :
    st i = A_returning r ->
    app_returned i r (AppState l k n f st) (AppState l k n f (set_astat i A_idle st)).

Definition app_spec : spec app_call app_reply :=
  Spec _ _ app_state app_internal app_invoked app_returned.

(** After [nxt_app_queue_init], with the tracking words as they were. *)
Definition app_initial (f : Z -> Z) : app_state :=
  AppState [] (Counts 0 NXT_APP_QUEUE_SIZE 0 0) 0 f (fun _ => A_idle).

#[global] Instance app_slots : SlotSpec app_state := {|
  sl_status := app_status;
  sl_stat := astat;
  sl_slot := slot_of;
  sl_uses l := match l with Notified | Tracking _ => true | _ => false end;
  sl_words x l := match l with Tracking s => tracks x s | _ => notified x end;
  sl_counts := acount;
  sl_shows x k s p := alog x !! k = Some (s, p);
  sl_good x := Z.of_nat (length (alog x)) = published (acount x);
  sl_step := app_internal
|}.

(** ** The operations implement the specification *)

Lemma set_astat_other i j s f : j <> i -> set_astat i s f j = f j.
Proof. intros H. unfold set_astat. by rewrite decide_False. Qed.

Lemma set_astat_same i s f : set_astat i s f i = s.
Proof. unfold set_astat. by rewrite decide_True. Qed.

Lemma astat_rely i (w w' : world app_state) : rely i w w' -> astat (ab w') i = astat (ab w) i.
Proof. intros Hr. apply (rely_stat _ _ _ Hr). Qed.

(** A quiet move keeps or drops the slot of a status. *)
Lemma quiet_slot c st st' s : rtc (app_quiet c) st st' -> slot_of st' = Some s -> slot_of st = Some s.
Proof. intros Hq Hs. induction Hq as [|st st1 st' Hq _ IH]; [done|]. specialize (IH Hs). by destruct Hq. Qed.

(** Quiet moves of thread [i] change only its status. *)
Record only_status (i : nat) (x x' : app_state) : Prop := {
  only_log : alog x' = alog x;
  only_count : acount x' = acount x;
  only_notified : notified x' = notified x;
  only_tracks : tracks x' = tracks x;
  only_others : forall j, j <> i -> astat x' j = astat x j
}.

Lemma quiet_steps i x st st' :
  astat x i = st -> rtc (app_quiet (acount x)) st st' ->
  exists x', rtc (app_internal i) x x' /\ only_status i x x' /\ astat x' i = st'.
Proof.
  intros Hst Hq. remember (acount x) as c eqn:Ec. revert x Ec Hst.
  induction Hq as [st|st st1 st' Hq _ IH]; intros x Ec Hst.
  - exists x. split_and!; [apply rtc_refl|by split|done].
  - destruct x as [l c0 n f s]. cbn in *. subst c0 st.
    destruct (IH (AppState l c n f (set_astat i st1 s))) as (x' & Hs & [] & Hx); [done|apply set_astat_same|].
    exists x'. cbn in *. split_and!; [|split; try done|done].
    + eapply rtc_l; [|exact Hs]. by constructor.
    + intros j Hj. rewrite only_others0 by done. by apply set_astat_other.
Qed.

(** The log has as many messages as the queue took. *)
Lemma alog_length (w : world app_state) m :
  inv w m -> Z.of_nat (length (alog (ab w))) = epos (qr w) - ring_size.
Proof.
  intros Hi. pose proof (inv_good _ _ Hi) as H. cbn -[ring_size] in H. rewrite H.
  pose proof (inv_counts _ _ Hi) as Hc. cbn -[ring_size] in Hc. by rewrite Hc.
Qed.

Lemma quiet_moves i (w w' : world app_state) m st st' :
  rely i w w' -> inv w' m -> astat (ab w) i = st ->
  rtc (app_quiet (counts_of (fr w') (qr w'))) st st' ->
  exists x, moves i w' x (fr w') (qr w') (named w' i) /\ same_words w' x /\ sl_stat x i = st'.
Proof.
  intros Hr Hi Hst Hq. rewrite <- (inv_counts _ _ Hi) in Hq. rewrite <- (astat_rely _ _ _ Hr) in Hst.
  destruct (quiet_steps i _ _ _ Hst Hq) as (x & Hs & [Hl Hc Hn Ht Ho] & Hx).
  exists x. split_and!; [|intros [] ?; cbn; congruence|done].
  split; cbn; [done|done| | | |].
  - rewrite Hc. apply (inv_counts _ _ Hi).
  - intros k s msg. by rewrite Hl.
  - rewrite Hl, Hc. apply (inv_good _ _ Hi).
  - intros s. rewrite Hx. unfold named. cbn. rewrite Hst. by apply quiet_slot with (acount (ab w')).
Qed.

(** A free slot is not used. *)
Lemma free_unused (w : world app_state) m s p :
  inv w m -> place w s = In_free p -> ~ slot_used (alog (ab w)) (acount (ab w)) (astat (ab w)) s.
Proof.
  intros Hi Hs [[j Hj]|(k & p' & Hk & Hl)].
  - by rewrite (inv_slots _ _ Hi j s Hj) in Hs.
  - pose proof (lookup_lt_Some _ _ _ Hl) as Hlt. pose proof (alog_length _ _ Hi) as Hlen.
    pose proof (inv_counts _ _ Hi) as Hc. cbn -[ring_size] in Hc. rewrite Hc in Hk. cbn -[ring_size] in Hk.
    pose proof (inv_start _ _ Hi) as Hstart.
    destruct (inv_shows _ _ Hi (Z.of_nat k + ring_size)) as (msg & Hsh & _); [lia|].
    cbn -[ring_size] in Hsh. replace (Z.of_nat k + ring_size - ring_size) with (Z.of_nat k) in Hsh by lia.
    rewrite Nat2Z.id, Hl in Hsh. injection Hsh as Hitem _.
    change 131072 with ring_size in Hitem. rewrite Hitem, (inv_queue_list _ _ Hi) in Hs by lia. done.
Qed.

(** Quiet moves and then one of the rings. *)
Lemma ring_moves i (w w' : world app_state) m st st1 l f q st' o :
  rely i w w' -> inv w' m -> astat (ab w) i = st ->
  rtc (app_quiet (counts_of (fr w') (qr w'))) st st1 ->
  (forall used, (forall s, used s -> slot_used (alog (ab w')) (acount (ab w')) (astat (ab w')) s) ->
    app_ring used (alog (ab w')) (counts_of (fr w') (qr w')) st1 l (counts_of f q) st') ->
  prefix (alog (ab w')) l -> Z.of_nat (length l) = epos q - ring_size ->
  (forall s, slot_of st' = Some s -> o = Some s) ->
  exists x, moves i w' x f q o /\ same_words w' x /\ sl_stat x i = st' /\ alog x = l.
Proof.
  intros Hr Hi Hst Hq Hm Hpre Hlen Ho'. rewrite <- (inv_counts _ _ Hi) in Hq, Hm.
  rewrite <- (astat_rely _ _ _ Hr) in Hst.
  destruct (quiet_steps i _ _ _ Hst Hq) as (x & Hs & [Hl Hc Hn Ht Ho] & Hx).
  exists (AppState l (counts_of f q) (notified x) (tracks x) (set_astat i st' (astat x))).
  split_and!; [|intros [] ?; cbn; congruence|apply set_astat_same|done].
  split; cbn -[ring_size]; [| |done| |done|rewrite set_astat_same; done].
  - eapply rtc_r; [exact Hs|]. cbn in Hm. rewrite <- Hl, <- Hc, <- Hx in Hm. destruct x as [l0 c0 n0 f0 st0].
    constructor. apply Hm. cbn in *. subst l0 c0. intros s [[j Hj]|Hused]; [|by right].
    left. exists j. destruct (decide (j = i)) as [->|Hne]; [|by rewrite <- Ho].
    rewrite Hst. rewrite Hx in Hj. by eapply quiet_slot.
  - intros j Hj. rewrite set_astat_other by done. auto.
  - intros k s msg Hk. by eapply prefix_lookup_Some.
Qed.

(** The same without a new message. *)
Lemma ring_moves_keep i (w w' : world app_state) m st st1 f q st' o :
  rely i w w' -> inv w' m -> astat (ab w) i = st ->
  rtc (app_quiet (counts_of (fr w') (qr w'))) st st1 ->
  (forall used, (forall s, used s -> slot_used (alog (ab w')) (acount (ab w')) (astat (ab w')) s) ->
    app_ring used (alog (ab w')) (counts_of (fr w') (qr w')) st1 (alog (ab w')) (counts_of f q) st') ->
  epos q = epos (qr w') -> (forall s, slot_of st' = Some s -> o = Some s) ->
  exists x, moves i w' x f q o /\ same_words w' x /\ sl_stat x i = st'.
Proof.
  intros Hr Hi Hst Hq Hm He Ho.
  destruct (ring_moves i w w' m st st1 _ f q st' o Hr Hi Hst Hq Hm) as (x & ? & ? & ? & _); [done| |done|eauto].
  rewrite He. by eapply alog_length.
Qed.

(** A move of the words. *)
Lemma word_moves i (w w' : world app_state) m st n f st' :
  rely i w w' -> inv w' m -> astat (ab w) i = st ->
  app_word (notified (ab w')) (tracks (ab w')) st n f st' ->
  exists x, moves i w' x (fr w') (qr w') (named w' i) /\ sl_stat x i = st' /\ notified x = n /\ tracks x = f.
Proof.
  intros Hr Hi Hst Hm. rewrite <- (astat_rely _ _ _ Hr) in Hst. subst st.
  exists (AppState (alog (ab w')) (acount (ab w')) n f (set_astat i st' (astat (ab w')))).
  split_and!; [|apply set_astat_same|done|done]. split; cbn; [| | |done| |].
  - apply rtc_once. destruct (ab w'). by apply internal_word.
  - intros j Hj. by apply set_astat_other.
  - apply (inv_counts _ _ Hi).
  - apply (inv_good _ _ Hi).
  - intros s. rewrite set_astat_same. unfold named. cbn. by destruct Hm.
Qed.

Lemma app_retries : Z.of_nat ring_retries = NXT_APP_QUEUE_SIZE.
Proof. cbn [ring_retries app_nncq]. lia. Qed.

Section Operations.
Context (gap : Z) (Hgap : 0 < gap /\ 3 * gap <= ring_size * (ring_cycles - 2)) (i : nat).

Notation wpi := (wp time inv rely abstract gap i).
Notation returns := (fun r => finish (SX := app_slots) i (A_returning r)).

Lemma finish_quiet (w : world app_state) st r :
  astat (ab w) i = st ->
  (forall w' m, rely i w w' -> inv w' m ->
    rtc (app_quiet (counts_of (fr w') (qr w'))) st (A_returning r)) ->
  returns r w.
Proof. intros Hst Hm w' m Hr Hi. eapply quiet_moves; eauto. Qed.

(** A compare-and-set of the flag. *)
Lemma wp_flag {A} old new st (k : Z -> prog A) Q (w : world app_state) :
  astat (ab w) i = st ->
  (forall w' m, rely i w w' -> inv w' m -> exists st',
    app_word (notified (ab w')) (tracks (ab w')) st
      (if notified (ab w') =? old then new else notified (ab w')) (tracks (ab w')) st' /\
    forall w'', astat (ab w'') i = st' -> wpi (k (if notified (ab w') =? old then 1 else 0)) Q w'') ->
  wpi (Act (Cmp_set Notified old new) k) Q w.
Proof.
  intros Hst H. apply wp_word; [done|]. intros w1 m1 Hr Hi.
  assert (Hn : m1 Notified = notified (ab w1)) by (by apply (inv_words _ _ Hi)).
  destruct (H w1 m1 Hr Hi) as (st' & Hm & Hk).
  destruct (word_moves i w w1 m1 st _ _ st' Hr Hi Hst Hm) as (x & Hx & Hxs & Hxn & Hxt).
  exists x. split_and!; [done| |].
  - intros l Hl. unfold perform. rewrite Hn. destruct l; try done; destruct (_ =? _); cbn;
      rewrite ?upd_same, ?upd_other by done; rewrite ?Hxn, ?Hxt; try done;
      by rewrite (inv_words _ _ Hi).
  - intros _. unfold perform. rewrite Hn. destruct (_ =? _); apply Hk, Hxs.
Qed.

(** A compare-and-set to 0 of a tracking word. *)
Lemma wp_claim_word {A} s t st (k : Z -> prog A) Q (w : world app_state) :
  astat (ab w) i = st ->
  (forall w' m, rely i w w' -> inv w' m -> exists st',
    app_word (notified (ab w')) (tracks (ab w')) st (notified (ab w'))
      (if tracks (ab w') s =? t then set_track s 0 (tracks (ab w')) else tracks (ab w')) st' /\
    forall x n, astat x i = st' -> (exists m', inv (respec x n w') m') ->
      wpi (k (if tracks (ab w') s =? t then 1 else 0)) Q (respec x n w')) ->
  wpi (Act (Cmp_set (Tracking s) t 0) k) Q w.
Proof.
  intros Hst H. apply wp_word; [done|]. intros w1 m1 Hr Hi.
  assert (Hn : m1 (Tracking s) = tracks (ab w1) s) by (by apply (inv_words _ _ Hi)).
  destruct (H w1 m1 Hr Hi) as (st' & Hm & Hk).
  destruct (word_moves i w w1 m1 st _ _ st' Hr Hi Hst Hm) as (x & Hx & Hxs & Hxn & Hxt).
  exists x. split_and!; [done| |].
  - intros l Hl. unfold perform. rewrite Hn. destruct l as [| | | | |s'| |]; try done; cbn; destruct (_ =? _); cbn; rewrite ?Hxn, ?Hxt;
      rewrite ?upd_other by done; try (by rewrite (inv_words _ _ Hi)).
    unfold set_track, upd. destruct (decide (s' = s)) as [->|Hne]; [by rewrite decide_True|].
    rewrite decide_False by congruence. by rewrite (inv_words _ _ Hi).
  - intros Hi'. revert Hi'. unfold perform. rewrite Hn. destruct (_ =? _); eauto.
Qed.

(** The calls without messages. *)
Lemma wp_cancel k t (w : world app_state) :
  astat (ab w) i = A_cancelling k t -> wpi (nxt_app_queue_cancel k t) returns w.
Proof.
  intros Hst. eapply wp_claim_word; [done|]. intros w1 m1 Hr Hi.
  exists (A_returning (App_bool (tracks (ab w1) k =? t))). split; [constructor|].
  intros x n Hx _. apply finish_here. cbn. rewrite Hx. by destruct (_ =? t).
Qed.

Lemma wp_notification (w : world app_state) :
  astat (ab w) i = A_notified -> wpi nxt_app_queue_notification_received returns w.
Proof.
  intros Hst. eapply wp_flag; [done|]. intros w1 m1 Hr Hi. exists (A_returning App_unit).
  split; [constructor|]. intros w2 Hx. by apply finish_here.
Qed.

Lemma wp_queued k t (w : world app_state) :
  astat (ab w) i = A_asking k t -> wpi (nxt_app_queue_queued k t) returns w.
Proof.
  intros Hst. apply wp_look. intros w1 m1 Hr Hi.
  rewrite (inv_words _ _ Hi (Tracking k)) by done.
  destruct (word_moves i w w1 m1 (A_asking k t) _ _ _ Hr Hi Hst ltac:(constructor)) as (x & Hx & Hxs & Hxn & Hxt).
  exists x. split_and!; [done|intros [] ?; cbn; congruence|by apply finish_here].
Qed.

Lemma own_respec s st st' c x n (w : world app_state) :
  own i s st c w -> astat x i = st' -> (exists m, inv (respec x n w) m) -> own i s st' c (respec x n w).
Proof. intros (_ & Hp & Hc & _) Hx Hi. split_and!; done. Qed.

(** The tracking word of the slot that is being filled. *)
Lemma wp_track s p t b c (w : world app_state) (k : Z -> prog app_reply) :
  own i s (A_reserved s p t b c) c w -> holds w s p ->
  (forall w', own i s (A_tracked s p b c) c w' -> holds w' s p -> wpi (k 0) returns w') ->
  wpi (Act (Store (Tracking s) t) k) returns w.
Proof.
  intros Ho Hh Hk. apply wp_word; [done|]. intros w1 m1 Hr Hi. cbn [perform fst snd ticks].
  pose proof Ho as (Hst & Hp & _).
  destruct (word_moves i w w1 m1 (A_reserved s p t b c) _ _ _ Hr Hi Hst ltac:(constructor))
    as (x & Hx & Hxs & Hxn & Hxt).
  exists x. split_and!; [done| |].
  - intros l Hl. destruct l as [| | | | |s'| |]; try done; cbn; rewrite ?Hxn, ?Hxt.
    + unfold set_track, upd. destruct (decide (s' = s)) as [->|Hne]; [by rewrite decide_True|].
      rewrite decide_False by congruence. by rewrite (inv_words _ _ Hi).
    + rewrite upd_other by done. by rewrite (inv_words _ _ Hi).
  - intros Hi'. apply Hk.
    + eapply own_respec; [by eapply own_rely|done|eauto].
    + exact (holds_rely _ _ _ _ _ Hh Hp Hr).
Qed.

(** Whether to ring for a request. *)
Lemma wp_notify s pos b (w : world app_state) :
  astat (ab w) i = A_published s pos b ->
  wpi (if bound_of b =? 1 then
         let@ n := act (Cmp_set Notified 0 1) in Done (App_sent NXT_OK (Some n) (Some s))
       else
         let@ head := nxt_nncq_head Queue in
         let n := nxt_app_queue_notify_decision (s32 (pos - head)) (bound_of b) in
         Done (App_sent NXT_OK (Some (if n then 1 else 0)) (Some s))) returns w.
Proof.
  intros Hst. destruct (bound_of b =? 1) eqn:E; [apply Z.eqb_eq in E|apply Z.eqb_neq in E].
  - eapply wp_flag; [done|]. intros w1 m1 Hr Hi.
    exists (A_returning (App_sent NXT_OK (Some (if notified (ab w1) =? 0 then 1 else 0)) (Some s))).
    split; [by constructor|]. intros w2 Hx. by apply finish_here.
  - apply wp_look. intros w1 m1 Hr Hi.
    destruct (quiet_moves i w w1 m1 _ _ Hr Hi Hst (rtc_once _ _ (quiet_position _ s pos b E)))
      as (x & Hx & Hw & Hxs).
    exists x. split_and!; [done|done|]. apply finish_here. cbn -[u32 s32 ring_size] in *. rewrite Hxs.
    rewrite (rep_head _ _ _ (inv_queue _ _ Hi)).
    replace (NXT_APP_QUEUE_SIZE + (hpos (qr w1) - ring_size)) with (hpos (qr w1)) by (cbn; lia). done.
Qed.

Lemma app_enqueue_nncq q v : nxt_app_nncq_enqueue q v = nxt_nncq_enqueue q v.
Proof. unfold nxt_app_nncq_enqueue, nxt_app_nncq_enqueue_pos, nxt_nncq_enqueue. reflexivity. Qed.

(** The end of a send, with the slot filled and tracked. *)
Lemma wp_app_publish s p b c (w : world app_state) :
  own i s (A_tracked s p b c) c w -> 0 <= s < ring_size -> holds w s p ->
  wpi (let@ t := nxt_app_nncq_enqueue_pos Queue s in
    match t with
    | None =>
        let@ _ := nxt_app_nncq_enqueue Free_items s in
        Done (App_sent NXT_ERROR None (Some s))
    | Some t =>
        if bound_of b =? 1 then
          let@ n := act (Cmp_set Notified 0 1) in
          Done (App_sent NXT_OK (Some n) (Some s))
        else
          let@ head := nxt_nncq_head Queue in
          let n := nxt_app_queue_notify_decision (s32 (t - head)) (bound_of b) in
          Done (App_sent NXT_OK (Some (if n then 1 else 0)) (Some s))
    end) returns w.
Proof.
  intros Ho Hs Hh. apply wp_bind. pose proof Ho as (Hst & _ & Hc & _).
  eapply (wp_publish (SX := app_slots) gap Hgap i s p _ (fun pos => A_published s pos b) c); [done|done|done| | |].
  - intros w1 m1 Hr Hi. pose proof (alog_length _ _ Hi) as Hlen.
    edestruct (ring_moves i w w1 m1 (A_tracked s p b c)) as (x & Hx & Hw & Hxs & Hxl);
      [done|done|done|apply rtc_refl| |by apply prefix_app_r| |done|].
    + intros used _. rewrite counts_put_queue. apply ring_publish.
    + rewrite length_app. cbn -[ring_size]. lia.
    + exists x. split_and!; [done|done| |].
      * rewrite Hxs. do 2 f_equal. cbn. lia.
      * cbn -[ring_size]. rewrite Hxl. apply list_lookup_middle. lia.
  - intros pos w1 Hst1 _. by apply wp_notify.
  - intros w1 Hr [m1 Hi] H. apply wp_bind. rewrite app_retries in H.
    pose proof (own_rely _ _ _ _ _ _ _ Ho Hr Hi) as Ho1. pose proof Ho1 as (Hst1 & _ & Hc1 & _).
    rewrite app_enqueue_nncq.
    eapply (wp_release (SX := app_slots) gap Hgap i s _ (A_returning (App_sent NXT_ERROR None (Some s))) c);
      [done|done| | |].
    + intros w2 m2 Hr2 Hi2. eapply ring_moves_keep; [done|done|exact Hst1|apply rtc_refl| |done|done].
      intros used _. rewrite counts_put_free. constructor. destruct (rely_queue _ _ _ Hr2). lia.
    + intros _ w2 Hst2 _. by apply finish_here.
    + intros w2 Hr2 H2. rewrite app_retries in H2.
      eapply finish_quiet; [rewrite (astat_rely _ _ _ Hr2); exact Hst1|].
      intros w3 m3 Hr3 Hi3. apply rtc_once.
      destruct (rely_queue _ _ _ Hr2), (rely_queue _ _ _ Hr3), (rely_free _ _ _ Hr3).
      constructor; cbn -[ring_size]; lia.
Qed.

Lemma wp_app_send p t b c (w : world app_state) :
  astat (ab w) i = A_sending p t b c -> since c w ->
  wpi (nxt_app_queue_send_bound p (Z.of_nat (length p)) t b) returns w.
Proof.
  intros Hst Hc. unfold nxt_app_queue_send_bound. fold (bound_of b).
  destruct (_ <? _) eqn:El; [apply Z.ltb_lt in El|apply Z.ltb_ge in El].
  { eapply finish_quiet; [done|]. intros w' m' Hr _. apply rtc_once. by constructor. }
  apply wp_bind, (wp_reserve (SX := app_slots) gap Hgap i (fun s => A_reserved s p t b c) c); [done| | | |].
  - intros w1 m1 Hr Hi Hlt. eapply ring_moves_keep; [done|done|exact Hst|apply rtc_refl| |done|done].
    intros used Hused. rewrite counts_get_free. constructor; [done|lia|].
    intros Hu%Hused. by eapply free_unused; [|apply (next_free_place w1 m1)|].
  - intros s w1 Hs Ho. rewrite (proj2 (Z.eqb_neq s nxt_nncq_empty)) by (unfold nxt_nncq_empty; lia).
    rewrite Nat2Z.id, take_ge by lia.
    apply (wp_bind _ _ _ _ _ _ (let@ _ := act (Store (Size s) (Z.of_nat (length p))) in copy_in s 0 p)).
    eapply wp_fill; [done|done|done|]. intros w2 Ho2 Hh2. eapply wp_track; [done|done|].
    intros w3 Ho3 Hh3. by apply (wp_app_publish s p b c).
  - intros w1 m1 Hr Hi Heq.
    edestruct (quiet_moves i w w1 m1) as (x & Hx & Hw & Hxs); [done|done|exact Hst|apply rtc_once, quiet_full|].
    { cbn -[ring_size]. lia. }
    exists x. split_and!; [done|done|]. by apply finish_here.
  - intros w1 Hr H. rewrite app_retries in H.
    eapply finish_quiet; [rewrite (astat_rely _ _ _ Hr); exact Hst|].
    intros w2 m2 Hr2 _. apply rtc_once, quiet_send_overtaken. destruct (rely_free _ _ _ Hr2). cbn -[ring_size]. lia.
Qed.

(** A difference of two counters is 0 when they are the same. *)
Lemma depth_zero a b k : (u32 (u32 a - u32 b) =? 0) = (u32 (a - k) =? u32 (b - k)).
Proof.
  unfold u32. rewrite Zminus_mod_idemp_l, Zminus_mod_idemp_r. apply Bool.eq_iff_eq_true.
  rewrite !Z.eqb_eq. split; intros H.
  - apply Z.mod_divide in H as [z Hz]; [|lia]. replace (a - k) with (b - k + z * 2 ^ 32) by lia.
    apply Z_mod_plus_full.
  - apply Z.mod_divide; [lia|]. exists ((a - k) / 2 ^ 32 - (b - k) / 2 ^ 32).
    pose proof (Z.div_mod (a - k) (2 ^ 32) ltac:(lia)). pose proof (Z.div_mod (b - k) (2 ^ 32) ltac:(lia)). lia.
Qed.

(** The end of a receive: re-arming the flag. *)
Lemma wp_rearm s p cd st (w : world app_state) :
  astat (ab w) i = st ->
  (forall w' m, rely i w w' -> inv w' m ->
    rtc (app_quiet (counts_of (fr w') (qr w'))) st (A_released s p cd)) ->
  wpi (let@ depth := nxt_app_queue_depth in
    if depth =? 0 then
      let@ _ := act (Cmp_set Notified 1 0) in
      Done (App_received (Some (p, s, cd)))
    else
      Done (App_received (Some (p, s, cd)))) returns w.
Proof.
  intros Hst Hq. unfold nxt_app_queue_depth. cbn -[wp u32]. apply wp_look. intros w1 m1 Hr Hi.
  pose proof (inv_queue _ _ Hi) as Hrep. pose proof (rep_tail_bounds _ _ _ Hrep) as Hb.
  edestruct (quiet_moves i w w1 m1) as (x & Hx & Hw & Hxs); [done|done|exact Hst| |].
  { eapply rtc_r; [by eapply Hq|]. apply (quiet_tail _ s p cd (tpos (qr w1) - ring_size)). cbn -[ring_size]. lia. }
  exists x. split_and!; [done|done|]. rewrite (rep_tail _ _ _ Hrep).
  set (t := tpos (qr w1)) in *. clearbody t. clear Hb Hrep Hx Hw.
  apply wp_look. intros w2 m2 Hr2 Hi2. rewrite (rep_head _ _ _ (inv_queue _ _ Hi2)).
  rewrite (depth_zero _ _ ring_size).
  destruct (u32 (t - ring_size) =? u32 (hpos (qr w2) - ring_size)) eqn:E;
    [apply Z.eqb_eq in E|apply Z.eqb_neq in E].
  - edestruct (quiet_moves i (respec x 0 w1) w2 m2) as (x2 & Hx2 & Hw2 & Hxs2); [exact Hr2|done|exact Hxs| |].
    { apply rtc_once, quiet_drained. exact E. }
    exists x2. split_and!; [done|done|]. eapply wp_flag; [exact Hxs2|]. intros w3 m3 Hr3 Hi3.
    exists (A_returning (App_received (Some (p, s, cd)))). split; [constructor|].
    intros w4 Hx4. by apply finish_here.
  - edestruct (quiet_moves i (respec x 0 w1) w2 m2) as (x2 & Hx2 & Hw2 & Hxs2); [exact Hr2|done|exact Hxs| |].
    { apply rtc_once, quiet_not_drained. exact E. }
    exists x2. split_and!; [done|done|]. by apply finish_here.
Qed.

(** Freeing the slot of a request, from a status that is quietly claimed. *)
Lemma wp_app_release s p cd c st (w : world app_state) :
  own i s st c w -> 0 <= s < ring_size ->
  (forall k, rtc (app_quiet k) st (A_claimed s p cd c)) ->
  wpi (let@ _ := nxt_app_nncq_enqueue Free_items s in
    let@ depth := nxt_app_queue_depth in
    if depth =? 0 then
      let@ _ := act (Cmp_set Notified 1 0) in
      Done (App_received (Some (p, s, cd)))
    else
      Done (App_received (Some (p, s, cd)))) returns w.
Proof.
  intros Ho Hs Hq. apply wp_bind. rewrite app_enqueue_nncq. pose proof Ho as (Hst & _).
  eapply (wp_release (SX := app_slots) gap Hgap i s _ (A_released s p cd) c); [done|done| | |].
  - intros w1 m1 Hr Hi. eapply ring_moves_keep; [done|done|exact Hst|apply Hq| |done|done].
    intros used _. rewrite counts_put_free. constructor.
  - intros _ w1 Hst1 _. eapply wp_rearm; [exact Hst1|]. intros. apply rtc_refl.
  - intros w1 Hr H. rewrite app_retries in H. eapply wp_rearm; [rewrite (astat_rely _ _ _ Hr); exact Hst|].
    intros w2 m2 Hr2 Hi2. eapply rtc_r; [apply Hq|]. constructor.
    destruct (rely_free _ _ _ Hr2). cbn -[ring_size]. lia.
Qed.

Lemma wp_app_recv cl c (w : world app_state) :
  astat (ab w) i = A_receiving cl c -> since c w -> wpi (nxt_app_queue_recv_claim cl) returns w.
Proof.
  intros Hst Hc. unfold nxt_app_queue_recv_claim.
  apply wp_bind, (wp_pop (SX := app_slots) gap Hgap i (fun s p => A_popped s p cl c) c); [done| | | |].
  - intros w1 m1 p Hr Hi Hlt Hsh.
    eapply ring_moves_keep; [done|done|exact Hst|apply rtc_refl| |done|done].
    intros used _. rewrite counts_get_queue. by constructor.
  - intros s p w1 Hs Ho Hh. rewrite (proj2 (Z.eqb_neq s nxt_nncq_empty)) by (unfold nxt_nncq_empty; lia).
    eapply wp_load_message; [done|done|done|]. intros w2 Hr2 Ho2. unfold claim_slot.
    destruct (cl && _) eqn:Ecl.
    + pose proof Ho2 as (Hst2 & _). eapply wp_claim_word; [exact Hst2|]. intros w3 m3 Hr3 Hi3.
      eexists. split; [by constructor|]. intros x n Hx Hix.
      assert (Hif : ((if tracks (ab w3) s =? tracking_of p then 1 else 0) =? 1) = (tracks (ab w3) s =? tracking_of p))
        by (by destruct (_ =? tracking_of p)). cbn [pbind]. rewrite Hif.
      eapply (wp_app_release s p _ c); [|done|intros; apply rtc_refl].
      eapply own_respec; [by eapply own_rely|done|done].
    + apply (wp_app_release s p false c _ w2 Ho2 Hs). intros k. apply rtc_once. by constructor.
  - intros w1 m1 Hr Hi Heq.
    edestruct (quiet_moves i w w1 m1) as (x & Hx & Hw & Hxs); [done|done|exact Hst|apply rtc_once, quiet_nothing|].
    { cbn -[ring_size]. lia. }
    exists x. split_and!; [done|done|]. by apply finish_here.
  - intros w1 Hr H. rewrite app_retries in H.
    eapply finish_quiet; [rewrite (astat_rely _ _ _ Hr); exact Hst|].
    intros w2 m2 Hr2 _. apply rtc_once, quiet_pop_overtaken. destruct (rely_queue _ _ _ Hr2). cbn -[ring_size]. lia.
Qed.

End Operations.

(** ** Calls *)

(** The memory of an empty queue with all its slots free. *)
Definition app_ready (m : mem) : Prop := rings_ready ring_size m /\ m Notified = 0.

(** A thread between two calls. *)
Definition app_idle (i : nat) (w : world app_state) : Prop := astat (ab w) i = A_idle.

(** The end of a call that returns [r]. *)
Definition app_post (i : nat) (r : app_reply) : world app_state -> Prop :=
  finish (SX := app_slots) i (A_returning r).

Lemma app_can_invoke gap i c w m :
  0 < gap /\ 3 * gap <= ring_size * (ring_cycles - 2) -> inv w m -> app_idle i w ->
  exists w', inv w' m /\ time w' = time w /\ (forall j, j <> i -> rely j w w') /\
    app_invoked i c (ab w) (ab w') /\
    wp time inv rely abstract gap i (app_body c) (app_post i) w'.
Proof.
  intros Hgap Hi Hidle.
  set (x := AppState (alog (ab w)) (acount (ab w)) (notified (ab w)) (tracks (ab w))
              (set_astat i (app_called c (acount (ab w))) (astat (ab w)))).
  pose proof (set_astat_same i (app_called c (acount (ab w))) (astat (ab w))) as Hst.
  destruct (restatus i x w m) as (Hi' & Ht & Hr); try done.
  { intros j Hj. by apply set_astat_other. }
  { apply (inv_good _ _ Hi). }
  { cbn. rewrite Hst. by destruct c. }
  exists (respec x 0 w). split_and!; [done|done|done| |].
  - unfold app_idle, x in *. cbn. destruct (ab w). by constructor.
  - pose proof (since_counts _ _ Hi') as Hs.
    destruct c; [eapply wp_app_send|eapply wp_app_recv|eapply wp_cancel|eapply wp_queued|eapply wp_notification];
      eauto.
Qed.

Lemma app_can_return i r (w0 w : world app_state) m :
  app_post i r w0 -> rely i w0 w -> inv w m ->
  exists s w', inv w' m /\ time w' = time w /\ (forall j, j <> i -> rely j w w') /\
    rtc (app_internal i) (ab w) s /\ app_returned i r s (ab w') /\ app_idle i w'.
Proof.
  intros Hf Hr Hi. destruct (Hf w m Hr Hi) as (x & [Hsteps Hst Hc Hsh Hg _] & Hw & Hx).
  set (x' := AppState (alog x) (acount x) (notified x) (tracks x) (set_astat i A_idle (astat x))).
  destruct (restatus i x' w m) as (Hi' & Ht & Hr'); try done.
  { intros j Hj. cbn. rewrite set_astat_other by done. by apply Hst. }
  { by rewrite (inv_counts _ _ Hi). }
  { cbn. by rewrite set_astat_same. }
  exists x, (respec x' 0 w). split_and!; [done|done|done|done| |apply set_astat_same].
  cbn. unfold x'. destruct x. by constructor.
Qed.

Lemma app_run_refines m clients schedule c' :
  app_ready m -> run app_body (2 ^ 28) schedule (start m clients) = Some c' ->
  exists s, history_of app_spec (app_initial (fun s => m (Tracking s))) (history c') s.
Proof.
  intros [Hm Hn] Hrun.
  assert (Hgap : 0 < 2 ^ 28 /\ 3 * 2 ^ 28 <= ring_size * (ring_cycles - 2)) by (cbn; lia).
  destruct (run_refines app_body app_spec time inv rely ab app_idle app_post (2 ^ 28))
    with (m := m) (clients := clients) (w0 := initial_world (app_initial (fun s => m (Tracking s))) m)
         (schedule := schedule) (c' := c')
    as (w & _ & Hh); eauto using rely_refl, rely_trans, app_can_invoke, app_can_return.
  - intros i w w' Hi Hr. unfold app_idle in *. by rewrite (astat_rely _ _ _ Hr).
  - apply ready_inv; try done. by intros [].
  - done.
Qed.

(** ** The theorems *)

(** [nxt_app_queue_init] makes any memory an empty queue with all its
    slots free. *)
Lemma nxt_app_queue_init_ready m : app_ready (snd (alone nxt_app_queue_init m)).
Proof.
  unfold nxt_app_queue_init, nxt_app_nncq_init. pose proof (init_ready m) as Hr. rewrite !alone_bind in *.
  set (m' := snd (alone (free_slots _ _) _)) in *. clearbody m'.
  cbn [pbind act alone perform fst snd]. split; [|apply upd_same].
  destruct Hr. split; intros; rewrite upd_other by done; auto.
Qed.

(** C19. Linearizability.  Initialization makes any memory an empty queue with
    all its slots free.  Any number of threads send, receive, claim, cancel and
    ask in any interleaving of their single accesses to memory, no thread being
    suspended in a call for 2^28 updates.  Then the invocations and returns are
    those of a run of the specification. *)
Theorem nxt_app_queue_refines :
  (forall m, app_ready (snd (alone nxt_app_queue_init m))) /\
  (forall m clients schedule c',
     app_ready m -> run app_body (2 ^ 28) schedule (start m clients) = Some c' ->
     exists s, history_of app_spec (app_initial (fun s => m (Tracking s))) (history c') s).
Proof. split; [apply nxt_app_queue_init_ready|apply app_run_refines]. Qed.

(** *** A run *)

Definition ready_app_memory : mem := fun l =>
  match l with
  | Head _ | Tail Queue => NXT_APP_QUEUE_SIZE
  | Tail Free_items => 2 * NXT_APP_QUEUE_SIZE
  | Entry Free_items j => NXT_APP_QUEUE_SIZE + j
  | _ => 0
  end.

Lemma ready_app_memory_ok : app_ready ready_app_memory.
Proof. split; [|done]. split; cbn; lia || done. Qed.

(** The router sends two requests and cancels the second before a worker
    receives both; the worker claims the first. *)
Definition app_clients : list (list app_call) :=
  [[App_send [7; 0; 0; 0; 65] 7 1; App_send [8; 0; 0; 0] 8 4; App_cancel 1 8];
   replicate 3 (App_recv true)].

Definition app_turns : list nat :=
  replicate 25 0%nat ++ List.concat (replicate 5 [0; 1; 0; 1; 1]%nat) ++ 0%nat :: replicate 25 1%nat.

Definition app_history : list (event app_call app_reply) :=
  [Invoke 0 (App_send [7; 0; 0; 0; 65] 7 1); Return 0 (App_sent NXT_OK (Some 1) (Some 0));
   Invoke 0 (App_send [8; 0; 0; 0] 8 4); Invoke 1 (App_recv true);
   Return 0 (App_sent NXT_OK (Some 1) (Some 1)); Invoke 0 (App_cancel 1 8); Return 0 (App_bool true);
   Return 1 (App_received (Some ([7; 0; 0; 0; 65], 0, true))); Invoke 1 (App_recv true);
   Return 1 (App_received (Some ([8; 0; 0; 0], 1, false))); Invoke 1 (App_recv true);
   Return 1 (App_received None)].

Lemma app_sample_run :
  exists c', run app_body (2 ^ 28) app_turns (start ready_app_memory app_clients) = Some c' /\
    history c' = app_history.
Proof.
  assert (H : option_map history (run app_body (2 ^ 28) app_turns (start ready_app_memory app_clients))
              = Some app_history) by (vm_compute; reflexivity).
  destruct (run _ _ _ _) as [c'|] eqn:E; [|done]. exists c'. split; [done|]. by injection H.
Qed.

Lemma nxt_app_queue_refines_witness :
  exists s, history_of app_spec (app_initial (fun _ => 0)) app_history s.
Proof.
  destruct app_sample_run as (c' & Hrun & <-).
  exact (proj2 nxt_app_queue_refines ready_app_memory app_clients app_turns c' ready_app_memory_ok Hrun).
Defined.

(** ** A peer that writes anything *)

Definition app_inside (l : loc) : Prop :=
  match l with
  | Entry _ j => 0 <= j < NXT_APP_QUEUE_SIZE
  | Size i | Tracking i => 0 <= i < NXT_APP_QUEUE_SIZE
  | Data i k => 0 <= i < NXT_APP_QUEUE_SIZE /\ 0 <= k < NXT_APP_QUEUE_MSG_SIZE
  | Nitems => False
  | Head _ | Tail _ | Notified => True
  end.

Definition app_typed (l : loc) (v : Z) : Prop :=
  match l with Size _ | Data _ _ => byte v | _ => 0 <= v < 2 ^ 32 end.

Notation app_confined := (confined app_inside app_typed).

Lemma app_inside_ring q :
  app_inside (Head q) /\ app_inside (Tail q) /\ forall j, 0 <= j < ring_size -> app_inside (Entry q j).
Proof. done. Qed.

Lemma app_enqueue_confined q v :
  app_confined (3 * NXT_APP_QUEUE_SIZE + 1) (nxt_app_nncq_enqueue_pos q v) (fun _ => True).
Proof.
  rewrite <- app_retries. unfold nxt_app_nncq_enqueue_pos, nxt_nncq_enqueue_pos.
  generalize (@ring_retries app_nncq). apply enqueue_confined, app_inside_ring.
Qed.

Lemma app_dequeue_confined q :
  app_confined (3 * NXT_APP_QUEUE_SIZE) (nxt_app_nncq_dequeue q)
    (fun v => v = ring_size \/ 0 <= v < ring_size).
Proof.
  rewrite <- app_retries. unfold nxt_app_nncq_dequeue, nxt_nncq_dequeue.
  generalize (@ring_retries app_nncq). apply dequeue_confined, app_inside_ring.
Qed.

(** The cookies that a router passes are those it got from its sends. *)
Definition cookie_inside (c : app_call) : Prop :=
  match c with App_cancel k _ | App_queued k _ => 0 <= k < NXT_APP_QUEUE_SIZE | _ => True end.

(** What the calls may return. *)
Definition app_fits (c : app_call) (r : app_reply) : Prop :=
  match c, r with
  | App_send _ _ _, App_sent _ _ cookie => forall k, cookie = Some k -> 0 <= k < NXT_APP_QUEUE_SIZE
  | App_recv _, App_received None => True
  | App_recv _, App_received (Some (p, k, _)) =>
      Z.of_nat (length p) <= NXT_APP_QUEUE_MSG_SIZE /\ Forall byte p /\ 0 <= k < NXT_APP_QUEUE_SIZE
  | (App_cancel _ _ | App_queued _ _), App_bool _ => True
  | App_notification_received, App_unit => True
  | _, _ => False
  end.

Lemma claim_confined cl i p :
  0 <= i < NXT_APP_QUEUE_SIZE -> app_confined 1 (claim_slot cl i p) (fun _ => True).
Proof. intros Hi. unfold claim_slot. destruct (_ && _); [|done]. split; [done|]. intros v _. by split. Qed.

Lemma app_recv_confined cl :
  app_confined (6 * NXT_APP_QUEUE_SIZE + 37) (nxt_app_queue_recv_claim cl) (app_fits (App_recv cl)).
Proof.
  replace (6 * NXT_APP_QUEUE_SIZE + 37)
    with (3 * NXT_APP_QUEUE_SIZE + (1 + (31 + (1 + (3 * NXT_APP_QUEUE_SIZE + 1 + (2 + 1)))))) by lia.
  unfold nxt_app_queue_recv_claim. apply confined_bind.
  eapply confined_mono; [apply app_dequeue_confined|lia|].
  intros i Hi. destruct (i =? nxt_nncq_empty) eqn:E; [done|apply Z.eqb_neq in E].
  destruct Hi as [|Hi]; [done|]. apply confined_bind. split; [done|]. intros size Hsize.
  cbn in Hsize. split; [lia|].
  pose proof (cap_size_range size Hsize) as Hn.
  apply confined_bind. eapply confined_mono; [eapply (copy_out_confined _ _ NXT_APP_QUEUE_SIZE); try done; lia|lia|].
  intros p [Hl Hp]. apply confined_bind. eapply confined_mono; [by apply claim_confined|lia|].
  intros cd _. apply confined_bind. eapply confined_mono; [apply app_enqueue_confined|lia|].
  intros _ _. apply confined_bind. split; [done|]. intros t _. split; [done|]. intros h _. split; [done|].
  assert (Hfits : app_fits (App_recv cl) (App_received (Some (p, i, cd)))) by (split; [lia|done]).
  destruct (_ =? 0); [split; [done|]; intros v _|]; by split.
Qed.

Lemma app_send_confined p t b :
  app_confined (9 * NXT_APP_QUEUE_SIZE + 36) (app_body (App_send p t b)) (app_fits (App_send p t b)).
Proof.
  unfold app_body, nxt_app_queue_send_bound.
  destruct (_ <? _) eqn:El; [split; [lia|done]|apply Z.ltb_ge in El].
  replace (9 * NXT_APP_QUEUE_SIZE + 36)
    with (3 * NXT_APP_QUEUE_SIZE + (1 + (31 + (1 + (3 * NXT_APP_QUEUE_SIZE + 1 + (3 * NXT_APP_QUEUE_SIZE + 1 + 1)))))) by lia.
  apply confined_bind. eapply confined_mono; [apply app_dequeue_confined|lia|].
  intros i Hi. destruct (i =? nxt_nncq_empty) eqn:E; [split; [lia|done]|apply Z.eqb_neq in E].
  destruct Hi as [|Hi]; [done|]. apply confined_bind. split; [done|]. intros v Hv. split; [lia|].
  rewrite Nat2Z.id, take_ge by lia.
  apply confined_bind. eapply confined_mono; [eapply (copy_in_confined _ _ NXT_APP_QUEUE_SIZE); try done; lia|lia|].
  intros _ _. apply confined_bind. split; [done|]. intros u _. split; [lia|].
  apply confined_bind. eapply confined_mono; [apply app_enqueue_confined|lia|].
  assert (Hfits : forall rc n, app_fits (App_send p t b) (App_sent rc n (Some i))) by (intros rc n k [= <-]; done).
  intros [pos|] _.
  - destruct (_ =? 1); (split; [done|]); intros n _; (split; [lia|done]).
  - apply confined_bind. eapply confined_mono; [apply app_enqueue_confined|lia|].
    intros _ _. split; [lia|done].
Qed.

(** C31. Against a peer that writes anything to the shared memory at any time,
    every call stays inside the queue and the 31 bytes of the caller, ends
    within nine accesses for each of the 131072 tries, and gives out only
    cookies inside the queue. *)
Theorem nxt_app_queue_confined c :
  cookie_inside c -> app_confined (9 * NXT_APP_QUEUE_SIZE + 37) (app_body c) (app_fits c).
Proof.
  intros Hc. destruct c as [p t b|cl|k t|k t|].
  - eapply confined_mono; [apply app_send_confined|lia|done].
  - eapply confined_mono; [apply app_recv_confined|lia|done].
  - split; [done|]. intros v _. by split.
  - split; [done|]. intros v _. by split.
  - split; [done|]. intros v _. by split.
Qed.

Lemma nxt_app_queue_confined_witness :
  app_confined (9 * NXT_APP_QUEUE_SIZE + 37) (app_body (App_cancel 131071 7)) (app_fits (App_cancel 131071 7)).
Proof. apply nxt_app_queue_confined. cbn. lia. Defined.
