(* ===== verification/AppClaim.v ===== *)
(** * Claims and cancels of requests

    What the specification of the application queue means to the router and to
    the workers.  The router gives every request its own tracking value, which
    is also at the beginning of the message.  Then a request that a worker
    received was either claimed by the worker or cancelled by the router, and
    never both: nobody answers it twice, and somebody answers it. *)

From stdpp Require Import relations.
From S2P Require Import Prelude Lvlhsh Atomic Nncq SlotQueue AppQueue.

#[local] Open Scope Z_scope.
#[local] Existing Instance app_nncq.

(** ** Calls *)

(** The calls that are open, and those that returned with what they returned. *)
Record calls := Calls {
  open : nat -> option app_call;
  closed : list (app_call * app_reply)
}.

Definition set_open (i : nat) (o : option app_call) (f : nat -> option app_call) : nat -> option app_call :=
  fun j => if decide (j = i) then o else f j.

Definition note (cs : calls) (e : event app_call app_reply) : calls :=
  match e with
  | Invoke i c => Calls (set_open i (Some c) (open cs)) (closed cs)
  | Return i r =>
      Calls (set_open i None (open cs))
        (closed cs ++ match open cs i with Some c => [(c, r)] | None => [] end)
  end.

Definition calls_in (h : list (event app_call app_reply)) : calls :=
  fold_left note h (Calls (fun _ => None) []).

(** The tracking value of the request that a call won by its reply: a cancel
    that returned true, or a receive that claimed. *)
Definition wins (e : app_call * app_reply) : option Z :=
  match e with
  | (App_cancel _ t, App_bool true) => Some t
  | (App_recv _, App_received (Some (p, _, true))) => Some (tracking_of p)
  | _ => None
  end.

(** ** Orderly use *)

Definition trackings (h : list (event app_call app_reply)) : list Z :=
  omap (fun e => match e with Invoke _ (App_send _ t _) => Some t | _ => None end) h.

(** Messages begin with their tracking values, which are not 0; receivers
    claim. *)
Definition proper_call (c : app_call) : Prop :=
  match c with
  | App_send p t _ => tracking_of p = t /\ (4 <= length p)%nat /\ t <> 0
  | App_recv claim => claim = true
  | _ => True
  end.

(** The calls are proper and no tracking value is sent twice. *)
Definition orderly (h : list (event app_call app_reply)) : Prop :=
  (forall i c, Invoke i c ∈ h -> proper_call c) /\ NoDup (trackings h).

(** ** Statuses and calls *)

(** The status of a thread belongs to its call. *)
Definition matches (o : option app_call) (st : app_status) : Prop :=
  match st with
  | A_idle => o = None
  | A_sending p t b _ | A_reserved _ p t b _ => o = Some (App_send p t b)
  | A_tracked _ p b _ => exists t, o = Some (App_send p t b)
  | A_published _ _ _ | A_returning (App_sent _ _ _) => exists p t b, o = Some (App_send p t b)
  | A_receiving cl _ | A_popped _ _ cl _ => o = Some (App_recv cl)
  | A_claimed _ _ _ _ | A_released _ _ _ | A_tail _ _ _ _ | A_drained _ _ _
  | A_returning (App_received _) => exists cl, o = Some (App_recv cl)
  | A_cancelling k t => o = Some (App_cancel k t)
  | A_asking k t => o = Some (App_queued k t)
  | A_returning (App_bool _) => (exists k t, o = Some (App_cancel k t)) \/ exists k t, o = Some (App_queued k t)
  | A_notified | A_returning App_unit => o = Some App_notification_received
  end.

(** The value that a sender is about to put into a tracking word. *)
Definition sending_of (st : app_status) : option Z :=
  match st with A_sending _ t _ _ | A_reserved _ _ t _ _ => Some t | _ => None end.

(** The value that an open call won. *)
Definition won (o : option app_call) (st : app_status) : option Z :=
  match o, st with
  | Some (App_cancel _ t), A_returning (App_bool true) => Some t
  | Some (App_recv _), (A_claimed _ p true _ | A_released _ p true | A_tail _ p true _
                        | A_drained _ p true | A_returning (App_received (Some (p, _, true)))) =>
      Some (tracking_of p)
  | _, _ => None
  end.

(** *** The moves of the specification *)

Lemma quiet_matches c st st' o : app_quiet c st st' -> matches o st -> matches o st'.
Proof. destruct 1; cbn; naive_solver. Qed.

Lemma word_matches n f st n' f' st' o : app_word n f st n' f' st' -> matches o st -> matches o st'.
Proof. destruct 1; cbn; naive_solver. Qed.

Lemma ring_matches u l c st l' c' st' o : app_ring u l c st l' c' st' -> matches o st -> matches o st'.
Proof. destruct 1; cbn; naive_solver. Qed.

(** What a quiet move does to the tokens: nothing is won, and a send can only
    give up. *)
Lemma quiet_tokens c st st' o :
  app_quiet c st st' -> matches o st ->
  won o st' = won o st /\ (sending_of st' = sending_of st \/ sending_of st' = None).
Proof. destruct 1; cbn; naive_solver. Qed.

Lemma ring_tokens u l c st l' c' st' o :
  app_ring u l c st l' c' st' -> matches o st ->
  won o st' = won o st /\ sending_of st' = sending_of st.
Proof. destruct 1; cbn; naive_solver. Qed.

(** A move of the words leaves the tokens, puts one from the sender into a
    slot, or lets a call win one from a slot. *)
Inductive token_move : (Z -> Z) -> option Z -> option Z -> (Z -> Z) -> option Z -> option Z -> Prop :=
| token_keep f sd wn : token_move f sd wn f sd wn
| token_put f s t : token_move f (Some t) None (set_track s t f) None None
| token_win f s : token_move f None None (set_track s 0 f) None (Some (f s)).

Lemma word_tokens n f st n' f' st' o :
  app_word n f st n' f' st' -> matches o st ->
  token_move f (sending_of st) (won o st) f' (sending_of st') (won o st').
Proof.
  destruct 1; cbn; intros Hm; simplify_eq; try (naive_solver constructor).
  - destruct (Z.eqb_spec (f s) (tracking_of p)) as [E|]; cbn; [rewrite <- E|]; constructor.
  - destruct (Z.eqb_spec (f k) t) as [E|]; cbn; [rewrite <- E|]; constructor.
Qed.

(** ** At most one *)

Definition at_most_one {A} (P : A -> Prop) : Prop := forall a b, P a -> P b -> a = b.

Lemma one_fewer {A} (P P' : A -> Prop) :
  at_most_one P -> (forall a, P' a -> P a) -> at_most_one P'.
Proof. unfold at_most_one. eauto. Qed.

(** The one may have moved from [src] to [dst]. *)
Lemma one_moved {A} `{EqDecision A} (P P' : A -> Prop) dst src :
  at_most_one P -> (P' dst -> P src) -> (forall a, a <> dst -> P' a -> P a /\ a <> src) -> at_most_one P'.
Proof.
  intros Hone Hd Ho a b Ha Hb.
  destruct (decide (a = dst)) as [->|Hna], (decide (b = dst)) as [->|Hnb]; try done.
  - destruct (Ho b Hnb Hb) as [Hb' Hne]. destruct Hne. by apply Hone; auto.
  - destruct (Ho a Hna Ha) as [Ha' Hne]. destruct Hne. by apply Hone; auto.
  - apply Hone; by apply Ho.
Qed.

(** ** Tokens

    A tracking value is a token.  It is with its sender, in the tracking word
    of a slot, with an open call that won it or with a call that returned. *)

Inductive holder :=
| H_send (i : nat)
| H_slot (s : Z)
| H_win (i : nat)
| H_done (k : nat).

#[local] Instance holder_eq_dec : EqDecision holder.
Proof. solve_decision. Defined.

Definition has (cs : calls) (s : app_state) (x : Z) (a : holder) : Prop :=
  match a with
  | H_send i => sending_of (astat s i) = Some x
  | H_slot k => tracks s k = x
  | H_win i => won (open cs i) (astat s i) = Some x
  | H_done k => exists e, closed cs !! k = Some e /\ wins e = Some x
  end.

(** There is one of each token, of the values [T] that were sent. *)
Definition tokens (T : list Z) (cs : calls) (s : app_state) : Prop :=
  forall x, x <> 0 -> at_most_one (has cs s x) /\ forall a, has cs s x a -> x ∈ T.

Lemma tokens_fewer T cs s cs' s' :
  tokens T cs s -> (forall x a, x <> 0 -> has cs' s' x a -> has cs s x a) -> tokens T cs' s'.
Proof.
  intros Ht Hf x Hx. destruct (Ht x Hx) as [Hone Hin].
  split; [eapply one_fewer; eauto|eauto].
Qed.

Lemma tokens_moved T cs s cs' s' dst src :
  tokens T cs s -> (forall x, x <> 0 -> has cs' s' x dst -> has cs s x src) ->
  (forall x a, x <> 0 -> a <> dst -> has cs' s' x a -> has cs s x a /\ a <> src) ->
  tokens T cs' s'.
Proof.
  intros Ht Hd Ho x Hx. destruct (Ht x Hx) as [Hone Hin]. split.
  - eapply (one_moved _ _ dst src); eauto.
  - intros a Ha. destruct (decide (a = dst)) as [->|Hne]; [eauto|].
    destruct (Ho x a Hx Hne Ha). eauto.
Qed.

(** A step of thread [i] in which nothing is won. *)
Lemma tokens_drop i T cs s s' :
  (forall j, j <> i -> astat s' j = astat s j) -> tracks s' = tracks s ->
  won (open cs i) (astat s' i) = won (open cs i) (astat s i) ->
  sending_of (astat s' i) = sending_of (astat s i) \/ sending_of (astat s' i) = None ->
  tokens T cs s -> tokens T cs s'.
Proof.
  intros Hj Hf Hw Hs Ht. apply (tokens_fewer T cs s); [done|]. intros x [j|k|j|k] Hx; cbn; try done.
  - destruct (decide (j = i)) as [->|]; [|by rewrite Hj]. destruct Hs as [->| ->]; done.
  - by rewrite Hf.
  - destruct (decide (j = i)) as [->|]; [|by rewrite Hj]. by rewrite Hw.
Qed.

(** A step of thread [i] by [token_move]. *)
Lemma tokens_step i T cs s s' :
  (forall j, j <> i -> astat s' j = astat s j) ->
  token_move (tracks s) (sending_of (astat s i)) (won (open cs i) (astat s i))
             (tracks s') (sending_of (astat s' i)) (won (open cs i) (astat s' i)) ->
  tokens T cs s -> tokens T cs s'.
Proof.
  intros Hj Hm Hu. remember (tracks s) as f eqn:Ef. remember (tracks s') as f' eqn:Ef'.
  remember (sending_of (astat s i)) as sd eqn:Esd. remember (sending_of (astat s' i)) as sd' eqn:Esd'.
  remember (won (open cs i) (astat s i)) as wn eqn:Ewn. remember (won (open cs i) (astat s' i)) as wn' eqn:Ewn'.
  destruct Hm as [f sd wn|f k t|f k].
  - apply (tokens_drop i T cs s); [done|congruence|congruence|left; congruence|done].
  - apply (tokens_moved T cs s _ _ (H_slot k) (H_send i)); [done| |].
    + intros x Hx. cbn. rewrite <- Ef', <- Esd. unfold set_track. rewrite decide_True by done. congruence.
    + intros x [j|k'|j|k'] Hx Hne; cbn; try (by split).
      * destruct (decide (j = i)) as [->|]; [congruence|]. rewrite Hj by done. split; [done|congruence].
      * rewrite <- Ef', <- Ef. unfold set_track. rewrite decide_False by congruence. by split.
      * destruct (decide (j = i)) as [->|]; [congruence|]. rewrite Hj by done. by split.
  - apply (tokens_moved T cs s _ _ (H_win i) (H_slot k)); [done| |].
    + intros x Hx. cbn. rewrite <- Ewn', <- Ef. congruence.
    + intros x [j|k'|j|k'] Hx Hne; cbn; try (by split).
      * destruct (decide (j = i)) as [->|]; [congruence|]. rewrite Hj by done. split; [done|congruence].
      * rewrite <- Ef', <- Ef. unfold set_track. destruct (decide (k' = k)); [congruence|]. split; [done|congruence].
      * destruct (decide (j = i)) as [->|]; [congruence|]. rewrite Hj by done. by split.
Qed.

Lemma set_open_other i j o f : j <> i -> set_open i o f j = f j.
Proof. intros H. unfold set_open. by rewrite decide_False. Qed.

Lemma set_open_same i o f : set_open i o f i = o.
Proof. unfold set_open. by rewrite decide_True. Qed.

(** A call begins, of a thread that was idle. *)
Lemma tokens_invoke i c k T cs l n f st :
  st i = A_idle -> (forall p t b, c = App_send p t b -> t ∉ T) ->
  tokens T cs (AppState l k n f st) ->
  tokens (T ++ match c with App_send _ t _ => [t] | _ => [] end)
    (note cs (Invoke i c)) (AppState l k n f (set_astat i (app_called c k) st)).
Proof.
  intros Hidle Hnew Ht x Hx. destruct (Ht x Hx) as [Hone Hin].
  assert (Hhas : forall a, has (note cs (Invoke i c)) (AppState l k n f (set_astat i (app_called c k) st)) x a ->
            has cs (AppState l k n f st) x a \/
            (a = H_send i /\ exists p b, c = App_send p x b)).
  { intros [j|s|j|d]; cbn; auto.
    - destruct (decide (j = i)) as [->|]; [|rewrite set_astat_other by done; auto].
      rewrite set_astat_same. destruct c; cbn; naive_solver.
    - destruct (decide (j = i)) as [->|]; [|rewrite set_astat_other, set_open_other by done; auto].
      rewrite set_astat_same, set_open_same. destruct c; cbn; naive_solver. }
  split.
  - intros a b Ha Hb. destruct (Hhas a Ha) as [Ha'|(-> & p & b' & ->)], (Hhas b Hb) as [Hb'|(-> & p' & b'' & Hc)];
      try done; subst; try (by apply Hone).
    + by destruct (Hnew _ _ _ eq_refl (Hin _ Ha')).
    + by destruct (Hnew _ _ _ eq_refl (Hin _ Hb')).
  - intros a Ha. destruct (Hhas a Ha) as [Ha'|(-> & p & b & ->)]; set_solver.
Qed.

(** A call returns what it won. *)
Lemma tokens_return i c r k T cs l n f st :
  st i = A_returning r -> open cs i = Some c ->
  tokens T cs (AppState l k n f st) ->
  tokens T (note cs (Return i r)) (AppState l k n f (set_astat i A_idle st)).
Proof.
  intros Hret Ho Ht. apply (tokens_moved T cs _ _ _ (H_done (length (closed cs))) (H_win i) Ht).
  - intros x Hx. cbn. rewrite Ho, Hret, list_lookup_middle by done.
    intros (e & [= <-] & Hw). revert Hw. destruct c; destruct r as [|[[[q sl] []]|]|[]|]; done.
  - intros x [j|s|j|d] Hx Hne; cbn.
    + destruct (decide (j = i)) as [->|]; [by rewrite set_astat_same|]. rewrite set_astat_other by done. by split.
    + by split.
    + destruct (decide (j = i)) as [->|]; [by rewrite set_astat_same, set_open_same|].
      rewrite set_astat_other, set_open_other by done. split; [done|congruence].
    + rewrite Ho. intros (e & He & Hw). apply lookup_app_Some in He as [He|[Hlen He]]; [split; [eauto|done]|].
      destruct (d - length (closed cs))%nat eqn:Ed; [|done]. destruct Hne. f_equal. lia.
Qed.

(** ** Slots

    A slot is with a thread or with a message that waits. *)

Inductive user :=
| U_thread (i : nat)
| U_queue (k : nat).

#[local] Instance user_eq_dec : EqDecision user.
Proof. solve_decision. Defined.

Definition uses (s : app_state) (sl : Z) (u : user) : Prop :=
  match u with
  | U_thread i => slot_of (astat s i) = Some sl
  | U_queue k => (Z.to_nat (popped (acount s)) <= k)%nat /\ exists p, alog s !! k = Some (sl, p)
  end.

Definition exclusive (s : app_state) : Prop :=
  0 <= popped (acount s) /\ forall sl, at_most_one (uses s sl).

(** A step of thread [i] that leaves the messages. *)
Lemma exclusive_drop i s s' :
  (forall j, j <> i -> astat s' j = astat s j) -> alog s' = alog s -> acount s' = acount s ->
  (forall sl, slot_of (astat s' i) = Some sl -> slot_of (astat s i) = Some sl) ->
  exclusive s -> exclusive s'.
Proof.
  intros Hj Hl Hc Hs [Hp He]. split; [by rewrite Hc|]. intros sl. eapply one_fewer; [apply (He sl)|].
  intros [j|k]; cbn; [|by rewrite Hl, Hc].
  destruct (decide (j = i)) as [->|]; [auto|by rewrite Hj].
Qed.

Lemma exclusive_ring i l c n f st l' c' st' :
  app_ring (slot_used l c st) l c (st i) l' c' st' ->
  exclusive (AppState l c n f st) -> exclusive (AppState l' c' n f (set_astat i st' st)).
Proof.
  intros Hm [Hp He]. remember (st i) as st0 eqn:Est. symmetry in Est.
  assert (Hth : forall j sl, j <> i -> slot_of (set_astat i st' st j) = Some sl -> slot_of (st j) = Some sl)
    by (intros j sl Hj; by rewrite set_astat_other).
  pose proof (set_astat_same i st' st) as Hsame.
  assert (Hu : forall sl u, uses (AppState l c n f st) sl u -> slot_used l c st sl).
  { intros sl [j|k]; [left; eauto|]. intros (? & ? & ?). right. eauto. }
  revert Hm Hu. generalize (slot_used l c st) as used. intros used Hm Hu.
  destruct Hm; cbn in Hp; (split; [cbn; lia|]); intros sl.
  - destruct (decide (s = sl)) as [->|Hne].
    + assert (Hi : forall a, uses (AppState l (Counts (r + 1) rel pub pop) n f
                         (set_astat i (A_reserved sl p t b c0) st)) sl a -> a = U_thread i).
      { intros a Ha. destruct (decide (a = U_thread i)); [done|]. exfalso. eapply H1, (Hu sl a).
        destruct a as [j|k]; [apply Hth; [congruence|exact Ha]|exact Ha]. }
      intros a b' Ha Hb. rewrite (Hi a Ha). symmetry. auto.
    + eapply one_fewer; [apply (He sl)|]. intros [j|k]; cbn; [|done].
      destruct (decide (j = i)) as [->|]; [rewrite Hsame; cbn; congruence|auto].
  - apply (one_moved (uses (AppState l (Counts r rel pub pop) n f st) sl) _ (U_queue (length l)) (U_thread i)); [apply He| |].
    + cbn. rewrite Est. intros (_ & p' & Hl). rewrite list_lookup_middle in Hl by done. cbn. congruence.
    + intros [j|k] Hne; cbn.
      * destruct (decide (j = i)) as [->|]; [by rewrite Hsame|]. intros Ha. split; [auto|congruence].
      * intros (Hk & p' & Hl). split; [|done]. split; [done|]. exists p'.
        apply lookup_app_Some in Hl as [Hl|[Hlen Hl]]; [done|].
        destruct (k - length l)%nat eqn:Ek; [|done]. destruct Hne. f_equal. lia.
  - eapply one_fewer; [apply (He sl)|]. intros [j|k]; cbn; [|done].
    destruct (decide (j = i)) as [->|]; [by rewrite Hsame|auto].
  - apply (one_moved (uses (AppState l (Counts r rel pub pop) n f st) sl) _ (U_thread i) (U_queue (Z.to_nat pop))); [apply He| |].
    + cbn. rewrite Hsame. cbn. intros [= <-]. split; [done|eauto].
    + intros [j|k] Hne; cbn.
      * intros Ha. split; [|done]. apply Hth; [congruence|done].
      * intros (Hk & p' & Hl). split; [split; [lia|eauto]|]. intros [= ->]. lia.
  - eapply one_fewer; [apply (He sl)|]. intros [j|k]; cbn; [|done].
    destruct (decide (j = i)) as [->|]; [by rewrite Hsame|auto].
Qed.

(** ** Every request is accounted for *)

(** The router has won [x], or is about to be told so. *)
Definition cancelled (cs : calls) (s : app_state) (x : Z) : Prop :=
  (exists i k, open cs i = Some (App_cancel k x) /\ astat s i = A_returning (App_bool true)) \/
  (exists k, (App_cancel k x, App_bool true) ∈ closed cs).

(** The request that a thread has put into its slot or has taken and not tried
    to claim yet. *)
Definition msg_of (st : app_status) : option (Z * list Z) :=
  match st with A_tracked s p _ _ | A_popped s p _ _ => Some (s, p) | _ => None end.

(** The request that a thread has received and could not claim. *)
Definition unclaimed (st : app_status) : option (list Z) :=
  match st with
  | A_claimed _ p false _ | A_released _ p false | A_tail _ p false _ | A_drained _ p false
  | A_returning (App_received (Some (p, _, false))) => Some p
  | _ => None
  end.

Definition waits (s : app_state) (u : user) (sl : Z) (p : list Z) : Prop :=
  match u with
  | U_thread i => msg_of (astat s i) = Some (sl, p)
  | U_queue k => (Z.to_nat (popped (acount s)) <= k)%nat /\ alog s !! k = Some (sl, p)
  end.

Record accounted (T : list Z) (cs : calls) (s : app_state) : Prop := {
  acc_open : forall i c, open cs i = Some c -> proper_call c;
  acc_match : forall i, matches (open cs i) (astat s i);
  acc_tokens : tokens T cs s;
  acc_exclusive : exclusive s;
  acc_waits : forall u sl p, waits s u sl p ->
    (4 <= length p)%nat /\ (tracks s sl = tracking_of p \/ cancelled cs s (tracking_of p));
  acc_unclaimed : forall i p, unclaimed (astat s i) = Some p -> cancelled cs s (tracking_of p);
  acc_closed : forall c p sl, (c, App_received (Some (p, sl, false))) ∈ closed cs ->
    cancelled cs s (tracking_of p)
}.

Lemma waits_uses s u sl p : waits s u sl p -> uses s sl u.
Proof. destruct u as [i|k]; cbn; [|naive_solver]. destruct (astat s i); naive_solver. Qed.

(** A step of a thread that is not returning keeps what was cancelled. *)
Lemma cancelled_keep i cs s s' x :
  (forall j, j <> i -> astat s' j = astat s j) -> (forall r, astat s i <> A_returning r) ->
  cancelled cs s x -> cancelled cs s' x.
Proof.
  intros Hj Hi [(j & k & Ho & Hs)|Hd]; [|by right]. left. exists j, k. split; [done|].
  rewrite Hj; [done|]. intros ->. by apply (Hi (App_bool true)).
Qed.

Lemma quiet_running c st st' r : app_quiet c st st' -> st <> A_returning r.
Proof. by destruct 1. Qed.

Lemma word_running n f st n' f' st' r : app_word n f st n' f' st' -> st <> A_returning r.
Proof. by destruct 1. Qed.

Lemma ring_running u l c st l' c' st' r : app_ring u l c st l' c' st' -> st <> A_returning r.
Proof. by destruct 1. Qed.

Lemma quiet_msg c st st' :
  app_quiet c st st' -> msg_of st' = None /\
  forall p, unclaimed st' = Some p ->
    unclaimed st = Some p \/ exists s cl c0, st = A_popped s p cl c0 /\ cl && (4 <=? Z.of_nat (length p)) = false.
Proof. destruct 1; cbn; naive_solver. Qed.

Lemma accounted_quiet i T cs l c n f st st' :
  app_quiet c (st i) st' -> accounted T cs (AppState l c n f st) ->
  accounted T cs (AppState l c n f (set_astat i st' st)).
Proof.
  intros Hm [Hop Hma Hto Hex Hwa Hun Hcl]. cbn in *.
  assert (Hj : forall j, j <> i -> set_astat i st' st j = st j) by (intros; by apply set_astat_other).
  pose proof (set_astat_same i st' st) as Hi.
  assert (Hk : forall x, cancelled cs (AppState l c n f st) x -> cancelled cs (AppState l c n f (set_astat i st' st)) x).
  { intros x. apply (cancelled_keep i); [done|]. intros r. by eapply quiet_running. }
  destruct (quiet_msg _ _ _ Hm) as [Hmsg Hunc].
  split; cbn; [done| | | | | |].
  - intros j. destruct (decide (j = i)) as [->|]; [|by rewrite Hj]. rewrite Hi. by eapply quiet_matches.
  - destruct (quiet_tokens _ _ _ _ Hm (Hma i)) as [Hw Hs].
    apply (tokens_drop i T cs (AppState l c n f st)); cbn; rewrite ?Hi; done.
  - apply (exclusive_drop i (AppState l c n f st)); try done. cbn. rewrite Hi.
    intros sl Hsl. eapply quiet_slot; [apply rtc_once; exact Hm|done].
  - intros u sl p Hu. destruct (Hwa u sl p) as [Hlen Hc]; [|naive_solver].
    destruct u as [j|k]; [|done]. cbn in *. destruct (decide (j = i)) as [->|]; [congruence|by rewrite Hj in Hu].
  - intros j p. destruct (decide (j = i)) as [->|]; [|rewrite Hj by done; eauto]. rewrite Hi. intros Hp.
    destruct (Hunc p Hp) as [Hp'|(s & cl & c0 & Est & Hno)]; [eauto|]. exfalso.
    pose proof (Hma i) as Hmi. rewrite Est in Hmi. cbn in Hmi. pose proof (Hop i _ Hmi) as Hcl'. cbn in Hcl'. subst cl.
    destruct (Hwa (U_thread i) s p) as [Hlen _]; [cbn; by rewrite Est|].
    cbn in Hno. apply Z.leb_gt in Hno. lia.
  - intros cl p sl Hin. eauto.
Qed.

(** The requests that wait when the tracking word of slot [s] changes, which
    thread [i] holds. *)
Lemma waits_other i s st st' l c n n' f f' u sl p :
  exclusive (AppState l c n f st) -> slot_of (st i) = Some s -> u <> U_thread i ->
  waits (AppState l c n' f' (set_astat i st' st)) u sl p ->
  waits (AppState l c n f st) u sl p /\ sl <> s.
Proof.
  intros [_ He] Hs Hu Hw.
  assert (Hw' : waits (AppState l c n f st) u sl p).
  { destruct u as [j|k]; [|done]. cbn in *. by rewrite set_astat_other in Hw by congruence. }
  split; [done|]. intros ->. apply Hu. apply (He s); [by eapply waits_uses|done].
Qed.

Lemma set_track_other s s' v f : s' <> s -> set_track s v f s' = f s'.
Proof. intros H. unfold set_track. by rewrite decide_False. Qed.

Lemma set_track_same s v f : set_track s v f s = v.
Proof. unfold set_track. by rewrite decide_True. Qed.

Lemma word_slot n f st n' f' st' sl :
  app_word n f st n' f' st' -> slot_of st' = Some sl -> slot_of st = Some sl.
Proof. by destruct 1. Qed.

(** The tracking words seen by the requests that wait after a move of the
    words. *)
Lemma word_waits i cs l c n f st n' f' st' :
  app_word n f (st i) n' f' st' -> matches (open cs i) (st i) ->
  (forall c, open cs i = Some c -> proper_call c) -> exclusive (AppState l c n f st) ->
  let s := AppState l c n f st in
  let s' := AppState l c n' f' (set_astat i st' st) in
  (forall u sl p, waits s u sl p ->
    (4 <= length p)%nat /\ (f sl = tracking_of p \/ cancelled cs s (tracking_of p))) ->
  (forall x, cancelled cs s x -> cancelled cs s' x) ->
  (forall u sl p, waits s' u sl p ->
    (4 <= length p)%nat /\ (f' sl = tracking_of p \/ cancelled cs s' (tracking_of p))) /\
  (forall p, unclaimed st' = Some p -> cancelled cs s' (tracking_of p) \/ unclaimed (st i) = Some p).
Proof.
  intros Hm Hma Hop Hex s s' Hwa Hk. subst s s'.
  pose proof (set_astat_same i st' st) as Hi.
  assert (Hquiet : f' = f -> msg_of st' = None -> forall u sl p,
    waits (AppState l c n' f' (set_astat i st' st)) u sl p ->
    (4 <= length p)%nat /\ (f' sl = tracking_of p \/
       cancelled cs (AppState l c n' f' (set_astat i st' st)) (tracking_of p))).
  { intros -> Hn u sl p Hu. destruct (Hwa u sl p) as [Hl Ht]; [|naive_solver].
    destruct u as [j|k]; [|done]. cbn in *. destruct (decide (j = i)) as [->|]; [congruence|].
    by rewrite set_astat_other in Hu. }
  remember (st i) as st0 eqn:Est. symmetry in Est.
  destruct Hm as [n f s p t b c0|n f s pos b Hb|n f s p cl c0 Hcl|n f s p cd|n f k t|n f k t|n f];
    try (split; [by apply Hquiet|by auto]).
  - split; [|done]. intros u sl q Hu. destruct (decide (u = U_thread i)) as [->|Hne].
    + cbn in Hu. rewrite Hi in Hu. cbn in Hu. injection Hu as <- <-.
      destruct (Hop _ Hma) as (Ht & Hl & _). split; [done|]. left. by rewrite set_track_same.
    + destruct (waits_other i s _ _ _ _ _ _ _ _ _ _ _ Hex ltac:(by rewrite Est) Hne Hu) as [Hu' Hsl].
      destruct (Hwa u sl q Hu') as [Hl Ht]. split; [done|]. rewrite set_track_other by done. naive_solver.
  - split.
    + intros u sl q Hu. destruct (decide (u = U_thread i)) as [->|Hne].
      { cbn in Hu. rewrite Hi in Hu. done. }
      destruct (waits_other i s _ _ _ _ _ _ _ _ _ _ _ Hex ltac:(by rewrite Est) Hne Hu) as [Hu' Hsl].
      destruct (Hwa u sl q Hu') as [Hl Ht]. split; [done|].
      destruct (f s =? tracking_of p); rewrite ?set_track_other by done; naive_solver.
    + intros q Hq. left. destruct (f s =? tracking_of p) eqn:E; cbn in Hq; [done|]. injection Hq as <-.
      apply Z.eqb_neq in E. destruct (Hwa (U_thread i) s p) as [_ [?|?]]; [cbn; by rewrite Est|done|auto].
  - split; [|done]. intros u sl q Hu. destruct (Hwa u sl q) as [Hl Ht].
    { destruct u as [j|k']; [|done]. cbn in *. destruct (decide (j = i)) as [->|]; [by rewrite Hi in Hu|].
      by rewrite set_astat_other in Hu. }
    split; [done|]. destruct Ht as [Ht|Ht]; [|auto].
    destruct (f k =? t) eqn:E; [|auto]. apply Z.eqb_eq in E.
    destruct (decide (sl = k)) as [->|Hne]; [|rewrite set_track_other by done; auto].
    right. left. exists i, k. cbn. rewrite Hi. split; [|done]. cbn in Hma. rewrite Hma. congruence.
Qed.

Lemma accounted_word i T cs l c n f st n' f' st' :
  app_word n f (st i) n' f' st' -> accounted T cs (AppState l c n f st) ->
  accounted T cs (AppState l c n' f' (set_astat i st' st)).
Proof.
  intros Hm [Hop Hma Hto Hex Hwa Hun Hcl]. cbn in *.
  assert (Hj : forall j, j <> i -> set_astat i st' st j = st j) by (intros; by apply set_astat_other).
  pose proof (set_astat_same i st' st) as Hi.
  assert (Hk : forall x, cancelled cs (AppState l c n f st) x -> cancelled cs (AppState l c n' f' (set_astat i st' st)) x).
  { intros x. apply (cancelled_keep i); [done|]. intros r. by eapply word_running. }
  destruct (word_waits i cs l c n f st n' f' st' Hm (Hma i) (Hop i) Hex Hwa Hk) as [Hw' Hu'].
  split; cbn; [done| | | |done| |].
  - intros j. destruct (decide (j = i)) as [->|]; [|by rewrite Hj]. rewrite Hi. by eapply word_matches.
  - apply (tokens_step i T cs (AppState l c n f st)); [done| |done]. cbn. rewrite Hi.
    by eapply word_tokens.
  - apply (exclusive_drop i (AppState l c n f st)); try done. cbn. rewrite Hi. intros sl. by eapply word_slot.
  - intros j p. destruct (decide (j = i)) as [->|]; [|rewrite Hj by done; eauto]. rewrite Hi. intros Hp.
    destruct (Hu' p Hp); eauto.
  - intros cl p sl Hin. eauto.
Qed.

(** A move of the rings hands a request on or leaves it. *)
Lemma ring_waits i l c n f st l' c' st' u sl p :
  app_ring (slot_used l c st) l c (st i) l' c' st' -> 0 <= popped c ->
  waits (AppState l' c' n f (set_astat i st' st)) u sl p ->
  exists u', waits (AppState l c n f st) u' sl p.
Proof.
  intros Hm Hp Hu. pose proof (set_astat_same i st' st) as Hi.
  assert (Hth : forall j, j <> i -> msg_of (set_astat i st' st j) = Some (sl, p) ->
            waits (AppState l c n f st) (U_thread j) sl p) by (intros j Hj; by rewrite set_astat_other).
  revert Hm. generalize (slot_used l c st) as used. intros used Hm.
  remember (st i) as st0 eqn:Est. symmetry in Est.
  destruct u as [j|k].
  - destruct (decide (j = i)) as [->|Hne]; [|eexists; by apply (Hth j)].
    cbn in Hu. rewrite Hi in Hu. destruct Hm; try done. cbn in Hu. injection Hu as <- <-.
    exists (U_queue (Z.to_nat pop)). cbn in *. done.
  - destruct Hm as [| l r rel pub pop s q b c0| | |]; cbn in *.
    + by exists (U_queue k).
    + destruct Hu as [Hk Hl]. apply lookup_app_Some in Hl as [Hl|[_ Hl]]; [by exists (U_queue k)|].
      destruct (k - length l)%nat; [|done]. injection Hl as -> ->. exists (U_thread i). cbn. by rewrite Est.
    + by exists (U_queue k).
    + exists (U_queue k). destruct Hu. split; [cbn; lia|done].
    + by exists (U_queue k).
Qed.

Lemma ring_unclaimed u l c st l' c' st' : app_ring u l c st l' c' st' -> unclaimed st' = unclaimed st.
Proof. by destruct 1. Qed.

Lemma accounted_ring i T cs l c n f st l' c' st' :
  app_ring (slot_used l c st) l c (st i) l' c' st' -> accounted T cs (AppState l c n f st) ->
  accounted T cs (AppState l' c' n f (set_astat i st' st)).
Proof.
  intros Hm [Hop Hma Hto Hex Hwa Hun Hcl]. cbn in *.
  assert (Hj : forall j, j <> i -> set_astat i st' st j = st j) by (intros; by apply set_astat_other).
  pose proof (set_astat_same i st' st) as Hi.
  assert (Hk : forall x, cancelled cs (AppState l c n f st) x -> cancelled cs (AppState l' c' n f (set_astat i st' st)) x).
  { intros x. apply (cancelled_keep i); [done|]. intros r. by eapply ring_running. }
  split; cbn; [done| | | | | |].
  - intros j. destruct (decide (j = i)) as [->|]; [|by rewrite Hj]. rewrite Hi. by eapply ring_matches.
  - destruct (ring_tokens _ _ _ _ _ _ _ _ Hm (Hma i)) as [Hw Hs].
    apply (tokens_drop i T cs (AppState l c n f st)); cbn; rewrite ?Hi; auto.
  - by eapply exclusive_ring.
  - intros u sl p Hu. destruct Hex as [Hp _].
    destruct (ring_waits _ _ _ _ _ _ _ _ _ _ _ _ Hm Hp Hu) as [u' Hu'].
    destruct (Hwa u' sl p Hu') as [Hl Ht]. naive_solver.
  - intros j p. destruct (decide (j = i)) as [->|]; [|rewrite Hj by done; eauto]. rewrite Hi.
    rewrite (ring_unclaimed _ _ _ _ _ _ _ Hm). eauto.
  - intros cl p sl Hin. eauto.
Qed.

Lemma accounted_invoke i c T cs l k n f st :
  st i = A_idle -> proper_call c -> (forall p t b, c = App_send p t b -> t ∉ T) ->
  accounted T cs (AppState l k n f st) ->
  accounted (T ++ match c with App_send _ t _ => [t] | _ => [] end)
    (note cs (Invoke i c)) (AppState l k n f (set_astat i (app_called c k) st)).
Proof.
  intros Hidle Hc Hnew [Hop Hma Hto Hex Hwa Hun Hcl]. cbn in *.
  assert (Hj : forall j, j <> i -> set_astat i (app_called c k) st j = st j) by (intros; by apply set_astat_other).
  pose proof (set_astat_same i (app_called c k) st) as Hi.
  assert (Hk : forall x, cancelled cs (AppState l k n f st) x ->
    cancelled (note cs (Invoke i c)) (AppState l k n f (set_astat i (app_called c k) st)) x).
  { intros x [(j & d & Ho & Hs)|Hd]; [|by right]. left. exists j, d. cbn in *.
    destruct (decide (j = i)) as [->|]; [congruence|]. by rewrite Hj, set_open_other. }
  split; cbn.
  - intros j c0. destruct (decide (j = i)) as [->|]; [rewrite set_open_same|rewrite set_open_other by done; eauto].
    congruence.
  - intros j. destruct (decide (j = i)) as [->|]; [|by rewrite Hj, set_open_other].
    rewrite Hi, set_open_same. by destruct c.
  - by apply tokens_invoke.
  - apply (exclusive_drop i (AppState l k n f st)); try done. cbn. rewrite Hi. by destruct c.
  - intros u sl p Hu. destruct (Hwa u sl p) as [Hl Ht]; [|naive_solver].
    destruct u as [j|d]; [|done]. cbn in *. destruct (decide (j = i)) as [->|]; [|by rewrite Hj in Hu].
    rewrite Hi in Hu. by destruct c.
  - intros j p. destruct (decide (j = i)) as [->|]; [|rewrite Hj by done; eauto]. rewrite Hi. by destruct c.
  - intros c0 p sl Hin. eauto.
Qed.

Lemma accounted_return i r T cs l k n f st :
  st i = A_returning r -> accounted T cs (AppState l k n f st) ->
  accounted T (note cs (Return i r)) (AppState l k n f (set_astat i A_idle st)).
Proof.
  intros Hret [Hop Hma Hto Hex Hwa Hun Hcl]. cbn in *.
  assert (Hj : forall j, j <> i -> set_astat i A_idle st j = st j) by (intros; by apply set_astat_other).
  pose proof (set_astat_same i A_idle st) as Hi.
  assert (Ho : exists c, open cs i = Some c).
  { pose proof (Hma i) as Hm. rewrite Hret in Hm. destruct r; cbn in Hm; naive_solver. }
  destruct Ho as [c Ho].
  assert (Hk : forall x, cancelled cs (AppState l k n f st) x ->
    cancelled (note cs (Return i r)) (AppState l k n f (set_astat i A_idle st)) x).
  { intros x [(j & d & Hoj & Hs)|[d Hd]]; [|right; exists d; cbn; set_solver]. cbn in *.
    destruct (decide (j = i)) as [->|].
    - right. exists d. cbn. rewrite Hoj. assert (r = App_bool true) as -> by congruence. set_solver.
    - left. exists j, d. cbn. by rewrite Hj, set_open_other. }
  split; cbn.
  - intros j c0. destruct (decide (j = i)) as [->|]; [by rewrite set_open_same|rewrite set_open_other by done; eauto].
  - intros j. destruct (decide (j = i)) as [->|]; [|by rewrite Hj, set_open_other].
    by rewrite Hi, set_open_same.
  - by eapply tokens_return.
  - apply (exclusive_drop i (AppState l k n f st)); try done. cbn. by rewrite Hi.
  - intros u sl p Hu. destruct (Hwa u sl p) as [Hl Ht]; [|naive_solver].
    destruct u as [j|d]; [|done]. cbn in *. destruct (decide (j = i)) as [->|]; [|by rewrite Hj in Hu].
    by rewrite Hi in Hu.
  - intros j p. destruct (decide (j = i)) as [->|]; [|rewrite Hj by done; eauto]. by rewrite Hi.
  - intros c0 p sl Hin. apply Hk. rewrite Ho in Hin. apply elem_of_app in Hin as [Hin|Hin]; [eauto|].
    apply list_elem_of_singleton in Hin. injection Hin as _ <-. apply (Hun i p). by rewrite Hret.
Qed.

Lemma trackings_app h h' : trackings (h ++ h') = trackings h ++ trackings h'.
Proof. apply omap_app. Qed.

Lemma calls_in_app h e : calls_in (h ++ [e]) = note (calls_in h) e.
Proof. unfold calls_in. by rewrite fold_left_app. Qed.

Lemma orderly_app h e : orderly (h ++ [e]) -> orderly h.
Proof.
  intros [Hp Hd]. split; [intros; apply (Hp i); set_solver|].
  rewrite trackings_app in Hd. by apply NoDup_app in Hd as [? _].
Qed.

Lemma history_accounted f0 h s :
  (forall sl, f0 sl = 0) -> history_of app_spec (app_initial f0) h s -> orderly h ->
  accounted (trackings h) (calls_in h) s.
Proof.
  intros Hf Hh. remember (app_initial f0) as s0 eqn:E.
  induction Hh as [s|s h s' s'' i Hh IH Hm|s h s' s'' i c Hh IH Hm|s h s' s'' i r0 Hh IH Hm]; intros Hor; subst.
  - split; try done.
    + intros x Hx. split; [|by intros [j|k|j|k]; cbn; naive_solver].
      intros [j|k|j|k] b; cbn; naive_solver.
    + split; [done|]. intros sl [j|k] b; cbn; naive_solver.
    + intros [j|k] sl p; cbn; naive_solver.
    + intros c p sl Hin. by apply not_elem_of_nil in Hin.
  - specialize (IH eq_refl Hor). destruct Hm; eauto using accounted_quiet, accounted_word, accounted_ring.
  - pose proof Hor as [Hp Hd]. specialize (IH eq_refl (orderly_app _ _ Hor)).
    rewrite trackings_app, calls_in_app. rewrite trackings_app in Hd. apply NoDup_app in Hd as (_ & Hd & _).
    destruct Hm as [l k n f st Hidle].
    replace (trackings [Invoke i c]) with (match c with App_send _ t _ => [t] | _ => [] end) by (by destruct c).
    apply accounted_invoke; [done|apply (Hp i); set_solver| |done].
    intros p t b -> Hin. apply (Hd t Hin). cbn. set_solver.
  - specialize (IH eq_refl (orderly_app _ _ Hor)). rewrite trackings_app, calls_in_app, app_nil_r.
    destruct Hm. by apply accounted_return.
Qed.

(** ** The theorem *)

(** C18. The router gives each request its own tracking value and the workers
    claim what they receive, on a queue whose tracking words are 0.  Then, in
    every interleaving, of all the calls that returned at most one won a
    request: no two workers claim it, and no worker claims it that the router
    cancelled.  And a request that a worker received without winning it was
    cancelled, by a call that returned true or is about to. *)
Theorem nxt_app_queue_claim_or_cancel m clients schedule c' :
  app_ready m -> (forall s, m (Tracking s) = 0) ->
  run app_body (2 ^ 28) schedule (start m clients) = Some c' -> orderly (history c') ->
  let cs := calls_in (history c') in
  (forall k1 k2 e1 e2 x, x <> 0 -> closed cs !! k1 = Some e1 -> closed cs !! k2 = Some e2 ->
     wins e1 = Some x -> wins e2 = Some x -> k1 = k2) /\
  (forall c p s, (c, App_received (Some (p, s, false))) ∈ closed cs ->
     (exists k, (App_cancel k (tracking_of p), App_bool true) ∈ closed cs) \/
     (exists i k, open cs i = Some (App_cancel k (tracking_of p)))).
Proof.
  intros Hm Ht Hrun Hor cs. destruct (app_run_refines _ _ _ _ Hm Hrun) as [s Hh].
  destruct (history_accounted _ _ _ Ht Hh Hor) as [_ _ Hto _ _ _ Hcl]. fold cs in Hto, Hcl. split.
  - intros k1 k2 e1 e2 x Hx H1 H2 W1 W2. destruct (Hto x Hx) as [Hone _].
    assert (E : H_done k1 = H_done k2) by (apply Hone; cbn; eauto). by injection E.
  - intros c p sl Hin. destruct (Hcl c p sl Hin) as [(i & k & Ho & _)|Hd]; eauto.
Qed.

Lemma app_history_orderly : orderly app_history.
Proof.
  split; [|apply (bool_decide_eq_true_1 (NoDup [7; 8])); vm_compute; reflexivity].
  intros i c Hin. unfold app_history in Hin.
  repeat (apply elem_of_cons in Hin as [Hin|Hin];
          [try discriminate Hin; injection Hin as -> ->; cbn; (lia || done)|]).
  destruct (not_elem_of_nil _ Hin).
Qed.

Lemma nxt_app_queue_claim_or_cancel_witness :
  let cs := calls_in app_history in
  (App_recv true, App_received (Some ([8; 0; 0; 0], 1, false))) ∈ closed cs /\
  ((exists k, (App_cancel k 8, App_bool true) ∈ closed cs) \/
   (exists i k, open cs i = Some (App_cancel k 8))).
Proof.
  intros cs.
  assert (Hin : (App_recv true, App_received (Some ([8; 0; 0; 0], 1, false))) ∈ closed cs) by (cbn; set_solver).
  split; [exact Hin|].
  destruct app_sample_run as (c' & Hrun & E). pose proof app_history_orderly as Hor. rewrite <- E in Hor.
  destruct (nxt_app_queue_claim_or_cancel ready_app_memory app_clients app_turns c' ready_app_memory_ok
              (fun _ => eq_refl) Hrun Hor) as [_ H].
  rewrite E in H. exact (H _ _ _ Hin).
Defined.
