(* ===== verification/Heap.v ===== *)
(** * Linked structures in memory

    Code that changes a state is a computation in [ST]; the predicate [wp] says
    that it returns and what it leaves.  Code on linked structures reads and
    writes the cells of a heap through pointers: an access to a pointer that is
    not in the heap, for example NULL, is a [Fault].  A heap is described by the
    list of its cells, of which an access touches one. *)

From stdpp Require Export gmap.
From S2P Require Import Prelude.

#[local] Open Scope Z_scope.

Abbreviation ptr := Z (only parsing).
Abbreviation NULL := 0 (only parsing).

(** ** Code that changes a state *)

Definition ST (S A : Type) : Type := S -> outcome (A * S).

Definition hret {S A} (a : A) : ST S A := fun s => Ret (a, s).

Definition hbind {S A B} (m : ST S A) (k : A -> ST S B) : ST S B :=
  fun s => let* (a, s') := m s in k a s'.

Definition no_fuel {S A} : ST S A := fun _ => OutOfFuel.

Notation "'let^' x ':=' m 'in' k" := (hbind m (fun x => k))
  (at level 10, x pattern, m at level 100, k at level 200,
   format "'let^'  x  ':='  m  'in' '//' k") : nxt_scope.

(** The code returns, and [Q] holds of its result and of the state it leaves. *)
Definition wp {S A} (m : ST S A) (Q : A -> S -> Prop) (s : S) : Prop :=
  match m s with Ret (a, s') => Q a s' | _ => False end.

Lemma wp_hret {S A} (a : A) Q (s : S) : Q a s -> wp (hret a) Q s.
Proof. done. Qed.

Lemma wp_hbind {S A B} (m : ST S A) (k : A -> ST S B) Q s :
  wp m (fun a s' => wp (k a) Q s') s -> wp (hbind m k) Q s.
Proof. unfold wp, hbind. by destruct (m s) as [[a s']| |]. Qed.

Lemma wp_conseq {S A} (m : ST S A) (Q Q' : A -> S -> Prop) s :
  wp m Q s -> (forall a s', Q a s' -> Q' a s') -> wp m Q' s.
Proof. unfold wp. destruct (m s) as [[a s']| |]; auto. Qed.

Section Heap.
Context {cell : Type}.

Abbreviation heap := (gmap ptr cell).
Abbreviation H := (ST heap).

(** ** Code on a heap *)

Definition load (p : ptr) : H cell :=
  fun h => match h !! p with Some c => Ret (c, h) | None => Fault end.

Definition modify (p : ptr) (f : cell -> cell) : H unit :=
  fun h => match h !! p with Some c => Ret (tt, <[p := f c]> h) | None => Fault end.

(** A bound for loops that visit a cell at most once. *)
Definition cells_bound : H nat := fun h => Ret (S (size h), h).

(** ** States *)

(** The heap has the cells of [l], which are different cells. *)
Definition holds (h : heap) (l : list (ptr * cell)) : Prop :=
  NoDup l.*1 /\ Forall (fun pc => h !! pc.1 = Some pc.2) l.

(** The list [l'] is [l] with the part [a] replaced by [a']. *)
Inductive replaced {A} (a a' : list A) : list A -> list A -> Prop :=
| replaced_here : replaced a a' a a'
| replaced_cons x l l' : replaced a a' l l' -> replaced a a' (x :: l) (x :: l')
| replaced_app_l m l l' : replaced a a' l l' -> replaced a a' (l ++ m) (l' ++ m)
| replaced_app_r m l l' : replaced a a' l l' -> replaced a a' (m ++ l) (m ++ l').

Lemma replaced_first {A} (x x' : A) l : replaced [x] [x'] (x :: l) (x' :: l).
Proof. exact (replaced_app_l [x] [x'] l [x] [x'] (replaced_here _ _)). Qed.

Lemma removed_first {A} (x : A) l : replaced [x] [] (x :: l) l.
Proof. exact (replaced_app_l [x] [] l [x] [] (replaced_here _ _)). Qed.

Lemma holds_perm h l l' : l ≡ₚ l' -> holds h l -> holds h l'.
Proof. intros E [Hd Hf]. split; [by rewrite <- E|by rewrite <- E]. Qed.

Lemma replaced_split {A} (a a' l l' : list A) :
  replaced a a' l l' -> exists l1 l2, l = l1 ++ a ++ l2 /\ l' = l1 ++ a' ++ l2.
Proof.
  induction 1 as [|x l l' _ (l1 & l2 & -> & ->)|m l l' _ (l1 & l2 & -> & ->)|m l l' _ (l1 & l2 & -> & ->)].
  - exists [], []. by rewrite !app_nil_r.
  - by exists (x :: l1), l2.
  - exists l1, (l2 ++ m). by rewrite <- !app_assoc.
  - exists (m ++ l1), l2. by rewrite <- !app_assoc.
Qed.

Lemma holds_lookup h l p c l' : holds h l -> replaced [(p, c)] [] l l' -> h !! p = Some c.
Proof.
  intros [_ Hf] Hr. destruct (replaced_split _ _ _ _ Hr) as (l1 & l2 & -> & _).
  rewrite Forall_forall in Hf. apply (Hf (p, c)). set_solver.
Qed.

Lemma holds_insert h l p c c' l' :
  holds h l -> replaced [(p, c)] [(p, c')] l l' -> h !! p = Some c /\ holds (<[p := c']> h) l'.
Proof.
  intros [Hd Hf] Hr. destruct (replaced_split _ _ _ _ Hr) as (l1 & l2 & -> & ->).
  cbn in *. rewrite Forall_app, Forall_cons in Hf. destruct Hf as (H1 & Hc & H2). split; [done|].
  rewrite !fmap_app in *. cbn in *. apply NoDup_app in Hd as (Hd1 & Hn & Hd2).
  apply NoDup_cons in Hd2 as [Hp Hd2]. split.
  - rewrite !fmap_app. cbn. apply NoDup_app. split_and!; [done|done|]. by constructor.
  - rewrite Forall_app, Forall_cons. cbn. split_and!; [|by rewrite lookup_insert_eq|].
    + apply Forall_forall. intros [q d] Hq. cbn. rewrite lookup_insert_ne; [by rewrite Forall_forall in H1; apply (H1 _ Hq)|].
      intros <-. apply (Hn p); [|set_solver]. apply list_elem_of_fmap. by exists (p, d).
    + apply Forall_forall. intros [q d] Hq. cbn. rewrite lookup_insert_ne; [by rewrite Forall_forall in H2; apply (H2 _ Hq)|].
      intros <-. apply Hp. apply list_elem_of_fmap. by exists (p, d).
Qed.

(** The heap has at least as many cells. *)
Lemma holds_size h l : holds h l -> (length l <= size h)%nat.
Proof.
  intros [Hd Hf]. rewrite <- (length_fmap fst l). rewrite <- (size_list_to_set (C := gset Z)) by done.
  rewrite <- size_dom. apply subseteq_size. intros p Hp. apply elem_of_list_to_set in Hp.
  apply list_elem_of_fmap in Hp as ([q c] & -> & Hq). rewrite Forall_forall in Hf. apply elem_of_dom_2 with c.
  apply (Hf _ Hq).
Qed.

Lemma holds_ne h l l' l'' p q c d :
  holds h l -> replaced [(p, c)] [] l l' -> replaced [(q, d)] [] l' l'' -> p <> q.
Proof.
  intros [Hd _] H1 H2. destruct (replaced_split _ _ _ _ H1) as (l1 & l2 & -> & ->).
  destruct (replaced_split _ _ _ _ H2) as (l3 & l4 & E & _). cbn in E.
  assert (Hq : q ∈ (l1 ++ l2).*1) by (rewrite E; rewrite fmap_app; set_solver).
  rewrite !fmap_app in Hd. cbn in Hd. rewrite fmap_app in Hq. intros ->.
  assert (Hp : q :: (l1.*1 ++ l2.*1) ≡ₚ l1.*1 ++ q :: l2.*1) by (by rewrite Permutation_middle).
  rewrite <- Hp in Hd. apply NoDup_cons in Hd as [Hd _]. done.
Qed.

(** ** Triples *)

Lemma wp_heap_load p c l l' Q h :
  holds h l -> replaced [(p, c)] [] l l' -> Q c h -> wp (load p) Q h.
Proof. intros Hh Hr HQ. unfold wp, load. by rewrite (holds_lookup _ _ _ _ _ Hh Hr). Qed.

Lemma wp_modify p f c l l' Q h :
  holds h l -> replaced [(p, c)] [(p, f c)] l l' -> (forall h', holds h' l' -> Q tt h') ->
  wp (modify p f) Q h.
Proof.
  intros Hh Hr HQ. destruct (holds_insert _ _ _ _ _ _ Hh Hr) as [E Hh'].
  unfold wp, modify. rewrite E. auto.
Qed.

Lemma wp_cells_bound l Q h :
  holds h l -> (forall n, (length l < n)%nat -> Q n h) -> wp cells_bound Q h.
Proof. intros Hh HQ. apply HQ. pose proof (holds_size _ _ Hh). lia. Qed.

End Heap.

(** Finds the cell that is replaced. *)
Ltac find_cell :=
  solve [repeat first [by apply replaced_here | by apply replaced_first | by apply removed_first
        | apply replaced_cons; find_cell | apply replaced_app_l; find_cell | apply replaced_app_r; find_cell]].
