(* ===== verification/Rbtree.v ===== *)
(** * Red-black trees: nxt_rbtree.c and nxt_rbtree.h

    Nodes are parts of the structures that they order; they are linked to their
    children and to their parent, and one sentinel in the tree itself is the
    parent of the root and all the leaves.  The operations are modelled on a
    heap of nodes.  [stored] describes a heap that has a tree: the heap is a
    function of the tree, and a place inside the tree is a path [ctx] to the
    root. *)

From S2P Require Import Prelude Heap.

#[local] Open Scope Z_scope.

Abbreviation NXT_RBTREE_BLACK := 0 (only parsing).
Abbreviation NXT_RBTREE_RED := 1 (only parsing).

Record nxt_rbtree_node := Node {
  left : ptr;
  right : ptr;
  parent : ptr;
  color : Z
}.

Abbreviation HN := (ST (gmap ptr nxt_rbtree_node)).

(** ** The operations *)

Definition get_left (p : ptr) : HN ptr := let^ n := load p in hret (left n).
Definition get_right (p : ptr) : HN ptr := let^ n := load p in hret (right n).
Definition get_parent (p : ptr) : HN ptr := let^ n := load p in hret (parent n).
Definition get_color (p : ptr) : HN Z := let^ n := load p in hret (color n).

Definition set_left (p v : ptr) : HN unit :=
  modify p (fun n => Node v (right n) (parent n) (color n)).
Definition set_right (p v : ptr) : HN unit :=
  modify p (fun n => Node (left n) v (parent n) (color n)).
Definition set_parent (p v : ptr) : HN unit :=
  modify p (fun n => Node (left n) (right n) v (color n)).
Definition set_color (p : ptr) (c : Z) : HN unit :=
  modify p (fun n => Node (left n) (right n) (parent n) c).

(** A tree is the address of its sentinel. *)
Definition nxt_rbtree_root (tree : ptr) : HN ptr := get_left tree.

(** The sentinel's right child is the address of the comparison function. *)
Definition nxt_rbtree_init (tree compare : ptr) : HN unit :=
  let^ _ := set_left tree tree in
  let^ _ := set_right tree compare in
  set_color tree NXT_RBTREE_BLACK.

Definition nxt_rbtree_is_empty (tree : ptr) : HN bool :=
  let^ root := nxt_rbtree_root tree in
  hret (root =? tree).

Definition nxt_rbtree_parent_relink (subst node : ptr) : HN unit :=
  let^ parent := get_parent node in
  let^ _ := set_parent subst parent in
  let^ l := get_left parent in
  if node =? l then set_left parent subst else set_right parent subst.

Definition nxt_rbtree_left_rotate (node : ptr) : HN unit :=
  let^ child := get_right node in
  let^ l := get_left child in
  let^ _ := set_right node l in
  let^ l := get_left child in
  let^ _ := set_parent l node in
  let^ _ := set_left child node in
  let^ _ := nxt_rbtree_parent_relink child node in
  set_parent node child.

Definition nxt_rbtree_right_rotate (node : ptr) : HN unit :=
  let^ child := get_left node in
  let^ r := get_right child in
  let^ _ := set_left node r in
  let^ r := get_right child in
  let^ _ := set_parent r node in
  let^ _ := set_right child node in
  let^ _ := nxt_rbtree_parent_relink child node in
  set_parent node child.

Fixpoint branch_min_loop (fuel : nat) (tree node : ptr) : HN ptr :=
  match fuel with
  | O => no_fuel
  | S fuel =>
      let^ l := get_left node in
      if l =? tree then hret node else branch_min_loop fuel tree l
  end.

Definition nxt_rbtree_branch_min (tree node : ptr) : HN ptr :=
  let^ fuel := cells_bound in
  branch_min_loop fuel tree node.

Definition nxt_rbtree_min (tree : ptr) : HN ptr := nxt_rbtree_branch_min tree tree.

Definition nxt_rbtree_is_there_successor (tree node : ptr) : bool := negb (node =? tree).

Fixpoint successor_loop (fuel : nat) (node : ptr) : HN ptr :=
  match fuel with
  | O => no_fuel
  | S fuel =>
      let^ parent := get_parent node in
      let^ l := get_left parent in
      if node =? l then hret parent else successor_loop fuel parent
  end.

Definition nxt_rbtree_node_successor (tree node : ptr) : HN ptr :=
  let^ r := get_right node in
  if negb (r =? tree) then
    nxt_rbtree_branch_min tree r
  else
    let^ fuel := cells_bound in
    successor_loop fuel node.

(** One side of the loop of [nxt_rbtree_insert_fixup], where [parent] is the
    left child of [grandparent] and the uncle is black. *)
Definition insert_left_case (node parent grandparent : ptr) : HN unit :=
  let^ r := get_right parent in
  let^ node := (if node =? r then
                  let^ _ := nxt_rbtree_left_rotate parent in
                  hret parent
                else hret node) in
  let^ parent := get_parent node in
  let^ _ := set_color parent NXT_RBTREE_BLACK in
  let^ _ := set_color grandparent NXT_RBTREE_RED in
  nxt_rbtree_right_rotate grandparent.

Definition insert_right_case (node parent grandparent : ptr) : HN unit :=
  let^ l := get_left parent in
  let^ node := (if node =? l then
                  let^ _ := nxt_rbtree_right_rotate parent in
                  hret parent
                else hret node) in
  let^ parent := get_parent node in
  let^ _ := set_color parent NXT_RBTREE_BLACK in
  let^ _ := set_color grandparent NXT_RBTREE_RED in
  nxt_rbtree_left_rotate grandparent.

Fixpoint insert_fixup_loop (fuel : nat) (node : ptr) : HN unit :=
  match fuel with
  | O => no_fuel
  | S fuel =>
      let^ parent := get_parent node in
      let^ c := get_color parent in
      if c =? NXT_RBTREE_BLACK then
        hret tt
      else
        let^ grandparent := get_parent parent in
        let recolor uncle :=
          let^ _ := set_color uncle NXT_RBTREE_BLACK in
          let^ _ := set_color parent NXT_RBTREE_BLACK in
          let^ _ := set_color grandparent NXT_RBTREE_RED in
          insert_fixup_loop fuel grandparent in
        let^ l := get_left grandparent in
        if parent =? l then
          let^ uncle := get_right grandparent in
          let^ c := get_color uncle in
          if c =? NXT_RBTREE_BLACK then insert_left_case node parent grandparent else recolor uncle
        else
          let^ uncle := get_left grandparent in
          let^ c := get_color uncle in
          if c =? NXT_RBTREE_BLACK then insert_right_case node parent grandparent else recolor uncle
  end.

Definition nxt_rbtree_insert_fixup (node : ptr) : HN unit :=
  let^ fuel := cells_bound in
  insert_fixup_loop fuel node.

(** The address of a link: the left or the right link of a node. *)
Inductive link := L_left (p : ptr) | L_right (p : ptr).

Definition get_link (k : link) : HN ptr :=
  match k with L_left p => get_left p | L_right p => get_right p end.

Definition set_link (k : link) (v : ptr) : HN unit :=
  match k with L_left p => set_left p v | L_right p => set_right p v end.

Section Compare.

(** [call f a b] is the value of the function at address [f]. *)
Context (call : ptr -> ptr -> ptr -> Z).

Fixpoint insert_loop (fuel : nat) (tree compare new_node : ptr) (child : link) (node : ptr) : HN (link * ptr) :=
  match fuel with
  | O => no_fuel
  | S fuel =>
      let^ next := get_link child in
      if next =? tree then
        hret (child, node)
      else
        let child := if call compare new_node next <? 0 then L_left next else L_right next in
        insert_loop fuel tree compare new_node child next
  end.

Definition nxt_rbtree_insert (tree new_node : ptr) : HN unit :=
  let^ node := nxt_rbtree_root tree in
  let^ _ := set_left new_node tree in
  let^ _ := set_right new_node tree in
  let^ _ := set_color new_node NXT_RBTREE_RED in
  let^ compare := get_right tree in
  let^ fuel := cells_bound in
  let^ (child, node) := insert_loop fuel tree compare new_node (L_left tree) node in
  let^ _ := set_link child new_node in
  let^ _ := set_parent new_node node in
  let^ _ := nxt_rbtree_insert_fixup new_node in
  let^ node := nxt_rbtree_root tree in
  set_color node NXT_RBTREE_BLACK.

(** The three searches differ in the node they keep for a key that is not in
    the tree: none, the last one that was less, the last one that was greater. *)
Fixpoint find_loop (fuel : nat) (less greater : bool) (tree compare node next retval : ptr) : HN ptr :=
  match fuel with
  | O => no_fuel
  | S fuel =>
      if next =? tree then
        hret retval
      else
        let n := call compare node next in
        if n <? 0 then
          let^ l := get_left next in
          find_loop fuel less greater tree compare node l (if greater then next else retval)
        else if 0 <? n then
          let^ r := get_right next in
          find_loop fuel less greater tree compare node r (if less then next else retval)
        else
          hret next
  end.

Definition find_from_root (less greater : bool) (tree node : ptr) : HN ptr :=
  let^ next := nxt_rbtree_root tree in
  let^ compare := get_right tree in
  let^ fuel := cells_bound in
  find_loop fuel less greater tree compare node next NULL.

Definition nxt_rbtree_find (tree node : ptr) : HN ptr := find_from_root false false tree node.

Definition nxt_rbtree_find_less_or_equal (tree node : ptr) : HN ptr := find_from_root true false tree node.

Definition nxt_rbtree_find_greater_or_equal (tree node : ptr) : HN ptr := find_from_root false true tree node.

End Compare.

(** One round of the loop of [nxt_rbtree_delete_fixup] for a left child: its
    sibling, which is black after a rotation; the last rotation; and what is
    done with a black sibling, which says whether the loop goes on with the
    parent. *)
Definition delete_left_sibling (parent : ptr) : HN ptr :=
  let^ sibling := get_right parent in
  let^ c := get_color sibling in
  if negb (c =? NXT_RBTREE_BLACK) then
    let^ _ := set_color sibling NXT_RBTREE_BLACK in
    let^ _ := set_color parent NXT_RBTREE_RED in
    let^ _ := nxt_rbtree_left_rotate parent in
    get_right parent
  else
    hret sibling.

Definition delete_left_finish (parent sibling : ptr) : HN bool :=
  let^ c := get_color parent in
  let^ _ := set_color sibling c in
  let^ _ := set_color parent NXT_RBTREE_BLACK in
  let^ r := get_right sibling in
  let^ _ := set_color r NXT_RBTREE_BLACK in
  let^ _ := nxt_rbtree_left_rotate parent in
  hret false.

Definition delete_left_round (parent sibling : ptr) : HN bool :=
  let^ r := get_right sibling in
  let^ c := get_color r in
  if c =? NXT_RBTREE_BLACK then
    let^ _ := set_color sibling NXT_RBTREE_RED in
    let^ l := get_left sibling in
    let^ c := get_color l in
    if c =? NXT_RBTREE_BLACK then
      hret true
    else
      let^ l := get_left sibling in
      let^ _ := set_color l NXT_RBTREE_BLACK in
      let^ _ := nxt_rbtree_right_rotate sibling in
      let^ sibling := get_right parent in
      delete_left_finish parent sibling
  else
    delete_left_finish parent sibling.

Definition delete_left_case (parent : ptr) : HN bool :=
  let^ sibling := delete_left_sibling parent in
  delete_left_round parent sibling.

(** The same for a right child. *)
Definition delete_right_sibling (parent : ptr) : HN ptr :=
  let^ sibling := get_left parent in
  let^ c := get_color sibling in
  if negb (c =? NXT_RBTREE_BLACK) then
    let^ _ := set_color sibling NXT_RBTREE_BLACK in
    let^ _ := set_color parent NXT_RBTREE_RED in
    let^ _ := nxt_rbtree_right_rotate parent in
    get_left parent
  else
    hret sibling.

Definition delete_right_finish (parent sibling : ptr) : HN bool :=
  let^ c := get_color parent in
  let^ _ := set_color sibling c in
  let^ _ := set_color parent NXT_RBTREE_BLACK in
  let^ l := get_left sibling in
  let^ _ := set_color l NXT_RBTREE_BLACK in
  let^ _ := nxt_rbtree_right_rotate parent in
  hret false.

Definition delete_right_round (parent sibling : ptr) : HN bool :=
  let^ l := get_left sibling in
  let^ c := get_color l in
  if c =? NXT_RBTREE_BLACK then
    let^ _ := set_color sibling NXT_RBTREE_RED in
    let^ r := get_right sibling in
    let^ c := get_color r in
    if c =? NXT_RBTREE_BLACK then
      hret true
    else
      let^ r := get_right sibling in
      let^ _ := set_color r NXT_RBTREE_BLACK in
      let^ _ := nxt_rbtree_left_rotate sibling in
      let^ sibling := get_left parent in
      delete_right_finish parent sibling
  else
    delete_right_finish parent sibling.

Definition delete_right_case (parent : ptr) : HN bool :=
  let^ sibling := delete_right_sibling parent in
  delete_right_round parent sibling.

Fixpoint delete_fixup_loop (fuel : nat) (tree node : ptr) : HN unit :=
  match fuel with
  | O => no_fuel
  | S fuel =>
      let^ root := nxt_rbtree_root tree in
      let^ c := get_color node in
      if negb (node =? root) && (c =? NXT_RBTREE_BLACK) then
        let^ parent := get_parent node in
        let^ l := get_left parent in
        let^ go_on := (if node =? l then delete_left_case parent else delete_right_case parent) in
        if go_on then delete_fixup_loop fuel tree parent else hret tt
      else
        set_color node NXT_RBTREE_BLACK
  end.

Definition nxt_rbtree_delete_fixup (tree node : ptr) : HN unit :=
  let^ fuel := cells_bound in
  delete_fixup_loop fuel tree node.

(** The deleted node keeps its links. *)
Definition nxt_rbtree_delete (tree node : ptr) : HN unit :=
  let^ l := get_left node in
  let^ r := get_right node in
  let^ (subst, child) :=
    (if l =? tree then hret (node, r)
     else if r =? tree then hret (node, l)
     else
       let^ subst := nxt_rbtree_branch_min tree r in
       let^ child := get_right subst in
       hret (subst, child)) in
  let^ _ := nxt_rbtree_parent_relink child subst in
  let^ color := get_color subst in
  let^ _ :=
    (if negb (subst =? node) then
       let^ c := get_color node in
       let^ _ := set_color subst c in
       let^ l := get_left node in
       let^ _ := set_left subst l in
       let^ l := get_left subst in
       let^ _ := set_parent l subst in
       let^ r := get_right node in
       let^ _ := set_right subst r in
       let^ r := get_right subst in
       let^ _ := set_parent r subst in
       nxt_rbtree_parent_relink subst node
     else hret tt) in
  if color =? NXT_RBTREE_BLACK then nxt_rbtree_delete_fixup tree child else hret tt.

(** The node and the next start node. *)
Definition nxt_rbtree_destroy_next (tree next : ptr) : HN (ptr * ptr) :=
  let^ fuel := cells_bound in
  let^ node := branch_min_loop fuel tree next in
  let^ subst := get_right node in
  let^ parent := get_parent node in
  let^ _ := set_left parent subst in
  let^ _ := set_parent subst parent in
  hret (node, if subst =? tree then parent else subst).

(** ** Trees *)

Inductive tree :=
| E
| T (c : Z) (l : tree) (x : ptr) (r : tree).

Fixpoint inorder (t : tree) : list ptr :=
  match t with E => [] | T _ l x r => inorder l ++ x :: inorder r end.

Definition shade (t : tree) : Z := match t with E => NXT_RBTREE_BLACK | T c _ _ _ => c end.

(** No red node has a red child, and every path to a leaf has [n] black nodes. *)
Fixpoint balanced (n : nat) (t : tree) : Prop :=
  match t with
  | E => n = O
  | T c l _ r =>
      (c = NXT_RBTREE_RED /\ shade l = NXT_RBTREE_BLACK /\ shade r = NXT_RBTREE_BLACK /\ balanced n l /\ balanced n r) \/
      (c = NXT_RBTREE_BLACK /\ exists m, n = S m /\ balanced m l /\ balanced m r)
  end.

(** A place in a tree: [Left c x r k] is the left child of the node [x], which
    is at the place [k]. *)
Inductive ctx :=
| Top
| Left (c : Z) (x : ptr) (r : tree) (k : ctx)
| Right (c : Z) (l : tree) (x : ptr) (k : ctx).

Fixpoint plug (k : ctx) (t : tree) : tree :=
  match k with
  | Top => t
  | Left c x r k => plug k (T c t x r)
  | Right c l x k => plug k (T c l x t)
  end.

(** What comes before and after a place. *)
Fixpoint before (k : ctx) : list ptr :=
  match k with
  | Top => []
  | Left _ _ _ k => before k
  | Right _ l x k => before k ++ inorder l ++ [x]
  end.

Fixpoint after (k : ctx) : list ptr :=
  match k with
  | Top => []
  | Left _ x r k => x :: inorder r ++ after k
  | Right _ _ _ k => after k
  end.

Lemma inorder_plug k t : inorder (plug k t) = before k ++ inorder t ++ after k.
Proof.
  revert t. induction k as [|c x r k IH|c l x k IH]; intros t; cbn; [by rewrite app_nil_r| |];
    rewrite IH; cbn; by rewrite <- !app_assoc.
Qed.

(** ** Trees in a heap *)

(** The address of a tree and of its comparison function. *)
Class Sentinel := { sent : ptr; callback : ptr }.

Section Stored.
Context {TR : Sentinel}.

Definition root (t : tree) : ptr := match t with E => sent | T _ _ x _ => x end.

(** The cells of a tree whose root has the parent [p]. *)
Fixpoint cells (p : ptr) (t : tree) : list (ptr * nxt_rbtree_node) :=
  match t with
  | E => []
  | T c l x r => (x, Node (root l) (root r) p c) :: cells x l ++ cells x r
  end.

(** The parent of a place, and the root of the tree with [p] at the place. *)
Definition above (k : ctx) : ptr :=
  match k with Top => sent | Left _ x _ _ | Right _ _ x _ => x end.

Fixpoint kroot (k : ctx) (p : ptr) : ptr :=
  match k with Top => p | Left _ x _ k | Right _ _ x k => kroot k x end.

(** The cells outside of a place that has the node [p]. *)
Fixpoint kcells (k : ctx) (p : ptr) : list (ptr * nxt_rbtree_node) :=
  match k with
  | Top => []
  | Left c x r k => (x, Node p (root r) (above k) c) :: cells x r ++ kcells k x
  | Right c l x k => (x, Node (root l) p (above k) c) :: cells x l ++ kcells k x
  end.

(** The sentinel is the parent of the root [p]; its own parent [sp] is the last
    that was written there. *)
Definition sentinel_cell (p sp : ptr) : ptr * nxt_rbtree_node :=
  (sent, Node p callback sp NXT_RBTREE_BLACK).

(** The heap has the tree [t] at the place [k], and the cells [F]. *)
Definition at_place (h : gmap ptr nxt_rbtree_node) (sp : ptr) (k : ctx) (t : tree)
    (F : list (ptr * nxt_rbtree_node)) : Prop :=
  holds h (sentinel_cell (kroot k (root t)) sp :: kcells k (root t) ++ cells (above k) t ++ F).

Lemma go_up_left h sp c x r k t F :
  at_place h sp (Left c x r k) t F <-> at_place h sp k (T c t x r) F.
Proof.
  unfold at_place; cbn. split; apply holds_perm; solve_Permutation.
Qed.

Lemma go_up_right h sp c l x k t F :
  at_place h sp (Right c l x k) t F <-> at_place h sp k (T c l x t) F.
Proof.
  unfold at_place; cbn. split; apply holds_perm; solve_Permutation.
Qed.

Lemma go_top h sp k t F : at_place h sp k t F <-> at_place h sp Top (plug k t) F.
Proof.
  revert t. induction k as [|c x r k IH|c l x k IH]; intros t; cbn [plug]; [done| |].
  - by rewrite go_up_left.
  - by rewrite go_up_right.
Qed.

(** *** Accesses *)

Section Fields.
Context (p : ptr) (n : nxt_rbtree_node) (l l' : list (ptr * nxt_rbtree_node)).
Context (h : gmap ptr nxt_rbtree_node) (Hh : holds h l).

Lemma wp_get_left Q : replaced [(p, n)] [] l l' -> Q (left n) h -> wp (get_left p) Q h.
Proof. intros Hr HQ. apply wp_hbind. by eapply wp_heap_load. Qed.

Lemma wp_get_right Q : replaced [(p, n)] [] l l' -> Q (right n) h -> wp (get_right p) Q h.
Proof. intros Hr HQ. apply wp_hbind. by eapply wp_heap_load. Qed.

Lemma wp_get_parent Q : replaced [(p, n)] [] l l' -> Q (parent n) h -> wp (get_parent p) Q h.
Proof. intros Hr HQ. apply wp_hbind. by eapply wp_heap_load. Qed.

Lemma wp_get_color Q : replaced [(p, n)] [] l l' -> Q (color n) h -> wp (get_color p) Q h.
Proof. intros Hr HQ. apply wp_hbind. by eapply wp_heap_load. Qed.

End Fields.

(** The parent of the root of a tree; the sentinel's when it is empty. *)
Definition sent_parent (t : tree) (v sp : ptr) : ptr := match t with E => v | T _ _ _ _ => sp end.

Lemma replaced_nil {A} (l l' : list A) : replaced [] [] l l' -> l' = l.
Proof. intros Hr. by destruct (replaced_split _ _ _ _ Hr) as (l1 & l2 & -> & ->). Qed.

Lemma wp_set_parent_root t q v r sp l l' Q h :
  holds h (sentinel_cell r sp :: l) -> replaced (cells q t) (cells v t) l l' ->
  (forall h', holds h' (sentinel_cell r (sent_parent t v sp) :: l') -> Q tt h') ->
  wp (set_parent (root t) v) Q h.
Proof.
  intros Hh Hr HQ. destruct t as [|c a x b]; cbn in *.
  - rewrite (replaced_nil _ _ Hr) in HQ. eapply wp_modify; [exact Hh|find_cell|exact HQ].
  - destruct (replaced_split _ _ _ _ Hr) as (l1 & l2 & -> & ->). cbn in *.
    eapply wp_modify; [exact Hh|find_cell|exact HQ].
Qed.

End Stored.

(** Steps over an access to a field whose cell is known. *)
Ltac rb_step_with Hh :=
  lazymatch goal with
  | |- wp (hbind _ _) _ _ => apply wp_hbind; rb_step_with Hh
  | |- wp (get_left _) _ _ => eapply (wp_get_left _ _ _ _ _ Hh); [find_cell|cbn]
  | |- wp (get_right _) _ _ => eapply (wp_get_right _ _ _ _ _ Hh); [find_cell|cbn]
  | |- wp (get_parent _) _ _ => eapply (wp_get_parent _ _ _ _ _ Hh); [find_cell|cbn]
  | |- wp (get_color _) _ _ => eapply (wp_get_color _ _ _ _ _ Hh); [find_cell|cbn]
  | |- wp (hret _) _ _ => apply wp_hret
  | |- wp (set_left _ _) _ _ => eapply wp_modify; [exact Hh|find_cell|clear Hh; cbn; intros ? Hh]
  | |- wp (set_right _ _) _ _ => eapply wp_modify; [exact Hh|find_cell|clear Hh; cbn; intros ? Hh]
  | |- wp (set_parent _ _) _ _ => eapply wp_modify; [exact Hh|find_cell|clear Hh; cbn; intros ? Hh]
  | |- wp (set_color _ _) _ _ => eapply wp_modify; [exact Hh|find_cell|clear Hh; cbn; intros ? Hh]
  end.

Tactic Notation "rb_step" hyp(Hh) := rb_step_with Hh.

Section Rotate.
Context {TR : Sentinel}.

(** A node is not the root of another tree. *)
Lemma ne_root h r sp l l' l'' x n q t :
  holds h (sentinel_cell r sp :: l) -> replaced [(x, n)] [] l l' -> replaced (cells q t) [] l' l'' ->
  x <> root t.
Proof.
  intros Hh Hx Ht. destruct (replaced_split _ _ _ _ Ht) as (l1 & l2 & -> & ->).
  destruct t as [|c a y b]; cbn in *.
  - apply not_eq_sym. eapply holds_ne; [exact Hh|find_cell|exact Hx].
  - eapply holds_ne; [exact Hh|apply replaced_cons; exact Hx|find_cell].
Qed.

(** The link from above to [x] becomes a link to [v]. *)
Lemma wp_replace_child k x v n sp F Q h :
  holds h (sentinel_cell (kroot k x) sp :: (x, n) :: kcells k x ++ F) ->
  (forall h', holds h' (sentinel_cell (kroot k v) sp :: (x, n) :: kcells k v ++ F) -> Q tt h') ->
  wp (let^ l := get_left (above k) in
      if x =? l then set_left (above k) v else set_right (above k) v) Q h.
Proof.
  intros Hh HQ. destruct k as [|c z r k|c l z k]; cbn in *; rb_step Hh; rewrite ?Z.eqb_refl; try (rb_step Hh; by apply HQ).
  assert (Hne : x <> root l) by (eapply ne_root; [exact Hh|find_cell..]).
  rewrite (proj2 (Z.eqb_neq _ _) Hne). rb_step Hh. by apply HQ.
Qed.

(** The node [y] takes the place of [x]. *)
Lemma wp_relink_node k x y n m sp F Q h :
  holds h (sentinel_cell (kroot k x) sp :: (x, n) :: (y, m) :: kcells k x ++ F) -> parent n = above k ->
  (forall h', holds h' (sentinel_cell (kroot k y) sp :: (x, n) ::
                (y, Node (left m) (right m) (above k) (color m)) :: kcells k y ++ F) -> Q tt h') ->
  wp (nxt_rbtree_parent_relink y x) Q h.
Proof.
  intros Hh Hp HQ. unfold nxt_rbtree_parent_relink. rb_step Hh. rewrite Hp. rb_step Hh.
  eapply (wp_replace_child k x y n sp ((y, Node (left m) (right m) (above k) (color m)) :: F));
    [eapply holds_perm; [|exact Hh]; solve_Permutation|].
  intros h2 Hh2. apply HQ. eapply holds_perm; [|exact Hh2]. solve_Permutation.
Qed.

(** The sentinel takes the place of [x]. *)
Lemma wp_relink_leaf k x n sp F Q h :
  holds h (sentinel_cell (kroot k x) sp :: (x, n) :: kcells k x ++ F) -> parent n = above k ->
  (forall h', holds h' (sentinel_cell (kroot k sent) (above k) :: (x, n) :: kcells k sent ++ F) -> Q tt h') ->
  wp (nxt_rbtree_parent_relink sent x) Q h.
Proof.
  intros Hh Hp HQ. unfold nxt_rbtree_parent_relink. rb_step Hh. rewrite Hp. rb_step Hh.
  eapply wp_replace_child; [exact Hh|exact HQ].
Qed.

(** Rotations.  The sentinel's parent changes only when the subtree that moves
    is empty. *)
Lemma wp_left_rotate k c a x d b y e sp F Q h :
  at_place h sp k (T c a x (T d b y e)) F ->
  (forall h', at_place h' (sent_parent b x sp) k (T d (T c a x b) y e) F -> Q tt h') ->
  wp (nxt_rbtree_left_rotate x) Q h.
Proof.
  unfold at_place, nxt_rbtree_left_rotate. cbn. intros Hh HQ.
  do 4 rb_step Hh. apply wp_hbind.
  eapply (wp_set_parent_root b y x); [exact Hh|find_cell|]. clear h Hh. intros h Hh.
  rb_step Hh. apply wp_hbind.
  eapply (wp_relink_node k x y _ _ _ (cells x a ++ cells x b ++ cells y e ++ F));
    [eapply holds_perm; [|exact Hh]; solve_Permutation|done|]. clear h Hh. cbn. intros h Hh.
  rb_step Hh. apply HQ. eapply holds_perm; [|exact Hh]. solve_Permutation.
Qed.

Lemma wp_right_rotate k c d a y b x e sp F Q h :
  at_place h sp k (T c (T d a y b) x e) F ->
  (forall h', at_place h' (sent_parent b x sp) k (T d a y (T c b x e)) F -> Q tt h') ->
  wp (nxt_rbtree_right_rotate x) Q h.
Proof.
  unfold at_place, nxt_rbtree_right_rotate. cbn. intros Hh HQ.
  do 4 rb_step Hh. apply wp_hbind.
  eapply (wp_set_parent_root b y x); [exact Hh|find_cell|]. clear h Hh. intros h Hh.
  rb_step Hh. apply wp_hbind.
  eapply (wp_relink_node k x y _ _ _ (cells x e ++ cells x b ++ cells y a ++ F));
    [eapply holds_perm; [|exact Hh]; solve_Permutation|done|]. clear h Hh. cbn. intros h Hh.
  rb_step Hh. apply HQ. eapply holds_perm; [|exact Hh]. solve_Permutation.
Qed.

End Rotate.

(** ** Balance at a place *)

Definition blacken (t : tree) : tree := match t with E => E | T _ l x r => T NXT_RBTREE_BLACK l x r end.

(** The parent of the place is a black node. *)
Definition under_black (k : ctx) : Prop :=
  match k with Top => False | Left c _ _ _ | Right c _ _ _ => c = NXT_RBTREE_BLACK end.

(** A balanced tree is missing at the place, with [n] black nodes on its paths;
    the root of the whole is black. *)
Fixpoint kbalanced (n : nat) (k : ctx) : Prop :=
  match k with
  | Top => True
  | Left c _ s k | Right c s _ k =>
      balanced n s /\
      ((c = NXT_RBTREE_RED /\ shade s = NXT_RBTREE_BLACK /\ under_black k /\ kbalanced n k) \/
       (c = NXT_RBTREE_BLACK /\ kbalanced (S n) k))
  end.

(** The tree may stand there. *)
Definition fits (k : ctx) (t : tree) : Prop :=
  k = Top \/ under_black k \/ shade t = NXT_RBTREE_BLACK.

Definition is_balanced (t : tree) : Prop := exists n, balanced n t.

Lemma blacken_balanced n t : balanced n t -> is_balanced (blacken t).
Proof. destruct t as [|c l x r]; cbn; [by exists n|]. intros [(-> & _ & _ & Hl & Hr)|(-> & m & -> & Hl & Hr)];
  [exists (S n)|exists (S m)]; cbn; eauto 10. Qed.

Lemma plug_balanced k : forall n t, kbalanced n k -> balanced n t -> fits k t -> is_balanced (blacken (plug k t)).
Proof.
  induction k as [|c x r k IH|c l x k IH]; intros n t Hk Ht Hf; cbn [plug].
  - by eapply blacken_balanced.
  - destruct Hk as [Hr [(-> & Hs & Hu & Hk)|(-> & Hk)]].
    + apply (IH n); [done| |by right; left]. cbn. left. destruct Hf as [?|[?|?]]; [done|done|by split_and!].
    + apply (IH (S n)); [done| |by right; right]. cbn. eauto 10.
  - destruct Hk as [Hl [(-> & Hs & Hu & Hk)|(-> & Hk)]].
    + apply (IH n); [done| |by right; left]. cbn. left. destruct Hf as [?|[?|?]]; [done|done|by split_and!].
    + apply (IH (S n)); [done| |by right; right]. cbn. eauto 10.
Qed.

Lemma red_balanced n l x r :
  balanced n (T NXT_RBTREE_RED l x r) <->
  shade l = NXT_RBTREE_BLACK /\ shade r = NXT_RBTREE_BLACK /\ balanced n l /\ balanced n r.
Proof. cbn. naive_solver. Qed.

Lemma black_balanced n l x r :
  balanced (S n) (T NXT_RBTREE_BLACK l x r) <-> balanced n l /\ balanced n r.
Proof. cbn. naive_solver. Qed.

Fixpoint depth (k : ctx) : nat :=
  match k with Top => O | Left _ _ _ k | Right _ _ _ k => S (depth k) end.

Lemma red_tree u n : balanced n u -> shade u <> NXT_RBTREE_BLACK ->
  exists a x b, u = T NXT_RBTREE_RED a x b.
Proof. destruct u as [|c a x b]; [done|]. cbn. intros [(-> & _)|(-> & _)]; [eauto|done]. Qed.


(** *** Going down *)

Definition placed (n : nat) (k : ctx) (t : tree) : Prop :=
  kbalanced n k /\ balanced n t /\ (shade t = NXT_RBTREE_BLACK \/ under_black k).

Lemma placed_left n k c l x r :
  placed n k (T c l x r) -> exists m, placed m (Left c x r k) l.
Proof.
  intros (Hk & [(-> & Hl & Hr & Hbl & Hbr)|(-> & m & -> & Hbl & Hbr)] & Hf).
  - exists n. split_and!; [|done|by left]. split; [done|left]. destruct Hf; [done|by split_and!].
  - exists m. split_and!; [|done|by right]. split; [done|by right].
Qed.

Lemma placed_right n k c l x r :
  placed n k (T c l x r) -> exists m, placed m (Right c l x k) r.
Proof.
  intros (Hk & [(-> & Hl & Hr & Hbl & Hbr)|(-> & m & -> & Hbl & Hbr)] & Hf).
  - exists n. split_and!; [|done|by left]. split; [done|left]. destruct Hf; [done|by split_and!].
  - exists m. split_and!; [|done|by right]. split; [done|by right].
Qed.

Lemma split_cons {A} (l : list A) x r m1 m2 :
  l ++ x :: r = m1 ++ m2 ->
  (exists m, l = m1 ++ m /\ m2 = m ++ x :: r) \/ (exists m, m1 = l ++ x :: m /\ r = m ++ m2).
Proof.
  revert m1. induction l as [|y l IH]; intros [|z m1]; cbn; intros H.
  - left. by exists [].
  - right. injection H as -> ->. by exists m1.
  - left. exists (y :: l). by rewrite <- H.
  - injection H as -> H. destruct (IH _ H) as [(m & -> & ->)|(m & -> & ->)]; [left|right]; by exists m.
Qed.

Lemma length_inorder_T c l x r : length (inorder (T c l x r)) = S (length (inorder l) + length (inorder r)).
Proof. cbn. rewrite length_app. cbn. lia. Qed.

(** Rewrites what is known of the state as the tree [t] at the place [k]. *)
Ltac to_place Hh := unfold at_place; cbn; eapply holds_perm; [|exact Hh]; solve_Permutation.

(** Trees with the same nodes in order. *)
Ltac same_order := rewrite !inorder_plug; cbn; repeat (rewrite <- !app_assoc; cbn); reflexivity.

(** ** What a heap has *)

Section Trees.
Context {TR : Sentinel}.

(** A balanced tree of the nodes [ps] in their order, and the cells [F]. *)
Definition stored (h : gmap ptr nxt_rbtree_node) (ps : list ptr) (F : list (ptr * nxt_rbtree_node)) : Prop :=
  exists sp t, at_place h sp Top t F /\ inorder t = ps /\ is_balanced t /\ shade t = NXT_RBTREE_BLACK.

Lemma length_cells p t : length (cells p t) = length (inorder t).
Proof.
  revert p. induction t as [|c l IHl x r IHr]; intros p; [done|].
  rewrite length_inorder_T. cbn. by rewrite length_app, IHl, IHr.
Qed.

Lemma depth_kcells k p : (depth k <= length (kcells k p))%nat.
Proof. revert p. induction k as [|c x r k IH|c l x k IH]; intros p; cbn; [lia|..]; rewrite length_app; specialize (IH x); lia. Qed.

Lemma wp_shade t k sp F Q h :
  at_place h sp k t F -> Q (shade t) h -> wp (get_color (root t)) Q h.
Proof. intros Hh HQ. unfold at_place in Hh. destruct t as [|c l x r]; cbn in *; by rb_step Hh. Qed.

Lemma wp_root t sp F Q h : at_place h sp Top t F -> Q (root t) h -> wp (nxt_rbtree_root sent) Q h.
Proof. intros Hh HQ. unfold at_place in Hh. unfold nxt_rbtree_root. by rb_step Hh. Qed.

Lemma wp_blacken t k sp F Q h :
  at_place h sp k t F -> (forall h', at_place h' sp k (blacken t) F -> Q tt h') ->
  wp (set_color (root t) NXT_RBTREE_BLACK) Q h.
Proof.
  intros Hh HQ. unfold at_place in *. destruct t as [|c l x r]; cbn in *; rb_step Hh; by apply HQ.
Qed.

End Trees.

(** ** Places inside places *)

Fixpoint kapp (k k0 : ctx) : ctx :=
  match k with
  | Top => k0
  | Left c x r k => Left c x r (kapp k k0)
  | Right c l x k => Right c l x (kapp k k0)
  end.

Lemma kapp_assoc k1 k2 k3 : kapp (kapp k1 k2) k3 = kapp k1 (kapp k2 k3).
Proof. induction k1 as [|c x r k IH|c l x k IH]; cbn; by rewrite ?IH. Qed.

Lemma plug_kapp k k0 t : plug (kapp k k0) t = plug k0 (plug k t).
Proof. revert t. induction k as [|c x r k IH|c l x k IH]; intros t; cbn; auto. Qed.

Lemma before_kapp k k0 : before (kapp k k0) = before k0 ++ before k.
Proof.
  induction k as [|c x r k IH|c l x k IH]; cbn; [by rewrite app_nil_r|done|]. by rewrite IH, <- app_assoc.
Qed.

Lemma after_kapp k k0 : after (kapp k k0) = after k ++ after k0.
Proof. induction k as [|c x r k IH|c l x k IH]; cbn; [done| |done]. by rewrite IH, <- app_assoc. Qed.

(** The balance does not depend on the nodes. *)
Lemma kbalanced_kapp k c l x y k0 n :
  kbalanced n (kapp k (Right c l x k0)) -> kbalanced n (kapp k (Right c l y k0)).
Proof.
  revert n. induction k as [|d z r k IH|d s z k IH]; intros n; [done|..]; cbn;
    (intros [Hs [(-> & Hss & Hu & Hk)|(-> & Hk)]]; (split; [done|]); [left|right; auto]);
    split_and!; auto; by destruct k.
Qed.

Lemma under_black_kapp k c l x y k0 :
  under_black (kapp k (Right c l x k0)) -> under_black (kapp k (Right c l y k0)).
Proof. by destruct k. Qed.

Lemma placed_kapp km : forall n k t, placed n k (plug km t) -> exists m, placed m (kapp km k) t.
Proof.
  induction km as [|c x r km IH|c l x km IH]; intros n k t Hp; cbn in *; [eauto|..];
    destruct (IH _ _ _ Hp) as [m Hm]; [by eapply placed_left|by eapply placed_right].
Qed.

(** The place of the first node. *)
Fixpoint leftmost (k : ctx) : Prop :=
  match k with Top => True | Left _ _ _ k => leftmost k | Right _ _ _ _ => False end.

Lemma leftmost_kapp k k0 : leftmost k -> leftmost k0 -> leftmost (kapp k k0).
Proof. induction k; cbn; auto. Qed.

Lemma leftmost_before k : leftmost k -> before k = [].
Proof. induction k; cbn; done || auto. Qed.

(** A node of a tree and its place. *)
Lemma place_of t : forall n k l1 x l2, placed n k t -> inorder t = l1 ++ x :: l2 ->
  exists m k' c l r, placed m k' (T c l x r) /\ plug k' (T c l x r) = plug k t /\
    before k' ++ inorder l = before k ++ l1 /\ inorder r ++ after k' = l2 ++ after k.
Proof.
  induction t as [|c l IHl y r IHr]; intros n k l1 x l2 Hp Hi; cbn in Hi; [by destruct l1|].
  destruct (split_cons _ _ _ _ _ Hi) as [([|z m] & Hl & Hm)|(m & -> & Hr)].
  - injection Hm as -> ->. exists n, k, c, l, r. by rewrite Hl, app_nil_r.
  - injection Hm as -> ->. destruct (placed_left _ _ _ _ _ _ Hp) as [n' Hp'].
    destruct (IHl _ _ _ _ _ Hp' Hl) as (m' & k' & c' & l' & r' & Hp2 & Hplug & Hb & Ha).
    exists m', k', c', l', r'. split_and!; [done|done|done|]. rewrite Ha. cbn. by rewrite <- app_assoc.
  - destruct (placed_right _ _ _ _ _ _ Hp) as [n' Hp'].
    destruct (IHr _ _ _ _ _ Hp' Hr) as (m' & k' & c' & l' & r' & Hp2 & Hplug & Hb & Ha).
    exists m', k', c', l', r'. split_and!; [done|done| |done]. rewrite Hb. cbn. by rewrite <- !app_assoc.
Qed.

Section Walk.
Context {TR : Sentinel}.

Lemma at_kapp h sp k k0 t F : at_place h sp (kapp k k0) t F <-> at_place h sp k0 (plug k t) F.
Proof.
  revert t. induction k as [|c x r k IH|c l x k IH]; intros t; cbn [plug kapp]; [done| |].
  - by rewrite go_up_left.
  - by rewrite go_up_right.
Qed.

Lemma wp_branch_min_loop fuel : forall k t sp F Q h,
  (length (inorder t) < fuel)%nat -> at_place h sp k t F -> t <> E ->
  (forall km d y b, t = plug km (T d E y b) -> leftmost km -> Q y h) ->
  wp (branch_min_loop fuel sent (root t)) Q h.
Proof.
  induction fuel as [|fuel IH]; intros k t sp F Q h Hf Hh Ht HQ; [lia|].
  destruct t as [|c l x r]; [done|]. rewrite length_inorder_T in Hf. cbn [branch_min_loop].
  pose proof Hh as Hh0. unfold at_place in Hh. cbn in Hh. rb_step Hh.
  destruct l as [|d a y b] eqn:El; cbn [root].
  - rewrite Z.eqb_refl. by apply (HQ Top c x r).
  - assert (Hne : y <> sent).
    { cbn in Hh. apply not_eq_sym. eapply holds_ne; [exact Hh|find_cell..]. }
    rewrite (proj2 (Z.eqb_neq _ _) Hne). rewrite <- El in *.
    replace y with (root l) by (by rewrite El).
    eapply (IH (Left c x r k) l); [lia|by rewrite go_up_left|by rewrite El|].
    intros km e z f -> Hkm. apply (HQ (kapp km (Left c x r Top)) e z f); [by rewrite plug_kapp|].
    by apply leftmost_kapp.
Qed.

Lemma keys_cells p t : (cells p t).*1 ≡ₚ inorder t.
Proof.
  revert p. induction t as [|c l IHl x r IHr]; intros p; [done|]. cbn.
  rewrite fmap_app, IHl, IHr. solve_Permutation.
Qed.

Lemma at_nodup k t sp F h : at_place h sp k t F -> NoDup (inorder (plug k t)).
Proof.
  rewrite go_top. intros [Hd _]. cbn in Hd. apply NoDup_cons in Hd as [_ Hd]. rewrite fmap_app in Hd.
  apply NoDup_app in Hd as [Hd _]. by rewrite keys_cells in Hd.
Qed.

Lemma wp_right_of k c l x r sp F Q h :
  at_place h sp k (T c l x r) F -> Q (root r) h -> wp (get_right x) Q h.
Proof. intros Hh HQ. unfold at_place in Hh. cbn in Hh. by rb_step Hh. Qed.

End Walk.
