(* ===== verification/RbInsert.v ===== *)
(** * Insertion into red-black trees

    [nxt_rbtree_insert] goes down to a leaf, links the new node there in red
    and goes up again to restore the balance. *)

From S2P Require Import Prelude Heap Rbtree.

#[local] Open Scope Z_scope.

Section Insert.
Context {TR : Sentinel}.

(** Before the rotation of the grandparent: the node is an outer child. *)
Lemma wp_insert_left_outer k a x b p r g u sp F Q h :
  at_place h sp k (T NXT_RBTREE_BLACK (T NXT_RBTREE_RED (T NXT_RBTREE_RED a x b) p r) g u) F ->
  (forall h' sp', at_place h' sp' k (T NXT_RBTREE_BLACK (T NXT_RBTREE_RED a x b) p (T NXT_RBTREE_RED r g u)) F -> Q tt h') ->
  wp (let^ parent := get_parent x in
      let^ _ := set_color parent NXT_RBTREE_BLACK in
      let^ _ := set_color g NXT_RBTREE_RED in
      nxt_rbtree_right_rotate g) Q h.
Proof.
  intros Hh HQ. unfold at_place in Hh. cbn in Hh. do 3 rb_step Hh.
  eapply (wp_right_rotate k 1 0 (T 1 a x b) p r g u sp F); [to_place Hh|].
  intros h2 Hh2. by eapply HQ.
Qed.

Lemma wp_insert_right_outer k a x b p l g u sp F Q h :
  at_place h sp k (T NXT_RBTREE_BLACK u g (T NXT_RBTREE_RED l p (T NXT_RBTREE_RED a x b))) F ->
  (forall h' sp', at_place h' sp' k (T NXT_RBTREE_BLACK (T NXT_RBTREE_RED u g l) p (T NXT_RBTREE_RED a x b)) F -> Q tt h') ->
  wp (let^ parent := get_parent x in
      let^ _ := set_color parent NXT_RBTREE_BLACK in
      let^ _ := set_color g NXT_RBTREE_RED in
      nxt_rbtree_left_rotate g) Q h.
Proof.
  intros Hh HQ. unfold at_place in Hh. cbn in Hh. do 3 rb_step Hh.
  eapply (wp_left_rotate k 1 u g 0 l p (T 1 a x b) sp F); [to_place Hh|].
  intros h2 Hh2. by eapply HQ.
Qed.



Lemma wp_insert_left_case k a x b p s g u (inner : bool) sp F Q h :
  at_place h sp k (T NXT_RBTREE_BLACK
    (if inner then T NXT_RBTREE_RED s p (T NXT_RBTREE_RED a x b)
     else T NXT_RBTREE_RED (T NXT_RBTREE_RED a x b) p s) g u) F ->
  (forall h' sp', at_place h' sp' k
     (if inner then T NXT_RBTREE_BLACK (T NXT_RBTREE_RED s p a) x (T NXT_RBTREE_RED b g u)
      else T NXT_RBTREE_BLACK (T NXT_RBTREE_RED a x b) p (T NXT_RBTREE_RED s g u)) F -> Q tt h') ->
  wp (insert_left_case x p g) Q h.
Proof.
  intros Hh HQ. unfold insert_left_case. unfold at_place in Hh. destruct inner; cbn in Hh.
  - rb_step Hh. rewrite Z.eqb_refl. do 2 apply wp_hbind.
    eapply (wp_left_rotate (Left 0 g u k) 1 s p 1 a x b sp F); [to_place Hh|].
    intros h2 Hh2. apply wp_hret. eapply wp_insert_left_outer; [by apply (proj1 (go_up_left _ _ _ _ _ _ _ _))|exact HQ].
  - rb_step Hh. assert (Hne : x <> root s) by (eapply ne_root; [exact Hh|find_cell..]).
    rewrite (proj2 (Z.eqb_neq _ _) Hne). apply wp_hbind, wp_hret.
    eapply (wp_insert_left_outer k a x b p s g u sp F); [to_place Hh|done].
Qed.

Lemma wp_insert_right_case k a x b p s g u (inner : bool) sp F Q h :
  at_place h sp k (T NXT_RBTREE_BLACK u g
    (if inner then T NXT_RBTREE_RED (T NXT_RBTREE_RED a x b) p s
     else T NXT_RBTREE_RED s p (T NXT_RBTREE_RED a x b))) F ->
  (forall h' sp', at_place h' sp' k
     (if inner then T NXT_RBTREE_BLACK (T NXT_RBTREE_RED u g a) x (T NXT_RBTREE_RED b p s)
      else T NXT_RBTREE_BLACK (T NXT_RBTREE_RED u g s) p (T NXT_RBTREE_RED a x b)) F -> Q tt h') ->
  wp (insert_right_case x p g) Q h.
Proof.
  intros Hh HQ. unfold insert_right_case. unfold at_place in Hh. destruct inner; cbn in Hh.
  - rb_step Hh. rewrite Z.eqb_refl. do 2 apply wp_hbind.
    eapply (wp_right_rotate (Right 0 u g k) 1 1 a x b p s sp F); [to_place Hh|].
    intros h2 Hh2. apply wp_hret. eapply wp_insert_right_outer; [by apply (proj1 (go_up_right _ _ _ _ _ _ _ _))|exact HQ].
  - rb_step Hh. assert (Hne : x <> root s) by (eapply ne_root; [exact Hh|find_cell..]).
    rewrite (proj2 (Z.eqb_neq _ _) Hne). apply wp_hbind, wp_hret.
    eapply (wp_insert_right_outer k a x b p s g u sp F); [to_place Hh|done].
Qed.

(** What the fixup leaves: the nodes [ps] in a tree that is balanced once its
    root is black. *)
Definition fixed (ps : list ptr) (F : list (ptr * nxt_rbtree_node)) (h : gmap ptr nxt_rbtree_node) : Prop :=
  exists sp t, at_place h sp Top t F /\ inorder t = ps /\ is_balanced (blacken t).

Lemma fixed_here k t n ps sp F h :
  at_place h sp k t F -> balanced n t -> kbalanced n k -> fits k t -> inorder (plug k t) = ps -> fixed ps F h.
Proof.
  intros Hh Ht Hk Hf Hi. exists sp, (plug k t). split_and!; [by apply (proj1 (go_top _ _ _ _ _))|done|by eapply plug_balanced].
Qed.

Section Grandparent.
Context (fuel : nat) (k : ctx) (F : list (ptr * nxt_rbtree_node)).

(** The loop is right at the grandparent. *)
Context (IH : forall a x b n sp h ps,
  at_place h sp k (T NXT_RBTREE_RED a x b) F -> balanced n (T NXT_RBTREE_RED a x b) -> kbalanced n k ->
  inorder (plug k (T NXT_RBTREE_RED a x b)) = ps ->
  wp (insert_fixup_loop fuel x) (fun _ => fixed ps F) h).

(** The red node [x] is a child of the red node [p], whose other child is [s];
    [inner] when it is on the side of the uncle [u]. *)
Context (a : tree) (x : ptr) (b : tree) (p : ptr) (s : tree) (g : ptr) (u : tree) (inner : bool).
Context (n : nat) (sp : ptr) (h : gmap ptr nxt_rbtree_node).
Context (Ha : shade a = NXT_RBTREE_BLACK) (Hb : shade b = NXT_RBTREE_BLACK) (Hs : shade s = NXT_RBTREE_BLACK).
Context (Hba : balanced n a) (Hbb : balanced n b) (Hbs : balanced n s) (Hbu : balanced n u).
Context (Hk : kbalanced (S n) k).

Ltac balance := rewrite ?red_balanced, ?black_balanced, ?red_balanced, ?black_balanced; done.

Lemma wp_insert_round_left :
  let t := if inner then T NXT_RBTREE_RED s p (T NXT_RBTREE_RED a x b)
           else T NXT_RBTREE_RED (T NXT_RBTREE_RED a x b) p s in
  at_place h sp k (T NXT_RBTREE_BLACK t g u) F ->
  wp (insert_fixup_loop (S fuel) x) (fun _ => fixed (inorder (plug k (T NXT_RBTREE_BLACK t g u))) F) h.
Proof.
  intros t Hh. pose proof Hh as Hh0. unfold at_place in Hh. cbn [insert_fixup_loop].
  destruct inner eqn:Ei; cbn in Hh; rb_step Hh; rb_step Hh; rb_step Hh; rb_step Hh; rewrite Z.eqb_refl;
    rb_step Hh; apply wp_hbind;
    (eapply (wp_shade u (Right 0 t g k)); [by apply (proj2 (go_up_right _ _ _ _ _ _ _ _))|]);
    (destruct (Z.eqb_spec (shade u) 0) as [Eu|Eu];
      [eapply (wp_insert_left_case k a x b p s g u inner); [by rewrite Ei|]; rewrite Ei; intros h2 sp2 Hh2;
       eapply (fixed_here k _ (S n)); [exact Hh2|balance|done|by right; right|unfold t; same_order]
      |destruct (red_tree _ _ Hbu Eu) as (ua & ux & ub & ->); cbn in Hh;
       rb_step Hh; rb_step Hh; rb_step Hh; apply red_balanced in Hbu as (Hua & Hub & Hbua & Hbub);
       eapply (IH (blacken t) g (T 0 ua ux ub) (S n) sp); [to_place Hh|unfold t; cbn [blacken]; balance|done|unfold t; same_order]]).
Qed.

Lemma wp_insert_round_right :
  let t := if inner then T NXT_RBTREE_RED (T NXT_RBTREE_RED a x b) p s
           else T NXT_RBTREE_RED s p (T NXT_RBTREE_RED a x b) in
  at_place h sp k (T NXT_RBTREE_BLACK u g t) F ->
  wp (insert_fixup_loop (S fuel) x) (fun _ => fixed (inorder (plug k (T NXT_RBTREE_BLACK u g t))) F) h.
Proof.
  intros t Hh. pose proof Hh as Hh0. unfold at_place in Hh. cbn [insert_fixup_loop].
  assert (Hne : p <> root u).
  { destruct inner; cbn in Hh; (eapply ne_root; [exact Hh|find_cell..]). }
  destruct inner eqn:Ei; cbn in Hh; rb_step Hh; rb_step Hh; rb_step Hh; rb_step Hh; rewrite (proj2 (Z.eqb_neq _ _) Hne);
    rb_step Hh; apply wp_hbind;
    (eapply (wp_shade u (Left 0 g t k)); [by apply (proj2 (go_up_left _ _ _ _ _ _ _ _))|]);
    (destruct (Z.eqb_spec (shade u) 0) as [Eu|Eu];
      [eapply (wp_insert_right_case k a x b p s g u inner); [by rewrite Ei|]; rewrite Ei; intros h2 sp2 Hh2;
       eapply (fixed_here k _ (S n)); [exact Hh2|balance|done|by right; right|unfold t; same_order]
      |destruct (red_tree _ _ Hbu Eu) as (ua & ux & ub & ->); cbn in Hh;
       rb_step Hh; rb_step Hh; rb_step Hh; apply red_balanced in Hbu as (Hua & Hub & Hbua & Hbub);
       eapply (IH (T 0 ua ux ub) g (blacken t) (S n) sp); [to_place Hh|unfold t; cbn [blacken]; balance|done|unfold t; same_order]]).
Qed.

End Grandparent.

Lemma wp_insert_round_end fuel k a x b n sp F h :
  at_place h sp k (T NXT_RBTREE_RED a x b) F -> balanced n (T NXT_RBTREE_RED a x b) -> kbalanced n k ->
  k = Top \/ under_black k ->
  wp (insert_fixup_loop (S fuel) x) (fun _ => fixed (inorder (plug k (T NXT_RBTREE_RED a x b))) F) h.
Proof.
  intros Hh Ht Hk Hu. cbn [insert_fixup_loop].
  assert (Hend : fixed (inorder (plug k (T NXT_RBTREE_RED a x b))) F h).
  { eapply (fixed_here k); [done..| |done]. unfold fits. tauto. }
  unfold at_place in Hh.
  destruct k as [|c p s k|c s p k]; cbn in Hh; (destruct Hu as [?|Hu]; [try done|try done; cbn in Hu; subst c]);
    rb_step Hh; rb_step Hh; done.
Qed.

Lemma wp_insert_fixup_loop fuel : forall k a x b n sp F ps h,
  (depth k < fuel)%nat -> at_place h sp k (T NXT_RBTREE_RED a x b) F ->
  balanced n (T NXT_RBTREE_RED a x b) -> kbalanced n k ->
  inorder (plug k (T NXT_RBTREE_RED a x b)) = ps ->
  wp (insert_fixup_loop fuel x) (fun _ => fixed ps F) h.
Proof.
  induction fuel as [|fuel IH]; intros k a x b n sp F ps h Hd Hh Ht Hk <-; [lia|].
  pose proof Ht as (Ha & Hb & Hba & Hbb)%red_balanced.
  destruct k as [|c p s k|c s p k].
  - by eapply wp_insert_round_end; [..|left].
  - destruct Hk as [Hbs [(-> & Hs & Hu & Hk)|(-> & Hk)]].
    + destruct k as [|c g u k|c u g k]; [done|..]; cbn in Hu; subst c; cbn in Hk, Hd;
        destruct Hk as [Hbu [(? & _)|(_ & Hk)]]; try discriminate.
      * apply (wp_insert_round_left fuel k F) with (inner := false) (n := n) (sp := sp); try done.
        { intros; eapply IH; eauto; lia. }
        by rewrite <- 2!go_up_left.
      * apply (wp_insert_round_right fuel k F) with (inner := true) (n := n) (sp := sp); try done.
        { intros; eapply IH; eauto; lia. }
        by rewrite <- go_up_right, <- go_up_left.
    + eapply wp_insert_round_end; [done|done|by split; [|right]|by right].
  - destruct Hk as [Hbs [(-> & Hs & Hu & Hk)|(-> & Hk)]].
    + destruct k as [|c g u k|c u g k]; [done|..]; cbn in Hu; subst c; cbn in Hk, Hd;
        destruct Hk as [Hbu [(? & _)|(_ & Hk)]]; try discriminate.
      * apply (wp_insert_round_left fuel k F) with (inner := true) (n := n) (sp := sp); try done.
        { intros; eapply IH; eauto; lia. }
        by rewrite <- go_up_left, <- go_up_right.
      * apply (wp_insert_round_right fuel k F) with (inner := false) (n := n) (sp := sp); try done.
        { intros; eapply IH; eauto; lia. }
        by rewrite <- 2!go_up_right.
    + eapply wp_insert_round_end; [done|done|by split; [|right]|by right].
Qed.

End Insert.

Section InsertDown.
Context {TR : Sentinel}.

(** The address of the link to a place. *)
Definition link_to (k : ctx) : link :=
  match k with Top => L_left sent | Left _ x _ _ => L_left x | Right _ _ x _ => L_right x end.

Lemma wp_get_link k t sp F Q h :
  at_place h sp k t F -> Q (root t) h -> wp (get_link (link_to k)) Q h.
Proof. intros Hh HQ. unfold at_place in Hh. destruct k; cbn in *; by rb_step Hh. Qed.

Context (call : ptr -> ptr -> ptr -> Z) (new_node : ptr).

Definition goes_left (q : ptr) : Prop := call callback new_node q < 0.

Lemma wp_insert_loop fuel : forall k t node n sp F m1 m2 Q h,
  (length (inorder t) < fuel)%nat -> at_place h sp k t F -> placed n k t ->
  node = above k \/ k = Top /\ node = root t ->
  inorder t = m1 ++ m2 -> Forall (fun q => ~ goes_left q) m1 -> Forall goes_left m2 ->
  (forall k', at_place h sp k' E F -> placed 0 k' E ->
     before k' = before k ++ m1 -> after k' = m2 ++ after k -> Q (link_to k', above k') h) ->
  wp (insert_loop call fuel sent callback new_node (link_to k) node) Q h.
Proof.
  induction fuel as [|fuel IH]; intros k t node n sp F m1 m2 Q h Hf Hh Hp Hn Hi H1 H2 HQ; [lia|].
  cbn [insert_loop]. apply wp_hbind. eapply wp_get_link; [exact Hh|].
  destruct t as [|c l x r].
  - cbn. rewrite Z.eqb_refl. apply wp_hret. cbn in Hi. symmetry in Hi. apply app_nil in Hi as [-> ->].
    assert (n = 0%nat) as -> by apply Hp.
    assert (node = above k) as -> by (destruct Hn as [->|[-> ->]]; done).
    apply HQ; [done|done|by rewrite app_nil_r|done].
  - rewrite length_inorder_T in Hf. cbn [root inorder] in *.
    assert (Hx : x <> sent). 
    { unfold at_place in Hh. cbn in Hh. apply not_eq_sym. eapply holds_ne; [exact Hh|find_cell..]. }
    rewrite (proj2 (Z.eqb_neq _ _) Hx).
    destruct (split_cons _ _ _ _ _ Hi) as [(m & Hl & ->)|(m & -> & Hr)].
    + apply Forall_app in H2 as [H2 Hx2]. apply Forall_cons in Hx2 as [Hx2 Hr2].
      rewrite (proj2 (Z.ltb_lt _ _) Hx2). destruct (placed_left _ _ _ _ _ _ Hp) as [m' Hp'].
      eapply (IH (Left c x r k) l x m'); [lia|by apply (proj2 (go_up_left _ _ _ _ _ _ _ _))|done|by left|done|done|done|].
      intros k' Hh' Hp2 Hb Ha. apply HQ; [done|done|done|]. rewrite Ha. cbn. by rewrite <- app_assoc.
    + apply Forall_app in H1 as [H1 Hx1]. apply Forall_cons in Hx1 as [Hx1 Hr1].
      apply Z.nlt_ge in Hx1. rewrite (proj2 (Z.ltb_ge _ _) Hx1). destruct (placed_right _ _ _ _ _ _ Hp) as [m' Hp'].
      eapply (IH (Right c l x k) r x m'); [lia|by apply (proj2 (go_up_right _ _ _ _ _ _ _ _))|done|by left|done|done|done|].
      intros k' Hh' Hp2 Hb Ha. apply HQ; [done|done| |done]. rewrite Hb. cbn. by rewrite <- !app_assoc.
Qed.

End InsertDown.

Section Trees.
Context {TR : Sentinel}.

Lemma shade_blacken t : shade (blacken t) = NXT_RBTREE_BLACK.
Proof. by destruct t. Qed.

Lemma inorder_blacken t : inorder (blacken t) = inorder t.
Proof. by destruct t. Qed.

Lemma wp_insert_fixup k x sp F ps h :
  at_place h sp k (T NXT_RBTREE_RED E x E) F -> kbalanced 0 k -> inorder (plug k (T NXT_RBTREE_RED E x E)) = ps ->
  wp (nxt_rbtree_insert_fixup x) (fun _ => fixed ps F) h.
Proof.
  intros Hh Hk Hi. apply wp_hbind. eapply wp_cells_bound; [exact Hh|]. intros n Hn.
  eapply wp_insert_fixup_loop; [|exact Hh| |exact Hk|exact Hi].
  - pose proof (depth_kcells k x). cbn in Hn. rewrite length_app in Hn. lia.
  - by apply red_balanced.
Qed.

Lemma wp_set_link k p v sp F Q h :
  holds h (sentinel_cell (kroot k p) sp :: kcells k p ++ F) ->
  (forall h', holds h' (sentinel_cell (kroot k v) sp :: kcells k v ++ F) -> Q tt h') ->
  wp (set_link (link_to k) v) Q h.
Proof. intros Hh HQ. destruct k; cbn in *; rb_step Hh; by apply HQ. Qed.

Lemma wp_insert call x n l1 l2 F h :
  stored h (l1 ++ l2) ((x, n) :: F) ->
  Forall (fun q => ~ goes_left call x q) l1 -> Forall (goes_left call x) l2 ->
  wp (nxt_rbtree_insert call sent x) (fun _ h' => stored h' (l1 ++ x :: l2) F) h.
Proof.
  intros (sp & t & Hh & Hi & [m Hb] & Hs) H1 H2. unfold nxt_rbtree_insert.
  apply wp_hbind. eapply wp_root; [exact Hh|]. unfold at_place in Hh. cbn in Hh.
  do 4 rb_step Hh. apply wp_hbind. eapply wp_cells_bound; [exact Hh|]. intros fuel Hfuel.
  apply wp_hbind. eapply (wp_insert_loop call x fuel Top t (root t) m sp _ l1 l2); [| |split_and!; [done|done|by left]|by right|done|done|done|].
  { cbn in Hfuel. rewrite length_app, length_cells in Hfuel. lia. }
  { exact Hh. }
  intros k Hk (Hbk & _ & _) Hbefore Hafter. clear Hh. rename Hk into Hh. unfold at_place in Hh. cbn in Hh.
  apply wp_hbind. eapply wp_set_link; [exact Hh|]. clear Hh. cbn. intros h3 Hh. rb_step Hh.
  apply wp_hbind. eapply wp_conseq; [eapply (wp_insert_fixup k x sp F (l1 ++ x :: l2))|].
  - unfold at_place. cbn. eapply holds_perm; [|exact Hh]. solve_Permutation.
  - done.
  - rewrite inorder_plug, Hbefore, Hafter. cbn. by rewrite app_nil_r.
  - clear Hh. intros _ h5 (sp' & t' & Hh & Hi' & Hb'). apply wp_hbind.
    eapply wp_root; [exact Hh|]. eapply (wp_blacken _ Top); [exact Hh|]. intros h6 Hh'.
    exists sp', (blacken t'). by rewrite inorder_blacken, shade_blacken.
Qed.

End Trees.
