(* ===== verification/RbDelete.v ===== *)
(** * Deletion from red-black trees

    [nxt_rbtree_delete] unlinks a node or its successor, which then takes its
    place, and goes up to restore the balance when a black node was unlinked. *)

From S2P Require Import Prelude Heap Rbtree.

#[local] Open Scope Z_scope.

(** A tree whose paths have a black node less than the place asks for; its root
    may be red under a red parent. *)
Definition deficient (n : nat) (k : ctx) (t : tree) : Prop :=
  kbalanced (S n) k /\
  ((shade t = NXT_RBTREE_BLACK /\ balanced n t) \/ (shade t = NXT_RBTREE_RED /\ balanced (S n) (blacken t))).

Lemma black_tree n t : balanced (S n) t -> shade t = NXT_RBTREE_BLACK ->
  exists l x r, t = T NXT_RBTREE_BLACK l x r /\ balanced n l /\ balanced n r.
Proof. destruct t as [|c l x r]; cbn; naive_solver. Qed.

(** The children of a node of color [c] at the place [k] have [n] black nodes on
    their paths. *)
Definition open_at (n : nat) (c : Z) (k : ctx) : Prop :=
  (c = NXT_RBTREE_RED /\ under_black k /\ kbalanced n k) \/ (c = NXT_RBTREE_BLACK /\ kbalanced (S n) k).

Section Delete.
Context {TR : Sentinel}.

(** The end: a tree that stands where it may. *)
Lemma stored_placed n k t sp F h :
  at_place h sp k t F -> placed n k t -> stored h (inorder (plug k t)) F.
Proof.
  intros Hh (Hk & Ht & Hs). 
  assert (Hb : shade (plug k t) = NXT_RBTREE_BLACK).
  { clear Hh. revert n t Hk Ht Hs. induction k as [|c x r k IH|c l x k IH]; intros n t Hk Ht Hs; cbn in *; [naive_solver|..];
      destruct Hk as [Hr [(-> & Hss & Hu & Hk)|(-> & Hk)]];
      (eapply IH; [exact Hk| |cbn; tauto]); cbn; naive_solver. }
  exists sp, (plug k t). split_and!; [by apply (proj1 (go_top _ _ _ _ _))|done| |done].
  replace (plug k t) with (blacken (plug k t)) by (destruct (plug k t); cbn in *; [done|by rewrite Hb]).
  eapply plug_balanced; [done..|]. unfold fits. naive_solver.
Qed.

(** *** The last rotation *)

Lemma wp_delete_left_finish k c t p d a s e b z f n sp F h :
  at_place h sp k (T c t p (T d a s (T e b z f))) F -> open_at (S n) c k ->
  balanced n t -> balanced n a -> balanced n b -> balanced n f ->
  wp (delete_left_finish p s)
    (fun go_on h' => go_on = false /\ stored h' (inorder (plug k (T c t p (T d a s (T e b z f))))) F) h.
Proof.
  intros Hh Hk Ht Ha Hb Hf. unfold delete_left_finish. unfold at_place in Hh. cbn in Hh.
  rb_step Hh. rb_step Hh. rb_step Hh. rb_step Hh. rb_step Hh. apply wp_hbind.
  eapply (wp_left_rotate k 0 t p c a s (T 0 b z f) sp F); [to_place Hh|]. clear Hh. intros h5 Hh.
  apply wp_hret. split; [done|].
  replace (inorder _) with (inorder (plug k (T c (T 0 t p a) s (T 0 b z f)))) by same_order.
  destruct Hk as [(-> & Hu & Hk)|(-> & Hk)].
  - eapply (stored_placed (S n)); [exact Hh|]. split_and!; [done| |by right]. by rewrite red_balanced, !black_balanced.
  - eapply (stored_placed (S (S n))); [exact Hh|]. split_and!; [done| |by left]. by rewrite !black_balanced.
Qed.

Lemma wp_delete_right_finish k c t p d a s e b z f n sp F h :
  at_place h sp k (T c (T d (T e b z f) s a) p t) F -> open_at (S n) c k ->
  balanced n t -> balanced n a -> balanced n b -> balanced n f ->
  wp (delete_right_finish p s)
    (fun go_on h' => go_on = false /\ stored h' (inorder (plug k (T c (T d (T e b z f) s a) p t))) F) h.
Proof.
  intros Hh Hk Ht Ha Hb Hf. unfold delete_right_finish. unfold at_place in Hh. cbn in Hh.
  rb_step Hh. rb_step Hh. rb_step Hh. rb_step Hh. rb_step Hh. apply wp_hbind.
  eapply (wp_right_rotate k 0 c (T 0 b z f) s a p t sp F); [to_place Hh|]. clear Hh. intros h5 Hh.
  apply wp_hret. split; [done|].
  replace (inorder _) with (inorder (plug k (T c (T 0 b z f) s (T 0 a p t)))) by same_order.
  destruct Hk as [(-> & Hu & Hk)|(-> & Hk)].
  - eapply (stored_placed (S n)); [exact Hh|]. split_and!; [done| |by right]. by rewrite red_balanced, !black_balanced.
  - eapply (stored_placed (S (S n))); [exact Hh|]. split_and!; [done| |by left]. by rewrite !black_balanced.
Qed.

(** *** A black sibling *)

Lemma wp_delete_left_round k c t p wl w wr n sp F h :
  at_place h sp k (T c t p (T NXT_RBTREE_BLACK wl w wr)) F -> open_at (S n) c k ->
  balanced n t -> balanced n wl -> balanced n wr ->
  wp (delete_left_round p w)
    (fun go_on h' =>
       if go_on : bool then
         at_place h' sp k (T c t p (T NXT_RBTREE_RED wl w wr)) F /\
         shade wl = NXT_RBTREE_BLACK /\ shade wr = NXT_RBTREE_BLACK
       else stored h' (inorder (plug k (T c t p (T NXT_RBTREE_BLACK wl w wr)))) F) h.
Proof.
  intros Hh Hk Ht Hl Hr. unfold delete_left_round. pose proof Hh as Hh0. unfold at_place in Hh. cbn in Hh.
  rb_step Hh. apply wp_hbind.
  eapply (wp_shade wr (Right 0 wl w (Right c t p k))); [by rewrite 2!go_up_right|].
  destruct (Z.eqb_spec (shade wr) 0) as [Er|Er].
  - rb_step Hh. rb_step Hh. apply wp_hbind.
    eapply (wp_shade wl (Left 1 w wr (Right c t p k)) sp F); [to_place Hh|].
    destruct (Z.eqb_spec (shade wl) 0) as [El|El].
    + apply wp_hret. split; [to_place Hh|done].
    + destruct (red_tree _ _ Hl El) as (a & y & b & ->). cbn in Hh. apply red_balanced in Hl as (_ & _ & Ha & Hb).
      rb_step Hh. rb_step Hh. apply wp_hbind.
      eapply (wp_right_rotate (Right c t p k) 1 0 a y b w wr sp F); [to_place Hh|].
      clear Hh. intros h3 Hh. rewrite go_up_right in Hh. pose proof Hh as Hh3. unfold at_place in Hh. cbn in Hh. rb_step Hh.
      eapply wp_conseq; [eapply (wp_delete_left_finish k c t p 0 a y 1 b w wr n); eauto|].
      intros go h4 [-> Hst]. replace (inorder _) with (inorder (plug k (T c t p (T 0 a y (T 1 b w wr))))) by same_order. done.
  - destruct (red_tree _ _ Hr Er) as (b & z & f & ->). apply red_balanced in Hr as (_ & _ & Hb & Hf).
    eapply wp_conseq; [eapply (wp_delete_left_finish k c t p 0 wl w 1 b z f n); eauto|].
    by intros go h4 [-> Hst].
Qed.

Lemma wp_delete_right_round k c t p wl w wr n sp F h :
  at_place h sp k (T c (T NXT_RBTREE_BLACK wl w wr) p t) F -> open_at (S n) c k ->
  balanced n t -> balanced n wl -> balanced n wr ->
  wp (delete_right_round p w)
    (fun go_on h' =>
       if go_on : bool then
         at_place h' sp k (T c (T NXT_RBTREE_RED wl w wr) p t) F /\
         shade wl = NXT_RBTREE_BLACK /\ shade wr = NXT_RBTREE_BLACK
       else stored h' (inorder (plug k (T c (T NXT_RBTREE_BLACK wl w wr) p t))) F) h.
Proof.
  intros Hh Hk Ht Hl Hr. unfold delete_right_round. pose proof Hh as Hh0. unfold at_place in Hh. cbn in Hh.
  rb_step Hh. apply wp_hbind.
  eapply (wp_shade wl (Left 0 w wr (Left c p t k))); [by rewrite 2!go_up_left|].
  destruct (Z.eqb_spec (shade wl) 0) as [El|El].
  - rb_step Hh. rb_step Hh. apply wp_hbind.
    eapply (wp_shade wr (Right 1 wl w (Left c p t k)) sp F); [to_place Hh|].
    destruct (Z.eqb_spec (shade wr) 0) as [Er|Er].
    + apply wp_hret. split; [to_place Hh|done].
    + destruct (red_tree _ _ Hr Er) as (a & y & b & ->). cbn in Hh. apply red_balanced in Hr as (_ & _ & Ha & Hb).
      rb_step Hh. rb_step Hh. apply wp_hbind.
      eapply (wp_left_rotate (Left c p t k) 1 wl w 0 a y b sp F); [to_place Hh|].
      clear Hh. intros h3 Hh. rewrite go_up_left in Hh. pose proof Hh as Hh3. unfold at_place in Hh. cbn in Hh. rb_step Hh.
      eapply wp_conseq; [eapply (wp_delete_right_finish k c t p 0 b y 1 wl w a n); eauto|].
      intros go h4 [-> Hst]. replace (inorder _) with (inorder (plug k (T c (T 0 (T 1 wl w a) y b) p t))) by same_order. done.
  - destruct (red_tree _ _ Hl El) as (b & z & f & ->). apply red_balanced in Hl as (_ & _ & Hb & Hf).
    eapply wp_conseq; [eapply (wp_delete_right_finish k c t p 0 wr w 1 b z f n); eauto|].
    by intros go h4 [-> Hst].
Qed.

(** *** One round *)

(** After a round the loop goes on at [p], or the tree is balanced. *)
Definition round_end (k : ctx) (p : ptr) (ps : list ptr) (F : list (ptr * nxt_rbtree_node))
    (go_on : bool) (h : gmap ptr nxt_rbtree_node) : Prop :=
  if go_on then
    exists n k' t sp, at_place h sp k' t F /\ root t = p /\ deficient n k' t /\ inorder (plug k' t) = ps /\
      t <> E /\ (shade t = NXT_RBTREE_RED \/ depth k' = depth k)
  else stored h ps F.

Lemma deficient_up n c k l x r :
  open_at (S n) c k -> balanced (S n) (T NXT_RBTREE_BLACK l x r) ->
  exists m, deficient m k (T c l x r).
Proof.
  intros [(-> & Hu & Hk)|(-> & Hk)] Hb.
  - exists n. split; [done|by right].
  - exists (S n). split; [done|by left].
Qed.

Lemma wp_delete_left_case k c t p w n sp F h :
  at_place h sp k (T c t p w) F -> kbalanced (S n) (Left c p w k) -> balanced n t ->
  wp (delete_left_case p) (round_end k p (inorder (plug k (T c t p w))) F) h.
Proof.
  intros Hh [Hw Hk] Ht. unfold delete_left_case, delete_left_sibling. pose proof Hh as Hh0.
  assert (Hround : forall k' c' wl x wr sp' h', at_place h' sp' k' (T c' t p (T NXT_RBTREE_BLACK wl x wr)) F ->
    open_at (S n) c' k' -> balanced n wl -> balanced n wr ->
    inorder (plug k' (T c' t p (T NXT_RBTREE_BLACK wl x wr))) = inorder (plug k (T c t p w)) ->
    c' = NXT_RBTREE_RED \/ depth k' = depth k ->
    wp (delete_left_round p x) (round_end k p (inorder (plug k (T c t p w))) F) h').
  { intros k' c' wl x wr sp' h' Hh' Ho Hl Hr Hi Hd.
    eapply wp_conseq; [by eapply wp_delete_left_round|]. intros [] h2; cbn; [|by rewrite Hi].
    intros (Hh2 & Hsl & Hsr). destruct (deficient_up n c' k' t p (T 1 wl x wr)) as [m Hm]; [done|by rewrite black_balanced, red_balanced|].
    exists m, k', (T c' t p (T 1 wl x wr)), sp'. split_and!; try done. rewrite <- Hi. same_order. }
  apply wp_hbind. unfold at_place in Hh. cbn in Hh. rb_step Hh. apply wp_hbind.
  eapply (wp_shade w (Right c t p k)); [by rewrite go_up_right|].
  destruct (Z.eqb_spec (shade w) 0) as [Ew|Ew]; cbn.
  - destruct (black_tree _ _ Hw Ew) as (wl & x & wr & -> & Hl & Hr). apply wp_hret. cbn.
    eapply Hround; eauto. unfold open_at. naive_solver.
  - destruct (red_tree _ _ Hw Ew) as (wl & x & wr & ->). cbn in Hh. apply red_balanced in Hw as (Hsl & Hsr & Hl & Hr).
    destruct Hk as [(_ & ? & _)|(-> & Hk)]; [done|]. rb_step Hh. rb_step Hh. apply wp_hbind.
    eapply (wp_left_rotate k 1 t p 0 wl x wr sp F); [to_place Hh|]. clear Hh. intros h3 Hh3.
    destruct (black_tree _ _ Hl Hsl) as (a & y & b & -> & Ha & Hb).
    pose proof Hh3 as Hh. unfold at_place in Hh. cbn in Hh. rb_step Hh.
    eapply (Hround (Left 0 x wr k) 1); [by rewrite go_up_left| |done|done|same_order|by left].
    left. split_and!; [done|done|]. split; [done|by right].
Qed.

Lemma wp_delete_right_case k c t p w n sp F h :
  at_place h sp k (T c w p t) F -> kbalanced (S n) (Right c w p k) -> balanced n t ->
  wp (delete_right_case p) (round_end k p (inorder (plug k (T c w p t))) F) h.
Proof.
  intros Hh [Hw Hk] Ht. unfold delete_right_case, delete_right_sibling. pose proof Hh as Hh0.
  assert (Hround : forall k' c' wl x wr sp' h', at_place h' sp' k' (T c' (T NXT_RBTREE_BLACK wl x wr) p t) F ->
    open_at (S n) c' k' -> balanced n wl -> balanced n wr ->
    inorder (plug k' (T c' (T NXT_RBTREE_BLACK wl x wr) p t)) = inorder (plug k (T c w p t)) ->
    c' = NXT_RBTREE_RED \/ depth k' = depth k ->
    wp (delete_right_round p x) (round_end k p (inorder (plug k (T c w p t))) F) h').
  { intros k' c' wl x wr sp' h' Hh' Ho Hl Hr Hi Hd.
    eapply wp_conseq; [by eapply wp_delete_right_round|]. intros [] h2; cbn; [|by rewrite Hi].
    intros (Hh2 & Hsl & Hsr). destruct (deficient_up n c' k' (T 1 wl x wr) p t) as [m Hm]; [done|by rewrite black_balanced, red_balanced|].
    exists m, k', (T c' (T 1 wl x wr) p t), sp'. split_and!; try done. rewrite <- Hi. same_order. }
  apply wp_hbind. unfold at_place in Hh. cbn in Hh. rb_step Hh. apply wp_hbind.
  eapply (wp_shade w (Left c p t k)); [by rewrite go_up_left|].
  destruct (Z.eqb_spec (shade w) 0) as [Ew|Ew]; cbn.
  - destruct (black_tree _ _ Hw Ew) as (wl & x & wr & -> & Hl & Hr). apply wp_hret. cbn.
    eapply Hround; eauto. unfold open_at. naive_solver.
  - destruct (red_tree _ _ Hw Ew) as (wl & x & wr & ->). cbn in Hh. apply red_balanced in Hw as (Hsl & Hsr & Hl & Hr).
    destruct Hk as [(_ & ? & _)|(-> & Hk)]; [done|]. rb_step Hh. rb_step Hh. apply wp_hbind.
    eapply (wp_right_rotate k 1 0 wl x wr p t sp F); [to_place Hh|]. clear Hh. intros h3 Hh3.
    destruct (black_tree _ _ Hr Hsr) as (a & y & b & -> & Ha & Hb).
    pose proof Hh3 as Hh. unfold at_place in Hh. cbn in Hh. rb_step Hh.
    eapply (Hround (Right 0 wl x k) 1); [by rewrite go_up_right| |done|done|same_order|by left].
    left. split_and!; [done|done|]. split; [done|by right].
Qed.

(** *** The loop *)

Lemma kroot_cell k : k <> Top -> forall p, exists n l, replaced [(kroot k p, n)] [] (kcells k p) l.
Proof.
  induction k as [|c x r k IH|c l x k IH]; [done|..]; intros _ p; cbn.
  - destruct k; [cbn; eexists _, _; find_cell|..];
      (destruct (IH ltac:(done) x) as (n & l' & Hr); exists n; eexists; apply replaced_cons, replaced_app_r; exact Hr).
  - destruct k; [cbn; eexists _, _; find_cell|..];
      (destruct (IH ltac:(done) x) as (n & l' & Hr); exists n; eexists; apply replaced_cons, replaced_app_r; exact Hr).
Qed.

Lemma kroot_ne k t sp F h : k <> Top -> at_place h sp k t F -> root t <> kroot k (root t).
Proof.
  intros Hk Hh. destruct (kroot_cell k Hk (root t)) as (n & l & Hr). unfold at_place in Hh.
  apply not_eq_sym. eapply ne_root; [exact Hh|apply replaced_app_l; exact Hr|find_cell].
Qed.

Lemma wp_parent_of k t sp F Q h :
  at_place h sp k t F -> (t = E -> sp = above k) -> Q (above k) h -> wp (get_parent (root t)) Q h.
Proof.
  intros Hh Hsp HQ. unfold at_place in Hh. destruct t as [|c l x r]; cbn in *; rb_step Hh; [by rewrite Hsp|done].
Qed.

Lemma wp_delete_step k t n sp F (K : ptr -> bool -> HN unit) Q h :
  at_place h sp k t F -> (t = E -> sp = above k) -> kbalanced (S n) k -> balanced n t -> k <> Top ->
  (forall k1 go h', depth k = S (depth k1) -> round_end k1 (above k) (inorder (plug k t)) F go h' ->
     wp (K (above k) go) Q h') ->
  wp (let^ parent := get_parent (root t) in
      let^ l := get_left parent in
      let^ go_on := (if root t =? l then delete_left_case parent else delete_right_case parent) in
      K parent go_on) Q h.
Proof.
  intros Hh Hsp Hk Ht HkT HK. apply wp_hbind. eapply wp_parent_of; [exact Hh|done|]. pose proof Hh as Hh0.
  unfold at_place in Hh. destruct k as [|c p s k|c s p k]; [done|..]; cbn in *; rb_step Hh; apply wp_hbind.
  - rewrite Z.eqb_refl. eapply wp_conseq; [by eapply wp_delete_left_case; [rewrite <- go_up_left|..]|].
    intros go h2 Hr. by eapply HK.
  - assert (Hne : root t <> root s).
    { destruct t as [|d a x b]; [|eapply ne_root; [exact Hh|cbn; find_cell|find_cell]].
      destruct s as [|d a x b]; [by destruct Hk|]. cbn in *. eapply holds_ne; [exact Hh|find_cell..]. }
    rewrite (proj2 (Z.eqb_neq _ _) Hne). eapply wp_conseq; [by eapply wp_delete_right_case; [rewrite <- go_up_right|..]|].
    intros go h2 Hr. by eapply HK.
Qed.

Lemma wp_delete_fixup_loop fuel : forall k t n sp F ps h,
  (shade t = NXT_RBTREE_RED /\ 0 < fuel \/ depth k + 1 < fuel)%nat ->
  at_place h sp k t F -> (t = E -> sp = above k) -> deficient n k t -> inorder (plug k t) = ps ->
  wp (delete_fixup_loop fuel sent (root t)) (fun _ h' => stored h' ps F) h.
Proof.
  induction fuel as [|fuel IH]; intros k t n sp F ps h Hf Hh Hsp [Hk Ht] <-; [lia|].
  cbn [delete_fixup_loop]. apply wp_hbind.
  eapply (wp_get_left _ _ _ _ _ Hh); [unfold sentinel_cell; find_cell|]. cbn.
  apply wp_hbind. eapply wp_shade; [exact Hh|].
  assert (Hend : forall m, placed m k (blacken t) ->
    wp (set_color (root t) NXT_RBTREE_BLACK) (fun _ h' => stored h' (inorder (plug k t)) F) h).
  { intros m Hm. eapply wp_blacken; [exact Hh|]. intros h2 Hh2.
    replace (inorder _) with (inorder (plug k (blacken t))) by (rewrite !inorder_plug; by destruct t).
    by eapply stored_placed. }
  assert (Hred : shade t = NXT_RBTREE_RED -> balanced (S n) (blacken t) ->
    wp (set_color (root t) NXT_RBTREE_BLACK) (fun _ h' => stored h' (inorder (plug k t)) F) h).
  { intros Es Hb. apply (Hend (S n)). split_and!; [done|done|left; by destruct t]. }
  assert (HkT : k = Top \/ k <> Top) by (destruct k; auto). destruct HkT as [->|HkT].
  { cbn. rewrite Z.eqb_refl. cbn. destruct Ht as [[Es Hb]|[Es Hb]]; [|by apply Hred].
    apply (Hend n). split_and!; [done|by destruct t; cbn in *; subst|left; by destruct t]. }
  rewrite (proj2 (Z.eqb_neq _ _) (kroot_ne _ _ _ _ _ HkT Hh)). cbn.
  destruct Ht as [[Es Hb]|[Es Hb]]; rewrite Es; [|by apply Hred].
  assert (Hd : (depth k + 1 < S fuel)%nat) by (destruct Hf as [[? _]|]; [congruence|done]). cbn.
  eapply (wp_delete_step k t n sp F (fun p go => if go then delete_fixup_loop fuel sent p else hret tt)); try done.
  intros k1 [] h' Ek Hr; [|exact Hr]. destruct Hr as (m & k' & t' & sp' & Hh' & <- & Hdef & <- & HtE & Hdd).
  eapply IH; [|exact Hh'|done|exact Hdef|done]. destruct Hdd as [?|Hdd]; [left; split; [done|]|right]; lia.
Qed.

(** ** Deletion *)

(** The node [x] is replaced with its only subtree. *)
Lemma wp_unlink k x n t sp F Q h :
  holds h (sentinel_cell (kroot k x) sp :: kcells k x ++ (x, n) :: cells x t ++ F) -> parent n = above k ->
  (forall h', at_place h' (sent_parent t (above k) sp) k t ((x, n) :: F) -> Q tt h') ->
  wp (nxt_rbtree_parent_relink (root t) x) Q h.
Proof.
  intros Hh Hp HQ. destruct t as [|c l y r]; cbn in *.
  - eapply (wp_relink_leaf k x n sp F); [eapply holds_perm; [|exact Hh]; solve_Permutation|done|].
    intros h2 Hh2. apply HQ. to_place Hh2.
  - eapply (wp_relink_node k x y n _ sp (cells y l ++ cells y r ++ F)); [eapply holds_perm; [|exact Hh]; solve_Permutation|done|].
    cbn. intros h2 Hh2. apply HQ. to_place Hh2.
Qed.

(** What is left at the place of a node of color [c] that was unlinked. *)
Definition unlinked (c : Z) (k : ctx) (t : tree) : Prop :=
  (c = NXT_RBTREE_BLACK /\ exists n, deficient n k t) \/ (c = NXT_RBTREE_RED /\ exists n, placed n k t).

Lemma placed_unlinked n k c l x r t :
  placed n k (T c l x r) -> l = E /\ t = r \/ r = E /\ t = l -> unlinked c k t.
Proof.
  intros (Hk & Hb & Hs) Ht. cbn in Hb. unfold unlinked, deficient, placed.
  destruct Hb as [(-> & Hl & Hr & Hbl & Hbr)|(-> & m & -> & Hbl & Hbr)].
  - right. split; [done|]. exists n. destruct Ht as [[-> ->]|[-> ->]]; cbn in *; subst; by split_and!; [..|left].
  - left. split; [done|]. exists m. split; [done|].
    assert (Ht' : balanced m t) by (destruct Ht as [[-> ->]|[-> ->]]; done). clear -Ht'.
    destruct t as [|c a y b]; [by left|]. pose proof Ht' as Ht. cbn in Ht'.
    destruct Ht' as [(-> & _ & _ & Ha & Hb)|(-> & n & -> & Ha & Hb)]; [right|left]; cbn; eauto 10.
Qed.

Lemma wp_delete_end c k t sp F ps h :
  at_place h sp k t F -> (t = E -> sp = above k) -> unlinked c k t -> inorder (plug k t) = ps ->
  wp (if c =? NXT_RBTREE_BLACK then nxt_rbtree_delete_fixup sent (root t) else hret tt)
    (fun _ h' => stored h' ps F) h.
Proof.
  intros Hh Hsp [(-> & n & Hd)|(-> & n & Hp)] <-; cbn.
  - apply wp_hbind. eapply wp_cells_bound; [exact Hh|]. intros fuel Hfuel.
    eapply wp_delete_fixup_loop; [|exact Hh|done|exact Hd|done]. right.
    pose proof (depth_kcells k (root t)). cbn in Hfuel. rewrite length_app in Hfuel. lia.
  - by eapply stored_placed.
Qed.

(** The node [y], which is unlinked, takes the place of [x]. *)
Lemma wp_take_place k c d a z b x r y ny sp F Q h :
  let l := T d a z b in
  at_place h sp k (T c l x r) ((y, ny) :: F) ->
  (forall h' nx, at_place h' (sent_parent r y sp) k (T c l y r) ((x, nx) :: F) -> Q tt h') ->
  wp (let^ c := get_color x in
      let^ _ := set_color y c in
      let^ l := get_left x in
      let^ _ := set_left y l in
      let^ l := get_left y in
      let^ _ := set_parent l y in
      let^ r := get_right x in
      let^ _ := set_right y r in
      let^ r := get_right y in
      let^ _ := set_parent r y in
      nxt_rbtree_parent_relink y x) Q h.
Proof.
  intros l Hh HQ. unfold at_place in Hh. cbn in Hh.
  do 9 rb_step Hh. apply wp_hbind.
  eapply (wp_set_parent_root r x y); [exact Hh|find_cell|]. clear Hh. intros h5 Hh. cbn in Hh.
  eapply (wp_relink_node k x y _ _ _ (cells y (T d a z b) ++ cells y r ++ F));
    [eapply holds_perm; [|exact Hh]; cbn; solve_Permutation|done|].
  clear Hh. cbn. intros h6 Hh. eapply HQ. to_place Hh.
Qed.

Lemma sent_parent_plug k t v sp : t <> E -> sent_parent (plug k t) v sp = sp.
Proof. revert t. induction k as [|c x r k IH|c l x k IH]; intros t Ht; cbn; [by destruct t|by apply IH..]. Qed.

(** Deletion of a node that has no child on one side. *)
Lemma wp_delete_one k c l x r t n sp F h :
  at_place h sp k (T c l x r) F -> placed n k (T c l x r) -> l = E /\ t = r \/ r = E /\ t = l ->
  wp (let^ _ := nxt_rbtree_parent_relink (root t) x in
      let^ color := get_color x in
      let^ _ := hret tt in
      if color =? NXT_RBTREE_BLACK then nxt_rbtree_delete_fixup sent (root t) else hret tt)
    (fun _ h' => exists nx, stored h' (inorder (plug k t)) ((x, nx) :: F)) h.
Proof.
  intros Hh Hp Ht. set (nx := Node (root l) (root r) (above k) c).
  assert (Hh' : holds h (sentinel_cell (kroot k x) sp :: kcells k x ++ (x, nx) :: cells x t ++ F)).
  { unfold at_place in Hh. cbn in Hh. eapply holds_perm; [|exact Hh].
    destruct Ht as [[-> ->]|[-> ->]]; cbn; solve_Permutation. }
  apply wp_hbind. eapply (wp_unlink k x nx t sp F); [exact Hh'|done|]. clear Hh Hh'. intros h2 Hh2.
  pose proof Hh2 as Hh. unfold at_place in Hh. rb_step Hh. apply wp_hbind, wp_hret.
  eapply wp_conseq; [eapply (wp_delete_end c k t); [exact Hh2|by intros ->|by eapply placed_unlinked|done]|].
  intros [] h3 Hst. by exists nx.
Qed.

(** Deletion of a node with two children. *)
Lemma wp_delete_two k c d a z b x km e y f n sp F h :
  let l := T d a z b in
  let r := plug km (T e E y f) in
  at_place h sp k (T c l x r) F -> leftmost km -> placed n (kapp km (Right c l x k)) (T e E y f) ->
  wp (let^ _ := nxt_rbtree_parent_relink (root f) y in
      let^ color := get_color y in
      let^ _ :=
        (let^ c := get_color x in
         let^ _ := set_color y c in
         let^ l := get_left x in
         let^ _ := set_left y l in
         let^ l := get_left y in
         let^ _ := set_parent l y in
         let^ r := get_right x in
         let^ _ := set_right y r in
         let^ r := get_right y in
         let^ _ := set_parent r y in
         nxt_rbtree_parent_relink y x) in
      if color =? NXT_RBTREE_BLACK then nxt_rbtree_delete_fixup sent (root f) else hret tt)
    (fun _ h' => exists nx, stored h' (inorder (plug k (T c l y (plug km f)))) ((x, nx) :: F)) h.
Proof.
  intros l r Hh Hkm Hp. set (k' := kapp km (Right c l x k)) in *.
  assert (Hk' : at_place h sp k' (T e E y f) F) by (unfold k'; by rewrite at_kapp, go_up_right).
  set (ny := Node sent (root f) (above k') e).
  assert (Hh' : holds h (sentinel_cell (kroot k' y) sp :: kcells k' y ++ (y, ny) :: cells y f ++ F))
    by (unfold at_place in Hk'; cbn in Hk'; eapply holds_perm; [|exact Hk']; cbn; solve_Permutation).
  apply wp_hbind. eapply (wp_unlink k' y ny f sp F); [exact Hh'|done|]. clear Hh Hh' Hk'. intros h2 Hh.
  pose proof Hh as Hh0. unfold at_place in Hh0. rb_step Hh0. clear Hh0. apply wp_hbind.
  unfold k' in Hh. rewrite at_kapp, go_up_right in Hh.
  eapply (wp_take_place k c d a z b x (plug km f) y ny); [exact Hh|]. clear Hh. intros h3 nx Hh.
  eapply wp_conseq; [eapply (wp_delete_end e (kapp km (Right c l y k)) f); [rewrite at_kapp, go_up_right; exact Hh| | |done]|].
  - intros ->. destruct km; [done|..]; by cbn; rewrite sent_parent_plug.
  - destruct (placed_unlinked _ _ _ _ _ _ f Hp ltac:(by left)) as [(-> & m & Hk & Hd)|(-> & m & Hk & Hd & Hs)].
    + left. split; [done|]. exists m. split; [by eapply kbalanced_kapp|done].
    + right. split; [done|]. exists m. split_and!; [by eapply kbalanced_kapp|done|].
      destruct Hs as [|Hs]; [by left|right]. by eapply under_black_kapp.
  - intros [] h4 Hst. exists nx. by rewrite plug_kapp in Hst.
Qed.

Lemma wp_delete x l1 l2 F h :
  stored h (l1 ++ x :: l2) F ->
  wp (nxt_rbtree_delete sent x) (fun _ h' => exists nx, stored h' (l1 ++ l2) ((x, nx) :: F)) h.
Proof.
  intros (sp & t & Hh & Hi & [n Hb] & Hs).
  destruct (place_of t n Top l1 x l2) as (m & k & c & l & r & Hp & Hplug & Hb1 & Ha1); [by split_and!; [..|left]|done|].
  cbn in Hb1, Ha1, Hplug. rewrite app_nil_r in Ha1. rewrite <- Hplug, <- go_top in Hh. clear Hplug.
  assert (Hps : l1 ++ l2 = before k ++ inorder l ++ inorder r ++ after k) by (by rewrite <- Hb1, <- Ha1, <- app_assoc).
  unfold nxt_rbtree_delete. pose proof Hh as Hh0. unfold at_place in Hh0. cbn in Hh0. rb_step Hh0. rb_step Hh0.
  assert (Hone : forall t, l = E /\ t = r \/ r = E /\ t = l -> inorder (plug k t) = l1 ++ l2).
  { intros u Hu. rewrite inorder_plug, Hps. destruct Hu as [[-> ->]|[-> ->]]; done. }
  destruct l as [|d a z b]; cbn [root].
  - rewrite Z.eqb_refl. apply wp_hbind, wp_hret. rewrite Z.eqb_refl. cbn.
    rewrite <- (Hone r) by (by left). eapply wp_delete_one; [exact Hh|exact Hp|by left].
  - assert (Hz : z <> sent) by (apply not_eq_sym; cbn in Hh0; eapply holds_ne; [exact Hh0|find_cell..]).
    rewrite (proj2 (Z.eqb_neq _ _) Hz).
    assert (Hr : r = E \/ r <> E) by (destruct r; auto). destruct Hr as [->|Hr].
    + cbn [root]. rewrite Z.eqb_refl. apply wp_hbind, wp_hret. rewrite Z.eqb_refl. cbn [negb].
      rewrite <- (Hone (T d a z b)) by (by right). eapply (wp_delete_one k c (T d a z b) x E (T d a z b)); [exact Hh|exact Hp|by right].
    + assert (Hrs : root r <> sent).
      { destruct r; [done|]. cbn in *. apply not_eq_sym; eapply holds_ne; [exact Hh0|find_cell..]. }
      rewrite (proj2 (Z.eqb_neq _ _) Hrs). do 3 apply wp_hbind. destruct (placed_right _ _ _ _ _ _ Hp) as [m' Hp'].
      eapply wp_cells_bound; [exact Hh|]. intros fuel Hfuel.
      eapply (wp_branch_min_loop fuel (Right c (T d a z b) x k) r sp F); [|by rewrite go_up_right|done|].
      { rewrite <- (length_cells x r). cbn in Hfuel. rewrite !length_app in Hfuel. cbn in Hfuel. rewrite !length_app in Hfuel. lia. }
      intros km e y f -> Hkm. destruct (placed_kapp _ _ _ _ Hp') as [n' Hpy]. apply wp_hbind.
      eapply (wp_right_of (kapp km (Right c (T d a z b) x k))); [by rewrite at_kapp, go_up_right|]. apply wp_hret.
      assert (Hxy : y <> x).
      { apply at_nodup in Hh. rewrite inorder_plug in Hh. cbn [inorder] in Hh. rewrite inorder_plug in Hh. cbn in Hh.
        apply NoDup_app in Hh as (_ & _ & Hh). apply NoDup_app in Hh as (Hh & _ & _).
        apply NoDup_app in Hh as (_ & _ & Hh). apply NoDup_cons in Hh as [Hh _]. intros ->. apply Hh. set_solver. }
      rewrite (proj2 (Z.eqb_neq _ _) Hxy). cbn [negb].
      replace (l1 ++ l2) with (inorder (plug k (T c (T d a z b) y (plug km f)))).
      { by eapply wp_delete_two. }
      rewrite Hps, !inorder_plug. cbn. rewrite !inorder_plug, (leftmost_before _ Hkm). cbn. repeat (rewrite <- !app_assoc; cbn). done.
Qed.

End Delete.
