(* ===== verification/RbWalk.v ===== *)
(** * Walks and searches in red-black trees

    The first node, the successor of a node, the three searches, and the
    iterator that takes a tree apart; and what an empty tree is. *)

From S2P Require Import Prelude Heap Rbtree.

#[local] Open Scope Z_scope.

Section Walks.
Context {TR : Sentinel}.

(** The first of [ps], the sentinel when there is none. *)
Definition first (ps : list ptr) : ptr := default sent (head ps).

Lemma stored_nodup h ps F : stored h ps F -> NoDup (sent :: ps).
Proof.
  intros (sp & t & [Hd _] & <- & _). cbn in Hd. apply NoDup_cons in Hd as [Hn Hd].
  rewrite fmap_app, keys_cells in Hn, Hd. apply NoDup_app in Hd as [Hd _]. constructor; [set_solver|done].
Qed.

Lemma wp_init cb n F h :
  callback = cb -> holds h ((sent, n) :: F) -> wp (nxt_rbtree_init sent cb) (fun _ h' => stored h' [] F) h.
Proof.
  intros <- Hh. unfold nxt_rbtree_init. rb_step Hh. rb_step Hh. rb_step Hh.
  exists (parent n), E. split_and!; [exact Hh|done|by exists O|done].
Qed.

Lemma first_plug k d y b : leftmost k -> first (inorder (plug k (T d E y b))) = y.
Proof. intros Hk. rewrite inorder_plug, (leftmost_before _ Hk). done. Qed.

Lemma wp_branch_min k t sp F Q h :
  at_place h sp k t F -> t <> E -> Q (first (inorder t)) h -> wp (nxt_rbtree_branch_min sent (root t)) Q h.
Proof.
  intros Hh Ht HQ. apply wp_hbind. eapply wp_cells_bound; [exact Hh|]. intros fuel Hfuel.
  eapply wp_branch_min_loop; [|exact Hh|done|].
  - cbn in Hfuel. rewrite !length_app, length_cells in Hfuel. lia.
  - intros km d y b -> Hkm. by rewrite first_plug in HQ.
Qed.

Lemma root_sent k t sp F h : at_place h sp k t F -> t <> E -> root t <> sent.
Proof.
  intros Hh Ht. destruct t as [|c l x r]; [done|]. unfold at_place in Hh. cbn in *.
  apply not_eq_sym. eapply holds_ne; [exact Hh|find_cell..].
Qed.

Lemma wp_min ps F Q h : stored h ps F -> Q (first ps) h -> wp (nxt_rbtree_min sent) Q h.
Proof.
  intros (sp & t & Hh & <- & _) HQ. apply wp_hbind. eapply wp_cells_bound; [exact Hh|]. intros fuel Hfuel.
  destruct fuel as [|fuel]; [lia|]. cbn [branch_min_loop]. apply wp_hbind. eapply wp_root; [exact Hh|].
  destruct t as [|c l x r] eqn:Et; [cbn; by rewrite Z.eqb_refl|]. rewrite <- Et in *.
  assert (Ht : t <> E) by (by rewrite Et). rewrite (proj2 (Z.eqb_neq _ _) (root_sent _ _ _ _ _ Hh Ht)).
  eapply wp_branch_min_loop; [|exact Hh|done|].
  - cbn in Hfuel. rewrite !length_app, length_cells in Hfuel. lia.
  - intros km d y b Ey Hkm. by rewrite Ey, first_plug in HQ.
Qed.

Lemma wp_successor_loop fuel : forall k t sp F Q h,
  (depth k < fuel)%nat -> at_place h sp k t F -> t <> E -> Q (first (after k)) h ->
  wp (successor_loop fuel (root t)) Q h.
Proof.
  induction fuel as [|fuel IH]; intros k t sp F Q h Hf Hh Ht HQ; [lia|]. cbn [successor_loop].
  destruct t as [|c l x r] eqn:Et; [done|]. pose proof Hh as Hh0. unfold at_place in Hh. cbn in Hh. rb_step Hh.
  destruct k as [|d y s k|d s y k]; cbn in *; rb_step Hh.
  - by rewrite Z.eqb_refl.
  - by rewrite Z.eqb_refl.
  - assert (Hne : x <> root s) by (eapply ne_root; [exact Hh|find_cell..]).
    rewrite (proj2 (Z.eqb_neq _ _) Hne).
    eapply (IH k (T d s y (T c l x r))); [lia|by rewrite <- go_up_right|done|done].
Qed.

Lemma wp_successor x l1 l2 F Q h :
  stored h (l1 ++ x :: l2) F -> Q (first l2) h -> wp (nxt_rbtree_node_successor sent x) Q h.
Proof.
  intros (sp & t & Hh & Hi & [n Hb] & Hs) HQ.
  destruct (place_of t n Top l1 x l2) as (m & k & c & l & r & Hp & Hplug & Hb1 & Ha1); [by split_and!; [..|left]|done|].
  cbn in Ha1, Hplug. rewrite app_nil_r in Ha1. rewrite <- Hplug, <- go_top in Hh. subst l2.
  unfold nxt_rbtree_node_successor. apply wp_hbind. eapply wp_right_of; [exact Hh|].
  destruct r as [|d a z b] eqn:Er.
  - cbn. rewrite Z.eqb_refl. cbn. apply wp_hbind. eapply wp_cells_bound; [exact Hh|]. intros fuel Hfuel.
    eapply (wp_successor_loop fuel k (T c l x E)); [|exact Hh|done|exact HQ].
    pose proof (depth_kcells k x). cbn in Hfuel. rewrite length_app in Hfuel. lia.
  - rewrite <- Er in *. assert (Hr : r <> E) by (by rewrite Er). rewrite <- go_up_right in Hh.
    rewrite (proj2 (Z.eqb_neq _ _) (root_sent _ _ _ _ _ Hh Hr)). cbn.
    eapply wp_branch_min; [exact Hh|done|]. rewrite Er in HQ |- *. cbn in *. by destruct (inorder a).
Qed.

(** ** Searches *)

Section Find.
Context (call : ptr -> ptr -> ptr -> Z) (node : ptr) (less greater : bool).

(** What a search keeps while it is at a place. *)
Definition kept (l1 l2 : list ptr) : ptr :=
  if less then default NULL (last l1) else if greater then default NULL (head l2) else NULL.

Hypothesis one_side : less && greater = false.

Lemma kept_right (l1 l : list ptr) x l2 :
  kept (l1 ++ l ++ [x]) l2 = if less then x else kept l1 l2.
Proof. unfold kept. destruct less; [|done]. by rewrite app_assoc, last_snoc. Qed.

Lemma kept_left (l1 : list ptr) x r l2 :
  kept l1 (x :: r ++ l2) = if greater then x else kept l1 l2.
Proof. unfold kept. by destruct less, greater. Qed.

(** The order of the nodes around the key. *)
Record around (m1 m m2 : list ptr) : Prop := {
  around_less : Forall (fun q => 0 < call callback node q) m1;
  around_equal : Forall (fun q => call callback node q = 0) m;
  around_greater : Forall (fun q => call callback node q < 0) m2
}.

(** A node divides the nodes around the key. *)
Lemma around_node l x r m1 m m2 :
  l ++ x :: r = m1 ++ m ++ m2 -> around m1 m m2 ->
  (call callback node x < 0 /\ exists m2', l = m1 ++ m ++ m2' /\ m2 = m2' ++ x :: r /\ around m1 m m2') \/
  (call callback node x = 0 /\ x ∈ m) \/
  (0 < call callback node x /\ exists m1', r = m1' ++ m ++ m2 /\ m1 = l ++ x :: m1' /\ around m1' m m2).
Proof.
  intros Hi [H1 H0 H2]. destruct (split_cons _ _ _ _ _ Hi) as [(a & Hl & Ha)|(a & -> & Hr)].
  - symmetry in Ha. destruct (split_cons _ _ _ _ _ Ha) as [(b & Ha' & Hm2)|(b & Hm & Hr)].
    + subst. left. apply Forall_app in H2 as [H2 Hx]. apply Forall_cons in Hx as [Hx _].
      split; [done|]. exists b. split_and!; [by rewrite app_assoc|done|done].
    + subst. right. left. apply Forall_app in H0 as [_ Hx]. apply Forall_cons in Hx as [Hx _].
      split; [done|]. set_solver.
  - right. right. apply Forall_app in H1 as [_ Hx]. apply Forall_cons in Hx as [Hx H1].
    split; [done|]. exists a. by split_and!.
Qed.

Lemma wp_find_loop fuel : forall k t sp F m1 m m2 Q h,
  (length (inorder t) < fuel)%nat -> at_place h sp k t F -> inorder t = m1 ++ m ++ m2 -> around m1 m m2 ->
  (forall q, q ∈ m \/ m = [] /\ q = kept (before k ++ m1) (m2 ++ after k) -> Q q h) ->
  wp (find_loop call fuel less greater sent callback node (root t) (kept (before k) (after k))) Q h.
Proof.
  induction fuel as [|fuel IH]; intros k t sp F m1 m m2 Q h Hf Hh Hi Ha HQ; [lia|].
  cbn [find_loop]. destruct t as [|c l x r].
  { cbn. rewrite Z.eqb_refl. cbn in Hi. symmetry in Hi. apply app_nil in Hi as [-> Hi]. apply app_nil in Hi as [-> ->].
    apply HQ. right. by rewrite app_nil_r. }
  rewrite length_inorder_T in Hf. rewrite (proj2 (Z.eqb_neq _ _) (root_sent k (T c l x r) sp F h Hh ltac:(done))).
  cbn [root inorder] in *. pose proof Hh as Hh0. unfold at_place in Hh0. cbn in Hh0.
  destruct (around_node _ _ _ _ _ _ Hi Ha) as [(Hx & m2' & El & -> & Ha')|[(Hx & Hin)|(Hx & m1' & Er & -> & Ha')]].
  - rewrite (proj2 (Z.ltb_lt _ _) Hx). rb_step Hh0.
    replace (if greater then x else _) with (kept (before (Left c x r k)) (after (Left c x r k))) by apply kept_left.
    eapply (IH (Left c x r k) l); [lia|by rewrite go_up_left|done|done|].
    intros q Hq. apply HQ. cbn in Hq. by rewrite <- app_assoc.
  - rewrite Hx. cbn. apply HQ. by left.
  - rewrite (proj2 (Z.ltb_ge _ _)) by lia. rewrite (proj2 (Z.ltb_lt _ _) Hx). rb_step Hh0.
    replace (if less then x else _) with (kept (before (Right c l x k)) (after (Right c l x k))) by apply kept_right.
    eapply (IH (Right c l x k) r); [lia|by rewrite go_up_right|done|done|].
    intros q Hq. apply HQ. cbn in Hq. by rewrite <- !app_assoc in Hq.
Qed.

Lemma wp_find_from_root m1 m m2 F Q h :
  stored h (m1 ++ m ++ m2) F -> around m1 m m2 ->
  (forall q, q ∈ m \/ m = [] /\ q = kept m1 m2 -> Q q h) ->
  wp (find_from_root call less greater sent node) Q h.
Proof.
  intros (sp & t & Hh & Hi & _) Ha HQ. unfold find_from_root. apply wp_hbind. eapply wp_root; [exact Hh|].
  pose proof Hh as Hh0. unfold at_place in Hh0. cbn in Hh0. rb_step Hh0. apply wp_hbind.
  eapply wp_cells_bound; [exact Hh|]. intros fuel Hfuel.
  replace NULL with (kept (before Top) (after Top)) by (unfold kept; by destruct less, greater).
  eapply wp_find_loop; [|exact Hh|exact Hi|done|].
  - cbn in Hfuel. rewrite !length_app, length_cells in Hfuel. lia.
  - cbn. by rewrite app_nil_r.
Qed.

End Find.

(** ** Taking a tree apart *)

(** The iterator is at [next]; the nodes [ps] are still in the tree, which is no
    longer balanced. *)
Definition destroying (h : gmap ptr nxt_rbtree_node) (next : ptr) (ps : list ptr)
    (F : list (ptr * nxt_rbtree_node)) : Prop :=
  exists sp k t, at_place h sp k t F /\ leftmost k /\ inorder (plug k t) = ps /\ next = root t /\ (t = E -> k = Top).

Lemma stored_destroying h ps F : stored h ps F -> exists next,
  destroying h next ps F /\ forall Q, Q next h -> wp (nxt_rbtree_root sent) Q h.
Proof.
  intros (sp & t & Hh & Hi & _). exists (root t). split.
  - exists sp, Top, t. by split_and!.
  - intros Q HQ. by eapply wp_root.
Qed.

Lemma destroying_end h next ps F : destroying h next ps F -> next = sent <-> ps = [].
Proof.
  intros (sp & k & t & Hh & Hk & <- & -> & Ht). split.
  - intros Hr. assert (t = E) as ->; [|by rewrite Ht].
    destruct t as [|c l x r]; [done|]. destruct (root_sent _ _ _ _ _ Hh); done.
  - rewrite inorder_plug. intros Hi. apply app_nil in Hi as [_ Hi]. apply app_nil in Hi as [Hi _].
    destruct t as [|c l x r]; [done|]. cbn in Hi. by destruct (inorder l).
Qed.

Lemma destroying_next h sp k b F :
  at_place h sp k b F -> leftmost k ->
  destroying h (if root b =? sent then above k else root b) (inorder b ++ after k) F.
Proof.
  intros Hh Hk. destruct b as [|e a w f] eqn:Eb.
  - cbn [root]. rewrite Z.eqb_refl. destruct k as [|c p r k|]; [..|done].
    + exists sp, Top, E. by split_and!.
    + exists sp, k, (T c E p r). split_and!; [by rewrite <- go_up_left|done| |done|done].
      cbn in Hk. by rewrite inorder_plug, (leftmost_before _ Hk).
  - rewrite (proj2 (Z.eqb_neq _ _) (root_sent k (T e a w f) sp _ h Hh ltac:(done))).
    exists sp, k, (T e a w f). split_and!; [done|done| |done|done].
    by rewrite inorder_plug, (leftmost_before _ Hk).
Qed.

Lemma wp_destroy_next h next y ps F :
  destroying h next (y :: ps) F ->
  wp (nxt_rbtree_destroy_next sent next)
    (fun r h' => r.1 = y /\ exists n, destroying h' r.2 ps ((y, n) :: F)) h.
Proof.
  intros (sp & k & t & Hh & Hk & Hi & -> & HtE).
  assert (Ht : t <> E) by (intros ->; rewrite HtE in Hi; done).
  unfold nxt_rbtree_destroy_next. apply wp_hbind. eapply wp_cells_bound; [exact Hh|]. intros fuel Hfuel.
  apply wp_hbind. eapply wp_branch_min_loop; [|exact Hh|done|].
  { cbn in Hfuel. rewrite !length_app, length_cells in Hfuel. lia. }
  intros km d z b -> Hkm. rewrite <- at_kapp in Hh. rewrite <- plug_kapp in Hi.
  pose proof (leftmost_kapp _ _ Hkm Hk) as Hk'. revert Hh Hi Hk'. clear. generalize (kapp km k). clear k km.
  intros k Hh Hi Hk. rewrite inorder_plug, (leftmost_before _ Hk) in Hi. cbn in Hi. injection Hi as -> Hps.
  set (n := Node sent (root b) (above k) d).
  assert (Hh' : holds h (sentinel_cell (kroot k y) sp :: kcells k y ++ cells y b ++ (y, n) :: F))
    by (unfold at_place in Hh; cbn in Hh; eapply holds_perm; [|exact Hh]; solve_Permutation).
  clear Hh. rename Hh' into Hh. rb_step Hh. rb_step Hh. apply wp_hbind.
  assert (Hset : forall Q, (forall h', holds h' (sentinel_cell (kroot k (root b)) sp :: kcells k (root b) ++ cells y b ++ (y, n) :: F) -> Q tt h') ->
    wp (set_left (above k) (root b)) Q h).
  { intros Q HQ. destruct k as [|c p r k|]; [..|done]; cbn in *; rb_step Hh; by apply HQ. }
  apply Hset. clear Hh Hset. intros h2 Hh. apply wp_hbind.
  eapply (wp_set_parent_root b y (above k)); [exact Hh|find_cell|]. intros h3 Hh3. apply wp_hret. split; [done|].
  exists n. rewrite <- Hps. by eapply destroying_next.
Qed.

(** ** The height of a tree *)

Fixpoint height (t : tree) : nat :=
  match t with E => O | T _ l _ r => S (Nat.max (height l) (height r)) end.

Lemma balanced_size n t : balanced n t -> (2 ^ n <= S (length (inorder t)))%nat.
Proof.
  revert n. induction t as [|c l IHl x r IHr]; intros n.
  - cbn. intros ->. done.
  - rewrite length_inorder_T. intros [(_ & _ & _ & Hl & Hr)|(_ & m & -> & Hl & Hr)].
    + specialize (IHl _ Hl). lia.
    + specialize (IHl _ Hl). specialize (IHr _ Hr). cbn. lia.
Qed.

Lemma balanced_height n t :
  balanced n t -> (height t <= 2 * n + (if decide (shade t = NXT_RBTREE_BLACK) then 0 else 1))%nat.
Proof.
  revert n. induction t as [|c l IHl x r IHr]; intros n.
  - cbn. lia.
  - intros [(-> & Hsl & Hsr & Hl & Hr)|(-> & m & -> & Hl & Hr)]; specialize (IHl _ Hl); specialize (IHr _ Hr); cbn [height shade].
    + rewrite decide_True in IHl by done. rewrite decide_True in IHr by done. rewrite decide_False by done. lia.
    + rewrite decide_True by done. do 2 case_decide; lia.
Qed.

Lemma tree_height t : is_balanced t -> shade t = NXT_RBTREE_BLACK ->
  (2 ^ height t <= (1 + length (inorder t)) ^ 2)%nat.
Proof.
  intros [n Hb] Hs. pose proof (balanced_size _ _ Hb) as H1. pose proof (balanced_height _ _ Hb) as H2.
  rewrite decide_True in H2 by done. transitivity (2 ^ (2 * n))%nat; [apply Nat.pow_le_mono_r; lia|].
  rewrite Nat.mul_comm, Nat.pow_mul_r. by apply Nat.pow_le_mono_l.
Qed.

End Walks.
