(* ===== verification/RbSpec.v ===== *)
(** * Red-black trees as sorted lists

    What the operations of nxt_rbtree.c promise to their callers, in terms of
    the list of the nodes in their order. *)

From stdpp Require Import sorting.
From S2P Require Import Prelude Heap Rbtree RbInsert RbDelete RbWalk.

#[local] Open Scope Z_scope.

(** ** The reference *)

Section Reference.
Context (rank : ptr -> Z).

Definition in_order : list ptr -> Prop := StronglySorted (fun p q => rank p <= rank q).

(** A node goes behind the nodes of its rank. *)
Fixpoint insert_ranked (p : ptr) (ps : list ptr) : list ptr :=
  match ps with
  | [] => [p]
  | q :: rest => if rank p <? rank q then p :: ps else q :: insert_ranked p rest
  end.

Lemma insert_ranked_split p ps : in_order ps ->
  exists l1 l2, ps = l1 ++ l2 /\ insert_ranked p ps = l1 ++ p :: l2 /\
    Forall (fun q => rank q <= rank p) l1 /\ Forall (fun q => rank p < rank q) l2.
Proof.
  induction 1 as [|q ps Hs IH Hq]; cbn; [by exists [], []|].
  destruct (Z.ltb_spec (rank p) (rank q)) as [Hlt|Hge].
  - exists [], (q :: ps). split_and!; [done..|]. constructor; [done|]. eapply Forall_impl; [exact Hq|]. cbn. lia.
  - destruct IH as (l1 & l2 & -> & -> & H1 & H2). exists (q :: l1), l2. by split_and!; [..|constructor|].
Qed.

Lemma in_order_app l1 l2 :
  in_order (l1 ++ l2) <-> in_order l1 /\ in_order l2 /\ forall p q, p ∈ l1 -> q ∈ l2 -> rank p <= rank q.
Proof.
  unfold in_order. rewrite StronglySorted_app. naive_solver.
Qed.

Lemma insert_in_order p ps : in_order ps -> in_order (insert_ranked p ps).
Proof.
  intros Hs. destruct (insert_ranked_split p ps Hs) as (l1 & l2 & -> & -> & H1 & H2).
  rewrite Forall_forall in H1, H2. apply in_order_app in Hs as (Hs1 & Hs2 & Hs12).
  apply in_order_app. split_and!; [done| |].
  - constructor; [done|]. apply Forall_forall. intros q Hq. specialize (H2 q Hq). lia.
  - intros q r Hq [->|Hr]%elem_of_cons; auto.
Qed.

Inductive rb_op := Insert (p : ptr) | Delete (p : ptr).

(** The list after operations, if they insert only what is not in it and delete
    only what is. *)
Fixpoint reference (ops : list rb_op) (ps : list ptr) : option (list ptr) :=
  match ops with
  | [] => Some ps
  | Insert p :: ops => if decide (p ∈ ps) then None else reference ops (insert_ranked p ps)
  | Delete p :: ops => if decide (p ∈ ps) then reference ops (filter (fun q => q <> p) ps) else None
  end.

Definition op_node (o : rb_op) : ptr := match o with Insert p | Delete p => p end.

End Reference.

(** ** The operations *)

Section Operations.
Context {TR : Sentinel} (call : ptr -> ptr -> ptr -> Z) (rank : ptr -> Z) (pool : list ptr).

(** The comparison function orders the nodes of [pool] by rank. *)
Definition compares : Prop :=
  forall p q, p ∈ pool -> q ∈ pool -> Z.sgn (call callback p q) = Z.sgn (rank p - rank q).

Definition run_op (o : rb_op) : HN unit :=
  match o with
  | Insert p => nxt_rbtree_insert call sent p
  | Delete p => nxt_rbtree_delete sent p
  end.

Fixpoint run_ops (ops : list rb_op) : HN unit :=
  match ops with
  | [] => hret tt
  | o :: ops => let^ _ := run_op o in run_ops ops
  end.

(** The nodes of the pool are those of the tree [ps] and others. *)
Definition tree_of (h : gmap ptr nxt_rbtree_node) (ps : list ptr) : Prop :=
  exists F, stored h ps F /\ ps ++ F.*1 ≡ₚ pool.

Lemma stored_perm h ps F F' : F ≡ₚ F' -> stored h ps F -> stored h ps F'.
Proof.
  intros HF (sp & t & Hh & Ht). exists sp, t. split; [|done].
  unfold at_place in *. eapply holds_perm; [|exact Hh]. by rewrite HF.
Qed.

Context (Hcmp : compares).

Lemma compares_left p q : p ∈ pool -> q ∈ pool -> goes_left call p q <-> rank p < rank q.
Proof. intros Hp Hq. unfold goes_left. specialize (Hcmp p q Hp Hq). lia. Qed.

Lemma wp_insert_ranked p ps h :
  tree_of h ps -> in_order rank ps -> p ∈ pool -> p ∉ ps ->
  wp (nxt_rbtree_insert call sent p) (fun _ h' => tree_of h' (insert_ranked rank p ps)) h.
Proof.
  intros (F & Hst & Hpool) Hs Hp Hnp.
  assert (HpF : p ∈ F.*1) by (rewrite <- Hpool in Hp; set_solver).
  apply list_elem_of_fmap in HpF as ([q n] & -> & HF). apply elem_of_Permutation in HF as [F' HF'].
  rewrite HF' in Hpool. cbn in *. apply (stored_perm _ _ _ _ HF') in Hst.
  assert (Hin : forall r, r ∈ ps -> r ∈ pool) by (intros r Hr; rewrite <- Hpool; set_solver).
  destruct (insert_ranked_split rank q ps Hs) as (l1 & l2 & -> & -> & H1 & H2).
  rewrite Forall_forall in H1, H2.
  eapply wp_conseq; [eapply wp_insert; [exact Hst|..]; apply Forall_forall; intros r Hr|].
  - rewrite compares_left by (auto; set_solver). specialize (H1 r Hr). lia.
  - rewrite compares_left by (auto; set_solver). auto.
  - intros [] h' Hst'. exists F'. split; [done|]. rewrite <- Hpool. solve_Permutation.
Qed.

Lemma filter_absent (p : ptr) (l : list ptr) : p ∉ l -> filter (fun q => q <> p) l = l.
Proof.
  induction l as [|q l IH]; intros Hp; [done|]. rewrite filter_cons_True by set_solver.
  by rewrite IH by set_solver.
Qed.

Lemma filter_split (p : ptr) (l1 l2 : list ptr) :
  NoDup (l1 ++ p :: l2) -> filter (fun q => q <> p) (l1 ++ p :: l2) = l1 ++ l2.
Proof.
  intros Hd. apply NoDup_app in Hd as (_ & H1 & Hd). apply NoDup_cons in Hd as [H2 _].
  rewrite filter_app, filter_cons_False by naive_solver.
  rewrite !filter_absent; [done|done|]. intros Hp. by apply (H1 p Hp); left.
Qed.

Lemma wp_delete_ranked p ps h :
  tree_of h ps -> p ∈ ps ->
  wp (nxt_rbtree_delete sent p) (fun _ h' => tree_of h' (filter (fun q => q <> p) ps)) h.
Proof.
  intros (F & Hst & Hpool) Hp. apply list_elem_of_split in Hp as (l1 & l2 & ->).
  pose proof (stored_nodup _ _ _ Hst) as Hd. apply NoDup_cons in Hd as [_ Hd].
  eapply wp_conseq; [by eapply wp_delete|]. intros [] h' [n Hst']. rewrite filter_split by done.
  exists ((p, n) :: F). split; [done|]. rewrite <- Hpool. cbn. solve_Permutation.
Qed.

Lemma in_order_filter p ps : in_order rank ps -> in_order rank (filter (fun q => q <> p) ps).
Proof.
  induction 1 as [|q ps Hs IH Hq]; [constructor|]. rewrite filter_cons. case_decide; [|done].
  constructor; [done|]. rewrite Forall_forall in *. intros r Hr. apply list_elem_of_filter in Hr as [_ Hr]. auto.
Qed.

Lemma wp_run_ops ops : forall ps ps' h,
  tree_of h ps -> in_order rank ps -> reference rank ops ps = Some ps' -> Forall (fun o => op_node o ∈ pool) ops ->
  wp (run_ops ops) (fun _ h' => tree_of h' ps' /\ in_order rank ps') h.
Proof.
  induction ops as [|o ops IH]; intros ps ps' h Ht Hs Href Hops; cbn in Href.
  { injection Href as <-. by apply wp_hret. }
  apply Forall_cons in Hops as [Ho Hops]. cbn [run_ops]. apply wp_hbind.
  destruct o as [p|p]; cbn in *; destruct (decide (p ∈ ps)) as [Hin|Hin]; try done.
  - eapply wp_conseq; [by apply wp_insert_ranked|]. intros [] h' Ht'. eapply IH; eauto using insert_in_order.
  - eapply wp_conseq; [by apply wp_delete_ranked|]. intros [] h' Ht'. eapply IH; eauto using in_order_filter.
Qed.

End Operations.

(** ** Searches by rank *)

Lemma in_order_around rank ps K : in_order rank ps ->
  exists m1 m m2, ps = m1 ++ m ++ m2 /\ Forall (fun q => rank q < K) m1 /\
    Forall (fun q => rank q = K) m /\ Forall (fun q => K < rank q) m2.
Proof.
  induction 1 as [|q ps Hs (m1 & m & m2 & -> & H1 & H0 & H2) Hq]; [by exists [], [], []|].
  rewrite !Forall_app in Hq. destruct Hq as (Hq1 & Hq0 & Hq2).
  destruct (Z.lt_trichotomy (rank q) K) as [Hlt|[Heq|Hgt]].
  - exists (q :: m1), m, m2. by split_and!; [..|constructor| |].
  - destruct m1 as [|r m1]; [exists [], (q :: m), m2; by split_and!; [..|constructor|]|].
    apply Forall_cons in H1 as [H1 _]. apply Forall_cons in Hq1 as [Hq1 _]. lia.
  - destruct m1 as [|r m1]; [|apply Forall_cons in H1 as [H1 _]; apply Forall_cons in Hq1 as [Hq1 _]; lia].
    destruct m as [|r m]; [exists [], [], (q :: m2); by split_and!; [..|constructor]|].
    apply Forall_cons in H0 as [H0 _]. apply Forall_cons in Hq0 as [Hq0 _]. lia.
Qed.

Section Search.
Context {TR : Sentinel} (call : ptr -> ptr -> ptr -> Z) (rank : ptr -> Z) (pool : list ptr).
Context (Hcmp : compares call rank pool).

(** The last node of a rank up to [K], the first of a rank from [K] on, and a
    node of rank [K]. *)
Definition last_up_to (K : Z) (ps : list ptr) (q : ptr) : Prop :=
  (q = NULL /\ forall r, r ∈ ps -> K < rank r) \/
  (q ∈ ps /\ rank q <= K /\ forall r, r ∈ ps -> rank r <= K -> rank r <= rank q).

Definition first_from (K : Z) (ps : list ptr) (q : ptr) : Prop :=
  (q = NULL /\ forall r, r ∈ ps -> rank r < K) \/
  (q ∈ ps /\ K <= rank q /\ forall r, r ∈ ps -> K <= rank r -> rank q <= rank r).

Definition of_rank (K : Z) (ps : list ptr) (q : ptr) : Prop :=
  (q = NULL /\ forall r, r ∈ ps -> rank r <> K) \/ (q ∈ ps /\ rank q = K).

Section Kept.
Context (K : Z) (m1 m m2 : list ptr) (q : ptr).
Context (Hs : in_order rank (m1 ++ m ++ m2)).
Context (H1 : forall r, r ∈ m1 -> rank r < K) (H0 : forall r, r ∈ m -> rank r = K) (H2 : forall r, r ∈ m2 -> K < rank r).

(** Cases on the part that a node is in. *)
Ltac part := intros ?r; rewrite !elem_of_app; intros [Hr|[Hr|Hr]];
  [specialize (H1 _ Hr)|specialize (H0 _ Hr)|specialize (H2 _ Hr)]; lia.

Lemma kept_none : q ∈ m \/ m = [] /\ q = kept false false m1 m2 -> of_rank K (m1 ++ m ++ m2) q.
Proof.
  intros [Hq|[-> ->]]; [right; split; [set_solver|auto]|]. left. split; [done|].
  intros r. cbn. rewrite elem_of_app. intros [Hr|Hr]; [specialize (H1 _ Hr)|specialize (H2 _ Hr)]; lia.
Qed.

Lemma kept_less : q ∈ m \/ m = [] /\ q = kept true false m1 m2 -> last_up_to K (m1 ++ m ++ m2) q.
Proof.
  intros [Hq|[Em ->]].
  - right. pose proof (H0 q Hq). split_and!; [set_solver|lia|part].
  - unfold kept. destruct (last m1) as [x|] eqn:Ex; cbn.
    + apply last_Some in Ex as [m1' Ex]. right. apply in_order_app in Hs as (Hs1 & _). subst m1.
      apply in_order_app in Hs1 as (_ & _ & Hx). assert (rank x < K) by (apply H1; set_solver).
      split_and!; [set_solver|lia|]. intros r. rewrite !elem_of_app. intros [[Hr|Hr]|[Hr|Hr]] Hle.
      * apply Hx; set_solver.
      * apply list_elem_of_singleton in Hr as ->. lia.
      * by subst m; apply not_elem_of_nil in Hr.
      * specialize (H2 _ Hr). lia.
    + apply last_None in Ex. left. split; [done|]. intros r. rewrite Em, Ex. apply H2.
Qed.

Lemma kept_greater : q ∈ m \/ m = [] /\ q = kept false true m1 m2 -> first_from K (m1 ++ m ++ m2) q.
Proof.
  intros [Hq|[Em ->]].
  - right. pose proof (H0 q Hq). split_and!; [set_solver|lia|part].
  - unfold kept. subst m. destruct m2 as [|x m2'] eqn:E2; cbn.
    + left. split; [done|]. rewrite app_nil_r. apply H1.
    + right. assert (K < rank x) by (apply H2; set_solver). apply in_order_app in Hs as (_ & Hs2 & _).
      cbn in Hs2. apply StronglySorted_cons in Hs2 as [Hx _]. rewrite Forall_forall in Hx.
      split_and!; [set_solver|lia|]. intros r. rewrite elem_of_app, elem_of_cons. intros [Hr|[->|Hr]] Hle; [|lia|by apply Hx].
      specialize (H1 _ Hr). lia.
Qed.

End Kept.

Lemma wp_find_ranked less greater p ps F h :
  stored h ps F -> in_order rank ps -> p ∈ pool -> (forall q, q ∈ ps -> q ∈ pool) -> less && greater = false ->
  wp (find_from_root call less greater sent p)
    (fun q h' => h' = h /\
       if less then last_up_to (rank p) ps q
       else if greater then first_from (rank p) ps q else of_rank (rank p) ps q) h.
Proof.
  intros Hst Hs Hp Hps Hside. destruct (in_order_around rank ps (rank p) Hs) as (m1 & m & m2 & -> & H1 & H0 & H2).
  rewrite Forall_forall in H1, H0, H2.
  assert (Hc : forall q, q ∈ m1 ++ m ++ m2 -> Z.sgn (call callback p q) = Z.sgn (rank p - rank q)) by auto.
  eapply (wp_find_from_root call p less greater); [done|exact Hst| |].
  - split; apply Forall_forall; intros q Hq; (assert (Hq' : q ∈ m1 ++ m ++ m2) by set_solver); specialize (Hc q Hq').
    + specialize (H1 q Hq). lia.
    + specialize (H0 q Hq). lia.
    + specialize (H2 q Hq). lia.
  - intros q Hq. split; [done|]. destruct less; [|destruct greater]; [|by apply kept_greater|by apply kept_none].
    destruct greater; [done|]. by apply kept_less.
Qed.

End Search.

(** ** The theorems *)

(** The loop that takes a tree apart, as the comment of
    [nxt_rbtree_destroy_next] prescribes it: the nodes in turn. *)
Fixpoint destroy_loop (fuel : nat) (tree next : ptr) : HN (list ptr) :=
  match fuel with
  | O => no_fuel
  | S fuel =>
      if next =? tree then
        hret []
      else
        let^ (node, next) := nxt_rbtree_destroy_next tree next in
        let^ rest := destroy_loop fuel tree next in
        hret (node :: rest)
  end.

Lemma wp_destroy_loop `{TR : Sentinel} fuel : forall next ps F h,
  (length ps < fuel)%nat -> destroying h next ps F ->
  wp (destroy_loop fuel sent next) (fun r _ => r = ps) h.
Proof.
  induction fuel as [|fuel IH]; intros next ps F h Hf Hd; [lia|]. cbn [destroy_loop].
  pose proof (destroying_end _ _ _ _ Hd) as He. destruct (Z.eqb_spec next sent) as [E|E].
  - apply wp_hret. by rewrite (proj1 He E).
  - destruct ps as [|y ps]; [destruct E; by apply He|]. apply wp_hbind.
    eapply wp_conseq; [by eapply wp_destroy_next|]. intros [node next'] h' [Hy [n Hd']]. cbn in Hy, Hd'. subst node.
    apply wp_hbind. eapply wp_conseq; [eapply IH; [|exact Hd']; cbn in Hf; lia|]. by intros r h2 ->.
Qed.

(** C24. A tree that is initialized in any memory and then changed by any
    sequence of insertions and deletions has exactly the nodes that are left,
    sorted by their rank and in the order of insertion for equal ranks; no call
    accesses anything but the sentinel and the nodes, every call returns, and
    the tree is balanced: its height is at most 2 log (n + 1). *)
Theorem nxt_rbtree_refines {TR : Sentinel} call rank pool n0 F0 ops ps h :
  holds h ((sent, n0) :: F0) -> F0.*1 = pool -> compares call rank pool ->
  reference rank ops [] = Some ps -> Forall (fun o => op_node o ∈ pool) ops ->
  wp (let^ _ := nxt_rbtree_init sent callback in run_ops call ops)
    (fun _ h' => in_order rank ps /\
       exists sp t F, at_place h' sp Top t F /\ inorder t = ps /\ ps ++ F.*1 ≡ₚ pool /\
         is_balanced t /\ (2 ^ height t <= (1 + length ps) ^ 2)%nat) h.
Proof.
  intros Hh Hpool Hcmp Href Hops. apply wp_hbind. eapply wp_conseq; [by eapply wp_init|].
  intros [] h1 Hst. eapply wp_conseq; [eapply (wp_run_ops call rank pool Hcmp ops []); [| |exact Href|done]|].
  - exists F0. split; [done|]. by rewrite <- Hpool.
  - constructor.
  - intros [] h2 [(F & (sp & t & Hh2 & <- & Hb & Hs) & Hp) Ho]. split; [done|].
    exists sp, t, F. split_and!; try done. by apply tree_height.
Qed.

(** C25. On a tree of the nodes [ps]: the first node and the successor of each
    node walk over [ps] and end at the sentinel; the three searches find a node
    of the rank of the key, the last up to it or the first from it on, and
    return NULL when there is none; none of them changes the heap. *)
Theorem nxt_rbtree_search_correct {TR : Sentinel} call rank pool ps F h :
  stored h ps F -> in_order rank ps -> compares call rank pool -> (forall q, q ∈ ps -> q ∈ pool) ->
  wp (nxt_rbtree_min sent) (fun q h' => h' = h /\ q = first ps) h /\
  (forall l1 p l2, ps = l1 ++ p :: l2 ->
     wp (nxt_rbtree_node_successor sent p) (fun q h' => h' = h /\ q = first l2) h) /\
  (forall p, p ∈ pool ->
     wp (nxt_rbtree_find call sent p) (fun q h' => h' = h /\ of_rank rank (rank p) ps q) h /\
     wp (nxt_rbtree_find_less_or_equal call sent p) (fun q h' => h' = h /\ last_up_to rank (rank p) ps q) h /\
     wp (nxt_rbtree_find_greater_or_equal call sent p) (fun q h' => h' = h /\ first_from rank (rank p) ps q) h).
Proof.
  intros Hst Ho Hcmp Hps. split_and!.
  - by eapply wp_min.
  - intros l1 p l2 ->. by eapply wp_successor.
  - intros p Hp. split_and!;
      [eapply (wp_find_ranked call rank pool Hcmp false false)|eapply (wp_find_ranked call rank pool Hcmp true false)
      |eapply (wp_find_ranked call rank pool Hcmp false true)]; eauto.
Qed.

(** Taking a tree apart with [nxt_rbtree_destroy_next] yields every node
    once, in their order, and then ends. *)
Theorem nxt_rbtree_destroy_correct {TR : Sentinel} ps F h :
  stored h ps F ->
  wp (let^ next := nxt_rbtree_root sent in destroy_loop (S (length ps)) sent next) (fun r _ => r = ps) h.
Proof.
  intros Hst. destruct (stored_destroying _ _ _ Hst) as (next & Hd & Hr). apply wp_hbind, Hr.
  eapply wp_destroy_loop; [|exact Hd]. lia.
Qed.

(** *** Examples *)

#[local] Instance sample : Sentinel := {| sent := 100; callback := 7 |}.

Definition tens (p : ptr) : Z := p / 10.

Definition by_tens (f a b : ptr) : Z := tens a - tens b.

Definition blank : nxt_rbtree_node := Node 0 0 0 0.

Definition sample_pool : list ptr := [10; 20; 30; 31; 40; 50; 60].

Definition sample_ops : list rb_op :=
  [Insert 30; Insert 10; Insert 60; Insert 40; Insert 31; Insert 20; Delete 10; Insert 50; Delete 30].

Definition sample_heap : gmap ptr nxt_rbtree_node := list_to_map ((fun p => (p, blank)) <$> (100 :: sample_pool)).

Lemma by_tens_compares : compares by_tens tens sample_pool.
Proof. done. Qed.

Lemma nxt_rbtree_refines_witness :
  wp (let^ _ := nxt_rbtree_init sent callback in run_ops by_tens sample_ops)
    (fun _ h' => in_order tens [20; 31; 40; 50; 60] /\
       exists sp t F, at_place h' sp Top t F /\ inorder t = [20; 31; 40; 50; 60] /\
         [20; 31; 40; 50; 60] ++ F.*1 ≡ₚ sample_pool /\
         is_balanced t /\ (2 ^ height t <= (1 + length [20; 31; 40; 50; 60]) ^ 2)%nat) sample_heap.
Proof.
  apply (nxt_rbtree_refines by_tens tens sample_pool blank ((fun p => (p, blank)) <$> sample_pool) sample_ops
           [20; 31; 40; 50; 60] sample_heap).
  - split; [apply (bool_decide_eq_true_1 (NoDup _)); vm_compute; reflexivity|].
    repeat (constructor; [reflexivity|]). constructor.
  - reflexivity.
  - exact by_tens_compares.
  - vm_compute. reflexivity.
  - repeat (constructor; [apply (bool_decide_eq_true_1 (_ ∈ _)); vm_compute; reflexivity|]). constructor.
Defined.

Definition three : tree := T NXT_RBTREE_BLACK (T NXT_RBTREE_RED E 10 E) 30 (T NXT_RBTREE_RED E 60 E).

Definition three_heap : gmap ptr nxt_rbtree_node := list_to_map (sentinel_cell 30 100 :: cells 100 three).

Lemma three_stored : stored three_heap [10; 30; 60] [].
Proof.
  exists 100, three. split_and!; [|done| |done].
  - split; [apply (bool_decide_eq_true_1 (NoDup _)); vm_compute; reflexivity|].
    repeat (constructor; [reflexivity|]). constructor.
  - exists 1%nat. cbn. right. split; [done|]. exists 0%nat. split_and!; [done|by left; split_and!..].
Qed.

Lemma nxt_rbtree_search_correct_witness :
  wp (nxt_rbtree_min sent) (fun q h' => h' = three_heap /\ q = first [10; 30; 60]) three_heap /\
  wp (nxt_rbtree_node_successor sent 30) (fun q h' => h' = three_heap /\ q = first [60]) three_heap /\
  wp (nxt_rbtree_find_less_or_equal by_tens sent 40)
    (fun q h' => h' = three_heap /\ last_up_to tens (tens 40) [10; 30; 60] q) three_heap.
Proof.
  destruct (nxt_rbtree_search_correct by_tens tens sample_pool [10; 30; 60] [] three_heap) as (Hmin & Hsucc & Hfind).
  - exact three_stored.
  - repeat constructor; done.
  - exact by_tens_compares.
  - unfold sample_pool. set_solver.
  - split_and!; [exact Hmin|exact (Hsucc [10] 30 [60] eq_refl)|].
    apply (Hfind 40). unfold sample_pool. set_solver.
Defined.

Lemma nxt_rbtree_destroy_correct_witness :
  wp (let^ next := nxt_rbtree_root sent in destroy_loop (S (length [10; 30; 60])) sent next) (fun r _ => r = [10; 30; 60]) three_heap.
Proof. exact (nxt_rbtree_destroy_correct [10; 30; 60] [] three_heap three_stored). Defined.
