(* ===== verification/Timer.v ===== *)
(** * Timers of an event engine: nxt_timer.c

    The timers of an engine are nodes of a red-black tree that is ordered by
    their times, which are milliseconds that wrap at 32 bits.  Additions and
    deletions are batched in the array of changes and are committed when the
    array is full and before the engine looks for the earliest timer. *)

From stdpp Require Import sorting.
From S2P Require Import Prelude Heap Rbtree RbInsert RbDelete RbWalk RbSpec.

#[local] Open Scope Z_scope.

Abbreviation NXT_TIMER_MAX_CHANGES := 16383 (only parsing).
Abbreviation NXT_TIMER_NO_CHANGE := 0 (only parsing).
Abbreviation NXT_INFINITE_MSEC := 4294967295 (only parsing).

(** ** State *)

(** The node of a timer is in the heap of nodes, at the address of the timer. *)
Record nxt_timer := Timer {
  bias : Z;
  change : Z;
  enabled : bool;
  queued : bool;
  time : Z
}.

Inductive nxt_timer_operation := NXT_TIMER_NOPE | NXT_TIMER_ADD | NXT_TIMER_DELETE.

Record nxt_timer_change_t := Change {
  ch_change : nxt_timer_operation;
  ch_time : Z;
  ch_timer : ptr
}.

(** The members of an event engine that timers use: the nodes and the timers by
    address, [nxt_timers_t], and the timers whose handler waits in a work
    queue. *)
Record engine := Engine {
  nodes : gmap ptr nxt_rbtree_node;
  timers : gmap ptr nxt_timer;
  now : Z;
  minimum : Z;
  mchanges : Z;
  nchanges : Z;
  changes : list nxt_timer_change_t;
  works : list ptr
}.

Abbreviation M := (ST engine).

Definition get : M engine := fun e => Ret (e, e).

Definition set_nodes (h : gmap ptr nxt_rbtree_node) (e : engine) : engine :=
  Engine h (timers e) (now e) (minimum e) (mchanges e) (nchanges e) (changes e) (works e).
Definition set_timers (t : gmap ptr nxt_timer) (e : engine) : engine :=
  Engine (nodes e) t (now e) (minimum e) (mchanges e) (nchanges e) (changes e) (works e).
Definition set_now (v : Z) (e : engine) : engine :=
  Engine (nodes e) (timers e) v (minimum e) (mchanges e) (nchanges e) (changes e) (works e).
Definition set_minimum (v : Z) (e : engine) : engine :=
  Engine (nodes e) (timers e) (now e) v (mchanges e) (nchanges e) (changes e) (works e).
Definition set_nchanges (v : Z) (e : engine) : engine :=
  Engine (nodes e) (timers e) (now e) (minimum e) (mchanges e) v (changes e) (works e).
Definition set_changes (l : list nxt_timer_change_t) (e : engine) : engine :=
  Engine (nodes e) (timers e) (now e) (minimum e) (mchanges e) (nchanges e) l (works e).
Definition set_works (l : list ptr) (e : engine) : engine :=
  Engine (nodes e) (timers e) (now e) (minimum e) (mchanges e) (nchanges e) (changes e) l.

Definition update (f : engine -> engine) : M unit := fun e => Ret (tt, f e).

(** Code on the nodes. *)
Definition on_nodes {A} (m : HN A) : M A :=
  fun e => let* (a, h) := m (nodes e) in Ret (a, set_nodes h e).

Definition get_timer (p : ptr) : M nxt_timer :=
  fun e => match timers e !! p with Some t => Ret (t, e) | None => Fault end.

Definition set_timer (p : ptr) (f : nxt_timer -> nxt_timer) : M unit :=
  fun e => match timers e !! p with Some t => Ret (tt, set_timers (<[p := f t]> (timers e)) e) | None => Fault end.

Definition with_change (v : Z) (t : nxt_timer) : nxt_timer := Timer (bias t) v (enabled t) (queued t) (time t).
Definition with_enabled (v : bool) (t : nxt_timer) : nxt_timer := Timer (bias t) (change t) v (queued t) (time t).
Definition with_queued (v : bool) (t : nxt_timer) : nxt_timer := Timer (bias t) (change t) (enabled t) v (time t).
Definition with_time (v : Z) (t : nxt_timer) : nxt_timer := Timer (bias t) (change t) (enabled t) (queued t) v.

(** An element of the array of changes; an access outside of it is a fault. *)
Definition get_change (i : Z) : M nxt_timer_change_t :=
  fun e => if (0 <=? i) then match changes e !! Z.to_nat i with Some c => Ret (c, e) | None => Fault end else Fault.

Definition set_change (i : Z) (c : nxt_timer_change_t) : M unit :=
  fun e => if (0 <=? i) && (i <? Z.of_nat (length (changes e)))
           then Ret (tt, set_changes (<[Z.to_nat i := c]> (changes e)) e) else Fault.

(** ** The operations *)

Section Timers.
Context {TR : Sentinel}.

Definition nxt_msec_diff (m1 m2 : Z) : Z := s32 (m1 - m2).

(** [nxt_timer_rbtree_compare] on the timers [ts]. *)
Definition nxt_timer_rbtree_compare (ts : gmap ptr nxt_timer) (f node1 node2 : ptr) : Z :=
  match ts !! node1, ts !! node2 with
  | Some timer1, Some timer2 => nxt_msec_diff (time timer1) (time timer2)
  | _, _ => 0
  end.

(** [found] says whether the array of changes was allocated; its elements are
    not initialized. *)
Definition nxt_timers_init (max : Z) (found : bool) (garbage : nxt_timer_change_t) (e : engine) :
    outcome (Z * engine) :=
  let* (_, h) := nxt_rbtree_init sent callback (nodes e) in
  let max := if NXT_TIMER_MAX_CHANGES <? max then NXT_TIMER_MAX_CHANGES else max in
  let e' := Engine h (timers e) (now e) (minimum e) max (nchanges e) [] (works e) in
  if found then Ret (0, set_changes (replicate (Z.to_nat max) garbage) e') else Ret (-1, e').

Definition nxt_timer_is_in_tree (timer : ptr) : M bool :=
  let^ parent := on_nodes (get_parent timer) in
  hret (negb (parent =? NULL)).

Definition nxt_timer_in_tree_clear (timer : ptr) : M unit := on_nodes (set_parent timer NULL).

(** The first loop of [nxt_timer_changes_commit], from the change [ch] with
    [add_end] additions kept at the beginning of the array. *)
Fixpoint commit_loop (n : nat) (ch add_end : Z) : M Z :=
  match n with
  | O => hret add_end
  | S n =>
      let^ c := get_change ch in
      let timer := ch_timer c in
      let delete :=
        let^ _ := on_nodes (nxt_rbtree_delete sent timer) in
        nxt_timer_in_tree_clear timer in
      let^ add_end :=
        (match ch_change c with
         | NXT_TIMER_NOPE => hret add_end
         | NXT_TIMER_ADD =>
             let^ _ := set_timer timer (with_time (ch_time c)) in
             let^ a := get_change add_end in
             let^ _ := set_change add_end (Change (ch_change a) (ch_time a) timer) in
             let^ b := nxt_timer_is_in_tree timer in
             let^ _ := (if b then delete else hret tt) in
             hret (add_end + 1)
         | NXT_TIMER_DELETE =>
             let^ _ := delete in
             hret add_end
         end) in
      let^ _ := set_timer timer (with_change NXT_TIMER_NO_CHANGE) in
      commit_loop n (ch + 1) add_end
  end.

(** The second loop, from the addition [add]. *)
Fixpoint commit_adds (n : nat) (add : Z) : M unit :=
  match n with
  | O => hret tt
  | S n =>
      let^ a := get_change add in
      let^ e := get in
      let^ _ := on_nodes (nxt_rbtree_insert (nxt_timer_rbtree_compare (timers e)) sent (ch_timer a)) in
      commit_adds n (add + 1)
  end.

Definition nxt_timer_changes_commit : M unit :=
  let^ e := get in
  let^ add_end := commit_loop (Z.to_nat (nchanges e)) 0 0 in
  let^ _ := commit_adds (Z.to_nat add_end) 0 in
  update (set_nchanges 0).

Definition nxt_timer_change (timer : ptr) (op : nxt_timer_operation) (tm : Z) : M unit :=
  let^ t := get_timer timer in
  let put :=
    let^ t := get_timer timer in
    set_change (change t - 1) (Change op tm timer) in
  if change t =? NXT_TIMER_NO_CHANGE then
    match op with
    | NXT_TIMER_NOPE => hret tt
    | _ =>
        let^ e := get in
        let^ _ := (if mchanges e <=? nchanges e then nxt_timer_changes_commit else hret tt) in
        let^ _ := update (fun e => set_nchanges (nchanges e + 1) e) in
        let^ e := get in
        let^ _ := set_timer timer (with_change (nchanges e mod 2 ^ 14)) in
        put
    end
  else put.

Definition nxt_timer_add (timer : ptr) (timeout : Z) : M unit :=
  let^ e := get in
  let tm := u32 (now e + timeout) in
  let^ _ := set_timer timer (with_enabled true) in
  let^ b := nxt_timer_is_in_tree timer in
  let^ t := get_timer timer in
  if b && (Z.abs (nxt_msec_diff tm (time t)) <=? bias t) then
    nxt_timer_change timer NXT_TIMER_NOPE 0
  else
    nxt_timer_change timer NXT_TIMER_ADD tm.

Definition nxt_timer_delete (timer : ptr) : M bool :=
  let^ _ := set_timer timer (with_enabled false) in
  let^ b := nxt_timer_is_in_tree timer in
  if b then
    let^ _ := nxt_timer_change timer NXT_TIMER_DELETE 0 in
    hret true
  else
    let^ _ := nxt_timer_change timer NXT_TIMER_NOPE 0 in
    let^ t := get_timer timer in
    hret (queued t || negb (change t =? NXT_TIMER_NO_CHANGE)).

Definition nxt_timer_disable (timer : ptr) : M unit := set_timer timer (with_enabled false).

(** The loop of [nxt_timer_find] from [node]. *)
Fixpoint find_timer (fuel : nat) (node : ptr) : M Z :=
  match fuel with
  | O => no_fuel
  | S fuel =>
      if nxt_rbtree_is_there_successor sent node then
        let^ next := on_nodes (nxt_rbtree_node_successor sent node) in
        let^ t := get_timer node in
        if enabled t then
          let^ e := get in
          let^ _ := update (set_minimum (u32 (time t - bias t))) in
          let delta := nxt_msec_diff (time t) (now e) in
          hret (u32 (Z.max delta 0))
        else
          find_timer fuel next
      else
        let^ e := get in
        let^ _ := update (set_minimum (u32 (now e + 24 * 60 * 60 * 1000))) in
        hret NXT_INFINITE_MSEC
  end.

Definition nxt_timer_find : M Z :=
  let^ e := get in
  let^ _ := (if negb (nchanges e =? 0) then nxt_timer_changes_commit else hret tt) in
  let^ node := on_nodes (nxt_rbtree_min sent) in
  let^ e := get in
  find_timer (S (size (nodes e))) node.

(** The loop of [nxt_timer_expire] from [node]. *)
Fixpoint expire_loop (fuel : nat) (node : ptr) : M unit :=
  match fuel with
  | O => no_fuel
  | S fuel =>
      if nxt_rbtree_is_there_successor sent node then
        let^ t := get_timer node in
        let^ e := get in
        if bias t <? nxt_msec_diff (time t) (now e) then
          hret tt
        else
          let^ next := on_nodes (nxt_rbtree_node_successor sent node) in
          let^ _ := on_nodes (nxt_rbtree_delete sent node) in
          let^ _ := nxt_timer_in_tree_clear node in
          let^ _ :=
            (if enabled t then
               let^ _ := set_timer node (with_queued true) in
               update (fun e => set_works (works e ++ [node]) e)
             else hret tt) in
          expire_loop fuel next
      else
        hret tt
  end.

Definition nxt_timer_expire (time : Z) : M unit :=
  let^ _ := update (set_now time) in
  let^ e := get in
  if 0 <? nxt_msec_diff (minimum e) time then
    hret tt
  else
    let^ node := on_nodes (nxt_rbtree_min sent) in
    let^ e := get in
    expire_loop (S (size (nodes e))) node.

(** Whether the timer's own handler is called. *)
Definition nxt_timer_handler (timer : ptr) : M bool :=
  let^ _ := set_timer timer (with_queued false) in
  let^ t := get_timer timer in
  if enabled t && (change t =? NXT_TIMER_NO_CHANGE) then
    let^ _ := set_timer timer (with_enabled false) in
    hret true
  else
    hret false.

End Timers.
