(* ===== verification/TimerCommit.v ===== *)
(** * Committing the changes of timers

    The invariant that ties the tree of timers, the array of changes and the
    times for which timers are scheduled, and that a commit preserves it and
    leaves nothing to commit. *)

From stdpp Require Import sorting.
From S2P Require Import Prelude Heap Rbtree RbInsert RbDelete RbWalk RbSpec Timer.

#[local] Open Scope Z_scope.

(** ** Time

    Times are unbounded integers; the code keeps them modulo 2^32, and compares
    them rightly when they are less than half the range apart. *)

Abbreviation window := (2 ^ 30) (only parsing).

Definition near (N D : Z) : Prop := Z.abs (D - N) < window.

Lemma msec_diff_u32 a b : - 2 ^ 31 <= a - b < 2 ^ 31 -> nxt_msec_diff (u32 a) (u32 b) = a - b.
Proof. unfold nxt_msec_diff, u32, s32. intros H. dlia. Qed.

Lemma near_diff N a b : near N a -> near N b -> nxt_msec_diff (u32 a) (u32 b) = a - b.
Proof. unfold near. intros Ha Hb. apply msec_diff_u32. lia. Qed.

(** ** Code on the nodes of an engine *)

Lemma wp_on_nodes {A} (m : HN A) Q e :
  wp m (fun a h => Q a (set_nodes h e)) (nodes e) -> wp (on_nodes m) Q e.
Proof. unfold wp, on_nodes. by destruct (m (nodes e)) as [[a h]| |]. Qed.

Lemma wp_get Q e : Q e e -> wp get Q e.
Proof. done. Qed.

Lemma wp_update f Q e : Q tt (f e) -> wp (update f) Q e.
Proof. done. Qed.

Lemma wp_get_timer p t Q e : timers e !! p = Some t -> Q t e -> wp (get_timer p) Q e.
Proof. intros E HQ. unfold wp, get_timer. by rewrite E. Qed.

Lemma wp_set_timer p f t Q e :
  timers e !! p = Some t -> Q tt (set_timers (<[p := f t]> (timers e)) e) -> wp (set_timer p f) Q e.
Proof. intros E HQ. unfold wp, set_timer. by rewrite E. Qed.

Lemma wp_get_change i c Q e :
  0 <= i -> changes e !! Z.to_nat i = Some c -> Q c e -> wp (get_change i) Q e.
Proof. intros Hi E HQ. unfold wp, get_change. rewrite (proj2 (Z.leb_le _ _) Hi), E. done. Qed.

Lemma wp_set_change i c Q e :
  0 <= i < Z.of_nat (length (changes e)) ->
  Q tt (set_changes (<[Z.to_nat i := c]> (changes e)) e) -> wp (set_change i c) Q e.
Proof.
  intros Hi HQ. unfold wp, set_change. rewrite (proj2 (Z.leb_le _ _)), (proj2 (Z.ltb_lt _ _)) by lia. done.
Qed.

Section Tree.
Context {TR : Sentinel}.

(** The timers of the tree are [ps]; the nodes of the others are not linked. *)
Definition in_tree (e : engine) (ps : list ptr) : Prop :=
  sent <> NULL /\ timers e !! NULL = None /\
  exists F, stored (nodes e) ps F /\ (forall p, is_Some (timers e !! p) <-> p ∈ ps \/ p ∈ F.*1) /\
    (forall p n, (p, n) ∈ F -> parent n = NULL).

Lemma stored_parent h ps F p :
  stored h ps F -> p ∈ ps -> exists n, h !! p = Some n /\ parent n ∈ sent :: ps.
Proof.
  intros (sp & t & Hh & Hi & [m Hb] & Hs) Hp. apply list_elem_of_split in Hp as (l1 & l2 & ->).
  destruct (place_of t m Top l1 p l2) as (m' & k & c & l & r & Hpl & Hplug & Hb1 & Ha1); [by split_and!; [..|left]|done|].
  cbn in Hplug. rewrite <- Hi, <- Hplug. rewrite <- Hplug, <- go_top in Hh. exists (Node (root l) (root r) (above k) c). split.
  - unfold at_place in Hh. cbn in Hh. eapply holds_lookup; [exact Hh|find_cell].
  - cbn. destruct k as [|d x s k|d s x k]; cbn; [left|right; rewrite inorder_plug; cbn; set_solver..].
Qed.

Lemma stored_frame h ps F p n : stored h ps F -> (p, n) ∈ F -> h !! p = Some n.
Proof.
  intros (sp & t & [_ Hf] & _) Hp. rewrite Forall_forall in Hf. apply (Hf (p, n)). set_solver.
Qed.

Lemma wp_is_in_tree e ps p Q :
  in_tree e ps -> is_Some (timers e !! p) -> Q (bool_decide (p ∈ ps)) e -> wp (nxt_timer_is_in_tree p) Q e.
Proof.
  intros (Hs0 & H0 & F & Hst & Hdom & HF) Hp HQ. apply wp_hbind, wp_on_nodes.
  assert (Hn : exists n, nodes e !! p = Some n /\ (parent n = NULL <-> p ∉ ps)).
  { pose proof Hp as Hp'. apply Hdom in Hp' as [Hin|Hin].
    - destruct (stored_parent _ _ _ _ Hst Hin) as (n & En & Hpar). exists n. split; [done|]. split; [|done].
      intros E0. rewrite E0 in Hpar. apply elem_of_cons in Hpar as [Hpar|Hpar]; [done|].
      destruct (proj2 (Hdom NULL)) as [t Ht]; [by left|congruence].
    - apply list_elem_of_fmap in Hin as ([q n] & -> & Hin). exists n. cbn.
      split; [by eapply stored_frame|]. split; [|intros _; by eapply HF].
      intros _ Hq. destruct Hst as (sp & u & [Hd _] & <- & _). cbn in Hd. apply NoDup_cons in Hd as [_ Hd].
      rewrite fmap_app, keys_cells in Hd. apply NoDup_app in Hd as (_ & Hd & _). apply (Hd q Hq).
      apply list_elem_of_fmap. by exists (q, n). }
  destruct Hn as (n & En & Hn). unfold wp, get_parent, hbind, load. rewrite En. cbn.
  replace (negb (parent n =? 0)) with (bool_decide (p ∈ ps)); [by destruct e|].
  destruct (Z.eqb_spec (parent n) 0) as [E|E]; cbn; [apply bool_decide_eq_false|apply bool_decide_eq_true]; [by apply Hn|].
  destruct (decide (p ∈ ps)) as [|Hnp]; [done|]. by apply Hn in Hnp.
Qed.

Lemma in_tree_timers e ps ts :
  in_tree e ps -> (forall p, is_Some (ts !! p) <-> is_Some (timers e !! p)) -> in_tree (set_timers ts e) ps.
Proof.
  intros (Hs0 & H0 & F & Hst & Hdom & HF) Hts. split_and!; [done| |].
  - cbn. apply eq_None_not_Some. rewrite Hts, H0. by intros [? [=]].
  - exists F. cbn. split_and!; [done| |done]. intros p. by rewrite Hts.
Qed.

Lemma in_tree_insert e ps p t : in_tree e ps -> is_Some (timers e !! p) -> in_tree (set_timers (<[p := t]> (timers e)) e) ps.
Proof.
  intros Hin Hp. apply in_tree_timers; [done|]. intros q. rewrite lookup_insert_is_Some.
  destruct (decide (p = q)) as [->|]; naive_solver.
Qed.

Lemma in_tree_timer e ps p : in_tree e ps -> p ∈ ps -> is_Some (timers e !! p).
Proof. intros (_ & _ & F & _ & Hdom & _) Hp. apply Hdom. by left. Qed.

Lemma in_tree_nodup e ps : in_tree e ps -> NoDup (sent :: ps).
Proof. intros (_ & _ & F & Hst & _). by eapply stored_nodup. Qed.

(** [nxt_rbtree_delete] and [nxt_timer_in_tree_clear]. *)
Lemma wp_remove e l1 p l2 Q :
  in_tree e (l1 ++ p :: l2) ->
  (forall h, in_tree (set_nodes h e) (l1 ++ l2) -> Q tt (set_nodes h e)) ->
  wp (let^ _ := on_nodes (nxt_rbtree_delete sent p) in nxt_timer_in_tree_clear p) Q e.
Proof.
  intros (Hs0 & H0 & F & Hst & Hdom & HF) HQ. apply wp_hbind, wp_on_nodes.
  eapply wp_conseq; [by eapply wp_delete|]. intros [] h [n Hst'].
  apply wp_on_nodes. cbn. destruct Hst' as (sp & t & Hh & Ht).
  eapply (wp_modify p _ n); [exact Hh|cbn; find_cell|]. intros h2 Hh2. apply (HQ h2). split_and!; [done|done|].
  exists ((p, Node (left n) (right n) NULL (color n)) :: F). split_and!.
  - exists sp, t. split; [exact Hh2|done].
  - intros q. cbn. rewrite Hdom. set_solver.
  - intros q n' [[= -> ->]|Hq]%elem_of_cons; [done|by eapply HF].
Qed.

(** The timers in the tree in the order of [due], without wrap-around. *)
Definition due_in (e : engine) (ps : list ptr) (due : ptr -> Z) (N : Z) : Prop :=
  in_order due ps /\
  forall p, p ∈ ps -> near N (due p) /\ exists t, timers e !! p = Some t /\ time t = u32 (due p).

Lemma wp_insert_timer e ps due N p t D Q :
  in_tree e ps -> due_in e ps due N -> timers e !! p = Some t -> p ∉ ps ->
  time t = u32 D -> due p = D -> near N D ->
  (forall h, in_tree (set_nodes h e) (insert_ranked due p ps) -> Q tt (set_nodes h e)) ->
  wp (on_nodes (nxt_rbtree_insert (nxt_timer_rbtree_compare (timers e)) sent p)) Q e.
Proof.
  intros (Hs0 & H0 & F & Hst & Hdom & HF) [Ho Hdue] Ht Hp Htime HD Hnear HQ. apply wp_on_nodes.
  assert (HpF : p ∈ F.*1) by (destruct (proj1 (Hdom p)); [by eexists|done|done]).
  apply list_elem_of_fmap in HpF as ([q n] & -> & HpF). apply elem_of_Permutation in HpF as [F' HF'].
  apply (stored_perm _ _ _ _ HF') in Hst. cbn in *.
  assert (Hcmp : forall r, r ∈ ps -> goes_left (nxt_timer_rbtree_compare (timers e)) q r <-> due q < due r).
  { intros r Hr. destruct (Hdue r Hr) as (Hnr & tr & Etr & Htr). unfold goes_left, nxt_timer_rbtree_compare.
    rewrite Ht, Etr, Htime, Htr, (near_diff N) by done. lia. }
  destruct (insert_ranked_split due q ps Ho) as (l1 & l2 & -> & Hins & H1 & H2). rewrite Forall_forall in H1, H2.
  eapply wp_conseq; [eapply wp_insert; [exact Hst|..]; apply Forall_forall; intros r Hr|].
  - rewrite Hcmp by set_solver. specialize (H1 r Hr). lia.
  - rewrite Hcmp by set_solver. auto.
  - intros [] h Hst'. apply (HQ h). rewrite Hins. split_and!; [done|done|]. exists F'. split_and!; [done| |].
    + intros r. cbn. rewrite Hdom, HF'. set_solver.
    + intros r n' Hr. apply (HF r). rewrite HF'. set_solver.
Qed.

(** ** The timers and their changes

    [sched] says when the timers are due, with the changes that wait taken into
    account; [due] is the time of the timers in the tree.  The changes before
    [i] have been committed but for the additions, which are of the timers [A]. *)

Definition placed_at (sched : gmap ptr Z) (ps : list ptr) (due : ptr -> Z) (p : ptr) : Prop :=
  sched !! p = if decide (p ∈ ps) then Some (due p) else None.

Definition soon (N : Z) (sched : gmap ptr Z) (p : ptr) (tm : Z) : Prop :=
  exists D, sched !! p = Some D /\ tm = u32 D /\ near N D.

Definition means (N : Z) (sched : gmap ptr Z) (ps : list ptr) (due : ptr -> Z) (p : ptr) (c : nxt_timer_change_t) : Prop :=
  match ch_change c with
  | NXT_TIMER_NOPE => placed_at sched ps due p
  | NXT_TIMER_ADD => soon N sched p (ch_time c)
  | NXT_TIMER_DELETE => p ∈ ps /\ sched !! p = None
  end.

Definition accounted (e : engine) (N : Z) sched ps due (i : Z) (A : list ptr) (p : ptr) (t : nxt_timer) : Prop :=
  if change t =? 0 then
    if decide (p ∈ A) then p ∉ ps /\ soon N sched p (time t) else placed_at sched ps due p
  else
    i < change t <= nchanges e /\ p ∉ A /\
    exists c, changes e !! Z.to_nat (change t - 1) = Some c /\ ch_timer c = p /\ means N sched ps due p c.

Record consistent (e : engine) (N : Z) (sched : gmap ptr Z) (ps : list ptr) (due : ptr -> Z) (i : Z) (A : list ptr) : Prop := {
  c_tree : in_tree e ps;
  c_due : due_in e ps due N;
  c_size : Z.of_nat (length (changes e)) = mchanges e;
  c_max : 1 <= mchanges e <= NXT_TIMER_MAX_CHANGES;
  c_count : 0 <= i <= nchanges e /\ nchanges e <= mchanges e;
  c_live : forall j, i <= j < nchanges e -> exists c t,
    changes e !! Z.to_nat j = Some c /\ timers e !! ch_timer c = Some t /\ change t = j + 1;
  c_timers : forall p t, timers e !! p = Some t -> accounted e N sched ps due i A p t;
  c_sched : forall p, is_Some (sched !! p) -> is_Some (timers e !! p);
  c_adds : ch_timer <$> take (length A) (changes e) = A;
  c_known : forall p, p ∈ A -> is_Some (timers e !! p);
  c_nodup : NoDup A;
  c_len : Z.of_nat (length A) <= i
}.

Record status := Status { slack : Z; on : bool; waiting : bool }.

Definition flags (t : nxt_timer) : status := Status (bias t) (enabled t) (queued t).

(** What a commit leaves as it is. *)
Definition steady (e e' : engine) : Prop :=
  flags <$> timers e' = flags <$> timers e /\ works e' = works e /\ now e' = now e /\
  minimum e' = minimum e /\ mchanges e' = mchanges e.

#[global] Instance steady_preorder : PreOrder steady.
Proof. split; [by intros e|]. unfold steady. intros e1 e2 e3. naive_solver congruence. Qed.

Lemma flags_insert (ts : gmap ptr nxt_timer) p t t' :
  ts !! p = Some t -> flags t' = flags t -> flags <$> <[p := t']> ts = flags <$> ts.
Proof. intros E Ef. rewrite fmap_insert, Ef. apply insert_id. by rewrite lookup_fmap, E. Qed.

(** A change is committed. *)
Lemma consistent_step e e' N sched ps ps' due i A A' c t t' :
  consistent e N sched ps due i A -> i < nchanges e -> changes e !! Z.to_nat i = Some c ->
  timers e !! ch_timer c = Some t -> timers e' = <[ch_timer c := t']> (timers e) -> change t' = 0 ->
  in_tree e' ps' -> in_order due ps' -> (forall q, q <> ch_timer c -> q ∈ ps' <-> q ∈ ps) ->
  (ch_timer c ∈ ps' -> ch_timer c ∈ ps /\ time t' = time t) ->
  length (changes e') = length (changes e) -> mchanges e' = mchanges e -> nchanges e' = nchanges e ->
  (forall j, (Z.to_nat i < j)%nat -> changes e' !! j = changes e !! j) ->
  ch_timer <$> take (length A') (changes e') = A' ->
  A' = A \/ A' = A ++ [ch_timer c] ->
  (if decide (ch_timer c ∈ A') then ch_timer c ∉ ps' /\ soon N sched (ch_timer c) (time t')
   else placed_at sched ps' due (ch_timer c)) ->
  consistent e' N sched ps' due (i + 1) A'.
Proof.
  intros [] Hi Ec Et Ets Hch Htree Hord Hps Hp Hlen Hm Hn Hj Hadds HA Hacc.
  assert (HpA : ch_timer c ∉ A /\ change t = i + 1).
  { destruct (c_live0 i) as (c' & t1 & Ec' & Et1 & Hch1); [lia|]. simplify_eq.
    pose proof (c_timers0 _ _ Et) as Hacc'. unfold accounted in Hacc'. destruct (Z.eqb_spec (change t) 0); [lia|]. naive_solver. }
  destruct HpA as [HpA Hcht]. constructor; try done; try congruence; try lia.
  - split; [done|]. intros q Hq. rewrite Ets. destruct (decide (q = ch_timer c)) as [->|Hne].
    + destruct (Hp Hq) as [Hq' Htt]. destruct c_due0 as [_ Hd]. destruct (Hd _ Hq') as (Hnr & t1 & Et1 & Ht1).
      simplify_eq. split; [done|]. exists t'. rewrite lookup_insert. split; [by rewrite decide_True|congruence].
    + apply Hps in Hq; [|done]. destruct c_due0 as [_ Hd]. rewrite lookup_insert_ne by done. by apply Hd.
  - intros j Hj'. rewrite Hn in Hj'. destruct (c_live0 j) as (cj & tj & Ecj & Etj & Hchj); [lia|]. exists cj, tj.
    split_and!; [by rewrite Hj by lia| |done]. rewrite Ets, lookup_insert_ne; [done|]. intros Heq.
    rewrite <- Heq in Etj. simplify_eq. lia.
  - intros q tq Etq. rewrite Ets in Etq. destruct (decide (q = ch_timer c)) as [->|Hne].
    + rewrite lookup_insert, decide_True in Etq by done. simplify_eq. unfold accounted. by rewrite Hch.
    + rewrite lookup_insert_ne in Etq by done. pose proof (c_timers0 _ _ Etq) as Hacc'. unfold accounted, placed_at, means in *.
      assert (HqA : q ∈ A' <-> q ∈ A) by (destruct HA as [->| ->]; set_solver).
      specialize (Hps q Hne). destruct (Z.eqb_spec (change tq) 0).
      * repeat case_decide; naive_solver.
      * destruct Hacc' as (Hrange & HnA & cq & Ecq & Hcq & Hmean). rewrite Hn. split_and!; [|lia|naive_solver|].
        { destruct (decide (change tq = i + 1)) as [Heq|]; [|lia]. exfalso. apply Hne.
          replace (change tq - 1) with i in Ecq by lia. congruence. }
        exists cq. split_and!; [|done|].
        { destruct (decide (change tq = i + 1)) as [Heq|]; [|rewrite Hj by lia; done].
          exfalso. apply Hne. replace (change tq - 1) with i in Ecq by lia. congruence. }
        destruct (ch_change cq); unfold placed_at in *; repeat case_decide; naive_solver.
  - intros q Hq. rewrite Ets. apply lookup_insert_is_Some'. right. auto.
  - intros q Hq. rewrite Ets. apply lookup_insert_is_Some. destruct (decide (ch_timer c = q)); [by left|right].
    split; [done|]. apply c_known0. destruct HA as [->| ->]; set_solver.
  - destruct HA as [->| ->]; [done|]. apply NoDup_app. split_and!; [done|set_solver|apply NoDup_singleton].
  - destruct HA as [->| ->]; [lia|]. rewrite length_app. cbn. lia.
Qed.

(** ** Committing the changes *)

Lemma in_order_remove (rank : ptr -> Z) l1 p l2 : in_order rank (l1 ++ p :: l2) -> in_order rank (l1 ++ l2).
Proof.
  rewrite !in_order_app. intros (H1 & [_ H2]%StronglySorted_cons & H3). split_and!; [done..|].
  intros q r Hq Hr. apply H3; set_solver.
Qed.

Lemma removed_nodup (p : ptr) l1 l2 : NoDup (l1 ++ p :: l2) -> p ∉ l1 ++ l2.
Proof. rewrite NoDup_app, NoDup_cons. set_solver. Qed.

Lemma adds_snoc (cs : list nxt_timer_change_t) A c :
  ch_timer <$> take (length A) cs = A -> (length A < length cs)%nat ->
  ch_timer <$> take (length (A ++ [ch_timer c])) (<[length A := c]> cs) = A ++ [ch_timer c].
Proof.
  intros HA Hlt. rewrite length_app. cbn. rewrite Nat.add_1_r.
  rewrite (take_S_r _ _ c) by (rewrite list_lookup_insert, decide_True; done).
  rewrite take_insert_ge by lia. rewrite fmap_app, HA. done.
Qed.

(** A timer is taken out of the tree if it is there. *)
Lemma wp_unlink_timer e ps due p (b : bool) Q :
  in_tree e ps -> in_order due ps -> b = bool_decide (p ∈ ps) ->
  (forall h ps', in_tree (set_nodes h e) ps' -> in_order due ps' -> p ∉ ps' ->
     (forall q, q <> p -> q ∈ ps' <-> q ∈ ps) -> Q tt (set_nodes h e)) ->
  wp (if b then let^ _ := on_nodes (nxt_rbtree_delete sent p) in nxt_timer_in_tree_clear p else hret tt) Q e.
Proof.
  intros Hin Ho -> HQ. case_bool_decide as Hp.
  - apply list_elem_of_split in Hp as (l1 & l2 & ->). eapply wp_remove; [exact Hin|]. intros h Hin'.
    pose proof (in_tree_nodup _ _ Hin) as [_ Hnd]%NoDup_cons.
    eapply HQ; [exact Hin'|by eapply in_order_remove|by apply removed_nodup|set_solver].
  - apply wp_hret. replace e with (set_nodes (nodes e) e) by by destruct e. eapply HQ; [by destruct e|done..].
Qed.

(** One change, before the timer is marked as not changed. *)
Lemma wp_commit_one e N sched ps due i A c t :
  consistent e N sched ps due i A -> i < nchanges e ->
  changes e !! Z.to_nat i = Some c -> timers e !! ch_timer c = Some t -> change t = i + 1 ->
  let delete :=
    let^ _ := on_nodes (nxt_rbtree_delete sent (ch_timer c)) in
    nxt_timer_in_tree_clear (ch_timer c) in
  wp (match ch_change c with
      | NXT_TIMER_NOPE => hret (Z.of_nat (length A))
      | NXT_TIMER_ADD =>
          let^ _ := set_timer (ch_timer c) (with_time (ch_time c)) in
          let^ a := get_change (Z.of_nat (length A)) in
          let^ _ := set_change (Z.of_nat (length A)) (Change (ch_change a) (ch_time a) (ch_timer c)) in
          let^ b := nxt_timer_is_in_tree (ch_timer c) in
          let^ _ := (if b then delete else hret tt) in
          hret (Z.of_nat (length A) + 1)
      | NXT_TIMER_DELETE =>
          let^ _ := delete in
          hret (Z.of_nat (length A))
      end)
    (fun n e1 => exists t1 ps' A', n = Z.of_nat (length A') /\ timers e1 !! ch_timer c = Some t1 /\
       consistent (set_timers (<[ch_timer c := with_change NXT_TIMER_NO_CHANGE t1]> (timers e1)) e1) N sched ps' due (i + 1) A' /\
       steady e e1 /\ nchanges e1 = nchanges e) e.
Proof.
  intros Hc Hi Ec Et Hch delete. pose proof Hc as [].
  pose proof (c_timers0 _ _ Et) as Hacc. unfold accounted in Hacc.
  destruct (Z.eqb_spec (change t) 0); [lia|]. destruct Hacc as (_ & HpA & c' & Ec' & _ & Hmean).
  replace (change t - 1) with i in Ec' by lia. simplify_eq. pose proof c_due0 as [Hord Hdue].
  unfold means in Hmean. destruct (ch_change c) eqn:Eop.
  - apply wp_hret. exists t, ps, A. split_and!; [done..| |done|done].
    eapply (consistent_step e); try done; [by apply in_tree_insert|by left|]. by rewrite decide_False.
  - apply wp_hbind. eapply wp_set_timer; [exact Et|].
    destruct (lookup_lt_is_Some_2 (changes e) (length A)) as [a Ea]; [lia|].
    apply wp_hbind. eapply wp_get_change; [lia|rewrite Nat2Z.id; exact Ea|].
    apply wp_hbind, wp_set_change; [cbn; lia|]. rewrite Nat2Z.id. cbn [changes set_timers].
    assert (Hin1 : in_tree (set_changes (<[length A:=Change (ch_change a) (ch_time a) (ch_timer c)]> (changes e))
      (set_timers (<[ch_timer c:=with_time (ch_time c) t]> (timers e)) e)) ps) by by apply (in_tree_insert e).
    apply wp_hbind. eapply wp_is_in_tree; [exact Hin1|cbn; by rewrite lookup_insert, decide_True|].
    apply wp_hbind. eapply wp_unlink_timer; [exact Hin1|exact Hord|done|].
    intros h ps' Hin' Ho' Hp' Hps'. apply wp_hret. exists (with_time (ch_time c) t), ps', (A ++ [ch_timer c]).
    split_and!; [rewrite length_app; cbn; lia|cbn; by rewrite lookup_insert, decide_True| | |done].
    + eapply (consistent_step e) with (t' := with_change 0 (with_time (ch_time c) t)); try done.
      * apply insert_insert_eq.
      * apply in_tree_insert; [done|]. cbn. by rewrite lookup_insert, decide_True.
      * cbn. by rewrite length_insert.
      * intros j Hj. cbn. rewrite list_lookup_insert_ne by lia. done.
      * apply (adds_snoc _ _ (Change (ch_change a) (ch_time a) (ch_timer c))); [done|lia].
      * by right.
      * rewrite decide_True by set_solver. done.
    + split_and!; try done. by eapply flags_insert.
  - destruct Hmean as [Hp Hnone]. apply wp_hbind.
    eapply (wp_unlink_timer _ _ due _ true); [done..|by rewrite bool_decide_true|].
    intros h ps' Hin' Ho' Hp' Hps'. apply wp_hret. exists t, ps', A. split_and!; [done..| |done|done].
    eapply (consistent_step e); try done; [by apply in_tree_insert|by left|].
    rewrite decide_False by done. unfold placed_at. by rewrite decide_False.
Qed.

Lemma wp_commit_loop e N sched ps due i A :
  consistent e N sched ps due i A ->
  wp (commit_loop (Z.to_nat (nchanges e - i)) i (Z.of_nat (length A)))
    (fun n e' => exists ps' A', n = Z.of_nat (length A') /\ consistent e' N sched ps' due (nchanges e') A' /\ steady e e') e.
Proof.
  remember (Z.to_nat (nchanges e - i)) as n eqn:En. revert e ps i A En.
  induction n as [|n IH]; intros e ps i A En Hc; cbn [commit_loop]; pose proof (c_count _ _ _ _ _ _ _ Hc).
  { apply wp_hret. exists ps, A. split_and!; [done| |done]. by replace (nchanges e) with i by lia. }
  destruct (c_live _ _ _ _ _ _ _ Hc i) as (c & t & Ec & Et & Hch); [lia|].
  apply wp_hbind. eapply wp_get_change; [lia|exact Ec|]. apply wp_hbind.
  eapply wp_conseq; [eapply wp_commit_one; [exact Hc|lia|done..]|].
  intros r e1 (t1 & ps1 & A1 & -> & Et1 & Hc1 & Hst & Hn). apply wp_hbind. eapply wp_set_timer; [exact Et1|].
  eapply wp_conseq; [eapply IH; [|exact Hc1]; cbn; lia|]. intros r e' (ps' & A' & -> & Hc' & Hst').
  exists ps', A'. split_and!; [done..|]. etrans; [exact Hst|]. etrans; [|exact Hst'].
  split_and!; try done. by eapply flags_insert.
Qed.

(** The additions: the order of the tree is then the order of [sched]. *)
Definition rank_of (sched : gmap ptr Z) (p : ptr) : Z := default 0 (sched !! p).

Definition sooner (e : engine) (N : Z) (sched : gmap ptr Z) (p : ptr) : Prop :=
  exists t, timers e !! p = Some t /\ soon N sched p (time t).

Lemma due_in_sooner e N sched ps :
  in_order (rank_of sched) ps -> (forall p, p ∈ ps -> sooner e N sched p) -> due_in e ps (rank_of sched) N.
Proof.
  intros Ho Hs. split; [done|]. intros p Hp. destruct (Hs p Hp) as (t & Et & D & ED & Htm & Hnr).
  unfold rank_of. rewrite ED. cbn. eauto.
Qed.

Lemma in_order_ext (r1 r2 : ptr -> Z) ps : (forall p, p ∈ ps -> r1 p = r2 p) -> in_order r1 ps -> in_order r2 ps.
Proof.
  unfold in_order. induction 2 as [|p ps _ IH Hp]; constructor.
  - apply IH. intros q Hq. apply H. by right.
  - rewrite Forall_forall in *. intros q Hq. rewrite <- !H by set_solver +Hq. by apply Hp.
Qed.

Lemma insert_ranked_elem (rank : ptr -> Z) p ps q : q ∈ insert_ranked rank p ps <-> q = p \/ q ∈ ps.
Proof. induction ps as [|r ps IH]; cbn; [set_solver|]. case_match; set_solver. Qed.

Lemma wp_commit_adds N sched B : forall e ps (k : nat),
  in_tree e ps -> in_order (rank_of sched) ps -> (forall p, p ∈ ps ++ B -> sooner e N sched p) ->
  NoDup B -> (forall p, p ∈ B -> p ∉ ps) -> ch_timer <$> take (length B) (drop k (changes e)) = B ->
  wp (commit_adds (length B) (Z.of_nat k))
    (fun _ e' => exists h ps', e' = set_nodes h e /\ in_tree e' ps' /\ in_order (rank_of sched) ps' /\
       forall p, p ∈ ps' <-> p ∈ ps ++ B) e.
Proof.
  induction B as [|p B IH]; intros e ps k Hin Ho Hs Hnd Hps HB.
  { apply wp_hret. exists (nodes e), ps. rewrite app_nil_r. split_and!; [by destruct e|done..]. }
  apply NoDup_cons in Hnd as [HpB Hnd]. cbn [length commit_adds].
  destruct (drop k (changes e)) as [|c cs] eqn:Ed; [done|]. cbn in HB. injection HB as Hcp HB.
  assert (Ec : changes e !! k = Some c) by (rewrite <- (Nat.add_0_r k), <- lookup_drop, Ed; done).
  apply wp_hbind. eapply wp_get_change; [lia|rewrite Nat2Z.id; exact Ec|]. apply wp_hbind, wp_get, wp_hbind. rewrite Hcp.
  destruct (Hs p) as (t & Et & D & ED & Htm & Hnr); [set_solver +|].
  eapply (wp_insert_timer _ _ (rank_of sched) N p t D); try done.
  - apply due_in_sooner; [done|]. intros q Hq. apply Hs. set_solver +Hq.
  - apply Hps. set_solver +.
  - unfold rank_of. by rewrite ED.
  - intros h Hin'. replace (Z.of_nat k + 1) with (Z.of_nat (S k)) by lia.
    eapply wp_conseq; [eapply IH; [exact Hin'|by apply insert_in_order|..|done| |]|].
    + intros q Hq. destruct (Hs q) as (tq & Etq & Hq'); [|by exists tq].
      rewrite elem_of_app, insert_ranked_elem in Hq. set_solver +Hq.
    + intros q Hq. rewrite insert_ranked_elem. specialize (Hps q). set_solver +Hps Hq HpB.
    + cbn. rewrite <- HB at 2. f_equal. f_equal. rewrite <- Nat.add_1_r, <- drop_drop, Ed. done.
    + intros [] e' (h' & ps' & -> & Hin2 & Ho2 & Hps2). exists h', ps'. split_and!; [done..|].
      intros q. rewrite Hps2, !elem_of_app, insert_ranked_elem. set_solver +.
Qed.

(** Nothing waits: the tree is the schedule. *)
Definition settled (e : engine) (N : Z) (sched : gmap ptr Z) (ps : list ptr) : Prop :=
  nchanges e = 0 /\ consistent e N sched ps (rank_of sched) 0 [].

Lemma settled_spec e N sched ps :
  in_tree e ps -> in_order (rank_of sched) ps -> Z.of_nat (length (changes e)) = mchanges e ->
  1 <= mchanges e <= NXT_TIMER_MAX_CHANGES -> (forall p t, timers e !! p = Some t -> change t = 0) ->
  (forall p, p ∈ ps -> sooner e N sched p) -> (forall p, is_Some (sched !! p) -> p ∈ ps) ->
  settled (set_nchanges 0 e) N sched ps.
Proof.
  intros Hin Ho Hsz Hm Hch Hs Hp. split; [done|]. constructor; try done.
  - by apply due_in_sooner.
  - cbn. lia.
  - intros j Hj. cbn in Hj. lia.
  - intros p t Et. unfold accounted. rewrite (Hch _ _ Et). rewrite decide_False by apply not_elem_of_nil. cbn. unfold placed_at. case_decide as Hin'.
    + destruct (Hs p Hin') as (t' & _ & D & ED & _). unfold rank_of. by rewrite ED.
    + apply eq_None_not_Some. auto.
  - intros p Hs'. cbn. destruct (Hs p) as (t & Et & _); [by apply Hp|]. by eexists.
  - by intros p Hp'%elem_of_nil.
  - apply NoDup_nil_2.
Qed.

(** Only additions are left. *)
Lemma only_additions e N sched ps due A :
  consistent e N sched ps due (nchanges e) A ->
  in_order (rank_of sched) ps /\ (forall p t, timers e !! p = Some t -> change t = 0) /\
  (forall p, p ∈ ps ++ A -> sooner e N sched p) /\ (forall p, p ∈ A -> p ∉ ps) /\
  (forall p, is_Some (sched !! p) -> p ∈ ps ++ A).
Proof.
  intros [].
  assert (Hch : forall p t, timers e !! p = Some t -> change t = 0 /\
    if decide (p ∈ A) then p ∉ ps /\ soon N sched p (time t) else placed_at sched ps due p).
  { intros p t Et. specialize (c_timers0 _ _ Et). unfold accounted in c_timers0.
    destruct (Z.eqb_spec (change t) 0); [done|]. lia. }
  destruct c_due0 as [Ho Hd]. split_and!.
  - eapply in_order_ext; [|exact Ho]. intros p Hp. destruct (Hd p Hp) as (_ & t & Et & _).
    destruct (Hch _ _ Et) as [_ Hacc]. unfold rank_of, placed_at in *. repeat case_decide; try done; [naive_solver|].
    by rewrite Hacc.
  - intros p t Et. by apply (Hch p).
  - intros p [Hp|Hp]%elem_of_app.
    + destruct (Hd p Hp) as (Hnr & t & Et & Htm). exists t. split; [done|].
      destruct (Hch _ _ Et) as [_ Hacc]. exists (due p). unfold placed_at in Hacc. repeat case_decide; naive_solver.
    + destruct (c_known0 p Hp) as [t Et]. exists t. split; [done|]. destruct (Hch _ _ Et) as [_ Hacc].
      rewrite decide_True in Hacc by done. apply Hacc.
  - intros p Hp. destruct (c_known0 p Hp) as [t Et]. destruct (Hch _ _ Et) as [_ Hacc].
    rewrite decide_True in Hacc by done. apply Hacc.
  - intros p Hp. apply elem_of_app. destruct (c_sched0 p Hp) as [t Et]. destruct (Hch _ _ Et) as [_ Hacc].
    destruct Hp as [D HD]. unfold placed_at in Hacc. repeat case_decide; naive_solver.
Qed.

Lemma idle_settled e N sched ps due :
  consistent e N sched ps due 0 [] -> nchanges e = 0 -> settled e N sched ps.
Proof.
  intros Hc Hn. pose proof Hc as Hc'. rewrite <- Hn in Hc' at 1.
  apply only_additions in Hc' as (Ho & Hch & Hs & _ & Hp). setoid_rewrite app_nil_r in Hs. setoid_rewrite app_nil_r in Hp.
  replace e with (set_nchanges 0 e) by (destruct e; cbn in *; by subst). destruct Hc. by apply settled_spec.
Qed.

Lemma wp_commit e N sched ps due :
  consistent e N sched ps due 0 [] ->
  wp nxt_timer_changes_commit (fun _ e' => steady e e' /\ exists ps', settled e' N sched ps') e.
Proof.
  intros Hc. apply wp_hbind, wp_get, wp_hbind. rewrite <- (Z.sub_0_r (nchanges e)).
  eapply wp_conseq; [by apply (wp_commit_loop e N sched ps due 0 [])|].
  intros r e1 (ps1 & A & -> & Hc1 & Hst). destruct (only_additions _ _ _ _ _ _ Hc1) as (Ho & Hch & Hs & HA & Hp).
  destruct Hc1. apply wp_hbind. rewrite Nat2Z.id. eapply wp_conseq; [by apply (wp_commit_adds N sched A e1 ps1 0)|].
  intros [] e2 (h & ps2 & -> & Hin2 & Ho2 & Hps2). apply wp_update. split; [by etrans|]. exists ps2.
  apply settled_spec; try done; intros p Hin; [by apply Hps2, Hs in Hin|by apply Hps2, Hp].
Qed.

End Tree.
