(* ===== verification/TimerOps.v ===== *)
(** * The operations on timers

    What each operation on a timer, the search for the earliest timer and the
    expiration of timers do to the schedule. *)

From stdpp Require Import sorting.
From S2P Require Import Prelude Heap Rbtree RbInsert RbDelete RbWalk RbSpec Timer TimerCommit.

#[local] Open Scope Z_scope.


Section Operations.
Context {TR : Sentinel}.

(** ** Changes *)

(** A change of the timer [p] is put at the index [k]: in the place of a change
    of the same timer, or behind the last change. *)
Lemma consistent_put e N sched sched' ps due p t k n c :
  consistent e N sched ps due 0 [] -> timers e !! p = Some t ->
  (change t <> 0 /\ k = change t /\ n = nchanges e \/ change t = 0 /\ k = nchanges e + 1 /\ n = k /\ k <= mchanges e) ->
  ch_timer c = p -> means N sched' ps due p c ->
  (forall q, q <> p -> sched' !! q = sched !! q) ->
  consistent (set_changes (<[Z.to_nat (k - 1) := c]> (changes e))
    (set_timers (<[p := with_change k t]> (timers e)) (set_nchanges n e))) N sched' ps due 0 [].
Proof.
  intros [Ctree Cdue Csize Cmax Ccount Clive Ctimers Csched Cadds Cknown Cnodup Clen] Et Hk Hcp Hmean Hne.
  assert (Hkn : 1 <= k <= n /\ n <= mchanges e).
  { pose proof (Ctimers _ _ Et) as Hacc. unfold accounted in Hacc.
    destruct Hk as [(Hch & -> & ->)|(Hch & -> & -> & Hm)]; [|lia]. destruct (Z.eqb_spec (change t) 0); [done|]. lia. }
  assert (Hslot : forall q tq, q <> p -> timers e !! q = Some tq -> change tq <> 0 ->
    1 <= change tq <= nchanges e /\ change tq <> k).
  { intros q tq Hqp Etq Hchq. pose proof (Ctimers _ _ Etq) as Hacc. unfold accounted in Hacc.
    destruct (Z.eqb_spec (change tq) 0); [done|]. destruct Hacc as (Hr & _ & cq & Ecq & Hcq & _). split; [lia|].
    intros Heq. destruct Hk as [(Hch & Hk & ->)|(Hch & Hk & -> & Hm)]; [|lia].
    pose proof (Ctimers _ _ Et) as Hacc. unfold accounted in Hacc. destruct (Z.eqb_spec (change t) 0); [done|].
    destruct Hacc as (_ & _ & cp & Ecp & Hcp' & _). rewrite Heq, Hk in Ecq. congruence. }
  constructor; cbn; try done; try lia.
  - apply (in_tree_insert _ _ _ _ Ctree). by eexists.
  - destruct Cdue as [Ho Hd]. split; [done|]. intros q Hq. destruct (Hd q Hq) as (Hnr & tq & Etq & Htq). split; [done|].
    cbn. destruct (decide (q = p)) as [->|Hqp].
    + exists (with_change k t). rewrite lookup_insert, decide_True by done. simplify_eq. done.
    + exists tq. by rewrite lookup_insert_ne.
  - by rewrite length_insert.
  - intros j Hj. destruct (decide (j = k - 1)) as [->|Hjk].
    + exists c, (with_change k t). rewrite list_lookup_insert, decide_True by (split; [done|lia]).
      rewrite Hcp, lookup_insert, decide_True by done. cbn. split_and!; [done..|lia].
    + destruct (Clive j) as (cj & tj & Ecj & Etj & Hchj); [lia|]. exists cj, tj.
      rewrite list_lookup_insert_ne by lia. split_and!; [done| |done]. rewrite lookup_insert_ne; [done|].
      intros Heq. rewrite <- Heq in Etj. simplify_eq. lia.
  - intros q tq Etq. unfold accounted. cbn. destruct (decide (q = p)) as [->|Hqp].
    + rewrite lookup_insert, decide_True in Etq by done. simplify_eq. cbn. destruct (Z.eqb_spec k 0); [lia|].
      split_and!; [lia..|set_solver +|]. exists c. rewrite list_lookup_insert, decide_True by (split; [done|lia]). done.
    + rewrite lookup_insert_ne in Etq by done. pose proof (Ctimers _ _ Etq) as Hacc. unfold accounted in Hacc.
      specialize (Hslot _ _ Hqp Etq). unfold placed_at, soon, means in *. rewrite Hne by done.
      destruct (Z.eqb_spec (change tq) 0); [done|]. destruct Hacc as (Hr & _ & cq & Ecq & Hcq & Hmq).
      destruct Hslot as [Hr' Hck]; [done|]. split_and!; [lia..|set_solver +|]. exists cq.
      rewrite list_lookup_insert_ne by lia. split_and!; [done..|]. unfold placed_at, soon in *. by rewrite Hne.
  - intros q Hq. destruct (decide (q = p)) as [->|Hqp]; [by rewrite lookup_insert, decide_True|].
    rewrite lookup_insert_ne by done. apply Csched. by rewrite <- Hne.
  - intros q Hq. by apply elem_of_nil in Hq.
Qed.

(** The handler of a timer that is enabled and has a change waits for it only if
    the timer is scheduled. *)
Definition prompt (e : engine) (sched : gmap ptr Z) (p : ptr) : Prop :=
  forall t, timers e !! p = Some t -> enabled t = true -> change t <> 0 -> is_Some (sched !! p).

Lemma settled_change e N sched ps p t : settled e N sched ps -> timers e !! p = Some t -> change t = 0.
Proof.
  intros [Hn []] Et. specialize (c_timers _ _ Et). unfold accounted in c_timers.
  destruct (Z.eqb_spec (change t) 0); [done|]. lia.
Qed.

Lemma settled_elem e N sched ps p : settled e N sched ps -> p ∈ ps <-> is_Some (sched !! p).
Proof.
  intros Hs. pose proof Hs as [Hn []].
  assert (H : forall t, timers e !! p = Some t -> p ∈ ps <-> is_Some (sched !! p)).
  { intros t Et. specialize (c_timers _ _ Et). unfold accounted in c_timers. erewrite settled_change in c_timers by done.
    rewrite decide_False in c_timers by apply not_elem_of_nil. cbn in c_timers. unfold placed_at in c_timers.
    rewrite c_timers. case_decide; [done|]. split; [done|]. by intros [? ?]. }
  split; intros Hp; [destruct (in_tree_timer _ _ _ c_tree Hp) as [t Et]|destruct (c_sched p Hp) as [t Et]]; by eapply H.
Qed.

(** The timer's change is cancelled, or there is none. *)
Lemma wp_change_nope e N sched ps due p t tm :
  consistent e N sched ps due 0 [] -> timers e !! p = Some t ->
  wp (nxt_timer_change p NXT_TIMER_NOPE tm)
    (fun _ e' => timers e' = timers e /\ steady e e' /\
       consistent e' N (partial_alter (fun _ => if decide (p ∈ ps) then Some (due p) else None) p sched) ps due 0 []) e.
Proof.
  intros Hc Et. pose proof Hc as [].
  set (sched' := partial_alter _ p sched).
  assert (Hp : placed_at sched' ps due p) by (unfold sched', placed_at; by rewrite lookup_partial_alter_eq).
  apply wp_hbind. eapply wp_get_timer; [exact Et|]. destruct (Z.eqb_spec (change t) 0) as [Hch|Hch].
  - apply wp_hret. split_and!; [done..|]. replace sched' with sched; [done|]. apply map_eq. intros q.
    destruct (decide (q = p)) as [->|Hq]; [|unfold sched'; by rewrite lookup_partial_alter_ne].
    rewrite Hp. specialize (c_timers _ _ Et). unfold accounted in c_timers. rewrite Hch in c_timers.
    rewrite decide_False in c_timers by apply not_elem_of_nil. done.
  - apply wp_hbind. eapply wp_get_timer; [exact Et|]. apply wp_set_change.
    { specialize (c_timers _ _ Et). unfold accounted in c_timers. destruct (Z.eqb_spec (change t) 0); [done|]. lia. }
    split_and!; [done..|]. pose proof (consistent_put e N sched sched' ps due p t (change t) (nchanges e)
      (Change NXT_TIMER_NOPE tm p) Hc Et) as Hput. unfold set_timers in Hput. cbn in Hput.
    rewrite insert_id in Hput by (rewrite Et; by destruct t). apply Hput; [by left|done..|].
    intros q Hq. unfold sched'. by rewrite lookup_partial_alter_ne.
Qed.

(** Room for a change of a timer that has none. *)
Lemma wp_room e N sched ps due p t :
  consistent e N sched ps due 0 [] -> timers e !! p = Some t -> change t = 0 ->
  (forall q, q <> p -> prompt e sched q) ->
  wp (if mchanges e <=? nchanges e then nxt_timer_changes_commit else hret tt)
    (fun _ e' => steady e e' /\ nchanges e' < mchanges e' /\ (forall q, q <> p -> prompt e' sched q) /\
       exists ps' due' t', consistent e' N sched ps' due' 0 [] /\ timers e' !! p = Some t' /\ change t' = 0 /\
         (p ∈ ps -> p ∈ ps')) e.
Proof.
  intros Hc Et Hch Hpr. destruct (Z.leb_spec (mchanges e) (nchanges e)) as [Hfull|Hroom].
  - eapply wp_conseq; [by eapply wp_commit|]. intros [] e' [Hst [ps' Hs]]. pose proof Hs as [Hn Hc'].
    split_and!; [done| | |].
    + rewrite Hn. destruct Hc'. lia.
    + intros q Hq tq Etq _ Hne. by erewrite settled_change in Hne.
    + destruct Hst as [Hfl _]. assert (is_Some (timers e' !! p)) as [t' Et'].
      { rewrite <- (fmap_is_Some flags), <- lookup_fmap, Hfl, lookup_fmap, Et. done. }
      exists ps', (rank_of sched), t'. split_and!; [done..|by eapply settled_change|].
      intros Hp. rewrite (settled_elem _ _ _ _ _ Hs). destruct Hc. specialize (c_timers _ _ Et).
      unfold accounted in c_timers. rewrite Hch, decide_False in c_timers by apply not_elem_of_nil.
      cbn in c_timers. unfold placed_at in c_timers. rewrite c_timers. by rewrite decide_True.
  - apply wp_hret. split_and!; [done..|]. by exists ps, due, t.
Qed.

(** The timer is added or deleted. *)
Lemma wp_change_op e N sched sched' ps due p t op tm :
  consistent e N sched ps due 0 [] -> timers e !! p = Some t -> (forall q, q <> p -> prompt e sched q) ->
  match op with
  | NXT_TIMER_NOPE => False
  | NXT_TIMER_ADD => soon N sched' p tm
  | NXT_TIMER_DELETE => p ∈ ps /\ sched' !! p = None
  end -> (forall q, q <> p -> sched' !! q = sched !! q) ->
  wp (nxt_timer_change p op tm)
    (fun _ e' => steady e e' /\ (forall q, q <> p -> prompt e' sched' q) /\
       exists ps' due', consistent e' N sched' ps' due' 0 []) e.
Proof.
  intros Hc Et Hpr Hop Hne. apply wp_hbind. eapply wp_get_timer; [exact Et|].
  destruct (Z.eqb_spec (change t) 0) as [Hch|Hch].
  - assert (Hnop : op <> NXT_TIMER_NOPE) by by intros ->. cbv zeta.
    match goal with |- wp (match op with NXT_TIMER_NOPE => _ | NXT_TIMER_ADD => ?k | NXT_TIMER_DELETE => _ end) _ _ =>
      enough (Hk : wp k (fun _ e' => steady e e' /\ (forall q, q <> p -> prompt e' sched' q) /\
        exists ps' due', consistent e' N sched' ps' due' 0 []) e) by by destruct op end.
    apply wp_hbind, wp_get, wp_hbind. eapply wp_conseq; [by eapply wp_room|].
    intros [] e1 (Hst & Hroom & Hpr1 & ps1 & due1 & t1 & Hc1 & Et1 & Hch1 & Hps).
    pose proof Hc1 as [].
    apply wp_hbind, wp_update, wp_hbind, wp_get, wp_hbind. cbn [nchanges set_nchanges].
    rewrite Z.mod_small by lia. eapply wp_set_timer; [exact Et1|].
    apply wp_hbind. eapply wp_get_timer; [cbn; by rewrite lookup_insert, decide_True|].
    apply wp_set_change; [cbn; lia|]. cbn [change with_change changes set_timers set_nchanges].
    split_and!.
    + etrans; [exact Hst|]. split_and!; try done. by eapply flags_insert.
    + intros q Hq tq Etq. cbn in Etq. rewrite lookup_insert_ne in Etq by done. rewrite Hne by done. by apply Hpr1.
    + exists ps1, due1. apply (consistent_put e1 N sched sched' ps1 due1 p t1 (nchanges e1 + 1) (nchanges e1 + 1)); try done.
      * right. lia.
      * unfold means. cbn. destruct op; naive_solver.
  - apply wp_hbind. eapply wp_get_timer; [exact Et|]. pose proof Hc as []. apply wp_set_change.
    { specialize (c_timers _ _ Et). unfold accounted in c_timers. destruct (Z.eqb_spec (change t) 0); [done|]. lia. }
    split_and!; [done| |].
    { intros q Hq tq Etq. rewrite Hne by done. by apply Hpr. }
    exists ps, due. pose proof (consistent_put e N sched sched' ps due p t (change t) (nchanges e)
      (Change op tm p) Hc Et) as Hput. unfold set_timers in Hput. cbn in Hput.
    rewrite insert_id in Hput by (rewrite Et; by destruct t). apply Hput; [by left|done| |done].
    unfold means. cbn. by destruct op.
Qed.

(** The flags of a timer. *)
Lemma consistent_flags e N sched ps due p t t' :
  consistent e N sched ps due 0 [] -> timers e !! p = Some t -> change t' = change t -> time t' = time t ->
  consistent (set_timers (<[p := t']> (timers e)) e) N sched ps due 0 [].
Proof.
  intros [Ctree Cdue Csize Cmax Ccount Clive Ctimers Csched Cadds Cknown Cnodup Clen] Et Hch Htm.
  assert (Hl : forall q tq, timers e !! q = Some tq -> exists tq', <[p := t']> (timers e) !! q = Some tq' /\
    change tq' = change tq /\ time tq' = time tq).
  { intros q tq Etq. destruct (decide (q = p)) as [->|Hq].
    - exists t'. rewrite lookup_insert, decide_True by done. simplify_eq. done.
    - exists tq. by rewrite lookup_insert_ne. }
  constructor; cbn; try done; try lia.
  - apply (in_tree_insert _ _ _ _ Ctree). by eexists.
  - destruct Cdue as [Ho Hd]. split; [done|]. intros q Hq. destruct (Hd q Hq) as (Hnr & tq & Etq & Htq). split; [done|].
    destruct (Hl q tq Etq) as (tq' & Etq' & _ & Htm'). exists tq'. split; [done|congruence].
  - intros j Hj. destruct (Clive j Hj) as (c & tc & Ec & Etc & Hchc). destruct (Hl _ _ Etc) as (tc' & Etc' & Hchc' & _).
    exists c, tc'. split_and!; [done..|congruence].
  - intros q tq Etq. destruct (decide (q = p)) as [->|Hq].
    + rewrite lookup_insert, decide_True in Etq by done. simplify_eq. specialize (Ctimers _ _ Et).
      unfold accounted in *. cbn. by rewrite Hch, Htm.
    + rewrite lookup_insert_ne in Etq by done. apply (Ctimers _ _ Etq).
  - intros q Hq. destruct (Csched q Hq) as [tq Etq]. destruct (Hl _ _ Etq) as (tq' & Etq' & _). by eexists.
  - intros q Hq. by apply elem_of_nil in Hq.
Qed.


(** ** Timers come and go *)

(** A timer that is initialized as [NXT_TIMER], but for its bias. *)
Definition create (p : ptr) (b : Z) (e : engine) : engine :=
  set_timers (<[p := Timer b NXT_TIMER_NO_CHANGE false false 0]> (timers e))
    (set_nodes (<[p := Node NULL NULL NULL 0]> (nodes e)) e).

(** The memory of a timer is freed. *)
Definition forget (p : ptr) (e : engine) : engine :=
  set_timers (delete p (timers e)) (set_nodes (delete p (nodes e)) e).

(** A cell is freed, or allocated. *)
Lemma holds_drop (h : gmap ptr nxt_rbtree_node) l l' p n :
  holds h l -> replaced [(p, n)] [] l l' -> holds (delete p h) l'.
Proof.
  intros [Hd Hf] Hr. destruct (replaced_split _ _ _ _ Hr) as (l1 & l2 & -> & ->). cbn in *.
  rewrite fmap_app, fmap_cons in Hd. cbn in Hd. pose proof (removed_nodup _ _ _ Hd) as Hp.
  rewrite <- fmap_app in Hp. split.
  - rewrite fmap_app. eapply sublist_NoDup; [exact Hd|]. apply sublist_app; [done|]. by constructor.
  - rewrite Forall_forall in *. intros [q m] Hq. cbn. rewrite lookup_delete_ne; [apply (Hf (q, m)); set_solver +Hq|].
    intros ->. apply Hp. apply list_elem_of_fmap. by exists (q, m).
Qed.

Lemma holds_fresh (h : gmap ptr nxt_rbtree_node) l p n :
  holds h l -> p ∉ l.*1 -> holds (<[p := n]> h) ((p, n) :: l).
Proof.
  intros [Hd Hf] Hp. split; [by constructor|]. constructor; [cbn; by rewrite lookup_insert, decide_True|].
  rewrite Forall_forall in *. intros [q m] Hq. cbn. rewrite lookup_insert_ne; [by apply (Hf (q, m))|].
  intros ->. apply Hp. apply list_elem_of_fmap. by exists (q, m).
Qed.

Lemma in_tree_forget e ps p : in_tree e ps -> p ∉ ps -> is_Some (timers e !! p) -> in_tree (forget p e) ps.
Proof.
  intros (Hs0 & H0 & F & Hst & Hdom & HF) Hp Ht. split_and!; [done| |].
  { cbn. rewrite lookup_delete_None. by right. }
  assert (HpF : p ∈ F.*1) by (apply Hdom in Ht as [|]; done).
  apply list_elem_of_fmap in HpF as ([q n] & -> & HpF). apply elem_of_Permutation in HpF as [F' HF'].
  apply (stored_perm _ _ _ _ HF') in Hst. destruct Hst as (sp & t & Hh & Hi & Hb & Hsh). cbn in *.
  exists F'. split_and!.
  - exists sp, t. split_and!; [|done..]. unfold at_place in *. cbn in *. eapply holds_drop; [exact Hh|find_cell].
  - assert (HqF : q ∉ F'.*1).
    { destruct Hh as [Hd _]. rewrite fmap_cons, !fmap_app, fmap_cons in Hd. cbn in Hd.
      apply NoDup_cons in Hd as [_ Hd]. apply NoDup_app in Hd as (_ & _ & Hd). by apply NoDup_cons in Hd as [Hd _]. }
    intros r. cbn. rewrite lookup_delete_is_Some, Hdom, HF'. cbn. set_solver +Hp HqF.
  - intros r m Hr. apply (HF r). rewrite HF'. by right.
Qed.

Lemma in_tree_create e ps p b :
  in_tree e ps -> timers e !! p = None -> p <> NULL -> p <> sent -> in_tree (create p b e) ps.
Proof.
  intros (Hs0 & H0 & F & Hst & Hdom & HF) Hp Hp0 Hps. split_and!; [done| |].
  { cbn. rewrite lookup_insert_ne; done. }
  assert (HpF : p ∉ ps /\ p ∉ F.*1).
  { split; intros Hin; destruct (proj2 (Hdom p)) as [t Et]; try congruence; [by left|by right]. }
  exists ((p, Node NULL NULL NULL 0) :: F). destruct Hst as (sp & t & Hh & Hi & Hb & Hsh). split_and!.
  - exists sp, t. split_and!; [|done..]. unfold at_place in *. cbn in *.
    eapply holds_perm; [|eapply holds_fresh; [exact Hh|]].
    + solve_Permutation.
    + cbn. rewrite fmap_app, keys_cells, Hi. set_solver +HpF Hps.
  - intros r. cbn. rewrite lookup_insert_is_Some', Hdom. set_solver +.
  - intros r m [[= -> ->]|Hr]%elem_of_cons; [done|by eapply HF].
Qed.

Lemma consistent_forget e N sched ps due p t :
  consistent e N sched ps due 0 [] -> timers e !! p = Some t -> p ∉ ps -> change t = 0 ->
  consistent (forget p e) N sched ps due 0 [].
Proof.
  intros [] Et Hp Hch. pose proof (c_timers _ _ Et) as Hacc. unfold accounted in Hacc.
  rewrite Hch, decide_False in Hacc by apply not_elem_of_nil. cbn in Hacc. unfold placed_at in Hacc.
  rewrite decide_False in Hacc by done. constructor; try done.
  - apply in_tree_forget; [done..|by eexists].
  - destruct c_due as [Ho Hd]. split; [done|]. intros q Hq. cbn. rewrite lookup_delete_ne by congruence. by apply Hd.
  - intros j Hj. destruct (c_live j Hj) as (c & tc & Ec & Etc & Hchc). exists c, tc. split_and!; [done| |done].
    cbn. rewrite lookup_delete_ne; [done|]. intros Heq. rewrite Heq in Et. simplify_eq. lia.
  - intros q tq Etq. cbn in Etq. rewrite lookup_delete_Some in Etq. apply (c_timers q tq), Etq.
  - intros q Hq. cbn. rewrite lookup_delete_ne; [by apply c_sched|]. intros <-. by rewrite Hacc in Hq; destruct Hq.
  - by intros q Hq%elem_of_nil.
Qed.

Lemma consistent_create e N sched ps due p b :
  consistent e N sched ps due 0 [] -> timers e !! p = None -> p <> NULL -> p <> sent ->
  consistent (create p b e) N sched ps due 0 [].
Proof.
  intros [] Et Hp0 Hps. constructor; try done.
  - by apply in_tree_create.
  - destruct c_due as [Ho Hd]. split; [done|]. intros q Hq. cbn. destruct (Hd q Hq) as (Hnr & tq & Etq & Htq).
    split; [done|]. exists tq. rewrite lookup_insert_ne by congruence. done.
  - intros j Hj. destruct (c_live j Hj) as (c & tc & Ec & Etc & Hchc). exists c, tc. split_and!; [done| |done].
    cbn. rewrite lookup_insert_ne; [done|]. intros Heq. congruence.
  - intros q tq Etq. cbn in Etq. destruct (decide (q = p)) as [->|Hq].
    + rewrite lookup_insert, decide_True in Etq by done. simplify_eq. unfold accounted. cbn.
      rewrite decide_False by apply not_elem_of_nil. unfold placed_at. rewrite decide_False.
      * apply eq_None_not_Some. intros Hs. apply c_sched in Hs as [? ?]. congruence.
      * intros Hin. destruct (in_tree_timer _ _ _ c_tree Hin). congruence.
    + rewrite lookup_insert_ne in Etq by done. by apply (c_timers q tq).
  - intros q Hq. cbn. apply lookup_insert_is_Some'. right. auto.
  - by intros q Hq%elem_of_nil.
Qed.

(** ** The earliest timer *)

Lemma in_tree_size e ps : in_tree e ps -> (length ps <= size (nodes e))%nat.
Proof.
  intros (_ & _ & F & (sp & t & Hh & <- & _) & _). apply holds_size in Hh. cbn in Hh.
  rewrite length_app, length_cells in Hh. lia.
Qed.

Lemma wp_first e ps Q : in_tree e ps -> Q (first ps) e -> wp (on_nodes (nxt_rbtree_min sent)) Q e.
Proof. intros (_ & _ & F & Hst & _) HQ. apply wp_on_nodes. eapply wp_min; [exact Hst|]. by destruct e. Qed.

Lemma wp_next e l1 p l2 Q :
  in_tree e (l1 ++ p :: l2) -> Q (first l2) e -> wp (on_nodes (nxt_rbtree_node_successor sent p)) Q e.
Proof. intros (_ & _ & F & Hst & _) HQ. apply wp_on_nodes. eapply wp_successor; [exact Hst|]. by destruct e. Qed.

Lemma is_there_first e l1 l2 :
  in_tree e (l1 ++ l2) -> nxt_rbtree_is_there_successor sent (first l2) = if l2 is [] then false else true.
Proof.
  intros Hin. apply in_tree_nodup, NoDup_cons in Hin as [Hs _]. unfold nxt_rbtree_is_there_successor, first.
  destruct l2 as [|p l2]; cbn; [by rewrite Z.eqb_refl|]. destruct (Z.eqb_spec p sent) as [->|]; [|done].
  exfalso. apply Hs. set_solver +.
Qed.

Definition is_on (e : engine) (p : ptr) : Prop := (enabled <$> timers e !! p) = Some true.

#[global] Instance is_on_dec e p : Decision (is_on e p).
Proof. unfold is_on. apply _. Defined.

(** The search has found the first timer of [ps] that is enabled, or none. *)
Definition found (e : engine) (N : Z) (sched : gmap ptr Z) (ps : list ptr) (r m : Z) : Prop :=
  (Forall (fun p => ~ is_on e p) ps /\ r = NXT_INFINITE_MSEC /\ m = u32 (N + 24 * 60 * 60 * 1000)) \/
  exists l1 p l2 t D, ps = l1 ++ p :: l2 /\ Forall (fun q => ~ is_on e q) l1 /\ timers e !! p = Some t /\
    enabled t = true /\ sched !! p = Some D /\ r = Z.max (D - N) 0 /\ m = u32 (D - bias t).

Lemma wp_find_timer e N sched l2 : forall fuel l1,
  in_tree e (l1 ++ l2) -> now e = u32 N -> (forall p, p ∈ l2 -> sooner e N sched p) ->
  Forall (fun q => ~ is_on e q) l1 -> (length l2 < fuel)%nat ->
  wp (find_timer fuel (first l2)) (fun r e' => exists m, e' = set_minimum m e /\ found e N sched (l1 ++ l2) r m) e.
Proof.
  induction l2 as [|p l2 IH]; intros fuel l1 Hin Hnow Hs Hoff Hfuel; (destruct fuel as [|fuel]; [cbn in Hfuel; lia|]);
    cbn [find_timer]; rewrite (is_there_first _ _ _ Hin).
  - apply wp_hbind, wp_get, wp_hbind, wp_update, wp_hret. eexists. split; [done|]. left. rewrite app_nil_r. split_and!; [done..|].
    rewrite Hnow. unfold u32. by rewrite Zplus_mod_idemp_l.
  - destruct (Hs p) as (t & Et & D & ED & Htm & Hnr); [by left|].
    apply wp_hbind. change (first (p :: l2)) with p. eapply wp_next; [exact Hin|]. apply wp_hbind. eapply wp_get_timer; [exact Et|].
    destruct (enabled t) eqn:Een.
    + apply wp_hbind, wp_get, wp_hbind, wp_update, wp_hret. rewrite Htm, Hnow.
      rewrite (near_diff N) by (try done; unfold near; lia). eexists. split; [done|]. right.
      exists l1, p, l2, t, D. split_and!; [done..| |].
      * unfold near in Hnr. unfold u32. rewrite Z.mod_small; lia.
      * unfold u32. by rewrite Zminus_mod_idemp_l.
    + rewrite cons_middle, app_assoc in Hin |- *. apply IH; [done|done| | |cbn in Hfuel; lia].
      * intros q Hq. apply Hs. by right.
      * apply Forall_app. split; [done|]. constructor; [|done]. unfold is_on. rewrite Et. cbn. congruence.
Qed.

Lemma settled_sooner e N sched ps p : settled e N sched ps -> p ∈ ps -> sooner e N sched p.
Proof.
  intros Hs Hp. pose proof Hs as [_ []]. destruct c_due as [_ Hd]. destruct (Hd p Hp) as (Hnr & t & Et & Htm).
  apply (settled_elem _ _ _ _ _ Hs) in Hp as [D HD]. exists t. split; [done|]. exists D. unfold rank_of in *.
  rewrite HD in *. done.
Qed.

Lemma wp_find e N sched ps due :
  consistent e N sched ps due 0 [] -> now e = u32 N ->
  wp nxt_timer_find (fun r e' => exists e1 ps1 m, steady e e1 /\ settled e1 N sched ps1 /\
    e' = set_minimum m e1 /\ found e1 N sched ps1 r m) e.
Proof.
  intros Hc Hnow. apply wp_hbind, wp_get, wp_hbind.
  assert (Hcommit : wp (if negb (nchanges e =? 0) then nxt_timer_changes_commit else hret tt)
    (fun _ e1 => steady e e1 /\ exists ps1, settled e1 N sched ps1) e).
  { destruct (Z.eqb_spec (nchanges e) 0) as [Hn|Hn]; [|by eapply wp_commit]. apply wp_hret. split; [done|].
    exists ps. by eapply idle_settled. }
  eapply wp_conseq; [exact Hcommit|]. intros [] e1 (Hst & ps1 & Hs). pose proof Hs as [_ []].
  apply wp_hbind. eapply wp_first; [exact c_tree|]. apply wp_hbind, wp_get.
  eapply wp_conseq; [apply (wp_find_timer e1 N sched ps1 _ []); try done|].
  - destruct Hst as (_ & _ & Hn & _). congruence.
  - intros p Hp. by eapply settled_sooner.
  - pose proof (in_tree_size _ _ c_tree). lia.
  - intros r e' (m & -> & Hf). exists e1, ps1, m. split_and!; done.
Qed.

(** ** Expiration *)

Definition marked (b : bool) (t : nxt_timer) : nxt_timer := if b && enabled t then with_queued true t else t.

(** The timers of [ps] that are enabled are queued. *)
Definition mark (ps : list ptr) (ts : gmap ptr nxt_timer) : gmap ptr nxt_timer :=
  map_imap (fun p t => Some (marked (bool_decide (p ∈ ps)) t)) ts.

Lemma lookup_mark ps ts p : mark ps ts !! p = marked (bool_decide (p ∈ ps)) <$> ts !! p.
Proof. unfold mark. rewrite map_lookup_imap. by destruct (ts !! p). Qed.

Lemma mark_nil ts : mark [] ts = ts.
Proof.
  apply map_eq. intros p. rewrite lookup_mark, bool_decide_false by apply not_elem_of_nil. by destruct (ts !! p).
Qed.

Lemma mark_cons p l ts t :
  ts !! p = Some t -> p ∉ l -> mark l (<[p := marked true t]> ts) = mark (p :: l) ts.
Proof.
  intros Et Hp. apply map_eq. intros q. rewrite !lookup_mark. destruct (decide (q = p)) as [->|Hq].
  - rewrite (bool_decide_false (p ∈ l)), (bool_decide_true (p ∈ p :: l)), Et by (done || by left).
    by rewrite lookup_insert, decide_True.
  - rewrite lookup_insert_ne by done. f_equal. f_equal. apply bool_decide_ext. set_solver +Hq.
Qed.

Lemma wp_assoc {A B} (m1 : M A) (m2 : M unit) (k : M B) Q e :
  wp (let^ _ := (let^ _ := m1 in m2) in k) Q e -> wp (let^ _ := m1 in let^ _ := m2 in k) Q e.
Proof. unfold wp, hbind. destruct (m1 e) as [[a e1]| |]; cbn; done. Qed.

Definition ripe (e : engine) (N : Z) (sched : gmap ptr Z) (p : ptr) : Prop :=
  exists t D, timers e !! p = Some t /\ sched !! p = Some D /\ D - bias t <= N.

Definition unripe (e : engine) (N : Z) (sched : gmap ptr Z) (p : ptr) : Prop :=
  exists t D, timers e !! p = Some t /\ sched !! p = Some D /\ N < D - bias t.

Lemma expire_none e :
  e = set_works (works e ++ filter (is_on e) []) (set_timers (mark [] (timers e)) (set_nodes (nodes e) e)).
Proof. rewrite mark_nil, filter_nil, app_nil_r. by destruct e. Qed.

Lemma marked_same b t : time (marked b t) = time t /\ bias (marked b t) = bias t /\ enabled (marked b t) = enabled t.
Proof. unfold marked. by case_match. Qed.

(** An enabled timer is put into its work queue. *)
Definition enqueued (p : ptr) (t : nxt_timer) (e : engine) : engine :=
  set_works (works e ++ filter (is_on e) [p]) (set_timers (<[p := marked true t]> (timers e)) e).

Lemma enqueued_lookup e p t q :
  timers e !! p = Some t -> exists b, timers (enqueued p t e) !! q = marked b <$> timers e !! q.
Proof.
  intros Et. cbn. destruct (decide (q = p)) as [->|Hq].
  - exists true. by rewrite lookup_insert, decide_True, Et.
  - exists false. rewrite lookup_insert_ne by done. by destruct (timers e !! q).
Qed.

Lemma wp_enqueue_timer e p t :
  timers e !! p = Some t ->
  wp (if enabled t then
        let^ _ := set_timer p (with_queued true) in
        update (fun e => set_works (works e ++ [p]) e)
      else hret tt) (fun _ e' => e' = enqueued p t e) e.
Proof.
  intros Et. unfold enqueued, marked. rewrite filter_cons. destruct (enabled t) eqn:Een; cbn.
  - rewrite decide_True by (unfold is_on; by rewrite Et, <- Een). apply wp_hbind. eapply wp_set_timer; [exact Et|].
    by apply wp_update.
  - rewrite decide_False by (unfold is_on; rewrite Et; cbn; congruence). apply wp_hret.
    rewrite app_nil_r, insert_id by done. by destruct e.
Qed.

Lemma wp_expire_loop N sched ps : forall fuel e,
  in_tree e ps -> now e = u32 N -> (forall p, p ∈ ps -> sooner e N sched p) -> (length ps < fuel)%nat ->
  wp (expire_loop fuel (first ps)) (fun _ e' => exists l1 l2 h, ps = l1 ++ l2 /\
    e' = set_works (works e ++ filter (is_on e) l1) (set_timers (mark l1 (timers e)) (set_nodes h e)) /\
    in_tree e' l2 /\ Forall (ripe e N sched) l1 /\ (forall p, head l2 = Some p -> unripe e N sched p)) e.
Proof.
  induction ps as [|p ps IH]; intros fuel e Hin Hnow Hs Hfuel; (destruct fuel as [|fuel]; [cbn in Hfuel; lia|]);
    cbn [expire_loop]; rewrite (is_there_first e [] _ Hin).
  { apply wp_hret. exists [], [], (nodes e). split_and!; [done|apply expire_none|done|constructor|done]. }
  destruct (Hs p) as (t & Et & D & ED & Htm & Hnr); [by left|]. change (first (p :: ps)) with p.
  apply wp_hbind. eapply wp_get_timer; [exact Et|]. apply wp_hbind, wp_get.
  rewrite Htm, Hnow, (near_diff N) by (try done; unfold near; lia).
  destruct (Z.ltb_spec (bias t) (D - N)) as [Hlate|Hripe].
  { apply wp_hret. exists [], (p :: ps), (nodes e). split_and!; [done|apply expire_none|done|constructor|].
    intros ? [= <-]. exists t, D. split_and!; [done..|lia]. }
  apply wp_hbind. eapply (wp_next e []); [exact Hin|]. apply wp_assoc, wp_hbind.
  pose proof (in_tree_nodup _ _ Hin) as [_ [Hp Hnd]%NoDup_cons]%NoDup_cons.
  eapply (wp_remove e []); [exact Hin|]. intros h Hin1. cbn in Hin1.
  apply wp_hbind. eapply wp_conseq; [by apply (wp_enqueue_timer (set_nodes h e) p t)|]. intros [] _ ->.
  set (e1 := enqueued p t (set_nodes h e)).
  assert (Hmark : forall q, exists b, timers e1 !! q = marked b <$> timers e !! q)
    by (intros q; by apply (enqueued_lookup (set_nodes h e))).
  eapply wp_conseq; [eapply IH|].
  - apply (in_tree_insert _ _ p (marked true t)) in Hin1; [exact Hin1|by eexists].
  - done.
  - intros q Hq. destruct (Hs q) as (tq & Etq & Hsoon); [by right|]. destruct (Hmark q) as [b Eq]. rewrite Etq in Eq.
    exists (marked b tq). split; [done|]. by rewrite (proj1 (marked_same b tq)).
  - cbn in Hfuel. lia.
  - intros [] e' (l1 & l2 & h2 & -> & -> & Hin2 & Hl1 & Hl2). exists (p :: l1), l2, h2. split_and!; [done| |done|..].
    + rewrite <- (mark_cons p l1 _ t) by (done || set_solver +Hp).
      replace (filter (is_on e) (p :: l1)) with (filter (is_on e) [p] ++ filter (is_on e1) l1); [by rewrite app_assoc|].
      change (p :: l1) with ([p] ++ l1). rewrite filter_app. f_equal. apply list_filter_iff. intros q.
      unfold is_on. destruct (Hmark q) as [b ->]. destruct (timers e !! q) as [tq|]; [|done]. cbn.
      by rewrite (proj2 (proj2 (marked_same b tq))).
    + constructor; [exists t, D; split_and!; [done..|lia]|]. eapply Forall_impl; [exact Hl1|].
      intros q (tq & Dq & Etq & HDq & Hle). destruct (Hmark q) as [b Eq]. rewrite Eq in Etq.
      destruct (timers e !! q) as [tq'|] eqn:Etq'; [|done]. simplify_eq/=. exists tq', Dq.
      by rewrite (proj1 (proj2 (marked_same b tq'))) in Hle.
    + intros q Hq. destruct (Hl2 q Hq) as (tq & Dq & Etq & HDq & Hlt). destruct (Hmark q) as [b Eq]. rewrite Eq in Etq.
      destruct (timers e !! q) as [tq'|] eqn:Etq'; [|done]. simplify_eq/=. exists tq', Dq.
      by rewrite (proj1 (proj2 (marked_same b tq'))) in Hlt.
Qed.

(** The timers [l1] expire at [N], the timers [l2] do not. *)
Definition expired (e : engine) (N : Z) (sched : gmap ptr Z) (l1 l2 : list ptr) (e' : engine) : Prop :=
  (exists h, e' = set_works (works e ++ filter (is_on e) l1) (set_timers (mark l1 (timers e)) (set_nodes h (set_now (u32 N) e)))) /\
  in_tree e' l2 /\ Forall (ripe e N sched) l1 /\
  (forall p D, p ∈ l2 -> is_on e p -> sched !! p = Some D -> N < D).

Lemma in_order_behind (rank : ptr -> Z) l1 p l2 q : in_order rank (l1 ++ p :: l2) -> q ∈ p :: l2 -> rank p <= rank q.
Proof.
  intros (_ & Ho & _)%in_order_app Hq. apply StronglySorted_cons in Ho as [Hf _]. rewrite Forall_forall in Hf.
  apply elem_of_cons in Hq as [->|Hq]; [lia|by apply Hf].
Qed.

Lemma wp_expire e N N' sched ps r m :
  settled e N sched ps -> found e N sched ps r m -> (forall p D, sched !! p = Some D -> near N' D) ->
  (forall p t, timers e !! p = Some t -> 0 <= bias t <= 255) -> N <= N' < N + window ->
  wp (nxt_timer_expire (u32 N')) (fun _ e' => exists l1 l2, ps = l1 ++ l2 /\ expired (set_minimum m e) N' sched l1 l2 e')
    (set_minimum m e).
Proof.
  intros Hs Hf Hnr Hb HN. pose proof Hs as [_ []]. destruct c_due as [Ho _].
  assert (Hs' : forall p, p ∈ ps -> sooner e N' sched p).
  { intros p Hp. destruct (settled_sooner _ _ _ _ _ Hs Hp) as (t & Et & D & HD & Htm & _). exists t. split; [done|].
    exists D. eauto. }
  apply wp_hbind, wp_update, wp_hbind, wp_get. cbn [minimum set_now set_minimum].
  set (e2 := set_now (u32 N') (set_minimum m e)).
  destruct (Z.ltb_spec 0 (nxt_msec_diff m (u32 N'))) as [Hearly|Hgo].
  - apply wp_hret. exists [], ps. split; [done|]. split_and!; [|done|constructor|].
    { exists (nodes e). apply (expire_none e2). }
    intros p D Hp Hon HD. destruct Hf as [(Hoff & _)|(l1 & q & l2 & t & Dq & -> & Hoff & Et & Een & HDq & -> & ->)].
    + rewrite Forall_forall in Hoff. by apply Hoff in Hon.
    + pose proof (Hnr _ _ HDq). pose proof (Hb _ _ Et). rewrite msec_diff_u32 in Hearly by (unfold near in *; lia).
      assert (Hpl : p ∈ q :: l2).
      { apply elem_of_app in Hp as [Hp|Hp]; [|done]. rewrite Forall_forall in Hoff. by apply Hoff in Hon. }
      pose proof (in_order_behind _ _ _ _ _ Ho Hpl) as Hle. unfold rank_of in Hle. rewrite HD, HDq in Hle. cbn in Hle. lia.
  - apply wp_hbind. eapply (wp_first e2); [exact c_tree|]. apply wp_hbind, wp_get.
    eapply wp_conseq; [apply (wp_expire_loop N' sched ps _ e2); try done|].
    { pose proof (in_tree_size _ _ c_tree). cbn. lia. }
    intros [] e' (l1 & l2 & h & -> & -> & Hin & Hl1 & Hl2). exists l1, l2. split; [done|]. split_and!; [by exists h|done..|].
    intros p D Hp Hon HD. destruct l2 as [|q l2]; [by apply elem_of_nil in Hp|].
    destruct (Hl2 q) as (t & Dq & Et & HDq & Hlt); [done|]. pose proof (Hb _ _ Et).
    pose proof (in_order_behind _ _ _ _ _ Ho Hp) as Hle. unfold rank_of in Hle. rewrite HD, HDq in Hle. cbn in Hle. lia.
Qed.

(** The schedule after an expiration. *)
Lemma expired_settled e N N' sched ps m l1 l2 e' :
  settled e N sched ps -> ps = l1 ++ l2 -> (forall p D, sched !! p = Some D -> near N' D) ->
  expired (set_minimum m e) N' sched l1 l2 e' ->
  settled e' N' (filter (fun kv => kv.1 ∉ l1) sched) l2.
Proof.
  intros Hs -> Hnr ((h & He') & Hin & Hl1 & Hl2). pose proof Hs as [Hn []]. destruct c_due as [Ho _].
  pose proof (in_tree_nodup _ _ c_tree) as [_ (_ & Hdis & _)%NoDup_app]%NoDup_cons.
  assert (Hsame : forall p, p ∉ l1 -> filter (fun kv => kv.1 ∉ l1) sched !! p = sched !! p).
  { intros p Hp. destruct (sched !! p) as [D|] eqn:HD; [by apply map_lookup_filter_Some|].
    apply map_lookup_filter_None. by left. }
  replace e' with (set_nchanges 0 e') by (rewrite He'; destruct e; cbn in *; by subst).
  apply settled_spec; try done.
  - apply in_order_app in Ho as (_ & Ho & _). eapply in_order_ext; [|exact Ho]. intros p Hp. unfold rank_of.
    rewrite Hsame; [done|]. intros Hp1. by apply (Hdis p).
  - by rewrite He'.
  - by rewrite He'.
  - intros p t. rewrite He'. cbn. rewrite lookup_mark. destruct (timers e !! p) as [tp|] eqn:Etp; [|done]. cbn.
    intros [= <-]. transitivity (change tp); [unfold marked; by case_match|]. by eapply settled_change.
  - intros p Hp. destruct (settled_sooner _ _ _ _ p Hs) as (t & Et & D & HD & Htm & _); [set_solver +Hp|].
    exists (marked (bool_decide (p ∈ l1)) t). rewrite He'. cbn. rewrite lookup_mark, Et. split; [done|].
    exists D. rewrite Hsame by (intros Hp1; by apply (Hdis p)). split_and!; [done| |by eapply Hnr].
    by rewrite (proj1 (marked_same _ _)).
  - intros p [D HD]. apply map_lookup_filter_Some in HD as [HD Hp]. cbn in Hp.
    assert (p ∈ l1 ++ l2) as [|]%elem_of_app; [|done..]. apply (settled_elem _ _ _ _ _ Hs). by eexists.
Qed.

End Operations.
