(* ===== verification/TimerSpec.v ===== *)
(** * What timers promise

    The contract of the timers of an event engine, in terms of the times for
    which timers are scheduled: the operations of nxt_timer.c implement it, and
    a timer that is set expires in time. *)

From stdpp Require Import sorting.
From S2P Require Import Prelude Heap Rbtree RbInsert RbDelete RbWalk RbSpec Timer TimerCommit TimerOps.

#[local] Open Scope Z_scope.


Section Contract.
Context {TR : Sentinel}.

(** ** The contract *)

Record alarms := Alarms {
  clock : Z;
  schedule : gmap ptr Z;
  stats : gmap ptr status;
  queue : list ptr
}.

(** A timer that is on waits in a work queue or is scheduled. *)
Definition proper (a : alarms) : Prop :=
  NoDup (queue a) /\ (forall p, p ∈ queue a <-> exists s, stats a !! p = Some s /\ waiting s = true) /\
  (forall p s, stats a !! p = Some s -> 0 <= slack s <= 255 /\
     (on s = true -> p ∈ queue a \/ is_Some (schedule a !! p))).

Definition represents (e : engine) (a : alarms) : Prop :=
  (exists ps due, consistent e (clock a) (schedule a) ps due 0 []) /\
  (forall p, prompt e (schedule a) p) /\ now e = u32 (clock a) /\
  flags <$> timers e = stats a /\ works e = queue a.

Inductive timer_op :=
  | New (p : ptr) (b : Z)
  | Add (p : ptr) (timeout : Z)
  | Cancel (p : ptr)
  | Release (p : ptr)
  | Disable (p : ptr)
  | Handle (p : ptr)
  | Poll (N : Z).

(** The owner of a timer frees it if [nxt_timer_delete] says that nothing refers
    to it; the engine pops the timers that wait and polls when there are none. *)
Definition exec (op : timer_op) : M Z :=
  match op with
  | New p b => let^ _ := update (create p b) in hret 0
  | Add p timeout => let^ _ := nxt_timer_add p timeout in hret 0
  | Cancel p => let^ r := nxt_timer_delete p in hret (Z.b2z r)
  | Release p =>
      let^ r := nxt_timer_delete p in
      let^ _ := (if r then hret tt else update (forget p)) in
      hret (Z.b2z r)
  | Disable p => let^ _ := nxt_timer_disable p in hret 0
  | Handle p =>
      let^ _ := update (fun e => set_works (filter (fun q => q <> p) (works e)) e) in
      let^ r := nxt_timer_handler p in
      hret (Z.b2z r)
  | Poll N =>
      let^ timeout := nxt_timer_find in
      let^ _ := nxt_timer_expire (u32 N) in
      hret timeout
  end.

(** What the callers respect; times are within [window] of the clock. *)
Definition permitted (a : alarms) (op : timer_op) : Prop :=
  match op with
  | New p b => stats a !! p = None /\ p <> NULL /\ p <> sent /\ 0 <= b <= 255
  | Add p timeout => is_Some (stats a !! p) /\ 0 <= timeout < window
  | Cancel p | Release p | Disable p => is_Some (stats a !! p)
  | Handle p => p ∈ queue a
  | Poll N => queue a = [] /\ clock a <= N < clock a + window /\ forall p D, schedule a !! p = Some D -> near N D
  end.

Definition turn_off (p : ptr) (a : alarms) : gmap ptr status :=
  alter (fun s => Status (slack s) false (waiting s)) p (stats a).

(** The time of the earliest timer that is on. *)
Definition earliest (a : alarms) (timeout : Z) : Prop :=
  (timeout = NXT_INFINITE_MSEC /\ forall p s, stats a !! p = Some s -> on s = true -> schedule a !! p = None) \/
  exists p s D, stats a !! p = Some s /\ on s = true /\ schedule a !! p = Some D /\ timeout = Z.max (D - clock a) 0 /\
    forall q s' D', stats a !! q = Some s' -> on s' = true -> schedule a !! q = Some D' -> D <= D'.

(** The timers [ps] expire at [N], in the order of their times. *)
Definition expires (a : alarms) (N : Z) (ps : list ptr) (a' : alarms) : Prop :=
  NoDup ps /\ in_order (rank_of (schedule a)) ps /\
  (forall p, p ∈ ps -> exists s D, stats a !! p = Some s /\ schedule a !! p = Some D /\ D - slack s <= N) /\
  (forall p s D, stats a !! p = Some s -> on s = true -> schedule a !! p = Some D -> D <= N -> p ∈ ps) /\
  a' = Alarms N (filter (fun kv => kv.1 ∉ ps) (schedule a))
         (map_imap (fun p s => Some (if decide (p ∈ ps) then Status (slack s) (on s) (on s || waiting s) else s)) (stats a))
         (queue a ++ filter (fun p => (on <$> stats a !! p) = Some true) ps).

Definition effect (a : alarms) (op : timer_op) (r : Z) (a' : alarms) : Prop :=
  match op with
  | New p b => r = 0 /\ a' = Alarms (clock a) (schedule a) (<[p := Status b false false]> (stats a)) (queue a)
  | Add p timeout =>
      exists s D, stats a !! p = Some s /\ r = 0 /\ Z.abs (D - (clock a + timeout)) <= slack s /\
        a' = Alarms (clock a) (<[p := D]> (schedule a)) (<[p := Status (slack s) true (waiting s)]> (stats a)) (queue a)
  | Cancel p =>
      a' = Alarms (clock a) (delete p (schedule a)) (turn_off p a) (queue a) /\ (r = 1 \/ r = 0 /\ p ∉ queue a)
  | Release p =>
      r = 1 /\ a' = Alarms (clock a) (delete p (schedule a)) (turn_off p a) (queue a) \/
      r = 0 /\ p ∉ queue a /\ a' = Alarms (clock a) (delete p (schedule a)) (delete p (stats a)) (queue a)
  | Disable p => r = 0 /\ a' = Alarms (clock a) (schedule a) (turn_off p a) (queue a)
  | Handle p =>
      exists s, stats a !! p = Some s /\
        (r = 1 /\ on s = true /\
           a' = Alarms (clock a) (schedule a) (<[p := Status (slack s) false false]> (stats a)) (filter (fun q => q <> p) (queue a)) \/
         r = 0 /\ (on s = false \/ is_Some (schedule a !! p)) /\
           a' = Alarms (clock a) (schedule a) (<[p := Status (slack s) (on s) false]> (stats a)) (filter (fun q => q <> p) (queue a)))
  | Poll N => earliest a r /\ exists ps, expires a N ps a'
  end.

Lemma stats_timer e a p s : represents e a -> stats a !! p = Some s -> exists t, timers e !! p = Some t /\ flags t = s.
Proof.
  intros (_ & _ & _ & <- & _) Hs. rewrite lookup_fmap in Hs. destruct (timers e !! p) as [t|]; [|done]. simplify_eq/=. eauto.
Qed.

(** The change of one timer, seen from the others. *)
Lemma prompt_other e e' sched sched' p :
  (forall q, prompt e sched q) -> (forall q, q <> p -> timers e' !! q = timers e !! q) ->
  (forall q, q <> p -> sched' !! q = sched !! q) -> forall q, q <> p -> prompt e' sched' q.
Proof. intros Hp Ht Hs q Hq t Et. rewrite Ht in Et by done. rewrite Hs by done. by apply Hp. Qed.

Lemma prompt_all e sched p :
  (forall q, q <> p -> prompt e sched q) ->
  (forall t, timers e !! p = Some t -> enabled t = true -> is_Some (sched !! p)) -> forall q, prompt e sched q.
Proof. intros Ho Hp q. destruct (decide (q = p)) as [->|Hq]; [|by apply Ho]. intros t Et He _. by eapply Hp. Qed.

Lemma wp_add_timer e a p timeout :
  represents e a -> proper a -> permitted a (Add p timeout) ->
  wp (nxt_timer_add p timeout) (fun _ e' => exists a', effect a (Add p timeout) 0 a' /\ represents e' a') e.
Proof.
  intros Hr Hprop [[s Hs] Hto]. destruct (stats_timer _ _ _ _ Hr Hs) as (t & Et & Hfl).
  destruct Hprop as (_ & _ & Hsl). destruct (Hsl _ _ Hs) as [Hslack _].
  destruct Hr as ((ps & due & Hc) & Hpr & Hnow & Hst & Hw).
  apply wp_hbind, wp_get. rewrite Hnow. replace (u32 (u32 (clock a) + timeout)) with (u32 (clock a + timeout)).
  2: { unfold u32. by rewrite Zplus_mod_idemp_l. }
  apply wp_hbind. eapply wp_set_timer; [exact Et|]. set (e1 := set_timers _ e).
  assert (Hc1 : consistent e1 (clock a) (schedule a) ps due 0 []) by by eapply consistent_flags.
  assert (Et1 : timers e1 !! p = Some (with_enabled true t)) by (cbn; by rewrite lookup_insert, decide_True).
  assert (Hpr1 : forall q, q <> p -> prompt e1 (schedule a) q).
  { eapply prompt_other; [exact Hpr| |done]. intros q Hq. cbn. by rewrite lookup_insert_ne. }
  assert (Hend : forall e' D, steady e1 e' -> Z.abs (D - (clock a + timeout)) <= slack s ->
    (forall q, q <> p -> prompt e' (<[p := D]> (schedule a)) q) ->
    (exists ps' due', consistent e' (clock a) (<[p := D]> (schedule a)) ps' due' 0 []) ->
    exists a', effect a (Add p timeout) 0 a' /\ represents e' a').
  { intros e' D (Hf & Hw' & Hn' & _) HD Hq He'. eexists. split; [by exists s, D|]. split_and!; cbn; [done| |..].
    - eapply prompt_all; [exact Hq|]. intros t' _ _. by rewrite lookup_insert, decide_True.
    - by rewrite Hn'.
    - rewrite Hf. cbn. rewrite fmap_insert, Hst. f_equal. by rewrite <- Hfl.
    - by rewrite Hw'. }
  apply wp_hbind. eapply wp_is_in_tree; [apply (c_tree _ _ _ _ _ _ _ Hc1)|by eexists|].
  apply wp_hbind. eapply wp_get_timer; [exact Et1|]. cbn [time bias with_enabled].
  destruct (bool_decide (p ∈ ps) && (Z.abs (nxt_msec_diff (u32 (clock a + timeout)) (time t)) <=? bias t)) eqn:Eb.
  - apply andb_true_iff in Eb as [Hp%bool_decide_eq_true Hdiff%Z.leb_le].
    destruct (c_due _ _ _ _ _ _ _ Hc) as [_ Hd]. destruct (Hd p Hp) as (Hnr & t' & Et' & Htm). simplify_eq.
    rewrite Htm, (near_diff (clock a)) in Hdiff by (try done; unfold near; lia).
    eapply wp_conseq; [by eapply wp_change_nope|]. intros [] e' (Ht' & Hst' & Hc').
    rewrite decide_True in Hc' by done. apply (Hend e' (due p)); [done|cbn; lia| |by exists ps, due].
    intros q Hq tq Etq. rewrite Ht' in Etq. rewrite lookup_insert_ne by done. by apply Hpr1.
  - eapply wp_conseq; [eapply (wp_change_op _ _ _ (<[p := clock a + timeout]> (schedule a))); try done|].
    + exists (clock a + timeout). rewrite lookup_insert, decide_True by done. split_and!; [done..|]. unfold near. lia.
    + intros q Hq. by rewrite lookup_insert_ne.
    + intros [] e' (Hst' & Hpr' & Hc'). eapply Hend; [done| |done..]. lia.
Qed.

Lemma turn_off_insert a p s :
  stats a !! p = Some s -> turn_off p a = <[p := Status (slack s) false (waiting s)]> (stats a).
Proof.
  intros Hs. apply map_eq. intros q. unfold turn_off. destruct (decide (q = p)) as [->|Hq].
  - rewrite lookup_alter, lookup_insert, !decide_True, Hs by done. done.
  - by rewrite lookup_alter_ne, lookup_insert_ne.
Qed.

Lemma wp_delete_timer e a p :
  represents e a -> proper a -> is_Some (stats a !! p) ->
  wp (nxt_timer_delete p)
    (fun r e' => represents e' (Alarms (clock a) (delete p (schedule a)) (turn_off p a) (queue a)) /\
       (r = false -> p ∉ queue a /\ exists ps due t, timers e' !! p = Some t /\ p ∉ ps /\ change t = 0 /\
          consistent e' (clock a) (delete p (schedule a)) ps due 0 [])) e.
Proof.
  intros Hr Hprop [s Hs]. destruct (stats_timer _ _ _ _ Hr Hs) as (t & Et & Hfl).
  destruct Hprop as (_ & Hq & _). destruct Hr as ((ps & due & Hc) & Hpr & Hnow & Hst & Hw).
  apply wp_hbind. eapply wp_set_timer; [exact Et|]. set (e1 := set_timers _ e).
  assert (Hc1 : consistent e1 (clock a) (schedule a) ps due 0 []) by by eapply consistent_flags.
  assert (Et1 : timers e1 !! p = Some (with_enabled false t)) by (cbn; by rewrite lookup_insert, decide_True).
  assert (Hpr1 : forall q, q <> p -> prompt e1 (schedule a) q).
  { eapply prompt_other; [exact Hpr| |done]. intros q Hne. cbn. by rewrite lookup_insert_ne. }
  assert (Hend : forall e', steady e1 e' -> (forall q, q <> p -> prompt e' (delete p (schedule a)) q) ->
    (exists ps' due', consistent e' (clock a) (delete p (schedule a)) ps' due' 0 []) ->
    represents e' (Alarms (clock a) (delete p (schedule a)) (turn_off p a) (queue a))).
  { intros e' (Hf & Hw' & Hn' & _) Hq' He'. 
    assert (Hfl' : flags <$> timers e' = turn_off p a).
    { rewrite Hf. cbn. rewrite fmap_insert, Hst, (turn_off_insert _ _ _ Hs). f_equal. by rewrite <- Hfl. }
    split_and!; cbn; [done| |by rewrite Hn'|done|by rewrite Hw'].
    eapply prompt_all; [exact Hq'|]. intros t' Et' Hen. exfalso.
    assert (Hl : (flags <$> timers e') !! p = Some (flags t')) by by rewrite lookup_fmap, Et'.
    rewrite Hfl', (turn_off_insert _ _ _ Hs), lookup_insert, decide_True in Hl by done.
    injection Hl as _ Hon _. congruence. }
  apply wp_hbind. eapply wp_is_in_tree; [apply (c_tree _ _ _ _ _ _ _ Hc1)|by eexists|].
  case_bool_decide as Hp.
  - apply wp_hbind. eapply wp_conseq; [eapply (wp_change_op _ _ _ (delete p (schedule a))); try done|].
    + split; [done|]. by rewrite lookup_delete, decide_True.
    + intros q Hne. by rewrite lookup_delete_ne.
    + intros [] e' (Hst' & Hpr' & Hc'). apply wp_hret. split; [by apply Hend|done].
  - apply wp_hbind. eapply wp_conseq; [by eapply wp_change_nope|]. intros [] e' (Ht' & Hst' & Hc').
    rewrite decide_False in Hc' by done. apply wp_hbind. eapply wp_get_timer; [by rewrite Ht'|]. apply wp_hret. split.
    + apply Hend; [done| |by exists ps, due]. intros q Hne tq Etq. rewrite Ht' in Etq. rewrite lookup_delete_ne by done.
      by apply Hpr1.
    + cbn. intros [Hqd Hch]%orb_false_iff. apply negb_false_iff, Z.eqb_eq in Hch. split.
      * rewrite Hq. intros (s' & Hs' & Hwait). simplify_eq. cbn in Hwait. congruence.
      * exists ps, due, (with_enabled false t). rewrite Ht'. done.
Qed.


Lemma wp_disable_timer e a p :
  represents e a -> is_Some (stats a !! p) ->
  wp (nxt_timer_disable p) (fun _ e' => represents e' (Alarms (clock a) (schedule a) (turn_off p a) (queue a))) e.
Proof.
  intros Hr [s Hs]. destruct (stats_timer _ _ _ _ Hr Hs) as (t & Et & Hfl).
  destruct Hr as ((ps & due & Hc) & Hpr & Hnow & Hst & Hw). eapply wp_set_timer; [exact Et|].
  split_and!; cbn; [exists ps, due; by eapply consistent_flags| |done| |done].
  - eapply prompt_all; [eapply prompt_other; [exact Hpr| |done]|].
    + intros q Hq. cbn. by rewrite lookup_insert_ne.
    + intros t'. cbn. rewrite lookup_insert, decide_True by done. by intros [= <-].
  - rewrite fmap_insert, Hst, (turn_off_insert _ _ _ Hs). f_equal. by rewrite <- Hfl.
Qed.

Lemma wp_handle_timer e a p :
  represents e a -> proper a -> p ∈ queue a ->
  wp (exec (Handle p)) (fun r e' => exists a', effect a (Handle p) r a' /\ represents e' a') e.
Proof.
  intros Hr (_ & Hq & _) Hp. apply Hq in Hp as (s & Hs & Hwait).
  destruct (stats_timer _ _ _ _ Hr Hs) as (t & Et & Hfl). destruct Hr as ((ps & due & Hc) & Hpr & Hnow & Hst & Hw).
  apply wp_hbind, wp_update, wp_hbind, wp_hbind. eapply wp_set_timer; [exact Et|].
  apply wp_hbind. eapply wp_get_timer; [cbn; by rewrite lookup_insert, decide_True|]. cbn [enabled change with_queued].
  assert (Hend : forall t', change t' = change t -> time t' = time t -> (enabled t' = true -> enabled t = true) ->
    represents (set_timers (<[p := t']> (timers e)) (set_works (filter (fun q => q <> p) (works e)) e))
      (Alarms (clock a) (schedule a) (<[p := flags t']> (stats a)) (filter (fun q => q <> p) (queue a)))).
  { intros t' Hch Htm Hen. split_and!; cbn; [|..|done| |by rewrite Hw].
    - exists ps, due. eapply (consistent_flags (set_works _ e)); [|done..]. by destruct Hc; constructor.
    - intros q tq Etq. cbn in Etq. destruct (decide (q = p)) as [->|Hne].
      + rewrite lookup_insert, decide_True in Etq by done. simplify_eq. rewrite Hch. intros He. by apply (Hpr p t), Hen.
      + rewrite lookup_insert_ne in Etq by done. by apply Hpr.
    - by rewrite fmap_insert, Hst. }
  destruct (enabled t && (change t =? 0)) eqn:Eb.
  - apply andb_true_iff in Eb as [Een Hch%Z.eqb_eq]. apply wp_hbind.
    eapply wp_set_timer; [cbn; by rewrite lookup_insert, decide_True|]. apply wp_hret, wp_hret.
    eexists. split; [|cbn; rewrite insert_insert_eq; by apply (Hend (with_enabled false (with_queued false t)))].
    exists s. split; [done|]. left. rewrite <- Hfl. split_and!; done.
  - apply wp_hret, wp_hret. eexists. split; [|by apply (Hend (with_queued false t))].
    exists s. split; [done|]. right. rewrite <- Hfl. split_and!; [done| |done]. cbn.
    destruct (enabled t) eqn:Een; [|by left]. right. apply (Hpr p t); [done..|]. by apply Z.eqb_neq.
Qed.

(** ** The engine's turn *)

Lemma is_on_stats e a p : flags <$> timers e = stats a -> is_on e p <-> (on <$> stats a !! p) = Some true.
Proof. intros <-. unfold is_on. rewrite lookup_fmap. by destruct (timers e !! p). Qed.

Lemma found_earliest e a ps r m :
  settled e (clock a) (schedule a) ps -> flags <$> timers e = stats a ->
  found e (clock a) (schedule a) ps r m -> earliest a r.
Proof.
  intros Hs Hst Hf. pose proof Hs as [_ []]. destruct c_due as [Ho _].
  assert (Hon : forall p s D, stats a !! p = Some s -> on s = true -> schedule a !! p = Some D -> is_on e p /\ p ∈ ps).
  { intros p s D Hs1 Hon HD. split; [|apply (settled_elem _ _ _ _ _ Hs); by eexists].
    apply (is_on_stats _ _ _ Hst). rewrite Hs1. cbn. congruence. }
  destruct Hf as [(Hoff & -> & _)|(l1 & q & l2 & t & D & -> & Hoff & Et & Een & HD & -> & _)]; rewrite Forall_forall in Hoff.
  - left. split; [done|]. intros p s Hsp Hs1. apply eq_None_not_Some. intros [D HD].
    destruct (Hon _ _ _ Hsp Hs1 HD) as [H1 H2]. by apply (Hoff p).
  - right. exists q, (flags t), D. split_and!; [rewrite <- Hst, lookup_fmap, Et; done|done..|].
    intros p s D' Hsp Hs1 HD'. destruct (Hon _ _ _ Hsp Hs1 HD') as [H1 H2].
    assert (Hp : p ∈ q :: l2) by (apply elem_of_app in H2 as [H2|H2]; [by apply Hoff in H1|done]).
    pose proof (in_order_behind _ _ _ _ _ Ho Hp) as Hle. unfold rank_of in Hle. rewrite HD, HD' in Hle. exact Hle.
Qed.

Lemma wp_poll e a N :
  represents e a -> proper a -> permitted a (Poll N) ->
  wp (exec (Poll N)) (fun r e' => exists a', effect a (Poll N) r a' /\ represents e' a') e.
Proof.
  intros ((ps0 & due & Hc) & _ & Hnow & Hst & Hw) (_ & _ & Hsl) (Hq & HN & Hnr).
  apply wp_hbind. eapply wp_conseq; [by eapply wp_find|]. intros r e2 (e1 & ps & m & Hst1 & Hs & -> & Hf).
  destruct Hst1 as (Hfl & Hw1 & _). rewrite Hst in Hfl. rewrite Hw in Hw1.
  assert (Hb : forall p t, timers e1 !! p = Some t -> 0 <= bias t <= 255).
  { intros p t Et. apply (Hsl p (flags t)). rewrite <- Hfl, lookup_fmap, Et. done. }
  apply wp_hbind. eapply wp_conseq; [by eapply wp_expire|]. intros [] e' (l1 & l2 & Hps & Hex). apply wp_hret.
  pose proof (expired_settled _ _ _ _ _ _ _ _ _ Hs Hps Hnr Hex) as Hs'.
  destruct Hex as ((h & He') & Hin & Hl1 & Hl2). eexists. split; [split; [by eapply found_earliest|]|].
  - exists l1. split_and!; [..|reflexivity].
    + pose proof Hs as [_ []]. pose proof (in_tree_nodup _ _ c_tree) as [_ Hnd]%NoDup_cons. subst ps.
      by apply NoDup_app in Hnd as [Hnd _].
    + pose proof Hs as [_ []]. destruct c_due as [Ho _]. subst ps. by apply in_order_app in Ho as [Ho _].
    + intros p Hp. rewrite Forall_forall in Hl1. destruct (Hl1 p Hp) as (t & D & Et & HD & Hle). exists (flags t), D.
      split_and!; [|done..]. rewrite <- Hfl, lookup_fmap. cbn in Et. by rewrite Et.
    + intros p s D Hsp Hon HD Hle. assert (Hp : p ∈ ps) by (apply (settled_elem _ _ _ _ _ Hs); by eexists).
      rewrite Hps in Hp. apply elem_of_app in Hp as [Hp|Hp]; [done|]. exfalso.
      assert (N < D); [|lia]. apply (Hl2 p D Hp); [|done]. apply (is_on_stats (set_minimum m e1) a p Hfl).
      rewrite Hsp. cbn. congruence.
  - split_and!; cbn.
    + exists l2, (rank_of (filter (fun kv => kv.1 ∉ l1) (schedule a))). apply Hs'.
    + intros p t Et _ Hch. by erewrite settled_change in Hch.
    + by rewrite He'.
    + rewrite He'. cbn. apply map_eq. intros p. rewrite lookup_fmap, lookup_mark, map_lookup_imap, <- Hfl, lookup_fmap.
      destruct (timers e1 !! p) as [t|]; [|done]. cbn. f_equal. unfold marked. case_bool_decide as Hp.
      * rewrite decide_True by done. unfold flags. destruct t as [b c en qd tm]. by destruct en.
      * by rewrite decide_False.
    + rewrite He'. cbn. rewrite Hw1. f_equal. apply list_filter_iff. intros p. by apply (is_on_stats (set_minimum m e1)).
Qed.

(** Every operation does what the contract says. *)
Lemma wp_exec e a op :
  represents e a -> proper a -> permitted a op ->
  wp (exec op) (fun r e' => exists a', effect a op r a' /\ represents e' a') e.
Proof.
  intros Hr Hprop Hop. destruct op as [p b|p timeout|p|p|p|p|N].
  - destruct Hop as (Hnone & Hp0 & Hps & Hb). apply wp_hbind, wp_update, wp_hret. eexists. split; [done|].
    destruct Hr as ((ps & due & Hc) & Hpr & Hnow & Hst & Hw).
    assert (Et : timers e !! p = None).
    { rewrite <- Hst, lookup_fmap in Hnone. by destruct (timers e !! p). }
    split_and!; cbn; [exists ps, due; by apply consistent_create| |done| |done].
    + intros q t. cbn. destruct (decide (q = p)) as [->|Hq]; [|rewrite lookup_insert_ne by done; by apply Hpr].
      rewrite lookup_insert, decide_True by done. by intros [= <-].
    + by rewrite fmap_insert, Hst.
  - apply wp_hbind. eapply wp_conseq; [by apply (wp_add_timer e a)|]. intros [] e' He'. by apply wp_hret.
  - apply wp_hbind. eapply wp_conseq; [by apply (wp_delete_timer e a)|]. intros r e' [Hr' Hfree]. apply wp_hret.
    eexists. split; [split; [done|]|done]. destruct r; [by left|right]. split; [done|]. by apply Hfree.
  - apply wp_hbind. eapply wp_conseq; [by apply (wp_delete_timer e a)|]. intros [|] e' [Hr' Hfree]; apply wp_hbind.
    + apply wp_hret, wp_hret. eexists. split; [by left|done].
    + destruct (Hfree eq_refl) as (Hq & ps & due & t & Et & Hp & Hch & Hc). apply wp_update, wp_hret.
      eexists. split; [right; by split_and!|]. destruct Hr' as (_ & Hpr & Hnow & Hst & Hw). split_and!; cbn in *.
      * exists ps, due. by eapply consistent_forget.
      * intros q tq. cbn. rewrite lookup_delete_Some. intros [_ Etq]. by apply Hpr.
      * done.
      * rewrite fmap_delete, Hst. apply map_eq. intros q. unfold turn_off.
        destruct (decide (q = p)) as [->|Hne]; [by rewrite !lookup_delete, !decide_True|].
        by rewrite !lookup_delete_ne, lookup_alter_ne.
      * done.
  - apply wp_hbind. eapply wp_conseq; [by apply (wp_disable_timer e a)|]. intros [] e' He'. apply wp_hret. by eexists.
  - by apply wp_handle_timer.
  - by apply wp_poll.
Qed.

(** ** The contract's own invariant *)

Lemma filter_ne_elem (p q : ptr) l : q ∈ filter (fun x => x <> p) (l : list ptr) <-> q <> p /\ q ∈ l.
Proof. rewrite list_elem_of_filter. done. Qed.

Lemma proper_waiting a p s : proper a -> stats a !! p = Some s -> p ∈ queue a <-> waiting s = true.
Proof. intros (_ & Hq & _) Hs. rewrite Hq. naive_solver congruence. Qed.

(** One timer changes, and nothing in the queue. *)
Lemma proper_insert a sched' p s :
  proper a -> (stats a !! p = None -> waiting s = false) -> (forall s', stats a !! p = Some s' -> waiting s' = waiting s) ->
  0 <= slack s <= 255 -> (on s = true -> p ∈ queue a \/ is_Some (sched' !! p)) ->
  (forall q, q <> p -> sched' !! q = schedule a !! q) ->
  proper (Alarms (clock a) sched' (<[p := s]> (stats a)) (queue a)).
Proof.
  intros Hprop Hnew Hold Hsl Hon Hne. pose proof Hprop as (Hnd & Hq & Hs). split_and!; cbn; [done| |].
  - intros q. destruct (decide (q = p)) as [->|Hqp]; [|rewrite lookup_insert_ne by done; apply Hq].
    rewrite lookup_insert, decide_True by done. rewrite Hq. destruct (stats a !! p) as [s'|] eqn:Es.
    + specialize (Hold s' eq_refl). clear -Hold. naive_solver congruence.
    + specialize (Hnew eq_refl). clear -Hnew. naive_solver congruence.
  - intros q s' Hs'. destruct (decide (q = p)) as [->|Hqp].
    + rewrite lookup_insert, decide_True in Hs' by done. by simplify_eq.
    + rewrite lookup_insert_ne in Hs' by done. rewrite Hne by done. by apply Hs.
Qed.

(** One timer leaves the queue. *)
Lemma proper_handled a p s o :
  proper a -> stats a !! p = Some s -> (o = true -> is_Some (schedule a !! p)) ->
  proper (Alarms (clock a) (schedule a) (<[p := Status (slack s) o false]> (stats a)) (filter (fun q => q <> p) (queue a))).
Proof.
  intros (Hnd & Hq & Hs) Hp Ho. split_and!; cbn; [by apply NoDup_filter| |].
  - intros q. rewrite filter_ne_elem. destruct (decide (q = p)) as [->|Hqp].
    + rewrite lookup_insert, decide_True by done. naive_solver.
    + rewrite lookup_insert_ne, Hq by done. naive_solver.
  - intros q s' Hs'. destruct (decide (q = p)) as [->|Hqp].
    + rewrite lookup_insert, decide_True in Hs' by done. simplify_eq. split; [by apply (Hs p s)|]. intros H. right. by apply Ho.
    + rewrite lookup_insert_ne in Hs' by done. destruct (Hs _ _ Hs') as [Hsl Hon]. split; [done|].
      intros H. destruct (Hon H); [left; by rewrite filter_ne_elem|by right].
Qed.

Lemma proper_expires a N ps a' : proper a -> queue a = [] -> expires a N ps a' -> proper a'.
Proof.
  intros Hprop Hq0 (Hnd & _ & Hps & _ & ->). pose proof Hprop as (_ & Hq & Hs).
  assert (Hw : forall p s, stats a !! p = Some s -> waiting s = false).
  { intros p s Hsp. apply not_true_is_false. rewrite <- (proper_waiting _ _ _ Hprop Hsp), Hq0. apply not_elem_of_nil. }
  rewrite Hq0 in *. split_and!; cbn; [by apply NoDup_filter| |].
  - intros p. rewrite list_elem_of_filter, map_lookup_imap. destruct (stats a !! p) as [s|] eqn:Hsp; cbn; [|naive_solver].
    specialize (Hw _ _ Hsp). case_decide as Hp.
    + split; [intros [[= Ho] _]; eexists; split; [done|]; cbn; by rewrite Ho|].
      intros (s' & [= <-] & Hw'). cbn in Hw'. rewrite Hw, orb_false_r in Hw'. by rewrite Hw'.
    + split; [naive_solver|]. intros (s' & [= <-] & Hw'). congruence.
  - intros p s'. rewrite map_lookup_imap. destruct (stats a !! p) as [s|] eqn:Hsp; cbn; [|done]. intros [= <-].
    destruct (Hs _ _ Hsp) as [Hsl Hon]. case_decide as Hp; cbn; (split; [done|]); intros Ho.
    + left. rewrite list_elem_of_filter, Hsp. cbn. by rewrite Ho.
    + right. destruct (Hon Ho) as [Hin|[D HD]]; [by apply elem_of_nil in Hin|]. exists D. by apply map_lookup_filter_Some.
Qed.

Lemma proper_effect a op r a' : proper a -> permitted a op -> effect a op r a' -> proper a'.
Proof.
  intros Hprop Hop Heff. pose proof Hprop as (Hnd & Hq & Hs).
  assert (Hoff : forall p sched', is_Some (stats a !! p) -> (forall q, q <> p -> sched' !! q = schedule a !! q) ->
    proper (Alarms (clock a) sched' (turn_off p a) (queue a))).
  { intros p sched' [s Hsp] Hne. rewrite (turn_off_insert _ _ _ Hsp).
    apply proper_insert; [done|by rewrite Hsp|naive_solver|apply (Hs p s Hsp)|done..]. }
  destruct op as [p b|p timeout|p|p|p|p|N]; cbn in Hop, Heff.
  - destruct Heff as [_ ->], Hop as (Hnone & _ & _ & Hb). apply proper_insert; naive_solver congruence.
  - destruct Heff as (s & D & Hsp & _ & _ & ->). apply proper_insert; [done|by rewrite Hsp|naive_solver|apply (Hs p s Hsp)|..].
    + intros _. right. by rewrite lookup_insert, decide_True.
    + intros q Hq'. by rewrite lookup_insert_ne.
  - destruct Heff as [-> _]. apply Hoff; [done|]. intros q Hq'. by rewrite lookup_delete_ne.
  - destruct Heff as [[_ ->]|(_ & Hpq & ->)]; [apply Hoff; [done|]; intros q Hq'; by rewrite lookup_delete_ne|].
    split_and!; cbn; [done| |].
    + intros q. setoid_rewrite lookup_delete_Some. rewrite Hq. split; [|naive_solver]. intros (s & Hsq & Hw).
      exists s. split_and!; [|done..]. intros <-. apply Hpq, Hq. eauto.
    + intros q s Hsq. apply lookup_delete_Some in Hsq as [Hne Hsq]. rewrite lookup_delete_ne by done. by apply Hs.
  - destruct Heff as [_ ->]. by apply Hoff.
  - destruct Heff as (s & Hsp & [(_ & Hon & ->)|(_ & Hon & ->)]); eapply proper_handled; try done.
    intros Ho. destruct Hon; [congruence|done].
  - destruct Heff as (_ & ps & Hex), Hop as (Hq0 & _). by eapply proper_expires.
Qed.

(** ** Runs *)

Fixpoint run_timers (ops : list timer_op) : M (list Z) :=
  match ops with
  | [] => hret []
  | op :: ops => let^ r := exec op in let^ rs := run_timers ops in hret (r :: rs)
  end.

Fixpoint effects (a : alarms) (ops : list timer_op) (rs : list Z) (a' : alarms) : Prop :=
  match ops, rs with
  | [], [] => a' = a
  | op :: ops, r :: rs => exists b, effect a op r b /\ effects b ops rs a'
  | _, _ => False
  end.

(** The callers respect the contract, whatever the operations do within it. *)
Fixpoint allowed (a : alarms) (ops : list timer_op) : Prop :=
  match ops with
  | [] => True
  | op :: ops => permitted a op /\ forall r a', effect a op r a' -> allowed a' ops
  end.

Lemma wp_run_timers ops : forall e a,
  represents e a -> proper a -> allowed a ops ->
  wp (run_timers ops) (fun rs e' => exists a', effects a ops rs a' /\ represents e' a' /\ proper a') e.
Proof.
  induction ops as [|op ops IH]; intros e a Hr Hprop Hall; [apply wp_hret; by exists a|].
  destruct Hall as [Hop Hall]. cbn [run_timers]. apply wp_hbind. eapply wp_conseq; [by apply wp_exec|].
  intros r e1 (b & Heff & Hr1). apply wp_hbind.
  eapply wp_conseq; [apply IH; [exact Hr1|by eapply proper_effect|by eapply Hall]|].
  intros rs e2 (a' & Heffs & Hr2 & Hp2). apply wp_hret. exists a'. split_and!; [by exists b|done..].
Qed.

(** The timers of a new engine, as nxt_event_engine_create makes them. *)
Definition no_alarms (N : Z) : alarms := Alarms N ∅ ∅ [].

Definition zeroed (n : nxt_rbtree_node) : engine := Engine {[ sent := n ]} ∅ 0 0 0 0 [] [].

Definition create_timers (max : Z) (garbage : nxt_timer_change_t) (N : Z) : M unit :=
  let^ _ := nxt_timers_init max true garbage in
  update (set_now (u32 N)).

Lemma wp_create_timers max garbage N n :
  0 < max -> sent <> NULL ->
  wp (create_timers max garbage N) (fun _ e => represents e (no_alarms N)) (zeroed n).
Proof.
  intros Hmax Hs0. apply wp_hbind.
  assert (Hinit : wp (nxt_rbtree_init sent callback) (fun _ h => stored h [] []) {[ sent := n ]}).
  { eapply (wp_init _ n); [done|]. split; [apply NoDup_singleton|]. constructor; [|constructor]. cbn. by rewrite lookup_singleton, decide_True. }
  unfold wp, nxt_timers_init. cbn [nodes zeroed]. unfold wp in Hinit.
  destruct (nxt_rbtree_init sent callback {[sent := n]}) as [[[] h]| |]; [|done..]. cbn.
  set (m := if NXT_TIMER_MAX_CHANGES <? max then NXT_TIMER_MAX_CHANGES else max).
  assert (Hm : 1 <= m <= NXT_TIMER_MAX_CHANGES) by (unfold m; destruct (Z.ltb_spec NXT_TIMER_MAX_CHANGES max); lia).
  split_and!; cbn; [|by intros p t|done|apply fmap_empty|done].
  exists [], (fun _ => 0). constructor; cbn; try done; try lia.
  - split_and!; [done|done|]. exists []. split_and!; [done| |by intros p m' Hp%elem_of_nil].
    intros p. cbn. rewrite lookup_empty. split; [by intros [? ?]|]. by intros [Hp|Hp]; apply elem_of_nil in Hp.
  - split; [constructor|]. by intros p Hp%elem_of_nil.
  - rewrite length_replicate. lia.
  - intros p Hp. by rewrite lookup_empty in Hp; destruct Hp.
  - by intros p Hp%elem_of_nil.
  - apply NoDup_nil_2.
Qed.

Lemma no_alarms_proper N : proper (no_alarms N).
Proof.
  split_and!; cbn; [apply NoDup_nil_2| |].
  - intros p. rewrite lookup_empty. split; [by intros Hp%elem_of_nil|]. by intros (s & [=] & _).
  - intros p s. by rewrite lookup_empty.
Qed.

(** C22. The timers of an engine implement their contract: from a new engine,
    every sequence of operations that callers may do, with each turn of the event
    loop a search for the earliest timer and an expiration, runs without a fault
    and gives the results and the schedule that the contract says.  The poll
    timeout is the time to the earliest enabled timer; timers expire in the order
    of their times, none before its time less its bias and every enabled one when
    its time has come; a timer that is deleted and freed when nxt_timer_delete
    returned 0 is not used again; batched changes and the wrap-around of the
    millisecond counter cannot be seen. *)
Theorem nxt_timers_refine max garbage N n ops :
  0 < max -> sent <> NULL -> allowed (no_alarms N) ops ->
  wp (let^ _ := create_timers max garbage N in run_timers ops)
    (fun rs e => exists a, effects (no_alarms N) ops rs a /\ represents e a /\ proper a) (zeroed n).
Proof.
  intros Hmax Hs0 Hall. apply wp_hbind. eapply wp_conseq; [by apply wp_create_timers|].
  intros [] e Hr. by apply wp_run_timers; [..|apply no_alarms_proper|].
Qed.

(** ** Timers expire in time *)

Definition touches (p : ptr) (op : timer_op) : bool :=
  match op with
  | Add q _ | Cancel q | Release q | Disable q => bool_decide (q = p)
  | New _ _ | Handle _ | Poll _ => false
  end.

(** The clock after operations. *)
Definition clock_after (N : Z) (ops : list timer_op) : Z :=
  foldl (fun N op => match op with Poll N' => N' | _ => N end) N ops.

Definition armed (a : alarms) (p : ptr) (b D : Z) : Prop :=
  p ∉ queue a /\ schedule a !! p = Some D /\ exists s, stats a !! p = Some s /\ on s = true /\ slack s = b.

Definition pending (a : alarms) (p : ptr) (b D : Z) : Prop :=
  p ∈ queue a /\ schedule a !! p = None /\ D - b <= clock a /\ exists s, stats a !! p = Some s /\ on s = true.

Lemma touches_keeps a op r a' p s :
  touches p op = false -> op <> Handle p -> (forall N, op <> Poll N) -> effect a op r a' -> permitted a op ->
  stats a !! p = Some s -> clock a' = clock a /\ schedule a' !! p = schedule a !! p /\ stats a' !! p = Some s /\
    (p ∈ queue a' <-> p ∈ queue a).
Proof.
  intros Ht Hh HP Heff Hop Hs. destruct op as [q b|q timeout|q|q|q|q|N]; cbn in *; try apply bool_decide_eq_false in Ht.
  - destruct Heff as [_ ->]. cbn. rewrite lookup_insert_ne; [done|]. naive_solver congruence.
  - destruct Heff as (s' & D & _ & _ & _ & ->). cbn. by rewrite !lookup_insert_ne.
  - destruct Heff as [-> _]. cbn. unfold turn_off. by rewrite lookup_delete_ne, lookup_alter_ne.
  - destruct Heff as [[_ ->]|(_ & _ & ->)]; cbn; unfold turn_off; rewrite ?lookup_delete_ne, ?lookup_alter_ne; done.
  - destruct Heff as [_ ->]. cbn. unfold turn_off. by rewrite lookup_alter_ne.
  - assert (q <> p) by congruence. destruct Heff as (s' & _ & [(_ & _ & ->)|(_ & _ & ->)]); cbn; rewrite lookup_insert_ne by done;
      split_and!; try done; rewrite filter_ne_elem; naive_solver.
  - by destruct (HP N).
Qed.

Lemma clock_effect a op r a' ops : effect a op r a' -> clock_after (clock a) (op :: ops) = clock_after (clock a') ops.
Proof.
  destruct op; cbn; intros Heff.
  - by destruct Heff as [_ ->].
  - by destruct Heff as (s & D & _ & _ & _ & ->).
  - by destruct Heff as [-> _].
  - by destruct Heff as [[_ ->]|(_ & _ & ->)].
  - by destruct Heff as [_ ->].
  - by destruct Heff as (s & _ & [(_ & _ & ->)|(_ & _ & ->)]).
  - by destruct Heff as (_ & ps & _ & _ & _ & _ & ->).
Qed.

Lemma op_cases p op : (exists N, op = Poll N) \/ op = Handle p \/ (op <> Handle p /\ forall N, op <> Poll N).
Proof.
  destruct op as [q|q|q|q|q|q|N]; try by right; right.
  - destruct (decide (q = p)) as [->|Hq]; [by right; left|]. right; right. naive_solver congruence.
  - left. by exists N.
Qed.

Lemma armed_step a op r a' p b D :
  armed a p b D -> touches p op = false -> permitted a op -> effect a op r a' ->
  pending a' p b D \/ (armed a' p b D /\ forall N, op = Poll N -> N < D).
Proof.
  intros (Hq & HD & s & Hs & Hon & <-) Ht Hop Heff.
  destruct (op_cases p op) as [[N ->]|[->|[Hnh Hnp]]].
  - destruct Heff as (_ & ps & Hnd & _ & Hps & Hdue & ->), Hop as (Hq0 & _). destruct (decide (p ∈ ps)) as [Hp|Hp].
    + left. destruct (Hps p Hp) as (s' & D' & Hs' & HD' & Hle). simplify_eq. unfold pending. cbn.
      rewrite map_lookup_imap, Hs. cbn. rewrite decide_True by done. split_and!; [|..|lia|by eexists].
      * rewrite elem_of_app, list_elem_of_filter. right. split; [|done]. rewrite Hs. cbn. by rewrite Hon.
      * apply map_lookup_filter_None. right. intros ? _. cbn. by intros Hnp.
    + right. split.
      * unfold armed. cbn. rewrite map_lookup_imap, Hs. cbn. rewrite decide_False by done. split_and!; [|..|by eexists].
        -- rewrite Hq0. cbn. by intros [_ ?]%list_elem_of_filter.
        -- by apply map_lookup_filter_Some.
      * intros ? [= <-]. destruct (decide (D <= N)) as [Hle|]; [|lia]. destruct Hp. by eapply Hdue.
  - done.
  - right. destruct (touches_keeps _ _ _ _ _ _ Ht Hnh Hnp Heff Hop Hs) as (_ & H1 & H2 & H3). split; [|intros N ->; by destruct (Hnp N)].
    split_and!; [by rewrite H3|by rewrite H1|by exists s].
Qed.

Lemma pending_step a op r a' p b D :
  pending a p b D -> touches p op = false -> permitted a op -> effect a op r a' ->
  (op = Handle p /\ r = 1) \/ (pending a' p b D /\ forall N, op <> Poll N).
Proof.
  intros (Hq & HD & Hc & s & Hs & Hon) Ht Hop Heff. destruct (op_cases p op) as [[N ->]|[->|[Hnh Hnp]]].
  - destruct Hop as [Hq0 _]. rewrite Hq0 in Hq. by apply elem_of_nil in Hq.
  - left. split; [done|]. destruct Heff as (s' & Hs' & [[-> _]|(_ & [Hoff|[D' HD']] & _)]); [done|..]; simplify_eq; congruence.
  - right. destruct (touches_keeps _ _ _ _ _ _ Ht Hnh Hnp Heff Hop Hs) as (H0 & H1 & H2 & H3). split; [|done].
    split_and!; [by rewrite H3|by rewrite H1|by rewrite H0|by exists s].
Qed.

(** The handler of the timer is called, when the clock is not before [T]. *)
Definition handled (N : Z) (ops : list timer_op) (rs : list Z) (p : ptr) (T : Z) : Prop :=
  exists i, ops !! i = Some (Handle p) /\ rs !! i = Some 1 /\ T <= clock_after N (take i ops).

Lemma handled_cons a op r a' ops rs p T :
  effect a op r a' -> handled (clock a') ops rs p T -> handled (clock a) (op :: ops) (r :: rs) p T.
Proof. intros Heff (i & Hi & Hr & HT). exists (S i). cbn [take]. rewrite (clock_effect _ _ _ _ _ Heff). done. Qed.

Lemma pending_handled p b D ops : forall a rs a',
  pending a p b D -> allowed a ops -> effects a ops rs a' -> Forall (fun op => touches p op = false) ops ->
  (exists N, Poll N ∈ ops) -> handled (clock a) ops rs p (D - b).
Proof.
  induction ops as [|op ops IH]; intros a rs a' Hp Hall Heffs Ht [N HN]; [by apply elem_of_nil in HN|].
  destruct rs as [|r rs]; [done|]. destruct Heffs as (a1 & Heff & Heffs), Hall as [Hop Hall].
  apply Forall_cons in Ht as [Ht Hts].
  destruct (pending_step _ _ _ _ _ _ _ Hp Ht Hop Heff) as [[-> ->]|[Hp1 Hnp]].
  - exists O. split_and!; [done..|]. apply Hp.
  - eapply handled_cons; [exact Heff|]. apply (IH a1 rs a'); [done|by eapply Hall|done|done|].
    exists N. apply elem_of_cons in HN as [HN|HN]; [|done]. by destruct (Hnp N).
Qed.

Lemma armed_handled p b D N1 ops2 ops1 : forall a rs a',
  armed a p b D -> allowed a (ops1 ++ Poll N1 :: ops2) -> effects a (ops1 ++ Poll N1 :: ops2) rs a' ->
  Forall (fun op => touches p op = false) (ops1 ++ Poll N1 :: ops2) -> D <= N1 ->
  (exists N, Poll N ∈ ops2) -> handled (clock a) (ops1 ++ Poll N1 :: ops2) rs p (D - b).
Proof.
  induction ops1 as [|op ops1 IH]; intros a rs a' Ha Hall Heffs Ht HD Hpoll; cbn in *;
    (destruct rs as [|r rs]; [done|]); destruct Heffs as (a1 & Heff & Heffs), Hall as [Hop Hall];
    apply Forall_cons in Ht as [Ht Hts]; (eapply handled_cons; [exact Heff|]);
    destruct (armed_step _ _ _ _ _ _ _ Ha Ht Hop Heff) as [Hp|[Ha1 Hlt]].
  - by eapply pending_handled; [exact Hp|eapply Hall|..].
  - specialize (Hlt N1 eq_refl). lia.
  - eapply pending_handled; [exact Hp|by eapply Hall|done..|]. exists N1. set_solver +.
  - by eapply IH; [exact Ha1|eapply Hall|..].
Qed.


End Contract.

(** ** Examples *)

Definition example_sentinel : Sentinel := {| sent := 8; callback := 1 |}.

Section Example.
#[local] Existing Instance example_sentinel.

Definition example_alarms (c : Z) : alarms := Alarms c {[ 16 := 100 ]} {[ 16 := Status 0 true false ]} [].

Lemma example_set rs a : effects (no_alarms 0) [New 16 0; Add 16 100] rs a -> a = example_alarms 0.
Proof.
  destruct rs as [|r1 rs]; [done|]. intros (a1 & [_ ->] & Heffs). destruct rs as [|r2 rs]; [done|].
  destruct Heffs as (a2 & (s & D & Hs & _ & HD & ->) & Heffs). destruct rs; [|done]. cbn in Heffs. subst a.
  assert (s = Status 0 false false) as -> by (cbn in Hs; rewrite lookup_insert, decide_True in Hs by done; congruence). cbn in HD |- *.
  by replace D with 100 by lia.
Qed.

Lemma example_set_allowed : allowed (no_alarms 0) [New 16 0; Add 16 100].
Proof.
  split; [split_and!; done || lia|]. intros r a [_ ->]. split; [|done]. split; [by eexists|lia].
Qed.

Lemma example_expires c N ps a :
  expires (example_alarms c) N ps a -> ps = if 100 <=? N then [16] else [].
Proof.
  intros (Hnd & _ & Hps & Hdue & _). cbn in *.
  assert (Hin : forall p, p ∈ ps -> p = 16 /\ 100 <= N).
  { intros p Hp. destruct (Hps p Hp) as (s & D & [<- <-]%lookup_singleton_Some & [_ <-]%lookup_singleton_Some & Hle). cbn in Hle.
    split; [done|lia]. }
  destruct (Z.leb_spec 100 N) as [Hle|Hlt].
  - assert (H16 : 16 ∈ ps) by by eapply Hdue.
    destruct ps as [|p [|q ps]]; [by apply elem_of_nil in H16|destruct (Hin p) as [-> _]; [by left|done]|].
    destruct (Hin p) as [-> _]; [by left|]. destruct (Hin q) as [-> _]; [by right; left|].
    apply NoDup_cons in Hnd as [Hnd _]. destruct Hnd. by left.
  - destruct ps as [|p ps]; [done|]. destruct (Hin p); [by left|lia].
Qed.

Lemma example_poll c N : c <= N < c + window -> 0 <= N < 200 -> permitted (example_alarms c) (Poll N).
Proof.
  intros Hc HN. split; [done|]. split; [done|]. cbn. intros p D [_ <-]%lookup_singleton_Some. unfold near. lia.
Qed.

Definition example_turns : list timer_op := [Poll 50] ++ Poll 150 :: [Handle 16; Poll 180].

Lemma example_turns_allowed : allowed (example_alarms 0) example_turns.
Proof.
  split; [apply example_poll; lia|]. intros r1 a1 (_ & ps & Hex). pose proof (example_expires _ _ _ _ Hex) as ->.
  destruct Hex as (_ & _ & _ & _ & ->). split; [apply (example_poll 50); lia|].
  intros r2 a2 (_ & ps & Hex). pose proof (example_expires 50 _ _ _ Hex) as ->. destruct Hex as (_ & _ & _ & _ & ->).
  split; [by left|]. intros r3 a3 (s & Hs & Ha). split; [|done].
  assert (Ha3 : queue a3 = [] /\ clock a3 = 150 /\ schedule a3 = ∅).
  { destruct Ha as [(_ & _ & ->)|(_ & _ & ->)]; done. }
  destruct Ha3 as (Hq & Hc & Hsch). split_and!; [done|lia..|]. rewrite Hsch. by intros p D.
Qed.

Lemma nxt_timers_refine_witness :
  wp (let^ _ := create_timers 128 (Change NXT_TIMER_NOPE 0 0) 0 in run_timers [New 16 0; Add 16 100])
    (fun rs e => exists a, effects (no_alarms 0) [New 16 0; Add 16 100] rs a /\ represents e a /\ proper a)
    (zeroed (Node 0 0 0 0)).
Proof. apply (nxt_timers_refine 128); [lia|done|apply example_set_allowed]. Defined.


(** A timer that is set again while its handler waits in a work queue is not
    called if the change still waits, and is called too early if the array of
    changes was full and has been committed: the handler cannot tell then that
    the timer is in the tree. *)
Definition set_again (others : list ptr) : list timer_op :=
  ((fun q => New q 0) <$> 16 :: others) ++ [Add 16 100; Poll 100; Add 16 1000] ++ ((fun q => Add q 1000) <$> others) ++ [Handle 16].

Definition last_result (max : Z) (ops : list timer_op) : option Z :=
  match (let^ _ := create_timers max (Change NXT_TIMER_NOPE 0 0) 0 in run_timers ops) (zeroed (Node 0 0 0 0)) with
  | Ret (rs, _) => last rs
  | _ => None
  end.

Lemma set_again_waits : last_result 4 (set_again [24; 32; 40]) = Some 0.
Proof. vm_compute. reflexivity. Qed.

Lemma set_again_too_early : last_result 4 (set_again [24; 32; 40; 48]) = Some 1.
Proof. vm_compute. reflexivity. Qed.

End Example.
