(* ===== verification/NxtArray.v ===== *)
(** * Arrays that grow: [src/nxt_array.c] and [src/nxt_array.h]

    A [nxt_array_t] is the list of its elements, the number of elements that its
    memory has room for, and the field [nalloc], which keeps that number in 16
    bits.  [nxt_array_add()] returns the place that the caller then fills: here
    it takes the element that is stored there, and storing it outside the memory
    is a [Fault]. *)

From S2P Require Import Prelude.

Record nxt_array (A : Type) : Type := Arr {
  elts : list A;
  room : nat;
  nalloc : Z
}.
Arguments Arr {A} _ _ _.
Arguments elts {A} _.
Arguments room {A} _.
Arguments nalloc {A} _.

Section Array.
Context {A : Type} (alloc : nat -> bool).

Abbreviation nelts a := (Z.of_nat (length (elts a))).

Definition nxt_array_create (n : nat) : Alloc (option (nxt_array A)) :=
  let! ok := request alloc in
  aret (if ok then Some (Arr [] n (u16 (Z.of_nat n))) else None).

Definition new_nalloc (nalloc : Z) : Z :=
  if nalloc <? 16 then if nalloc =? 0 then 4 else nalloc * 2 else nalloc + nalloc / 2.

(** The memory of a full array is replaced; the elements are copied. *)
Definition array_grow (a : nxt_array A) : Alloc (option (nxt_array A)) :=
  if nelts a =? nalloc a then
    let n := new_nalloc (nalloc a) in
    let! ok := request alloc in
    aret (if ok then Some (Arr (elts a) (Z.to_nat n) (u16 n)) else None)
  else aret (Some a).

Definition nxt_array_add (a : nxt_array A) (x : A) : Alloc (option (nxt_array A)) :=
  let! g := array_grow a in
  match g with
  | None => aret None
  | Some a =>
      alift (if (length (elts a) <? room a)%nat then Ret (Some (Arr (elts a ++ [x]) (room a) (nalloc a))) else Fault)
  end.

Definition nxt_array_zero_add (zero : A) (a : nxt_array A) : Alloc (option (nxt_array A)) := nxt_array_add a zero.

(** The element at [i] is removed; the last one takes its place. *)
Definition nxt_array_remove (a : nxt_array A) (i : nat) : outcome (nxt_array A) :=
  match last (elts a) with
  | Some x =>
      if (i <? length (elts a))%nat
      then Ret (Arr (take (length (elts a) - 1) (<[i := x]> (elts a))) (room a) (nalloc a)) else Fault
  | None => Fault
  end.

Definition nxt_array_remove_last (a : nxt_array A) : outcome (option A * nxt_array A) :=
  if (length (elts a) =? 0)%nat then Fault
  else Ret (last (elts a), Arr (take (length (elts a) - 1) (elts a)) (room a) (nalloc a)).

Definition nxt_array_reset (a : nxt_array A) : nxt_array A := Arr [] (room a) (nalloc a).

Definition nxt_array_is_empty (a : nxt_array A) : bool := (length (elts a) =? 0)%nat.

(** The loop of [nxt_array_copy], on the elements [l] that are left. *)
Fixpoint copy_adds (dst : nxt_array A) (l : list A) : Alloc (option (nxt_array A)) :=
  match l with
  | [] => aret (Some dst)
  | x :: l =>
      let! r := nxt_array_add dst x in
      match r with None => aret None | Some dst => copy_adds dst l end
  end.

Definition copy_into (dst src : nxt_array A) : Alloc (option (nxt_array A)) :=
  if nelts src <=? nalloc dst then
    alift (if (length (elts src) <=? room dst)%nat then Ret (Some (Arr (elts src) (room dst) (nalloc dst))) else Fault)
  else
    let n := length (elts dst) in
    copy_adds (Arr (take n (elts src)) (room dst) (nalloc dst)) (drop n (elts src)).

Definition nxt_array_copy (dst : option (nxt_array A)) (src : nxt_array A) : Alloc (option (nxt_array A)) :=
  match dst with
  | Some dst => copy_into dst src
  | None =>
      let! r := nxt_array_create (length (elts src)) in
      match r with None => aret None | Some dst => copy_into dst src end
  end.

(** ** Arrays that are not too large *)

Abbreviation NALLOC_MAX := 43690 (only parsing).

(** The field tells the room. *)
Definition array_ok (a : nxt_array A) : Prop :=
  nalloc a = Z.of_nat (room a) /\ (length (elts a) <= room a)%nat /\ Z.of_nat (room a) <= 65535.

Lemma array_fresh n : Z.of_nat n <= 65535 -> array_ok (Arr [] n (Z.of_nat n)).
Proof. intros Hn. split_and!; cbn; lia. Qed.

Lemma array_create_ok n k :
  Z.of_nat n <= 65535 ->
  nxt_array_create n k = Ret (if alloc k then Some (Arr [] n (Z.of_nat n)) else None, S k).
Proof.
  intros Hn. unfold nxt_array_create, abind, request, aret. cbn. unfold u16. by rewrite Z.mod_small by lia.
Qed.

(** An element is added at the end, or the memory was not there. *)
Lemma add_ok a x k :
  array_ok a -> nelts a <= NALLOC_MAX ->
  exists r k', nxt_array_add a x k = Ret (r, k') /\
    match r with
    | Some a' => elts a' = elts a ++ [x] /\ array_ok a'
    | None => exists j, (k <= j)%nat /\ alloc j = false
    end.
Proof.
  intros (Hn & Hle & Hr) Hmax. unfold nxt_array_add, array_grow, abind, request, aret, alift.
  destruct (Z.eqb_spec (Z.of_nat (length (elts a))) (nalloc a)) as [E|E]; cbn.
  - destruct (alloc k) eqn:Ek; cbn; [|eexists _, _; split; [done|]; exists k; by split].
    assert (Hg : Z.of_nat (length (elts a)) < new_nalloc (nalloc a) <= 65535).
    { unfold new_nalloc. repeat case_match; zbool; try lia; dlia. }
    rewrite (proj2 (Nat.ltb_lt _ _)) by lia. cbn. eexists _, _. split; [done|]. cbn. split; [done|].
    split_and!; cbn; [unfold u16; rewrite Z.mod_small; lia|rewrite length_app; cbn; lia|lia].
  - rewrite (proj2 (Nat.ltb_lt _ _)) by lia. cbn. eexists _, _. split; [done|]. cbn. split; [done|].
    split_and!; cbn; [done|rewrite length_app; cbn; lia|lia].
Qed.

Lemma gives_add a x R :
  array_ok a -> nelts a <= NALLOC_MAX ->
  (forall a', elts a' = elts a ++ [x] -> array_ok a' -> R a') -> gives alloc (nxt_array_add a x) R.
Proof.
  intros Ha Hn HR k. destruct (add_ok a x k Ha Hn) as (r & k' & -> & Hr). exists r, k'. split; [done|].
  destruct r; naive_solver.
Qed.

Lemma gives_array {B} n (f : nxt_array A -> Alloc (option B)) R :
  Z.of_nat n <= 65535 -> (forall a, array_ok a -> elts a = [] -> gives alloc (f a) R) ->
  gives alloc (let! r := nxt_array_create n in match r with None => aret None | Some a => f a end) R.
Proof.
  intros Hn Hf k. unfold abind. rewrite array_create_ok by done. cbn. destruct (alloc k) eqn:Ek; cbn.
  - apply Hf; [|done]. split_and!; cbn; lia.
  - exists None, (S k). split; [done|]. by exists k.
Qed.

(** ** Arrays that are too large *)

(** The numbers of elements, of places and the field, after an addition; [None]
    when it is outside the memory. *)
Definition add_counts (c : option (Z * Z * Z)) : option (Z * Z * Z) :=
  match c with
  | None => None
  | Some (n, r, f) =>
      let '(r, f) := if n =? f then (new_nalloc f, u16 (new_nalloc f)) else (r, f) in
      if n <? r then Some (n + 1, r, f) else None
  end.

Definition counts (a : nxt_array A) : Z * Z * Z := (nelts a, Z.of_nat (room a), nalloc a).

Lemma new_nalloc_nonneg f : 0 <= f -> 0 <= new_nalloc f.
Proof. intros Hf. unfold new_nalloc. repeat case_match; zbool; try lia; dlia. Qed.

Lemma add_counts_ok a x k :
  (forall j, alloc j = true) -> 0 <= nalloc a ->
  match add_counts (Some (counts a)) with
  | Some c => exists a' k', nxt_array_add a x k = Ret (Some a', k') /\ counts a' = c /\ 0 <= nalloc a'
  | None => nxt_array_add a x k = Fault
  end.
Proof.
  intros Hal Hf. unfold nxt_array_add, array_grow, abind, request, aret, alift, counts, add_counts.
  pose proof (new_nalloc_nonneg _ Hf) as Hn.
  destruct (nelts a =? nalloc a); cbn; rewrite ?Hal; cbn.
  - destruct (length (elts a) <? Z.to_nat (new_nalloc (nalloc a)))%nat eqn:E; zbool.
    + rewrite (proj2 (Z.ltb_lt _ _)) by lia. eexists _, _. split; [done|]. cbn. rewrite length_app. cbn.
      split; [f_equal; f_equal; lia|]. unfold u16. apply Z.mod_pos_bound. lia.
    + by rewrite (proj2 (Z.ltb_ge _ _)) by lia.
  - destruct (length (elts a) <? room a)%nat eqn:E; zbool.
    + rewrite (proj2 (Z.ltb_lt _ _)) by lia. eexists _, _. split; [done|]. cbn. rewrite length_app. cbn.
      split; [f_equal; f_equal; lia|done].
    + by rewrite (proj2 (Z.ltb_ge _ _)) by lia.
Qed.

Lemma copy_adds_overrun l : forall a k,
  (forall j, alloc j = true) -> 0 <= nalloc a ->
  Nat.iter (length l) add_counts (Some (counts a)) = None -> copy_adds a l k = Fault.
Proof.
  induction l as [|x l IH]; intros a k Hal Hf Hc; [done|]. cbn [length] in Hc. rewrite Nat.iter_succ_r in Hc.
  pose proof (add_counts_ok a x k Hal Hf) as Ha. cbn [copy_adds]. unfold abind.
  destruct (add_counts (Some (counts a))) as [c|]; [|by rewrite Ha].
  destruct Ha as (a' & k' & -> & <- & Hf'). cbn. by apply IH.
Qed.


End Array.

