(* ===== verification/RoutePattern.v ===== *)
(** * Patterns of routes: [src/nxt_http_route.c]

    A pattern of a route is a text with asterisks, or a regular expression
    behind a tilde; an exclamation mark in front negates it.  The text is cut at
    its asterisks into slices when the configuration is loaded, and the slices
    are looked up in a value of the request. *)

From S2P Require Import Prelude Str Uri NxtArray Heap.

#[local] Open Scope Z_scope.

(** The texts between asterisks. *)
Abbreviation segments := (split_on STAR).
Abbreviation TILDE := 126 (only parsing).

(** Regular expressions are those of the PCRE library: [regex_compile] is [None]
    for an expression that it refuses, and [regex_match] tells whether a text
    matches, or is an error. *)
Class Regex := {
  regex : Type;
  regex_compile : list Z -> option regex;
  regex_match : regex -> list Z -> Z;
  regex_match_range : forall re s, regex_match re s = 1 \/ regex_match re s = 0 \/ regex_match re s = -1
}.

Inductive nxt_http_route_pattern_type := PATTERN_EXACT | PATTERN_BEGIN | PATTERN_END | PATTERN_SUBSTRING.

Inductive nxt_http_route_pattern_case := PATTERN_NOCASE | PATTERN_LOWCASE | PATTERN_UPCASE.

Inductive nxt_http_uri_encoding := URI_ENCODING_NONE | URI_ENCODING | URI_ENCODING_PLUS.

Record nxt_http_route_pattern_slice := Slice {
  slice_text : list Z;
  slice_type : nxt_http_route_pattern_type
}.

Section Pattern.
Context {RE : Regex} (alloc : nat -> bool).

Inductive pattern_body := Slices (a : nxt_array nxt_http_route_pattern_slice) | Regexp (re : regex).

Record nxt_http_route_pattern_t := Pattern {
  body : pattern_body;
  min_length : Z;
  case_sensitive : bool;
  negative : bool;
  any : bool
}.

(** ** Compilation *)

Definition nxt_upcase (c : Z) : Z :=
  if (CH_a <=? c) && (c <=? CH_z) then Z.land c (Z.lnot 0x20) else c.

Definition nxt_memcpy_lowcase (s : list Z) : list Z := map nxt_lowcase s.
Definition nxt_memcpy_upcase (s : list Z) : list Z := map nxt_upcase s.

(** A string at [start], which is decoded in its place: its new length, or
    [None] for an error. *)
Definition nxt_http_route_decode_str (mem : list Z) (start len : nat) (encoding : nxt_http_uri_encoding) :
    outcome (list Z * option nat) :=
  match encoding with
  | URI_ENCODING_NONE => Ret (mem, Some len)
  | URI_ENCODING =>
      let* (mem, e) := nxt_decode_uri mem start start len in
      Ret (mem, (fun end_ => end_ - start)%nat <$> e)
  | URI_ENCODING_PLUS =>
      let* (mem, e) := nxt_decode_uri_plus mem start start len in
      Ret (mem, (fun end_ => end_ - start)%nat <$> e)
  end.

Definition copy_case (pattern_case : nxt_http_route_pattern_case) (s : list Z) : list Z :=
  match pattern_case with
  | PATTERN_UPCASE => nxt_memcpy_upcase s
  | PATTERN_LOWCASE => nxt_memcpy_lowcase s
  | PATTERN_NOCASE => s
  end.

(** While a pattern is created: its text, its slices and its [min_length]. *)
Record creation := Creation {
  mem : list Z;
  slices : nxt_array nxt_http_route_pattern_slice;
  minimum_length : Z
}.

Section Create.
Context (pattern_case : nxt_http_route_pattern_case) (encoding : nxt_http_uri_encoding).

(** [nxt_http_route_pattern_slice] with the addition of the length to
    [min_length] that follows its calls; [None] for [NXT_ERROR]. *)
Definition pattern_slice (type : nxt_http_route_pattern_type) (start len : nat) (s : creation) :
    Alloc (option creation) :=
  let! (m, r) := alift (nxt_http_route_decode_str (mem s) start len encoding) in
  match r with
  | None => aret None
  | Some len =>
      let! ok := request alloc in
      if negb ok then aret None else
      let text := copy_case pattern_case (window m start (start + len)) in
      let! r := nxt_array_add alloc (slices s) (Slice text type) in
      match r with
      | None => aret None
      | Some a => aret (Some (Creation m a (u32 (minimum_length s + Z.of_nat len))))
      end
  end.

(** The search for the last asterisk, from [p] down. *)
Fixpoint back_loop (m : list Z) (start p : nat) : outcome nat :=
  if (p =? start)%nat then Ret p
  else
    match p with
    | O => Fault
    | S p' =>
        let* c := of_option (m !! p) in
        if c =? STAR then Ret (p' + 2)%nat else back_loop m start p'
    end.

(** The slices between asterisks, from [p] up to [p + n]: the current one is
    the [len] bytes from [tmp]. *)
Fixpoint inner_loop (n p tmp len : nat) (s : creation) : Alloc (option creation) :=
  match n with
  | O => if (len =? 0)%nat then aret (Some s) else pattern_slice PATTERN_SUBSTRING tmp len s
  | S n =>
      let! c := alift (of_option (mem s !! p)) in
      if negb (c =? STAR) then inner_loop n (S p) tmp (S len) s
      else if (len =? 0)%nat then inner_loop n (S p) (S p) len s
      else
        let! r := pattern_slice PATTERN_SUBSTRING tmp len s in
        match r with
        | None => aret None
        | Some s => inner_loop n (S p) (S p) 0 s
        end
  end.

(** The text from [start] behind the first slice. *)
Definition create_rest (start len : nat) (s : creation) : Alloc (option creation) :=
  let end_ := (start + len)%nat in
  let inner end_ s := inner_loop (end_ - start) start start 0 s in
  if (len =? 0)%nat then inner end_ s
  else
    let! c := alift (of_option (mem s !! (end_ - 1)%nat)) in
    if c =? STAR then inner end_ s
    else
      let! p := alift (back_loop (mem s) start (end_ - 1)) in
      let! r := pattern_slice PATTERN_END p (end_ - p) s in
      match r with
      | None => aret None
      | Some s => inner p s
      end.

Definition create_slices (start len : nat) (s : creation) : Alloc (option creation) :=
  let! c := alift (of_option (mem s !! start)) in
  if c =? STAR then create_rest (S start) (len - 1) s
  else
    match memchr (window (mem s) start (start + len)) STAR with
    | None =>
        let! r := pattern_slice PATTERN_EXACT start len s in
        match r with None => aret None | Some s => create_rest (start + len) 0 s end
    | Some n =>
        let! r := pattern_slice PATTERN_BEGIN start n s in
        match r with None => aret None | Some s => create_rest (start + n + 1) (len - (n + 1)) s end
    end.

(** The pattern, [None] for [NXT_ERROR], of the string [test] of the
    configuration. *)
Definition nxt_http_route_pattern_create (test : list Z) (case_sensitive : bool) :
    Alloc (option nxt_http_route_pattern_t) :=
  let neg := match test with c :: _ => c =? 33 | [] => false end in
  let start := if neg then 1%nat else 0%nat in
  let len := (length test - start)%nat in
  let pattern b min := Pattern b min case_sensitive neg (negb neg) in
  if match test !! start with Some c => c =? 126 | None => false end then
    aret ((fun re => pattern (Regexp re) 0) <$> regex_compile (drop (S start) test))
  else
    let! r := nxt_array_create alloc 1 in
    match r with
    | None => aret None
    | Some a =>
        if (len =? 0)%nat then
          let! r := nxt_array_add alloc a (Slice [] PATTERN_EXACT) in
          aret ((fun a => pattern (Slices a) 0) <$> r)
        else
          let! r := create_slices start len (Creation test a 0) in
          aret ((fun s => pattern (Slices (slices s)) (minimum_length s)) <$> r)
    end.

End Create.

(** ** Matching *)

Definition nxt_http_route_memcmp (start test : list Z) (case_sensitive : bool) : outcome bool :=
  if (length test =? 0)%nat then Ret true
  else if case_sensitive then memequal start test (length test)
  else let* n := nxt_memcasecmp start test (length test) in Ret (n =? 0).

(** The loop over the slices, on the text from [start] to [end_] of [v]. *)
Fixpoint slices_loop (sensitive : bool) (min_length : Z) (v : list Z) (ss : list nxt_http_route_pattern_slice)
    (start end_ : nat) : outcome bool :=
  match ss with
  | [] => Ret true
  | Slice test type :: ss =>
      match type with
      | PATTERN_EXACT =>
          if Z.of_nat (length v) =? min_length then nxt_http_route_memcmp (window v start (length v)) test sensitive
          else Ret false
      | PATTERN_BEGIN =>
          let* e := nxt_http_route_memcmp (window v start (length v)) test sensitive in
          if e then slices_loop sensitive min_length v ss (start + length test) end_ else Ret false
      | PATTERN_END =>
          if (end_ <? length test)%nat then Fault else
          let p := (end_ - length test)%nat in
          let* e := nxt_http_route_memcmp (window v p (length v)) test sensitive in
          if e then slices_loop sensitive min_length v ss start p else Ret false
      | PATTERN_SUBSTRING =>
          if (end_ <? start)%nat then Fault else
          let* p := (if sensitive then nxt_memstrn (window v start end_) test
                     else nxt_memcasestrn (window v start end_) test) in
          match p with
          | None => Ret false
          | Some p => slices_loop sensitive min_length v ss (start + p + length test) end_
          end
      end
  end.

(** What patterns keep in the request: whether [r->regex_match] was created, and
    the memory pool. *)
Record match_state := Match_state { regex_ready : bool; mp : nat }.

(** The value is [None] for a [NULL] start. *)
Definition nxt_http_route_pattern (pattern : nxt_http_route_pattern_t) (v : option (list Z)) : ST match_state Z :=
  fun r =>
    match body pattern with
    | Regexp re =>
        let text := default [] v in
        if regex_ready r then Ret (regex_match re text, r)
        else if alloc (mp r) then Ret (regex_match re text, Match_state true (S (mp r)))
        else Ret (-1, Match_state false (S (mp r)))
    | Slices a =>
        let length := Z.of_nat (length (default [] v)) in
        if length <? min_length pattern then Ret (0, r)
        else
          match v with
          | None => Ret (1, r)
          | Some v =>
              let* b := slices_loop (case_sensitive pattern) (min_length pattern) v (elts a) 0 (List.length v) in
              Ret (Z.b2z b, r)
          end
    end.


(** ** The reference *)

(** A value that is the segments in their order, with anything between them. *)
Fixpoint globs (segs : list (list Z)) (v : list Z) : Prop :=
  match segs with
  | [] => False
  | [s] => v = s
  | s :: rest => exists gap t, v = s ++ gap ++ t /\ globs rest t
  end.

Definition decode (encoding : nxt_http_uri_encoding) (s : list Z) : option (list Z) :=
  match encoding with
  | URI_ENCODING_NONE => Some s
  | URI_ENCODING => percent_decode false s
  | URI_ENCODING_PLUS => percent_decode true s
  end.

(** ** Segments *)

Lemma segments_no_star s : (forall c, c ∈ s -> c <> STAR) -> segments s = [s].
Proof. intros Hs. apply split_on_one. intros Hin. by apply (Hs STAR). Qed.

(** The slices of segments that are not empty. *)
Definition slice_of (type : nxt_http_route_pattern_type) (f : list Z -> list Z) (s : list Z) :
    list nxt_http_route_pattern_slice :=
  if (length s =? 0)%nat then [] else [Slice (f s) type].

Definition inner_slices (f : list Z -> list Z) (segs : list (list Z)) : list nxt_http_route_pattern_slice :=
  segs ≫= slice_of PATTERN_SUBSTRING f.

Lemma inner_slices_app f a b : inner_slices f (a ++ b) = inner_slices f a ++ inner_slices f b.
Proof. apply bind_app. Qed.

(** ** Compilation *)

Section Compile.
Context (pattern_case : nxt_http_route_pattern_case) (encoding : nxt_http_uri_encoding).

Abbreviation gives := (Prelude.gives alloc).

(** What a segment becomes. *)
Definition prepare (s : list Z) : list Z := copy_case pattern_case (default [] (decode encoding s)).

Definition decodes (s : list Z) : Prop := is_Some (decode encoding s).

(** A step from [s] to [s'] adds slices and has worked on the text from [a] to
    [b] only. *)
Record adds (a b : nat) (new : list nxt_http_route_pattern_slice) (s s' : creation) : Prop := {
  a_elts : elts (slices s') = elts (slices s) ++ new;
  a_min : minimum_length s' = minimum_length s + Z.of_nat (length (concat (slice_text <$> new)));
  a_length : length (mem s') = length (mem s);
  a_byte : Forall byte (mem s) -> Forall byte (mem s');
  a_mem : forall i, (i < a \/ b <= i)%nat -> mem s' !! i = mem s !! i;
  a_ok : array_ok (slices s) -> array_ok (slices s')
}.

Lemma adds_refl a b s : adds a b [] s s.
Proof. constructor; try done; [by rewrite app_nil_r|cbn; lia]. Qed.

Lemma adds_trans a b new1 new2 s1 s2 s3 : adds a b new1 s1 s2 -> adds a b new2 s2 s3 -> adds a b (new1 ++ new2) s1 s3.
Proof.
  intros [] []. constructor.
  - by rewrite a_elts1, a_elts0, app_assoc.
  - rewrite a_min1, a_min0, fmap_app, concat_app, length_app. lia.
  - congruence.
  - auto.
  - intros i Hi. rewrite a_mem1, a_mem0; done.
  - auto.
Qed.

Lemma adds_wider a b a' b' new s s' : (a' <= a)%nat -> (b <= b')%nat -> adds a b new s s' -> adds a' b' new s s'.
Proof. intros Ha Hb []. constructor; try done. intros i Hi. apply a_mem0. lia. Qed.

(** The text that a step has not worked on. *)
Lemma adds_window a b new s s' p q :
  adds a b new s s' -> (q <= a \/ b <= p)%nat -> (q <= length (mem s))%nat -> window (mem s') p q = window (mem s) p q.
Proof.
  intros [] Hpq Hq. apply list_eq. intros i. destruct (decide (p + i < q)%nat).
  - rewrite !window_lookup by done. apply a_mem0. lia.
  - unfold window. rewrite !lookup_drop, !lookup_take_ge by lia. done.
Qed.

Lemma written_window m start len :
  (start + len <= length m)%nat -> written m start (window m start (start + len)) = m.
Proof.
  intros Hl. unfold written. rewrite window_length by done. replace (start + (start + len - start))%nat with (start + len)%nat by lia.
  unfold window. rewrite app_assoc.
  replace (take start m) with (take start (take (start + len) m)) by (rewrite take_take; f_equal; lia).
  by rewrite !take_drop.
Qed.

Lemma window_written m start d :
  (start + length d <= length m)%nat -> window (written m start d) start (start + length d) = d.
Proof.
  intros Hl. unfold window, written. rewrite take_app_ge by (rewrite length_take; lia).
  rewrite length_take. replace (start + length d - start `min` length m)%nat with (length d) by lia.
  rewrite take_app_length, drop_app_ge by (rewrite length_take; lia). rewrite length_take.
  replace (start - start `min` length m)%nat with 0%nat by lia. done.
Qed.

Lemma lookup_written m start d i :
  (start + length d <= length m)%nat -> (i < start \/ start + length d <= i)%nat -> written m start d !! i = m !! i.
Proof.
  intros Hl Hi. unfold written. destruct Hi as [Hi|Hi].
  - rewrite lookup_app_l by (rewrite length_take; lia). by apply lookup_take_lt.
  - rewrite lookup_app_r by (rewrite length_take; lia). rewrite length_take, lookup_app_r by lia.
    rewrite lookup_drop. f_equal. lia.
Qed.

Lemma length_written m start d : (start + length d <= length m)%nat -> length (written m start d) = length m.
Proof. intros Hl. unfold written. rewrite !length_app, length_take, length_drop. lia. Qed.

Lemma percent_decode_byte plus n : forall s d, (length s <= n)%nat -> Forall byte s -> percent_decode plus s = Some d -> Forall byte d.
Proof.
  induction n as [|n IH]; intros s d Hn Hs Hd; (destruct s as [|c s]; [cbn in Hd; by simplify_eq|]); [cbn in Hn; lia|].
  cbn in Hn, Hd. apply Forall_cons in Hs as [Hc Hs]. destruct (c =? PERCENT).
  - destruct s as [|h [|l s]]; [done..|]. cbn in Hn. rewrite !Forall_cons in Hs. destruct Hs as (_ & _ & Hs).
    destruct (hex_value h) as [a|] eqn:Ea; [|done]. destruct (hex_value l) as [b|] eqn:Eb; [|done].
    apply hex_value_range in Ea, Eb. destruct (percent_decode plus s) as [d'|] eqn:Ed; [|done]. cbn in Hd. simplify_eq.
    constructor; [unfold byte; lia|]. eapply IH; [|done..]. lia.
  - destruct (percent_decode plus s) as [d'|] eqn:Ed; [|done]. cbn in Hd. simplify_eq.
    constructor; [destruct (plus && (c =? PLUS)); [unfold byte; lia|done]|]. eapply IH; [|done..]. lia.
Qed.

Lemma decode_str_ok m start len d :
  Forall byte m -> (start + len <= length m)%nat -> decode encoding (window m start (start + len)) = Some d ->
  exists m', nxt_http_route_decode_str m start len encoding = Ret (m', Some (length d)) /\
    m' = written m start d /\ (length d <= len)%nat.
Proof.
  intros Hm Hl Hd. unfold nxt_http_route_decode_str.
  assert (H : forall plus, percent_decode plus (window m start (start + len)) = Some d ->
    exists m', decode_loop plus len m start start (start + len) = Ret (m', Some (start + length d)%nat) /\
      m' = written m start d /\ (length d <= len)%nat).
  { intros plus Hp. destruct (decode_loop_ok plus len m start start (start + len)) as (m' & E & Hw); [done|lia..|].
    rewrite Hp in E, Hw. destruct (Hw d eq_refl) as [Hm' Hle]. exists m'. split_and!; [done|done|lia]. }
  unfold nxt_decode_uri, nxt_decode_uri_plus. destruct encoding; cbn in Hd.
  - injection Hd as <-. exists m. rewrite window_length by done.
    replace (start + len - start)%nat with len by lia. split_and!; [done| |lia].
    by rewrite written_window.
  - destruct (H false Hd) as (m' & -> & Hm' & Hle). exists m'. cbn. split_and!; [f_equal; f_equal; f_equal; lia|done..].
  - destruct (H true Hd) as (m' & -> & Hm' & Hle). exists m'. cbn. split_and!; [f_equal; f_equal; f_equal; lia|done..].
Qed.

Lemma decode_byte s d : Forall byte s -> decode encoding s = Some d -> Forall byte d.
Proof. unfold decode. destruct encoding; [naive_solver|by eapply percent_decode_byte..]. Qed.

Lemma length_copy_case s : length (copy_case pattern_case s) = length s.
Proof. unfold copy_case, nxt_memcpy_upcase, nxt_memcpy_lowcase. destruct pattern_case; by rewrite ?length_map. Qed.

Lemma Forall_window (P : Z -> Prop) m a b : Forall P m -> Forall P (window m a b).
Proof. intros H. by apply Forall_drop, Forall_take. Qed.

Lemma pattern_slice_ok type start len s :
  Forall byte (mem s) -> (start + len <= length (mem s))%nat -> array_ok (slices s) ->
  Z.of_nat (length (elts (slices s))) <= 43690 ->
  0 <= minimum_length s -> minimum_length s + Z.of_nat len < 2 ^ 32 ->
  decodes (window (mem s) start (start + len)) ->
  gives (pattern_slice pattern_case encoding type start len s)
    (adds start (start + len) [Slice (prepare (window (mem s) start (start + len))) type] s).
Proof.
  intros Hm Hl Ha Hn Hmin Hmax [d Hd]. unfold pattern_slice, prepare. rewrite Hd. cbn [default].
  destruct (decode_str_ok _ _ _ _ Hm Hl Hd) as (m' & E & -> & Hle).
  eapply gives_lift; [exact E|]. apply gives_request. cbn [negb].
  pose proof (decode_byte _ _ (Forall_window _ _ _ _ Hm) Hd) as Hdb. rewrite window_written by lia.
  intros k. unfold abind. destruct (add_ok alloc (slices s) (Slice (copy_case pattern_case d) type) k Ha Hn) as (r & k' & -> & Hr).
  cbn. destruct r as [a|]; cbn; [|exists None, k'; naive_solver]. destruct Hr as [Hel Hok].
  eexists _, _. split; [done|]. cbn. constructor; cbn; [done|..|done].
  - rewrite app_nil_r, length_copy_case. unfold u32. apply Z.mod_small. lia.
  - apply length_written. lia.
  - intros _. unfold written. apply Forall_app_2; [by apply Forall_take|]. apply Forall_app_2; [done|by apply Forall_drop].
  - intros i Hi. apply lookup_written; lia.
Qed.

Lemma percent_decode_length plus n : forall s d, (length s <= n)%nat -> percent_decode plus s = Some d -> (length d <= length s)%nat.
Proof.
  induction n as [|n IH]; intros s d Hn Hd; (destruct s as [|c s]; [cbn in Hd; by simplify_eq|]); [cbn in Hn; lia|].
  cbn in Hn, Hd. destruct (c =? PERCENT).
  - destruct s as [|h [|l s]]; [done..|]. cbn in Hn. destruct (hex_value h), (hex_value l); try done.
    destruct (percent_decode plus s) as [d'|] eqn:Ed; [|done]. cbn in Hd. simplify_eq. cbn.
    apply IH in Ed; lia.
  - destruct (percent_decode plus s) as [d'|] eqn:Ed; [|done]. cbn in Hd. simplify_eq. cbn. apply IH in Ed; lia.
Qed.

Lemma prepare_length s : (length (prepare s) <= length s)%nat.
Proof.
  unfold prepare. rewrite length_copy_case. destruct (decode encoding s) as [d|] eqn:Ed; cbn; [|lia].
  unfold decode in Ed. destruct encoding; [by simplify_eq|by eapply percent_decode_length..].
Qed.

(** There is room for [n] more bytes of text. *)
Definition ready (n : nat) (s : creation) : Prop :=
  Forall byte (mem s) /\ array_ok (slices s) /\ Z.of_nat (length (elts (slices s)) + n) <= 43690 /\
  0 <= minimum_length s /\ minimum_length s + Z.of_nat n <= 43690.

Lemma ready_adds a b n m type seg s s' :
  ready (n + m) s -> adds a b [Slice (prepare seg) type] s s' -> (0 < length seg <= m)%nat -> ready n s'.
Proof.
  intros (Hb & Hok & Hn & H0 & Hmin) [] Hm. pose proof (prepare_length seg). cbn in a_min0. rewrite app_nil_r in a_min0.
  split_and!; [auto|auto|rewrite a_elts0, length_app; cbn; lia|lia|lia].
Qed.

Lemma ready_less n m s : ready n s -> (m <= n)%nat -> ready m s.
Proof. intros (Hb & Hok & Hn & H0 & Hmin) Hm. split_and!; [done|done|lia..]. Qed.

Lemma ready_slice type start len s :
  ready len s -> (start + len <= length (mem s))%nat -> decodes (window (mem s) start (start + len)) ->
  gives (pattern_slice pattern_case encoding type start len s)
    (adds start (start + len) [Slice (prepare (window (mem s) start (start + len))) type] s).
Proof. intros (Hb & Hok & Hn & H0 & Hmin) Hl Hd. apply pattern_slice_ok; try done; lia. Qed.

Lemma decodes_segments_app a b :
  (forall seg, seg ∈ segments (a ++ STAR :: b) -> decodes seg) ->
  (forall seg, seg ∈ segments a -> decodes seg) /\ (forall seg, seg ∈ segments b -> decodes seg).
Proof. rewrite split_on_app. intros H. split; intros seg Hs; apply H, elem_of_app; auto. Qed.

Definition no_star (s : list Z) : Prop := forall c, c ∈ s -> c <> STAR.

Lemma slice_of_window type start len s :
  (len <> 0)%nat -> (start + len <= length (mem s))%nat ->
  slice_of type prepare (window (mem s) start (start + len)) = [Slice (prepare (window (mem s) start (start + len))) type].
Proof. intros H0 Hl. unfold slice_of. rewrite window_length by done. by rewrite (proj2 (Nat.eqb_neq _ _)) by lia. Qed.

Lemma inner_loop_ok n : forall p tmp len s,
  (tmp + len = p)%nat -> (p + n <= length (mem s))%nat -> ready (len + n) s ->
  no_star (window (mem s) tmp p) ->
  (forall seg, seg ∈ segments (window (mem s) tmp (p + n)) -> decodes seg) ->
  gives (inner_loop pattern_case encoding n p tmp len s)
    (adds tmp (p + n) (inner_slices prepare (segments (window (mem s) tmp (p + n)))) s).
Proof.
  induction n as [|n IH]; intros p tmp len s Hp Hl Hr Hns Hd; cbn [inner_loop].
  - rewrite Nat.add_0_r in *. rewrite segments_no_star in * by done. cbn. rewrite app_nil_r. destruct (Nat.eqb_spec len 0) as [H0|H0].
    + replace tmp with p by lia. rewrite window_end. apply gives_ret, adds_refl.
    + subst p. rewrite slice_of_window by done. apply ready_slice; [by eapply ready_less; [exact Hr|lia]|done|].
      apply Hd. by left.
  - destruct (lookup_lt_is_Some_2 (mem s) p) as [c Hc]; [lia|].
    eapply gives_lift; [by rewrite Hc|]. assert (Hcur : window (mem s) tmp (S p) = window (mem s) tmp p ++ [c]).
    { rewrite (window_split _ tmp p (S p)) by lia. f_equal. rewrite (window_cons _ _ _ c) by (done || lia). by rewrite window_end. }
    destruct (Z.eqb_spec c STAR) as [->|Hne]; cbn [negb].
    + assert (Htext : window (mem s) tmp (p + S n) = window (mem s) tmp p ++ STAR :: window (mem s) (S p) (S p + n)).
      { rewrite (window_split _ tmp p (p + S n)) by lia. f_equal.
        rewrite (window_cons _ p _ STAR) by (done || lia). f_equal. f_equal. lia. }
      rewrite Htext in Hd |- *. destruct (decodes_segments_app _ _ Hd) as [Hd1 Hd2]. rewrite split_on_app.
      rewrite segments_no_star in Hd1 |- * by done. rewrite inner_slices_app. cbn [inner_slices mbind list_bind].
      replace (p + S n)%nat with (S p + n)%nat by lia. rewrite app_nil_r.
      assert (Hrest : forall s', adds tmp p (slice_of PATTERN_SUBSTRING prepare (window (mem s) tmp p)) s s' -> ready (0 + n) s' ->
        gives (inner_loop pattern_case encoding n (S p) (S p) 0 s')
          (adds tmp (S p + n) (slice_of PATTERN_SUBSTRING prepare (window (mem s) tmp p) ++
             inner_slices prepare (segments (window (mem s) (S p) (S p + n)))) s)).
      { intros s' Hs' Hr'. assert (Hw : window (mem s') (S p) (S p + n) = window (mem s) (S p) (S p + n))
          by (eapply adds_window; [exact Hs'|lia|lia]).
        eapply gives_conseq; [apply IH; [lia|rewrite (a_length _ _ _ _ _ Hs'); lia|done| |]|].
        - intros x Hx. rewrite window_end in Hx. by apply elem_of_nil in Hx.
        - by rewrite Hw.
        - intros s2 Hs2. rewrite Hw in Hs2. eapply adds_trans; [|eapply adds_wider; [| |exact Hs2]; lia].
          eapply adds_wider; [| |exact Hs']; lia. }
      destruct (Nat.eqb_spec len 0) as [->|H0].
      * apply Hrest; [|by eapply ready_less; [exact Hr|lia]]. rewrite Nat.add_0_r in Hp. subst p. rewrite window_end. apply adds_refl.
      * subst p. rewrite slice_of_window in * by lia.
        eapply gives_bind; [apply (ready_slice PATTERN_SUBSTRING); [by eapply ready_less; [exact Hr|lia]|lia|apply Hd1; by left]|].
        intros s' Hs'. apply Hrest; [done|]. eapply (ready_adds _ _ (0 + n) len); [by eapply ready_less; [exact Hr|lia]|exact Hs'|].
        rewrite window_length by lia. lia.
    + replace (p + S n)%nat with (S p + n)%nat in * by lia. apply IH; [lia|lia|by eapply ready_less; [exact Hr|lia]| |done].
      rewrite Hcur. intros x [Hx|Hx]%elem_of_app; [by apply Hns|]. apply list_elem_of_singleton in Hx. by subst x.
Qed.

Lemma back_loop_ok m start end_ : forall p,
  (start <= p < end_)%nat -> (end_ <= length m)%nat -> (forall i, (p < i < end_)%nat -> m !! i <> Some STAR) ->
  exists q, back_loop m start p = Ret q /\ (start <= q <= S p)%nat /\
    (forall i, (q <= i < end_)%nat -> i <> start -> m !! i <> Some STAR) /\
    (q = start \/ (start + 1 < q)%nat /\ m !! (q - 1)%nat = Some STAR).
Proof.
  induction p as [|p IH]; intros Hp Hl Hns.
  - exists 0%nat. cbn. rewrite (proj2 (Nat.eqb_eq _ _)) by lia. split_and!; [done|lia|lia| |left; lia].
    intros i Hi Hne. apply Hns. lia.
  - cbn [back_loop]. destruct (Nat.eqb_spec (S p) start) as [<-|Hne].
    + exists (S p). split_and!; [done|lia|lia| |by left]. intros i Hi Hne. apply Hns. lia.
    + destruct (lookup_lt_is_Some_2 m (S p)) as [c Hc]; [lia|]. rewrite Hc. cbn.
      destruct (Z.eqb_spec c STAR) as [->|Hcs].
      * exists (p + 2)%nat. split_and!; [done|lia|lia| |right; split; [lia|]].
        -- intros i Hi _. apply Hns. lia.
        -- replace (p + 2 - 1)%nat with (S p) by lia. done.
      * destruct IH as (q & -> & Hq & Hi & Hor); [lia|done| |].
        { intros i Hi. destruct (decide (i = S p)) as [->|]; [congruence|]. apply Hns. lia. }
        exists q. split_and!; [done|lia|lia|done|done].
Qed.

Lemma window_no_star m a b : (forall i, (a <= i < b)%nat -> m !! i <> Some STAR) -> no_star (window m a b).
Proof.
  intros Hi c Hc ->. apply list_elem_of_lookup in Hc as [i Hc]. unfold window in Hc. rewrite lookup_drop in Hc.
  apply lookup_take_Some in Hc as [Hc Hlt]. apply (Hi (a + i)%nat); [lia|done].
Qed.

Lemma inner_slices_end us : inner_slices prepare (us ++ [[]]) = inner_slices prepare us.
Proof. rewrite inner_slices_app. cbn. by rewrite app_nil_r. Qed.

(** The slices of the text from [start] to [e], which is that of [s0]. *)
Lemma inner_text_ok start e end_ s0 s :
  (start <= e <= end_)%nat -> (end_ <= length (mem s))%nat -> ready (e - start) s ->
  window (mem s) start e = window (mem s0) start e ->
  (forall seg, seg ∈ segments (window (mem s0) start e) -> decodes seg) ->
  gives (inner_loop pattern_case encoding (e - start) start start 0 s)
    (adds start end_ (inner_slices prepare (segments (window (mem s0) start e))) s).
Proof.
  intros He Hlen Hr Hw Hd. pose proof (inner_loop_ok (e - start) start start 0 s) as Hok.
  replace (start + (e - start))%nat with e in Hok by lia. rewrite Hw in Hok.
  eapply gives_conseq; [apply Hok; [lia|lia|done| |done]|].
  - rewrite window_end. by intros c Hc%elem_of_nil.
  - intros s2 Hs2. by eapply adds_wider; [| |exact Hs2]; lia.
Qed.

Lemma decodes_nil : decodes [].
Proof. unfold decodes, decode. by destruct encoding. Qed.

(** The last segment is not empty: it is the text from [q]. *)
Lemma create_end_ok start end_ q s us :
  (start <= q < end_)%nat -> (end_ <= length (mem s))%nat -> ready (end_ - start) s ->
  decodes (window (mem s) q end_) -> (forall seg, seg ∈ us -> decodes seg) ->
  inner_slices prepare (segments (window (mem s) start q)) = inner_slices prepare us ->
  (forall seg, seg ∈ segments (window (mem s) start q) -> decodes seg) ->
  gives (let! r := pattern_slice pattern_case encoding PATTERN_END q (end_ - q) s in
         match r with None => aret None | Some s => inner_loop pattern_case encoding (q - start) start start 0 s end)
    (adds start end_ (slice_of PATTERN_END prepare (window (mem s) q end_) ++ inner_slices prepare us) s).
Proof.
  intros Hq Hl Hr Hd Hdu Hus Hds. pose proof (ready_slice PATTERN_END q (end_ - q) s) as Hsl.
  replace (q + (end_ - q))%nat with end_ in Hsl by lia.
  eapply gives_bind; [apply Hsl; [by eapply ready_less; [exact Hr|lia]|done|done]|]. intros s' Hs'.
  assert (Hw : window (mem s') start q = window (mem s) start q) by (eapply adds_window; [exact Hs'|lia|lia]).
  eapply gives_conseq; [apply (inner_text_ok start q end_ s s'); [lia|rewrite (a_length _ _ _ _ _ Hs'); lia| |done|done]|].
  - eapply (ready_adds _ _ (q - start) (end_ - q)); [|exact Hs'|rewrite window_length; lia]. by eapply ready_less; [exact Hr|lia].
  - intros s2 Hs2. rewrite Hus in Hs2. eapply adds_trans; [|exact Hs2].
    eapply adds_wider; [| |unfold slice_of; rewrite window_length by done; rewrite (proj2 (Nat.eqb_neq _ _)) by lia; exact Hs']; lia.
Qed.

Lemma create_rest_ok start len s :
  (start + len <= length (mem s))%nat -> ready len s ->
  head (window (mem s) start (start + len)) <> Some STAR ->
  (forall seg, seg ∈ segments (window (mem s) start (start + len)) -> decodes seg) ->
  exists us last, segments (window (mem s) start (start + len)) = us ++ [last] /\
  gives (create_rest pattern_case encoding start len s)
    (adds start (start + len) (slice_of PATTERN_END prepare last ++ inner_slices prepare us) s).
Proof.
  intros Hl Hr Hhd Hd. unfold create_rest. destruct (Nat.eqb_spec len 0) as [->|H0].
  { exists [], []. rewrite Nat.add_0_r in *. rewrite window_end in *. split; [done|]. cbn.
    pose proof (inner_text_ok start start start s s) as Hi. rewrite window_end in Hi.
    apply Hi; try done; try lia. by eapply ready_less; [exact Hr|lia]. }
  set (end_ := (start + len)%nat) in *. destruct (lookup_lt_is_Some_2 (mem s) (end_ - 1)) as [c Hc]; [lia|].
  assert (Hr' : ready (end_ - start) s) by (by eapply ready_less; [exact Hr|lia]).
  destruct (decide (c = STAR)) as [->|Hcs].
  { exists (segments (window (mem s) start (end_ - 1))), []. pose proof (window_snoc (mem s) start end_ STAR ltac:(lia) Hc) as E.
    split; [by rewrite E, split_on_app|]. eapply gives_lift; [by rewrite Hc|]. cbn. rewrite <- inner_slices_end.
    pose proof (split_on_app STAR (window (mem s) start (end_ - 1)) []) as Ea. cbn in Ea. rewrite <- Ea, <- E.
    apply inner_text_ok; try done; lia. }
  destruct (back_loop_ok (mem s) start end_ (end_ - 1)) as (q & Eq & Hq & Hns & Hor); [lia|lia|lia|].
  assert (Hq' : (q < end_)%nat).
  { destruct Hor as [->|[Hq1 Hst]]; [lia|]. destruct (decide (q = end_)) as [->|]; [congruence|lia]. }
  assert (Hcase : exists us, segments (window (mem s) start end_) = us ++ [window (mem s) q end_] /\
    inner_slices prepare (segments (window (mem s) start q)) = inner_slices prepare us /\
    (forall seg, seg ∈ segments (window (mem s) start q) -> decodes seg)).
  { destruct Hor as [->|[Hq1 Hst]].
    - exists []. rewrite window_end. split_and!; [|done|intros seg ->%list_elem_of_singleton; apply decodes_nil].
      apply segments_no_star, window_no_star. intros i Hi. destruct (decide (i = start)) as [->|Hne]; [|by apply Hns].
      intros Hs. apply Hhd. by rewrite (window_cons _ _ _ STAR) by (done || lia).
    - exists (segments (window (mem s) start (q - 1))). pose proof (window_snoc (mem s) start q STAR ltac:(lia) Hst) as E.
      assert (Et : window (mem s) start end_ = window (mem s) start (q - 1) ++ STAR :: window (mem s) q end_).
      { rewrite (window_split _ start q) by lia. by rewrite E, <- app_assoc. }
      rewrite Et in Hd |- *. rewrite split_on_app in Hd |- *. rewrite E, split_on_app.
      rewrite (segments_no_star (window (mem s) q end_)) in Hd |- * by (apply window_no_star; intros i Hi; apply Hns; lia).
      split_and!; [done|apply inner_slices_end|]. intros seg [Hs| ->%list_elem_of_singleton]%elem_of_app; [|apply decodes_nil].
      apply Hd, elem_of_app. by left. }
  destruct Hcase as (us & Hsegs & Hus & Hds). exists us, (window (mem s) q end_). split; [done|].
  eapply gives_lift; [by rewrite Hc|]. rewrite (proj2 (Z.eqb_neq _ _)) by done. eapply gives_lift; [exact Eq|].
  rewrite Hsegs in Hd. apply create_end_ok; try done; try lia; [apply Hd|intros seg Hs; apply Hd]; apply elem_of_app; auto.
  right. by apply list_elem_of_singleton.
Qed.

Definition no_double (s : list Z) : Prop := forall i, ~ (s !! i = Some STAR /\ s !! S i = Some STAR).

Lemma no_double_behind s t : no_double (s ++ STAR :: t) -> head t <> Some STAR.
Proof.
  intros Hd Ht. destruct t as [|c t]; [done|]. injection Ht as ->. apply (Hd (length s)). split.
  - by rewrite lookup_app_r, Nat.sub_diag by lia.
  - rewrite lookup_app_r by lia. by replace (S (length s) - length s)%nat with 1%nat by lia.
Qed.

(** The slices of a text. *)
Definition sliced (t : list Z) (new : list nxt_http_route_pattern_slice) : Prop :=
  (segments t = [t] /\ new = [Slice (prepare t) PATTERN_EXACT]) \/
  exists s0 us last, segments t = s0 :: us ++ [last] /\
    new = slice_of PATTERN_BEGIN prepare s0 ++ slice_of PATTERN_END prepare last ++ inner_slices prepare us.

(** A first slice, and the rest of the text behind it. *)
Lemma create_first_ok type start n end_ rest s new :
  (start + n <= rest <= end_)%nat -> (0 < n)%nat -> (end_ <= length (mem s))%nat -> ready (end_ - start) s ->
  decodes (window (mem s) start (start + n)) ->
  head (window (mem s) rest end_) <> Some STAR ->
  (forall seg, seg ∈ segments (window (mem s) rest end_) -> decodes seg) ->
  (forall us last, segments (window (mem s) rest end_) = us ++ [last] ->
     new = [Slice (prepare (window (mem s) start (start + n))) type] ++ slice_of PATTERN_END prepare last ++ inner_slices prepare us) ->
  gives (let! r := pattern_slice pattern_case encoding type start n s in
         match r with None => aret None | Some s => create_rest pattern_case encoding rest (end_ - rest) s end)
    (adds start end_ new s).
Proof.
  intros Hn H0 Hl Hr Hd Hhd Hds Hnew.
  eapply gives_bind; [apply (ready_slice type start n s); [by eapply ready_less; [exact Hr|lia]|lia|done]|]. intros s' Hs'.
  assert (Hw : window (mem s') rest end_ = window (mem s) rest end_) by (eapply adds_window; [exact Hs'|lia|lia]).
  pose proof (create_rest_ok rest (end_ - rest) s') as Hok. replace (rest + (end_ - rest))%nat with end_ in Hok by lia.
  rewrite Hw in Hok. destruct Hok as (us & last & Hsegs & Hg).
  - rewrite (a_length _ _ _ _ _ Hs'). lia.
  - eapply (ready_adds _ _ (end_ - rest) n); [|exact Hs'|rewrite window_length; lia]. by eapply ready_less; [exact Hr|lia].
  - done.
  - done.
  - eapply gives_conseq; [exact Hg|]. intros s2 Hs2. rewrite (Hnew us last Hsegs).
    eapply adds_trans; eapply adds_wider; [| |exact Hs'| | |exact Hs2]; lia.
Qed.

Lemma create_slices_ok start len s :
  (start + len <= length (mem s))%nat -> (0 < len)%nat -> ready len s ->
  no_double (window (mem s) start (start + len)) ->
  (forall seg, seg ∈ segments (window (mem s) start (start + len)) -> decodes seg) ->
  exists new, sliced (window (mem s) start (start + len)) new /\
    gives (create_slices pattern_case encoding start len s) (adds start (start + len) new s).
Proof.
  intros Hl H0 Hr Hdd Hd. set (end_ := (start + len)%nat) in *. unfold create_slices.
  assert (Hr' : ready (end_ - start) s) by (by eapply ready_less; [exact Hr|lia]).
  destruct (lookup_lt_is_Some_2 (mem s) start) as [c Hc]; [lia|].
  pose proof (window_cons (mem s) start end_ c ltac:(lia) Hc) as Et.
  destruct (Z.eqb_spec c STAR) as [->|Hcs].
  { pose proof (create_rest_ok (S start) (len - 1) s) as Hok. replace (S start + (len - 1))%nat with end_ in Hok by lia.
    rewrite Et in Hdd, Hd |- *. destruct Hok as (us & last & Hsegs & Hg); [lia|by eapply ready_less; [exact Hr|lia]| | |].
    - by apply (no_double_behind []).
    - intros seg Hs. apply Hd. cbn. by right.
    - exists (slice_of PATTERN_END prepare last ++ inner_slices prepare us). split.
      + right. exists [], us, last. cbn. by rewrite Hsegs.
      + eapply gives_lift; [by rewrite Hc|]. rewrite Z.eqb_refl. eapply gives_conseq; [exact Hg|].
        intros s2 Hs2. eapply adds_wider; [| |exact Hs2]; lia. }
  pose proof (memchr_ok (window (mem s) start end_) STAR) as Hm. fold end_.
  destruct (memchr (window (mem s) start end_) STAR) as [n|].
  - destruct Hm as [Hn Hns]. set (t := window (mem s) start end_) in *.
    assert (Hlt : (n < end_ - start)%nat) by (apply lookup_lt_Some in Hn; unfold t in Hn; rewrite window_length in Hn; lia).
    assert (Hn0 : n <> 0%nat) by (intros ->; rewrite Et in Hn; cbn in Hn; congruence).
    assert (Hwn : window (mem s) start (start + n) = take n t).
    { unfold t, window. rewrite take_drop_commute, take_take. do 2 f_equal. lia. }
    assert (Hwr : window (mem s) (start + n + 1) end_ = drop (S n) t).
    { unfold t. rewrite <- window_drop. f_equal. lia. }
    assert (Esplit : t = take n t ++ STAR :: drop (S n) t) by (symmetry; by apply take_drop_middle).
    rewrite Esplit in Hd, Hdd. rewrite split_on_app, (segments_no_star (take n t)) in Hd by done.
    destruct (exists_last (split_on_not_nil STAR (drop (S n) t))) as (us & last & Hsegs).
    exists ([Slice (prepare (window (mem s) start (start + n))) PATTERN_BEGIN] ++ slice_of PATTERN_END prepare last ++ inner_slices prepare us).
    split.
    + right. exists (take n t), us, last. rewrite Esplit at 1. rewrite split_on_app, (segments_no_star (take n t)), Hsegs by done.
      split; [done|]. rewrite <- Hwn, slice_of_window by lia. done.
    + eapply gives_lift; [by rewrite Hc|]. rewrite (proj2 (Z.eqb_neq _ _)) by done.
      replace (len - (n + 1))%nat with (end_ - (start + n + 1))%nat by lia.
      apply create_first_ok; try done; try lia.
      * rewrite Hwn. apply Hd. by left.
      * rewrite Hwr. by apply (no_double_behind (take n t)).
      * rewrite Hwr. intros seg Hs. apply Hd. by right.
      * rewrite Hwr. intros us' last' E. rewrite Hsegs in E. by apply app_inj_2 in E as [-> [= ->]].
  - exists [Slice (prepare (window (mem s) start end_)) PATTERN_EXACT]. split.
    + left. by rewrite segments_no_star.
    + eapply gives_lift; [by rewrite Hc|]. rewrite (proj2 (Z.eqb_neq _ _)) by done.
      replace 0%nat with (end_ - end_)%nat by lia. apply create_first_ok; try done; try lia; rewrite ?window_end; try done.
      * apply Hd. rewrite segments_no_star by done. by left.
      * intros seg ->%list_elem_of_singleton. apply decodes_nil.
      * intros us last E. destruct us as [|? [|]]; [|done..]. injection E as <-. done.
Qed.

(** ** The pattern of a text *)

Lemma prepare_nil : prepare [] = [].
Proof. unfold prepare, decode, copy_case, nxt_memcpy_upcase, nxt_memcpy_lowcase. by destruct encoding, pattern_case. Qed.

(** The text of a string behind its exclamation mark. *)
Definition negated (test : list Z) : bool := match test with c :: _ => c =? 33 | [] => false end.

Definition subject (test : list Z) : list Z := if negated test then drop 1 test else test.

Definition created (case_sensitive : bool) (test : list Z) (p : nxt_http_route_pattern_t) : Prop :=
  exists a, p = Pattern (Slices a) (Z.of_nat (length (concat (slice_text <$> elts a)))) case_sensitive (negated test) (negb (negated test)) /\
    sliced (subject test) (elts a).

Lemma pattern_create_ok test sensitive :
  Forall byte test -> Z.of_nat (length test) <= 43690 -> head (subject test) <> Some 126 ->
  no_double (subject test) -> (forall seg, seg ∈ segments (subject test) -> decodes seg) ->
  gives (nxt_http_route_pattern_create pattern_case encoding test sensitive) (created sensitive test).
Proof.
  intros Hb Hl Ht Hdd Hd. unfold nxt_http_route_pattern_create, created. fold (negated test).
  set (start := if negated test then 1%nat else 0%nat). 
  assert (Es : subject test = drop start test) by (unfold subject, start; by destruct (negated test)).
  assert (Hh : head (subject test) = test !! start).
  { rewrite Es, head_lookup, lookup_drop, Nat.add_0_r. done. }
  rewrite Hh in Ht. replace (match test !! start with Some c => c =? 126 | None => false end) with false.
  2: { destruct (test !! start) as [c|]; [|done]. symmetry. apply Z.eqb_neq. congruence. }
  apply gives_array; [lia|]. intros a Ha Hn. assert (Hsl : length (subject test) = (length test - start)%nat) by (by rewrite Es, length_drop).
  destruct (Nat.eqb_spec (length test - start) 0) as [H0|H0].
  - apply (gives_map _ _ _ (fun a' => elts a' = [Slice [] PATTERN_EXACT])).
    + intros k. destruct (add_ok alloc a (Slice [] PATTERN_EXACT) k Ha) as (r & k' & -> & Hr); [rewrite Hn; cbn; lia|].
      exists r, k'. split; [done|]. destruct r; [|naive_solver]. rewrite Hn in Hr. by destruct Hr.
    + intros a' Ea. exists a'. rewrite Ea. split; [done|]. left.
      rewrite H0 in Hsl. apply length_zero_iff_nil in Hsl as ->. by rewrite prepare_nil.
  - destruct (create_slices_ok start (length test - start) (Creation test a 0)) as (new & Hnew & Hg); cbn [mem].
    + assert (start <= 1)%nat by (unfold start; destruct (negated test); lia). lia.
    + lia.
    + split_and!; cbn; [done|done|rewrite Hn; cbn; lia|lia..].
    + by rewrite window_to_end, <- Es by lia.
    + by rewrite window_to_end, <- Es by lia.
    + cbn [mem] in Hnew. rewrite window_to_end, <- Es in Hnew by lia.
      eapply gives_map; [exact Hg|]. intros s' []. cbn in *. rewrite Hn in a_elts0. cbn in a_elts0.
      exists (slices s'). by rewrite a_min0, a_elts0.
Qed.


End Compile.

End Pattern.
