(* ===== verification/RouteGlob.v ===== *)
(** * Patterns match as globs: [nxt_http_route_pattern()] of [src/nxt_http_route.c]

    The loop over the slices of a compiled pattern decides whether the value is
    the segments of the text in their order, with anything between them.  The
    loop takes the first place of every segment: it leaves the longest rest. *)

From S2P Require Import Prelude Str Uri Heap NxtArray RoutePattern.

#[local] Open Scope Z_scope.

Section Glob.
Context {RE : Regex} (alloc : nat -> bool).

(** ** Matching *)

Definition fold (sensitive : bool) : Z -> Z := if sensitive then id else nxt_lowcase.

Lemma memcmp_ok s test sensitive :
  (length test <= length s)%nat ->
  nxt_http_route_memcmp s test sensitive =
    Ret (bool_decide (map (fold sensitive) (take (length test) s) = map (fold sensitive) test)).
Proof.
  intros Hl. unfold nxt_http_route_memcmp. destruct (Nat.eqb_spec (length test) 0) as [H0|H0].
  { apply length_zero_iff_nil in H0 as ->. by rewrite bool_decide_true. }
  destruct sensitive; cbn [fold].
  - rewrite memequal_ok by lia. rewrite !map_id, (take_ge test) by lia. done.
  - destruct (memcasecmp_ok (length test) s test) as (d & -> & Hd); [lia|lia|]. cbn. f_equal.
    rewrite (take_ge test) in Hd by lia. destruct (Z.eqb_spec d 0) as [->|Hne]; symmetry;
      [apply bool_decide_true|apply bool_decide_false]; naive_solver.
Qed.

(** The segments occur in their order, apart from each other. *)
Fixpoint scattered (segs : list (list Z)) (w : list Z) : Prop :=
  match segs with
  | [] => True
  | s :: rest => exists gap t, w = gap ++ s ++ t /\ scattered rest t
  end.

Lemma scattered_behind segs g w : scattered segs w -> scattered segs (g ++ w).
Proof.
  destruct segs as [|s segs]; [done|]. intros (gap & t & -> & Ht). exists (g ++ gap), t. split; [by rewrite <- app_assoc|done].
Qed.

Lemma globs_middle us : forall s0 l v,
  globs (s0 :: us ++ [l]) v <-> exists w, v = s0 ++ w ++ l /\ scattered us w.
Proof.
  induction us as [|u us IH]; intros s0 l v.
  - cbn. split; [intros (gap & t & -> & ->); by exists gap|]. intros (w & -> & _). by exists w, l.
  - change (globs (s0 :: (u :: us) ++ [l]) v) with (exists gap t, v = s0 ++ gap ++ t /\ globs (u :: us ++ [l]) t).
    setoid_rewrite IH. split.
    + intros (gap & t & -> & w & -> & Hw). exists (gap ++ u ++ w). split; [by rewrite !app_assoc|]. by exists gap, w.
    + intros (w & -> & gap & t & -> & Ht). exists gap, (u ++ t ++ l). split; [by rewrite <- !app_assoc|]. by exists t.
Qed.

Lemma scattered_skip us w : scattered ([] :: us) w <-> scattered us w.
Proof.
  split; [|intros H; by exists [], w]. intros (gap & t & -> & Ht). by apply scattered_behind.
Qed.

Lemma search_ok (sensitive : bool) w test :
  test <> [] -> exists r, (if sensitive then nxt_memstrn w test else nxt_memcasestrn w test) = Ret r /\
    is_first (occurs (fold sensitive) w test) r.
Proof.
  intros Ht. destruct test as [|c2 s2]; [done|]. destruct sensitive; cbn.
  - destruct (memstrn_loop_ok w 0 c2 s2) as (r & -> & Hr). exists r. by split; [|apply is_first_0].
  - destruct (memcasestrn_loop_ok w 0 c2 s2) as (r & -> & Hr). exists r. by split; [|apply is_first_0].
Qed.

Lemma occurs_map f w test gap t : map f w = gap ++ map f test ++ t -> occurs f w test (length gap).
Proof.
  intros E. unfold occurs. change (f <$> take (length test) (drop (length gap) w) = f <$> test).
  rewrite fmap_take, fmap_drop. change (f <$> w) with (map f w). rewrite E, drop_app_length.
  rewrite <- (length_map f test). by rewrite take_app_length.
Qed.

Lemma occurs_split f w test p :
  occurs f w test p -> test <> [] ->
  map f w = take p (map f w) ++ map f test ++ drop (p + length test) (map f w) /\ (p + length test <= length w)%nat.
Proof.
  intros Ho Ht. unfold occurs in Ho. pose proof (f_equal length Ho) as Hlen.
  rewrite !length_map, length_take, length_drop in Hlen.
  assert (length test <> 0)%nat by (by intros ?%length_zero_iff_nil).
  split; [|lia]. rewrite <- drop_drop. rewrite <- Ho.
  change (map f w = take p (map f w) ++ (f <$> take (length test) (drop p w)) ++ drop (length test) (drop p (map f w))).
  rewrite fmap_take, fmap_drop. change (f <$> w) with (map f w). by rewrite !take_drop.
Qed.

(** The first place leaves the longest rest. *)
Lemma scattered_first f w test rest r :
  test <> [] -> is_first (occurs f w test) r ->
  scattered (map f test :: rest) (map f w) <->
    match r with Some p => scattered rest (drop (p + length test) (map f w)) | None => False end.
Proof.
  intros Ht Hr. split.
  - intros (gap & t & E & Hs). pose proof (occurs_map _ _ _ _ _ E) as Ho. destruct r as [p|]; [|by apply (Hr (length gap))].
    destruct Hr as [_ Hmin]. assert (Hp : (p <= length gap)%nat) by (destruct (decide (length gap < p)%nat); [by apply Hmin in Ho|lia]).
    rewrite E, app_assoc, drop_app_le by (rewrite length_app, length_map; lia). by apply scattered_behind.
  - destruct r as [p|]; [|done]. intros Hs. destruct Hr as [Ho _].
    destruct (occurs_split _ _ _ _ Ho Ht) as [E _]. by eexists _, _.
Qed.

(** ** The slices of a pattern *)

Section Slices.
Context (sensitive : bool) (min : Z) (v : list Z) (P : list Z -> list Z).
Hypothesis P_nil : P [] = [].

Let f := fold sensitive.

Lemma begin_ok s0 rest end_ :
  (length (P s0) <= length v)%nat ->
  slices_loop sensitive min v (slice_of PATTERN_BEGIN P s0 ++ rest) 0 end_ =
    if bool_decide (take (length (P s0)) (map f v) = map f (P s0))
    then slices_loop sensitive min v rest (length (P s0)) end_ else Ret false.
Proof.
  intros Hl. unfold slice_of. destruct (Nat.eqb_spec (length s0) 0) as [H0|H0].
  { apply length_zero_iff_nil in H0 as ->. by rewrite P_nil. }
  cbn. rewrite window_to_end, drop_0, memcmp_ok by lia. cbn. fold f.
  change (map f (take (length (P s0)) v)) with (f <$> take (length (P s0)) v). rewrite fmap_take. done.
Qed.

Lemma end_ok s rest start :
  (length (P s) <= length v)%nat ->
  slices_loop sensitive min v (slice_of PATTERN_END P s ++ rest) start (length v) =
    if bool_decide (drop (length v - length (P s)) (map f v) = map f (P s))
    then slices_loop sensitive min v rest start (length v - length (P s)) else Ret false.
Proof.
  intros Hl. unfold slice_of. destruct (Nat.eqb_spec (length s) 0) as [H0|H0].
  { apply length_zero_iff_nil in H0 as ->. rewrite P_nil. cbn. rewrite Nat.sub_0_r, drop_ge by (rewrite length_map; lia). done. }
  cbn. rewrite (proj2 (Nat.ltb_ge _ _)) by lia. rewrite window_to_end, memcmp_ok by (rewrite ?length_drop; lia). cbn. fold f.
  rewrite take_ge by (rewrite length_drop; lia).
  change (map f (drop (length v - length (P s)) v)) with (f <$> drop (length v - length (P s)) v). by rewrite fmap_drop.
Qed.

Lemma substrings_ok us : forall start end_,
  (forall u, u ∈ us -> u <> [] -> P u <> []) -> (start <= end_ <= length v)%nat ->
  exists b, slices_loop sensitive min v (inner_slices P us) start end_ = Ret b /\
    (b = true <-> scattered (map f <$> (P <$> us)) (map f (window v start end_))).
Proof.
  induction us as [|u us IH]; intros start end_ HP Hse; [by exists true|].
  unfold inner_slices. rewrite bind_cons. fold (inner_slices P us). unfold slice_of at 1.
  assert (HP' : forall u', u' ∈ us -> u' <> [] -> P u' <> []) by (intros u' Hu; apply HP; by right).
  destruct (Nat.eqb_spec (length u) 0) as [H0|H0].
  { apply length_zero_iff_nil in H0 as ->. rewrite !fmap_cons, P_nil. setoid_rewrite scattered_skip. by apply IH. }
  assert (Hu : P u <> []) by (apply HP; [by left|by intros ->]).
  cbn [app slices_loop]. rewrite (proj2 (Nat.ltb_ge _ _)) by lia.
  destruct (search_ok sensitive (window v start end_) (P u) Hu) as (r & -> & Hr). cbn [obind].
  pose proof (scattered_first _ _ _ (map f <$> (P <$> us)) _ Hu Hr) as Hsc. fold f in Hsc. rewrite !fmap_cons.
  setoid_rewrite Hsc. destruct r as [p|]; [|by exists false].
  destruct (occurs_split _ _ _ _ (proj1 Hr) Hu) as [_ Hle]. rewrite window_length in Hle by lia.
  destruct (IH (start + p + length (P u))%nat end_ HP') as (b & Eb & Hb); [lia|]. exists b. split; [done|].
  rewrite Hb, !map_window. rewrite <- window_drop. by rewrite Nat.add_assoc.
Qed.

Lemma ends_split (V S L : list Z) (us : list (list Z)) :
  (length S + length L <= length V)%nat ->
  globs (S :: us ++ [L]) V <->
    take (length S) V = S /\ drop (length V - length L) V = L /\ scattered us (window V (length S) (length V - length L)).
Proof.
  intros Hl. rewrite globs_middle. split.
  - intros (w & -> & Hw). rewrite !length_app. split_and!.
    + by rewrite take_app_length.
    + rewrite app_assoc. apply drop_app_length'. rewrite length_app. lia.
    + unfold window. rewrite app_assoc, take_app_length', drop_app_length; [done|]. rewrite length_app. lia.
  - intros (HS & HL & Hw). eexists. split; [|exact Hw].
    rewrite <- (take_drop (length V - length L) V) at 1. rewrite HL, app_assoc. f_equal. unfold window.
    rewrite <- (take_drop (length S) (take (length V - length L) V)) at 1. f_equal. rewrite take_take.
    replace (length S `min` (length V - length L))%nat with (length S) by lia. done.
Qed.

End Slices.

(** ** Patterns and globs *)

Lemma percent_decode_not_nil plus s : s <> [] -> percent_decode plus s <> Some [].
Proof.
  destruct s as [|c s]; [done|]. intros _. cbn. destruct (c =? PERCENT).
  - destruct s as [|h [|l s]]; [done..|]. destruct (hex_value h), (hex_value l); try done. by destruct (percent_decode plus s).
  - by destruct (percent_decode plus s).
Qed.

Lemma prepare_not_nil pattern_case encoding s : decodes encoding s -> s <> [] -> prepare pattern_case encoding s <> [].
Proof.
  intros [d Hd] Hs He. unfold prepare in He. rewrite Hd in He. cbn in He.
  apply (f_equal length) in He. rewrite length_copy_case in He. apply length_zero_iff_nil in He as ->.
  destruct encoding; cbn in Hd; [congruence|by apply percent_decode_not_nil in Hd..].
Qed.

Lemma slice_of_text type P s : P [] = [] -> length (concat (slice_text <$> slice_of type P s)) = length (P s).
Proof.
  intros HP. unfold slice_of. destruct (Nat.eqb_spec (length s) 0) as [H0|H0]; cbn; [|by rewrite app_nil_r].
  apply length_zero_iff_nil in H0 as ->. by rewrite HP.
Qed.

Section Match.
Context (pattern_case : nxt_http_route_pattern_case) (encoding : nxt_http_uri_encoding) (sensitive : bool).

(** The segments of a text, as they are compared. *)
Definition glob_of (t : list Z) : list (list Z) :=
  (fun seg => map (fold sensitive) (prepare pattern_case encoding seg)) <$> segments t.

Lemma sliced_match t new v :
  sliced pattern_case encoding t new -> (forall seg, seg ∈ segments t -> decodes encoding seg) ->
  Z.of_nat (length (concat (slice_text <$> new))) <= Z.of_nat (length v) ->
  exists b, slices_loop sensitive (Z.of_nat (length (concat (slice_text <$> new)))) v new 0 (length v) = Ret b /\
    (b = true <-> globs (glob_of t) (map (fold sensitive) v)).
Proof.
  unfold glob_of. intros [(-> & ->)|(s0 & us & last & Hs & ->)] Hd Hl; set (P := prepare pattern_case encoding) in *.
  - cbn in *. rewrite app_nil_r in *. rewrite window_to_end, drop_0 by lia. destruct (Z.eqb_spec (Z.of_nat (length v)) (Z.of_nat (length (P t)))).
    + eexists. split; [apply memcmp_ok; lia|]. rewrite bool_decide_eq_true, take_ge by lia. done.
    + exists false. split; [done|]. split; [done|]. intros E%(f_equal length). rewrite !length_map in E. lia.
  - set (min := Z.of_nat _) in *.
    assert (Hmin : (length (P s0) + length (P last) <= length v)%nat).
    { unfold min in Hl. rewrite !fmap_app, !concat_app, !length_app, !slice_of_text in Hl by apply prepare_nil. lia. }
    rewrite begin_ok by (apply prepare_nil || lia). rewrite end_ok by (apply prepare_nil || lia).
    destruct (substrings_ok sensitive min v P (prepare_nil _ _) us (length (P s0)) (length v - length (P last))) as (b & Hb & Hiff).
    { intros u Hu. apply prepare_not_nil, Hd. rewrite Hs. right. apply elem_of_app. by left. }
    { lia. }
    rewrite Hs, fmap_cons, fmap_app. setoid_rewrite ends_split; [|rewrite !length_map; lia].
    rewrite !length_map. rewrite map_window, <- list_fmap_compose in Hiff.
    destruct (bool_decide_reflect (take (length (P s0)) (map (fold sensitive) v) = map (fold sensitive) (P s0))); [|by exists false; naive_solver].
    destruct (bool_decide_reflect (drop (length v - length (P last)) (map (fold sensitive) v) = map (fold sensitive) (P last)));
      [|by exists false; naive_solver].
    exists b. split; [done|]. rewrite Hiff. naive_solver.
Qed.

Lemma globs_length segs : forall v, globs segs v -> (length (concat segs) <= length v)%nat.
Proof.
  induction segs as [|s segs IH]; intros v Hv; cbn; [lia|]. destruct segs as [|s' segs].
  - cbn in Hv. subst. cbn. rewrite app_nil_r. lia.
  - destruct Hv as (gap & t & -> & Ht). rewrite !length_app. apply IH in Ht. lia.
Qed.

Lemma globs_nothing segs : segs <> [] -> concat segs = [] -> globs segs [].
Proof.
  induction segs as [|s segs IH]; [done|]. intros _ Hs. cbn in Hs. apply app_nil in Hs as [-> Hs].
  destruct segs as [|s' segs]; [done|]. exists [], []. split; [done|]. by apply IH.
Qed.

Lemma sliced_length t new :
  sliced pattern_case encoding t new -> length (concat (slice_text <$> new)) = length (concat (glob_of t)).
Proof.
  unfold glob_of. set (P := prepare pattern_case encoding). set (Q := fun seg => map (fold sensitive) (P seg)).
  assert (HP : forall seg, length (Q seg) = length (P seg)) by (intros; apply length_map).
  assert (Hi : forall us, length (concat (slice_text <$> inner_slices P us)) = length (concat (Q <$> us))).
  { induction us as [|u us IH]; [done|]. unfold inner_slices. rewrite bind_cons, fmap_app, concat_app, length_app. cbn.
    rewrite length_app, HP, slice_of_text by apply prepare_nil. f_equal. exact IH. }
  intros [(-> & ->)|(s0 & us & last & -> & ->)]; cbn.
  - by rewrite !app_nil_r, HP.
  - rewrite !fmap_app, !concat_app, !length_app, Hi. fold P. rewrite !slice_of_text by apply prepare_nil. cbn.
    rewrite app_nil_r, !HP. lia.
Qed.

(** A [NULL] value is matched like an empty one. *)
Lemma pattern_match_ok test p v r :
  created pattern_case encoding sensitive test p -> (forall seg, seg ∈ segments (subject test) -> decodes encoding seg) ->
  exists b, nxt_http_route_pattern alloc p v r = Ret (Z.b2z b, r) /\
    (b = true <-> globs (glob_of (subject test)) (map (fold sensitive) (default [] v))).
Proof.
  intros (a & -> & Hs) Hd. unfold nxt_http_route_pattern. cbn.
  destruct (Z.ltb_spec (Z.of_nat (length (default [] v))) (Z.of_nat (length (concat (slice_text <$> elts a))))) as [Hlt|Hge].
  - exists false. split; [done|]. split; [done|]. intros Hg%globs_length. exfalso.
    rewrite length_map, <- (sliced_length _ _ Hs) in Hg. lia.
  - destruct v as [v|].
    + destruct (sliced_match _ _ v Hs Hd Hge) as (b & -> & Hb). by exists b.
    + exists true. split; [done|]. cbn in *. split; [intros _|done]. 
      apply globs_nothing; [by intros ?%fmap_nil_inv%split_on_not_nil|].
      apply length_zero_iff_nil. rewrite <- (sliced_length _ _ Hs). lia.
Qed.

(** ** Texts of the configuration *)

(** A text with a tilde is a regular expression; a decoded text is not longer
    than the slices that an array of the pattern can have. *)
Definition pattern_valid (test : list Z) : Prop :=
  Forall byte test /\ Z.of_nat (length test) <= 43690 /\
  if decide (head (subject test) = Some TILDE) then is_Some (regex_compile (drop 1 (subject test)))
  else no_double (subject test) /\ forall seg, seg ∈ segments (subject test) -> decodes encoding seg.

(** The value has the text, whatever its exclamation mark. *)
Definition pattern_holds (test : list Z) (v : list Z) : Prop :=
  if decide (head (subject test) = Some TILDE) then
    exists re, regex_compile (drop 1 (subject test)) = Some re /\ regex_match re v = 1
  else globs (glob_of (subject test)) (map (fold sensitive) v).

(** A test that says whether [P] holds, or met an error. *)
Definition trouble : Prop := (exists j, alloc j = false) \/ (exists re s, regex_match re s = -1).

Definition answers (P : Prop) (z : Z) : Prop := (z = 1 /\ P) \/ (z = 0 /\ ~ P) \/ (z = -1 /\ trouble).

(** What a pattern of the text [test] does. *)
Definition implements (test : list Z) (p : nxt_http_route_pattern_t) : Prop :=
  negative p = negated test /\ any p = negb (negated test) /\
  forall v r, exists z r', nxt_http_route_pattern alloc p v r = Ret (z, r') /\ answers (pattern_holds test (default [] v)) z.

Lemma subject_head test :
  head (subject test) = test !! (if negated test then 1%nat else 0%nat).
Proof. unfold subject. destruct (negated test); rewrite head_lookup, ?lookup_drop; done. Qed.

Lemma subject_behind test : drop 1 (subject test) = drop (S (if negated test then 1 else 0)) test.
Proof. unfold subject. destruct (negated test); by rewrite ?drop_drop. Qed.

Lemma regexp_ok test re :
  head (subject test) = Some TILDE -> regex_compile (drop 1 (subject test)) = Some re ->
  gives alloc (nxt_http_route_pattern_create alloc pattern_case encoding test sensitive) (implements test).
Proof.
  intros Hh Hre. unfold nxt_http_route_pattern_create. fold (negated test). rewrite <- subject_head, Hh. cbn [Z.eqb Pos.eqb].
  rewrite <- subject_behind, Hre. cbn. apply gives_ret. split; [done|]. split; [done|].
  intros v r. unfold nxt_http_route_pattern, pattern_holds. cbn. rewrite decide_True by done. set (t := default [] v).
  assert (Ha : answers (exists re', regex_compile (drop 1 (subject test)) = Some re' /\ regex_match re' t = 1) (regex_match re t)).
  { destruct (regex_match_range re t) as [E|[E|E]]; rewrite E; unfold answers.
    - left. split; [done|]. by exists re.
    - right; left. split; [done|]. intros (re' & ? & ?). simplify_eq. lia.
    - right; right. split; [done|]. right. by exists re, t. }
  destruct (regex_ready r); [by eexists _, _|]. destruct (alloc (mp r)) eqn:Ea; [by eexists _, _|].
  eexists _, _. split; [done|]. right; right. split; [done|]. left. by exists (mp r).
Qed.

Lemma pattern_ok test :
  pattern_valid test ->
  gives alloc (nxt_http_route_pattern_create alloc pattern_case encoding test sensitive) (implements test).
Proof.
  intros (Hb & Hl & Hv). destruct (decide (head (subject test) = Some TILDE)) as [Hh|Hh].
  { destruct Hv as [re Hre]. by eapply regexp_ok. }
  destruct Hv as [Hd Hs]. eapply gives_conseq; [by apply pattern_create_ok|]. intros p Hp.
  pose proof Hp as (a & -> & _). split; [done|]. split; [done|]. intros v r. unfold pattern_holds. rewrite decide_False by done.
  destruct (pattern_match_ok _ _ v r Hp Hs) as (b & -> & Hb'). eexists _, _. split; [done|]. unfold answers.
  destruct b; cbn; [left|right; left]; by rewrite <- Hb'.
Qed.

End Match.

End Glob.

(** C14. Patterns of routes.  From a valid text of the configuration
    [nxt_http_route_pattern_create()] makes a pattern, or some allocation
    failed; and [nxt_http_route_pattern()] on any value returns 1 exactly when
    the value is the segments of the text between its asterisks, decoded and
    folded as the option asks, in their order and with anything between them, or
    matches the regular expression; it returns 0 otherwise, and -1 only
    when the memory or the regular expression library failed. *)
Theorem nxt_http_route_pattern_correct {RE : Regex} (alloc : nat -> bool) (pattern_case : nxt_http_route_pattern_case)
    (encoding : nxt_http_uri_encoding) (sensitive : bool) (test : list Z) :
  pattern_valid encoding test ->
  gives alloc (nxt_http_route_pattern_create alloc pattern_case encoding test sensitive)
    (implements alloc pattern_case encoding sensitive test).
Proof. apply pattern_ok. Qed.

(** A library that refuses every expression. *)
Definition no_regex : Regex :=
  {| regex := Empty_set; regex_compile := fun _ => None; regex_match := fun re _ => match re with end;
     regex_match_range := fun re => match re with end |}.

Lemma nxt_http_route_pattern_correct_witness :
  gives (fun _ => true)
    (@nxt_http_route_pattern_create no_regex (fun _ => true) PATTERN_NOCASE URI_ENCODING (bytes_of_string "!/a%2Ab/*.php") true)
    (@implements no_regex (fun _ => true) PATTERN_NOCASE URI_ENCODING true (bytes_of_string "!/a%2Ab/*.php")).
Proof.
  apply (@nxt_http_route_pattern_correct no_regex). split; [apply bytes_of_string_byte|]. split; [vm_compute; discriminate|].
  rewrite decide_False by done. split.
  - intros i. do 13 (destruct i as [|i]; [by intros [[=] [=]]|]). by intros [[=] _].
  - intros seg Hseg. apply list_elem_of_lookup in Hseg as [i Hi]. do 2 (destruct i as [|i]; [injection Hi as <-; eexists; reflexivity|]).
    destruct i; discriminate.
Defined.
