(* ===== verification/Args.v ===== *)
(** * Arguments and cookies of a request: [src/nxt_http_request.c]

    The query of a request is cut into arguments and decoded, and the "Cookie"
    fields into cookies, when a route first asks for them; both are kept in
    arrays of names and values with the hashes of the names.  The names in the
    configuration are hashed the same way.  The fields of the request are passed
    with the iterator of [src/nxt_http_parse.h]. *)

From S2P Require Import Prelude Str NxtList HttpFields HttpHeader Uri NxtArray RoutePattern.

#[local] Open Scope Z_scope.

Abbreviation EQUALS := 61 (only parsing).
Abbreviation AMP := 38 (only parsing).

(** ** The fields of a request *)

Record nxt_http_fields_iter := Iter {
  iter_inline : list nxt_http_field;
  inline_index : nat;
  iter_parts : list (list nxt_http_field);
  iter_elt : nat
}.

(** The parts from [ps] on that have an element at [elt], with the iterator
    behind that element. *)
Fixpoint next_in_parts (inl : list nxt_http_field) (index : nat) (ps : list (list nxt_http_field)) (elt : nat) :
    option nxt_http_field * nxt_http_fields_iter :=
  match ps with
  | [] => (None, Iter inl index [] elt)
  | part :: rest =>
      match part !! elt with
      | Some f => (Some f, Iter inl index ps (S elt))
      | None => next_in_parts inl index rest 0
      end
  end.

Definition nxt_http_fields_next (iter : nxt_http_fields_iter) : option nxt_http_field * nxt_http_fields_iter :=
  match iter_inline iter !! inline_index iter with
  | Some f => (Some f, Iter (iter_inline iter) (S (inline_index iter)) (iter_parts iter) (iter_elt iter))
  | None => next_in_parts (iter_inline iter) (inline_index iter) (iter_parts iter) (iter_elt iter)
  end.

Definition nxt_http_fields_first (inl : list nxt_http_field) (fields : option (nxt_list nxt_http_field)) :
    option nxt_http_field * nxt_http_fields_iter :=
  let ps := match fields with Some l => parts l | None => [] end in
  match inl !! 0%nat with
  | Some f => (Some f, Iter inl 1 ps 0)
  | None => next_in_parts inl 0 ps 0
  end.

(** [nxt_http_fields_each()]: the body runs on the fields until it returns a
    result. *)
Fixpoint fields_loop {S R} (fuel : nat) (body : nxt_http_field -> S -> outcome (S + R))
    (it : option nxt_http_field * nxt_http_fields_iter) (s : S) : outcome (S + R) :=
  match fuel with
  | O => OutOfFuel
  | Datatypes.S fuel =>
      match it with
      | (None, _) => Ret (inl s)
      | (Some f, iter) =>
          let* r := body f s in
          match r with
          | inl s => fields_loop fuel body (nxt_http_fields_next iter) s
          | inr x => Ret (inr x)
          end
      end
  end.

Definition fields_fuel (inl : list nxt_http_field) (fields : option (nxt_list nxt_http_field)) : nat :=
  S (length inl + length (elements fields)).

Definition nxt_http_fields_each {S R} (inl : list nxt_http_field) (fields : option (nxt_list nxt_http_field))
    (body : nxt_http_field -> S -> outcome (S + R)) (s : S) : outcome (S + R) :=
  fields_loop (fields_fuel inl fields) body (nxt_http_fields_first inl fields) s.

(** ** Names and values *)

(** A pointer with its length is the text; the lengths are kept in 16 and 32
    bits. *)
Record nxt_http_name_value := Nv {
  nv_hash : Z;
  nv_name : list Z;
  nv_value : list Z
}.

Definition name_text (s : list Z) : list Z := take (Z.to_nat (u16 (Z.of_nat (length s)))) s.
Definition value_text (s : list Z) : list Z := take (Z.to_nat (u32 (Z.of_nat (length s)))) s.

Section Args.
Context (alloc : nat -> bool).

(** [name] is the name that ended at an equals sign, [text] what follows. *)
Definition nxt_http_argument (array : nxt_array nxt_http_name_value) (name : option (list Z)) (hash : Z) (text : list Z) :
    Alloc (option (nxt_array nxt_http_name_value)) :=
  let '(name, value) := match name with Some n => (n, text) | None => (text, []) end in
  nxt_array_add alloc array
    (Nv (Z.land (nxt_http_field_hash_end hash) 65535) (name_text name) (value_text value)).

(** The variables of the loop: [dst] is what has been written, [name] and
    [dst_start] are offsets in it. *)
Record arguments_parse := Arguments_parse {
  dst : list Z;
  dst_start : nat;
  arg_name : option nat;
  name_length : nat;
  arg_hash : Z;
  arg_array : nxt_array nxt_http_name_value
}.

(** The argument that ends at [dst]. *)
Definition argument_end (s : arguments_parse) : Alloc (option (nxt_array nxt_http_name_value)) :=
  if negb (name_length s =? 0)%nat || negb (length (dst s) =? dst_start s)%nat then
    nxt_http_argument (arg_array s)
      ((fun n => window (dst s) n (n + name_length s)) <$> arg_name s) (arg_hash s) (drop (dst_start s) (dst s))
  else aret (Some (arg_array s)).

(** A byte of a name or a value. *)
Definition argument_char (c : Z) (s : arguments_parse) : arguments_parse :=
  Arguments_parse (dst s ++ [c]) (dst_start s) (arg_name s) (name_length s)
    (match arg_name s with None => nxt_http_field_hash_char (arg_hash s) c | Some _ => arg_hash s end) (arg_array s).

(** An equals sign. *)
Definition argument_equals (s : arguments_parse) : arguments_parse :=
  let here := length (dst s) in
  match arg_name s with
  | None => Arguments_parse (dst s ++ [EQUALS]) (here + 1) (Some (dst_start s)) (here - dst_start s) (arg_hash s) (arg_array s)
  | Some _ => Arguments_parse (dst s ++ [EQUALS]) (dst_start s) (arg_name s) (name_length s) (arg_hash s) (arg_array s)
  end.

Fixpoint arguments_loop (size : nat) (src : list Z) (s : arguments_parse) : Alloc (option arguments_parse) :=
  match src with
  | [] => aret (Some s)
  | c :: rest =>
      if (size <=? length (dst s))%nat then alift Fault
      else if c =? EQUALS then arguments_loop size rest (argument_equals s)
      else if c =? AMP then
        let! r := argument_end s in
        match r with
        | None => aret None
        | Some a =>
            arguments_loop size rest
              (Arguments_parse (dst s ++ [c]) (length (dst s) + 1) None 0 NXT_HTTP_FIELD_HASH_INIT a)
        end
      else if c =? PLUS then arguments_loop size rest (argument_char SP s)
      else if c =? PERCENT then
        match rest with
        | h :: l :: rest' =>
            let! d0 := alift (hex2int h) in
            let! d1 := alift (hex2int l) in
            if 16 <=? Z.lor d0 d1 then arguments_loop size rest (argument_char c s)
            else arguments_loop size rest' (argument_char (u8 (Z.shiftl d0 4 + d1)) s)
        | _ => arguments_loop size rest (argument_char c s)
        end
      else arguments_loop size rest (argument_char c s)
  end.

(** What the request keeps: [r->arguments] and [r->args_decoded].  The start is
    [None] for [NULL], and otherwise what has been written there; what was
    written before memory ran out is not kept. *)
Record args_state := Args_state {
  arguments : option (nxt_array nxt_http_name_value);
  decoded_start : option (list Z);
  decoded_length : nat
}.

Definition nxt_http_arguments_parse (args : option (list Z)) (r : args_state) :
    Alloc (option (nxt_array nxt_http_name_value) * args_state) :=
  match arguments r with
  | Some a => aret (Some a, r)
  | None =>
      let! created := nxt_array_create alloc 2 in
      match created, args with
      | None, _ => aret (None, r)
      | Some a, None => aret (Some a, Args_state (Some a) (decoded_start r) (decoded_length r))
      | Some a, Some text =>
          let! ok := request alloc in
          if negb ok then aret (None, r)
          else
            let! parsed := arguments_loop (length text) text (Arguments_parse [] 0 None 0 NXT_HTTP_FIELD_HASH_INIT a) in
            match parsed with
            | None => aret (None, Args_state None (Some []) (decoded_length r))
            | Some s =>
                let! last := argument_end s in
                aret (last, Args_state last (Some (dst s)) (length (dst s)))
            end
      end
  end.

(** ** Cookies *)

(** [while (start[0] == ' ') { start++; }] *)
Fixpoint skip_spaces (text : list Z) (start : nat) : outcome nat :=
  match text with
  | [] => Fault
  | c :: text => if c =? SP then skip_spaces text (S start) else Ret start
  end.

(** [while (start < end && end[-1] == ' ') { end--; }] *)
Fixpoint trim_spaces (v : list Z) (start end_ : nat) : outcome nat :=
  match end_ with
  | O => Ret O
  | S e =>
      if (start <? end_)%nat then
        let* c := of_option (v !! e) in
        if c =? SP then trim_spaces v start e else Ret end_
      else Ret end_
  end.

Definition nxt_http_cookie (array : nxt_array nxt_http_name_value) (v : list Z) (name name_length start end_ : nat) :
    Alloc (option (nxt_array nxt_http_name_value)) :=
  let text := window v name (name + name_length) in
  let hash := fold_left nxt_http_field_hash_char text NXT_HTTP_FIELD_HASH_INIT in
  let! end_ := alift (trim_spaces v start end_) in
  nxt_array_add alloc array
    (Nv (Z.land (nxt_http_field_hash_end hash) 65535) (name_text text) (value_text (window v start end_))).

(** The loop at [p], with [n] bytes ahead; [name] is the offset of the name and
    its length. *)
Fixpoint cookie_loop (n : nat) (v : list Z) (p start : nat) (name : option (nat * nat))
    (cookies : nxt_array nxt_http_name_value) : Alloc (option (nxt_array nxt_http_name_value)) :=
  match n with
  | O =>
      match name with
      | Some (name, len) => nxt_http_cookie cookies v name len start p
      | None => aret (Some cookies)
      end
  | S n =>
      let! c := alift (of_option (v !! p)) in
      match name with
      | None =>
          if c =? EQUALS then
            let! start := alift (skip_spaces (drop start v) start) in
            cookie_loop n v (S p) (S p) (Some (start, p - start)%nat) cookies
          else if c =? SEMICOLON then cookie_loop n v (S p) (S p) None cookies
          else cookie_loop n v (S p) start None cookies
      | Some (name, len) =>
          if c =? SEMICOLON then
            let! r := nxt_http_cookie cookies v name len start p in
            match r with
            | None => aret None
            | Some cookies => cookie_loop n v (S p) (S p) None cookies
            end
          else cookie_loop n v (S p) start (Some (name, len)) cookies
      end
  end.

Definition nxt_http_cookie_parse (cookies : nxt_array nxt_http_name_value) (v : list Z) :
    Alloc (option (nxt_array nxt_http_name_value)) :=
  cookie_loop (length v) v 0 0 None cookies.

Definition NXT_HTTP_COOKIE_HASH : Z :=
  Z.land (nxt_http_field_hash_end
    (fold_left nxt_http_field_hash_char (bytes_of_string "cookie") NXT_HTTP_FIELD_HASH_INIT)) 65535.

(** The name and the value of a field, in the buffer of the header. *)
Definition fld_name_text (header : list Z) (f : nxt_http_field) : list Z := 
  window header (fld_name f) (fld_name f + Z.to_nat (fld_name_length f)).
Definition fld_value_text (header : list Z) (f : nxt_http_field) : list Z :=
  window header (fld_value f) (fld_value f + Z.to_nat (fld_value_length f)).

(** The body of the loop over the fields, on the array and the memory pool. *)
Definition cookie_field (header : list Z) (f : nxt_http_field) (s : nxt_array nxt_http_name_value * nat) :
    outcome ((nxt_array nxt_http_name_value * nat) + nat) :=
  let '(cookies, k) := s in
  if negb (fld_hash f =? NXT_HTTP_COOKIE_HASH) || negb (fld_name_length f =? 6) then Ret (inl s)
  else
    let* d := nxt_strncasecmp (drop (fld_name f) header) (bytes_of_string "Cookie") 6 in
    if negb (d =? 0) then Ret (inl s)
    else
      let* r := nxt_http_cookie_parse cookies (fld_value_text header f) k in
      match r with
      | (Some cookies, k) => Ret (inl (cookies, k))
      | (None, k) => Ret (inr k)
      end.

Definition nxt_http_cookies_parse (header : list Z) (inl : list nxt_http_field) (fields : option (nxt_list nxt_http_field))
    (cookies : option (nxt_array nxt_http_name_value)) :
    Alloc (option (nxt_array nxt_http_name_value) * option (nxt_array nxt_http_name_value)) :=
  match cookies with
  | Some a => aret (Some a, Some a)
  | None =>
      let! created := nxt_array_create alloc 2 in
      match created with
      | None => aret (None, None)
      | Some a =>
          fun k =>
            let* r := nxt_http_fields_each inl fields (cookie_field header) (a, k) in
            match r with
            | inl (a, k) => Ret ((Some a, Some a), k)
            | inr k => Ret ((None, None), k)
            end
      end
  end.

(** ** The hashes of names *)

(** The decoded name and its hash, [None] for -1. *)
Fixpoint field_hash_loop (case_sensitive : bool) (plus : Z) (src : list Z) (str : list Z) (hash : Z) :
    outcome (option (list Z * Z)) :=
  let hashed c := nxt_http_field_hash_char hash (if case_sensitive then c else nxt_lowcase c) in
  match src with
  | [] => Ret (Some (str, hash))
  | c :: rest =>
      if c =? PERCENT then
        match rest with
        | h :: l :: rest =>
            let* d0 := hex2int h in
            let* d1 := hex2int l in
            if 16 <=? Z.lor d0 d1 then Ret None
            else
              let c := u8 (Z.shiftl d0 4 + d1) in
              field_hash_loop case_sensitive plus rest (str ++ [c]) (hashed c)
        | _ => Ret None
        end
      else
        let c := if c =? PLUS then plus else c in
        field_hash_loop case_sensitive plus rest (str ++ [c]) (hashed c)
  end.

Definition nxt_http_field_hash (name : list Z) (case_sensitive : bool) (encoding : nxt_http_uri_encoding) :
    Alloc (option (list Z * Z)) :=
  let! ok := request alloc in
  if negb ok then aret None
  else
    let finish r := (fun '(str, hash) => (str, Z.land (nxt_http_field_hash_end hash) 65535)) <$> r in
    match encoding with
    | URI_ENCODING_NONE =>
        aret (finish (Some (name, fold_left
          (fun hash c => nxt_http_field_hash_char hash (if case_sensitive then c else nxt_lowcase c)) name
          NXT_HTTP_FIELD_HASH_INIT)))
    | _ =>
        let plus := match encoding with URI_ENCODING_PLUS => SP | _ => PLUS end in
        let! r := alift (field_hash_loop case_sensitive plus name [] NXT_HTTP_FIELD_HASH_INIT) in
        aret (finish r)
    end.

Definition nxt_http_argument_hash (name : list Z) : Alloc (option (list Z * Z)) :=
  nxt_http_field_hash name true URI_ENCODING_PLUS.

Definition nxt_http_cookie_hash (name : list Z) : Alloc (option (list Z * Z)) :=
  nxt_http_field_hash name true URI_ENCODING_NONE.

(** The letters in lower case, and minus signs for underscores. *)
Definition header_char (c : Z) : Z :=
  if (CH_A <=? c) && (c <=? CH_Z) then Z.lor c 32 else if c =? UNDERSCORE then MINUS else c.

Definition nxt_http_header_hash (name : list Z) : Alloc (option (list Z * Z)) :=
  let! ok := request alloc in
  aret (if negb ok then None
        else
          let str := map header_char name in
          Some (str, Z.land (nxt_http_field_hash_end (fold_left nxt_http_field_hash_char str NXT_HTTP_FIELD_HASH_INIT)) 65535)).

End Args.

(** ** The fields, one after the other *)

Fixpoint each {S R} (body : nxt_http_field -> S -> outcome (S + R)) (fs : list nxt_http_field) (s : S) : outcome (S + R) :=
  match fs with
  | [] => Ret (inl s)
  | f :: fs => let* r := body f s in match r with inl s => each body fs s | inr x => Ret (inr x) end
  end.

(** What is ahead of an iterator. *)
Definition ahead_parts (ps : list (list nxt_http_field)) (elt : nat) : list nxt_http_field := drop elt (default [] (head ps)) ++ concat (tail ps).

Definition ahead (iter : nxt_http_fields_iter) : list nxt_http_field :=
  drop (inline_index iter) (iter_inline iter) ++ ahead_parts (iter_parts iter) (iter_elt iter).

Definition ahead_of (it : option nxt_http_field * nxt_http_fields_iter) : list nxt_http_field :=
  match it with (Some f, iter) => f :: ahead iter | (None, _) => [] end.

Lemma next_in_parts_ok inl index ps : forall elt,
  drop index inl = [] -> ahead_of (next_in_parts inl index ps elt) = ahead_parts ps elt.
Proof.
  induction ps as [|part ps IH]; intros elt Hi; [by destruct elt|]. cbn [next_in_parts].
  unfold ahead_parts. cbn [head default from_option id tail]. destruct (part !! elt) as [f|] eqn:Ef.
  - cbn. unfold ahead. cbn. rewrite Hi. unfold ahead_parts. cbn. by rewrite (drop_S _ _ _ Ef).
  - rewrite IH by done. rewrite drop_ge by (by apply lookup_ge_None). by destruct ps.
Qed.

Lemma fields_next_ok iter : ahead_of (nxt_http_fields_next iter) = ahead iter.
Proof.
  unfold nxt_http_fields_next, ahead. destruct (iter_inline iter !! inline_index iter) as [f|] eqn:Ef.
  - cbn. unfold ahead. cbn. by rewrite (drop_S _ _ _ Ef).
  - apply lookup_ge_None, drop_ge in Ef. by rewrite next_in_parts_ok, Ef.
Qed.

Lemma fields_first_ok inl fields : ahead_of (nxt_http_fields_first inl fields) = inl ++ elements fields.
Proof.
  unfold nxt_http_fields_first, elements. set (ps := match fields with Some l => parts l | None => [] end).
  assert (Hps : ahead_parts ps 0 = match fields with Some l => concat (parts l) | None => [] end).
  { unfold ps. destruct fields as [l|]; [|done]. unfold ahead_parts. by destruct (parts l). }
  destruct inl as [|f inl]; cbn.
  - by rewrite next_in_parts_ok.
  - unfold ahead_parts in Hps. by rewrite drop_0, Hps.
Qed.

Lemma fields_loop_ok {S R} (body : nxt_http_field -> S -> outcome (S + R)) fuel : forall it s,
  (length (ahead_of it) < fuel)%nat -> fields_loop fuel body it s = each body (ahead_of it) s.
Proof.
  induction fuel as [|fuel IH]; intros [[f|] iter] s Hf; cbn in *; [lia|lia| |done].
  destruct (body f s) as [[s'|x]| |]; cbn; [|done..]. rewrite IH, fields_next_ok; [done|]. rewrite fields_next_ok. lia.
Qed.

Lemma fields_each_ok {S R} inl fields (body : nxt_http_field -> S -> outcome (S + R)) s :
  nxt_http_fields_each inl fields body s = each body (inl ++ elements fields) s.
Proof.
  unfold nxt_http_fields_each. rewrite fields_loop_ok, fields_first_ok; [done|]. rewrite fields_first_ok.
  unfold fields_fuel. rewrite length_app. lia.
Qed.

(** ** The arguments of a query *)

(** Decoding that leaves an escape that is not one as it is. *)
Fixpoint lenient (s : list Z) : list Z :=
  match s with
  | [] => []
  | c :: rest =>
      if c =? PLUS then SP :: lenient rest
      else if c =? PERCENT then
        match rest with
        | h :: l :: rest' =>
            match hex_value h, hex_value l with
            | Some a, Some b => a * 16 + b :: lenient rest'
            | _, _ => c :: lenient rest
            end
        | _ => c :: lenient rest
        end
      else c :: lenient rest
  end.

(** The text up to the first separator, and what is behind it. *)
Fixpoint cut (sep : Z) (s : list Z) : list Z * option (list Z) :=
  match s with
  | [] => ([], None)
  | c :: s => if c =? sep then ([], Some s) else let '(x, y) := cut sep s in (c :: x, y)
  end.

Definition hash_of (name : list Z) : Z :=
  Z.land (nxt_http_field_hash_end (fold_left nxt_http_field_hash_char name NXT_HTTP_FIELD_HASH_INIT)) 65535.

Definition entry (name value : list Z) : nxt_http_name_value := Nv (hash_of name) (name_text name) (value_text value).

(** An argument, unless its name and its value are empty. *)
Definition named (name value : list Z) : list (list Z * list Z) :=
  if (length name =? 0)%nat && (length value =? 0)%nat then [] else [(name, value)].

Definition argument_of (part : list Z) : list (list Z * list Z) :=
  let '(name, value) := cut EQUALS part in named (lenient name) (lenient (default [] value)).

Definition arguments_of (query : list Z) : list (list Z * list Z) := split_on AMP query ≫= argument_of.

(** Within a part: the decoded name, and the value behind an equals sign. *)
Definition within : Type := list Z * option (list Z).

Definition push (c : Z) (m : within) : within :=
  match m with (nm, None) => (nm ++ [c], None) | (nm, Some v) => (nm, Some (v ++ [c])) end.

Definition equals (m : within) : within :=
  match m with (nm, None) => (nm, Some []) | (nm, Some v) => (nm, Some (v ++ [EQUALS])) end.

(** What the rest [part] of a part adds. *)
Definition part_of (m : within) (part : list Z) : list (list Z * list Z) :=
  match m with
  | (nm, None) => let '(name, value) := cut EQUALS part in named (nm ++ lenient name) (lenient (default [] value))
  | (nm, Some v) => named nm (v ++ lenient part)
  end.

Lemma part_of_start part : part_of ([], None) part = argument_of part.
Proof. done. Qed.

Lemma part_of_equals m part : part_of m (EQUALS :: part) = part_of (equals m) part.
Proof. destruct m as [nm [v|]]; cbn; [by rewrite <- app_assoc|]. by rewrite app_nil_r. Qed.

(** Bytes that are decoded to one. *)
Lemma cut_app sep u s : sep ∉ u -> cut sep (u ++ s) = (u ++ (cut sep s).1, (cut sep s).2).
Proof.
  induction u as [|c u IH]; intros Hu; cbn; [by destruct (cut sep s)|].
  apply not_elem_of_cons in Hu as [Hc Hu]. rewrite (proj2 (Z.eqb_neq _ _)) by done. by rewrite IH.
Qed.

Lemma cut_prefix sep s : (cut sep s).1 `prefix_of` s.
Proof.
  induction s as [|c s IH]; cbn; [done|]. destruct (c =? sep); [apply prefix_nil|].
  destruct (cut sep s) as [x y]. cbn in *. by apply prefix_cons.
Qed.

Lemma part_of_push m u c part :
  EQUALS ∉ u -> (forall q, q `prefix_of` part -> lenient (u ++ q) = c :: lenient q) ->
  part_of m (u ++ part) = part_of (push c m) part.
Proof.
  intros Hu Hq. destruct m as [nm [v|]]; cbn.
  - by rewrite Hq, <- app_assoc by done.
  - rewrite cut_app by done. pose proof (cut_prefix EQUALS part) as Hp. destruct (cut EQUALS part) as [x y]. cbn in *.
    by rewrite Hq, <- app_assoc by done.
Qed.

Lemma split_on_prefix sep s : forall p ps, split_on sep s = p :: ps -> p `prefix_of` s.
Proof.
  induction s as [|c s IH]; intros p ps E; cbn in E; [by simplify_eq|]. destruct (c =? sep); [simplify_eq; apply prefix_nil|].
  destruct (split_on_cons sep s) as (x & xs & Ex). rewrite Ex in E. simplify_eq. apply prefix_cons. by eapply IH.
Qed.

Definition no_escape (s : list Z) : Prop :=
  match s with h :: l :: _ => hex_value h = None \/ hex_value l = None | _ => True end.

Lemma lenient_percent rest q : no_escape rest -> q `prefix_of` rest -> lenient (PERCENT :: q) = PERCENT :: lenient q.
Proof.
  intros Hr [t ->]. destruct q as [|h [|l q]]; [done..|]. cbn in Hr. cbn [lenient]. cbn.
  destruct Hr as [-> | ->]; [done|]. by destruct (hex_value h).
Qed.

Lemma hex_value_not h a : hex_value h = Some a -> h <> AMP /\ h <> EQUALS.
Proof. unfold hex_value. intros H. repeat case_match; zbool; simplify_eq; lia. Qed.

Lemma escape_byte h l a b : hex_value h = Some a -> hex_value l = Some b -> u8 (Z.shiftl a 4 + b) = a * 16 + b.
Proof.
  intros Ha%hex_value_range Hb%hex_value_range. rewrite Z.shiftl_mul_pow2 by lia. unfold u8. rewrite Z.mod_small; lia.
Qed.

Section Arguments.
Context (alloc : nat -> bool).

Abbreviation nelts a := (Z.of_nat (length (elts a))).

Definition hash_from (name : list Z) : Z := fold_left nxt_http_field_hash_char name NXT_HTTP_FIELD_HASH_INIT.

(** The variables of the loop, within a part. *)
Definition at_part (s : arguments_parse) (m : within) : Prop :=
  (dst_start s + length (drop (dst_start s) (dst s)) = length (dst s))%nat /\ arg_hash s = hash_from m.1 /\
  match m with
  | (nm, None) => arg_name s = None /\ name_length s = 0%nat /\ drop (dst_start s) (dst s) = nm
  | (nm, Some v) =>
      exists n, arg_name s = Some n /\ name_length s = length nm /\ (n + length nm <= length (dst s))%nat /\
        window (dst s) n (n + length nm) = nm /\ drop (dst_start s) (dst s) = v
  end.

Lemma at_push s m c : at_part s m -> at_part (argument_char c s) (push c m).
Proof.
  intros (Hs & Hh & Hm). unfold at_part. rewrite length_drop in Hs. cbn. rewrite !length_drop, !length_app, !drop_app_le by lia. cbn.
  destruct m as [nm [v|]]; cbn in *.
  - destruct Hm as (n & -> & Hl & Hn & Hw & <-). split_and!; [lia|done|]. exists n. rewrite window_app by lia. split_and!; try done. lia.
  - destruct Hm as (-> & Hl & <-). split_and!; try done; [lia|]. unfold hash_from in *. rewrite fold_left_app. cbn. by rewrite Hh.
Qed.

Lemma at_equals s m : at_part s m -> at_part (argument_equals s) (equals m).
Proof.
  intros (Hs & Hh & Hm). unfold at_part, argument_equals. rewrite length_drop in Hs. destruct m as [nm [v|]]; cbn in *.
  - destruct Hm as (n & -> & Hl & Hn & Hw & <-). cbn. rewrite !length_drop, !length_app, !drop_app_le by lia. cbn.
    split_and!; [lia|done|]. exists n. rewrite window_app by lia. split_and!; try done. lia.
  - destruct Hm as (-> & Hl & <-). cbn. rewrite !length_drop, !length_app, (drop_ge (_ ++ _)) by (rewrite length_app; cbn; lia). cbn.
    split_and!; [lia|done|]. exists (dst_start s). rewrite window_app by lia. split_and!; try done; [lia|].
    rewrite window_to_end by lia. done.
Qed.

Definition entries (l : list (list Z * list Z)) : list nxt_http_name_value := (fun '(n, v) => entry n v) <$> l.

Lemma argument_end_ok s m :
  at_part s m -> array_ok (arg_array s) -> nelts (arg_array s) <= 43690 ->
  gives alloc (argument_end alloc s)
    (fun a => elts a = elts (arg_array s) ++ entries (part_of m []) /\ array_ok a).
Proof.
  intros (Hs & Hh & Hm) Ha Hn. unfold argument_end, nxt_http_argument.
  rewrite length_drop in Hs. destruct m as [nm [v|]]; cbn in *.
  - destruct Hm as (n & -> & -> & Hle & Hw & <-). rewrite app_nil_r. unfold named. rewrite length_drop. cbn.
    replace (length (dst s) - dst_start s =? 0)%nat with (length (dst s) =? dst_start s)%nat.
    2: { apply Bool.eq_iff_eq_true. rewrite !Nat.eqb_eq. lia. }
    rewrite <- negb_andb. destruct (_ && _); cbn; [apply gives_ret; by rewrite app_nil_r|].
    rewrite Hw. apply gives_add; [done..|]. intros a' -> Ha'. split; [|done]. unfold entry, hash_of. by rewrite Hh.
  - destruct Hm as (-> & -> & <-). rewrite app_nil_r. unfold named. rewrite length_drop. cbn. rewrite andb_true_r.
    replace (length (dst s) - dst_start s =? 0)%nat with (length (dst s) =? dst_start s)%nat.
    2: { apply Bool.eq_iff_eq_true. rewrite !Nat.eqb_eq. lia. }
    change (0 =? 0)%nat with true. destruct (length (dst s) =? dst_start s)%nat; cbn; [apply gives_ret; by rewrite app_nil_r|].
    apply gives_add; [done..|]. intros a' -> Ha'. split; [|done]. unfold entry, hash_of. by rewrite Hh.
Qed.

(** The rest [src] of the query. *)
Definition query_of (m : within) (src : list Z) : list (list Z * list Z) :=
  match split_on AMP src with
  | [] => []
  | part :: parts => part_of m part ++ (parts ≫= argument_of)
  end.

Lemma query_of_push m u c src :
  EQUALS ∉ u -> AMP ∉ u -> (forall q, q `prefix_of` src -> lenient (u ++ q) = c :: lenient q) ->
  query_of m (u ++ src) = query_of (push c m) src.
Proof.
  intros Hu Ha Hq. unfold query_of. destruct (split_on_cons AMP src) as (x & xs & Ex).
  assert (Hs : split_on AMP (u ++ src) = (u ++ x) :: xs).
  { clear Hu Hq. induction u as [|a u IH]; [done|]. apply not_elem_of_cons in Ha as [Ha Hu]. cbn.
    by rewrite (proj2 (Z.eqb_neq _ _)), IH by done. }
  rewrite Hs, Ex. f_equal. apply part_of_push; [done|]. intros q Hp. apply Hq. etrans; [exact Hp|]. by eapply split_on_prefix.
Qed.

Lemma query_of_equals m src : query_of m (EQUALS :: src) = query_of (equals m) src.
Proof.
  unfold query_of. cbn [split_on]. change (EQUALS =? AMP) with false. cbv iota.
  destruct (split_on_cons AMP src) as (x & xs & ->). by rewrite part_of_equals.
Qed.

Lemma query_of_amp m src : query_of m (AMP :: src) = part_of m [] ++ query_of ([], None) src.
Proof.
  unfold query_of. cbn [split_on]. change (AMP =? AMP) with true. cbv iota. f_equal.
  by destruct (split_on_cons AMP src) as (x & xs & ->).
Qed.

(** What the loop gives. *)
Record looped (s : arguments_parse) (m : within) (src : list Z) (s' : arguments_parse) : Prop := {
  l_dst : dst s' = dst s ++ lenient src;
  l_ok : array_ok (arg_array s');
  l_count : nelts (arg_array s') <= 43690;
  l_elts : exists m', at_part s' m' /\
    elts (arg_array s') ++ entries (part_of m' []) = elts (arg_array s) ++ entries (query_of m src)
}.

(** There is room for the arguments of [src]. *)
Definition room_for (size : nat) (src : list Z) (s : arguments_parse) : Prop :=
  Forall byte src /\ array_ok (arg_array s) /\ (length (dst s) + length src <= size)%nat /\
  nelts (arg_array s) + Z.of_nat (length src) <= 43690.

Definition loops (size n : nat) : Prop :=
  forall src s m, (length src <= n)%nat -> at_part s m -> room_for size src s ->
    gives alloc (arguments_loop alloc size src s) (looped s m src).

Section Step.
Context (size n : nat) (c : Z) (rest : list Z) (s : arguments_parse) (m : within).
Hypothesis IH : loops size n.
Hypothesis Hn : (length rest <= n)%nat.
Hypothesis Hat : at_part s m.
Hypothesis Hroom : room_for size (c :: rest) s.

(** A byte is written, and [src1] is left. *)
Lemma loop_consume src1 s1 m1 c' :
  (length src1 <= length rest)%nat -> at_part s1 m1 -> Forall byte src1 -> arg_array s1 = arg_array s ->
  dst s1 = dst s ++ [c'] -> lenient (c :: rest) = c' :: lenient src1 -> query_of m (c :: rest) = query_of m1 src1 ->
  gives alloc (arguments_loop alloc size src1 s1) (looped s m (c :: rest)).
Proof.
  intros Hlen Hat1 Hb1 Ha1 Hd1 Hl1 Hq1. destruct Hroom as (Hb & Ha & Hsize & Hc). cbn [length] in *.
  eapply gives_conseq; [apply (IH src1 s1 m1); [lia|done|]|].
  - split_and!; [done|by rewrite Ha1|rewrite Hd1, length_app; cbn; lia|rewrite Ha1; lia].
  - intros s' [H1 H2 H3 (m' & H4 & H5)]. constructor; [by rewrite H1, Hd1, Hl1, <- app_assoc|done|done|].
    exists m'. split; [done|]. by rewrite H5, Ha1, Hq1.
Qed.

Lemma loop_push c' :
  c <> EQUALS -> c <> AMP -> (forall q, q `prefix_of` rest -> lenient (c :: q) = c' :: lenient q) ->
  gives alloc (arguments_loop alloc size rest (argument_char c' s)) (looped s m (c :: rest)).
Proof.
  intros He Hamp Hq. apply (loop_consume rest _ (push c' m) c'); try done; [by apply at_push| |by apply Hq|].
  - destruct Hroom as [Hb _]. by apply Forall_cons in Hb as [_ ?].
  - apply (query_of_push m [c]); [by intros ?%list_elem_of_singleton..|done].
Qed.

Lemma loop_amp a :
  c = AMP -> elts a = elts (arg_array s) ++ entries (part_of m []) -> array_ok a ->
  gives alloc (arguments_loop alloc size rest
    (Arguments_parse (dst s ++ [AMP]) (length (dst s) + 1) None 0 NXT_HTTP_FIELD_HASH_INIT a)) (looped s m (c :: rest)).
Proof.
  intros -> Hea Hoka. destruct Hroom as (Hb & Ha & Hsize & Hc). apply Forall_cons in Hb as [_ Hb]. cbn [length] in *.
  assert (Hla : (length (elts a) <= S (length (elts (arg_array s))))%nat).
  { rewrite Hea, length_app. unfold entries. rewrite length_fmap. unfold part_of, named.
    destruct m as [nm [v|]]; cbn; case_match; cbn; lia. }
  set (s1 := Arguments_parse _ _ _ _ _ _). eapply gives_conseq; [apply (IH rest s1 ([], None)); [done|..]|].
  - unfold s1, at_part. cbn. rewrite drop_ge by (rewrite length_app; cbn; lia). rewrite length_app. cbn. split_and!; done || lia.
  - split_and!; cbn; [done|done|rewrite length_app; cbn; lia|lia].
  - intros s' [H1 H2 H3 (m' & H4 & H5)]. constructor; [rewrite H1; cbn; by rewrite <- app_assoc|done|done|].
    exists m'. split; [done|]. rewrite H5, query_of_amp. unfold s1. cbn [arg_array]. rewrite Hea. unfold entries. by rewrite fmap_app, app_assoc.
Qed.

(** An escape. *)
Lemma loop_escape h l rest' a b :
  c = PERCENT -> rest = h :: l :: rest' -> hex_value h = Some a -> hex_value l = Some b ->
  gives alloc (arguments_loop alloc size rest' (argument_char (u8 (Z.shiftl a 4 + b)) s)) (looped s m (c :: rest)).
Proof.
  intros Ecp Er Eh El. rewrite (escape_byte _ _ _ _ Eh El). assert (Hl : forall q, lenient ([PERCENT; h; l] ++ q) = a * 16 + b :: lenient q) by (intros q; cbn; by rewrite Eh, El).
  apply (loop_consume rest' _ (push (a * 16 + b) m) (a * 16 + b)); try done; [rewrite Er; cbn; lia|by apply at_push| |rewrite Ecp, Er|rewrite Ecp, Er].
  - destruct Hroom as [Hb _]. rewrite Er, !Forall_cons in Hb. by destruct Hb as (_ & _ & _ & ?).
  - apply (Hl rest').
  - destruct (hex_value_not _ _ Eh), (hex_value_not _ _ El).
    apply (query_of_push m [PERCENT; h; l]); [| |intros q _; apply Hl]; rewrite !not_elem_of_cons; split_and!; try done; apply not_elem_of_nil.
Qed.

End Step.

Lemma arguments_loop_ok size n : loops size n.
Proof.
  induction n as [|n IH]; intros src s m Hn Hat Hroom; (destruct src as [|c rest];
    [destruct Hroom as (_ & Ha & _ & Hc); apply gives_ret; constructor; [by rewrite app_nil_r|done|cbn in *; lia|];
     exists m; split; [done|]; unfold query_of; cbn; by rewrite app_nil_r|cbn in Hn; try lia]).
  assert (Hn' : (length rest <= n)%nat) by lia. pose proof Hroom as (Hb & Ha & Hsize & Hc).
  apply Forall_cons in Hb as [Hcb Hb]. cbn [length] in *. cbn [arguments_loop]. rewrite (proj2 (Nat.leb_gt _ _)) by lia.
  destruct (Z.eqb_spec c EQUALS) as [->|He].
  { apply (loop_consume size n EQUALS rest s m IH Hn' Hroom rest _ (equals m) EQUALS); try done; [by apply at_equals| | |apply query_of_equals];
      unfold argument_equals; by destruct (arg_name s). }
  destruct (Z.eqb_spec c AMP) as [->|Hamp].
  { eapply gives_bind; [apply argument_end_ok; [exact Hat|done|lia]|]. intros a [Hea Hoka]. by apply (loop_amp size n). }
  destruct (Z.eqb_spec c PLUS) as [->|Hplus]; [by apply (loop_push size n)|].
  destruct (Z.eqb_spec c PERCENT) as [->|Hper].
  2: { apply (loop_push size n); [done..|]. intros q _. cbn. by rewrite !(proj2 (Z.eqb_neq _ _)) by done. }
  assert (Hlit : no_escape rest -> gives alloc (arguments_loop alloc size rest (argument_char PERCENT s)) (looped s m (PERCENT :: rest))).
  { intros Hno. apply (loop_push size n); [done..|]. intros q Hq. by eapply lenient_percent. }
  destruct rest as [|h [|l rest']]; [by apply Hlit..|]. rewrite !Forall_cons in Hb. destruct Hb as (Hh & Hl & Hb).
  eapply gives_lift; [by apply hex2int_ok|]. eapply gives_lift; [by apply hex2int_ok|].
  rewrite hex_pair. destruct (hex_value h) as [a|] eqn:Eh; [|apply Hlit; by left].
  destruct (hex_value l) as [b|] eqn:El; [|apply Hlit; by right]. by eapply (loop_escape size n).
Qed.

(** What the request keeps of the query [args]. *)
Definition args_kept (args : option (list Z)) (r : args_state) : Prop :=
  match arguments r with
  | Some a =>
      elts a = entries (arguments_of (default [] args)) /\
      decoded_start r = lenient <$> args /\ decoded_length r = length (lenient (default [] args))
  | None => args = None -> decoded_start r = None /\ decoded_length r = 0%nat
  end.

Lemma query_of_start src : query_of ([], None) src = arguments_of src.
Proof. unfold query_of, arguments_of. by destruct (split_on_cons AMP src) as (x & xs & ->). Qed.

Lemma arguments_parse_ok args r k :
  args_kept args r -> Forall byte (default [] args) -> Z.of_nat (length (default [] args)) <= 43690 ->
  exists a r' k', nxt_http_arguments_parse alloc args r k = Ret ((a, r'), k') /\ args_kept args r' /\
    match a with
    | Some a => arguments r' = Some a
    | None => arguments r' = None /\ exists j, alloc j = false
    end.
Proof.
  intros Hk Hb Hl. unfold nxt_http_arguments_parse. destruct (arguments r) as [a|] eqn:Ea; [by eexists _, _, _|].
  unfold abind. rewrite array_create_ok by lia. cbn. destruct (alloc k) eqn:Ek; cbn.
  2: { eexists None, r, _. split; [done|]. split; [done|]. split; [done|]. by exists k. }
  unfold args_kept in Hk. rewrite Ea in Hk. destruct args as [text|]; cbn in *.
  2: { eexists _, _, _. split; [done|]. destruct Hk as [-> ->]; done. }
  destruct (alloc (S k)) eqn:Ek'; cbn.
  2: { eexists None, r, _. split; [done|]. split; [by unfold args_kept; rewrite Ea|]. split; [done|]. by exists (S k). }
  set (s0 := Arguments_parse _ _ _ _ _ _).
  destruct (arguments_loop_ok (length text) (length text) text s0 ([], None)) with (k := S (S k)) as (r1 & k1 & -> & Hr1);
    [done|done|split; [done|]; split; [by apply (array_fresh 2)|]; cbn; lia|]. cbn.
  destruct r1 as [s|]; cbn; [|by eexists None, _, _]. destruct Hr1 as [Hd Hok Hc (m & Hm & He)].
  destruct (argument_end_ok s m Hm Hok Hc k1) as (r2 & k2 & -> & Hr2). cbn.
  eexists _, _, _. split; [done|]. unfold args_kept. cbn. destruct r2 as [a|]; [|done].
  destruct Hr2 as [Hea _]. rewrite Hd, Hea, He, query_of_start. done.
Qed.

End Arguments.

(** The names and the values of a query, as they are kept, for a query without
    names or values that are too long. *)
Lemma entry_fits name value :
  Z.of_nat (length name) < 65536 -> Z.of_nat (length value) < 2 ^ 32 ->
  entry name value = Nv (hash_of name) name value.
Proof.
  intros Hn Hv. unfold entry, name_text, value_text, u16, u32. rewrite !Z.mod_small by lia. by rewrite !take_ge by lia.
Qed.

(** ** The cookies of a field *)

Fixpoint drop_spaces (s : list Z) : list Z :=
  match s with c :: s' => if c =? SP then drop_spaces s' else s | [] => [] end.

Definition trim (s : list Z) : list Z := rev (drop_spaces (rev s)).

Definition cookie_of (part : list Z) : list (list Z * list Z) :=
  match cut EQUALS part with (name, Some value) => [(drop_spaces name, trim value)] | (_, None) => [] end.

Definition cookies_of (text : list Z) : list (list Z * list Z) := split_on SEMICOLON text ≫= cookie_of.

Lemma drop_spaces_app w c t : c <> SP -> drop_spaces (w ++ c :: t) = drop_spaces w ++ c :: t.
Proof.
  intros Hc. induction w as [|x w IH]; cbn; [by rewrite (proj2 (Z.eqb_neq _ _)) by done|]. by destruct (x =? SP).
Qed.

Lemma drop_spaces_suffix s : (length (drop_spaces s) <= length s)%nat /\ drop_spaces s = drop (length s - length (drop_spaces s)) s.
Proof.
  induction s as [|c s [IH1 IH2]]; [done|]. cbn. destruct (c =? SP); cbn.
  - split; [lia|]. rewrite IH2 at 1. by replace (S (length s) - length (drop_spaces s))%nat with (S (length s - length (drop_spaces s))) by lia.
  - split; [lia|]. by rewrite Nat.sub_diag.
Qed.

Lemma skip_spaces_ok w c t start :
  c <> SP -> skip_spaces (w ++ c :: t) start = Ret (start + (length w - length (drop_spaces w)))%nat.
Proof.
  intros Hc. revert start. induction w as [|x w IH]; intros start; cbn.
  - rewrite (proj2 (Z.eqb_neq _ _)) by done. f_equal. lia.
  - destruct (x =? SP) eqn:Ex; cbn.
    + rewrite IH. f_equal. destruct (drop_spaces_suffix w). lia.
    + f_equal. cbn. lia.
Qed.

Lemma trim_snoc s c : trim (s ++ [c]) = if c =? SP then trim s else s ++ [c].
Proof. unfold trim. rewrite rev_app_distr. cbn. destruct (c =? SP); [done|]. cbn. by rewrite rev_involutive. Qed.

Lemma trim_spaces_ok v start end_ :
  (start <= end_ <= length v)%nat ->
  exists e, trim_spaces v start end_ = Ret e /\ window v start e = trim (window v start end_).
Proof.
  induction end_ as [|e IH]; intros He; cbn.
  { exists 0%nat. split; [done|]. by replace start with 0%nat by lia. }
  destruct (Nat.ltb_spec start (S e)) as [Hlt|Hge].
  - destruct (lookup_lt_is_Some_2 v e) as [c Hc]; [lia|]. rewrite Hc. cbn.
    rewrite (window_snoc v start (S e) c) by (rewrite ?Nat.sub_succ, ?Nat.sub_0_r; done || lia).
    replace (S e - 1)%nat with e by lia. rewrite trim_snoc. destruct (c =? SP); [apply IH; lia|].
    exists (S e). split; [done|]. rewrite (window_snoc v start (S e) c) by (rewrite ?Nat.sub_succ, ?Nat.sub_0_r; done || lia).
    by replace (S e - 1)%nat with e by lia.
  - exists (S e). split; [done|]. replace start with (S e) by lia. by rewrite window_end.
Qed.

Lemma cut_none sep s : sep ∉ s -> cut sep s = (s, None).
Proof. intros Hs. pose proof (cut_app sep s [] Hs) as E. by rewrite !app_nil_r in E. Qed.

Section Cookies.
Context (alloc : nat -> bool).

Abbreviation nelts a := (Z.of_nat (length (elts a))).

Lemma cookie_ok cookies v name len start end_ :
  array_ok cookies -> nelts cookies <= 43690 -> (start <= end_ <= length v)%nat ->
  gives alloc (nxt_http_cookie alloc cookies v name len start end_)
    (fun a => elts a = elts cookies ++ entries [(window v name (name + len), trim (window v start end_))] /\ array_ok a).
Proof.
  intros Ha Hn Hs. unfold nxt_http_cookie. destruct (trim_spaces_ok v start end_ Hs) as (e & He & Hw).
  eapply gives_lift; [exact He|]. rewrite Hw. apply gives_add; [done..|]. intros a' -> Ha'. done.
Qed.

(** The cookies of the rest of the text, within a part that begins at [start]. *)
Definition cookies_from (v : list Z) (p start : nat) (name : option (nat * nat)) : list (list Z * list Z) :=
  match split_on SEMICOLON (drop p v) with
  | [] => []
  | part :: parts =>
      (match name with
       | None => cookie_of (window v start p ++ part)
       | Some (n, len) => [(window v n (n + len), trim (window v start p ++ part))]
       end) ++ (parts ≫= cookie_of)
  end.

Lemma cookies_from_char v p start name c :
  v !! p = Some c -> (start <= p)%nat -> c <> SEMICOLON -> cookies_from v p start name = cookies_from v (S p) start name.
Proof.
  intros Hc Hs Hne. unfold cookies_from. rewrite (drop_S _ _ _ Hc). cbn [split_on]. rewrite (proj2 (Z.eqb_neq _ _)) by done.
  destruct (split_on_cons SEMICOLON (drop (S p) v)) as (x & xs & ->).
  assert (E : window v start (S p) = window v start p ++ [c]).
  { pose proof (lookup_lt_Some _ _ _ Hc). rewrite (window_snoc v start (S p) c); [|lia|by rewrite Nat.sub_succ, Nat.sub_0_r].
    by rewrite Nat.sub_succ, Nat.sub_0_r. }
  rewrite E. destruct name as [[n len]|]; by rewrite <- app_assoc.
Qed.

Lemma cookies_from_semicolon v p start name :
  v !! p = Some SEMICOLON ->
  cookies_from v p start name =
    (match name with
     | None => cookie_of (window v start p)
     | Some (n, len) => [(window v n (n + len), trim (window v start p))]
     end) ++ cookies_from v (S p) (S p) None.
Proof.
  intros Hc. unfold cookies_from. rewrite (drop_S _ _ _ Hc). cbn [split_on]. change (SEMICOLON =? SEMICOLON) with true. cbv iota.
  destruct (split_on_cons SEMICOLON (drop (S p) v)) as (x & xs & ->). rewrite window_end. cbn [mbind list_bind app].
  destruct name as [[n len]|]; by rewrite app_nil_r.
Qed.

(** An equals sign ends a name. *)
Lemma cookies_from_equals v p start :
  v !! p = Some EQUALS -> (start <= p)%nat -> EQUALS ∉ window v start p ->
  exists start', skip_spaces (drop start v) start = Ret start' /\
    cookies_from v p start None = cookies_from v (S p) (S p) (Some (start', (p - start')%nat)).
Proof.
  intros Hc Hs Hw. pose proof (lookup_lt_Some _ _ _ Hc) as Hp.
  assert (Ed : drop start v = window v start p ++ EQUALS :: drop (S p) v).
  { rewrite <- (drop_S _ _ _ Hc), <- (window_to_end v start (length v)), (window_split v start p (length v)) by lia.
    by rewrite (window_to_end v p (length v)) by lia. }
  rewrite Ed. eexists. split; [by apply skip_spaces_ok|].
  set (w := window v start p) in *. destruct (drop_spaces_suffix w) as [Hle Hsuf].
  assert (Hlw : length w = (p - start)%nat) by (unfold w; apply window_length; lia).
  unfold cookies_from. rewrite (drop_S _ _ _ Hc). cbn [split_on]. change (EQUALS =? SEMICOLON) with false. cbv iota.
  destruct (split_on_cons SEMICOLON (drop (S p) v)) as (x & xs & ->). fold w. rewrite window_end. f_equal.
  unfold cookie_of. rewrite cut_app by done. cbn. rewrite app_nil_r. do 2 f_equal.
  set (n := (length w - length (drop_spaces w))%nat) in *. replace (start + n + (p - (start + n)))%nat with p by lia.
  by rewrite window_drop.
Qed.

Definition pending (name : option (nat * nat)) : Z := match name with Some _ => 1 | None => 0 end.

Definition cookie_loops (n : nat) : Prop :=
  forall v p start name cookies,
  (p + n = length v)%nat -> (start <= p)%nat -> (name = None -> EQUALS ∉ window v start p) ->
  array_ok cookies -> nelts cookies + Z.of_nat n + pending name <= 43690 ->
  gives alloc (cookie_loop alloc n v p start name cookies)
    (fun a => elts a = elts cookies ++ entries (cookies_from v p start name) /\ array_ok a /\
       nelts a <= nelts cookies + Z.of_nat n + pending name).

(** A byte that adds the cookies [es]. *)
Lemma cookie_next n v p start name cookies start' name' cookies' (es : list (list Z * list Z)) :
  cookie_loops n -> (p + S n = length v)%nat -> nelts cookies + Z.of_nat (S n) + pending name <= 43690 ->
  (start' <= S p)%nat -> (name' = None -> EQUALS ∉ window v start' (S p)) -> array_ok cookies' ->
  elts cookies' = elts cookies ++ entries es -> Z.of_nat (length es) + pending name' <= 1 + pending name ->
  cookies_from v p start name = es ++ cookies_from v (S p) start' name' ->
  gives alloc (cookie_loop alloc n v (S p) start' name' cookies')
    (fun a => elts a = elts cookies ++ entries (cookies_from v p start name) /\ array_ok a /\
       nelts a <= nelts cookies + Z.of_nat (S n) + pending name).
Proof.
  intros IH Hp Hc Hs' Hw' Ha' He' Hpend Hfrom.
  assert (Hl' : length (elts cookies') = (length (elts cookies) + length es)%nat).
  { rewrite He', length_app. unfold entries. by rewrite length_fmap. }
  eapply gives_conseq; [apply IH; try done; lia|].
  intros a (Hea & Hoka & Hla). split_and!; [|done|lia]. rewrite Hea, He', Hfrom. unfold entries. by rewrite fmap_app, app_assoc.
Qed.

Lemma cookie_loop_ok n : cookie_loops n.
Proof.
  induction n as [|n IH]; intros v p start name cookies Hp Hs Hw Ha Hc; cbn [cookie_loop].
  { assert (Ed : drop p v = []) by (apply drop_ge; lia). unfold cookies_from. rewrite Ed. cbn [split_on].
    rewrite !app_nil_r. destruct name as [[nm len]|].
    - eapply gives_conseq; [apply cookie_ok; [done|cbn in Hc; lia|lia]|]. intros a [Hea Hoka]. split_and!; [done|done|].
      rewrite Hea, length_app. cbn. lia.
    - apply gives_ret. unfold cookie_of. rewrite cut_none by auto. cbn. split_and!; [by rewrite app_nil_r|done|lia]. }
  destruct (lookup_lt_is_Some_2 v p) as [c Hv]; [lia|]. eapply gives_lift; [by rewrite Hv|].
  assert (Hnone : EQUALS ∉ window v (S p) (S p)) by (rewrite window_end; apply not_elem_of_nil).
  destruct name as [[nm len]|].
  - destruct (Z.eqb_spec c SEMICOLON) as [->|Hsemi].
    + eapply gives_bind; [apply (cookie_ok cookies v nm len start p); [done|cbn in Hc; lia|lia]|]. intros a [Hea Hoka].
      by eapply cookie_next; [..|exact Hea| |rewrite cookies_from_semicolon].
    + eapply (cookie_next _ _ _ _ _ _ _ _ _ []); try done; [lia|by rewrite app_nil_r|by erewrite cookies_from_char].
  - specialize (Hw eq_refl). destruct (Z.eqb_spec c EQUALS) as [->|Heq].
    + destruct (cookies_from_equals v p start Hv Hs Hw) as (start' & Hskip & Hfrom).
      eapply gives_lift; [exact Hskip|]. by eapply (cookie_next _ _ _ _ _ _ _ _ _ []); [..|rewrite app_nil_r| |].
    + destruct (Z.eqb_spec c SEMICOLON) as [->|Hsemi].
      * eapply (cookie_next _ _ _ _ _ _ _ _ _ []); try done; [by rewrite app_nil_r|].
        rewrite cookies_from_semicolon by done. unfold cookie_of at 1. by rewrite cut_none.
      * eapply (cookie_next _ _ _ _ _ _ _ _ _ []); try done; [lia| |by rewrite app_nil_r|by erewrite cookies_from_char].
        intros _. rewrite (window_snoc v start (S p) c), Nat.sub_succ, Nat.sub_0_r; [|lia|by rewrite Nat.sub_succ, Nat.sub_0_r].
        rewrite not_elem_of_app. split; [done|]. by intros ?%list_elem_of_singleton.
Qed.

Lemma cookie_parse_ok cookies v :
  array_ok cookies -> nelts cookies + Z.of_nat (length v) <= 43690 ->
  gives alloc (nxt_http_cookie_parse alloc cookies v)
    (fun a => elts a = elts cookies ++ entries (cookies_of v) /\ array_ok a /\ nelts a <= nelts cookies + Z.of_nat (length v)).
Proof.
  intros Ha Hn. assert (Hf : cookies_from v 0 0 None = cookies_of v).
  { unfold cookies_from, cookies_of. rewrite drop_0, window_end. by destruct (split_on_cons SEMICOLON v) as (x & xs & ->). }
  pose proof (cookie_loop_ok (length v) v 0%nat 0%nat None cookies) as Hl. rewrite Hf in Hl. cbn [pending] in Hl.
  rewrite Z.add_0_r in Hl. apply Hl; try done; try lia. intros _. rewrite window_end. apply not_elem_of_nil.
Qed.

(** ** The cookies of a request *)

Definition cookie_name : list Z := bytes_of_string "cookie".

Definition is_cookie (f : field_line) : bool := bool_decide (map nxt_lowcase (line_name f) = cookie_name).

Definition request_cookies (fs : list field_line) : list (list Z * list Z) :=
  fs ≫= fun f => if is_cookie f then cookies_of (line_value f) else [].

Definition value_bytes (fs : list field_line) : Z := Z.of_nat (length (concat (line_value <$> fs))).

Lemma fields_hash_key_of name : nxt_http_fields_hash_key name = hash_of (map nxt_lowcase name).
Proof.
  unfold nxt_http_fields_hash_key, hash_of. do 2 f_equal. generalize NXT_HTTP_FIELD_HASH_INIT.
  induction name as [|c name IH]; intros h; [done|]. apply IH.
Qed.

Lemma field_texts header f fld :
  field_is header f fld -> fld_name_text header fld = line_name f /\ fld_value_text header fld = line_value f.
Proof.
  intros (Hn & Hv & _). unfold fld_name_text, fld_value_text, window. rewrite <- !take_drop_commute. done.
Qed.

Lemma field_name_at header f fld :
  field_is header f fld -> exists t, drop (fld_name fld) header = line_name f ++ t.
Proof.
  intros (Hn & _). exists (drop (Z.to_nat (fld_name_length fld)) (drop (fld_name fld) header)).
  rewrite <- Hn. by rewrite take_drop.
Qed.

Lemma valid_name_no_nul name : valid_name name -> NUL ∉ name.
Proof. intros (_ & _ & Hn) Hin. rewrite Forall_forall in Hn. by apply (Hn _ Hin). Qed.

Lemma lowcase_zero c : nxt_lowcase c = NUL -> c = NUL.
Proof. unfold nxt_lowcase. case_match; [|done]. rewrite Z.lor_eq_0_iff. lia. Qed.

(** The comparison of names without zero bytes. *)
Lemma strncasecmp_names a t b t' :
  NUL ∉ a \/ NUL ∉ b -> length a = length b ->
  exists d, nxt_strncasecmp (a ++ t) (b ++ t') (length a) = Ret d /\ (d = 0 <-> map nxt_lowcase a = map nxt_lowcase b).
Proof.
  revert b. induction a as [|c a IH]; intros [|c' b] Hn Hl; cbn in Hl; try lia; [by exists 0|].
  rewrite !not_elem_of_cons in Hn.
  cbn [length app nxt_strncasecmp map]. rewrite casediff_eq.
  destruct (nxt_lowcase c - nxt_lowcase c' =? 0) eqn:E; cbn [negb]; zbool.
  - replace ((if c =? c' then c else nxt_lowcase c) =? 0) with false.
    2: { symmetry. apply Z.eqb_neq. pose proof (lowcase_zero c) as H1. pose proof (lowcase_zero c') as H2.
         assert (E' : nxt_lowcase c = nxt_lowcase c') by lia. destruct (Z.eqb_spec c c') as [->|Hcc]; [naive_solver|].
         intros E0. rewrite E0 in *. destruct Hn as [[Hc _]|[Hc _]]; naive_solver. }
    destruct (IH b) as (d & -> & Hd); [naive_solver|lia|]. exists d. split; [done|]. rewrite Hd. split; [intros ->; f_equal; lia|by injection 1].
  - eexists. split; [done|]. split; [done|]. injection 1. lia.
Qed.

Lemma cookie_field_ok header f fld cookies k :
  field_is header f fld -> valid_line f ->
  cookie_field alloc header fld (cookies, k) =
    if is_cookie f then
      let* r := nxt_http_cookie_parse alloc cookies (line_value f) k in
      match r with (Some cookies, k) => Ret (inl (cookies, k)) | (None, k) => Ret (inr k) end
    else Ret (inl (cookies, k)).
Proof.
  intros Hf [Hv _]. unfold cookie_field. destruct (field_texts _ _ _ Hf) as [_ ->].
  destruct (field_name_at _ _ _ Hf) as [t ->]. destruct Hf as (_ & _ & -> & _ & -> & _). rewrite fields_hash_key_of.
  change NXT_HTTP_COOKIE_HASH with (hash_of cookie_name). unfold is_cookie.
  destruct (bool_decide_reflect (map nxt_lowcase (line_name f) = cookie_name)) as [E|E].
  - rewrite E, Z.eqb_refl. apply (f_equal length) in E as El. rewrite length_map in El. cbn in El. rewrite El. cbn [negb orb Z.of_nat Z.eqb Pos.of_succ_nat Pos.succ Pos.eqb].
    destruct (strncasecmp_names (line_name f) t (bytes_of_string "Cookie") []) as (d & Hd & Hiff); [by left; apply valid_name_no_nul|done|].
    rewrite El, app_nil_r in Hd. rewrite Hd. cbn [obind]. rewrite (proj2 Hiff E). done.
  - destruct (Z.eqb_spec (Z.of_nat (length (line_name f))) 6) as [El|]; [|by rewrite orb_true_r].
    destruct (negb _); [done|]. cbn [orb negb].
    destruct (strncasecmp_names (line_name f) t (bytes_of_string "Cookie") []) as (d & Hd & Hiff); [by left; apply valid_name_no_nul|cbn; lia|].
    replace (length (line_name f)) with 6%nat in Hd by lia. rewrite app_nil_r in Hd. rewrite Hd. cbn [obind].
    rewrite (proj2 (Z.eqb_neq d 0)); [done|]. by rewrite Hiff.
Qed.

Lemma cookie_fields_ok header fs : forall flds cookies k,
  Forall2 (field_is header) fs flds -> Forall valid_line fs -> array_ok cookies -> nelts cookies + value_bytes fs <= 43690 ->
  exists r, each (cookie_field alloc header) flds (cookies, k) = Ret r /\
    match r with
    | inl (a, _) => elts a = elts cookies ++ entries (request_cookies fs)
    | inr _ => exists j, alloc j = false
    end.
Proof.
  unfold value_bytes. induction fs as [|f fs IH]; intros flds cookies k Hfs Hv Ha Hn.
  { apply Forall2_nil_inv_l in Hfs as ->. eexists. split; [done|]. by rewrite app_nil_r. }
  apply Forall2_cons_inv_l in Hfs as (fld & flds' & Hf & Hfs & ->). apply Forall_cons in Hv as [Hvf Hv].
  cbn [each]. rewrite (cookie_field_ok header f) by done. rewrite fmap_cons in Hn. cbn in Hn. rewrite length_app in Hn.
  unfold request_cookies. rewrite bind_cons. fold (request_cookies fs). destruct (is_cookie f); [|apply IH; try done; lia].
  destruct (cookie_parse_ok cookies (line_value f) Ha ltac:(lia) k) as (r & k' & -> & Hr). cbn.
  destruct r as [a|]; cbn; [|by eexists]. destruct Hr as (Hea & Hoka & Hla).
  destruct (IH flds' a k') as (r & -> & Hr); [done|done|done|lia|]. exists r. split; [done|].
  destruct r as [[a' k'']|]; [|done]. rewrite Hr, Hea. unfold entries. by rewrite fmap_app, app_assoc.
Qed.

(** What the request keeps of the cookies. *)
Definition cookies_kept (fs : list field_line) (c : option (nxt_array nxt_http_name_value)) : Prop :=
  match c with Some a => elts a = entries (request_cookies fs) | None => True end.

Lemma cookies_parse_ok header fs inl fields c k :
  Forall2 (field_is header) fs (inl ++ elements fields) -> Forall valid_line fs -> value_bytes fs <= 43690 ->
  cookies_kept fs c ->
  exists a c' k', nxt_http_cookies_parse alloc header inl fields c k = Ret ((a, c'), k') /\ a = c' /\ cookies_kept fs c' /\
    (a = None -> exists j, alloc j = false).
Proof.
  intros Hfs Hv Hn Hk. unfold nxt_http_cookies_parse. destruct c as [a|]; [by eexists _, _, _|].
  unfold abind. rewrite array_create_ok by lia. cbn [obind]. destruct (alloc k) eqn:Ek; [|eexists _, _, _; naive_solver].
  rewrite fields_each_ok. destruct (cookie_fields_ok header fs _ (Arr [] 2 (Z.of_nat 2)) (S k) Hfs Hv) as (r & -> & Hr);
    [by apply (array_fresh 2)|cbn; lia|]. cbn [obind]. destruct r as [[a k']|k']; by eexists _, _, _.
Qed.

End Cookies.

(** ** The hashes of names *)

Lemma field_hash_loop_ok sensitive (isplus : bool) n : forall src str hash,
  (length src <= n)%nat -> Forall byte src ->
  field_hash_loop sensitive (if isplus then SP else PLUS) src str hash =
    Ret ((fun d => (str ++ d, fold_left (fun h c => nxt_http_field_hash_char h (if sensitive then c else nxt_lowcase c)) d hash))
      <$> percent_decode isplus src).
Proof.
  induction n as [|n IH]; intros src str hash Hn Hb; (destruct src as [|c rest]; [cbn; by rewrite app_nil_r|cbn in Hn; try lia]).
  apply Forall_cons in Hb as [Hc Hb]. cbn [field_hash_loop percent_decode].
  destruct (Z.eqb_spec c PERCENT) as [->|Hp].
  - destruct rest as [|h [|l rest']]; [done..|]. rewrite !Forall_cons in Hb. destruct Hb as (Hh & Hl & Hb). cbn in Hn.
    rewrite !hex2int_ok by done. cbn [obind]. rewrite hex_pair. destruct (hex_value h) as [a|] eqn:Eh; [|done].
    destruct (hex_value l) as [b|] eqn:El; [|done]. cbn [default].
    rewrite IH by (done || lia). cbn [from_option id]. rewrite (escape_byte _ _ _ _ Eh El).
    destruct (percent_decode isplus rest') as [d|]; [|done]. cbn. by rewrite <- app_assoc.
  - rewrite IH by (done || lia).
    replace (if isplus && (c =? PLUS) then SP else c) with (if c =? PLUS then if isplus then SP else PLUS else c).
    2: { destruct (Z.eqb_spec c PLUS) as [->|]; by destruct isplus. }
    destruct (percent_decode isplus rest) as [d|]; [|done]. cbn. by rewrite <- app_assoc.
Qed.

(** The name that is compared with those of requests. *)
Lemma field_hash_ok alloc name sensitive encoding k :
  Forall byte name ->
  exists r, nxt_http_field_hash alloc name sensitive encoding k = Ret (r, S k) /\
    (alloc k = true ->
     r = (fun d => (d, hash_of (if sensitive then d else map nxt_lowcase d))) <$> decode encoding name) /\
    (alloc k = false -> r = None).
Proof.
  intros Hb. unfold nxt_http_field_hash, abind, request. cbn. destruct (alloc k); cbn; [|by eexists].
  assert (Hh : forall d, (d, Z.land (nxt_http_field_hash_end (fold_left (fun h c => nxt_http_field_hash_char h (if sensitive then c else nxt_lowcase c)) d
    NXT_HTTP_FIELD_HASH_INIT)) 65535) = (d, hash_of (if sensitive then d else map nxt_lowcase d))).
  { intros d. f_equal. destruct sensitive; [done|]. by rewrite <- fields_hash_key_of. }
  destruct encoding; cbn.
  - eexists. split; [done|]. split; [|done]. intros _. by rewrite Hh.
  - pose proof (field_hash_loop_ok sensitive false (length name) name [] NXT_HTTP_FIELD_HASH_INIT ltac:(lia) Hb) as E.
    cbn in E. rewrite E. cbn. eexists. split; [done|]. split; [|done]. intros _.
    destruct (percent_decode false name); [|done]. cbn. by rewrite Hh.
  - pose proof (field_hash_loop_ok sensitive true (length name) name [] NXT_HTTP_FIELD_HASH_INIT ltac:(lia) Hb) as E.
    cbn in E. rewrite E. cbn. eexists. split; [done|]. split; [|done]. intros _.
    destruct (percent_decode true name); [|done]. cbn. by rewrite Hh.
Qed.

(** ** Names and values that fit *)

Definition fits (n : nat) (e : list Z * list Z) : Prop := (length e.1 <= n)%nat /\ (length e.2 <= n)%nat.

Lemma split_on_part sep s : forall p, p ∈ split_on sep s -> (length p <= length s)%nat.
Proof.
  induction s as [|c s IH]; intros p; cbn; [by intros ->%list_elem_of_singleton|]. destruct (c =? sep).
  - intros [->|Hp%IH]%elem_of_cons; cbn; lia.
  - destruct (split_on_cons sep s) as (x & xs & E). rewrite E in IH |- *. intros [->|Hp]%elem_of_cons; cbn.
    + specialize (IH x ltac:(by left)). lia.
    + specialize (IH p ltac:(by right)). lia.
Qed.

Lemma lenient_length n : forall s, (length s <= n)%nat -> (length (lenient s) <= length s)%nat.
Proof.
  induction n as [|n IH]; intros [|c s] Hn; cbn in Hn; try lia; [done..|].
  assert (Hs : (length (lenient s) <= length s)%nat) by (apply IH; lia).
  cbn [lenient]. destruct (c =? PLUS); [cbn; lia|]. destruct (c =? PERCENT); [|cbn; lia].
  destruct s as [|h [|l s]]; [cbn [length] in *; lia..|]. destruct (hex_value h), (hex_value l); try (cbn [length] in *; lia).
  specialize (IH s). cbn in *. lia.
Qed.

Lemma cut_length sep s : (length (cut sep s).1 <= length s)%nat /\ (length (default [] (cut sep s).2) <= length s)%nat.
Proof.
  induction s as [|c s [IH1 IH2]]; [done|]. cbn. destruct (c =? sep); cbn; [lia|]. destruct (cut sep s) as [x y]. cbn in *. lia.
Qed.

Lemma arguments_fit query : Forall (fits (length query)) (arguments_of query).
Proof.
  apply Forall_forall. intros e He. apply list_elem_of_bind in He as (part & He & Hp). apply split_on_part in Hp.
  unfold argument_of in He. pose proof (cut_length EQUALS part) as [H1 H2]. destruct (cut EQUALS part) as [x y].
  unfold named in He. case_match; [by apply elem_of_nil in He|]. apply list_elem_of_singleton in He as ->. cbn in *.
  pose proof (lenient_length _ x ltac:(reflexivity)). pose proof (lenient_length _ (default [] y) ltac:(reflexivity)).
  unfold fits. cbn. lia.
Qed.

Lemma cookies_fit text : Forall (fits (length text)) (cookies_of text).
Proof.
  apply Forall_forall. intros e He. apply list_elem_of_bind in He as (part & He & Hp). apply split_on_part in Hp.
  unfold cookie_of in He. pose proof (cut_length EQUALS part) as [H1 H2]. destruct (cut EQUALS part) as [x [y|]].
  2: { by apply elem_of_nil in He. }
  apply list_elem_of_singleton in He as ->. cbn in *. pose proof (drop_spaces_suffix x) as [Hx _].
  pose proof (drop_spaces_suffix (rev y)) as [Hy _]. unfold fits, trim. cbn. rewrite !length_rev in *. lia.
Qed.

Lemma fits_more n m e : (n <= m)%nat -> fits n e -> fits m e.
Proof. unfold fits. lia. Qed.

Lemma request_cookies_fit fs : Forall (fits (Z.to_nat (value_bytes fs))) (request_cookies fs).
Proof.
  unfold value_bytes. rewrite Nat2Z.id. induction fs as [|f fs IH]; [constructor|]. cbn. rewrite length_app. apply Forall_app. split.
  - destruct (is_cookie f); [|constructor]. eapply Forall_impl; [apply cookies_fit|]. intros e. apply fits_more. lia.
  - eapply Forall_impl; [apply IH|]. intros e. apply fits_more. lia.
Qed.

(** The entry of a name and a value that fit. *)
Definition stored (e : list Z * list Z) : nxt_http_name_value := Nv (hash_of e.1) e.1 e.2.

Lemma entries_fit n l : Z.of_nat n <= 43690 -> Forall (fits n) l -> entries l = stored <$> l.
Proof.
  intros Hn. unfold entries. induction 1 as [|[name value] l [H1 H2] Hl IH]; [done|]. rewrite !fmap_cons, IH. f_equal.
  cbn in *. apply entry_fits; lia.
Qed.

(** C16. The arguments of a request.  [nxt_http_arguments_parse()] on a query of
    at most 43690 bytes gives, or some allocation failed, an array with the
    names and the values between the ampersands in their order, cut at the first
    equals sign, with plus signs and the escapes that are escapes decoded,
    without the parts that have neither a name nor a value, and with the hashes
    of the names; the whole decoded query is kept as well, and later calls
    return the same array. *)
Theorem nxt_http_arguments_parse_correct (alloc : nat -> bool) (args : option (list Z)) (r : args_state) (k : nat) :
  args_kept args r -> Forall byte (default [] args) -> Z.of_nat (length (default [] args)) <= 43690 ->
  exists a r' k', nxt_http_arguments_parse alloc args r k = Ret ((a, r'), k') /\ args_kept args r' /\
    match a with
    | Some a =>
        elts a = stored <$> arguments_of (default [] args) /\ arguments r' = Some a /\ decoded_start r' = lenient <$> args /\
        nxt_http_arguments_parse alloc args r' k' = Ret ((Some a, r'), k')
    | None => exists j, alloc j = false
    end.
Proof.
  intros Hk Hb Hl. destruct (arguments_parse_ok alloc args r k Hk Hb Hl) as (a & r' & k' & E & Hk' & Ha).
  exists a, r', k'. split; [done|]. split; [done|]. destruct a as [a|]; [|by destruct Ha].
  unfold args_kept in Hk'. rewrite Ha in Hk'. destruct Hk' as (He & Hd & _).
  split; [|split; [done|split; [done|]]].
  - rewrite He. eapply entries_fit; [exact Hl|apply arguments_fit].
  - unfold nxt_http_arguments_parse. by rewrite Ha.
Qed.

Definition fresh_args : args_state := Args_state None None 0.

Lemma nxt_http_arguments_parse_correct_witness :
  exists a r' k', nxt_http_arguments_parse (fun _ => true) (Some (bytes_of_string "a=1&b%20c=x+y=%&=&d")) fresh_args 0%nat = Ret ((Some a, r'), k') /\
    elts a = stored <$> [(bytes_of_string "a", bytes_of_string "1"); (bytes_of_string "b c", bytes_of_string "x y=%"); (bytes_of_string "d", [])].
Proof.
  destruct (nxt_http_arguments_parse_correct (fun _ => true) (Some (bytes_of_string "a=1&b%20c=x+y=%&=&d")) fresh_args 0%nat)
    as (a & r' & k' & E & _ & Ha); [done|apply bytes_of_string_byte|vm_compute; discriminate|].
  destruct a as [a|]; [|by destruct Ha]. exists a, r', k'. split; [exact E|]. destruct Ha as [-> _]. reflexivity.
Defined.


(** "Cookie: a=1;  b = 2 " *)
Definition cookie_line : field_line :=
  mk_line (bytes_of_string "Cookie") [SP] (bytes_of_string "a=1 ;  b=2") [] [CR; LF].

Definition cookie_line_field : nxt_http_field :=
  mk_field (nxt_http_fields_hash_key (bytes_of_string "Cookie")) false false 6 10 0 8.

