(* ===== verification/Inet.v ===== *)
(** * Internet addresses: [src/nxt_sockaddr.c]

    The texts of IPv4 and IPv6 addresses.  An [in_addr_t] is the 32-bit integer
    that is kept in memory in network order: on a little-endian machine
    [htonl()] swaps its bytes.  A [struct in6_addr] is 16 bytes. *)

From S2P Require Import Prelude Uri Parse.

#[local] Open Scope Z_scope.

Abbreviation INADDR_NONE := 4294967295 (only parsing).

(** The bytes of a 32-bit integer in memory. *)
Definition le32 (z : Z) : list Z := [z mod 256; z / 256 mod 256; z / 65536 mod 256; z / 16777216 mod 256].

Definition of_bytes4 (a b c d : Z) : Z := a * 16777216 + b * 65536 + c * 256 + d.

Definition htonl (z : Z) : Z :=
  of_bytes4 (z mod 256) (z / 256 mod 256) (z / 65536 mod 256) (z / 16777216 mod 256).

Definition ntohl (z : Z) : Z := htonl z.

(** ** IPv4 *)

Fixpoint inet_addr_loop (s : list Z) (addr octet dots : Z) : Z :=
  match s with
  | [] => if (dots =? 3) && (octet <? 256) then htonl (u32 (Z.shiftl addr 8 + octet)) else INADDR_NONE
  | c :: s =>
      let digit := u64 (c - CH_0) in
      if digit <? 10 then inet_addr_loop s addr (u64 (octet * 10 + digit)) dots
      else if (c =? DOT) && (octet <? 256) then inet_addr_loop s (u32 (Z.shiftl addr 8 + octet)) 0 (u64 (dots + 1))
      else INADDR_NONE
  end.

(** The address in the [len] bytes of [buf] from [start]; the last of them is
    looked at first. *)
Definition nxt_inet_addr (buf : list Z) (start len : nat) : outcome Z :=
  if (start + len =? 0)%nat then Fault
  else
    let* c := of_option (buf !! (start + len - 1)%nat) in
    Ret (if c =? DOT then INADDR_NONE else inet_addr_loop (window buf start (start + len)) 0 0 0).

(** ** IPv6 *)

(** The variables of the loop: [addr], [zero_start] are offsets in the address
    and [ipv4] is one in the text. *)
Record inet6 := Inet6 {
  in6_addr : list Z;
  addr : nat;
  zero_start : option nat;
  groups_left : Z;
  nibbles : Z;
  group : Z;
  ipv4 : option nat
}.

(** [*addr++ = (u_char) b] *)
Definition store_byte (b : Z) (s : inet6) : outcome inet6 :=
  if (addr s <? length (in6_addr s))%nat
  then Ret (Inet6 (<[addr s := u8 b]> (in6_addr s)) (S (addr s)) (zero_start s) (groups_left s) (nibbles s) (group s) (ipv4 s))
  else Fault.

Definition store_group (hi lo : Z) (s : inet6) : outcome inet6 :=
  let* s := store_byte hi s in
  let* s := store_byte lo s in
  Ret (Inet6 (in6_addr s) (addr s) (zero_start s) (u64 (groups_left s - 1)) (nibbles s) (group s) (ipv4 s)).

(** A hexadecimal digit. *)
Definition hex_digit_value (c : Z) : option Z :=
  let digit := u64 (c - CH_0) in
  if digit <? 10 then Some digit
  else
    let digit := u64 (u8 (Z.lor c 32) - CH_a) in
    if digit <? 6 then Some (10 + digit) else None.

(** The loop over the text [s], which begins at [p] of [buf] and ends at
    [end_]: [None] is [NXT_ERROR]. *)
Fixpoint inet6_loop (buf : list Z) (end_ : nat) (s : list Z) (p : nat) (st : inet6) : outcome (option inet6) :=
  match s with
  | [] => Ret (Some st)
  | c :: s =>
      let p := S p in
      if c =? COLON then
        if negb (nibbles st =? 0) then
          let* st := store_group (Z.shiftr (group st) 8) (Z.land (group st) 255) st in
          if negb (groups_left st =? 0) then
            inet6_loop buf end_ s p (Inet6 (in6_addr st) (addr st) (zero_start st) (groups_left st) 0 0 (Some p))
          else Ret None
        else
          match zero_start st with
          | None =>
              inet6_loop buf end_ s p
                (Inet6 (in6_addr st) (addr st) (Some (addr st)) (groups_left st) (nibbles st) (group st) (Some p))
          | Some _ => Ret None
          end
      else if (c =? DOT) && negb (nibbles st =? 0) then
        match ipv4 st with
        | Some v4 =>
            if groups_left st <? 2 then Ret None
            else
              let* a := nxt_inet_addr buf v4 (end_ - v4) in
              if a =? INADDR_NONE then Ret None
              else
                let group := ntohl a in
                let* st := store_group (Z.land (Z.shiftr group 24) 255) (Z.land (Z.shiftr group 16) 255) st in
                Ret (Some (Inet6 (in6_addr st) (addr st) (zero_start st) (groups_left st) (nibbles st) group (ipv4 st)))
        | None => Ret None
        end
      else
        let n := u64 (nibbles st + 1) in
        if 4 <? n then Ret None
        else
          match hex_digit_value c with
          | Some d =>
              inet6_loop buf end_ s p
                (Inet6 (in6_addr st) (addr st) (zero_start st) (groups_left st) n (u64 (u64 (Z.shiftl (group st) 4) + d)) (ipv4 st))
          | None => Ret None
          end
  end.

(** [while (src >= zero_start) { *dst-- = *src--; }], with [n] bytes left. *)
Fixpoint move_loop (m : list Z) (zero_start n shift : nat) : outcome (list Z) :=
  match n with
  | O => Ret m
  | S n =>
      let src := (zero_start + n)%nat in
      let* b := of_option (m !! src) in
      if (src + shift <? length m)%nat then move_loop (<[(src + shift)%nat := b]> m) zero_start n shift else Fault
  end.

Fixpoint zero_loop (m : list Z) (from n : nat) : outcome (list Z) :=
  match n with
  | O => Ret m
  | S n => if (from <? length m)%nat then zero_loop (<[from := 0]> m) (S from) n else Fault
  end.

(** [in6] is what the address holds before. *)
Definition nxt_inet6_addr (in6 : list Z) (buf : list Z) (start len : nat) : outcome (option (list Z)) :=
  if (len =? 0)%nat then Ret None
  else
    let end_ := (start + len)%nat in
    let* c := of_option (buf !! start) in
    let p := if c =? COLON then S start else start in
    let* r := inet6_loop buf end_ (window buf p end_) p (Inet6 in6 0 None 8 0 0 None) in
    match r with
    | None => Ret None
    | Some st =>
        if (nibbles st =? 0) && match zero_start st with None => true | Some _ => false end then Ret None
        else
          let* st := store_group (Z.shiftr (group st) 8) (Z.land (group st) 255) st in
          match zero_start st with
          | Some zs =>
              if groups_left st =? 0 then Ret None
              else
                let left := Z.to_nat (groups_left st * 2) in
                let* m := move_loop (in6_addr st) zs (addr st - zs) left in
                let* m := zero_loop m zs left in
                Ret (Some m)
          | None => Ret (if groups_left st =? 0 then Some (in6_addr st) else None)
          end
    end.

(** Two colons make an address of IPv6. *)
Definition nxt_inet6_probe (str : list Z) : bool :=
  match memchr str COLON with
  | None => false
  | Some colon => match memchr (drop (S colon) str) COLON with None => false | Some _ => true end
  end.

(** ** The texts of IPv4 addresses *)

Definition octet_ok (t : list Z) : bool := forallb digit t && (value t <? 256).

(** Four octets with dots between them. *)
Definition inet_value (text : list Z) : option Z :=
  match split_on DOT text with
  | [a; b; c; d] =>
      if octet_ok a && octet_ok b && octet_ok c && octet_ok d && negb (length d =? 0)%nat
      then Some (of_bytes4 (value a) (value b) (value c) (value d)) else None
  | _ => None
  end.

Lemma value_bounds t : forallb digit t = true -> 0 <= value t < 10 ^ Z.of_nat (length t).
Proof.
  unfold value, value_from. intros H. induction t as [|c t IH] using rev_ind; [cbn; lia|].
  rewrite forallb_app in H. apply andb_true_iff in H as [Ht Hc]. cbn in Hc. unfold digit in Hc. zbool.
  rewrite fold_left_app, length_app, Nat2Z.inj_add, Z.pow_add_r by lia. cbn. specialize (IH Ht). lia.
Qed.

Lemma value_snoc t c : value (t ++ [c]) = value t * 10 + (c - CH_0).
Proof. unfold value, value_from. by rewrite fold_left_app. Qed.

Lemma digit_value c : byte c -> u64 (c - CH_0) <? 10 = digit c.
Proof. revert c. apply (byte_decide (fun c => _ = _)). vm_compute. reflexivity. Qed.

(** The loop on the parts of the text, [cur] being the digits of the first one
    that have been passed. *)
Fixpoint parts_value (ps : list (list Z)) (addr dots : Z) : Z :=
  match ps with
  | [] => INADDR_NONE
  | [p] => if octet_ok p && (dots =? 3) then htonl (addr * 256 + value p) else INADDR_NONE
  | p :: ps => if octet_ok p then parts_value ps (addr * 256 + value p) (dots + 1) else INADDR_NONE
  end.

Lemma parts_value_many ps : forall addr dots, 3 < dots -> parts_value ps addr dots = INADDR_NONE.
Proof.
  induction ps as [|p ps IH]; intros addr dots Hd; [done|]. cbn. destruct ps as [|p' ps].
  - by rewrite (proj2 (Z.eqb_neq _ _)), andb_false_r by lia.
  - destruct (octet_ok p); [|done]. apply IH. lia.
Qed.

Lemma inet_loop_many s : forall a octet dots,
  3 < dots -> dots + Z.of_nat (length s) < 2 ^ 64 -> inet_addr_loop s a octet dots = INADDR_NONE.
Proof.
  induction s as [|c s IH]; intros a octet dots Hd Hl; cbn [inet_addr_loop length] in *.
  - by rewrite (proj2 (Z.eqb_neq dots 3)) by lia.
  - destruct (_ <? 10); [apply IH; lia|]. destruct (_ && _); [|done]. unfold u64. rewrite (Z.mod_small (dots + 1)) by lia.
    apply IH; lia.
Qed.

Lemma octet_ok_not p c : digit c = false -> c ∈ p -> octet_ok p = false.
Proof.
  intros Hc Hp. unfold octet_ok. destruct (forallb digit p) eqn:E; [|done]. rewrite forallb_forall in E.
  apply list_elem_of_In, E in Hp. congruence.
Qed.

Lemma parts_value_bad p ps addr dots : octet_ok p = false -> parts_value (p :: ps) addr dots = INADDR_NONE.
Proof. intros Hp. cbn. rewrite Hp. by destruct ps. Qed.

Lemma parts_value_cons p x xs addr dots :
  parts_value (p :: x :: xs) addr dots =
    if octet_ok p then parts_value (x :: xs) (addr * 256 + value p) (dots + 1) else INADDR_NONE.
Proof. done. Qed.

Lemma inet_loop_ok s : forall cur p0 ps addr dots,
  Forall byte s -> split_on DOT s = p0 :: ps -> forallb digit cur = true -> (length (cur ++ p0) <= 19)%nat ->
  Forall (fun p => (length p <= 19)%nat) ps -> 0 <= dots <= 3 -> Z.of_nat (length s) < 2 ^ 63 -> 0 <= addr < 256 ^ dots ->
  inet_addr_loop s addr (value cur) dots = parts_value ((cur ++ p0) :: ps) addr dots.
Proof.
  induction s as [|c s IH]; intros cur p0 ps addr dots Hb Hsp Hcur Hlen Hps Hd Hl Ha.
  { cbn in Hsp. simplify_eq. rewrite app_nil_r. cbn. unfold octet_ok. rewrite Hcur. cbn. rewrite andb_comm.
    destruct (value cur <? 256) eqn:E; [|done]. destruct (Z.eqb_spec dots 3) as [->|]; [|done]. cbn. zbool.
    pose proof (value_bounds _ Hcur). rewrite Z.shiftl_mul_pow2 by lia. unfold u32. rewrite Z.mod_small; [done|]. lia. }
  apply Forall_cons in Hb as [Hc Hb]. cbn [inet_addr_loop length] in *. rewrite digit_value by done.
  destruct (split_on_cons DOT s) as (x & xs & Ex). cbn in Hsp. rewrite Ex in Hsp.
  pose proof (value_bounds _ Hcur) as Hdec. destruct (digit c) eqn:Edig.
  - assert (Hcd : c =? DOT = false) by (unfold digit in Edig; zbool; apply Z.eqb_neq; lia). rewrite Hcd in Hsp. simplify_eq.
    assert (Hcur' : forallb digit (cur ++ [c]) = true) by (rewrite forallb_app, Hcur; cbn; by rewrite Edig).
    pose proof (value_bounds _ Hcur') as Hdec'. rewrite value_snoc in Hdec'. rewrite length_app in Hlen, Hdec'. cbn in Hlen, Hdec'.
    assert (10 ^ Z.of_nat (length cur + 1) <= 10 ^ 19) by (apply Z.pow_le_mono_r; lia).
    assert (Eu : u64 (value cur * 10 + u64 (c - CH_0)) = value (cur ++ [c])).
    { unfold byte in Hc. unfold digit in Edig. zbool. unfold u64. rewrite (Z.mod_small (c - CH_0)) by lia.
      rewrite value_snoc. apply Z.mod_small. lia. }
    rewrite Eu, (IH (cur ++ [c]) x ps); try done; [by rewrite <- app_assoc|rewrite <- app_assoc; cbn; rewrite length_app; cbn; lia|lia].
  - destruct (Z.eqb_spec c DOT) as [->|Hcd]; cbn [andb].
    + simplify_eq. rewrite app_nil_r in *. rewrite parts_value_cons. unfold octet_ok at 1. rewrite Hcur. cbn [andb].
      destruct (value cur <? 256) eqn:E; [|done]. zbool. apply Forall_cons in Hps as [Hx Hxs].
      unfold u64. rewrite (Z.mod_small (dots + 1)) by lia. destruct (decide (dots = 3)) as [->|Hd3].
      { rewrite inet_loop_many by lia. by rewrite parts_value_many by lia. }
      assert (Hbound : 0 <= addr * 256 + value cur < 256 ^ (dots + 1)).
      { rewrite Z.pow_add_r by lia. lia. }
      assert (256 ^ (dots + 1) <= 256 ^ 4) by (apply Z.pow_le_mono_r; lia).
      rewrite Z.shiftl_mul_pow2 by lia. change (2 ^ 8) with 256. unfold u32. rewrite Z.mod_small by lia.
      apply (IH [] x xs); done || lia.
    + simplify_eq. symmetry. apply parts_value_bad. apply (octet_ok_not _ c); [done|]. apply elem_of_app. right. by left.
Qed.

Lemma split_on_last sep s c : c <> sep -> last (split_on sep (s ++ [c])) <> Some [].
Proof.
  intros Hc. induction s as [|x s IH]; cbn; [by rewrite (proj2 (Z.eqb_neq _ _)) by done|].
  destruct (split_on_cons sep (s ++ [c])) as (y & ys & E). rewrite E in *. destruct (x =? sep); [done|].
  destruct ys; cbn in *; [by intros [=]|done].
Qed.

(** The text of an IPv4 address, with parts that are not too long for the
    counter of a part. *)
Lemma inet_addr_ok buf start len :
  let text := window buf start (start + len) in
  Forall byte text -> (0 < len)%nat -> (start + len <= length buf)%nat ->
  Forall (fun p => (length p <= 19)%nat) (split_on DOT text) -> Z.of_nat len < 2 ^ 63 ->
  nxt_inet_addr buf start len = Ret (match inet_value text with Some a => htonl a | None => INADDR_NONE end).
Proof.
  intros text Hb H0 Hl Hp Hmax. unfold nxt_inet_addr. rewrite (proj2 (Nat.eqb_neq _ _)) by lia.
  assert (Hlen : length text = len) by (unfold text; rewrite window_length; lia).
  destruct (lookup_lt_is_Some_2 buf (start + len - 1)) as [c Hc]; [lia|]. rewrite Hc. cbn [of_option obind]. f_equal.
  assert (Htext : text = window buf start (start + len - 1) ++ [c]) by (apply window_snoc; [lia|done]).
  destruct (split_on_cons DOT text) as (x & xs & Ex). 
  assert (Hloop : inet_addr_loop text 0 0 0 = parts_value (x :: xs) 0 0).
  { rewrite Ex in Hp. apply Forall_cons in Hp as [Hx Hxs]. apply (inet_loop_ok text [] x xs); done || lia. }
  fold text. rewrite Hloop. destruct (c =? DOT) eqn:Ecd.
  - apply Z.eqb_eq in Ecd as ->. rewrite Htext, split_on_app in Ex. unfold inet_value. rewrite Htext, split_on_app.
    destruct (split_on DOT (window buf start (start + len - 1))) as [|a [|b [|c [|d [|e l]]]]]; cbn; try done.
    by rewrite andb_false_r.
  - apply Z.eqb_neq in Ecd. unfold inet_value. rewrite Ex.
    assert (Hlast : last (x :: xs) <> Some []).
    { rewrite <- Ex, Htext. intros E. apply (split_on_last DOT (window buf start (start + len - 1)) c); [done|].
      apply E. }
    destruct xs as [|b [|c' [|d [|e l]]]]; unfold parts_value.
    + by rewrite andb_false_r.
    + by destruct (octet_ok x); rewrite ?andb_false_r.
    + destruct (octet_ok x), (octet_ok b); by rewrite ?andb_false_r.
    + destruct (octet_ok x), (octet_ok b), (octet_ok c'), (octet_ok d); try done. cbn.
      destruct (Nat.eqb_spec (length d) 0) as [H|H]; [apply length_zero_iff_nil in H as ->; done|]. cbn. f_equal. unfold of_bytes4. lia.
    + destruct (octet_ok x), (octet_ok b), (octet_ok c'), (octet_ok d); try done. apply (parts_value_many (e :: l)). lia.
Qed.

(** ** The texts of IPv6 addresses *)

Definition hexval (t : list Z) : Z := fold_left (fun a c => a * 16 + default 0 (hex_value c)) t 0.

(** One to four hexadecimal digits. *)
Definition hextet (t : list Z) (g : Z) : Prop :=
  (1 <= length t <= 4)%nat /\ Forall byte t /\ Forall (fun c => is_Some (hex_value c)) t /\ g = hexval t.

(** An IPv4 address at the end. *)
Definition dotted (t : list Z) (a : Z) : Prop :=
  Forall byte t /\ inet_value t = Some a /\ a <> INADDR_NONE /\
  (1 <= length (hd [] (split_on DOT t)) <= 4)%nat /\ Forall (fun p => (length p <= 19)%nat) (split_on DOT t).

Inductive group_texts : list (list Z) -> list Z -> Prop :=
| G_nil : group_texts [] []
| G_v4 t a : dotted t a -> group_texts [t] [a / 65536; a mod 65536]
| G_hex t g ts gs : hextet t g -> group_texts ts gs -> group_texts (t :: ts) (g :: gs).

Fixpoint join (ts : list (list Z)) : list Z :=
  match ts with [] => [] | [t] => t | t :: ts => t ++ COLON :: join ts end.

Definition group_bytes (gs : list Z) : list Z := gs ≫= fun g => [g / 256; g mod 256].

(** Eight groups, or fewer with a gap that stands for one or more zero groups;
    a gap that stands for the last group alone is not read. *)
Inductive inet6_text : list Z -> list Z -> Prop :=
| I6_full ts gs : group_texts ts gs -> length gs = 8%nat -> inet6_text (join ts) (group_bytes gs)
| I6_gap pre gpre post gpost :
    Forall2 hextet pre gpre -> group_texts post gpost -> (length gpre + length gpost <= 7)%nat ->
    (post = [] -> (length gpre <= 6)%nat) ->
    inet6_text (join pre ++ COLON :: COLON :: join post)
      (group_bytes gpre ++ replicate (16 - 2 * (length gpre + length gpost)) 0 ++ group_bytes gpost).

Lemma group_bytes_app a b : group_bytes (a ++ b) = group_bytes a ++ group_bytes b.
Proof. apply bind_app. Qed.

Lemma group_bytes_length gs : length (group_bytes gs) = (2 * length gs)%nat.
Proof. induction gs as [|g gs IH]; [done|]. unfold group_bytes in *. rewrite bind_cons, length_app, IH. cbn. lia. Qed.

Lemma hex_digit_value_ok c : byte c -> hex_digit_value c = hex_value c.
Proof. revert c. apply (byte_decide (fun c => _ = _)). vm_compute. reflexivity. Qed.

Lemma hexval_snoc t c : hexval (t ++ [c]) = hexval t * 16 + default 0 (hex_value c).
Proof. unfold hexval. by rewrite fold_left_app. Qed.

Lemma hexval_range t : Forall (fun c => is_Some (hex_value c)) t -> 0 <= hexval t < 16 ^ Z.of_nat (length t).
Proof.
  induction t as [|c t IH] using rev_ind; intros Ht; [cbn; lia|]. apply Forall_app in Ht as [Ht Hc].
  apply Forall_cons in Hc as [[v Hv] _]. rewrite hexval_snoc, length_app, Nat2Z.inj_add, Z.pow_add_r by lia.
  rewrite Hv. cbn. pose proof (hex_value_range _ _ Hv). specialize (IH Ht). lia.
Qed.

(** The variables of the loop: [out] has been written. *)
Abbreviation at6 out rest zs gl n g v4 := (Inet6 (out ++ rest) (length out) zs gl n g v4).

Lemma hex_value_stops c v : hex_value c = Some v -> (c =? COLON) = false /\ (c =? DOT) = false.
Proof. unfold hex_value. intros H. rewrite !Z.eqb_neq. repeat case_match; zbool; simplify_eq; lia. Qed.

(** The digits [t], behind [cur]. *)
Lemma loop_digits buf end_ t : forall cur s p out rest zs gl v4,
  Forall byte t -> Forall (fun c => is_Some (hex_value c)) (cur ++ t) -> (length (cur ++ t) <= 4)%nat ->
  inet6_loop buf end_ (t ++ s) p (at6 out rest zs gl (Z.of_nat (length cur)) (hexval cur) v4) =
  inet6_loop buf end_ s (p + length t) (at6 out rest zs gl (Z.of_nat (length (cur ++ t))) (hexval (cur ++ t)) v4).
Proof.
  induction t as [|c t IH]; intros cur s p out rest zs gl v4 Hb Hh Hl; [by rewrite app_nil_r, Nat.add_0_r|].
  apply Forall_cons in Hb as [Hc Hb]. pose proof Hh as Hh'. apply Forall_app in Hh' as [Hcur Hct].
  apply Forall_cons in Hct as [[v Hv] Ht]. destruct (hex_value_stops _ _ Hv) as [E1 E2].
  rewrite length_app in Hl. cbn in Hl. cbn [app inet6_loop]. rewrite E1, E2. cbn [andb nibbles group in6_addr addr zero_start groups_left ipv4].
  pose proof (hexval_range _ Hcur) as Hr. assert (16 ^ Z.of_nat (length cur) <= 16 ^ 3) by (apply Z.pow_le_mono_r; lia).
  pose proof (hex_value_range _ _ Hv). unfold u64 at 1 2. rewrite (Z.mod_small (Z.of_nat (length cur) + 1)) by lia.
  rewrite (proj2 (Z.ltb_ge _ _)) by lia. rewrite hex_digit_value_ok, Hv by done.
  assert (Eg : u64 (u64 (Z.shiftl (hexval cur) 4) + v) = hexval (cur ++ [c])).
  { rewrite hexval_snoc, Hv, Z.shiftl_mul_pow2 by lia. cbn. unfold u64. rewrite (Z.mod_small (_ * _)) by lia. apply Z.mod_small. lia. }
  rewrite Eg. replace (Z.of_nat (length cur) + 1) with (Z.of_nat (length (cur ++ [c]))) by (rewrite length_app; cbn; lia).
  rewrite IH; [|done|by rewrite <- app_assoc|rewrite <- app_assoc; rewrite length_app; cbn; lia].
  rewrite <- app_assoc. f_equal. cbn. lia.
Qed.

(** Two bytes are written. *)
Lemma store_group_ok out r0 r1 rest zs gl n g v4 hi lo :
  0 < gl < 2 ^ 64 ->
  store_group hi lo (at6 out (r0 :: r1 :: rest) zs gl n g v4) = Ret (at6 (out ++ [u8 hi; u8 lo]) rest zs (gl - 1) n g v4).
Proof.
  intros Hgl. unfold store_group, store_byte. cbn. rewrite length_app. cbn.
  rewrite (proj2 (Nat.ltb_lt _ _)) by lia. cbn. rewrite length_insert, length_app. cbn.
  rewrite (proj2 (Nat.ltb_lt _ _)) by lia. cbn. unfold u64. rewrite Z.mod_small by lia.
  rewrite !length_app. cbn. f_equal. f_equal; [|lia].
  rewrite insert_app_r_alt, Nat.sub_diag by lia. rewrite insert_app_r_alt by lia.
  replace (S (length out) - length out)%nat with 1%nat by lia. cbn. by rewrite <- app_assoc.
Qed.

Lemma group_split g : 0 <= g < 65536 -> u8 (Z.shiftr g 8) = g / 256 /\ u8 (Z.land g 255) = g mod 256.
Proof.
  intros Hg. rewrite Z.shiftr_div_pow2 by lia. change 255 with (Z.ones 8). rewrite Z.land_ones by lia. unfold u8. change (2 ^ 8) with 256.
  split; [apply Z.mod_small; dlia|]. apply Z.mod_small. dlia.
Qed.

Lemma hextet_range t g : hextet t g -> 0 <= g < 65536.
Proof.
  intros (Hl & _ & Hh & ->). pose proof (hexval_range _ Hh).
  assert (16 ^ Z.of_nat (length t) <= 16 ^ 4) by (apply Z.pow_le_mono_r; lia). lia.
Qed.

(** The digits of a group. *)
Lemma loop_hextet buf end_ t g s p out rest zs gl v4 :
  hextet t g ->
  inet6_loop buf end_ (t ++ s) p (at6 out rest zs gl 0 0 v4) =
  inet6_loop buf end_ s (p + length t) (at6 out rest zs gl (Z.of_nat (length t)) g v4).
Proof. intros (Hl & Hb & Hh & ->). apply (loop_digits buf end_ t []); [done|done|cbn; lia]. Qed.

(** A group with its colon. *)
Lemma loop_group buf end_ t g s p out rest zs gl v4 :
  hextet t g -> 1 < gl <= 8 -> length rest = Z.to_nat (2 * gl) ->
  inet6_loop buf end_ (t ++ COLON :: s) p (at6 out rest zs gl 0 0 v4) =
  inet6_loop buf end_ s (p + length t + 1)
    (at6 (out ++ group_bytes [g]) (drop 2 rest) zs (gl - 1) 0 0 (Some (p + length t + 1)%nat)).
Proof.
  intros Ht Hgl Hr. rewrite (loop_hextet _ _ t g) by done. cbn [inet6_loop]. change (COLON =? COLON) with true. cbv iota.
  destruct Ht as (Hl & ?) eqn:Et. cbn [nibbles]. rewrite (proj2 (Z.eqb_neq _ _)) by lia. cbn [negb].
  destruct rest as [|r0 [|r1 rest]]; cbn [length] in Hr; try lia. rewrite store_group_ok by lia. cbn [obind groups_left group].
  rewrite (proj2 (Z.eqb_neq (gl - 1) 0)) by lia. cbn [negb]. destruct (group_split g) as [-> ->]; [by eapply hextet_range|].
  rewrite Nat.add_1_r. done.
Qed.

Lemma loop_groups buf end_ ts gs : Forall2 hextet ts gs -> forall s p out rest zs gl v4,
  Z.of_nat (length gs) < gl <= 8 -> length rest = Z.to_nat (2 * gl) ->
  exists p' v4', inet6_loop buf end_ ((ts ≫= fun t => t ++ [COLON]) ++ s) p (at6 out rest zs gl 0 0 v4) =
    inet6_loop buf end_ s p' (at6 (out ++ group_bytes gs) (drop (2 * length gs) rest) zs (gl - Z.of_nat (length gs)) 0 0 v4') /\
    p' = (p + length (ts ≫= fun t => t ++ [COLON]))%nat.
Proof.
  induction 1 as [|t g ts gs Ht Hts IH]; intros s p out rest zs gl v4 Hgl Hr.
  { exists p, v4. cbn. rewrite app_nil_r, drop_0, Z.sub_0_r. split; [done|lia]. }
  rewrite bind_cons. rewrite <- (app_assoc (t ++ [COLON])), <- (app_assoc t). cbn [app]. cbn [length] in Hgl. rewrite (loop_group _ _ _ _ _ _ _ _ _ _ _ Ht) by (done || lia).
  destruct (IH s (p + length t + 1)%nat (out ++ group_bytes [g]) (drop 2 rest) zs (gl - 1) (Some (p + length t + 1)%nat)) as (p' & v4' & -> & ->).
  - lia.
  - rewrite length_drop. lia.
  - exists (p + length t + 1 + length (ts ≫= fun t => t ++ [COLON]))%nat, v4'. split; [|rewrite !length_app; cbn; lia]. rewrite <- (app_assoc out), <- group_bytes_app, drop_drop. cbn [length app].
    replace (2 + 2 * length gs)%nat with (2 * S (length gs))%nat by lia.
    replace (gl - 1 - Z.of_nat (length gs)) with (gl - Z.of_nat (S (length gs))) by lia. done.
Qed.

Lemma htonl_bytes a b c d : byte a -> byte b -> byte c -> byte d -> htonl (of_bytes4 a b c d) = of_bytes4 d c b a.
Proof.
  unfold htonl, of_bytes4, byte. intros Ha Hb Hc Hd.
  replace ((a * 16777216 + b * 65536 + c * 256 + d) mod 256) with d by dlia.
  replace ((a * 16777216 + b * 65536 + c * 256 + d) / 256 mod 256) with c by dlia.
  replace ((a * 16777216 + b * 65536 + c * 256 + d) / 65536 mod 256) with b by dlia.
  replace ((a * 16777216 + b * 65536 + c * 256 + d) / 16777216 mod 256) with a by dlia. done.
Qed.

Lemma bytes4 z : 0 <= z < 2 ^ 32 ->
  exists a b c d, z = of_bytes4 a b c d /\ byte a /\ byte b /\ byte c /\ byte d.
Proof.
  intros Hz. exists (z / 16777216), (z / 65536 mod 256), (z / 256 mod 256), (z mod 256). unfold of_bytes4, byte. split_and!; dlia.
Qed.

Lemma htonl_invol z : 0 <= z < 2 ^ 32 -> htonl (htonl z) = z.
Proof. intros (a & b & c & d & -> & ? & ? & ? & ?)%bytes4. by rewrite !htonl_bytes. Qed.

Lemma inet_value_range t a : inet_value t = Some a -> 0 <= a < 2 ^ 32.
Proof.
  unfold inet_value. intros H. repeat case_match; simplify_eq. unfold octet_ok in *. rewrite !andb_true_iff in *. destruct_and?.
  repeat match goal with H : forallb digit ?t = true |- _ => apply value_bounds in H end. zbool. unfold of_bytes4. lia.
Qed.

Lemma htonl_none a : 0 <= a < 2 ^ 32 -> a <> INADDR_NONE -> htonl a =? INADDR_NONE = false.
Proof.
  intros Ha Hn. apply Z.eqb_neq. intros E. apply Hn. rewrite <- (htonl_invol a Ha), E. done.
Qed.

Lemma group_bytes_v4 a : 0 <= a < 2 ^ 32 ->
  group_bytes [a / 65536; a mod 65536] =
    [u8 (Z.land (Z.shiftr a 24) 255); u8 (Z.land (Z.shiftr a 16) 255)] ++ [u8 (Z.shiftr a 8); u8 (Z.land a 255)].
Proof.
  intros Ha. cbn. change 255 with (Z.ones 8). rewrite !Z.land_ones, !Z.shiftr_div_pow2 by lia. unfold u8.
  change (2 ^ 24) with 16777216. change (2 ^ 16) with 65536. change (2 ^ 8) with 256. do 3 (f_equal; [dlia|]). f_equal. dlia.
Qed.

(** The text behind the first part. *)
Lemma split_first sep t : forall x xs, split_on sep t = x :: xs -> xs <> [] -> exists r, t = x ++ sep :: r.
Proof.
  induction t as [|c t IH]; intros x xs E Hn; cbn in E; [by simplify_eq|]. destruct (Z.eqb_spec c sep) as [->|].
  - simplify_eq. by exists t.
  - destruct (split_on_cons sep t) as (y & ys & Ey). rewrite Ey in E. simplify_eq.
    destruct (IH _ _ Ey Hn) as [r ->]. by exists r.
Qed.

Lemma dotted_first t a :
  dotted t a -> exists f r, t = f ++ DOT :: r /\ (1 <= length f <= 4)%nat /\ Forall (fun c => is_Some (hex_value c)) f.
Proof.
  intros (_ & Hv & _ & Hf & _). unfold inet_value in Hv. destruct (split_on DOT t) as [|f [|b [|c [|d [|e l]]]]] eqn:Es; try done.
  destruct (split_first _ _ _ _ Es) as [r ->]; [done|]. exists f, r. split; [done|]. split; [done|].
  destruct (octet_ok f) eqn:Ef; [|done]. unfold octet_ok in Ef. apply andb_true_iff in Ef as [Ef _].
  rewrite forallb_forall in Ef. apply Forall_forall. intros x Hx. apply list_elem_of_In, Ef in Hx. unfold digit in Hx. unfold hex_value.
  rewrite Hx. done.
Qed.

(** The address of IPv4 at the end. *)
Lemma loop_dotted buf end_ t a p out rest zs gl :
  dotted t a -> window buf p end_ = t -> (p <= end_ <= length buf)%nat -> Z.of_nat (length buf) < 2 ^ 63 ->
  1 < gl <= 8 -> length rest = Z.to_nat (2 * gl) ->
  exists n v4, inet6_loop buf end_ t p (at6 out rest zs gl 0 0 (Some p)) =
    Ret (Some (at6 (out ++ [u8 (Z.land (Z.shiftr a 24) 255); u8 (Z.land (Z.shiftr a 16) 255)]) (drop 2 rest) zs (gl - 1) n a v4)) /\ n <> 0.
Proof.
  intros Hd Hw Hp Hmax Hgl Hr. destruct (dotted_first _ _ Hd) as (f & r & Et & Hf & Hh).
  destruct Hd as (Hb & Hv & Hn & _ & Hparts). pose proof (inet_value_range _ _ Hv) as Ha.
  assert (Hbf : Forall byte f) by (rewrite Et in Hb; by apply Forall_app in Hb as [? _]).
  rewrite Et. pose proof (loop_digits buf end_ f [] (DOT :: r) p out rest zs gl (Some p) Hbf Hh ltac:(cbn; lia)) as Hl.
  cbn [app length] in Hl. change (hexval []) with 0 in Hl. change (Z.of_nat 0) with 0 in Hl. rewrite Hl. cbn [inet6_loop].
  change (DOT =? COLON) with false. change (DOT =? DOT) with true. cbn [nibbles ipv4 groups_left andb]. cbv iota.
  rewrite (proj2 (Z.eqb_neq (Z.of_nat (length f)) 0)) by lia. cbn [negb]. rewrite (proj2 (Z.ltb_ge _ _)) by lia.
  assert (Hlen : length t = (end_ - p)%nat) by (rewrite <- Hw; apply window_length; lia).
  assert (Hpe : (p + (end_ - p))%nat = end_) by lia.
  pose proof (inet_addr_ok buf p (end_ - p)) as Hia. cbv zeta in Hia. rewrite Hpe, Hw, Hv in Hia.
  rewrite Hia; [|done| |lia|done|lia].
  2: { rewrite <- Hlen, Et, length_app. cbn. lia. }
  cbn [obind]. rewrite htonl_none by done. unfold ntohl. rewrite htonl_invol by done.
  destruct rest as [|r0 [|r1 rest]]; cbn [length] in Hr; try lia. rewrite store_group_ok by lia. cbn [obind].
  eexists _, _. split; [done|]. cbn [nibbles]. lia.
Qed.

Lemma join_cons t ts : ts <> [] -> join (t :: ts) = t ++ COLON :: join ts.
Proof. by destruct ts. Qed.

(** The groups up to the end of the text: the last one is stored behind the
    loop. *)
Lemma loop_tail buf end_ ts gs : group_texts ts gs -> ts <> [] -> forall p out rest zs gl v4,
  window buf p end_ = join ts -> (p <= end_ <= length buf)%nat -> Z.of_nat (length buf) < 2 ^ 63 ->
  Z.of_nat (length gs) <= gl <= 8 -> length rest = Z.to_nat (2 * gl) -> (v4 = Some p \/ (2 <= length ts)%nat) ->
  exists st', inet6_loop buf end_ (join ts) p (at6 out rest zs gl 0 0 v4) = Ret (Some st') /\ nibbles st' <> 0 /\ zero_start st' = zs /\
    exists n g v, store_group (Z.shiftr (group st') 8) (Z.land (group st') 255) st' =
      Ret (at6 (out ++ group_bytes gs) (drop (2 * length gs) rest) zs (gl - Z.of_nat (length gs)) n g v).
Proof.
  induction 1 as [|t a Hd|t g ts gs Ht Hts IH]; intros Hne p out rest zs gl v4 Hw Hp Hmax Hgl Hr Hv4; [done| |].
  - destruct Hv4 as [->|Hv4]; [|cbn in Hv4; lia]. cbn [length join] in *.
    destruct (loop_dotted buf end_ t a p out rest zs gl Hd Hw Hp Hmax) as (n & v4 & -> & Hn); [lia|done|].
    eexists. split; [done|]. cbn [nibbles zero_start group]. split; [done|]. split; [done|].
    destruct rest as [|r0 [|r1 [|r2 [|r3 rest]]]]; cbn [length] in Hr; try lia. cbn [drop].
    rewrite store_group_ok by lia. destruct Hd as (_ & Hv & _). rewrite group_bytes_v4 by (by eapply inet_value_range).
    exists n, a, v4. rewrite <- (app_assoc out). by replace (gl - 1 - 1) with (gl - Z.of_nat 2) by lia.
  - destruct (decide (ts = [])) as [->|Hts0].
    + inversion Hts; subst. cbn [join length] in *. pose proof (loop_hextet buf end_ t g [] p out rest zs gl v4 Ht) as Hl.
      rewrite app_nil_r in Hl. rewrite Hl. cbn [inet6_loop]. eexists. split; [done|]. cbn [nibbles zero_start group].
      split; [destruct Ht; lia|]. split; [done|]. destruct rest as [|r0 [|r1 rest]]; cbn [length] in Hr; try lia.
      rewrite store_group_ok by lia. destruct (group_split g) as [-> ->]; [by eapply hextet_range|]. by eexists _, _, _.
    + rewrite join_cons in Hw |- * by done. cbn [length] in Hgl.
      assert (Hgs : (1 <= length gs)%nat) by (inversion Hts; subst; cbn; done || lia).
      rewrite (loop_group _ _ t g) by (done || lia).
      assert (Hw' : window buf (p + length t + 1) end_ = join ts).
      { rewrite <- Nat.add_assoc, window_drop, Hw. by rewrite drop_app_add. }
      assert (Hlen : length (t ++ COLON :: join ts) = (end_ - p)%nat) by (rewrite <- Hw; apply window_length; lia).
      rewrite length_app in Hlen. cbn in Hlen.
      destruct (IH Hts0 (p + length t + 1)%nat (out ++ group_bytes [g]) (drop 2 rest) zs (gl - 1) (Some (p + length t + 1)%nat))
        as (st' & -> & Hn & Hz & n & g' & v & Hs); [done|lia|done|lia|rewrite length_drop; lia|by left|].
      exists st'. split_and!; [done..|]. exists n, g', v. rewrite Hs, <- (app_assoc out), <- group_bytes_app, drop_drop. cbn [length app].
      replace (2 + 2 * length gs)%nat with (2 * S (length gs))%nat by lia.
      by replace (gl - 1 - Z.of_nat (length gs)) with (gl - Z.of_nat (S (length gs))) by lia.
Qed.

(** The bytes behind the gap are moved to the end. *)
Lemma move_loop_ok zs shift n : forall m,
  (zs + n + shift <= length m)%nat ->
  exists m', move_loop m zs n shift = Ret m' /\ length m' = length m /\ (forall i, (i < zs)%nat -> m' !! i = m !! i) /\
    (forall j, (j < n)%nat -> m' !! (zs + shift + j)%nat = m !! (zs + j)%nat) /\
    (forall i, (zs + shift + n <= i)%nat -> m' !! i = m !! i).
Proof.
  induction n as [|n IH]; intros m Hm; cbn [move_loop]; [exists m; split_and!; done || lia|].
  destruct (lookup_lt_is_Some_2 m (zs + n)) as [b Hb]; [lia|]. rewrite Hb. cbn. rewrite (proj2 (Nat.ltb_lt _ _)) by lia.
  destruct (IH (<[(zs + n + shift)%nat := b]> m)) as (m' & -> & Hl & H1 & H2 & H3); [rewrite length_insert; lia|].
  rewrite length_insert in Hl. exists m'. split_and!; [done|done|..].
  - intros i Hi. rewrite H1, list_lookup_insert_ne by lia. done.
  - intros j Hj. destruct (decide (j = n)) as [->|Hne].
    + rewrite H3 by lia. replace (zs + shift + n)%nat with (zs + n + shift)%nat by lia. rewrite list_lookup_insert_eq by lia. done.
    + rewrite H2, list_lookup_insert_ne by lia. done.
  - intros i Hi. rewrite H3, list_lookup_insert_ne by lia. done.
Qed.

Lemma zero_loop_ok n : forall m from,
  (from + n <= length m)%nat -> zero_loop m from n = Ret (take from m ++ replicate n 0 ++ drop (from + n) m).
Proof.
  induction n as [|n IH]; intros m from Hm; cbn [zero_loop].
  - cbn. rewrite Nat.add_0_r, take_drop. done.
  - rewrite (proj2 (Nat.ltb_lt _ _)) by lia. rewrite IH by (rewrite length_insert; lia). f_equal.
    rewrite take_S_insert by lia. rewrite <- app_assoc. cbn. rewrite drop_insert_lt by lia.
    by replace (S (from + n)) with (from + S n)%nat by lia.
Qed.

Lemma fill_gap out mid rest :
  length (out ++ mid ++ rest) = 16%nat ->
  (let* m := move_loop (out ++ mid ++ rest) (length out) (length mid) (length rest) in zero_loop m (length out) (length rest)) =
    Ret (out ++ replicate (length rest) 0 ++ mid).
Proof.
  intros Hl. rewrite !length_app in Hl.
  destruct (move_loop_ok (length out) (length rest) (length mid) (out ++ mid ++ rest)) as (m' & -> & Hlm & H1 & H2 & _);
    [rewrite !length_app; lia|]. rewrite !length_app in Hlm. cbn. rewrite zero_loop_ok by lia. f_equal. f_equal; [|f_equal].
  - apply list_eq. intros i. destruct (decide (i < length out)%nat).
    + rewrite lookup_take_lt by done. rewrite H1 by done. by rewrite lookup_app_l.
    + rewrite lookup_take_ge by lia. symmetry. apply lookup_ge_None. lia.
  - apply list_eq. intros i. rewrite lookup_drop. destruct (decide (i < length mid)%nat).
    + rewrite H2 by done. rewrite lookup_app_r by lia. replace (length out + i - length out)%nat with i by lia. by rewrite lookup_app_l.
    + rewrite !lookup_ge_None_2 by lia. done.
Qed.

Lemma join_colons ts : ts <> [] -> join ts ++ [COLON] = ts ≫= fun t => t ++ [COLON].
Proof.
  induction ts as [|t ts IH]; [done|]. intros _. destruct (decide (ts = [])) as [->|Hts]; [by rewrite bind_cons, app_nil_r|].
  rewrite join_cons, bind_cons, <- IH by done. by rewrite <- !app_assoc.
Qed.

Lemma hextet_head t g : hextet t g -> exists c t', t = c :: t' /\ c <> COLON.
Proof.
  intros (Hl & _ & Hh & _). destruct t as [|c t']; [cbn in Hl; lia|]. exists c, t'. split; [done|].
  apply Forall_cons in Hh as [[v Hv] _]. destruct (hex_value_stops _ _ Hv) as [E _]. by apply Z.eqb_neq.
Qed.

(** The end of the function, behind the loop. *)
Definition inet6_finish (r : option inet6) : outcome (option (list Z)) :=
  match r with
  | None => Ret None
  | Some st =>
      if (nibbles st =? 0) && match zero_start st with None => true | Some _ => false end then Ret None
      else
        let* st := store_group (Z.shiftr (group st) 8) (Z.land (group st) 255) st in
        match zero_start st with
        | Some zs =>
            if groups_left st =? 0 then Ret None
            else
              let left := Z.to_nat (groups_left st * 2) in
              let* m := move_loop (in6_addr st) zs (addr st - zs) left in
              let* m := zero_loop m zs left in
              Ret (Some m)
        | None => Ret (if groups_left st =? 0 then Some (in6_addr st) else None)
        end
  end.

Lemma inet6_addr_eq in6 buf start len c p :
  (0 < len)%nat -> buf !! start = Some c -> p = (if c =? COLON then S start else start) ->
  nxt_inet6_addr in6 buf start len =
    (let* r := inet6_loop buf (start + len) (window buf p (start + len)) p (Inet6 in6 0 None 8 0 0 None) in inet6_finish r).
Proof. intros Hl Hc ->. unfold nxt_inet6_addr. rewrite (proj2 (Nat.eqb_neq _ _)) by lia. by rewrite Hc. Qed.

(** Behind a gap: [pre] has been written before it, and [mid] behind it. *)
Lemma finish_gap st pre mid rest gl n g v :
  zero_start st = Some (length pre) ->
  store_group (Z.shiftr (group st) 8) (Z.land (group st) 255) st = Ret (at6 (pre ++ mid) rest (Some (length pre)) gl n g v) ->
  length (pre ++ mid ++ rest) = 16%nat -> 0 < gl -> length rest = Z.to_nat (2 * gl) ->
  inet6_finish (Some st) = Ret (Some (pre ++ replicate (length rest) 0 ++ mid)).
Proof.
  intros Hz Hs Hl Hgl Hr. unfold inet6_finish. rewrite Hz, andb_false_r, Hs. cbn [obind zero_start groups_left in6_addr addr].
  rewrite (proj2 (Z.eqb_neq gl 0)) by lia. replace (Z.to_nat (gl * 2)) with (length rest) by lia.
  rewrite length_app. replace (length pre + length mid - length pre)%nat with (length mid) by lia.
  rewrite <- app_assoc. pose proof (fill_gap pre mid rest Hl) as Hf. 
  destruct (move_loop _ _ _ _) as [m| |]; [|done..]. cbn [obind] in *. by rewrite Hf.
Qed.

(** The text up to the second colon of the gap. *)
Lemma gap_before in6 buf start len pre gpre s :
  let end_ := (start + len)%nat in
  window buf start end_ = join pre ++ COLON :: COLON :: s -> (end_ <= length buf)%nat ->
  Forall2 hextet pre gpre -> (length gpre <= 7)%nat -> length in6 = 16%nat ->
  exists q v4, nxt_inet6_addr in6 buf start len =
    (let* r := inet6_loop buf end_ (COLON :: s) q
       (at6 (group_bytes gpre) (drop (2 * length gpre) in6) None (8 - Z.of_nat (length gpre)) 0 0 v4) in inet6_finish r) /\
    window buf q end_ = COLON :: s /\ (q < end_)%nat.
Proof.
  intros end_ Hw Hl Hpre Hlen H16.
  assert (Hlw : length (join pre ++ COLON :: COLON :: s) = len) by (rewrite <- Hw; unfold end_; rewrite window_length; lia).
  rewrite length_app in Hlw. cbn in Hlw.
  assert (Hc : buf !! start = head (join pre ++ COLON :: COLON :: s)).
  { rewrite <- Hw, head_lookup, window_lookup by (unfold end_; lia). by rewrite Nat.add_0_r. }
  destruct Hpre as [|t g pre gpre Ht Hpre].
  - exists (S start), None. rewrite (inet6_addr_eq _ _ _ _ COLON (S start)) by (done || lia). fold end_.
    assert (Hw' : window buf (S start) end_ = COLON :: s) by (rewrite <- Nat.add_1_r, window_drop, Hw; done).
    rewrite Hw', drop_0. cbn in Hlw. split; [done|]. split; [done|]. unfold end_. lia.
  - destruct (hextet_head _ _ Ht) as (c & t' & Et & Hcc). assert (Hcb : buf !! start = Some c).
    { rewrite Hc, Et. destruct pre; done. }
    rewrite (inet6_addr_eq _ _ _ _ c start) by (done || lia || by rewrite (proj2 (Z.eqb_neq _ _))). fold end_.
    assert (Hj : join (t :: pre) ++ COLON :: COLON :: s = ((t :: pre) ≫= fun t => t ++ [COLON]) ++ COLON :: s).
    { rewrite <- join_colons by done. by rewrite <- app_assoc. }
    rewrite Hw, Hj. destruct (loop_groups buf end_ (t :: pre) (g :: gpre) ltac:(by constructor) (COLON :: s) start [] in6 None 8 None)
      as (q & v4 & Hloop & Hq); [cbn [length] in *; lia|by rewrite H16|].
    rewrite !app_nil_l in Hloop. cbn [length] in Hloop. exists q, v4. split; [by rewrite Hloop|]. rewrite Hq. split.
    + rewrite window_drop, Hw, Hj. apply drop_app_length.
    + apply (f_equal length) in Hj. rewrite !length_app in Hj. cbn [length] in Hj. unfold end_. lia.
Qed.

Lemma inet6_gap buf start len pre gpre post gpost in6 :
  window buf start (start + len) = join pre ++ COLON :: COLON :: join post -> (start + len <= length buf)%nat -> Z.of_nat (length buf) < 2 ^ 63 ->
  Forall2 hextet pre gpre -> group_texts post gpost -> (length gpre + length gpost <= 7)%nat -> (post = [] -> (length gpre <= 6)%nat) ->
  length in6 = 16%nat ->
  nxt_inet6_addr in6 buf start len =
    Ret (Some (group_bytes gpre ++ replicate (16 - 2 * (length gpre + length gpost)) 0 ++ group_bytes gpost)).
Proof.
  intros Hw Hl Hmax Hpre Hpost Hlen Hlast H16.
  destruct (gap_before in6 buf start len pre gpre (join post) Hw Hl Hpre) as (q & v4 & -> & Hq & Hqe); [lia|done|].
  set (end_ := (start + len)%nat) in *. cbn [inet6_loop]. change (COLON =? COLON) with true. cbn [nibbles zero_start]. cbv iota.
  change (0 =? 0) with true. cbn [negb in6_addr addr groups_left group].
  set (out := group_bytes gpre). set (rest := drop (2 * length gpre) in6). set (gl := 8 - Z.of_nat (length gpre)).
  assert (Hrest : length rest = Z.to_nat (2 * gl)) by (unfold rest; rewrite length_drop; lia).
  assert (Hout : length out = (2 * length gpre)%nat) by apply group_bytes_length.
  destruct (decide (post = [])) as [->|Hne].
  - inversion Hpost; subst. cbn [join inet6_loop obind]. specialize (Hlast eq_refl).
    destruct rest as [|r0 [|r1 rest']] eqn:Er; cbn [length] in Hrest; try lia.
    rewrite (finish_gap _ out [0; 0] rest' (gl - 1) 0 0 (Some (S q))); [|done|cbn [group]; by rewrite store_group_ok by lia|rewrite !length_app; cbn; lia|lia|lia].
    do 3 f_equal. rewrite app_nil_r. change [0; 0] with (replicate 2 0). rewrite <- replicate_add. f_equal. cbn [length]. lia.
  - destruct (loop_tail buf end_ post gpost Hpost Hne (S q) out rest (Some (length out)) gl (Some (S q)))
      as (st' & -> & Hn & Hz & n & g & v & Hs); [|lia|done|lia|done|by left|].
    { rewrite <- (Nat.add_1_r q), window_drop, Hq. done. }
    cbn [obind]. rewrite (finish_gap _ out (group_bytes gpost) (drop (2 * length gpost) rest) (gl - Z.of_nat (length gpost)) n g v);
      [|done|done|rewrite !length_app, length_drop, group_bytes_length; lia|lia|rewrite length_drop; lia].
    replace (length (drop (2 * length gpost) rest)) with (16 - 2 * (length gpre + length gpost))%nat by (rewrite length_drop; lia). done.
Qed.

(** The texts of IPv6 addresses are read. *)
Lemma inet6_addr_ok buf start len bs in6 :
  inet6_text (window buf start (start + len)) bs -> (start + len <= length buf)%nat -> Z.of_nat (length buf) < 2 ^ 63 ->
  length in6 = 16%nat -> nxt_inet6_addr in6 buf start len = Ret (Some bs).
Proof.
  intros Ht Hl Hmax H16. inversion Ht as [ts gs Hts Hgs Et Eb|pre gpre post gpost Hpre Hpost Hlen Hlast Et Eb]; subst bs.
  2: { by apply (inet6_gap _ _ _ pre gpre post gpost). }
  assert (Hn2 : (2 <= length ts)%nat) by (inversion Hts as [|?|? ? ? ? ? Hts']; subst; cbn in *; try lia; inversion Hts'; subst; cbn in *; lia).
  inversion Hts as [|t a Hd|t g ts' gs' Ht1 Hts']; subst; [cbn in Hn2; lia..|].
  destruct (hextet_head _ _ Ht1) as (c & t' & Etc & Hcc). set (ts := t :: ts') in *. set (gs := g :: gs') in *.
  assert (Hlw : length (join ts) = len) by (rewrite Et, window_length; lia).
  assert (Hhd : head (join ts) = Some c) by (unfold ts; rewrite Etc; by destruct ts').
  assert (Hlen0 : (0 < len)%nat) by (rewrite <- Hlw; destruct (join ts); [done|cbn; lia]).
  assert (Hc : buf !! start = Some c).
  { rewrite <- Hhd, Et, head_lookup, window_lookup by lia. by rewrite Nat.add_0_r. }
  rewrite (inet6_addr_eq _ _ _ _ c start) by (done || by rewrite (proj2 (Z.eqb_neq _ _))). rewrite <- Et.
  destruct (loop_tail buf (start + len) ts gs Hts ltac:(done) start [] in6 None 8 None)
    as (st' & Hloop & Hn & Hz & n & g0 & v & Hs); [done|lia|done|lia|by rewrite H16|by right|].
  cbn [app length] in Hloop. rewrite Hloop. cbn [obind]. unfold inet6_finish. rewrite (proj2 (Z.eqb_neq _ _)) by done. cbn [andb].
  rewrite Hs. cbn [obind zero_start groups_left in6_addr]. rewrite Hgs. cbn. rewrite drop_ge, app_nil_r by (cbn in *; lia). done.
Qed.
