(* ===== verification/Qsort.v ===== *)
(** * Sorting: [qsort()] of the C library

    [src/nxt_sort.h] takes [nxt_qsort()] from the C library.  What is known of it
    is the standard's text: the array is sorted by the comparison, and the order
    of elements that compare equal is not specified.  The users sort by a flag. *)

From S2P Require Import Prelude.
From Stdlib Require Import Sorted.

#[local] Open Scope Z_scope.

(** A comparison that is a total preorder. *)
Definition ordering {A} (cmp : A -> A -> Z) : Prop :=
  (forall x y, cmp x y <= 0 \/ cmp y x <= 0) /\ (forall x y z, cmp x y <= 0 -> cmp y z <= 0 -> cmp x z <= 0).

Class Qsort := {
  nxt_qsort : forall {A : Type}, (A -> A -> Z) -> list A -> list A;
  qsort_permutation : forall {A} (cmp : A -> A -> Z) l, nxt_qsort cmp l ≡ₚ l;
  qsort_sorted : forall {A} (cmp : A -> A -> Z) l, ordering cmp -> StronglySorted (fun x y => cmp x y <= 0) (nxt_qsort cmp l)
}.

(** ** Sorting by a flag *)

Section Flag.
Context {A : Type} (flag : A -> bool).

(** The elements with the flag come first. *)
Definition flag_compare (x y : A) : Z := Z.b2z (flag y) - Z.b2z (flag x).

Lemma flag_ordering : ordering flag_compare.
Proof. split; unfold flag_compare; [intros x y|intros x y z]; destruct (flag x), (flag y); try destruct (flag z); cbn; lia. Qed.

Definition flags_first (l : list A) : Prop :=
  exists l1 l2, l = l1 ++ l2 /\ Forall (fun x => flag x = true) l1 /\ Forall (fun x => flag x = false) l2.

Lemma sorted_flags_first l : StronglySorted (fun x y => flag_compare x y <= 0) l -> flags_first l.
Proof.
  induction 1 as [|x l Hl IH Hx]; [by exists [], []|]. destruct IH as (l1 & l2 & -> & H1 & H2). destruct (flag x) eqn:Ex.
  - exists (x :: l1), l2. split; [done|]. split; [by constructor|done].
  - exists [], (x :: l1 ++ l2). split; [done|]. split; [constructor|]. constructor; [done|]. apply Forall_app. split; [|done].
    apply Forall_app in Hx as [Hx _]. rewrite Forall_forall in Hx, H1 |- *. intros y Hy. specialize (Hx y Hy). specialize (H1 y Hy).
    unfold flag_compare in Hx. rewrite Ex, H1 in Hx. cbn in Hx. lia.
Qed.

Lemma qsort_flags_first {Q : Qsort} l : flags_first (nxt_qsort flag_compare l) /\ nxt_qsort flag_compare l ≡ₚ l.
Proof. split; [apply sorted_flags_first, qsort_sorted, flag_ordering|apply qsort_permutation]. Qed.

End Flag.

(** ** The verdict of a list of patterns

    A pattern is whether it is negated, and whether it holds, its negation
    included. *)

(** A negated pattern that does not hold, or another one that holds, ends the
    list; [d] is the verdict of the patterns before. *)
Fixpoint verdict (d : bool) (ps : list (bool * bool)) : bool :=
  match ps with
  | [] => d
  | (negative, holds) :: ps =>
      if negative then if holds then verdict true ps else false
      else if holds then true else verdict false ps
  end.

(** All the negated patterns hold, and one of the others if there are others. *)
Definition accepted {A} (negative holds : A -> bool) (l : list A) : Prop :=
  (forall x, x ∈ l -> negative x = true -> holds x = true) /\
  ((forall x, x ∈ l -> negative x = true) \/ exists x, x ∈ l /\ negative x = false /\ holds x = true).

Section Verdict.
Context {A : Type} (negative holds : A -> bool).

Abbreviation judge d l := (verdict d ((fun x => (negative x, holds x)) <$> l)).

Lemma verdict_positive l : Forall (fun x => negative x = false) l -> forall d,
  judge d l = true <-> (l = [] /\ d = true) \/ exists x, x ∈ l /\ holds x = true.
Proof.
  induction 1 as [|x l Hx Hl IH]; intros d.
  { cbn. split; [intros ->; by left|]. intros [[_ ?]|(x & Hx & _)]; [done|]. by apply elem_of_nil in Hx. }
  rewrite fmap_cons. cbn. rewrite Hx. destruct (holds x) eqn:E.
  - split; [|done]. intros _. right. exists x. split; [by left|done].
  - rewrite IH. split; intros [[? ?]|(y & Hy & Hm)]; try done.
    + right. exists y. split; [by right|done].
    + apply elem_of_cons in Hy as [->|Hy]; [congruence|]. right. by exists y.
Qed.

Lemma accepted_cons x l : negative x = true -> holds x = true -> accepted negative holds (x :: l) <-> accepted negative holds l.
Proof.
  intros Hn Hh. unfold accepted. setoid_rewrite elem_of_cons. split.
  - intros [H1 H2]. split; [by auto|]. destruct H2 as [H2|(y & [->|Hy] & Hny & Hhy)]; [by auto|congruence|]. right. by exists y.
  - intros [H1 H2]. split; [by intros y [->|Hy]; auto|]. destruct H2 as [H2|(y & Hy & Hny & Hhy)].
    + left. by intros y [->|Hy]; auto.
    + right. exists y. auto.
Qed.

Lemma verdict_ok l : flags_first negative l -> forall d, (l = [] -> d = true) -> judge d l = true <-> accepted negative holds l.
Proof.
  intros (l1 & l2 & -> & H1 & H2) d. revert d. induction H1 as [|x l1 Hx H1 IH]; cbn [app]; intros d Hd.
  - rewrite verdict_positive by done. unfold accepted. rewrite Forall_forall in H2. split.
    + intros [[-> ->]|(x & Hin & Hm)].
      * split; [|left]; intros x Hx; by apply elem_of_nil in Hx.
      * split; [|right; exists x; auto]. intros y Hy E. by rewrite H2 in E.
    + intros [_ [Hall|(x & Hin & _ & Hm)]]; [|by right; exists x]. left. destruct l2 as [|x l2]; [auto|].
      specialize (Hall x ltac:(by left)). by rewrite H2 in Hall by (by left).
  - rewrite fmap_cons. cbn. rewrite Hx. destruct (holds x) eqn:E.
    + rewrite accepted_cons by done. by apply IH.
    + split; [done|]. intros [H _]. rewrite H in E; [done|by left|done].
Qed.

Lemma accepted_perm l l' : l ≡ₚ l' -> accepted negative holds l <-> accepted negative holds l'.
Proof. intros E. unfold accepted. by setoid_rewrite E. Qed.

End Verdict.

(** ** A sort *)

Fixpoint insert_sorted {A} (cmp : A -> A -> Z) (x : A) (l : list A) : list A :=
  match l with
  | [] => [x]
  | y :: l' => if cmp x y <=? 0 then x :: l else y :: insert_sorted cmp x l'
  end.

Definition insertion_sort {A} (cmp : A -> A -> Z) (l : list A) : list A := foldr (insert_sorted cmp) [] l.

Lemma insert_sorted_perm {A} (cmp : A -> A -> Z) x l : insert_sorted cmp x l ≡ₚ x :: l.
Proof. induction l as [|y l IH]; cbn; [done|]. destruct (cmp x y <=? 0); [done|]. rewrite IH. by apply Permutation_swap. Qed.

Lemma insert_sorted_sorted {A} (cmp : A -> A -> Z) x l :
  ordering cmp -> StronglySorted (fun x y => cmp x y <= 0) l -> StronglySorted (fun x y => cmp x y <= 0) (insert_sorted cmp x l).
Proof.
  intros [Htot Htrans] Hl. induction Hl as [|y l Hl IH Hy]; cbn; [repeat constructor|]. destruct (cmp x y <=? 0) eqn:E; zbool.
  - constructor; [by constructor|]. constructor; [done|]. eapply Forall_impl; [exact Hy|]. intros z Hz. by eapply Htrans.
  - constructor; [done|]. rewrite insert_sorted_perm. constructor; [|done]. destruct (Htot x y); [lia|done].
Qed.

Program Definition insertion_qsort : Qsort := {| nxt_qsort := @insertion_sort |}.
Next Obligation. intros A cmp l. induction l as [|x l IH]; cbn; [done|]. by rewrite insert_sorted_perm, IH. Qed.
Next Obligation.
  intros A cmp l Ho. induction l as [|x l IH]; cbn; [constructor|]. by apply insert_sorted_sorted.
Qed.
