(* ===== verification/RouteAddr.v ===== *)
(** * Addresses in routes: [src/nxt_http_route_addr.c] and [src/nxt_http_route.c]

    The "source" and "destination" of a route are patterns of socket addresses:
    an address, a range of them or a prefix, with a port or a range of ports; an
    exclamation mark in front negates a pattern. *)

From S2P Require Import Prelude Str Uri Parse ConfValue Inet Qsort.

#[local] Open Scope Z_scope.

Inductive addr_error :=
| ADDR_PATTERN_PORT_ERROR
| ADDR_PATTERN_CV_TYPE_ERROR
| ADDR_PATTERN_LENGTH_ERROR
| ADDR_PATTERN_FORMAT_ERROR
| ADDR_PATTERN_RANGE_OVERLAP_ERROR
| ADDR_PATTERN_CIDR_ERROR.

Inductive addr_match_type := ADDR_ANY | ADDR_RANGE | ADDR_EXACT | ADDR_CIDR.

Inductive addr_family_t := AF_UNSPEC | AF_UNIX | AF_INET | AF_INET6.

(** The union [addr] is what it holds: a range of [in_addr_t], or of [struct
    in6_addr].  Fields that are not set are 0. *)
Inductive addr_range := V4 (start end_ : Z) | V6 (start end_ : list Z).

Record nxt_http_route_addr_base := Base {
  match_type : addr_match_type;
  addr_negative : bool;
  addr_family : addr_family_t;
  port_start : Z;
  port_end : Z
}.

Record nxt_http_route_addr_pattern_t := Addr_pattern {
  base : nxt_http_route_addr_base;
  range : addr_range
}.

(** ** Parsing *)

Definition parsed (A : Type) : Type := outcome (A + addr_error).

Definition pbind {A B} (m : parsed A) (f : A -> parsed B) : parsed B :=
  let* r := m in match r with inl a => f a | inr e => Ret (inr e) end.

Definition guard (b : bool) (e : addr_error) : parsed unit := Ret (if b then inl tt else inr e).

Definition format_of {A} (m : outcome (option A)) : parsed A :=
  let* r := m in Ret (match r with Some a => inl a | None => inr ADDR_PATTERN_FORMAT_ERROR end).

#[local] Notation "'let+' x ':=' m 'in' k" := (pbind m (fun x => k))
  (at level 10, x pattern, m at level 100, k at level 200).

(** [memcmp()] *)
Fixpoint memcmp (a b : list Z) : Z :=
  match a, b with
  | x :: a, y :: b => if x =? y then memcmp a b else x - y
  | _, _ => 0
  end.

Fixpoint blocks_loop (s : list Z) (colon_gap : Z) : bool :=
  match s with
  | [] => true
  | c :: s =>
      if c =? COLON then blocks_loop s 0
      else if 4 <? colon_gap + 1 then false else blocks_loop s (colon_gap + 1)
  end.

Definition nxt_valid_ipv6_blocks (s : list Z) : bool := blocks_loop s 0.

(** The loop over the bytes of a prefix: the bytes of the address and of the
    mask. *)
Fixpoint cidr_loop (start : list Z) (cidr_prefix : Z) : list Z * list Z :=
  match start with
  | [] => ([], [])
  | b :: start =>
      let '(b, mask, prefix) :=
        if 8 <=? cidr_prefix then (b, 255, cidr_prefix - 8)
        else if 0 <? cidr_prefix then
          let mask := Z.land 255 (Z.shiftl 255 (8 - cidr_prefix)) in (Z.land b mask, mask, 0)
        else (0, 0, cidr_prefix) in
      let '(s, e) := cidr_loop start prefix in
      (b :: s, mask :: e)
  end.

Section Parse.
Context (buf : list Z).

Definition text (start len : nat) : list Z := window buf start (start + len).

Definition inet6_of (in6 : list Z) (start len : nat) : parsed (list Z) :=
  let+ _ := guard (nxt_valid_ipv6_blocks (text start len)) ADDR_PATTERN_FORMAT_ERROR in
  format_of (nxt_inet6_addr in6 buf start len).

(** The address in the [len] bytes from [start]; [in6] is what the memory of an
    address holds before. *)
Definition parse_inet6 (in6 : list Z) (start len : nat) : parsed (addr_match_type * addr_range) :=
  match memchr (text start len) MINUS with
  | Some d =>
      let+ a := inet6_of in6 start d in
      let+ b := inet6_of in6 (start + d + 1) (len - d - 1) in
      let+ _ := guard (negb (0 <? memcmp a b)) ADDR_PATTERN_RANGE_OVERLAP_ERROR in
      Ret (inl (ADDR_RANGE, V6 a b))
  | None =>
      match memchr (text start len) SLASH with
      | Some d =>
          let cidr_prefix := nxt_int_parse (text (start + d + 1) (len - (d + 1))) in
          let+ _ := guard (negb ((cidr_prefix <? 0) || (128 <? cidr_prefix))) ADDR_PATTERN_CIDR_ERROR in
          let+ a := inet6_of in6 start d in
          Ret (inl (if cidr_prefix =? 0 then (ADDR_ANY, V6 a in6)
                    else if cidr_prefix =? 128 then (ADDR_EXACT, V6 a in6)
                    else let '(s, e) := cidr_loop a cidr_prefix in (ADDR_CIDR, V6 s e)))
      | None =>
          let+ a := inet6_of in6 start len in
          Ret (inl (ADDR_EXACT, V6 a in6))
      end
  end.

Definition inet_of (start len : nat) : parsed Z :=
  let* a := nxt_inet_addr buf start len in
  let+ _ := guard (negb (a =? INADDR_NONE)) ADDR_PATTERN_FORMAT_ERROR in
  Ret (inl a).

(** The prefix of IPv4: the mask, and the address that is tested after it has
    been masked. *)
Definition parse_inet_cidr (start len d : nat) : parsed (addr_match_type * addr_range) :=
  let cidr_prefix := nxt_int_parse (text (start + d + 1) (len - (d + 1))) in
  let+ _ := guard (negb ((cidr_prefix <? 0) || (32 <? cidr_prefix))) ADDR_PATTERN_CIDR_ERROR in
  let end_ := htonl (Z.land 4294967295 (u64 (Z.shiftl 4294967295 (32 - cidr_prefix)))) in
  let* a := nxt_inet_addr buf start d in
  let masked := Z.land a end_ in
  let+ _ := guard (negb (masked =? INADDR_NONE)) ADDR_PATTERN_FORMAT_ERROR in
  if cidr_prefix =? 0 then Ret (inl (ADDR_ANY, V4 masked end_))
  else if cidr_prefix <? 32 then Ret (inl (ADDR_CIDR, V4 masked end_))
  else let+ a := inet_of start d in Ret (inl (ADDR_EXACT, V4 a end_)).

Definition parse_inet (start len : nat) : parsed (addr_match_type * addr_range) :=
  match memchr (text start len) MINUS with
  | Some d =>
      let+ a := inet_of start d in
      let+ b := inet_of (start + d + 1) (len - (d + 1)) in
      let+ _ := guard (negb (0 <? memcmp (le32 a) (le32 b))) ADDR_PATTERN_RANGE_OVERLAP_ERROR in
      Ret (inl (ADDR_RANGE, V4 a b))
  | None =>
      match memchr (text start len) SLASH with
      | Some d => parse_inet_cidr start len d
      | None => let+ a := inet_of start len in Ret (inl (ADDR_EXACT, V4 a 0))
      end
  end.

Definition port_of (low : Z) (start len : nat) : parsed Z :=
  let ret := nxt_int_parse (text start len) in
  let+ _ := guard (negb ((ret <? low) || (65535 <? ret))) ADDR_PATTERN_PORT_ERROR in
  Ret (inl ret).

(** The ports; [None] is the string that was not set. *)
Definition parse_port (port : option (nat * nat)) : parsed (Z * Z) :=
  match port with
  | None => Ret (inl (0, 65535))
  | Some (start, len) =>
      if (len =? 0)%nat then Ret (inr ADDR_PATTERN_FORMAT_ERROR)
      else
        match memchr (text start len) MINUS with
        | Some d =>
            let+ p := port_of 0 start d in
            let+ q := port_of p (start + d + 1) (len - (d + 1)) in
            Ret (inl (p, q))
        | None => let+ p := port_of 0 start len in Ret (inl (p, p))
        end
  end.

(** The address and the port of IPv6. *)
Definition split_inet6 (start len : nat) : parsed (nat * nat * option (nat * nat)) :=
  let* c := of_option (buf !! start) in
  if c =? LBRACKET then
    let start := S start in
    let len := (len - 1)%nat in
    let* p := nxt_rmemstrn (text start len) [RBRACKET; COLON] in
    Ret (match p with
         | None => inr ADDR_PATTERN_FORMAT_ERROR
         | Some p => inl (start, p, Some (start + p + 2, len - (p + 2)))%nat
         end)
  else Ret (inl (start, len, None)).

(** The address and the port of IPv4. *)
Definition split_inet (start len : nat) : nat * nat * option (nat * nat) :=
  match memchr (text start len) COLON with
  | Some d => (start, d, Some (start + d + 1, len - (d + 1)))%nat
  | None => (start, len, None)
  end.

Definition parse_family (in6 : list Z) (start len : nat) : parsed (addr_family_t * addr_match_type * addr_range * (Z * Z)) :=
  let* c0 := of_option (buf !! start) in
  let* c1 := of_option (buf !! S start) in
  if (c0 =? STAR) && (c1 =? COLON) then
    let+ ports := parse_port (Some (start + 2, len - 2)%nat) in
    Ret (inl (AF_UNSPEC, ADDR_ANY, V4 0 0, ports))
  else if nxt_inet6_probe (text start len) then
    let+ (start, len, port) := split_inet6 start len in
    let+ (type, r) := parse_inet6 in6 start len in
    let+ ports := parse_port port in
    Ret (inl (AF_INET6, type, r, ports))
  else
    let '(start, len, port) := split_inet start len in
    let+ (type, r) := parse_inet start len in
    let+ ports := parse_port port in
    Ret (inl (AF_INET, type, r, ports)).

End Parse.

Definition nxt_http_route_addr_pattern_parse (in6 : list Z) (cv : conf_value) : parsed nxt_http_route_addr_pattern_t :=
  match cv with
  | VALUE_STRING s =>
      let buf := nxt_conf_get_string s in
      let negative := match buf with c :: _ => c =? 33 | [] => false end in
      let start := if negative then 1%nat else 0%nat in
      let len := (length buf - start)%nat in
      if bool_decide (text buf start len = bytes_of_string "unix") then
        Ret (inl (Addr_pattern (Base ADDR_ANY negative AF_UNIX 0 0) (V4 0 0)))
      else if (len <? 2)%nat then Ret (inr ADDR_PATTERN_LENGTH_ERROR)
      else
        let+ (family, type, r, (p, q)) := parse_family buf in6 start len in
        Ret (inl (Addr_pattern (Base type negative family p q) r))
  | _ => Ret (inr ADDR_PATTERN_CV_TYPE_ERROR)
  end.

(** ** Matching *)

(** [nxt_sockaddr_t]: the address and the port of a family, in network order. *)
Inductive nxt_sockaddr :=
| SA_INET (sin_addr sin_port : Z)
| SA_INET6 (sin6_addr : list Z) (sin6_port : Z)
| SA_UNIX
| SA_OTHER.

Definition ntohs (z : Z) : Z := z mod 256 * 256 + z / 256.

Definition in_ports (b : nxt_http_route_addr_base) (port : Z) : bool :=
  (port_start b <=? ntohs port) && (ntohs port <=? port_end b).

(** [((addr & end) == start)], byte by byte. *)
Fixpoint cidr_match (addr start end_ : list Z) : bool :=
  match addr, start, end_ with
  | a :: addr, s :: start, e :: end_ => if Z.land a e =? s then cidr_match addr start end_ else false
  | _, _, _ => true
  end.

(** The address, by the type of the match. *)
Definition inet_match (type : addr_match_type) (r : addr_range) (a : Z) : bool :=
  match type, r with
  | ADDR_ANY, _ => true
  | ADDR_EXACT, V4 s _ => memcmp (le32 a) (le32 s) =? 0
  | ADDR_RANGE, V4 s e => (0 <=? memcmp (le32 a) (le32 s)) && (memcmp (le32 a) (le32 e) <=? 0)
  | ADDR_CIDR, V4 s e => Z.land a e =? s
  | _, V6 _ _ => false
  end.

Definition inet6_match (type : addr_match_type) (r : addr_range) (a : list Z) : bool :=
  match type, r with
  | ADDR_ANY, _ => true
  | ADDR_EXACT, V6 s _ => memcmp a s =? 0
  | ADDR_RANGE, V6 s e => (0 <=? memcmp a s) && (memcmp a e <=? 0)
  | ADDR_CIDR, V6 s e => cidr_match a s e
  | _, V4 _ _ => false
  end.

Definition nxt_http_route_addr_pattern_match (p : nxt_http_route_addr_pattern_t) (sa : nxt_sockaddr) : bool :=
  let b := base p in
  let matched :=
    match sa with
    | SA_INET a port =>
        match addr_family b with AF_INET | AF_UNSPEC => true | _ => false end
        && in_ports b port && inet_match (match_type b) (range p) a
    | SA_INET6 a port =>
        match addr_family b with AF_INET6 | AF_UNSPEC => true | _ => false end
        && in_ports b port && inet6_match (match_type b) (range p) a
    | SA_UNIX => match addr_family b with AF_UNIX => true | _ => false end
    | SA_OTHER => false
    end in
  xorb matched (addr_negative b).

(** The loop of [nxt_http_route_addr_rule()] on the patterns; the last one says
    what an end means. *)
Fixpoint addr_rule_loop (ps : list nxt_http_route_addr_pattern_t) (sa : nxt_sockaddr) : bool :=
  match ps with
  | [] => false
  | p :: ps =>
      let matches := nxt_http_route_addr_pattern_match p sa in
      if addr_negative (base p) then
        if matches then match ps with [] => true | _ => addr_rule_loop ps sa end else false
      else if matches then true
      else match ps with [] => false | _ => addr_rule_loop ps sa end
  end.

Definition nxt_http_route_addr_rule (ps : list nxt_http_route_addr_pattern_t) (sa : nxt_sockaddr) : bool :=
  addr_rule_loop ps sa.

(** ** Creation *)

(** [nxt_conf_array_elements_count_or_1()] and
    [nxt_conf_get_array_element_or_itself()]: what they go through. *)
Definition nxt_conf_elements_or_itself (cv : conf_value) : list conf_value :=
  match cv with VALUE_ARRAY l => l | _ => [cv] end.

Definition negative_of (p : nxt_http_route_addr_pattern_t) : bool := addr_negative (base p).

Definition nxt_http_addr_pattern_compare : nxt_http_route_addr_pattern_t -> nxt_http_route_addr_pattern_t -> Z :=
  flag_compare negative_of.

(** The patterns of the values from the [i]th on; [in6 i] is what the memory of
    the [i]th holds. *)
Fixpoint parse_patterns (in6 : nat -> list Z) (i : nat) (cvs : list conf_value) : outcome (option (list nxt_http_route_addr_pattern_t)) :=
  match cvs with
  | [] => Ret (Some [])
  | cv :: cvs =>
      let* r := nxt_http_route_addr_pattern_parse (in6 i) cv in
      match r with
      | inr _ => Ret None
      | inl p => let* ps := parse_patterns in6 (S i) cvs in Ret (cons p <$> ps)
      end
  end.

Definition nxt_http_route_addr_rule_create {Q : Qsort} (alloc : nat -> bool) (in6 : nat -> list Z) (cv : conf_value) :
    Alloc (option (list nxt_http_route_addr_pattern_t)) :=
  let cvs := nxt_conf_elements_or_itself cv in
  let! ok := request alloc in
  if negb ok then aret None
  else
    let! ps := alift (parse_patterns in6 0 cvs) in
    aret ((fun ps => if (1 <? length cvs)%nat then nxt_qsort nxt_http_addr_pattern_compare ps else ps) <$> ps).
