(* ===== verification/RouteAddrSpec.v ===== *)
(** * Address patterns: what they accept

    The language of the patterns of the "source" and "destination" options, and
    the proof that [nxt_http_route_addr_pattern_parse()],
    [nxt_http_route_addr_pattern_match()] and the rules made of them
    (RouteAddr.v) implement it. *)

From S2P Require Import Prelude Str Uri Parse ConfValue Inet Qsort RouteAddr.

#[local] Open Scope Z_scope.

(** ** Bytes in network order *)

Definition be_value (bs : list Z) : Z := fold_left (fun v b => v * 256 + b) bs 0.

Lemma be_value_from bs : forall v, fold_left (fun v b => v * 256 + b) bs v = v * 256 ^ Z.of_nat (length bs) + be_value bs.
Proof.
  unfold be_value. induction bs as [|b bs IH]; intros v; [cbn; lia|]. cbn [fold_left length].
  rewrite IH, (IH (0 * 256 + b)), Nat2Z.inj_succ, Z.pow_succ_r by lia. lia.
Qed.

Lemma be_value_cons b bs : be_value (b :: bs) = b * 256 ^ Z.of_nat (length bs) + be_value bs.
Proof. unfold be_value at 1. cbn [fold_left]. rewrite be_value_from. lia. Qed.

Lemma be_value_range bs : Forall byte bs -> 0 <= be_value bs < 256 ^ Z.of_nat (length bs).
Proof.
  induction 1 as [|b bs Hb Hbs IH]; [cbn; lia|]. rewrite be_value_cons. cbn [length]. rewrite Nat2Z.inj_succ, Z.pow_succ_r by lia.
  unfold byte in Hb. nia.
Qed.

(** Comparing bytes compares the values. *)
Lemma addr_memcmp_ok a : forall b, length a = length b -> Forall byte a -> Forall byte b ->
  Z.sgn (memcmp a b) = Z.sgn (be_value a - be_value b).
Proof.
  induction a as [|x a IH]; intros [|y b] Hl Ha Hb; cbn in Hl; try lia; [done|].
  apply Forall_cons in Ha as [Hx Ha], Hb as [Hy Hb]. cbn [memcmp]. rewrite !be_value_cons.
  replace (length a) with (length b) by lia.
  pose proof (be_value_range a Ha) as Ra. pose proof (be_value_range b Hb) as Rb. replace (length a) with (length b) in Ra by lia.
  set (k := 256 ^ Z.of_nat (length b)) in *. destruct (Z.eqb_spec x y) as [->|Hne].
  - rewrite IH by (done || lia). f_equal. lia.
  - destruct (Z.lt_ge_cases x y); [rewrite !Z.sgn_neg; nia|rewrite !Z.sgn_pos; nia].
Qed.

Lemma le32_byte z : Forall byte (le32 z).
Proof. unfold le32, byte. repeat constructor; dlia. Qed.

Lemma be_value_le32 z : be_value (le32 z) = htonl z.
Proof. unfold be_value, le32, htonl, of_bytes4. cbn. lia. Qed.

Lemma memcmp_le32 x y : Z.sgn (memcmp (le32 x) (le32 y)) = Z.sgn (htonl x - htonl y).
Proof. rewrite addr_memcmp_ok by (done || apply le32_byte). by rewrite !be_value_le32. Qed.

Lemma sgn_tests m n : Z.sgn m = Z.sgn n -> (m =? 0) = (n =? 0) /\ (0 <=? m) = (0 <=? n) /\ (m <=? 0) = (n <=? 0) /\ (0 <? m) = (0 <? n).
Proof.
  intros H. pose proof (Z.sgn_spec m). pose proof (Z.sgn_spec n).
  split_and!; apply Bool.eq_iff_eq_true; rewrite ?Z.eqb_eq, ?Z.leb_le, ?Z.ltb_lt; lia.
Qed.

(** Masks and the order of bytes. *)
Lemma byte_land x y k : 0 <= k -> (Z.land x y / 2 ^ k) mod 256 = Z.land (x / 2 ^ k mod 256) (y / 2 ^ k mod 256).
Proof.
  intros Hk. change 256 with (2 ^ 8). rewrite <- !Z.shiftr_div_pow2, <- !Z.land_ones, Z.shiftr_land by lia.
  rewrite <- !Z.land_assoc. f_equal. rewrite (Z.land_comm (Z.ones 8)). rewrite <- Z.land_assoc, Z.land_diag. done.
Qed.

Lemma htonl_parts z : htonl z = of_bytes4 (z / 2 ^ 0 mod 256) (z / 2 ^ 8 mod 256) (z / 2 ^ 16 mod 256) (z / 2 ^ 24 mod 256).
Proof. unfold htonl. by rewrite Z.pow_0_r, Z.div_1_r. Qed.

Lemma htonl_range z : 0 <= htonl z < 2 ^ 32.
Proof. unfold htonl, of_bytes4. dlia. Qed.

Lemma htonl_byte z :
  htonl z / 2 ^ 0 mod 256 = z / 2 ^ 24 mod 256 /\ htonl z / 2 ^ 8 mod 256 = z / 2 ^ 16 mod 256 /\
  htonl z / 2 ^ 16 mod 256 = z / 2 ^ 8 mod 256 /\ htonl z / 2 ^ 24 mod 256 = z / 2 ^ 0 mod 256.
Proof.
  rewrite htonl_parts. unfold of_bytes4. change (2 ^ 0) with 1. rewrite !Z.div_1_r.
  change (2 ^ 8) with 256. change (2 ^ 16) with 65536. change (2 ^ 24) with 16777216.
  pose proof (Z.mod_pos_bound z 256 ltac:(lia)). pose proof (Z.mod_pos_bound (z / 256) 256 ltac:(lia)).
  pose proof (Z.mod_pos_bound (z / 65536) 256 ltac:(lia)). pose proof (Z.mod_pos_bound (z / 16777216) 256 ltac:(lia)).
  revert H H0 H1 H2. generalize (z mod 256) (z / 256 mod 256) (z / 65536 mod 256) (z / 16777216 mod 256).
  intros a b c d Ha Hb Hc Hd. split_and!; dlia.
Qed.

Lemma land_range x y : 0 <= x < 2 ^ 32 -> 0 <= Z.land x y < 2 ^ 32.
Proof.
  intros Hx. assert (E : Z.land x y = Z.land x y mod 2 ^ 32).
  { rewrite <- Z.land_ones, <- Z.land_assoc, (Z.land_comm y), Z.land_assoc, Z.land_ones, (Z.mod_small x) by lia. done. }
  rewrite E. apply Z.mod_pos_bound. lia.
Qed.

Lemma htonl_land x y : 0 <= x < 2 ^ 32 -> 0 <= y < 2 ^ 32 -> Z.land (htonl x) (htonl y) = htonl (Z.land x y).
Proof.
  intros Hx Hy. assert (Hr : 0 <= Z.land (htonl x) (htonl y) < 2 ^ 32).
  { apply land_range, htonl_range. }
  rewrite <- (htonl_invol _ Hr). f_equal. rewrite htonl_parts, !byte_land by lia.
  destruct (htonl_byte x) as (-> & -> & -> & ->). destruct (htonl_byte y) as (-> & -> & -> & ->). rewrite <- !byte_land by lia.
  assert (Hl : 0 <= Z.land x y < 2 ^ 32) by (by apply land_range).
  rewrite Z.pow_0_r, Z.div_1_r. unfold of_bytes4. change (2 ^ 8) with 256. change (2 ^ 16) with 65536. change (2 ^ 24) with 16777216. dlia.
Qed.

(** ** Prefixes *)

Lemma mask4 n : 0 <= n <= 32 -> Z.land 4294967295 (u64 (Z.shiftl 4294967295 (32 - n))) = 2 ^ 32 - 2 ^ (32 - n).
Proof.
  intros Hn. assert (Hall : forallb (fun i => let n := Z.of_nat i in
    Z.land 4294967295 (u64 (Z.shiftl 4294967295 (32 - n))) =? 2 ^ 32 - 2 ^ (32 - n)) (seq 0 33) = true) by (vm_compute; reflexivity).
  rewrite forallb_forall in Hall. specialize (Hall (Z.to_nat n)). cbv zeta in Hall. rewrite Z2Nat.id in Hall by lia.
  apply Z.eqb_eq, Hall, in_seq. lia.
Qed.

(** The bits of a prefix. *)
Lemma land_prefix w x k : 0 <= k <= w -> 0 <= x < 2 ^ w -> Z.land x (2 ^ w - 2 ^ k) = x / 2 ^ k * 2 ^ k.
Proof.
  intros Hk Hx. replace (2 ^ w - 2 ^ k) with (Z.shiftl (Z.ones (w - k)) k).
  2: { rewrite Z.shiftl_mul_pow2, Z.ones_equiv by lia. rewrite Z.mul_comm, <- Z.sub_1_r, Z.mul_sub_distr_l, <- Z.pow_add_r by lia.
       replace (k + (w - k)) with w by lia. lia. }
  rewrite <- Z.shiftr_div_pow2, <- Z.shiftl_mul_pow2 by lia. apply Z.bits_inj'. intros i Hi.
  rewrite Z.land_spec, !Z.shiftl_spec by lia. destruct (Z.lt_ge_cases i k) as [Hlt|Hge].
  { rewrite !(Z.testbit_neg_r _ (i - k)) by lia. apply andb_false_r. }
  rewrite Z.shiftr_spec by lia. replace (i - k + k) with i by lia. destruct (Z.lt_ge_cases i w) as [Hw|Hw].
  - rewrite Z.ones_spec_low by lia. apply andb_true_r.
  - assert (Hb : Z.testbit x i = false); [|by rewrite Hb].
    destruct (Z.eq_dec x 0) as [->|]; [apply Z.bits_0|]. apply Z.bits_above_log2; [lia|].
    apply Z.log2_lt_pow2; [lia|]. assert (2 ^ w <= 2 ^ i) by (apply Z.pow_le_mono_r; lia). lia.
Qed.

Lemma prefix_eq w x a k : 0 <= k <= w -> 0 <= x < 2 ^ w -> 0 <= a < 2 ^ w ->
  Z.land x (2 ^ w - 2 ^ k) = Z.land a (2 ^ w - 2 ^ k) <-> x / 2 ^ k = a / 2 ^ k.
Proof.
  intros Hk Hx Ha. rewrite !land_prefix by done. split; [|by intros ->]. apply Z.mul_reg_r. lia.
Qed.

(** A prefix of IPv4, in network order. *)
Lemma cidr4_ok x a n :
  0 <= x < 2 ^ 32 -> 0 <= a < 2 ^ 32 -> 0 <= n <= 32 ->
  let m := htonl (2 ^ 32 - 2 ^ (32 - n)) in
  (Z.land x m =? Z.land (htonl a) m) = bool_decide (htonl x / 2 ^ (32 - n) = a / 2 ^ (32 - n)).
Proof.
  intros Hx Ha Hn m. assert (Hm : 0 <= 2 ^ 32 - 2 ^ (32 - n) < 2 ^ 32).
  { assert (2 ^ (32 - n) <= 2 ^ 32) by (apply Z.pow_le_mono_r; lia). assert (0 < 2 ^ (32 - n)) by lia. lia. }
  unfold m. rewrite <- (htonl_invol x) at 1 by done. rewrite !htonl_land by (done || apply htonl_range).
  apply Bool.eq_iff_eq_true. rewrite Z.eqb_eq, bool_decide_eq_true.
  rewrite <- (prefix_eq 32) by (done || lia || apply htonl_range). split; [|by intros ->].
  intros E. apply (f_equal htonl) in E. rewrite !htonl_invol in E by (apply land_range; done || apply htonl_range). done.
Qed.

(** A byte of a prefix. *)
Lemma byte_mask n b : 0 < n < 8 -> byte b -> Z.land b (Z.land 255 (Z.shiftl 255 (8 - n))) = b / 2 ^ (8 - n) * 2 ^ (8 - n).
Proof.
  intros Hn Hb. unfold byte in Hb. rewrite <- (land_prefix 8) by lia. f_equal.
  assert (Hall : forallb (fun i => let n := Z.of_nat i in Z.land 255 (Z.shiftl 255 (8 - n)) =? 2 ^ 8 - 2 ^ (8 - n)) (seq 0 8) = true) by (vm_compute; reflexivity).
  rewrite forallb_forall in Hall. specialize (Hall (Z.to_nat n)). cbv zeta in Hall. rewrite Z2Nat.id in Hall by lia.
  apply Z.eqb_eq, Hall, in_seq. lia.
Qed.

Lemma cidr_match_zero a : forall s e, Forall byte a -> Forall (eq 0) s -> Forall (eq 0) e -> cidr_match a s e = true.
Proof.
  induction a as [|x a IH]; intros [|y s] [|z e] Ha Hs He; try done. apply Forall_cons in Ha as [_ Ha], Hs as [<- Hs], He as [<- He].
  cbn. rewrite Z.land_0_r. by apply IH.
Qed.

Lemma cidr_loop_zero a : Forall (eq 0) (cidr_loop a 0).1 /\ Forall (eq 0) (cidr_loop a 0).2.
Proof. induction a as [|b a [IH1 IH2]]; cbn; [done|]. destruct (cidr_loop a 0). cbn in *. by split; constructor. Qed.

Lemma div_high x k m r : 0 < k -> 0 <= m <= k -> 0 <= r < 2 ^ k -> (x * 2 ^ k + r) / 2 ^ m = x * 2 ^ (k - m) + r / 2 ^ m.
Proof.
  intros Hk Hm Hr. replace (x * 2 ^ k) with (x * 2 ^ (k - m) * 2 ^ m) by (rewrite <- Z.mul_assoc, <- Z.pow_add_r by lia; do 2 f_equal; lia).
  apply Z.div_add_l. lia.
Qed.

Lemma be_value_bits bs : Forall byte bs -> 0 <= be_value bs < 2 ^ (8 * Z.of_nat (length bs)).
Proof. intros H%be_value_range. by rewrite Z.pow_mul_r by lia. Qed.

Lemma be_value_cons_bits b bs : be_value (b :: bs) = b * 2 ^ (8 * Z.of_nat (length bs)) + be_value bs.
Proof. rewrite be_value_cons. by rewrite Z.pow_mul_r by lia. Qed.

Lemma high_eq x y r s k m :
  0 <= m <= k -> 0 <= r < 2 ^ k -> 0 <= s < 2 ^ k ->
  (x * 2 ^ k + r) / 2 ^ m = (y * 2 ^ k + s) / 2 ^ m <-> x = y /\ r / 2 ^ m = s / 2 ^ m.
Proof.
  intros Hm Hr Hs. destruct (Z.eq_dec k 0) as [->|Hk].
  { replace m with 0 by lia. rewrite !Z.pow_0_r, !Z.div_1_r in *. lia. }
  rewrite !div_high by lia. assert (Hb : forall z, 0 <= z < 2 ^ k -> 0 <= z / 2 ^ m < 2 ^ (k - m)).
  { intros z Hz. split; [apply Z.div_pos; lia|]. apply Z.div_lt_upper_bound; [lia|]. rewrite <- Z.pow_add_r by lia.
    replace (m + (k - m)) with k by lia. lia. }
  specialize (Hb r Hr) as H1. specialize (Hb s Hs) as H2. split; [|by intros [-> ->]]. intros E.
  assert (x = y) as -> by nia. split; [done|lia].
Qed.

Lemma low_eq x y r s k m :
  0 <= k <= m -> 0 <= r < 2 ^ k -> 0 <= s < 2 ^ k ->
  (x * 2 ^ k + r) / 2 ^ m = (y * 2 ^ k + s) / 2 ^ m <-> x / 2 ^ (m - k) = y / 2 ^ (m - k).
Proof.
  intros Hm Hr Hs. replace (2 ^ m) with (2 ^ k * 2 ^ (m - k)) by (rewrite <- Z.pow_add_r by lia; f_equal; lia).
  rewrite <- !Z.div_div, !Z.div_add_l, !(Z.div_small _ (2 ^ k)), !Z.add_0_r by lia. done.
Qed.

(** A prefix of IPv6. *)
Lemma cidr6_ok a : forall x n,
  length x = length a -> Forall byte x -> Forall byte a -> 0 <= n <= 8 * Z.of_nat (length a) ->
  cidr_match x (cidr_loop a n).1 (cidr_loop a n).2 =
    bool_decide (be_value x / 2 ^ (8 * Z.of_nat (length a) - n) = be_value a / 2 ^ (8 * Z.of_nat (length a) - n)).
Proof.
  induction a as [|b a IH]; intros [|y x] n Hl Hx Ha Hn; cbn in Hl; try lia; [by rewrite bool_decide_true|].
  apply Forall_cons in Hx as [Hy Hx], Ha as [Hb Ha]. rewrite !be_value_cons_bits. replace (length x) with (length a) by lia.
  pose proof (be_value_bits x Hx) as Rx. pose proof (be_value_bits a Ha) as Ra. replace (length x) with (length a) in Rx by lia.
  cbn [length] in *. set (k := 8 * Z.of_nat (length a)) in *. unfold byte in Hy, Hb. cbn [cidr_loop].
  destruct (Z.leb_spec 8 n) as [H8|H8]; [|destruct (Z.ltb_spec 0 n) as [H0|H0]].
  - pose proof (IH x (n - 8) ltac:(lia) Hx Ha ltac:(lia)) as IH'. destruct (cidr_loop a (n - 8)) as [s e]. cbn [fst snd cidr_match] in *.
    rewrite Z.land_comm, (Z.land_comm 255). change 255 with (Z.ones 8). rewrite Z.land_ones, Z.mod_small by lia. rewrite IH'.
    fold k. replace (8 * Z.of_nat (S (length a)) - n) with (k - (n - 8)) by lia.
    apply Bool.eq_iff_eq_true. rewrite (bool_decide_eq_true (_ = _)), high_eq by lia.
    destruct (Z.eqb_spec y b) as [->|]; [rewrite bool_decide_eq_true|]; naive_solver.
  - destruct (cidr_loop_zero a) as [Hs He]. destruct (cidr_loop a 0) as [s e]. cbn [fst snd cidr_match] in *.
    rewrite !byte_mask, cidr_match_zero by (done || lia).
    replace (8 * Z.of_nat (S (length a)) - n) with (k + (8 - n)) by lia.
    apply Bool.eq_iff_eq_true. rewrite bool_decide_eq_true, low_eq by lia. replace (k + (8 - n) - k) with (8 - n) by lia.
    destruct (Z.eqb_spec (y / 2 ^ (8 - n) * 2 ^ (8 - n)) (b / 2 ^ (8 - n) * 2 ^ (8 - n))) as [E|E].
    + split; [intros _|done]. by apply Z.mul_reg_r in E; [|lia].
    + split; [done|]. intros E'. by rewrite E' in E.
  - replace n with 0 by lia. destruct (cidr_loop_zero a) as [Hs He]. destruct (cidr_loop a 0) as [s e]. cbn [fst snd cidr_match] in *.
    rewrite Z.land_0_r, Z.eqb_refl, cidr_match_zero by done. symmetry. apply bool_decide_true.
    rewrite low_eq by lia. rewrite !Z.div_small; [done|..]; replace (8 * Z.of_nat (S (length a)) - 0 - k) with 8 by lia; lia.
Qed.

(** ** The language of address patterns *)

(** An address, a range of addresses or a prefix, as texts. *)
Inductive span := One (t : list Z) | Range (t1 t2 : list Z) | Prefix (t n : list Z).

Inductive ports := Port (t : list Z) | Ports (t1 t2 : list Z).

Inductive addr_text :=
| Unix
| Any (p : ports)
| Inet (s : span) (p : option ports)
| Inet6 (s : span) (p : option ports).

Definition span_bytes (s : span) : list Z :=
  match s with One t => t | Range a b => a ++ MINUS :: b | Prefix t n => t ++ SLASH :: n end.

Definition ports_bytes (p : ports) : list Z := match p with Port t => t | Ports a b => a ++ MINUS :: b end.

Definition addr_bytes (a : addr_text) : list Z :=
  match a with
  | Unix => bytes_of_string "unix"
  | Any p => STAR :: COLON :: ports_bytes p
  | Inet s None => span_bytes s
  | Inet s (Some p) => span_bytes s ++ COLON :: ports_bytes p
  | Inet6 s None => span_bytes s
  | Inet6 s (Some p) => LBRACKET :: span_bytes s ++ RBRACKET :: COLON :: ports_bytes p
  end.

(** What texts stand for. *)
Definition number (t : list Z) (n : Z) : Prop := t <> [] /\ forallb digit t = true /\ value t = n /\ n <= INT64_MAX.

Definition inet_is (t : list Z) (a : Z) : Prop :=
  Forall byte t /\ inet_value t = Some a /\ a <> INADDR_NONE /\ Forall (fun p => (length p <= 19)%nat) (split_on DOT t).

Definition inet6_is (t : list Z) (bs : list Z) : Prop :=
  inet6_text t bs /\ Forall (fun b => (length b <= 4)%nat) (split_on COLON t).

(** A set of addresses of [w] bits, as the number of an address. *)
Definition span_is (w : Z) (reads : list Z -> Z -> Prop) (s : span) (P : Z -> Prop) : Prop :=
  match s with
  | One t => exists a, reads t a /\ forall x, P x <-> x = a
  | Range t1 t2 => exists a b, reads t1 a /\ reads t2 b /\ a <= b /\ forall x, P x <-> a <= x <= b
  | Prefix t n => exists a k, reads t a /\ number n k /\ k <= w /\ forall x, P x <-> x / 2 ^ (w - k) = a / 2 ^ (w - k)
  end.

Definition ports_is (p : ports) (P : Z -> Prop) : Prop :=
  match p with
  | Port t => exists n, number t n /\ n <= 65535 /\ forall x, P x <-> x = n
  | Ports t1 t2 => exists n m, number t1 n /\ number t2 m /\ n <= m <= 65535 /\ forall x, P x <-> n <= x <= m
  end.

Definition port_is (p : option ports) (P : Z -> Prop) : Prop :=
  match p with None => forall x, 0 <= x <= 65535 -> P x | Some p => ports_is p P end.

(** A socket address has one of the addresses and of the ports. *)
Definition addr_is (a : addr_text) (P : nxt_sockaddr -> Prop) : Prop :=
  match a with
  | Unix => forall sa, P sa <-> sa = SA_UNIX
  | Any p => exists Q, ports_is p Q /\
      forall sa, P sa <-> match sa with SA_INET _ port | SA_INET6 _ port => Q (ntohs port) | _ => False end
  | Inet s p => exists R Q, span_is 32 inet_is s R /\ port_is p Q /\
      forall sa, P sa <-> match sa with SA_INET x port => R (ntohl x) /\ Q (ntohs port) | _ => False end
  | Inet6 s p => exists R Q, span_is 128 (fun t n => exists bs, inet6_is t bs /\ n = be_value bs) s R /\ port_is p Q /\
      forall sa, P sa <-> match sa with SA_INET6 x port => R (be_value x) /\ Q (ntohs port) | _ => False end
  end.

(** ** Reading texts *)

Lemma memchr_here a c b : c ∉ a -> memchr (a ++ c :: b) c = Some (length a).
Proof.
  induction a as [|x a IH]; intros Ha; cbn; [by rewrite Z.eqb_refl|]. apply not_elem_of_cons in Ha as [Hx Ha].
  rewrite (proj2 (Z.eqb_neq x c)) by done. by rewrite IH.
Qed.

Lemma memchr_not s c : c ∉ s -> memchr s c = None.
Proof.
  induction s as [|x s IH]; intros Hs; [done|]. apply not_elem_of_cons in Hs as [Hx Hs]. cbn.
  rewrite (proj2 (Z.eqb_neq x c)) by done. by rewrite IH.
Qed.

(** The text [t] is in the buffer. *)
Definition text_at (buf : list Z) (start len : nat) (t : list Z) : Prop := text buf start len = t /\ (start + len <= length buf)%nat.

Lemma text_at_length buf start len t : text_at buf start len t -> length t = len.
Proof. intros [<- Hl]. unfold text. rewrite window_length; lia. Qed.

Lemma text_at_sub buf start len a b c :
  text_at buf start len (a ++ b ++ c) -> text_at buf (start + length a) (length b) b.
Proof.
  intros Ht. pose proof (text_at_length _ _ _ _ Ht) as Hl. rewrite !length_app in Hl. destruct Ht as [Ht Hb]. split; [|lia].
  unfold text in *. assert (E : window buf start (start + length a + length b) = a ++ b).
  { assert (E : take (length a + length b) (window buf start (start + len)) = a ++ b).
    { rewrite Ht, app_assoc. apply take_app_length'. by rewrite length_app. }
    rewrite <- E. unfold window. rewrite take_drop_commute, take_take. do 2 f_equal. lia. }
  rewrite window_drop, E. apply drop_app_length.
Qed.

Lemma text_at_cut buf start len a c b :
  text_at buf start len (a ++ c :: b) ->
  text_at buf start (length a) a /\ text_at buf (start + length a + 1) (len - (length a + 1)) b.
Proof.
  intros Ht. pose proof (text_at_length _ _ _ _ Ht) as Hl. rewrite length_app in Hl. cbn in Hl. split.
  - pose proof (text_at_sub buf start len [] a (c :: b) Ht) as H. by rewrite Nat.add_0_r in H.
  - replace (len - (length a + 1))%nat with (length b) by lia. rewrite <- Nat.add_assoc.
    pose proof (text_at_sub buf start len (a ++ [c]) b []) as H. rewrite length_app in H. apply H.
    rewrite app_nil_r, <- app_assoc. done.
Qed.

Lemma digits_are t c : forallb digit t = true -> c ∈ t -> CH_0 <= c <= CH_9.
Proof. intros Hd Hc. rewrite forallb_forall in Hd. apply list_elem_of_In, Hd in Hc. unfold digit in Hc. zbool. lia. Qed.

Lemma digits_not t c : forallb digit t = true -> c < CH_0 \/ CH_9 < c -> c ∉ t.
Proof. intros Hd Hc Hin. apply (digits_are _ _ Hd) in Hin. lia. Qed.

Lemma number_ok t n : number t n -> nxt_int_parse t = n /\ 0 <= n.
Proof.
  intros (Ht & Hd & Hv & Hn). assert (Hb : Forall byte t).
  { apply Forall_forall. intros c Hc. apply (digits_are _ _ Hd) in Hc. unfold byte. lia. }
  assert (Ha : after_digits t = []).
  { clear -Hd. induction t as [|c t IH]; [done|]. cbn in *. apply andb_true_iff in Hd as [Hc Hd]. rewrite Hc. auto. }
  pose proof (value_bounds t Hd). split; [|lia]. unfold nxt_int_parse. rewrite parse_decimal by (done || lia). unfold decimal.
  rewrite (after_digits_nil _ Ha). rewrite (proj2 (Z.ltb_ge _ _)), decide_True by (done || unfold NXT_INT_T_MAX; lia). done.
Qed.

(** The characters of a text, by its parts. *)
Lemma elem_of_split sep t c : c ∈ t -> c = sep \/ exists p, p ∈ split_on sep t /\ c ∈ p.
Proof.
  induction t as [|x t IH]; intros Hc; [by apply elem_of_nil in Hc|]. cbn. destruct (split_on_cons sep t) as (y & ys & E).
  rewrite E in *. destruct (Z.eqb_spec x sep) as [->|Hx]; apply elem_of_cons in Hc as [->|Hc]; auto.
  - destruct (IH Hc) as [|(p & Hp & Hcp)]; [auto|]. right. exists p. split; [by right|done].
  - right. exists (x :: y). split; by left.
  - destruct (IH Hc) as [|(p & Hp & Hcp)]; [auto|]. right. apply elem_of_cons in Hp as [->|Hp].
    + exists (x :: y). split; [by left|by right].
    + exists p. split; [by right|done].
Qed.

Lemma inet_is_chars t a c : inet_is t a -> c ∈ t -> c = DOT \/ CH_0 <= c <= CH_9.
Proof.
  intros (_ & Hv & _) Hc. destruct (elem_of_split DOT t c Hc) as [|(p & Hp & Hcp)]; [auto|]. right.
  unfold inet_value in Hv. destruct (split_on DOT t) as [|x1 [|x2 [|x3 [|x4 [|]]]]]; try done.
  destruct (octet_ok x1 && octet_ok x2 && octet_ok x3 && octet_ok x4 && negb (length x4 =? 0)%nat) eqn:E; [|done].
  rewrite !andb_true_iff in E. unfold octet_ok in E. rewrite !andb_true_iff in E. destruct_and!.
  apply (digits_are p); [|done]. rewrite !elem_of_cons in Hp. destruct Hp as [->|[->|[->|[->|Hp]]]]; try done. by apply elem_of_nil in Hp.
Qed.

Lemma inet_is_not t a c : inet_is t a -> c <> DOT -> c < CH_0 \/ CH_9 < c -> c ∉ t.
Proof. intros Ht Hd Hc Hin. destruct (inet_is_chars _ _ _ Ht Hin); lia. Qed.

(** The texts of IPv6 addresses. *)
Definition inet6_char (c : Z) : Prop := is_Some (hex_value c) \/ c = COLON \/ c = DOT.

Lemma hextet_chars t g : hextet t g -> Forall inet6_char t.
Proof. intros (_ & _ & Hh & _). eapply Forall_impl; [exact Hh|]. intros c Hc. by left. Qed.

Lemma dotted_chars t a : dotted t a -> Forall inet6_char t.
Proof.
  intros (Hb & Hv & Hn & _ & Hp). apply Forall_forall. intros c Hc.
  destruct (inet_is_chars t a c) as [->|Hd]; [by split_and!|done|by right; right|]. left. unfold hex_value.
  rewrite (proj2 (andb_true_iff _ _)) by (rewrite !Z.leb_le; lia). done.
Qed.

Lemma group_texts_chars ts gs : group_texts ts gs -> Forall inet6_char (join ts).
Proof.
  induction 1 as [|t a Hd|t g ts gs Ht Hts IH]; [constructor|by eapply dotted_chars|].
  destruct (decide (ts = [])) as [->|Hne]; [by eapply hextet_chars|]. rewrite join_cons by done.
  apply Forall_app. split; [by eapply hextet_chars|]. constructor; [by right; left|done].
Qed.

Lemma hextets_groups ts gs : Forall2 hextet ts gs -> group_texts ts gs.
Proof. induction 1; by constructor. Qed.

Lemma inet6_text_chars t bs : inet6_text t bs -> Forall inet6_char t.
Proof.
  intros [ts gs Hts _|pre gpre post gpost Hpre Hpost _ _]; [by eapply group_texts_chars|].
  apply Forall_app. split; [by eapply group_texts_chars, hextets_groups|].
  constructor; [by right; left|]. constructor; [by right; left|]. by eapply group_texts_chars.
Qed.

Lemma inet6_is_not t bs c : inet6_is t bs -> hex_value c = None -> c <> COLON -> c <> DOT -> c ∉ t.
Proof.
  intros [Ht _] Hh H1 H2 Hc. apply inet6_text_chars in Ht. rewrite Forall_forall in Ht. destruct (Ht _ Hc) as [[v Hv]|[|]]; congruence.
Qed.

(** There are two colons. *)
Lemma inet6_text_colons t bs : inet6_text t bs -> exists a b c, t = a ++ COLON :: b ++ COLON :: c.
Proof.
  intros [ts gs Hts Hgs|pre gpre post gpost _ _ _ _]; [|by exists (join pre), [], (join post)].
  inversion Hts as [|t1 a Hd|t1 g1 ts1 gs1 H1 Hts1]; subst; cbn in Hgs; try lia.
  inversion Hts1 as [|t2 a Hd|t2 g2 ts2 gs2 H2 Hts2]; subst; cbn in Hgs; try lia.
  exists t1, t2, (join ts2). rewrite join_cons by done. f_equal. f_equal. rewrite join_cons; [done|].
  intros ->. inversion Hts2. subst. cbn in Hgs. lia.
Qed.

Lemma probe_two a b c : nxt_inet6_probe (a ++ COLON :: b ++ COLON :: c) = true.
Proof.
  unfold nxt_inet6_probe. assert (Hm : forall s, COLON ∈ s -> exists n, memchr s COLON = Some n /\ (n < length s)%nat /\ s = take n s ++ COLON :: drop (S n) s /\ COLON ∉ take n s).
  { intros s Hs. pose proof (memchr_ok s COLON) as Hok. destruct (memchr s COLON) as [n|]; [|exfalso; by apply (Hok _ Hs)].
    destruct Hok as [Hn Hno]. exists n. split; [done|]. split; [by eapply lookup_lt_Some|]. split; [by rewrite <- (drop_S _ _ _ Hn), take_drop|].
    intros Hin. by apply (Hno _ Hin). }
  set (s := a ++ COLON :: b ++ COLON :: c). destruct (Hm s) as (n & -> & Hn & Es & Hno).
  { unfold s. apply elem_of_app. right. by left. }
  assert (Hle : (n <= length a)%nat).
  { apply Nat.nlt_ge. intros Hlt. apply Hno. unfold s. rewrite take_app_ge by lia. apply elem_of_app. right.
    destruct (n - length a)%nat eqn:E; [lia|]. cbn. by left. }
  destruct (Hm (drop (S n) s)) as (m & -> & _); [|done].
  unfold s. destruct (decide (n = length a)) as [->|Hne].
  - rewrite drop_app_ge by lia. replace (S (length a) - length a)%nat with 1%nat by lia. cbn. apply elem_of_app. right. by left.
  - rewrite drop_app_le by lia. apply elem_of_app. right. by left.
Qed.

Lemma probe_one a b : COLON ∉ a -> COLON ∉ b -> nxt_inet6_probe (a ++ COLON :: b) = false /\ nxt_inet6_probe a = false.
Proof.
  intros Ha Hb. unfold nxt_inet6_probe. rewrite memchr_here, (memchr_not a) by done.
  rewrite drop_app_ge by lia. replace (S (length a) - length a)%nat with 1%nat by lia. cbn. by rewrite memchr_not.
Qed.

Lemma blocks_loop_ok s : forall gap p ps,
  split_on COLON s = p :: ps -> 0 <= gap -> gap + Z.of_nat (length p) <= 4 -> Forall (fun b => (length b <= 4)%nat) ps ->
  blocks_loop s gap = true.
Proof.
  induction s as [|c s IH]; intros gap p ps E H0 Hg Hps; [done|]. cbn in E |- *. destruct (split_on_cons COLON s) as (y & ys & Ey).
  rewrite Ey in E. destruct (c =? COLON); simplify_eq.
  - apply Forall_cons in Hps as [Hy Hys]. eapply IH; [done|lia|lia|done].
  - cbn in Hg. rewrite (proj2 (Z.ltb_ge _ _)) by lia. eapply IH; [done|lia|lia|done].
Qed.

Lemma blocks_ok t bs : inet6_is t bs -> nxt_valid_ipv6_blocks t = true.
Proof.
  intros [_ Hb]. destruct (split_on_cons COLON t) as (p & ps & E). rewrite E in Hb. apply Forall_cons in Hb as [Hp Hps].
  eapply blocks_loop_ok; [done|lia|lia|done].
Qed.

Lemma port_of_ok buf low start len t n :
  text_at buf start len t -> number t n -> low <= n <= 65535 -> port_of buf low start len = Ret (inl n).
Proof.
  intros [Ht _] Hn Hr. unfold port_of, guard. rewrite Ht. destruct (number_ok _ _ Hn) as [-> H0].
  rewrite !(proj2 (Z.ltb_ge _ _)) by lia. done.
Qed.

Lemma parse_port_ok buf start len p Q :
  text_at buf start len (ports_bytes p) -> ports_is p Q ->
  exists a b, parse_port buf (Some (start, len)) = Ret (inl (a, b)) /\ forall x, Q x <-> a <= x <= b.
Proof.
  intros Ht Hp. pose proof (text_at_length _ _ _ _ Ht) as Hl. unfold parse_port. destruct p as [t|t1 t2]; cbn [ports_bytes ports_is] in *.
  - destruct Hp as (n & Hn & Hmax & HQ). pose proof Hn as (Ht0 & Hd & _).
    destruct (Nat.eqb_spec len 0) as [E|_]; [by rewrite E in Hl; apply length_zero_iff_nil in Hl|].
    rewrite (proj1 Ht), memchr_not by (eapply digits_not; [done|lia]).
    destruct (number_ok _ _ Hn) as [_ H0]. rewrite (port_of_ok _ _ _ _ t n) by (done || lia). cbn. exists n, n. split; [done|].
    intros x. rewrite HQ. lia.
  - destruct Hp as (n & m & Hn & Hm & Hmax & HQ). pose proof Hn as (_ & Hd & _).
    destruct (Nat.eqb_spec len 0) as [E|_]; [rewrite length_app in Hl; cbn in Hl; lia|].
    rewrite (proj1 Ht), memchr_here by (eapply digits_not; [done|lia]). destruct (text_at_cut _ _ _ _ _ _ Ht) as [H1 H2].
    destruct (number_ok _ _ Hn) as [_ H0]. rewrite (port_of_ok _ _ _ _ t1 n) by (done || lia). cbn [pbind obind].
    rewrite (port_of_ok _ _ _ _ t2 m) by (done || lia). cbn [pbind obind]. by exists n, m.
Qed.

Lemma exact4 x a : 0 <= a < 2 ^ 32 -> (memcmp (le32 x) (le32 (htonl a)) =? 0) = (htonl x =? a).
Proof.
  intros Ha. pose proof (memcmp_le32 x (htonl a)) as H. rewrite htonl_invol in H by done. apply sgn_tests in H as [-> _].
  apply Bool.eq_iff_eq_true. rewrite !Z.eqb_eq. lia.
Qed.

Lemma order4 x a : 0 <= a < 2 ^ 32 ->
  (0 <=? memcmp (le32 x) (le32 (htonl a))) = (a <=? htonl x) /\ (memcmp (le32 x) (le32 (htonl a)) <=? 0) = (htonl x <=? a).
Proof.
  intros Ha. pose proof (memcmp_le32 x (htonl a)) as H. rewrite htonl_invol in H by done. apply sgn_tests in H as (_ & -> & -> & _).
  split; apply Bool.eq_iff_eq_true; rewrite !Z.leb_le; lia.
Qed.

Lemma inet_value_not_nil : inet_value [] = None.
Proof. done. Qed.

Section Spans.
Context (buf : list Z).
Hypothesis Hbuf : Z.of_nat (length buf) < 2 ^ 63.

Lemma inet_of_ok start len t a : text_at buf start len t -> inet_is t a -> nxt_inet_addr buf start len = Ret (htonl a) /\ inet_of buf start len = Ret (inl (htonl a)).
Proof.
  intros Ht (Hb & Hv & Hn & Hp). pose proof (text_at_length _ _ _ _ Ht) as Hl. destruct Ht as [Ht Hle].
  assert (E : nxt_inet_addr buf start len = Ret (htonl a)).
  { unfold text in Ht. rewrite inet_addr_ok; rewrite ?Ht; try done; [by rewrite Hv|destruct t; [by rewrite inet_value_not_nil in Hv|cbn in Hl; lia]|lia]. }
  split; [done|]. unfold inet_of, guard. rewrite E. cbn. rewrite htonl_none; [done|by eapply inet_value_range|done].
Qed.

Lemma parse_inet_cidr_ok start len t n a k :
  text_at buf start len (t ++ SLASH :: n) -> inet_is t a -> number n k -> k <= 32 ->
  exists type r, parse_inet_cidr buf start len (length t) = Ret (inl (type, r)) /\
    forall x, 0 <= x < 2 ^ 32 -> inet_match type r x = bool_decide (htonl x / 2 ^ (32 - k) = a / 2 ^ (32 - k)).
Proof.
  intros Ht Ha Hn Hk. destruct (text_at_cut _ _ _ _ _ _ Ht) as [H1 H2]. destruct (number_ok _ _ Hn) as [En H0].
  assert (Hr : 0 <= a < 2 ^ 32) by (destruct Ha as (_ & Hv & _); by eapply inet_value_range).
  unfold parse_inet_cidr. rewrite (proj1 H2), En. unfold guard at 1. rewrite !(proj2 (Z.ltb_ge _ _)) by lia. cbn [orb negb pbind obind].
  destruct (inet_of_ok _ _ _ _ H1 Ha) as [-> Hof]. cbn [obind]. rewrite mask4 by lia.
  assert (Hm : 0 <= 2 ^ 32 - 2 ^ (32 - k) < 2 ^ 32).
  { assert (2 ^ (32 - k) <= 2 ^ 32) by (apply Z.pow_le_mono_r; lia). lia. }
  assert (Hmask : Z.land (htonl a) (htonl (2 ^ 32 - 2 ^ (32 - k))) =? INADDR_NONE = false).
  { rewrite htonl_land by done. apply htonl_none; [by apply land_range|]. rewrite land_prefix by lia.
    destruct Ha as (_ & _ & Hne & _). pose proof (Z.mul_div_le a (2 ^ (32 - k))). lia. }
  rewrite Hmask. cbn [negb guard pbind obind]. destruct (Z.eqb_spec k 0) as [->|Hk0].
  { eexists _, _. split; [done|]. intros x Hx. pose proof (htonl_range x). rewrite !Z.div_small by (rewrite Z.sub_0_r; lia). by rewrite bool_decide_true. }
  destruct (Z.ltb_spec k 32) as [Hlt|Hge].
  - eexists _, _. split; [done|]. intros x Hx. apply (cidr4_ok x a k); done || lia.
  - assert (k = 32) as -> by lia. rewrite Hof. cbn [pbind obind]. eexists _, _. split; [done|]. intros x Hx. cbn [inet_match].
    rewrite exact4 by done. rewrite Z.sub_diag, Z.pow_0_r, !Z.div_1_r. apply Bool.eq_iff_eq_true. by rewrite Z.eqb_eq, bool_decide_eq_true.
Qed.

Lemma parse_inet_ok start len s R :
  text_at buf start len (span_bytes s) -> span_is 32 inet_is s R ->
  exists type r, parse_inet buf start len = Ret (inl (type, r)) /\
    forall x, 0 <= x < 2 ^ 32 -> inet_match type r x = true <-> R (ntohl x).
Proof.
  intros Ht Hs. unfold parse_inet. rewrite (proj1 Ht). destruct s as [t|t1 t2|t n]; cbn [span_bytes span_is] in *.
  - destruct Hs as (a & Ha & HR). rewrite !memchr_not by (eapply inet_is_not; [done|lia|lia]).
    destruct (inet_of_ok _ _ _ _ Ht Ha) as [_ ->]. cbn [pbind obind]. eexists _, _. split; [done|]. intros x Hx.
    assert (Hr : 0 <= a < 2 ^ 32) by (destruct Ha as (_ & Hv & _); by eapply inet_value_range).
    cbn [inet_match]. rewrite exact4, HR, Z.eqb_eq by done. done.
  - destruct Hs as (a & b & Ha & Hb & Hab & HR). rewrite memchr_here by (eapply inet_is_not; [done|lia|lia]).
    destruct (text_at_cut _ _ _ _ _ _ Ht) as [H1 H2].
    assert (Hra : 0 <= a < 2 ^ 32) by (destruct Ha as (_ & Hv & _); by eapply inet_value_range).
    assert (Hrb : 0 <= b < 2 ^ 32) by (destruct Hb as (_ & Hv & _); by eapply inet_value_range).
    destruct (inet_of_ok _ _ _ _ H1 Ha) as [_ ->]. cbn [pbind obind].
    destruct (inet_of_ok _ _ _ _ H2 Hb) as [_ ->]. cbn [pbind obind].
    assert (Hle : 0 <? memcmp (le32 (htonl a)) (le32 (htonl b)) = false).
    { pose proof (memcmp_le32 (htonl a) (htonl b)) as H. rewrite !htonl_invol in H by done. apply sgn_tests in H as (_ & _ & _ & ->).
      apply Z.ltb_ge. lia. }
    rewrite Hle. cbn [negb guard pbind obind]. eexists _, _. split; [done|]. intros x Hx. cbn [inet_match].
    rewrite (proj1 (order4 x a Hra)), (proj2 (order4 x b Hrb)), HR, andb_true_iff, !Z.leb_le. done.
  - destruct Hs as (a & k & Ha & Hn & Hk & HR). pose proof Hn as (_ & Hd & _). rewrite memchr_not.
    2: { rewrite not_elem_of_app, not_elem_of_cons. split_and!; [eapply inet_is_not; [done|lia|lia]|done|eapply digits_not; [done|lia]]. }
    rewrite memchr_here by (eapply inet_is_not; [done|lia|lia]).
    destruct (parse_inet_cidr_ok _ _ _ _ _ _ Ht Ha Hn Hk) as (type & r & -> & Hm). eexists _, _. split; [done|]. intros x Hx.
    by rewrite Hm, HR, bool_decide_eq_true by done.
Qed.

End Spans.

Lemma group_bytes_byte gs : Forall (fun g => 0 <= g < 65536) gs -> Forall byte (group_bytes gs).
Proof.
  induction 1 as [|g gs Hg Hgs IH]; [constructor|]. unfold group_bytes. rewrite bind_cons. apply Forall_app. split; [|done].
  repeat constructor; unfold byte; dlia.
Qed.

Lemma group_texts_range ts gs : group_texts ts gs -> Forall (fun g => 0 <= g < 65536) gs.
Proof.
  induction 1 as [|t a (_ & Hv & _)|t g ts gs Ht Hts IH]; [constructor| |constructor; [by eapply hextet_range|done]].
  apply inet_value_range in Hv. repeat constructor; dlia.
Qed.

Lemma inet6_text_bytes t bs : inet6_text t bs -> length bs = 16%nat /\ Forall byte bs.
Proof.
  intros [ts gs Hts Hgs|pre gpre post gpost Hpre Hpost Hl _].
  - rewrite group_bytes_length, Hgs. split; [done|]. by eapply group_bytes_byte, group_texts_range.
  - rewrite !length_app, length_replicate, !group_bytes_length. split; [lia|]. rewrite !Forall_app. split_and!.
    + by eapply group_bytes_byte, group_texts_range, hextets_groups.
    + apply Forall_replicate. done.
    + by eapply group_bytes_byte, group_texts_range.
Qed.

Definition addr6 (x : list Z) : Prop := length x = 16%nat /\ Forall byte x.

Lemma order6 x a : addr6 x -> addr6 a ->
  (memcmp x a =? 0) = (be_value x =? be_value a) /\ (0 <=? memcmp x a) = (be_value a <=? be_value x) /\
  (memcmp x a <=? 0) = (be_value x <=? be_value a) /\ (0 <? memcmp x a) = (be_value a <? be_value x).
Proof.
  intros [Lx Hx] [La Ha]. assert (H : Z.sgn (memcmp x a) = Z.sgn (be_value x - be_value a)) by (apply addr_memcmp_ok; [lia|done..]).
  apply sgn_tests in H as (-> & -> & -> & ->). split_and!; apply Bool.eq_iff_eq_true; rewrite ?Z.eqb_eq, ?Z.leb_le, ?Z.ltb_lt; lia.
Qed.

Lemma be_value_16 x : addr6 x -> 0 <= be_value x < 2 ^ 128.
Proof. intros [L H]. apply be_value_bits in H. by rewrite L in H. Qed.

Definition reads6 (t : list Z) (n : Z) : Prop := exists bs, inet6_is t bs /\ n = be_value bs.

Section Spans6.
Context (buf in6 : list Z).
Hypothesis Hbuf : Z.of_nat (length buf) < 2 ^ 63.
Hypothesis H16 : length in6 = 16%nat.

Lemma inet6_of_ok start len t bs : text_at buf start len t -> inet6_is t bs -> inet6_of buf in6 start len = Ret (inl bs).
Proof.
  intros [Ht Hl] H6. unfold inet6_of, guard. rewrite Ht, (blocks_ok _ _ H6). cbn. unfold text in Ht. destruct H6 as [H6 _].
  rewrite (inet6_addr_ok buf start len bs in6); [done|by rewrite Ht|done|done|done].
Qed.

Lemma parse_inet6_ok start len s R :
  text_at buf start len (span_bytes s) -> span_is 128 reads6 s R ->
  exists type r, parse_inet6 buf in6 start len = Ret (inl (type, r)) /\
    forall x, addr6 x -> inet6_match type r x = true <-> R (be_value x).
Proof.
  intros Ht Hs. unfold parse_inet6. rewrite (proj1 Ht). destruct s as [t|t1 t2|t n]; cbn [span_bytes span_is] in *.
  - destruct Hs as (v & (a & Ha & ->) & HR). rewrite !memchr_not by (by eapply inet6_is_not).
    rewrite (inet6_of_ok _ _ _ _ Ht Ha). cbn [pbind obind]. eexists _, _. split; [done|]. intros x Hx. cbn [inet6_match].
    destruct (order6 x a) as (-> & _); [done|by destruct Ha as [?%inet6_text_bytes _]|]. by rewrite Z.eqb_eq, HR.
  - destruct Hs as (va & vb & (a & Ha & ->) & (b & Hb & ->) & Hab & HR). rewrite memchr_here by (by eapply inet6_is_not).
    destruct (text_at_cut _ _ _ _ _ _ Ht) as [H1 H2]. rewrite (inet6_of_ok _ _ _ _ H1 Ha). cbn [pbind obind].
    replace (len - length t1 - 1)%nat with (len - (length t1 + 1))%nat by lia. rewrite (inet6_of_ok _ _ _ _ H2 Hb). cbn [pbind obind].
    assert (Ka : addr6 a) by (by destruct Ha as [?%inet6_text_bytes _]). assert (Kb : addr6 b) by (by destruct Hb as [?%inet6_text_bytes _]).
    destruct (order6 a b Ka Kb) as (_ & _ & _ & ->). rewrite (proj2 (Z.ltb_ge _ _)) by lia. cbn [negb guard pbind obind].
    eexists _, _. split; [done|]. intros x Hx. cbn [inet6_match]. destruct (order6 x a Hx Ka) as (_ & -> & _).
    destruct (order6 x b Hx Kb) as (_ & _ & -> & _). by rewrite HR, andb_true_iff, !Z.leb_le.
  - destruct Hs as (v & k & (a & Ha & ->) & Hn & Hk & HR). pose proof Hn as (_ & Hd & _). rewrite memchr_not.
    2: { rewrite not_elem_of_app, not_elem_of_cons. split_and!; [by eapply inet6_is_not|done|eapply digits_not; [done|lia]]. }
    rewrite memchr_here by (by eapply inet6_is_not). destruct (text_at_cut _ _ _ _ _ _ Ht) as [H1 H2].
    destruct (number_ok _ _ Hn) as [En H0]. rewrite (proj1 H2), En. unfold guard. rewrite !(proj2 (Z.ltb_ge _ _)) by lia. cbn [orb negb pbind obind].
    rewrite (inet6_of_ok _ _ _ _ H1 Ha). cbn [pbind obind]. assert (Ka : addr6 a) by (by destruct Ha as [?%inet6_text_bytes _]).
    setoid_rewrite HR. destruct (Z.eqb_spec k 0) as [->|Hk0].
    { eexists _, _. split; [done|]. intros x Hx. pose proof (be_value_16 x Hx). pose proof (be_value_16 a Ka).
      rewrite !Z.div_small by (rewrite Z.sub_0_r; lia). done. }
    destruct (Z.eqb_spec k 128) as [->|Hk1].
    { eexists _, _. split; [done|]. intros x Hx. cbn [inet6_match]. destruct (order6 x a Hx Ka) as (-> & _).
      by rewrite Z.sub_diag, Z.pow_0_r, !Z.div_1_r, Z.eqb_eq. }
    destruct (cidr_loop a k) as [s e] eqn:Ec. eexists _, _. split; [done|]. intros x Hx. cbn [inet6_match].
    destruct Ka as [La Kab], Hx as [Lx Kx]. pose proof (cidr6_ok a x k ltac:(lia) Kx Kab) as Hc. rewrite Ec, La in Hc. cbn [fst snd] in Hc.
    rewrite Hc by lia. by rewrite bool_decide_eq_true.
Qed.

End Spans6.

(** ** Whole patterns *)

(** The characters of the texts of a span. *)
Lemma span_chars w (reads : list Z -> Z -> Prop) s R (ok : Z -> Prop) :
  span_is w reads s R -> (forall t a, reads t a -> Forall ok t) -> ok MINUS -> ok SLASH -> (forall c, CH_0 <= c <= CH_9 -> ok c) ->
  Forall ok (span_bytes s).
Proof.
  intros Hs Hr Hm Hsl Hd. destruct s as [t|t1 t2|t n]; cbn [span_bytes span_is] in *.
  - destruct Hs as (a & Ha & _). by eapply Hr.
  - destruct Hs as (a & b & Ha & Hb & _). apply Forall_app. split; [by eapply Hr|]. constructor; [done|]. by eapply Hr.
  - destruct Hs as (a & k & Ha & (_ & Hn & _) & _). apply Forall_app. split; [by eapply Hr|]. constructor; [done|].
    apply Forall_forall. intros c Hc. apply Hd. by eapply digits_are.
Qed.

Definition port_char (c : Z) : Prop := CH_0 <= c <= CH_9 \/ c = MINUS.
Definition inet_char (c : Z) : Prop := CH_0 <= c <= CH_9 \/ c = DOT \/ c = MINUS \/ c = SLASH.
Definition span6_char (c : Z) : Prop := inet6_char c \/ c = MINUS \/ c = SLASH.

Lemma ports_chars p Q : ports_is p Q -> Forall port_char (ports_bytes p) /\ ports_bytes p <> [].
Proof.
  destruct p as [t|t1 t2]; cbn.
  - intros (n & (Hne & Hd & _) & _). split; [|done]. apply Forall_forall. intros c Hc. left. by eapply digits_are.
  - intros (n & m & (_ & Hd1 & _) & (_ & Hd2 & _) & _). split; [|by destruct t1]. apply Forall_app.
    split; [|constructor; [by right|]]; apply Forall_forall; intros c Hc; left; (eapply digits_are; [|exact Hc]; done).
Qed.

Lemma inet_span_chars s R : span_is 32 inet_is s R -> Forall inet_char (span_bytes s).
Proof.
  intros Hs. eapply span_chars; [exact Hs|..].
  - intros t a Ht. apply Forall_forall. intros c Hc. destruct (inet_is_chars _ _ _ Ht Hc); [by right; left|by left].
  - right. right. by left.
  - right. right. by right.
  - intros c Hc. by left.
Qed.

Lemma digit_hex c : CH_0 <= c <= CH_9 -> is_Some (hex_value c).
Proof. intros Hc. unfold hex_value. rewrite (proj2 (andb_true_iff _ _)) by (rewrite !Z.leb_le; lia). done. Qed.

Lemma inet6_span_chars s R : span_is 128 reads6 s R -> Forall span6_char (span_bytes s).
Proof.
  intros Hs. eapply span_chars; [exact Hs|..].
  - intros t a (bs & [Ht _] & _). apply inet6_text_chars in Ht. eapply Forall_impl; [exact Ht|]. intros c Hc. by left.
  - by right; left.
  - by right; right.
  - intros c Hc. left. left. by apply digit_hex.
Qed.

Lemma chars_not (ok : Z -> Prop) s c : Forall ok s -> ~ ok c -> c ∉ s.
Proof. intros Hs Hc Hin. rewrite Forall_forall in Hs. by apply Hc, Hs. Qed.

(** Every span has an address in front. *)
Lemma span_front w (reads : list Z -> Z -> Prop) s R :
  span_is w reads s R -> exists t a post, reads t a /\ span_bytes s = t ++ post.
Proof.
  destruct s as [t|t1 t2|t n]; cbn.
  - intros (a & Ha & _). exists t, a, []. by rewrite app_nil_r.
  - intros (a & b & Ha & _). by exists t1, a, (MINUS :: t2).
  - intros (a & k & Ha & _). by exists t, a, (SLASH :: n).
Qed.

Lemma inet_is_long t a : inet_is t a -> (3 <= length t)%nat.
Proof.
  intros (_ & Hv & _). pose proof (split_on_length DOT t) as Hl. unfold inet_value in Hv.
  destruct (split_on DOT t) as [|a1 [|a2 [|a3 [|a4 [|]]]]]; try done. cbn in Hl. lia.
Qed.

Lemma rmemstrn_bracket s p : RBRACKET ∉ s -> RBRACKET ∉ p -> s <> [] ->
  nxt_rmemstrn (s ++ RBRACKET :: COLON :: p) [RBRACKET; COLON] = Ret (Some (length s)).
Proof.
  intros Hs Hp Hne. unfold nxt_rmemstrn. rewrite length_app. cbn [length]. rewrite (proj2 (Nat.ltb_ge _ _)) by lia.
  destruct (rmemstrn_loop_ok (s ++ RBRACKET :: COLON :: p) RBRACKET [COLON] (length s + S (S (length p)) - 2)) as (r & -> & Hr).
  - rewrite length_app. cbn. lia.
  - intros j Hj Ho. apply (f_equal length) in Ho. rewrite !length_map, length_take, length_drop, length_app in Ho. cbn [length] in Ho. lia.
  - f_equal. assert (Hat : forall i, occurs id (s ++ RBRACKET :: COLON :: p) [RBRACKET; COLON] i -> i = length s).
    { intros i Ho. unfold occurs in Ho. rewrite !map_id in Ho. 
      assert (Hi : (s ++ RBRACKET :: COLON :: p) !! i = Some RBRACKET).
      { apply (f_equal (fun l => l !! 0%nat)) in Ho. rewrite lookup_take_lt, lookup_drop, Nat.add_0_r in Ho by (cbn; lia). done. }
      destruct (Nat.lt_trichotomy i (length s)) as [H|[H|H]]; [|done|].
      - rewrite lookup_app_l in Hi by done. by apply list_elem_of_lookup_2 in Hi.
      - rewrite lookup_app_r in Hi by lia. destruct (i - length s)%nat as [|[|n]] eqn:E; [lia|done|]. cbn in Hi.
        by apply list_elem_of_lookup_2 in Hi. }
    destruct r as [i|]; [destruct Hr as [[_ Ho] _]; by rewrite (Hat _ Ho)|]. exfalso. apply (Hr (length s)). split.
    + destruct s; [done|cbn; lia].
    + unfold occurs. rewrite drop_app_length. done.
Qed.

(** The head and the length of a text that is not "unix". *)
Definition sockaddr_ok (sa : nxt_sockaddr) : Prop :=
  match sa with
  | SA_INET a port => 0 <= a < 2 ^ 32 /\ 0 <= port < 2 ^ 16
  | SA_INET6 a port => addr6 a /\ 0 <= port < 2 ^ 16
  | _ => True
  end.

Lemma ntohs_range p : 0 <= p < 2 ^ 16 -> 0 <= ntohs p <= 65535.
Proof. intros Hp. unfold ntohs. dlia. Qed.

Section Whole.
Context (buf in6 : list Z) (start len : nat).
Hypothesis Hbuf : Z.of_nat (length buf) < 2 ^ 63.
Hypothesis H16 : length in6 = 16%nat.

Lemma parse_port_opt p pos Q :
  match p, pos with
  | None, None => True
  | Some p, Some (start, len) => text_at buf start len (ports_bytes p)
  | _, _ => False
  end -> port_is p Q ->
  exists a b, parse_port buf pos = Ret (inl (a, b)) /\
    forall x, 0 <= x < 2 ^ 16 -> (a <=? ntohs x) && (ntohs x <=? b) = true <-> Q (ntohs x).
Proof.
  intros Hpos Hp. destruct p as [p|], pos as [[ps pl]|]; try done.
  - destruct (parse_port_ok buf ps pl p Q Hpos Hp) as (a & b & -> & HQ). exists a, b. split; [done|]. intros x _.
    by rewrite andb_true_iff, !Z.leb_le, HQ.
  - exists 0, 65535. split; [done|]. intros x Hx%ntohs_range. rewrite andb_true_iff, !Z.leb_le. split; [intros _; by apply Hp|lia].
Qed.

(** The first two bytes. *)
Lemma text_first t c d s : t = c :: d :: s -> text_at buf start len t -> buf !! start = Some c /\ buf !! S start = Some d.
Proof.
  intros -> Ht. pose proof (text_at_length _ _ _ _ Ht) as Hl. cbn in Hl. destruct Ht as [Ht Hle]. unfold text in Ht.
  pose proof (window_lookup buf start (start + len) 0) as H0. pose proof (window_lookup buf start (start + len) 1) as H1.
  rewrite Ht in H0, H1. rewrite Nat.add_0_r in H0. rewrite Nat.add_1_r in H1. cbn in H0, H1. split; [rewrite <- H0|rewrite <- H1]; done || lia.
Qed.

Definition family_ok (P : nxt_sockaddr -> Prop) (family : addr_family_t) (type : addr_match_type) (r : addr_range) (a b : Z) : Prop :=
  forall neg sa, sockaddr_ok sa ->
    nxt_http_route_addr_pattern_match (Addr_pattern (Base type neg family a b) r) sa = true <-> (if neg : bool then ~ P sa else P sa).

Lemma family_ok_intro P family type r a b :
  (forall sa, sockaddr_ok sa ->
     nxt_http_route_addr_pattern_match (Addr_pattern (Base type false family a b) r) sa = true <-> P sa) ->
  family_ok P family type r a b.
Proof.
  intros H neg sa Hsa. specialize (H sa Hsa). destruct neg; [|done]. unfold nxt_http_route_addr_pattern_match in *.
  cbn [base addr_negative] in *. rewrite xorb_false_r in H. rewrite xorb_true_r, negb_true_iff, <- H. symmetry. apply not_true_iff_false.
Qed.

Lemma parse_any p P :
  addr_is (Any p) P -> text_at buf start len (addr_bytes (Any p)) ->
  exists family type r a b, parse_family buf in6 start len = Ret (inl (family, type, r, (a, b))) /\ family_ok P family type r a b.
Proof.
  intros (Q & Hp & HP) Ht. destruct (text_first _ _ _ _ eq_refl Ht) as [H0 H1]. unfold parse_family. rewrite H0, H1. cbn [of_option obind].
  change ((STAR =? STAR) && (COLON =? COLON)) with true. cbv iota.
  assert (Hpt : text_at buf (start + 2) (len - 2) (ports_bytes p)).
  { pose proof (text_at_length _ _ _ _ Ht) as Hl. cbn in Hl. replace (len - 2)%nat with (length (ports_bytes p)) by lia.
    pose proof (text_at_sub buf start len [STAR; COLON] (ports_bytes p) []) as H. rewrite app_nil_r in H. by apply H. }
  destruct (parse_port_opt (Some p) (Some (start + 2, len - 2)%nat) Q Hpt Hp) as (a & b & -> & HQ). cbn [pbind obind].
  eexists _, _, _, _, _. split; [done|]. apply family_ok_intro. intros sa Hsa. rewrite HP.
  unfold nxt_http_route_addr_pattern_match, in_ports. destruct sa as [x port|x port| |]; cbn in *; rewrite ?andb_true_r, ?xorb_false_r; try done.
  - apply HQ. lia.
  - apply HQ. destruct Hsa; lia.
Qed.

Lemma parse_inet_family s p P :
  addr_is (Inet s p) P -> text_at buf start len (addr_bytes (Inet s p)) ->
  exists family type r a b, parse_family buf in6 start len = Ret (inl (family, type, r, (a, b))) /\ family_ok P family type r a b.
Proof.
  intros (R & Q & Hs & Hp & HP) Ht. pose proof (inet_span_chars _ _ Hs) as Hc.
  destruct (span_front _ _ _ _ Hs) as (t & v & post & Hv & Es). pose proof (inet_is_long _ _ Hv) as Hlong.
  assert (Hcolon : COLON ∉ span_bytes s) by (eapply chars_not; [exact Hc|unfold inet_char; lia]).
  assert (Hfirst : exists c d rest, addr_bytes (Inet s p) = c :: d :: rest /\ c <> STAR).
  { destruct t as [|c [|d t]]; cbn in Hlong; try lia. exists c, d, (drop 2 (addr_bytes (Inet s p))).
    split; [cbn; destruct p; rewrite Es; done|]. rewrite Es in Hc. apply Forall_cons in Hc as [Hc _]. unfold inet_char in Hc. lia. }
  destruct Hfirst as (c & d & rest & Ef & Hstar). destruct (text_first _ _ _ _ Ef Ht) as [H0 H1].
  unfold parse_family. rewrite H0, H1. cbn [of_option obind]. rewrite (proj2 (Z.eqb_neq c STAR)) by done. cbn [andb].
  assert (Hprobe : nxt_inet6_probe (text buf start len) = false).
  { rewrite (proj1 Ht). cbn. destruct p as [p|]; [|apply (probe_one _ [] Hcolon), not_elem_of_nil].
    apply probe_one; [done|]. destruct (ports_chars _ _ Hp) as [Hpc _]. eapply chars_not; [exact Hpc|unfold port_char; lia]. }
  rewrite Hprobe. assert (Hsplit : exists slen pos, split_inet buf start len = (start, slen, pos) /\ text_at buf start slen (span_bytes s) /\
    match p, pos with None, None => True | Some p, Some (ps, pl) => text_at buf ps pl (ports_bytes p) | _, _ => False end).
  { unfold split_inet. rewrite (proj1 Ht). cbn. destruct p as [p|].
    - rewrite memchr_here by done. destruct (text_at_cut _ _ _ _ _ _ Ht) as [Ha Hb]. by eexists _, _.
    - rewrite memchr_not by done. by exists len, None. }
  destruct Hsplit as (slen & pos & -> & Hts & Hpos). destruct (parse_inet_ok buf Hbuf start slen s R Hts Hs) as (type & r & -> & HR). cbn [pbind obind].
  destruct (parse_port_opt p pos Q Hpos Hp) as (a & b & -> & HQ). cbn [pbind obind].
  eexists _, _, _, _, _. split; [done|]. apply family_ok_intro. intros sa Hsa. rewrite HP.
  unfold nxt_http_route_addr_pattern_match, in_ports. destruct sa as [x port|x port| |]; cbn in *; rewrite ?xorb_false_r; try done.
  destruct Hsa as [Hx Hport]. rewrite andb_true_iff, HQ, HR by done. tauto.
Qed.

Lemma span6_not c : (forall v, hex_value c <> Some v) -> c <> COLON -> c <> DOT -> c <> MINUS -> c <> SLASH -> ~ span6_char c.
Proof. intros Hh H1 H2 H3 H4 [[[v Hv]|[|]]|[|]]; try done. by eapply Hh. Qed.

Lemma split_inet6_ok s p Q :
  Forall span6_char (span_bytes s) -> (2 <= length (span_bytes s))%nat -> port_is p Q ->
  text_at buf start len (addr_bytes (Inet6 s p)) ->
  exists st sl pos, split_inet6 buf start len = Ret (inl (st, sl, pos)) /\ text_at buf st sl (span_bytes s) /\
    match p, pos with None, None => True | Some p, Some (ps, pl) => text_at buf ps pl (ports_bytes p) | _, _ => False end.
Proof.
  intros Hc Hl Hp Ht. unfold split_inet6. destruct p as [p|]; cbn [addr_bytes] in Ht.
  - destruct (ports_chars _ _ Hp) as [Hpc _]. pose proof (text_at_length _ _ _ _ Ht) as Hlen. cbn [length] in Hlen. rewrite length_app in Hlen. cbn in Hlen.
    destruct (span_bytes s) as [|c0 cs] eqn:Esp; [cbn in Hl; lia|]. rewrite <- Esp in *.
    assert (H0 : buf !! start = Some LBRACKET).
    { eapply (text_first _ LBRACKET c0 (cs ++ RBRACKET :: COLON :: ports_bytes p)); [|exact Ht]. by rewrite Esp. }
    rewrite H0. cbn [of_option obind]. change (LBRACKET =? LBRACKET) with true. cbv iota. set (r := span_bytes s ++ RBRACKET :: COLON :: ports_bytes p).
    assert (Hr : text_at buf (S start) (len - 1) r).
    { pose proof (text_at_sub buf start len [LBRACKET] r []) as H. rewrite app_nil_r, Nat.add_1_r in H.
      replace (len - 1)%nat with (length r) by (unfold r; rewrite length_app; cbn; lia). by apply H. }
    rewrite (proj1 Hr). unfold r. rewrite rmemstrn_bracket.
    + eexists _, _, _. cbn [obind]. split; [done|]. split.
      * pose proof (text_at_sub buf (S start) (len - 1) [] (span_bytes s) (RBRACKET :: COLON :: ports_bytes p)) as H.
        rewrite Nat.add_0_r in H. by apply H.
      * pose proof (text_at_sub buf (S start) (len - 1) (span_bytes s ++ [RBRACKET; COLON]) (ports_bytes p) []) as H.
        rewrite app_nil_r, <- app_assoc, length_app in H. cbn [length app] in H. rewrite Nat.add_assoc in H.
        replace (len - 1 - (length (span_bytes s) + 2))%nat with (length (ports_bytes p)) by lia. by apply H.
    + eapply chars_not; [exact Hc|]. by apply span6_not.
    + eapply chars_not; [exact Hpc|]. unfold port_char. lia.
    + by rewrite Esp.
  - destruct (span_bytes s) as [|c0 [|c1 cs]] eqn:Esp; [cbn in Hl; lia..|].
    destruct (text_first _ _ _ _ eq_refl Ht) as [-> _]. cbn [of_option obind].
    assert (Hb : c0 <> LBRACKET). { apply Forall_cons in Hc as [Hc _]. intros ->. revert Hc. by apply span6_not. }
    rewrite (proj2 (Z.eqb_neq c0 LBRACKET)) by done. by eexists _, _, _.
Qed.

Lemma parse_inet6_family s p P :
  addr_is (Inet6 s p) P -> text_at buf start len (addr_bytes (Inet6 s p)) ->
  exists family type r a b, parse_family buf in6 start len = Ret (inl (family, type, r, (a, b))) /\ family_ok P family type r a b.
Proof.
  intros (R & Q & Hs & Hp & HP) Ht. fold reads6 in Hs. pose proof (inet6_span_chars _ _ Hs) as Hc.
  destruct (span_front _ _ _ _ Hs) as (t & v & post & (bs & [Htext _] & _) & Es).
  destruct (inet6_text_colons _ _ Htext) as (t1 & t2 & t3 & Et). rewrite Et in Es.
  assert (Hprobe : nxt_inet6_probe (text buf start len) = true).
  { rewrite (proj1 Ht). cbn. rewrite Es. destruct p as [p|]; rewrite <- !app_assoc; cbn [app]; rewrite <- !app_assoc; cbn [app];
      [apply (probe_two (LBRACKET :: t1))|apply probe_two]. }
  assert (Hlong : (2 <= length (span_bytes s))%nat) by (rewrite Es, !length_app; cbn; rewrite length_app; cbn; lia).
  pose proof (split_inet6_ok s p Q Hc Hlong Hp Ht) as Hsplit.
  assert (Hfirst : exists c d rest, addr_bytes (Inet6 s p) = c :: d :: rest /\ c <> STAR).
  { cbn. destruct (span_bytes s) as [|c0 [|c1 cs]]; cbn in Hlong; try lia. destruct p as [p|]; eexists _, _, _; (split; [done|]); [done|].
    apply Forall_cons in Hc as [Hc _]. intros ->. revert Hc. by apply span6_not. }
  destruct Hfirst as (c & d & rest & Ef & Hstar). destruct (text_first _ _ _ _ Ef Ht) as [H0 H1].
  unfold parse_family. rewrite H0, H1. cbn [of_option obind]. rewrite (proj2 (Z.eqb_neq c STAR)) by done. cbn [andb]. rewrite Hprobe.
  destruct Hsplit as (st & sl & pos & -> & Hts & Hpos). cbn [pbind obind].
  destruct (parse_inet6_ok buf in6 Hbuf H16 st sl s R Hts Hs) as (type & r & -> & HR). cbn [pbind obind].
  destruct (parse_port_opt p pos Q Hpos Hp) as (a & b & -> & HQ). cbn [pbind obind].
  eexists _, _, _, _, _. split; [done|]. apply family_ok_intro. intros sa Hsa. rewrite HP.
  unfold nxt_http_route_addr_pattern_match, in_ports. destruct sa as [x port|x port| |]; cbn in *; rewrite ?xorb_false_r; try done.
  destruct Hsa as [Hx Hport]. rewrite andb_true_iff, HQ, HR by done. tauto.
Qed.

End Whole.

Lemma addr_front a P : addr_is a P ->
  exists c rest, addr_bytes a = c :: rest /\ c <> 33 /\ (a = Unix \/ (c <> 117 /\ rest <> [])).
Proof.
  destruct a as [|p|s p|s p]; intros Ha.
  - eexists _, _. split; [done|]. split; [done|]. by left.
  - eexists _, _. split; [done|]. split; [done|]. right. done.
  - destruct Ha as (R & Q & Hs & _). pose proof (inet_span_chars _ _ Hs) as Hc. destruct (span_front _ _ _ _ Hs) as (t & v & post & Hv & Es).
    pose proof (inet_is_long _ _ Hv) as Hl. destruct t as [|c [|d t]]; cbn in Hl; try lia.
    exists c, (drop 1 (addr_bytes (Inet s p))). rewrite Es in Hc. apply Forall_cons in Hc as [Hc _]. unfold inet_char in Hc.
    split; [cbn; destruct p; by rewrite Es|]. split; [lia|]. right. split; [lia|]. cbn. destruct p; by rewrite Es.
  - destruct p as [p|]; [eexists _, _; split; [done|]; split; [done|]; right; split; [done|]; by destruct (span_bytes s)|].
    destruct Ha as (R & Q & Hs & _). fold reads6 in Hs. pose proof (inet6_span_chars _ _ Hs) as Hc.
    destruct (span_front _ _ _ _ Hs) as (t & v & post & (bs & [Ht _] & _) & Es). destruct (inet6_text_colons _ _ Ht) as (t1 & t2 & t3 & ->).
    assert (Hl : (2 <= length (span_bytes s))%nat) by (rewrite Es, !length_app; cbn; rewrite length_app; cbn; lia).
    cbn. destruct (span_bytes s) as [|c [|d cs]]; cbn in Hl; try lia. eexists _, _. split; [done|]. apply Forall_cons in Hc as [Hc _].
    split; [intros ->; revert Hc; by apply span6_not|]. right. split; [intros ->; revert Hc; by apply span6_not|done].
Qed.

(** A whole pattern. *)
Lemma addr_pattern_ok a P neg str in6 :
  addr_is a P -> nxt_conf_get_string str = (if neg : bool then [33] else []) ++ addr_bytes a ->
  Z.of_nat (length (addr_bytes a)) < 2 ^ 62 -> length in6 = 16%nat ->
  exists p, nxt_http_route_addr_pattern_parse in6 (VALUE_STRING str) = Ret (inl p) /\ addr_negative (base p) = neg /\
    forall sa, sockaddr_ok sa -> nxt_http_route_addr_pattern_match p sa = true <-> (if neg then ~ P sa else P sa).
Proof.
  intros Ha Hstr Hlen H16. cbn [nxt_http_route_addr_pattern_parse]. rewrite Hstr. set (buf := (if neg then [33] else []) ++ addr_bytes a).
  destruct (addr_front _ _ Ha) as (c & rest & Ef & H33 & Hunix).
  assert (Hneg : match buf with c :: _ => c =? 33 | [] => false end = neg).
  { unfold buf. destruct neg; [done|]. rewrite Ef. cbn. by apply Z.eqb_neq. }
  rewrite Hneg. set (start := if neg then 1%nat else 0%nat). set (len := (length buf - start)%nat).
  assert (Hlb : (length buf = start + length (addr_bytes a))%nat) by (unfold buf, start; destruct neg; done).
  assert (Ht : text_at buf start len (addr_bytes a)).
  { split; [|unfold len; lia]. unfold text. rewrite window_to_end by (unfold len; lia). unfold buf, start. by destruct neg. }
  rewrite (proj1 Ht). pose proof (text_at_length _ _ _ _ Ht) as Hl.
  destruct Hunix as [->|[Hu Hrest]].
  { rewrite bool_decide_true by done. eexists. split; [done|]. split; [done|]. cbn in Ha.
    apply (family_ok_intro P AF_UNIX ADDR_ANY (V4 0 0) 0 0). intros sa _. rewrite Ha. by destruct sa. }
  rewrite bool_decide_false by (rewrite Ef; intros [= E _]; by apply Hu).
  destruct rest as [|d rest]; [done|]. rewrite Ef in Hl. cbn in Hl. rewrite (proj2 (Nat.ltb_ge _ _)) by lia.
  assert (Hfam : exists family type r p q, parse_family buf in6 start len = Ret (inl (family, type, r, (p, q))) /\ family_ok P family type r p q).
  { assert (Hbuf : Z.of_nat (length buf) < 2 ^ 63) by (rewrite Hlb; unfold start; destruct neg; lia).
    destruct a as [|p|s p|s p]; [injection Ef as E _; by destruct Hu| | |]; [eapply parse_any|eapply parse_inet_family|eapply parse_inet6_family]; done. }
  destruct Hfam as (family & type & r & p & q & -> & Hok). cbn [pbind obind]. eexists. split; [done|]. split; [done|]. intros sa Hsa. by apply Hok.
Qed.

(** ** Rules *)

Lemma addr_rule_verdict ps sa :
  nxt_http_route_addr_rule ps sa =
    verdict false ((fun p => (negative_of p, nxt_http_route_addr_pattern_match p sa)) <$> ps).
Proof.
  unfold nxt_http_route_addr_rule. induction ps as [|p ps IH]; [done|]. rewrite fmap_cons. cbn. unfold negative_of at 1.
  destruct (addr_negative (base p)), (nxt_http_route_addr_pattern_match p sa); try done; destruct ps as [|p' ps']; try done.
  all: rewrite IH, fmap_cons; cbn; by destruct (negative_of p'), (nxt_http_route_addr_pattern_match p' sa).
Qed.

(** A value of the configuration is the text of a pattern. *)
Definition addr_pattern_is (cv : conf_value) (neg : bool) (P : nxt_sockaddr -> Prop) : Prop :=
  exists a str, cv = VALUE_STRING str /\ addr_is a P /\ nxt_conf_get_string str = (if neg then [33] else []) ++ addr_bytes a /\
    Z.of_nat (length (addr_bytes a)) < 2 ^ 62.

(** Patterns and what they stand for. *)
Definition pattern_sets (p : nxt_http_route_addr_pattern_t) (spec : bool * (nxt_sockaddr -> Prop)) : Prop :=
  negative_of p = spec.1 /\
  forall sa, sockaddr_ok sa -> nxt_http_route_addr_pattern_match p sa = true <-> (if spec.1 then ~ spec.2 sa else spec.2 sa).

Lemma parse_patterns_ok in6 cvs specs :
  (forall i, length (in6 i) = 16%nat) -> Forall2 (fun cv spec => addr_pattern_is cv spec.1 spec.2) cvs specs ->
  forall i, exists ps, parse_patterns in6 i cvs = Ret (Some ps) /\ Forall2 pattern_sets ps specs.
Proof.
  intros H16. induction 1 as [|cv [neg P] cvs specs (a & str & -> & Ha & Hstr & Hlen) Hcvs IH]; intros i; [by exists []|].
  destruct (IH (S i)) as (ps & Hps & Hall). destruct (addr_pattern_ok a P neg str (in6 i) Ha Hstr Hlen (H16 i)) as (p & Hp & Hneg & Hm).
  exists (p :: ps). cbn [parse_patterns]. rewrite Hp, Hps. cbn. split; [done|]. constructor; [|done]. split; [done|]. apply Hm.
Qed.

(** What a rule accepts: there are patterns, no negated pattern has the address,
    and one of the others has it, if there are others. *)
Definition addr_rule_accepts (specs : list (bool * (nxt_sockaddr -> Prop))) (sa : nxt_sockaddr) : Prop :=
  specs <> [] /\ (forall P, (true, P) ∈ specs -> ~ P sa) /\ ((forall s, s ∈ specs -> s.1 = true) \/ exists P, (false, P) ∈ specs /\ P sa).

Lemma accepted_specs ps specs sa :
  sockaddr_ok sa -> Forall2 pattern_sets ps specs -> specs <> [] ->
  accepted negative_of (fun p => nxt_http_route_addr_pattern_match p sa) ps <-> addr_rule_accepts specs sa.
Proof.
  intros Hsa Hall Hne. unfold accepted, addr_rule_accepts.
  assert (Hl : forall p, p ∈ ps -> exists s, s ∈ specs /\ pattern_sets p s).
  { intros p Hp. apply list_elem_of_lookup in Hp as [i Hi]. destruct (Forall2_lookup_l _ _ _ _ _ Hall Hi) as (s & Hs & Hps).
    exists s. split; [by eapply list_elem_of_lookup_2|done]. }
  assert (Hr : forall s, s ∈ specs -> exists p, p ∈ ps /\ pattern_sets p s).
  { intros s Hs. apply list_elem_of_lookup in Hs as [i Hi]. destruct (Forall2_lookup_r _ _ _ _ _ Hall Hi) as (p & Hp & Hps).
    exists p. split; [by eapply list_elem_of_lookup_2|done]. }
  split; [intros [H1 H2]; split; [done|]|intros (_ & H1 & H2)]; split.
  - intros P HP. destruct (Hr _ HP) as (p & Hp & Hn & Hm). cbn in Hn, Hm. apply (Hm sa Hsa). by apply H1.
  - destruct H2 as [H2|(p & Hp & Hn & Hm)].
    + left. intros s Hs. destruct (Hr _ Hs) as (p & Hp & Hn & _). rewrite <- Hn. by apply H2.
    + right. destruct (Hl _ Hp) as ([neg P] & Hs & Hn' & Hm'). cbn in *. rewrite Hn in Hn'. subst neg. exists P. split; [done|]. by apply Hm'.
  - intros p Hp Hn. destruct (Hl _ Hp) as ([neg P] & Hs & Hn' & Hm'). cbn in *. rewrite Hn in Hn'. subst neg. apply Hm'; [done|]. by apply H1.
  - destruct H2 as [H2|(P & HP & Hsat)].
    + left. intros p Hp. destruct (Hl _ Hp) as (s & Hs & Hn & _). rewrite Hn. by apply H2.
    + right. destruct (Hr _ HP) as (p & Hp & Hn & Hm). exists p. split; [done|]. split; [done|]. by apply Hm.
Qed.

(** The rule of patterns in the order of [qsort()]. *)
Lemma addr_rule_sorted {Q : Qsort} ps specs sa :
  sockaddr_ok sa -> Forall2 pattern_sets ps specs ->
  nxt_http_route_addr_rule (if (1 <? length ps)%nat then nxt_qsort nxt_http_addr_pattern_compare ps else ps) sa = true <->
  addr_rule_accepts specs sa.
Proof.
  intros Hsa Hsets. destruct specs as [|s specs].
  { apply Forall2_nil_inv_r in Hsets as ->. cbn. split; [done|]. by intros [? _]. }
  rewrite <- (accepted_specs ps (s :: specs) sa Hsa Hsets) by done. rewrite addr_rule_verdict.
  assert (Hne : ps <> []) by (intros ->; by apply Forall2_nil_inv_l in Hsets).
  destruct (Nat.ltb_spec 1 (length ps)).
  - destruct (qsort_flags_first negative_of ps) as [Hff Hp]. unfold nxt_http_addr_pattern_compare. rewrite verdict_ok; [|done|].
    + by apply accepted_perm.
    + intros E0. rewrite E0 in Hp. by apply Permutation_nil_l in Hp.
  - apply verdict_ok; [|done]. destruct ps as [|p [|]]; cbn in *; [done| |lia]. unfold flags_first.
    destruct (negative_of p) eqn:Ep; [exists [p], []|exists [], [p]]; repeat constructor; done.
Qed.

Lemma addr_rule_ok {Q : Qsort} alloc in6 cv specs :
  (forall i, length (in6 i) = 16%nat) ->
  Forall2 (fun cv spec => addr_pattern_is cv spec.1 spec.2) (nxt_conf_elements_or_itself cv) specs ->
  gives alloc (nxt_http_route_addr_rule_create alloc in6 cv) (fun rule =>
    forall specs, Forall2 (fun cv spec => addr_pattern_is cv spec.1 spec.2) (nxt_conf_elements_or_itself cv) specs ->
    forall sa, sockaddr_ok sa -> nxt_http_route_addr_rule rule sa = true <-> addr_rule_accepts specs sa).
Proof.
  intros H16 Hall. destruct (parse_patterns_ok in6 _ _ H16 Hall 0) as (ps & Hps & Hsets).
  unfold nxt_http_route_addr_rule_create. apply gives_request. rewrite Hps. intros k. eexists _, k. split; [reflexivity|]. cbn.
  intros specs' Hall' sa Hsa. destruct (parse_patterns_ok in6 _ _ H16 Hall' 0) as (ps' & Hps' & Hsets').
  assert (ps' = ps) as -> by congruence.
  replace (length (nxt_conf_elements_or_itself cv)) with (length ps).
  - by apply addr_rule_sorted.
  - by rewrite (Forall2_length _ _ _ Hall'), (Forall2_length _ _ _ Hsets').
Qed.

(** C15. A list of address patterns ([nxt_http_route_addr_rule_create()] and
    [nxt_http_route_addr_rule()]), each the text of an address, of a range
    of addresses or of a prefix, of IPv4 or IPv6, with a port, a range of ports or
    no port, or "*:" and ports, or "unix", negated with "!" or not: the rule is
    created, or some allocation failed, and whatever order [qsort()] gives to
    the patterns, and whatever the memory of the patterns held, an address has
    the rule exactly when there are patterns, no negated text has it and one of
    the other texts has it, if there are others. *)
Theorem nxt_http_route_addr_rule_ok {Q : Qsort} (alloc : nat -> bool) (in6 : nat -> list Z) (cv : conf_value)
    (specs : list (bool * (nxt_sockaddr -> Prop))) :
  (forall i, length (in6 i) = 16%nat) ->
  Forall2 (fun cv spec => addr_pattern_is cv spec.1 spec.2) (nxt_conf_elements_or_itself cv) specs ->
  gives alloc (nxt_http_route_addr_rule_create alloc in6 cv) (fun rule =>
    forall sa, sockaddr_ok sa -> nxt_http_route_addr_rule rule sa = true <-> addr_rule_accepts specs sa).
Proof. intros H16 Hall. eapply gives_conseq; [by eapply addr_rule_ok|]. auto. Qed.

(** "!10.0.0.5" and "10.0.0.0/8:80". *)
Definition inside : conf_value := VALUE_STRING (SHORT_STRING (bytes_of_string "10.0.0.0/8:80")).
Definition outside : conf_value := VALUE_STRING (SHORT_STRING (bytes_of_string "!10.0.0.5")).

Lemma number_read t n : t <> [] -> forallb digit t = true -> value t = n -> n <= INT64_MAX -> number t n.
Proof. done. Qed.

Lemma nxt_http_route_addr_rule_ok_witness :
  gives (fun _ => true)
    (@nxt_http_route_addr_rule_create insertion_qsort (fun _ => true) (fun i => repeat (Z.of_nat i) 16) (VALUE_ARRAY [inside; outside]))
    (fun rule => forall sa, sockaddr_ok sa -> nxt_http_route_addr_rule rule sa = true <->
       addr_rule_accepts
         [(false, fun sa => match sa with SA_INET x port => (ntohl x / 2 ^ 24 = 10) /\ ntohs port = 80 | _ => False end);
          (true, fun sa => match sa with SA_INET x port => ntohl x = 167772165 | _ => False end)] sa).
Proof.
  apply (@nxt_http_route_addr_rule_ok insertion_qsort (fun _ => true) _ (VALUE_ARRAY [inside; outside])).
  { intros i. apply repeat_length. }
  repeat constructor.
  - exists (Inet (Prefix (bytes_of_string "10.0.0.0") (bytes_of_string "8")) (Some (Port (bytes_of_string "80")))), (SHORT_STRING (bytes_of_string "10.0.0.0/8:80")).
    split; [done|]. split; [|done]. exists (fun x => x / 2 ^ 24 = 10), (fun x => x = 80). split; [|split; [|done]].
    + exists 167772160, 8. split; [|split; [|split; [done|]]].
      * split; [apply bytes_of_string_byte|]. split; [vm_compute; reflexivity|]. split; [done|]. repeat constructor; cbn; lia.
      * by apply number_read.
      * intros x. by change (167772160 / 2 ^ (32 - 8)) with 10.
    + exists 80. by split; [apply number_read|].
  - exists (Inet (One (bytes_of_string "10.0.0.5")) None), (SHORT_STRING (bytes_of_string "!10.0.0.5")).
    split; [done|]. split; [|done]. exists (fun x => x = 167772165), (fun _ => True). split; [|split; [done|]].
    + exists 167772165. split; [|done].
      split; [apply bytes_of_string_byte|]. split; [vm_compute; reflexivity|]. split; [done|]. repeat constructor; cbn; lia.
    + intros [x port| | |]; cbn; tauto.
Defined.
