(* ===== verification/Var.v ===== *)
(** * Templates with variables: [src/nxt_var.c]

    A template is text with variables, [$name] or [${name}].  It is compiled
    once into the places of its variables; the interpreter asks for the values,
    which are cached per request, adds up their lengths, takes that much memory
    and copies.  The file has the code; VarSpec.v shows what it computes. *)

From stdpp Require Import gmap.
From S2P Require Import Prelude NxtArray Lvlhsh ConfHash Heap Murmur VarEscape.

#[local] Open Scope Z_scope.

(** A [nxt_str_t]; [None] has the start [NULL] and the length 0. *)
Abbreviation nxt_str := (option (list Z)).

Abbreviation DOLLAR := 36 (only parsing).

(** ** The lexer *)

Definition name_char (ch : Z) : bool :=
  let c := Z.lor ch 0x20 in
  (CH_a <=? c) && (c <=? CH_z) || (ch =? UNDERSCORE).

(** The loop over the name, on the text from [p] to the end. *)
Fixpoint name_loop (s : list Z) (p : nat) (length : nat) (bracket : bool) : nat * nat * bool :=
  match s with
  | [] => (p, length, bracket)
  | ch :: s =>
      if name_char ch then name_loop s (S p) (S length) bracket
      else if bracket && (ch =? RBRACE) then (S p, length, false) else (p, length, bracket)
  end.

(** The name of a variable that starts at [start]. *)
Definition var_name (b : list Z) (start end_ : nat) (bracket : bool) : option (nat * option (nat * nat)) :=
  let '(p, length, bracket) := name_loop (window b start end_) start 0 bracket in
  if bracket || (length =? 0)%nat then None else Some (p, Some (start, length)).

(** The end of the part that starts at [start], and the name when it is a
    variable; [None] for [NULL]. *)
Definition nxt_var_next_part (b : list Z) (start end_ : nat) : outcome (option (nat * option (nat * nat))) :=
  match memchr (window b start end_) DOLLAR with
  | Some O =>
      let p := S start in
      if (p =? end_)%nat then Ret None
      else
        let* c := of_option (b !! p) in
        if c =? LBRACE then
          if (end_ - p <? 2)%nat then Ret None else Ret (var_name b (S p) end_ true)
        else Ret (var_name b p end_ false)
  | Some n => Ret (Some ((start + n)%nat, None))
  | None => Ret (Some (end_, None))
  end.

(** ** What the code is used with *)

(** The module that knows variables by their names, and the requests whose
    variables it reads: [run_handler] is the call of a handler, [in_pool] takes
    memory of the request. *)
Class VarHost := {
  handler : Type;
  vdata : Type;
  vstate : Type;
  vctx : Type;
  unknown_var_ref : (nat -> bool) -> list Z -> Alloc (option (handler * bool * vdata));
  run_handler : (nat -> bool) -> vctx -> handler -> option vdata -> ST vstate (option nxt_str);
  in_pool : forall {A}, Alloc A -> ST vstate A
}.

Section Var.
Context {VH : VarHost} (alloc : nat -> bool).

Record nxt_var_decl := Decl {
  decl_name : list Z;
  decl_handler : handler;
  decl_cacheable : bool
}.

(** The index is [None] while it is not set. *)
Record nxt_var_ref := Ref {
  ref_name : list Z;
  ref_handler : handler;
  ref_data : option vdata;
  ref_index : option Z;
  ref_cacheable : bool
}.

Record nxt_var_sub := Sub { sub_index : Z; sub_length : Z; sub_position : Z }.

(** The raw text and the places of its variables. *)
Record nxt_var := Var { var_raw : list Z; var_subs : list nxt_var_sub }.

(** ** Declared variables *)

Definition nxt_var_hash_test (key : list Z) (d : nxt_var_decl) : bool := bool_decide (decl_name d = key).

Definition nxt_var_hash_find (var_hash : slot nxt_var_decl) (name : list Z) : outcome (option nxt_var_decl) :=
  nxt_lvlhsh_find NXT_LVLHSH_DEFAULT (nxt_djb_hash name) (nxt_var_hash_test name) var_hash.

Fixpoint nxt_var_register (decls : list nxt_var_decl) (var_hash : slot nxt_var_decl) : Alloc (Z * slot nxt_var_decl) :=
  match decls with
  | [] => aret (NXT_OK, var_hash)
  | d :: decls =>
      let key := decl_name d in
      let! (rc, _, var_hash) :=
        nxt_lvlhsh_insert alloc NXT_LVLHSH_DEFAULT (Query d (nxt_djb_hash key) (nxt_var_hash_test key) false) var_hash in
      if negb (rc =? NXT_OK) then aret (NXT_ERROR, var_hash) else nxt_var_register decls var_hash
  end.

(** ** References to variables *)

Context (var_hash : slot nxt_var_decl).

(** [nxt_tstr_state_t]: the references of all templates; an element is [None]
    until it is filled in. *)
Record nxt_tstr_state := Tstr_state { var_refs : nxt_array (option nxt_var_ref) }.

Fixpoint refs_find (refs : list (option nxt_var_ref)) (name : list Z) : outcome (option nxt_var_ref) :=
  match refs with
  | [] => Ret None
  | None :: _ => Fault
  | Some ref :: refs => if bool_decide (ref_name ref = name) then Ret (Some ref) else refs_find refs name
  end.

(** The handler, its data and the name of a new reference, from the pool [mp];
    [state_pool] says that this is the pool of the state. *)
Definition ref_fill (name : list Z) (index : option Z) (state_pool : bool) : Alloc (option nxt_var_ref) :=
  let! decl := alift (nxt_var_hash_find var_hash name) in
  let? (h, cacheable, data) :=
    match decl with
    | Some d => aret (Some (decl_handler d, if state_pool then decl_cacheable d else false, None))
    | None =>
        let? (h, cacheable, data) := unknown_var_ref alloc name in
        aret (Some (h, cacheable, Some data))
    end in
  let! ok := request alloc in
  if negb ok then aret None else aret (Some (Ref name h data index cacheable)).

(** [nxt_var_ref_get(state, name, NULL)]: a new reference is added to those of
    the state. *)
Definition nxt_var_ref_get (st : nxt_tstr_state) (name : list Z) : Alloc (option nxt_var_ref * nxt_tstr_state) :=
  let! found := alift (refs_find (elts (var_refs st)) name) in
  match found with
  | Some ref => aret (Some ref, st)
  | None =>
      let! a := nxt_array_add alloc (var_refs st) None in
      match a with
      | None => aret (None, st)
      | Some a =>
          let i := (length (elts a) - 1)%nat in
          let! ref := ref_fill name (Some (u32 (Z.of_nat i))) true in
          match ref with
          | None => aret (None, Tstr_state a)
          | Some ref => aret (Some ref, Tstr_state (Arr (<[i := Some ref]> (elts a)) (room a) (nalloc a)))
          end
      end
  end.

(** [nxt_var_ref_get(state, name, mp)]: a new reference is made in [mp]. *)
Definition nxt_var_ref_get_in (st : nxt_tstr_state) (name : list Z) : Alloc (option nxt_var_ref) :=
  let! found := alift (refs_find (elts (var_refs st)) name) in
  match found with
  | Some ref => aret (Some ref)
  | None =>
      let! ok := request alloc in
      if negb ok then aret None else ref_fill name None false
  end.

(** ** Compilation *)

(** The loop that counts the variables; [None] for [NULL]. *)
Fixpoint count_loop (fuel : nat) (b : list Z) (p n : nat) : outcome (option nat) :=
  if (length b <=? p)%nat then Ret (Some n)
  else
    match fuel with
    | O => OutOfFuel
    | S fuel =>
        let* r := nxt_var_next_part b p (length b) in
        match r with
        | None => Ret None
        | Some (p, part) => count_loop fuel b p (match part with Some _ => S n | None => n end)
        end
    end.

(** The loop that makes the references. *)
Fixpoint subs_loop (fuel : nat) (b : list Z) (p : nat) (ss : list nxt_var_sub) (st : nxt_tstr_state) :
    Alloc (option (list nxt_var_sub) * nxt_tstr_state) :=
  if (length b <=? p)%nat then aret (Some ss, st)
  else
    match fuel with
    | O => alift OutOfFuel
    | S fuel =>
        let! r := alift (nxt_var_next_part b p (length b)) in
        match r with
        | None => alift Fault
        | Some (next, None) => subs_loop fuel b next ss st
        | Some (next, Some (start, len)) =>
            let! (ref, st) := nxt_var_ref_get st (window b start (start + len)) in
            match ref with
            | None => aret (None, st)
            | Some ref =>
                let! index := alift (of_option (ref_index ref)) in
                subs_loop fuel b next
                  (ss ++ [Sub index (u32 (Z.of_nat (next - p))) (u32 (Z.of_nat p))]) st
            end
        end
    end.

Definition nxt_var_compile (st : nxt_tstr_state) (str : list Z) : Alloc (option nxt_var * nxt_tstr_state) :=
  let! n := alift (count_loop (length str) str 0 0) in
  match n with
  | None => aret (None, st)
  | Some n =>
      let! ok := request alloc in
      if negb ok then aret (None, st)
      else
        let! (ss, st) := subs_loop (length str) str 0 [] st in
        match ss with
        | None => aret (None, st)
        | Some ss => alift (if (n <? length ss)%nat then Fault else Ret (Some (Var str ss), st))
        end
  end.

(** The error of [nxt_var_test()]. *)
Inductive var_error := INVALID_VARIABLE (position : nat) | UNKNOWN_VARIABLE (name : list Z).

Fixpoint var_test_loop (fuel : nat) (b : list Z) (p : nat) (st : nxt_tstr_state) :
    Alloc (option var_error * nxt_tstr_state) :=
  if (length b <=? p)%nat then aret (None, st)
  else
    match fuel with
    | O => alift OutOfFuel
    | S fuel =>
        let! r := alift (nxt_var_next_part b p (length b)) in
        match r with
        | None => aret (Some (INVALID_VARIABLE p), st)
        | Some (next, None) => var_test_loop fuel b next st
        | Some (next, Some (start, len)) =>
            let name := window b start (start + len) in
            let! (ref, st) := nxt_var_ref_get st name in
            match ref with
            | None => aret (Some (UNKNOWN_VARIABLE name), st)
            | Some _ => var_test_loop fuel b next st
            end
        end
    end.

Definition nxt_var_test (st : nxt_tstr_state) (str : list Z) : Alloc (option var_error * nxt_tstr_state) :=
  var_test_loop (length str) str 0 st.

(** ** Values *)

(** The values of a request: [cache_values] are the strings that were taken so far, of
    the array in the cache and then of the pool, and a pointer to one is its
    place.  The hash has pointers; each is shown with the index for which it was
    put there. *)
Record nxt_var_cache := Var_cache {
  cache_hash : slot (Z * nat);
  cache_spare : option nat;
  cache_values : list nxt_str;
  num_inline_values : Z
}.

Definition query_state : Type := nxt_var_cache * vstate.

Definition on_host {A} (m : ST vstate A) : ST query_state A :=
  fun '(c, s) => let* (a, s) := m s in Ret (a, (c, s)).

(** A zeroed string is taken, which becomes the spare one. *)
Definition take_value (inline : bool) : ST query_state nat :=
  fun '(c, s) =>
    let v := length (cache_values c) in
    Ret (v, (Var_cache (cache_hash c) (Some v) (cache_values c ++ [None])
               (if inline then u8 (num_inline_values c + 1) else num_inline_values c), s)).

Definition spare_value : ST query_state (option nat) :=
  fun '(c, s) =>
    match cache_spare c with
    | Some v => Ret (Some v, (c, s))
    | None =>
        (if num_inline_values c <? 8 then let^ v := take_value true in hret (Some v)
         else
           let^ ok := on_host (in_pool (request alloc)) in
           if negb ok then hret None else let^ v := take_value false in hret (Some v)) (c, s)
    end.

Definition nxt_var_cache_test (x : Z * nat) : bool := true.

(** [nxt_lvlhsh_insert(&cache->hash, &lhq)] *)
Definition cache_insert (index : Z) (value : nat) : ST query_state (Z * option (Z * nat)) :=
  fun '(c, s) =>
    (let^ (rc, old, h) :=
       on_host (in_pool (nxt_lvlhsh_insert alloc NXT_LVLHSH_DEFAULT
                           (Query (index, value) (hash_of_uint32 index) nxt_var_cache_test false) (cache_hash c))) in
     fun '(c, s) => Ret ((rc, old), (Var_cache h (cache_spare c) (cache_values c) (num_inline_values c), s))) (c, s).

Context (ctx : vctx).

(** The call of the handler; what a handler that fails leaves in [value] is not
    kept. *)
Definition handler_value (ref : nxt_var_ref) (value : nat) : ST query_state (option nat) :=
  let^ str := on_host (run_handler alloc ctx (ref_handler ref) (ref_data ref)) in
  match str with
  | None => hret None
  | Some str =>
      fun '(c, s) =>
        if (value <? length (cache_values c))%nat
        then Ret (Some value, (Var_cache (cache_hash c) None (<[value := str]> (cache_values c)) (num_inline_values c), s))
        else Fault
  end.

Definition nxt_var_cache_value (ref : nxt_var_ref) : ST query_state (option nat) :=
  let^ v := spare_value in
  match v with
  | None => hret None
  | Some value =>
      if negb (ref_cacheable ref) then handler_value ref value
      else
        match ref_index ref with
        | None => fun _ => Fault
        | Some index =>
            let^ (rc, old) := cache_insert index value in
            if rc =? NXT_ERROR then hret None
            else if rc =? NXT_DECLINED then fun q => let* x := of_option old in Ret (Some x.2, q)
            else handler_value ref value
        end
  end.

(** ** The interpreter *)

Record nxt_var_flags := Var_flags { LOGGING : bool; ESCAPE : bool }.

(** [*value] *)
Definition read_value (value : nat) : ST query_state nxt_str :=
  fun '(c, s) => let* str := of_option (cache_values c !! value) in Ret (str, (c, s)).

(** The first loop: the values and the length of the result. *)
Fixpoint values_loop (refs : list (option nxt_var_ref)) (flags : nxt_var_flags) (ss : list nxt_var_sub)
    (parts : nxt_array nat) (length_ escaped : Z) : ST query_state (option (nxt_array nat * Z * Z)) :=
  match ss with
  | [] => hret (Some (parts, length_, escaped))
  | sub :: ss =>
      fun q =>
        let* ref := of_option (mjoin (refs !! Z.to_nat (sub_index sub))) in
        (let^ v := nxt_var_cache_value ref in
         match v with
         | None => hret None
         | Some value =>
             let^ a := on_host (in_pool (nxt_array_add alloc parts value)) in
             match a with
             | None => hret None
             | Some parts =>
                 let^ str := read_value value in
                 let text := default [] str in
                 let length_ := u64 (length_ - sub_length sub) in
                 fun q =>
                   let* (length_, escaped) :=
                     (if ESCAPE flags then
                        let* size := nxt_var_escape_length text in
                        Ret (u64 (length_ + size), u64 (escaped + u64 (size - Z.of_nat (length text))))
                      else Ret (u64 (length_ + Z.of_nat (length text)), escaped)) in
                   let length_ := if LOGGING flags && negb (bool_decide (is_Some str)) then u64 (length_ + 1) else length_ in
                   values_loop refs flags ss parts length_ escaped q
             end
         end) q
  end.

(** Writing [t] behind [out] in a block of [size] bytes. *)
Definition put_text (size : Z) (out t : list Z) : outcome (list Z) :=
  if size <? Z.of_nat (length (out ++ t)) then Fault else Ret (out ++ t).

(** The text of the template between two variables. *)
Definition put_raw (size : Z) (raw : list Z) (last next : Z) (out : list Z) : outcome (list Z) :=
  if next =? last then Ret out
  else if (last <? next) && (next <=? Z.of_nat (length raw))
  then put_text size out (window raw (Z.to_nat last) (Z.to_nat next)) else Fault.

(** The second loop, which copies; [vs] are the strings. *)
Fixpoint copy_values (size : Z) (raw : list Z) (flags : nxt_var_flags) (vs : list nxt_str)
    (ss : list nxt_var_sub) (parts : list nat) (last : Z) (out : list Z) : outcome (Z * list Z) :=
  match ss, parts with
  | [], _ => Ret (last, out)
  | _ :: _, [] => Fault
  | sub :: ss, value :: parts =>
      let next := sub_position sub in
      let* out := put_raw size raw last next out in
      let* str := of_option (vs !! value) in
      let text := default [] str in
      let* out := (if ESCAPE flags then let* text := nxt_var_escape [] text in put_text size out text else put_text size out text) in
      let* out := (if LOGGING flags && negb (bool_decide (is_Some str)) then put_text size out [MINUS] else Ret out) in
      copy_values size raw flags vs ss parts (u64 (next + sub_length sub)) out
  end.

Definition nxt_var_interpreter (st : nxt_tstr_state) (var : nxt_var) (flags : nxt_var_flags) :
    ST query_state (option (list Z)) :=
  let^ r := values_loop (elts (var_refs st)) flags (var_subs var) (Arr [] 0 0) (Z.of_nat (length (var_raw var))) 0 in
  match r with
  | None => hret None
  | Some (parts, size, escaped) =>
      let flags := if escaped =? 0 then Var_flags (LOGGING flags) false else flags in
      let^ ok := on_host (in_pool (request alloc)) in
      if negb ok then hret None
      else
        fun '(c, s) =>
          let* (last, out) := copy_values size (var_raw var) flags (cache_values c) (var_subs var) (elts parts) 0 [] in
          let* out := put_raw size (var_raw var) last (Z.of_nat (length (var_raw var))) out in
          if Z.of_nat (length out) =? size then Ret (Some out, (c, s)) else Fault
  end.

(** [nxt_var_get()]: the value of one variable, by its name. *)
Definition nxt_var_get (st : nxt_tstr_state) (name : list Z) : ST query_state (option nat) :=
  let^ ref := on_host (in_pool (nxt_var_ref_get_in st name)) in
  match ref with
  | None => hret None
  | Some ref => nxt_var_cache_value ref
  end.

End Var.
