(* ===== verification/VarSpec.v ===== *)
(** * What templates mean

    The grammar of templates and their expansion, and the theorem that the
    compiled template expands to it: the lexer of nxt_var.c reads the grammar,
    references keep their places, the cache returns the value of the variable
    that is asked for, and the two passes of the interpreter agree on the
    length. *)

From stdpp Require Import gmap.
From S2P Require Import Prelude NxtArray Lvlhsh ConfHash Heap Murmur VarEscape Var.

#[local] Open Scope Z_scope.

(** ** The grammar *)

Inductive part :=
| Text (t : list Z)
| Named (name : list Z) (braces : bool).

Definition written (p : part) : list Z :=
  match p with
  | Text t => t
  | Named name true => [DOLLAR; LBRACE] ++ name ++ [RBRACE]
  | Named name false => DOLLAR :: name
  end.

Definition text_of (ps : list part) : list Z := ps ≫= written.

Definition is_name (n : list Z) : Prop := n <> [] /\ forallb name_char n = true.

(** What follows a name without braces does not continue it. *)
Definition ends_name (s : list Z) : Prop := match s with c :: _ => name_char c = false | [] => True end.

(** Text is as long as possible and a name is as well. *)
Fixpoint template (ps : list part) : Prop :=
  match ps with
  | [] => True
  | Text t :: ps => t <> [] /\ DOLLAR ∉ t /\ (forall t' ps', ps <> Text t' :: ps') /\ template ps
  | Named n braces :: ps => is_name n /\ (braces = false -> ends_name (text_of ps)) /\ template ps
  end.

Lemma text_of_cons p ps : text_of (p :: ps) = written p ++ text_of ps.
Proof. reflexivity. Qed.

Lemma memchr_none s c : c ∉ s -> memchr s c = None.
Proof.
  induction s as [|x s IH]; intros Hs; [done|]. apply not_elem_of_cons in Hs as [Hx Hs]. cbn.
  rewrite (proj2 (Z.eqb_neq x c)) by done. by rewrite IH.
Qed.

Lemma memchr_app s c t : c ∉ s -> memchr (s ++ c :: t) c = Some (length s).
Proof.
  induction s as [|x s IH]; intros Hs; cbn; [by rewrite Z.eqb_refl|]. apply not_elem_of_cons in Hs as [Hx Hs].
  rewrite (proj2 (Z.eqb_neq x c)) by done. by rewrite IH.
Qed.

Lemma memchr_split s c n : memchr s c = Some n -> exists a b, s = a ++ c :: b /\ c ∉ a /\ length a = n.
Proof.
  revert n. induction s as [|x s IH]; intros n; [done|]. cbn. destruct (Z.eqb_spec x c) as [->|Hx].
  - intros [= <-]. exists [], s. split_and!; [done|apply not_elem_of_nil|done].
  - destruct (memchr s c) as [k|]; [|done]. intros [= <-]. destruct (IH k eq_refl) as (a & b & -> & Ha & Hl).
    exists (x :: a), b. split_and!; [done| |cbn; lia]. by apply not_elem_of_cons.
Qed.

Lemma memchr_absent s c : memchr s c = None -> c ∉ s.
Proof.
  induction s as [|x s IH]; cbn; [intros _; apply not_elem_of_nil|]. destruct (Z.eqb_spec x c) as [->|Hx]; [done|].
  destruct (memchr s c); [done|]. intros _. apply not_elem_of_cons. by split; [|apply IH].
Qed.

(** ** The lexer *)

Lemma name_loop_name n : forall s p l bracket, forallb name_char n = true ->
  name_loop (n ++ s) p l bracket = name_loop s (p + length n) (l + length n) bracket.
Proof.
  induction n as [|c n IH]; intros s p l bracket Hn; cbn in *; [by rewrite !Nat.add_0_r|].
  apply andb_true_iff in Hn as [-> Hn]. rewrite IH by done. f_equal; lia.
Qed.

(** The longest name in front of a text. *)
Lemma name_split s : exists n r, s = n ++ r /\ forallb name_char n = true /\ ends_name r.
Proof.
  induction s as [|c s (n & r & -> & Hn & Hr)]; [by exists [], []|]. destruct (name_char c) eqn:E.
  - exists (c :: n), r. cbn. by rewrite E.
  - by exists [], (c :: n ++ r).
Qed.

Lemma name_loop_stop s p l bracket : ends_name s ->
  name_loop s p l bracket =
  match s with c :: _ => if bracket && (c =? RBRACE) then (S p, l, false) else (p, l, bracket) | [] => (p, l, bracket) end.
Proof. destruct s as [|c s]; [done|]. cbn. by intros ->. Qed.

Lemma rbrace_ends s : ends_name (RBRACE :: s).
Proof. reflexivity. Qed.

(** The part at [p] of the text [b]. *)
Definition part_at (b : list Z) (p : nat) : outcome (option (nat * option (nat * nat))) := nxt_var_next_part b p (length b).

Lemma part_at_window b p : window b p (length b) = drop p b.
Proof. by apply window_to_end. Qed.

Lemma part_text b p t s : drop p b = t ++ s -> t <> [] -> DOLLAR ∉ t -> (s = [] \/ exists s', s = DOLLAR :: s') ->
  part_at b p = Ret (Some ((p + length t)%nat, None)).
Proof.
  intros Hb Ht Hd Hs. unfold part_at, nxt_var_next_part. rewrite part_at_window, Hb.
  assert (Hl : (length b - p = length t + length s)%nat) by (rewrite <- length_drop, Hb, length_app; done).
  destruct t as [|c t]; [done|]. destruct Hs as [->|[s' ->]].
  - rewrite app_nil_r, memchr_none by done. cbn in *. do 3 f_equal. lia.
  - rewrite memchr_app by done. done.
Qed.

Lemma part_var b p n braces s : drop p b = written (Named n braces) ++ s -> is_name n -> (braces = false -> ends_name s) ->
  part_at b p = Ret (Some ((p + length (written (Named n braces)))%nat,
                     Some ((p + if braces then 2 else 1)%nat, length n))).
Proof.
  intros Hb [Hn Hc] Hs. unfold part_at, nxt_var_next_part. rewrite part_at_window, Hb.
  assert (Hw : memchr (written (Named n braces) ++ s) DOLLAR = Some 0%nat) by by destruct braces.
  rewrite Hw. assert (Hl : (length b - p = length (written (Named n braces)) + length s)%nat)
    by (rewrite <- length_drop, Hb, length_app; done).
  assert (Hn1 : (1 <= length n)%nat) by (destruct n; [done|cbn; lia]).
  assert (Hd1 : drop (S p) b = drop 1 (written (Named n braces) ++ s)) by (by rewrite <- Hb, drop_drop, Nat.add_1_r).
  destruct braces; cbn [written] in *.
  - cbn [app length] in Hl. rewrite length_app in Hl. cbn [length] in Hl.
    replace (drop 1 _) with (LBRACE :: n ++ RBRACE :: s) in Hd1 by (cbn; by rewrite <- app_assoc).
    rewrite (proj2 (Nat.eqb_neq _ _)) by lia. destruct (drop_cons_inv _ _ _ _ Hd1) as [-> Hd2]. cbn [of_option obind].
    rewrite Z.eqb_refl, (proj2 (Nat.ltb_ge _ _)) by lia. unfold var_name. rewrite part_at_window, Hd2, name_loop_name by done. rewrite name_loop_stop by apply rbrace_ends. cbn -[Nat.add].
    rewrite (proj2 (Nat.eqb_neq _ _)) by lia. do 3 f_equal; [cbn; rewrite length_app; cbn; lia|]. f_equal. f_equal. lia.
  - cbn [length] in Hl. rewrite (proj2 (Nat.eqb_neq _ _)) by lia. destruct n as [|c n]; [done|].
    change (drop 1 _) with (c :: n ++ s) in Hd1. destruct (drop_cons_inv _ _ _ _ Hd1) as [-> _]. cbn [of_option obind].
    assert (Hcc : c <> LBRACE) by (intros ->; done). rewrite (proj2 (Z.eqb_neq _ _)) by done.
    unfold var_name. rewrite part_at_window, Hd1, app_comm_cons, name_loop_name by done.
    rewrite name_loop_stop by auto. replace (match s with | [] => _ | c :: _ => _ end) with ((S p + length (c :: n))%nat, (0 + length (c :: n))%nat, false) by by destruct s.
    cbn -[Nat.add]. rewrite (proj2 (Nat.eqb_neq _ _)) by lia. do 3 f_equal; [cbn; lia|]. f_equal. f_equal. lia.
Qed.

(** A template that is not empty has a first part. *)
Lemma text_of_dollar ps : template ps -> (forall t' ps', ps <> Text t' :: ps') ->
  text_of ps = [] \/ exists s', text_of ps = DOLLAR :: s'.
Proof.
  destruct ps as [|[t|n [|]] ps]; intros Ht Hn; [by left|by destruct (Hn t ps)|right; by eexists..].
Qed.

Lemma part_some b p ps : template ps -> ps <> [] -> drop p b = text_of ps -> exists x, part_at b p = Ret (Some x).
Proof.
  intros Ht Hne Hb. destruct ps as [|[t|n braces] ps]; [done|..]; rewrite text_of_cons in Hb.
  - destruct Ht as (Ht & Hd & Hn & Hps). eexists. eapply part_text; [exact Hb|done|done|]. by apply text_of_dollar.
  - destruct Ht as (Hn & He & _). eexists. by eapply part_var.
Qed.

(** What the lexer returns, on any text. *)
Definition part_result (b : list Z) (p : nat) (r : option (nat * option (nat * nat))) : Prop :=
  match r with
  | Some (next, None) => exists t s, drop p b = t ++ s /\ t <> [] /\ DOLLAR ∉ t /\ (s = [] \/ exists s', s = DOLLAR :: s')
      /\ next = (p + length t)%nat
  | Some (next, Some (start, len)) => exists n braces s, drop p b = written (Named n braces) ++ s /\ is_name n
      /\ (braces = false -> ends_name s) /\ next = (p + length (written (Named n braces)))%nat
      /\ start = (p + if braces then 2 else 1)%nat /\ len = length n
  | None => forall ps, template ps -> text_of ps <> drop p b
  end.

Lemma var_name_cases b start bracket : exists n q, drop start b = n ++ q /\ forallb name_char n = true /\ ends_name q /\
  var_name b start (length b) bracket =
  if (length n =? 0)%nat then None
  else if bracket then match q with c :: _ => if c =? RBRACE then Some (start + S (length n), Some (start, length n))%nat else None | [] => None end
  else Some (start + length n, Some (start, length n))%nat.
Proof.
  destruct (name_split (drop start b)) as (n & q & E & Hn & Hq). exists n, q. split_and!; [done..|].
  unfold var_name. rewrite part_at_window, E, name_loop_name, name_loop_stop by done.
  destruct q as [|c q], bracket; cbn [andb orb]; [by destruct (length n =? 0)%nat| |destruct (c =? RBRACE)|]; cbn [orb];
    rewrite ?Nat.add_0_l; destruct (length n =? 0)%nat; try done. do 2 f_equal. lia.
Qed.

Lemma part_at_cases b p : (p < length b)%nat -> exists r, part_at b p = Ret r /\ part_result b p r.
Proof.
  intros Hp. assert (Hnone : forall r, part_at b p = Ret r -> match r with None => part_result b p r | Some _ => True end).
  { intros [x|] E; [done|]. intros ps Ht Hps. destruct (part_some b p ps) as [x E']; [done| |done|by rewrite E in E'].
    intros ->. apply (f_equal length) in Hps. rewrite length_drop in Hps. cbn in Hps. lia. }
  destruct (memchr (drop p b) DOLLAR) as [[|n]|] eqn:Em.
  - destruct (memchr_split _ _ _ Em) as (a & r & E & _ & Ha). apply nil_length_inv in Ha as ->. cbn [app] in E.
    destruct (drop_cons_inv _ _ _ _ E) as [_ Er]. unfold part_at, nxt_var_next_part in *. rewrite part_at_window, Em in *.
    destruct (S p =? length b)%nat eqn:Ee; zbool; [exists None; split; [done|]; exact (Hnone None eq_refl)|].
    destruct (b !! S p) as [c|] eqn:Ec; [|apply lookup_ge_None in Ec; lia]. cbn [of_option obind] in *.
    rewrite (drop_lookup_cons _ _ _ Ec) in Er. destruct (Z.eqb_spec c LBRACE) as [->|Hc].
    + destruct (length b - S p <? 2)%nat; [exists None; split; [done|]; exact (Hnone None eq_refl)|].
      eexists. split; [done|]. specialize (Hnone _ eq_refl).
      destruct (var_name_cases b (S (S p)) true) as (n & q & En & Hn & Hq & Ev). rewrite Ev in *.
      destruct (length n =? 0)%nat eqn:El; [done|]. destruct q as [|x q]; [done|]. destruct (Z.eqb_spec x RBRACE) as [->|]; [|done].
      zbool. exists n, true, q. rewrite E, <- Er, En. cbn. rewrite <- app_assoc, length_app. cbn.
      split_and!; [done|split; [by intros ->|done]|done|lia|lia|done].
    + eexists. split; [done|]. specialize (Hnone _ eq_refl).
      destruct (var_name_cases b (S p) false) as (n & q & En & Hn & Hq & Ev). rewrite Ev in *.
      destruct (length n =? 0)%nat eqn:El; [done|]. zbool. exists n, false, q.
      rewrite E, <- Er, <- (drop_lookup_cons _ _ _ Ec), En. cbn.
      split_and!; [done|split; [by intros ->|done]|done|lia|lia|done].
  - destruct (memchr_split _ _ _ Em) as (a & r & E & Ha & Hl). destruct a as [|x a]; [done|].
    eexists. split; [eapply part_text; [exact E|done|done|right; by eexists]|]. exists (x :: a), (DOLLAR :: r).
    split_and!; [done..|right; by eexists|done].
  - apply memchr_absent in Em. assert (drop p b <> []) by (intros H; apply drop_nil_ge in H; lia).
    eexists. split; [apply (part_text b p (drop p b) []); [by rewrite app_nil_r|done|done|by left]|].
    exists (drop p b), []. rewrite app_nil_r. split_and!; [done..|by left|done].
Qed.

(** The lexer reads the first part [p0] of the text from [p] on. *)
Record first (b : list Z) (p next : nat) (at_ : option (nat * nat)) (p0 : part) : Prop := {
  first_next : next = (p + length (written p0))%nat;
  first_text : drop p b = written p0 ++ drop next b;
  first_part : match p0, at_ with
               | Text _, None => True
               | Named n braces, Some (start, len) => start = (p + if braces then 2 else 1)%nat /\ window b start (start + len) = n
               | _, _ => False
               end
}.

Lemma part_window b p n braces s : drop p b = written (Named n braces) ++ s ->
  window b (p + if braces then 2 else 1) ((p + if braces then 2 else 1) + length n) = n.
Proof.
  intros Hb. unfold window. rewrite skipn_firstn_comm. replace (_ + _ - _)%nat with (length n) by lia.
  rewrite <- drop_drop, Hb. destruct braces.
  - change (drop 2 _) with ((n ++ [RBRACE]) ++ s). by rewrite <- app_assoc, take_app_length.
  - change (drop 1 _) with (n ++ s). by rewrite take_app_length.
Qed.

Lemma part_at_first b p p0 s : drop p b = written p0 ++ s ->
  (forall ps, text_of ps = s -> template ps -> template (p0 :: ps)) -> (exists ps, text_of ps = s /\ template ps) ->
  exists part, part_at b p = Ret (Some ((p + length (written p0))%nat, part)) /\ first b p (p + length (written p0)) part p0.
Proof.
  intros Hb Ht (ps & Hs & Hps). specialize (Ht ps Hs Hps). assert (Hd : drop p b = written p0 ++ drop (p + length (written p0)) b).
  { by rewrite <- drop_drop, Hb, drop_app_length. }
  destruct p0 as [t|n braces]; cbn [template] in Ht.
  - destruct Ht as (Hne & Hd1 & Hn & _). exists None. split; [|by split].
    eapply part_text; [exact Hb|done|done|]. rewrite <- Hs. by apply text_of_dollar.
  - destruct Ht as (Hn & He & _). rewrite Hs in He. eexists. split; [exact (part_var b p n braces s Hb Hn He)|]. split; [done|done|].
    split; [done|]. by eapply part_window.
Qed.

Lemma first_same b p next part next' part' p0 p1 :
  part_at b p = Ret (Some (next, part)) -> part_at b p = Ret (Some (next', part')) ->
  first b p next part p0 -> first b p next' part' p1 -> p0 = p1.
Proof.
  intros E E' [Hn Ht Hp] [Hn' Ht' Hp']. rewrite E in E'. injection E' as <- <-.
  rewrite Ht in Ht'. apply app_inj_1 in Ht' as [Hw _]; [|lia].
  destruct p0 as [t|n br], p1 as [t'|n' br'], part as [[st len]|]; try done; [by f_equal|].
  destruct Hp as [-> <-], Hp' as [He <-]. destruct br, br'; try lia; done.
Qed.

Lemma first_ok b p next part : (p < length b)%nat -> part_at b p = Ret (Some (next, part)) ->
  exists p0, first b p next part p0 /\ (p < next <= length b)%nat /\
    (forall ps, template ps -> text_of ps = drop next b -> template (p0 :: ps)) /\
    (forall ps, template ps -> text_of ps = drop p b -> exists ps', ps = p0 :: ps' /\ template ps' /\ text_of ps' = drop next b).
Proof.
  intros Hp E. destruct (part_at_cases b p Hp) as (r & E' & Hr). rewrite E in E'. injection E' as <-.
  assert (Hlen : forall p0, first b p next part p0 -> written p0 <> [] -> (p < next <= length b)%nat).
  { intros p0 [Hn Ht _] Hne. assert (length (written p0) <> 0)%nat by by destruct (written p0).
    apply (f_equal length) in Ht. rewrite length_app, !length_drop in Ht. lia. }
  assert (Hf : exists p0, first b p next part p0 /\ written p0 <> [] /\
    (forall ps, template ps -> text_of ps = drop next b -> template (p0 :: ps))).
  { destruct part as [[st len]|]; cbn in Hr.
    - destruct Hr as (n & br & s & Hb & Hn & He & -> & -> & ->). exists (Named n br). split_and!; [split|by destruct br|].
      + done.
      + by rewrite <- drop_drop, Hb, drop_app_length.
      + split; [done|]. by eapply part_window.
      + intros ps Hps Ht. split_and!; [done| |done]. rewrite Ht, <- drop_drop, Hb, drop_app_length. done.
    - destruct Hr as (t & s & Hb & Hne & Hd & Hs & ->). exists (Text t). split_and!; [split|done|].
      + done.
      + by cbn; rewrite <- drop_drop, Hb, drop_app_length.
      + done.
      + intros ps Hps Ht. split_and!; [done..| |done]. intros t' ps' ->. cbn in Hps. destruct Hps as (Hne' & Hd' & _).
        rewrite <- drop_drop, Hb, drop_app_length in Ht. cbn in Ht. destruct t' as [|c t']; [done|].
        destruct Hs as [->|[s' ->]]; [done|]. injection Ht as -> _. apply not_elem_of_cons in Hd' as [? _]. done. }
  destruct Hf as (p0 & Hf & Hne & Hcons). exists p0. split_and!; [done|by eapply Hlen|by eapply Hlen|done|].
  intros ps Hps Ht. destruct ps as [|p1 ps].
  { apply (f_equal length) in Ht. rewrite length_drop in Ht. cbn in Ht. lia. }
  rewrite text_of_cons in Ht. destruct (part_at_first b p p1 (text_of ps)) as (part' & E' & Hf'); [done| |by exists ps; destruct p1; naive_solver|].
  - intros ps1 E1 H1. destruct p1 as [t|n br]; cbn in Hps |- *; [|rewrite E1; naive_solver].
    destruct Hps as (H2 & H3 & H4 & H5). split_and!; [done..| |done]. intros t' ps' ->. cbn in H1, E1. destruct H1 as (H6 & H7 & _).
    destruct (text_of_dollar ps H5 H4) as [E0|[s' E0]]; rewrite E0 in E1; destruct t' as [|c t']; try done.
    injection E1 as -> _. apply not_elem_of_cons in H7 as [? _]. done.
  - pose proof (first_same _ _ _ _ _ _ _ _ E E' Hf Hf') as <-. exists ps. split; [done|].
    split; [destruct p0; naive_solver|]. destruct Hf as [_ Ht0 _]. rewrite Ht0 in Ht. by apply app_inv_head in Ht.
Qed.

(** ** The host *)

(** What templates rely on: names are resolved, handlers return the values of
    the variables or memory is short, and neither changes what the variables
    mean.  [view] is the request as it is written down. *)
Class VarHostSpec (VH : VarHost) := {
  var_decls : list nxt_var_decl;
  var_unknown : list Z -> option (handler * bool * vdata);
  view : Type;
  view_ctx : view -> vctx;
  host_ok : (nat -> bool) -> view -> vstate -> Prop;
  host_value : view -> handler -> option vdata -> nxt_str;
  resolve (name : list Z) : option (handler * bool * option vdata) :=
    match list_find (fun d => decl_name d = name) var_decls with
    | Some (_, d) => Some (decl_handler d, decl_cacheable d, None)
    | None => (fun '(h, c, d) => (h, c, Some d)) <$> var_unknown name
    end;
  decls_nodup : NoDup (decl_name <$> var_decls);
  unknown_ok : forall alloc name k, is_name name ->
    exists r k', unknown_var_ref alloc name k = Ret (r, k') /\
    match r with Some x => var_unknown name = Some x | None => var_unknown name = None \/ exists j, alloc j = false end;
  run_ok : forall alloc w s name h c d, is_name name -> resolve name = Some (h, c, d) -> host_ok alloc w s ->
    wp (run_handler alloc (view_ctx w) h d) (fun r s' => host_ok alloc w s' /\
      match r with Some v => v = host_value w h d | None => exists j, alloc j = false end) s;
  value_byte : forall alloc w s name h c d, is_name name -> resolve name = Some (h, c, d) -> host_ok alloc w s ->
    Forall byte (default [] (host_value w h d)) /\ Z.of_nat (length (default [] (host_value w h d))) < 2 ^ 32;
  pool_ok : forall alloc {A} (m : Alloc A) (Q : A -> Prop) w s,
    (forall k, exists a k', m k = Ret (a, k') /\ Q a) -> host_ok alloc w s ->
    wp (in_pool m) (fun a s' => Q a /\ host_ok alloc w s') s
}.

Section Refs.
Context {VH : VarHost} {VS : VarHostSpec VH} (alloc : nat -> bool).

Abbreviation nomem := (exists j, alloc j = false).

Definition decls_map : gmap (list Z) nxt_var_decl := list_to_map ((fun d => (decl_name d, d)) <$> var_decls).

Definition var_hash_ok (var_hash : slot nxt_var_decl) : Prop :=
  rep decl_name nxt_djb_hash NXT_LVLHSH_DEFAULT var_hash decls_map.

(** *** Registration *)

Lemma register_ok decls : forall h m k, NoDup (decl_name <$> decls) ->
  (forall d, d ∈ decls -> m !! decl_name d = None) -> rep decl_name nxt_djb_hash NXT_LVLHSH_DEFAULT h m ->
  exists rc h' k', nxt_var_register alloc decls h k = Ret ((rc, h'), k') /\
    ((rc = NXT_OK /\ rep decl_name nxt_djb_hash NXT_LVLHSH_DEFAULT h' (list_to_map ((fun d => (decl_name d, d)) <$> decls) ∪ m))
     \/ (rc = NXT_ERROR /\ nomem)).
Proof.
  induction decls as [|d decls IH]; intros h m k Hnd Hm Hrep; cbn [nxt_var_register].
  { eexists _, _, _. split; [done|]. left. split; [done|]. cbn. by rewrite map_empty_union. }
  cbn in Hnd. apply NoDup_cons in Hnd as [Hd Hnd]. unfold abind.
  destruct (rep_inserted decl_name nxt_djb_hash alloc NXT_LVLHSH_DEFAULT h m d false k hash_proto_ok Hrep)
    as (rc & old & h1 & m1 & k1 & Hi & Hk & Hrep1 & Hold & Hr).
  change (nxt_var_hash_test (decl_name d)) with (same_key decl_name (decl_name d)). rewrite Hi. cbn [obind].
  rewrite Hm in Hr by (apply elem_of_cons; by left). destruct Hr as [[-> ->]|(-> & -> & j & _ & Hj)].
  - cbn. destruct (IH h1 (<[decl_name d := d]> m) k1) as (rc & h' & k' & E & Hr); [done| |done|].
    + intros d' Hd'. rewrite lookup_insert_ne; [apply Hm; apply elem_of_cons; by right|].
      intros E. apply Hd. rewrite E. by apply list_elem_of_fmap_2.
    + exists rc, h', k'. split; [done|]. destruct Hr as [[-> Hr]|Hr]; [left|by right]. split; [done|].
      rewrite <- insert_union_r in Hr; [by rewrite <- insert_union_l|].
      apply not_elem_of_list_to_map_1. rewrite <- list_fmap_compose. done.
  - eexists _, _, _. split; [done|]. right. split; [done|]. by exists j.
Qed.

(** The variables are registered once, or memory is short. *)
Lemma nxt_var_register_ok k : exists rc h k', nxt_var_register alloc var_decls Null k = Ret ((rc, h), k') /\
  ((rc = NXT_OK /\ var_hash_ok h) \/ (rc = NXT_ERROR /\ nomem)).
Proof.
  destruct (register_ok var_decls Null ∅ k) as (rc & h & k' & E & Hr); [apply decls_nodup|done|apply rep_empty|].
  rewrite map_union_empty in Hr. by exists rc, h, k'.
Qed.

Lemma decls_map_lookup name : decls_map !! name = snd <$> list_find (fun d => decl_name d = name) var_decls.
Proof.
  unfold decls_map. pose proof decls_nodup as Hnd. induction var_decls as [|d l IH]; [done|].
  cbn in *. apply NoDup_cons in Hnd as [Hd Hnd]. destruct (decide (decl_name d = name)) as [<-|Hne].
  - by rewrite lookup_insert_eq.
  - rewrite lookup_insert_ne by done. rewrite IH by done. by destruct (list_find _ l) as [[? ?]|].
Qed.

(** *** References *)

Context (var_hash : slot nxt_var_decl) (Hvh : var_hash_ok var_hash).

Definition ref_means (ref : nxt_var_ref) : Prop :=
  is_name (ref_name ref) /\ resolve (ref_name ref) = Some (ref_handler ref, ref_cacheable ref, ref_data ref).

(** Every reference is filled in, and its index is its place. *)
Record refs_ok (st : nxt_tstr_state) : Prop := {
  ro_array : array_ok (var_refs st);
  ro_refs : forall i x, elts (var_refs st) !! i = Some x ->
    exists ref, x = Some ref /\ ref_index ref = Some (Z.of_nat i) /\ ref_means ref
}.

Lemma refs_find_ok l name :
  (forall i x, l !! i = Some x -> exists ref, x = Some ref) ->
  exists r, refs_find l name = Ret r /\
    match r with Some ref => ref_name ref = name /\ exists i, l !! i = Some (Some ref) | None => True end.
Proof.
  induction l as [|x l IH]; intros Hl; [by exists None|]. destruct (Hl 0%nat x eq_refl) as [ref ->]. cbn.
  case_bool_decide as E; [exists (Some ref); split; [done|]; split; [done|]; by exists 0%nat|].
  destruct IH as (r & -> & Hr); [intros i y Hy; exact (Hl (S i) y Hy)|]. exists r. split; [done|].
  destruct r as [r|]; [|done]. destruct Hr as [Hr [i Hi]]. split; [done|]. by exists (S i).
Qed.

Lemma hash_find_ok name :
  nxt_var_hash_find var_hash name = Ret (snd <$> list_find (fun d => decl_name d = name) var_decls).
Proof. unfold nxt_var_hash_find. rewrite <- decls_map_lookup. by apply (rep_find decl_name nxt_djb_hash). Qed.

Lemma ref_fill_ok name index k : is_name name -> exists r k', ref_fill alloc var_hash name index true k = Ret (r, k') /\
  match r with
  | Some ref => ref_name ref = name /\ ref_index ref = index /\ ref_means ref
  | None => resolve name = None \/ nomem
  end.
Proof.
  intros Hn. unfold ref_fill, abind, astep, alift. rewrite hash_find_ok. cbn [obind].
  assert (Hend : forall h c d k, resolve name = Some (h, c, d) -> exists r k', (let! ok := request alloc in
    if negb ok then aret None else aret (Some (Ref name h d index c))) k = Ret (r, k') /\
    match r with
    | Some ref => ref_name ref = name /\ ref_index ref = index /\ ref_means ref
    | None => resolve name = None \/ nomem end).
  { intros h c d k0 Hr. unfold abind, request. cbn. destruct (alloc k0) eqn:E; cbn.
    - eexists _, _. split; [done|]. by split_and!; [..|split].
    - eexists _, _. split; [done|]. right. by exists k0. }
  destruct (list_find _ var_decls) as [[i d]|] eqn:E; cbn.
  - apply Hend. unfold resolve. by rewrite E.
  - unfold abind. destruct (unknown_ok alloc name k Hn) as (r & k1 & -> & Hr). cbn. destruct r as [[[h c] d]|]; cbn.
    + apply Hend. unfold resolve. by rewrite E, Hr.
    + eexists _, _. split; [done|]. unfold resolve. rewrite E. destruct Hr as [->|Hr]; [by left|by right].
Qed.

Definition extends (st st' : nxt_tstr_state) : Prop := elts (var_refs st) `prefix_of` elts (var_refs st').

#[export] Instance extends_preorder : PreOrder extends.
Proof. unfold extends. split; [intros ?; reflexivity|intros ? ? ? ? ?; by etrans]. Qed.

Abbreviation nrefs st := (length (elts (var_refs st))).

Lemma ref_get_ok st name k : refs_ok st -> is_name name -> Z.of_nat (nrefs st) <= 43690 ->
  exists r st' k', nxt_var_ref_get alloc var_hash st name k = Ret ((r, st'), k') /\
  match r with
  | Some ref => refs_ok st' /\ extends st st' /\ (nrefs st' <= S (nrefs st))%nat /\ ref_name ref = name
      /\ exists i, ref_index ref = Some (Z.of_nat i) /\ elts (var_refs st') !! i = Some (Some ref)
  | None => resolve name = None \/ nomem
  end.
Proof.
  intros [Ha Hr] Hn Hlen. unfold nxt_var_ref_get, abind, alift.
  destruct (refs_find_ok (elts (var_refs st)) name) as (r & -> & Hf); [intros i x Hx; destruct (Hr i x Hx) as (ref & -> & _); by eexists|].
  cbn [obind]. destruct r as [ref|].
  { destruct Hf as [Hf [i Hi]]. eexists _, _, _. split; [done|]. cbn. destruct (Hr i _ Hi) as (ref' & [= <-] & Hx & _).
    split_and!; [by split|reflexivity|lia|done|]. by exists i. }
  destruct (add_ok alloc (var_refs st) None k Ha Hlen) as (a & k1 & -> & Hadd). cbn [obind].
  destruct a as [a|]; [|destruct Hadd as (j & _ & Hj); eexists _, _, _; split; [done|]; right; by exists j].
  destruct Hadd as [He Haok]. destruct (ref_fill_ok name (Some (u32 (Z.of_nat (length (elts a) - 1)))) k1 Hn) as (rf & k2 & -> & Hfill).
  cbn [obind]. destruct rf as [ref|]; [|by eexists _, _, _].
  eexists _, _, _. split; [done|]. cbn [var_refs elts]. destruct Hfill as (Hname & Hi & Hm).
  assert (Hi0 : (length (elts a) - 1)%nat = nrefs st) by (rewrite He, length_app; cbn; lia). rewrite Hi0, He in *.
  rewrite (insert_app_r_alt _ _ (nrefs st)), Nat.sub_diag by lia. cbn [list_insert insert].
  assert (Hu : u32 (Z.of_nat (nrefs st)) = Z.of_nat (nrefs st)) by (unfold u32; rewrite Z.mod_small; lia).
  rewrite Hu in Hi. split_and!.
  - split; cbn [var_refs elts].
    + destruct Haok as (H1 & H2 & H3). split_and!; cbn [nalloc room elts]; [done| |done]. rewrite He in H2. rewrite length_app in *. cbn in *. lia.
    + intros i x Hx. destruct (decide (i < nrefs st)%nat) as [Hlt|Hge].
      * rewrite lookup_app_l in Hx by done. by apply Hr.
      * rewrite lookup_app_r in Hx by lia. destruct (i - nrefs st)%nat eqn:E; [|by destruct n]. injection Hx as <-.
        assert (i = nrefs st) as -> by lia. by exists ref.
  - by exists [Some ref].
  - rewrite length_app. cbn. lia.
  - done.
  - exists (nrefs st). split; [done|]. by rewrite lookup_app_r, Nat.sub_diag by lia.
Qed.

(** *** Compilation *)

Definition names (ps : list part) : list (list Z) :=
  omap (fun p => match p with Named n _ => Some n | Text _ => None end) ps.

(** The number of variables is at most that of the dollar signs. *)
Definition dollars (s : list Z) : nat := length (filter (fun c => c = DOLLAR) s).

Lemma dollars_app s t : dollars (s ++ t) = (dollars s + dollars t)%nat.
Proof. unfold dollars. by rewrite filter_app, length_app. Qed.

Lemma dollars_named n br : (1 <= dollars (written (Named n br)))%nat.
Proof. destruct br; cbn [written app]; unfold dollars; rewrite filter_cons_True by done; cbn [length]; lia. Qed.

Lemma names_dollars ps : (length (names ps) <= dollars (text_of ps))%nat.
Proof.
  induction ps as [|p ps IH]; [done|]. rewrite text_of_cons, dollars_app. destruct p as [t|n br].
  - change (names (Text t :: ps)) with (names ps). lia.
  - change (names (Named n br :: ps)) with (n :: names ps). pose proof (dollars_named n br). cbn [length]. lia.
Qed.

(** The variables of a template at their places in the text. *)
Inductive places (refs : list (option nxt_var_ref)) : nat -> list part -> list nxt_var_sub -> Prop :=
| places_nil p : places refs p [] []
| places_text p t ps ss : places refs (p + length t) ps ss -> places refs p (Text t :: ps) ss
| places_var p n br ps ss i ref :
    refs !! i = Some (Some ref) -> ref_name ref = n -> places refs (p + length (written (Named n br))) ps ss ->
    places refs p (Named n br :: ps) (Sub (Z.of_nat i) (Z.of_nat (length (written (Named n br)))) (Z.of_nat p) :: ss).

Lemma places_extend refs refs' p ps ss : refs `prefix_of` refs' -> places refs p ps ss -> places refs' p ps ss.
Proof.
  intros Hp H. induction H; [constructor|by constructor|]. econstructor; [by eapply prefix_lookup_Some|done|done].
Qed.

Lemma places_length refs p ps ss : places refs p ps ss -> length ss = length (names ps).
Proof. induction 1; cbn; [done|done|]. by f_equal. Qed.

Lemma places_resolved st p ps ss n : refs_ok st -> places (elts (var_refs st)) p ps ss -> n ∈ names ps -> is_Some (resolve n).
Proof.
  intros Hok. induction 1 as [p|p t ps ss Hp IH|p m br ps ss i ref Hi Hname Hp IH]; [by intros ?%elem_of_nil|done|].
  change (names (Named m br :: ps)) with (m :: names ps). intros [->|Hin]%elem_of_cons; [|by apply IH].
  destruct (ro_refs _ Hok _ _ Hi) as (ref' & [= <-] & _ & _ & Hm). rewrite Hname in Hm. by rewrite Hm.
Qed.

Lemma count_loop_ok b : forall fuel p n, (p <= length b)%nat -> (length b - p <= fuel)%nat ->
  (exists ps, template ps /\ text_of ps = drop p b /\ count_loop fuel b p n = Ret (Some (n + length (names ps))%nat))
  \/ ((forall ps, template ps -> text_of ps <> drop p b) /\ count_loop fuel b p n = Ret None).
Proof.
  induction fuel as [|fuel IH]; intros p n Hp Hfuel; cbn [count_loop].
  { rewrite (proj2 (Nat.leb_le _ _)) by lia. left. exists []. split_and!; [done|symmetry; by apply drop_ge; lia|by rewrite Nat.add_0_r]. }
  destruct (length b <=? p)%nat eqn:El; zbool.
  { left. exists []. split_and!; [done|symmetry; by apply drop_ge; lia|by rewrite Nat.add_0_r]. }
  destruct (part_at_cases b p El) as (r & E & Hr). pose proof E as E1. unfold part_at in E1. rewrite E1. cbn [obind].
  destruct r as [[next part]|]; [|by right].
  destruct (first_ok b p next part El E) as (p0 & Hf & Hn & Hcons & Hinv).
  edestruct (IH next) as [(ps & Ht & Hps & ->)|[Hno ->]]; [lia|lia| |].
  - left. exists (p0 :: ps). split_and!; [by apply Hcons|by rewrite text_of_cons, Hps, (first_text _ _ _ _ _ Hf)|].
    destruct Hf as [_ _ Hf]. destruct p0, part as [[st len]|]; try done; cbn [names omap list_omap length]; do 2 f_equal; unfold names; lia.
  - right. split; [|done]. intros ps Ht Hps. destruct (Hinv ps Ht Hps) as (ps' & -> & Ht' & Hps'). by eapply Hno.
Qed.

Lemma template_named n br ps : template (Named n br :: ps) -> is_name n.
Proof. by intros [? _]. Qed.

Lemma subs_loop_ok b : Z.of_nat (length b) < 2 ^ 32 -> forall fuel p ps ss st k,
  template ps -> text_of ps = drop p b -> (p <= length b)%nat -> (length b - p <= fuel)%nat ->
  refs_ok st -> Z.of_nat (nrefs st + length (names ps)) <= 43690 ->
  exists r st' k', subs_loop alloc var_hash fuel b p ss st k = Ret ((r, st'), k') /\
  match r with
  | Some ss' => exists ss1, ss' = ss ++ ss1 /\ places (elts (var_refs st')) p ps ss1 /\ refs_ok st' /\ extends st st'
      /\ (nrefs st' <= nrefs st + length (names ps))%nat
  | None => (exists n, n ∈ names ps /\ resolve n = None) \/ nomem
  end.
Proof.
  intros Hb. induction fuel as [|fuel IH]; intros p ps ss st k Ht Hps Hp Hfuel Hok Hlen; cbn [subs_loop].
  all: destruct (length b <=? p)%nat eqn:El; zbool; try lia.
  1,2: rewrite drop_ge in Hps by lia; destruct ps as [|[t|n br] ps];
    [|destruct t; [by destruct Ht|done]|by destruct br].
  1,2: eexists _, _, _; split; [done|]; exists []; rewrite app_nil_r; split_and!; [done|constructor|done|reflexivity|lia].
  destruct ps as [|p0 ps].
  { apply (f_equal length) in Hps. rewrite length_drop in Hps. cbn in Hps. lia. }
  destruct (part_some b p (p0 :: ps) Ht ltac:(done) ltac:(done)) as [[next part] E].
  destruct (first_ok b p next part El E) as (p1 & Hf & Hn & _ & Hinv).
  destruct (Hinv _ Ht Hps) as (ps' & [= <- <-] & Ht' & Hps'). clear Hinv.
  unfold part_at in E. unfold abind at 1, alift at 1. rewrite E. cbn [obind]. destruct Hf as [Hnext Htext Hf].
  destruct p0 as [t|n br], part as [[start len]|]; try done.
  - destruct (IH next ps ss st k Ht' Hps') as (r & st' & k' & -> & Hr); [lia|lia|done|done|].
    exists r, st', k'. split; [done|]. destruct r as [ss'|]; [|by destruct Hr as [(n & ? & ?)|?]; [left; exists n|right]].
    destruct Hr as (ss1 & -> & Hpl & Hok' & Hext & Hgrow). exists ss1. split_and!; [done| |done|done|done]. constructor. by rewrite Hnext in Hpl.
  - destruct Hf as [Hstart Hw]. unfold abind at 1. rewrite Hw. cbn [names omap list_omap length] in Hlen.
    destruct (ref_get_ok st n k Hok (template_named _ _ _ Ht)) as (r & st1 & k1 & -> & Hr); [lia|]. cbn [obind].
    destruct r as [ref|]; [|eexists _, _, _; split; [done|]; destruct Hr as [Hr|Hr]; [left|by right]; exists n; split; [|done]; cbn; by left].
    destruct Hr as (Hok1 & Hext1 & Hn1 & Hname & i & Hi & Hlook). rewrite Hi. unfold abind at 1, alift at 1. cbn [of_option obind].
    edestruct (IH next ps) as (r & st' & k' & -> & Hr); [done|done|lia|lia|done|unfold names in *; lia|].
    exists r, st', k'. split; [done|]. destruct r as [ss'|].
    + destruct Hr as (ss1 & -> & Hpl & Hok' & Hext & Hgrow). eexists. split; [by rewrite <- app_assoc|].
      split_and!; [|done|by etrans|change (names (Named n br :: ps)) with (n :: names ps); cbn [length]; lia].
      cbn [app]. assert (Hu : forall x, (x <= length b)%nat -> u32 (Z.of_nat x) = Z.of_nat x) by (intros x Hx; unfold u32; rewrite Z.mod_small; lia).
      rewrite !Hu by lia. replace (next - p)%nat with (length (written (Named n br))) by lia.
      econstructor; [by eapply prefix_lookup_Some|done|]. by rewrite <- Hnext.
    + destruct Hr as [(n' & ? & ?)|?]; [left|by right]. exists n'. split; [|done]. cbn. by right.
Qed.

(** A text that is a template, of which [r] is what was compiled. *)
Definition unknown_in (str : list Z) : Prop :=
  (forall ps, template ps -> text_of ps <> str) \/
  (exists ps n, template ps /\ text_of ps = str /\ n ∈ names ps /\ resolve n = None).

Lemma compile_ok st str k : refs_ok st -> Z.of_nat (length str) < 2 ^ 32 -> Z.of_nat (nrefs st + dollars str) <= 43690 ->
  exists r st' k', nxt_var_compile alloc var_hash st str k = Ret ((r, st'), k') /\
  match r with
  | Some var => exists ps, template ps /\ text_of ps = str /\ var_raw var = str
      /\ places (elts (var_refs st')) 0 ps (var_subs var) /\ refs_ok st' /\ extends st st'
      /\ (nrefs st' <= nrefs st + length (names ps))%nat
  | None => unknown_in str \/ nomem
  end.
Proof.
  intros Hok Hb Hlen. unfold nxt_var_compile, abind, alift.
  destruct (count_loop_ok str (length str) 0 0) as [(ps & Ht & Hps & ->)|[Hno ->]]; [lia|lia|..]; cbn [obind]; rewrite drop_0 in *.
  2:{ eexists _, _, _. split; [done|]. left. by left. }
  unfold request. cbn [obind]. destruct (alloc k) eqn:Ek; cbn [negb].
  2:{ eexists _, _, _. split; [done|]. right. by exists k. }
  pose proof (names_dollars ps) as Hd. rewrite Hps in Hd.
  destruct (subs_loop_ok str Hb (length str) 0 ps [] st (S k)) as (r & st' & k' & -> & Hr);
    [done|by rewrite drop_0|lia|lia|done|lia|]. cbn [obind]. destruct r as [ss|].
  - destruct Hr as (ss1 & -> & Hpl & Hok' & Hext & Hgrow). rewrite (proj2 (Nat.ltb_ge _ _)).
    2:{ cbn. by rewrite (places_length _ _ _ _ Hpl). }
    eexists _, _, _. split; [done|]. by exists ps.
  - eexists _, _, _. split; [done|]. destruct Hr as [(n & Hn & Hr)|Hr]; [left|by right]. right. by exists ps, n.
Qed.

(** *** The test of a template *)

Lemma dollars_first b p next part p0 : first b p next part p0 ->
  dollars (drop p b) = (dollars (written p0) + dollars (drop next b))%nat.
Proof. intros [_ -> _]. by rewrite dollars_app. Qed.

Definition test_result (s : list Z) (r : option var_error) : Prop :=
  match r with
  | None => exists ps, template ps /\ text_of ps = s /\ forall n, n ∈ names ps -> is_Some (resolve n)
  | Some (INVALID_VARIABLE _) => forall ps, template ps -> text_of ps <> s
  | Some (UNKNOWN_VARIABLE n) => (resolve n = None /\ unknown_in s) \/ nomem
  end.

Lemma var_test_loop_ok b : forall fuel p st k, (p <= length b)%nat -> (length b - p <= fuel)%nat ->
  refs_ok st -> Z.of_nat (nrefs st + dollars (drop p b)) <= 43690 ->
  exists r st' k', var_test_loop alloc var_hash fuel b p st k = Ret ((r, st'), k') /\ test_result (drop p b) r /\
    (r = None -> refs_ok st' /\ extends st st').
Proof.
  induction fuel as [|fuel IH]; intros p st k Hp Hfuel Hok Hlen; cbn [var_test_loop].
  all: destruct (length b <=? p)%nat eqn:El; zbool; try lia.
  1,2: eexists _, _, _; split; [done|]; rewrite drop_ge by lia; split; [|by intros _; split; [|reflexivity]]; exists []; split_and!; [done..|];
    intros n Hn; by apply elem_of_nil in Hn.
  destruct (part_at_cases b p El) as (r & E & Hr). unfold abind at 1, alift at 1. pose proof E as E1. unfold part_at in E1. rewrite E1.
  cbn [obind]. destruct r as [[next part]|]; [|eexists _, _, _; by split].
  destruct (first_ok b p next part El E) as (p0 & Hf & Hn & Hcons & Hinv). pose proof (dollars_first _ _ _ _ _ Hf) as Hd.
  destruct Hf as [Hnext Htext Hf].
  assert (Hstep : forall r, test_result (drop next b) r -> (forall n, n ∈ names [p0] -> is_Some (resolve n)) -> test_result (drop p b) r).
  { intros [[pos|n]|]; cbn [test_result].
    - intros Hno _ ps Ht Hps. destruct (Hinv ps Ht Hps) as (ps' & _ & Ht' & Hps'). by eapply Hno.
    - intros [[Hr0 Hu]|Hm] _; [left|by right]. split; [done|]. destruct Hu as [Hno|(ps & m & Ht & Hps & Hm & Hrm)]; [left|right].
      + intros ps Ht Hps. destruct (Hinv ps Ht Hps) as (ps' & _ & Ht' & Hps'). by eapply Hno.
      + exists (p0 :: ps), m. split_and!; [by apply Hcons|by rewrite text_of_cons, Hps| |done].
        change (p0 :: ps) with ([p0] ++ ps). unfold names in *. rewrite omap_app, elem_of_app. by right.
    - intros (ps & Ht & Hps & Hall) H0. exists (p0 :: ps). split_and!; [by apply Hcons|by rewrite text_of_cons, Hps|].
      intros n Hin. change (p0 :: ps) with ([p0] ++ ps) in Hin. unfold names in Hin. rewrite omap_app, elem_of_app in Hin.
      destruct Hin as [Hin|Hin]; [by apply H0|by apply Hall]. }
  destruct p0 as [t|n br], part as [[start len]|]; try done.
  - destruct (IH next st k) as (r & st' & k' & -> & Hr' & He); [lia|lia|done|lia|]. exists r, st', k'. split_and!; [done| |done].
    apply Hstep; [done|]. intros n Hin. by apply elem_of_nil in Hin.
  - destruct Hf as [_ Hw]. rewrite Hw. unfold abind at 1. pose proof (dollars_named n br).
    assert (Hname : is_name n) by (cbn in Hr; destruct Hr as (n' & br' & s & Hb & Hn' & _ & _ & -> & ->);
      rewrite <- Hw, (part_window _ _ _ _ _ Hb); done).
    destruct (ref_get_ok st n k Hok Hname) as (rf & st1 & k1 & -> & Hrf); [lia|]. cbn [obind].
    destruct rf as [ref|].
    2:{ eexists _, _, _. split_and!; [done| |done]. destruct Hrf as [Hrf|Hrf]; [left|by right]. split; [done|].
        destruct (count_loop_ok b (length b) next 0) as [(ps & Ht & Hps & _)|[Hno _]]; [lia|lia|right|left].
        - exists (Named n br :: ps), n. split_and!; [by apply Hcons|by rewrite text_of_cons, Hps|cbn; by left|done].
        - intros ps Ht Hps. destruct (Hinv ps Ht Hps) as (ps' & _ & Ht' & Hps'). by eapply Hno. }
    destruct Hrf as (Hok1 & Hext1 & Hn1 & Hnm & i & _ & Hi).
    destruct (IH next st1 k1) as (r & st' & k' & -> & Hr' & He); [lia|lia|done|lia|]. exists r, st', k'. split_and!; [done| |].
    + apply Hstep; [done|]. intros m Hin. cbn in Hin. apply list_elem_of_singleton in Hin as ->.
      destruct (ro_refs _ Hok1 _ _ Hi) as (ref' & [= <-] & _ & Hm). destruct Hm as [_ Hm]. rewrite Hnm in Hm. by rewrite Hm.
    + intros Hnone. destruct (He Hnone) as [? ?]. split; [done|by etrans].
Qed.

Lemma test_ok st str k : refs_ok st -> Z.of_nat (nrefs st + dollars str) <= 43690 ->
  exists r st' k', nxt_var_test alloc var_hash st str k = Ret ((r, st'), k') /\ test_result str r /\
    (r = None -> refs_ok st' /\ extends st st').
Proof.
  intros Hok Hlen. unfold nxt_var_test. destruct (var_test_loop_ok str (length str) 0 st k) as (r & st' & k' & -> & Hr);
    [lia|lia|done|by rewrite drop_0|]. rewrite drop_0 in Hr. by exists r, st', k'.
Qed.

End Refs.

(** ** Values *)

Section Values.
Context {VH : VarHost} {VS : VarHostSpec VH} (alloc : nat -> bool).
Context (st : nxt_tstr_state) (Hst : refs_ok st) (w : view).

Abbreviation nomem := (exists j, alloc j = false).
Abbreviation refs := (elts (var_refs st)).

Definition ref_value (ref : nxt_var_ref) : nxt_str := host_value w (ref_handler ref) (ref_data ref).

(** The string at [v] is [x] and stays: it is not the spare one. *)
Definition holds (c : nxt_var_cache) (v : nat) (x : nxt_str) : Prop :=
  cache_values c !! v = Some x /\ cache_spare c <> Some v.

Definition keeps (c c' : nxt_var_cache) : Prop := forall v x, holds c v x -> holds c' v x.

#[local] Instance keeps_preorder : PreOrder keeps.
Proof. split; [by intros ? ? ?|]. intros c1 c2 c3 H1 H2 v x Hv. by apply H2, H1. Qed.

Definition cached (c : nxt_var_cache) (m : gmap Z (Z * nat)) : Prop :=
  forall i x, m !! i = Some x ->
    exists n ref, i = Z.of_nat n /\ refs !! n = Some (Some ref) /\ holds c x.2 (ref_value ref).

(** The hash leads from the index of a variable to its value. *)
Record cache_ok (c : nxt_var_cache) : Prop := {
  co_hash : exists m, rep fst hash_of_uint32 NXT_LVLHSH_DEFAULT (cache_hash c) m /\ cached c m;
  co_spare : forall v, cache_spare c = Some v -> (v < length (cache_values c))%nat
}.

Lemma cached_keeps c c' m : keeps c c' -> cached c m -> cached c' m.
Proof. intros Hk Hc i x Hx. destruct (Hc i x Hx) as (n & ref & -> & Hr & Hh). exists n, ref. split_and!; [done..|by apply Hk]. Qed.

Lemma cache_empty_ok : cache_ok (Var_cache Null None [] 0).
Proof. split; [|done]. exists ∅. split; [apply rep_empty|done]. Qed.

Lemma wp_on_host {A} (m : ST vstate A) (Q : A -> query_state -> Prop) c s :
  wp m (fun a s' => Q a (c, s')) s -> wp (on_host m) Q (c, s).
Proof. unfold wp, on_host. by destruct (m s) as [[a s']| |]. Qed.

Lemma wp_request (Q : bool -> query_state -> Prop) c s : host_ok alloc w s ->
  (forall ok s', host_ok alloc w s' -> (ok = false -> nomem) -> Q ok (c, s')) ->
  wp (on_host (in_pool (request alloc))) Q (c, s).
Proof.
  intros Hs HQ. apply wp_on_host. eapply wp_conseq; [apply (pool_ok alloc (request alloc) (fun ok => ok = false -> nomem) w s)|].
  - intros k. eexists _, _. split; [done|]. intros Hk. by exists k.
  - done.
  - intros ok s' [Hok Hs']. by apply HQ.
Qed.

Lemma take_value_keeps c inline s : cache_ok c -> cache_spare c = None ->
  wp (take_value inline) (fun v q => q.2 = s /\ cache_ok q.1 /\ keeps c q.1 /\ cache_spare q.1 = Some v) (c, s).
Proof.
  intros [(m & Hm & Hc) Hs] Hnone. unfold wp, take_value. cbn.
  assert (Hk : keeps c (Var_cache (cache_hash c) (Some (length (cache_values c))) (cache_values c ++ [None])
    (if inline then u8 (num_inline_values c + 1) else num_inline_values c))).
  { intros v x [Hv _]. split; cbn; [by apply lookup_app_l_Some|]. apply lookup_lt_Some in Hv. intros [= Hl]. lia. }
  split_and!; [done| |done|done]. split; cbn; [exists m; split; [done|by eapply cached_keeps]|].
  intros v [= <-]. rewrite length_app. cbn. lia.
Qed.

Lemma spare_value_ok c s : cache_ok c -> host_ok alloc w s ->
  wp (spare_value alloc) (fun r q => host_ok alloc w q.2 /\
    match r with Some v => cache_ok q.1 /\ keeps c q.1 /\ cache_spare q.1 = Some v | None => nomem end) (c, s).
Proof.
  intros Hc Hs. unfold wp, spare_value. destruct (cache_spare c) as [v|] eqn:E; [cbn; split_and!; [done|done|reflexivity|done]|].
  match goal with |- match ?m _ with _ => _ end => change (wp m (fun r q => host_ok alloc w q.2 /\
    match r with Some v => cache_ok q.1 /\ keeps c q.1 /\ cache_spare q.1 = Some v | None => nomem end) (c, s)) end.
  assert (Htake : forall inline s, host_ok alloc w s -> wp (let^ v := take_value inline in hret (Some v)) (fun r q => host_ok alloc w q.2 /\
    match r with Some v => cache_ok q.1 /\ keeps c q.1 /\ cache_spare q.1 = Some v | None => nomem end) (c, s)).
  { intros inline s0 Hs0. apply wp_hbind. eapply wp_conseq; [by apply take_value_keeps|]. intros v [c' s'] (Hq & H'). cbn in Hq. subst. done. }
  destruct (num_inline_values c <? 8); [by apply Htake|]. apply wp_hbind, wp_request; [done|].
  intros ok s' Hs' Hok. destruct ok; cbn [negb]; [by apply Htake|]. split; [done|by apply Hok].
Qed.

Lemma handler_value_ok c s v ref : ref_means ref -> host_ok alloc w s -> (v < length (cache_values c))%nat ->
  wp (handler_value alloc (view_ctx w) ref v) (fun r q => host_ok alloc w q.2 /\
    match r with
    | Some v' => v' = v /\ q.1 = Var_cache (cache_hash c) None (<[v := ref_value ref]> (cache_values c)) (num_inline_values c)
    | None => nomem
    end) (c, s).
Proof.
  intros [Hn Hr] Hs Hv. apply wp_hbind, wp_on_host. eapply wp_conseq; [by eapply run_ok|].
  intros r s' [Hs' Hval]. destruct r as [x|]; [|by split]. unfold wp. cbn. rewrite (proj2 (Nat.ltb_lt _ _)) by done.
  split; [done|]. by rewrite Hval.
Qed.

(** A value that was written in the place of the spare one. *)
Lemma written_keeps c h v x n : cache_spare c = Some v ->
  keeps c (Var_cache h None (<[v := x]> (cache_values c)) n).
Proof. intros E u y [Hu Hne]. split; cbn; [|done]. rewrite list_lookup_insert_ne; [done|]. intros ->. by rewrite E in Hne. Qed.

Lemma written_holds c h v x n : (v < length (cache_values c))%nat -> holds (Var_cache h None (<[v := x]> (cache_values c)) n) v x.
Proof. intros Hv. split; cbn; [|done]. by apply list_lookup_insert_eq. Qed.

Lemma cached_word m i x c : cached c m -> m !! i = Some x -> word i.
Proof.
  intros Hc Hx. destruct (Hc i x Hx) as (n & ref & -> & Hr & _). apply lookup_lt_Some in Hr.
  destruct (ro_array _ Hst) as (_ & H1 & H2). unfold word. lia.
Qed.

Lemma cache_insert_ok c s m index v :
  rep fst hash_of_uint32 NXT_LVLHSH_DEFAULT (cache_hash c) m -> cached c m -> word index -> host_ok alloc w s ->
  wp (cache_insert alloc index v) (fun r q => host_ok alloc w q.2 /\
    exists h, q.1 = Var_cache h (cache_spare c) (cache_values c) (num_inline_values c) /\
    match m !! index with
    | Some x => r = (NXT_DECLINED, Some x) /\ rep fst hash_of_uint32 NXT_LVLHSH_DEFAULT h m
    | None => (r = (NXT_OK, None) /\ rep fst hash_of_uint32 NXT_LVLHSH_DEFAULT h (<[index := (index, v)]> m))
              \/ (r = (NXT_ERROR, None) /\ nomem)
    end) (c, s).
Proof.
  intros Hrep Hc Hi Hs. unfold cache_insert. apply (wp_hbind (on_host _)), wp_on_host.
  eapply wp_conseq; [eapply (pool_ok alloc _ (fun r => exists rc old h m', r = (rc, old, h)
    /\ rep fst hash_of_uint32 NXT_LVLHSH_DEFAULT h m' /\ Lvlhsh.map_insert fst m (index, v) false rc old m' nomem) w s); [|done]|].
  - intros k. destruct (rep_inserted_test fst hash_of_uint32 alloc NXT_LVLHSH_DEFAULT (cache_hash c) m (index, v) nxt_var_cache_test false k)
      as (rc & old & h & m' & k' & E & _ & Hr & Hm); [|apply hash_proto_ok|done|].
    + intros y Hy Hh. apply hash_of_uint32_inj in Hh; [|by eapply cached_word|done]. unfold same_key. by rewrite bool_decide_true.
    + eexists _, _. split; [exact E|]. exists rc, old, h, m'. split_and!; [done..|]. destruct Hm as [Hold Hm]. split; [done|].
      destruct (m !! _); [done|]. destruct Hm as [?|(? & ? & j & _ & ?)]; [by left|right]. split_and!; [done..|by exists j].
  - intros r s' [(rc & old & h & m' & -> & Hr & Hold & Hm) Hs']. split; [done|]. exists h. split; [done|]. cbn [fst] in Hold, Hm.
    destruct (m !! index) as [x|]; [destruct Hm as [-> ->]; by rewrite Hold|].
    destruct Hm as [[-> ->]|(-> & -> & Hf)]; [left|right]; by rewrite Hold.
Qed.

Lemma cached_written c m h v ref i n :
  cached c m -> cache_spare c = Some v -> (v < length (cache_values c))%nat -> refs !! i = Some (Some ref) ->
  cached (Var_cache h None (<[v := ref_value ref]> (cache_values c)) n) (<[Z.of_nat i := (Z.of_nat i, v)]> m).
Proof.
  intros Hc Hs Hv Hi j x Hx. destruct (decide (j = Z.of_nat i)) as [->|Hne].
  - rewrite lookup_insert_eq in Hx. injection Hx as <-. exists i, ref. split_and!; [done..|]. by apply written_holds.
  - rewrite lookup_insert_ne in Hx by done. exact (cached_keeps _ _ _ (written_keeps c h v (ref_value ref) n Hs) Hc j x Hx).
Qed.

(** The value of a reference, from the cache or the handler. *)
Lemma cache_value_ok c s i ref : cache_ok c -> host_ok alloc w s -> refs !! i = Some (Some ref) ->
  wp (nxt_var_cache_value alloc (view_ctx w) ref) (fun r q => host_ok alloc w q.2 /\
    match r with Some v => cache_ok q.1 /\ keeps c q.1 /\ holds q.1 v (ref_value ref) | None => nomem end) (c, s).
Proof.
  intros Hc Hs Hi. destruct (ro_refs _ Hst _ _ Hi) as (ref' & [= <-] & Hidx & Hmeans).
  apply wp_hbind. eapply wp_conseq; [by apply spare_value_ok|]. intros v [c1 s1] [Hs1 Hv]. cbn [fst snd] in *.
  destruct v as [v|]; [|by split]. destruct Hv as ([(m & Hm & Hcm) Hsp] & Hk1 & Hv). specialize (Hsp v Hv).
  destruct (ref_cacheable ref) eqn:Ec; cbn [negb].
  - rewrite Hidx. apply wp_hbind. eapply wp_conseq; [apply (cache_insert_ok c1 s1 m (Z.of_nat i) v Hm Hcm); [|done]|].
    { destruct (ro_array _ Hst) as (_ & H1 & H2). apply lookup_lt_Some in Hi. unfold word. lia. }
    intros [rc old] [c2 s2] (Hs2 & h & Hc2 & Hr). cbn [fst snd] in Hc2, Hs2. subst c2. destruct (m !! Z.of_nat i) as [x|] eqn:Em.
    + destruct Hr as [[= -> ->] Hr]. cbn. destruct (Hcm _ _ Em) as (n & ref' & Hn & Hr' & Hh). apply Nat2Z.inj in Hn as <-.
      rewrite Hi in Hr'. injection Hr' as <-. unfold wp. cbn. split_and!; [done| |done|done].
      split; cbn; [|by intros v' Hv'; rewrite Hv in Hv'; injection Hv' as <-]. exists m. by split.
    + destruct Hr as [[[= -> ->] Hr]|[[= -> ->] Hr]]; cbn; [|by split].
      eapply wp_conseq; [by apply handler_value_ok|]. intros r [c3 s3] [Hs3 Hr3]. split; [done|]. destruct r as [v'|]; [|done].
      cbn [fst cache_hash cache_values num_inline_values] in Hr3 |- *. destruct Hr3 as [-> ->]. split_and!.
      * split; cbn; [|done]. eexists. split; [done|]. by apply cached_written.
      * etrans; [done|]. by apply written_keeps.
      * by apply written_holds.
  - eapply wp_conseq; [by apply handler_value_ok|]. intros r [c3 s3] [Hs3 Hr3]. split; [done|]. destruct r as [v'|]; [|done].
    cbn [fst] in Hr3 |- *. destruct Hr3 as [-> ->]. pose proof (written_keeps c1 (cache_hash c1) v (ref_value ref) (num_inline_values c1) Hv) as Hk.
    split_and!; [|by etrans|by apply written_holds]. split; cbn; [|done]. exists m. split; [done|]. by eapply cached_keeps.
Qed.

(** ** The expansion of a template *)

Definition value_of (n : list Z) : nxt_str :=
  match resolve n with Some (h, _, d) => host_value w h d | None => None end.

(** A variable as it is printed: its value, escaped, and a dash when it has
    none and the template is that of a log. *)
Definition shown (flags : nxt_var_flags) (x : nxt_str) : list Z :=
  (if ESCAPE flags then escape_text (default [] x) else default [] x)
  ++ (if LOGGING flags && negb (bool_decide (is_Some x)) then [MINUS] else []).

Definition expanded (flags : nxt_var_flags) (p : part) : list Z :=
  match p with Text t => t | Named n _ => shown flags (value_of n) end.

Definition expansion (flags : nxt_var_flags) (ps : list part) : list Z := ps ≫= expanded flags.

Definition value_length (n : list Z) : Z := Z.of_nat (length (default [] (value_of n))).

(** What escaping adds. *)
Definition surplus (ps : list part) : Z :=
  foldr (fun n z => Z.of_nat (length (escape_text (default [] (value_of n)))) - value_length n + z) 0 (names ps).

(** The sizes fit in 64 bits. *)
Definition size_bound (ps : list part) : Z :=
  Z.of_nat (length (text_of ps)) + foldr (fun n z => 4 * value_length n + 1 + z) 0 (names ps).

Lemma ref_value_of ref : ref_means ref -> ref_value ref = value_of (ref_name ref).
Proof. intros [_ Hr]. unfold value_of. by rewrite Hr. Qed.

Lemma value_of_byte n s : is_name n -> host_ok alloc w s -> Forall byte (default [] (value_of n)).
Proof.
  intros Hn Hs. unfold value_of. destruct (resolve n) as [[[h c] d]|] eqn:E; [|constructor].
  by destruct (value_byte alloc w s n h c d Hn E Hs).
Qed.

Lemma value_of_small n s : is_name n -> host_ok alloc w s -> value_length n < 2 ^ 32.
Proof.
  intros Hn Hs. unfold value_length, value_of. destruct (resolve n) as [[[h c] d]|] eqn:E; [|done].
  by destruct (value_byte alloc w s n h c d Hn E Hs).
Qed.

Lemma template_names ps n : template ps -> n ∈ names ps -> is_name n.
Proof.
  induction ps as [|[t|m br] ps IH]; [by intros _ ?%elem_of_nil|by intros (_ & _ & _ & Hps); apply IH|].
  intros (Hm & _ & Hps). change (names (Named m br :: ps)) with (m :: names ps). intros [->|Hn]%elem_of_cons; [done|by apply IH].
Qed.

(** The sizes of a template that can be compiled fit. *)
Lemma size_bound_small ps s : template ps -> host_ok alloc w s -> Z.of_nat (length (names ps)) <= 43690 ->
  Z.of_nat (length (text_of ps)) < 2 ^ 32 -> size_bound ps < 2 ^ 64.
Proof.
  intros Hps Hs Hn Ht. unfold size_bound.
  assert (H : forall l, (forall n, n ∈ l -> is_name n) -> foldr (fun n z => 4 * value_length n + 1 + z) 0 l <= Z.of_nat (length l) * (4 * 2 ^ 32 + 1)).
  { induction l as [|n l IH]; intros Hl; [done|]. cbn [foldr length]. rewrite Nat2Z.inj_succ.
    pose proof (value_of_small n s (Hl n ltac:(by left)) Hs). specialize (IH ltac:(intros m Hm; apply Hl; by right)). lia. }
  specialize (H (names ps) (fun n Hin => template_names ps n Hps Hin)). nia.
Qed.

Lemma size_bound_cons p ps : size_bound (p :: ps) =
  Z.of_nat (length (written p)) + match p with Text _ => 0 | Named n _ => 4 * value_length n + 1 end + size_bound ps.
Proof.
  unfold size_bound. rewrite text_of_cons, length_app. destruct p as [t|n br]; [change (names (Text t :: ps)) with (names ps); lia|].
  change (names (Named n br :: ps)) with (n :: names ps). cbn [foldr]. lia.
Qed.

Lemma surplus_cons p ps : surplus (p :: ps) =
  match p with Text _ => 0 | Named n _ => Z.of_nat (length (escape_text (default [] (value_of n)))) - value_length n end + surplus ps.
Proof. by destruct p. Qed.

Lemma size_bound_nonneg ps : 0 <= size_bound ps.
Proof.
  induction ps as [|p ps IH]; [done|]. rewrite size_bound_cons. unfold value_length. destruct p; lia.
Qed.

Lemma surplus_bound ps : 0 <= surplus ps <= size_bound ps.
Proof.
  induction ps as [|p ps IH]; [done|]. rewrite size_bound_cons, surplus_cons. destruct p as [t|n br]; [lia|].
  pose proof (escape_text_length (default [] (value_of n))). unfold value_length. lia.
Qed.

Lemma shown_length flags n : Z.of_nat (length (shown flags (value_of n))) <= 4 * value_length n + 1.
Proof.
  unfold shown. rewrite length_app. pose proof (escape_text_length (default [] (value_of n))). unfold value_length.
  destruct (ESCAPE flags), (LOGGING flags && _); cbn; lia.
Qed.

Lemma expansion_cons flags p ps : expansion flags (p :: ps) = expanded flags p ++ expansion flags ps.
Proof. reflexivity. Qed.

Lemma expansion_length flags ps : Z.of_nat (length (expansion flags ps)) <= size_bound ps.
Proof.
  induction ps as [|p ps IH]; [done|]. rewrite expansion_cons, size_bound_cons, length_app. destruct p as [t|n br]; cbn [expanded written]; [lia|].
  pose proof (shown_length flags n). lia.
Qed.

(** Text of the length of its escaped form has nothing to escape. *)
Lemma escape_same s : length (escape_text s) = length s -> escape_text s = s.
Proof.
  intros Hl. apply escape_text_clean. induction s as [|c s IH]; [done|]. cbn in *. rewrite length_app in Hl.
  pose proof (escape_text_length s). unfold escape_text in *. unfold escape_of at 1 in Hl.
  destruct (nxt_var_escaped c); cbn in *; [lia|]. apply IH. lia.
Qed.

Lemma expansion_unescaped logging ps : surplus ps = 0 ->
  expansion (Var_flags logging true) ps = expansion (Var_flags logging false) ps.
Proof.
  induction ps as [|p ps IH]; [done|]. rewrite surplus_cons, !expansion_cons. intros Hs. pose proof (surplus_bound ps).
  destruct p as [t|n br]; cbn [expanded]; [by rewrite IH by lia|].
  pose proof (escape_text_length (default [] (value_of n))). unfold value_length in Hs.
  rewrite IH by lia. f_equal. unfold shown. cbn. rewrite escape_same by lia. done.
Qed.

(** ** The interpreter *)

Lemma u64_l a b : u64 (u64 a + b) = u64 (a + b).
Proof. unfold u64. by rewrite Z.add_mod_idemp_l. Qed.

Lemma u64_sub a b c : u64 (u64 (a - b) + c) = u64 (a - b + c).
Proof. apply u64_l. Qed.

Lemma u64_r a b : u64 (a + u64 b) = u64 (a + b).
Proof. unfold u64. by rewrite Z.add_mod_idemp_r. Qed.

Lemma wp_let {S A B} (o : outcome A) a (k : A -> ST S B) Q s :
  o = Ret a -> wp (k a) Q s -> wp (fun q => let* a := o in k a q) Q s.
Proof. by intros ->. Qed.

Lemma wp_read_value v x (Q : nxt_str -> query_state -> Prop) c s : cache_values c !! v = Some x -> Q x (c, s) -> wp (read_value v) Q (c, s).
Proof. intros Hv HQ. unfold wp, read_value. by rewrite Hv. Qed.

(** The length and the surplus of one variable. *)
Lemma value_sizes flags n len esc s : is_name n -> host_ok alloc w s -> 4 * value_length n < 2 ^ 64 ->
  let text := default [] (value_of n) in
  exists l e, (if ESCAPE flags then
       let* size := nxt_var_escape_length text in
       Ret (u64 (len + size), u64 (esc + u64 (size - Z.of_nat (length text))))
     else Ret (u64 (len + Z.of_nat (length text)), esc)) = Ret (l, e) /\
    (if LOGGING flags && negb (bool_decide (is_Some (value_of n))) then u64 (l + 1) else l)
      = u64 (len + Z.of_nat (length (shown flags (value_of n)))) /\
    (u64 esc = esc -> e = u64 (esc + if ESCAPE flags then Z.of_nat (length (escape_text text)) - value_length n else 0)).
Proof.
  intros Hn Hs Hl text. assert (Hb : Forall byte text) by by eapply value_of_byte.
  unfold shown. rewrite length_app. fold text. destruct (ESCAPE flags).
  - rewrite nxt_var_escape_length_ok by done. cbn [obind]. eexists _, _. split; [done|]. split.
    + destruct (LOGGING flags && _); cbn [length]; rewrite ?u64_l; f_equal; lia.
    + intros _. by rewrite u64_r.
  - eexists _, _. split; [done|]. split; [|intros He; by rewrite Z.add_0_r].
    destruct (LOGGING flags && _); cbn [length]; rewrite ?u64_l; f_equal; lia.
Qed.

Abbreviation escaping flags ps := (if ESCAPE flags then surplus ps else 0).

(** [parts] are the places of the values. *)
Definition valued (c : nxt_var_cache) (vs : list nat) (ps : list part) : Prop :=
  Forall2 (fun v n => holds c v (value_of n)) vs (names ps).

Lemma values_loop_ok flags p ps ss : places refs p ps ss -> forall c s parts len esc,
  cache_ok c -> host_ok alloc w s -> array_ok parts -> Z.of_nat (length (elts parts) + length ss) <= 43690 ->
  size_bound ps < 2 ^ 64 -> u64 len = len -> u64 esc = esc ->
  wp (values_loop alloc (view_ctx w) refs flags ss parts len esc) (fun r q => host_ok alloc w q.2 /\
    match r with
    | Some (parts', len', esc') => cache_ok q.1 /\ keeps c q.1 /\
        len' = u64 (len + Z.of_nat (length (expansion flags ps)) - Z.of_nat (length (text_of ps))) /\
        esc' = u64 (esc + escaping flags ps) /\
        exists vs, elts parts' = elts parts ++ vs /\ valued q.1 vs ps
    | None => nomem
    end) (c, s).
Proof.
  induction 1 as [p|p t ps ss Hp IH|p n br ps ss i ref Hi Hname Hp IH]; intros c s parts len esc Hc Hs Ha Hlen Hsz Hl He.
  { apply wp_hret. cbn [fst snd]. split_and!; [done|done|reflexivity|by rewrite Z.add_0_r, Z.sub_0_r|by destruct (ESCAPE flags); rewrite Z.add_0_r|].
    exists []. split; [by rewrite app_nil_r|constructor]. }
  { rewrite size_bound_cons in Hsz. eapply wp_conseq; [apply (IH c s parts len esc); try done; lia|].
    intros r [c' s'] [Hs' Hr]. split; [done|]. destruct r as [[[parts' len'] esc']|]; [|done].
    destruct Hr as (Hc' & Hk & -> & -> & Hvs). split_and!; [done|done| |by rewrite surplus_cons|done].
    rewrite expansion_cons, text_of_cons, !length_app. f_equal. cbn [expanded written]. lia. }
  destruct (ro_refs _ Hst _ _ Hi) as (ref' & [= <-] & _ & Hmeans). pose proof (ref_value_of _ Hmeans) as Hval. rewrite Hname in Hval.
  assert (Hn : is_name n) by (destruct Hmeans as [? _]; by rewrite <- Hname).
  rewrite size_bound_cons in Hsz. pose proof (size_bound_nonneg ps). assert (0 <= value_length n) by (unfold value_length; lia).
  cbn [length] in Hlen.
  cbn [values_loop]. apply (wp_let _ ref); [cbn [sub_index]; by rewrite Nat2Z.id, Hi|].
  apply wp_hbind. eapply wp_conseq; [by apply (cache_value_ok c s i ref)|]. intros v [c1 s1] [Hs1 Hv]. cbn [fst snd] in *.
  destruct v as [v|]; [|by split]. destruct Hv as (Hc1 & Hk1 & Hv). rewrite Hval in Hv.
  apply wp_hbind, wp_on_host. eapply wp_conseq; [apply (pool_ok alloc _ (fun r => match r with
     Some a' => elts a' = elts parts ++ [v] /\ array_ok a' | None => nomem end) w s1); [|done]|].
  { intros k. destruct (add_ok alloc parts v k Ha ltac:(lia)) as (r & k' & -> & Hr). exists r, k'. split; [done|].
    destruct r; [done|]. destruct Hr as (j & _ & ?). by exists j. }
  intros a s2 [Hadd Hs2]. destruct a as [parts1|]; [|by split]. destruct Hadd as [He1 Ha1].
  apply wp_hbind, (wp_read_value v (value_of n)); [by destruct Hv|].
  destruct (value_sizes flags n (u64 (len - Z.of_nat (length (written (Named n br))))) esc s2 Hn Hs2) as (l & e & E & El & Ee);
    [lia|]. apply (wp_let _ (l, e)); [exact E|]. rewrite El, u64_sub, Ee by done.
  assert (Hu : forall z, u64 (u64 z) = u64 z) by (intros z; unfold u64; by rewrite Z.mod_mod).
  eapply wp_conseq; [apply (IH c1 s2); try done; [rewrite He1, length_app; cbn; lia|lia]|].
  intros r [c3 s3] [Hs3 Hr]. split; [done|]. destruct r as [[[parts' len'] esc']|]; [|done]. cbn [fst snd] in *.
  destruct Hr as (Hc' & Hk & -> & -> & vs & Hvs & Hall). split_and!; [done|by etrans| | |].
  - rewrite expansion_cons, text_of_cons, !length_app. rewrite <- Z.add_sub_assoc, u64_l. f_equal. cbn [expanded]. lia.
  - rewrite surplus_cons, u64_l. f_equal. destruct (ESCAPE flags); lia.
  - exists (v :: vs). split; [by rewrite Hvs, He1, <- app_assoc|]. constructor; [by apply Hk|done].
Qed.

Lemma put_text_ok size out t : Z.of_nat (length (out ++ t)) <= size -> put_text size out t = Ret (out ++ t).
Proof. intros Hs. unfold put_text. by rewrite (proj2 (Z.ltb_ge _ _)). Qed.

Lemma put_raw_ok size raw (last next : nat) out : (last <= next <= length raw)%nat ->
  Z.of_nat (length (out ++ window raw last next)) <= size ->
  put_raw size raw (Z.of_nat last) (Z.of_nat next) out = Ret (out ++ window raw last next).
Proof.
  intros Hl Hs. unfold put_raw. destruct (Z.eqb_spec (Z.of_nat next) (Z.of_nat last)) as [E|E].
  - assert (next = last) as -> by lia. unfold window. rewrite drop_ge, app_nil_r; [done|]. rewrite length_take. lia.
  - rewrite (proj2 (Z.ltb_lt _ _)), (proj2 (Z.leb_le _ _)), !Nat2Z.id by lia. by apply put_text_ok.
Qed.

(** The text between [last] and [p], when the rest is [s]. *)
Lemma window_step raw (last p : nat) (t s : list Z) : (last <= p)%nat -> drop p raw = t ++ s ->
  window raw last (p + length t) = window raw last p ++ t.
Proof.
  intros Hl Hd. assert (Ht : take (p + length t) raw = take p raw ++ t).
  { rewrite <- (take_drop p raw) at 1. rewrite take_app, length_take, Hd. destruct (decide (p <= length raw)%nat) as [Hp|Hp].
    - replace (p + length t - p `min` length raw)%nat with (length t) by lia.
      rewrite take_app_length. f_equal. apply take_ge. rewrite length_take. lia.
    - assert (drop p raw = []) as E by (apply drop_ge; lia). rewrite Hd in E. apply app_eq_nil in E as [-> ->].
      cbn. rewrite take_nil. f_equal. rewrite Nat.add_0_r. apply take_ge. rewrite length_take. lia. }
  unfold window. rewrite Ht, drop_app. destruct (decide (last <= length raw)%nat) as [Hr|Hr].
  - rewrite length_take. replace (last - p `min` length raw)%nat with 0%nat by lia. done.
  - assert (drop p raw = []) as E by (apply drop_ge; lia). rewrite Hd in E. apply app_eq_nil in E as [-> ->]. by rewrite drop_nil.
Qed.

Lemma copy_loop_ok flags c s raw size : host_ok alloc w s -> Z.of_nat (length raw) < 2 ^ 32 -> forall p ps ss, places refs p ps ss -> forall vs last out,
  valued c vs ps -> drop p raw = text_of ps -> (last <= p <= length raw)%nat ->
  Z.of_nat (length (out ++ window raw last p ++ expansion flags ps)) <= size ->
  exists last' out', copy_values size raw flags (cache_values c) ss vs (Z.of_nat last) out = Ret (Z.of_nat last', out') /\
    (last' <= length raw)%nat /\ out' ++ drop last' raw = out ++ window raw last p ++ expansion flags ps.
Proof.
  intros Hs Hraw. induction 1 as [p|p t ps ss Hp IH|p n br ps ss i ref Hi Hname Hp IH]; intros vs last out Hvs Hd Hl Hsize.
  - exists last, out. split_and!; [by destruct vs|lia|]. cbn. rewrite app_nil_r. f_equal.
    assert (p = length raw) as ->; [|by rewrite window_to_end]. cbn in Hd. apply drop_nil_ge in Hd. lia.
  - rewrite text_of_cons in Hd. cbn [written] in Hd. rewrite expansion_cons in Hsize. cbn [expanded] in Hsize.
    assert (Hlen : (p + length t <= length raw)%nat) by (apply (f_equal length) in Hd; rewrite length_app, length_drop in Hd; lia).
    destruct (IH vs last out) as (last' & out' & E & Hl' & Hout); [done|by rewrite <- drop_drop, Hd, drop_app_length|lia| |].
    + by rewrite (window_step _ _ _ _ _ (proj1 Hl) Hd), <- app_assoc.
    + exists last', out'. split_and!; [done..|]. by rewrite Hout, (window_step _ _ _ _ _ (proj1 Hl) Hd), expansion_cons, <- app_assoc.
  - rewrite text_of_cons in Hd. rewrite expansion_cons in Hsize. cbn [expanded] in Hsize.
    set (wn := written (Named n br)) in *.
    assert (Hlen : (p + length wn <= length raw)%nat) by (apply (f_equal length) in Hd; rewrite length_app, length_drop in Hd; lia).
    change (names (Named n br :: ps)) with (n :: names ps) in Hvs. apply Forall2_cons_inv_r in Hvs as (v & vs' & Hv & Hvs & ->).
    cbn [copy_values sub_position sub_length]. rewrite !app_assoc in Hsize. rewrite length_app in Hsize.
    destruct (ro_refs _ Hst _ _ Hi) as (ref' & [= <-] & _ & Hmeans). assert (Hn : is_name n) by (destruct Hmeans as [? _]; by rewrite <- Hname).
    pose proof (value_of_byte n s Hn Hs) as Hb. unfold shown in Hsize. rewrite !length_app in Hsize.
    rewrite put_raw_ok by (rewrite ?length_app; lia). cbn [obind]. rewrite (proj1 Hv). cbn [of_option obind].
    assert (E1 : (if ESCAPE flags then let* text := nxt_var_escape [] (default [] (value_of n)) in put_text size (out ++ window raw last p) text
       else put_text size (out ++ window raw last p) (default [] (value_of n)))
       = Ret ((out ++ window raw last p) ++ if ESCAPE flags then escape_text (default [] (value_of n)) else default [] (value_of n))).
    { destruct (ESCAPE flags); [rewrite nxt_var_escape_ok by done; cbn [obind app]|]; rewrite put_text_ok; [done|rewrite !length_app; lia|done|rewrite !length_app; lia]. }
    rewrite E1. cbn [obind].
    assert (E2 : forall o, (length o <= length ((out ++ window raw last p) ++ if ESCAPE flags then escape_text (default [] (value_of n)) else default [] (value_of n)))%nat ->
       (if LOGGING flags && negb (bool_decide (is_Some (value_of n))) then put_text size o [MINUS] else Ret o)
       = Ret (o ++ if LOGGING flags && negb (bool_decide (is_Some (value_of n))) then [MINUS] else [])).
    { intros o Ho. destruct (LOGGING flags && _); [|by rewrite app_nil_r]. apply put_text_ok. rewrite !length_app in *. cbn [length] in *. lia. }
    rewrite E2 by done. cbn [obind]. replace (u64 (Z.of_nat p + Z.of_nat (length wn))) with (Z.of_nat (p + length wn)) by (unfold u64; rewrite Z.mod_small; lia).
    edestruct (IH vs' (p + length wn)%nat) as (last' & out' & E & Hl' & Hout); [done|by rewrite <- drop_drop, Hd, drop_app_length|lia| |].
    2:{ exists last', out'. split_and!; [exact E|done|]. rewrite Hout, expansion_cons. unfold window at 2. rewrite drop_ge by (rewrite length_take; lia).
        cbn [expanded app]. unfold shown. by rewrite !app_assoc. }
    unfold window at 2. rewrite drop_ge by (rewrite length_take; lia). rewrite !length_app. cbn [length]. lia.
Qed.

Lemma interpreter_ok flags ps var c s : places refs 0 ps (var_subs var) -> text_of ps = var_raw var ->
  Z.of_nat (length (var_raw var)) < 2 ^ 32 -> Z.of_nat (length (names ps)) <= 43690 -> template ps ->
  cache_ok c -> host_ok alloc w s ->
  wp (nxt_var_interpreter alloc (view_ctx w) st var flags) (fun r q => host_ok alloc w q.2 /\
    match r with Some out => out = expansion flags ps /\ cache_ok q.1 /\ keeps c q.1 | None => nomem end) (c, s).
Proof.
  intros Hpl Htext Hraw Hn Hps Hc Hs. assert (Hsz : size_bound ps < 2 ^ 64) by (eapply size_bound_small; try done; by rewrite Htext).
  unfold nxt_var_interpreter. apply wp_hbind.
  assert (Hz : u64 (Z.of_nat (length (var_raw var))) = Z.of_nat (length (var_raw var))) by (unfold u64; rewrite Z.mod_small; lia).
  eapply wp_conseq; [apply (values_loop_ok flags 0 ps (var_subs var) Hpl c s (Arr [] 0 0) (Z.of_nat (length (var_raw var))) 0); try done|].
  { cbn. by rewrite (places_length _ _ _ _ Hpl). }
  intros r [c1 s1] [Hs1 Hr]. cbn [fst snd] in *. destruct r as [[[parts size] esc]|]; [|by split].
  destruct Hr as (Hc1 & Hk1 & -> & -> & vs & Hvs & Hall). cbn [elts app] in Hvs. rewrite Htext.
  pose proof (surplus_bound ps) as Hsur. pose proof (expansion_length flags ps) as Hexp.
  replace (_ + _ - _) with (Z.of_nat (length (expansion flags ps))) by lia.
  rewrite Z.add_0_l. assert (Hu : forall z, 0 <= z <= size_bound ps -> u64 z = z) by (intros z Hz'; unfold u64; rewrite Z.mod_small; lia).
  rewrite !Hu by (destruct (ESCAPE flags); lia).
  set (flags' := if _ =? 0 then _ else flags).
  assert (Hflags : expansion flags' ps = expansion flags ps).
  { subst flags'. destruct flags as [lg [|]]; cbn [ESCAPE LOGGING]; destruct (Z.eqb_spec (surplus ps) 0); try done. by rewrite expansion_unescaped. }
  apply wp_hbind, wp_request; [done|]. intros ok s2 Hs2 Hok. destruct ok; cbn [negb]; [|split; [done|by apply Hok]].
  destruct (copy_loop_ok flags' c1 s2 (var_raw var) (Z.of_nat (length (expansion flags ps))) Hs2 Hraw 0 ps (var_subs var) Hpl vs 0 [])
    as (last & out & E & Hl & Hout); [done|by rewrite drop_0|lia|by rewrite Hflags|].
  rewrite Hflags in Hout. cbn [app window] in Hout. unfold wp. rewrite Hvs. change 0 with (Z.of_nat 0). rewrite E. cbn [obind].
  change (drop 0 (take 0 (var_raw var))) with (@nil Z) in Hout. cbn [app] in Hout.
  rewrite put_raw_ok; [|lia|by rewrite window_to_end, Hout]. cbn [obind]. rewrite window_to_end, Hout, Z.eqb_refl by done. done.
Qed.

End Values.
