(* ===== verification/Tstr.v ===== *)
(** * Template strings: [src/nxt_tstr.c] and [src/nxt_tstr.h]

    A string of the configuration that is a constant, or a template of Var.v;
    optionally a newline is added, or a NUL that does not count.  The build is
    one without njs: the type of a template that starts with a backquote is not
    set, and [nxt_tstr_test()] refuses it. *)

From S2P Require Import Prelude NxtArray Lvlhsh Heap Var.

#[local] Open Scope Z_scope.

Abbreviation BACKQUOTE := 96 (only parsing).

Record nxt_tstr_flags := Tstr_flags { TSTR_STRZ : bool; TSTR_LOGGING : bool; TSTR_NEWLINE : bool; TSTR_ESCAPE : bool }.

Definition no_flags : nxt_tstr_flags := Tstr_flags false false false false.

Inductive nxt_tstr_type := TSTR_CONST | TSTR_VAR (var : nxt_var).

(** The type is [None] while it is not set. *)
Record nxt_tstr := Tstr {
  tstr_str : list Z;
  tstr_flags : nxt_tstr_flags;
  tstr_type : option nxt_tstr_type
}.

Record nxt_tstr_cond := Cond { expr : option nxt_tstr; negate : bool }.

(** [nxt_tstr_is_js()] *)
Definition nxt_tstr_is_js (str : list Z) : bool := bool_decide (head str = Some BACKQUOTE).

Definition nxt_is_tstr (str : list Z) : bool :=
  if (length str =? 0)%nat then false
  else bool_decide (is_Some (memchr str BACKQUOTE)) || bool_decide (is_Some (memchr str DOLLAR)).

Section Tstr.
Context {VH : VarHost} (alloc : nat -> bool).

Definition nxt_tstr_state_new : Alloc (option nxt_tstr_state) :=
  let! ok := request alloc in
  if negb ok then aret None
  else let? refs := nxt_array_create alloc 4 in aret (Some (Tstr_state refs)).

Context (var_hash : slot nxt_var_decl).

(** The state is that of a configuration, which is dropped with it when the
    template cannot be made. *)
Definition nxt_tstr_compile (st : nxt_tstr_state) (str : list Z) (flags : nxt_tstr_flags) :
    Alloc (option (nxt_tstr * nxt_tstr_state)) :=
  let! ok := request alloc in
  if negb ok then aret None
  else
    let! ok := request alloc in
    if negb ok then aret None
    else
      let text := str ++ (if TSTR_NEWLINE flags then [LF] else []) ++ (if TSTR_STRZ flags then [NUL] else []) in
      if nxt_tstr_is_js str then aret (Some (Tstr text flags None, st))
      else
        match memchr str DOLLAR with
        | None => aret (Some (Tstr text flags (Some TSTR_CONST), st))
        | Some _ =>
            let! (var, st) := nxt_var_compile alloc var_hash st text in
            match var with
            | None => aret None
            | Some var => aret (Some (Tstr text flags (Some (TSTR_VAR var)), st))
            end
        end.

Inductive tstr_error := NO_NJS | VAR_ERROR (e : var_error).

Definition nxt_tstr_test (st : nxt_tstr_state) (str : list Z) : Alloc (option tstr_error * nxt_tstr_state) :=
  if nxt_tstr_is_js str then aret (Some NO_NJS, st)
  else
    match memchr str DOLLAR with
    | None => aret (None, st)
    | Some _ => let! (e, st) := nxt_var_test alloc var_hash st str in aret (VAR_ERROR <$> e, st)
    end.

Definition nxt_tstr_cond_compile (st : nxt_tstr_state) (str : list Z) : Alloc (option (nxt_tstr_cond * nxt_tstr_state)) :=
  let neg := bool_decide (head str = Some 33) in
  let? (expr, st) := nxt_tstr_compile st (if neg then drop 1 str else str) no_flags in
  aret (Some (Cond (Some expr) neg, st)).

Definition nxt_tstr_is_const (tstr : nxt_tstr) : outcome bool :=
  match tstr_type tstr with
  | None => Fault
  | Some TSTR_CONST => Ret true
  | Some (TSTR_VAR _) => Ret false
  end.

(** The NUL does not count. *)
Definition without_nul (flags : nxt_tstr_flags) (t : list Z) : list Z :=
  if TSTR_STRZ flags then take (length t - 1) t else t.

Definition nxt_tstr_str (tstr : nxt_tstr) : list Z := without_nul (tstr_flags tstr) (tstr_str tstr).

(** [*query_p] is made when there is none. *)
Definition nxt_tstr_query_init (query : bool) : Alloc bool :=
  if query then aret true else request alloc.

Definition nxt_tstr_query (st : nxt_tstr_state) (ctx : vctx) (tstr : nxt_tstr) : ST query_state (option (list Z)) :=
  match tstr_type tstr with
  | None => fun _ => Fault
  | Some TSTR_CONST => hret (Some (nxt_tstr_str tstr))
  | Some (TSTR_VAR var) =>
      let^ val := nxt_var_interpreter alloc ctx st var (Var_flags (TSTR_LOGGING (tstr_flags tstr)) (TSTR_ESCAPE (tstr_flags tstr))) in
      hret (without_nul (tstr_flags tstr) <$> val)
  end.

End Tstr.
