(* ===== verification/TstrSpec.v ===== *)
(** * What template strings mean

    A template string that is compiled and queried is expanded as VarSpec.v says,
    with the newline that was asked for, and without the NUL. *)

From stdpp Require Import gmap.
From S2P Require Import Prelude NxtArray Lvlhsh Heap VarEscape Var VarSpec Tstr.

#[local] Open Scope Z_scope.

(** ** Templates and a character behind them *)

Lemma template_cons_text t ps : t <> [] -> DOLLAR ∉ t -> template ps -> exists ps', template ps' /\ text_of ps' = t ++ text_of ps /\
  names ps' = names ps /\ (forall VH (VS : VarHostSpec VH) w flags, expansion w flags ps' = t ++ expansion w flags ps).
Proof.
  intros Ht Hd Hps. destruct ps as [|[t'|n br] ps].
  - exists [Text t]. split_and!; [|done..]. by split_and!.
  - destruct Hps as (Ht' & Hd' & Hn & Hps). exists (Text (t ++ t') :: ps). split_and!.
    + split_and!; [by destruct t|rewrite elem_of_app; tauto|done|done].
    + rewrite !text_of_cons. cbn [written]. by rewrite app_assoc.
    + done.
    + intros VH VS w flags. rewrite !expansion_cons. cbn [expanded]. by rewrite app_assoc.
  - exists (Text t :: Named n br :: ps). split_and!; [|done..]. by split_and!.
Qed.

(** Parts are read one after the other in one way only. *)
Lemma template_unique ps : forall ps', template ps -> template ps' -> text_of ps = text_of ps' -> ps = ps'.
Proof.
  induction ps as [|p ps IH]; intros ps' Hps Hps' E.
  { destruct ps' as [|[t|n [|]] ps']; [done| |done..]. destruct Hps' as [Ht _]. by destruct t. }
  set (b := text_of (p :: ps)) in *. assert (Hb : (0 < length b)%nat).
  { subst b. rewrite text_of_cons, length_app. destruct p as [t|n [|]]; [destruct Hps as [Ht _]; destruct t; [done|cbn; lia]|cbn; lia..]. }
  destruct (part_some b 0 (p :: ps) Hps ltac:(done) ltac:(by rewrite drop_0)) as [[next part] Hat].
  destruct (first_ok b 0 next part Hb Hat) as (p0 & _ & _ & _ & Hinv).
  destruct (Hinv _ Hps ltac:(by rewrite drop_0)) as (ps1 & [= -> ->] & Hps1 & E1).
  destruct (Hinv _ Hps' ltac:(by rewrite drop_0)) as (ps2 & -> & Hps2 & E2). f_equal. apply IH; [done|done|]. by rewrite E1, E2.
Qed.

(** A character that neither is a name's nor ends one. *)
Definition plain (c : Z) : Prop := name_char c = false /\ c <> DOLLAR /\ c <> RBRACE.

Lemma template_tail p ps : template (p :: ps) -> template ps.
Proof. destruct p; cbn; tauto. Qed.

Lemma template_snoc c ps : plain c -> template ps -> exists ps', template ps' /\ text_of ps' = text_of ps ++ [c] /\
  names ps' = names ps /\ (forall VH (VS : VarHostSpec VH) w flags, expansion w flags ps' = expansion w flags ps ++ [c]).
Proof.
  intros Hc. induction ps as [|p ps IH]; intros Hps.
  { exists [Text [c]]. split_and!; [|done..]. split_and!; [done| |done|done]. rewrite list_elem_of_singleton. destruct Hc as (_ & ? & _). auto. }
  destruct (IH (template_tail _ _ Hps)) as (ps' & Ht & E & En & Ex). destruct p as [t|n br].
  - destruct Hps as (H1 & H2 & _). destruct (template_cons_text t ps' H1 H2 Ht) as (ps2 & Ht2 & E2 & En2 & Ex2).
    exists ps2. split_and!; [done|by rewrite E2, E, text_of_cons, app_assoc|by rewrite En2, En|].
    intros VH VS w flags. by rewrite Ex2, Ex, expansion_cons, app_assoc.
  - destruct Hps as (H1 & H2 & _). exists (Named n br :: ps'). split_and!.
    + split_and!; [done| |done]. intros Hbr. rewrite E. specialize (H2 Hbr). destruct (text_of ps); [|done]. by destruct Hc.
    + by rewrite !text_of_cons, E, app_assoc.
    + change (n :: names ps' = n :: names ps). by rewrite En.
    + intros VH VS w flags. by rewrite !expansion_cons, Ex, app_assoc.
Qed.

Lemma named_last n br s c : is_name n -> written (Named n br) = s ++ [c] -> ~ plain c.
Proof.
  intros [Hn Hc] E (Hp & _ & Hr). destruct br; cbn [written] in E.
  - rewrite app_assoc in E. apply app_inj_tail in E as [_ E]. congruence.
  - destruct n as [|x n _] using rev_ind; [done|]. rewrite app_comm_cons in E. apply app_inj_tail in E as [_ ->].
    rewrite forallb_app in Hc. cbn in Hc. rewrite Hp in Hc. by rewrite andb_false_r in Hc.
Qed.

Lemma text_of_nil ps : template ps -> text_of ps = [] -> ps = [].
Proof. destruct ps as [|[t|n [|]] ps]; [done| |done..]. intros (Ht & _) E. by destruct t. Qed.

Lemma template_unsnoc c ps : plain c -> template ps -> forall s, text_of ps = s ++ [c] ->
  exists ps', template ps' /\ text_of ps' = s /\ names ps' = names ps /\
    (forall VH (VS : VarHostSpec VH) w flags, expansion w flags ps = expansion w flags ps' ++ [c]).
Proof.
  intros Hc. induction ps as [|p ps IH]; intros Hps s E; [by destruct s|]. rewrite text_of_cons in E.
  destruct (decide (text_of ps = [])) as [E0|E0].
  - apply text_of_nil in E0 as ->; [|by eapply template_tail]. rewrite app_nil_r in E. destruct p as [t|n br].
    + cbn in E. subst t. destruct Hps as (_ & Hd & _). rewrite elem_of_app in Hd. destruct s as [|x s]; [by exists []|].
      exists [Text (x :: s)]. split_and!; [split_and!; [done|tauto|done|done]|by rewrite text_of_cons, app_nil_r|done|].
      intros VH VS w flags. by rewrite !expansion_cons, !app_nil_r.
    + by destruct (named_last n br s c (template_named _ _ _ Hps) E).
  - destruct (text_of ps) as [|x y _] eqn:Ey using rev_ind; [done|]. clear E0. rewrite app_assoc in E. apply app_inj_tail in E as [<- ->].
    destruct (IH (template_tail _ _ Hps) y eq_refl) as (ps' & Ht & E & En & Ex). destruct p as [t|n br].
    + destruct Hps as (H1 & H2 & _). destruct (template_cons_text t ps' H1 H2 Ht) as (ps2 & Ht2 & E2 & En2 & Ex2).
      exists ps2. split_and!; [done|by rewrite E2, E|by rewrite En2, En|].
      intros VH VS w flags. by rewrite Ex2, expansion_cons, Ex, app_assoc.
    + destruct Hps as (H1 & H2 & _). exists (Named n br :: ps'). split_and!.
      * split_and!; [done| |done]. intros Hbr. rewrite E. specialize (H2 Hbr). rewrite Ey in H2. by destruct y.
      * by rewrite text_of_cons, E.
      * change (n :: names ps' = n :: names ps). by rewrite En.
      * intros VH VS w flags. by rewrite !expansion_cons, Ex, app_assoc.
Qed.

Lemma lf_plain : plain LF.
Proof. done. Qed.

Lemma nul_plain : plain NUL.
Proof. done. Qed.

(** What is added to the text. *)
Definition added_newline (flags : nxt_tstr_flags) : list Z := if TSTR_NEWLINE flags then [LF] else [].

Lemma dollars_none s : DOLLAR ∉ s -> dollars s = 0%nat.
Proof.
  intros Hs. unfold dollars. induction s as [|x s IH]; [done|]. apply not_elem_of_cons in Hs as [Hx Hs].
  rewrite filter_cons_False by auto. by apply IH.
Qed.

Section TstrSpec.
Context {VH : VarHost} {VS : VarHostSpec VH}.

Definition var_flags (flags : nxt_tstr_flags) : nxt_var_flags := Var_flags (TSTR_LOGGING flags) (TSTR_ESCAPE flags).

(** [t] expands to [ps]: for every request, with what is cached of it, and with
    the references of the configuration that was made in the end. *)
Definition tstr_means (st1 : nxt_tstr_state) (flags : nxt_tstr_flags) (ps : list part) (t : nxt_tstr) : Prop :=
  forall alloc st2 w c s, refs_ok st2 -> extends st1 st2 -> cache_ok st2 w c -> host_ok alloc w s ->
    wp (nxt_tstr_query alloc st2 (view_ctx w) t) (fun r q => host_ok alloc w q.2 /\
      match r with
      | Some v => v = expansion w (var_flags flags) ps /\ cache_ok st2 w q.1
      | None => exists j, alloc j = false
      end) (c, s).

(** The newline and the NUL behind a template, and the template again. *)
Definition nul (flags : nxt_tstr_flags) : list Z := if TSTR_STRZ flags then [NUL] else [].

Lemma with_nul flags ps s : template ps -> text_of ps = s ++ nul flags -> exists ps', template ps' /\ text_of ps' = s /\ names ps' = names ps /\
  (forall w, expansion w (var_flags flags) ps = expansion w (var_flags flags) ps' ++ nul flags).
Proof.
  intros Hps E. unfold nul in *. destruct (TSTR_STRZ flags).
  - destruct (template_unsnoc NUL ps nul_plain Hps s E) as (ps' & ? & ? & ? & Hx). exists ps'. split_and!; [done..|]. intros w. apply Hx.
  - rewrite app_nil_r in E. exists ps. split_and!; [done..|]. intros w. by rewrite app_nil_r.
Qed.

Lemma without_nul_ok flags t : without_nul flags (t ++ nul flags) = t.
Proof.
  unfold without_nul, nul. destruct (TSTR_STRZ flags); [|by rewrite app_nil_r].
  rewrite length_app. cbn [length]. rewrite Nat.add_sub. by rewrite take_app_length.
Qed.

Lemma nul_length flags : (length (nul flags) <= 1)%nat.
Proof. unfold nul. destruct (TSTR_STRZ flags); cbn; lia. Qed.

Lemma newline_length flags : (length (added_newline flags) <= 1)%nat.
Proof. unfold added_newline. destruct (TSTR_NEWLINE flags); cbn; lia. Qed.

(** Templates with variables. *)
Lemma tstr_var_means st1 flags ps var text : template ps -> text_of ps = text ++ nul flags -> var_raw var = text ++ nul flags ->
  places (elts (var_refs st1)) 0 ps (var_subs var) -> Z.of_nat (length (var_raw var)) < 2 ^ 32 -> Z.of_nat (length (names ps)) <= 43690 ->
  exists ps', template ps' /\ text_of ps' = text /\ names ps' = names ps /\
    tstr_means st1 flags ps' (Tstr (text ++ nul flags) flags (Some (TSTR_VAR var))).
Proof.
  intros Hps E Hraw Hpl Hlen Hn. destruct (with_nul flags ps text Hps E) as (ps' & Hps' & E' & En & Hx).
  exists ps'. split_and!; [done..|]. intros alloc st2 w c s Hst2 Hext Hc Hs. unfold nxt_tstr_query. cbn [tstr_type tstr_flags].
  apply wp_hbind. eapply wp_conseq; [apply (interpreter_ok alloc st2 Hst2 w (var_flags flags) ps var c s)|];
    [by eapply places_extend|by rewrite E, Hraw|done..|].
  intros r q [Hs' Hr]. apply wp_hret. split; [done|]. destruct r as [v|]; cbn [fmap option_fmap option_map]; [|done].
  destruct Hr as (-> & Hc' & _). split; [|done]. by rewrite Hx, without_nul_ok.
Qed.

(** Constants. *)
Lemma const_parts s : DOLLAR ∉ s -> exists ps, template ps /\ text_of ps = s /\ names ps = [] /\ forall w flags, expansion w flags ps = s.
Proof.
  intros Hs. destruct s as [|x s]; [by exists []|]. exists [Text (x :: s)]. split_and!; [by split_and!|by rewrite text_of_cons, app_nil_r|done|].
  intros w flags. by rewrite expansion_cons, app_nil_r.
Qed.

Lemma newline_plain flags : DOLLAR ∉ added_newline flags.
Proof. unfold added_newline. destruct (TSTR_NEWLINE flags); [by rewrite list_elem_of_singleton|apply not_elem_of_nil]. Qed.

(** The template of a text with its newline is that of the text. *)
Lemma with_newline flags ps s : template ps -> text_of ps = s ++ added_newline flags ->
  exists ps', template ps' /\ text_of ps' = s /\ names ps' = names ps.
Proof.
  unfold added_newline. intros Hps E. destruct (TSTR_NEWLINE flags).
  - destruct (template_unsnoc LF ps lf_plain Hps s E) as (ps' & ? & ? & ? & _). by exists ps'.
  - rewrite app_nil_r in E. by exists ps.
Qed.

Lemma add_newline flags ps s : template ps -> text_of ps = s ->
  exists ps', template ps' /\ text_of ps' = s ++ added_newline flags ++ nul flags /\ names ps' = names ps.
Proof.
  intros Hps E. assert (H1 : exists ps', template ps' /\ text_of ps' = s ++ added_newline flags /\ names ps' = names ps).
  { unfold added_newline. destruct (TSTR_NEWLINE flags); [|exists ps; by rewrite app_nil_r].
    destruct (template_snoc LF ps lf_plain Hps) as (ps' & ? & E' & ? & _). exists ps'. by rewrite E', E. }
  destruct H1 as (ps1 & Hps1 & E1 & En1). unfold nul. destruct (TSTR_STRZ flags); [|exists ps1; by rewrite app_nil_r].
  destruct (template_snoc NUL ps1 nul_plain Hps1) as (ps' & ? & E' & En' & _). exists ps'. rewrite E', E1, En', En1. by rewrite app_assoc.
Qed.

Lemma unknown_in_text flags s : unknown_in (s ++ added_newline flags ++ nul flags) -> unknown_in s.
Proof.
  intros [Hno|(ps & n & Hps & E & Hn & Hr)]; [left|right].
  - intros ps Hps E. destruct (add_newline flags ps s Hps E) as (ps' & Hps' & E' & _). by apply (Hno ps' Hps').
  - rewrite app_assoc in E. destruct (with_nul flags ps _ Hps E) as (ps1 & Hps1 & E1 & En1 & _).
    destruct (with_newline flags ps1 s Hps1 E1) as (ps2 & Hps2 & E2 & En2). exists ps2, n. by rewrite En2, En1.
Qed.

(** *** Compilation *)

Context (alloc : nat -> bool) (var_hash : slot nxt_var_decl) (Hvh : var_hash_ok var_hash).

Abbreviation nomem := (exists j, alloc j = false).
Abbreviation nrefs st := (length (elts (var_refs st))).

Definition compiled (st : nxt_tstr_state) (str : list Z) (flags : nxt_tstr_flags) (x : nxt_tstr * nxt_tstr_state) : Prop :=
  refs_ok x.2 /\ extends st x.2 /\ (nrefs x.2 <= nrefs st + dollars str)%nat /\
  exists ps, template ps /\ text_of ps = str ++ added_newline flags /\ (forall n, n ∈ names ps -> is_Some (resolve n)) /\
    tstr_means x.2 flags ps x.1.

Lemma dollars_text flags str : dollars (str ++ added_newline flags ++ nul flags) = dollars str.
Proof.
  rewrite !dollars_app. assert (dollars (added_newline flags) = 0%nat) by (unfold added_newline; by destruct (TSTR_NEWLINE flags)).
  assert (dollars (nul flags) = 0%nat) by (unfold nul; by destruct (TSTR_STRZ flags)). lia.
Qed.

Lemma tstr_compile_ok st str flags k : refs_ok st -> nxt_tstr_is_js str = false -> Z.of_nat (length str) < 2 ^ 31 ->
  Z.of_nat (nrefs st + dollars str) <= 43690 ->
  exists r k', nxt_tstr_compile alloc var_hash st str flags k = Ret (r, k') /\
    match r with Some x => compiled st str flags x | None => unknown_in str \/ nomem end.
Proof.
  intros Hst Hjs Hlen Hrefs. unfold nxt_tstr_compile, abind, request. cbn [obind].
  destruct (alloc k) eqn:E1; cbn [negb obind]; [|eexists _, _; split; [done|]; right; by exists k].
  destruct (alloc (S k)) eqn:E2; cbn [negb obind]; [|eexists _, _; split; [done|]; right; by exists (S k)].
  rewrite Hjs. fold (added_newline flags) (nul flags). destruct (memchr str DOLLAR) as [i|] eqn:Em.
  - pose proof (dollars_text flags str) as Hdt. pose proof (newline_length flags). pose proof (nul_length flags).
    destruct (compile_ok alloc var_hash Hvh st (str ++ added_newline flags ++ nul flags) (S (S k)) Hst) as (r & st' & k' & -> & Hr);
      [rewrite !length_app; lia|lia|]. cbn [obind].
    destruct r as [var|]; [|eexists _, _; split; [done|]; destruct Hr as [Hr|Hr]; [left; by eapply unknown_in_text|by right]].
    destruct Hr as (ps & Hps & Ht & Hraw & Hpl & Hst' & Hext & Hgrow). eexists _, _. split; [done|].
    pose proof (names_dollars ps) as Hnd. rewrite Ht, Hdt in Hnd. split_and!; cbn [fst snd]; [done|done|lia|].
    rewrite app_assoc in Ht, Hraw |- *.
    destruct (tstr_var_means st' flags ps var _ Hps Ht Hraw Hpl) as (ps' & Hps' & Ht' & En & Hmeans); [rewrite Hraw, !length_app; lia|lia|].
    exists ps'. split_and!; [done|done| |done]. intros n. rewrite En. by eapply places_resolved.
  - apply memchr_absent in Em. eexists _, _. split; [done|]. split_and!; cbn [fst snd]; [done|unfold extends; reflexivity|lia|].
    destruct (const_parts (str ++ added_newline flags)) as (ps & Hps & Ht & En & Hx); [rewrite elem_of_app; pose proof (newline_plain flags); tauto|].
    exists ps. split_and!; [done|done|intros n; by rewrite En; intros ?%elem_of_nil|].
    intros alloc' st2 w c s Hst2 _ Hc Hs. apply wp_hret. cbn [fst snd]. split_and!; [done| |done].
    rewrite Hx. unfold nxt_tstr_str. cbn [tstr_str tstr_flags]. by rewrite app_assoc, without_nul_ok.
Qed.

(** The test of a template string is right when memory is there. *)
Lemma tstr_test_ok st str k : refs_ok st -> Z.of_nat (nrefs st + dollars str) <= 43690 ->
  exists r st' k', nxt_tstr_test alloc var_hash st str k = Ret ((r, st'), k') /\
    match r with
    | None => nxt_tstr_is_js str = false /\ ~ unknown_in str /\ refs_ok st' /\ extends st st'
    | Some _ => nxt_tstr_is_js str = true \/ unknown_in str \/ nomem
    end.
Proof.
  intros Hst Hlen. unfold nxt_tstr_test. destruct (nxt_tstr_is_js str) eqn:Ej; [eexists _, _, _; split; [done|by left]|].
  assert (Hknown : forall ps, template ps -> text_of ps = str -> (forall n, n ∈ names ps -> is_Some (resolve n)) -> ~ unknown_in str).
  { intros ps Hps E Hall [Hno|(ps' & n & Hps' & E' & Hn & Hr)]; [by eapply Hno|].
    rewrite (template_unique ps' ps) in Hn by (done || congruence). destruct (Hall n Hn) as [x Hx]. congruence. }
  destruct (memchr str DOLLAR) as [i|] eqn:Em.
  - unfold abind. destruct (test_ok alloc var_hash Hvh st str k Hst Hlen) as (r & st' & k' & -> & Hr & He). cbn [obind].
    eexists _, _, _. split; [done|]. destruct r as [[pos|n]|]; cbn in Hr |- *.
    + right. left. by left.
    + right. by destruct Hr as [[_ Hr]|Hr]; [left|right].
    + destruct Hr as (ps & Hps & E & Hall). destruct (He eq_refl) as [? ?]. split_and!; [done|by eapply Hknown|done|done].
  - apply memchr_absent in Em. eexists _, _, _. split; [done|].
    destruct (const_parts str Em) as (ps & Hps & Ht & En & _). split_and!; [done| |done|unfold extends; reflexivity].
    apply (Hknown ps Hps Ht). intros n. rewrite En. by intros ?%elem_of_nil.
Qed.

End TstrSpec.
