(* ===== verification/HttpReq.v ===== *)
(** * Requests: [src/nxt_http.h] and [src/nxt_http_request.c]

    The part of [nxt_http_request_t] that routing and the variables read, and
    what they keep in it: the arguments, the cookies, the local address and the
    values of variables. *)

From S2P Require Import Prelude NxtList HttpFields Heap NxtArray RoutePattern Args RouteAddr Var.

#[local] Open Scope Z_scope.

(** The part of [struct tm] that dates are printed from. *)
Record tm := Tm {
  tm_mday : Z;
  tm_mon : Z;
  tm_year : Z;
  tm_hour : Z;
  tm_min : Z;
  tm_sec : Z;
  tm_gmtoff : Z
}.

(** What the variables read besides: strings of the request, pointers to fields,
    the connection [r->proto.h1], the response, of which [resp_memory] has the
    names and the values, the clocks of the thread, and the numbers that its
    generator returns next. *)
Record request_vars := Request_vars {
  target : nxt_str;
  request_line : nxt_str;
  remote_address : list Z;
  referer : option nxt_http_field;
  user_agent : option nxt_http_field;
  status : Z;
  websocket_handshake : bool;
  http11 : bool;
  keepalive : bool;
  chunked : bool;
  conn_sent : Z;
  sent_before_body : Z;
  resp_memory : list Z;
  resp_inline_fields : list nxt_http_field;
  resp_fields : option (nxt_list nxt_http_field);
  resp_content_length : option nxt_http_field;
  resp_content_length_n : Z;
  start_time : Z;
  monotonic_time : Z;
  local_time : tm;
  random : Z * Z * Z * Z
}.

Record nxt_http_request := Request {
  tls : bool;
  host : nxt_str;
  path : option nxt_str;
  method : option nxt_str;
  args : nxt_str;
  header : list Z;
  inline_fields : list nxt_http_field;
  fields : option (nxt_list nxt_http_field);
  remote : nxt_sockaddr;
  proto_any : bool;
  sockname : option nxt_sockaddr;
  vars : request_vars
}.

(** What is kept in the request and in its connection; [rs_query] says that
    [r->tstr_query] is set. *)
Record route_state := Route_state {
  rs_args : args_state;
  rs_cookies : option (nxt_array nxt_http_name_value);
  rs_local : option nxt_sockaddr;
  conn_local : option nxt_sockaddr;
  rs_query : bool;
  rs_cache : nxt_var_cache;
  rs_match : match_state
}.

Definition set_match (s : route_state) (m : match_state) : route_state :=
  Route_state (rs_args s) (rs_cookies s) (rs_local s) (conn_local s) (rs_query s) (rs_cache s) m.

Definition set_args (s : route_state) (a : args_state) : route_state :=
  Route_state a (rs_cookies s) (rs_local s) (conn_local s) (rs_query s) (rs_cache s) (rs_match s).

Definition set_cookies (s : route_state) (c : option (nxt_array nxt_http_name_value)) : route_state :=
  Route_state (rs_args s) c (rs_local s) (conn_local s) (rs_query s) (rs_cache s) (rs_match s).

Definition set_local (s : route_state) (sa conn : option nxt_sockaddr) : route_state :=
  Route_state (rs_args s) (rs_cookies s) sa conn (rs_query s) (rs_cache s) (rs_match s).

Definition set_cache (s : route_state) (c : nxt_var_cache) : route_state :=
  Route_state (rs_args s) (rs_cookies s) (rs_local s) (conn_local s) (rs_query s) c (rs_match s).

Definition set_query (s : route_state) : route_state :=
  Route_state (rs_args s) (rs_cookies s) (rs_local s) (conn_local s) true (rs_cache s) (rs_match s).

(** Code that takes memory of the request. *)
Definition pooled {A} (m : Alloc A) : ST route_state A :=
  fun s =>
    let* (a, k) := m (mp (rs_match s)) in
    Ret (a, set_match s (Match_state (regex_ready (rs_match s)) k)).

Section Parse.
Context (alloc : nat -> bool) (r : nxt_http_request).

(** [nxt_http_arguments_parse(r)] *)
Definition request_arguments : ST route_state (option (nxt_array nxt_http_name_value)) :=
  fun s =>
    let* ((a, rs), k) := nxt_http_arguments_parse alloc (args r) (rs_args s) (mp (rs_match s)) in
    Ret (a, set_match (set_args s rs) (Match_state (regex_ready (rs_match s)) k)).

(** [nxt_http_cookies_parse(r)] *)
Definition request_cookies_parse : ST route_state (option (nxt_array nxt_http_name_value)) :=
  fun s =>
    let* ((a, c), k) := nxt_http_cookies_parse alloc (header r) (inline_fields r) (fields r) (rs_cookies s) (mp (rs_match s)) in
    Ret (a, set_match (set_cookies s c) (Match_state (regex_ready (rs_match s)) k)).

End Parse.
