(* ===== verification/HttpVars.v ===== *)
(** * The variables of requests: [src/nxt_http_variables.c]

    The table of declared variables, the names that are made of a prefix and the
    name of a field, an argument or a cookie, and the handlers that return the
    values.  The text of [$time_local] is that of [nxt_http_log_date()] on the
    local time of the thread; the cache of such texts in [nxt_thread_time.c] is
    left out. *)

From S2P Require Import Prelude Lvlhsh Str NxtList HttpFields Heap NxtArray RoutePattern Args RouteAddr Sprintf Var HttpReq.

#[local] Open Scope Z_scope.

(** ** Handlers and their data *)

Inductive http_handler :=
| nxt_http_var_dollar
| nxt_http_var_request_time
| nxt_http_var_method
| nxt_http_var_request_uri
| nxt_http_var_uri
| nxt_http_var_host
| nxt_http_var_remote_addr
| nxt_http_var_time_local
| nxt_http_var_request_line
| nxt_http_var_request_id
| nxt_http_var_status
| nxt_http_var_body_bytes_sent
| nxt_http_var_referer
| nxt_http_var_user_agent
| nxt_http_var_response_connection
| nxt_http_var_response_content_length
| nxt_http_var_response_transfer_encoding
| nxt_http_var_arg
| nxt_http_var_header
| nxt_http_var_cookie
| nxt_http_var_response_header.

(** [ref->data]: a [nxt_var_field_t], or a name in lower case. *)
Inductive http_vdata :=
| Var_field (name : list Z) (hash : Z)
| Var_name (name : list Z).

Section Vars.
Context {D : Double} (sys_errlist : list (list Z)) (alloc : nat -> bool).

(** ** Names *)

(** [nxt_str_start()] *)
Definition starts (prefix name : list Z) : bool := bool_decide (take (length prefix) name = prefix).

Definition denied_names : list (list Z) :=
  [bytes_of_string "authorization"; bytes_of_string "proxy-authorization"; bytes_of_string "cookie"; bytes_of_string "set-cookie"].

Definition denied_name (name denied : list Z) : bool :=
  bool_decide (length denied = length name)
  && forallb (fun '(c, d) => nxt_lowcase (if c =? UNDERSCORE then MINUS else c) =? d) (zip name denied).

Definition nxt_http_var_credential (name : list Z) : bool :=
  if starts (bytes_of_string "header_") name then existsb (denied_name (drop 7 name)) denied_names
  else if starts (bytes_of_string "response_header_") name then existsb (denied_name (drop 16 name)) denied_names
  else false.

(** The structure and the copy of the name. *)
Definition nxt_var_field_new (name : list Z) (hash : Z) : Alloc (option http_vdata) :=
  let! ok := request alloc in
  if negb ok then aret None
  else
    let! ok := request alloc in
    aret (if ok then Some (Var_field name hash) else None).

(** A prefix with the hash function of its names. *)
Definition field_ref (h : http_handler) (str : list Z) (hash : list Z -> Alloc (option (list Z * Z))) :
    Alloc (option (http_handler * bool * http_vdata)) :=
  if (length str =? 0)%nat then aret None
  else
    let? (str, hash) := hash str in
    let? data := nxt_var_field_new str hash in
    aret (Some (h, true, data)).

Definition nxt_http_unknown_var_ref (name : list Z) : Alloc (option (http_handler * bool * http_vdata)) :=
  if starts (bytes_of_string "response_header_") name then
    let str := drop 16 name in
    if (length str =? 0)%nat then aret None
    else
      let! ok := request alloc in
      aret (if ok then Some (nxt_http_var_response_header, false, Var_name (map nxt_lowcase str)) else None)
  else if starts (bytes_of_string "header_") name then
    field_ref nxt_http_var_header (drop 7 name) (nxt_http_header_hash alloc)
  else if starts (bytes_of_string "arg_") name then
    field_ref nxt_http_var_arg (drop 4 name) (nxt_http_argument_hash alloc)
  else if starts (bytes_of_string "cookie_") name then
    field_ref nxt_http_var_cookie (drop 7 name) (nxt_http_cookie_hash alloc)
  else aret None.

(** ** Values *)

Section Handlers.
Context (r : nxt_http_request).

Abbreviation result := (ST route_state (option nxt_str)).

(** Text that is printed into at most [size] bytes of new memory. *)
Definition printed (size : nat) (fmt : list Z) (args : list arg) : result :=
  let^ ok := pooled (request alloc) in
  if negb ok then hret None
  else fun s => let* t := nxt_sprintf sys_errlist size fmt args in Ret (Some (Some t), s).

Definition var_request_time : result :=
  let ms := u32 (u64 (monotonic_time (vars r) - start_time (vars r)) / 1000000) in
  printed 20 (bytes_of_string "%T.%03M") [Arg64 (ms / 1000); Arg32 (ms mod 1000)].

Definition months : list (list Z) :=
  [bytes_of_string "Jan"; bytes_of_string "Feb"; bytes_of_string "Mar"; bytes_of_string "Apr"; bytes_of_string "May";
   bytes_of_string "Jun"; bytes_of_string "Jul"; bytes_of_string "Aug"; bytes_of_string "Sep"; bytes_of_string "Oct";
   bytes_of_string "Nov"; bytes_of_string "Dec"].

(** The integers are passed as [int], the last two as [time_t], of which [%02d]
    takes the low half. *)
Definition nxt_http_log_date (t : tm) (size : nat) (fmt : list Z) : outcome (list Z) :=
  let gmtoff := Z.quot (tm_gmtoff t) 60 in
  let '(gmtoff, sign) := if gmtoff <? 0 then (- gmtoff, MINUS) else (gmtoff, PLUS) in
  let* month := of_option (if tm_mon t <? 0 then None else months !! Z.to_nat (tm_mon t)) in
  nxt_sprintf sys_errlist size fmt
    [Arg32 (u32 (tm_mday t)); Arg_ptr (Some (month ++ [NUL])); Arg32 (u32 (tm_year t + 1900)); Arg32 (u32 (tm_hour t));
     Arg32 (u32 (tm_min t)); Arg32 (u32 (tm_sec t)); Arg32 sign; Arg32 (u32 (Z.quot gmtoff 60)); Arg32 (u32 (Z.rem gmtoff 60))].

Definition log_format : list Z := bytes_of_string "%02d/%s/%4d:%02d:%02d:%02d %c%02d%02d".

Definition var_time_local : result :=
  let^ ok := pooled (request alloc) in
  if negb ok then hret None
  else fun s => let* t := nxt_http_log_date (local_time (vars r)) 26 log_format in Ret (Some (Some t), s).

Definition var_request_id : result :=
  let '(a, b, c, d) := random (vars r) in
  let^ ok := pooled (request alloc) in
  if negb ok then hret None
  else
    fun s =>
      let* t := nxt_sprintf sys_errlist 32 (bytes_of_string "%08xD%08xD%08xD%08xD") [Arg32 a; Arg32 b; Arg32 c; Arg32 d] in
      if (length t =? 32)%nat then Ret (Some (Some t), s) else Fault.

Definition nxt_h1p_request_body_bytes_sent : Z :=
  let sent := s64 (conn_sent (vars r) - sent_before_body (vars r)) in
  if 0 <? sent then sent else 0.

Definition var_body_bytes_sent : result :=
  printed 20 (bytes_of_string "%O") [Arg64 (u64 nxt_h1p_request_body_bytes_sent)].

(** Three bytes are the value, also those that were not written. *)
Definition var_status : result :=
  let^ ok := pooled (request alloc) in
  if negb ok then hret None
  else
    fun s =>
      let* t := nxt_sprintf sys_errlist 3 (bytes_of_string "%03d") [Arg32 (u32 (status (vars r)))] in
      if (length t =? 3)%nat then Ret (Some (Some t), s) else Fault.

(** A pointer to a field of the request. *)
Definition field_value (f : option nxt_http_field) : result := hret (Some (fld_value_text (header r) <$> f)).

Definition connection : list (list Z) := [bytes_of_string "close"; bytes_of_string "keep-alive"; bytes_of_string "Upgrade"].

Definition var_response_connection : result :=
  let v := vars r in
  let conn :=
    if websocket_handshake v && (status v =? 101) then Some 2%nat
    else if xorb (http11 v) (keepalive v) then Some (if keepalive v then 1 else 0)%nat else None in
  match conn with
  | Some n => fun s => let* t := of_option (connection !! n) in Ret (Some (Some t), s)
  | None => hret (Some None)
  end.

Definition var_response_content_length : result :=
  match resp_content_length (vars r) with
  | Some f => hret (Some (Some (fld_value_text (resp_memory (vars r)) f)))
  | None =>
      if 0 <=? resp_content_length_n (vars r)
      then printed 20 (bytes_of_string "%O") [Arg64 (resp_content_length_n (vars r))] else hret (Some None)
  end.

Definition var_response_transfer_encoding : result :=
  hret (Some (if chunked (vars r) then Some (bytes_of_string "chunked") else None)).

(** [vf->hash == nv->hash && ...] *)
Definition same_nv (name : list Z) (hash : Z) (nv : nxt_http_name_value) : outcome bool :=
  if (hash =? nv_hash nv) && (Z.of_nat (length name) =? Z.of_nat (length (nv_name nv)))
  then memequal name (nv_name nv) (length (nv_name nv)) else Ret false.

Fixpoint find_nv (name : list Z) (hash : Z) (nvs : list nxt_http_name_value) : outcome nxt_str :=
  match nvs with
  | [] => Ret None
  | nv :: nvs =>
      let* same := same_nv name hash nv in
      if same then Ret (Some (nv_value nv)) else find_nv name hash nvs
  end.

(** The arguments are searched from the last one on. *)
Definition var_arg (name : list Z) (hash : Z) : result :=
  let^ a := request_arguments alloc r in
  match a with
  | None => hret None
  | Some a => fun s => let* v := find_nv name hash (rev (elts a)) in Ret (Some v, s)
  end.

Definition var_cookie (name : list Z) (hash : Z) : result :=
  let^ a := request_cookies_parse alloc r in
  match a with
  | None => hret None
  | Some a => fun s => let* v := find_nv name hash (elts a) in Ret (Some v, s)
  end.

(** The body of the loop over the fields. *)
Definition header_named (name : list Z) (hash : Z) (f : nxt_http_field) (_ : unit) : outcome (unit + list Z) :=
  if (hash =? fld_hash f) && (Z.of_nat (length name) =? fld_name_length f) then
    let* d := nxt_strncasecmp name (drop (fld_name f) (header r)) (Z.to_nat (fld_name_length f)) in
    Ret (if d =? 0 then inr (fld_value_text (header r) f) else inl tt)
  else Ret (inl tt).

Definition found_value (x : unit + list Z) : nxt_str := match x with inl _ => None | inr v => Some v end.

Definition var_header (name : list Z) (hash : Z) : result :=
  fun s =>
    let* v := nxt_http_fields_each (inline_fields r) (fields r) (header_named name hash) tt in
    Ret (Some (found_value v), s).

(** The characters of a name of a response; [name] is that of the variable. *)
Fixpoint field_name_loop (name field : list Z) : outcome Z :=
  match name with
  | [] => Ret 0
  | c1 :: name =>
      match field with
      | [] => Fault
      | c2 :: field =>
          let c2 := if (CH_A <=? c2) && (c2 <=? CH_Z) then Z.lor c2 0x20 else if c2 =? MINUS then UNDERSCORE else c2 in
          if negb (c1 =? c2) then Ret 1 else field_name_loop name field
      end
  end.

Definition nxt_http_field_name_cmp (name : list Z) (f : nxt_http_field) : outcome Z :=
  if negb (Z.of_nat (length name) =? fld_name_length f) then Ret 1
  else field_name_loop name (drop (fld_name f) (resp_memory (vars r))).

Definition response_named (name : list Z) (f : nxt_http_field) (_ : unit) : outcome (unit + list Z) :=
  if fld_skip f then Ret (inl tt)
  else
    let* d := nxt_http_field_name_cmp name f in
    Ret (if d =? 0 then inr (fld_value_text (resp_memory (vars r)) f) else inl tt).

Definition var_response_header (name : list Z) : result :=
  fun s =>
    let* v := nxt_http_fields_each (resp_inline_fields (vars r)) (resp_fields (vars r)) (response_named name) tt in
    Ret (Some (found_value v), s).

(** The call of a handler; a [NULL] pointer is not followed. *)
Definition http_run_handler (h : http_handler) (data : option http_vdata) : result :=
  match h, data with
  | nxt_http_var_dollar, _ => hret (Some (Some [DOLLAR]))
  | nxt_http_var_request_time, _ => var_request_time
  | nxt_http_var_method, _ => fun s => let* v := of_option (method r) in Ret (Some v, s)
  | nxt_http_var_request_uri, _ => hret (Some (target (vars r)))
  | nxt_http_var_uri, _ => fun s => let* v := of_option (path r) in Ret (Some v, s)
  | nxt_http_var_host, _ => hret (Some (host r))
  | nxt_http_var_remote_addr, _ => hret (Some (Some (remote_address (vars r))))
  | nxt_http_var_time_local, _ => var_time_local
  | nxt_http_var_request_line, _ => hret (Some (request_line (vars r)))
  | nxt_http_var_request_id, _ => var_request_id
  | nxt_http_var_status, _ => var_status
  | nxt_http_var_body_bytes_sent, _ => var_body_bytes_sent
  | nxt_http_var_referer, _ => field_value (referer (vars r))
  | nxt_http_var_user_agent, _ => field_value (user_agent (vars r))
  | nxt_http_var_response_connection, _ => var_response_connection
  | nxt_http_var_response_content_length, _ => var_response_content_length
  | nxt_http_var_response_transfer_encoding, _ => var_response_transfer_encoding
  | nxt_http_var_arg, Some (Var_field name hash) => var_arg name hash
  | nxt_http_var_header, Some (Var_field name hash) => var_header name hash
  | nxt_http_var_cookie, Some (Var_field name hash) => var_cookie name hash
  | nxt_http_var_response_header, Some (Var_name name) => var_response_header name
  | _, _ => fun _ => Fault
  end.

End Handlers.

End Vars.

(** ** The module as the host of variables *)

#[export] Instance http_vars {D : Double} (sys_errlist : list (list Z)) : VarHost := {|
  handler := http_handler;
  vdata := http_vdata;
  vstate := route_state;
  vctx := nxt_http_request;
  unknown_var_ref := nxt_http_unknown_var_ref;
  run_handler := http_run_handler sys_errlist;
  in_pool := fun A m => pooled m
|}.

Section Table.
Context {D : Double} (sys_errlist : list (list Z)).
#[local] Existing Instance http_vars.

Definition nxt_http_vars : list (@nxt_var_decl (http_vars sys_errlist)) :=
  let decl name h cacheable := @Decl (http_vars sys_errlist) name h cacheable in
  [decl (bytes_of_string "dollar") nxt_http_var_dollar true;
   decl (bytes_of_string "request_time") nxt_http_var_request_time true;
   decl (bytes_of_string "method") nxt_http_var_method true;
   decl (bytes_of_string "request_uri") nxt_http_var_request_uri true;
   decl (bytes_of_string "uri") nxt_http_var_uri false;
   decl (bytes_of_string "host") nxt_http_var_host true;
   decl (bytes_of_string "remote_addr") nxt_http_var_remote_addr true;
   decl (bytes_of_string "time_local") nxt_http_var_time_local true;
   decl (bytes_of_string "request_line") nxt_http_var_request_line true;
   decl (bytes_of_string "request_id") nxt_http_var_request_id true;
   decl (bytes_of_string "status") nxt_http_var_status true;
   decl (bytes_of_string "body_bytes_sent") nxt_http_var_body_bytes_sent true;
   decl (bytes_of_string "header_referer") nxt_http_var_referer true;
   decl (bytes_of_string "response_header_connection") nxt_http_var_response_connection true;
   decl (bytes_of_string "response_header_content_length") nxt_http_var_response_content_length true;
   decl (bytes_of_string "response_header_transfer_encoding") nxt_http_var_response_transfer_encoding true;
   decl (bytes_of_string "header_user_agent") nxt_http_var_user_agent true].

Definition nxt_http_register_variables (alloc : nat -> bool) (var_hash : slot nxt_var_decl) : Alloc (Z * slot nxt_var_decl) :=
  nxt_var_register alloc nxt_http_vars var_hash.

End Table.
