(* ===== verification/HttpVarsSpec.v ===== *)
(** * What the variables of requests mean

    A request as the parser leaves it, the values of its variables, and the
    proof that the module of HttpVars.v is a host of variables as VarSpec.v
    wants it: the names with prefixes are those of fields, arguments and cookies,
    and every handler returns the value or memory is short. *)

From stdpp Require Import gmap.
From S2P Require Import Prelude Str Uri NxtList HttpFields HttpHeader Heap NxtArray RoutePattern Args RouteAddr RouteAddrSpec.
From S2P Require Import Parse Sprintf Var VarSpec HttpReq HttpVars.

#[local] Open Scope Z_scope.

(** A request: its fields as lines, and the address it was sent to, if that is
    known. *)
Record view := View {
  v_request : nxt_http_request;
  v_fields : list field_line;
  v_local : option nxt_sockaddr
}.

Definition addr_fits (loc : option nxt_sockaddr) : Prop := match loc with Some sa => sockaddr_ok sa | None => True end.

(** Text of less than 4 gigabytes. *)
Definition text_ok (t : list Z) : Prop := Forall byte t /\ Z.of_nat (length t) < 2 ^ 32.

Definition str_ok (s : nxt_str) : Prop := text_ok (default [] s).

(** A field of the response in its memory. *)
Definition resp_field_ok (mem : list Z) (f : nxt_http_field) : Prop :=
  0 <= fld_name_length f /\ (fld_name f + Z.to_nat (fld_name_length f) <= length mem)%nat.

Record vars_ok (v : request_vars) : Prop := {
  ok_target : str_ok (target v);
  ok_request_line : str_ok (request_line v);
  ok_remote_address : text_ok (remote_address v);
  ok_resp_memory : text_ok (resp_memory v);
  ok_resp_fields : Forall (resp_field_ok (resp_memory v)) (resp_inline_fields v ++ NxtList.elements (resp_fields v));
  ok_content_length_n : resp_content_length_n v < 2 ^ 63;
  ok_month : 0 <= tm_mon (local_time v) < 12;
  ok_random : let '(a, b, c, d) := random v in Forall (fun z => 0 <= z < 2 ^ 32) [a; b; c; d]
}.

(** A request as the parser leaves it. *)
Record request_ok (w : view) : Prop := {
  ok_fields : Forall2 (field_is (header (v_request w))) (v_fields w) (inline_fields (v_request w) ++ NxtList.elements (fields (v_request w)));
  ok_lines : Forall valid_line (v_fields w);
  ok_values : value_bytes (v_fields w) <= 43690;
  ok_args : Forall byte (default [] (args (v_request w)));
  ok_query : Z.of_nat (length (default [] (args (v_request w)))) <= 43690;
  ok_remote : sockaddr_ok (remote (v_request w));
  ok_local : addr_fits (v_local w);
  ok_header : text_ok (header (v_request w));
  ok_host : str_ok (host (v_request w));
  ok_path : exists s, path (v_request w) = Some s /\ str_ok s;
  ok_method : exists s, method (v_request w) = Some s /\ str_ok s;
  ok_vars : vars_ok (vars (v_request w))
}.

Section Kept.
Context (alloc : nat -> bool).

(** The local address that destinations are compared with can be had. *)
Definition local_known (r : nxt_http_request) (loc : option nxt_sockaddr) (s : route_state) : Prop :=
  match loc with
  | None => True
  | Some sa =>
      rs_local s = Some sa \/
      rs_local s = None /\ proto_any r = true /\
      (conn_local s = Some sa \/ conn_local s = None /\ sockname r = Some sa /\ forall j, alloc j = true)
  end.

(** What is kept of it. *)
Record kept_ok (w : view) (s : route_state) : Prop := {
  ok_kept_args : args_kept (args (v_request w)) (rs_args s);
  ok_kept_cookies : cookies_kept (v_fields w) (rs_cookies s);
  ok_kept_local : local_known (v_request w) (v_local w) s
}.

End Kept.

(** ** The values *)

(** [arg_], [header_] and [cookie_] with a name of letters and underscores. *)
Definition http_unknown (name : list Z) : option (http_handler * bool * http_vdata) :=
  let field h n := if (length n =? 0)%nat then None else Some (h, true, Var_field n (hash_of n)) in
  if starts (bytes_of_string "response_header_") name then
    if (length (drop 16 name) =? 0)%nat then None
    else Some (nxt_http_var_response_header, false, Var_name (map nxt_lowcase (drop 16 name)))
  else if starts (bytes_of_string "header_") name then field nxt_http_var_header (map header_char (drop 7 name))
  else if starts (bytes_of_string "arg_") name then field nxt_http_var_arg (drop 4 name)
  else if starts (bytes_of_string "cookie_") name then field nxt_http_var_cookie (drop 7 name)
  else None.

(** The first and the last value of a name. *)
Definition first_value (n : list Z) (l : list (list Z * list Z)) : nxt_str := snd <$> head (filter (fun p => p.1 = n) l).
Definition last_value (n : list Z) (l : list (list Z * list Z)) : nxt_str := snd <$> last (filter (fun p => p.1 = n) l).

Definition two : list Z := bytes_of_string "02".

(** A field of the response by the name of its variable. *)
Definition resp_char (c : Z) : Z := if (CH_A <=? c) && (c <=? CH_Z) then Z.lor c 0x20 else if c =? MINUS then UNDERSCORE else c.

Definition resp_value (v : request_vars) (n : list Z) : nxt_str :=
  fld_value_text (resp_memory v) <$>
  head (filter (fun f => fld_skip f = false /\ map resp_char (fld_name_text (resp_memory v) f) = n)
          (resp_inline_fields v ++ NxtList.elements (resp_fields v))).

Definition log_date_items (t : tm) : list item :=
  let off := Z.quot (tm_gmtoff t) 60 in
  [Number two [] Conv_d (u32 (tm_mday t)); Lit SLASH; Cstr (nth (Z.to_nat (tm_mon t)) months []) []; Lit SLASH;
   Number [52] [] Conv_d (u32 (tm_year t + 1900)); Lit COLON; Number two [] Conv_d (u32 (tm_hour t)); Lit COLON;
   Number two [] Conv_d (u32 (tm_min t)); Lit COLON; Number two [] Conv_d (u32 (tm_sec t)); Lit SP;
   Char (if off <? 0 then MINUS else PLUS); Number two [] Conv_d (u32 (Z.quot (Z.abs off) 60)); Number two [] Conv_d (u32 (Z.rem (Z.abs off) 60))].

Definition time_items (ms : Z) : list item :=
  [Number [] [] Conv_T (ms / 1000); Lit DOT; Number (bytes_of_string "03") [] Conv_M (ms mod 1000)].

Definition id_items (r : Z * Z * Z * Z) : list item :=
  let '(a, b, c, d) := r in
  (fun z => Number (bytes_of_string "08") [Flag_x] Conv_D z) <$> [a; b; c; d].

Definition status_items (status : Z) : list item := [Number (bytes_of_string "03") [] Conv_d (u32 status)].

Definition off_items (n : Z) : list item := [Number [] [] Conv_O n].

Definition http_value (w : view) (h : http_handler) (d : option http_vdata) : nxt_str :=
  let r := v_request w in
  let v := vars r in
  match h, d with
  | nxt_http_var_dollar, _ => Some [DOLLAR]
  | nxt_http_var_request_time, _ => Some (take 20 (text_of_items (time_items (u32 (u64 (monotonic_time v - start_time v) / 1000000)))))
  | nxt_http_var_method, _ => default None (method r)
  | nxt_http_var_request_uri, _ => target v
  | nxt_http_var_uri, _ => default None (path r)
  | nxt_http_var_host, _ => host r
  | nxt_http_var_remote_addr, _ => Some (remote_address v)
  | nxt_http_var_time_local, _ => Some (take 26 (text_of_items (log_date_items (local_time v))))
  | nxt_http_var_request_line, _ => request_line v
  | nxt_http_var_request_id, _ => Some (text_of_items (id_items (random v)))
  | nxt_http_var_status, _ => Some (take 3 (text_of_items (status_items (status v))))
  | nxt_http_var_body_bytes_sent, _ => Some (text_of_items (off_items (u64 (nxt_h1p_request_body_bytes_sent r))))
  | nxt_http_var_referer, _ => fld_value_text (header r) <$> referer v
  | nxt_http_var_user_agent, _ => fld_value_text (header r) <$> user_agent v
  | nxt_http_var_response_connection, _ =>
      if websocket_handshake v && (status v =? 101) then Some (bytes_of_string "Upgrade")
      else if Bool.eqb (http11 v) (keepalive v) then None
      else Some (if keepalive v then bytes_of_string "keep-alive" else bytes_of_string "close")
  | nxt_http_var_response_content_length, _ =>
      match resp_content_length v with
      | Some f => Some (fld_value_text (resp_memory v) f)
      | None => if resp_content_length_n v <? 0 then None else Some (text_of_items (off_items (resp_content_length_n v)))
      end
  | nxt_http_var_response_transfer_encoding, _ => if chunked v then Some (bytes_of_string "chunked") else None
  | nxt_http_var_arg, Some (Var_field n _) => last_value n (arguments_of (default [] (args r)))
  | nxt_http_var_header, Some (Var_field n _) =>
      first_value n ((fun f => (map nxt_lowcase (line_name f), line_value f)) <$> v_fields w)
  | nxt_http_var_cookie, Some (Var_field n _) => first_value n (request_cookies (v_fields w))
  | nxt_http_var_response_header, Some (Var_name n) => resp_value v n
  | _, _ => None
  end.

(** The data that go with a handler. *)
Definition data_ok (h : http_handler) (d : option http_vdata) : Prop :=
  match h, d with
  | nxt_http_var_arg, Some (Var_field n hash) | nxt_http_var_cookie, Some (Var_field n hash) => hash = hash_of n
  | nxt_http_var_header, Some (Var_field n hash) => hash = hash_of n /\ map nxt_lowcase n = n /\ NUL ∉ n
  | nxt_http_var_response_header, Some (Var_name _) => True
  | (nxt_http_var_arg | nxt_http_var_cookie | nxt_http_var_header | nxt_http_var_response_header), _ => False
  | _, _ => True
  end.

(** ** Names *)

Lemma name_char_byte c : name_char c = true -> byte c /\ c <> NUL /\ c <> PERCENT /\ c <> PLUS.
Proof.
  intros Hc. assert (Hr : 0 <= c <= 122).
  { unfold name_char in Hc. rewrite orb_true_iff, andb_true_iff, !Z.leb_le, Z.eqb_eq in Hc. destruct Hc as [[H1 H2]|Hc]; [|lia].
    assert (H0 : 0 <= c) by (apply (Z.lor_nonneg c 32); lia). split; [done|].
    assert (c <= Z.lor c 32); [|lia]. apply Z.ldiff_le; [lia|]. apply Z.bits_inj'. intros n Hn.
    rewrite Z.ldiff_spec, Z.lor_spec, Z.bits_0. by destruct (Z.testbit c n). }
  assert (Hb : byte c) by (unfold byte; lia). split; [done|]. revert c Hb Hc Hr.
  apply (byte_decide (fun c => name_char c = true -> 0 <= c <= 122 -> _)). vm_compute. reflexivity.
Qed.

Lemma is_name_byte n : is_name n -> Forall byte n /\ NUL ∉ n /\ PERCENT ∉ n /\ PLUS ∉ n.
Proof.
  intros [_ Hn]. rewrite forallb_forall in Hn. assert (H : forall c, c ∈ n -> name_char c = true) by (intros c Hc; by apply Hn, list_elem_of_In).
  split_and!; [apply Forall_forall; intros c Hc; by apply name_char_byte, H|..]; intros Hin; by apply H, name_char_byte in Hin as (_ & ? & ? & ?).
Qed.

Lemma percent_decode_plain plus s : PERCENT ∉ s -> PLUS ∉ s -> percent_decode plus s = Some s.
Proof.
  induction s as [|c s IH]; intros H1 H2; [done|]. apply not_elem_of_cons in H1 as [H1 H1'], H2 as [H2 H2']. cbn [percent_decode].
  rewrite !(proj2 (Z.eqb_neq c _)) by auto. rewrite IH by done. cbn. by rewrite andb_false_r.
Qed.

Lemma drop_elem {A} (x : A) i l : x ∈ drop i l -> x ∈ l.
Proof. intros Hx. rewrite <- (take_drop i l). apply elem_of_app. by right. Qed.

Section Unknown.
Context (alloc : nat -> bool).

Lemma field_ref_ok h str n hash k :
  (forall k, exists r, hash str k = Ret (r, S k) /\ (alloc k = true -> r = Some (n, hash_of n)) /\ (alloc k = false -> r = None)) ->
  (length n = 0 <-> length str = 0)%nat ->
  exists r k', field_ref alloc h str hash k = Ret (r, k') /\
    let v := if (length n =? 0)%nat then None else Some (h, true, Var_field n (hash_of n)) in
    match r with Some x => v = Some x | None => v = None \/ exists j, alloc j = false end.
Proof.
  intros Hh Hlen. unfold field_ref. destruct (length str =? 0)%nat eqn:E0; zbool.
  { eexists _, _. split; [done|]. left. by rewrite (proj2 (Nat.eqb_eq _ _)) by (by apply Hlen). }
  rewrite (proj2 (Nat.eqb_neq _ _)) by (intros H; by apply E0, Hlen). unfold astep, abind.
  destruct (Hh k) as (r & -> & Ht & Hf). cbn [obind]. destruct (alloc k) eqn:Ek; [|rewrite Hf by done; eexists _, _; split; [done|]; right; by exists k].
  rewrite Ht by done. unfold nxt_var_field_new, abind, request. cbn. destruct (alloc (S k)) eqn:E1; cbn; [|eexists _, _; split; [done|]; right; by exists (S k)].
  destruct (alloc (S (S k))) eqn:E2; cbn; [by eexists _, _|]. eexists _, _. split; [done|]. right. by exists (S (S k)).
Qed.

Lemma header_hash_ok str k : exists r, nxt_http_header_hash alloc str k = Ret (r, S k) /\
  (alloc k = true -> r = Some (map header_char str, hash_of (map header_char str))) /\ (alloc k = false -> r = None).
Proof. unfold nxt_http_header_hash, abind, request. cbn. destruct (alloc k); by eexists. Qed.

Lemma plain_hash_ok str sensitive k : Forall byte str -> PERCENT ∉ str -> PLUS ∉ str -> sensitive = true -> forall encoding,
  exists r, nxt_http_field_hash alloc str sensitive encoding k = Ret (r, S k) /\
  (alloc k = true -> r = Some (str, hash_of str)) /\ (alloc k = false -> r = None).
Proof.
  intros Hb H1 H2 -> encoding. destruct (field_hash_ok alloc str true encoding k Hb) as (r & -> & Ht & Hf). exists r. split_and!; [done| |done].
  intros Ha. rewrite Ht by done. replace (decode encoding str) with (Some str); [done|]. destruct encoding; cbn; by rewrite ?percent_decode_plain.
Qed.

Lemma http_unknown_ok name k : is_name name -> exists r k', nxt_http_unknown_var_ref alloc name k = Ret (r, k') /\
  match r with Some x => http_unknown name = Some x | None => http_unknown name = None \/ exists j, alloc j = false end.
Proof.
  intros Hn. destruct (is_name_byte name Hn) as (Hb & H0 & H1 & H2). unfold nxt_http_unknown_var_ref, http_unknown.
  assert (Hplain : forall i, Forall byte (drop i name) /\ PERCENT ∉ drop i name /\ PLUS ∉ drop i name).
  { intros i. split_and!; [by apply Forall_drop|intros ?%drop_elem; done..]. }
  destruct (starts (bytes_of_string "response_header_") name).
  { destruct (length (drop 16 name) =? 0)%nat; [eexists _, _; split; [done|by left]|]. unfold abind, request. cbn [obind].
    destruct (alloc k) eqn:Ek; [by eexists _, _|]. eexists _, _. split; [done|]. right. by exists k. }
  destruct (starts (bytes_of_string "header_") name); [apply field_ref_ok; [intros j; apply header_hash_ok|by rewrite length_map]|].
  destruct (starts (bytes_of_string "arg_") name); [apply field_ref_ok; [|done]; intros j; by apply plain_hash_ok; destruct (Hplain 4%nat) as (? & ? & ?)|].
  destruct (starts (bytes_of_string "cookie_") name); [apply field_ref_ok; [|done]; intros j; by apply plain_hash_ok; destruct (Hplain 7%nat) as (? & ? & ?)|].
  eexists _, _. split; [done|]. by left.
Qed.

End Unknown.

Lemma header_char_low c : nxt_lowcase (header_char c) = header_char c.
Proof.
  unfold header_char, nxt_lowcase. destruct ((CH_A <=? c) && (c <=? CH_Z)) eqn:E.
  - rewrite (proj2 (andb_false_iff _ _)); [done|]. right. apply Z.leb_gt. zbool.
    assert (Hb : byte c) by (unfold byte; lia). revert c Hb H H0.
    apply (byte_decide (fun c => CH_A <= c -> c <= CH_Z -> CH_Z < Z.lor c 32)). vm_compute. reflexivity.
  - destruct (Z.eqb_spec c UNDERSCORE); [done|]. by rewrite E.
Qed.

Lemma header_char_nul c : header_char c = NUL -> c = NUL.
Proof.
  unfold header_char. destruct (_ && _) eqn:E; [rewrite Z.lor_eq_0_iff; lia|]. by destruct (Z.eqb_spec c UNDERSCORE).
Qed.

Lemma unknown_data name h c d : is_name name -> http_unknown name = Some (h, c, d) -> data_ok h (Some d).
Proof.
  intros Hn. destruct (is_name_byte name Hn) as (_ & H0 & _). unfold http_unknown. repeat case_match; intros E; simplify_eq; try done.
  cbn. split_and!; [done|rewrite map_map; apply map_ext; intros x; apply header_char_low|].
  intros (x & E & Hx)%list_elem_of_fmap. symmetry in E. apply header_char_nul in E as ->. by apply drop_elem in Hx.
Qed.

(** ** Handlers *)

Section Run.
Context {D : Double} (sys_errlist : list (list Z)) (alloc : nat -> bool) (w : view) (Hw : request_ok w).

Abbreviation r := (v_request w).
Abbreviation nomem := (exists j, alloc j = false).

(** The handler returns [v], or memory is short; what is kept stays right. *)
Definition returns (m : ST route_state (option nxt_str)) (v : nxt_str) : Prop :=
  forall s, kept_ok alloc w s -> wp m (fun x s' => kept_ok alloc w s' /\ match x with Some y => y = v | None => nomem end) s.

Lemma kept_ok_match s m : kept_ok alloc w s -> kept_ok alloc w (set_match s m).
Proof. by intros []. Qed.

Lemma wp_pooled {A} (m : Alloc A) (Q : A -> route_state -> Prop) (P : A -> Prop) s : kept_ok alloc w s ->
  (forall k, exists a k', m k = Ret (a, k') /\ P a) -> (forall a s', P a -> kept_ok alloc w s' -> Q a s') -> wp (pooled m) Q s.
Proof.
  intros Hs Hm HQ. unfold wp, pooled. destruct (Hm (mp (rs_match s))) as (a & k' & -> & Ha). cbn. apply HQ; [done|]. by apply kept_ok_match.
Qed.

Lemma returns_ret v : returns (hret (Some v)) v.
Proof. intros s Hs. by apply wp_hret. Qed.

(** Memory first, then a text. *)
Lemma returns_text (o : outcome (list Z)) t : o = Ret t ->
  returns (let^ ok := pooled (request alloc) in
           if negb ok then hret None else fun s => let* t := o in Ret (Some (Some t), s)) (Some t).
Proof.
  intros -> s Hs. apply wp_hbind. apply (wp_pooled _ _ (fun ok => ok = false -> nomem)); [done| |].
  - intros k. eexists _, _. split; [done|]. intros Hk. by exists k.
  - intros ok s' Hok Hs'. destruct ok; cbn; [done|]. apply wp_hret. split; [done|by apply Hok].
Qed.

Lemma printed_ok size is_ fmt args t : Forall item_ok is_ -> format_of is_ = fmt -> args_of is_ = args -> take size (text_of_items is_) = t ->
  returns (printed sys_errlist alloc size fmt args) (Some t).
Proof. intros His <- <- <-. apply returns_text. by apply sprintf_ok. Qed.

(** A number with a width has so many characters. *)
Lemma number_length ds fs c z : (Z.to_nat (conv_width c fs ds) <= length (item_text (Number ds fs c z)))%nat.
Proof. cbn [item_text]. rewrite !length_app, repeat_length. lia. Qed.

Lemma u32_range z : 0 <= u32 z < 2 ^ 32.
Proof. apply Z.mod_pos_bound. lia. Qed.

Lemma u64_range z : 0 <= u64 z < 2 ^ 64.
Proof. apply Z.mod_pos_bound. lia. Qed.

Lemma number_item_ok ds fs c z : forallb spf_digit ds = true -> 0 <= z < (if conv_32 c then 2 ^ 32 else 2 ^ 64) -> item_ok (Number ds fs c z).
Proof. by split. Qed.

Lemma time_items_ok ms : 0 <= ms < 2 ^ 32 -> Forall item_ok (time_items ms).
Proof.
  intros Hms. apply Forall_cons_2; [|apply Forall_cons_2; [by cbn|apply Forall_singleton]]; (apply number_item_ok; [done|cbn [conv_32]]).
  - split; [apply Z.div_pos; lia|]. apply Z.div_lt_upper_bound; lia.
  - pose proof (Z.mod_pos_bound ms 1000). lia.
Qed.

Lemma request_time_ok : returns (var_request_time sys_errlist alloc r) (http_value w nxt_http_var_request_time None).
Proof. unfold var_request_time. eapply printed_ok; [apply time_items_ok, u32_range|reflexivity..]. Qed.

Lemma off_items_ok n : 0 <= n < 2 ^ 64 -> Forall item_ok (off_items n).
Proof. intros Hn. apply Forall_singleton. by apply number_item_ok. Qed.

(** A number of 63 bits has at most 19 digits. *)
Lemma off_length n : 0 <= n < 2 ^ 63 -> (length (text_of_items (off_items n)) <= 20)%nat.
Proof.
  intros Hn. unfold text_of_items, off_items. cbn [mbind list_bind]. rewrite app_nil_r. cbn [item_text conv_value conv_hex conv_width flags_hex].
  rewrite s64_id by lia. rewrite (proj2 (Z.ltb_ge n 0)) by lia. cbn [app digits_of]. rewrite Z.abs_eq by lia.
  destruct (decimal_text_ok n) as (_ & _ & Hl & _); [lia|]. rewrite length_app, repeat_length. change (width_of []) with 0. lia.
Qed.

Lemma body_bytes_range : 0 <= nxt_h1p_request_body_bytes_sent r < 2 ^ 63.
Proof.
  unfold nxt_h1p_request_body_bytes_sent. pose proof (s64_range (conn_sent (vars r) - sent_before_body (vars r))).
  destruct (0 <? _) eqn:E; zbool; lia.
Qed.

Lemma off_printed n : 0 <= n < 2 ^ 63 ->
  returns (printed sys_errlist alloc 20 (bytes_of_string "%O") [Arg64 n]) (Some (text_of_items (off_items n))).
Proof.
  intros Hn. eapply (printed_ok 20 (off_items n)); [apply off_items_ok; lia|reflexivity..|]. apply take_ge, off_length. done.
Qed.

Lemma body_bytes_ok : returns (var_body_bytes_sent sys_errlist alloc r) (http_value w nxt_http_var_body_bytes_sent None).
Proof.
  unfold var_body_bytes_sent. pose proof body_bytes_range. apply off_printed. unfold u64. rewrite Z.mod_small; lia.
Qed.

Lemma months_lookup n : 0 <= n < 12 -> exists m, months !! Z.to_nat n = Some m /\ nth (Z.to_nat n) months [] = m /\ NUL ∉ m /\ Forall byte m.
Proof.
  intros Hn. destruct (lookup_lt_is_Some_2 months (Z.to_nat n)) as [m Hm]; [change (length months) with 12%nat; lia|].
  exists m. split_and!; [done|by rewrite (nth_lookup_Some _ _ _ _ Hm)|..].
  all: apply list_elem_of_lookup_2 in Hm; unfold months in Hm; rewrite !elem_of_cons in Hm;
    repeat (destruct Hm as [->|Hm]; [first [apply bytes_of_string_byte|apply (bool_decide_unpack _); by vm_compute]|]); by apply elem_of_nil in Hm.
Qed.

Lemma log_items_ok t : 0 <= tm_mon t < 12 -> Forall item_ok (log_date_items t).
Proof.
  intros Ht. destruct (months_lookup (tm_mon t) Ht) as (m & _ & Hm & Hn & _). unfold log_date_items. cbn zeta. rewrite Hm.
  repeat first [apply Forall_nil_2|apply Forall_cons_2; [first [apply number_item_ok; [done|apply u32_range]|done|exact I]|]].
Qed.

Lemma log_date_ok t size : 0 <= tm_mon t < 12 ->
  nxt_http_log_date sys_errlist t size log_format = Ret (take size (text_of_items (log_date_items t))).
Proof.
  intros Ht. rewrite <- (sprintf_ok sys_errlist size (log_date_items t)) by (by apply log_items_ok).
  destruct (months_lookup (tm_mon t) Ht) as (m & Hl & Hm & _). unfold nxt_http_log_date.
  rewrite (proj2 (Z.ltb_ge (tm_mon t) 0)) by lia. rewrite Hl. unfold log_date_items. cbn zeta. rewrite Hm.
  destruct (Z.ltb_spec (Z.quot (tm_gmtoff t) 60) 0) as [H|H]; cbn [of_option obind];
    [rewrite Z.abs_neq by lia|rewrite Z.abs_eq by lia]; reflexivity.
Qed.

Lemma time_local_ok : returns (var_time_local sys_errlist alloc r) (http_value w nxt_http_var_time_local None).
Proof. apply returns_text, log_date_ok. by destruct Hw as [? ? ? ? ? ? ? ? ? ? ? []]. Qed.

(** A text of a fixed length. *)
Lemma returns_fixed (o : outcome (list Z)) t n : o = Ret t -> length t = n ->
  returns (let^ ok := pooled (request alloc) in
           if negb ok then hret None
           else fun s => let* t := o in if (length t =? n)%nat then Ret (Some (Some t), s) else Fault) (Some t).
Proof.
  intros -> <- s Hs. cbn [obind]. rewrite Nat.eqb_refl. by apply (returns_text (Ret t)).
Qed.

Lemma hex32_length z : 0 <= z < 2 ^ 32 -> length (item_text (Number (bytes_of_string "08") [Flag_x] Conv_D z)) = 8%nat.
Proof.
  intros Hz. cbn [item_text conv_value flags_signed forallb is_flag_m andb conv_hex flags_hex flag_hex conv_width digits_of].
  rewrite (proj2 (Z.ltb_ge z 0)) by lia. rewrite Z.abs_eq by lia. cbn [app]. rewrite length_app, repeat_length. change (width_of _) with 8.
  assert (Hl : forall fuel n m, 0 <= n < 16 ^ Z.of_nat m -> (length (numeral 16 (fun d => nth (Z.to_nat d) hexadecimal 0%Z) fuel n) <= S (m - 1))%nat).
  { induction fuel as [|fuel IH]; intros n m Hn; cbn [numeral]; [cbn; lia|]. rewrite length_app. cbn [length].
    destruct (Z.eqb_spec (n / 16) 0) as [E|E]; [cbn; lia|]. destruct m as [|m]; [cbn in Hn; dlia|].
    rewrite Nat2Z.inj_succ, Z.pow_succ_r in Hn by lia.
    assert (H0 : 0 < n / 16 < 16 ^ Z.of_nat m) by (split; [dlia|apply Z.div_lt_upper_bound; lia]).
    specialize (IH (n / 16) m ltac:(lia)). destruct m as [|m]; [cbn in H0; lia|]. lia. }
  specialize (Hl 20%nat z 8%nat ltac:(cbn; lia)). lia.
Qed.

Lemma request_id_ok : returns (var_request_id sys_errlist alloc r) (http_value w nxt_http_var_request_id None).
Proof.
  assert (Hr : let '(a, b, c, d) := random (vars r) in Forall (fun z => 0 <= z < 2 ^ 32) [a; b; c; d])
    by (by destruct Hw as [? ? ? ? ? ? ? ? ? ? ? []]).
  unfold var_request_id. cbn [http_value]. destruct (random (vars r)) as [[[a b] c] d]. rewrite !Forall_cons in Hr. destruct Hr as (Ha & Hb & Hc & Hd & _).
  set (is_ := id_items (a, b, c, d)). assert (Hl : length (text_of_items is_) = 32%nat).
  { unfold text_of_items, is_, id_items. cbn [fmap list_fmap mbind list_bind]. rewrite !length_app, !hex32_length by done. done. }
  apply returns_fixed; [|done]. rewrite <- (take_ge (text_of_items is_) 32) by lia. rewrite <- (sprintf_ok sys_errlist); [reflexivity|].
  repeat first [apply Forall_nil_2|apply Forall_cons_2; [by apply number_item_ok|]].
Qed.

Lemma status_ok : returns (var_status sys_errlist alloc r) (http_value w nxt_http_var_status None).
Proof.
  cbn [http_value]. set (is_ := status_items (status (vars r))). apply returns_fixed.
  - rewrite <- (sprintf_ok sys_errlist); [reflexivity|]. apply Forall_singleton, number_item_ok; [done|]. apply u32_range.
  - rewrite length_take. pose proof (number_length (bytes_of_string "03") [] Conv_d (u32 (status (vars r)))) as Hl.
    change (conv_width _ _ _) with 3 in Hl. unfold text_of_items, is_, status_items. cbn [mbind list_bind]. rewrite app_nil_r. lia.
Qed.

Lemma response_connection_ok : returns (var_response_connection r) (http_value w nxt_http_var_response_connection None).
Proof.
  unfold var_response_connection. cbn [http_value]. destruct (websocket_handshake (vars r) && (status (vars r) =? 101)); [by intros s Hs|].
  destruct (http11 (vars r)), (keepalive (vars r)); cbn; by intros s Hs.
Qed.

Lemma response_content_length_ok : returns (var_response_content_length sys_errlist alloc r) (http_value w nxt_http_var_response_content_length None).
Proof.
  unfold var_response_content_length. cbn [http_value]. destruct (resp_content_length (vars r)) as [f|]; [apply returns_ret|].
  assert (Hn : resp_content_length_n (vars r) < 2 ^ 63) by (by destruct Hw as [? ? ? ? ? ? ? ? ? ? ? []]).
  destruct (Z.leb_spec 0 (resp_content_length_n (vars r))); [|rewrite (proj2 (Z.ltb_lt _ _)) by lia; apply returns_ret].
  rewrite (proj2 (Z.ltb_ge _ _)) by lia. by apply off_printed.
Qed.

(** *** Arguments and cookies *)

Lemma find_nv_ok n l : find_nv n (hash_of n) (stored <$> l) = Ret (first_value n l).
Proof.
  induction l as [|p l IH]; [done|]. cbn [fmap list_fmap find_nv]. unfold same_nv. cbn [stored nv_hash nv_name nv_value].
  unfold first_value. rewrite filter_cons. destruct ((hash_of n =? hash_of p.1) && (Z.of_nat (length n) =? Z.of_nat (length p.1))) eqn:E.
  - apply andb_true_iff in E as [_ E]; zbool. rewrite memequal_ok by lia. cbn [obind]. rewrite !take_ge by lia.
    destruct (decide (p.1 = n)) as [<-|Hne]; [by rewrite bool_decide_true|]. rewrite bool_decide_false by congruence. exact IH.
  - cbn [obind]. rewrite decide_False; [exact IH|]. intros <-. by rewrite !Z.eqb_refl in E.
Qed.

Lemma first_value_rev n l : first_value n (rev l) = last_value n l.
Proof.
  unfold first_value, last_value. f_equal. induction l as [|p l IH] using rev_ind; [done|]. rewrite rev_app_distr, !filter_app. cbn [rev app].
  rewrite filter_cons, filter_nil. destruct (decide (p.1 = n)); cbn [app]; [by rewrite last_snoc|]. by rewrite app_nil_r.
Qed.

Lemma var_arg_ok n : returns (var_arg alloc r n (hash_of n)) (last_value n (arguments_of (default [] (args r)))).
Proof.
  intros s Hs. unfold wp, var_arg, hbind, request_arguments.
  destruct (arguments_parse_ok alloc (args r) (rs_args s) (mp (rs_match s))) as (a & ra & k' & -> & Hra & Ha);
    [by destruct Hs|by destruct Hw|by destruct Hw|]. cbn [obind].
  assert (Hs' : kept_ok alloc w (set_match (set_args s ra) (Match_state (regex_ready (rs_match s)) k'))) by (by destruct Hs).
  destruct a as [a|]; [|by destruct Ha].
  unfold args_kept in Hra. rewrite Ha in Hra. destruct Hra as [Hel _]. rewrite Hel.
  rewrite (entries_fit (length (default [] (args r)))) by (apply arguments_fit || by destruct Hw).
  set (l := arguments_of _). replace (rev (stored <$> l)) with (stored <$> rev l) by (apply (map_rev stored)).
  by rewrite find_nv_ok, first_value_rev.
Qed.

Lemma var_cookie_ok n : returns (var_cookie alloc r n (hash_of n)) (first_value n (request_cookies (v_fields w))).
Proof.
  intros s Hs. unfold wp, var_cookie, hbind, request_cookies_parse.
  destruct (cookies_parse_ok alloc (header r) (v_fields w) (inline_fields r) (fields r) (rs_cookies s) (mp (rs_match s)))
    as (a & c' & k' & -> & -> & Hc & Ha); [by destruct Hw..|by destruct Hs|]. cbn [obind].
  assert (Hs' : kept_ok alloc w (set_match (set_cookies s c') (Match_state (regex_ready (rs_match s)) k'))) by (by destruct Hs).
  destruct c' as [c|]; [|split; [done|by apply Ha]]. cbn in Hc. rewrite Hc, (entries_fit (Z.to_nat (value_bytes (v_fields w)))).
  - by rewrite find_nv_ok.
  - destruct Hw. unfold value_bytes in *. lia.
  - apply request_cookies_fit.
Qed.

(** *** Fields *)

Lemma header_named_ok n f fld : map nxt_lowcase n = n -> NUL ∉ n -> field_is (header r) f fld ->
  header_named r n (hash_of n) fld tt = Ret (if bool_decide (map nxt_lowcase (line_name f) = n) then inr (line_value f) else inl tt).
Proof.
  intros Hlow Hnul Hf. pose proof Hf as (_ & _ & Hnl & _ & Hh & _). unfold header_named. rewrite Hh, Hnl, fields_hash_key_of.
  destruct (_ && _) eqn:E.
  - apply andb_true_iff in E as [_ E]; zbool. destruct (field_name_at _ _ _ Hf) as [t Ht]. rewrite Ht, Nat2Z.id.
    destruct (strncasecmp_names n [] (line_name f) t) as (c & Hc & Hciff); [by left|lia|]. rewrite app_nil_r in Hc.
    replace (length (line_name f)) with (length n) by lia. rewrite Hc. cbn [obind]. destruct (field_texts _ _ _ Hf) as [_ ->].
    rewrite Hlow in Hciff. destruct (Z.eqb_spec c 0) as [Ec|Ec]; case_bool_decide as Eb; try done; exfalso;
      [apply Hciff in Ec; congruence|apply Ec, Hciff; congruence].
  - rewrite bool_decide_false; [done|]. intros <-. by rewrite length_map, !Z.eqb_refl in E.
Qed.

Lemma var_header_ok n : map nxt_lowcase n = n -> NUL ∉ n ->
  returns (var_header r n (hash_of n)) (first_value n ((fun f => (map nxt_lowcase (line_name f), line_value f)) <$> v_fields w)).
Proof.
  intros Hlow Hnul s Hs. unfold wp, var_header. rewrite fields_each_ok.
  assert (E : forall fs flds, Forall2 (field_is (header r)) fs flds -> exists x, each (header_named r n (hash_of n)) flds tt = Ret x /\
    found_value x = first_value n ((fun f => (map nxt_lowcase (line_name f), line_value f)) <$> fs)).
  { induction 1 as [|f fld fs flds Hf Hfs IH]; [by exists (inl tt)|]. cbn [each]. rewrite (header_named_ok n f fld) by done. cbn [obind].
    cbn [fmap list_fmap]. unfold first_value. rewrite filter_cons. cbn [fst]. case_bool_decide as Eb.
    - rewrite decide_True by done. by eexists.
    - rewrite decide_False by done. exact IH. }
  destruct (E _ _ (ok_fields w Hw)) as (x & -> & Hx). cbn [obind]. by rewrite Hx.
Qed.

Lemma field_name_loop_ok name : forall field, length name = length field -> forall rest,
  field_name_loop name (field ++ rest) = Ret (if bool_decide (map resp_char field = name) then 0 else 1).
Proof.
  induction name as [|c name IH]; intros [|c' field] Hl rest; try done. cbn [app field_name_loop map]. fold (resp_char c').
  destruct (Z.eqb_spec c (resp_char c')) as [->|Hne]; cbn [negb].
  - rewrite IH by (cbn in Hl; lia). do 2 case_bool_decide; try done; congruence.
  - rewrite bool_decide_false; [done|]. by intros [= ? _].
Qed.

Lemma response_named_ok n f : resp_field_ok (resp_memory (vars r)) f ->
  response_named r n f tt = Ret (if bool_decide (fld_skip f = false /\ map resp_char (fld_name_text (resp_memory (vars r)) f) = n)
    then inr (fld_value_text (resp_memory (vars r)) f) else inl tt).
Proof.
  intros [Hl Hin]. unfold response_named. destruct (fld_skip f); [by rewrite bool_decide_false by (by intros [? _])|].
  unfold nxt_http_field_name_cmp. set (mem := resp_memory (vars r)) in *.
  assert (Ht : exists rest, drop (fld_name f) mem = fld_name_text mem f ++ rest).
  { exists (drop (Z.to_nat (fld_name_length f)) (drop (fld_name f) mem)). unfold fld_name_text, window. rewrite skipn_firstn_comm.
    replace (_ + _ - _)%nat with (Z.to_nat (fld_name_length f)) by lia. by rewrite take_drop. }
  destruct Ht as [rest Ht]. assert (Hlen : length (fld_name_text mem f) = Z.to_nat (fld_name_length f)).
  { unfold fld_name_text, window. rewrite length_drop, length_take. lia. }
  destruct (Z.eqb_spec (Z.of_nat (length n)) (fld_name_length f)) as [E|E]; cbn [negb].
  - rewrite Ht, field_name_loop_ok by lia. cbn [obind]. do 2 case_bool_decide; try done; exfalso; intuition.
  - cbn [obind]. rewrite bool_decide_false; [done|]. intros [_ <-]. rewrite length_map in E. lia.
Qed.

Lemma var_response_header_ok n : returns (var_response_header r n) (resp_value (vars r) n).
Proof.
  intros s Hs. unfold wp, var_response_header. rewrite fields_each_ok. unfold resp_value. set (mem := resp_memory (vars r)).
  assert (E : forall fs, Forall (resp_field_ok mem) fs -> exists x, each (response_named r n) fs tt = Ret x /\
    found_value x = fld_value_text mem <$> head (filter (fun f => fld_skip f = false /\ map resp_char (fld_name_text mem f) = n) fs)).
  { induction 1 as [|f fs Hf Hfs IH]; [by exists (inl tt)|]. cbn [each]. rewrite response_named_ok by done. cbn [obind].
    rewrite filter_cons. fold mem. case_bool_decide as Eb; [rewrite decide_True by done; by eexists|]. by rewrite decide_False. }
  destruct (E _ (ok_resp_fields _ (ok_vars w Hw))) as (x & -> & Hx). cbn [obind]. by rewrite Hx.
Qed.

(** Every handler with its data. *)
Lemma http_run_ok h d : data_ok h d -> returns (http_run_handler sys_errlist alloc r h d) (http_value w h d).
Proof.
  intros Hd. destruct (ok_path w Hw) as (p & Hp & _). destruct (ok_method w Hw) as (m & Hm & _).
  destruct h; cbn [http_run_handler]; try apply returns_ret.
  - apply request_time_ok.
  - cbn [http_value]. rewrite Hm. apply returns_ret.
  - cbn [http_value]. rewrite Hp. apply returns_ret.
  - apply time_local_ok.
  - apply request_id_ok.
  - apply status_ok.
  - apply body_bytes_ok.
  - apply response_connection_ok.
  - apply response_content_length_ok.
  - destruct d as [[n hash|]|]; [|done..]. cbn in Hd. subst hash. apply var_arg_ok.
  - destruct d as [[n hash|]|]; [|done..]. destruct Hd as (-> & ? & ?). by apply var_header_ok.
  - destruct d as [[n hash|]|]; [|done..]. cbn in Hd. subst hash. apply var_cookie_ok.
  - destruct d as [[n hash|]|]; [done| |done]. apply var_response_header_ok.
Qed.

(** ** The values are texts *)

Lemma split_on_bytes sep s : Forall byte s -> forall p, p ∈ split_on sep s -> Forall byte p.
Proof.
  induction 1 as [|c s Hc Hs IH]; intros p; cbn; [intros ->%list_elem_of_singleton; constructor|]. destruct (c =? sep).
  - intros [->|Hp]%elem_of_cons; [constructor|by apply IH].
  - destruct (split_on_cons sep s) as (x & xs & E). rewrite E in *. intros [->|Hp]%elem_of_cons; [|apply IH; by right].
    constructor; [done|]. apply IH. by left.
Qed.

Lemma cut_bytes sep s : Forall byte s -> Forall byte (cut sep s).1 /\ Forall byte (default [] (cut sep s).2).
Proof.
  induction 1 as [|c s Hc Hs [IH1 IH2]]; [by split; constructor|]. cbn. destruct (c =? sep); [by split; [constructor|]|].
  destruct (cut sep s) as [x y]. cbn in *. by split; [constructor|].
Qed.

Lemma lenient_bytes n : forall s, (length s <= n)%nat -> Forall byte s -> Forall byte (lenient s).
Proof.
  assert (Hsp : byte SP) by (unfold byte; lia).
  induction n as [|n IH]; intros [|c s] Hn Hb; cbn in Hn; try lia; [constructor..|]. apply Forall_cons in Hb as [Hc Hb].
  assert (Hs : Forall byte (lenient s)) by (apply IH; [lia|done]). cbn [lenient].
  destruct (c =? PLUS); [by constructor|]. destruct (c =? PERCENT); [|by constructor].
  destruct s as [|h [|l s]]; [by constructor..|]. destruct (hex_value h) as [a|] eqn:E1; [|by constructor].
  destruct (hex_value l) as [b|] eqn:E2; [|by constructor]. apply hex_value_range in E1, E2. constructor; [unfold byte; lia|].
  apply IH; [cbn in Hn; lia|]. by do 2 (apply Forall_cons in Hb as [_ Hb]).
Qed.

Lemma drop_spaces_bytes s : Forall byte s -> Forall byte (drop_spaces s).
Proof. intros Hs. destruct (drop_spaces_suffix s) as [_ ->]. by apply Forall_drop. Qed.

Lemma rev_bytes s : Forall byte s -> Forall byte (rev s).
Proof. apply Forall_rev. Qed.

Lemma arguments_bytes query : Forall byte query -> Forall (fun p => Forall byte p.2) (arguments_of query).
Proof.
  intros Hq. apply Forall_forall. intros e He. apply list_elem_of_bind in He as (part & He & Hp).
  apply (split_on_bytes _ _ Hq) in Hp. unfold argument_of in He. pose proof (cut_bytes EQUALS part Hp) as [_ H2].
  destruct (cut EQUALS part) as [x y]. unfold named in He. case_match; [by apply elem_of_nil in He|].
  apply list_elem_of_singleton in He as ->. cbn in *. by eapply lenient_bytes.
Qed.

Lemma cookies_bytes text : Forall byte text -> Forall (fun p => Forall byte p.2) (cookies_of text).
Proof.
  intros Ht. apply Forall_forall. intros e He. apply list_elem_of_bind in He as (part & He & Hp).
  apply (split_on_bytes _ _ Ht) in Hp. unfold cookie_of in He. pose proof (cut_bytes EQUALS part Hp) as [_ H2].
  destruct (cut EQUALS part) as [x [y|]]; [|by apply elem_of_nil in He]. apply list_elem_of_singleton in He as ->. cbn in *.
  by apply rev_bytes, drop_spaces_bytes, rev_bytes.
Qed.

Lemma line_value_bytes : Forall (fun f => Forall byte (line_value f)) (v_fields w).
Proof.
  destruct (ok_header w Hw) as [Hb _]. pose proof (ok_fields w Hw) as Hf. clear -Hb Hf.
  induction Hf as [|f fld fs flds (_ & Hv & _) Hfs IH]; constructor; [|done]. rewrite <- Hv. by apply Forall_take, Forall_drop.
Qed.

Lemma window_text m i j : text_ok m -> text_ok (window m i j).
Proof.
  intros [Hb Hl]. unfold window. split; [by apply Forall_drop, Forall_take|]. rewrite length_drop, length_take. lia.
Qed.

Lemma items_text n is_ : Forall item_ok is_ -> Forall item_bytes is_ -> Z.of_nat n < 2 ^ 32 -> text_ok (take n (text_of_items is_)).
Proof. intros H1 H2 Hn. split; [by apply Forall_take, items_byte|]. rewrite length_take. lia. Qed.

Lemma string_text s : (String.length s < 100)%nat -> text_ok (bytes_of_string s).
Proof.
  intros Hs. split; [apply bytes_of_string_byte|]. assert (E : length (bytes_of_string s) = String.length s) by (clear; induction s; cbn; congruence).
  lia.
Qed.

Lemma filtered_ok (P : list Z * list Z -> Prop) `{!forall x, Decision (P x)} (l : list (list Z * list Z)) n :
  Forall (fun p => Forall byte p.2) l -> Forall (fun p => (length p.2 <= n)%nat) l -> Z.of_nat n <= 43690 ->
  str_ok (snd <$> head (filter P l)) /\ str_ok (snd <$> last (filter P l)).
Proof.
  intros Hb Hf Hn. assert (Hp : forall p, p ∈ filter P l -> text_ok p.2).
  { intros p Hp. apply list_elem_of_filter in Hp as [_ Hp]. rewrite Forall_forall in Hb, Hf. split; [by apply Hb|].
    specialize (Hf p Hp). lia. }
  assert (H0 : text_ok []) by (split; [constructor|done]). unfold str_ok. split.
  - destruct (filter P l) as [|p l'] eqn:E; [done|]. cbn. apply Hp. by left.
  - destruct (last (filter P l)) as [p|] eqn:E; [|done]. cbn. apply Hp. by apply last_Some_elem_of.
Qed.

Lemma fits_second n l : Forall (fits n) l -> Forall (fun p => (length p.2 <= n)%nat) l.
Proof. intros H. eapply Forall_impl; [exact H|]. by intros p [_ ?]. Qed.

Lemma line_values_fit fs : Forall (fun f => (length (line_value f) <= Z.to_nat (value_bytes fs))%nat) fs.
Proof.
  unfold value_bytes. rewrite Nat2Z.id. induction fs as [|f fs IH]; [constructor|]. cbn. rewrite length_app. constructor; [lia|].
  eapply Forall_impl; [exact IH|]. cbn. intros g Hg. lia.
Qed.

Lemma http_value_ok h d : data_ok h d -> str_ok (http_value w h d).
Proof.
  intros Hd. assert (H0 : text_ok []) by (split; [constructor|done]). pose proof (ok_vars w Hw) as Hv.
  assert (Hwin : forall m (o : option nxt_http_field), text_ok m -> str_ok (fld_value_text m <$> o)).
  { intros m [f|] Hm; [|exact H0]. by apply window_text. }
  assert (Hbytes : forall l, (forall i, i ∈ l -> item_bytes i) -> Forall item_bytes l) by (intros l; by rewrite Forall_forall).
  destruct h; cbn [http_value]; unfold str_ok.
  - split; [apply Forall_singleton; unfold byte; lia|done].
  - apply items_text; [apply time_items_ok, u32_range| |done]. repeat constructor; cbn; unfold byte; lia.
  - by destruct (ok_method w Hw) as (s & -> & Hs).
  - by destruct Hv.
  - by destruct (ok_path w Hw) as (s & -> & Hs).
  - by destruct Hw.
  - by destruct Hv.
  - destruct (months_lookup (tm_mon (local_time (vars r))) (ok_month _ Hv)) as (m & _ & Hm & _ & Hmb).
    apply items_text; [apply log_items_ok; by destruct Hv| |done]. unfold log_date_items. cbn zeta. rewrite Hm.
    repeat first [apply Forall_nil_2|apply Forall_cons_2; [first [exact I|exact Hmb|cbn; unfold byte; lia]|]].
  - by destruct Hv.
  - pose proof (ok_random _ Hv) as Hr. destruct (random (vars r)) as [[[a b] c] e]. rewrite !Forall_cons in Hr. destruct Hr as (Ha & Hb & Hc & He & _).
    cbn [default from_option id]. split.
    + apply items_byte; repeat first [apply Forall_nil_2|apply Forall_cons_2; [first [by apply number_item_ok|exact I]|]].
    + unfold text_of_items, id_items. cbn [fmap list_fmap mbind list_bind]. rewrite !length_app, !hex32_length by done. done.
  - apply items_text; [apply Forall_singleton, number_item_ok; [done|apply u32_range]|by apply Forall_singleton|done].
  - cbn [default from_option id]. pose proof body_bytes_range. assert (E : u64 (nxt_h1p_request_body_bytes_sent r) = nxt_h1p_request_body_bytes_sent r)
      by (unfold u64; rewrite Z.mod_small; lia). rewrite E. rewrite <- (take_ge (text_of_items _) 20) by (by apply off_length).
    apply items_text; [apply off_items_ok; lia|by apply Forall_singleton|done].
  - apply Hwin. by destruct Hw.
  - apply Hwin. by destruct Hw.
  - destruct (_ && _); [by apply string_text; cbn; lia|]. destruct (Bool.eqb _ _); [done|]. destruct (keepalive _); apply string_text; cbn; lia.
  - destruct (resp_content_length (vars r)) as [f|]; [apply window_text; by destruct Hv|]. destruct (Z.ltb_spec (resp_content_length_n (vars r)) 0); [done|].
    cbn [default from_option id]. pose proof (ok_content_length_n _ Hv). rewrite <- (take_ge (text_of_items _) 20) by (by apply off_length).
    apply items_text; [apply off_items_ok; lia|by apply Forall_singleton|done].
  - destruct (chunked _); [apply string_text; cbn; lia|done].
  - destruct d as [[n hash|]|]; [|done..]. eapply filtered_ok; [apply arguments_bytes; by destruct Hw|apply fits_second, arguments_fit|by destruct Hw].
  - destruct d as [[n hash|]|]; [|done..]. apply (filtered_ok _ _ (Z.to_nat (value_bytes (v_fields w))));
      [apply Forall_fmap; exact line_value_bytes| |destruct Hw; unfold value_bytes in *; lia].
    apply Forall_fmap, line_values_fit.
  - destruct d as [[n hash|]|]; [|done..]. eapply filtered_ok; [|apply fits_second, request_cookies_fit|destruct Hw; unfold value_bytes in *; lia].
    apply Forall_forall. intros p (f & Hp & Hf)%list_elem_of_bind. pose proof line_value_bytes as Hl. rewrite Forall_forall in Hl.
    destruct (is_cookie f); [|by apply elem_of_nil in Hp]. pose proof (cookies_bytes _ (Hl f Hf)) as Hc. rewrite Forall_forall in Hc. by apply Hc.
  - destruct d as [[n hash|]|]; [done| |done]. unfold resp_value. apply Hwin. by destruct Hv.
Qed.

End Run.

(** ** The module is a host of variables *)

Lemma decls_distinct {D : Double} (sys_errlist : list (list Z)) : NoDup (decl_name <$> nxt_http_vars sys_errlist).
Proof. apply (bool_decide_unpack _). by vm_compute. Qed.

Lemma declared_data {D : Double} (sys_errlist : list (list Z)) d : d ∈ nxt_http_vars sys_errlist -> data_ok (decl_handler d) None.
Proof.
  intros Hd. assert (H : Forall (fun d : @nxt_var_decl (http_vars sys_errlist) => data_ok (decl_handler d) None) (nxt_http_vars sys_errlist)) by (repeat constructor).
  rewrite Forall_forall in H. by apply H.
Qed.

Lemma resolve_data {D : Double} (sys_errlist : list (list Z)) name (h : http_handler) c d : is_name name ->
  match list_find (fun d => decl_name d = name) (nxt_http_vars sys_errlist) with
  | Some (_, d) => Some (decl_handler d, decl_cacheable d, None)
  | None => (fun '(h, c, d) => (h, c, Some d)) <$> http_unknown name
  end = Some (h, c, d) -> data_ok h d.
Proof.
  intros Hn. destruct (list_find _ _) as [[i x]|] eqn:E.
  - intros [= <- <- <-]. apply list_find_Some in E as (Hx & _). by eapply declared_data, list_elem_of_lookup_2.
  - destruct (http_unknown name) as [[[h' c'] d']|] eqn:Eu; [|done]. cbn. intros [= <- <- <-]. by eapply unknown_data.
Qed.

#[export] Program Instance http_vars_spec {D : Double} (sys_errlist : list (list Z)) : VarHostSpec (http_vars sys_errlist) := {|
  var_decls := nxt_http_vars sys_errlist;
  var_unknown := http_unknown;
  VarSpec.view := view;
  view_ctx := v_request;
  host_ok := fun alloc w s => request_ok w /\ kept_ok alloc w s;
  host_value := http_value
|}.
Next Obligation. intros. apply decls_distinct. Qed.
Next Obligation. intros. by apply http_unknown_ok. Qed.
Next Obligation.
  intros D sys_errlist alloc w s name h c d Hn Hr [Hw Hs].
  pose proof (resolve_data sys_errlist name h c d Hn Hr) as Hd.
  eapply wp_conseq; [exact (http_run_ok sys_errlist alloc w Hw h d Hd s Hs)|]. intros x s' [Hs' Hx]. done.
Qed.
Next Obligation.
  intros D sys_errlist alloc w s name h c d Hn Hr [Hw Hs].
  exact (http_value_ok alloc w Hw h d (resolve_data sys_errlist name h c d Hn Hr)).
Qed.
Next Obligation.
  intros D sys_errlist alloc A m Q w s Hm [Hw Hs]. eapply wp_pooled; [done|exact Hm|]. done.
Qed.
