(* ===== verification/HttpTemplate.v ===== *)
(** * Templates of requests

    The module of HttpVars.v behind the templates of Tstr.v: strings of the
    configuration with the variables of a request in them. *)

From stdpp Require Import gmap.
From S2P Require Import Prelude NxtArray NxtList HttpFields Heap RoutePattern Args RouteAddr RouteAddrSpec Sprintf VarEscape Var VarSpec Tstr TstrSpec.
From S2P Require Import HttpReq HttpVars HttpVarsSpec Lvlhsh.

#[local] Open Scope Z_scope.

(** C12. Templates.  Once [nxt_http_register_variables()] has registered the
    variables, which fails for want of memory only, [nxt_tstr_compile()] makes of
    a string of the configuration a template whose text is read in one way, all
    of whose names are variables; it fails only when there is no such reading, a
    name is unknown, or memory is short.  However the templates of the
    configuration go on, and whatever is cached of the request,
    [nxt_tstr_query()] of the template returns its text with the value that each
    variable has for the request in the place of its name, escaped and marked as
    the flags say, with the newline that was asked for and without the NUL, and
    keeps the cache right; it fails for want of memory only.  [nxt_tstr_test()]
    accepts a string exactly when it can be compiled. *)
Theorem nxt_tstr_correct {D : Double} (sys_errlist : list (list Z)) (alloc : nat -> bool)
    (st : @nxt_tstr_state (http_vars sys_errlist)) (str : list Z) (flags : nxt_tstr_flags) :
  refs_ok (VS := http_vars_spec sys_errlist) st ->
  nxt_tstr_is_js str = false -> Z.of_nat (length str) < 2 ^ 31 -> Z.of_nat (length (elts (var_refs st)) + dollars str) <= 43690 ->
  (forall k, exists rc var_hash k', nxt_http_register_variables sys_errlist alloc Null k = Ret ((rc, var_hash), k') /\
     ((rc = NXT_OK /\ var_hash_ok (VS := http_vars_spec sys_errlist) var_hash) \/ (rc = NXT_ERROR /\ exists j, alloc j = false))) /\
  forall var_hash k, var_hash_ok (VS := http_vars_spec sys_errlist) var_hash ->
    (exists r k', nxt_tstr_compile alloc var_hash st str flags k = Ret (r, k') /\
       match r with
       | Some x => compiled st str flags x
       | None => unknown_in (VS := http_vars_spec sys_errlist) str \/ exists j, alloc j = false
       end) /\
    (exists r st' k', nxt_tstr_test alloc var_hash st str k = Ret ((r, st'), k') /\
       match r with
       | None => ~ unknown_in (VS := http_vars_spec sys_errlist) str
       | Some _ => unknown_in (VS := http_vars_spec sys_errlist) str \/ exists j, alloc j = false
       end).
Proof.
  intros Hst Hjs Hlen Hn. split; [apply (nxt_var_register_ok (VS := http_vars_spec sys_errlist))|]. intros var_hash k Hvh. split.
  - by apply tstr_compile_ok.
  - destruct (tstr_test_ok alloc var_hash Hvh st str k Hst Hn) as (r & st' & k' & E & Hr). exists r, st', k'. split; [exact E|].
    destruct r; [|tauto]. rewrite Hjs in Hr. by destruct Hr as [Hr|Hr].
Qed.

(** ** A request *)

(** [GET /a?x=1] without fields. *)
Definition sample_http_request : nxt_http_request :=
  Request false None (Some (Some (bytes_of_string "/a"))) (Some (Some (bytes_of_string "GET"))) (Some (bytes_of_string "x=1"))
    [] [] None (SA_INET 0 0) true None
    (Request_vars (Some (bytes_of_string "/a?x=1")) (Some (bytes_of_string "GET /a?x=1 HTTP/1.1")) (bytes_of_string "0.0.0.0") None None
       0 false true true false 0 0 [] [] None None (-1) 0 0 (Tm 1 0 70 0 0 0 0) (0, 0, 0, 0)).

Definition sample_view : view := View sample_http_request [] None.

Definition sample_state : route_state :=
  Route_state (Args_state None None 0) None None None false (Var_cache Null None [] 0) (Match_state false 0).

Lemma sample_view_ok : request_ok sample_view.
Proof.
  assert (Ht : forall s, (length (bytes_of_string s) < 100)%nat -> text_ok (bytes_of_string s)).
  { intros s Hs. split; [apply bytes_of_string_byte|lia]. }
  assert (Hn : text_ok []) by (split; [constructor|done]).
  split; cbn -[Z.pow bytes_of_string]; [by apply Forall2_nil_2|by apply Forall_nil_2|done|apply bytes_of_string_byte|done|split; lia|done|done|done|..].
  - eexists. split; [done|]. by apply Ht; cbn; lia.
  - eexists. split; [done|]. by apply Ht; cbn; lia.
  - split; cbn -[Z.pow bytes_of_string]; [apply Ht; cbn; lia..|done|constructor|lia|lia|by repeat constructor].
Qed.

Lemma sample_state_ok alloc : kept_ok alloc sample_view sample_state.
Proof. by split. Qed.

(** The variables of requests. *)
Definition sample_vars : slot (@nxt_var_decl (@http_vars no_floats [])) :=
  match @nxt_http_register_variables no_floats [] (fun _ => true) Null 0%nat with Ret ((_, h), _) => h | _ => Null end.

Lemma sample_vars_ok : var_hash_ok (VS := @http_vars_spec no_floats []) sample_vars.
Proof.
  destruct (nxt_var_register_ok (VS := @http_vars_spec no_floats []) (fun _ => true) 0) as (rc & h & k' & E & Hr).
  unfold sample_vars, nxt_http_register_variables. change (@nxt_http_vars no_floats []) with (@var_decls _ (@http_vars_spec no_floats [])).
  rewrite E. by destruct Hr as [[_ Hr]|[_ [j Hj]]].
Qed.

Definition no_refs : @nxt_tstr_state (@http_vars no_floats []) := Tstr_state (Arr [] 4 4).

Lemma no_refs_ok : refs_ok (VS := @http_vars_spec no_floats []) no_refs.
Proof. split; [apply (array_fresh 4); lia|done]. Qed.

(** [${method} $arg_x] *)
Definition sample_parts : list part := [Named (bytes_of_string "method") true; Text [SP]; Named (bytes_of_string "arg_x") false].

Lemma sample_template : template sample_parts.
Proof. cbn [template sample_parts]. split_and!; try done. by rewrite list_elem_of_singleton. Qed.

Lemma sample_known : ~ unknown_in (VS := @http_vars_spec no_floats []) (bytes_of_string "${method} $arg_x").
Proof.
  intros [Hno|(ps & n & Hps & Et & Hn & Hres)]; [apply (Hno sample_parts sample_template); vm_compute; reflexivity|].
  rewrite (template_unique ps sample_parts Hps sample_template Et) in Hn. change (n ∈ [bytes_of_string "method"; bytes_of_string "arg_x"]) in Hn.
  apply elem_of_cons in Hn as [->|Hn]; [|apply list_elem_of_singleton in Hn; subst n]; vm_compute in Hres; discriminate.
Qed.

Lemma sample_expansion : @expansion _ (@http_vars_spec no_floats []) sample_view (var_flags no_flags) sample_parts = bytes_of_string "GET 1".
Proof. vm_compute. reflexivity. Qed.

Lemma nxt_tstr_correct_witness :
  exists t st k,
    @nxt_tstr_compile (@http_vars no_floats []) (fun _ => true) sample_vars no_refs (bytes_of_string "${method} $arg_x") no_flags 0%nat = Ret (Some (t, st), k) /\
    wp (nxt_tstr_query (fun _ => true) st sample_http_request t) (fun r _ => r = Some (bytes_of_string "GET 1"))
      (rs_cache sample_state, sample_state).
Proof.
  destruct (@nxt_tstr_correct no_floats [] (fun _ => true) no_refs (bytes_of_string "${method} $arg_x") no_flags) as [_ H];
    [apply no_refs_ok|vm_compute; reflexivity|vm_compute; reflexivity|vm_compute; discriminate|].
  destruct (H sample_vars 0%nat sample_vars_ok) as [(r & k & E & Hr) _].
  destruct r as [[t st]|]; [|destruct Hr as [Hr|[j Hj]]; [destruct (sample_known Hr)|discriminate Hj]].
  destruct Hr as (Hst & _ & _ & ps & Hps & Et & _ & Hm). exists t, st, k. split; [exact E|].
  rewrite (template_unique ps sample_parts Hps sample_template Et) in Hm.
  eapply wp_conseq; [apply (Hm (fun _ => true) st sample_view); [exact Hst|reflexivity|apply cache_empty_ok|]|].
  - split; [apply sample_view_ok|apply sample_state_ok].
  - intros v q [_ Hv]. destruct v as [v|]; [|destruct Hv as [j Hj]; discriminate Hj].
    destruct Hv as [-> _]. by rewrite sample_expansion.
Defined.
