(* ===== verification/Route.v ===== *)
(** * Routes: [src/nxt_http_route.c]

    A route is a list of steps.  A step has tests of the request and an action;
    the action of the first step that passes its tests is taken.  The tests are
    made from the configuration, with the patterns of RoutePattern.v and
    RouteAddr.v; a test looks at a string of the request, at its arguments,
    cookies and header fields, or at its addresses. *)

From S2P Require Import Prelude Str Uri Lvlhsh NxtList HttpFields HttpHeader Heap NxtArray.
From S2P Require Import ConfValue ConfOps RoutePattern RouteGlob Args Qsort Inet RouteAddr.
From S2P Require Import Sprintf Var Tstr HttpReq HttpVars.

#[local] Open Scope Z_scope.

(** The strings that [rule->u.offset] refers to. *)
Inductive request_string := REQUEST_HOST | REQUEST_PATH | REQUEST_METHOD.

(** [rule->u.name]: the length is kept in 16 bits. *)
Record rule_name := Rule_name {
  rn_start : list Z;
  rn_hash : Z;
  rn_length : Z
}.

Inductive nxt_http_route_object_t :=
| ROUTE_STRING (offset : request_string)
| ROUTE_STRING_PTR (offset : request_string)
| ROUTE_HEADER (name : rule_name)
| ROUTE_ARGUMENT (name : rule_name)
| ROUTE_COOKIE (name : rule_name)
| ROUTE_SCHEME
| ROUTE_QUERY.

Section Route.
Context {RE : Regex} {Q : Qsort} {D : Double} (sys_errlist : list (list Z)) (alloc : nat -> bool).
Context {action_t : Type}.

(** The variables are those of requests. *)
#[local] Hint Extern 0 VarHost => exact (http_vars sys_errlist) : typeclass_instances.

Record nxt_http_route_rule_t := Rule {
  object : nxt_http_route_object_t;
  pattern : list nxt_http_route_pattern_t
}.

Inductive nxt_http_route_test_t :=
| Test_rule (rule : nxt_http_route_rule_t)
| Test_table (table : list (list nxt_http_route_rule_t))
| Test_source (rule : list nxt_http_route_addr_pattern_t)
| Test_destination (rule : list nxt_http_route_addr_pattern_t).

(** [test] has [items] places, which are [None] for [NULL] until they are set. *)
Record nxt_http_route_match_t := Match {
  condition : nxt_tstr_cond;
  action : action_t;
  test : list (option nxt_http_route_test_t)
}.

Record nxt_http_route_t := Route { route_name : list Z; match_ : list nxt_http_route_match_t }.

(** ** Creation *)

Definition nxt_http_pattern_compare : list Z -> list Z -> Z := flag_compare negated.

(** The strings of the values; other values have none. *)
Definition conf_string_of (cv : conf_value) : option (list Z) :=
  match cv with VALUE_STRING s => Some (nxt_conf_get_string s) | _ => None end.

(** An array is sorted in its place. *)
Definition nxt_conf_array_qsort (cv : conf_value) (tests : list (list Z)) : list (list Z) :=
  match cv with VALUE_ARRAY _ => nxt_qsort nxt_http_pattern_compare tests | _ => tests end.

Fixpoint create_patterns (pattern_case : nxt_http_route_pattern_case) (encoding : nxt_http_uri_encoding) (case_sensitive : bool)
    (tests : list (list Z)) : Alloc (option (list nxt_http_route_pattern_t)) :=
  match tests with
  | [] => aret (Some [])
  | test :: tests =>
      let? p := nxt_http_route_pattern_create alloc pattern_case encoding test case_sensitive in
      let? ps := create_patterns pattern_case encoding case_sensitive tests in
      aret (Some (p :: ps))
  end.

Definition nxt_http_route_rule_create (cv : conf_value) (case_sensitive : bool) (pattern_case : nxt_http_route_pattern_case)
    (encoding : nxt_http_uri_encoding) : Alloc (option (list nxt_http_route_pattern_t)) :=
  let! ok := request alloc in
  if negb ok then aret None
  else
    let! tests := alift (of_option (mapM conf_string_of (nxt_conf_elements_or_itself cv))) in
    create_patterns pattern_case encoding case_sensitive (nxt_conf_array_qsort cv tests).

Definition nxt_http_route_rule_name_create (cv : conf_value) (name : list Z) (case_sensitive : bool)
    (encoding : nxt_http_uri_encoding) (object : rule_name -> nxt_http_route_object_t) : Alloc (option nxt_http_route_rule_t) :=
  let? ps := nxt_http_route_rule_create cv case_sensitive PATTERN_NOCASE encoding in
  let? (name, hash) := nxt_http_field_hash alloc name case_sensitive encoding in
  aret (Some (Rule (object (Rule_name name hash (u16 (Z.of_nat (length name))))) ps)).

Fixpoint create_ruleset (members : list (conf_string * conf_value)) (object : rule_name -> nxt_http_route_object_t)
    (case_sensitive : bool) (encoding : nxt_http_uri_encoding) : Alloc (option (list nxt_http_route_rule_t)) :=
  match members with
  | [] => aret (Some [])
  | (name, cv) :: members =>
      let? rule := nxt_http_route_rule_name_create cv (nxt_conf_get_string name) case_sensitive encoding object in
      let? rules := create_ruleset members object case_sensitive encoding in
      aret (Some (rule :: rules))
  end.

(** The members of an object; there is no object behind other values. *)
Definition members_of (cv : conf_value) : outcome (list (conf_string * conf_value)) :=
  match cv with VALUE_OBJECT l => Ret l | _ => Fault end.

Definition nxt_http_route_ruleset_create (cv : conf_value) (object : rule_name -> nxt_http_route_object_t)
    (case_sensitive : bool) (encoding : nxt_http_uri_encoding) : Alloc (option (list nxt_http_route_rule_t)) :=
  let! members := alift (members_of cv) in
  let! ok := request alloc in
  if negb ok then aret None else create_ruleset members object case_sensitive encoding.

Fixpoint create_table (cvs : list conf_value) (object : rule_name -> nxt_http_route_object_t)
    (case_sensitive : bool) (encoding : nxt_http_uri_encoding) : Alloc (option (list (list nxt_http_route_rule_t))) :=
  match cvs with
  | [] => aret (Some [])
  | cv :: cvs =>
      let? ruleset := nxt_http_route_ruleset_create cv object case_sensitive encoding in
      let? rulesets := create_table cvs object case_sensitive encoding in
      aret (Some (ruleset :: rulesets))
  end.

Definition nxt_http_route_table_create (cv : conf_value) (object : rule_name -> nxt_http_route_object_t)
    (case_sensitive : bool) (encoding : nxt_http_uri_encoding) : Alloc (option (list (list nxt_http_route_rule_t))) :=
  let! ok := request alloc in
  if negb ok then aret None else create_table (nxt_conf_elements_or_itself cv) object case_sensitive encoding.

Section Steps.
Context (var_hash : slot nxt_var_decl).
Context (action_init : nxt_tstr_state -> conf_value -> Alloc (option (action_t * nxt_tstr_state))).
Context (buf : list Z) (source_mem destination_mem : nat -> list Z).

(** A member of [nxt_http_route_match_conf] after [nxt_conf_map_object()]. *)
Definition map_ptr (mc : conf_value) (name : list Z) : option conf_value :=
  match nxt_conf_get_object_member mc name with
  | None | Some (_, VALUE_NULL) => None
  | Some (_, v) => Some v
  end.

(** The test of a member that is there goes behind the others. *)
Definition when (cv : option conf_value) (create : conf_value -> Alloc (option nxt_http_route_test_t))
    (tests : list nxt_http_route_test_t) : Alloc (option (list nxt_http_route_test_t)) :=
  match cv with
  | None => aret (Some tests)
  | Some cv => let? t := create cv in aret (Some (tests ++ [t]))
  end.

Definition rule_test (object : nxt_http_route_object_t) (pattern_case : nxt_http_route_pattern_case)
    (encoding : nxt_http_uri_encoding) (cv : conf_value) : Alloc (option nxt_http_route_test_t) :=
  let? ps := nxt_http_route_rule_create cv true pattern_case encoding in
  aret (Some (Test_rule (Rule object ps))).

Definition table_test (object : rule_name -> nxt_http_route_object_t) (case_sensitive : bool)
    (encoding : nxt_http_uri_encoding) (cv : conf_value) : Alloc (option nxt_http_route_test_t) :=
  let? table := nxt_http_route_table_create cv object case_sensitive encoding in
  aret (Some (Test_table table)).

Definition addr_test (test : list nxt_http_route_addr_pattern_t -> nxt_http_route_test_t) (mem : nat -> list Z)
    (cv : conf_value) : Alloc (option nxt_http_route_test_t) :=
  let? rule := nxt_http_route_addr_rule_create alloc mem cv in
  aret (Some (test rule)).

Definition create_tests (mc : conf_value) : Alloc (option (list nxt_http_route_test_t)) :=
  let? t := when (map_ptr mc (bytes_of_string "scheme")) (rule_test ROUTE_SCHEME PATTERN_NOCASE URI_ENCODING_NONE) [] in
  let? t := when (map_ptr mc (bytes_of_string "host")) (rule_test (ROUTE_STRING REQUEST_HOST) PATTERN_LOWCASE URI_ENCODING_NONE) t in
  let? t := when (map_ptr mc (bytes_of_string "uri")) (rule_test (ROUTE_STRING_PTR REQUEST_PATH) PATTERN_NOCASE URI_ENCODING) t in
  let? t := when (map_ptr mc (bytes_of_string "method")) (rule_test (ROUTE_STRING_PTR REQUEST_METHOD) PATTERN_UPCASE URI_ENCODING_NONE) t in
  let? t := when (map_ptr mc (bytes_of_string "headers")) (table_test ROUTE_HEADER false URI_ENCODING_NONE) t in
  let? t := when (map_ptr mc (bytes_of_string "arguments")) (table_test ROUTE_ARGUMENT true URI_ENCODING_PLUS) t in
  let? t := when (map_ptr mc (bytes_of_string "cookies")) (table_test ROUTE_COOKIE true URI_ENCODING_NONE) t in
  let? t := when (map_ptr mc (bytes_of_string "query")) (rule_test ROUTE_QUERY PATTERN_NOCASE URI_ENCODING_PLUS) t in
  let? t := when (map_ptr mc (bytes_of_string "source")) (addr_test Test_source source_mem) t in
  when (map_ptr mc (bytes_of_string "destination")) (addr_test Test_destination destination_mem) t.

(** The tests fill the places from the first one on. *)
Definition place_tests (n : nat) (tests : list nxt_http_route_test_t) : outcome (list (option nxt_http_route_test_t)) :=
  if (n <? length tests)%nat then Fault else Ret ((Some <$> tests) ++ repeat None (n - length tests)).

(** The templates of conditions and actions add references to the state of the
    configuration. *)
Definition nxt_http_route_match_create (st : nxt_tstr_state) (cv : conf_value) :
    Alloc (option (nxt_http_route_match_t * nxt_tstr_state)) :=
  let! match_conf := alift (nxt_conf_get_path buf cv (bytes_of_string "/match")) in
  let! n := alift (match match_conf with
                   | None => Ret 0%nat
                   | Some mc => let* members := members_of mc in Ret (length members)
                   end) in
  let! condition := alift (match match_conf with
                           | None => Ret None
                           | Some mc => nxt_conf_get_path buf mc (bytes_of_string "/if")
                           end) in
  let n := match condition with Some _ => (n - 1)%nat | None => n end in
  let! ok := request alloc in
  if negb ok then aret None
  else
    let! action_conf := alift (nxt_conf_get_path buf cv (bytes_of_string "/action")) in
    match action_conf with
    | None => aret None
    | Some action_conf =>
        let? (action, st) := action_init st action_conf in
        if (n =? 0)%nat && negb (bool_decide (is_Some condition)) then aret (Some (Match (Cond None false) action [], st))
        else
          let! mc := alift (of_option match_conf) in
          let? (cond, st) := match condition with
                             | None => aret (Some (Cond None false, st))
                             | Some c =>
                                 let! str := alift (of_option (conf_string_of c)) in
                                 nxt_tstr_cond_compile alloc var_hash st str
                             end in
          let? tests := create_tests mc in
          let! places := alift (place_tests n tests) in
          aret (Some (Match cond action places, st))
    end.

Fixpoint create_matches (st : nxt_tstr_state) (cvs : list conf_value) :
    Alloc (option (list nxt_http_route_match_t * nxt_tstr_state)) :=
  match cvs with
  | [] => aret (Some ([], st))
  | cv :: cvs =>
      let? (m, st) := nxt_http_route_match_create st cv in
      let? (ms, st) := create_matches st cvs in
      aret (Some (m :: ms, st))
  end.

(** The name is set by the caller. *)
Definition nxt_http_route_create (st : nxt_tstr_state) (cv : conf_value) (name : list Z) :
    Alloc (option (nxt_http_route_t * nxt_tstr_state)) :=
  let! cvs := alift (match cv with VALUE_ARRAY l => Ret l | _ => Fault end) in
  let! ok := request alloc in
  if negb ok then aret None
  else let? (ms, st) := create_matches st cvs in aret (Some (Route name ms, st)).

(** The names are copied, each into memory of its own. *)
Fixpoint create_routes (st : nxt_tstr_state) (members : list (conf_string * conf_value)) :
    Alloc (option (list nxt_http_route_t * nxt_tstr_state)) :=
  match members with
  | [] => aret (Some ([], st))
  | (name, cv) :: members =>
      let? (route, st) := nxt_http_route_create st cv (nxt_conf_get_string name) in
      let! ok := request alloc in
      if negb ok then aret None
      else
        let? (routes, st) := create_routes st members in
        aret (Some (route :: routes, st))
  end.

Definition nxt_http_routes_create (st : nxt_tstr_state) (cv : conf_value) : Alloc (option (list nxt_http_route_t * nxt_tstr_state)) :=
  let! ok := request alloc in
  if negb ok then aret None
  else
    match cv with
    | VALUE_OBJECT members => create_routes st members
    | _ => let? (route, st) := nxt_http_route_create st cv [] in aret (Some ([route], st))
    end.

End Steps.

Definition nxt_http_route_find (routes : option (list nxt_http_route_t)) (name : list Z) : option nxt_http_route_t :=
  match routes with
  | None => None
  | Some routes => list_find (fun r => route_name r = name) routes ≫= fun '(_, r) => Some r
  end.

(** ** Matching *)

Definition patterned (m : ST match_state Z) : ST route_state Z :=
  fun s =>
    let* (z, r) := m (rs_match s) in
    Ret (z, set_match s r).

Fixpoint test_loop (ps : list nxt_http_route_pattern_t) (v : nxt_str) (ret : Z) : ST route_state Z :=
  match ps with
  | [] => hret ret
  | p :: ps =>
      let^ ret := patterned (nxt_http_route_pattern alloc p v) in
      if ret =? -1 then hret (-1)
      else
        let ret := Z.lxor ret (Z.b2z (negative p)) in
        if Z.b2z (any p) =? ret then hret ret else test_loop ps v ret
  end.

Definition nxt_http_route_test_rule (ps : list nxt_http_route_pattern_t) (v : nxt_str) : ST route_state Z :=
  test_loop ps v 1.

Section Request.
Context (r : nxt_http_request).

(** The body of the loop over the fields, with [ret]. *)
Definition header_field (name : rule_name) (ps : list nxt_http_route_pattern_t) (f : nxt_http_field)
    (s : Z * route_state) : outcome ((Z * route_state) + (Z * route_state)) :=
  let '(ret, st) := s in
  if negb (rn_hash name =? fld_hash f) || negb (rn_length name =? fld_name_length f) then Ret (inl s)
  else
    let* d := nxt_strncasecmp (rn_start name) (drop (fld_name f) (header r)) (Z.to_nat (fld_name_length f)) in
    if negb (d =? 0) then Ret (inl s)
    else
      let* (ret, st) := nxt_http_route_test_rule ps (Some (fld_value_text (header r) f)) st in
      if (ret =? -1) || (ret =? 0) then Ret (inr (ret, st)) else Ret (inl (ret, st)).

Definition nxt_http_route_header (name : rule_name) (ps : list nxt_http_route_pattern_t) : ST route_state Z :=
  fun st =>
    let* s := nxt_http_fields_each (inline_fields r) (fields r) (header_field name ps) (0, st) in
    match s with inl s | inr s => Ret s end.

(** The loop over the names and values, with [ret]. *)
Fixpoint named_loop (name : rule_name) (ps : list nxt_http_route_pattern_t) (nvs : list nxt_http_name_value) (ret : Z) :
    ST route_state Z :=
  match nvs with
  | [] => hret ret
  | nv :: nvs =>
      if (rn_hash name =? nv_hash nv) && (rn_length name =? Z.of_nat (length (nv_name nv))) then
        fun st =>
          let* e := memequal (rn_start name) (nv_name nv) (length (nv_name nv)) in
          if e then
            (let^ ret := nxt_http_route_test_rule ps (Some (nv_value nv)) in
             if (ret =? -1) || (ret =? 0) then hret ret else named_loop name ps nvs ret) st
          else named_loop name ps nvs ret st
      else named_loop name ps nvs ret
  end.

Definition nxt_http_route_test_argument (name : rule_name) (ps : list nxt_http_route_pattern_t)
    (a : nxt_array nxt_http_name_value) : ST route_state Z :=
  named_loop name ps (elts a) 0.

Definition nxt_http_route_test_cookie (name : rule_name) (ps : list nxt_http_route_pattern_t)
    (a : nxt_array nxt_http_name_value) : ST route_state Z :=
  named_loop name ps (elts a) 0.

Definition nxt_http_route_arguments (name : rule_name) (ps : list nxt_http_route_pattern_t) : ST route_state Z :=
  let^ a := request_arguments alloc r in
  match a with None => hret (-1) | Some a => nxt_http_route_test_argument name ps a end.

Definition nxt_http_route_cookies (name : rule_name) (ps : list nxt_http_route_pattern_t) : ST route_state Z :=
  let^ a := request_cookies_parse alloc r in
  match a with None => hret (-1) | Some a => nxt_http_route_test_cookie name ps a end.

Definition nxt_http_route_query (ps : list nxt_http_route_pattern_t) : ST route_state Z :=
  let^ a := request_arguments alloc r in
  match a with
  | None => hret (-1)
  | Some _ =>
      fun s => nxt_http_route_test_rule ps (take (decoded_length (rs_args s)) <$> decoded_start (rs_args s)) s
  end.

(** The length of the first slice of the first pattern. *)
Definition nxt_http_route_scheme (ps : list nxt_http_route_pattern_t) : ST route_state Z :=
  match ps with
  | p :: _ =>
      match body p with
      | Slices a =>
          match elts a with
          | s :: _ => hret (Z.b2z (Bool.eqb (tls r) (length (slice_text s) =? 5)%nat))
          | [] => fun _ => Fault
          end
      | Regexp _ => fun _ => Fault
      end
  | [] => fun _ => Fault
  end.

Definition string_at (offset : request_string) : option nxt_str :=
  match offset with REQUEST_HOST => Some (host r) | REQUEST_PATH => path r | REQUEST_METHOD => method r end.

Definition nxt_http_route_rule (rule : nxt_http_route_rule_t) : ST route_state Z :=
  let ps := pattern rule in
  match object rule with
  | ROUTE_HEADER name => nxt_http_route_header name ps
  | ROUTE_ARGUMENT name => nxt_http_route_arguments name ps
  | ROUTE_COOKIE name => nxt_http_route_cookies name ps
  | ROUTE_SCHEME => nxt_http_route_scheme ps
  | ROUTE_QUERY => nxt_http_route_query ps
  | ROUTE_STRING offset =>
      match string_at offset with None => fun _ => Fault | Some s => nxt_http_route_test_rule ps s end
  | ROUTE_STRING_PTR offset =>
      match string_at offset with None => hret 0 | Some s => nxt_http_route_test_rule ps s end
  end.

Fixpoint nxt_http_route_ruleset (rules : list nxt_http_route_rule_t) : ST route_state Z :=
  match rules with
  | [] => hret 1
  | rule :: rules =>
      let^ ret := nxt_http_route_rule rule in
      if ret <=? 0 then hret ret else nxt_http_route_ruleset rules
  end.

Fixpoint table_loop (table : list (list nxt_http_route_rule_t)) (ret : Z) : ST route_state Z :=
  match table with
  | [] => hret ret
  | ruleset :: table =>
      let^ ret := nxt_http_route_ruleset ruleset in
      if negb (ret =? 0) then hret ret else table_loop table ret
  end.

Definition nxt_http_route_table (table : list (list nxt_http_route_rule_t)) : ST route_state Z := table_loop table 1.

(** [nxt_conn_local_addr()]: the address of the connection, or that of its
    socket. *)
Definition nxt_conn_local_addr : ST route_state (option nxt_sockaddr) :=
  fun s =>
    match conn_local s with
    | Some sa => Ret (Some sa, s)
    | None =>
        (let^ ok := pooled (request alloc) in
         if negb ok then hret None
         else
           match sockname r with
           | None => hret None
           | Some sa => fun s => Ret (Some sa, set_local s (rs_local s) (Some sa))
           end) s
    end.

Definition nxt_h1p_request_local_addr : ST route_state unit :=
  let^ sa := nxt_conn_local_addr in
  fun s => Ret (tt, set_local s sa (conn_local s)).

Definition run_test (t : nxt_http_route_test_t) : ST route_state Z :=
  match t with
  | Test_table table => nxt_http_route_table table
  | Test_source rule => hret (Z.b2z (nxt_http_route_addr_rule rule (remote r)))
  | Test_destination rule =>
      let^ _ := (fun s => if negb (bool_decide (is_Some (rs_local s))) && proto_any r then nxt_h1p_request_local_addr s else Ret (tt, s)) in
      fun s =>
        match rs_local s, rule with
        | None, _ :: _ => Fault
        | None, [] => Ret (0, s)
        | Some sa, _ => Ret (Z.b2z (nxt_http_route_addr_rule rule sa), s)
        end
  | Test_rule rule => nxt_http_route_rule rule
  end.

(** The end of the loop over the tests. *)
Fixpoint tests_loop (ts : list (option nxt_http_route_test_t)) : ST route_state Z :=
  match ts with
  | [] => hret 1
  | None :: _ => fun _ => Fault
  | Some t :: ts =>
      let^ ret := run_test t in
      if ret <=? 0 then hret ret else tests_loop ts
  end.

Definition false_texts : list (list Z) :=
  [[]; bytes_of_string "0"; bytes_of_string "false"; bytes_of_string "null"; bytes_of_string "undefined"].

(** The state of the router configuration. *)
Context (st : nxt_tstr_state).

(** A query of a template, on the cache of the request. *)
Definition tstr_run {A} (m : ST query_state A) : ST route_state A :=
  fun s => let* (a, (c, s)) := m (rs_cache s, s) in Ret (a, set_cache s c).

(** [nxt_tstr_query_init()] *)
Definition query_init : ST route_state bool :=
  fun s =>
    (let^ ok := pooled (nxt_tstr_query_init alloc (rs_query s)) in
     if negb ok then hret false else fun s => Ret (true, set_query s)) s.

Definition cond_text (t : nxt_tstr) : ST route_state (option (list Z)) :=
  fun s =>
    let* const := nxt_tstr_is_const t in
    (if const then hret (Some (nxt_tstr_str t))
     else
       let^ ok := query_init in
       if negb ok then hret None else tstr_run (nxt_tstr_query alloc st r t)) s.

Definition nxt_http_cond_value (cond : nxt_tstr_cond) : ST route_state Z :=
  match expr cond with
  | None => hret (Z.lxor (Z.b2z (negate cond)) 1)
  | Some t =>
      let^ str := cond_text t in
      match str with
      | None => hret (-1)
      | Some str => hret (Z.lxor (Z.b2z (negate cond)) (Z.b2z (negb (bool_decide (str ∈ false_texts)))))
      end
  end.

(** The action, [NULL] or [NXT_HTTP_ACTION_ERROR]. *)
Inductive matched := MATCHED (a : action_t) | NOT_MATCHED | MATCH_ERROR.

Definition nxt_http_route_match (m : nxt_http_route_match_t) : ST route_state matched :=
  let no_action ret : ST route_state matched :=
    if ret =? 0 then hret NOT_MATCHED else if ret =? -1 then hret MATCH_ERROR else fun _ => Fault in
  let^ ret := nxt_http_cond_value (condition m) in
  if ret <=? 0 then no_action ret
  else
    let^ ret := tests_loop (test m) in
    if ret <=? 0 then no_action ret else hret (MATCHED (action m)).

(** The action that was found and that the request gets, an error, or the answer
    404. *)
Inductive routed := ROUTED (a : action_t) | ROUTE_ERROR | ROUTE_NOT_FOUND.

Fixpoint nxt_http_route_handler (ms : list nxt_http_route_match_t) : ST route_state routed :=
  match ms with
  | [] => hret ROUTE_NOT_FOUND
  | m :: ms =>
      let^ a := nxt_http_route_match m in
      match a with
      | MATCHED a => hret (ROUTED a)
      | MATCH_ERROR => hret ROUTE_ERROR
      | NOT_MATCHED => nxt_http_route_handler ms
      end
  end.

End Request.

End Route.
