(* ===== verification/RouteSpec.v ===== *)
(** * What routes accept

    A reference for the tests of a route on the configuration itself, and the
    proof that the tests that Route.v makes from the configuration decide it. *)

From S2P Require Import Prelude Lvlhsh Str Uri NxtList HttpFields HttpHeader Heap NxtArray.
From S2P Require Import ConfValue ConfOps RoutePattern RouteGlob Args Qsort Inet RouteAddr RouteAddrSpec.
From S2P Require Import Sprintf Var VarSpec Tstr TstrSpec HttpReq HttpVars HttpVarsSpec HttpTemplate Route.

#[local] Open Scope Z_scope.

(** ** The reference *)

(** The strings of a value that is a string or an array of strings. *)
Definition tests_of (cv : conf_value) : list (list Z) := default [] (mapM conf_string_of (nxt_conf_elements_or_itself cv)).

(** The three tables of names. *)
Inductive table_kind := HEADERS | ARGUMENTS | COOKIES.

Definition kind_object (kind : table_kind) : rule_name -> nxt_http_route_object_t :=
  match kind with HEADERS => ROUTE_HEADER | ARGUMENTS => ROUTE_ARGUMENT | COOKIES => ROUTE_COOKIE end.

Definition kind_sensitive (kind : table_kind) : bool := match kind with HEADERS => false | _ => true end.

Definition kind_encoding (kind : table_kind) : nxt_http_uri_encoding :=
  match kind with ARGUMENTS => URI_ENCODING_PLUS | _ => URI_ENCODING_NONE end.

(** The names and the values of a request. *)
Definition pairs_of (kind : table_kind) (w : view) : list (list Z * list Z) :=
  match kind with
  | HEADERS => (fun f => (line_name f, line_value f)) <$> v_fields w
  | ARGUMENTS => arguments_of (default [] (args (v_request w)))
  | COOKIES => request_cookies (v_fields w)
  end.

(** A name of the configuration is the name [n] of a request. *)
Definition name_is (kind : table_kind) (name n : list Z) : Prop :=
  exists d, decode (kind_encoding kind) name = Some d /\
    map (fold (kind_sensitive kind)) d = map (fold (kind_sensitive kind)) n.

(** The options of a "match" object, in the order of their tests. *)
Inductive match_option :=
| O_SCHEME | O_HOST | O_URI | O_METHOD | O_HEADERS | O_ARGUMENTS | O_COOKIES | O_QUERY | O_SOURCE | O_DESTINATION.

#[global] Instance match_option_eq_dec : EqDecision match_option.
Proof. solve_decision. Defined.

Definition option_name (o : match_option) : list Z :=
  match o with
  | O_SCHEME => bytes_of_string "scheme"
  | O_HOST => bytes_of_string "host"
  | O_URI => bytes_of_string "uri"
  | O_METHOD => bytes_of_string "method"
  | O_HEADERS => bytes_of_string "headers"
  | O_ARGUMENTS => bytes_of_string "arguments"
  | O_COOKIES => bytes_of_string "cookies"
  | O_QUERY => bytes_of_string "query"
  | O_SOURCE => bytes_of_string "source"
  | O_DESTINATION => bytes_of_string "destination"
  end.

Section Reference.
Context {RE : Regex}.

(** No negated pattern has the value, and one of the others has it, if there are
    others. *)
Definition rule_accepts (pattern_case : nxt_http_route_pattern_case) (encoding : nxt_http_uri_encoding) (sensitive : bool)
    (tests : list (list Z)) (v : list Z) : Prop :=
  (forall t, t ∈ tests -> negated t = true -> ~ pattern_holds pattern_case encoding sensitive t v) /\
  ((forall t, t ∈ tests -> negated t = true) \/
   exists t, t ∈ tests /\ negated t = false /\ pattern_holds pattern_case encoding sensitive t v).

(** The name is there, and all its values are accepted. *)
Definition named_accepts (same : list Z -> Prop) (accepts : list Z -> Prop) (pairs : list (list Z * list Z)) : Prop :=
  (exists p, p ∈ pairs /\ same p.1) /\ forall p, p ∈ pairs -> same p.1 -> accepts p.2.

Definition ruleset_accepts (kind : table_kind) (members : list (conf_string * conf_value)) (w : view) : Prop :=
  forall name cv, (name, cv) ∈ members ->
    named_accepts (name_is kind (nxt_conf_get_string name))
      (rule_accepts PATTERN_NOCASE (kind_encoding kind) (kind_sensitive kind) (tests_of cv)) (pairs_of kind w).

(** One of the objects of an array, or the object, is accepted. *)
Definition table_accepts (kind : table_kind) (cv : conf_value) (w : view) : Prop :=
  nxt_conf_elements_or_itself cv = [] \/
  exists members, VALUE_OBJECT members ∈ nxt_conf_elements_or_itself cv /\ ruleset_accepts kind members w.

Definition addr_accepts (cv : conf_value) (sa : nxt_sockaddr) : Prop :=
  exists specs, Forall2 (fun cv spec => addr_pattern_is cv spec.1 spec.2) (nxt_conf_elements_or_itself cv) specs /\
    addr_rule_accepts specs sa.

(** A string of the request, which may be absent. *)
Definition string_accepts (pattern_case : nxt_http_route_pattern_case) (encoding : nxt_http_uri_encoding) (cv : conf_value)
    (s : option nxt_str) : Prop :=
  match s with
  | None => False
  | Some s => rule_accepts pattern_case encoding true (tests_of cv) (default [] s)
  end.

Definition option_accepts (o : match_option) (cv : conf_value) (w : view) : Prop :=
  let r := v_request w in
  match o with
  | O_SCHEME => tls r = bool_decide (map (map nxt_lowcase) (tests_of cv) = [bytes_of_string "https"])
  | O_HOST => string_accepts PATTERN_LOWCASE URI_ENCODING_NONE cv (Some (host r))
  | O_URI => string_accepts PATTERN_NOCASE URI_ENCODING cv (path r)
  | O_METHOD => string_accepts PATTERN_UPCASE URI_ENCODING_NONE cv (method r)
  | O_HEADERS => table_accepts HEADERS cv w
  | O_ARGUMENTS => table_accepts ARGUMENTS cv w
  | O_COOKIES => table_accepts COOKIES cv w
  | O_QUERY => rule_accepts PATTERN_NOCASE URI_ENCODING_PLUS true (tests_of cv) (lenient (default [] (args r)))
  | O_SOURCE => addr_accepts cv (remote r)
  | O_DESTINATION => exists sa, v_local w = Some sa /\ addr_accepts cv sa
  end.

(** All options of a "match" object but its condition. *)
Definition match_accepts (mc : conf_value) (w : view) : Prop :=
  forall o cv, map_ptr mc (option_name o) = Some cv -> option_accepts o cv w.

End Reference.

(** ** Deciding *)

Section Decide.
Context {RE : Regex} (alloc : nat -> bool) (cache : nxt_var_cache).

(** What routing has kept in the request; tests leave the values of variables. *)
Definition state_ok (w : view) (s : route_state) : Prop := kept_ok alloc w s /\ rs_cache s = cache.

(** The code says whether [P] holds, or met an error. *)
Definition decides (w : view) (m : ST route_state Z) (P : Prop) : Prop :=
  forall s, state_ok w s -> wp m (fun z s' => state_ok w s' /\ answers alloc P z) s.

Lemma decides_iff w m P P' : (P <-> P') -> decides w m P -> decides w m P'.
Proof.
  intros HP Hm s Hs. eapply wp_conseq; [by apply Hm|]. intros z s' [Hs' Ha]. split; [done|]. unfold answers in *. rewrite <- HP. done.
Qed.

Lemma decides_ret w (b : bool) P : (b = true <-> P) -> decides w (hret (Z.b2z b)) P.
Proof. intros Hb s Hs. apply wp_hret. split; [done|]. unfold answers. rewrite <- Hb. destruct b; cbn; naive_solver. Qed.

(** The next test runs when one passed. *)
Lemma decides_and w m P k P' :
  decides w m P -> (forall z, decides w (k z) P') ->
  decides w (let^ ret := m in if ret <=? 0 then hret ret else k ret) (P /\ P').
Proof.
  intros Hm Hk s Hs. apply wp_hbind. eapply wp_conseq; [by apply Hm|]. intros z s' [Hs' [[-> HP]|[[-> HP]|[-> HP]]]]; cbn.
  - eapply wp_conseq; [by apply Hk|]. intros z s2 [Hs2 Ha]. split; [done|]. unfold answers in *. tauto.
  - apply wp_hret. split; [done|]. unfold answers. tauto.
  - apply wp_hret. split; [done|]. unfold answers. tauto.
Qed.

(** ** The patterns of a rule *)

Section Rule.
Context (pattern_case : nxt_http_route_pattern_case) (encoding : nxt_http_uri_encoding) (sensitive : bool) (v : nxt_str).

Abbreviation holds t := (pattern_holds pattern_case encoding sensitive t (default [] v)).
Abbreviation accepts tests := (rule_accepts pattern_case encoding sensitive tests (default [] v)).

Lemma state_ok_match w s m : state_ok w s -> state_ok w (set_match s m).
Proof. by intros [[] ?]. Qed.

Lemma patterned_ok w t p : implements alloc pattern_case encoding sensitive t p ->
  decides w (patterned (nxt_http_route_pattern alloc p v)) (holds t).
Proof.
  intros (_ & _ & Hp) s Hs. unfold wp, patterned. destruct (Hp v (rs_match s)) as (z & r' & -> & Ha). cbn.
  split; [by apply state_ok_match|done].
Qed.

Lemma flags_first_tail {A} (f : A -> bool) x l : flags_first f (x :: l) ->
  flags_first f l /\ (f x = false -> Forall (fun y => f y = false) l).
Proof.
  intros (l1 & l2 & E & H1 & H2). destruct l1 as [|y l1]; cbn in E; simplify_eq.
  - apply Forall_cons in H2 as [Hx H2]. split; [|done]. exists [], l. done.
  - apply Forall_cons in H1 as [Hx H1]. split; [by exists l1, l2|congruence].
Qed.

(** The verdict of the tests behind those that have given [ret]. *)
Definition rest_accepts (tests : list (list Z)) (ret : Z) : Prop := match tests with [] => ret = 1 | _ => accepts tests end.

Lemma accepts_negated t tests : negated t = true -> accepts (t :: tests) <-> ~ holds t /\ rest_accepts tests 1.
Proof.
  intros Hn. unfold rule_accepts. setoid_rewrite elem_of_cons. split.
  - intros [H1 H2]. split; [by apply H1; [left|]|]. destruct tests as [|t' tests]; [done|]. split; [by auto|].
    destruct H2 as [H2|(x & [->|Hx] & Hnx & Hh)]; [by auto|congruence|]. right. by exists x.
  - intros [H1 H2]. destruct tests as [|t' tests].
    { split; [intros x [->|Hx]; [by auto|by apply elem_of_nil in Hx]|]. left. intros x [->|Hx]; [done|by apply elem_of_nil in Hx]. }
    destruct H2 as [H2 H3]. split; [by intros x [->|Hx]; auto|]. destruct H3 as [H3|(x & Hx & Hnx & Hh)].
    + left. by intros x [->|Hx]; auto.
    + right. exists x. auto.
Qed.

Lemma accepts_positive t tests : negated t = false -> Forall (fun t => negated t = false) tests ->
  accepts (t :: tests) <-> holds t \/ rest_accepts tests 0.
Proof.
  intros Hn Hall. rewrite Forall_forall in Hall. unfold rule_accepts. setoid_rewrite elem_of_cons. split.
  - intros [_ [H2|(x & [->|Hx] & Hnx & Hh)]]; [by rewrite H2 in Hn by (by left)|by left|]. right.
    destruct tests as [|t' tests]; [by apply elem_of_nil in Hx|]. split; [|right; by exists x].
    intros y Hy E. by rewrite Hall in E.
  - intros H. split; [intros y [->|Hy] E; [congruence|by rewrite Hall in E]|]. right. destruct H as [H|H].
    + exists t. auto.
    + destruct tests as [|t' tests]; [done|]. destruct H as [_ [H|(x & Hx & Hnx & Hh)]]; [|exists x; auto].
      specialize (H t' ltac:(by left)). by rewrite Hall in H by (by left).
Qed.

Lemma test_loop_ok w tests ps : Forall2 (implements alloc pattern_case encoding sensitive) tests ps -> flags_first negated tests ->
  forall ret, ret = 0 \/ ret = 1 -> decides w (test_loop alloc ps v ret) (rest_accepts tests ret).
Proof.
  induction 1 as [|t p tests ps Hp Hps IH]; intros Hff ret Hret; cbn [test_loop].
  { intros s Hs. apply wp_hret. split; [done|]. unfold answers. cbn. lia. }
  destruct (flags_first_tail _ _ _ Hff) as [Hff' Hpos]. specialize (IH Hff').
  intros s Hs. apply wp_hbind. eapply wp_conseq; [by eapply patterned_ok|]. destruct Hp as (Hneg & Hany & _).
  intros z s' [Hs' Ha]. rewrite Hneg, Hany. cbn [rest_accepts].
  destruct Ha as [[-> Hh]|[[-> Hh]|[-> Ht]]]; cbn [Z.eqb]; [| |apply wp_hret; split; [done|]; right; right; done].
  - destruct (negated t) eqn:En; cbn; apply wp_hret; (split; [done|]).
    + right; left. split; [done|]. rewrite accepts_negated by done. tauto.
    + left. split; [done|]. rewrite accepts_positive by auto. by left.
  - destruct (negated t) eqn:En; cbn; (eapply wp_conseq; [by apply IH; [auto|]|]); intros z s2 [Hs2 Ha]; (split; [done|]);
      unfold answers in *.
    + rewrite accepts_negated by done. tauto.
    + rewrite accepts_positive by auto. tauto.
Qed.

Lemma test_rule_ok w tests ps : Forall2 (implements alloc pattern_case encoding sensitive) tests ps -> flags_first negated tests ->
  decides w (nxt_http_route_test_rule alloc ps v) (accepts tests).
Proof.
  intros Hps Hff. eapply decides_iff; [|eapply test_loop_ok; [exact Hps|done|by right]].
  destruct tests as [|t tests]; [|done]. cbn. split; [|done]. intros _. split; [intros t Ht|left; intros t Ht]; by apply elem_of_nil in Ht.
Qed.

End Rule.

(** ** Names *)

Section Named.
Context (pattern_case : nxt_http_route_pattern_case) (encoding : nxt_http_uri_encoding) (sensitive : bool).
Context (tests : list (list Z)) (ps : list nxt_http_route_pattern_t).
Hypothesis Hps : Forall2 (implements alloc pattern_case encoding sensitive) tests ps.
Hypothesis Hff : flags_first negated tests.

Abbreviation accepts v := (rule_accepts pattern_case encoding sensitive tests v).

(** What is left of [named_accepts] when the values before have given [ret]. *)
Definition rest_named (same : list Z -> Prop) (l : list (list Z * list Z)) (ret : Z) : Prop :=
  (ret = 1 \/ exists p, p ∈ l /\ same p.1) /\ forall p, p ∈ l -> same p.1 -> accepts p.2.

Lemma rest_named_start same l : rest_named same l 0 <-> named_accepts same (fun v => accepts v) l.
Proof. unfold rest_named, named_accepts. split; intros [H1 H2]; (split; [|done]); [by destruct H1|by right]. Qed.

Lemma rest_named_skip (same : list Z -> Prop) p l ret : ~ same p.1 -> rest_named same (p :: l) ret <-> rest_named same l ret.
Proof.
  intros Hp. unfold rest_named. setoid_rewrite elem_of_cons. split; intros [H1 H2].
  - split; [|by auto]. destruct H1 as [H1|(x & [->|Hx] & Hs)]; [by left|done|]. right. by exists x.
  - split; [|by intros x [->|Hx] Hs; auto]. destruct H1 as [H1|(x & Hx & Hs)]; [by left|]. right. exists x. auto.
Qed.

Lemma rest_named_found (same : list Z -> Prop) p l ret : same p.1 -> rest_named same (p :: l) ret <-> accepts p.2 /\ rest_named same l 1.
Proof.
  intros Hp. unfold rest_named. setoid_rewrite elem_of_cons. split.
  - intros [H1 H2]. split; [by apply H2; [left|]|]. split; [by left|]. by auto.
  - intros [H1 [_ H2]]. split; [right; exists p; auto|]. by intros x [->|Hx] Hs; auto.
Qed.

(** After a value with the name: the end, or the loop with [ret] set. *)
Lemma found_ok w same p l ret k :
  same p.1 -> decides w (k 1) (rest_named same l 1) ->
  decides w (let^ ret := nxt_http_route_test_rule alloc ps (Some p.2) in if (ret =? -1) || (ret =? 0) then hret ret else k ret)
    (rest_named same (p :: l) ret).
Proof.
  intros Hp Hk. eapply decides_iff; [symmetry; by apply rest_named_found|]. intros s Hs. apply wp_hbind.
  eapply wp_conseq; [by eapply test_rule_ok|]. intros z s' [Hs' Ha]. cbn [default] in Ha.
  destruct Ha as [[-> Hh]|[[-> Hh]|[-> Ht]]]; cbn.
  - eapply wp_conseq; [by apply Hk|]. intros z s2 [Hs2 Ha]. split; [done|]. unfold answers in *. cbn in Hh. tauto.
  - apply wp_hret. split; [done|]. unfold answers. cbn in Hh. tauto.
  - apply wp_hret. split; [done|]. unfold answers. tauto.
Qed.

Lemma named_loop_ok w d : Z.of_nat (length d) < 65536 -> forall l ret, ret = 0 \/ ret = 1 ->
  decides w (named_loop alloc (Rule_name d (hash_of d) (Z.of_nat (length d))) ps (stored <$> l) ret) (rest_named (fun n => n = d) l ret).
Proof.
  intros Hd. induction l as [|p l IH]; intros ret Hret; cbn [fmap list_fmap named_loop].
  { intros s Hs. apply wp_hret. split; [done|]. unfold answers, rest_named. setoid_rewrite elem_of_nil.
    destruct Hret as [-> | ->]; [right; left|left]; (split; [done|]); [by intros [[?|(x & [] & _)] _]|naive_solver]. }
  cbn [stored rn_hash nv_hash rn_length nv_name rn_start nv_value].
  destruct ((hash_of d =? hash_of p.1) && (Z.of_nat (length d) =? Z.of_nat (length p.1))) eqn:E.
  - apply andb_true_iff in E as [_ E]; zbool. assert (El : length p.1 = length d) by lia.
    destruct (decide (p.1 = d)) as [Hpd|Hpd].
    + intros s Hs. pose proof (found_ok w (fun n => n = d) p l ret
        (named_loop alloc (Rule_name d (hash_of d) (Z.of_nat (length d))) ps (stored <$> l)) Hpd (IH 1 ltac:(by right)) s Hs) as Hf.
      unfold wp in *. rewrite memequal_ok by lia. rewrite !take_ge, bool_decide_true by (lia || done). cbn [obind]. exact Hf.
    + eapply decides_iff; [symmetry; by apply rest_named_skip|]. intros s Hs. unfold wp.
      rewrite memequal_ok by lia. rewrite !take_ge, bool_decide_false by (lia || congruence). cbn [obind]. by apply IH.
  - eapply decides_iff; [symmetry; apply rest_named_skip|by apply IH]. intros Ep. rewrite Ep, !Z.eqb_refl in E. done.
Qed.

End Named.

(** The name of a rule. *)
Definition rule_named (kind : table_kind) (name : list Z) (rn : rule_name) : Prop :=
  exists d, decode (kind_encoding kind) name = Some d /\ Z.of_nat (length d) < 65536 /\
    rn = Rule_name d (hash_of (map (fold (kind_sensitive kind)) d)) (Z.of_nat (length d)).

(** Arguments and cookies, the names of which are compared as they are. *)
Lemma name_is_exact kind name d n : kind_sensitive kind = true -> decode (kind_encoding kind) name = Some d ->
  name_is kind name n <-> n = d.
Proof.
  intros Hk Hd. unfold name_is. rewrite Hd, Hk. cbn. setoid_rewrite map_id. split.
  - intros (d' & [= <-] & ->). done.
  - intros ->. by exists d.
Qed.

Lemma named_accepts_iff same same' accepts pairs :
  (forall n, same n <-> same' n) -> named_accepts same accepts pairs <-> named_accepts same' accepts pairs.
Proof. intros H. unfold named_accepts. by setoid_rewrite H. Qed.

Section Fields.
Context (w : view) (encoding : nxt_http_uri_encoding) (pattern_case : nxt_http_route_pattern_case) (sensitive : bool).
Context (tests : list (list Z)) (ps : list nxt_http_route_pattern_t).
Hypothesis Hps : Forall2 (implements alloc pattern_case encoding sensitive) tests ps.
Hypothesis Hff : flags_first negated tests.
Hypothesis Hw : request_ok w.

Abbreviation accepts := (rule_accepts pattern_case encoding sensitive tests).
Abbreviation r := (v_request w).

(** The arguments of the request, for the code that follows. *)
Lemma request_arguments_ok (k : nxt_array nxt_http_name_value -> ST route_state Z) P :
  (forall a, elts a = stored <$> arguments_of (default [] (args r)) -> forall s, state_ok w s -> arguments (rs_args s) = Some a ->
     wp (k a) (fun z s' => state_ok w s' /\ answers alloc P z) s) ->
  decides w (let^ a := request_arguments alloc r in match a with None => hret (-1) | Some a => k a end) P.
Proof.
  intros Hk s Hs. unfold wp, hbind, request_arguments.
  destruct (arguments_parse_ok alloc (args r) (rs_args s) (mp (rs_match s))) as (a & ra & k' & -> & Hra & Ha);
    [by destruct Hs as [[]]|by destruct Hw|by destruct Hw|]. cbn [obind].
  assert (Hs' : state_ok w (set_match (set_args s ra) (Match_state (regex_ready (rs_match s)) k'))).
  { by destruct Hs as [[] ?]. }
  destruct a as [a|].
  - apply (Hk a); [|done|done]. unfold args_kept in Hra. rewrite Ha in Hra. destruct Hra as [-> _].
    eapply entries_fit; [|apply arguments_fit]. by destruct Hw.
  - split; [done|]. right; right. split; [done|]. left. apply Ha.
Qed.

Lemma arguments_ok name rn : rule_named ARGUMENTS name rn ->
  decides w (nxt_http_route_arguments alloc r rn ps) (named_accepts (name_is ARGUMENTS name) accepts (pairs_of ARGUMENTS w)).
Proof.
  intros (d & Hd & Hl & ->). cbn [kind_sensitive fold]. rewrite map_id.
  eapply decides_iff; [apply named_accepts_iff; intros n; symmetry; by apply (name_is_exact ARGUMENTS)|].
  apply request_arguments_ok. intros a Ha s Hs _. unfold nxt_http_route_test_argument. rewrite Ha.
  pose proof (named_loop_ok _ _ _ _ _ Hps Hff w d Hl (arguments_of (default [] (args r))) 0 ltac:(by left) s Hs) as Hn.
  eapply wp_conseq; [exact Hn|]. intros z s' [Hs' Hz]. split; [done|]. unfold answers in *. by rewrite <- rest_named_start.
Qed.

Lemma query_ok : decides w (nxt_http_route_query alloc r ps) (accepts (lenient (default [] (args r)))).
Proof.
  apply request_arguments_ok. intros a Ha s Hs Hra. pose proof Hs as [[Hk _ _] _]. unfold args_kept in Hk. rewrite Hra in Hk.
  destruct Hk as (_ & Hd & Hl). unfold wp. rewrite Hd, Hl.
  pose proof (test_rule_ok _ _ _ (take (length (lenient (default [] (args r)))) <$> (lenient <$> args r)) w _ _ Hps Hff s Hs) as Ht.
  replace (default [] (take (length (lenient (default [] (args r)))) <$> (lenient <$> args r))) with (lenient (default [] (args r))) in Ht;
    [exact Ht|]. destruct (args r); [|done]. cbn. by rewrite take_ge.
Qed.

Lemma cookies_ok name rn : rule_named COOKIES name rn ->
  decides w (nxt_http_route_cookies alloc r rn ps) (named_accepts (name_is COOKIES name) accepts (pairs_of COOKIES w)).
Proof.
  intros (d & Hd & Hl & ->). cbn [kind_sensitive fold]. rewrite map_id.
  eapply decides_iff; [apply named_accepts_iff; intros n; symmetry; by apply (name_is_exact COOKIES)|].
  intros s Hs. unfold nxt_http_route_cookies, wp, hbind, request_cookies_parse.
  destruct (cookies_parse_ok alloc (header r) (v_fields w) (inline_fields r) (fields r) (rs_cookies s) (mp (rs_match s)))
    as (a & c' & k' & -> & -> & Hc & Ha); [by destruct Hw..|by destruct Hs as [[]]|]. cbn [obind].
  assert (Hs' : state_ok w (set_match (set_cookies s c') (Match_state (regex_ready (rs_match s)) k'))).
  { by destruct Hs as [[] ?]. }
  destruct c' as [c|]; [|split; [done|]; right; right; split; [done|]; left; by apply Ha].
  unfold nxt_http_route_test_cookie. cbn in Hc. rewrite Hc, (entries_fit (Z.to_nat (value_bytes (v_fields w)))).
  - pose proof (named_loop_ok _ _ _ _ _ Hps Hff w d Hl (request_cookies (v_fields w)) 0 ltac:(by left) _ Hs') as Hn.
    eapply wp_conseq in Hn; [exact Hn|]. intros z s2 [Hs2 Hz]. split; [done|]. unfold answers in *. by rewrite <- rest_named_start.
  - destruct Hw. unfold value_bytes in *. lia.
  - apply request_cookies_fit.
Qed.

(** Header fields, the names of which are compared without their case. *)
Definition same_name (d n : list Z) : Prop := map nxt_lowcase d = map nxt_lowcase n.

Lemma name_is_header name d n : decode (kind_encoding HEADERS) name = Some d -> name_is HEADERS name n <-> same_name d n.
Proof.
  intros Hd. unfold name_is, same_name. rewrite Hd. cbn. split.
  - by intros (d' & [= <-] & H).
  - intros H. by exists d.
Qed.

Lemma header_field_ok d f fld ret s (k : Z * route_state -> outcome ((Z * route_state) + (Z * route_state))) l :
  field_is (header r) f fld -> valid_line f -> state_ok w s ->
  (forall ret s, ret = 0 \/ ret = 1 -> state_ok w s ->
     exists z s' b, k (ret, s) = Ret (if b : bool then inl (z, s') else inr (z, s')) /\ state_ok w s' /\
       answers alloc (rest_named pattern_case encoding sensitive tests (same_name d) l ret) z) -> ret = 0 \/ ret = 1 ->
  exists z s' b,
    (let* x := header_field alloc r (Rule_name d (hash_of (map nxt_lowcase d)) (Z.of_nat (length d))) ps fld (ret, s) in
     match x with inl y => k y | inr y => Ret (inr y) end) = Ret (if b : bool then inl (z, s') else inr (z, s')) /\
    state_ok w s' /\
    answers alloc (rest_named pattern_case encoding sensitive tests (same_name d) ((line_name f, line_value f) :: l) ret) z.
Proof.
  intros Hf Hv Hs Hk Hret. pose proof Hf as (_ & _ & Hnl & _ & Hh & _). unfold header_field. cbn [rn_hash rn_length rn_start].
  assert (Hskip : ~ same_name d (line_name f) ->
    exists z s' b, k (ret, s) = Ret (if b : bool then inl (z, s') else inr (z, s')) /\ state_ok w s' /\
      answers alloc (rest_named pattern_case encoding sensitive tests (same_name d) ((line_name f, line_value f) :: l) ret) z).
  { intros Hns. destruct (Hk ret s Hret Hs) as (z & s' & b & E & Hs' & Ha). exists z, s', b. split; [done|]. split; [done|].
    unfold answers in *. by rewrite rest_named_skip. }
  destruct (negb (hash_of (map nxt_lowcase d) =? fld_hash fld) || negb (Z.of_nat (length d) =? fld_name_length fld)) eqn:E.
  { cbn [obind]. apply Hskip. intros Hn. rewrite Hh, Hnl, fields_hash_key_of, Hn, Z.eqb_refl in E. cbn in E.
    apply (f_equal length) in Hn. rewrite !length_map in Hn. by rewrite Hn, Z.eqb_refl in E. }
  apply orb_false_iff in E as [_ E]. apply negb_false_iff, Z.eqb_eq in E. destruct (field_name_at _ _ _ Hf) as [t Ht].
  rewrite Ht, Hnl, Nat2Z.id. destruct (strncasecmp_names d [] (line_name f) t) as (c & Hc & Hciff);
    [right; apply valid_name_no_nul; by destruct Hv|lia|]. rewrite app_nil_r in Hc.
  replace (length (line_name f)) with (length d) by lia. rewrite Hc. cbn [obind]. destruct (Z.eqb_spec c 0) as [Ec|Ec]; cbn [negb].
  2: { cbn [obind]. apply Hskip. unfold same_name. tauto. }
  apply Hciff in Ec. destruct (field_texts _ _ _ Hf) as [_ ->].
  pose proof (test_rule_ok _ _ _ (Some (line_value f)) w _ _ Hps Hff s Hs) as Hr. unfold wp in Hr.
  destruct (nxt_http_route_test_rule alloc ps (Some (line_value f)) s) as [[z s1]| |]; [|done..]. cbn [obind] in *.
  destruct Hr as [Hs1 Ha]. cbn [default from_option id] in Ha.
  assert (Hfound := rest_named_found pattern_case encoding sensitive tests (same_name d) (line_name f, line_value f) l ret Ec).
  destruct Ha as [[-> Hz]|[[-> Hz]|[-> Hz]]]; cbn [Z.eqb orb obind].
  - destruct (Hk 1 s1 ltac:(by right) Hs1) as (z & s2 & b & E2 & Hs2 & Ha2). exists z, s2, b. split; [done|]. split; [done|].
    unfold answers in *. rewrite Hfound. cbn. tauto.
  - exists 0, s1, false. split; [done|]. split; [done|]. unfold answers. rewrite Hfound. cbn. tauto.
  - exists (-1), s1, false. split; [done|]. split; [done|]. unfold answers. tauto.
Qed.

Lemma header_each_ok d fs flds : Forall2 (field_is (header r)) fs flds -> Forall valid_line fs -> forall ret s,
  ret = 0 \/ ret = 1 -> state_ok w s ->
  exists z s' b, each (header_field alloc r (Rule_name d (hash_of (map nxt_lowcase d)) (Z.of_nat (length d))) ps) flds (ret, s) =
      Ret (if b : bool then inl (z, s') else inr (z, s')) /\ state_ok w s' /\
    answers alloc (rest_named pattern_case encoding sensitive tests (same_name d) ((fun f => (line_name f, line_value f)) <$> fs) ret) z.
Proof.
  induction 1 as [|f fld fs flds Hf Hfs IH]; intros Hv ret s Hret Hs.
  { exists ret, s, true. split; [done|]. split; [done|]. unfold answers, rest_named. cbn. setoid_rewrite elem_of_nil.
    destruct Hret as [-> | ->]; [right; left|left]; (split; [done|]); [by intros [[?|(x & [] & _)] _]|naive_solver]. }
  apply Forall_cons in Hv as [Hv1 Hv]. cbn [each fmap list_fmap]. apply header_field_ok; auto.
Qed.

Lemma header_ok name rn : rule_named HEADERS name rn ->
  decides w (nxt_http_route_header alloc r rn ps) (named_accepts (name_is HEADERS name) accepts (pairs_of HEADERS w)).
Proof.
  intros (d & Hd & Hl & ->). cbn [kind_sensitive fold].
  eapply decides_iff; [apply named_accepts_iff; intros n; symmetry; by apply name_is_header|].
  intros s Hs. unfold wp, nxt_http_route_header. rewrite fields_each_ok.
  destruct (header_each_ok d (v_fields w) (inline_fields r ++ NxtList.elements (fields r)) ltac:(by destruct Hw) ltac:(by destruct Hw) 0 s ltac:(by left) Hs)
    as (z & s' & b & -> & Hs' & Ha). cbn [obind]. destruct b; (split; [done|]); unfold answers in *; by rewrite <- rest_named_start.
Qed.

End Fields.

(** ** Rules *)

(** The patterns of a rule for the texts of a value, in some order. *)
Definition rule_of (pattern_case : nxt_http_route_pattern_case) (encoding : nxt_http_uri_encoding) (sensitive : bool)
    (cv : conf_value) (ps : list nxt_http_route_pattern_t) : Prop :=
  exists tests, tests ≡ₚ tests_of cv /\ flags_first negated tests /\
    Forall2 (implements alloc pattern_case encoding sensitive) tests ps.

Lemma rule_accepts_perm pattern_case encoding sensitive tests tests' v :
  tests ≡ₚ tests' -> rule_accepts pattern_case encoding sensitive tests v <-> rule_accepts pattern_case encoding sensitive tests' v.
Proof. intros E. unfold rule_accepts. by setoid_rewrite E. Qed.

Lemma named_accepts_perm pattern_case encoding sensitive tests tests' same pairs :
  tests ≡ₚ tests' ->
  named_accepts same (rule_accepts pattern_case encoding sensitive tests) pairs <->
  named_accepts same (rule_accepts pattern_case encoding sensitive tests') pairs.
Proof. intros E. unfold named_accepts. setoid_rewrite (rule_accepts_perm _ _ _ tests tests' _ E). done. Qed.

(** The rule of a member of a table. *)
Definition member_rule (kind : table_kind) (m : conf_string * conf_value) (rule : nxt_http_route_rule_t) : Prop :=
  exists rn ps, rule_named kind (nxt_conf_get_string m.1) rn /\ rule = Rule (kind_object kind rn) ps /\
    rule_of PATTERN_NOCASE (kind_encoding kind) (kind_sensitive kind) m.2 ps.

Lemma member_rule_ok w kind m rule : request_ok w -> member_rule kind m rule ->
  decides w (nxt_http_route_rule alloc (v_request w) rule)
    (named_accepts (name_is kind (nxt_conf_get_string m.1))
       (rule_accepts PATTERN_NOCASE (kind_encoding kind) (kind_sensitive kind) (tests_of m.2)) (pairs_of kind w)).
Proof.
  intros Hw (rn & ps & Hrn & -> & tests & Hperm & Hff & Hps).
  eapply decides_iff; [by apply named_accepts_perm|].
  destruct kind; cbn; [by eapply header_ok|by eapply arguments_ok|by eapply cookies_ok].
Qed.

Lemma ruleset_ok w kind members rules : request_ok w -> Forall2 (member_rule kind) members rules ->
  decides w (nxt_http_route_ruleset alloc (v_request w) rules) (ruleset_accepts kind members w).
Proof.
  intros Hw. induction 1 as [|[name cv] rule members rules Hm Hms IH]; cbn [nxt_http_route_ruleset].
  { apply (decides_ret w true). split; [|done]. intros _ name cv Hin. by apply elem_of_nil in Hin. }
  eapply decides_iff; [|apply decides_and; [by eapply member_rule_ok|intros _; exact IH]].
  unfold ruleset_accepts. setoid_rewrite elem_of_cons. split.
  - intros [H1 H2] n v [[= -> ->]|Hin]; [done|by apply H2].
  - intros H. split; [by apply H; left|]. intros n v Hin. apply H. by right.
Qed.

Definition table_rulesets (kind : table_kind) (cv : conf_value) (rules : list nxt_http_route_rule_t) : Prop :=
  exists members, cv = VALUE_OBJECT members /\ Forall2 (member_rule kind) members rules.

Lemma table_loop_ok w kind cvs table : request_ok w -> Forall2 (table_rulesets kind) cvs table -> cvs <> [] -> forall ret,
  decides w (table_loop alloc (v_request w) table ret) (exists members, VALUE_OBJECT members ∈ cvs /\ ruleset_accepts kind members w).
Proof.
  intros Hw. induction 1 as [|cv rules cvs table (members & -> & Hm) Ht IH]; intros Hne ret; [done|]. cbn [table_loop].
  intros s Hs. apply wp_hbind. eapply wp_conseq; [by eapply ruleset_ok|].
  intros z s' [Hs' [[-> HP]|[[-> HP]|[-> HP]]]]; cbn.
  - apply wp_hret. split; [done|]. left. split; [done|]. exists members. split; [by left|done].
  - assert (Heq : (exists ms, VALUE_OBJECT ms ∈ VALUE_OBJECT members :: cvs /\ ruleset_accepts kind ms w) <->
                  exists ms, VALUE_OBJECT ms ∈ cvs /\ ruleset_accepts kind ms w).
    { setoid_rewrite elem_of_cons. split; [|naive_solver]. intros (ms & [[= ->]|Hin] & Hms); [done|]. by exists ms. }
    destruct cvs as [|cv cvs].
    + inversion Ht. subst. cbn. apply wp_hret. split; [done|]. right; left. split; [done|]. rewrite Heq.
      intros (ms & Hin & _). by apply elem_of_nil in Hin.
    + eapply wp_conseq; [by apply IH|]. intros z s2 [Hs2 Ha]. split; [done|]. unfold answers in *. by rewrite Heq.
  - apply wp_hret. split; [done|]. right; right. done.
Qed.

Lemma table_ok w kind cv table : request_ok w -> Forall2 (table_rulesets kind) (nxt_conf_elements_or_itself cv) table ->
  decides w (nxt_http_route_table alloc (v_request w) table) (table_accepts kind cv w).
Proof.
  intros Hw Ht. unfold nxt_http_route_table, table_accepts. destruct (nxt_conf_elements_or_itself cv) as [|c cvs] eqn:E.
  - inversion Ht. subst. apply (decides_ret w true). split; [by left|done].
  - eapply decides_iff; [|by eapply table_loop_ok]. split; [by right|]. by intros [?|?].
Qed.

(** ** Strings and the scheme *)

Lemma string_ok w pattern_case encoding cv ps v :
  rule_of pattern_case encoding true cv ps ->
  decides w (nxt_http_route_test_rule alloc ps v) (rule_accepts pattern_case encoding true (tests_of cv) (default [] v)).
Proof.
  intros (tests & Hperm & Hff & Hps). eapply decides_iff; [by apply rule_accepts_perm|]. by apply test_rule_ok.
Qed.

(** ** Valid values *)

Definition rule_valid (encoding : nxt_http_uri_encoding) (cv : conf_value) : Prop :=
  exists tests, mapM conf_string_of (nxt_conf_elements_or_itself cv) = Some tests /\ Forall (pattern_valid encoding) tests.

Definition name_valid (kind : table_kind) (name : list Z) : Prop :=
  Forall byte name /\ exists d, decode (kind_encoding kind) name = Some d /\ Z.of_nat (length d) < 65536.

Definition member_valid (kind : table_kind) (m : conf_string * conf_value) : Prop :=
  name_valid kind (nxt_conf_get_string m.1) /\ rule_valid (kind_encoding kind) m.2.

Definition ruleset_valid (kind : table_kind) (cv : conf_value) : Prop :=
  exists members, cv = VALUE_OBJECT members /\ Forall (member_valid kind) members.

Definition addrs_valid (cv : conf_value) : Prop :=
  exists specs, Forall2 (fun cv spec => addr_pattern_is cv spec.1 spec.2) (nxt_conf_elements_or_itself cv) specs.

Definition option_valid (o : match_option) (cv : conf_value) : Prop :=
  match o with
  | O_SCHEME => exists s, conf_string_of cv = Some s /\ (map nxt_lowcase s = bytes_of_string "http" \/ map nxt_lowcase s = bytes_of_string "https")
  | O_HOST | O_METHOD => rule_valid URI_ENCODING_NONE cv
  | O_URI => rule_valid URI_ENCODING cv
  | O_QUERY => rule_valid URI_ENCODING_PLUS cv
  | O_HEADERS => Forall (ruleset_valid HEADERS) (nxt_conf_elements_or_itself cv)
  | O_ARGUMENTS => Forall (ruleset_valid ARGUMENTS) (nxt_conf_elements_or_itself cv)
  | O_COOKIES => Forall (ruleset_valid COOKIES) (nxt_conf_elements_or_itself cv)
  | O_SOURCE | O_DESTINATION => addrs_valid cv
  end.

(** ** Creation *)

Section Create.
Context {Q : Qsort}.

Lemma create_patterns_ok pattern_case encoding sensitive tests :
  Forall (pattern_valid encoding) tests ->
  gives alloc (create_patterns alloc pattern_case encoding sensitive tests)
    (Forall2 (implements alloc pattern_case encoding sensitive) tests).
Proof.
  induction 1 as [|t tests Ht Htests IH]; cbn; [by apply gives_ret|].
  eapply gives_step; [by apply pattern_ok|]. intros p Hp. eapply gives_step; [exact IH|]. intros ps Hps. apply gives_ret. by constructor.
Qed.

Lemma flags_first_one {A} (f : A -> bool) x : flags_first f [x].
Proof. unfold flags_first. destruct (f x) eqn:E; [exists [x], []|exists [], [x]]; repeat constructor; done. Qed.

Lemma array_qsort_ok cv tests : mapM conf_string_of (nxt_conf_elements_or_itself cv) = Some tests ->
  nxt_conf_array_qsort cv tests ≡ₚ tests /\ flags_first negated (nxt_conf_array_qsort cv tests).
Proof.
  intros H. assert (Hone : (exists t, tests = [t]) -> tests ≡ₚ tests /\ flags_first negated tests).
  { intros [t ->]. split; [done|]. apply flags_first_one. }
  destruct cv; cbn in *; try (by destruct (qsort_flags_first negated tests)); try done. apply Hone. injection H as <-. by eexists.
Qed.

Lemma rule_create_ok pattern_case encoding sensitive cv :
  rule_valid encoding cv ->
  gives alloc (nxt_http_route_rule_create alloc cv sensitive pattern_case encoding) (rule_of pattern_case encoding sensitive cv).
Proof.
  intros (tests & Hm & Hv). unfold nxt_http_route_rule_create. apply gives_request. eapply gives_lift; [by rewrite Hm|].
  destruct (array_qsort_ok cv tests Hm) as [Hp Hff].
  eapply gives_conseq; [apply create_patterns_ok|].
  - by rewrite Hp.
  - intros ps Hps. exists (nxt_conf_array_qsort cv tests). unfold tests_of. rewrite Hm. done.
Qed.

Lemma rule_name_ok kind m : member_valid kind m ->
  gives alloc (nxt_http_route_rule_name_create alloc m.2 (nxt_conf_get_string m.1) (kind_sensitive kind) (kind_encoding kind) (kind_object kind))
    (member_rule kind m).
Proof.
  intros [[Hb (d & Hd & Hl)] Hv]. unfold nxt_http_route_rule_name_create. eapply gives_step; [by apply rule_create_ok|].
  intros ps Hps. eapply (gives_step _ _ _ (fun nh => nh = (d, hash_of (map (fold (kind_sensitive kind)) d)))).
  - intros k. destruct (field_hash_ok alloc (nxt_conf_get_string m.1) (kind_sensitive kind) (kind_encoding kind) k Hb) as (r & -> & H1 & H2).
    eexists _, _. split; [done|]. destruct (alloc k) eqn:Ek.
    + rewrite H1, Hd by done. cbn. f_equal. destruct (kind_sensitive kind); cbn; [by rewrite map_id|done].
    + rewrite H2 by done. by exists k.
  - intros nh ->. apply gives_ret. unfold u16. rewrite Z.mod_small by lia. eexists _, ps. split; [by exists d|]. done.
Qed.

Lemma create_ruleset_ok kind members : Forall (member_valid kind) members ->
  gives alloc (create_ruleset alloc members (kind_object kind) (kind_sensitive kind) (kind_encoding kind)) (Forall2 (member_rule kind) members).
Proof.
  induction 1 as [|[name cv] members Hm Hms IH]; cbn; [by apply gives_ret|].
  eapply gives_step; [by apply (rule_name_ok kind (name, cv))|]. intros rule Hrule. eapply gives_step; [exact IH|]. intros rules Hrules.
  apply gives_ret. by constructor.
Qed.

Lemma create_table_ok kind cvs : Forall (ruleset_valid kind) cvs ->
  gives alloc (create_table alloc cvs (kind_object kind) (kind_sensitive kind) (kind_encoding kind)) (Forall2 (table_rulesets kind) cvs).
Proof.
  induction 1 as [|cv cvs (members & -> & Hm) Hcvs IH]; cbn; [by apply gives_ret|].
  eapply (gives_step _ _ _ (table_rulesets kind (VALUE_OBJECT members))).
  - unfold nxt_http_route_ruleset_create. eapply gives_lift; [done|]. apply gives_request.
    eapply gives_conseq; [by apply create_ruleset_ok|]. intros rules Hr. by exists members.
  - intros rules Hr. eapply gives_step; [exact IH|]. intros table Ht. apply gives_ret. by constructor.
Qed.

(** ** The tests of the options *)

Definition test_means (o : match_option) (cv : conf_value) (t : nxt_http_route_test_t) : Prop :=
  forall w, request_ok w -> (o = O_DESTINATION -> is_Some (v_local w)) ->
    decides w (run_test alloc (v_request w) t) (option_accepts o cv w).

Lemma string_test_ok o object pattern_case encoding cv :
  rule_valid encoding cv ->
  (forall w ps, request_ok w -> rule_of pattern_case encoding true cv ps ->
     decides w (nxt_http_route_rule alloc (v_request w) (Rule object ps)) (option_accepts o cv w)) ->
  gives alloc (rule_test alloc object pattern_case encoding cv) (test_means o cv).
Proof.
  intros Hv Hd. unfold rule_test. eapply gives_step; [by apply rule_create_ok|]. intros ps Hps. apply gives_ret.
  intros w Hw _. by apply Hd.
Qed.

Lemma table_test_ok o kind cv :
  Forall (ruleset_valid kind) (nxt_conf_elements_or_itself cv) ->
  (forall w, option_accepts o cv w <-> table_accepts kind cv w) ->
  gives alloc (table_test alloc (kind_object kind) (kind_sensitive kind) (kind_encoding kind) cv) (test_means o cv).
Proof.
  intros Hv Ho. unfold table_test. eapply (gives_step _ _ _ (Forall2 (table_rulesets kind) (nxt_conf_elements_or_itself cv))).
  - unfold nxt_http_route_table_create. apply gives_request. by apply create_table_ok.
  - intros table Ht. apply gives_ret. intros w Hw _. eapply decides_iff; [symmetry; apply Ho|]. by apply table_ok.
Qed.

(** The rule of a valid list of addresses. *)
Definition addr_means (cv : conf_value) (rule : list nxt_http_route_addr_pattern_t) : Prop :=
  forall sa, sockaddr_ok sa -> nxt_http_route_addr_rule rule sa = true <-> addr_accepts cv sa.

Lemma addr_create_ok mem cv : (forall i, length (mem i) = 16%nat) -> addrs_valid cv ->
  gives alloc (nxt_http_route_addr_rule_create alloc mem cv) (addr_means cv).
Proof.
  intros H16 [specs Hall]. eapply gives_conseq; [by eapply addr_rule_ok|]. cbn. intros rule Hr sa Hsa. unfold addr_accepts. split.
  - intros E. exists specs. split; [done|]. by apply (Hr specs Hall sa Hsa).
  - intros (specs' & Hall' & Ha). by apply (Hr specs' Hall' sa Hsa).
Qed.

Lemma source_ok mem cv : (forall i, length (mem i) = 16%nat) -> addrs_valid cv ->
  gives alloc (addr_test alloc Test_source mem cv) (test_means O_SOURCE cv).
Proof.
  intros H16 Hv. unfold addr_test. eapply gives_step; [by apply addr_create_ok|]. intros rule Hr. apply gives_ret.
  intros w Hw _. cbn. apply decides_ret. apply Hr. by destruct Hw.
Qed.

(** The local address of the request is there when it is needed. *)
Lemma local_addr_ok w sa s : state_ok w s -> v_local w = Some sa ->
  wp (fun s => if negb (bool_decide (is_Some (rs_local s))) && proto_any (v_request w) then nxt_h1p_request_local_addr alloc (v_request w) s else Ret (tt, s))
    (fun _ s' => state_ok w s' /\ rs_local s' = Some sa) s.
Proof.
  intros [[H1 H2 H3] H4] Hsa. pose proof H3 as Hl. rewrite Hsa in Hl. cbn in Hl.
  destruct Hl as [Hl|(Hn & Hp & Hc)]; unfold wp.
  - rewrite Hl, bool_decide_true by eauto. done.
  - rewrite Hn, Hp, bool_decide_false by (by intros [? ?]). cbn.
    unfold nxt_h1p_request_local_addr, hbind, nxt_conn_local_addr. destruct Hc as [->|(-> & -> & Hall)]; cbn; [|rewrite Hall; cbn].
    all: split; [split; [split; [done|done|rewrite Hsa; by left]|done]|done].
Qed.

Lemma destination_ok mem cv : (forall i, length (mem i) = 16%nat) -> addrs_valid cv ->
  gives alloc (addr_test alloc Test_destination mem cv) (test_means O_DESTINATION cv).
Proof.
  intros H16 Hv. unfold addr_test. eapply gives_step; [by apply addr_create_ok|]. intros rule Hr. apply gives_ret.
  intros w Hw Hl. destruct (Hl eq_refl) as [sa Hsa]. cbn [run_test option_accepts]. rewrite Hsa. intros s Hs. apply wp_hbind.
  eapply wp_conseq; [by apply (local_addr_ok w sa)|]. intros _ s' [Hs' Hl']. unfold wp. rewrite Hl'. split; [done|].
  pose proof (ok_local w Hw) as Hfit. rewrite Hsa in Hfit. specialize (Hr sa Hfit). unfold answers.
  destruct (nxt_http_route_addr_rule rule sa); cbn; [left|right; left]; (split; [done|]); naive_solver.
Qed.

Lemma letter c : 97 <= nxt_lowcase c <= 122 -> 65 <= c <= 122.
Proof. unfold nxt_lowcase. case_match; zbool; lia. Qed.

Lemma letters s t : map nxt_lowcase s = t -> Forall (fun c => 97 <= c <= 122) t -> Forall (fun c => 65 <= c <= 122) s.
Proof. intros <- H. rewrite Forall_map in H. eapply Forall_impl; [exact H|]. apply letter. Qed.

Lemma plain_text s : Forall (fun c => 65 <= c <= 122) s -> s <> [] ->
  Forall byte s /\ negated s = false /\ head (subject s) <> Some TILDE /\ segments (subject s) = [s] /\ no_double (subject s).
Proof.
  intros Hs Hne. assert (Hn : negated s = false).
  { destruct s as [|c s]; [done|]. apply Forall_cons in Hs as [Hc _]. cbn. apply Z.eqb_neq. lia. }
  unfold subject. rewrite Hn. rewrite Forall_forall in Hs. split_and!; [|done| | |].
  - apply Forall_forall. intros c Hc%Hs. unfold byte. lia.
  - destruct s as [|c s]; [done|]. intros [= ->]. specialize (Hs 126 ltac:(by left)). lia.
  - apply segments_no_star. intros c Hc%Hs. lia.
  - intros i [Hi _]. apply list_elem_of_lookup_2, Hs in Hi. lia.
Qed.

Lemma scheme_ok cv : option_valid O_SCHEME cv ->
  gives alloc (rule_test alloc ROUTE_SCHEME PATTERN_NOCASE URI_ENCODING_NONE cv) (test_means O_SCHEME cv).
Proof.
  intros (s & Hs & Hcase). destruct cv as [| | | |cs| |]; try done. cbn in Hs. injection Hs as <-. set (s := nxt_conf_get_string cs) in *.
  assert (Hlet : Forall (fun c => 65 <= c <= 122) s).
  { destruct Hcase as [H|H]; (eapply letters; [exact H|]); by repeat constructor. }
  assert (Hlen : length s = if decide (map nxt_lowcase s = bytes_of_string "https") then 5%nat else 4%nat).
  { rewrite <- (length_map nxt_lowcase s). by destruct Hcase as [-> | ->]. }
  destruct (plain_text s Hlet) as (Hb & Hn & Ht & Hseg & Hdd). { intros E. rewrite E in Hlen. by case_match. }
  unfold rule_test. eapply (gives_step _ _ _ (fun ps => exists p, ps = [p] /\ created PATTERN_NOCASE URI_ENCODING_NONE true s p)).
  - unfold nxt_http_route_rule_create. apply gives_request. eapply gives_lift; [done|]. cbn.
    eapply gives_step; [apply pattern_create_ok; try done|].
    + fold s. rewrite Hlen. case_match; lia.
    + intros seg _. by exists seg.
    + intros p Hp k. eexists _, k. split; [reflexivity|]. by exists p.
  - intros ps (p & -> & a & -> & Hsl). apply gives_ret. intros w Hw _.
    assert (Ea : elts a = [Slice s PATTERN_EXACT]).
    { destruct Hsl as [[_ ->]|(s0 & us & last & E & _)]; [by unfold subject; rewrite Hn|].
      rewrite Hseg in E. destruct us; discriminate. }
    unfold run_test, nxt_http_route_rule, nxt_http_route_scheme, option_accepts. cbn [object pattern body]. rewrite Ea. cbn [slice_text].
    apply decides_ret. rewrite eqb_true_iff, Hlen. replace (tests_of (VALUE_STRING cs)) with [s] by done. cbn [map].
    case_decide as E; [rewrite bool_decide_true by (by rewrite E)|rewrite bool_decide_false by congruence]; done.
Qed.

(** ** Steps *)

Definition all_options : list match_option :=
  [O_SCHEME; O_HOST; O_URI; O_METHOD; O_HEADERS; O_ARGUMENTS; O_COOKIES; O_QUERY; O_SOURCE; O_DESTINATION].

Definition found (mc : conf_value) (o : match_option) : list (match_option * conf_value) :=
  match map_ptr mc (option_name o) with Some cv => [(o, cv)] | None => [] end.

(** The options that an object has, in the order of their tests. *)
Definition present (mc : conf_value) : list (match_option * conf_value) := all_options ≫= found mc.

Definition tests_mean (l : list (match_option * conf_value)) (ts : list nxt_http_route_test_t) : Prop :=
  Forall2 (fun oc t => test_means oc.1 oc.2 t) l ts.

Lemma when_ok mc o create l ts :
  tests_mean l ts -> (forall cv, map_ptr mc (option_name o) = Some cv -> gives alloc (create cv) (test_means o cv)) ->
  gives alloc (when (map_ptr mc (option_name o)) create ts) (tests_mean (l ++ found mc o)).
Proof.
  intros Hl Hc. unfold when, found. destruct (map_ptr mc (option_name o)) as [cv|].
  - eapply gives_step; [by apply Hc|]. intros t Ht. apply gives_ret. apply Forall2_app; [done|]. by repeat constructor.
  - apply gives_ret. by rewrite app_nil_r.
Qed.

Lemma create_tests_ok mc source_mem destination_mem :
  (forall i, length (source_mem i) = 16%nat) -> (forall i, length (destination_mem i) = 16%nat) ->
  (forall o cv, map_ptr mc (option_name o) = Some cv -> option_valid o cv) ->
  gives alloc (create_tests alloc source_mem destination_mem mc) (tests_mean (present mc)).
Proof.
  intros H1 H2 Hv. unfold create_tests, present, all_options.
  assert (Hw : forall o create l ts, tests_mean l ts -> (forall cv, option_valid o cv -> gives alloc (create cv) (test_means o cv)) ->
    gives alloc (when (map_ptr mc (option_name o)) create ts) (tests_mean (l ++ found mc o))).
  { intros o create l ts Hl Hc. apply when_ok; [done|]. intros cv Hcv. by apply Hc, Hv. }
  eapply gives_step; [apply (Hw O_SCHEME _ []); [constructor|apply scheme_ok]|]. intros t1 Ht1.
  eapply gives_step; [apply (Hw O_HOST); [exact Ht1|intros cv Hcv; apply string_test_ok; [done|intros w ps _ Hps; by apply string_ok]]|]. intros t2 Ht2.
  eapply gives_step; [apply (Hw O_URI); [exact Ht2|intros cv Hcv; apply string_test_ok; [done|]]|].
  { intros w ps _ Hps. cbn. destruct (path (v_request w)); [by apply string_ok|by apply (decides_ret w false)]. } intros t3 Ht3.
  eapply gives_step; [apply (Hw O_METHOD); [exact Ht3|intros cv Hcv; apply string_test_ok; [done|]]|].
  { intros w ps _ Hps. cbn. destruct (method (v_request w)); [by apply string_ok|by apply (decides_ret w false)]. } intros t4 Ht4.
  eapply gives_step; [apply (Hw O_HEADERS); [exact Ht4|intros cv Hcv; by apply (table_test_ok _ HEADERS)]|]. intros t5 Ht5.
  eapply gives_step; [apply (Hw O_ARGUMENTS); [exact Ht5|intros cv Hcv; by apply (table_test_ok _ ARGUMENTS)]|]. intros t6 Ht6.
  eapply gives_step; [apply (Hw O_COOKIES); [exact Ht6|intros cv Hcv; by apply (table_test_ok _ COOKIES)]|]. intros t7 Ht7.
  eapply gives_step; [apply (Hw O_QUERY); [exact Ht7|intros cv Hcv; apply string_test_ok; [done|]]|].
  { intros w ps Hok (tests & Hperm & Hff & Hps). cbn. eapply decides_iff; [by apply rule_accepts_perm|]. by eapply query_ok. } intros t8 Ht8.
  eapply gives_step; [apply (Hw O_SOURCE); [exact Ht8|intros cv Hcv; by apply source_ok]|]. intros t9 Ht9.
  eapply gives_conseq; [apply (Hw O_DESTINATION); [exact Ht9|intros cv Hcv; by apply destination_ok]|].
  intros ts Hts. cbn [mbind list_bind]. rewrite app_nil_r. by rewrite <- !app_assoc in Hts.
Qed.

(** The members of an object with unique names. *)
Lemma member_loop_in l name cv : NoDup (map (fun m => nxt_conf_get_string m.1) l) ->
  forall n, (exists i, member_loop name l n = Some (i, cv)) <-> exists s, nxt_conf_get_string s = name /\ (s, cv) ∈ l.
Proof.
  induction l as [|[s v] l IH]; intros Hnd n; cbn [member_loop map] in *.
  { split; [by intros [i ?]|]. intros (s & _ & Hin). by apply elem_of_nil in Hin. }
  apply NoDup_cons in Hnd as [Hs Hnd]. case_bool_decide as E.
  - split.
    + intros [i [= <- <-]]. exists s. split; [done|]. by left.
    + intros (s' & Hs' & Hin). exists n. apply elem_of_cons in Hin as [[= -> ->]|Hin]; [done|]. exfalso. apply Hs.
      apply list_elem_of_fmap. exists (s', cv). split; [cbn; congruence|done].
  - rewrite IH by done. setoid_rewrite elem_of_cons. split.
    + intros (s' & Hs' & Hin). exists s'. auto.
    + intros (s' & Hs' & [[= -> ->]|Hin]); [done|]. by exists s'.
Qed.

Definition if_name : list Z := bytes_of_string "if".

(** A member of a "match" object: an option or the condition. *)
Definition match_member_valid (cond_valid : list Z -> Prop) (m : conf_string * conf_value) : Prop :=
  (exists o, nxt_conf_get_string m.1 = option_name o /\ option_valid o m.2) \/
  (nxt_conf_get_string m.1 = if_name /\ exists s, conf_string_of m.2 = Some s /\ cond_valid s).

Definition match_valid (cond_valid : list Z -> Prop) (mc : conf_value) : Prop :=
  exists l, mc = VALUE_OBJECT l /\ NoDup (map (fun m => nxt_conf_get_string m.1) l) /\ Forall (match_member_valid cond_valid) l.

Lemma option_name_inj o o' : option_name o = option_name o' -> o = o'.
Proof. by destruct o, o'. Qed.

Lemma option_name_not_if o : option_name o <> if_name.
Proof. by destruct o. Qed.

Lemma option_valid_not_null o : ~ option_valid o VALUE_NULL.
Proof.
  assert (H : forall encoding, ~ rule_valid encoding VALUE_NULL) by (by intros e (t & E & _)).
  assert (H' : forall kind, ~ Forall (ruleset_valid kind) [VALUE_NULL]).
  { intros kind Hf. apply Forall_cons in Hf as [(m & E & _) _]. done. }
  assert (Ha : ~ addrs_valid VALUE_NULL).
  { intros [specs Hf]. inversion Hf as [|? ? ? ? (a & str & E & _)]. done. }
  destruct o; cbn; auto; try apply H'. by intros (s & E & _).
Qed.

Section Members.
Context (cond_valid : list Z -> Prop) (l : list (conf_string * conf_value)).
Hypothesis Hnd : NoDup (map (fun m => nxt_conf_get_string m.1) l).
Hypothesis Hall : Forall (match_member_valid cond_valid) l.

Lemma map_ptr_in o cv : map_ptr (VALUE_OBJECT l) (option_name o) = Some cv <->
  exists s, nxt_conf_get_string s = option_name o /\ (s, cv) ∈ l.
Proof.
  rewrite <- (member_loop_in l (option_name o) cv Hnd 0). unfold map_ptr. cbn [nxt_conf_get_object_member].
  destruct (member_loop (option_name o) l 0) as [[i v]|] eqn:E; [|split; [done|by intros [i ?]]].
  assert (Hv : v <> VALUE_NULL).
  { intros ->. apply member_loop_spec in E as (_ & s & Hs & En). rewrite Forall_forall in Hall.
    apply list_elem_of_lookup_2, Hall in Hs as [(o' & Eo & Hv)|(Ei & _)]; cbn in *.
    - by eapply option_valid_not_null.
    - rewrite En in Ei. by apply option_name_not_if in Ei. }
  split.
  - intros H. exists i. by destruct v; simplify_eq.
  - intros [j [= _ <-]]. by destruct v.
Qed.

Lemma option_found_valid o cv : map_ptr (VALUE_OBJECT l) (option_name o) = Some cv -> option_valid o cv.
Proof.
  intros (s & Hs & Hin)%map_ptr_in. rewrite Forall_forall in Hall. apply Hall in Hin as [(o' & Eo & Hv)|(Ei & _)]; cbn in *.
  - rewrite Hs in Eo. by apply option_name_inj in Eo as ->.
  - rewrite Hs in Ei. by apply option_name_not_if in Ei.
Qed.

(** The condition takes one of the places of the members. *)
Definition is_if (m : conf_string * conf_value) : Prop := nxt_conf_get_string m.1 = if_name.

Lemma present_in o cv : (o, cv) ∈ present (VALUE_OBJECT l) <-> exists s, nxt_conf_get_string s = option_name o /\ (s, cv) ∈ l.
Proof.
  rewrite <- map_ptr_in. unfold present. rewrite list_elem_of_bind. unfold found. split.
  - intros (o' & Hin & _). destruct (map_ptr (VALUE_OBJECT l) (option_name o')) eqn:E; [|by apply elem_of_nil in Hin].
    apply list_elem_of_singleton in Hin. by simplify_eq.
  - intros E. exists o. rewrite E. split; [by left|]. destruct o; unfold all_options; rewrite !elem_of_cons; tauto.
Qed.

Lemma NoDup_fst {A B} (k : list (A * B)) : NoDup (k.*1) -> NoDup k.
Proof. apply NoDup_fmap_1. Qed.

Lemma present_nodup : NoDup ((option_name ∘ fst) <$> present (VALUE_OBJECT l)).
Proof.
  unfold present. assert (Hs : forall os, sublist ((option_name ∘ fst) <$> (os ≫= found (VALUE_OBJECT l))) (option_name <$> os)).
  { induction os as [|o os IH]; [done|]. cbn. rewrite fmap_app. unfold found at 1.
    destruct (map_ptr (VALUE_OBJECT l) (option_name o)); cbn; [by apply sublist_skip|by apply sublist_cons]. }
  eapply sublist_NoDup; [|apply Hs]. apply NoDup_fmap_2; [intros o o'; apply option_name_inj|].
  by apply (bool_decide_unpack _).
Qed.

Lemma present_length : length (present (VALUE_OBJECT l)) = length (filter (fun m => ~ is_if m) l).
Proof.
  set (f := fun oc : match_option * conf_value => (option_name oc.1, oc.2)).
  set (g := fun m : conf_string * conf_value => (nxt_conf_get_string m.1, m.2)).
  rewrite <- (length_fmap f), <- (length_fmap g (filter _ l)). apply Permutation_length, NoDup_Permutation.
  - apply NoDup_fst. rewrite <- list_fmap_compose. apply present_nodup.
  - apply NoDup_fst. rewrite <- list_fmap_compose. eapply sublist_NoDup; [exact Hnd|].
    apply fmap_sublist, sublist_filter.
  - intros [name cv]. rewrite !list_elem_of_fmap. split.
    + intros ([o v] & [= -> ->] & (s & Hs & Hin)%present_in). exists (s, v). split; [unfold g; cbn; by rewrite Hs|].
      apply list_elem_of_filter. split; [|done]. unfold is_if. cbn. rewrite Hs. apply option_name_not_if.
    + intros ([s v] & [= -> ->] & Hin). apply list_elem_of_filter in Hin as [Hif Hin].
      destruct (proj1 (Forall_forall _ _) Hall _ Hin) as [(o & Eo & _)|(Ei & _)]; [|done]. exists (o, v). split; [unfold f; cbn in *; by rewrite Eo|].
      apply present_in. by exists s.
Qed.

End Members.

End Create.

End Decide.

(** The code is the same whatever is cached. *)
Lemma gives_forall {A B} (alloc : nat -> bool) (m : Alloc (option A)) (R : B -> A -> Prop) (b : B) :
  (forall b, gives alloc m (R b)) -> gives alloc m (fun a => forall b, R b a).
Proof.
  intros H k. destruct (H b k) as (r & k' & E & Hr). exists r, k'. split; [done|]. destruct r as [a|]; [|done].
  intros b'. destruct (H b' k) as (r & k2 & E' & Hr'). rewrite E in E'. by injection E' as <- <-.
Qed.

(** ** Steps of a route *)

Section Steps.
Context {RE : Regex} {Q : Qsort} {D : Double} (sys_errlist : list (list Z)) (alloc : nat -> bool).
Context {action_t : Type}.

#[local] Hint Extern 0 VarHost => exact (http_vars sys_errlist) : typeclass_instances.

Context (var_hash : slot nxt_var_decl).
Context (action_init : nxt_tstr_state -> conf_value -> Alloc (option (action_t * nxt_tstr_state))).
Context (buf : list Z) (source_mem destination_mem : nat -> list Z).

Abbreviation nrefs st := (length (elts (var_refs st))).

(** At most [n] references were added. *)
Definition grows (st : nxt_tstr_state) (n : nat) (st' : nxt_tstr_state) : Prop :=
  refs_ok st' /\ extends st st' /\ (nrefs st' <= nrefs st + n)%nat.

Lemma grows_refl st n : refs_ok st -> grows st n st.
Proof. intros Hst. split_and!; [done|by unfold extends|lia]. Qed.

Lemma grows_trans st1 st2 st3 n m : grows st1 n st2 -> grows st2 m st3 -> grows st1 (n + m) st3.
Proof. intros (_ & H1 & H2) (H3 & H4 & H5). split_and!; [done|by etrans|lia]. Qed.

Lemma grows_le st n m st' : grows st n st' -> (n <= m)%nat -> grows st m st'.
Proof. intros (H1 & H2 & H3) Hm. split_and!; [done..|lia]. Qed.

(** What the actions promise: a valid one is made, with so many references. *)
Context (action_valid : conf_value -> Prop) (action_cost : conf_value -> nat).
Context (action_is : nxt_tstr_state -> conf_value -> action_t -> Prop).
Hypothesis Haction : forall st ac, action_valid ac -> refs_ok st -> Z.of_nat (nrefs st + action_cost ac) <= 43690 ->
  gives alloc (action_init st ac) (fun x => grows st (action_cost ac) x.2 /\ action_is x.2 ac x.1).
Hypothesis Hextends : forall st st' ac a, extends st st' -> action_is st ac a -> action_is st' ac a.
Hypothesis Hvars : var_hash_ok var_hash.
Hypothesis Hbuf : Forall byte buf /\ length buf = Z.to_nat NXT_CONF_MAX_TOKEN_LEN.
Hypothesis Hsource : forall i, length (source_mem i) = 16%nat.
Hypothesis Hdestination : forall i, length (destination_mem i) = 16%nat.

Definition member (cv : conf_value) (name : list Z) : option conf_value := snd <$> nxt_conf_get_object_member cv name.

Definition match_name : list Z := bytes_of_string "match".
Definition action_name : list Z := bytes_of_string "action".

(** The condition of a "match" object: the expansion of its template is none of
    the false texts, or with "!" it is one. *)
Definition cond_accepts (s : list Z) (w : view) : Prop :=
  exists ps, template ps /\ text_of ps = subject s /\
    if negated s then expansion w (var_flags no_flags) ps ∈ false_texts else expansion w (var_flags no_flags) ps ∉ false_texts.

Definition cond_valid (s : list Z) : Prop :=
  nxt_tstr_is_js (subject s) = false /\ ~ unknown_in (subject s) /\ Z.of_nat (length s) < 2 ^ 31.

(** A step accepts a request. *)
Definition step_accepts (cv : conf_value) (w : view) : Prop :=
  forall mc, member cv match_name = Some mc ->
    match_accepts mc w /\ forall c s, member mc if_name = Some c -> conf_string_of c = Some s -> cond_accepts s w.

Definition step_valid (cv : conf_value) : Prop :=
  (exists l, cv = VALUE_OBJECT l) /\
  (forall mc, member cv match_name = Some mc -> match_valid cond_valid mc) /\
  (exists ac, member cv action_name = Some ac /\ action_valid ac).

(** The references of a condition and of a step. *)
Definition cond_cost (c : option conf_value) : nat := dollars (default [] (c ≫= conf_string_of)).

Definition step_cost (cv : conf_value) : nat :=
  (from_option action_cost 0%nat (member cv action_name) + cond_cost (member cv match_name ≫= fun mc => member mc if_name))%nat.

(** A step that has a "destination". *)
Definition needs_local (cv : conf_value) : Prop :=
  exists mc dest, member cv match_name = Some mc /\ map_ptr mc (option_name O_DESTINATION) = Some dest.

(** What is kept in the request, with the values of variables. *)
Definition full_ok (st : nxt_tstr_state) (w : view) (s : route_state) : Prop := kept_ok alloc w s /\ cache_ok st w (rs_cache s).

(** What the match of a step does, with the references of the configuration that
    was made in the end. *)
Definition match_means (st1 : nxt_tstr_state) (cv : conf_value) (m : nxt_http_route_match_t) : Prop :=
  (exists ac, member cv action_name = Some ac /\ action_is st1 ac (action m)) /\
  forall st2 w, refs_ok st2 -> extends st1 st2 -> request_ok w -> (needs_local cv -> is_Some (v_local w)) -> forall s, full_ok st2 w s ->
    wp (nxt_http_route_match sys_errlist alloc (v_request w) st2 m) (fun a s' =>
      match a with
      | MATCHED x => x = action m /\ step_accepts cv w /\ full_ok st2 w s'
      | NOT_MATCHED => ~ step_accepts cv w /\ full_ok st2 w s'
      | MATCH_ERROR => trouble alloc
      end) s.

Lemma match_means_extends st st' cv m : extends st st' -> match_means st cv m -> match_means st' cv m.
Proof.
  intros He [(ac & Hac & Ha) Hm]. split; [exists ac; split; [done|by eapply Hextends]|]. intros st2 w Hst2 He2. apply Hm; [done|by etrans].
Qed.

Lemma path_ok l (path name : list Z) :
  Forall byte path -> ConfOps.segments path = [name] -> token name = Some name -> name <> [] ->
  nxt_conf_get_path buf (VALUE_OBJECT l) path = Ret (member (VALUE_OBJECT l) name).
Proof.
  intros Hp Hseg Ht Hne. rewrite get_path_ok by (done || apply Hbuf). rewrite Hseg. cbn [find_path]. rewrite Ht.
  destruct name as [|c name]; [done|]. unfold member. cbn [child nxt_conf_get_object_member]. by destruct (member_loop (c :: name) l 0) as [[]|].
Qed.

Lemma match_path_ok l : nxt_conf_get_path buf (VALUE_OBJECT l) (bytes_of_string "/match") = Ret (member (VALUE_OBJECT l) match_name).
Proof. apply path_ok; [apply bytes_of_string_byte|done..]. Qed.

Lemma action_path_ok l : nxt_conf_get_path buf (VALUE_OBJECT l) (bytes_of_string "/action") = Ret (member (VALUE_OBJECT l) action_name).
Proof. apply path_ok; [apply bytes_of_string_byte|done..]. Qed.

Lemma if_path_ok l : nxt_conf_get_path buf (VALUE_OBJECT l) (bytes_of_string "/if") = Ret (member (VALUE_OBJECT l) if_name).
Proof. apply path_ok; [apply bytes_of_string_byte|done..]. Qed.

(** The text of a condition. *)
Lemma kept_match w s m : kept_ok alloc w s -> kept_ok alloc w (set_match s m).
Proof. by intros []. Qed.

Lemma kept_cache w s c : kept_ok alloc w s -> kept_ok alloc w (set_cache s c).
Proof. by intros []. Qed.

Lemma query_init_ok st w s : full_ok st w s ->
  wp (query_init alloc) (fun ok s' => full_ok st w s' /\ (ok = false -> exists j, alloc j = false)) s.
Proof.
  intros [Hk Hc]. unfold query_init, wp, hbind, pooled, nxt_tstr_query_init.
  destruct (rs_query s); cbn; [split; [|done]; split; [by destruct Hk|done]|].
  destruct (alloc (mp (rs_match s))) eqn:E; cbn; (split; [split; [by destruct Hk|done]|]); [done|]. by exists (mp (rs_match s)).
Qed.

Lemma cond_text_ok st1 ps t : tstr_means st1 no_flags ps t -> forall st2 w s, refs_ok st2 -> extends st1 st2 -> request_ok w -> full_ok st2 w s ->
  wp (cond_text sys_errlist alloc (v_request w) st2 t) (fun r s' =>
    match r with Some v => v = expansion w (var_flags no_flags) ps /\ full_ok st2 w s' | None => exists j, alloc j = false end) s.
Proof.
  intros Ht st2 w s Hst2 He Hw Hs. unfold cond_text, nxt_tstr_is_const, wp. pose proof Hs as [Hk Hc].
  pose proof (Ht alloc st2 w (rs_cache s) s Hst2 He Hc (conj Hw Hk)) as Hq. destruct (tstr_type t) as [[|var]|] eqn:Et.
  - unfold nxt_tstr_query in Hq. rewrite Et in Hq. destruct Hq as [_ [Hv _]]. done.
  - clear Hq. cbn [obind]. pose proof (query_init_ok st2 w s Hs) as Hi. unfold wp, hbind in *.
    destruct (query_init alloc s) as [[ok s1]| |]; [|done..]. cbn [obind]. destruct Hi as [[Hk1 Hc1] Hok]. destruct ok; cbn [negb]; [|by apply Hok].
    pose proof (Ht alloc st2 w (rs_cache s1) s1 Hst2 He Hc1 (conj Hw Hk1)) as Hq. unfold tstr_run, wp in *.
    set (q := nxt_tstr_query alloc st2 (v_request w) t (rs_cache s1, s1)).
    lazymatch type of Hq with match ?m with _ => _ end => change m with q in Hq end.
    destruct q as [[r [c s2]]| |]; [|done..]. cbn [obind]. destruct Hq as [[_ Hk2] Hr]. cbn [fst snd] in Hk2, Hr.
    destruct r as [v|]; [|done]. destruct Hr as [-> Hc2]. split; [done|]. split; [by apply kept_cache|done].
  - unfold nxt_tstr_query in Hq. by rewrite Et in Hq.
Qed.

(** The condition. *)
Definition cond_means (st1 : nxt_tstr_state) (condition : option conf_value) (cond : nxt_tstr_cond) : Prop :=
  forall st2 w s, refs_ok st2 -> extends st1 st2 -> request_ok w -> full_ok st2 w s ->
    wp (nxt_http_cond_value sys_errlist alloc (v_request w) st2 cond) (fun z s' =>
      (z = -1 \/ full_ok st2 w s') /\
      answers alloc (forall c s, condition = Some c -> conf_string_of c = Some s -> cond_accepts s w) z) s.

Lemma no_cond_ok st : cond_means st None (Cond None false).
Proof. intros st2 w s _ _ _ Hs. apply wp_hret. split; [by right|]. by left. Qed.

Lemma cond_accepts_iff s ps w : template ps -> text_of ps = subject s ->
  cond_accepts s w <-> if negated s then expansion w (var_flags no_flags) ps ∈ false_texts else expansion w (var_flags no_flags) ps ∉ false_texts.
Proof.
  intros Hps Et. split; [|by exists ps]. intros (ps' & Hps' & Et' & H). by rewrite (template_unique ps' ps) in H by (done || congruence).
Qed.

Lemma negated_head s : bool_decide (head s = Some 33) = negated s.
Proof. destruct s as [|x s]; [done|]. cbn. destruct (Z.eqb_spec x 33) as [->|Hx]; [done|]. apply bool_decide_false. by intros [= ->]. Qed.

Lemma cond_compile_ok st c s : conf_string_of c = Some s -> cond_valid s -> refs_ok st -> Z.of_nat (nrefs st + dollars s) <= 43690 ->
  gives alloc (nxt_tstr_cond_compile alloc var_hash st s) (fun x => grows st (dollars s) x.2 /\ cond_means x.2 (Some c) x.1).
Proof.
  intros Hs (Hjs & Hknown & Hlen) Hst Hn. unfold nxt_tstr_cond_compile. rewrite negated_head.
  replace (if negated s then drop 1 s else s) with (subject s) by done.
  assert (Hd : (dollars (subject s) <= dollars s)%nat /\ (length (subject s) <= length s)%nat).
  { unfold subject. destruct (negated s); [|lia]. destruct s as [|x s]; [cbn; lia|]. change (drop 1 (x :: s)) with s. unfold dollars. rewrite filter_cons.
    case_decide; cbn [length]; lia. }
  eapply (gives_step _ _ _ (TstrSpec.compiled st (subject s) no_flags)).
  { intros k. destruct (tstr_compile_ok alloc var_hash Hvars st (subject s) no_flags k) as (r & k' & E & Hr); [done|done|lia|lia|].
    exists r, k'. split; [exact E|]. destruct r; [done|]. by destruct Hr. }
  intros [t st'] (Hst' & He & Hg & ps & Hps & Et & _ & Hmeans). cbn [fst snd] in *. apply gives_ret. cbn [fst snd].
  split; [split_and!; [done..|lia]|]. rewrite app_nil_r in Et. intros st2 w s0 Hst2 He2 Hw Hs0. unfold nxt_http_cond_value. cbn [expr negate].
  apply wp_hbind. eapply wp_conseq; [by apply (cond_text_ok st' ps)|]. intros r s1 Hr.
  destruct r as [v|]; (apply wp_hret); [|split; [by left|]; right; right; split; [done|by left]].
  destruct Hr as [-> Hs1]. split; [by right|]. unfold answers.
  assert (Heq : (forall c' s', Some c = Some c' -> conf_string_of c' = Some s' -> cond_accepts s' w) <-> cond_accepts s w).
  { split; [by intros H; eapply H|]. intros H c' s' [= <-] E. by simplify_eq. }
  rewrite Heq, (cond_accepts_iff s ps w Hps Et). case_bool_decide as Ev; destruct (negated s); cbn; naive_solver.
Qed.

Lemma tests_loop_ok cache w l ts : request_ok w -> tests_mean alloc cache l ts -> (forall cv, (O_DESTINATION, cv) ∈ l -> is_Some (v_local w)) ->
  decides alloc cache w (tests_loop alloc (v_request w) (Some <$> ts)) (forall o cv, (o, cv) ∈ l -> option_accepts o cv w).
Proof.
  intros Hw. induction 1 as [|[o cv] t l ts Ht Hts IH]; intros Hloc; cbn [fmap list_fmap tests_loop].
  { apply (decides_ret alloc cache w true). split; [|done]. intros _ o cv Hin. by apply elem_of_nil in Hin. }
  eapply decides_iff; [|apply decides_and; [apply (Ht w Hw); cbn; intros ->; eapply Hloc; by left|intros _; apply IH]].
  - setoid_rewrite elem_of_cons. cbn. split; [intros [H1 H2] o' cv' [[= -> ->]|Hin]; [done|by apply H2]|].
    intros H. split; [by apply H; left|]. intros o' cv' Hin. apply H. by right.
  - intros cv' Hin. eapply Hloc. by right.
Qed.

(** A match of a condition and tests. *)
Lemma match_run_ok st1 st2 w condition cond (a : action_t) ts (P : Prop) s :
  cond_means st1 condition cond -> (forall cache, decides alloc cache w (tests_loop alloc (v_request w) ts) P) ->
  refs_ok st2 -> extends st1 st2 -> request_ok w -> full_ok st2 w s ->
  wp (nxt_http_route_match sys_errlist alloc (v_request w) st2 (Match cond a ts)) (fun x s' =>
    let Q := P /\ forall c s, condition = Some c -> conf_string_of c = Some s -> cond_accepts s w in
    match x with
    | MATCHED y => y = a /\ Q /\ full_ok st2 w s'
    | NOT_MATCHED => ~ Q /\ full_ok st2 w s'
    | MATCH_ERROR => trouble alloc
    end) s.
Proof.
  intros Hc Ht Hst2 He Hw Hs. unfold nxt_http_route_match. cbn [Route.condition action test]. apply wp_hbind.
  eapply wp_conseq; [by apply Hc|]. intros z s' [Hs' [[-> HP]|[[-> HP]|[-> HP]]]]; cbn;
    [|destruct Hs' as [?|Hs']; [done|]; apply wp_hret; tauto|by apply wp_hret].
  destruct Hs' as [?|[Hk Hca]]; [done|]. apply wp_hbind. eapply wp_conseq; [by apply (Ht (rs_cache s') s')|].
  intros z s2 [[Hk2 Ec] Ha]. assert (Hs2 : full_ok st2 w s2) by (split; [done|by rewrite Ec]).
  destruct Ha as [[-> HP']|[[-> HP']|[-> HP']]]; cbn; apply wp_hret; tauto.
Qed.

Lemma filter_keep {A} (P : A -> Prop) `{!forall x, Decision (P x)} l : Forall P l -> filter P l = l.
Proof. induction 1 as [|x l Hx Hl IH]; [done|]. by rewrite filter_cons_True, IH. Qed.

Lemma if_count l : NoDup (map (fun m : conf_string * conf_value => nxt_conf_get_string m.1) l) ->
  length (filter (fun m => ~ is_if m) l) = match member (VALUE_OBJECT l) if_name with Some _ => (length l - 1)%nat | None => length l end.
Proof.
  intros Hnd0. unfold member. cbn [nxt_conf_get_object_member]. set (n := 0%nat) at 1. clearbody n. revert n Hnd0.
  induction l as [|[s v] l IH]; intros n Hnd; [done|].
  cbn [map] in Hnd. apply NoDup_cons in Hnd as [Hs Hnd]. cbn [member_loop]. case_bool_decide as E; cbn [fmap option_fmap option_map].
  - rewrite filter_cons_False by (unfold is_if; cbn [fst]; tauto). rewrite (filter_keep (fun m => ~ is_if m) l); [cbn; lia|].
    apply Forall_forall. intros [s' v'] Hin Hif. unfold is_if in Hif. cbn [fst] in Hif, Hs. apply Hs, list_elem_of_fmap.
    exists (s', v'). cbn [fst]. split; [congruence|done].
  - rewrite filter_cons_True by (unfold is_if; cbn [fst]; tauto). cbn [length]. rewrite (IH (S n) Hnd).
    destruct (member_loop if_name l (S n)) as [[i x]|] eqn:El; cbn; [|done].
    apply member_loop_spec in El as [Hi _]. lia.
Qed.

Lemma match_accepts_present mc w : match_accepts mc w <-> forall o cv, (o, cv) ∈ present mc -> option_accepts o cv w.
Proof.
  unfold match_accepts. assert (H : forall o cv, (o, cv) ∈ present mc <-> map_ptr mc (option_name o) = Some cv).
  { intros o cv. unfold present. rewrite list_elem_of_bind. unfold found. split.
    - intros (o' & Hin & _). destruct (map_ptr mc (option_name o')) eqn:E; [|by apply elem_of_nil in Hin].
      apply list_elem_of_singleton in Hin. by simplify_eq.
    - intros E. exists o. rewrite E. split; [by left|]. destruct o; unfold all_options; rewrite !elem_of_cons; tauto. }
  by setoid_rewrite H.
Qed.

(** The condition of a "match" object. *)
Lemma condition_ok l condition st : Forall (match_member_valid cond_valid) l -> member (VALUE_OBJECT l) if_name = condition ->
  refs_ok st -> Z.of_nat (nrefs st + cond_cost condition) <= 43690 ->
  gives alloc
    (match condition with
     | None => aret (Some (Cond None false, st))
     | Some c => let! str := alift (of_option (conf_string_of c)) in nxt_tstr_cond_compile alloc var_hash st str
     end) (fun x => grows st (cond_cost condition) x.2 /\ cond_means x.2 condition x.1).
Proof.
  intros Hall Hcond Hst Hn. destruct condition as [c|]; [|apply gives_ret; split; [by apply grows_refl|apply no_cond_ok]].
  assert (exists s, conf_string_of c = Some s /\ cond_valid s) as (s & Es & Hs).
  { unfold member in Hcond. cbn [nxt_conf_get_object_member] in Hcond.
    destruct (member_loop if_name l 0) as [[i x]|] eqn:El; [|done]. cbn in Hcond. simplify_eq.
    apply member_loop_spec in El as (_ & s & Hin & En). apply list_elem_of_lookup_2 in Hin.
    destruct (proj1 (Forall_forall _ _) Hall _ Hin) as [(o & Eo & _)|(_ & Hs)]; [|done]. cbn in Eo. rewrite En in Eo.
    by destruct (option_name_not_if o). }
  unfold cond_cost in *. cbn [mbind option_bind] in *. rewrite Es in *. cbn [default from_option id of_option] in *.
  eapply gives_lift; [done|]. by apply cond_compile_ok.
Qed.

(** A "match" object makes its places and its condition. *)
Lemma match_object_ok cv mc a st : member cv match_name = Some mc -> match_valid cond_valid mc ->
  (exists ac, member cv action_name = Some ac /\ action_is st ac a) -> refs_ok st ->
  forall condition n, member mc if_name = condition -> n = length (present mc) -> Z.of_nat (nrefs st + cond_cost condition) <= 43690 ->
  gives alloc
    (let? (cond, st) := match condition with
                        | None => aret (Some (Cond None false, st))
                        | Some c => let! str := alift (of_option (conf_string_of c)) in nxt_tstr_cond_compile alloc var_hash st str
                        end in
     let? tests := create_tests alloc source_mem destination_mem mc in
     let! places := alift (place_tests n tests) in
     aret (Some (Match cond a places, st))) (fun x => grows st (cond_cost condition) x.2 /\ match_means x.2 cv x.1).
Proof.
  intros Hmc (l & -> & Hnd & Hall) (ac & Hac & Ha) Hst condition n Hcond -> Hn.
  eapply gives_step; [by apply (condition_ok l)|]. intros [cond st'] [Hg Hc]. cbn [fst snd] in *.
  eapply gives_step; [apply (gives_forall alloc _ (fun cache => tests_mean alloc cache (present (VALUE_OBJECT l))) (Var_cache Null None [] 0)); intros cache; apply (create_tests_ok alloc cache); [done..|];
    intros o v Hv; by eapply option_found_valid|].
  intros ts Hts. assert (Hl : length ts = length (present (VALUE_OBJECT l))) by (by rewrite (Forall2_length _ _ _ (Hts (Var_cache Null None [] 0)))).
  unfold place_tests. rewrite <- Hl, Nat.ltb_irrefl, Nat.sub_diag. cbn [repeat]. rewrite app_nil_r.
  eapply gives_lift; [done|]. apply gives_ret. cbn [fst snd]. split; [done|].
  split; [exists ac; split; [done|]; eapply Hextends; [by destruct Hg as (_ & ? & _)|done]|].
  intros st2 w Hst2 He Hw Hneed s Hs. eapply wp_conseq; [eapply match_run_ok; [exact Hc| |done..]|].
  - intros cache. eapply decides_iff; [symmetry; apply match_accepts_present|]. apply tests_loop_ok; [done..|]. intros v Hin. apply Hneed.
    exists (VALUE_OBJECT l), v. split; [done|]. apply (present_in _ l Hnd Hall) in Hin. by apply (map_ptr_in _ l Hnd Hall).
  - intros x s' Hx. cbn [action].
    assert (Hq : (match_accepts (VALUE_OBJECT l) w /\ (forall c s, condition = Some c -> conf_string_of c = Some s -> cond_accepts s w)) <-> step_accepts cv w).
    { unfold step_accepts. split; [|by intros H; rewrite <- Hcond; apply H]. intros H mc' E. rewrite Hmc in E. injection E as <-.
      by rewrite Hcond. }
    cbn zeta in Hx. destruct x; rewrite <- ?Hq; done.
Qed.

(** A step without tests. *)
Lemma match_always_ok cv st a : (exists ac, member cv action_name = Some ac /\ action_is st ac a) -> (forall w, step_accepts cv w) ->
  match_means st cv (Match (Cond None false) a []).
Proof.
  intros Hac Hall. split; [done|]. intros st2 w Hst2 He Hw _ s Hs.
  eapply wp_conseq; [eapply match_run_ok; [exact (no_cond_ok st)| |done..]|].
  { intros cache. apply (tests_loop_ok cache w [] []); [done|constructor|by intros ? ?%elem_of_nil]. }
  intros x s' Hx. cbn zeta in Hx. destruct x; [naive_solver| |done].
  exfalso. destruct Hx as [Hx _]. apply Hx. split; [by intros o v ?%elem_of_nil|done].
Qed.

Lemma match_create_ok cv st : step_valid cv -> refs_ok st -> Z.of_nat (nrefs st + step_cost cv) <= 43690 ->
  gives alloc (nxt_http_route_match_create sys_errlist alloc var_hash action_init buf source_mem destination_mem st cv)
    (fun x => grows st (step_cost cv) x.2 /\ match_means x.2 cv x.1).
Proof.
  intros ((l & ->) & Hm & ac & Hac & Hacv) Hst Hn. unfold nxt_http_route_match_create. unfold step_cost in *. rewrite Hac in *.
  eapply gives_lift; [apply match_path_ok|]. destruct (member (VALUE_OBJECT l) match_name) as [mc|] eqn:Emc; cbn [mbind option_bind from_option] in *.
  - destruct (Hm mc eq_refl) as (ml & -> & Hnd & Hall). eapply gives_lift; [done|]. eapply gives_lift; [apply if_path_ok|].
    apply gives_request. eapply gives_lift; [apply action_path_ok|]. rewrite Hac.
    eapply gives_step; [apply Haction; [done..|lia]|]. intros [a st1] [Hg Ha]. cbn [fst snd] in *. pose proof Hg as (Hst1 & He1 & Hn1).
    pose proof (present_length _ ml Hnd Hall) as Hpl. rewrite (if_count ml Hnd) in Hpl. rewrite <- Hpl.
    assert (Hobj := match_object_ok (VALUE_OBJECT l) (VALUE_OBJECT ml) a st1 Emc ltac:(by exists ml) ltac:(by exists ac) Hst1
      (member (VALUE_OBJECT ml) if_name) _ eq_refl eq_refl ltac:(lia)).
    assert (Hobj' : forall x : nxt_http_route_match_t * nxt_tstr_state, grows st1 (cond_cost (member (VALUE_OBJECT ml) if_name)) x.2 /\ match_means x.2 (VALUE_OBJECT l) x.1 ->
      grows st (action_cost ac + cond_cost (member (VALUE_OBJECT ml) if_name)) x.2 /\ match_means x.2 (VALUE_OBJECT l) x.1).
    { intros x [Hx1 Hx2]. split; [by eapply grows_trans|done]. }
    destruct (length (present (VALUE_OBJECT ml)) =? 0)%nat eqn:E0; cbn [andb]; [|eapply gives_lift; [done|by eapply gives_conseq]].
    destruct (member (VALUE_OBJECT ml) if_name) as [c|] eqn:Eif; cbn [negb]; [eapply gives_lift; [done|by eapply gives_conseq]|]. clear Hobj Hobj'.
    apply Nat.eqb_eq, length_zero_iff_nil in E0. rewrite bool_decide_false by (by intros [? ?]). cbn [negb].
    apply gives_ret. split; [eapply grows_le; [done|lia]|]. apply match_always_ok; [by exists ac|]. intros w mc E. rewrite Emc in E. injection E as <-.
    split; [|intros c s0 E; by rewrite Eif in E]. apply match_accepts_present. rewrite E0. by intros o cv ?%elem_of_nil.
  - eapply gives_lift; [done|]. eapply gives_lift; [done|]. apply gives_request. eapply gives_lift; [apply action_path_ok|]. rewrite Hac.
    eapply gives_step; [apply Haction; [done..|lia]|]. intros [a st1] [Hg Ha]. cbn [fst snd] in *. cbn. apply gives_ret.
    split; [eapply grows_le; [done|lia]|]. apply match_always_ok; [by exists ac|]. intros w mc E. by rewrite Emc in E.
Qed.

(** ** Routes *)

(** The first step that accepts the request. *)
Definition first_step (cvs : list conf_value) (w : view) (cv : conf_value) : Prop :=
  exists i, cvs !! i = Some cv /\ step_accepts cv w /\ forall j cv', (j < i)%nat -> cvs !! j = Some cv' -> ~ step_accepts cv' w.

Definition handles (st1 : nxt_tstr_state) (cvs : list conf_value) (ms : list nxt_http_route_match_t) : Prop :=
  forall st2 w, refs_ok st2 -> extends st1 st2 -> request_ok w ->
    (forall cv, cv ∈ cvs -> needs_local cv -> is_Some (v_local w)) -> forall s, full_ok st2 w s ->
    wp (nxt_http_route_handler sys_errlist alloc (v_request w) st2 ms) (fun a s' =>
      match a with
      | ROUTED x => full_ok st2 w s' /\ exists cv ac, first_step cvs w cv /\ member cv action_name = Some ac /\ action_is st2 ac x
      | ROUTE_NOT_FOUND => full_ok st2 w s' /\ forall cv, cv ∈ cvs -> ~ step_accepts cv w
      | ROUTE_ERROR => trouble alloc
      end) s.

Lemma handler_ok st1 cvs ms : Forall2 (match_means st1) cvs ms -> handles st1 cvs ms.
Proof.
  induction 1 as [|cv m cvs ms [(ac & Hac & Ha) Hm] Hms IH]; intros st2 w Hst2 He Hw Hneed s Hs; cbn [nxt_http_route_handler].
  { apply wp_hret. split; [done|]. by intros cv ?%elem_of_nil. }
  apply wp_hbind. eapply wp_conseq; [apply Hm; [done..| |done]; apply Hneed; by left|].
  intros a s' Hx. destruct a as [a| |].
  - destruct Hx as (-> & Hx & Hs'). apply wp_hret. split; [done|]. exists cv, ac. split; [|split; [done|by eapply Hextends]].
    exists 0%nat. split; [done|]. split; [done|]. lia.
  - destruct Hx as [Hx Hs']. eapply wp_conseq; [apply IH; [done..| |done]; intros cv' Hin; apply Hneed; by right|].
    intros a s2 Ha2. destruct a as [a| |]; [|done|]; destruct Ha2 as [Hs2 Ha2]; (split; [done|]).
    + destruct Ha2 as (cv' & ac' & (i & Hi & Hacc & Hbefore) & Hac' & Ha'). exists cv', ac'. split; [|done]. exists (S i).
      split; [done|]. split; [done|]. intros [|j] cv2 Hj Hl; cbn in Hl; [by simplify_eq|]. eapply Hbefore; [|exact Hl]. lia.
    + intros cv' [->|Hin]%elem_of_cons; auto.
  - apply wp_hret. done.
Qed.

Definition steps_cost (cvs : list conf_value) : nat := sum_list (step_cost <$> cvs).

Lemma create_matches_ok cvs : Forall step_valid cvs -> forall st, refs_ok st -> Z.of_nat (nrefs st + steps_cost cvs) <= 43690 ->
  gives alloc (create_matches sys_errlist alloc var_hash action_init buf source_mem destination_mem st cvs)
    (fun x => grows st (steps_cost cvs) x.2 /\ Forall2 (match_means x.2) cvs x.1).
Proof.
  induction 1 as [|cv cvs Hcv Hcvs IH]; intros st Hst Hn; cbn [create_matches].
  { apply gives_ret. split; [by apply grows_refl|constructor]. }
  change (steps_cost (cv :: cvs)) with (step_cost cv + steps_cost cvs)%nat in *.
  eapply gives_step; [apply match_create_ok; [done..|lia]|]. intros [m st1] [Hg Hm]. cbn [fst snd] in *. pose proof Hg as (Hst1 & _ & Hn1).
  eapply gives_step; [apply IH; [done|lia]|]. intros [ms st2] [Hg2 Hms]. cbn [fst snd] in *. apply gives_ret.
  split; [by eapply grows_trans|]. constructor; [|done]. eapply match_means_extends; [|done]. by destruct Hg2 as (_ & ? & _).
Qed.

(** The route of an array of steps. *)
Definition route_means (st1 : nxt_tstr_state) (name : list Z) (cv : conf_value) (route : nxt_http_route_t) : Prop :=
  route_name route = name /\ exists cvs, cv = VALUE_ARRAY cvs /\ handles st1 cvs (match_ route).

Definition route_valid (cv : conf_value) : Prop := exists cvs, cv = VALUE_ARRAY cvs /\ Forall step_valid cvs.

Definition route_cost (cv : conf_value) : nat := match cv with VALUE_ARRAY cvs => steps_cost cvs | _ => 0%nat end.

Lemma route_means_extends st st' name cv route : extends st st' -> route_means st name cv route -> route_means st' name cv route.
Proof.
  intros He (Hn & cvs & -> & Hh). split; [done|]. exists cvs. split; [done|]. intros st2 w Hst2 He2. apply Hh; [done|by etrans].
Qed.

Lemma route_create_ok name cv st : route_valid cv -> refs_ok st -> Z.of_nat (nrefs st + route_cost cv) <= 43690 ->
  gives alloc (nxt_http_route_create sys_errlist alloc var_hash action_init buf source_mem destination_mem st cv name)
    (fun x => grows st (route_cost cv) x.2 /\ route_means x.2 name cv x.1).
Proof.
  intros (cvs & -> & Hcvs) Hst Hn. unfold nxt_http_route_create. eapply gives_lift; [done|]. apply gives_request.
  eapply gives_step; [by apply create_matches_ok|]. intros [ms st1] [Hg Hms]. cbn [fst snd] in *. apply gives_ret. split; [done|].
  split; [done|]. exists cvs. split; [done|]. by apply handler_ok.
Qed.

(** The names and the routes of a configuration. *)
Definition named_routes (cv : conf_value) : list (list Z * conf_value) :=
  match cv with VALUE_OBJECT l => (fun m => (nxt_conf_get_string m.1, m.2)) <$> l | _ => [([], cv)] end.

Definition routes_cost (cv : conf_value) : nat := sum_list ((fun nr => route_cost nr.2) <$> named_routes cv).

Definition routes_mean (st1 : nxt_tstr_state) (cv : conf_value) (routes : list nxt_http_route_t) : Prop :=
  Forall2 (fun nr => route_means st1 nr.1 nr.2) (named_routes cv) routes.

Lemma create_routes_ok l : Forall (fun m => route_valid m.2) l -> forall st, refs_ok st -> Z.of_nat (nrefs st + routes_cost (VALUE_OBJECT l)) <= 43690 ->
  gives alloc (create_routes sys_errlist alloc var_hash action_init buf source_mem destination_mem st l)
    (fun x => grows st (routes_cost (VALUE_OBJECT l)) x.2 /\ routes_mean x.2 (VALUE_OBJECT l) x.1).
Proof.
  induction 1 as [|[name cv] l Hcv Hl IH]; intros st Hst Hn; cbn [create_routes].
  { apply gives_ret. split; [by apply grows_refl|constructor]. }
  change (routes_cost (VALUE_OBJECT ((name, cv) :: l))) with (route_cost cv + routes_cost (VALUE_OBJECT l))%nat in *.
  eapply gives_step; [apply route_create_ok; [done..|lia]|]. intros [route st1] [Hg Hr]. cbn [fst snd] in *. pose proof Hg as (Hst1 & _ & Hn1).
  apply gives_request. eapply gives_step; [apply IH; [done|lia]|]. intros [routes st2] [Hg2 Hrs]. cbn [fst snd] in *. apply gives_ret.
  split; [by eapply grows_trans|]. constructor; [|done]. eapply route_means_extends; [|done]. by destruct Hg2 as (_ & ? & _).
Qed.

Lemma routes_create_ok cv st : Forall (fun nr => route_valid nr.2) (named_routes cv) -> refs_ok st ->
  Z.of_nat (nrefs st + routes_cost cv) <= 43690 ->
  gives alloc (nxt_http_routes_create sys_errlist alloc var_hash action_init buf source_mem destination_mem st cv)
    (fun x => grows st (routes_cost cv) x.2 /\ routes_mean x.2 cv x.1).
Proof.
  intros Hv Hst Hn. unfold nxt_http_routes_create. apply gives_request.
  assert (Hone : route_valid cv -> named_routes cv = [([], cv)] ->
    gives alloc (let? (route, st) := nxt_http_route_create sys_errlist alloc var_hash action_init buf source_mem destination_mem st cv [] in aret (Some ([route], st)))
      (fun x => grows st (routes_cost cv) x.2 /\ routes_mean x.2 cv x.1)).
  { intros Hr Ecv. unfold routes_cost, routes_mean in *. rewrite Ecv in *. cbn [fmap list_fmap snd sum_list] in *.
    eapply gives_step; [apply route_create_ok; [done..|cbn in Hn; lia]|]. intros [route st1] [Hg Hroute]. cbn [fst snd] in *. apply gives_ret.
    split; [eapply grows_le; [done|cbn; lia]|]. constructor; [done|constructor]. }
  destruct cv as [| | | | | |l]; try (apply Hone; [by apply Forall_cons in Hv as [Hv _]|done]).
  apply create_routes_ok; [|done..]. cbn in Hv. by rewrite Forall_fmap in Hv.
Qed.

Lemma route_find_ok st cv routes name : routes_mean st cv routes ->
  match nxt_http_route_find (Some routes) name with
  | Some route => exists rcv, (name, rcv) ∈ named_routes cv /\ route_means st name rcv route
  | None => name ∉ (named_routes cv).*1
  end.
Proof.
  intros Hall. unfold nxt_http_route_find. destruct (list_find (fun r => route_name r = name) routes) as [[i route]|] eqn:E; cbn.
  - apply list_find_Some in E as (Hi & Hn & _). destruct (Forall2_lookup_r _ _ _ _ _ Hall Hi) as ([n rcv] & Hl & Hm). cbn in Hm.
    pose proof Hm as [Hn' _]. rewrite Hn in Hn'. subst n. exists rcv. split; [by eapply list_elem_of_lookup_2|done].
  - apply list_find_None in E. rewrite list_elem_of_fmap. intros ([n rcv] & -> & Hin).
    apply list_elem_of_lookup in Hin as [i Hi]. destruct (Forall2_lookup_l _ _ _ _ _ Hall Hi) as (route & Hr & [Hn _]).
    rewrite Forall_forall in E. apply (E route); [by eapply list_elem_of_lookup_2|done].
Qed.

End Steps.

(** C11. Routing.  From valid routes of the configuration
    [nxt_http_routes_create()] makes routes, or some allocation failed, which
    [nxt_http_route_find()] finds by their names.  On a request as the parser
    leaves it, [nxt_http_route_handler()] of such a route returns the action of
    the first step that accepts the request: all of whose options accept it, as
    they are written in the configuration, and whose condition, with the values
    of the request's variables in their places, is not one of the false texts.
    It answers 404 exactly when no step does, and fails only when memory or the
    regular expression library failed.  The references that templates add and
    the values that are cached stay right.  [qsort()] and actions are those of
    their interfaces. *)
Theorem nxt_http_routes_correct {RE : Regex} {Q : Qsort} {D : Double} (sys_errlist : list (list Z)) {action_t : Type} (alloc : nat -> bool)
    (var_hash : slot nxt_var_decl) (action_init : nxt_tstr_state -> conf_value -> Alloc (option (action_t * nxt_tstr_state)))
    (buf : list Z) (source_mem destination_mem : nat -> list Z)
    (action_valid : conf_value -> Prop) (action_cost : conf_value -> nat) (action_is : nxt_tstr_state -> conf_value -> action_t -> Prop)
    (st : nxt_tstr_state) (cv : conf_value) :
  (forall st ac, action_valid ac -> refs_ok (VS := http_vars_spec sys_errlist) st -> Z.of_nat (length (elts (var_refs st)) + action_cost ac) <= 43690 ->
     gives alloc (action_init st ac) (fun x => grows sys_errlist st (action_cost ac) x.2 /\ action_is x.2 ac x.1)) ->
  (forall st st' ac a, extends st st' -> action_is st ac a -> action_is st' ac a) ->
  var_hash_ok (VS := http_vars_spec sys_errlist) var_hash ->
  Forall byte buf /\ length buf = Z.to_nat NXT_CONF_MAX_TOKEN_LEN ->
  (forall i, length (source_mem i) = 16%nat) -> (forall i, length (destination_mem i) = 16%nat) ->
  Forall (fun nr => route_valid sys_errlist action_valid nr.2) (named_routes cv) ->
  refs_ok (VS := http_vars_spec sys_errlist) st -> Z.of_nat (length (elts (var_refs st)) + routes_cost action_cost cv) <= 43690 ->
  gives alloc (nxt_http_routes_create sys_errlist alloc var_hash action_init buf source_mem destination_mem st cv) (fun '(routes, st') =>
    grows sys_errlist st (routes_cost action_cost cv) st' /\ routes_mean sys_errlist alloc action_is st' cv routes /\
    forall name, match nxt_http_route_find (Some routes) name with
      | Some route => exists rcv, (name, rcv) ∈ named_routes cv /\ route_means sys_errlist alloc action_is st' name rcv route
      | None => name ∉ (named_routes cv).*1
      end).
Proof.
  intros Ha He Hvars Hb Hs Hd Hv Hst Hn. eapply gives_conseq; [by eapply routes_create_ok|]. intros [routes st'] [Hg Hr].
  split_and!; [done..|]. intros name. by apply route_find_ok.
Qed.

(** [{"match": {"uri": "/a*", "if": "$arg_x"}, "action": {}}] *)
Definition sample_step : conf_value :=
  VALUE_OBJECT
    [(SHORT_STRING (bytes_of_string "match"),
      VALUE_OBJECT [(SHORT_STRING (bytes_of_string "uri"), VALUE_STRING (SHORT_STRING (bytes_of_string "/a*")));
                    (SHORT_STRING (bytes_of_string "if"), VALUE_STRING (SHORT_STRING (bytes_of_string "$arg_x")))]);
     (SHORT_STRING (bytes_of_string "action"), VALUE_OBJECT [])].

Definition sample_if : list part := [Named (bytes_of_string "arg_x") false].

Lemma sample_if_known : ~ unknown_in (VS := @http_vars_spec no_floats []) (bytes_of_string "$arg_x").
Proof.
  assert (Ht : template sample_if) by (by split_and!).
  intros [Hno|(ps & n & Hps & Et & Hn & Hres)]; [apply (Hno sample_if Ht); vm_compute; reflexivity|].
  rewrite (template_unique ps sample_if Hps Ht Et) in Hn. change (n ∈ [bytes_of_string "arg_x"]) in Hn.
  apply list_elem_of_singleton in Hn. subst n. vm_compute in Hres. discriminate.
Qed.

Lemma sample_step_valid : @step_valid no_regex no_floats [] (fun _ => True) sample_step.
Proof.
  split; [by eexists|]. split.
  - intros mc [= <-]. eexists. split; [done|]. split; [by apply (bool_decide_unpack _)|].
    constructor; [|constructor; [|constructor]].
    + left. exists O_URI. split; [done|]. exists [bytes_of_string "/a*"]. split; [done|]. constructor; [|constructor].
      split; [apply bytes_of_string_byte|]. split; [vm_compute; discriminate|]. rewrite decide_False by done. split.
      * by intros [|[|[|i]]] [[=] [=]].
      * intros seg Hseg. apply list_elem_of_lookup in Hseg as [i Hi].
        do 2 (destruct i as [|i]; [injection Hi as <-; eexists; reflexivity|]). destruct i; discriminate.
    + right. split; [done|]. exists (bytes_of_string "$arg_x"). split; [done|]. split_and!; [done|apply sample_if_known|by vm_compute].
  - by exists (VALUE_OBJECT []).
Qed.

Lemma nxt_http_routes_correct_witness :
  gives (fun _ => true)
    (@nxt_http_routes_create no_regex insertion_qsort no_floats [] (fun _ => true) conf_value sample_vars
       (fun st ac => aret (Some (ac, st))) (repeat 0 256) (fun _ => repeat 0 16) (fun _ => repeat 0 16) no_refs (VALUE_ARRAY [sample_step]))
    (fun x => exists route, x.1 = [route] /\ @route_means no_regex no_floats [] (fun _ => true) conf_value (fun _ => eq) x.2 [] (VALUE_ARRAY [sample_step]) route).
Proof.
  eapply gives_conseq;
    [apply (@nxt_http_routes_correct no_regex insertion_qsort no_floats [] conf_value (fun _ => true) sample_vars (fun st ac => aret (Some (ac, st)))
      (repeat 0 256) (fun _ => repeat 0 16) (fun _ => repeat 0 16) (fun _ => True) (fun _ => 0%nat) (fun _ => eq) no_refs (VALUE_ARRAY [sample_step]))|].
  - intros st ac _ Hst _. apply gives_ret. split; [by apply grows_refl|done].
  - done.
  - apply sample_vars_ok.
  - split; [|done]. apply Forall_forall. intros c Hc%list_elem_of_In%repeat_spec. subst. unfold byte. lia.
  - intros i. apply repeat_length.
  - intros i. apply repeat_length.
  - constructor; [|constructor]. exists [sample_step]. split; [done|]. constructor; [apply sample_step_valid|constructor].
  - apply no_refs_ok.
  - by vm_compute.
  - intros [routes st'] (_ & Hall & _). inversion Hall as [|? route ? rest Hm Hnil]; subst. inversion Hnil; subst. by exists route.
Defined.
